(* ===== verification/_CoqProject ===== *)
-Q . S2P
Prelude.v
Pool.v
PoolOwned.v
Floats.v
RangeIndex.v
GdbProto.v
RustStr.v
RustText.v
Errors.v
Serial.v
LeBytes.v
BreakpointData.v
Registers.v
RegistersSpec.v
XsaveSpec.v
GdbRemote.v
GdbRemoteSpec.v
StateMonad.v
Breakpoints.v
BreakpointsSpec.v
BreakpointRefs.v
BreakpointLists.v
BreakpointReconcile.v
HardwareSlots.v
MemReader.v
CoreDump.v
MemMaps.v
MemMapsSpec.v
ExprLexer.v
ExprLexerSpec.v
ExprParser.v
ExprParserSpec.v
ExprPrint.v
ExprRoundtrip.v
ValueBlob.v
ValueBlobSpec.v
ValueSpec.v
Types.v
ExprValues.v
ExprValuesSpec.v
ExprEval.v
ExprEvalSpec.v
GdbRegs.v
GdbRegsSpec.v
GdbSession.v
StdSort.v
LineInfo.v
MergeIterator.v
Symbols.v
DebugLine.v
DebugLineSpec.v
LinesSpec.v
Subfunctions.v
SubfunctionsSpec.v
SubfunctionTree.v
SymbolsLoad.v
FunctionsSpec.v
LookupSpec.v
Simd.v
FuzzyMatch.v
FuzzyMatchSpec.v
SearchTasks.v
SearchTasksSpec.v
SearchersSpec.v
Tabs.v
Rect.v
Layout.v
LayoutTree.v
LayoutSimplify.v
LayoutSpec.v
LayoutMove.v
LayoutInv.v
LayoutBuild.v
LayoutBuildSpec.v
LayoutPlace.v
LayoutFrame.v
LayoutLoop.v
LayoutFrameSpec.v
LayoutShow.v
LayoutFrameProps.v
