(* ===== verification/Prelude.v ===== *)
(** * nnd: a Rocq model of the debugger's own logic

    nnd is a debugger for native programs on Linux with a text user interface.
    This development models the parts of it that are logic of its own rather
    than calls of the kernel, of gimli, of binutils or of the terminal, and
    proves what makes each part correct. Every definition is a translation of
    the Rust source under src/src/; definitions keep the source's names, with
    a prefix or a suffix where two names meet in one file.

    ** Conventions

    A machine integer is a [Z], with overflow written out at every operation
    that can overflow ([uadd], [usub], [wrap8], ...): the profiles dev and dbgo
    (the one the README builds) check for overflow, so an overflow is a panic. A
    fallible function returns an [outcome]: a value, an error ([Errors.Error]: the code, without
    the message) or a panic. A method on [&mut self] is a function of type
    [StateMonad.stm] (or [GdbRemote.M] for the remote client, which also
    records what is written to the socket): the state is kept on errors, as
    in Rust. Debug assertions are assertions (the profile dbgo keeps them).
    A loop or a recursion that is not structural takes fuel, and running out of
    fuel is a panic; since the theorems say that there is no panic, they say
    that the fuel is enough. Bytes are [Z]s below 256; a [str] is a list of
    bytes that is valid UTF-8 (RustStr.v) except in the lexer of expressions,
    where it is a list of characters.

    ** Parts

    - Prelude: outcomes, checked arithmetic, lists indexed by [Z], the hint
      database and the tactics shared by all files. StateMonad: methods that
      fail, with the predicates [wp] (no panic, errors allowed) and [returns]
      (success) by which the proofs run them. RustStr, RustText: the functions
      of Rust's standard library on strings that the source uses. LeBytes:
      arithmetic of little-endian byte strings.
    - Errors: src/error.rs. Serial: ByteRead and ByteWrite of src/util.rs, and
      the class [Codec] against which save formats are proved.
    - Pool: src/pool.rs, the generational pool behind threads, breakpoints and
      watches. Refinement of finite maps; identifiers that are gone never
      resolve again, whatever operations follow. PoolOwned: the entries of a
      pool, up to order, for proofs about objects that name each other or are
      ordered by their age.
    - RangeIndex: src/range_index.rs. The innermost range at an address, and
      the search for many addresses at once as a filter.
    - Registers, RegistersSpec, XsaveSpec: src/registers.rs. General and vector
      registers, their names and DWARF numbers, and the XSAVE area.
    - GdbProto: src/gdbproto.rs. Framing and escaping of packets, and the
      decoder as a state machine fed with arbitrary pieces.
    - GdbRemote, GdbRemoteSpec: src/gdb_remote.rs. The client: requests,
      replies, memory transfers, stop replies. The socket is the environment: a
      script of the results of reads, writes and clock tests.
    - GdbRegs, GdbRegsSpec, GdbSession: the part of src/debugger.rs that connects
      to a stub: target description, register packets, the thread addressed.
    - BreakpointData: breakpoints as data and the save file (src/debugger.rs,
      locators of src/procfs.rs and src/symbols.rs).
    - Breakpoints: breakpoint management of src/debugger.rs: the list of
      breakpoints (a Pool), the sorted list of code locations and the four
      debug register slots, planted through ptrace or through GdbRemote. Its
      properties are in BreakpointsSpec (one location), BreakpointRefs
      (references), BreakpointLists (the sorted list), BreakpointReconcile
      (handle_breakpoints as a whole) and HardwareSlots (debug registers).
    - MemReader: CachedMemReader of src/procfs.rs. CoreDump: the memory of a core
      dump (src/elf.rs) and the readers that choose between a process, a core
      dump and a stub. MemMaps, MemMapsSpec: /proc/pid/maps (src/procfs.rs).
    - ValueBlob, ValueBlobSpec, ValueSpec: values of expressions (src/expr.rs),
      their bits, and values in several pieces.
    - ExprLexer, ExprLexerSpec, ExprParser, ExprParserSpec, ExprPrint,
      ExprRoundtrip: the watch expressions of src/interp.rs as text: lexer,
      parser, and a printer that is the parser's inverse.
    - Floats: Rust's f64 as its bits, on the binary floats of the Standard
      Library. Types: src/types.rs, the records of types, their sizes, and the
      types evaluation adds. ExprValues, ExprValuesSpec: the operators of
      src/interp.rs on values (numbers of every width, casts, pointers, arrays,
      slices, strings). ExprEval, ExprEvalSpec: the interpreter that walks the
      syntax tree; the reference semantics of arithmetic it refines.
    - StdSort: sorting of slices, with the order of equal keys left open (class
      [SliceSort]). LineInfo: the packed line of src/symbols.rs, its fields and
      its sorting keys. MergeIterator: src/util.rs, the merge of sorted slices,
      whatever the heap does with equal keys (class [BinaryHeap]).
    - Symbols: the tables of src/symbols.rs (functions, inlined calls, lines,
      variables) and all lookups in them. DebugLine, DebugLineSpec: reading the
      rows of .debug_line. LinesSpec: sorting of lines and the iterator that
      merges the shards. Subfunctions, SubfunctionsSpec, SubfunctionTree: the
      inlined calls of a function, and the sweep that makes a tree of them.
      SymbolsLoad, FunctionsSpec, LookupSpec: .symtab, sections, sorting and
      merging of functions, references between them, lookups by address and by
      line.
    - Simd: the vector instructions that are used. FuzzyMatch, FuzzyMatchSpec:
      queries, substring search and scores of src/search.rs. SearchTasks,
      SearchTasksSpec, SearchersSpec: the searchers, and the tasks of a search as
      a step relation on jobs that run in any order.
    - Tabs, Rect: a row of tabs (src/widgets.rs) and rectangles of cells
      (src/common_ui.rs). Layout: src/layout.rs, the
      tree of regions kept in a pool with its windows: splitting, merging,
      moving, attaching, saving and loading. Its properties are in LayoutTree
      (pool and tree, and arrangements: the tree with its splits merged, without
      sizes), LayoutSimplify, LayoutSpec, LayoutMove (windows in leaves, moves as
      edits of the tree) and LayoutInv (the invariant of reachable layouts).
    - LayoutBuild, LayoutBuildSpec, LayoutPlace: [build_split], the geometry of
      one split and of a tree of splits. LayoutFrame: a frame, [build] as a
      whole, over what the toolkit answers in it (the record [Frame]). Its steps
      are in LayoutLoop (the loop over the regions), LayoutFrameSpec (active
      leaf, areas) and LayoutShow (tabs and windows shown), its properties in
      LayoutFrameProps.

    ** What the theorems show

    - Invariants and types: identifiers held by locations and slots name live
      breakpoints through every operation and error path
      (BreakpointRefs.reference_integrity); a session that connected has a
      layout and a live thread to address (GdbSession.session_well_formed);
      a reachable layout is a tree of regions in which each window names the
      one leaf it is a tab of (LayoutInv.layout_invariant);
      whatever ranges the debug information has, inlined calls end up as a tree
      of nested ranges (SubfunctionTree.inlined_calls_form_a_tree); the two
      tables of lines agree (DebugLineSpec.debug_line_tables_agree).
    - Refinement and equivalence: the pool and the location list implement maps;
      the searches of RangeIndex equal filters; list_binaries keeps the first
      occurrences; the text of an arithmetic expression is lexed, parsed and
      evaluated to its value in 64-bit two's complement arithmetic
      (ExprEvalSpec.arithmetic_expression_value); substring search with vector
      instructions and without give the same (FuzzyMatchSpec); the iterator over
      the lines of all shards is the merge of their tables (LinesSpec); looking
      up an address in a function's tables gives the innermost inlined call.
    - Functional correctness: planting and removing trap instructions, debug
      registers, reconciling locations with threads, memory through the cache,
      core dumps and the stub, bit ranges and joins of values, vector registers,
      integer casts, pointer arithmetic; the arrangement that a moved window
      leaves (LayoutInv.relocate_moves_one_window), and that the regions after a
      frame, and the windows it shows, tile the screen; the sorted table of functions, the
      lookups of functions, ranges and lines by address and of addresses by line;
      the score of a name and what a search for functions reports, for
      queries with and without a file and a line.
    - Round trips: the save file, loaded into the breakpoints of a new debugger
      or any others, packets, stop replies, register packets and
      descriptions, variable-length integers, /proc/pid/maps, expressions.
    - Interleaving: in whatever order the tasks of a search run and report, it is
      complete exactly when all are done, with the best results of all
      (SearchTasksSpec.search_complete_with_best).
    - Termination, bounds, errors and liveness: the parser ends on every text; a
      search ends, with all results unless it is cancelled, and with none after
      that (SearchTasksSpec.search_terminates);
      requests end whatever the socket does; merging splits ends; no operation
      on values or on the XSAVE area leaves its bounds; the children of a split get their cells to
      within one; a frame of the user interface panics on no input
      (LayoutFrameProps.frame_never_panics); which stop replies make the parser panic; a
      refreshed thread shows the registers of the stub.

    ** Fuel

    The parser takes as many turns as the text has characters and one more:
    every turn eats a token, which has a character. The lexer's loops take the
    characters that are left and one more. The client's loops take the script
    of the socket. The loops of CachedMemReader take the pages of the range or
    the bytes of the limit. XML and lists are bounded by their text. The
    interpreter takes the nodes of the tree and one more; an enum's underlying
    type is found within as many steps as there are types. The walk over the
    ranges of a function takes the index of its entry and one more, as indices
    decrease. A merge takes the items of its sources and one more. The loops
    over regions take the slots of their pool and one more, as no region is seen
    twice.

    ** Parameters

    What is not under src/: the standard library's [f64::powi], whose precision
    is left open (class [Powi]), the kernel's answers to ptrace and reads (the
    record of the machine in Breakpoints, the functions that read memory in
    MemReader and CoreDump), and the answers of the stub. The interpreter of
    expressions asks the symbols, the pretty printers and the reflection of
    types through the class [ExprEval.Debuggee], whose instance can do anything
    to the state of the interpreter. The sorts and the heap of the standard
    library may order equal keys as they like. Rows of .debug_line are what gimli
    gives; the demangler of names is a function that may fail; a path is an
    abstract type with its file name and directory. Names are at any address, in
    a memory of which only the 64-byte lines that a name touches need be mapped.
    The content of a window is the class [Layout.WindowContent]; the keys, clicks,
    drags and drops of a frame are the record [LayoutFrame.Frame].
    Allocation always succeeds.

    ** Not modelled

    Of the symbols, the loop over the entries of .debug_info, types, the tables
    of files and the arenas they live in (gimli and raw pointers); of the search,
    types and the formatting of results. Unwinding and DWARF expressions (gimli),
    disassembly (binutils), the formatting of values, writing core dumps,
    statistics and the profiler (sequences of system calls), settings. Of the user
    interface, the widgets and their layout, the drawing of walls and tabs, the
    contents of windows and the terminal; that the bitmap of wall pieces is never
    indexed outside its bounds is proved in LayoutBuildSpec. Of debugger.rs, the
    loop that handles ptrace events and steps, and the event loop of a remote
    session; of dwarf.rs, the slice reader; of disasm.rs, the classification of
    instructions. *)
From Stdlib Require Import ZArith Lia Bool String.
From stdpp Require Export base list option sorting.
From stdpp Require Import gmap.

#[export] Set Default Proof Using "Type".

Declare Scope nnd_scope.
Delimit Scope nnd_scope with nnd.

(** ** Outcomes

    A Rust function of the repository returns a value, returns an error, or
    panics (an [unwrap] of [None], an index out of range, a failed [assert!],
    an arithmetic overflow in the profiles with overflow checks).
    All panics are identified: the profiles of Cargo.toml abort on them. *)

Inductive outcome (E A : Type) : Type :=
  | Ret (a : A)
  | Fail (e : E)
  | Panic.
Arguments Ret {E A} a.
Arguments Fail {E A} e.
Arguments Panic {E A}.

#[export] Instance outcome_ret {E} : MRet (outcome E) := fun A a => Ret a.
#[export] Instance outcome_bind {E} : MBind (outcome E) := fun A B f m =>
  match m with
  | Ret a => f a
  | Fail e => Fail e
  | Panic => Panic
  end.

(** [lift_opt] is [.unwrap()] and [slice[i]]: [None] panics. *)
Definition lift_opt {E A} (o : option A) : outcome E A :=
  match o with Some a => Ret a | None => Panic end.

(** [assert!(b)]. *)
Definition rassert {E} (b : bool) : outcome E unit := if b then Ret tt else Panic.

(** Functions that can only return or panic. *)
Abbreviation partial := (outcome Empty_set).

(** A call of such a function from one that can fail. *)
Definition widen {E A} (m : partial A) : outcome E A :=
  match m with Ret a => Ret a | Fail e => match e with end | Panic => Panic end.

(** The outcome is a value or an error, never a panic. *)
Definition no_panic {E A} (m : outcome E A) : Prop := m <> Panic.

Lemma bind_Ret {E A B} (m : outcome E A) (f : A -> outcome E B) b :
  m ≫= f = Ret b <-> exists a, m = Ret a /\ f a = Ret b.
Proof. destruct m; simpl; naive_solver. Qed.

Lemma bind_no_panic {E A B} (m : outcome E A) (f : A -> outcome E B) :
  no_panic m -> (forall a, m = Ret a -> no_panic (f a)) -> no_panic (m ≫= f).
Proof. unfold no_panic. destruct m; simpl; naive_solver. Qed.

(** ** Machine integers

    An unsigned w-bit integer is a [Z] in [0, 2^w). *)

Definition U64_MAX : Z := 2 ^ 64 - 1.
Definition is_u8 (x : Z) : Prop := (0 <= x < 256)%Z.
Definition is_u64 (x : Z) : Prop := (0 <= x < 2 ^ 64)%Z.
Definition wrap64 (x : Z) : Z := (x mod 2 ^ 64)%Z.
Definition wrap8 (x : Z) : Z := (x mod 256)%Z.

(** [a + b], [a - b], [a * b] on [usize] in a build with overflow checks. *)
Definition uadd {E} (a b : Z) : outcome E Z :=
  if (a + b <? 2 ^ 64)%Z then Ret (a + b)%Z else Panic.
Definition usub {E} (a b : Z) : outcome E Z :=
  if (b <=? a)%Z then Ret (a - b)%Z else Panic.
Definition umul {E} (a b : Z) : outcome E Z :=
  if (a * b <? 2 ^ 64)%Z then Ret (a * b)%Z else Panic.
(** [checked_add], [checked_mul], [saturating_sub], [wrapping_add], [wrapping_sub]. *)
Definition checked_add (a b : Z) : option Z :=
  if (a + b <? 2 ^ 64)%Z then Some (a + b)%Z else None.
Definition checked_mul (a b : Z) : option Z :=
  if (a * b <? 2 ^ 64)%Z then Some (a * b)%Z else None.
Definition saturating_sub (a b : Z) : Z := Z.max 0 (a - b).
Definition saturating_add (a b : Z) : Z := Z.min U64_MAX (a + b).
Definition wrapping_add (a b : Z) : Z := wrap64 (a + b).
Definition wrapping_sub (a b : Z) : Z := wrap64 (a - b).

(** ** Vectors indexed by machine integers *)

Definition zlen {A} (l : list A) : Z := Z.of_nat (length l).
(** [v.get(i)] *)
Definition zget {A} (l : list A) (i : Z) : option A :=
  if ((0 <=? i) && (i <? zlen l))%Z then l !! Z.to_nat i else None.
(** [v[i] = x] with [i] in range. *)
Definition zset {A} (l : list A) (i : Z) (x : A) : list A :=
  if ((0 <=? i) && (i <? zlen l))%Z then <[Z.to_nat i := x]> l else l.
(** [&v[a..b]], panicking like Rust when the range is not within the slice. *)
Definition zslice {E A} (l : list A) (a b : Z) : outcome E (list A) :=
  if ((0 <=? a) && (a <=? b) && (b <=? zlen l))%Z
  then Ret (take (Z.to_nat (b - a)) (drop (Z.to_nat a) l)) else Panic.

Lemma zlen_nonneg {A} (l : list A) : (0 <= zlen l)%Z.
Proof. unfold zlen. lia. Qed.
Lemma zlen_app {A} (l k : list A) : zlen (l ++ k) = (zlen l + zlen k)%Z.
Proof. unfold zlen. rewrite length_app. lia. Qed.
Lemma zlen_cons {A} (x : A) l : zlen (x :: l) = (1 + zlen l)%Z.
Proof. unfold zlen. simpl. lia. Qed.
Lemma zlen_nil {A} : zlen (@nil A) = 0%Z.
Proof. reflexivity. Qed.

Lemma zget_lookup {A} (l : list A) (i : Z) :
  (0 <= i)%Z -> zget l i = l !! Z.to_nat i.
Proof.
  intros Hi. unfold zget, zlen.
  destruct (Z.leb_spec 0 i); [simpl|lia].
  destruct (Z.ltb_spec i (Z.of_nat (length l))); [done|].
  symmetry. apply lookup_ge_None_2. lia.
Qed.

Lemma zget_of_nat {A} (l : list A) (n : nat) : zget l (Z.of_nat n) = l !! n.
Proof. rewrite zget_lookup by lia. by rewrite Nat2Z.id. Qed.

Lemma zget_Some {A} (l : list A) (i : Z) x :
  zget l i = Some x <-> (0 <= i)%Z /\ l !! Z.to_nat i = Some x.
Proof.
  unfold zget, zlen. split.
  - case_match eqn:E; [|done]. apply andb_true_iff in E as [E _].
    intros ?. split; [|done]. lia.
  - intros [? Hx]. pose proof (lookup_lt_Some _ _ _ Hx).
    destruct (Z.leb_spec 0 i); [simpl|lia].
    destruct (Z.ltb_spec i (Z.of_nat (length l))); [done|lia].
Qed.

Lemma zset_insert {A} (l : list A) (i : Z) x :
  (0 <= i)%Z -> zset l i x = <[Z.to_nat i := x]> l.
Proof.
  intros Hi. unfold zset, zlen.
  destruct (Z.leb_spec 0 i); [simpl|lia].
  destruct (Z.ltb_spec i (Z.of_nat (length l))); [done|].
  symmetry. apply list_insert_ge. lia.
Qed.

Lemma zset_of_nat {A} (l : list A) (n : nat) x : zset l (Z.of_nat n) x = <[n := x]> l.
Proof. rewrite zset_insert by lia. by rewrite Nat2Z.id. Qed.

Lemma zlen_zset {A} (l : list A) (i : Z) x : zlen (zset l i x) = zlen l.
Proof. unfold zset, zlen. case_match; [|done]. by rewrite length_insert. Qed.

Lemma zget_zset_eq {A} (l : list A) (i : Z) x y :
  zget l i = Some y -> zget (zset l i x) i = Some x.
Proof.
  intros [? Hi]%zget_Some. rewrite zset_insert, zget_lookup by done.
  apply list_lookup_insert_eq. by eapply lookup_lt_Some.
Qed.

Lemma zget_zset_ne {A} (l : list A) (i j : Z) x :
  i <> j -> zget (zset l i x) j = zget l j.
Proof.
  intros Hne. unfold zset. destruct ((0 <=? i) && (i <? zlen l))%Z eqn:Ei; [|done].
  apply andb_true_iff in Ei as [Hi%Z.leb_le _].
  unfold zget, zlen. rewrite length_insert.
  destruct (Z.leb_spec 0 j); simpl; [|done]. case_match; [|done].
  apply list_lookup_insert_ne. lia.
Qed.

Lemma zget_app {A} (l k : list A) (i : Z) :
  zget (l ++ k) i = if (i <? zlen l)%Z then zget l i else zget k (i - zlen l).
Proof.
  unfold zget. rewrite zlen_app. pose proof (zlen_nonneg k). unfold zlen in *.
  destruct (Z.ltb_spec i (Z.of_nat (length l))).
  - destruct (Z.leb_spec 0 i); simpl; [|done].
    rewrite (proj2 (Z.ltb_lt i _)) by lia. apply lookup_app_l. lia.
  - rewrite (proj2 (Z.leb_le 0 i)) by lia. rewrite (proj2 (Z.leb_le 0 (i - _))) by lia. simpl.
    destruct (Z.ltb_spec (i - Z.of_nat (length l)) (Z.of_nat (length k))).
    + rewrite (proj2 (Z.ltb_lt i _)) by lia. rewrite lookup_app_r by lia. f_equal. lia.
    + by rewrite (proj2 (Z.ltb_ge i _)) by lia.
Qed.

Lemma zget_nil {A} (i : Z) : zget (@nil A) i = None.
Proof. unfold zget. by case_match. Qed.

Lemma zget_cons {A} (x : A) (l : list A) (i : Z) :
  zget (x :: l) i = if (i =? 0)%Z then Some x else if (i <? 0)%Z then None else zget l (i - 1).
Proof.
  destruct (Z.eqb_spec i 0) as [->|Hi]; [done|].
  destruct (Z.ltb_spec i 0).
  - unfold zget. by rewrite (proj2 (Z.leb_gt 0 i)) by lia.
  - rewrite !zget_lookup by lia. replace (Z.to_nat i) with (S (Z.to_nat (i - 1))) by lia. done.
Qed.

Lemma zget_range {A} (l : list A) (i : Z) :
  is_Some (zget l i) <-> (0 <= i < zlen l)%Z.
Proof.
  unfold zget, zlen. destruct (Z.leb_spec 0 i); simpl.
  - destruct (Z.ltb_spec i (Z.of_nat (length l))).
    + split; [lia|]. intros _. apply lookup_lt_is_Some. lia.
    + split; [intros []; done|lia].
  - split; [intros []; done|lia].
Qed.

Lemma zget_take_drop {A} (l : list A) (a n k : Z) :
  (0 <= a)%Z -> (0 <= k < n)%Z -> zget (take (Z.to_nat n) (drop (Z.to_nat a) l)) k = zget l (a + k).
Proof.
  intros Ha Hk. rewrite !zget_lookup by lia. rewrite lookup_take_lt, lookup_drop by lia. f_equal. lia.
Qed.

Lemma zslice_ok {E A} (l : list A) a b :
  (0 <= a <= b)%Z -> (b <= zlen l)%Z ->
  zslice (E:=E) l a b = Ret (take (Z.to_nat (b - a)) (drop (Z.to_nat a) l)).
Proof.
  intros Ha Hb. unfold zslice.
  by rewrite (proj2 (Z.leb_le 0 a)), (proj2 (Z.leb_le a b)), (proj2 (Z.leb_le b _)) by lia.
Qed.

Lemma zslice_all {E A} (l : list A) : zslice (E:=E) l 0 (zlen l) = Ret l.
Proof.
  unfold zslice. pose proof (zlen_nonneg l).
  rewrite (proj2 (Z.leb_le 0 0)), (proj2 (Z.leb_le 0 (zlen l))), Z.leb_refl by lia.
  simpl. rewrite drop_0, Z.sub_0_r. unfold zlen. rewrite Nat2Z.id.
  by rewrite take_ge by lia.
Qed.

(** [slice.partition_point(pred)], for a slice that [pred] partitions: the
    number of leading elements that satisfy [pred]. *)
Fixpoint partition_point {A} (pred : A -> bool) (l : list A) : nat :=
  match l with
  | [] => O
  | x :: l => if pred x then S (partition_point pred l) else O
  end.

Lemma partition_point_le {A} (pred : A -> bool) l :
  (partition_point pred l <= length l)%nat.
Proof. induction l; simpl; [lia|]. case_match; simpl; lia. Qed.

Lemma partition_point_before {A} (pred : A -> bool) l k x :
  (k < partition_point pred l)%nat -> l !! k = Some x -> pred x = true.
Proof.
  revert k. induction l as [|y l IH]; intros k; simpl; [lia|].
  destruct (pred y) eqn:E; [|lia]. destruct k; simpl; [naive_solver|].
  intros ?. apply IH. lia.
Qed.

Lemma partition_point_at {A} (pred : A -> bool) l x :
  l !! partition_point pred l = Some x -> pred x = false.
Proof.
  induction l as [|y l IH]; simpl; [done|]. destruct (pred y) eqn:E; simpl; [done|naive_solver].
Qed.

(** When [pred] is closed downwards along the list, everything from the
    partition point on fails it. *)
Lemma partition_point_after {A} (pred : A -> bool) l k x :
  (forall i j y z, (i < j)%nat -> l !! i = Some y -> l !! j = Some z ->
     pred z = true -> pred y = true) ->
  (partition_point pred l <= k)%nat -> l !! k = Some x -> pred x = false.
Proof.
  intros Hmono Hk Hx. destruct (pred x) eqn:E; [|done].
  destruct (lookup_lt_is_Some_2 l (partition_point pred l)) as [y Hy].
  { apply lookup_lt_Some in Hx. lia. }
  pose proof (partition_point_at _ _ _ Hy) as Hf.
  destruct (decide (partition_point pred l = k)) as [<-|]; [congruence|].
  rewrite (Hmono (partition_point pred l) k y x) in Hf; [done|lia|done|done|done].
Qed.

(** ** Automation *)

Create HintDb nnd.
Create Rewrite HintDb nnd.
#[export] Hint Rewrite @zlen_app @zlen_cons @zlen_nil : nnd.
#[export] Hint Resolve zlen_nonneg : nnd.

(** Turns boolean comparisons on [Z] in hypotheses and goal into
    propositions. *)
Ltac zbool :=
  repeat match goal with
  | H : context [?b && ?c = true] |- _ => rewrite andb_true_iff in H
  | H : context [?b || ?c = true] |- _ => rewrite orb_true_iff in H
  | H : context [?b && ?c = false] |- _ => rewrite andb_false_iff in H
  | H : context [?b || ?c = false] |- _ => rewrite orb_false_iff in H
  | H : context [(_ <? _)%Z = true] |- _ => rewrite Z.ltb_lt in H
  | H : context [(_ <? _)%Z = false] |- _ => rewrite Z.ltb_ge in H
  | H : context [(_ <=? _)%Z = true] |- _ => rewrite Z.leb_le in H
  | H : context [(_ <=? _)%Z = false] |- _ => rewrite Z.leb_gt in H
  | H : context [(_ =? _)%Z = true] |- _ => rewrite Z.eqb_eq in H
  | H : context [(_ =? _)%Z = false] |- _ => rewrite Z.eqb_neq in H
  | H : context [negb ?b = true] |- _ => rewrite negb_true_iff in H
  | H : context [negb ?b = false] |- _ => rewrite negb_false_iff in H
  end.

(** A condition on every element of a concrete byte list. *)
Ltac solve_bytes :=
  hnf;
  match goal with
  | |- List.Forall ?P ?l => let l' := eval vm_compute in l in change (List.Forall P l')
  end;
  repeat (apply List.Forall_cons; [cbv beta; unfold is_u8; lia|]); apply List.Forall_nil.
