(* ===== verification/Pool.v ===== *)
(** The generational object pool of src/pool.rs: slots that are reused,
    identifiers ([Id]) that are not. *)
From Stdlib Require Import ZArith Lia.
From stdpp Require Import gmap.
From S2P Require Import Prelude.
Open Scope Z_scope.

Record Id := mkId { slot : Z; seqno : Z }.
#[export] Instance Id_eq_dec : EqDecision Id.
Proof. solve_decision. Defined.
#[export] Instance Id_countable : Countable Id.
Proof.
  refine (inj_countable' (fun i => (slot i, seqno i)) (fun p => mkId p.1 p.2) _).
  by intros [].
Defined.

(** [Id::default()]: no slot can have index [usize::MAX]. *)
Definition Id_default : Id := mkId U64_MAX U64_MAX.

Record Slot (T : Type) := mkSlot { s_seqno : Z; val : option T }.
Arguments mkSlot {T} s_seqno val.
Arguments s_seqno {T} s.
Arguments val {T} s.

Record Pool (T : Type) := mkPool {
  slots : list (Slot T);
  vacant : list Z;    (* a stack: the last element is popped first *)
  next_seqno : Z
}.
Arguments mkPool {T} slots vacant next_seqno.
Arguments slots {T} p.
Arguments vacant {T} p.
Arguments next_seqno {T} p.

Section Ops.
  Context {T : Type}.
  Implicit Types p : Pool T.

Definition new : Pool T := mkPool [] [] 1.

(** [self.vacant.pop()]: the popped slot and the remaining stack. *)
Definition pop (v : list Z) : option (Z * list Z) :=
  match last v with
  | Some x => Some (x, take (length v - 1) v)
  | None => None
  end.

Definition add p (x : T) : partial (Id * Pool T) :=
  let seqno := next_seqno p in
  next' ← uadd seqno 1;
  match pop (vacant p) with
  | Some (slot, vacant') =>
      _ ← lift_opt (zget (slots p) slot);
      Ret (mkId slot seqno,
           mkPool (zset (slots p) slot (mkSlot seqno (Some x))) vacant' next')
  | None =>
      let slots' := slots p ++ [mkSlot seqno (Some x)] in
      Ret (mkId (zlen slots' - 1) seqno, mkPool slots' (vacant p) next')
  end.

Definition remove p (id : Id) : option T * Pool T :=
  match zget (slots p) (slot id) with
  | None => (None, p)
  | Some s =>
      if negb (s_seqno s =? seqno id) then (None, p)
      else
        let slots' := zset (slots p) (slot id) (mkSlot (s_seqno s) None) in
        match val s with
        | Some v => (Some v, mkPool slots' (vacant p ++ [slot id]) (next_seqno p))
        | None => (None, mkPool slots' (vacant p) (next_seqno p))
        end
  end.

(** The loop of [clear] over the remaining slots, the first of which has
    index [i]: the emptied slots and the slots pushed on [vacant]. *)
Fixpoint clear_from (i : Z) (ss : list (Slot T)) : list (Slot T) * list Z :=
  match ss with
  | [] => ([], [])
  | s :: rest =>
      let '(rest', pushed) := clear_from (i + 1) rest in
      (mkSlot (s_seqno s) None :: rest',
       match val s with Some _ => i :: pushed | None => pushed end)
  end.

Definition clear p : Pool T :=
  let '(slots', pushed) := clear_from 0 (slots p) in
  mkPool slots' (vacant p ++ pushed) (next_seqno p).

Definition try_get p (id : Id) : option T :=
  match zget (slots p) (slot id) with
  | None => None
  | Some s => if negb (s_seqno s =? seqno id) then None else val s
  end.

(** [try_get_mut] followed by an assignment through the reference. *)
Definition try_get_mut p (id : Id) (f : T -> T) : option (Pool T) :=
  match zget (slots p) (slot id) with
  | None => None
  | Some s =>
      if negb (s_seqno s =? seqno id) then None
      else match val s with
           | Some v => Some (mkPool (zset (slots p) (slot id) (mkSlot (s_seqno s) (Some (f v))))
                                    (vacant p) (next_seqno p))
           | None => None
           end
  end.

Definition get p (id : Id) : partial T := lift_opt (try_get p id).
Definition get_mut p (id : Id) (f : T -> T) : partial (Pool T) := lift_opt (try_get_mut p id f).

Definition is_empty p : partial bool :=
  _ ← rassert (zlen (vacant p) <=? zlen (slots p));
  Ret (zlen (slots p) =? zlen (vacant p)).

(** [PoolIter]: the [while] loop that skips empty slots; [fuel] is at least
    the number of slots left. *)
Fixpoint skip_empty (fuel : nat) p (slot : Z) : Z :=
  match fuel with
  | O => slot
  | S fuel =>
      match zget (slots p) slot with
      | Some (mkSlot _ None) => skip_empty fuel p (slot + 1)
      | _ => slot
      end
  end.

(** [PoolIter::next] at iterator position [it]: the item and the new position. *)
Definition iter_next p (it : Z) : partial (option (Id * T) * Z) :=
  let slot := skip_empty (length (slots p) - Z.to_nat it) p it in
  match zget (slots p) slot with
  | None => Ret (None, slot + 1)
  | Some s => v ← lift_opt (val s); Ret (Some (mkId slot (s_seqno s), v), slot + 1)
  end.

(** A [for] loop over [pool.iter()], collecting. *)
Fixpoint iter_collect (fuel : nat) p (it : Z) : partial (list (Id * T)) :=
  match fuel with
  | O => Ret []
  | S fuel =>
      '(item, it') ← iter_next p it;
      match item with
      | None => Ret []
      | Some x => rest ← iter_collect fuel p it'; Ret (x :: rest)
      end
  end.
Definition iter p : partial (list (Id * T)) := iter_collect (S (length (slots p))) p 0.

(** [PoolIterMut::next]: [idx] counts the slots taken from the slice
    iterator, whose remaining slots are [ss]. *)
Fixpoint iter_mut_next (ss : list (Slot T)) (idx : Z) : option (Id * T) * (list (Slot T) * Z) :=
  match ss with
  | [] => (None, ([], idx + 1))
  | s :: rest =>
      match val s with
      | None => iter_mut_next rest (idx + 1)
      | Some v => (Some (mkId idx (s_seqno s), v), (rest, idx + 1))
      end
  end.
Fixpoint iter_mut_collect (fuel : nat) (ss : list (Slot T)) (idx : Z) : list (Id * T) :=
  match fuel with
  | O => []
  | S fuel =>
      match iter_mut_next ss idx with
      | (None, _) => []
      | (Some x, (rest, idx')) => x :: iter_mut_collect fuel rest idx'
      end
  end.
Definition iter_mut p : list (Id * T) := iter_mut_collect (S (length (slots p))) (slots p) 0.

(** ** Invariant and abstraction *)

(** The live entries in slot order: the specification of both iterators. *)
Fixpoint live_from (i : Z) (ss : list (Slot T)) : list (Id * T) :=
  match ss with
  | [] => []
  | s :: rest =>
      match val s with
      | Some v => (mkId i (s_seqno s), v) :: live_from (i + 1) rest
      | None => live_from (i + 1) rest
      end
  end.
Definition live p : list (Id * T) := live_from 0 (slots p).

(** What the pool stands for: a finite map. *)
Definition abs p : gmap Id T := list_to_map (live p).

(** [vacant] holds exactly the empty slots, once each, and every sequence
    number handed out is below [next_seqno]. *)
Record inv p : Prop := {
  inv_nodup : NoDup (vacant p);
  inv_vacant : forall i, i ∈ vacant p <-> exists s, zget (slots p) i = Some s /\ val s = None;
  inv_seqno : forall i s, zget (slots p) i = Some s -> 0 <= s_seqno s < next_seqno p;
  inv_next : 0 <= next_seqno p < 2 ^ 64
}.

(** The state changes a client can make. *)
Inductive step : Pool T -> Pool T -> Prop :=
  | step_add p x id p' : add p x = Ret (id, p') -> step p p'
  | step_remove p id : step p (remove p id).2
  | step_clear p : step p (clear p)
  | step_write p id f p' : try_get_mut p id f = Some p' -> step p p'.

Definition reachable : Pool T -> Pool T -> Prop := rtc step.
End Ops.

Section Lemmas.
  Context {T : Type}.
  Implicit Types p : Pool T.

(** Slots found by [zget], with the position that [live_from] counts. *)
Lemma live_from_elem i ss (id : Id) (v : T) :
  (id, v) ∈ live_from i ss <->
  exists s, zget ss (slot id - i) = Some s /\ s_seqno s = seqno id /\ val s = Some v.
Proof.
  revert i. induction ss as [|s ss IH]; intros i; simpl.
  { split; [by intros ?%elem_of_nil|]. intros (?&H&_). by rewrite zget_nil in H. }
  assert (Htail : (id, v) ∈ live_from (i + 1) ss <->
    exists s', slot id <> i /\ zget (s :: ss) (slot id - i) = Some s' /\
               s_seqno s' = seqno id /\ val s' = Some v).
  { rewrite IH. split; intros (s'&H); exists s'.
    - destruct H as [H ?]. destruct (zget_range ss (slot id - (i + 1))) as [Hr _].
      specialize (Hr (mk_is_Some _ _ H)).
      rewrite zget_cons, (proj2 (Z.eqb_neq _ 0)), (proj2 (Z.ltb_ge _ 0)) by lia.
      split; [lia|]. by replace (slot id - i - 1) with (slot id - (i + 1)) by lia.
    - destruct H as (?&H&?). rewrite zget_cons, (proj2 (Z.eqb_neq _ 0)) in H by lia.
      case_match; [done|]. by replace (slot id - (i + 1)) with (slot id - i - 1) by lia. }
  destruct (val s) as [w|] eqn:Ev.
  - rewrite elem_of_cons, Htail. split.
    + intros [[= -> ->]|(s'&?&?)]; [|by eauto]. exists s. simpl. rewrite zget_cons.
      by rewrite Z.sub_diag.
    + intros (s'&H). destruct (decide (slot id = i)) as [<-|]; [left|right; by eauto].
      rewrite zget_cons, Z.sub_diag in H. simpl in H. destruct id. naive_solver.
  - rewrite Htail. split; [naive_solver|]. intros (s'&H). exists s'.
    split; [|done]. intros <-. rewrite zget_cons, Z.sub_diag in H. simpl in H. naive_solver.
Qed.

Lemma live_elem p id v : (id, v) ∈ live p <-> try_get p id = Some v.
Proof.
  unfold live, try_get. rewrite live_from_elem, Z.sub_0_r.
  destruct (zget (slots p) (slot id)) as [s|]; [|naive_solver].
  destruct (Z.eqb_spec (s_seqno s) (seqno id)); simpl; naive_solver.
Qed.

Lemma live_from_slots i ss (id : Id) : id ∈ (@live_from T i ss).*1 -> i <= slot id.
Proof.
  intros ([id' v]&->&(s&Hs&_)%live_from_elem)%list_elem_of_fmap. simpl.
  apply mk_is_Some, zget_range in Hs. lia.
Qed.

Lemma live_from_nodup i ss : NoDup (@live_from T i ss).*1.
Proof.
  revert i. induction ss as [|s ss IH]; intros i; simpl; [constructor|].
  destruct (val s); [|done]. simpl. constructor; [|done].
  intros H%live_from_slots. simpl in H. lia.
Qed.

Lemma abs_lookup p id : abs p !! id = try_get p id.
Proof.
  unfold abs. destruct (try_get p id) as [v|] eqn:E.
  - apply live_elem in E. apply elem_of_list_to_map_1; [apply (live_from_nodup 0)|done].
  - apply not_elem_of_list_to_map_1. intros ([id' v]&->&H%live_elem)%list_elem_of_fmap.
    simpl in *. congruence.
Qed.

Lemma pop_spec (v : list Z) :
  match pop v with
  | Some (x, v') => v = v' ++ [x]
  | None => v = []
  end.
Proof.
  unfold pop. destruct (last v) as [x|] eqn:E.
  - apply last_Some in E as [v' ->]. rewrite length_app. simpl.
    by rewrite Nat.add_sub, take_app_length.
  - by apply last_None in E.
Qed.

(** The lookups of a pool one of whose slots was replaced. *)
Lemma try_get_zset p i s s' vac nx id :
  zget (slots p) i = Some s' ->
  try_get (mkPool (zset (slots p) i s) vac nx) id =
  if decide (slot id = i)
  then (if decide (seqno id = s_seqno s) then val s else None) else try_get p id.
Proof.
  intros Hi. unfold try_get. simpl. destruct (decide (slot id = i)) as [->|].
  - rewrite (zget_zset_eq _ _ _ _ Hi).
    destruct (decide (seqno id = s_seqno s)) as [->|]; [by rewrite Z.eqb_refl|].
    by rewrite (proj2 (Z.eqb_neq _ _)) by congruence.
  - by rewrite zget_zset_ne by congruence.
Qed.

Lemma clear_from_spec i ss ss' vs :
  @clear_from T i ss = (ss', vs) ->
  ss' = (fun s => mkSlot (s_seqno s) None) <$> ss /\
  vs = (fun e => slot e.1) <$> live_from i ss.
Proof.
  revert i ss' vs. induction ss as [|s ss IH]; intros i ss' vs; simpl; [by intros [= <- <-]|].
  destruct (clear_from (i + 1) ss) as [r q] eqn:E. intros [= <- <-].
  destruct (IH _ _ _ E) as [-> ->]. by destruct (val s).
Qed.

Lemma zget_fmap {A B} (f : A -> B) (l : list A) i : zget (f <$> l) i = f <$> zget l i.
Proof.
  unfold zget, zlen. rewrite length_fmap. case_match; [|done]. apply list_lookup_fmap.
Qed.

(** A live identifier is the one its slot was given last. *)
Lemma try_get_Some p id v :
  try_get p id = Some v <->
  exists s, zget (slots p) (slot id) = Some s /\ s_seqno s = seqno id /\ val s = Some v.
Proof. rewrite <- live_elem. unfold live. by rewrite live_from_elem, Z.sub_0_r. Qed.

Lemma inv_new : inv (@new T).
Proof.
  constructor; simpl; try (apply NoDup_nil_2 || lia).
  - intros i. split; [by intros ?%elem_of_nil|]. intros (?&H&_). by rewrite zget_nil in H.
  - intros ?? H. by rewrite zget_nil in H.
Qed.
End Lemmas.

(** ** Each operation against the finite map *)

Section Refinement.
  Context {T : Type}.
  Implicit Types p : Pool T.

(** What an operation may change: the map, while keeping the invariant and
    never giving back sequence numbers. *)
Definition becomes p p' (m : gmap Id T) : Prop :=
  inv p' /\ abs p' = m /\ next_seqno p <= next_seqno p'.

Lemma fresh_seqno p id : inv p -> next_seqno p <= seqno id -> abs p !! id = None.
Proof.
  intros Hp Hid. rewrite abs_lookup. destruct (try_get p id) eqn:E; [|done].
  apply try_get_Some in E as (s&Hs&?&_). pose proof (inv_seqno _ Hp _ _ Hs). lia.
Qed.

(** Filling slot [i] (not vacant afterwards) with a fresh sequence number. *)
Lemma inv_fill p i vac s x :
  inv p -> next_seqno p + 1 < 2 ^ 64 ->
  zget (slots p) i = Some s -> vacant p = vac ++ [i] ->
  inv (mkPool (zset (slots p) i (mkSlot (next_seqno p) (Some x))) vac (next_seqno p + 1)).
Proof.
  intros [Hnd Hv Hs Hn] ? Hi Hvac. rewrite Hvac in Hnd.
  apply NoDup_app in Hnd as (Hnd&Hdis&_).
  constructor; simpl; [done| | |lia].
  - intros j. destruct (decide (i = j)) as [<-|Hne].
    + rewrite (zget_zset_eq _ _ _ _ Hi). split.
      * intros Hin. destruct (Hdis _ Hin). by apply list_elem_of_singleton.
      * intros (?&[= <-]&?). done.
    + rewrite zget_zset_ne by done. rewrite <- Hv, Hvac, elem_of_app, list_elem_of_singleton.
      naive_solver.
  - intros j s'. destruct (decide (i = j)) as [<-|Hne].
    + rewrite (zget_zset_eq _ _ _ _ Hi). intros [= <-]. simpl. lia.
    + rewrite zget_zset_ne by done. intros Hj%Hs. lia.
Qed.

Lemma inv_push p x :
  inv p -> next_seqno p + 1 < 2 ^ 64 ->
  inv (mkPool (slots p ++ [mkSlot (next_seqno p) (Some x)]) (vacant p) (next_seqno p + 1)).
Proof.
  intros [Hnd Hv Hs Hn] ?. constructor; simpl; [done| | |lia].
  - intros j. rewrite Hv, zget_app, zget_cons, zget_nil. case_match eqn:E; [done|].
    zbool. split.
    + intros (s&Hk%mk_is_Some%zget_range&_). lia.
    + intros (s&Hs'&?). repeat case_match; naive_solver.
  - intros j s'. rewrite zget_app, zget_cons, zget_nil. case_match.
    + intros Hj%Hs. lia.
    + repeat case_match; try done. intros [= <-]. simpl. lia.
Qed.

Lemma add_refines p x :
  inv p -> next_seqno p + 1 < 2 ^ 64 ->
  exists id p', add p x = Ret (id, p') /\ seqno id = next_seqno p /\
    next_seqno p' = next_seqno p + 1 /\
    abs p !! id = None /\ becomes p p' (<[id := x]> (abs p)).
Proof.
  intros Hp Hlt. unfold add, uadd. rewrite (proj2 (Z.ltb_lt _ _)) by lia. simpl.
  pose proof (pop_spec (vacant p)) as Hpop. destruct (pop (vacant p)) as [[i vac]|].
  - destruct (proj1 (inv_vacant _ Hp i)) as (s&Hs&Hv); [rewrite Hpop; set_solver|].
    rewrite Hs. simpl. eexists _, _. split; [done|].
    split; [done|]. split; [done|]. split; [apply fresh_seqno; simpl; [done|lia]|].
    split; [by eapply inv_fill|]. split; [|simpl; lia].
    apply map_eq. intros id. rewrite abs_lookup, (try_get_zset _ _ _ _ _ _ _ Hs). simpl.
    destruct (decide (id = mkId i (next_seqno p))) as [->|Hne].
    + rewrite lookup_insert_eq. simpl. by rewrite !decide_True by done.
    + rewrite lookup_insert_ne, abs_lookup by congruence.
      destruct (decide (slot id = i)) as [<-|]; [|done].
      rewrite decide_False by (destruct id; simpl in *; congruence).
      unfold try_get. rewrite Hs, Hv. by case_match.
  - eexists _, _. split; [done|]. split; [done|]. split; [done|].
    split; [apply fresh_seqno; simpl; [done|lia]|].
    split; [by apply inv_push|]. split; [|simpl; lia].
    apply map_eq. intros id. rewrite abs_lookup. rewrite zlen_app. change (zlen [_]) with 1.
    replace (zlen (slots p) + 1 - 1) with (zlen (slots p)) by lia.
    destruct (decide (id = mkId (zlen (slots p)) (next_seqno p))) as [->|Hne].
    + rewrite lookup_insert_eq. unfold try_get. simpl.
      rewrite zget_app, (proj2 (Z.ltb_ge _ _)) by lia. rewrite Z.sub_diag. simpl.
      by rewrite Z.eqb_refl.
    + rewrite lookup_insert_ne, abs_lookup by congruence. unfold try_get. simpl.
      rewrite zget_app. destruct (Z.ltb_spec (slot id) (zlen (slots p))); [done|].
      destruct (zget (slots p) (slot id)) eqn:E; [apply mk_is_Some, zget_range in E; lia|].
      rewrite zget_cons, zget_nil. repeat case_match; zbool; simplify_eq/=; try done.
      destruct id; simpl in *. destruct Hne. f_equal; lia.
Qed.

(** Overwriting slot [id] without changing its sequence number. *)
Lemma inv_overwrite p i s v vac :
  inv p -> zget (slots p) i = Some s ->
  NoDup vac ->
  (forall j, j ∈ vac <-> (if decide (j = i) then v = None else j ∈ vacant p)) ->
  inv (mkPool (zset (slots p) i (mkSlot (s_seqno s) v)) vac (next_seqno p)).
Proof.
  intros [Hnd Hv Hs Hn] Hi Hvac Hmem. constructor; simpl; [done| | |done].
  - intros j. rewrite Hmem. case_decide as Hd; [subst j|].
    + rewrite (zget_zset_eq _ _ _ _ Hi). naive_solver.
    + rewrite zget_zset_ne by done. apply Hv.
  - intros j s'. destruct (decide (i = j)) as [<-|Hne].
    + rewrite (zget_zset_eq _ _ _ _ Hi). intros [= <-]. simpl. by apply (Hs i).
    + rewrite zget_zset_ne by done. apply Hs.
Qed.

Lemma abs_overwrite p (id : Id) s v vac :
  inv p -> zget (slots p) (slot id) = Some s -> s_seqno s = seqno id ->
  abs (mkPool (zset (slots p) (slot id) (mkSlot (s_seqno s) v)) vac (next_seqno p)) =
  match v with Some x => <[id := x]> (abs p) | None => delete id (abs p) end.
Proof.
  intros Hp Hs Hq. apply map_eq. intros id'.
  rewrite abs_lookup, (try_get_zset _ _ _ _ _ _ _ Hs). simpl.
  destruct (decide (id' = id)) as [->|Hne].
  - rewrite !decide_True by done. destruct v; by rewrite ?lookup_insert_eq, ?lookup_delete_eq.
  - transitivity (abs p !! id').
    + rewrite abs_lookup. destruct (decide (slot id' = slot id)) as [He|]; [|done].
      rewrite decide_False by (destruct id, id'; simpl in *; congruence).
      unfold try_get. rewrite He, Hs. rewrite (proj2 (Z.eqb_neq _ _)); [done|].
      destruct id, id'; simpl in *; congruence.
    + destruct v; by rewrite ?lookup_insert_ne, ?lookup_delete_ne by congruence.
Qed.

Lemma remove_refines p id :
  inv p -> (remove p id).1 = abs p !! id /\ becomes p (remove p id).2 (delete id (abs p)).
Proof.
  intros Hp. rewrite abs_lookup. unfold remove, becomes.
  destruct (zget (slots p) (slot id)) as [s|] eqn:Hs; [case_match eqn:Hq; zbool|].
  - assert (Hn : try_get p id = None).
    { unfold try_get. rewrite Hs. by rewrite (proj2 (Z.eqb_neq _ _)). }
    rewrite Hn. simpl. rewrite delete_id by (by rewrite abs_lookup). eauto with lia.
  - assert (Hv : try_get p id = val s).
    { unfold try_get. rewrite Hs. by rewrite (proj2 (Z.eqb_eq _ _)). }
    assert (Hvac : slot id ∈ vacant p <-> val s = None).
    { rewrite (inv_vacant _ Hp), Hs. naive_solver. }
    rewrite Hv. destruct (val s) as [v|] eqn:Ev; simpl.
    + split; [done|]. rewrite (abs_overwrite _ _ _ _ _ Hp Hs Hq). split; [|split; [done|lia]].
      apply inv_overwrite; try done.
      * apply NoDup_app. split; [apply Hp|]. split; [|apply NoDup_singleton].
        intros j Hj ->%list_elem_of_singleton. by apply Hvac in Hj.
      * intros j. rewrite elem_of_app, list_elem_of_singleton. case_decide; naive_solver.
    + split; [done|]. rewrite (abs_overwrite _ _ _ _ _ Hp Hs Hq). split; [|split; [done|lia]].
      apply inv_overwrite; try done; [apply Hp|].
      intros j. case_decide; subst; naive_solver.
  - assert (Hn : try_get p id = None) by (unfold try_get; by rewrite Hs).
    rewrite Hn. simpl. rewrite delete_id by (by rewrite abs_lookup). eauto with lia.
Qed.

Lemma write_refines p id f :
  inv p ->
  match try_get_mut p id f with
  | Some p' => exists v, abs p !! id = Some v /\ becomes p p' (<[id := f v]> (abs p))
  | None => abs p !! id = None
  end.
Proof.
  intros Hp. rewrite abs_lookup. unfold try_get_mut, try_get, becomes.
  destruct (zget (slots p) (slot id)) as [s|] eqn:Hs; [|done].
  destruct (Z.eqb_spec (s_seqno s) (seqno id)) as [Hq|]; simpl; [|done].
  destruct (val s) as [v|] eqn:Ev; [|done]. exists v. split; [done|].
  rewrite (abs_overwrite _ _ _ _ _ Hp Hs Hq). split; [|split; [done|simpl; lia]].
  apply inv_overwrite; try done; [apply Hp|].
  intros j. case_decide; [subst|done]. rewrite (inv_vacant _ Hp), Hs. naive_solver.
Qed.

Lemma live_from_cleared i (ss : list (Slot T)) :
  live_from i ((fun s => mkSlot (s_seqno s) (@None T)) <$> ss) = [].
Proof. revert i. induction ss; intros i; simpl; auto. Qed.

Lemma live_slots_nodup i (ss : list (Slot T)) :
  NoDup ((fun e : Id * T => slot e.1) <$> live_from i ss).
Proof.
  revert i. induction ss as [|s ss IH]; intros i; simpl; [constructor|].
  destruct (val s); [|done]. simpl. constructor; [|done].
  intros ([id v]&Hi&Hin)%list_elem_of_fmap. simpl in Hi.
  assert (i + 1 <= slot id); [|lia].
  apply live_from_slots with ss. apply list_elem_of_fmap. by exists (id, v).
Qed.

Lemma clear_refines p : inv p -> becomes p (clear p) ∅.
Proof.
  intros Hp. unfold clear, becomes. destruct (clear_from 0 (slots p)) as [ss vs] eqn:E.
  apply clear_from_spec in E as [-> ->]. split; [|split; [|simpl; lia]].
  - constructor; simpl; [| | |apply Hp].
    + apply NoDup_app. split; [apply Hp|].
      assert (Hempty : forall id v, (id, v) ∈ live p -> slot id ∉ vacant p).
      { intros id v (s&Hs&_&Hv)%live_elem%try_get_Some (s'&?&?)%(inv_vacant _ Hp).
        naive_solver. }
      split.
      * intros j Hj ([id v]&->&Hin)%list_elem_of_fmap. by eapply Hempty.
      * apply live_slots_nodup.
    + intros j. rewrite elem_of_app, zget_fmap, (inv_vacant _ Hp). split.
      * intros [(s&->&?)|([id v]&->&(s&Hs&_)%live_elem%try_get_Some)%list_elem_of_fmap].
        { simpl. eauto. } simpl. rewrite Hs. simpl. eauto.
      * intros (s&(s'&Hs'&->)%fmap_Some&_). destruct (val s') as [v|] eqn:Ev; [right|left; by exists s'].
        apply list_elem_of_fmap. exists (mkId j (s_seqno s'), v). split; [done|].
        apply live_elem, try_get_Some. eauto.
    + intros j s. rewrite zget_fmap. intros (s'&Hs'&->)%fmap_Some. simpl. by apply (inv_seqno _ Hp j).
  - unfold abs, live. simpl. by rewrite live_from_cleared.
Qed.
End Refinement.

(** ** Iteration *)

Section Iteration.
  Context {T : Type}.
  Implicit Types p : Pool T.

(** From position [it], whose remaining slots are [ss], the skipping loop
    stops at the first occupied slot. *)
Lemma skip_empty_spec p fuel it pre ss :
  slots p = pre ++ ss -> it = zlen pre -> (length ss <= fuel)%nat ->
  exists empties rest,
    ss = empties ++ rest /\ Forall (fun s => val s = None) empties /\
    skip_empty fuel p it = it + zlen empties /\
    match rest with [] => True | s :: _ => is_Some (val s) end.
Proof.
  revert it pre ss. induction fuel as [|fuel IH]; intros it pre ss Hp -> Hlen; simpl.
  { destruct ss; [|simpl in Hlen; lia]. exists [], []. rewrite zlen_nil. simpl. auto with lia. }
  rewrite Hp, zget_app, (proj2 (Z.ltb_ge _ _)), Z.sub_diag by lia.
  destruct ss as [|[q [v|]] ss]; simpl in *.
  - exists [], []. rewrite zlen_nil. auto with lia.
  - exists [], (mkSlot q (Some v) :: ss). rewrite zlen_nil. simpl. rewrite Z.add_0_r. eauto.
  - destruct (IH (zlen pre + 1) (pre ++ [mkSlot q None]) ss) as (em&rest&->&?&Hk&?).
    + by rewrite <- app_assoc.
    + rewrite zlen_app. done.
    + lia.
    + exists (mkSlot q None :: em), rest. rewrite zlen_cons. simpl. rewrite Hk.
      split; [done|]. split; [by constructor|]. split; [lia|done].
Qed.

Lemma live_from_empties i (em ss : list (Slot T)) :
  Forall (fun s => val s = None) em ->
  live_from i (em ++ ss) = live_from (i + zlen em) ss.
Proof.
  revert i. induction em as [|s em IH]; intros i Hem; simpl.
  { by rewrite zlen_nil, Z.add_0_r. }
  apply Forall_cons in Hem as [-> ?]. rewrite IH, zlen_cons by done. f_equal. lia.
Qed.

Lemma iter_collect_spec p fuel it pre ss :
  slots p = pre ++ ss -> it = zlen pre -> (length ss < fuel)%nat ->
  iter_collect fuel p it = Ret (live_from it ss).
Proof.
  revert it pre ss. induction fuel as [|fuel IH]; intros it pre ss Hp -> Hlen; [lia|].
  simpl. unfold iter_next.
  destruct (skip_empty_spec p (length (slots p) - Z.to_nat (zlen pre)) (zlen pre) pre ss)
    as (em&rest&->&Hem&->&Hr); [done|done| |].
  { rewrite Hp, length_app. unfold zlen. lia. }
  rewrite live_from_empties by done.
  rewrite Hp, zget_app, (proj2 (Z.ltb_ge _ _)) by (pose proof (zlen_nonneg em); lia).
  rewrite zget_app, (proj2 (Z.ltb_ge _ _)) by lia.
  replace (zlen pre + zlen em - zlen pre - zlen em) with 0 by lia.
  destruct rest as [|s rest]; simpl; [done|]. destruct Hr as [v Hv]. rewrite Hv. simpl.
  rewrite (IH (zlen pre + zlen em + 1) (pre ++ em ++ [s]) rest); [done| | |].
  - by rewrite <- !app_assoc, Hp.
  - rewrite !zlen_app. change (zlen [s]) with 1. lia.
  - rewrite length_app in Hlen. simpl in Hlen. lia.
Qed.

Lemma iter_mut_next_spec (ss : list (Slot T)) idx :
  match iter_mut_next ss idx with
  | (None, _) => live_from idx ss = []
  | (Some x, (rest, idx')) =>
      live_from idx ss = x :: live_from idx' rest /\ (length rest < length ss)%nat
  end.
Proof.
  revert idx. induction ss as [|s ss IH]; intros idx; simpl; [done|].
  destruct (val s); [split; [done|lia]|]. specialize (IH (idx + 1)).
  repeat case_match; simplify_eq; try done. naive_solver lia.
Qed.

Lemma iter_mut_collect_spec fuel (ss : list (Slot T)) idx :
  (length ss < fuel)%nat -> iter_mut_collect fuel ss idx = live_from idx ss.
Proof.
  revert ss idx. induction fuel as [|fuel IH]; intros ss idx Hlen; simpl; [lia|].
  pose proof (iter_mut_next_spec ss idx) as H.
  repeat case_match; simplify_eq; [|done]. destruct H as [-> ?]. rewrite IH by lia. done.
Qed.
End Iteration.

(** ** Properties *)

Section Properties.
  Context {T : Type}.
  Implicit Types p : Pool T.

(** Every slot index is either vacant or live, once. *)
Lemma slots_partition p :
  inv p -> seqZ 0 (zlen (slots p)) ≡ₚ vacant p ++ ((fun e => slot e.1) <$> live p).
Proof.
  intros Hp. apply NoDup_Permutation; [apply NoDup_seqZ| |].
  - apply NoDup_app. split; [apply Hp|]. split; [|apply live_slots_nodup].
    intros j (s&Hs&Hv)%(inv_vacant _ Hp) ([id v]&->&(s'&Hs'&_&Hv')%live_elem%try_get_Some)%list_elem_of_fmap.
    simpl in *. congruence.
  - intros j. rewrite elem_of_seqZ, elem_of_app, (inv_vacant _ Hp). split.
    + intros Hj. destruct (proj2 (zget_range (slots p) j)) as [s Hs]; [lia|].
      destruct (val s) as [v|] eqn:Ev; [right|left; by exists s].
      apply list_elem_of_fmap. exists (mkId j (s_seqno s), v). split; [done|].
      apply live_elem, try_get_Some. by exists s.
    + intros [(s&H&_)|([id v]&->&(s&H&_)%live_elem%try_get_Some)%list_elem_of_fmap];
        apply mk_is_Some, zget_range in H; simpl; lia.
Qed.

Lemma abs_empty p : abs p = ∅ <-> live p = [].
Proof.
  split; [|unfold abs; by intros ->]. intros He.
  destruct (live p) as [|[id v] l] eqn:E; [done|].
  assert (H : (id, v) ∈ live p) by (rewrite E; apply list_elem_of_here).
  apply live_elem in H. rewrite <- abs_lookup, He in H. by rewrite lookup_empty in H.
Qed.

Lemma is_empty_refines p : inv p -> is_empty p = Ret (bool_decide (abs p = ∅)).
Proof.
  intros Hp. pose proof (Permutation_length (slots_partition p Hp)) as Hlen.
  rewrite length_app, length_fmap, length_seqZ in Hlen. unfold is_empty, rassert, zlen in *.
  rewrite (proj2 (Z.leb_le _ _)) by lia. simpl. f_equal.
  case_bool_decide as He; rewrite abs_empty in He.
  - rewrite He in Hlen. simpl in Hlen. apply Z.eqb_eq. lia.
  - apply Z.eqb_neq. destruct (live p); [done|]. simpl in Hlen. lia.
Qed.

Lemma step_preserves p p' :
  inv p -> step p p' ->
  inv p' /\ next_seqno p <= next_seqno p' /\
  forall id, seqno id < next_seqno p -> abs p !! id = None -> abs p' !! id = None.
Proof.
  intros Hp Hs. revert Hp. destruct Hs as [p0 x id p1 Hadd|p0 id|p0|p0 id f p1 Hw]; intros Hp.
  - assert (Hlt : next_seqno p0 + 1 < 2 ^ 64).
    { unfold add, uadd in Hadd. destruct (Z.ltb_spec (next_seqno p0 + 1) (2 ^ 64)); done. }
    destruct (add_refines p0 x Hp Hlt) as (id'&p2&Heq&Hq&_&Hf&Hi&Habs&Hle).
    rewrite Hadd in Heq. simplify_eq. split; [done|]. split; [done|].
    intros id'' Hlt' Hn. rewrite Habs, lookup_insert_ne; [done|]. intros ->. lia.
  - destruct (remove_refines p0 id Hp) as (_&Hi&Habs&Hle). split; [done|]. split; [done|].
    intros id' _ Hn. rewrite Habs, lookup_delete_None. by right.
  - destruct (clear_refines p0 Hp) as (Hi&Habs&Hle). split; [done|]. split; [done|].
    intros id' _ _. by rewrite Habs, lookup_empty.
  - pose proof (write_refines p0 id f Hp) as H. rewrite Hw in H.
    destruct H as (v&Hv&Hi&Habs&Hle). split; [done|]. split; [done|].
    intros id' _ Hn. rewrite Habs, lookup_insert_ne; [done|]. congruence.
Qed.

(** The pool implements a finite map from identifiers to values: as long as
    the 64-bit sequence counter is not exhausted, [add] returns an identifier
    that is not in the map and inserts it, [remove] returns what the map holds
    and deletes it, [try_get_mut] succeeds exactly on present identifiers and
    updates them, [clear] empties the map, [try_get] is lookup, [is_empty]
    never trips its assertion and tells whether the map is empty; every
    operation keeps the invariant of the vacant list. *)
Theorem pool_refines_map p x id f :
  inv p -> next_seqno p + 1 < 2 ^ 64 ->
  (exists new_id p', add p x = Ret (new_id, p') /\ abs p !! new_id = None /\
     becomes p p' (<[new_id := x]> (abs p))) /\
  ((remove p id).1 = abs p !! id /\ becomes p (remove p id).2 (delete id (abs p))) /\
  match try_get_mut p id f with
  | Some p' => exists v, abs p !! id = Some v /\ becomes p p' (<[id := f v]> (abs p))
  | None => abs p !! id = None
  end /\
  becomes p (clear p) ∅ /\
  try_get p id = abs p !! id /\
  is_empty p = Ret (bool_decide (abs p = ∅)).
Proof.
  intros Hp Hlt.
  split; [destruct (add_refines p x Hp Hlt) as (i&p'&?&_&_&?&?); eauto|].
  split; [by apply remove_refines|]. split; [by apply write_refines|].
  split; [by apply clear_refines|]. split; [by rewrite abs_lookup|by apply is_empty_refines].
Qed.

(** A dangling identifier stays dangling: once an identifier that was handed
    out (its sequence number is below the counter) is not live, no sequence of
    additions, removals, clears and writes makes it resolve again, although
    its slot may be reused any number of times. *)
Theorem stale_id_never_resolves p p' id :
  inv p -> seqno id < next_seqno p -> try_get p id = None ->
  reachable p p' -> inv p' /\ try_get p' id = None.
Proof.
  intros Hp Hq Hn Hr. rewrite <- abs_lookup in *.
  induction Hr as [p|p p1 p' Hs Hr IH]; [done|].
  destruct (step_preserves _ _ Hp Hs) as (Hp1&Hle&Hkeep). apply IH; [done|lia|by apply Hkeep].
Qed.

(** Both iterators visit exactly the live entries, each once, in slot order,
    with identifiers that resolve to the visited value; neither the [unwrap]
    in [PoolIter::next] nor an index panics, whatever the pool. *)
Theorem iteration_is_live_entries p :
  iter p = Ret (live p) /\ iter_mut p = live p /\ NoDup (live p).*1 /\
  forall id v, (id, v) ∈ live p <-> try_get p id = Some v.
Proof.
  split; [apply (iter_collect_spec p _ 0 []); [done|done|simpl; lia]|].
  split; [apply iter_mut_collect_spec; lia|].
  split; [apply live_from_nodup|apply live_elem].
Qed.
End Properties.

(** A pool with a live, a removed and a reused slot. *)
Definition sample_pool : Pool nat :=
  mkPool [mkSlot 1 (Some 10%nat); mkSlot 2 None] [1] 3.

Lemma sample_pool_inv : inv sample_pool.
Proof.
  constructor; simpl.
  - apply NoDup_singleton.
  - intros i. rewrite list_elem_of_singleton, !zget_cons, zget_nil.
    repeat case_match; zbool; split; try (intros (?&?&?)); try lia; try naive_solver; simplify_eq/=; eauto with lia.
  - intros i s. rewrite !zget_cons, zget_nil. repeat case_match; intros; simplify_eq/=; lia.
  - lia.
Qed.

Lemma pool_refines_map_witness :
  exists new_id p', add sample_pool 20%nat = Ret (new_id, p') /\ try_get p' (mkId 1 2) = None /\
    abs sample_pool !! new_id = None.
Proof.
  destruct (pool_refines_map sample_pool 20%nat (mkId 0 1) S sample_pool_inv ltac:(vm_compute; reflexivity))
    as [(i&p'&H1&H2&_) _].
  exists i, p'. split; [exact H1|]. split; [|exact H2].
  vm_compute in H1. injection H1 as <- <-. reflexivity.
Defined.

Lemma stale_id_never_resolves_witness :
  inv (clear sample_pool) /\ try_get (clear sample_pool) (mkId 1 2) = None.
Proof.
  apply (stale_id_never_resolves sample_pool); [apply sample_pool_inv|simpl; lia|reflexivity|].
  apply rtc_once. constructor.
Defined.
