(* ===== verification/PoolOwned.v ===== *)
(** The live entries of a pool as a list up to order: [owned p l] lets a proof
    about objects that point at each other by identifier name the entries it
    is about and leave the others in a frame. *)
From Stdlib Require Import ZArith Lia.
From stdpp Require Import base list gmap sets.
From S2P Require Import Prelude Pool.
Open Scope Z_scope.

Section Owned.
  Context {T : Type}.
  Implicit Types (p : Pool T) (l : list (Id * T)).

Record owned p l : Prop := mkOwned {
  owned_inv : Pool.inv p;
  owned_nodup : NoDup l.*1;
  owned_abs : Pool.abs p = list_to_map l
}.

Lemma owned_perm p l l' : l ≡ₚ l' -> owned p l -> owned p l'.
Proof.
  intros Hl [Hp Hnd Habs]. split; [done|by rewrite <- Hl|].
  rewrite Habs. by apply list_to_map_proper.
Qed.

#[export] Instance owned_proper p : Proper ((≡ₚ) ==> iff) (owned p).
Proof. intros l l' Hl. split; apply owned_perm; by rewrite Hl. Qed.

Lemma owned_nil : owned Pool.new [].
Proof. split; [apply Pool.inv_new|constructor|done]. Qed.

Lemma owned_try_get p l id x : owned p l -> (id, x) ∈ l -> Pool.try_get p id = Some x.
Proof.
  intros [Hp Hnd Habs] Hin. rewrite <- Pool.abs_lookup, Habs. by apply elem_of_list_to_map_1.
Qed.
Lemma owned_elem p l id x : owned p l -> Pool.try_get p id = Some x -> (id, x) ∈ l.
Proof.
  intros [Hp Hnd Habs] Hin. rewrite <- Pool.abs_lookup, Habs in Hin. by apply elem_of_list_to_map_2.
Qed.

Lemma owned_get p l id x : owned p l -> (id, x) ∈ l -> Pool.get p id = Ret x.
Proof. intros Hl Hin. unfold Pool.get. by rewrite (owned_try_get _ _ _ _ Hl Hin). Qed.

Lemma zset_length {A} (l : list A) i x : length (zset l i x) = length l.
Proof. unfold zset. case_match; [|done]. by rewrite length_insert. Qed.

Lemma owned_mut p l id x f :
  owned p ((id, x) :: l) ->
  exists p', Pool.get_mut p id f = Ret p' /\ owned p' ((id, f x) :: l) /\
    next_seqno p' = next_seqno p /\ length (slots p') = length (slots p).
Proof.
  intros [Hp Hnd Habs]. pose proof (Pool.write_refines p id f Hp) as Hw.
  assert (Hx : Pool.abs p !! id = Some x) by (by rewrite Habs; simpl; rewrite lookup_insert_eq).
  unfold Pool.get_mut. destruct (Pool.try_get_mut p id f) as [p'|] eqn:E; [|congruence].
  destruct Hw as (v&Hv&Hp'&Habs'&_). assert (v = x) as -> by congruence.
  exists p'. split; [done|]. split; [split; [done|done|]|].
  - rewrite Habs', Habs. simpl. by rewrite insert_insert_eq.
  - unfold Pool.try_get_mut in E. repeat case_match; simplify_eq/=. by rewrite zset_length.
Qed.

Lemma owned_add p l x :
  owned p l -> next_seqno p + 1 < 2 ^ 64 ->
  exists id p', Pool.add p x = Ret (id, p') /\ owned p' ((id, x) :: l) /\ next_seqno p' = next_seqno p + 1.
Proof.
  intros [Hp Hnd Habs] Hn. destruct (Pool.add_refines p x Hp Hn) as (id&p'&Hadd&_&Hnx&Hfr&Hp'&Habs'&_).
  exists id, p'. split; [done|]. split; [|done]. split; [done| |].
  - simpl. constructor; [|done]. rewrite Habs in Hfr. by apply not_elem_of_list_to_map_2.
  - by rewrite Habs', Habs.
Qed.

Lemma owned_remove p l id x :
  owned p ((id, x) :: l) ->
  exists p', Pool.remove p id = (Some x, p') /\ owned p' l /\ next_seqno p' = next_seqno p /\
    length (slots p') = length (slots p).
Proof.
  intros [Hp Hnd Habs]. simpl in Hnd. apply NoDup_cons in Hnd as [Hid Hnd].
  destruct (Pool.remove_refines p id Hp) as [Hr (Hp'&Habs'&_)].
  assert (Hx : Pool.abs p !! id = Some x) by (by rewrite Habs; simpl; rewrite lookup_insert_eq).
  destruct (Pool.remove p id) as [r p'] eqn:E. simpl in *. rewrite Hx in Hr. subst r.
  exists p'. split; [done|]. split; [split; [done|done|]|].
  - rewrite Habs', Habs. simpl. rewrite delete_insert_id; [done|]. by apply not_elem_of_list_to_map_1.
  - unfold Pool.remove in E. repeat case_match; simplify_eq/=; by rewrite ?zset_length.
Qed.

Lemma owned_unique p l l' : owned p l -> owned p l' -> l ≡ₚ l'.
Proof. intros [_ H1 E1] [_ H2 E2]. apply list_to_map_inj; [done|done|congruence]. Qed.

Lemma owned_live p : Pool.inv p -> owned p (Pool.live p).
Proof. intros Hp. split; [done|apply Pool.live_from_nodup|done]. Qed.

Lemma live_from_length i (ss : list (Slot T)) : (length (Pool.live_from i ss) <= length ss)%nat.
Proof.
  revert i. induction ss as [|s ss IH]; intros i; simpl; [done|].
  specialize (IH (i + 1)). destruct (val s); simpl; lia.
Qed.

(** There are no more entries than slots. *)
Lemma owned_length p l : owned p l -> (length l <= length (slots p))%nat.
Proof.
  intros Hl. rewrite (owned_unique _ _ _ Hl (owned_live _ (owned_inv _ _ Hl))). apply live_from_length.
Qed.
End Owned.
