(* ===== verification/Floats.v ===== *)
(** IEEE 754 numbers as Rust's [f32] and [f64]: their bits, the conversions of
    [as], and the arithmetic the source uses. A NaN that an operation returns
    is the quiet NaN without a payload; Rust leaves its bits open. *)
From Stdlib Require Import ZArith Lia SpecFloat Bool.
From stdpp Require Import base.
From S2P Require Import Prelude.
Open Scope Z_scope.

(** ** Formats: [prec] bits of precision, exponents below [emax] *)

Section Format.
Variables prec emax : Z.

Definition frac_bits : Z := prec - 1.
Definition exp_max : Z := 2 * emax - 1.
Definition sign_bit : Z := 2 * emax * 2 ^ frac_bits.
Definition quiet_nan : Z := exp_max * 2 ^ frac_bits + 2 ^ (frac_bits - 1).

Definition from_bits (b : Z) : spec_float :=
  let s := sign_bit <=? b in
  let ex := b / 2 ^ frac_bits mod (2 * emax) in
  let frac := b mod 2 ^ frac_bits in
  if ex =? exp_max then if frac =? 0 then S754_infinity s else S754_nan
  else if ex =? 0 then
    match frac with Zpos m => S754_finite s m (emin prec emax) | _ => S754_zero s end
  else
    match frac + 2 ^ frac_bits with Zpos m => S754_finite s m (ex + emin prec emax - 1) | _ => S754_nan end.

Definition to_bits (f : spec_float) : Z :=
  let sign (s : bool) b := if s then sign_bit + b else b in
  match f with
  | S754_nan => quiet_nan
  | S754_infinity s => sign s (exp_max * 2 ^ frac_bits)
  | S754_zero s => sign s 0
  | S754_finite s m e =>
      sign s (if Zpos m <? 2 ^ frac_bits then Zpos m
              else (e - emin prec emax + 1) * 2 ^ frac_bits + (Zpos m - 2 ^ frac_bits))
  end.

Definition is_nan (b : Z) : bool := match from_bits b with S754_nan => true | _ => false end.
(** Rounding to the format, to nearest with ties to even. *)
Definition round (f : spec_float) : spec_float :=
  match f with
  | S754_finite s m e => binary_normalize prec emax (if s then Zneg m else Zpos m) e s
  | f => f
  end.
End Format.

(** ** [f64] *)

(** Its 64 bits: [from_bits] and [to_bits] are the identity. *)
Definition f64 : Type := Z.
Definition f64_spec : f64 -> spec_float := from_bits 53 1024.
Definition f64_bits : spec_float -> f64 := to_bits 53 1024.

Definition f64_op (op : spec_float -> spec_float -> spec_float) (x y : f64) : f64 := f64_bits (op (f64_spec x) (f64_spec y)).
Definition f64_add : f64 -> f64 -> f64 := f64_op (SFadd 53 1024).
Definition f64_sub : f64 -> f64 -> f64 := f64_op (SFsub 53 1024).
Definition f64_mul : f64 -> f64 -> f64 := f64_op (SFmul 53 1024).
Definition f64_div : f64 -> f64 -> f64 := f64_op (SFdiv 53 1024).
(** [-x] and [x.abs()] change the sign bit, of NaNs too. *)
Definition f64_neg (x : f64) : f64 := Z.lxor x (2 ^ 63).
Definition f64_abs (x : f64) : f64 := Z.land x (2 ^ 63 - 1).
Definition f64_compare (x y : f64) : option comparison := SFcompare (f64_spec x) (f64_spec y).

(** [x % y]: the exact remainder, with the sign of [x]. *)
Definition spec_rem (x y : spec_float) : spec_float :=
  match x, y with
  | S754_nan, _ | _, S754_nan | S754_infinity _, _ | _, S754_zero _ => S754_nan
  | S754_zero s, _ => S754_zero s
  | x, S754_infinity _ => x
  | S754_finite s mx ex, S754_finite _ my ey =>
      let e := Z.min ex ey in
      let r := Z.shiftl (Zpos mx) (ex - e) mod Z.shiftl (Zpos my) (ey - e) in
      binary_normalize 53 1024 (if s then - r else r) e s
  end.
Definition f64_rem : f64 -> f64 -> f64 := f64_op spec_rem.
Definition f64_rem_euclid (x y : f64) : f64 :=
  let r := f64_rem x y in
  match f64_compare r (f64_bits (S754_zero false)) with
  | Some Lt => f64_add r (f64_abs y)
  | _ => r
  end.

(** ** [as] *)

Definition f64_of_int (n : Z) : f64 := f64_bits (binary_normalize 53 1024 n 0 false).
(** Towards zero, to the nearest of the integers from [lo] to [hi]; NaN to 0. *)
Definition f64_to_int (lo hi : Z) (x : f64) : Z :=
  match f64_spec x with
  | S754_nan | S754_zero _ => 0
  | S754_infinity s => if s then lo else hi
  | S754_finite s m e =>
      let n := if 0 <=? e then Z.shiftl (Zpos m) e else Z.shiftr (Zpos m) (- e) in
      Z.max lo (Z.min hi (if s then - n else n))
  end.
Definition f64_of_f32_bits (x : Z) : f64 := f64_bits (round 53 1024 (from_bits 24 128 x)).
Definition f32_bits_of_f64 (x : f64) : Z := to_bits 24 128 (round 24 128 (f64_spec x)).
Definition f32_neg (x : Z) : Z := Z.lxor x (2 ^ 31).

Example f64_samples :
  (f64_of_int 1, f64_div (f64_of_int 1) (f64_of_int 3), f64_neg (f64_of_int 2), f64_to_int (- 2 ^ 63) (2 ^ 63 - 1) (f64_div (f64_of_int (-7)) (f64_of_int 2)),
   f64_of_f32_bits 1, f32_bits_of_f64 (f64_of_int 16777217), f64_rem_euclid (f64_of_int (-7)) (f64_of_int 3))
  = (0x3ff0000000000000, 0x3fd5555555555555, 0xc000000000000000, -3, 0x36a0000000000000, 0x4b800000, f64_of_int 2).
Proof. vm_compute. reflexivity. Qed.
