(* ===== verification/RangeIndex.v ===== *)
(** The interval index of src/range_index.rs: address ranges sorted by start,
    each with the largest end seen so far. *)
From Stdlib Require Import ZArith Lia.
From stdpp Require Import base list sorting.
From S2P Require Import Prelude.
Open Scope Z_scope.

Record RangeIndexEntry (T : Type) := mkEntry {
  start : Z;
  end_ : Z;
  max_end : Z;
  value : T
}.
Arguments mkEntry {T} start end_ max_end value.
Arguments start {T} r.
Arguments end_ {T} r.
Arguments max_end {T} r.
Arguments value {T} r.

(** How many other ranges one range may cover before the index gives up on it. *)
Definition MAX_COVERED : Z := 100000.

Section Ops.
  (** [T: Ord + Clone] *)
  Context {T : Type} (le : relation T) `{!RelDecision le}.
  Notation Entry := (RangeIndexEntry T).

(** The order of [sort_unstable_by_key(|r| (r.start, r.value.clone()))]. *)
Definition key_le (r1 r2 : Entry) : Prop :=
  start r1 < start r2 \/ (start r1 = start r2 /\ le (value r1) (value r2)).

#[global] Instance key_le_dec : RelDecision key_le.
Proof using RelDecision0. intros r1 r2. unfold key_le. apply _. Defined.

(** The loop of [new] over the sorted ranges from index [i] on; the second
    component lists the warnings, as pairs [(max_idx, i)]. *)
Fixpoint fill_max_end (ranges : list Entry) (i max_end max_idx : Z)
  : list Entry * list (Z * Z) :=
  match ranges with
  | [] => ([], [])
  | r :: rest =>
      let '(max_end', max_idx', warned) :=
        if MAX_COVERED <? i - max_idx then (end_ r, i, [(max_idx, i)])
        else if max_end <=? end_ r then (end_ r, i, [])
        else (max_end, max_idx, []) in
      let '(rest', warnings) := fill_max_end rest (i + 1) max_end' max_idx' in
      (mkEntry (start r) (end_ r) max_end' (value r) :: rest', warned ++ warnings)
  end.

Definition new (ranges : list Entry) : list Entry * list (Z * Z) :=
  fill_max_end (merge_sort key_le ranges) 0 0 0.

Definition upper_bound (ranges : list Entry) (addr : Z) : nat :=
  partition_point (fun r => start r <=? addr) ranges.

(** The [while] loop of [find], from [idx] downwards. *)
Fixpoint find_down (ranges : list Entry) (addr : Z) (idx : nat) : partial (option Entry) :=
  match idx with
  | O => Ret None
  | S idx =>
      r ← lift_opt (ranges !! idx);
      if addr <? max_end r then
        if addr <? end_ r then Ret (Some r) else find_down ranges addr idx
      else Ret None
  end.

Definition find (ranges : list Entry) (addr : Z) : partial (option Entry) :=
  find_down ranges addr (upper_bound ranges addr).

(** The inner [while] loop of [find_ranges] for the query [(qs, qe)]: the
    result so far, the position, the step count and whether the step limit
    ended the search. *)
Fixpoint scan (fuel : nat) (ranges : list Entry) (qs qe : Z)
    (res : list Entry) (idx : nat) (steps : Z) : list Entry * nat * Z * bool :=
  match fuel with
  | O => (res, idx, steps, false)
  | S fuel =>
      match ranges !! idx with
      | None => (res, idx, steps, false)
      | Some r =>
          if start r <? qe then
            let steps := steps + 1 in
            if MAX_COVERED <? steps then (res, idx, steps, true)
            else scan fuel ranges qs qe (if qs <? end_ r then res ++ [r] else res) (S idx) steps
          else (res, idx, steps, false)
      end
  end.

Fixpoint find_ranges_loop (ranges : list Entry) (queries : list (Z * Z))
    (res : list Entry) (idx : nat) (steps : Z) : list Entry :=
  match queries with
  | [] => res
  | (qs, qe) :: queries =>
      let idx := Nat.max idx (partition_point (fun r => max_end r <=? qs) ranges) in
      let '(res, idx, steps, stop) := scan (length ranges - idx) ranges qs qe res idx steps in
      if stop then res else find_ranges_loop ranges queries res idx steps
  end.

(** [sorted_addr_ranges.windows(2).all(|a| a[0].end < a[1].start)] *)
Fixpoint windows_sorted (queries : list (Z * Z)) : bool :=
  match queries with
  | a :: ((b :: _) as rest) => (a.2 <? b.1) && windows_sorted rest
  | _ => true
  end.

Definition find_ranges (ranges : list Entry) (queries : list (Z * Z)) : partial (list Entry) :=
  _ ← rassert (windows_sorted queries);
  Ret (find_ranges_loop ranges queries [] 0 0).

(** ** Specification *)

Definition contains (addr : Z) (r : Entry) : Prop := start r <= addr < end_ r.
Definition overlaps (q : Z * Z) (r : Entry) : Prop := start r < q.2 /\ q.1 < end_ r.
#[global] Instance overlaps_dec q r : Decision (overlaps q r).
Proof. unfold overlaps. apply _. Defined.
Definition hit (queries : list (Z * Z)) (r : Entry) : Prop := Exists (fun q => overlaps q r) queries.
#[global] Instance hit_dec queries r : Decision (hit queries r).
Proof. unfold hit. apply _. Defined.

(** The part of an entry that [new] does not compute. *)
Definition erase (r : Entry) : Z * Z * T := (start r, end_ r, value r).

(** [max_end] bounds the ends of the entries up to each position and never
    decreases. *)
Definition max_end_ok (ranges : list Entry) : Prop :=
  forall i j r s, (i <= j)%nat -> ranges !! i = Some r -> ranges !! j = Some s ->
    end_ r <= max_end s /\ max_end r <= max_end s.

Definition sorted_by_start (ranges : list Entry) : Prop :=
  forall i j r s, (i < j)%nat -> ranges !! i = Some r -> ranges !! j = Some s -> key_le r s.
End Ops.

Section Lemmas.
  Context {T : Type} (le : relation T) `{!RelDecision le, !Transitive le, !Total le}.
  Notation Entry := (RangeIndexEntry T).
  Implicit Types (ranges : list Entry) (r s : Entry).

#[local] Instance key_le_trans : Transitive (key_le le).
Proof using Transitive0.
  intros r s t [?|[? ?]] [?|[? ?]]; [left; lia..|]. right. split; [congruence|by etrans].
Qed.

#[local] Instance key_le_total : Total (key_le le).
Proof using Total0.
  intros r s. unfold key_le. destruct (Z.lt_trichotomy (start r) (start s)) as [?|[?|?]]; [tauto| |tauto].
  destruct (total le (value r) (value s)); [left|right]; right; split; done || lia.
Qed.

Lemma fill_erase ranges i me mi :
  erase <$> (fill_max_end ranges i me mi).1 = erase <$> ranges.
Proof.
  revert i me mi. induction ranges as [|r ranges IH]; intros i me mi; simpl; [done|].
  destruct (if MAX_COVERED <? i - mi then _ else _) as [[me' mi'] w].
  specialize (IH (i + 1) me' mi'). destruct (fill_max_end _ _ _ _) as [out ws].
  simpl in IH. csimpl. unfold erase at 1 3. simpl. by f_equal.
Qed.

Lemma fill_no_warning ranges i me mi out :
  fill_max_end ranges i me mi = (out, []) ->
  (forall k r, out !! k = Some r -> me <= max_end r) /\ max_end_ok out.
Proof.
  revert i me mi out. induction ranges as [|r ranges IH]; intros i me mi out; simpl.
  { intros [= <-]. split; [done|]. intros ????? H; by rewrite lookup_nil in H. }
  destruct (MAX_COVERED <? i - mi).
  { destruct (fill_max_end _ _ _ _). intros [= _ ?]. }
  destruct (me <=? end_ r) eqn:Hme; zbool;
    (destruct (fill_max_end _ _ _ _) as [out' ws] eqn:Hf; intros [= <- ->];
     apply IH in Hf as [Hlow Hok]; split;
     [intros [|k] s; simpl; [intros [= <-]; simpl; lia|intros ?%Hlow; lia]|];
     intros [|a] [|b] x y Hab; simpl; intros Hx Hy; simplify_eq/=;
       [lia|apply Hlow in Hy; lia|lia|apply (Hok a b); [lia|done|done]]).
Qed.

Lemma fill_short ranges i me mi :
  mi <= i -> i + zlen ranges - mi <= MAX_COVERED + 1 -> (fill_max_end ranges i me mi).2 = [].
Proof.
  revert i me mi. induction ranges as [|r ranges IH]; intros i me mi Hi Hlen; simpl; [done|].
  rewrite zlen_cons in Hlen. pose proof (zlen_nonneg ranges).
  rewrite (proj2 (Z.ltb_ge _ _)) by lia.
  destruct (me <=? end_ r).
  - specialize (IH (i + 1) (end_ r) i ltac:(lia) ltac:(lia)).
    destruct (fill_max_end _ _ _ _). simpl in *. by rewrite IH.
  - specialize (IH (i + 1) me mi ltac:(lia) ltac:(lia)).
    destruct (fill_max_end _ _ _ _). simpl in *. by rewrite IH.
Qed.

(** Being sorted only depends on what [erase] keeps. *)
Lemma sorted_erase ranges out :
  erase <$> out = erase <$> ranges -> StronglySorted (key_le le) ranges ->
  sorted_by_start le out.
Proof.
  intros He Hs i j r s Hij Hr Hsj.
  assert (Hk : forall k x, out !! k = Some x -> exists y, ranges !! k = Some y /\ erase x = erase y).
  { intros k x Hx. assert (H : (erase <$> ranges) !! k = Some (erase x)).
    { by rewrite <- He, list_lookup_fmap, Hx. }
    rewrite list_lookup_fmap in H. destruct (ranges !! k) as [y|]; [|done].
    exists y. split; [done|]. simpl in H. congruence. }
  destruct (Hk _ _ Hr) as (r'&Hr'&Er), (Hk _ _ Hsj) as (s'&Hs'&Es).
  assert (Hle : key_le le r' s').
  { clear - Hs Hij Hr' Hs'. revert i j Hij Hr' Hs'.
    induction Hs as [|x l Hl IH Hx]; intros i j Hij; [intros H; by rewrite lookup_nil in H|].
    destruct i, j; simpl; intros; simplify_eq; try lia.
    - rewrite Forall_forall in Hx. apply Hx. by eapply list_elem_of_lookup_2.
    - apply (IH i j); [lia|done|done]. }
  unfold erase in *. unfold key_le in *. simplify_eq. destruct Hle as [?|[? ?]]; [left|right]; naive_solver congruence.
Qed.

Lemma new_sorted ranges : sorted_by_start le (new le ranges).1.
Proof using Type*.
  unfold new. eapply sorted_erase; [apply fill_erase|].
  apply (StronglySorted_merge_sort (key_le le)).
Qed.

Lemma new_perm ranges : erase <$> (new le ranges).1 ≡ₚ erase <$> ranges.
Proof.
  unfold new. rewrite fill_erase. apply fmap_Permutation, merge_sort_Permutation.
Qed.

Lemma upper_bound_spec ranges addr k r :
  sorted_by_start le ranges -> ranges !! k = Some r ->
  (k < upper_bound ranges addr)%nat <-> start r <= addr.
Proof.
  intros Hs Hr. split.
  - intros Hk. apply (partition_point_before _ _ _ _ Hk) in Hr. by apply Z.leb_le.
  - intros Hle. apply Nat.nle_gt. intros Hk.
    eapply (partition_point_after _ _ _ _) in Hk; [|clear k r Hr Hle Hk|exact Hr].
    + apply Z.leb_gt in Hk. lia.
    + intros i j x y Hij Hx Hy. rewrite !Z.leb_le.
      destruct (Hs i j x y Hij Hx Hy) as [|[]]; lia.
Qed.

Lemma find_down_sound ranges addr idx :
  (idx <= length ranges)%nat ->
  exists o, find_down ranges addr idx = Ret o /\
    match o with
    | Some r => exists k, (k < idx)%nat /\ ranges !! k = Some r /\ addr < end_ r
    | None => True
    end.
Proof.
  induction idx as [|idx IH]; intros Hidx; simpl; [by eexists|].
  destruct (lookup_lt_is_Some_2 ranges idx) as [r Hr]; [lia|]. rewrite Hr. simpl.
  destruct (Z.ltb_spec addr (max_end r)); [|by eexists].
  destruct (Z.ltb_spec addr (end_ r)).
  - exists (Some r). split; [done|]. exists idx. auto with lia.
  - destruct IH as (o&->&Ho); [lia|]. exists o. split; [done|].
    destruct o; [|done]. destruct Ho as (k&?&?&?). exists k. auto with lia.
Qed.

(** With valid [max_end]s the search misses nothing. *)
Lemma find_down_complete ranges addr idx o :
  max_end_ok ranges -> find_down ranges addr idx = Ret o ->
  forall k r, (k < idx)%nat -> ranges !! k = Some r -> addr < end_ r ->
    exists k' r', o = Some r' /\ ranges !! k' = Some r' /\ (k <= k')%nat.
Proof.
  intros Hok. induction idx as [|idx IH]; intros Hf k r Hk Hr Hadr; [lia|]. simpl in Hf.
  destruct (ranges !! idx) as [s|] eqn:Hs; [|done]. simpl in Hf.
  pose proof (Hok k idx r s ltac:(lia) Hr Hs) as [? _].
  rewrite (proj2 (Z.ltb_lt addr (max_end s))) in Hf by lia.
  destruct (Z.ltb_spec addr (end_ s)).
  - simplify_eq. exists idx, s. auto with lia.
  - destruct (decide (k = idx)) as [->|]; [simplify_eq; lia|].
    apply (IH Hf k r); [lia|done|done].
Qed.
End Lemmas.

(** ** The multi-query search *)

Section FindRanges.
  Context {T : Type} (le : relation T) `{!RelDecision le, !Transitive le, !Total le}.
  Notation Entry := (RangeIndexEntry T).
  Context (ranges : list Entry).
  Hypothesis Hok : max_end_ok ranges.
  Hypothesis Hsorted : sorted_by_start le ranges.

(** [q'] comes after all of [qs] in a query list that passes the assertion. *)
Definition after (qs : list (Z * Z)) (q' : Z * Z) : Prop :=
  Forall (fun q => q.1 <= q'.1 /\ q.2 < q'.1) qs.

(** Progress of the search: the queries [qs] have been answered for the first
    [idx] entries, and no later query can hit an entry among them that these
    queries missed. *)
Definition answered (qs : list (Z * Z)) (res : list Entry) (idx : nat) : Prop :=
  res = filter (hit qs) (take idx ranges) /\
  forall k r q', (k < idx)%nat -> ranges !! k = Some r -> after qs q' ->
    hit qs r \/ end_ r <= q'.1.

(** Moreover the entries from [idx] on start after all the queries. *)
Definition exhausted (qs : list (Z * Z)) (idx : nat) : Prop :=
  forall k r q, (idx <= k)%nat -> ranges !! k = Some r -> q ∈ qs -> q.2 <= start r.

Lemma filter_take_S (P : Entry -> Prop) `{!forall x, Decision (P x)} idx r :
  ranges !! idx = Some r ->
  filter P (take (S idx) ranges) = filter P (take idx ranges) ++ (if decide (P r) then [r] else []).
Proof. intros Hr. rewrite (take_S_r _ _ _ Hr), filter_app. simpl. f_equal. Qed.

Lemma filter_split idx (P : Entry -> Prop) `{!forall x, Decision (P x)} :
  filter P ranges = filter P (take idx ranges) ++ filter P (drop idx ranges).
Proof. by rewrite <- filter_app, take_drop. Qed.

Lemma hit_app qs q (r : Entry) : hit (qs ++ [q]) r <-> hit qs r \/ overlaps q r.
Proof. unfold hit. rewrite Exists_app, Exists_cons, Exists_nil. tauto. Qed.

Lemma filter_hit_ext qs qs' (l : list Entry) :
  (forall r, r ∈ l -> hit qs r <-> hit qs' r) -> filter (hit qs) l = filter (hit qs') l.
Proof.
  induction l as [|r l IH]; intros H; [done|].
  rewrite !filter_cons. rewrite IH by (intros; apply H; by right).
  destruct (H r (list_elem_of_here _ _)). repeat case_decide; tauto.
Qed.

(** Starting the next query [q]: skipping to [idx'] loses nothing. *)
Lemma answered_next qs q res idx idx' :
  answered qs res idx -> exhausted qs idx -> after qs q -> (idx <= idx')%nat ->
  (forall k r, (idx <= k < idx')%nat -> ranges !! k = Some r -> end_ r <= q.1) ->
  answered (qs ++ [q]) res idx'.
Proof.
  intros [-> Hmiss] Hex Haft Hle Hskip.
  assert (Hnot : forall k r, (idx <= k < idx')%nat -> ranges !! k = Some r -> ~ hit (qs ++ [q]) r).
  { intros k r Hk Hr. rewrite hit_app. unfold overlaps. intros [(q0&Hq0&Ho)%Exists_exists|Ho].
    - pose proof (Hex k r q0 ltac:(lia) Hr Hq0). unfold overlaps in Ho. lia.
    - pose proof (Hskip k r Hk Hr). lia. }
  assert (Hold : forall k r, (k < idx)%nat -> ranges !! k = Some r ->
    hit qs r <-> hit (qs ++ [q]) r).
  { intros k r Hk Hr. rewrite hit_app. split; [tauto|]. intros [?|Ho]; [done|].
    destruct (Hmiss k r q Hk Hr Haft) as [?|?]; [done|]. unfold overlaps in Ho. lia. }
  split.
  - replace (take idx' ranges) with (take idx ranges ++ take (idx' - idx) (drop idx ranges))
      by (rewrite take_take_drop; f_equal; lia).
    rewrite filter_app.
    rewrite (filter_hit_ext (qs ++ [q]) qs (take idx ranges)).
    2:{ intros r (k&Hk)%list_elem_of_lookup. pose proof (lookup_lt_Some _ _ _ Hk) as Hl.
        rewrite length_take in Hl. rewrite lookup_take_lt in Hk by lia.
        symmetry. by apply (Hold k); [lia|]. }
    assert (Hnil : filter (hit (qs ++ [q])) (take (idx' - idx) (drop idx ranges)) = []).
    { apply elem_of_nil_inv. intros r [Hh (k&Hk)%list_elem_of_lookup]%list_elem_of_filter.
      pose proof (lookup_lt_Some _ _ _ Hk) as Hl. rewrite length_take in Hl.
      rewrite lookup_take_lt, lookup_drop in Hk by lia.
      by apply (Hnot (idx + k)%nat r); [lia| |]. }
    by rewrite Hnil, app_nil_r.
  - intros k r q' Hk Hr Haft'. apply Forall_app in Haft' as [Hq1 Hq2].
    apply Forall_singleton in Hq2 as [Hq2 _].
    destruct (decide (k < idx)%nat) as [Hlt|].
    + destruct (Hmiss k r q' Hlt Hr Hq1); [left; apply hit_app; tauto|by right].
    + right. pose proof (Hskip k r ltac:(lia) Hr). lia.
Qed.

Lemma scan_answered qs q fuel res idx steps res' idx' steps' stop :
  answered (qs ++ [q]) res idx -> exhausted qs idx ->
  (length ranges - idx <= fuel)%nat -> (idx <= length ranges)%nat ->
  scan fuel ranges q.1 q.2 res idx steps = (res', idx', steps', stop) ->
  answered (qs ++ [q]) res' idx' /\
  (if stop then steps' <= steps + Z.of_nat (idx' - idx) + 1 /\ MAX_COVERED < steps' /\
                (idx' < length ranges)%nat /\ (idx <= idx')%nat
   else exhausted (qs ++ [q]) idx' /\ (idx <= idx' <= length ranges)%nat /\
        steps' <= steps + Z.of_nat (idx' - idx)).
Proof using Hsorted.
  revert res idx steps. induction fuel as [|fuel IH]; intros res idx steps Ha He Hf Hidx; simpl.
  { intros [= <- <- <- <-]. split; [done|]. split; [|lia].
    intros k r q' Hk Hr. apply lookup_lt_Some in Hr. lia. }
  destruct (ranges !! idx) as [r|] eqn:Hr; cycle 1.
  { intros [= <- <- <- <-]. split; [done|]. split; [|lia].
    intros k r q' Hk Hr'. apply lookup_lt_Some in Hr'. apply lookup_ge_None in Hr. lia. }
  destruct (Z.ltb_spec (start r) q.2) as [Hlt|Hge]; cycle 1.
  { intros [= <- <- <- <-]. split; [done|]. split; [|lia].
    intros k s q' Hk Hs [Hq'| ->%list_elem_of_singleton]%elem_of_app; [by apply (He k)|].
    destruct (decide (k = idx)) as [->|]; [simplify_eq; lia|].
    destruct (Hsorted idx k r s ltac:(lia) Hr Hs) as [|[]]; lia. }
  apply lookup_lt_Some in Hr as Hlen.
  destruct (Z.ltb_spec MAX_COVERED (steps + 1)).
  { intros [= <- <- <- <-]. split; [done|]. lia. }
  intros Hscan. apply IH in Hscan as [Ha' Hrest].
  - split; [done|]. destruct stop; intuition lia.
  - destruct Ha as [-> Hmiss].
    assert (Hold : ~ hit qs r).
    { intros (q0&Hq0&Ho)%Exists_exists. pose proof (He idx r q0 ltac:(lia) Hr Hq0).
      unfold overlaps in Ho. destruct Ho.
      pose proof (He idx r q0 ltac:(lia) Hr Hq0). lia. }
    split.
    + rewrite (filter_take_S _ _ _ Hr). destruct (Z.ltb_spec q.1 (end_ r)).
      * rewrite decide_True; [done|]. apply hit_app. right. done.
      * rewrite decide_False; [by rewrite app_nil_r|]. rewrite hit_app. unfold overlaps. intros [?|?]; [done|lia].
    + intros k s q' Hk Hs Haft. destruct (decide (k = idx)) as [->|].
      * replace s with r by congruence. destruct (Z.ltb_spec q.1 (end_ r)).
        { left. apply hit_app. right. done. }
        apply Forall_app in Haft as [_ [Haft _]%Forall_singleton]. right. lia.
      * apply (Hmiss k s q'); [lia|done|done].
  - intros k s q' Hk. apply He. lia.
  - lia.
  - lia.
Qed.

Lemma answered_prefix qs rest res idx :
  answered qs res idx -> Forall (after qs) rest ->
  exists tail, filter (hit (qs ++ rest)) ranges = res ++ tail.
Proof.
  intros [-> Hmiss] Haft. rewrite (filter_split idx).
  rewrite (filter_hit_ext (qs ++ rest) qs (take idx ranges)); [by eexists|].
  intros r (k&Hk)%list_elem_of_lookup. pose proof (lookup_lt_Some _ _ _ Hk) as Hl.
  rewrite length_take in Hl. rewrite lookup_take_lt in Hk by lia.
  unfold hit at 1. rewrite Exists_app. fold (hit qs r). split; [|tauto]. intros [?|Ho]; [done|].
  apply Exists_exists in Ho as (q'&Hq'&Ho). rewrite Forall_forall in Haft.
  destruct (Hmiss k r q' ltac:(lia) Hk (Haft _ Hq')) as [?|?]; [done|].
  destruct Ho. lia.
Qed.

Lemma answered_exhausted qs res idx :
  answered qs res idx -> exhausted qs idx -> res = filter (hit qs) ranges.
Proof.
  intros [-> _] He. rewrite (filter_split idx).
  replace (filter (hit qs) (drop idx ranges)) with (@nil Entry); [by rewrite app_nil_r|].
  symmetry. apply elem_of_nil_inv. intros r [Hh (k&Hk)%list_elem_of_lookup]%list_elem_of_filter.
  rewrite lookup_drop in Hk. apply Exists_exists in Hh as (q&Hq&Ho).
  pose proof (He (idx + k)%nat r q ltac:(lia) Hk Hq). destruct Ho. lia.
Qed.

Lemma windows_sorted_after q queries :
  windows_sorted (q :: queries) = true -> Forall (fun q => q.1 <= q.2) (q :: queries) ->
  Forall (fun q' => q.1 <= q'.1 /\ q.2 < q'.1) queries /\ windows_sorted queries = true.
Proof.
  revert q. induction queries as [|b queries IH]; intros q Hw Hwf; [done|].
  simpl in Hw. apply andb_true_iff in Hw as [Hlt%Z.ltb_lt Hw].
  apply Forall_cons in Hwf as [Hq Hwf]. destruct (IH b Hw Hwf) as [Hall _].
  apply Forall_cons in Hwf as [Hb _].
  split; [|done]. constructor; [lia|]. eapply Forall_impl; [exact Hall|]. simpl. lia.
Qed.

Lemma find_ranges_loop_spec queries qs res idx steps :
  answered qs res idx -> exhausted qs idx -> (idx <= length ranges)%nat ->
  steps <= Z.of_nat idx ->
  Forall (after qs) queries -> windows_sorted queries = true ->
  Forall (fun q => q.1 <= q.2) queries ->
  exists rest, filter (hit (qs ++ queries)) ranges =
      find_ranges_loop ranges queries res idx steps ++ rest /\
    (zlen ranges <= MAX_COVERED -> rest = []).
Proof using Hok Hsorted.
  revert qs res idx steps. induction queries as [|q queries IH];
    intros qs res idx steps Ha He Hidx Hsteps Haft Hw Hwf; simpl.
  { exists []. rewrite !app_nil_r. split; [|done]. symmetry. by eapply answered_exhausted. }
  destruct q as [a b].
  set (pp := partition_point _ ranges).
  assert (Hpp : (pp <= length ranges)%nat) by apply partition_point_le.
  apply Forall_cons in Haft as [Hq Haft].
  destruct (windows_sorted_after _ _ Hw Hwf) as [Hnext Hw']. apply Forall_cons in Hwf as [Hab Hwf].
  assert (Ha1 : answered (qs ++ [(a, b)]) res (Nat.max idx pp)).
  { apply (answered_next _ _ _ idx); try done; [lia|]. intros k r Hk Hr. simpl.
    assert (Hm : max_end r <= a).
    { apply Z.leb_le. apply (partition_point_before (fun r => max_end r <=? a) ranges k); [|done].
      fold pp. lia. }
    destruct (Hok k k r r ltac:(lia) Hr Hr). lia. }
  destruct (scan _ ranges a b res _ steps) as [[[res' idx'] steps'] stop] eqn:Hs.
  apply (scan_answered qs (a, b)) in Hs as [Ha' Hcase]; [|done| |lia|lia].
  2:{ intros k r q' Hk. apply He. lia. }
  assert (Haft' : Forall (after (qs ++ [(a, b)])) queries).
  { rewrite Forall_forall in Haft, Hnext. apply Forall_forall. intros q' Hq'.
    apply Forall_app. split; [by apply Haft|]. apply Forall_singleton. by apply Hnext. }
  replace (qs ++ (a, b) :: queries) with ((qs ++ [(a, b)]) ++ queries) by (by rewrite <- app_assoc).
  destruct stop.
  - destruct (answered_prefix _ _ _ _ Ha' Haft') as [tail Ht]. exists tail. split; [done|].
    unfold zlen. lia.
  - apply IH; try done; [tauto|lia..].
Qed.
End FindRanges.

(** ** Properties *)

Section Properties.
  Context {T : Type} (le : relation T) `{!RelDecision le, !Transitive le, !Total le}.
  Notation Entry := (RangeIndexEntry T).
  Implicit Types (ranges : list Entry).

Lemma new_max_end_ok ranges : (new le ranges).2 = [] -> max_end_ok (new le ranges).1.
Proof.
  unfold new. destruct (fill_max_end _ 0 0 0) as [out ws] eqn:E. simpl. intros ->.
  by apply fill_no_warning in E as [_ ?].
Qed.

Lemma new_short ranges : zlen ranges <= MAX_COVERED + 1 -> (new le ranges).2 = [].
Proof.
  intros H. apply fill_short; [lia|]. unfold zlen in *.
  rewrite (Permutation_length (merge_sort_Permutation _ _)). lia.
Qed.

Lemma new_elem ranges r :
  r ∈ (new le ranges).1 -> exists s, s ∈ ranges /\ erase r = erase s.
Proof.
  intros Hr. assert (H : erase r ∈ erase <$> ranges).
  { rewrite <- new_perm. by apply list_elem_of_fmap_2. }
  apply list_elem_of_fmap in H as (s&?&?). eauto.
Qed.

Lemma new_elem_inv ranges s :
  s ∈ ranges -> exists r, r ∈ (new le ranges).1 /\ erase r = erase s.
Proof.
  intros Hs. assert (H : erase s ∈ erase <$> (new le ranges).1).
  { rewrite new_perm. by apply list_elem_of_fmap_2. }
  apply list_elem_of_fmap in H as (r&?&?). eauto.
Qed.

(** Looking an address up in an index built by [new] never panics and never
    returns a range that does not contain the address. When building the
    index gave no warning, which is the case for up to 100001 ranges, the
    result is the innermost range (the last one by start and value) that
    contains the address, and [None] means that no input range contains it. *)
Theorem find_innermost ranges addr :
  exists o, find (new le ranges).1 addr = Ret o /\
    (forall r, o = Some r -> contains addr r /\ exists s, s ∈ ranges /\ erase r = erase s) /\
    ((new le ranges).2 = [] ->
      match o with
      | Some r => forall s, s ∈ ranges -> contains addr s -> key_le le s r
      | None => forall s, s ∈ ranges -> ~ contains addr s
      end) /\
    (zlen ranges <= MAX_COVERED + 1 -> (new le ranges).2 = []).
Proof using Type*.
  unfold find. set (idx := (new le ranges).1).
  destruct (find_down_sound idx addr (upper_bound idx addr)) as (o&Hf&Ho);
    [apply partition_point_le|].
  exists o. split; [done|]. split; [|split; [|apply new_short]].
  - intros r ->. destruct Ho as (k&Hk&Hr&?). split.
    + split; [|done]. by eapply (upper_bound_spec le idx addr k); [apply new_sorted; apply _| |].
    + by apply new_elem, (list_elem_of_lookup_2 _ k).
  - intros Hw%new_max_end_ok. fold idx in Hw.
    assert (Hall : forall s, s ∈ ranges -> contains addr s ->
      exists k k' r r', o = Some r' /\ idx !! k = Some r /\ erase r = erase s /\
        idx !! k' = Some r' /\ (k <= k')%nat).
    { intros s (r&Hr&Hrs)%new_elem_inv [Hc1 Hc2]. apply list_elem_of_lookup in Hr as [k Hk].
      assert (Hs : start r = start s /\ end_ r = end_ s) by (unfold erase in Hrs; by simplify_eq).
      destruct (find_down_complete idx addr (upper_bound idx addr) o Hw Hf k r) as (k'&r'&?&?&?);
        [|done|lia|by exists k, k', r, r'].
      eapply (upper_bound_spec le idx addr k r); [apply new_sorted; apply _|done|lia]. }
    destruct o as [r|]; intros s Hs Hc; destruct (Hall s Hs Hc) as (k&k'&r0&r'&[= <-]&Hk&He&Hk'&Hle).
    pose proof (f_equal (fun e => e.1.1) He) as Hst. pose proof (f_equal snd He) as Hva. simpl in Hst, Hva.
    destruct (decide (k = k')) as [->|].
    + fold idx in Hk, Hk'. rewrite Hk in Hk'. injection Hk' as ->.
      unfold key_le. right. rewrite <- Hva, <- Hst. split; [done|]. by destruct (total le (value r) (value r)).
    + assert (key_le le r0 r) by (apply (new_sorted le ranges k k'); [lia|done|done]).
      unfold key_le in *. rewrite <- Hva, <- Hst. tauto.
Qed.

(** Answering several sorted queries at once: the assertion on the queries
    decides between a panic and an answer, and the answer lists the indexed
    ranges that overlap some query, each once and in index order; it is all
    of them for an index of at most 100000 ranges and a prefix of them
    otherwise (the step limit). *)
Theorem find_ranges_is_overlap_filter ranges queries :
  (new le ranges).2 = [] -> Forall (fun q => q.1 <= q.2) queries ->
  match find_ranges (new le ranges).1 queries with
  | Ret res => windows_sorted queries = true /\
      exists rest, filter (hit queries) (new le ranges).1 = res ++ rest /\
        (zlen ranges <= MAX_COVERED -> rest = [])
  | Fail _ => False
  | Panic => windows_sorted queries = false
  end.
Proof using Type*.
  intros Hw Hwf. unfold find_ranges, rassert.
  destruct (windows_sorted queries) eqn:Hq; simpl; [|done]. split; [done|].
  destruct (find_ranges_loop_spec le (new le ranges).1 (new_max_end_ok _ Hw)
    (new_sorted le _) queries [] [] 0 0) as (rest&Hr&Hl); try done.
  - split; [done|]. lia.
  - intros k r q _ _ H. by apply elem_of_nil in H.
  - lia.
  - apply Forall_true. intros q. by apply Forall_nil.
  - exists rest. split; [done|]. intros H. apply Hl. unfold zlen in *.
    pose proof (Permutation_length (new_perm le ranges)) as Hp. rewrite !length_fmap in Hp. lia.
Qed.
End Properties.

(** Two nested ranges and a disjoint one. *)
Definition sample_ranges : list (RangeIndexEntry Z) :=
  [mkEntry 40 50 0 7; mkEntry 12 20 0 2; mkEntry 10 30 0 1].

Lemma find_innermost_witness :
  exists r, find (new Z.le sample_ranges).1 15 = Ret (Some r) /\ value r = 2 /\
    (forall s, s ∈ sample_ranges -> contains 15 s -> key_le Z.le s r).
Proof.
  destruct (find_innermost Z.le sample_ranges 15) as (o&Hf&_&Hin&_).
  vm_compute in Hf. injection Hf as <-. eexists. split; [reflexivity|]. split; [reflexivity|].
  exact (Hin ltac:(vm_compute; reflexivity)).
Defined.

Lemma find_ranges_is_overlap_filter_witness :
  exists res rest, find_ranges (new Z.le sample_ranges).1 [(0, 11); (18, 45)] = Ret res /\
    length res = 3%nat /\
    filter (hit [(0, 11); (18, 45)]) (new Z.le sample_ranges).1 = res ++ rest.
Proof.
  pose proof (find_ranges_is_overlap_filter Z.le sample_ranges [(0, 11); (18, 45)]
    ltac:(vm_compute; reflexivity) ltac:(repeat constructor; simpl; lia)) as H.
  destruct (find_ranges _ _) as [res| |] eqn:E; [|done|vm_compute in E; discriminate].
  destruct H as (_&rest&Hr&_). exists res, rest. split; [reflexivity|]. split; [|exact Hr].
  vm_compute in E. injection E as <-. reflexivity.
Defined.
