(* ===== verification/GdbProto.v ===== *)
(** Framing of the GDB remote serial protocol: src/gdbproto.rs.

    Bytes are [Z]s in [0, 256); ASCII characters are written with their codes. *)
From Stdlib Require Import ZArith Lia.
From stdpp Require Import base list sets.
From S2P Require Import Prelude.
Open Scope Z_scope.

Definition DOLLAR : Z := 36.   (* b'$' *)
Definition HASH : Z := 35.     (* b'#' *)
Definition PLUS : Z := 43.     (* b'+' *)
Definition MINUS : Z := 45.    (* b'-' *)

Definition checksum (payload : list Z) : Z :=
  fold_left (fun a b => wrap8 (a + b)) payload 0.

(** Only called with nibbles; beyond 168 the addition would overflow. *)
Definition hex_digit (n : Z) : Z := if n <? 10 then 48 + n else 97 + (n - 10).

Definition hex_val (c : Z) : option Z :=
  if (48 <=? c) && (c <=? 57) then Some (c - 48)
  else if (97 <=? c) && (c <=? 102) then Some (c - 97 + 10)
  else if (65 <=? c) && (c <=? 70) then Some (c - 65 + 10)
  else None.

(** [$] payload [#] and two checksum digits. *)
Definition encode_packet (payload : list Z) : list Z :=
  let cs := checksum payload in
  [DOLLAR] ++ payload ++ [HASH] ++ [hex_digit (Z.shiftr cs 4)] ++ [hex_digit (Z.land cs 15)].

Definition needs_escape (b : Z) : bool :=
  (b =? 125) || (b =? 126) || (b =? HASH) || (b =? DOLLAR).

Fixpoint escape (data : list Z) : list Z :=
  match data with
  | [] => []
  | b :: data => (if needs_escape b then [125; Z.lxor b 32] else [b]) ++ escape data
  end.

(** The error is "trailing escape byte". *)
Inductive UnescapeError := TrailingEscape.

Fixpoint unescape (data : list Z) : outcome UnescapeError (list Z) :=
  match data with
  | [] => Ret []
  | b :: rest =>
      if b =? 125 then
        match rest with
        | [] => Fail TrailingEscape
        | c :: rest => out ← unescape rest; Ret (Z.lxor c 32 :: out)
        end
      else out ← unescape rest; Ret (b :: out)
  end.

Inductive Decoded :=
  | Packet (p : list Z)
  | Ack
  | Nack
  | Interrupt.

Inductive State :=
  | Idle
  | Data
  | Checksum (chars : list Z) (n : Z).

Record Decoder := mkDecoder {
  state : State;
  payload : list Z;
  no_ack : bool;
  bad_checksums : Z
}.

Definition Decoder_new : Decoder := mkDecoder Idle [] false 0.
Definition set_no_ack (d : Decoder) (b : bool) : Decoder :=
  mkDecoder (state d) (payload d) b (bad_checksums d).

(** [hex_val(c).unwrap_or(0)] *)
Definition hex_val_or_0 (c : Z) : Z := default 0 (hex_val c).

(** The body of the [for] loop of [feed] for one byte: what is pushed on [out]
    and the new decoder. *)
Definition feed_byte (d : Decoder) (b : Z) : partial (list Decoded * Decoder) :=
  match state d with
  | Idle =>
      if b =? DOLLAR then Ret ([], mkDecoder Data [] (no_ack d) (bad_checksums d))
      else if (b =? PLUS) && negb (no_ack d) then Ret ([Ack], d)
      else if (b =? MINUS) && negb (no_ack d) then Ret ([Nack], d)
      else if b =? 3 then Ret ([Interrupt], d)
      else Ret ([], d)
  | Data =>
      if b =? HASH then
        Ret ([], mkDecoder (Checksum [0; 0] 0) (payload d) (no_ack d) (bad_checksums d))
      else if b =? DOLLAR then Ret ([], mkDecoder Data [] (no_ack d) (bad_checksums d))
      else Ret ([], mkDecoder Data (payload d ++ [b]) (no_ack d) (bad_checksums d))
  | Checksum chars n =>
      _ ← lift_opt (zget chars n);
      let chars := zset chars n b in
      n ← uadd n 1;
      if n <? 2 then
        Ret ([], mkDecoder (Checksum chars n) (payload d) (no_ack d) (bad_checksums d))
      else
        c0 ← lift_opt (zget chars 0);
        c1 ← lift_opt (zget chars 1);
        let got := Z.lor (wrap8 (Z.shiftl (hex_val_or_0 c0) 4)) (hex_val_or_0 c1) in
        let expect := checksum (payload d) in
        if got =? expect then
          Ret ([Packet (payload d)], mkDecoder Idle [] (no_ack d) (bad_checksums d))
        else
          bad ← uadd (bad_checksums d) 1;
          Ret ([], mkDecoder Idle [] (no_ack d) bad)
  end.

Fixpoint feed (d : Decoder) (bytes : list Z) : partial (list Decoded * Decoder) :=
  match bytes with
  | [] => Ret ([], d)
  | b :: bytes =>
      '(out1, d) ← feed_byte d b;
      '(out2, d) ← feed d bytes;
      Ret (out1 ++ out2, d)
  end.

(** ** Specification *)

(** A payload that can be framed without escaping. *)
Definition clean (p : list Z) : Prop := Forall (fun b => b <> DOLLAR /\ b <> HASH) p.

(** What the two checksum characters stand for. *)
Definition digits_value (c0 c1 : Z) : Z :=
  Z.lor (wrap8 (Z.shiftl (hex_val_or_0 c0) 4)) (hex_val_or_0 c1).

(** [bytes] holds a complete frame of [p] with a matching checksum. *)
Definition framed_in (bytes p : list Z) : Prop :=
  exists pre c0 c1 post,
    bytes = pre ++ [DOLLAR] ++ p ++ [HASH; c0; c1] ++ post /\
    clean p /\ digits_value c0 c1 = checksum p.

(** The reachable decoder states. *)
Definition wf (d : Decoder) : Prop :=
  0 <= bad_checksums d /\
  clean (payload d) /\
  match state d with
  | Idle | Data => True
  | Checksum chars n => length chars = 2%nat /\ (n = 0 \/ n = 1)
  end.

(** ** Lemmas *)

Lemma checksum_range p : 0 <= checksum p < 256.
Proof.
  unfold checksum. induction p as [|b p IH] using rev_ind; simpl; [lia|].
  rewrite fold_left_app. simpl. unfold wrap8. apply Z.mod_pos_bound. lia.
Qed.

(** Facts about all bytes, by inspection of the 256 cases. *)
Lemma byte_cases (P : Z -> bool) :
  forallb (fun n => P (Z.of_nat n)) (seq 0 256) = true -> forall b, is_u8 b -> P b = true.
Proof.
  intros H b Hb. rewrite forallb_forall in H. rewrite <- (Z2Nat.id b) by (unfold is_u8 in Hb; lia).
  apply H, in_seq. unfold is_u8 in Hb. lia.
Qed.

Lemma digits_of_byte b :
  is_u8 b ->
  digits_value (hex_digit (Z.shiftr b 4)) (hex_digit (Z.land b 15)) = b.
Proof.
  intros Hb. apply Z.eqb_eq.
  apply (byte_cases (fun b => digits_value (hex_digit (Z.shiftr b 4)) (hex_digit (Z.land b 15)) =? b));
    [by vm_compute|done].
Qed.

Lemma escape_clean data : clean (escape data).
Proof.
  unfold clean. induction data as [|b data IH]; simpl; [constructor|].
  apply Forall_app. split; [|done]. unfold needs_escape.
  destruct (Z.eqb_spec b 125); [by subst; repeat constructor|].
  destruct (Z.eqb_spec b 126); [by subst; repeat constructor|].
  destruct (Z.eqb_spec b HASH); [by subst; repeat constructor|].
  destruct (Z.eqb_spec b DOLLAR); [by subst; repeat constructor|].
  by repeat constructor.
Qed.

Lemma lxor_32_twice b : Z.lxor (Z.lxor b 32) 32 = b.
Proof. by rewrite Z.lxor_assoc, Z.lxor_nilpotent, Z.lxor_0_r. Qed.

Lemma unescape_escape data : unescape (escape data) = Ret data.
Proof.
  induction data as [|b data IH]; simpl; [done|]. unfold needs_escape.
  destruct (Z.eqb_spec b 125) as [->|H]; simpl; [by rewrite IH|].
  destruct ((b =? 126) || (b =? HASH) || (b =? DOLLAR)); simpl.
  - by rewrite IH, lxor_32_twice.
  - by rewrite (proj2 (Z.eqb_neq b 125) H), IH.
Qed.

Lemma feed_app d xs ys :
  feed d (xs ++ ys) =
  ('(o1, d1) ← feed d xs; '(o2, d2) ← feed d1 ys; Ret (o1 ++ o2, d2)).
Proof.
  revert d. induction xs as [|x xs IH]; intros d; simpl.
  - destruct (feed d ys) as [[] | |]; done.
  - destruct (feed_byte d x) as [[o d']| |]; simpl; [|done..].
    rewrite IH. destruct (feed d' xs) as [[o1 d1]| |]; simpl; [|done..].
    destruct (feed d1 ys) as [[]| |]; simpl; [|done..]. by rewrite app_assoc.
Qed.

Lemma feed_cons d b l o d' :
  feed_byte d b = Ret (o, d') ->
  feed d (b :: l) = ('(out, d2) ← feed d' l; Ret (o ++ out, d2)).
Proof. intros H. simpl. by rewrite H. Qed.

Lemma feed_cons_silent d b l d' :
  feed_byte d b = Ret ([], d') -> feed d (b :: l) = feed d' l.
Proof.
  intros H. rewrite (feed_cons _ _ _ _ _ H). by destruct (feed d' l) as [[]| |].
Qed.

(** Payload bytes accumulate in the [Data] state. *)
Lemma feed_data p0 na bad p rest :
  clean p ->
  feed (mkDecoder Data p0 na bad) (p ++ rest) = feed (mkDecoder Data (p0 ++ p) na bad) rest.
Proof.
  revert p0. induction p as [|b p IH]; intros p0 Hp; simpl app; [by rewrite app_nil_r|].
  apply Forall_cons in Hp as [[Hd Hh] Hp].
  rewrite (feed_cons_silent _ _ _ (mkDecoder Data (p0 ++ [b]) na bad)).
  - rewrite IH by done. by rewrite <- app_assoc.
  - unfold feed_byte. simpl.
    by rewrite (proj2 (Z.eqb_neq b HASH) Hh), (proj2 (Z.eqb_neq b DOLLAR) Hd).
Qed.

(** The second checksum character decides. *)
Lemma feed_byte_last c0 x p na bad c1 :
  feed_byte (mkDecoder (Checksum [c0; x] 1) p na bad) c1 =
  if digits_value c0 c1 =? checksum p
  then Ret ([Packet p], mkDecoder Idle [] na bad)
  else bad ← uadd bad 1; Ret ([], mkDecoder Idle [] na bad).
Proof. reflexivity. Qed.

Lemma feed_frame p0 na bad p rest :
  clean p ->
  feed (mkDecoder Idle p0 na bad) (encode_packet p ++ rest) =
  ('(out, d) ← feed (mkDecoder Idle [] na bad) rest; Ret (Packet p :: out, d)).
Proof.
  intros Hp. unfold encode_packet. rewrite <- !app_assoc. simpl app.
  rewrite (feed_cons_silent _ _ _ (mkDecoder Data [] na bad)) by done.
  rewrite feed_data by done. simpl app.
  set (c0 := hex_digit _). set (c1 := hex_digit (Z.land _ _)).
  rewrite (feed_cons_silent _ _ _ (mkDecoder (Checksum [0; 0] 0) p na bad)) by done.
  rewrite (feed_cons_silent _ _ _ (mkDecoder (Checksum [c0; 0] 1) p na bad)) by done.
  rewrite (feed_cons _ _ _ [Packet p] (mkDecoder Idle [] na bad)); [done|].
  unfold c0, c1. by rewrite feed_byte_last, (digits_of_byte _ (checksum_range p)), Z.eqb_refl.
Qed.

Lemma wf_new : wf Decoder_new.
Proof. split; [done|]. split; [constructor|done]. Qed.

(** What a decoder has consumed since it left [Idle] is the end of the input
    [seen] so far. *)
Definition tracks (seen : list Z) (d : Decoder) : Prop :=
  match state d with
  | Idle => True
  | Data => exists pre, seen = pre ++ [DOLLAR] ++ payload d
  | Checksum chars n =>
      exists pre, seen = pre ++ [DOLLAR] ++ payload d ++ [HASH] ++ take (Z.to_nat n) chars
  end.

Lemma feed_byte_spec seen d b :
  wf d -> tracks seen d -> bad_checksums d + 1 < 2 ^ 64 ->
  exists out d', feed_byte d b = Ret (out, d') /\ wf d' /\ tracks (seen ++ [b]) d' /\
    bad_checksums d' <= bad_checksums d + 1 /\
    forall p, Packet p ∈ out -> framed_in (seen ++ [b]) p.
Proof.
  destruct d as [[| |chars n] pl na bad]; intros (Hbad&Hpl&Hst) Ht Hb; unfold feed_byte; simpl in *.
  - repeat case_match; eexists _, _; (split; [done|]);
      (split; [split; [done|split; [first [done|constructor]|done]]|]);
      (split; [|split; [simpl; lia|set_solver]]); simpl; try done.
    zbool. subst b. by exists seen.
  - destruct Ht as [pre ->].
    destruct (Z.eqb_spec b HASH) as [->|Hh]; [|destruct (Z.eqb_spec b DOLLAR) as [->|Hd]];
      eexists _, _; (split; [done|]); (split; [|split; [|split; [simpl; lia|set_solver]]]); try done.
    + split; [done|]. split; [done|]. simpl. auto.
    + exists pre. simpl. by rewrite <- app_assoc.
    + split; [done|]. split; [constructor|done].
    + by exists (pre ++ [DOLLAR] ++ pl).
    + split; [done|]. split; [|done]. apply Forall_app. by repeat constructor.
    + exists pre. simpl. by rewrite <- app_assoc.
  - destruct Ht as [pre ->], Hst as [Hlen Hn].
    destruct chars as [|c0 [|c1 [|]]]; simpl in Hlen; try lia. destruct Hn as [->| ->]; simpl.
    + eexists _, _. split; [done|]. split; [repeat split; auto|].
      split; [|split; [simpl; lia|set_solver]]. exists pre. by list_simplifier.
    + fold (digits_value c0 b). destruct (Z.eqb_spec (digits_value c0 b) (checksum pl)) as [Hc|].
      * eexists _, _. split; [done|].
        split; [split; [done|split; [constructor|done]]|]. split; [done|]. split; [simpl; lia|].
        intros p [= ->]%list_elem_of_singleton. exists pre, c0, b, []. split; [|done].
        by list_simplifier.
      * unfold uadd. rewrite (proj2 (Z.ltb_lt _ _)) by lia. simpl.
        eexists _, _. split; [done|]. split; [split; [simpl; lia|split; [constructor|done]]|].
        split; [done|]. split; [simpl; lia|set_solver].
Qed.

Lemma framed_in_app bytes rest p : framed_in bytes p -> framed_in (bytes ++ rest) p.
Proof.
  intros (pre&c0&c1&post&->&?&?). exists pre, c0, c1, (post ++ rest).
  split; [|done]. by list_simplifier.
Qed.

Lemma feed_spec seen d bytes :
  wf d -> tracks seen d -> bad_checksums d + zlen bytes < 2 ^ 64 ->
  exists out d', feed d bytes = Ret (out, d') /\ wf d' /\ tracks (seen ++ bytes) d' /\
    bad_checksums d' <= bad_checksums d + zlen bytes /\
    forall p, Packet p ∈ out -> framed_in (seen ++ bytes) p.
Proof.
  revert seen d. induction bytes as [|b bytes IH]; intros seen d Hwf Ht Hb; simpl.
  { eexists _, _. split; [done|]. rewrite app_nil_r, zlen_nil. split; [done|]. split; [done|].
    split; [lia|set_solver]. }
  rewrite zlen_cons in *. pose proof (zlen_nonneg bytes).
  destruct (feed_byte_spec seen d b Hwf Ht ltac:(lia)) as (o1&d1&->&Hwf1&Ht1&Hb1&Hp1). simpl.
  destruct (IH (seen ++ [b]) d1 Hwf1 Ht1 ltac:(lia)) as (o2&d2&->&Hwf2&Ht2&Hb2&Hp2). simpl.
  replace (seen ++ b :: bytes) with ((seen ++ [b]) ++ bytes) by (by rewrite <- app_assoc).
  eexists _, _. split; [done|]. split; [done|]. split; [done|]. split; [lia|].
  intros p [H1|H2]%elem_of_app; [by apply framed_in_app, Hp1|by apply Hp2].
Qed.

(** Feeding the socket's reads one after the other. *)
Fixpoint feed_chunks (d : Decoder) (chunks : list (list Z)) : partial (list Decoded * Decoder) :=
  match chunks with
  | [] => Ret ([], d)
  | c :: chunks =>
      '(o1, d1) ← feed d c; '(o2, d2) ← feed_chunks d1 chunks; Ret (o1 ++ o2, d2)
  end.

Lemma feed_chunks_concat d chunks : feed_chunks d chunks = feed d (concat chunks).
Proof.
  revert d. induction chunks as [|c chunks IH]; intros d; simpl; [done|].
  rewrite feed_app. destruct (feed d c) as [[o1 d1]| |]; simpl; [|done..]. by rewrite IH.
Qed.

Lemma feed_frames p0 na bad msgs :
  Forall clean msgs -> exists pl,
  feed (mkDecoder Idle p0 na bad) (concat (encode_packet <$> msgs)) =
  Ret (Packet <$> msgs, mkDecoder Idle pl na bad).
Proof.
  revert p0. induction msgs as [|m msgs IH]; intros p0 Hm; [by eexists|].
  apply Forall_cons in Hm as [Hc Hm]. rewrite !fmap_cons. cbn [concat].
  rewrite feed_frame by done.
  destruct (IH [] Hm) as [pl ->]. simpl. by eexists.
Qed.

(** ** Properties *)

(** Packets survive transmission: a stream of framed payloads (free of [$]
    and [#]), cut into socket reads at arbitrary places, is decoded into
    exactly these payloads in order, and leaves the decoder idle with no
    checksum error counted. *)
Theorem framing_roundtrip d msgs chunks :
  state d = Idle -> Forall clean msgs ->
  concat chunks = concat (encode_packet <$> msgs) ->
  exists d', feed_chunks d chunks = Ret (Packet <$> msgs, d') /\
    state d' = Idle /\ bad_checksums d' = bad_checksums d.
Proof.
  destruct d as [st p0 na bad]. simpl. intros -> Hm Hc. rewrite feed_chunks_concat, Hc.
  destruct (feed_frames p0 na bad msgs Hm) as [pl ->]. by eexists.
Qed.

Lemma framing_roundtrip_witness :
  exists d', feed_chunks Decoder_new [[36; 79; 75; 35; 57]; [97; 36; 35]; [48; 48]] =
      Ret ([Packet [79; 75]; Packet []], d') /\ state d' = Idle /\ bad_checksums d' = 0.
Proof.
  apply (framing_roundtrip Decoder_new [[79; 75]; []]); [reflexivity| |vm_compute; reflexivity].
  repeat constructor; discriminate.
Defined.

(** Binary escaping: every escaped byte string can be framed (it contains
    neither [$] nor [#]), decodes to the original, and travels through the
    decoder unchanged. *)
Theorem escape_roundtrip data :
  unescape (escape data) = Ret data /\ clean (escape data) /\
  feed Decoder_new (encode_packet (escape data)) = Ret ([Packet (escape data)], Decoder_new).
Proof.
  split; [apply unescape_escape|]. split; [apply escape_clean|].
  rewrite <- (app_nil_r (encode_packet _)). unfold Decoder_new.
  by rewrite feed_frame by apply escape_clean.
Qed.

(** The decoder on arbitrary input, starting in any reachable state: it
    never indexes its two checksum characters out of range nor panics
    otherwise (the 64-bit error counter permitting), stays in a reachable
    state, and every packet it reports was framed in the input with a checksum
    that matches. *)
Theorem decoder_sound seen d bytes :
  wf d -> tracks seen d -> bad_checksums d + zlen bytes < 2 ^ 64 ->
  exists out d', feed d bytes = Ret (out, d') /\ wf d' /\ tracks (seen ++ bytes) d' /\
    forall p, Packet p ∈ out -> framed_in (seen ++ bytes) p.
Proof.
  intros Hwf Ht Hb. destruct (feed_spec seen d bytes Hwf Ht Hb) as (out&d'&?&?&?&_&?); eauto 10.
Qed.

Lemma decoder_sound_witness :
  exists out d', feed Decoder_new [36; 83; 48; 53; 35; 98; 56] = Ret (out, d') /\
    out = [Packet [83; 48; 53]] /\ framed_in [36; 83; 48; 53; 35; 98; 56] [83; 48; 53].
Proof.
  destruct (decoder_sound [] Decoder_new [36; 83; 48; 53; 35; 98; 56] wf_new I
    ltac:(vm_compute; reflexivity)) as (out&d'&Hf&_&_&Hp).
  vm_compute in Hf. injection Hf as <- <-. eexists _, _. split; [vm_compute; reflexivity|].
  split; [reflexivity|]. apply Hp. apply list_elem_of_here.
Defined.

(** Characters that are not hexadecimal digits count as zero in a checksum, so
    that the frame [$#zz] is accepted as an empty packet. *)
Example invalid_checksum_digits_accepted :
  feed Decoder_new [DOLLAR; HASH; 122; 122] = Ret ([Packet []], Decoder_new).
Proof. reflexivity. Qed.
