(* ===== verification/RustStr.v ===== *)
(** The string functions of Rust's standard library that the source uses, on
    byte lists: a [str] is a list of bytes that is valid UTF-8. *)
From Stdlib Require Import ZArith Lia String Ascii.
From stdpp Require Import base list.
From S2P Require Import Prelude GdbProto.
Open Scope Z_scope.

(** The bytes of an ASCII literal. *)
Definition str (s : string) : list Z :=
  map (fun a => Z.of_N (N_of_ascii a)) (list_ascii_of_string s).
Arguments str s%_string_scope.

#[export] Instance bytes_eq_dec : EqDecision (list Z) := _.
Definition bytes_eqb (a b : list Z) : bool := bool_decide (a = b).

(** ** UTF-8 *)

Definition is_cont (b : Z) : bool := (128 <=? b) && (b <? 192).

(** The byte after the first one, for the first bytes that restrict it. *)
Definition second_ok (b0 b1 : Z) : bool :=
  if b0 =? 224 then (160 <=? b1) && (b1 <? 192)
  else if b0 =? 237 then (128 <=? b1) && (b1 <? 160)
  else if b0 =? 240 then (144 <=? b1) && (b1 <? 192)
  else if b0 =? 244 then (128 <=? b1) && (b1 <? 144)
  else is_cont b1.

(** The first character of a byte string: whether it is valid, and the length
    of the character or of the maximal invalid prefix that one U+FFFD
    replaces. Missing bytes count as 0. *)
Definition utf8_head (l : list Z) : bool * nat :=
  let at_ i := default 0 (l !! i) in
  let b0 := at_ 0%nat in
  if b0 <? 128 then (true, 1%nat)
  else if (194 <=? b0) && (b0 <? 224) then
    if is_cont (at_ 1%nat) then (true, 2%nat) else (false, 1%nat)
  else if (224 <=? b0) && (b0 <? 240) then
    if second_ok b0 (at_ 1%nat) then
      if is_cont (at_ 2%nat) then (true, 3%nat) else (false, 2%nat)
    else (false, 1%nat)
  else if (240 <=? b0) && (b0 <? 245) then
    if second_ok b0 (at_ 1%nat) then
      if is_cont (at_ 2%nat) then
        if is_cont (at_ 3%nat) then (true, 4%nat) else (false, 3%nat)
      else (false, 2%nat)
    else (false, 1%nat)
  else (false, 1%nat).

Definition REPLACEMENT : list Z := [239; 191; 189].

(** The bytes of a character, and of a text of characters. *)
Definition utf8_bytes (c : Z) : list Z :=
  if c <? 2 ^ 7 then [c]
  else if c <? 2 ^ 11 then [192 + c / 2 ^ 6; 128 + c mod 2 ^ 6]
  else if c <? 2 ^ 16 then [224 + c / 2 ^ 12; 128 + c / 2 ^ 6 mod 2 ^ 6; 128 + c mod 2 ^ 6]
  else [240 + c / 2 ^ 18; 128 + c / 2 ^ 12 mod 2 ^ 6; 128 + c / 2 ^ 6 mod 2 ^ 6; 128 + c mod 2 ^ 6].
Definition utf8_encode (s : list Z) : list Z := concat (map utf8_bytes s).

(** [String::from_utf8_lossy] *)
Fixpoint from_utf8_lossy_loop (fuel : nat) (l : list Z) : list Z :=
  match fuel, l with
  | S fuel, _ :: _ =>
      let '(ok, n) := utf8_head l in
      (if ok then take n l else REPLACEMENT) ++ from_utf8_lossy_loop fuel (drop n l)
  | _, _ => []
  end.
Definition from_utf8_lossy (l : list Z) : list Z := from_utf8_lossy_loop (length l) l.

(** [std::str::from_utf8]: is the byte string valid? *)
Fixpoint from_utf8_loop (fuel : nat) (l : list Z) : bool :=
  match fuel, l with
  | S fuel, _ :: _ => let '(ok, n) := utf8_head l in ok && from_utf8_loop fuel (drop n l)
  | _, _ => true
  end.
Definition from_utf8 (l : list Z) : bool := from_utf8_loop (length l) l.

(** [s.is_char_boundary(i)] and [&s[a..b]]. *)
Definition is_char_boundary (s : list Z) (i : Z) : bool :=
  if i =? 0 then true
  else match zget s i with
       | Some b => negb (is_cont b)
       | None => i =? zlen s
       end.
Definition str_slice {E} (s : list Z) (a b : Z) : outcome E (list Z) :=
  if (a <=? b) && is_char_boundary s a && is_char_boundary s b then zslice s a b else Panic.

(** ** Numbers *)

Fixpoint radix16_loop (bits : Z) (s : list Z) (acc : Z) : option Z :=
  match s with
  | [] => Some acc
  | c :: s =>
      match hex_val c with
      | None => None
      | Some d => let acc := acc * 16 + d in
                  if acc <? 2 ^ bits then radix16_loop bits s acc else None
      end
  end.
(** [u64::from_str_radix(s, 16)] and [u8::from_str_radix(s, 16)]: an optional
    plus sign, then at least one digit, without overflow. *)
Definition from_str_radix_16 (bits : Z) (s : list Z) : option Z :=
  match s with
  | [] => None
  | [c] => if (c =? PLUS) || (c =? MINUS) then None else radix16_loop bits s 0
  | c :: rest => if c =? PLUS then radix16_loop bits rest 0 else radix16_loop bits s 0
  end.

(** [format!("{:x}", n)] for a 64-bit [n]. *)
Fixpoint to_hex_loop (fuel : nat) (n : Z) (acc : list Z) : list Z :=
  match fuel with
  | O => acc
  | S fuel =>
      let acc := hex_digit (n mod 16) :: acc in
      if n <? 16 then acc else to_hex_loop fuel (n / 16) acc
  end.
Definition to_hex (n : Z) : list Z := to_hex_loop 16 n [].

(** [format!("{}", n)] for a byte. *)
Definition to_dec8 (n : Z) : list Z :=
  if n <? 10 then [48 + n]
  else if n <? 100 then [48 + n / 10; 48 + n mod 10]
  else [48 + n / 100; 48 + n / 10 mod 10; 48 + n mod 10].

(** ** Searching *)

(** [s.split(c)] for an ASCII [c]: at least one piece. *)
Fixpoint split_on (c : Z) (s : list Z) : list (list Z) :=
  match s with
  | [] => [[]]
  | b :: s =>
      if b =? c then [] :: split_on c s
      else match split_on c s with
           | h :: t => (b :: h) :: t
           | [] => [[b]]
           end
  end.

(** [s.split_once(c)] *)
Fixpoint split_once (c : Z) (s : list Z) : option (list Z * list Z) :=
  match s with
  | [] => None
  | b :: s =>
      if b =? c then Some ([], s)
      else match split_once c s with
           | Some (h, t) => Some (b :: h, t)
           | None => None
           end
  end.

(** [s.rsplit(c).next()] *)
Definition rsplit_first (c : Z) (s : list Z) : option (list Z) := last (split_on c s).

(** [s.strip_prefix(p)], [s.starts_with(p)], [s.contains(p)] *)
Fixpoint strip_prefix (p s : list Z) : option (list Z) :=
  match p, s with
  | [], _ => Some s
  | a :: p, b :: s => if a =? b then strip_prefix p s else None
  | _ :: _, [] => None
  end.
Definition starts_with (p s : list Z) : bool :=
  match strip_prefix p s with Some _ => true | None => false end.
Fixpoint contains (p s : list Z) : bool :=
  starts_with p s || match s with [] => false | _ :: s => contains p s end.

(** ** Lemmas *)

Definition ascii (s : list Z) : Prop := Forall (fun b => 0 <= b < 128) s.

Lemma utf8_head_ascii b l : 0 <= b < 128 -> utf8_head (b :: l) = (true, 1%nat).
Proof. intros H. unfold utf8_head. simpl. by rewrite (proj2 (Z.ltb_lt b 128)) by lia. Qed.

Lemma from_utf8_lossy_ascii s : ascii s -> from_utf8_lossy s = s.
Proof.
  unfold from_utf8_lossy. induction s as [|b s IH]; intros Hs; [done|].
  apply Forall_cons in Hs as [Hb Hs]. cbn [length from_utf8_lossy_loop].
  rewrite utf8_head_ascii by done. simpl. by rewrite drop_0, IH.
Qed.

Lemma from_utf8_ascii s : ascii s -> from_utf8 s = true.
Proof.
  unfold from_utf8. induction s as [|b s IH]; intros Hs; [done|].
  apply Forall_cons in Hs as [Hb Hs]. cbn [length from_utf8_loop].
  rewrite utf8_head_ascii by done. simpl. by rewrite drop_0, IH.
Qed.

Lemma is_char_boundary_ascii s i : ascii s -> 0 <= i <= zlen s -> is_char_boundary s i = true.
Proof.
  intros Hs Hi. unfold is_char_boundary. destruct (Z.eqb_spec i 0); [done|].
  destruct (zget s i) as [b|] eqn:E.
  - apply zget_Some in E as [_ E]. pose proof (Forall_lookup_1 _ _ _ _ Hs E) as H. simpl in H.
    unfold is_cont. by rewrite (proj2 (Z.leb_gt 128 b)) by lia.
  - destruct (Z.eqb_spec i (zlen s)); [done|].
    destruct (proj2 (zget_range s i)); [lia|congruence].
Qed.

(** Nibbles and their digits. *)
Lemma hex_val_digit n : 0 <= n < 16 -> hex_val (hex_digit n) = Some n.
Proof.
  intros Hn. unfold hex_digit, hex_val. destruct (Z.ltb_spec n 10).
  - rewrite (proj2 (Z.leb_le 48 _)), (proj2 (Z.leb_le _ 57)) by lia. simpl. f_equal. lia.
  - rewrite (proj2 (Z.leb_gt _ 57)) by lia. rewrite andb_false_r.
    rewrite (proj2 (Z.leb_le 97 _)), (proj2 (Z.leb_le _ 102)) by lia. simpl. f_equal. lia.
Qed.

(** The characters [hex_digit] produces. *)
Definition hex_char (c : Z) : Prop := 48 <= c <= 57 \/ 97 <= c <= 102.

Lemma hex_digit_range n : 0 <= n < 16 -> hex_char (hex_digit n).
Proof. intros Hn. unfold hex_digit, hex_char. destruct (Z.ltb_spec n 10); lia. Qed.

Lemma hex_char_ascii ds : Forall hex_char ds -> ascii ds.
Proof. intros H. eapply Forall_impl; [exact H|]. unfold hex_char. simpl. lia. Qed.

(** A character that is not a digit occurs nowhere among digits. *)
Lemma hex_char_ne c ds : ~ hex_char c -> Forall hex_char ds -> Forall (fun b => b <> c) ds.
Proof. intros Hc H. eapply Forall_impl; [exact H|]. by intros b Hb ->. Qed.

Lemma to_hex_loop_spec fuel n acc :
  0 <= n < 16 ^ Z.of_nat fuel -> (0 < fuel)%nat ->
  exists ds, to_hex_loop fuel n acc = ds ++ acc /\ ds <> [] /\
    Forall hex_char ds /\
    forall bits a s, 0 <= a -> a * 16 ^ zlen ds + n < 2 ^ bits ->
      radix16_loop bits (ds ++ s) a = radix16_loop bits s (a * 16 ^ zlen ds + n).
Proof.
  revert n acc. induction fuel as [|fuel IH]; intros n acc Hn Hf; [lia|]. simpl.
  pose proof (Z.mod_pos_bound n 16 ltac:(lia)) as Hm.
  destruct (Z.ltb_spec n 16) as [Hlt|Hge].
  - exists [hex_digit (n mod 16)]. split; [done|]. split; [done|].
    split; [by apply Forall_singleton, hex_digit_range|].
    intros bits a s Ha Hb. rewrite Z.mod_small in * by lia. simpl.
    rewrite hex_val_digit by lia. change (zlen [_]) with 1 in *.
    change (16 ^ 1) with 16 in *. by rewrite (proj2 (Z.ltb_lt _ _)) by lia.
  - destruct fuel as [|fuel]; [change (16 ^ Z.of_nat 1) with 16 in Hn; lia|].
    destruct (IH (n / 16) (hex_digit (n mod 16) :: acc)) as (ds&->&Hne&Hds&Hr).
    { rewrite Nat2Z.inj_succ, Z.pow_succ_r in Hn by lia.
      split; [apply Z.div_pos; lia|]. apply Z.div_lt_upper_bound; lia. }
    { lia. }
    exists (ds ++ [hex_digit (n mod 16)]). split; [by rewrite <- app_assoc|].
    split; [by destruct ds|].
    split; [apply Forall_app; split; [done|]; by apply Forall_singleton, hex_digit_range|].
    intros bits a s Ha Hb. rewrite zlen_app in *. change (zlen [_]) with 1 in *.
    rewrite Z.pow_add_r in * by (pose proof (zlen_nonneg ds); lia). change (16 ^ 1) with 16 in *.
    pose proof (Z.div_mod n 16 ltac:(lia)) as Hdm.
    assert (0 <= 16 ^ zlen ds) by (apply Z.pow_nonneg; lia).
    rewrite <- app_assoc, Hr by nia. simpl. rewrite hex_val_digit by lia.
    rewrite (proj2 (Z.ltb_lt _ _)) by nia. f_equal. nia.
Qed.

Lemma to_hex_spec n :
  is_u64 n -> exists d ds, to_hex n = d :: ds /\ Forall hex_char (d :: ds) /\
    radix16_loop 64 (d :: ds) 0 = Some n.
Proof.
  intros Hn. unfold to_hex.
  destruct (to_hex_loop_spec 16 n []) as (ds&->&Hne&Hds&Hr); [done|lia|].
  rewrite app_nil_r in *. destruct ds as [|d ds]; [done|]. exists d, ds. split; [done|].
  split; [done|]. specialize (Hr 64 0 [] ltac:(lia)). rewrite app_nil_r in Hr.
  rewrite Hr; [simpl; f_equal; lia|]. unfold is_u64 in Hn. lia.
Qed.

(** [u64::from_str_radix(&format!("{:x}", n), 16)] is [n]. *)
Lemma from_to_hex n : is_u64 n -> from_str_radix_16 64 (to_hex n) = Some n.
Proof.
  intros (d&ds&->&Hds&Hr)%to_hex_spec. apply Forall_cons in Hds as [Hd _]. unfold hex_char in Hd.
  unfold from_str_radix_16, PLUS, MINUS. rewrite (proj2 (Z.eqb_neq d 43)), (proj2 (Z.eqb_neq d 45)) by lia.
  by destruct ds.
Qed.

Lemma to_hex_chars n : is_u64 n -> Forall hex_char (to_hex n) /\ to_hex n <> [].
Proof. by intros (d&ds&->&Hds&_)%to_hex_spec. Qed.

Lemma split_on_nonempty c s : split_on c s <> [].
Proof. destruct s; simpl; [done|]. repeat case_match; done. Qed.

(** Splitting at a separator that the first piece does not contain. *)
Lemma split_on_app c s t :
  Forall (fun b => b <> c) s -> split_on c (s ++ [c] ++ t) = s :: split_on c t.
Proof.
  induction s as [|b s IH]; intros Hs; simpl; [by rewrite Z.eqb_refl|].
  apply Forall_cons in Hs as [Hb Hs]. rewrite (proj2 (Z.eqb_neq b c) Hb).
  simpl in IH. by rewrite IH.
Qed.

Lemma split_on_none c s : Forall (fun b => b <> c) s -> split_on c s = [s].
Proof.
  induction s as [|b s IH]; intros Hs; simpl; [done|].
  apply Forall_cons in Hs as [Hb Hs]. by rewrite (proj2 (Z.eqb_neq b c) Hb), IH.
Qed.

Lemma split_once_app c s t :
  Forall (fun b => b <> c) s -> split_once c (s ++ [c] ++ t) = Some (s, t).
Proof.
  induction s as [|b s IH]; intros Hs; simpl; [by rewrite Z.eqb_refl|].
  apply Forall_cons in Hs as [Hb Hs]. rewrite (proj2 (Z.eqb_neq b c) Hb).
  simpl in IH. by rewrite IH.
Qed.

(** Splitting pieces that each end with the separator. *)
Lemma split_on_terminated c (pieces : list (list Z)) :
  Forall (fun p => p <> [] /\ Forall (fun b => b <> c) p) pieces ->
  filter (fun f => f <> []) (split_on c (concat (map (fun p => p ++ [c]) pieces))) = pieces.
Proof.
  induction 1 as [|p pieces [Hne Hp] _ IH]; [done|].
  cbn [map concat]. rewrite <- app_assoc, split_on_app by done.
  rewrite filter_cons_True by done. by rewrite IH.
Qed.

Lemma rsplit_first_none c s : Forall (fun b => b <> c) s -> rsplit_first c s = Some s.
Proof. intros Hs. unfold rsplit_first. by rewrite split_on_none. Qed.

Lemma bytes_eqb_refl s : bytes_eqb s s = true.
Proof. by apply bool_decide_true. Qed.
Lemma bytes_eqb_ne s t : s <> t -> bytes_eqb s t = false.
Proof. apply bool_decide_false. Qed.
