(* ===== verification/RustText.v ===== *)
(** Text functions of Rust's standard library that the parsers of the
    repository use, on UTF-8 strings as lists of bytes. *)
From Stdlib Require Import ZArith Lia String.
From stdpp Require Import base list.
From S2P Require Import Prelude RustStr.
Open Scope Z_scope.

(** ** Searching *)

(** [s.find(pat)]: the text before the first occurrence and from it on. *)
Fixpoint find_split (pat s : list Z) : option (list Z * list Z) :=
  if starts_with pat s then Some ([], s)
  else match s with
       | [] => None
       | c :: s => match find_split pat s with
                   | Some (pre, post) => Some (c :: pre, post)
                   | None => None
                   end
       end.

(** The text after the first occurrence of [pat]. *)
Definition after (pat s : list Z) : option (list Z) :=
  match find_split pat s with
  | Some (_, post) => Some (drop (List.length pat) post)
  | None => None
  end.
(** The text before it. *)
Definition before (pat s : list Z) : option (list Z) :=
  match find_split pat s with
  | Some (pre, _) => Some pre
  | None => None
  end.

(** ** Whitespace *)

(** The characters with the property White_Space, encoded. *)
Definition WHITE_SPACE : list (list Z) :=
  [[9]; [10]; [11]; [12]; [13]; [32]; [194; 133]; [194; 160]; [225; 154; 128]] ++
  map (fun b => [226; 128; b]) [128; 129; 130; 131; 132; 133; 134; 135; 136; 137; 138; 168; 169; 175] ++
  [[226; 129; 159]; [227; 128; 128]].

Fixpoint strip_any (pats : list (list Z)) (s : list Z) : option (list Z) :=
  match pats with
  | [] => None
  | p :: pats => match strip_prefix p s with Some s => Some s | None => strip_any pats s end
  end.
Fixpoint strip_all (fuel : nat) (pats : list (list Z)) (s : list Z) : list Z :=
  match fuel with
  | O => s
  | S fuel => match strip_any pats s with Some s => strip_all fuel pats s | None => s end
  end.
Definition trim_start (s : list Z) : list Z := strip_all (List.length s) WHITE_SPACE s.
Definition trim_end (s : list Z) : list Z :=
  rev (strip_all (List.length s) (map (@rev Z) WHITE_SPACE) (rev s)).
Definition trim (s : list Z) : list Z := trim_end (trim_start s).

(** [s.strip_suffix(p)] *)
Definition strip_suffix (p s : list Z) : option (list Z) :=
  match strip_prefix (rev p) (rev s) with Some t => Some (rev t) | None => None end.

(** ** Numbers *)

(** [str::parse] and [from_str_radix(s, 10)] on an unsigned integer type. *)
Fixpoint dec_loop (bits : Z) (s : list Z) (acc : Z) : option Z :=
  match s with
  | [] => Some acc
  | c :: s => if (48 <=? c) && (c <=? 57) then
                let acc := acc * 10 + (c - 48) in
                if acc <? 2 ^ bits then dec_loop bits s acc else None
              else None
  end.
Definition parse_uint (bits : Z) (s : list Z) : option Z :=
  match s with
  | [] => None
  | c :: t => if c =? 43 then match t with [] => None | _ => dec_loop bits t 0 end else dec_loop bits s 0
  end.

(** The decimal digits of a number. *)
Fixpoint dec_digits (fuel : nat) (n : Z) (acc : list Z) : list Z :=
  match fuel with
  | O => acc
  | S fuel => if n <? 10 then (48 + n) :: acc else dec_digits fuel (n / 10) ((48 + n mod 10) :: acc)
  end.
Definition to_dec (n : Z) : list Z := dec_digits 20 n [].

(** ** Lemmas *)

Lemma find_split_app pat s pre post :
  find_split pat s = Some (pre, post) -> s = pre ++ post /\ starts_with pat post = true.
Proof.
  revert pre post. induction s as [|c s IH]; intros pre post; simpl.
  - destruct (starts_with pat []) eqn:E; [|done]. by intros [= <- <-].
  - destruct (starts_with pat (c :: s)) eqn:E; [by intros [= <- <-]|].
    destruct (find_split pat s) as [[p q]|] eqn:Ef; [|done]. intros [= <- <-].
    destruct (IH _ _ eq_refl) as [-> ?]. done.
Qed.

Lemma starts_with_app pat s : starts_with pat (pat ++ s) = true.
Proof.
  unfold starts_with. induction pat as [|c pat IH]; simpl; [done|]. rewrite Z.eqb_refl. exact IH.
Qed.

Lemma starts_with_length pat s : starts_with pat s = true -> (List.length pat <= List.length s)%nat.
Proof.
  unfold starts_with. revert s. induction pat as [|c pat IH]; intros s; simpl; [lia|].
  destruct s as [|b s]; [done|]. destruct (c =? b) eqn:E; [|done]. intros H. simpl. specialize (IH s H). lia.
Qed.

(** The first occurrence of a pattern whose first byte does not occur before. *)
Lemma find_split_first c pat pre post :
  Forall (fun b => b <> c) pre -> find_split (c :: pat) (pre ++ c :: pat ++ post) = Some (pre, c :: pat ++ post).
Proof.
  intros Hpre. induction Hpre as [|b pre Hb _ IH]; simpl.
  - assert (Hs : starts_with (c :: pat) (c :: pat ++ post) = true) by apply (starts_with_app (c :: pat) post).
    by rewrite Hs.
  - assert (Hs : starts_with (c :: pat) (b :: pre ++ c :: pat ++ post) = false).
    { unfold starts_with. simpl. by rewrite (proj2 (Z.eqb_neq c b)) by congruence. }
    by rewrite Hs, IH.
Qed.

Lemma find_split_none c pat s : Forall (fun b => b <> c) s -> find_split (c :: pat) s = None.
Proof.
  induction 1 as [|b s Hb _ IH]; [done|]. simpl.
  assert (Hs : starts_with (c :: pat) (b :: s) = false).
  { unfold starts_with. simpl. by rewrite (proj2 (Z.eqb_neq c b)) by congruence. }
  by rewrite Hs, IH.
Qed.

Lemma find_split_length pat s pre post :
  find_split pat s = Some (pre, post) -> (List.length post <= List.length s)%nat.
Proof. intros H. apply find_split_app in H as [-> _]. rewrite length_app. lia. Qed.

Lemma dec_loop_app bits s t acc :
  dec_loop bits (s ++ t) acc = match dec_loop bits s acc with Some x => dec_loop bits t x | None => None end.
Proof.
  revert acc. induction s as [|c s IH]; intros acc; simpl; [done|].
  destruct ((48 <=? c) && (c <=? 57)); [|done]. destruct (_ <? 2 ^ bits); [apply IH|done].
Qed.

Lemma dec_digits_spec fuel n acc :
  0 <= n < 10 ^ Z.of_nat fuel ->
  exists ds, dec_digits fuel n acc = ds ++ acc /\ Forall (fun c => 48 <= c <= 57) ds /\
    (ds <> [] \/ fuel = O) /\
    forall bits, n < 2 ^ bits -> dec_loop bits ds 0 = Some n.
Proof.
  revert n acc. induction fuel as [|fuel IH]; intros n acc Hn.
  - exists []. split; [done|]. split; [done|]. split; [by right|]. intros bits _. simpl in *. f_equal. lia.
  - cbn [dec_digits]. destruct (Z.ltb_spec n 10) as [Hlt|Hge].
    + exists [48 + n]. split; [done|]. split; [by repeat constructor; lia|]. split; [by left|].
      intros bits Hb. simpl. rewrite (proj2 (Z.leb_le 48 (48 + n))), (proj2 (Z.leb_le (48 + n) 57)) by lia.
      replace (48 + n - 48) with n by lia. simpl. by rewrite (proj2 (Z.ltb_lt _ _)).
    + rewrite Nat2Z.inj_succ, Z.pow_succ_r in Hn by lia.
      destruct (IH (n / 10) ((48 + n mod 10) :: acc)) as (ds&Hds&Hall&_&Hval).
      { split; [apply Z.div_pos; lia|]. apply Z.div_lt_upper_bound; lia. }
      pose proof (Z.mod_pos_bound n 10 ltac:(lia)). pose proof (Z.div_mod n 10 ltac:(lia)).
      exists (ds ++ [48 + n mod 10]). split; [by rewrite Hds, <- app_assoc|].
      split; [apply Forall_app; split; [done|]; by repeat constructor; lia|]. split; [left; by destruct ds|].
      intros bits Hb. rewrite dec_loop_app, Hval by lia. simpl.
      rewrite (proj2 (Z.leb_le 48 _)), (proj2 (Z.leb_le _ 57)) by lia. simpl.
      replace (n / 10 * 10 + (48 + n mod 10 - 48)) with n by lia. by rewrite (proj2 (Z.ltb_lt _ _)).
Qed.

Lemma parse_to_dec bits n : 0 <= bits <= 64 -> 0 <= n < 2 ^ bits -> parse_uint bits (to_dec n) = Some n.
Proof.
  intros Hbits Hn. assert (2 ^ bits <= 2 ^ 64) by (apply Z.pow_le_mono_r; lia).
  destruct (dec_digits_spec 20 n []) as (ds&Hds&Hall&Hne&Hval); [change (10 ^ Z.of_nat 20) with (10 ^ 20); lia|].
  unfold to_dec. rewrite Hds, app_nil_r. destruct ds as [|c ds]; [by destruct Hne|].
  unfold parse_uint. apply Forall_cons_1 in Hall as [Hc _].
  rewrite (proj2 (Z.eqb_neq c 43)) by lia. apply Hval. lia.
Qed.

Lemma to_dec_digits n : 0 <= n < 2 ^ 64 -> Forall (fun c => 48 <= c <= 57) (to_dec n).
Proof.
  intros Hn. destruct (dec_digits_spec 20 n []) as (ds&Hds&Hall&_); [change (10 ^ Z.of_nat 20) with (10 ^ 20); lia|].
  unfold to_dec. by rewrite Hds, app_nil_r.
Qed.

(** ** Skipping text that holds no occurrence *)

Lemma after_app pat s : after pat (pat ++ s) = Some s.
Proof.
  unfold after. destruct (find_split pat (pat ++ s)) as [[pre post]|] eqn:E.
  - assert (find_split pat (pat ++ s) = Some ([], pat ++ s)) as H.
    { destruct (pat ++ s) eqn:E'; simpl; rewrite <- E', starts_with_app; done. }
    rewrite E in H. injection H as -> ->. by rewrite drop_app_length.
  - exfalso. assert (find_split pat (pat ++ s) = Some ([], pat ++ s)) as H.
    { destruct (pat ++ s) eqn:E'; simpl; rewrite <- E', starts_with_app; done. }
    congruence.
Qed.
Lemma before_char c pre post : Forall (fun b => b <> c) pre -> before [c] (pre ++ c :: post) = Some pre.
Proof. intros H. unfold before. pose proof (find_split_first c [] pre post H) as E. simpl in E. by rewrite E. Qed.
Lemma after_char c pre post : Forall (fun b => b <> c) pre -> after [c] (pre ++ c :: post) = Some post.
Proof. intros H. unfold after. pose proof (find_split_first c [] pre post H) as E. simpl in E. by rewrite E. Qed.

Lemma after_skip1 pat x s : starts_with pat (x :: s) = false -> after pat (x :: s) = after pat s.
Proof. intros H. unfold after. simpl. rewrite H. by destruct (find_split pat s) as [[]|]. Qed.
Lemma after_over c pat pre s : Forall (fun b => b <> c) pre -> after (c :: pat) (pre ++ s) = after (c :: pat) s.
Proof.
  induction 1 as [|b pre Hb _ IH]; [done|]. simpl. rewrite after_skip1; [done|].
  unfold starts_with. simpl. by rewrite (proj2 (Z.eqb_neq c b)) by congruence.
Qed.

Lemma starts_with_Some pat s : starts_with pat s = true -> exists t, s = pat ++ t.
Proof.
  unfold starts_with. revert s. induction pat as [|c pat IH]; intros s; simpl; [by exists s|].
  destruct s as [|b s]; [done|]. destruct (Z.eqb_spec c b) as [->|]; [|done].
  intros [t ->]%IH. by exists t.
Qed.

(** A key that ends in [=] and a quote does not begin inside a quoted text
    without [=]. *)
Lemma after_quoted w n s :
  Forall (fun b => b <> 34) w -> Forall (fun b => b <> 34 /\ b <> 61) n ->
  after (w ++ [61; 34]) (n ++ 34 :: s) = after (w ++ [61; 34]) (34 :: s).
Proof.
  intros Hw Hn. induction Hn as [|b n Hb Hn IH]; [done|]. cbn [app]. rewrite after_skip1; [exact IH|].
  destruct (starts_with _ _) eqn:E; [|done]. exfalso. apply starts_with_Some in E as [t Ht].
  assert (Forall (fun b => b <> 34 /\ b <> 61) (b :: n)) as Hbn by (by constructor).
  assert (Forall (fun b => b <> 34) (b :: n)) as Hbn' by (eapply Forall_impl; [exact Hbn|tauto]).
  change (b :: n ++ 34 :: s) with ((b :: n) ++ 34 :: s) in Ht.
  apply (f_equal (before [34])) in Ht. rewrite before_char in Ht by exact Hbn'.
  rewrite <- app_assoc in Ht. change (w ++ [61; 34] ++ t) with (w ++ [61] ++ 34 :: t) in Ht.
  rewrite app_assoc, before_char in Ht by (apply Forall_app; split; [exact Hw|by repeat constructor]).
  injection Ht as Ht. rewrite Ht in Hbn. apply Forall_app in Hbn as [_ Hbn].
  apply Forall_cons_1 in Hbn. tauto.
Qed.

(** The first occurrence after a text that holds none, for a pattern whose
    first byte does not occur again in it. *)
Lemma find_split_after c pat pre post :
  Forall (fun b => b <> c) pat -> find_split (c :: pat) pre = None ->
  find_split (c :: pat) (pre ++ c :: pat ++ post) = Some (pre, c :: pat ++ post).
Proof.
  intros Hpat. induction pre as [|b pre IH]; intros Hpre.
  - by apply (find_split_first c pat [] post).
  - cbn [find_split app] in *. destruct (starts_with (c :: pat) (b :: pre)) eqn:E; [done|].
    destruct (find_split (c :: pat) pre) as [[]|]; [done|]. rewrite IH by done.
    destruct (starts_with (c :: pat) (b :: pre ++ c :: pat ++ post)) eqn:E'; [|done]. exfalso.
    apply starts_with_Some in E' as [t Ht]. cbn [app] in Ht. injection Ht as -> Ht.
    destruct (decide (List.length pat <= List.length pre)%nat) as [Hle|Hgt].
    + apply (f_equal (take (List.length pat))) in Ht. rewrite take_app_length, take_app_le in Ht by done.
      assert (starts_with (c :: pat) (c :: pre) = true); [|congruence].
      rewrite <- (take_drop (List.length pat) pre), Ht. apply (starts_with_app (c :: pat)).
    + apply (f_equal (fun l => l !! List.length pre)) in Ht.
      rewrite lookup_app_r, Nat.sub_diag in Ht by done. rewrite lookup_app_l in Ht by lia. simpl in Ht.
      symmetry in Ht. apply list_elem_of_lookup_2 in Ht. rewrite Forall_forall in Hpat. by apply (Hpat c Ht).
Qed.

Lemma after_Some pat s t : after pat s = Some t -> exists pre, s = pre ++ pat ++ t.
Proof.
  unfold after. destruct (find_split pat s) as [[pre post]|] eqn:E; [|done]. intros [= <-].
  apply find_split_app in E as [-> [u ->]%starts_with_Some]. exists pre. by rewrite drop_app_length.
Qed.
Lemma find_char_app c s t pre post : find_split [c] s = Some (pre, post) -> find_split [c] (s ++ t) = Some (pre, post ++ t).
Proof.
  revert pre post. induction s as [|b s IH]; intros pre post; [done|]. simpl.
  unfold starts_with. simpl. destruct (c =? b); [by intros [= <- <-]|].
  destruct (find_split [c] s) as [[p q]|]; [|done]. intros [= <- <-]. by rewrite (IH _ _ eq_refl).
Qed.
Lemma before_char_app c s t v : before [c] s = Some v -> before [c] (s ++ t) = Some v.
Proof.
  unfold before. destruct (find_split [c] s) as [[p q]|] eqn:E; [|done]. intros [= <-].
  by rewrite (find_char_app _ _ _ _ _ E).
Qed.
Lemma find_char_Some c s : find_split [c] s = None \/ exists pre post, find_split [c] s = Some (pre, c :: post) /\ s = pre ++ c :: post.
Proof.
  destruct (find_split [c] s) as [[pre post]|] eqn:E; [|by left]. right.
  pose proof E as E'. apply find_split_app in E' as [-> [t ->]%starts_with_Some]. by exists pre, t.
Qed.
