(* ===== verification/Errors.v ===== *)
(** The error type of src/error.rs, without the messages: codes of the
    debugger's own errors and the kinds of I/O errors the code inspects. *)
From Stdlib Require Import ZArith.
From stdpp Require Import base.
From S2P Require Import Prelude.
Open Scope Z_scope.

Inductive ErrorCode :=
  | MalformedExecutable | UnsupportedExecutable | Internal | Usage | Cancelled | Format | Dwarf
  | ProcessState | NotImplemented | NoSection | Loading | OptimizedAway | MissingSymbols | Sanity
  | OutOfHardwareBreakpoints | NoCodeLocations | TooLong | Syntax | NoVariable | TypeMismatch
  | Runtime | NoFunction | Environment | NotCalculated | NoField | NotContainer | Network | Disabled.
#[export] Instance ErrorCode_eq_dec : EqDecision ErrorCode.
Proof. solve_decision. Defined.

(** [code as i64], as printed by the Debug implementation. *)
Definition code_number (c : ErrorCode) : Z :=
  match c with
  | MalformedExecutable => 1 | UnsupportedExecutable => 2 | Internal => 3 | Usage => 4
  | Cancelled => 5 | Format => 6 | Dwarf => 7 | ProcessState => 9 | NotImplemented => 10
  | NoSection => 12 | Loading => 13 | OptimizedAway => 14 | MissingSymbols => 15 | Sanity => 16
  | OutOfHardwareBreakpoints => 17 | NoCodeLocations => 18 | TooLong => 20 | Syntax => 21
  | NoVariable => 22 | TypeMismatch => 23 | Runtime => 24 | NoFunction => 25 | Environment => 26
  | NotCalculated => 27 | NoField => 28 | NotContainer => 29 | Network => 30 | Disabled => 31
  end.

(** The kinds of [io::Error] that the code tells apart. *)
Inductive ErrorKind := NotFound | PermissionDenied | InvalidInput | UnexpectedEof | OtherKind.
#[export] Instance ErrorKind_eq_dec : EqDecision ErrorKind.
Proof. solve_decision. Defined.

Inductive ErrorEnum :=
  | IO (kind : ErrorKind) (raw_os_error : option Z)
  | Code (c : ErrorCode).
#[export] Instance ErrorEnum_eq_dec : EqDecision ErrorEnum.
Proof. solve_decision. Defined.

Abbreviation Error := ErrorEnum.
Abbreviation result := (outcome Error).

(** [libc::ESRCH] *)
Definition ESRCH : Z := 3.

Definition is_code (c : ErrorCode) (e : Error) : bool :=
  match e with Code c' => bool_decide (c = c') | IO _ _ => false end.
Definition is_loading : Error -> bool := is_code Loading.
Definition is_out_of_hardware_breakpoints : Error -> bool := is_code OutOfHardwareBreakpoints.
Definition is_not_calculated : Error -> bool := is_code NotCalculated.
Definition is_kind (k : ErrorKind) (e : Error) : bool :=
  match e with IO k' _ => bool_decide (k = k') | Code _ => false end.
Definition is_io_invalid_input : Error -> bool := is_kind InvalidInput.
Definition is_io_esrch (e : Error) : bool :=
  match e with IO _ r => bool_decide (r = Some ESRCH) | Code _ => false end.
