(* ===== verification/Serial.v ===== *)
(** The byte-level save format: ByteRead and ByteWrite of src/util.rs, and the
    interface [Codec] of things that are saved and loaded with them. *)
From Stdlib Require Import ZArith Lia.
From stdpp Require Import base list.
From S2P Require Import Prelude GdbProto RustStr Errors.
Open Scope Z_scope.

(** A reader of the remaining input [&mut &[u8]]. *)
Definition reader (A : Type) : Type := list Z -> result (A * list Z).
#[export] Instance reader_ret : MRet reader := fun A a inp => Ret (a, inp).
#[export] Instance reader_bind : MBind reader := fun A B f m inp =>
  match m inp with
  | Ret (a, inp) => f a inp
  | Fail e => Fail e
  | Panic => Panic
  end.
Definition rfail {A} (e : Error) : reader A := fun _ => Fail e.

(** [read_exact] into a buffer of [n] bytes. *)
Definition read_exact (n : Z) : reader (list Z) := fun inp =>
  if n <=? zlen inp then Ret (take (Z.to_nat n) inp, drop (Z.to_nat n) inp)
  else Fail (IO UnexpectedEof None).

(** Little-endian bytes of an unsigned integer. *)
Fixpoint le_bytes (n : nat) (x : Z) : list Z :=
  match n with
  | O => []
  | S n => x mod 256 :: le_bytes n (x / 256)
  end.
Fixpoint le_value (l : list Z) : Z :=
  match l with
  | [] => 0
  | b :: l => b + 256 * le_value l
  end.

(** Two's complement: [x as iN] of an unsigned [x]. *)
Definition to_signed (bits : Z) (x : Z) : Z := if x <? 2 ^ (bits - 1) then x else x - 2 ^ bits.

Definition read_uint (n : nat) : reader Z :=
  b ← read_exact (Z.of_nat n); mret (le_value b).
Definition read_int (n : nat) : reader Z :=
  x ← read_uint n; mret (to_signed (8 * Z.of_nat n) x).
Definition write_uint (n : nat) (x : Z) : list Z := le_bytes n x.
Definition write_int (n : nat) (x : Z) : list Z := le_bytes n (x mod 2 ^ (8 * Z.of_nat n)).

Definition read_u8 := read_uint 1.
Definition read_u16 := read_uint 2.
Definition read_u32 := read_uint 4.
Definition read_u64 := read_uint 8.
Definition read_usize := read_uint 8.
Definition read_i8 := read_int 1.
Definition read_i16 := read_int 2.
Definition read_i32 := read_int 4.
Definition read_i64 := read_int 8.
Definition read_isize := read_int 8.
Definition read_bool : reader bool :=
  b ← read_uint 1;
  if b =? 0 then mret false
  else if b =? 1 then mret true
  else rfail (IO OtherKind None).

(** The chunked loop of [read_slice]. *)
Definition BLOCK_SIZE : Z := 2 ^ 20.
Fixpoint read_slice_loop (fuel : nat) (n pos : Z) (v : list Z) : reader (list Z) :=
  if pos <? n then
    match fuel with
    | O => fun _ => Panic
    | S fuel =>
        let add := Z.min BLOCK_SIZE (n - pos) in
        chunk ← read_exact add;
        read_slice_loop fuel n (pos + add) (v ++ chunk)
    end
  else mret v.
Definition read_slice : reader (list Z) :=
  n ← (read_usize : reader Z);
  ((fun inp => read_slice_loop (S (length inp)) n 0 [] inp) : reader (list Z)).
Definition read_str : reader (list Z) :=
  v ← read_slice;
  if from_utf8 v then mret v else rfail (IO OtherKind None).
Definition read_path : reader (list Z) := read_slice.

Definition write_u8 := write_uint 1.
Definition write_u16 := write_uint 2.
Definition write_u32 := write_uint 4.
Definition write_u64 := write_uint 8.
Definition write_usize := write_uint 8.
Definition write_i8 := write_int 1.
Definition write_i16 := write_int 2.
Definition write_i32 := write_int 4.
Definition write_i64 := write_int 8.
Definition write_isize := write_int 8.
Definition write_bool (b : bool) : list Z := [if b then 1 else 0].
Definition write_slice (s : list Z) : list Z := write_usize (zlen s) ++ s.
Definition write_str (s : list Z) : list Z := write_slice s.
Definition write_path (s : list Z) : list Z := write_slice s.

(** ** The interface of saved data

    [norm] is what a saved value is loaded as; it drops what is not saved. *)
Class Codec (A : Type) := {
  save_state : A -> list Z;
  load_state : reader A;
  valid : A -> Prop;
  norm : A -> A
}.
Class CodecOk (A : Type) `{Codec A} : Prop :=
  load_save : forall a rest, valid a -> load_state (save_state a ++ rest) = Ret (norm a, rest).

(** ** Lemmas *)

Lemma run_reader_bind {A B} (m : reader A) (f : A -> reader B) inp :
  (m ≫= f) inp = match m inp with
                 | Ret (a, inp) => f a inp | Fail e => Fail e | Panic => Panic end.
Proof. done. Qed.

Lemma run_reader_ret {A} (a : A) inp : (mret a : reader A) inp = Ret (a, inp).
Proof. done. Qed.

Lemma read_exact_app s rest : read_exact (zlen s) (s ++ rest) = Ret (s, rest).
Proof.
  unfold read_exact. rewrite zlen_app. pose proof (zlen_nonneg rest).
  rewrite (proj2 (Z.leb_le _ _)) by lia. unfold zlen. rewrite Nat2Z.id.
  by rewrite take_app_length, drop_app_length.
Qed.

Lemma le_bytes_length n x : length (le_bytes n x) = n.
Proof. revert x. induction n; intros; simpl; auto. Qed.

Lemma le_value_bytes n x : 0 <= x < 256 ^ Z.of_nat n -> le_value (le_bytes n x) = x.
Proof.
  revert x. induction n as [|n IH]; intros x Hx; cbn [le_bytes le_value].
  { change (256 ^ Z.of_nat 0) with 1 in Hx. lia. }
  rewrite Nat2Z.inj_succ, Z.pow_succ_r in Hx by lia.
  rewrite IH.
  - pose proof (Z.div_mod x 256 ltac:(lia)). lia.
  - split; [apply Z.div_pos; lia|apply Z.div_lt_upper_bound; lia].
Qed.

Lemma le_bytes_u8 n x : Forall is_u8 (le_bytes n x).
Proof.
  revert x. induction n; intros x; simpl; constructor; [|done].
  apply Z.mod_pos_bound. lia.
Qed.

Lemma read_write_uint n x rest :
  0 <= x < 256 ^ Z.of_nat n -> read_uint n (write_uint n x ++ rest) = Ret (x, rest).
Proof.
  intros Hx. unfold read_uint, write_uint. rewrite run_reader_bind.
  replace (Z.of_nat n) with (zlen (le_bytes n x)) by (unfold zlen; by rewrite le_bytes_length).
  rewrite read_exact_app. by rewrite le_value_bytes.
Qed.

Lemma read_write_int n x rest :
  (0 < n)%nat -> - 2 ^ (8 * Z.of_nat n - 1) <= x < 2 ^ (8 * Z.of_nat n - 1) ->
  read_int n (write_int n x ++ rest) = Ret (x, rest).
Proof.
  intros Hn Hx. unfold read_int, write_int. rewrite run_reader_bind.
  fold (write_uint n (x mod 2 ^ (8 * Z.of_nat n))).
  assert (Hp : 2 ^ (8 * Z.of_nat n) = 2 * 2 ^ (8 * Z.of_nat n - 1)).
  { rewrite <- Z.pow_succ_r by lia. f_equal. lia. }
  assert (H256 : 256 ^ Z.of_nat n = 2 ^ (8 * Z.of_nat n)).
  { change 256 with (2 ^ 8). rewrite <- Z.pow_mul_r; lia. }
  assert (0 < 2 ^ (8 * Z.of_nat n - 1)) by (apply Z.pow_pos_nonneg; lia).
  rewrite read_write_uint by (rewrite H256; apply Z.mod_pos_bound; lia).
  unfold mret, reader_ret. do 2 f_equal. unfold to_signed.
  destruct (Z.le_gt_cases 0 x).
  - rewrite Z.mod_small by lia. by rewrite (proj2 (Z.ltb_lt _ _)) by lia.
  - assert (Hm : x mod 2 ^ (8 * Z.of_nat n) = x + 2 ^ (8 * Z.of_nat n)).
    { symmetry. apply Z.mod_unique with (-1); [left; lia|lia]. }
    rewrite Hm. rewrite (proj2 (Z.ltb_ge _ _)) by lia. lia.
Qed.

Lemma read_slice_loop_app fuel s rest n pos v :
  (length s <= fuel)%nat -> n - pos = zlen s ->
  read_slice_loop fuel n pos v (s ++ rest) = Ret (v ++ s, rest).
Proof.
  revert s pos v. induction fuel as [|fuel IH]; intros s pos v Hf Hn.
  - assert (s = []) as -> by (destruct s; [done|simpl in Hf; lia]).
    change (zlen []) with 0 in Hn. unfold read_slice_loop.
    rewrite (proj2 (Z.ltb_ge pos n)) by lia. by rewrite app_nil_r.
  - cbn [read_slice_loop]. pose proof (zlen_nonneg s).
    destruct (Z.ltb_spec pos n) as [Hlt|]; cycle 1.
    { assert (s = []) as -> by (destruct s; [done|rewrite zlen_cons in Hn; pose proof (zlen_nonneg s); lia]).
      by rewrite app_nil_r. }
    rewrite run_reader_bind. set (add := Z.min BLOCK_SIZE (n - pos)).
    assert (Hb : BLOCK_SIZE = 1048576) by reflexivity.
    set (c := take (Z.to_nat add) s). set (d := drop (Z.to_nat add) s).
    assert (Hcd : c ++ d = s) by apply take_drop.
    assert (Hc : zlen c = add) by (unfold c, zlen in *; rewrite length_take; lia).
    assert (Hd : zlen d = zlen s - add) by (unfold d, zlen in *; rewrite length_drop; lia).
    rewrite <- Hcd at 1. rewrite <- app_assoc, <- Hc, read_exact_app.
    rewrite IH; [by rewrite <- app_assoc, Hcd|unfold zlen in *; lia|lia].
Qed.

Lemma read_write_slice s rest :
  zlen s < 2 ^ 64 -> read_slice (write_slice s ++ rest) = Ret (s, rest).
Proof.
  intros Hs. unfold read_slice, write_slice. rewrite run_reader_bind, <- app_assoc.
  unfold read_usize, write_usize. rewrite read_write_uint
    by (change (256 ^ Z.of_nat 8) with (2 ^ 64); pose proof (zlen_nonneg s); lia).
  rewrite (read_slice_loop_app _ s rest (zlen s) 0 []); [done| |lia].
  rewrite length_app. lia.
Qed.

Definition is_str (s : list Z) : Prop := from_utf8 s = true /\ zlen s < 2 ^ 64.

Lemma read_write_str s rest : is_str s -> read_str (write_str s ++ rest) = Ret (s, rest).
Proof.
  intros [Hu Hs]. unfold read_str, write_str. rewrite run_reader_bind.
  rewrite read_write_slice by done. by rewrite Hu.
Qed.

Lemma read_write_bool b rest : read_bool (write_bool b ++ rest) = Ret (b, rest).
Proof.
  unfold read_bool. rewrite run_reader_bind.
  replace (write_bool b) with (write_uint 1 (if b then 1 else 0)) by (by destruct b).
  rewrite read_write_uint by (destruct b; lia). by destruct b.
Qed.

(** Reading back one field after the other. *)
Create Rewrite HintDb serial.
#[export] Hint Rewrite @run_reader_bind read_write_slice read_write_str read_write_bool : serial.
