(* ===== verification/LeBytes.v ===== *)
(** Arithmetic of little-endian byte strings: what taking, dropping, replacing
    and joining bytes does to the number they stand for. *)
From Stdlib Require Import ZArith Lia ZifyBool.
From stdpp Require Import base list.
From S2P Require Import Prelude Serial.
Open Scope Z_scope.

Notation pow256 n := (256 ^ Z.of_nat n).

Lemma pow256_pos n : 0 < pow256 n.
Proof. apply Z.pow_pos_nonneg; lia. Qed.
Lemma pow256_S n : pow256 (S n) = 256 * pow256 n.
Proof. rewrite Nat2Z.inj_succ, Z.pow_succ_r by lia. done. Qed.
Lemma pow256_add n m : pow256 (n + m) = pow256 n * pow256 m.
Proof. rewrite Nat2Z.inj_add, Z.pow_add_r by lia. done. Qed.
Lemma pow256_bits n : pow256 n = 2 ^ (8 * Z.of_nat n).
Proof. change 256 with (2 ^ 8). rewrite <- Z.pow_mul_r by lia. done. Qed.

Lemma le_value_range l : Forall is_u8 l -> 0 <= le_value l < 256 ^ zlen l.
Proof.
  induction 1 as [|b l Hb _ IH]; [change (256 ^ zlen []) with 1; simpl; lia|].
  cbn [le_value]. rewrite zlen_cons, Z.pow_add_r by (pose proof (zlen_nonneg l); lia).
  unfold is_u8 in Hb. lia.
Qed.
Lemma le_value_app l k : le_value (l ++ k) = le_value l + pow256 (length l) * le_value k.
Proof.
  induction l as [|b l IH]; [simpl; change (pow256 0) with 1; lia|].
  cbn [app le_value length]. rewrite IH, pow256_S. lia.
Qed.
Lemma le_value_zeros n : le_value (replicate n 0) = 0.
Proof. induction n as [|n IH]; [done|]. cbn [replicate le_value]. lia. Qed.
Lemma le_value_bytes_mod n x : le_value (le_bytes n x) = x mod pow256 n.
Proof.
  revert x. induction n as [|n IH]; intros x; cbn [le_bytes le_value]; [by rewrite Z.mod_1_r|].
  rewrite IH, pow256_S. pose proof (pow256_pos n). rewrite Z.rem_mul_r by lia. lia.
Qed.
Lemma take_le_bytes k n x : take k (le_bytes n x) = le_bytes (min k n) x.
Proof.
  revert k x. induction n as [|n IH]; intros [|k] x; cbn [le_bytes min]; [done..|].
  change (take (S k) (?a :: ?l)) with (a :: take k l). by rewrite IH.
Qed.
Lemma le_bytes_value l : Forall is_u8 l -> le_bytes (length l) (le_value l) = l.
Proof.
  induction 1 as [|b l Hb _ IH]; [done|]. cbn [length le_bytes le_value]. unfold is_u8 in Hb.
  replace ((b + 256 * le_value l) mod 256) with b by (Z.div_mod_to_equations; lia).
  replace ((b + 256 * le_value l) / 256) with (le_value l) by (Z.div_mod_to_equations; lia).
  by rewrite IH.
Qed.

(** A byte string is determined by its length and value. *)
Lemma le_value_inj l k : Forall is_u8 l -> Forall is_u8 k -> length l = length k -> le_value l = le_value k -> l = k.
Proof. intros Hl Hk Hlen Hv. rewrite <- (le_bytes_value l Hl), <- (le_bytes_value k Hk). by rewrite Hlen, Hv. Qed.

Lemma le_value_take_drop n l : (n <= length l)%nat -> le_value l = le_value (take n l) + pow256 n * le_value (drop n l).
Proof. intros Hn. rewrite <- (take_drop n l) at 1. rewrite le_value_app, length_take. by replace (min n (length l)) with n by lia. Qed.
Lemma le_value_take n l : Forall is_u8 l -> le_value (take n l) = le_value l mod pow256 n.
Proof.
  intros Hl. destruct (decide (n <= length l)%nat) as [Hn|Hn].
  - rewrite (le_value_take_drop n l Hn), Z.mul_comm, Z.mod_add by (pose proof (pow256_pos n); lia).
    rewrite Z.mod_small; [done|].
    pose proof (le_value_range (take n l) (Forall_take _ _ _ Hl)) as Hr. unfold zlen in Hr. rewrite length_take in Hr.
    by replace (min n (length l)) with n in Hr by lia.
  - rewrite take_ge, Z.mod_small; [done| |lia]. pose proof (le_value_range l Hl) as Hr. unfold zlen in Hr.
    assert (pow256 (length l) <= pow256 n) by (apply Z.pow_le_mono_r; lia). lia.
Qed.
Lemma le_value_drop n l : Forall is_u8 l -> le_value (drop n l) = le_value l / pow256 n.
Proof.
  intros Hl. destruct (decide (n <= length l)%nat) as [Hn|Hn].
  - rewrite (le_value_take_drop n l Hn), (Z.mul_comm (pow256 n)), Z.div_add by (pose proof (pow256_pos n); lia).
    rewrite Z.div_small; [lia|].
    pose proof (le_value_range (take n l) (Forall_take _ _ _ Hl)) as Hr. unfold zlen in Hr. rewrite length_take in Hr.
    by replace (min n (length l)) with n in Hr by lia.
  - rewrite drop_ge by lia. rewrite Z.div_small; [done|]. pose proof (le_value_range l Hl) as Hr. unfold zlen in Hr.
    assert (pow256 (length l) <= pow256 n) by (apply Z.pow_le_mono_r; lia). lia.
Qed.
Lemma le_value_insert l i b x : l !! i = Some b -> le_value (<[i := x]> l) = le_value l + pow256 i * (x - b).
Proof.
  intros Hi. pose proof (lookup_lt_Some _ _ _ Hi) as Hlt.
  rewrite (insert_take_drop l i x Hlt). rewrite <- (take_drop_middle l i b Hi) at 3.
  rewrite !le_value_app, length_take. replace (min i (length l)) with i by lia. cbn [le_value]. lia.
Qed.
Lemma le_value_lookup l i b : Forall is_u8 l -> l !! i = Some b -> b = (le_value l / pow256 i) mod 256.
Proof.
  intros Hl Hi. rewrite <- le_value_drop by done. rewrite (drop_S l b i Hi). cbn [le_value].
  rewrite Forall_lookup in Hl. specialize (Hl i b Hi). unfold is_u8 in Hl. Z.div_mod_to_equations; lia.
Qed.

(** Bitwise or of one byte. *)
Lemma land_low x r : 0 <= r -> Z.land x (Z.shiftl 1 r - 1) = x mod 2 ^ r.
Proof. intros Hr. rewrite Z.shiftl_1_l. replace (2 ^ r - 1) with (Z.ones r) by (rewrite Z.ones_equiv; lia). by apply Z.land_ones. Qed.
Lemma lor_small a b n : 0 <= n -> 0 <= a < 2 ^ n -> Z.lor a (Z.shiftl b n) = a + 2 ^ n * b.
Proof.
  intros Hn Ha. rewrite Z.shiftl_mul_pow2 by done. rewrite (Z.mul_comm (2 ^ n)), <- Z.add_lor_land.
  assert (Z.land a (b * 2 ^ n) = 0) as ->; [|lia].
  apply Z.bits_inj'. intros i Hi. rewrite Z.land_spec, Z.bits_0. destruct (Z.ltb_spec i n).
  - rewrite Z.mul_pow2_bits_low by lia. apply andb_false_r.
  - rewrite <- (Z.mod_small a (2 ^ n)) by done. rewrite Z.mod_pow2_bits_high by lia. done.
Qed.
Lemma le_value_insert_lor l i b y :
  Forall is_u8 l -> l !! i = Some b -> is_u8 y ->
  le_value (<[i := Z.lor b y]> l) = Z.lor (le_value l) (Z.shiftl y (8 * Z.of_nat i)).
Proof.
  intros Hl Hi Hy. pose proof (lookup_lt_Some _ _ _ Hi) as Hlt.
  rewrite (insert_take_drop l i _ Hlt). rewrite <- (take_drop_middle l i b Hi) at 3.
  rewrite !le_value_app, length_take. replace (min i (length l)) with i by lia. cbn [le_value].
  pose proof (le_value_range (take i l) (Forall_take _ _ _ Hl)) as Hr. unfold zlen in Hr. rewrite length_take in Hr.
  replace (min i (length l)) with i in Hr by lia.
  assert (Hb : is_u8 b) by (rewrite Forall_lookup in Hl; by eapply Hl). unfold is_u8 in *.
  assert (Hor : 0 <= Z.lor b y < 256).
  { assert (0 <= Z.lor b y) by (apply Z.lor_nonneg; lia). split; [done|].
    destruct (Z.eqb_spec (Z.lor b y) 0); [lia|]. apply (Z.log2_lt_pow2 _ 8); [lia|].
    rewrite Z.log2_lor by lia. pose proof (Z.log2_lt_pow2 b 8). pose proof (Z.log2_lt_pow2 y 8).
    destruct (Z.eqb_spec b 0) as [->|], (Z.eqb_spec y 0) as [->|]; simpl; lia. }
  set (t := le_value (take i l)) in *. set (d := le_value (drop (S i) l)).
  rewrite !pow256_bits in *.
  replace (b + 256 * d) with (Z.lor b (Z.shiftl d 8)) by (rewrite lor_small by lia; lia).
  replace (Z.lor b y + 256 * d) with (Z.lor (Z.lor b y) (Z.shiftl d 8)) by (rewrite lor_small by lia; lia).
  rewrite <- !lor_small by lia. apply Z.bits_inj'. intros k Hk. rewrite !Z.lor_spec, !Z.shiftl_spec by lia.
  destruct (Z.ltb_spec k (8 * Z.of_nat i)).
  - by rewrite !(Z.testbit_neg_r _ (k - 8 * Z.of_nat i)), !orb_false_r by lia.
  - rewrite !Z.lor_spec, !Z.shiftl_spec by lia. destruct (Z.testbit t k), (Z.testbit b _), (Z.testbit y _); simpl; try done;
      by rewrite ?orb_true_r, ?orb_false_r.
Qed.
