(* ===== verification/BreakpointData.v ===== *)
(** Breakpoints as data (src/debugger.rs, with the locators of src/procfs.rs and
    src/symbols.rs): their types, the save format of one breakpoint and of the
    debugger's breakpoint list. *)
From Stdlib Require Import ZArith Lia.
From stdpp Require Import base list sorting.
From S2P Require Import Prelude GdbProto RustStr Errors Serial Pool PoolOwned.
Open Scope Z_scope.

(** ** Locators *)

Inductive SpecialSegmentId :=
  | NoSegment
  | Vdso (start end_ : Z).
Definition is_vdso (s : SpecialSegmentId) : bool :=
  match s with Vdso _ _ => true | NoSegment => false end.

Record BinaryLocator := mkBinaryLocator {
  path : list Z;
  inode : Z;
  special : SpecialSegmentId
}.

Definition save_state_incomplete (l : BinaryLocator) : list Z :=
  write_str (path l) ++ write_u8 (if is_vdso (special l) then 1 else 0).
Definition load_state_incomplete : reader BinaryLocator :=
  p ← read_str;
  v ← read_u8;
  mret (mkBinaryLocator p 0 (if v =? 1 then Vdso 0 0 else NoSegment)).
Definition matches_incomplete (l incomplete : BinaryLocator) : bool :=
  bytes_eqb (path l) (path incomplete) &&
  Bool.eqb (is_vdso (special l)) (is_vdso (special incomplete)).

Inductive PointOfInterest := MainFunction | LibraryLoad | PanicPoint | ExceptionPoint.
#[export] Instance PointOfInterest_eq_dec : EqDecision PointOfInterest.
Proof. solve_decision. Defined.

Definition poi_save_state (p : PointOfInterest) : list Z :=
  match p with
  | MainFunction => write_u8 0
  | LibraryLoad => write_u8 1
  | PanicPoint => write_u8 2
  | ExceptionPoint => write_u8 3
  end.
Definition poi_load_state : reader PointOfInterest :=
  x ← read_u8;
  if x =? 0 then mret MainFunction
  else if x =? 1 then mret LibraryLoad
  else if x =? 2 then mret PanicPoint
  else if x =? 3 then mret ExceptionPoint
  else rfail (Code Environment).

Record FunctionLocator := mkFunctionLocator {
  binary_locator : BinaryLocator;
  mangled_name : list Z;
  demangled_name : list Z;
  f_addr : Z
}.
Definition fl_save_state (f : FunctionLocator) : list Z :=
  save_state_incomplete (binary_locator f) ++ write_slice (mangled_name f) ++
  write_str (demangled_name f) ++ write_usize (f_addr f).
Definition fl_load_state : reader FunctionLocator :=
  b ← load_state_incomplete;
  m ← read_slice;
  d ← read_str;
  a ← read_usize;
  mret (mkFunctionLocator b m d a).

(** ** Breakpoints *)

Record LineBreakpoint := mkLine {
  l_path : list Z;
  line : Z;
  adjusted_line : option Z
}.
Record InstructionBreakpoint := mkInstruction {
  function : option (FunctionLocator * Z);
  i_addr : Z;
  i_subfunction_level : Z
}.
Record DataBreakpoint := mkData {
  d_addr : Z;
  d_size : Z;
  d_stop_on_read : bool
}.
Inductive BreakpointOn :=
  | Line (b : LineBreakpoint)
  | Instruction (b : InstructionBreakpoint)
  | InitialExec
  | Point (p : PointOfInterest)
  | DataBp (b : DataBreakpoint).

Definition is_data (b : BreakpointOn) : bool := match b with DataBp _ => true | _ => false end.
Definition should_wait_for_symbols (b : BreakpointOn) : bool :=
  match b with
  | DataBp _ | InitialExec => false
  | Point PanicPoint => false
  | _ => true
  end.

(** [Expression] is the parsed form of a watch expression (src/interp.rs). *)
Record Breakpoint (Expression : Type) := mkBreakpoint {
  on : BreakpointOn;
  condition : option (list Z * result Expression * option Error);
  hits : Z;
  addrs : result (list (Z * Z));      (* address and subfunction level *)
  enabled : bool;
  active : bool;
  hidden : bool;
  builtin : bool
}.
Arguments mkBreakpoint {Expression} on condition hits addrs enabled active hidden builtin.
Arguments on {Expression} b.
Arguments condition {Expression} b.
Arguments hits {Expression} b.
Arguments addrs {Expression} b.
Arguments enabled {Expression} b.
Arguments active {Expression} b.
Arguments hidden {Expression} b.
Arguments builtin {Expression} b.

Definition not_calculated : result (list (Z * Z)) := Fail (Code NotCalculated).

Section Save.
  Context {Expression : Type} (parse_watch_expression : list Z -> result Expression).
  Notation BP := (Breakpoint Expression).

Definition bp_save_on (on : BreakpointOn) : list Z :=
  match on with
  | Line b => write_u8 0 ++ write_path (l_path b) ++ write_usize (line b)
  | Instruction b =>
      write_u8 1 ++
      match function b with
      | None => write_u8 0
      | Some (f, off) => write_u8 1 ++ fl_save_state f ++ write_usize off
      end ++ write_usize (i_addr b) ++ write_u16 (i_subfunction_level b)
  | InitialExec => write_u8 2
  | Point p => write_u8 3 ++ poi_save_state p
  | DataBp b => write_u8 4 ++ write_usize (d_addr b) ++ write_u8 (d_size b) ++ write_bool (d_stop_on_read b)
  end.
Definition bp_save_state (b : BP) : list Z :=
  bp_save_on (on b) ++
  match condition b with
  | Some (s, _, _) => write_u8 1 ++ write_str s
  | None => write_u8 0
  end ++ write_bool (enabled b).

Definition bp_load_on : reader BreakpointOn :=
  x ← read_u8;
  if x =? 0 then
    p ← read_path; l ← read_usize; mret (Line (mkLine p l None))
  else if x =? 1 then
    has ← read_bool;
    function ← (if has : bool then f ← fl_load_state; off ← read_usize; mret (Some (f, off))
                else mret None);
    a ← read_usize;
    s ← read_u16;
    mret (Instruction (mkInstruction function a s))
  else if x =? 2 then mret InitialExec
  else if x =? 3 then p ← poi_load_state; mret (Point p)
  else if x =? 4 then
    a ← read_usize; s ← read_u8; r ← read_bool; mret (DataBp (mkData a s r))
  else rfail (Code Environment).
Definition bp_load_state : reader BP :=
  on ← bp_load_on;
  c ← read_u8;
  condition ← (if c =? 0 then mret None
               else if c =? 1 then s ← read_str; mret (Some (s, parse_watch_expression s, None))
               else rfail (Code Environment));
  enabled ← read_bool;
  mret (mkBreakpoint on condition 0 not_calculated enabled false false false).

(** [Debugger::save_state]: visible code breakpoints in the order of creation. *)
Definition seqno_le (a b : Id) : Prop := seqno a <= seqno b.
#[global] Instance seqno_le_dec : RelDecision seqno_le.
Proof. intros a b. unfold seqno_le. apply _. Defined.

Fixpoint save_ids (p : Pool BP) (ids : list Id) : partial (list Z) :=
  match ids with
  | [] => Ret []
  | id :: ids =>
      bp ← Pool.get p id;
      rest ← save_ids p ids;
      Ret ((if negb (hidden bp) && negb (is_data (on bp)) then write_u8 1 ++ bp_save_state bp else []) ++ rest)
  end.
Definition debugger_save_state (p : Pool BP) : partial (list Z) :=
  entries ← Pool.iter p;
  let ids := (filter (fun e : Id * BP => hidden e.2 = false /\ is_data (on e.2) = false) entries).*1 in
  let ids := merge_sort seqno_le ids in
  out ← save_ids p ids;
  Ret (out ++ write_u8 0).

(** The map from builtin points of interest to their breakpoints. *)
Definition builtin_of (p : Pool BP) : partial (list (PointOfInterest * Id)) :=
  entries ← Pool.iter p;
  Ret (fold_left (fun m (e : Id * BP) =>
    match on e.2 with
    | Point pt => if builtin e.2 then (pt, e.1) :: filter (fun x => x.1 <> pt) m else m
    | _ => m
    end) entries []).
Fixpoint map_get (m : list (PointOfInterest * Id)) (p : PointOfInterest) : option Id :=
  match m with
  | [] => None
  | (q, id) :: m => if bool_decide (p = q) then Some id else map_get m p
  end.

Definition set_builtin (b : BP) (x : bool) : BP :=
  mkBreakpoint (on b) (condition b) (hits b) (addrs b) (enabled b) (active b) (hidden b) x.
Definition set_enabled (b : BP) (x : bool) : BP :=
  mkBreakpoint (on b) (condition b) (hits b) (addrs b) x (active b) (hidden b) (builtin b).

(** One loaded breakpoint enters the list. *)
Definition load_one (st : Pool BP * list (PointOfInterest * Id)) (b : BP)
  : partial (Pool BP * list (PointOfInterest * Id)) :=
  let '(p, m) := st in
  let '(b, p, m) :=
    match on b with
    | Point pt =>
        match map_get m pt with
        | Some id => (set_builtin b true, (Pool.remove p id).2, filter (fun x => x.1 <> pt) m)
        | None => (b, p, m)
        end
    | _ => (b, p, m)
    end in
  let b := if negb (builtin b) then set_enabled b false else b in
  '(_, p) ← Pool.add p b;
  Ret (p, m).

(** The result, and the list of breakpoints as it is left behind, on errors too. *)
Fixpoint debugger_load_loop (fuel : nat) (st : Pool BP * list (PointOfInterest * Id)) (inp : list Z)
  : result (list Z) * Pool BP :=
  match fuel with
  | O => (Panic, st.1)
  | S fuel =>
      match read_bool inp with
      | Ret (false, inp) => (Ret inp, st.1)
      | Ret (true, inp) =>
          match bp_load_state inp with
          | Ret (b, inp) =>
              match load_one st b with
              | Ret st => debugger_load_loop fuel st inp
              | _ => (Panic, st.1)
              end
          | Fail e => (Fail e, st.1)
          | Panic => (Panic, st.1)
          end
      | Fail e => (Fail e, st.1)
      | Panic => (Panic, st.1)
      end
  end.
(** Each breakpoint takes at least one byte. *)
Definition debugger_load_state (p : Pool BP) (inp : list Z) : result (list Z) * Pool BP :=
  match builtin_of p with
  | Ret m => debugger_load_loop (S (length inp)) (p, m) inp
  | _ => (Panic, p)
  end.

(** [Debugger::new]: the default breakpoints of an empty list. *)
Definition default_breakpoint (pt : PointOfInterest) (enabled hidden : bool) : BP :=
  mkBreakpoint (Point pt) None 0 not_calculated enabled false hidden true.
Definition with_default_breakpoints (p : Pool BP) : partial (Pool BP) :=
  e ← Pool.is_empty p;
  if e : bool then
    '(_, p) ← Pool.add p (default_breakpoint LibraryLoad true true);
    '(_, p) ← Pool.add p (default_breakpoint PanicPoint true false);
    '(_, p) ← Pool.add p (default_breakpoint ExceptionPoint false false);
    Ret p
  else
    entries ← Pool.iter p;
    _ ← rassert (Nat.eqb (length (filter (fun e : Id * BP => hidden e.2 = true) entries)) 1);
    Ret p.
End Save.

(** ** Round trips *)

Definition bl_valid (l : BinaryLocator) : Prop := is_str (path l).
Definition bl_norm (l : BinaryLocator) : BinaryLocator :=
  mkBinaryLocator (path l) 0 (if is_vdso (special l) then Vdso 0 0 else NoSegment).
#[export] Instance BinaryLocator_codec : Codec BinaryLocator := {|
  save_state := save_state_incomplete; load_state := load_state_incomplete;
  valid := bl_valid; norm := bl_norm |}.

#[export] Instance PointOfInterest_codec : Codec PointOfInterest := {|
  save_state := poi_save_state; load_state := poi_load_state;
  valid := fun _ => True; norm := fun p => p |}.

Definition fl_valid (f : FunctionLocator) : Prop :=
  valid (binary_locator f) /\ zlen (mangled_name f) < 2 ^ 64 /\ is_str (demangled_name f) /\
  is_u64 (f_addr f).
#[export] Instance FunctionLocator_codec : Codec FunctionLocator := {|
  save_state := fl_save_state; load_state := fl_load_state;
  valid := fl_valid;
  norm := fun f => mkFunctionLocator (norm (binary_locator f)) (mangled_name f) (demangled_name f) (f_addr f) |}.

(** One step of reading back: an integer of [n] bytes. *)
Ltac read_uint_step :=
  match goal with
  | |- context [read_uint ?n (write_uint ?n ?x ++ ?rest)] =>
      rewrite (read_write_uint n x rest) by
        (unfold is_u64, is_u8 in *; simpl Z.of_nat; lia)
  end.
(** Evaluates a comparison of tags. *)
Ltac decide_tag :=
  match goal with
  | |- context [Z.eqb ?a ?b] =>
      let v := eval vm_compute in (Z.eqb a b) in
      lazymatch v with true => idtac | false => idtac end;
      change (Z.eqb a b) with v
  end.
(** Reading back what was written, field by field. *)
Ltac read_back :=
  repeat first
    [ rewrite run_reader_bind | rewrite run_reader_ret | rewrite <- app_assoc
    | progress unfold read_u8, read_u16, read_usize, write_u8, write_u16, write_usize, read_path, write_path
    | rewrite read_write_slice by tauto | rewrite read_write_str by tauto | rewrite read_write_bool
    | read_uint_step | decide_tag | progress cbv beta iota ].

#[export] Instance BinaryLocator_codec_ok : CodecOk BinaryLocator.
Proof.
  intros l rest Hl. cbn [save_state load_state BinaryLocator_codec norm valid] in *.
  unfold bl_valid, load_state_incomplete, save_state_incomplete in *.
  read_back. unfold bl_norm. destruct (is_vdso (special l)); read_back; done.
Qed.

#[export] Instance PointOfInterest_codec_ok : CodecOk PointOfInterest.
Proof.
  intros p rest _. cbn [save_state load_state PointOfInterest_codec norm]. unfold poi_load_state, poi_save_state.
  destruct p; read_back; done.
Qed.

#[export] Instance FunctionLocator_codec_ok : CodecOk FunctionLocator.
Proof.
  intros f rest (Hb&Hm&Hd&Ha). cbn [save_state load_state FunctionLocator_codec norm].
  unfold fl_load_state, fl_save_state. read_back.
  pose proof (load_save (binary_locator f)) as Hbl. cbn [save_state load_state BinaryLocator_codec] in Hbl.
  rewrite Hbl by done. read_back. done.
Qed.

(** Values of the ranges of their Rust types. *)
Definition on_valid (on : BreakpointOn) : Prop :=
  match on with
  | Line b => zlen (l_path b) < 2 ^ 64 /\ is_u64 (line b)
  | Instruction b =>
      match function b with Some (f, off) => valid f /\ is_u64 off | None => True end /\
      is_u64 (i_addr b) /\ 0 <= i_subfunction_level b < 2 ^ 16
  | InitialExec | Point _ => True
  | DataBp b => is_u64 (d_addr b) /\ is_u8 (d_size b)
  end.
(** What is not saved: the adjusted line, the identity of the binary, and
    everything that is recomputed. *)
Definition on_norm (on : BreakpointOn) : BreakpointOn :=
  match on with
  | Line b => Line (mkLine (l_path b) (line b) None)
  | Instruction b =>
      Instruction (mkInstruction
        (match function b with Some (f, off) => Some (norm f, off) | None => None end)
        (i_addr b) (i_subfunction_level b))
  | InitialExec => InitialExec
  | Point p => Point p
  | DataBp b => DataBp b
  end.
Lemma bp_on_roundtrip on rest :
  on_valid on -> bp_load_on (bp_save_on on ++ rest) = Ret (on_norm on, rest).
Proof.
  intros Hv. unfold bp_load_on. destruct on as [b|b| |p|b]; cbn [on_valid bp_save_on] in *.
  - destruct Hv. read_back. done.
  - destruct b as [fn a s]. cbn [function i_addr i_subfunction_level] in *. destruct Hv as (Hf&Ha&Hs).
    destruct fn as [[f off]|]; read_back.
    + change (write_uint 1 1) with (write_bool true). read_back. destruct Hf as [Hf Ho].
      pose proof (load_save f) as Hfl. cbn [save_state load_state FunctionLocator_codec] in Hfl.
      rewrite Hfl by done. read_back. done.
    + change (write_uint 1 0) with (write_bool false). read_back. done.
  - read_back. done.
  - read_back.
    pose proof (load_save p) as Hp. cbn [save_state load_state PointOfInterest_codec] in Hp.
    rewrite Hp by done. done.
  - destruct b as [a s r]. cbn [d_addr d_size d_stop_on_read] in *. destruct Hv as [Ha Hs]. read_back. done.
Qed.

Section Roundtrip.
  Context {Expression : Type} (parse_watch_expression : list Z -> result Expression).
  Notation BP := (Breakpoint Expression).

Definition bp_valid (b : BP) : Prop :=
  on_valid (on b) /\ match condition b with Some (s, _, _) => is_str s | None => True end.

Definition bp_norm (b : BP) : BP :=
  mkBreakpoint (on_norm (on b))
    (match condition b with Some (s, _, _) => Some (s, parse_watch_expression s, None) | None => None end)
    0 not_calculated (enabled b) false false false.

#[global] Instance Breakpoint_codec : Codec BP := {|
  save_state := bp_save_state; load_state := bp_load_state parse_watch_expression;
  valid := bp_valid; norm := bp_norm |}.

#[global] Instance Breakpoint_codec_ok : CodecOk BP.
Proof using parse_watch_expression.
  intros b rest [Hon Hc]. cbn [save_state load_state Breakpoint_codec norm].
  unfold bp_load_state, bp_save_state. read_back. rewrite bp_on_roundtrip by done.
  destruct (condition b) as [[[s e] err]|] eqn:E; read_back; unfold bp_norm; by rewrite E.
Qed.
End Roundtrip.

Section ListRoundtrip.
  Context {Expression : Type} (parse_watch_expression : list Z -> result Expression).
  Notation BP := (Breakpoint Expression).
  Implicit Types (p : Pool BP) (bs : list BP).

(** The breakpoints [save_state] writes, in the order it writes them. *)
Definition visible (b : BP) : Prop := hidden b = false /\ is_data (on b) = false.
Definition saved_ids p : list Id :=
  merge_sort seqno_le (filter (fun e : Id * BP => hidden e.2 = false /\ is_data (on e.2) = false) (live p)).*1.
Definition saved_bytes bs : list Z :=
  concat (map (fun b => write_u8 1 ++ bp_save_state b) bs) ++ write_u8 0.

(** What loading does with the breakpoints it reads. *)
Fixpoint replay (st : Pool BP * list (PointOfInterest * Id)) bs
  : partial (Pool BP * list (PointOfInterest * Id)) :=
  match bs with
  | [] => Ret st
  | b :: bs => st ← load_one st b; replay st bs
  end.

Lemma save_ids_spec p ids bs :
  Forall2 (fun id b => try_get p id = Some b /\ visible b) ids bs ->
  save_ids p ids = Ret (concat (map (fun b => write_u8 1 ++ bp_save_state b) bs)).
Proof.
  induction 1 as [|id b ids bs [Hg [Hh Hd]] _ IH]; [done|].
  cbn [save_ids]. unfold Pool.get. rewrite Hg. cbn [lift_opt mbind outcome_bind].
  rewrite IH. cbn [mbind outcome_bind]. by rewrite Hh, Hd.
Qed.

Lemma saved_ids_resolve p :
  exists bs, Forall2 (fun id b => try_get p id = Some b /\ visible b) (saved_ids p) bs.
Proof.
  assert (H : Forall (fun id => exists b, try_get p id = Some b /\ visible b) (saved_ids p)).
  { apply Forall_forall. intros id Hid. unfold saved_ids in Hid.
    rewrite merge_sort_Permutation in Hid.
    apply list_elem_of_fmap in Hid as ([id' b]&->&[Hv Hin]%list_elem_of_filter).
    exists b. split; [by apply live_elem|exact Hv]. }
  induction H as [|id ids (b&Hb) _ (bs&IH)]; [by exists []|]. exists (b :: bs). by constructor.
Qed.

Lemma saved_ids_complete p id b : try_get p id = Some b -> visible b -> id ∈ saved_ids p.
Proof.
  intros Hid Hv. unfold saved_ids. rewrite merge_sort_Permutation. apply list_elem_of_fmap. exists (id, b). split; [done|].
  apply list_elem_of_filter. split; [exact Hv|by apply live_elem].
Qed.

Lemma debugger_save_spec p bs :
  Forall2 (fun id b => try_get p id = Some b /\ visible b) (saved_ids p) bs ->
  debugger_save_state p = Ret (saved_bytes bs).
Proof.
  intros H. unfold debugger_save_state, Pool.iter.
  rewrite (iter_collect_spec p _ 0 [] (slots p)); [|done|done|lia].
  cbn [mbind outcome_bind]. fold (live p). fold (saved_ids p). by rewrite (save_ids_spec p _ _ H).
Qed.

Lemma load_loop_saved fuel st bs rest st' :
  Forall bp_valid bs -> (length bs < fuel)%nat ->
  replay st (bp_norm parse_watch_expression <$> bs) = Ret st' ->
  debugger_load_loop parse_watch_expression fuel st (saved_bytes bs ++ rest) = (Ret rest, st'.1).
Proof.
  revert st bs. induction fuel as [|fuel IH]; intros st bs Hv Hf Hr; [lia|].
  unfold saved_bytes. destruct bs as [|b bs]; cbn [map concat].
  - cbn [debugger_load_loop]. change (write_u8 0) with (write_bool false). cbn [app].
    rewrite read_write_bool. simpl in Hr. by simplify_eq.
  - apply Forall_cons in Hv as [Hb Hv]. rewrite fmap_cons in Hr. cbn [replay] in Hr.
    cbn [debugger_load_loop]. change (write_u8 1) with (write_bool true).
    rewrite <- !app_assoc, read_write_bool.
    pose proof (load_save (H:=Breakpoint_codec parse_watch_expression) b) as Hl.
    cbn [save_state load_state Breakpoint_codec norm] in Hl. rewrite Hl by done.
    destruct (load_one st (bp_norm parse_watch_expression b)) as [st1| |]; try done.
    cbn [mbind outcome_bind] in Hr. rewrite app_assoc. apply IH; [done|simpl in Hf; lia|done].
Qed.

Lemma saved_bytes_length bs : (length bs < length (saved_bytes bs))%nat.
Proof.
  unfold saved_bytes. rewrite length_app. change (length (write_u8 0)) with 1%nat.
  induction bs as [|b bs IH]; cbn [map concat length]; [lia|].
  rewrite length_app, length_app. change (length (write_u8 1)) with 1%nat. lia.
Qed.

(** ** A list of breakpoints in the order of its creation *)

Definition older (a b : Id * BP) : Prop := seqno a.1 < seqno b.1.
Definition by_creation p (l : list (Id * BP)) : Prop :=
  owned p l /\ StronglySorted older l /\ Forall (fun e => seqno e.1 < next_seqno p) l.

Lemma sorted_snoc l e : StronglySorted older l -> Forall (fun x => older x e) l -> StronglySorted older (l ++ [e]).
Proof.
  induction 1 as [|x l Hs IH Hx]; intros Hl; cbn [app]; [by repeat constructor|]. apply Forall_cons in Hl as [Hxe Hl].
  constructor; [by apply IH|]. apply Forall_app. by split; [|repeat constructor].
Qed.
Lemma sorted_without (l1 l2 : list (Id * BP)) e : StronglySorted older (l1 ++ e :: l2) -> StronglySorted older (l1 ++ l2).
Proof.
  induction l1 as [|x l1 IH]; cbn [app]; intros H; apply StronglySorted_inv in H as [H Hx]; [done|].
  constructor; [by apply IH|]. apply Forall_app in Hx as [? [_ ?]%Forall_cons]. by apply Forall_app.
Qed.
Lemma by_creation_add p l b : by_creation p l -> next_seqno p + 1 < 2 ^ 64 ->
  exists id p', Pool.add p b = Ret (id, p') /\ by_creation p' (l ++ [(id, b)]) /\ next_seqno p' = next_seqno p + 1.
Proof.
  intros (Ho&Hs&Hb) Hn. destruct (owned_add p l b Ho Hn) as (id&p'&Hadd&Ho'&Hn').
  destruct (add_refines p b (owned_inv _ _ Ho) Hn) as (id'&p''&Hadd'&Hid&_). rewrite Hadd in Hadd'. injection Hadd' as <- <-.
  exists id, p'. split; [done|]. split; [|done]. split; [by rewrite Permutation_app_comm|]. split.
  - apply sorted_snoc; [done|]. eapply Forall_impl; [exact Hb|]. intros x Hx. unfold older. cbn [fst]. by rewrite Hid.
  - apply Forall_app. split; [|constructor; [cbn; lia|done]]. eapply Forall_impl; [exact Hb|]. cbn. lia.
Qed.
Lemma by_creation_remove p l1 l2 id b : by_creation p (l1 ++ (id, b) :: l2) ->
  by_creation (Pool.remove p id).2 (l1 ++ l2) /\ next_seqno (Pool.remove p id).2 = next_seqno p.
Proof.
  intros (Ho&Hs&Hb). rewrite <- Permutation_middle in Ho. destruct (owned_remove _ _ _ _ Ho) as (p'&->&Ho'&Hn&_). cbn [snd].
  split; [|done]. split; [done|]. split; [by eapply sorted_without|]. rewrite Hn. apply Forall_app in Hb as [? [_ ?]%Forall_cons]. by apply Forall_app.
Qed.

(** The point of interest that a builtin breakpoint is for. *)
Definition builtin_point (b : BP) : option PointOfInterest :=
  match on b with Point pt => if builtin b then Some pt else None | _ => None end.
Definition at_point (pt : PointOfInterest) (b : BP) : bool :=
  match on b with Point q => bool_decide (q = pt) | _ => false end.
(** Builtin breakpoints that loaded ones replace. *)
Definition replaced bs (b : BP) : bool := match builtin_point b with Some pt => existsb (at_point pt) bs | None => false end.
(** What loading makes of breakpoints read: the first at the point of a builtin
    one takes its place and stays as it was saved, the others are disabled. *)
Fixpoint restored (pts : list PointOfInterest) bs : list BP :=
  match bs with
  | [] => []
  | b :: bs =>
      match on b with
      | Point pt =>
          if bool_decide (pt ∈ pts) then set_builtin b true :: restored (filter (fun q => q <> pt) pts) bs
          else set_enabled b false :: restored pts bs
      | _ => set_enabled b false :: restored pts bs
      end
  end.
Definition points (l : list (Id * BP)) : list PointOfInterest := omap (fun e => builtin_point e.2) l.

Lemma elem_of_points l pt : pt ∈ points l <-> exists id b, (id, b) ∈ l /\ builtin_point b = Some pt.
Proof. unfold points. rewrite list_elem_of_omap. split; [intros ([id b]&?&?); by exists id, b|intros (id&b&?&?); by exists (id, b)]. Qed.
Lemma map_get_filter m pt q : map_get (filter (fun x => x.1 <> pt) m) q = if bool_decide (q = pt) then None else map_get m q.
Proof.
  induction m as [|[r id] m IH]; [by case_bool_decide|]. rewrite filter_cons. cbn [fst]. destruct (decide (r <> pt)) as [Hr|Hr]; cbn [map_get].
  - rewrite IH. repeat case_bool_decide; congruence.
  - rewrite IH. apply dec_stable in Hr as ->. cbn [map_get]. repeat case_bool_decide; congruence.
Qed.
(** The map of builtin points holds the builtin breakpoints. *)
Definition maps_builtins (m : list (PointOfInterest * Id)) (l : list (Id * BP)) : Prop :=
  NoDup (points l) /\ forall pt id, map_get m pt = Some id <-> exists b, (id, b) ∈ l /\ builtin_point b = Some pt.
Lemma builtin_fold l m : NoDup (points l) ->
  forall pt id, map_get (fold_left (fun m (e : Id * BP) =>
    match on e.2 with Point pt => if builtin e.2 then (pt, e.1) :: filter (fun x => x.1 <> pt) m else m | _ => m end) l m) pt = Some id <->
  (exists b, (id, b) ∈ l /\ builtin_point b = Some pt) \/ (map_get m pt = Some id /\ pt ∉ points l).
Proof.
  revert m. induction l as [|[i b] l IH]; intros m Hnd pt id; cbn [fold_left snd fst].
  { split; [intros H; right; split; [done|apply not_elem_of_nil]|]. intros [(b&[]%elem_of_nil&_)|[? _]]; done. }
  assert (Hcase : (match on b with Point pt => if builtin b then (pt, i) :: filter (fun x => x.1 <> pt) m else m | _ => m end) =
    match builtin_point b with Some pt => (pt, i) :: filter (fun x => x.1 <> pt) m | None => m end).
  { unfold builtin_point. destruct (on b); try done. by destruct (builtin b). }
  rewrite Hcase. unfold points in Hnd |- *. cbn [omap list_omap snd] in Hnd |- *. destruct (builtin_point b) as [q|] eqn:Eq.
  - apply NoDup_cons in Hnd as [Hq Hnd]. rewrite (IH _ Hnd). unfold points. cbn [map_get]. rewrite map_get_filter, not_elem_of_cons. split.
    + intros [(c&Hc&Hp)|[Hm Hp]]; [left; exists c; split; [by right|done]|]. destruct (bool_decide_reflect (pt = q)) as [->|Hne]; [|by right].
      injection Hm as <-. left. exists b. split; [by left|done].
    + intros [(c&[[= -> ->]|Hc]%elem_of_cons&Hp)|(Hm&Hne&Hp)]; [|left; by exists c|].
      * rewrite Eq in Hp. injection Hp as <-. right. by rewrite bool_decide_true.
      * right. by rewrite !bool_decide_false.
  - rewrite (IH _ Hnd). fold (points l). split.
    + intros [(c&Hc&Hp)|?]; [left; exists c; split; [by right|done]|by right].
    + intros [(c&[[= -> ->]|Hc]%elem_of_cons&Hp)|?]; [congruence|left; by exists c|by right].
Qed.
Lemma builtin_of_maps p l : l ≡ₚ live p -> NoDup (points l) -> exists m, builtin_of p = Ret m /\ maps_builtins m l.
Proof.
  intros Hl Hnd. unfold builtin_of, Pool.iter. rewrite (iter_collect_spec p _ 0 [] (slots p)); [|done|done|lia]. cbn [mbind outcome_bind].
  eexists. split; [done|]. split; [done|]. intros pt id. fold (live p).
  assert (Hnd' : NoDup (points (live p))) by (unfold points in *; by rewrite <- Hl).
  rewrite (builtin_fold _ _ Hnd'). setoid_rewrite Hl. split; [intros [?|[? _]]; done|by left].
Qed.

(** One breakpoint read. *)
Lemma replaced_cons b bs x : replaced (b :: bs) x = (match builtin_point x with Some pt => at_point pt b | None => false end) || replaced bs x.
Proof. unfold replaced. by destruct (builtin_point x). Qed.
Lemma filter_not_replaced b bs (old : list (Id * BP)) : (forall e, e ∈ old -> match builtin_point e.2 with Some pt => at_point pt b | None => false end = false) ->
  List.filter (fun e => negb (replaced (b :: bs) e.2)) old = List.filter (fun e => negb (replaced bs e.2)) old.
Proof. intros H. apply List.filter_ext_in. intros e He%list_elem_of_In. rewrite replaced_cons. by rewrite (H e He). Qed.
Lemma points_app (l1 l2 : list (Id * BP)) : points (l1 ++ l2) = points l1 ++ points l2.
Proof. unfold points. apply omap_app. Qed.
Lemma restored_points pts pts' bs : (forall pt, pt ∈ pts <-> pt ∈ pts') -> restored pts bs = restored pts' bs.
Proof.
  revert pts pts'. induction bs as [|b bs IH]; intros pts pts' H; [done|]. cbn [restored]. destruct (on b) as [| | |pt|]; try (f_equal; by apply IH).
  rewrite (bool_decide_ext _ _ (H pt)). case_bool_decide; f_equal; apply IH; [|done]. intros q. rewrite !list_elem_of_filter. by rewrite H.
Qed.
Lemma maps_builtins_remove m old1 old2 id x pt : maps_builtins m (old1 ++ (id, x) :: old2) -> builtin_point x = Some pt ->
  maps_builtins (filter (fun y => y.1 <> pt) m) (old1 ++ old2) /\ (forall e, e ∈ old1 ++ old2 -> builtin_point e.2 <> Some pt).
Proof.
  intros [Hnd Hm] Hx. assert (Hsplit : points (old1 ++ (id, x) :: old2) = points old1 ++ pt :: points old2).
  { rewrite points_app. unfold points at 2. cbn [omap list_omap snd]. by rewrite Hx. }
  rewrite Hsplit, <- Permutation_middle, <- points_app in Hnd. apply NoDup_cons in Hnd as [Hpt Hnd].
  assert (Hno : forall e, e ∈ old1 ++ old2 -> builtin_point e.2 <> Some pt).
  { intros [i y] He Hy. apply Hpt, elem_of_points. by exists i, y. }
  split; [|done]. split; [done|]. intros q i. rewrite map_get_filter. case_bool_decide as Hq.
  - subst q. split; [done|]. intros (y&Hy&Hp). by destruct (Hno _ Hy).
  - rewrite Hm. split; intros (y&Hy&Hp); exists y; (split; [|done]).
    + rewrite elem_of_app, elem_of_cons in Hy. rewrite elem_of_app. destruct Hy as [?|[[= -> ->]|?]]; [by left|congruence|by right].
    + rewrite elem_of_app in Hy. rewrite elem_of_app, elem_of_cons. tauto.
Qed.

(** Replaying: the old entries but those replaced, and the restored ones. *)
Lemma replay_spec bs p m old new :
  by_creation p (old ++ new) -> maps_builtins m old -> next_seqno p + zlen bs < 2 ^ 64 -> Forall (fun b => builtin b = false) bs ->
  exists p' m' added, replay (p, m) bs = Ret (p', m') /\
    by_creation p' (List.filter (fun e => negb (replaced bs e.2)) old ++ new ++ added) /\ added.*2 = restored (points old) bs.
Proof.
  revert p m old new. induction bs as [|b bs IH]; intros p m old new Hp Hm Hn Hb.
  { exists p, m, []. split; [done|]. rewrite app_nil_r. split; [|done]. rewrite List.forallb_filter_id; [done|].
    apply forallb_forall. intros e _. unfold replaced. by destruct (builtin_point e.2). }
  rewrite zlen_cons in Hn. pose proof (zlen_nonneg bs). apply Forall_cons in Hb as [Hbb Hb].
  assert (Hplain : load_one (p, m) b = ('(_, p') ← Pool.add p (set_enabled b false); Ret (p', m)) ->
    (forall e, e ∈ old -> match builtin_point e.2 with Some pt => at_point pt b | None => false end = false) ->
    restored (points old) (b :: bs) = set_enabled b false :: restored (points old) bs ->
    exists p' m' added, replay (p, m) (b :: bs) = Ret (p', m') /\
      by_creation p' (List.filter (fun e => negb (replaced (b :: bs) e.2)) old ++ new ++ added) /\ added.*2 = restored (points old) (b :: bs)).
  { intros Hone Hrep Hres. cbn [replay]. rewrite Hone, (filter_not_replaced _ _ _ Hrep), Hres.
    destruct (by_creation_add p _ (set_enabled b false) Hp ltac:(lia)) as (id&p1&->&Hp1&Hn1). cbn [mbind outcome_bind].
    rewrite <- app_assoc in Hp1. destruct (IH p1 m old (new ++ [(id, set_enabled b false)]) Hp1 Hm ltac:(lia) Hb) as (p'&m'&added&->&Hp'&Ha).
    exists p', m', ((id, set_enabled b false) :: added). split; [done|]. rewrite <- app_assoc in Hp'. split; [exact Hp'|]. by rewrite fmap_cons, Ha. }
  destruct (on b) as [| | |pt|] eqn:Eon;
    try (apply Hplain; [unfold load_one; by rewrite Eon, Hbb|intros e _; unfold at_point; rewrite Eon; by destruct (builtin_point e.2)|cbn [restored]; by rewrite Eon]).
  destruct (map_get m pt) as [id|] eqn:Eg.
  - pose proof (proj1 (proj2 Hm pt id) Eg) as (x&Hx&Hxp). destruct (list_elem_of_split _ _ Hx) as (old1&old2&->). 
    destruct (maps_builtins_remove m old1 old2 id x pt Hm Hxp) as [Hm' Hno].
    rewrite <- app_assoc in Hp. destruct (by_creation_remove _ _ _ _ _ Hp) as [Hp1 Hn1].
    destruct (by_creation_add _ _ (set_builtin b true) Hp1 ltac:(lia)) as (nid&p2&Hadd&Hp2&Hn2).
    rewrite !app_assoc in Hp2. rewrite <- app_assoc in Hp2.
    destruct (IH p2 _ (old1 ++ old2) (new ++ [(nid, set_builtin b true)]) Hp2 Hm' ltac:(lia) Hb) as (p'&m'&added&Hr&Hp'&Ha).
    exists p', m', ((nid, set_builtin b true) :: added). split.
    + cbn [replay]. unfold load_one. rewrite Eon, Eg. cbn [builtin set_builtin negb]. rewrite Hadd. exact Hr.
    + rewrite <- app_assoc in Hp'. split.
      * rewrite !List.filter_app in Hp' |- *. cbn [List.filter snd]. rewrite replaced_cons, Hxp. unfold at_point at 1. rewrite Eon, bool_decide_true by done.
        cbn [orb negb]. rewrite <- !List.filter_app in Hp' |- *. rewrite filter_not_replaced; [exact Hp'|].
        intros e He. pose proof (Hno e He) as Hne. destruct (builtin_point e.2) as [q|]; [|done]. unfold at_point. rewrite Eon. apply bool_decide_false. congruence.
      * rewrite fmap_cons, Ha. cbn [restored]. rewrite Eon, bool_decide_true by (apply elem_of_points; exists id, x; split; [done|done]).
        cbn [snd]. f_equal. apply restored_points. intros q. rewrite list_elem_of_filter, !elem_of_points. split.
        -- intros (i&y&Hy&Hyp). split; [intros ->; by destruct (Hno _ Hy)|]. exists i, y. split; [|done]. rewrite elem_of_app in Hy. rewrite elem_of_app, elem_of_cons. tauto.
        -- intros (Hq&i&y&Hy&Hyp). exists i, y. split; [|done]. rewrite elem_of_app, elem_of_cons in Hy. rewrite elem_of_app.
           destruct Hy as [?|[[= -> ->]|?]]; [by left|congruence|by right].
  - assert (Hno : pt ∉ points old).
    { intros (id&x&Hx&Hxp)%elem_of_points. assert (Hs : map_get m pt = Some id) by (apply (proj2 Hm); by exists x). congruence. }
    apply Hplain.
    + unfold load_one. by rewrite Eon, Eg, Hbb.
    + intros [i x] He. cbn [snd]. destruct (builtin_point x) as [q|] eqn:Eq; [|done]. unfold at_point. rewrite Eon. apply bool_decide_false. intros <-.
      apply Hno, elem_of_points. by exists i, x.
    + cbn [restored]. by rewrite Eon, bool_decide_false.
Qed.
Lemma inv_by_creation p l : Pool.inv p -> l ≡ₚ live p -> StronglySorted older l -> by_creation p l.
Proof.
  intros Hp Hl Hs. split; [rewrite Hl; by apply owned_live|]. split; [done|]. apply Forall_forall. intros [id b] He. rewrite Hl in He.
  apply live_elem, try_get_Some in He as (s&Hs'&Hq&_). cbn [fst]. rewrite <- Hq. apply (inv_seqno _ Hp _ _ Hs').
Qed.
Lemma fmap_filter_snd (f : BP -> bool) (l : list (Id * BP)) : (List.filter (fun e => f e.2) l).*2 = List.filter f l.*2.
Proof. induction l as [|e l IH]; [done|]. cbn [List.filter]. rewrite fmap_cons. cbn [List.filter]. destruct (f e.2); [by rewrite fmap_cons, IH|done]. Qed.

(** The default breakpoints of [Debugger::new]. *)
Definition defaults : list BP :=
  [default_breakpoint LibraryLoad true true; default_breakpoint PanicPoint true false; default_breakpoint ExceptionPoint false false].
Lemma fresh_by_creation : exists q l, with_default_breakpoints Pool.new = Ret q /\ by_creation q l /\ l.*2 = defaults /\ next_seqno q = next_seqno (Pool.new : Pool BP) + 3.
Proof.
  destruct (by_creation_add Pool.new [] (default_breakpoint LibraryLoad true true)) as (i1&p1&H1&Hp1&Hn1).
  { split; [apply owned_nil|]. by repeat constructor. } { done. }
  destruct (by_creation_add p1 _ (default_breakpoint PanicPoint true false) Hp1) as (i2&p2&H2&Hp2&Hn2); [by rewrite Hn1|].
  destruct (by_creation_add p2 _ (default_breakpoint ExceptionPoint false false) Hp2) as (i3&p3&H3&Hp3&Hn3); [by rewrite Hn2, Hn1|].
  exists p3, ([] ++ [(i1, default_breakpoint LibraryLoad true true)] ++ [(i2, default_breakpoint PanicPoint true false)] ++ [(i3, default_breakpoint ExceptionPoint false false)]).
  split; [|split; [exact Hp3|split; [done|lia]]]. unfold with_default_breakpoints. change (Pool.is_empty Pool.new) with (Ret true : partial bool).
  cbn [mbind outcome_bind]. rewrite H1. cbn [mbind outcome_bind]. rewrite H2. cbn [mbind outcome_bind]. by rewrite H3.
Qed.

(** C18. Saving and loading the breakpoint list: what [save_state] writes, the
    visible code breakpoints in the order of their creation, is read back
    without error and without touching what follows it. Loaded into a list whose
    builtin breakpoints are at different points of interest, they come after
    what was there, in this order, with everything that is not saved reset: the
    first at the point of a builtin breakpoint replaces it and keeps whether it
    is enabled, the others are disabled. The list of a new debugger, with its
    three default breakpoints, is such a list. *)
Theorem breakpoint_list_roundtrip p rest :
  (forall id b, try_get p id = Some b -> bp_valid b) ->
  exists bs out,
    Forall2 (fun id b => try_get p id = Some b /\ visible b) (saved_ids p) bs /\
    Sorted seqno_le (saved_ids p) /\
    (forall id b, try_get p id = Some b -> visible b -> id ∈ saved_ids p) /\
    debugger_save_state p = Ret out /\
    let read := bp_norm parse_watch_expression <$> bs in
    (forall q old, Pool.inv q -> old ≡ₚ live q -> StronglySorted older old -> NoDup (points old) -> next_seqno q + zlen bs < 2 ^ 64 ->
       exists q' new, debugger_load_state parse_watch_expression q (out ++ rest) = (Ret rest, q') /\
         new ≡ₚ live q' /\ StronglySorted older new /\
         new.*2 = List.filter (fun b => negb (replaced read b)) old.*2 ++ restored (points old) read) /\
    (zlen bs < 2 ^ 64 - 4 ->
       exists q q' new, with_default_breakpoints Pool.new = Ret q /\
         debugger_load_state parse_watch_expression q (out ++ rest) = (Ret rest, q') /\ new ≡ₚ live q' /\ StronglySorted older new /\
         new.*2 = List.filter (fun b => negb (replaced read b)) defaults ++ restored [LibraryLoad; PanicPoint; ExceptionPoint] read).
Proof.
  intros Hvalid. destruct (saved_ids_resolve p) as [bs Hbs]. exists bs, (saved_bytes bs). split; [done|].
  split; [apply Sorted_merge_sort; intros a b; unfold seqno_le; lia|]. split; [by apply saved_ids_complete|]. split; [by apply debugger_save_spec|].
  assert (Hbv : Forall bp_valid bs).
  { clear - Hvalid Hbs. induction Hbs as [|id b ids bs [Hg _] _ IH]; constructor; eauto. }
  intros read. assert (Hload : forall q old, by_creation q old -> NoDup (points old) -> next_seqno q + zlen bs < 2 ^ 64 ->
    exists q' new, debugger_load_state parse_watch_expression q (saved_bytes bs ++ rest) = (Ret rest, q') /\
      new ≡ₚ live q' /\ StronglySorted older new /\ new.*2 = List.filter (fun b => negb (replaced read b)) old.*2 ++ restored (points old) read).
  { intros q old Hq Hnd Hn. pose proof (proj1 Hq) as Ho. destruct (builtin_of_maps q old (owned_unique _ _ _ Ho (owned_live _ (owned_inv _ _ Ho))) Hnd) as (m&Hm&Hmaps).
    destruct (replay_spec read q m old []) as (q'&m'&added&Hr&Hq'&Ha); [by rewrite app_nil_r|done|unfold read, zlen in *; by rewrite length_fmap|by apply Forall_fmap, Forall_true|].
    exists q', (List.filter (fun e => negb (replaced read e.2)) old ++ added). cbn [app] in Hq'. destruct Hq' as (Ho'&Hs'&_). split; [|split; [|split; [done|]]].
    - unfold debugger_load_state. rewrite Hm. apply (load_loop_saved _ (q, m) bs rest (q', m')); try done.
      rewrite length_app. pose proof (saved_bytes_length bs). lia.
    - apply (owned_unique _ _ _ Ho' (owned_live _ (owned_inv _ _ Ho'))).
    - by rewrite fmap_app, (fmap_filter_snd (fun b => negb (replaced read b))), Ha. }
  split.
  - intros q old Hq Hl Hs. apply Hload. by apply inv_by_creation.
  - intros Hlen. destruct fresh_by_creation as (q&l&Hq&Hl&Hd&Hn). assert (Hp : points l = omap builtin_point defaults) by (rewrite <- Hd; unfold points; clear; induction l as [|e l IH]; [done|]; rewrite fmap_cons; cbn [omap list_omap]; by destruct (builtin_point e.2); rewrite IH).
    destruct (Hload q l Hl) as (q'&new&?&?&?&Hnew); [rewrite Hp; by apply (bool_decide_unpack _); vm_compute|rewrite Hn; cbn; lia|].
    exists q, q', new. rewrite Hd, Hp in Hnew. done.
Qed.
End ListRoundtrip.

(** Two line breakpoints in reused slots, one with a condition, a data
    breakpoint, and the builtin breakpoint at panics with a condition. *)
Definition sample_line (l : Z) (c : option (list Z)) : Breakpoint unit :=
  mkBreakpoint (Line (mkLine [47; 97] l (Some (l + 1))))
    (match c with Some s => Some (s, Ret tt, None) | None => None end)
    3 (Ret [(4096, 0)]) true true false false.
Definition sample_panic : Breakpoint unit := mkBreakpoint (Point PanicPoint) (Some ([121], Ret tt, None)) 0 not_calculated true false false true.
Definition sample_list : Pool (Breakpoint unit) :=
  mkPool [mkSlot 5 (Some (sample_line 20 None));
          mkSlot 2 (Some (sample_line 10 (Some [120])));
          mkSlot 3 (Some (mkBreakpoint (DataBp (mkData 64 8 true)) None 0 not_calculated true true false false));
          mkSlot 4 (Some sample_panic)]
    [] 6.
Definition sample_parse (s : list Z) : result unit := Ret tt.

Lemma breakpoint_list_roundtrip_witness :
  exists out q q' new, debugger_save_state sample_list = Ret out /\ with_default_breakpoints Pool.new = Ret q /\
    debugger_load_state sample_parse q out = (Ret [], q') /\ new ≡ₚ live q' /\ StronglySorted older new /\
    new.*2 = [default_breakpoint LibraryLoad true true; default_breakpoint ExceptionPoint false false;
      set_enabled (bp_norm sample_parse (sample_line 10 (Some [120]))) false; sample_panic;
      set_enabled (bp_norm sample_parse (sample_line 20 None)) false].
Proof.
  destruct (breakpoint_list_roundtrip sample_parse sample_list []) as (bs&out&Hbs&_&_&Hs&_&Hl).
  - intros id b Hid. apply live_elem in Hid. unfold live, sample_list in Hid. cbn in Hid.
    repeat (apply elem_of_cons in Hid as [[= -> ->]|Hid]; [repeat split; cbn; unfold is_u64, is_u8; try lia|]).
    by apply elem_of_nil in Hid.
  - assert (Hsi : saved_ids sample_list = [mkId 1 2; mkId 3 4; mkId 0 5]) by (vm_compute; reflexivity).
    rewrite Hsi in Hbs. apply Forall2_cons_inv_l in Hbs as (b1&bs1&[H1 _]&Hbs&->).
    apply Forall2_cons_inv_l in Hbs as (b2&bs2&[H2 _]&Hbs&->). apply Forall2_cons_inv_l in Hbs as (b3&bs3&[H3 _]&Hbs&->).
    apply Forall2_nil_inv_l in Hbs as ->. vm_compute in H1, H2, H3. injection H1 as <-. injection H2 as <-. injection H3 as <-.
    destruct Hl as (q&q'&new&Hq&Hq'&Hperm&Hsort&Hnew); [vm_compute; reflexivity|].
    rewrite app_nil_r in Hq'. exists out, q, q', new. split; [exact Hs|]. split; [exact Hq|]. split; [exact Hq'|]. split; [exact Hperm|].
    split; [exact Hsort|]. rewrite Hnew. vm_compute. reflexivity.
Defined.
