(* ===== verification/Registers.v ===== *)
(** src/registers.rs: general and vector registers of a stack frame, their names
    and DWARF numbers, and the XSAVE area the vector registers come from. *)
From Stdlib Require Import ZArith Lia ZifyBool String.
From stdpp Require Import base list.
From S2P Require Import Prelude Errors Serial RustStr RustText.
Open Scope Z_scope.

(** crate::disasm::Arch *)
Inductive Arch := X86_64 | AArch64 | Riscv64.

(** ** General registers *)

Inductive RegisterIdx :=
  | Rax | Rdx | Rcx | Rbx | Rsi | Rdi | Rbp | Rsp
  | R8 | R9 | R10 | R11 | R12 | R13 | R14 | R15
  | Rip | Cs | Ss | Fs | Gs | FsBase | GsBase
  | Flags | OrigRax | Cfa | RetAddr.
#[export] Instance RegisterIdx_eq_dec : EqDecision RegisterIdx.
Proof. solve_decision. Defined.

(** [RegisterIdx as usize] *)
Definition reg_num (r : RegisterIdx) : Z :=
  match r with
  | Rax => 0 | Rdx => 1 | Rcx => 2 | Rbx => 3 | Rsi => 4 | Rdi => 5 | Rbp => 6 | Rsp => 7
  | R8 => 8 | R9 => 9 | R10 => 10 | R11 => 11 | R12 => 12 | R13 => 13 | R14 => 14 | R15 => 15
  | Rip => 16 | Cs => 17 | Ss => 18 | Fs => 19 | Gs => 20 | FsBase => 21 | GsBase => 22
  | Flags => 23 | OrigRax => 24 | Cfa => 25 | RetAddr => 26
  end.
Definition COUNT : Z := 27.
Definition REGISTER_IDXS : list RegisterIdx :=
  [Rax; Rdx; Rcx; Rbx; Rsi; Rdi; Rbp; Rsp; R8; R9; R10; R11; R12; R13; R14; R15; Rip; Cs; Ss; Fs; Gs;
   FsBase; GsBase; Flags; OrigRax; Cfa; RetAddr].
Definition all : list RegisterIdx := REGISTER_IDXS.
Definition REGISTER_NAMES : list (list Z) := map str
  ["rax"; "rdx"; "rcx"; "rbx"; "rsi"; "rdi"; "rbp"; "rsp"; "r8"; "r9"; "r10"; "r11"; "r12"; "r13"; "r14"; "r15";
   "rip"; "cs"; "ss"; "fs"; "gs"; "fs_base"; "gs_base"; "flags"; "orig_rax"; "cfa"; "ret"]%string.

(** [mem::transmute(i as u8)] *)
Definition reg_of_num (i : Z) : option RegisterIdx := zget REGISTER_IDXS i.
Definition reg_name {E} (r : RegisterIdx) : outcome E (list Z) := lift_opt (zget REGISTER_NAMES (reg_num r)).

(** [eq_ignore_ascii_case] *)
Definition to_lower (c : Z) : Z := if (65 <=? c) && (c <=? 90) then c + 32 else c.
Definition eq_ignore_ascii_case (a b : list Z) : bool := bytes_eqb (map to_lower a) (map to_lower b).

Fixpoint position {A} (f : A -> bool) (l : list A) (i : Z) : option Z :=
  match l with
  | [] => None
  | x :: l => if f x then Some i else position f l (i + 1)
  end.
Definition parse_ignore_case (s : list Z) : option RegisterIdx :=
  position (fun n => eq_ignore_ascii_case n s) REGISTER_NAMES 0 ≫= reg_of_num.

Definition from_dwarf_arch (arch : Arch) (r : Z) : option RegisterIdx :=
  match arch with
  | X86_64 =>
      if (0 <=? r) && (r <=? 16) then reg_of_num r
      else if r =? 49 then Some Flags
      else if r =? 51 then Some Cs
      else if r =? 52 then Some Ss
      else if r =? 54 then Some Fs
      else if r =? 55 then Some Gs
      else if r =? 58 then Some FsBase
      else if r =? 59 then Some GsBase
      else None
  | AArch64 =>
      if r =? 0 then Some Rax
      else if r =? 1 then Some RetAddr
      else if r =? 2 then Some Rdx
      else if r =? 8 then Some Rbp
      else if r =? 29 then Some Rbp
      else if r =? 30 then Some RetAddr
      else if r =? 31 then Some Rsp
      else if r =? 32 then Some Rip
      else None
  | Riscv64 =>
      if r =? 1 then Some RetAddr
      else if r =? 2 then Some Rsp
      else if r =? 8 then Some Rbp
      else if r =? 10 then Some Rax
      else if r =? 11 then Some Rdx
      else if r =? 12 then Some Rcx
      else if r =? 13 then Some Rbx
      else if r =? 14 then Some Rsi
      else if r =? 15 then Some Rdi
      else if r =? 16 then Some R8
      else if r =? 17 then Some R9
      else if r =? 32 then Some Rip
      else None
  end.
Definition from_dwarf (r : Z) : option RegisterIdx := from_dwarf_arch X86_64 r.

(** The registers of a stack frame. *)
Module Regs.
Record Registers := mkRegisters { ints : list Z; mask : Z; dubious_mask : Z }.
Definition default : Registers := mkRegisters (replicate 27 0) 0 0.

Definition bit (r : RegisterIdx) : Z := Z.shiftl 1 (reg_num r).
Definition set (rs : Registers) (r : RegisterIdx) (val : Z) (dubious : bool) : Registers :=
  mkRegisters (zset (ints rs) (reg_num r) val) (Z.lor (mask rs) (bit r))
    (if dubious then Z.lor (dubious_mask rs) (bit r) else dubious_mask rs).
Definition has (rs : Registers) (r : RegisterIdx) : bool := negb (Z.land (mask rs) (bit r) =? 0).
Definition is_dubious (rs : Registers) (r : RegisterIdx) : bool := negb (Z.land (dubious_mask rs) (bit r) =? 0).
Definition get (rs : Registers) (r : RegisterIdx) : result (Z * bool) :=
  if Z.land (mask rs) (bit r) =? 0 then Fail (Code ProcessState)
  else v ← lift_opt (zget (ints rs) (reg_num r)); Ret (v, is_dubious rs r).
Definition get_option (rs : Registers) (r : RegisterIdx) : partial (option (Z * bool)) :=
  if Z.land (mask rs) (bit r) =? 0 then Ret None
  else v ← lift_opt (zget (ints rs) (reg_num r)); Ret (Some (v, is_dubious rs r)).

(** From libc's [user_regs_struct], whose fields are given in the order of
    [ints]. *)
Definition from_ptrace (fields : list Z) : Registers :=
  mkRegisters (fields ++ [0; 0]) (Z.shiftl 1 (reg_num OrigRax + 1) - 1) 0.

(** From [mcontext_t.gregs], 23 signed words. *)
Definition from_context (r : list Z) : partial Registers :=
  let u i := g ← lift_opt (zget r i); Ret (g mod 2 ^ 64) in
  r0 ← u 0; r1 ← u 1; r2 ← u 2; r3 ← u 3; r4 ← u 4; r5 ← u 5; r6 ← u 6; r7 ← u 7; r8 ← u 8; r9 ← u 9;
  r10 ← u 10; r11 ← u 11; r12 ← u 12; r13 ← u 13; r14 ← u 14; r15 ← u 15; r16 ← u 16; r17 ← u 17; r18 ← u 18;
  Ret (mkRegisters
    [r13; r12; r14; r11; r9; r8; r10; r15; r0; r1; r2; r3; r4; r5; r6; r7; r16;
     Z.land r18 65535; Z.shiftr r18 48; Z.land (Z.shiftr r18 32) 65535; Z.land (Z.shiftr r18 16) 65535;
     0; 0; r17; 0; 0; 0]
    (Z.ldiff (Z.ldiff (Z.shiftl 1 (reg_num Flags + 1) - 1) (bit FsBase)) (bit GsBase)) 0).
End Regs.

(** ** Vector registers *)

Module Extra.
Record ExtraRegisterIdx := mkIdx { start : Z; len : Z }.
#[export] Instance ExtraRegisterIdx_eq_dec : EqDecision ExtraRegisterIdx.
Proof. solve_decision. Defined.

Definition ZMM_START : Z := 0.
Definition ZMM_STRIDE : Z := 8.
Definition ZMM_COUNT : Z := 32.
Definition OPMASK_START : Z := ZMM_START + ZMM_STRIDE * ZMM_COUNT.
Definition OPMASK_COUNT : Z := 8.
Definition MXCSR_IDX : Z := OPMASK_START + OPMASK_COUNT.
Definition SCALAR_COUNT : Z := MXCSR_IDX + 1.

Definition zmm {E} (n : Z) : outcome E ExtraRegisterIdx :=
  _ ← rassert (n <? ZMM_COUNT);
  let i := ZMM_START + ZMM_STRIDE * n in
  Ret (mkIdx i 8).
Definition ymm {E} (n : Z) : outcome E ExtraRegisterIdx := z ← zmm n; Ret (mkIdx (start z) 4).
Definition xmm {E} (n : Z) : outcome E ExtraRegisterIdx := z ← zmm n; Ret (mkIdx (start z) 2).
Definition opmask : ExtraRegisterIdx := mkIdx OPMASK_START OPMASK_COUNT.
Definition opmask_element {E} (n : Z) : outcome E ExtraRegisterIdx :=
  _ ← rassert (n <? OPMASK_COUNT);
  Ret (mkIdx (OPMASK_START + n) 1).
Definition mxcsr : ExtraRegisterIdx := mkIdx MXCSR_IDX 1.

Definition mask_idx {E} (x : ExtraRegisterIdx) : outcome E Z :=
  if (ZMM_START <=? start x) && (start x <? OPMASK_START) then Ret 0
  else if (OPMASK_START <=? start x) && (start x <? MXCSR_IDX) then Ret 1
  else if start x =? MXCSR_IDX then Ret 2
  else Panic.

(** The decimal digits of a number below 100, as in the tables of names. *)
Definition dec2 (n : Z) : list Z := if n <? 10 then [48 + n] else [48 + n / 10; 48 + n mod 10].
Definition EXTRA_REGISTER_NAMES_MM : list (list (list Z)) :=
  map (fun p => map (fun i => str p ++ dec2 i) (seqZ 0 32)) ["xmm"; "ymm"; "zmm"]%string.
Definition EXTRA_REGISTER_NAMES_OPMASK : list (list Z) := map (fun i => str "opmask" ++ dec2 i) (seqZ 0 8).

Definition extra_name {E} (x : ExtraRegisterIdx) : outcome E (list Z) :=
  if (ZMM_START <=? start x) && (start x <? OPMASK_START) then
    let i := start x - ZMM_START in
    _ ← rassert (i mod ZMM_STRIDE =? 0);
    let i := i / ZMM_STRIDE in
    j ← (if len x =? 2 then Ret 0 else if len x =? 4 then Ret 1 else if len x =? 8 then Ret 2 else Panic);
    names ← lift_opt (zget EXTRA_REGISTER_NAMES_MM j);
    lift_opt (zget names i)
  else if (OPMASK_START <=? start x) && (start x <? MXCSR_IDX) then
    if len x =? 8 then Ret (str "opmask")
    else
      _ ← rassert (len x =? 1);
      lift_opt (zget EXTRA_REGISTER_NAMES_OPMASK (start x - OPMASK_START))
  else if start x =? MXCSR_IDX then Ret (str "mxcsr")
  else Panic.

Definition extra_from_dwarf {E} (n : Z) : outcome E (option ExtraRegisterIdx) :=
  if (17 <=? n) && (n <=? 32) then x ← zmm (n - 17); Ret (Some x)
  else if (67 <=? n) && (n <=? 82) then x ← zmm (n - 67 + 16); Ret (Some x)
  else if (118 <=? n) && (n <=? 125) then x ← opmask_element (n - 118); Ret (Some x)
  else if n =? 64 then Ret (Some mxcsr)
  else Ret None.

Definition is_ascii (s : list Z) : bool := forallb (fun c => c <? 128) s.
Definition extra_parse_ignore_case {E} (s : list Z) : outcome E (option ExtraRegisterIdx) :=
  if negb (is_ascii s) then Ret None
  else if eq_ignore_ascii_case s (str "mxcsr") then Ret (Some mxcsr)
  else
    let om := str "opmask" in
    if (zlen om <=? zlen s) && eq_ignore_ascii_case (take (List.length om) s) om then
      let tail := drop (List.length om) s in
      match tail with
      | [] => Ret (Some opmask)
      | _ =>
          match parse_uint 64 tail with
          | Some n => if n <? OPMASK_COUNT then x ← opmask_element n; Ret (Some x) else Ret None
          | None => Ret None
          end
      end
    else if zlen s <? 4 then Ret None
    else if negb (eq_ignore_ascii_case (take 2 (drop 1 s)) (str "mm")) then Ret None
    else
      c ← lift_opt (zget s 0);
      let l := if (c =? 120) || (c =? 88) then Some 2
               else if (c =? 121) || (c =? 89) then Some 4
               else if (c =? 122) || (c =? 90) then Some 8 else None in
      match l with
      | None => Ret None
      | Some l =>
          match parse_uint 64 (drop 3 s) with
          | None => Ret None
          | Some n =>
              if ZMM_COUNT <=? n then Ret None
              else x ← zmm n; Ret (Some (mkIdx (start x) l))
          end
      end.

Record ExtraRegisters := mkExtra { a : list Z; emask : Z; edubious_mask : Z; eerror : option Error }.
Definition extra_default : ExtraRegisters := mkExtra (replicate (Z.to_nat SCALAR_COUNT) 0) 0 0 None.
Definition from_error (e : Error) : ExtraRegisters :=
  mkExtra (a extra_default) (emask extra_default) (edubious_mask extra_default) (Some e).

Definition extra_has {E} (r : ExtraRegisters) (x : ExtraRegisterIdx) : outcome E bool :=
  i ← mask_idx x; Ret (negb (Z.land (emask r) (Z.shiftl 1 i) =? 0)).
Definition extra_is_dubious {E} (r : ExtraRegisters) (x : ExtraRegisterIdx) : outcome E bool :=
  i ← mask_idx x; Ret (negb (Z.land (edubious_mask r) (Z.shiftl 1 i) =? 0)).
Definition extra_get (r : ExtraRegisters) (x : ExtraRegisterIdx) : result (list Z * bool) :=
  h ← extra_has r x;
  if negb h then match eerror r with Some e => Fail e | None => Fail (Code ProcessState) end
  else
    v ← zslice (a r) (start x) (start x + len x);
    d ← extra_is_dubious r x;
    Ret (v, d).

(** [dst[i..i + v.len()].copy_from_slice(v)] *)
Fixpoint write_at (l : list Z) (i : Z) (v : list Z) : list Z :=
  match v with
  | [] => l
  | x :: v => write_at (zset l i x) (i + 1) v
  end.
Definition extra_set {E} (r : ExtraRegisters) (x : ExtraRegisterIdx) (v : list Z) (dubious : bool)
  : outcome E ExtraRegisters :=
  i ← mask_idx x;
  _ ← rassert (zlen v =? len x);
  _ ← zslice (a r) (start x) (start x + len x);
  Ret (mkExtra (write_at (a r) (start x) v) (Z.lor (emask r) (Z.shiftl 1 i))
        (if dubious then Z.lor (edubious_mask r) (Z.shiftl 1 i) else edubious_mask r) (eerror r)).
End Extra.

(** ** The XSAVE area *)

Module Xsave.
Import Extra.
Definition XSAVE_PREFIX_SIZE : Z := 512 + 64.
Definition XSAVE_XMM_OFFSET : Z := 8 * 20.
Definition XSAVE_MXCSR_OFFSET : Z := 8 * 3.
Definition XFEATURE_SSE : Z := 1.
Definition XFEATURE_YMM : Z := 2.
Definition XFEATURE_OPMASK : Z := 5.
Definition XFEATURE_ZMM_HI256 : Z := 6.
Definition XFEATURE_HI16_ZMM : Z := 7.
Definition XSAVE_SIZE_UPPER_BOUND : Z := 3072.
Definition XSAVE_YMM_SIZE : Z := 16 * 16.
Definition XSAVE_OPMASK_SIZE : Z := 8 * 8.
Definition XSAVE_ZMM_HI256_SIZE : Z := 16 * 32.
Definition XSAVE_HI16_ZMM_SIZE : Z := 64 * 16.

(** [precalc_xsave_component_offset], given what [cpuid] reports. *)
Definition precalc_xsave_component_offset (offset actual_size expected_size : Z) : partial Z :=
  if (actual_size =? 0) || (offset =? 0) then Ret 0
  else
    _ ← rassert (expected_size <=? actual_size);
    _ ← rassert (offset + expected_size <=? XSAVE_SIZE_UPPER_BOUND);
    Ret offset.

(** The cached offsets; 0 when the processor lacks the component. *)
Record Offsets := mkOffsets { ymm_off : Z; opmask_off : Z; zmm_hi256_off : Z; hi16_zmm_off : Z }.
(** [cpuid] gives offset and size of a component. *)
Definition precalc_globals_registers (cpuid : Z -> Z * Z) : partial Offsets :=
  let f c size := precalc_xsave_component_offset (cpuid c).1 (cpuid c).2 size in
  y ← f XFEATURE_YMM XSAVE_YMM_SIZE;
  o ← f XFEATURE_OPMASK XSAVE_OPMASK_SIZE;
  z ← f XFEATURE_ZMM_HI256 XSAVE_ZMM_HI256_SIZE;
  h ← f XFEATURE_HI16_ZMM XSAVE_HI16_ZMM_SIZE;
  Ret (mkOffsets y o z h).
Definition cached (off : Z) : option Z := if off =? 0 then None else Some off.

Section Area.
  Context (o : Offsets).

Definition has_feature (m feat : Z) : bool := negb (Z.land m (Z.shiftl 1 feat) =? 0).

Definition size_step (st : Z * Z) (f : Z * Z * option Z) : Z * Z :=
  let '(n, m) := st in
  let '(feat, size, offset) := f in
  if has_feature m feat then
    match offset with
    | Some off => (Z.max n (off + size), m)
    | None => (n, Z.lxor m (Z.shiftl 1 feat))
    end
  else st.

Definition calculate_xsave_full_size (prefix : list Z) : result (Z * Z) :=
  if zlen prefix <? XSAVE_PREFIX_SIZE then Fail (Code ProcessState)
  else
    x ← zslice prefix (512 + 8) (512 + 16);
    if negb (le_value x =? 0) then Fail (Code ProcessState)
    else
      m ← zslice prefix 512 (512 + 8);
      Ret (fold_left size_step
        [ (XFEATURE_YMM, XSAVE_YMM_SIZE, cached (ymm_off o));
          (XFEATURE_OPMASK, XSAVE_OPMASK_SIZE, cached (opmask_off o));
          (XFEATURE_ZMM_HI256, XSAVE_ZMM_HI256_SIZE, cached (zmm_hi256_off o));
          (XFEATURE_HI16_ZMM, XSAVE_HI16_ZMM_SIZE, cached (hi16_zmm_off o)) ]
        (XSAVE_PREFIX_SIZE, le_value m)).

(** [u64::from_le_bytes(xsave[off..off + 8])] *)
Definition word_at {E} (xsave : list Z) (off : Z) : outcome E Z :=
  b ← zslice xsave off (off + 8); Ret (le_value b).
(** The words at [off + 8 * j] for [j < n]. *)
Fixpoint words_at {E} (xsave : list Z) (off : Z) (n : nat) : outcome E (list Z) :=
  match n with
  | O => Ret []
  | S n => w ← word_at xsave off; ws ← words_at xsave (off + 8) n; Ret (w :: ws)
  end.

(** [for i in idxs { .. }] with the registers as loop state. *)
Fixpoint each {E} (idxs : list Z) (f : Z -> ExtraRegisters -> outcome E ExtraRegisters) (r : ExtraRegisters)
  : outcome E ExtraRegisters :=
  match idxs with
  | [] => Ret r
  | i :: idxs => r ← f i r; each idxs f r
  end.
(** Assignments [res.a[i + k] = v[k]]. *)
Definition put {E} (r : ExtraRegisters) (i : Z) (v : list Z) : outcome E ExtraRegisters :=
  _ ← zslice (a r) i (i + zlen v);
  Ret (mkExtra (write_at (a r) i v) (emask r) (edubious_mask r) (eerror r)).

Definition when {E} (b : bool) (f : ExtraRegisters -> outcome E ExtraRegisters) (r : ExtraRegisters) :=
  if b then f r else Ret r.

Definition load_mxcsr {E} (xsave : list Z) (r : ExtraRegisters) : outcome E ExtraRegisters :=
  b ← zslice xsave XSAVE_MXCSR_OFFSET (XSAVE_MXCSR_OFFSET + 4);
  extra_set r mxcsr [le_value b] false.
Definition load_xmm {E} (xsave : list Z) (i : Z) (r : ExtraRegisters) : outcome E ExtraRegisters :=
  ws ← words_at xsave (XSAVE_XMM_OFFSET + i * 16) 2;
  x ← xmm i;
  extra_set r x ws false.
Definition load_ymm {E} (xsave : list Z) (i : Z) (r : ExtraRegisters) : outcome E ExtraRegisters :=
  off ← lift_opt (cached (ymm_off o));
  x ← ymm i;
  ws ← words_at xsave (off + i * 16) 2;
  put r (start x + 2) ws.
Definition load_opmask {E} (xsave : list Z) (i : Z) (r : ExtraRegisters) : outcome E ExtraRegisters :=
  off ← lift_opt (cached (opmask_off o));
  ws ← words_at xsave (off + i * 8) 1;
  x ← opmask_element i;
  extra_set r x ws false.
Definition load_zmm_hi256 {E} (xsave : list Z) (i : Z) (r : ExtraRegisters) : outcome E ExtraRegisters :=
  off ← lift_opt (cached (zmm_hi256_off o));
  x ← zmm i;
  ws ← words_at xsave (off + i * 32) 4;
  put r (start x + 4) ws.
Definition load_hi16_zmm {E} (xsave : list Z) (i : Z) (r : ExtraRegisters) : outcome E ExtraRegisters :=
  off ← lift_opt (cached (hi16_zmm_off o));
  x ← zmm (16 + i);
  ws ← words_at xsave (off + i * 64) 8;
  put r (start x) ws.

Definition from_xsave (xsave : list Z) : partial ExtraRegisters :=
  match calculate_xsave_full_size xsave with
  | Panic => Panic
  | Fail e => Ret (from_error e)
  | Ret (full_size, m) =>
      if zlen xsave <? full_size then Ret (from_error (Code ProcessState))
      else
        r ← load_mxcsr xsave extra_default;
        r ← when (has_feature m XFEATURE_SSE) (each (seqZ 0 16) (load_xmm xsave)) r;
        r ← when (has_feature m XFEATURE_YMM) (each (seqZ 0 16) (load_ymm xsave)) r;
        r ← when (has_feature m XFEATURE_OPMASK) (each (seqZ 0 8) (load_opmask xsave)) r;
        r ← when (has_feature m XFEATURE_ZMM_HI256) (each (seqZ 0 16) (load_zmm_hi256 xsave)) r;
        when (has_feature m XFEATURE_HI16_ZMM) (each (seqZ 0 16) (load_hi16_zmm xsave)) r
  end.
End Area.

(** [LazyExtraRegisters]: the registers, and the thread they are still to be
    read from. [fetch] is ptrace_get_extra_regs. *)
Record LazyExtraRegisters := mkLazy { lr : ExtraRegisters; ltid : option Z }.
Definition lazy_default : LazyExtraRegisters := mkLazy (from_error (Code Internal)) None.
Definition reset_with_tid (l : LazyExtraRegisters) (t : Z) : LazyExtraRegisters := mkLazy (lr l) (Some t).
Definition set_error (l : LazyExtraRegisters) (e : Error) : LazyExtraRegisters := mkLazy (from_error e) None.
Definition lazy_set (l : LazyExtraRegisters) (r : ExtraRegisters) : LazyExtraRegisters := mkLazy r None.
Definition lazy_get (fetch : Z -> ExtraRegisters) (l : LazyExtraRegisters) : ExtraRegisters * LazyExtraRegisters :=
  let r := match ltid l with Some t => fetch t | None => lr l end in
  (r, mkLazy r None).
End Xsave.
