(* ===== verification/RegistersSpec.v ===== *)
(** Properties of the register files of src/registers.rs. *)
From Stdlib Require Import ZArith Lia ZifyBool String.
From stdpp Require Import base list.
From S2P Require Import Prelude Errors Serial RustStr Registers.
Open Scope Z_scope.

(** ** Bit masks *)

Lemma land_shiftl_1 m k : 0 <= k -> (Z.land m (Z.shiftl 1 k) =? 0) = negb (Z.testbit m k).
Proof.
  intros Hk. rewrite Z.shiftl_1_l. destruct (Z.testbit m k) eqn:E; simpl.
  - apply Z.eqb_neq. intros H0. apply (f_equal (fun z => Z.testbit z k)) in H0.
    rewrite Z.land_spec, Z.pow2_bits_true, Z.bits_0, E in H0 by done. done.
  - apply Z.eqb_eq, Z.bits_inj'. intros i Hi. rewrite Z.land_spec, Z.bits_0.
    destruct (decide (i = k)) as [->|]; [by rewrite E|]. rewrite Z.pow2_bits_false by done. by rewrite andb_false_r.
Qed.
Lemma testbit_set m k i :
  0 <= k -> Z.testbit (Z.lor m (Z.shiftl 1 k)) i = (i =? k) || Z.testbit m i.
Proof.
  intros Hk. rewrite Z.lor_spec, Z.shiftl_1_l. destruct (Z.eqb_spec i k) as [->|Hne].
  - rewrite Z.pow2_bits_true by done. by rewrite orb_true_r.
  - rewrite Z.pow2_bits_false by done. by rewrite orb_false_r.
Qed.

(** ** General registers *)

Lemma reg_num_range r : 0 <= reg_num r < 27.
Proof. destruct r; simpl; lia. Qed.
Lemma reg_of_reg_num r : reg_of_num (reg_num r) = Some r.
Proof. by destruct r. Qed.
Lemma reg_num_inj r r' : reg_num r = reg_num r' -> r = r'.
Proof. intros H. apply (f_equal reg_of_num) in H. rewrite !reg_of_reg_num in H. by injection H. Qed.

Module RegsSpec.
Import Regs.

(** A well-formed register file. *)
Definition wf (rs : Registers) : Prop := zlen (ints rs) = COUNT.

Lemma wf_default : wf default.
Proof. done. Qed.
Lemma wf_set rs r v d : wf rs -> wf (set rs r v d).
Proof. intros H. unfold wf, set. cbn. by rewrite zlen_zset. Qed.

(** What is known about a register. *)
Definition lookup (rs : Registers) (r : RegisterIdx) : option (Z * bool) :=
  if has rs r then v ← zget (ints rs) (reg_num r); Some (v, is_dubious rs r) else None.

Lemma has_set rs r v d r' : has (set rs r v d) r' = bool_decide (r = r') || has rs r'.
Proof.
  unfold has, set, bit. cbn [mask]. pose proof (reg_num_range r). pose proof (reg_num_range r').
  rewrite !land_shiftl_1, !negb_involutive, testbit_set by lia. f_equal.
  destruct (Z.eqb_spec (reg_num r') (reg_num r)) as [He|Hne].
  - apply reg_num_inj in He as ->. by rewrite bool_decide_true.
  - rewrite bool_decide_false; [done|]. by intros ->.
Qed.
Lemma is_dubious_set rs r v d r' :
  is_dubious (set rs r v d) r' = (d && bool_decide (r = r')) || is_dubious rs r'.
Proof.
  unfold is_dubious, set, bit. cbn [dubious_mask]. pose proof (reg_num_range r). pose proof (reg_num_range r').
  destruct d; [|done]. rewrite !land_shiftl_1, !negb_involutive, testbit_set by lia. cbn [andb]. f_equal.
  destruct (Z.eqb_spec (reg_num r') (reg_num r)) as [He|Hne].
  - apply reg_num_inj in He as ->. by rewrite bool_decide_true.
  - rewrite bool_decide_false; [done|]. by intros ->.
Qed.

Lemma lookup_set rs r v d r' : wf rs ->
  lookup (set rs r v d) r' = if decide (r = r') then Some (v, d || is_dubious rs r) else lookup rs r'.
Proof.
  intros Hwf. unfold lookup. rewrite has_set, is_dubious_set. pose proof (reg_num_range r) as Hr.
  destruct (decide (r = r')) as [->|Hne].
  - rewrite !bool_decide_true by done. cbn [orb]. rewrite andb_true_r.
    destruct (proj2 (zget_range (ints rs) (reg_num r'))) as [x Hx]; [unfold wf, COUNT in Hwf; lia|].
    cbn. by rewrite (zget_zset_eq _ _ _ _ Hx).
  - rewrite !bool_decide_false by done. rewrite andb_false_r. cbn [orb set ints].
    rewrite zget_zset_ne; [done|]. intros He. by apply Hne, reg_num_inj.
Qed.

(** The register file is a map from registers to values: setting a register
    changes that register only, [has], [get] and [get_option] agree on what is
    known and never panic, and a value once marked as a guess stays marked even
    when it is overwritten by a certain one. *)
Theorem register_file_is_map rs r v d :
  wf rs ->
  wf (set rs r v d) /\
  (forall r', lookup (set rs r v d) r' =
     if decide (r = r') then Some (v, d || is_dubious rs r) else lookup rs r') /\
  forall r', has rs r' = bool_decide (is_Some (lookup rs r')) /\
    get rs r' = match lookup rs r' with Some x => Ret x | None => Fail (Code ProcessState) end /\
    get_option rs r' = Ret (lookup rs r').
Proof.
  intros Hwf. split; [by apply wf_set|]. split; [intros r'; by apply lookup_set|].
  intros r'. pose proof (reg_num_range r') as Hr'.
  destruct (proj2 (zget_range (ints rs) (reg_num r'))) as [x Hx]; [unfold wf, COUNT in Hwf; lia|].
  unfold get, get_option, lookup, has. rewrite Hx. cbn. by destruct (Z.land (mask rs) (bit r') =? 0).
Qed.

Lemma register_file_is_map_witness :
  get (set default Rip 4096 false) Rip = Ret (4096, false) /\ lookup (set default Rip 4096 false) Rsp = None.
Proof.
  destruct (register_file_is_map default Rip 4096 false wf_default) as (Hwf&H1&_).
  split; [reflexivity|]. rewrite H1. reflexivity.
Defined.
End RegsSpec.

(** ** Names and numbers *)

Lemma position_Some {A} (f : A -> bool) l i j :
  position f l i = Some j -> exists x, zget l (j - i) = Some x /\ f x = true /\ i <= j.
Proof.
  revert i. induction l as [|x l IH]; intros i; simpl; [done|]. destruct (f x) eqn:E.
  - intros [= <-]. exists x. rewrite Z.sub_diag. split; [done|]. split; [done|lia].
  - intros H. destruct (IH _ H) as (y&Hy&?&?). exists y. split; [|split; [done|lia]].
    rewrite zget_cons. rewrite (proj2 (Z.eqb_neq _ _)), (proj2 (Z.ltb_ge _ _)) by lia.
    by replace (j - i - 1) with (j - (i + 1)) by lia.
Qed.

Definition name_of (r : RegisterIdx) : list Z := default [] (zget REGISTER_NAMES (reg_num r)).

(** Register names: a string names a register exactly when it is that
    register's name up to the case of ASCII letters; names are distinct, and
    the printed name of every register is read back. *)
Theorem register_names_parse s r :
  (parse_ignore_case s = Some r <-> map to_lower s = name_of r) /\
  reg_name (E:=Error) r = Ret (name_of r) /\ parse_ignore_case (name_of r) = Some r.
Proof.
  assert (Hlow : forall r, map to_lower (name_of r) = name_of r) by (by intros []).
  assert (Hparse : forall t, map to_lower t = map to_lower s -> parse_ignore_case t = parse_ignore_case s).
  { intros t Ht. unfold parse_ignore_case, eq_ignore_ascii_case. by rewrite Ht. }
  assert (Hself : forall r, parse_ignore_case (name_of r) = Some r) by (by intros []).
  split; [|split; [by destruct r|apply Hself]]. split.
  - unfold parse_ignore_case. destruct (position _ REGISTER_NAMES 0) as [j|] eqn:E; [|done]. simpl. intros Hj.
    apply position_Some in E as (n&Hn&Heq&Hle). rewrite Z.sub_0_r in Hn.
    assert (reg_num r = j) as <-.
    { unfold reg_of_num in Hj. assert (0 <= j < zlen REGISTER_IDXS) by (apply zget_range; by exists r). change (zlen REGISTER_IDXS) with 27 in *.
      assert (Hc : forallb (fun j => match zget REGISTER_IDXS j with Some r => reg_num r =? j | None => false end) (seqZ 0 27) = true)
        by reflexivity.
      rewrite forallb_forall in Hc. specialize (Hc j).
      rewrite Hj in Hc. apply Z.eqb_eq, Hc. apply list_elem_of_In, elem_of_seqZ. lia. }
    apply bool_decide_eq_true in Heq. assert (n = name_of r) as -> by (unfold name_of; by rewrite Hn).
    by rewrite Hlow in Heq.
  - intros Hs. rewrite <- (Hparse (name_of r)); [apply Hself|]. by rewrite Hlow, Hs.
Qed.

Import Extra.
(** The vector registers that have a name. *)
Definition extra_registers : list ExtraRegisterIdx :=
  flat_map (fun n => [mkIdx (8 * n) 2; mkIdx (8 * n) 4; mkIdx (8 * n) 8]) (seqZ 0 32) ++
  map (fun n => mkIdx (OPMASK_START + n) 1) (seqZ 0 8) ++ [opmask; mxcsr].

Definition extra_roundtrip_ok (x : ExtraRegisterIdx) : bool :=
  match extra_name (E:=Error) x with
  | Ret n => match extra_parse_ignore_case (E:=Error) n, extra_parse_ignore_case (E:=Error) (map (fun c => if (97 <=? c) && (c <=? 122) then c - 32 else c) n) with
             | Ret (Some y), Ret (Some z) => bool_decide (y = x) && bool_decide (z = x)
             | _, _ => false
             end
  | _ => false
  end.

(** The name of every vector register, mask register and mxcsr, in lower or
    upper case, is parsed back to that register. *)
Theorem vector_register_names_roundtrip :
  List.length extra_registers = 106%nat /\ Forall (fun x => extra_roundtrip_ok x = true) extra_registers.
Proof.
  split; [reflexivity|]. assert (H : forallb extra_roundtrip_ok extra_registers = true) by (vm_compute; reflexivity).
  apply Forall_forall. intros x Hx. rewrite forallb_forall in H. by apply H, list_elem_of_In.
Qed.
