(* ===== verification/XsaveSpec.v ===== *)
(** Reading the XSAVE area: every vector register comes from its place. *)
From Stdlib Require Import ZArith Lia ZifyBool String.
From stdpp Require Import base list sets.
From S2P Require Import Prelude Errors Serial RustStr Registers RegistersSpec.
Import Extra Xsave.
Open Scope Z_scope.

(** ** Writing and reading words *)

Lemma zlen_write_at l i v : zlen (write_at l i v) = zlen l.
Proof. revert l i. induction v as [|x v IH]; intros l i; [done|]. cbn [write_at]. by rewrite IH, zlen_zset. Qed.

Lemma zget_write_at l i v k :
  0 <= i -> i + zlen v <= zlen l ->
  zget (write_at l i v) k = if (i <=? k) && (k <? i + zlen v) then zget v (k - i) else zget l k.
Proof.
  revert l i. induction v as [|x v IH]; intros l i Hi Hle.
  - rewrite zlen_nil, Z.add_0_r. destruct (Z.leb_spec i k), (Z.ltb_spec k i); simpl; done || lia.
  - rewrite zlen_cons in *. pose proof (zlen_nonneg v). cbn [write_at]. rewrite IH by (rewrite ?zlen_zset; lia).
    rewrite zget_cons. destruct (Z.eq_dec k i) as [->|Hne].
    + rewrite (proj2 (Z.leb_gt (i + 1) i)), (proj2 (Z.leb_le i i)), (proj2 (Z.ltb_lt i (i + (1 + zlen v)))) by lia. cbn [andb].
      rewrite Z.sub_diag. cbn. destruct (proj2 (zget_range l i) ltac:(lia)) as [y Hy]. by apply (zget_zset_eq _ _ _ y).
    + rewrite zget_zset_ne by lia.
      destruct (Z.leb_spec (i + 1) k), (Z.leb_spec i k); try lia; cbn [andb]; [|done].
      replace (k <? i + 1 + zlen v) with (k <? i + (1 + zlen v)) by lia.
      destruct (k <? i + (1 + zlen v)); [|done]. rewrite (proj2 (Z.eqb_neq _ _)), (proj2 (Z.ltb_ge _ _)) by lia.
      f_equal. lia.
Qed.

(** The little-endian word at [off]. *)
Definition word (xs : list Z) (off : Z) : Z := le_value (take 8 (drop (Z.to_nat off) xs)).

Lemma word_at_ok {E} xs off : 0 <= off -> off + 8 <= zlen xs -> word_at (E:=E) xs off = Ret (word xs off).
Proof.
  intros Ho Hle. unfold word_at, word. rewrite zslice_ok by lia. by replace (off + 8 - off) with 8 by lia.
Qed.

Lemma words_at_ok {E} xs off (n : nat) :
  0 <= off -> off + 8 * Z.of_nat n <= zlen xs ->
  words_at (E:=E) xs off n = Ret (map (fun j => word xs (off + 8 * j)) (seqZ 0 (Z.of_nat n))).
Proof.
  revert off. induction n as [|n IH]; intros off Ho Hle; [done|]. cbn [words_at].
  rewrite word_at_ok by lia. simpl. rewrite IH by lia. simpl.
  rewrite (seqZ_cons 0 (Z.of_nat (S n))) by lia. cbn [map]. rewrite Z.mul_0_r, Z.add_0_r.
  do 2 f_equal. replace (Z.pred (Z.of_nat (S n))) with (Z.of_nat n) by lia.
  change (Z.succ 0) with (1 + 0). rewrite <- (fmap_add_seqZ 1 0). change (@fmap list _) with (@map). rewrite map_map.
  apply map_ext. intros j. f_equal. lia.
Qed.

(** ** Loops that fill a block of registers *)

(** The step for register [i] writes the [c] words [W i 0], [W i 1], .. at
    [base + stride * i] and sets the bits [mb] of the mask. *)
Definition fills {E} (f : Z -> ExtraRegisters -> outcome E ExtraRegisters) (n base stride c : Z)
    (W : Z -> Z -> Z) (mb : Z) : Prop :=
  forall i r, 0 <= i < n -> zlen (a r) = SCALAR_COUNT ->
    f i r = Ret (mkExtra (write_at (a r) (base + stride * i) (map (W i) (seqZ 0 c)))
                   (Z.lor (emask r) mb) (edubious_mask r) (eerror r)).

(** What such a loop over [n] registers leaves in place [x]. *)
Definition filled (n base stride c : Z) (W : Z -> Z -> Z) (old : option Z) (x : Z) : option Z :=
  if (base <=? x) && (x <? base + stride * n) && ((x - base) mod stride <? c)
  then Some (W ((x - base) / stride) ((x - base) mod stride)) else old.

Lemma zget_map_seqZ (W : Z -> Z) c x : zget (map W (seqZ 0 c)) x = if (0 <=? x) && (x <? c) then Some (W x) else None.
Proof.
  destruct ((0 <=? x) && (x <? c)) eqn:E.
  - rewrite zget_lookup by lia. rewrite list_lookup_fmap, lookup_seqZ_lt by lia. cbn. do 2 f_equal. lia.
  - destruct (zget _ x) as [y|] eqn:Ey; [|done]. exfalso.
    assert (Hr : 0 <= x < zlen (map W (seqZ 0 c))) by (apply zget_range; by exists y).
    unfold zlen in Hr. rewrite length_map, length_seqZ in Hr. lia.
Qed.
Lemma zlen_map_seqZ (W : Z -> Z) c : 0 <= c -> zlen (map W (seqZ 0 c)) = c.
Proof. intros Hc. unfold zlen. rewrite length_map, length_seqZ. lia. Qed.

Lemma each_fills {E} (f : Z -> ExtraRegisters -> outcome E ExtraRegisters) n base stride c W mb r m :
  fills f n base stride c W mb -> 0 <= base -> 0 < c <= stride -> base + stride * n <= SCALAR_COUNT ->
  zlen (a r) = SCALAR_COUNT -> 0 <= m <= n ->
  exists r', each (seqZ (n - m) m) f r = Ret r' /\ zlen (a r') = SCALAR_COUNT /\
    emask r' = (if 0 <? m then Z.lor (emask r) mb else emask r) /\
    edubious_mask r' = edubious_mask r /\ eerror r' = eerror r /\
    forall x, zget (a r') x = filled m (base + stride * (n - m)) stride c (fun q => W (q + (n - m))) (zget (a r) x) x.
Proof.
  intros Hf Hb Hc Hfit Hlen Hm. destruct Hm as [Hm0 Hmn]. revert m Hm0 r Hlen Hmn.
  apply (natlike_ind (fun m => forall r, _ -> _ -> _)).
  - intros r Hlen _. exists r. split; [done|]. split; [done|]. split; [done|]. split; [done|]. split; [done|].
    intros x. unfold filled. replace ((base + stride * (n - 0) <=? x) && (x <? base + stride * (n - 0) + stride * 0)) with false by lia. done.
  - intros m Hm IH r Hlen Hmn. rewrite seqZ_cons by lia. cbn [each].
    rewrite Hf by lia. simpl. replace (Z.succ (n - Z.succ m)) with (n - m) by lia. rewrite Z.pred_succ.
    set (i := n - Z.succ m). set (r1 := mkExtra _ _ _ _).
    assert (Hbound : base + stride * i + c <= SCALAR_COUNT) by (unfold i; nia).
    assert (Hi0 : 0 <= stride * i) by (unfold i; nia).
    destruct (IH r1) as (r'&Hrun&Hl&Hmask&Hd&He&Hx); [by cbn; rewrite zlen_write_at|lia|].
    exists r'. split; [done|]. split; [done|]. split.
    { rewrite Hmask. rewrite (proj2 (Z.ltb_lt 0 (Z.succ m))) by lia. cbn [emask r1].
      destruct (0 <? m); [|done]. by rewrite <- Z.lor_assoc, Z.lor_diag. }
    split; [done|]. split; [done|]. intros x. rewrite Hx. cbn [a r1].
    rewrite zget_write_at by (rewrite ?zlen_map_seqZ by lia; lia). rewrite zlen_map_seqZ, zget_map_seqZ by lia.
    assert (Hbase : base + stride * (n - m) = base + stride * i + stride) by (unfold i; lia).
    unfold filled. rewrite Hbase. set (y := x - (base + stride * i)).
    replace (x - (base + stride * i + stride)) with (y + (-1) * stride) by (unfold y; lia).
    rewrite Z.mod_add, Z.div_add by lia.
    assert (Hr1 : (base + stride * i + stride <=? x) && (x <? base + stride * i + stride + stride * m) =
                  (stride <=? y) && (y <? stride * Z.succ m)) by (unfold y; lia).
    assert (Hr2 : (base + stride * i <=? x) && (x <? base + stride * i + stride * Z.succ m) =
                  (0 <=? y) && (y <? stride * Z.succ m)) by (unfold y, i; lia).
    rewrite Hr1, Hr2.
    assert (Hr3 : (base + stride * i <=? x) && (x <? base + stride * i + c) = (0 <=? y) && (y <? c)) by (unfold y; lia).
    rewrite Hr3. destruct (Z.leb_spec stride y) as [Hy|Hy].
    + rewrite (proj2 (Z.leb_le 0 y)) by lia. rewrite (proj2 (Z.ltb_ge y c)) by lia. cbn [andb].
      destruct ((y <? stride * Z.succ m) && (y mod stride <? c)); [|done]. do 2 f_equal. unfold i. lia.
    + cbn [andb]. destruct (Z.leb_spec 0 y) as [Hy0|]; cbn [andb]; [|done].
      assert (y <? stride * Z.succ m = true) as -> by (apply Z.ltb_lt; nia). cbn [andb].
      rewrite Z.mod_small, Z.div_small by lia. by destruct (y <? c).
Qed.

(** The whole loop. *)
Lemma each_fills_all {E} (f : Z -> ExtraRegisters -> outcome E ExtraRegisters) n base stride c W mb r :
  fills f n base stride c W mb -> 0 <= base -> 0 < c <= stride -> base + stride * n <= SCALAR_COUNT ->
  zlen (a r) = SCALAR_COUNT -> 0 < n ->
  exists r', each (seqZ 0 n) f r = Ret r' /\ zlen (a r') = SCALAR_COUNT /\
    emask r' = Z.lor (emask r) mb /\ edubious_mask r' = edubious_mask r /\ eerror r' = eerror r /\
    forall x, zget (a r') x = filled n base stride c W (zget (a r) x) x.
Proof.
  intros Hf Hb Hc Hfit Hlen Hn. destruct (each_fills f n base stride c W mb r n) as (r'&Hrun&H1&H2&H3&H4&H5); try done; [lia|].
  exists r'. rewrite Z.sub_diag in *. rewrite (proj2 (Z.ltb_lt 0 n)) in H2 by lia.
  split; [done|]. do 4 (split; [done|]). intros x. rewrite H5. unfold filled.
  rewrite Z.mul_0_r, Z.add_0_r. by rewrite Z.add_0_r.
Qed.

(** ** Which components are present *)

Lemma has_feature_testbit m f : 0 <= f -> has_feature m f = Z.testbit m f.
Proof. intros Hf. unfold has_feature. by rewrite land_shiftl_1, negb_involutive. Qed.

Lemma size_step_spec n m f s off :
  0 <= f -> exists n' m', size_step (n, m) (f, s, cached off) = (n', m') /\
    Z.testbit m' f = Z.testbit m f && negb (off =? 0) /\
    (forall g, 0 <= g -> g <> f -> Z.testbit m' g = Z.testbit m g) /\
    (forall L, n' <= L <-> n <= L /\ (Z.testbit m' f = true -> off + s <= L)).
Proof.
  intros Hf. unfold size_step, cached. rewrite has_feature_testbit by done.
  destruct (Z.testbit m f) eqn:E; [destruct (Z.eqb_spec off 0) as [->|Hoff]|].
  - exists n, (Z.lxor m (Z.shiftl 1 f)). split; [done|].
    assert (Hf0 : Z.testbit (Z.lxor m (Z.shiftl 1 f)) f = false)
      by (rewrite Z.lxor_spec, E, Z.shiftl_1_l, Z.pow2_bits_true by done; done).
    rewrite Hf0. split; [done|]. split; [|intros L; split; [by split|by intros []]].
    intros g Hg Hne. rewrite Z.lxor_spec, Z.shiftl_1_l, Z.pow2_bits_false by lia. by rewrite xorb_false_r.
  - exists (Z.max n (off + s)), m. split; [done|]. rewrite E. split; [done|]. split; [done|]. lia.
  - exists n, m. split; [done|]. rewrite E. split; [done|]. split; [done|]. intros L. split; [by split|by intros []].
Qed.

(** The components that an area has, on a processor that supports them. *)
Definition present (o : Offsets) (xs : list Z) (feat : Z) : bool :=
  Z.testbit (word xs 512) feat &&
  (if feat =? XFEATURE_YMM then negb (ymm_off o =? 0)
   else if feat =? XFEATURE_OPMASK then negb (opmask_off o =? 0)
   else if feat =? XFEATURE_ZMM_HI256 then negb (zmm_hi256_off o =? 0)
   else if feat =? XFEATURE_HI16_ZMM then negb (hi16_zmm_off o =? 0)
   else true).

(** A complete area in the standard format. *)
Definition complete (o : Offsets) (xs : list Z) : Prop :=
  XSAVE_PREFIX_SIZE <= zlen xs /\ word xs 520 = 0 /\
  (present o xs XFEATURE_YMM = true -> ymm_off o + XSAVE_YMM_SIZE <= zlen xs) /\
  (present o xs XFEATURE_OPMASK = true -> opmask_off o + XSAVE_OPMASK_SIZE <= zlen xs) /\
  (present o xs XFEATURE_ZMM_HI256 = true -> zmm_hi256_off o + XSAVE_ZMM_HI256_SIZE <= zlen xs) /\
  (present o xs XFEATURE_HI16_ZMM = true -> hi16_zmm_off o + XSAVE_HI16_ZMM_SIZE <= zlen xs).

Lemma header_words xs :
  XSAVE_PREFIX_SIZE <= zlen xs ->
  exists b1 b2, zslice (E:=Error) xs (512 + 8) (512 + 16) = Ret b1 /\ le_value b1 = word xs 520 /\
    zslice (E:=Error) xs 512 (512 + 8) = Ret b2 /\ le_value b2 = word xs 512.
Proof.
  intros Hlen. unfold XSAVE_PREFIX_SIZE in Hlen. rewrite !zslice_ok by lia. by eexists _, _.
Qed.

Lemma calculate_compacted o xs :
  word xs 520 <> 0 -> exists e, calculate_xsave_full_size o xs = Fail e.
Proof.
  intros Hx. unfold calculate_xsave_full_size. destruct (Z.ltb_spec (zlen xs) XSAVE_PREFIX_SIZE); [by eexists|].
  destruct (header_words xs) as (b1&b2&->&Hv&_); [done|]. cbn [mbind outcome_bind]. rewrite Hv.
  rewrite (proj2 (Z.eqb_neq _ _) Hx). by eexists.
Qed.

Lemma calculate_spec o xs :
  XSAVE_PREFIX_SIZE <= zlen xs -> word xs 520 = 0 ->
  exists n m, calculate_xsave_full_size o xs = Ret (n, m) /\
    (forall f, f ∈ [XFEATURE_SSE; XFEATURE_YMM; XFEATURE_OPMASK; XFEATURE_ZMM_HI256; XFEATURE_HI16_ZMM] ->
      has_feature m f = present o xs f) /\
    (n <= zlen xs <-> complete o xs).
Proof.
  intros Hlen Hx. unfold calculate_xsave_full_size. rewrite (proj2 (Z.ltb_ge _ _)) by done.
  destruct (header_words xs Hlen) as (b1&b2&->&Hv1&Hb2s&Hv2). cbn [mbind outcome_bind].
  rewrite Hv1, Hx. cbn [negb Z.eqb]. rewrite Hb2s. cbn [mbind outcome_bind fold_left]. rewrite Hv2.
  set (m0 := word xs 512). set (n0 := XSAVE_PREFIX_SIZE).
  destruct (size_step_spec n0 m0 XFEATURE_YMM XSAVE_YMM_SIZE (ymm_off o)) as (n1&m1&->&Hb1&Ho1&Hn1); [done|].
  destruct (size_step_spec n1 m1 XFEATURE_OPMASK XSAVE_OPMASK_SIZE (opmask_off o)) as (n2&m2&->&Hb2&Ho2&Hn2); [done|].
  destruct (size_step_spec n2 m2 XFEATURE_ZMM_HI256 XSAVE_ZMM_HI256_SIZE (zmm_hi256_off o)) as (n3&m3&->&Hb3&Ho3&Hn3); [done|].
  destruct (size_step_spec n3 m3 XFEATURE_HI16_ZMM XSAVE_HI16_ZMM_SIZE (hi16_zmm_off o)) as (n4&m4&->&Hb4&Ho4&Hn4); [done|].
  exists n4, m4. split; [done|].
  assert (H2 : Z.testbit m4 XFEATURE_YMM = present o xs XFEATURE_YMM).
  { rewrite Ho4, Ho3, Ho2, Hb1 by done. done. }
  assert (H5 : Z.testbit m4 XFEATURE_OPMASK = present o xs XFEATURE_OPMASK).
  { rewrite Ho4, Ho3, Hb2, Ho1 by done. done. }
  assert (H6 : Z.testbit m4 XFEATURE_ZMM_HI256 = present o xs XFEATURE_ZMM_HI256).
  { rewrite Ho4, Hb3, Ho2, Ho1 by done. done. }
  assert (H7 : Z.testbit m4 XFEATURE_HI16_ZMM = present o xs XFEATURE_HI16_ZMM).
  { rewrite Hb4, Ho3, Ho2, Ho1 by done. done. }
  split.
  - intros f Hf.
    repeat (apply elem_of_cons in Hf as [->|Hf]; [rewrite has_feature_testbit by done; try done|]);
      [|by apply elem_of_nil in Hf].
    rewrite Ho4, Ho3, Ho2, Ho1 by done. unfold present. by rewrite andb_true_r.
  - rewrite Hn4, Hn3, Hn2, Hn1. unfold complete. rewrite <- H2, <- H5, <- H6, <- H7.
    rewrite (Ho4 XFEATURE_YMM), (Ho3 XFEATURE_YMM), (Ho2 XFEATURE_YMM) by done.
    rewrite (Ho4 XFEATURE_OPMASK), (Ho3 XFEATURE_OPMASK) by done. rewrite (Ho4 XFEATURE_ZMM_HI256) by done.
    unfold n0. tauto.
Qed.

(** What must hold of the offsets that the processor reports. *)
Definition offsets_ok (o : Offsets) : Prop :=
  0 <= ymm_off o /\ 0 <= opmask_off o /\ 0 <= zmm_hi256_off o /\ 0 <= hi16_zmm_off o.

Ltac load := unfold SCALAR_COUNT, MXCSR_IDX, OPMASK_START, ZMM_START, ZMM_STRIDE, ZMM_COUNT, OPMASK_COUNT in *.

Section Loaders.
  Context {E : Type} (o : Offsets) (xs : list Z).

Lemma load_xmm_fills :
  XSAVE_PREFIX_SIZE <= zlen xs ->
  fills (E:=E) (load_xmm xs) 16 0 8 2 (fun i j => word xs (160 + i * 16 + 8 * j)) 1.
Proof.
  intros Hlen i r Hi Ha. unfold load_xmm, XSAVE_XMM_OFFSET, XSAVE_PREFIX_SIZE in *.
  rewrite words_at_ok by lia. simpl. unfold xmm, zmm, ZMM_COUNT. rewrite (proj2 (Z.ltb_lt i 32)) by lia. simpl.
  unfold extra_set, mask_idx. cbn [start len]. unfold OPMASK_START, ZMM_START, ZMM_STRIDE, ZMM_COUNT.
  replace ((0 <=? 0 + 8 * i) && (0 + 8 * i <? 0 + 8 * 32)) with true by lia. simpl.
  rewrite zslice_ok by (rewrite ?Ha; unfold SCALAR_COUNT, MXCSR_IDX, OPMASK_START, ZMM_START, ZMM_STRIDE, ZMM_COUNT, OPMASK_COUNT; lia).
  done.
Qed.

(** Writing words without touching the mask. *)
Lemma put_ok r i v :
  zlen (a r) = SCALAR_COUNT -> 0 <= i -> i + zlen v <= SCALAR_COUNT ->
  put (E:=E) r i v = Ret (mkExtra (write_at (a r) i v) (Z.lor (emask r) 0) (edubious_mask r) (eerror r)).
Proof.
  intros Ha Hi Hle. pose proof (zlen_nonneg v). unfold put. rewrite zslice_ok by lia. simpl. by rewrite Z.lor_0_r.
Qed.

Lemma load_ymm_fills :
  0 < ymm_off o -> ymm_off o + XSAVE_YMM_SIZE <= zlen xs ->
  fills (E:=E) (load_ymm o xs) 16 2 8 2 (fun i j => word xs (ymm_off o + i * 16 + 8 * j)) 0.
Proof.
  unfold XSAVE_YMM_SIZE. intros Ho Hlen i r Hi Ha. unfold load_ymm, cached.
  rewrite (proj2 (Z.eqb_neq (ymm_off o) 0)) by lia. cbn [lift_opt mbind outcome_bind].
  unfold ymm, zmm, ZMM_COUNT. rewrite (proj2 (Z.ltb_lt i 32)) by lia. cbn [rassert mbind outcome_bind start].
  rewrite words_at_ok by lia. simpl. rewrite put_ok.
  - load. replace (0 + 8 * i + 2) with (2 + 8 * i) by lia. done.
  - done.
  - load. lia.
  - unfold zlen. simpl. load. lia.
Qed.

Lemma load_opmask_fills :
  0 < opmask_off o -> opmask_off o + XSAVE_OPMASK_SIZE <= zlen xs ->
  fills (E:=E) (load_opmask o xs) 8 256 1 1 (fun i j => word xs (opmask_off o + i * 8 + 8 * j)) 2.
Proof.
  unfold XSAVE_OPMASK_SIZE. intros Ho Hlen i r Hi Ha. unfold load_opmask, cached.
  rewrite (proj2 (Z.eqb_neq (opmask_off o) 0)) by lia. cbn [lift_opt mbind outcome_bind].
  rewrite words_at_ok by lia. cbn [mbind outcome_bind].
  unfold opmask_element, OPMASK_COUNT. rewrite (proj2 (Z.ltb_lt i 8)) by lia. simpl.
  unfold extra_set, mask_idx. cbn [start len]. load.
  replace ((0 <=? 0 + 8 * 32 + i) && (0 + 8 * 32 + i <? 0 + 8 * 32)) with false by lia.
  replace ((0 + 8 * 32 <=? 0 + 8 * 32 + i) && (0 + 8 * 32 + i <? 0 + 8 * 32 + 8)) with true by lia. simpl.
  rewrite zslice_ok by (rewrite ?Ha; lia). simpl.
  replace (256 + 1 * i) with (256 + i) by lia. rewrite Z.add_0_r. done.
Qed.

Lemma load_zmm_hi256_fills :
  0 < zmm_hi256_off o -> zmm_hi256_off o + XSAVE_ZMM_HI256_SIZE <= zlen xs ->
  fills (E:=E) (load_zmm_hi256 o xs) 16 4 8 4 (fun i j => word xs (zmm_hi256_off o + i * 32 + 8 * j)) 0.
Proof.
  unfold XSAVE_ZMM_HI256_SIZE. intros Ho Hlen i r Hi Ha. unfold load_zmm_hi256, cached.
  rewrite (proj2 (Z.eqb_neq (zmm_hi256_off o) 0)) by lia. cbn [lift_opt mbind outcome_bind].
  unfold zmm, ZMM_COUNT. rewrite (proj2 (Z.ltb_lt i 32)) by lia. cbn [rassert mbind outcome_bind start].
  rewrite words_at_ok by lia. simpl. rewrite put_ok.
  - load. replace (0 + 8 * i + 4) with (4 + 8 * i) by lia. done.
  - done.
  - load. lia.
  - unfold zlen. simpl. load. lia.
Qed.

Lemma load_hi16_zmm_fills :
  0 < hi16_zmm_off o -> hi16_zmm_off o + XSAVE_HI16_ZMM_SIZE <= zlen xs ->
  fills (E:=E) (load_hi16_zmm o xs) 16 128 8 8 (fun i j => word xs (hi16_zmm_off o + i * 64 + 8 * j)) 0.
Proof.
  unfold XSAVE_HI16_ZMM_SIZE. intros Ho Hlen i r Hi Ha. unfold load_hi16_zmm, cached.
  rewrite (proj2 (Z.eqb_neq (hi16_zmm_off o) 0)) by lia. cbn [lift_opt mbind outcome_bind].
  unfold zmm, ZMM_COUNT. rewrite (proj2 (Z.ltb_lt (16 + i) 32)) by lia. cbn [rassert mbind outcome_bind start].
  rewrite words_at_ok by lia. simpl. rewrite put_ok.
  - load. replace (0 + 8 * (16 + i)) with (128 + 8 * i) by lia. done.
  - done.
  - load. lia.
  - unfold zlen. simpl. load. lia.
Qed.
End Loaders.

(** ** Properties *)

Section Properties.
  Context (o : Offsets).

(** Word [k] of the register array: registers zmm0-15 from three components,
    zmm16-31, the mask registers, and mxcsr. *)
Definition expected (xs : list Z) (k : Z) : Z :=
  if k <? 128 then
    let i := k / 8 in let j := k mod 8 in
    if j <? 2 then (if present o xs XFEATURE_SSE then word xs (160 + i * 16 + 8 * j) else 0)
    else if j <? 4 then (if present o xs XFEATURE_YMM then word xs (ymm_off o + i * 16 + 8 * (j - 2)) else 0)
    else (if present o xs XFEATURE_ZMM_HI256 then word xs (zmm_hi256_off o + i * 32 + 8 * (j - 4)) else 0)
  else if k <? 256 then
    let i := (k - 128) / 8 in let j := (k - 128) mod 8 in
    if present o xs XFEATURE_HI16_ZMM then word xs (hi16_zmm_off o + i * 64 + 8 * j) else 0
  else if k <? 264 then (if present o xs XFEATURE_OPMASK then word xs (opmask_off o + (k - 256) * 8) else 0)
  else le_value (take 4 (drop 24 xs)).

Lemma when_fills {E} b (f : Z -> ExtraRegisters -> outcome E ExtraRegisters) n base stride c W mb r :
  (b = true -> fills f n base stride c W mb) -> 0 <= base -> 0 < c <= stride -> base + stride * n <= SCALAR_COUNT ->
  zlen (a r) = SCALAR_COUNT -> 0 < n ->
  exists r', when b (each (seqZ 0 n) f) r = Ret r' /\ zlen (a r') = SCALAR_COUNT /\
    emask r' = (if b then Z.lor (emask r) mb else emask r) /\ eerror r' = eerror r /\
    forall x, zget (a r') x = if b then filled n base stride c W (zget (a r) x) x else zget (a r) x.
Proof.
  intros Hf Hb Hc Hfit Hlen Hn. destruct b; [|by exists r].
  destruct (each_fills_all f n base stride c W mb r (Hf eq_refl) Hb Hc Hfit Hlen Hn) as (r'&?&?&?&?&?&?). by exists r'.
Qed.

Lemma feature_offset_pos xs feat (Ho : offsets_ok o) :
  present o xs feat = true ->
  (feat = XFEATURE_YMM -> 0 < ymm_off o) /\ (feat = XFEATURE_OPMASK -> 0 < opmask_off o) /\
  (feat = XFEATURE_ZMM_HI256 -> 0 < zmm_hi256_off o) /\ (feat = XFEATURE_HI16_ZMM -> 0 < hi16_zmm_off o).
Proof.
  unfold present, offsets_ok in *. intros [_ H]%andb_true_iff.
  repeat split; intros ->; cbn in H; lia.
Qed.

(** The six layers of the load, seen at one word. *)
Lemma expected_layers xs k :
  0 <= k < 265 ->
  (let v0 := if k =? 264 then Some (le_value (take 4 (drop 24 xs))) else zget (replicate 265 0) k in
   let v1 := if present o xs XFEATURE_SSE then filled 16 0 8 2 (fun i j => word xs (160 + i * 16 + 8 * j)) v0 k else v0 in
   let v2 := if present o xs XFEATURE_YMM then filled 16 2 8 2 (fun i j => word xs (ymm_off o + i * 16 + 8 * j)) v1 k else v1 in
   let v3 := if present o xs XFEATURE_OPMASK then filled 8 256 1 1 (fun i j => word xs (opmask_off o + i * 8 + 8 * j)) v2 k else v2 in
   let v4 := if present o xs XFEATURE_ZMM_HI256 then filled 16 4 8 4 (fun i j => word xs (zmm_hi256_off o + i * 32 + 8 * j)) v3 k else v3 in
   if present o xs XFEATURE_HI16_ZMM then filled 16 128 8 8 (fun i j => word xs (hi16_zmm_off o + i * 64 + 8 * j)) v4 k else v4)
  = Some (expected xs k).
Proof.
  intros Hk. cbv zeta. unfold filled, expected.
  assert (Hz : k <> 264 -> zget (replicate 265 0) k = Some 0).
  { intros Hne. rewrite zget_lookup by lia. apply lookup_replicate. split; [done|]. lia. }
  destruct (Z.ltb_spec k 128) as [Hlow|Hge].
  - rewrite (proj2 (Z.eqb_neq k 264)), Hz by lia.
    replace ((128 <=? k) && (k <? 128 + 8 * 16) && ((k - 128) mod 8 <? 8)) with false by lia.
    replace ((256 <=? k) && (k <? 256 + 1 * 8) && ((k - 256) mod 1 <? 1)) with false by lia.
    assert (Hj : 0 <= k mod 8 < 8 /\ k = 8 * (k / 8) + k mod 8) by (Z.div_mod_to_equations; lia).
    destruct (Z.ltb_spec (k mod 8) 2) as [H2|H2]; [|destruct (Z.ltb_spec (k mod 8) 4) as [H4|H4]].
    + replace ((4 <=? k) && (k <? 4 + 8 * 16) && ((k - 4) mod 8 <? 4)) with false by (Z.div_mod_to_equations; lia).
      replace ((2 <=? k) && (k <? 2 + 8 * 16) && ((k - 2) mod 8 <? 2)) with false by (Z.div_mod_to_equations; lia).
      replace ((0 <=? k) && (k <? 0 + 8 * 16) && ((k - 0) mod 8 <? 2)) with true by (Z.div_mod_to_equations; lia).
      rewrite Z.sub_0_r. by repeat case_match.
    + replace ((4 <=? k) && (k <? 4 + 8 * 16) && ((k - 4) mod 8 <? 4)) with false by (Z.div_mod_to_equations; lia).
      replace ((2 <=? k) && (k <? 2 + 8 * 16) && ((k - 2) mod 8 <? 2)) with true by (Z.div_mod_to_equations; lia).
      replace ((0 <=? k) && (k <? 0 + 8 * 16) && ((k - 0) mod 8 <? 2)) with false by (Z.div_mod_to_equations; lia).
      replace ((k - 2) / 8) with (k / 8) by (Z.div_mod_to_equations; lia).
      replace ((k - 2) mod 8) with (k mod 8 - 2) by (Z.div_mod_to_equations; lia). by repeat case_match.
    + replace ((4 <=? k) && (k <? 4 + 8 * 16) && ((k - 4) mod 8 <? 4)) with true by (Z.div_mod_to_equations; lia).
      replace ((2 <=? k) && (k <? 2 + 8 * 16) && ((k - 2) mod 8 <? 2)) with false by (Z.div_mod_to_equations; lia).
      replace ((0 <=? k) && (k <? 0 + 8 * 16) && ((k - 0) mod 8 <? 2)) with false by (Z.div_mod_to_equations; lia).
      replace ((k - 4) / 8) with (k / 8) by (Z.div_mod_to_equations; lia).
      replace ((k - 4) mod 8) with (k mod 8 - 4) by (Z.div_mod_to_equations; lia). by repeat case_match.
  - replace ((4 <=? k) && (k <? 4 + 8 * 16) && ((k - 4) mod 8 <? 4)) with false by (Z.div_mod_to_equations; lia).
    replace ((2 <=? k) && (k <? 2 + 8 * 16) && ((k - 2) mod 8 <? 2)) with false by (Z.div_mod_to_equations; lia).
    replace ((0 <=? k) && (k <? 0 + 8 * 16) && ((k - 0) mod 8 <? 2)) with false by lia.
    destruct (Z.ltb_spec k 256) as [Hmid|Hge2].
    + rewrite (proj2 (Z.eqb_neq k 264)), Hz by lia.
      replace ((256 <=? k) && (k <? 256 + 1 * 8) && ((k - 256) mod 1 <? 1)) with false by lia.
      replace ((128 <=? k) && (k <? 128 + 8 * 16) && ((k - 128) mod 8 <? 8)) with true by (Z.div_mod_to_equations; lia).
      by repeat case_match.
    + replace ((128 <=? k) && (k <? 128 + 8 * 16) && ((k - 128) mod 8 <? 8)) with false by lia.
      destruct (Z.ltb_spec k 264) as [Hop|Hmx].
      * rewrite (proj2 (Z.eqb_neq k 264)), Hz by lia.
        replace ((256 <=? k) && (k <? 256 + 1 * 8) && ((k - 256) mod 1 <? 1)) with true by (rewrite Z.mod_1_r; lia).
        rewrite Z.mod_1_r, Z.div_1_r, Z.mul_0_r, Z.add_0_r. by repeat case_match.
      * rewrite (proj2 (Z.eqb_eq k 264)) by lia.
        replace ((256 <=? k) && (k <? 256 + 1 * 8) && ((k - 256) mod 1 <? 1)) with false by lia.
        by repeat case_match.
Qed.

Lemma load_mxcsr_ok {E} xs :
  XSAVE_PREFIX_SIZE <= zlen xs ->
  exists r, load_mxcsr (E:=E) xs extra_default = Ret r /\ zlen (a r) = SCALAR_COUNT /\ emask r = 4 /\
    eerror r = None /\
    forall k, zget (a r) k = if k =? 264 then Some (le_value (take 4 (drop 24 xs))) else zget (replicate 265 0) k.
Proof.
  intros Hlen. unfold load_mxcsr, XSAVE_MXCSR_OFFSET, XSAVE_PREFIX_SIZE in *. rewrite zslice_ok by lia.
  eexists. split; [reflexivity|]. split; [reflexivity|]. split; [reflexivity|]. split; [reflexivity|].
  intros k. cbn [a]. rewrite zget_write_at by (vm_compute; done).
  change (zlen [_]) with 1. change (start mxcsr) with 264. change (a extra_default) with (replicate 265 0).
  destruct (Z.eqb_spec k 264) as [->|Hne]; [done|].
  by replace ((264 <=? k) && (k <? 264 + 1)) with false by lia.
Qed.

(** C32. Loading vector registers: from a complete XSAVE area, every word of the
    register array is the word that the architecture assigns to it (zero for
    components the area lacks), a register group is marked as known exactly when
    the area has it, and nothing panics; from an incomplete or compacted area
    the result is an error and no register is known. *)
Theorem from_xsave_correct xs :
  offsets_ok o ->
  exists r, from_xsave o xs = Ret r /\
    (complete o xs -> eerror r = None /\
      (forall k, 0 <= k < SCALAR_COUNT -> zget (a r) k = Some (expected xs k)) /\
      (forall n, 0 <= n < 32 -> extra_has (E:=Error) r (mkIdx (8 * n) 8) = Ret (present o xs XFEATURE_SSE)) /\
      extra_has (E:=Error) r opmask = Ret (present o xs XFEATURE_OPMASK) /\
      extra_has (E:=Error) r mxcsr = Ret true) /\
    (~ complete o xs -> is_Some (eerror r) /\ emask r = 0).
Proof.
  intros Ho. unfold from_xsave.
  destruct (decide (XSAVE_PREFIX_SIZE <= zlen xs)) as [Hlen|Hlen].
  2:{ unfold calculate_xsave_full_size. rewrite (proj2 (Z.ltb_lt _ _)) by lia. eexists. split; [done|].
      split; [intros [? _]; lia|]. intros _. split; [by eexists|done]. }
  destruct (decide (word xs 520 = 0)) as [Hx|Hx].
  2:{ destruct (calculate_compacted o xs Hx) as [e ->]. eexists. split; [done|].
      split; [by intros (_&?&_)|]. intros _. split; [by eexists|done]. }
  destruct (calculate_spec o xs Hlen Hx) as (n&m&->&Hfeat&Hn).
  destruct (Z.ltb_spec (zlen xs) n) as [Hshort|Hfull].
  { eexists. split; [done|]. split; [intros ?%Hn; lia|]. intros _. split; [by eexists|done]. }
  apply Hn in Hfull as Hcomp. clear Hn. rewrite !Hfeat by set_solver. clear Hfeat.
  pose proof Hcomp as (_&_&Hc2&Hc5&Hc6&Hc7).
  destruct (load_mxcsr_ok (E:=Empty_set) xs Hlen) as (r0&->&Hl0&Hm0&He0&Hx0). cbn [mbind outcome_bind].
  destruct (when_fills (E:=Empty_set) (present o xs XFEATURE_SSE) (load_xmm xs) 16 0 8 2 _ 1 r0
    (fun _ => load_xmm_fills xs Hlen)) as (r1&->&Hl1&Hm1&He1&Hx1); [lia|lia|done|done|lia|]. cbn [mbind outcome_bind].
  destruct (when_fills (E:=Empty_set) (present o xs XFEATURE_YMM) (load_ymm o xs) 16 2 8 2 _ 0 r1
    (fun H => load_ymm_fills o xs (proj1 (feature_offset_pos xs _ Ho H) eq_refl) (Hc2 H)))
    as (r2&->&Hl2&Hm2&He2&Hx2); [lia|lia|done|done|lia|]. cbn [mbind outcome_bind].
  destruct (when_fills (E:=Empty_set) (present o xs XFEATURE_OPMASK) (load_opmask o xs) 8 256 1 1 _ 2 r2
    (fun H => load_opmask_fills o xs (proj1 (proj2 (feature_offset_pos xs _ Ho H)) eq_refl) (Hc5 H)))
    as (r3&->&Hl3&Hm3&He3&Hx3); [lia|lia|done|done|lia|]. cbn [mbind outcome_bind].
  destruct (when_fills (E:=Empty_set) (present o xs XFEATURE_ZMM_HI256) (load_zmm_hi256 o xs) 16 4 8 4 _ 0 r3
    (fun H => load_zmm_hi256_fills o xs (proj1 (proj2 (proj2 (feature_offset_pos xs _ Ho H))) eq_refl) (Hc6 H)))
    as (r4&->&Hl4&Hm4&He4&Hx4); [lia|lia|done|done|lia|]. cbn [mbind outcome_bind].
  destruct (when_fills (E:=Empty_set) (present o xs XFEATURE_HI16_ZMM) (load_hi16_zmm o xs) 16 128 8 8 _ 0 r4
    (fun H => load_hi16_zmm_fills o xs (proj2 (proj2 (proj2 (feature_offset_pos xs _ Ho H))) eq_refl) (Hc7 H)))
    as (r5&->&Hl5&Hm5&He5&Hx5); [lia|lia|done|done|lia|].
  exists r5. split; [done|]. split; [intros _|by intros []]. split; [congruence|]. split; [|].
  - intros k Hk. rewrite Hx5, Hx4, Hx3, Hx2, Hx1, Hx0. change SCALAR_COUNT with 265 in Hk.
    apply expected_layers. lia.
  - assert (Hm : emask r5 = Z.lor (Z.lor 4 (if present o xs XFEATURE_SSE then 1 else 0))
      (if present o xs XFEATURE_OPMASK then 2 else 0)).
    { rewrite Hm5, Hm4, Hm3, Hm2, Hm1, Hm0, !Z.lor_0_r. by repeat case_match. }
    unfold extra_has. rewrite Hm. split; [|split].
    + intros i Hi. unfold mask_idx. cbn [start]. load. replace ((0 <=? 8 * i) && (8 * i <? 0 + 8 * 32)) with true by lia.
      simpl. by repeat case_match.
    + simpl. by repeat case_match.
    + simpl. by repeat case_match.
Qed.
End Properties.

(** An AVX machine: the upper halves at 576; the area has both SSE and AVX. *)
Definition avx_offsets : Offsets := mkOffsets 576 0 0 0.
Definition sample_area (xstate_bv : Z) : list Z :=
  map (fun i => i mod 256) (seqZ 0 512) ++ xstate_bv :: replicate 63 0 ++ map (fun i => (i + 7) mod 256) (seqZ 0 256).

Lemma sample_area_complete m : 0 <= m < 8 -> complete avx_offsets (sample_area m).
Proof.
  intros Hm. assert (m = 0 \/ m = 1 \/ m = 2 \/ m = 3 \/ m = 4 \/ m = 5 \/ m = 6 \/ m = 7) as Hc by lia.
  destruct Hc as [->|[->|[->|[->|[->|[->|[->| ->]]]]]]]; repeat split; vm_compute; try discriminate; done.
Qed.

Lemma from_xsave_correct_witness :
  exists r, from_xsave avx_offsets (sample_area 7) = Ret r /\ eerror r = None /\
    zget (a r) 10 = Some (expected avx_offsets (sample_area 7) 10) /\
    expected avx_offsets (sample_area 7) 10 <> 0.
Proof.
  destruct (from_xsave_correct avx_offsets (sample_area 7)) as (r&Hr&Hc&_); [repeat split; cbn; lia|].
  destruct (Hc (sample_area_complete 7 ltac:(lia))) as (He&Ha&_).
  exists r. split; [exact Hr|]. split; [exact He|]. split; [apply Ha; by split|].
  vm_compute. discriminate.
Defined.

(** When the SSE component of an XSAVE area is in its initial state but the
    upper halves of the ymm registers are not (the processor then omits the
    former only), the upper halves are loaded and yet every xmm, ymm and zmm
    register is reported as unknown. *)
Theorem ymm_without_sse_unknown o xs r n l :
  offsets_ok o -> complete o xs -> from_xsave o xs = Ret r ->
  present o xs XFEATURE_YMM = true -> present o xs XFEATURE_SSE = false ->
  0 <= n < 16 -> l ∈ [2; 4; 8] ->
  zget (a r) (8 * n + 2) = Some (word xs (ymm_off o + n * 16)) /\
  extra_get r (mkIdx (8 * n) l) = Fail (Code Errors.ProcessState).
Proof.
  intros Ho Hc Hr Hy Hs Hn Hl. destruct (from_xsave_correct o xs Ho) as (r'&Hr'&Hcomp&_).
  rewrite Hr in Hr'. injection Hr' as <-. destruct (Hcomp Hc) as (He&Ha&Hh&_). split.
  - rewrite Ha by (load; lia). unfold expected. rewrite (proj2 (Z.ltb_lt _ 128)) by lia.
    replace ((8 * n + 2) mod 8) with 2 by (Z.div_mod_to_equations; lia).
    replace ((8 * n + 2) / 8) with n by (Z.div_mod_to_equations; lia).
    cbn [Z.ltb Z.compare Pos.compare Pos.compare_cont]. rewrite Hy. do 2 f_equal. lia.
  - specialize (Hh n ltac:(lia)). rewrite Hs in Hh. unfold extra_get.
    assert (Hh' : extra_has (E:=Error) r (mkIdx (8 * n) l) = Ret false) by exact Hh.
    rewrite Hh'. simpl. by rewrite He.
Qed.

Lemma ymm_without_sse_unknown_witness :
  exists r, from_xsave avx_offsets (sample_area 5) = Ret r /\
    extra_get r (mkIdx 8 4) = Fail (Code Errors.ProcessState).
Proof.
  destruct (from_xsave_correct avx_offsets (sample_area 5)) as (r&Hr&_&_); [repeat split; cbn; lia|].
  exists r. split; [exact Hr|].
  refine (proj2 (ymm_without_sse_unknown avx_offsets (sample_area 5) r 1 4 _ _ Hr _ _ _ _)).
  - repeat split; cbn; lia.
  - apply sample_area_complete. lia.
  - reflexivity.
  - reflexivity.
  - lia.
  - right. left.
Defined.
