(* ===== verification/GdbRemote.v ===== *)
(** The GDB remote protocol client of src/gdb_remote.rs: connection state,
    request/reply discipline, memory transfer and stop replies.

    The socket is the environment: a script of what the successive [read] calls
    return (a time-out once it is used up), a script of the results of the
    write calls, and a script of the deadline tests of [try_wait_stop]. *)
From Stdlib Require Import ZArith Lia String.
From stdpp Require Import base list sets.
From S2P Require Import Prelude GdbProto RustStr.
Open Scope Z_scope.

(** ** Data *)

Inductive IoKind := WouldBlock | TimedOut | InvalidInput | OtherIo.
#[export] Instance IoKind_eq_dec : EqDecision IoKind.
Proof. solve_decision. Defined.

(** Messages are not modelled. *)
Inductive GdbError :=
  | Io (e : IoKind)
  | Protocol
  | Unsupported.

Inductive StopKind :=
  | Signal (sig : Z)
  | SwBreak
  | HwBreak
  | Watch (write read : bool) (addr : option Z)
  | Other (s : list Z).

Record StopInfo := mkStopInfo {
  thread : option Z;
  stop_kind : StopKind;
  raw : list Z
}.

(** What one [read] call on the socket returns; no bytes is end of file. *)
Inductive ReadEvent :=
  | ReadBytes (b : list Z)
  | ReadErr (e : IoKind).

(** The socket and the clock. *)
Record TcpStream := mkStream {
  reads : list ReadEvent;
  write_results : list (option IoKind);   (* used up: success *)
  deadline_tests : list bool;             (* used up: the deadline has passed *)
  read_timeout : option Z;                (* milliseconds *)
  sent : list Z                           (* every byte written so far *)
}.

Record GdbRemote := mkRemote {
  stream : TcpStream;
  decoder : Decoder;
  r_no_ack : bool;
  packet_size : Z;
  qsupported : list Z;
  pending : list Decoded;
  orphan_replies : list (list Z);
  resume_in_flight : bool
}.

(** ** Fallible state transformers *)

Definition M (A : Type) : Type := GdbRemote -> outcome GdbError A * GdbRemote.
#[export] Instance M_ret : MRet M := fun A a st => (Ret a, st).
#[export] Instance M_bind : MBind M := fun A B f m st =>
  match m st with
  | (Ret a, st) => f a st
  | (Fail e, st) => (Fail e, st)
  | (Panic, st) => (Panic, st)
  end.

Definition fail {A} (e : GdbError) : M A := fun st => (Fail e, st).
Definition panic {A} : M A := fun st => (Panic, st).
Definition gets {A} (f : GdbRemote -> A) : M A := fun st => (Ret (f st), st).
Definition modify (f : GdbRemote -> GdbRemote) : M unit := fun st => (Ret tt, f st).
Definition lift {A} (o : outcome GdbError A) : M A := fun st => (o, st).
(** [match m { Ok(..) => .., Err(..) => .. }] *)
Definition attempt {A} (m : M A) : M (A + GdbError) := fun st =>
  match m st with
  | (Ret a, st) => (Ret (inl a), st)
  | (Fail e, st) => (Ret (inr e), st)
  | (Panic, st) => (Panic, st)
  end.

Definition set_stream (s : TcpStream) (st : GdbRemote) : GdbRemote :=
  mkRemote s (decoder st) (r_no_ack st) (packet_size st) (qsupported st) (pending st)
    (orphan_replies st) (resume_in_flight st).
Definition set_decoder (d : Decoder) (st : GdbRemote) : GdbRemote :=
  mkRemote (stream st) d (r_no_ack st) (packet_size st) (qsupported st) (pending st)
    (orphan_replies st) (resume_in_flight st).
Definition set_r_no_ack (b : bool) (st : GdbRemote) : GdbRemote :=
  mkRemote (stream st) (decoder st) b (packet_size st) (qsupported st) (pending st)
    (orphan_replies st) (resume_in_flight st).
Definition set_packet_size (n : Z) (st : GdbRemote) : GdbRemote :=
  mkRemote (stream st) (decoder st) (r_no_ack st) n (qsupported st) (pending st)
    (orphan_replies st) (resume_in_flight st).
Definition set_qsupported (q : list Z) (st : GdbRemote) : GdbRemote :=
  mkRemote (stream st) (decoder st) (r_no_ack st) (packet_size st) q (pending st)
    (orphan_replies st) (resume_in_flight st).
Definition set_pending (p : list Decoded) (st : GdbRemote) : GdbRemote :=
  mkRemote (stream st) (decoder st) (r_no_ack st) (packet_size st) (qsupported st) p
    (orphan_replies st) (resume_in_flight st).
Definition set_orphan_replies (o : list (list Z)) (st : GdbRemote) : GdbRemote :=
  mkRemote (stream st) (decoder st) (r_no_ack st) (packet_size st) (qsupported st) (pending st)
    o (resume_in_flight st).
Definition set_resume_in_flight (b : bool) (st : GdbRemote) : GdbRemote :=
  mkRemote (stream st) (decoder st) (r_no_ack st) (packet_size st) (qsupported st) (pending st)
    (orphan_replies st) b.

(** ** The socket *)

Definition tcp_read : M (list Z) := fun st =>
  let s := stream st in
  let rest r := set_stream (mkStream r (write_results s) (deadline_tests s) (read_timeout s) (sent s)) st in
  match reads s with
  | [] => (Fail (Io TimedOut), st)
  | ReadBytes b :: r => (Ret b, rest r)
  | ReadErr e :: r => (Fail (Io e), rest r)
  end.

(** [write_all] followed by [flush], which does nothing on a TCP stream. *)
Definition write_all (b : list Z) : M unit := fun st =>
  let s := stream st in
  let after w out := set_stream (mkStream (reads s) w (deadline_tests s) (read_timeout s) out) st in
  match write_results s with
  | [] => (Ret tt, after [] (sent s ++ b))
  | None :: w => (Ret tt, after w (sent s ++ b))
  | Some e :: w => (Fail (Io e), after w (sent s))
  end.

(** A zero time-out is refused. *)
Definition set_read_timeout (t : option Z) : M unit := fun st =>
  let s := stream st in
  if bool_decide (t = Some 0) then (Fail (Io InvalidInput), st)
  else (Ret tt, set_stream (mkStream (reads s) (write_results s) (deadline_tests s) t (sent s)) st).

(** [Instant::now() >= deadline] *)
Definition deadline_passed : M bool := fun st =>
  let s := stream st in
  match deadline_tests s with
  | [] => (Ret true, st)
  | b :: d => (Ret b, set_stream (mkStream (reads s) (write_results s) d (read_timeout s) (sent s)) st)
  end.

(** Loops are bounded by what the environment can still deliver: every decoded
    event that is pending or may yet be decoded, every stashed reply, every
    read call and every deadline test. *)
Definition event_bytes (e : ReadEvent) : nat :=
  match e with ReadBytes b => length b | ReadErr _ => 0 end.
Definition total_bytes (l : list ReadEvent) : nat := sum_list_with event_bytes l.
Definition budget (st : GdbRemote) : nat :=
  (length (pending st) + length (orphan_replies st) + total_bytes (reads (stream st))
   + length (reads (stream st)) + length (deadline_tests (stream st)))%nat.

(** A loop whose body is run with the rest of the loop. *)
Fixpoint loop {A B} (body : (B -> M A) -> B -> M A) (fuel : nat) (b : B) : M A :=
  match fuel with
  | O => panic
  | S fuel => body (loop body fuel) b
  end.
Definition run_loop {A B} (body : (B -> M A) -> B -> M A) (b : B) : M A := fun st =>
  loop body (S (S (budget st))) b st.

(** ** Encodings *)

(** [format!("{:02x}", b)] for each byte. *)
Definition hex_encode (data : list Z) : list Z :=
  flat_map (fun b => [hex_digit (Z.shiftr b 4); hex_digit (Z.land b 15)]) data.

Definition hex_nibble (c : Z) : outcome GdbError Z :=
  match hex_val c with Some n => Ret n | None => Fail Protocol end.

(** The loop of [hex_decode] over pairs of digits. *)
Fixpoint hex_decode_loop (s : list Z) : outcome GdbError (list Z) :=
  match s with
  | [] => Ret []
  | [_] => Panic
  | c0 :: c1 :: s =>
      hi ← hex_nibble c0;
      lo ← hex_nibble c1;
      out ← hex_decode_loop s;
      Ret (Z.lor (wrap8 (Z.shiftl hi 4)) lo :: out)
  end.
Definition hex_decode (s : list Z) : outcome GdbError (list Z) :=
  if negb (zlen s mod 2 =? 0) then Fail Protocol else hex_decode_loop s.

Definition parse_u64_hex (s : list Z) : outcome GdbError Z :=
  match from_str_radix_16 64 s with Some n => Ret n | None => Fail Protocol end.

Definition is_ascii_hexdigit (c : Z) : bool :=
  match hex_val c with Some _ => true | None => false end.

(** [hex_decode(std::str::from_utf8(body).unwrap_or(""))] when it is [Ok]. *)
Definition decode_qxfer_chunk (body : list Z) : partial (list Z) :=
  match body with
  | [] => Ret []
  | b0 :: _ =>
      if (b0 =? 60) || (b0 =? 32) || (b0 =? 10) || (b0 =? 63) then Ret body
      else if (zlen body mod 2 =? 0) && forallb is_ascii_hexdigit body then
        match hex_decode (if from_utf8 body then body else []) with
        | Ret v => Ret v
        | Fail _ => Ret body
        | Panic => Panic
        end
      else Ret body
  end.

Definition parse_packet_size (qsupported : list Z) : option Z :=
  (fix go (parts : list (list Z)) : option Z :=
     match parts with
     | [] => None
     | part :: parts =>
         match strip_prefix (str "PacketSize=") part with
         | Some sz => match from_str_radix_16 64 sz with
                      | Some n => Some n
                      | None => go parts
                      end
         | None => go parts
         end
     end) (split_on 59 qsupported).

(** One [;name:value] field of a stop reply: the thread, the stop kind and the
    [specific] flag after it. *)
Definition parse_stop_field (field : list Z) (acc : option Z * StopKind * bool)
  : outcome GdbError (option Z * StopKind * bool) :=
  let '(thread, kind, specific) := acc in
  let '(name, value) :=
    match split_once 58 field with
    | Some (n, v) => (n, Some v)
    | None => (field, None)
    end in
  if bytes_eqb name (str "thread") then
    match value with
    | Some v =>
        let t := default v (rsplit_first 46 v) in
        let t := default t (strip_prefix [MINUS] t) in
        if bytes_eqb t (str "0") || bytes_eqb t (str "-1") then Ret acc
        else n ← parse_u64_hex t; Ret (Some n, kind, specific)
    | None => Ret acc
    end
  else if bytes_eqb name (str "swbreak") then Ret (thread, SwBreak, true)
  else if bytes_eqb name (str "hwbreak") then Ret (thread, HwBreak, true)
  else if bytes_eqb name (str "watch") || bytes_eqb name (str "rwatch") || bytes_eqb name (str "awatch") then
    let addr := match value with Some v => from_str_radix_16 64 v | None => None end in
    Ret (thread,
         Watch (negb (bytes_eqb name (str "rwatch"))) (negb (bytes_eqb name (str "watch"))) addr,
         true)
  else Ret acc.

Fixpoint parse_stop_fields (fields : list (list Z)) (acc : option Z * StopKind * bool)
  : outcome GdbError (option Z * StopKind * bool) :=
  match fields with
  | [] => Ret acc
  | f :: fields => acc ← parse_stop_field f acc; parse_stop_fields fields acc
  end.

(** [T] is 84 and [S] is 83. *)
Definition parse_stop_reply (packet : list Z) : outcome GdbError StopInfo :=
  let s := from_utf8_lossy packet in
  match s with
  | [] => Fail Protocol
  | b0 :: _ =>
      if negb (b0 =? 84) && negb (b0 =? 83) then Fail Protocol
      else if zlen s <? 3 then Fail Protocol
      else
        digits ← str_slice s 1 3;
        match from_str_radix_16 8 digits with
        | None => Fail Protocol
        | Some sig =>
            rest ← str_slice s 3 (zlen s);
            let fields := filter (fun f => f <> []) (split_on 59 rest) in
            '(thread, kind, specific) ← parse_stop_fields fields (None, Signal sig, false);
            let kind := if specific : bool then kind else Signal sig in
            Ret (mkStopInfo thread kind s)
        end
  end.

(** ** The connection *)

Definition connect (s : TcpStream) : GdbRemote :=
  mkRemote (mkStream (reads s) (write_results s) (deadline_tests s) (Some 5000) (sent s))
    Decoder_new false 16384 [] [] [] false.

Definition mark_resume_in_flight : M unit := modify (set_resume_in_flight true).

(** [T], [S], [W] or [X]. *)
Definition is_stop_byte (b : Z) : bool := (b =? 84) || (b =? 83) || (b =? 87) || (b =? 88).

Definition clear_resume_if_stop (payload : list Z) : M unit :=
  r ← gets resume_in_flight;
  if negb r then mret ()
  else if match payload with b :: _ => is_stop_byte b | [] => false end
       then modify (set_resume_in_flight false) else mret ().

Definition read_once : M unit :=
  b ← tcp_read;
  if zlen b =? 0 then fail Protocol
  else
    d ← gets decoder;
    '(out, d) ← lift (widen (feed d b));
    _ ← modify (set_decoder d);
    modify (fun st => set_pending (pending st ++ out) st).

Definition pop_pending : M (option Decoded) := fun st =>
  match pending st with
  | [] => (Ret None, st)
  | d :: p => (Ret (Some d), set_pending p st)
  end.

Definition is_timeout (e : GdbError) : bool :=
  match e with Io WouldBlock | Io TimedOut => true | _ => false end.

(** The loop of [drain_ready]; its result is a value, like the [break]s. *)
Definition drain_body (again : unit -> M (option GdbError)) (_ : unit) : M (option GdbError) :=
  r ← attempt read_once;
  match r with
  | inl _ => again tt
  | inr e => if is_timeout e then mret None else mret (Some e)
  end.
Definition drain_ready : M unit :=
  old ← gets (fun st => read_timeout (stream st));
  _ ← set_read_timeout (Some 50);
  result ← run_loop drain_body tt;
  _ ← set_read_timeout old;
  match result with None => mret () | Some e => fail e end.

Definition next_decoded_body (again : unit -> M Decoded) (_ : unit) : M Decoded :=
  d ← pop_pending;
  match d with
  | Some d => mret d
  | None => _ ← read_once; again tt
  end.
Definition next_decoded : M Decoded := run_loop next_decoded_body tt.

Definition ack_packet : M unit :=
  n ← gets r_no_ack;
  if negb n then write_all [PLUS] else mret ().

Definition wait_reply_body (again : unit -> M (list Z)) (_ : unit) : M (list Z) :=
  d ← next_decoded;
  match d with
  | Packet p => _ ← ack_packet; mret p
  | Ack | Nack | Interrupt => again tt
  end.
Definition pop_orphan : M (option (list Z)) := fun st =>
  match orphan_replies st with
  | [] => (Ret None, st)
  | p :: o => (Ret (Some p), set_orphan_replies o st)
  end.
Definition wait_reply : M (list Z) :=
  o ← pop_orphan;
  match o with
  | Some p => mret p
  | None => run_loop wait_reply_body tt
  end.

Definition send_packet (payload : list Z) : M (list Z) :=
  r ← gets resume_in_flight;
  if r : bool then fail Protocol
  else
    _ ← write_all (encode_packet payload);
    wait_reply.

(** Pops pending events up to and including the first packet. *)
Definition pop_packet_body (again : unit -> M (option (list Z))) (_ : unit) : M (option (list Z)) :=
  d ← pop_pending;
  match d with
  | Some (Packet p) => mret (Some p)
  | Some _ => again tt
  | None => mret None
  end.
Definition pop_packet : M (option (list Z)) := run_loop pop_packet_body tt.

Definition poll_packet (timeout : Z) : M (option (list Z)) :=
  o ← pop_packet;
  match o with
  | Some p => mret (Some p)
  | None =>
      old ← gets (fun st => read_timeout (stream st));
      _ ← set_read_timeout (Some timeout);
      result ← attempt (
        r ← attempt read_once;
        match r with
        | inl _ => pop_packet
        | inr e => if is_timeout e then mret None else fail e
        end);
      _ ← set_read_timeout old;
      match result with inl v => mret v | inr e => fail e end
  end.

(** ** Operations *)

Definition expect_OK (r : list Z) : M unit :=
  if negb (bytes_eqb r (str "OK")) then fail Protocol else mret ().

Definition handshake : M unit :=
  _ ← drain_ready;
  reply ← send_packet (str "qSupported:swbreak+;hwbreak+;qXfer:features:read+;QStartNoAckMode+");
  _ ← modify (set_qsupported (from_utf8_lossy reply));
  q ← gets qsupported;
  _ ← match parse_packet_size q with
      | Some sz => modify (set_packet_size sz)
      | None => mret ()
      end;
  _ ← (if contains (str "QStartNoAckMode") q then
         r ← send_packet (str "QStartNoAckMode");
         if bytes_eqb r (str "OK") then
           _ ← modify (set_r_no_ack true);
           modify (fun st => set_decoder (set_no_ack (decoder st) true) st)
         else mret ()
       else mret ());
  st ← send_packet (str "?");
  _ ← lift (parse_stop_reply st);
  mret ().

(** The loop state of [fetch_qxfer] is [(offset, out)]. *)
Definition fetch_qxfer_body (annex : list Z)
    (again : Z * list Z -> M (list Z)) (acc : Z * list Z) : M (list Z) :=
  let '(offset, out) := acc in
  ps ← gets packet_size;
  let len := Z.min (saturating_sub ps 64) 65534 in
  let req := str "qXfer:features:read:" ++ annex ++ str ":" ++ to_hex offset ++ str "," ++ to_hex len in
  reply ← send_packet req;
  match reply with
  | [] => fail Protocol
  | lead :: body =>
      if (lead =? 108) || (lead =? 109) then
        let more := lead =? 109 in
        chunk ← lift (widen (decode_qxfer_chunk body));
        offset ← lift (uadd offset (zlen chunk));
        let out := out ++ chunk in
        if negb more then mret (from_utf8_lossy out) else again (offset, out)
      else fail Protocol
  end.
Definition fetch_qxfer (annex : list Z) : M (list Z) := run_loop (fetch_qxfer_body annex) (0, []).
Definition fetch_target_xml : M (list Z) := fetch_qxfer (str "target.xml").

Definition set_thread (tid : Z) : M unit :=
  r ← send_packet (str "Hg" ++ to_hex tid);
  expect_OK r.

(** The thread identifiers of one [m] reply. *)
Fixpoint parse_thread_ids (parts : list (list Z)) : outcome GdbError (list Z) :=
  match parts with
  | [] => Ret []
  | p :: parts =>
      if bool_decide (p = []) then parse_thread_ids parts
      else n ← parse_u64_hex p; rest ← parse_thread_ids parts; Ret (n :: rest)
  end.

Definition threads_body (again : list Z * list Z -> M (list Z)) (acc : list Z * list Z) : M (list Z) :=
  let '(out, reply) := acc in
  match reply with
  | [] => mret out
  | lead :: body =>
      if lead =? 109 then
        ids ← lift (parse_thread_ids (split_on 44 (from_utf8_lossy body)));
        reply ← send_packet (str "qsThreadInfo");
        again (out ++ ids, reply)
      else if lead =? 108 then mret out
      else fail Protocol
  end.
Definition threads : M (list Z) :=
  first ← send_packet (str "qfThreadInfo");
  run_loop threads_body ([], first).

(** [reply.first() == Some(&b'E')] *)
Definition is_error_reply (r : list Z) : bool :=
  match r with b :: _ => b =? 69 | [] => false end.

(** [hex_decode(std::str::from_utf8(&reply).map_err(..)?)] *)
Definition decode_hex_reply (r : list Z) : outcome GdbError (list Z) :=
  if from_utf8 r then hex_decode r else Fail Protocol.

Definition max_chunk (ps : Z) : Z := Z.max (saturating_sub ps 32 / 2) 16.

(** The loop state of [read_mem] is [(off, out)]. *)
Definition read_mem_body (addr len : Z)
    (again : Z * list Z -> M (list Z)) (acc : Z * list Z) : M (list Z) :=
  let '(off, out) := acc in
  if off <? len then
    ps ← gets packet_size;
    let n := Z.min (len - off) (max_chunk ps) in
    at_ ← lift (uadd addr off);
    reply ← send_packet (str "m" ++ to_hex at_ ++ str "," ++ to_hex n);
    if is_error_reply reply then fail Protocol
    else
      bytes ← lift (decode_hex_reply reply);
      if bool_decide (bytes = []) then fail Protocol
      else
        off ← lift (uadd off (zlen bytes));
        if zlen bytes <? n then fail Protocol
        else again (off, out ++ bytes)
  else mret out.
Definition read_mem (addr len : Z) : M (list Z) := run_loop (read_mem_body addr len) (0, []).

Definition write_mem (addr : Z) (data : list Z) : M unit :=
  r ← send_packet (str "M" ++ to_hex addr ++ str "," ++ to_hex (zlen data) ++ str ":" ++ hex_encode data);
  expect_OK r.

Definition read_regs_raw : M (list Z) :=
  r ← send_packet (str "g");
  if is_error_reply r then fail Protocol else lift (decode_hex_reply r).

Definition read_reg_raw (regnum : Z) : M (list Z) :=
  r ← send_packet (str "p" ++ to_hex regnum);
  if is_error_reply r then fail Protocol
  else if bytes_eqb r (str "xxxxxxxxxxxxxxxx") || forallb (Z.eqb 120) r then fail Unsupported
  else lift (decode_hex_reply r).

Definition write_reg_raw (regnum : Z) (v : list Z) : M unit :=
  r ← send_packet (str "P" ++ to_hex regnum ++ str "=" ++ hex_encode v);
  expect_OK r.

Definition cont (tid : option Z) : M unit :=
  let pkt := match tid with Some t => str "vCont;c:" ++ to_hex t | None => str "vCont;c" end in
  _ ← write_all (encode_packet pkt);
  mark_resume_in_flight.

Definition step (tid : option Z) : M unit :=
  let pkt := match tid with Some t => str "vCont;s:" ++ to_hex t | None => str "vCont;s" end in
  _ ← write_all (encode_packet pkt);
  mark_resume_in_flight.

Definition breakpoint_packet (cmd : list Z) (kind addr size : Z) : list Z :=
  cmd ++ to_dec8 kind ++ str "," ++ to_hex addr ++ str "," ++ to_hex size.

Definition insert_breakpoint (kind addr size : Z) : M unit :=
  r ← send_packet (breakpoint_packet (str "Z") kind addr size);
  if bool_decide (r = []) then fail Unsupported else expect_OK r.

Definition remove_breakpoint (kind addr size : Z) : M unit :=
  r ← send_packet (breakpoint_packet (str "z") kind addr size);
  if bool_decide (r = []) then fail Unsupported else expect_OK r.

Definition interrupt : M unit := write_all [3].

(** What a packet means to a client that waits for a stop. *)
Definition starts_TS (s : list Z) : bool := starts_with (str "T") s || starts_with (str "S") s.
Definition starts_WX (s : list Z) : bool := starts_with (str "W") s || starts_with (str "X") s.

Definition wait_stop_body (again : unit -> M StopInfo) (_ : unit) : M StopInfo :=
  d ← next_decoded;
  match d with
  | Packet p =>
      _ ← ack_packet;
      _ ← clear_resume_if_stop p;
      let s := from_utf8_lossy p in
      if starts_TS s then lift (parse_stop_reply p)
      else if starts_WX s then mret (mkStopInfo None (Other s) s)
      else again tt
  | Ack | Nack | Interrupt => again tt
  end.
Definition wait_stop : M StopInfo := run_loop wait_stop_body tt.

(** [slice] stands for [remaining.max(1ms)], which is never zero. *)
Definition try_wait_stop_body (slice : Z)
    (again : unit -> M (option StopInfo)) (_ : unit) : M (option StopInfo) :=
  o ← poll_packet (Z.max slice 1);
  match o with
  | None =>
      passed ← deadline_passed;
      if passed : bool then mret None else again tt
  | Some p =>
      let s := from_utf8_lossy p in
      if starts_TS s then
        _ ← modify (set_resume_in_flight false);
        info ← lift (parse_stop_reply p);
        mret (Some info)
      else if starts_WX s then
        _ ← modify (set_resume_in_flight false);
        mret (Some (mkStopInfo None (Other s) s))
      else
        _ ← modify (fun st => set_orphan_replies (orphan_replies st ++ [p]) st);
        again tt
  end.
Definition try_wait_stop (timeout : Z) : M (option StopInfo) := run_loop (try_wait_stop_body timeout) tt.

Definition kill : M unit := write_all (encode_packet (str "k")).

Definition detach : M unit :=
  r ← send_packet (str "D");
  expect_OK r.

