(* ===== verification/GdbRemoteSpec.v ===== *)
(** What the GDB remote client of GdbRemote.v guarantees: its event queue, the
    request/reply discipline, memory reads, waiting for stops, termination,
    the codecs of stop replies and two defects. *)
From Stdlib Require Import ZArith Lia String.
From stdpp Require Import base list sets.
From S2P Require Import Prelude GdbProto RustStr GdbRemote.
Open Scope Z_scope.

(** ** Running the monad *)

Section Run.
  Context {A B : Type}.

Lemma run_bind (m : M A) (f : A -> M B) st :
  (m ≫= f) st =
  match m st with
  | (Ret a, st') => f a st'
  | (Fail e, st') => (Fail e, st')
  | (Panic, st') => (Panic, st')
  end.
Proof. done. Qed.
Lemma run_ret (a : A) st : (mret a : M A) st = (Ret a, st).
Proof. done. Qed.
Lemma run_gets (f : GdbRemote -> A) st : gets f st = (Ret (f st), st).
Proof. done. Qed.
Lemma run_modify f st : modify f st = (Ret tt, f st).
Proof. done. Qed.
Lemma run_lift (o : outcome GdbError A) st : lift o st = (o, st).
Proof. done. Qed.
Lemma run_fail e st : @fail A e st = (Fail e, st).
Proof. done. Qed.
Lemma run_attempt (m : M A) st :
  attempt m st =
  match m st with
  | (Ret a, st') => (Ret (inl a), st')
  | (Fail e, st') => (Ret (inr e), st')
  | (Panic, st') => (Panic, st')
  end.
Proof. done. Qed.
End Run.

Create Rewrite HintDb mrun.
#[export] Hint Rewrite @run_bind @run_ret @run_gets @run_modify @run_lift @run_fail @run_attempt : mrun.

(** Symbolic execution of one computation. *)
Ltac mrun := repeat (autorewrite with mrun; cbn [fst snd app]).

(** ** The event queue

    What the connection stands for: the decoded events still to come, however
    the bytes are cut into reads. *)

Fixpoint read_bytes (l : list ReadEvent) : option (list Z) :=
  match l with
  | [] => Some []
  | ReadBytes (x :: b) :: l => r ← read_bytes l; Some ((x :: b) ++ r)
  | _ => None
  end.

Definition queue (st : GdbRemote) (evs : list Decoded) : Prop :=
  exists bytes out d,
    read_bytes (reads (stream st)) = Some bytes /\
    feed (decoder st) bytes = Ret (out, d) /\
    evs = pending st ++ out.

(** Nothing but the receive side differs. *)
Definition same_client (st st' : GdbRemote) : Prop :=
  sent (stream st') = sent (stream st) /\
  write_results (stream st') = write_results (stream st) /\
  deadline_tests (stream st') = deadline_tests (stream st) /\
  r_no_ack st' = r_no_ack st /\
  packet_size st' = packet_size st /\
  qsupported st' = qsupported st /\
  orphan_replies st' = orphan_replies st /\
  resume_in_flight st' = resume_in_flight st.

#[export] Instance same_client_preorder : PreOrder same_client.
Proof.
  split; [by repeat split|]. intros a b c H1 H2. unfold same_client in *. naive_solver congruence.
Qed.

Create HintDb gdb.
#[export] Hint Unfold same_client : gdb.

Lemma read_once_queue st evs :
  queue st evs -> pending st = [] -> evs <> [] ->
  exists st', read_once st = (Ret tt, st') /\ queue st' evs /\ same_client st st' /\
    (length (reads (stream st')) < length (reads (stream st)))%nat.
Proof.
  intros (bytes&out&d&Hb&Hf&->) Hp Hne.
  destruct st as [[rs ws ds rt se] dec na ps qs pend orph rif]; simpl in *. subst pend.
  destruct rs as [|[[|x b]|] rs]; simpl in *; try done.
  { injection Hb as <-. injection Hf as <- <-. done. }
  destruct (read_bytes rs) as [r|] eqn:Hr; [|done]. injection Hb as <-.
  rewrite app_comm_cons, feed_app in Hf.
  destruct (feed dec (x :: b)) as [[o1 d1]| |] eqn:H1; simpl in Hf; try done.
  destruct (feed d1 r) as [[o2 d2]| |] eqn:H2; simpl in Hf; try done.
  injection Hf as <- <-. eexists. split.
  { unfold read_once. rewrite run_bind. unfold tcp_read. cbn [stream reads].
    rewrite (proj2 (Z.eqb_neq (zlen (x :: b)) 0)) by (rewrite zlen_cons; pose proof (zlen_nonneg b); lia).
    mrun. cbn [decoder set_stream]. rewrite H1. done. }
  split; [|split; [by repeat split|simpl; lia]].
  exists r, o2, d2. simpl. by rewrite Hr, H2.
Qed.

Lemma next_decoded_loop_queue fuel st e evs :
  queue st (e :: evs) -> (length (reads (stream st)) < fuel)%nat ->
  exists st', loop next_decoded_body fuel tt st = (Ret e, st') /\ queue st' evs /\ same_client st st'.
Proof.
  revert st. induction fuel as [|fuel IH]; intros st Hq Hf; [lia|]. simpl.
  unfold next_decoded_body at 1. rewrite run_bind. unfold pop_pending.
  destruct (pending st) as [|d p] eqn:Hp.
  - destruct (read_once_queue st (e :: evs) Hq Hp) as (st1&Hr&Hq1&Hc1&Hl1); [done|].
    mrun. rewrite Hr. destruct (IH st1 Hq1 ltac:(lia)) as (st2&->&Hq2&Hc2).
    exists st2. split; [done|]. split; [done|]. by etrans.
  - destruct Hq as (bytes&out&d'&Hb&Hfe&He). rewrite Hp in He. simpl in He. injection He as -> ->.
    eexists. split; [done|]. split; [by exists bytes, out, d'|by repeat split].
Qed.

Lemma next_decoded_queue st e evs :
  queue st (e :: evs) ->
  exists st', next_decoded st = (Ret e, st') /\ queue st' evs /\ same_client st st'.
Proof. intros Hq. apply next_decoded_loop_queue; [done|]. unfold budget. lia. Qed.

(** The acknowledgement of one packet. *)
Definition ack_bytes (st : GdbRemote) : list Z := if r_no_ack st then [] else [PLUS].

(** The client after writing [b], up to its receive side. *)
Definition wrote (b : list Z) (st st' : GdbRemote) : Prop :=
  sent (stream st') = sent (stream st) ++ b /\
  write_results (stream st') = [] /\
  r_no_ack st' = r_no_ack st /\ packet_size st' = packet_size st /\
  qsupported st' = qsupported st /\ orphan_replies st' = orphan_replies st /\
  resume_in_flight st' = resume_in_flight st.

Lemma wrote_trans a b st st1 st2 : wrote a st st1 -> wrote b st1 st2 -> wrote (a ++ b) st st2.
Proof. unfold wrote. intros H1 H2. rewrite app_assoc. naive_solver congruence. Qed.

Lemma same_client_wrote st st' :
  write_results (stream st) = [] -> same_client st st' -> wrote [] st st'.
Proof. unfold wrote, same_client. rewrite app_nil_r. naive_solver congruence. Qed.

Lemma write_all_wrote b st evs :
  write_results (stream st) = [] -> queue st evs ->
  exists st', write_all b st = (Ret tt, st') /\ wrote b st st' /\ queue st' evs.
Proof.
  intros Hw Hq. unfold write_all. rewrite Hw. eexists. split; [done|]. split; [by repeat split|exact Hq].
Qed.

Lemma ack_packet_wrote st evs :
  write_results (stream st) = [] -> queue st evs ->
  exists st', ack_packet st = (Ret tt, st') /\ wrote (ack_bytes st) st st' /\ queue st' evs.
Proof.
  intros Hw Hq. unfold ack_packet, ack_bytes. mrun. destruct (r_no_ack st); simpl.
  - exists st. split; [done|]. split; [by apply same_client_wrote|done].
  - by apply write_all_wrote.
Qed.

(** ** Requests and replies *)

Definition is_packet (d : Decoded) : bool := match d with Packet _ => true | _ => false end.

(** The loop skips acknowledgements and interrupts up to the first packet. *)
Lemma wait_reply_loop_queue fuel skip st p evs :
  queue st (skip ++ Packet p :: evs) -> Forall (fun d => is_packet d = false) skip ->
  write_results (stream st) = [] -> (length skip < fuel)%nat ->
  exists st', loop wait_reply_body fuel tt st = (Ret p, st') /\ queue st' evs /\
    wrote (ack_bytes st) st st'.
Proof.
  revert skip st. induction fuel as [|fuel IH]; intros skip st Hq Hs Hw Hf; [lia|]. simpl.
  unfold wait_reply_body at 1. mrun.
  destruct skip as [|d skip]; simpl in Hq.
  - destruct (next_decoded_queue _ _ _ Hq) as (st1&->&Hq1&Hc1). mrun.
    assert (Hw1 : write_results (stream st1) = []) by (unfold same_client in Hc1; naive_solver congruence).
    destruct (ack_packet_wrote st1 evs Hw1 Hq1) as (st2&->&Hwr&Hq2).
    exists st2. split; [done|]. split; [done|].
    replace (ack_bytes st) with ([] ++ ack_bytes st1)
      by (unfold ack_bytes, same_client in *; simpl; by destruct Hc1 as (_&_&_&->&_)).
    eapply wrote_trans; [by apply same_client_wrote|done].
  - apply Forall_cons in Hs as [Hd Hs].
    destruct (next_decoded_queue _ _ _ Hq) as (st1&->&Hq1&Hc1).
    assert (Hw1 : write_results (stream st1) = []) by (unfold same_client in Hc1; naive_solver congruence).
    destruct (IH skip st1 Hq1 Hs Hw1) as (st2&Hl&Hq2&Hwr); [simpl in Hf; lia|].
    exists st2. split; [by destruct d|]. split; [done|].
    replace (ack_bytes st) with ([] ++ ack_bytes st1)
      by (unfold ack_bytes, same_client in *; simpl; by destruct Hc1 as (_&_&_&->&_)).
    eapply wrote_trans; [by apply same_client_wrote|done].
Qed.

(** Each byte fed produces at most one event. *)
Lemma feed_length d bytes out d' :
  feed d bytes = Ret (out, d') -> (length out <= length bytes)%nat.
Proof.
  revert d out d'. induction bytes as [|b bytes IH]; intros d out d'; simpl; [by intros [= <- <-]|].
  assert (Hb : forall o d1, feed_byte d b = Ret (o, d1) -> (length o <= 1)%nat).
  { intros o d1. unfold feed_byte, uadd, lift_opt. destruct (state d) as [| |chars n];
      repeat first [intros [= <- <-]; simpl; lia | done | case_match; simpl]. }
  destruct (feed_byte d b) as [[o d1]| |] eqn:E; simpl; [|done..].
  destruct (feed d1 bytes) as [[o2 d2]| |] eqn:E2; simpl; [|done..].
  intros [= <- <-]. rewrite length_app. specialize (IH _ _ _ E2). specialize (Hb _ _ eq_refl). lia.
Qed.

Lemma read_bytes_total l bytes : read_bytes l = Some bytes -> length bytes = total_bytes l.
Proof.
  revert bytes. induction l as [|[[|x b]|] l IH]; intros bytes; simpl; try done; [by intros [= <-]|].
  destruct (read_bytes l) as [r|]; simpl; [|done]. intros [= <-].
  simpl. rewrite length_app, (IH r) by done. unfold total_bytes. simpl. lia.
Qed.

Lemma queue_budget st evs : queue st evs -> (length evs <= budget st)%nat.
Proof.
  intros (bytes&out&d&Hb&Hf&->). apply feed_length in Hf. apply read_bytes_total in Hb.
  rewrite length_app. unfold budget. lia.
Qed.

Lemma send_packet_queue payload skip st p evs :
  queue st (skip ++ Packet p :: evs) -> Forall (fun d => is_packet d = false) skip ->
  write_results (stream st) = [] -> orphan_replies st = [] -> resume_in_flight st = false ->
  exists st', send_packet payload st = (Ret p, st') /\ queue st' evs /\
    wrote (encode_packet payload ++ ack_bytes st) st st'.
Proof.
  intros Hq Hs Hw Ho Hr. unfold send_packet. mrun. rewrite Hr. mrun.
  destruct (write_all_wrote (encode_packet payload) st _ Hw Hq) as (st1&->&Hw1&Hq1).
  unfold wait_reply. mrun. unfold pop_orphan.
  destruct Hw1 as (Hs1&Hwr1&Hn1&Hp1&Hqs1&Ho1&Hr1). rewrite Ho1, Ho.
  unfold run_loop.
  destruct (wait_reply_loop_queue (S (S (budget st1))) skip st1 p evs) as (st2&->&Hq2&Hw2); try done.
  { apply queue_budget in Hq1. rewrite length_app in Hq1. lia. }
  exists st2. split; [done|]. split; [done|].
  replace (ack_bytes st) with (ack_bytes st1) by (unfold ack_bytes; by rewrite Hn1).
  by eapply wrote_trans.
Qed.

(** ** Encodings *)

Lemma hex_encode_app a b : hex_encode (a ++ b) = hex_encode a ++ hex_encode b.
Proof. unfold hex_encode. apply flat_map_app. Qed.

Lemma hex_encode_zlen data : zlen (hex_encode data) = 2 * zlen data.
Proof.
  induction data as [|b data IH]; [done|]. unfold hex_encode in *. simpl.
  rewrite !zlen_cons, IH. lia.
Qed.

Lemma nibbles_range b : is_u8 b -> 0 <= Z.shiftr b 4 < 16 /\ 0 <= Z.land b 15 < 16.
Proof.
  intros Hb. unfold is_u8 in Hb. rewrite Z.shiftr_div_pow2 by lia. change (2 ^ 4) with 16.
  replace 15 with (Z.ones 4) by done. rewrite Z.land_ones by lia. change (2 ^ 4) with 16.
  split; [|apply Z.mod_pos_bound; lia].
  split; [apply Z.div_pos; lia|apply Z.div_lt_upper_bound; lia].
Qed.

Lemma hex_encode_ascii data : Forall is_u8 data -> ascii (hex_encode data).
Proof.
  induction 1 as [|b data Hb _ IH]; [constructor|]. simpl.
  destruct (nibbles_range b Hb) as [H1 H2].
  pose proof (hex_digit_range _ H1). pose proof (hex_digit_range _ H2). unfold hex_char in *.
  repeat constructor; [lia..|done].
Qed.

Lemma hex_decode_encode data : Forall is_u8 data -> hex_decode (hex_encode data) = Ret data.
Proof.
  intros Hd. unfold hex_decode. rewrite hex_encode_zlen, Z.mul_comm, Z.mod_mul by lia. simpl.
  induction Hd as [|b data Hb _ IH]; [done|].
  destruct (nibbles_range b Hb) as [H1 H2]. simpl.
  unfold hex_nibble. rewrite !hex_val_digit by done. simpl. rewrite IH. simpl.
  f_equal. f_equal. pose proof (digits_of_byte b Hb) as Hdb.
  unfold digits_value, hex_val_or_0 in Hdb. by rewrite !hex_val_digit in Hdb by done.
Qed.

Lemma hex_encode_not_error data : Forall is_u8 data -> is_error_reply (hex_encode data) = false.
Proof.
  destruct data as [|b data]; [done|]. intros [Hb _]%Forall_cons. simpl.
  destruct (nibbles_range b Hb) as [H _]. apply Z.eqb_neq. unfold hex_digit.
  destruct (Z.ltb_spec (Z.shiftr b 4) 10); lia.
Qed.

(** ** Reading memory *)

(** The chunks that [read_mem] asks for. *)
Fixpoint chunks_of (fuel : nat) (n : Z) (data : list Z) : list (list Z) :=
  match fuel, data with
  | S fuel, _ :: _ => take (Z.to_nat n) data :: chunks_of fuel n (drop (Z.to_nat n) data)
  | _, _ => []
  end.
Definition mem_chunks (ps : Z) (data : list Z) : list (list Z) :=
  chunks_of (length data) (max_chunk ps) data.

(** The requests for these chunks, each followed by the acknowledgement. *)
Fixpoint mem_requests (ack : list Z) (addr : Z) (chunks : list (list Z)) : list Z :=
  match chunks with
  | [] => []
  | c :: chunks =>
      encode_packet (str "m" ++ to_hex addr ++ str "," ++ to_hex (zlen c)) ++ ack ++
      mem_requests ack (addr + zlen c) chunks
  end.

Lemma max_chunk_pos ps : 16 <= max_chunk ps.
Proof. unfold max_chunk. lia. Qed.

Lemma chunks_of_enough fuel fuel' n data :
  1 <= n -> (length data <= fuel)%nat -> (length data <= fuel')%nat ->
  chunks_of fuel n data = chunks_of fuel' n data.
Proof.
  intros Hn. revert fuel' data. induction fuel as [|fuel IH]; intros [|fuel'] [|x data] Hf Hf';
    simpl in *; try done; try lia.
  f_equal. apply IH; rewrite length_drop; simpl; lia.
Qed.

Lemma read_mem_loop fuel addr len off out data st evs :
  queue st ((Packet ∘ hex_encode <$> chunks_of (length data) (max_chunk (packet_size st)) data) ++ evs) ->
  write_results (stream st) = [] -> orphan_replies st = [] -> resume_in_flight st = false ->
  Forall is_u8 data -> 0 <= addr -> 0 <= off -> off + zlen data = len -> addr + len < 2 ^ 64 ->
  (length (chunks_of (length data) (max_chunk (packet_size st)) data) < fuel)%nat ->
  exists st', loop (read_mem_body addr len) fuel (off, out) st = (Ret (out ++ data), st') /\
    queue st' evs /\
    wrote (mem_requests (ack_bytes st) (addr + off)
             (chunks_of (length data) (max_chunk (packet_size st)) data)) st st'.
Proof.
  revert off out data st. induction fuel as [|fuel IH];
    intros off out data st Hq Hw Ho Hr Hd Haddr Hoff Hlen Hmax Hf; [lia|].
  cbn [loop]. unfold read_mem_body at 1.
  destruct data as [|x data].
  { rewrite zlen_nil in Hlen. rewrite (proj2 (Z.ltb_ge off len)) by lia. rewrite app_nil_r.
    exists st. split; [done|]. split; [done|]. by apply same_client_wrote. }
  set (d := x :: data) in *. assert (Hdl : 1 <= zlen d) by (unfold d; rewrite zlen_cons; pose proof (zlen_nonneg data); lia).
  rewrite (proj2 (Z.ltb_lt off len)) by lia. mrun. pose proof (max_chunk_pos (packet_size st)) as Hmc.
  set (mc := max_chunk (packet_size st)) in *.
  set (c := take (Z.to_nat mc) d). set (rest := drop (Z.to_nat mc) d).
  assert (Hc : zlen c = Z.min (len - off) mc) by (unfold c, zlen in *; rewrite length_take; lia).
  assert (Hrest : zlen rest = zlen d - zlen c) by (unfold rest, zlen in *; rewrite length_drop; lia).
  assert (Hcr : c ++ rest = d) by apply take_drop.
  assert (Hchunks : chunks_of (length d) mc d = c :: chunks_of (length rest) mc rest).
  { unfold d at 1 2. cbn [length chunks_of]. fold d c rest. f_equal.
    apply chunks_of_enough; unfold zlen, d in *; simpl in *; lia. }
  rewrite Hchunks in Hq. rewrite fmap_cons in Hq. rewrite <- app_comm_cons in Hq.
  rewrite <- Hcr in Hd. apply Forall_app in Hd as [Hdc Hdr].
  unfold uadd at 1. rewrite (proj2 (Z.ltb_lt (addr + off) _)) by lia. mrun.
  destruct (send_packet_queue (str "m" ++ to_hex (addr + off) ++ str "," ++ to_hex (zlen c)) [] st
    _ _ Hq ltac:(constructor) Hw Ho Hr) as (st1&Hsend&Hq1&Hw1).
  rewrite <- Hc, Hsend. unfold compose. rewrite hex_encode_not_error by done. mrun.
  unfold decode_hex_reply. rewrite from_utf8_ascii, hex_decode_encode by (done || by apply hex_encode_ascii).
  rewrite bool_decide_false by (intros Hnil; rewrite Hnil, zlen_nil in Hc; lia). mrun.
  unfold uadd at 1. rewrite (proj2 (Z.ltb_lt (off + zlen c) _)) by lia. mrun.
  rewrite Z.ltb_irrefl.
  destruct Hw1 as (Hs1&Hwr1&Hn1&Hp1&Hqs1&Ho1&Hr1).
  assert (Hack : ack_bytes st1 = ack_bytes st) by (unfold ack_bytes; by rewrite Hn1).
  destruct (IH (off + zlen c) (out ++ c) rest st1) as (st2&Hl&Hq2&Hw2);
    [unfold mc in *; by rewrite Hp1|done|by rewrite Ho1|by rewrite Hr1|done|lia|lia|lia|lia|
     rewrite Hp1; rewrite Hchunks in Hf; simpl in Hf; fold mc; lia|].
  exists st2. rewrite Hl, <- app_assoc, Hcr. split; [done|]. split; [done|].
  rewrite Hchunks. cbn [mem_requests]. rewrite (app_assoc (encode_packet _)).
  apply (wrote_trans _ _ st st1 st2); [by repeat split|]. rewrite Hp1, Hack in Hw2. fold mc in Hw2.
  by replace (addr + off + zlen c) with (addr + (off + zlen c)) by lia.
Qed.

(** ** Waiting for a stop *)

(** The packets that end [wait_stop]. *)
Definition is_stop_packet (p : list Z) : bool :=
  match p with b :: _ => is_stop_byte b | [] => false end.

(** How many packets an event list holds. *)
Definition packets (evs : list Decoded) : nat := length (filter (fun d => is_packet d = true) evs).

Lemma lossy_head p :
  Forall is_u8 p ->
  match p with
  | [] => from_utf8_lossy p = []
  | b :: _ => if b <? 128 then exists s, from_utf8_lossy p = b :: s
              else exists c s, from_utf8_lossy p = c :: s /\ 128 <= c
  end.
Proof.
  destruct p as [|b p]; [done|]. intros [Hb _]%Forall_cons.
  unfold from_utf8_lossy. cbn [length from_utf8_lossy_loop].
  destruct (Z.ltb_spec b 128) as [Hlt|Hge].
  - unfold is_u8 in Hb. rewrite utf8_head_ascii by lia. simpl. by eexists.
  - destruct (utf8_head (b :: p)) as [[|] n] eqn:E.
    + assert (Hn : (1 <= n)%nat).
      { unfold utf8_head in E. simpl in E. repeat case_match; simplify_eq; lia. }
      destruct n as [|n]; [lia|]. simpl. by eexists _, _.
    + unfold REPLACEMENT. simpl. by eexists _, _.
Qed.

Lemma starts_with_1 c b s : starts_with [c] (b :: s) = (c =? b).
Proof. unfold starts_with. simpl. by destruct (c =? b). Qed.

(** Looking at the first byte or at the first character of the lossy string
    tells stop packets apart in the same way. *)
Lemma stop_packet_lossy p :
  Forall is_u8 p ->
  is_stop_packet p = starts_TS (from_utf8_lossy p) || starts_WX (from_utf8_lossy p).
Proof.
  intros Hp. pose proof (lossy_head p Hp) as H. destruct p as [|b p]; [by rewrite H|].
  unfold starts_TS, starts_WX. change (str "T") with [84]. change (str "S") with [83].
  change (str "W") with [87]. change (str "X") with [88].
  simpl is_stop_packet. unfold is_stop_byte.
  destruct (Z.ltb_spec b 128).
  - destruct H as [s ->]. rewrite !starts_with_1, !(Z.eqb_sym _ b). by rewrite <- orb_assoc.
  - destruct H as (c&s&->&?). rewrite !starts_with_1.
    repeat match goal with
    | |- context [?x =? ?y] => destruct (Z.eqb_spec x y); [lia|]
    end. done.
Qed.

(** Everything before the first stop packet is skipped, and each packet is
    acknowledged. *)
Lemma wait_stop_loop_queue fuel skip st p evs :
  queue st (skip ++ Packet p :: evs) ->
  Forall (fun d => match d with Packet q => is_stop_packet q = false /\ Forall is_u8 q | _ => True end) skip ->
  is_stop_packet p = true -> Forall is_u8 p ->
  write_results (stream st) = [] -> (length skip < fuel)%nat ->
  exists st', loop wait_stop_body fuel tt st =
      ((if starts_TS (from_utf8_lossy p) then parse_stop_reply p
        else Ret (mkStopInfo None (Other (from_utf8_lossy p)) (from_utf8_lossy p))), st') /\
    queue st' evs /\ resume_in_flight st' = false /\
    sent (stream st') = sent (stream st) ++ concat (repeat (ack_bytes st) (S (packets skip))).
Proof.
  revert skip st. induction fuel as [|fuel IH]; intros skip st Hq Hs Hp Hu Hw Hf; [lia|].
  cbn [loop]. unfold wait_stop_body at 1. mrun.
  destruct skip as [|d skip]; simpl in Hq.
  - destruct (next_decoded_queue _ _ _ Hq) as (st1&->&Hq1&Hc1). mrun.
    destruct (ack_packet_wrote st1 evs) as (st2&->&Hwr&Hq2);
      [unfold same_client in Hc1; naive_solver congruence|done|]. mrun.
    unfold clear_resume_if_stop. fold (is_stop_packet p). rewrite Hp. mrun.
    set (st3 := if negb (resume_in_flight st2) then st2 else set_resume_in_flight false st2).
    assert (H3 : (if negb (resume_in_flight st2) then mret ()
                  else modify (set_resume_in_flight false)) st2 = (Ret tt, st3))
      by (unfold st3; destruct (negb _); done).
    rewrite H3. rewrite (stop_packet_lossy p Hu) in Hp. exists st3.
    split; [|split; [|split]].
    + destruct (starts_TS _); [done|]. simpl in Hp. by rewrite Hp.
    + unfold st3. by destruct (negb _).
    + unfold st3. destruct (resume_in_flight st2) eqn:E; simpl; [done|by rewrite E].
    + transitivity (sent (stream st2)); [unfold st3; by destruct (negb _)|].
      destruct Hwr as [-> _]. destruct Hc1 as (->&_&_&Hn&_). simpl. rewrite app_nil_r.
      unfold ack_bytes. by rewrite Hn.
  - apply Forall_cons in Hs as [Hd Hs].
    destruct (next_decoded_queue _ _ _ Hq) as (st1&->&Hq1&Hc1). mrun.
    assert (Hw1 : write_results (stream st1) = []) by (unfold same_client in Hc1; naive_solver congruence).
    assert (Ha1 : ack_bytes st1 = ack_bytes st)
      by (unfold ack_bytes, same_client in *; by destruct Hc1 as (_&_&_&->&_)).
    assert (Hskip : forall st2 pre, queue st2 (skip ++ Packet p :: evs) ->
      write_results (stream st2) = [] -> ack_bytes st2 = ack_bytes st ->
      sent (stream st2) = sent (stream st) ++ pre ->
      exists st', loop wait_stop_body fuel tt st2 =
          ((if starts_TS (from_utf8_lossy p) then parse_stop_reply p
            else Ret (mkStopInfo None (Other (from_utf8_lossy p)) (from_utf8_lossy p))), st') /\
        queue st' evs /\ resume_in_flight st' = false /\
        sent (stream st') = sent (stream st) ++ pre ++ concat (repeat (ack_bytes st) (S (packets skip)))).
    { intros st2 pre Hq2 Hw2 Ha2 Hs2.
      destruct (IH skip st2 Hq2 Hs Hp Hu Hw2) as (st'&?&?&?&Hse); [simpl in Hf; lia|].
      exists st'. by rewrite Hse, Hs2, Ha2, <- app_assoc. }
    destruct Hc1 as (Hse1&_).
    destruct d as [q| | |]; [|apply (Hskip st1 []); by rewrite ?app_nil_r..].
    destruct Hd as [Hnq Huq]. mrun.
    destruct (ack_packet_wrote st1 _ Hw1 Hq1) as (st2&->&Hwr&Hq2). mrun.
    unfold clear_resume_if_stop. fold (is_stop_packet q). rewrite Hnq. mrun.
    assert (Hnop : (if negb (resume_in_flight st2) then (mret () : M unit) else mret ()) st2 = (Ret tt, st2))
      by (by destruct (negb _)).
    rewrite Hnop. rewrite (stop_packet_lossy q Huq) in Hnq. apply orb_false_iff in Hnq as [-> ->].
    destruct Hwr as (Hse2&Hw2&Hn2&_).
    destruct (Hskip st2 (ack_bytes st)) as (st'&?&?&?&Hse); [done|done| | |].
    + unfold ack_bytes in *. rewrite Hn2. exact Ha1.
    + by rewrite Hse2, Hse1, Ha1.
    + exists st'. repeat split; try done. 
Qed.

(** ** Termination

    Every loop consumes what the environment delivers, so the fuel of
    [run_loop] is never used up, and no [unwrap], index or addition panics. *)

Definition ok (st : GdbRemote) : Prop :=
  wf (decoder st) /\
  bad_checksums (decoder st) + Z.of_nat (total_bytes (reads (stream st))) < 2 ^ 64.

(** The run [r] from [st] does not panic and, when it succeeds, has consumed at
    least [k]. *)
Definition good {A} (k : nat) (st : GdbRemote) (r : outcome GdbError A * GdbRemote) : Prop :=
  match r with
  | (Ret _, st') => ok st' /\ (budget st' + k <= budget st)%nat
  | (Fail _, st') => ok st' /\ (budget st' <= budget st)%nat
  | (Panic, _) => False
  end.
Definition safe {A} (k : nat) (m : M A) : Prop := forall st, ok st -> good k st (m st).

Section Safe.
  Context {A B : Type}.

Lemma safe_bind j k (m : M A) (f : A -> M B) :
  safe j m -> (forall a, safe k (f a)) -> safe (j + k) (m ≫= f).
Proof.
  intros Hm Hf st Hst. rewrite run_bind. specialize (Hm st Hst).
  destruct (m st) as [[a| |] st1]; simpl in Hm; [|done..]. destruct Hm as [Hok Hb].
  specialize (Hf a st1 Hok). destruct (f a st1) as [[b| |] st2]; simpl in *; intuition lia.
Qed.
Lemma safe_weaken j k (m : M A) : (k <= j)%nat -> safe j m -> safe k m.
Proof.
  intros Hle Hm st Hst. specialize (Hm st Hst). destruct (m st) as [[a| |] st1]; simpl in *; intuition lia.
Qed.
Lemma safe_ret (a : A) : safe 0 (mret a : M A).
Proof. intros st Hst. split; [done|lia]. Qed.
Lemma safe_fail k e : safe k (@fail A e).
Proof. intros st Hst. split; [done|lia]. Qed.
Lemma safe_gets (f : GdbRemote -> A) : safe 0 (gets f).
Proof. intros st Hst. split; [done|lia]. Qed.
Lemma safe_lift (o : outcome GdbError A) : no_panic o -> safe 0 (lift o).
Proof. intros Ho st Hst. destruct o; [split; [done|simpl; lia]..|by destruct Ho]. Qed.
Lemma safe_modify f :
  (forall st, decoder (f st) = decoder st /\ stream (f st) = stream st /\
     pending (f st) = pending st /\ orphan_replies (f st) = orphan_replies st) ->
  safe 0 (modify f).
Proof.
  intros Hf st [Hok1 Hok2]. destruct (Hf st) as (Hd&Hs&Hp&Ho). simpl.
  unfold ok, budget. rewrite Hd, Hs, Hp, Ho. split; [done|lia].
Qed.

(** A loop whose body only goes around after consuming something. *)
Lemma safe_loop k (body : (B -> M A) -> B -> M A) (b : B) :
  (forall again n, (forall b st, ok st -> (budget st < n)%nat -> good 0 st (again b st)) ->
     forall b st, ok st -> (budget st <= n)%nat -> good k st (body again b st)) ->
  safe k (run_loop body b).
Proof.
  intros Hbody.
  assert (H : forall fuel b st, ok st -> (budget st < fuel)%nat -> good k st (loop body fuel b st)).
  { induction fuel as [|fuel IH]; intros b' st Hst Hf; [lia|]. simpl.
    apply (Hbody (loop body fuel) fuel); [|done|lia].
    intros b1 st1 Hst1 Hlt. specialize (IH b1 st1 Hst1 Hlt).
    destruct (loop body fuel b1 st1) as [[a| |] st2]; simpl in *; intuition lia. }
  intros st Hst. unfold run_loop. apply H; [done|lia].
Qed.

(** A bind inside a loop body. *)
Lemma good_bind j k st (m : M A) (f : A -> M B) :
  good j st (m st) ->
  (forall a st', ok st' -> (budget st' + j <= budget st)%nat -> good (k - j) st' (f a st')) ->
  good k st ((m ≫= f) st).
Proof.
  intros Hm Hf. rewrite run_bind. destruct (m st) as [[a| |] st1]; simpl in Hm; [|done..].
  destruct Hm as [Hok Hb]. specialize (Hf a st1 Hok Hb).
  destruct (f a st1) as [[b| |] st2]; simpl in *; intuition lia.
Qed.
Lemma good_weaken j k st (r : outcome GdbError A * GdbRemote) :
  (k <= j)%nat -> good j st r -> good k st r.
Proof. destruct r as [[] ?]; simpl; intuition lia. Qed.
End Safe.

Lemma write_all_safe b : safe 0 (write_all b).
Proof.
  intros st [H1 H2]. unfold write_all. repeat case_match; (split; [by split|unfold budget; simpl; lia]).
Qed.

Lemma ack_packet_safe : safe 0 ack_packet.
Proof.
  unfold ack_packet. apply (safe_bind 0 0); [apply safe_gets|]. intros a. case_match;
    [apply write_all_safe|apply safe_ret].
Qed.

Lemma tracks_some d : exists seen, tracks seen d.
Proof.
  destruct d as [[| |chars n] pl na bad]; simpl.
  - by exists [].
  - by exists ([] ++ [DOLLAR] ++ pl), [].
  - by exists ([] ++ [DOLLAR] ++ pl ++ [HASH] ++ take (Z.to_nat n) chars), [].
Qed.

Lemma feed_safe d b :
  wf d -> bad_checksums d + zlen b < 2 ^ 64 ->
  exists out d', feed d b = Ret (out, d') /\ wf d' /\
    bad_checksums d' <= bad_checksums d + zlen b /\ (length out <= length b)%nat.
Proof.
  intros Hwf Hb. destruct (tracks_some d) as [seen Hs].
  destruct (feed_spec seen d b Hwf Hs Hb) as (out&d'&Hf&Hwf'&_&Hbad&_).
  exists out, d'. split; [done|]. split; [done|]. split; [done|]. by eapply feed_length.
Qed.

Lemma read_once_safe : safe 1 read_once.
Proof.
  intros st [Hwf Hb]. unfold read_once. rewrite run_bind. unfold tcp_read.
  destruct (reads (stream st)) as [|[b|e] rest] eqn:Hr.
  - unfold good, ok, budget. rewrite Hr. split; [done|lia].
  - unfold total_bytes in Hb. simpl in Hb.
    destruct (Z.eqb_spec (zlen b) 0) as [Hz|Hz]; mrun.
    + unfold good, ok, budget, total_bytes. simpl. rewrite Hr. simpl. split; [|lia]. split; [done|lia].
    + cbn [decoder set_stream].
      destruct (feed_safe (decoder st) b Hwf) as (out&d'&->&Hwf'&Hbad&Hlen); [unfold zlen in *; lia|].
      mrun. unfold widen. mrun. unfold good, ok, budget, total_bytes. simpl. rewrite Hr. simpl.
      rewrite length_app. unfold zlen in *. split; [|lia]. split; [done|lia].
  - unfold good, ok, budget, total_bytes in *. simpl in *. rewrite Hr. simpl. split; [|lia]. split; [done|lia].
Qed.

Lemma pop_pending_good st :
  ok st -> match pop_pending st with
           | (Ret (Some _), st') => ok st' /\ (budget st' + 1 <= budget st)%nat
           | (Ret None, st') => st' = st
           | _ => False
           end.
Proof.
  intros [H1 H2]. unfold pop_pending. destruct (pending st) eqn:E; [done|].
  unfold ok, budget. simpl. rewrite E. simpl. split; [done|lia].
Qed.

Lemma next_decoded_safe : safe 1 next_decoded.
Proof.
  apply safe_loop. intros again n Hagain b st Hst Hn. unfold next_decoded_body.
  rewrite run_bind. pose proof (pop_pending_good st Hst) as Hp.
  destruct (pop_pending st) as [[[d|]| |] st1]; try done.
  subst st1. apply (good_bind 1); [by apply read_once_safe|]. intros [] st' Hst' Hb. simpl.
  apply Hagain; [done|lia].
Qed.

Lemma wait_reply_safe : safe 1 wait_reply.
Proof.
  intros st Hst. unfold wait_reply. rewrite run_bind. unfold pop_orphan.
  destruct (orphan_replies st) as [|p o] eqn:Ho.
  - revert st Hst Ho. intros st Hst _. apply (safe_loop 1 wait_reply_body); [|done].
    intros again n Hagain b st1 Hst1 Hn. unfold wait_reply_body.
    apply (good_bind 1); [by apply next_decoded_safe|]. intros d st2 Hst2 Hb. simpl.
    destruct d; [|apply Hagain; [done|lia]..].
    apply (good_bind 0); [by apply ack_packet_safe|]. intros [] st3 Hst3 Hb3. split; [done|lia].
  - destruct Hst. unfold good, ok, budget. simpl. rewrite Ho. simpl. split; [done|lia].
Qed.

Lemma send_packet_safe p : safe 1 (send_packet p).
Proof.
  unfold send_packet. apply (safe_bind 0 1); [apply safe_gets|]. intros r.
  destruct r; [apply safe_fail|]. apply (safe_bind 0 1); [apply write_all_safe|].
  intros _. apply wait_reply_safe.
Qed.

Lemma hex_decode_no_panic s : no_panic (hex_decode s).
Proof.
  unfold hex_decode. destruct (Z.eqb_spec (zlen s mod 2) 0) as [He|]; simpl; [|done].
  assert (Hl : forall n s, (length s <= n)%nat -> zlen s mod 2 = 0 -> no_panic (hex_decode_loop s)).
  { clear. induction n as [|n IH]; intros [|c0 [|c1 s]] Hl He; simpl in *; try done; try lia.
    unfold hex_nibble. repeat (case_match; simpl; try done).
    apply bind_no_panic; [|done]. apply IH; [lia|]. rewrite !zlen_cons in He.
    replace (1 + (1 + zlen s)) with (zlen s + 1 * 2) in He by lia. by rewrite Z.mod_add in He by lia. }
  by apply (Hl (length s)).
Qed.

Lemma parse_thread_ids_no_panic parts : no_panic (parse_thread_ids parts).
Proof.
  induction parts as [|p parts IH]; simpl; [done|]. case_match; [done|].
  unfold parse_u64_hex. destruct (from_str_radix_16 64 p); simpl; [|done].
  by apply bind_no_panic.
Qed.

(** A request followed by a look at its reply. *)
Lemma request_safe {A} (m : M (list Z)) (f : list Z -> M A) :
  safe 1 m -> (forall r, safe 0 (f r)) -> safe 1 (m ≫= f).
Proof. apply (safe_bind 1 0). Qed.

Create HintDb gdb_safe.
#[export] Hint Resolve send_packet_safe safe_ret safe_fail hex_decode_no_panic : gdb_safe.
#[export] Hint Resolve @safe_lift : gdb_safe.

Lemma expect_OK_safe r : safe 0 (expect_OK r).
Proof. unfold expect_OK. case_match; auto with gdb_safe. Qed.

Lemma decode_hex_reply_safe r : safe 0 (lift (decode_hex_reply r)).
Proof. apply safe_lift. unfold decode_hex_reply. case_match; auto with gdb_safe. done. Qed.
#[export] Hint Resolve expect_OK_safe decode_hex_reply_safe : gdb_safe.

Lemma threads_safe : safe 1 threads.
Proof.
  unfold threads. apply request_safe; [auto with gdb_safe|]. intros first.
  apply safe_loop. intros again n Hagain [out reply] st Hst Hn. unfold threads_body.
  destruct reply as [|lead body]; [split; [done|lia]|].
  destruct (lead =? 109).
  - apply (good_bind 0); [apply safe_lift; [apply parse_thread_ids_no_panic|done]|].
    intros ids st1 Hst1 Hb1. simpl. apply (good_weaken 0); [lia|].
    pose proof (send_packet_safe (str "qsThreadInfo") st1 Hst1) as Hs. mrun.
    destruct (send_packet _ st1) as [[r| |] st2]; [|done..].
    destruct Hs as [Hst2 Hb2]. specialize (Hagain (out ++ ids, r) st2 Hst2 ltac:(lia)).
    destruct (again _ st2) as [[] ?]; simpl in *; intuition lia.
  - destruct (lead =? 108); [split; [done|lia]|]. split; [done|lia].
Qed.

(** ** Stop replies *)

Lemma parse_stop_field_no_panic f acc : no_panic (parse_stop_field f acc).
Proof.
  destruct acc as [[thread kind] specific]. unfold parse_stop_field, parse_u64_hex.
  repeat (case_match; simpl; try done).
Qed.

Lemma parse_stop_fields_no_panic fs acc : no_panic (parse_stop_fields fs acc).
Proof.
  revert acc. induction fs as [|f fs IH]; intros acc; simpl; [done|].
  apply bind_no_panic; [apply parse_stop_field_no_panic|]. intros; apply IH.
Qed.

(** The lossy string never starts in the middle of a character. *)
Lemma lossy_head_not_cont p b s :
  Forall is_u8 p -> from_utf8_lossy p = b :: s -> is_cont b = false.
Proof.
  destruct p as [|c p]; [done|]. intros [Hc _]%Forall_cons. unfold is_u8 in Hc.
  unfold from_utf8_lossy. cbn [length from_utf8_lossy_loop].
  destruct (utf8_head (c :: p)) as [[|] n] eqn:E; cycle 1.
  { unfold REPLACEMENT. by intros [= <- _]. }
  assert (Hn : exists m, n = S m) by
    (unfold utf8_head in E; simpl in E; repeat case_match; simplify_eq; eauto).
  destruct Hn as [m ->]. simpl. intros [= <- _]. unfold is_cont.
  unfold utf8_head in E. simpl in E.
  destruct (Z.ltb_spec c 128); [by rewrite (proj2 (Z.leb_gt 128 c)) by lia|].
  rewrite (proj2 (Z.ltb_ge c 192)), andb_false_r; [done|].
  destruct (Z.leb_spec 194 c); [lia|]. simpl in E.
  rewrite (proj2 (Z.leb_gt 224 c)), (proj2 (Z.leb_gt 240 c)) in E by lia. simpl in E. done.
Qed.

(** After a leading ASCII character, position 1 is a boundary. *)
Lemma boundary_after_ascii p b s :
  Forall is_u8 p -> 0 <= b < 128 -> from_utf8_lossy p = b :: s -> is_char_boundary (b :: s) 1 = true.
Proof.
  destruct p as [|c p]; [done|]. intros Hp Hb Hs. pose proof (lossy_head (c :: p) Hp) as Hh. simpl in Hh.
  destruct (Z.ltb_spec c 128) as [Hlt|]; cycle 1.
  { destruct Hh as (c'&s'&Hs'&?). rewrite Hs in Hs'. injection Hs' as <- <-. lia. }
  apply Forall_cons in Hp as [Hc Hp]. unfold is_u8 in Hc.
  unfold from_utf8_lossy in Hs. cbn [length from_utf8_lossy_loop] in Hs.
  rewrite utf8_head_ascii in Hs by lia. simpl in Hs. rewrite drop_0 in Hs. injection Hs as _ Hs.
  fold (from_utf8_lossy p) in Hs. unfold is_char_boundary. simpl. rewrite zget_cons. simpl.
  destruct s as [|d s]; [done|]. rewrite zget_cons. simpl.
  by rewrite (lossy_head_not_cont p d s Hp Hs).
Qed.

(** ** Connection start-up *)

(** Reading everything that is available leaves the event queue alone. *)
Lemma drain_loop_queue fuel st evs :
  queue st evs -> (length (reads (stream st)) < fuel)%nat ->
  exists st', loop drain_body fuel tt st = (Ret None, st') /\ queue st' evs /\
    reads (stream st') = [] /\ same_client st st'.
Proof.
  revert st. induction fuel as [|fuel IH]; intros st Hq Hf; [lia|].
  cbn [loop]. unfold drain_body at 1. mrun.
  destruct Hq as (bytes&out&d&Hb&Hfe&->).
  destruct st as [[rs ws ds rt se] dec na ps qs pend orph rif]; simpl in Hb, Hfe, Hf.
  destruct rs as [|[[|x b]|] rs]; simpl in Hb, Hf; try done.
  - unfold read_once. rewrite run_bind. simpl. eexists. split; [done|].
    split; [by exists bytes, out, d|]. by repeat split.
  - destruct (read_bytes rs) as [r|] eqn:Hr; [|done]. injection Hb as <-.
    rewrite app_comm_cons, feed_app in Hfe.
    destruct (feed dec (x :: b)) as [[o1 d1]| |] eqn:H1; simpl in Hfe; try done.
    destruct (feed d1 r) as [[o2 d2]| |] eqn:H2; simpl in Hfe; try done.
    injection Hfe as <- <-.
    unfold read_once. rewrite run_bind. unfold tcp_read. cbn [stream reads].
    rewrite (proj2 (Z.eqb_neq (zlen (x :: b)) 0)) by (rewrite zlen_cons; pose proof (zlen_nonneg b); lia).
    mrun. cbn [decoder set_stream]. rewrite H1. unfold widen. mrun. simpl.
    match goal with |- context [loop drain_body fuel tt ?s] => destruct (IH s) as (st'&->&Hq'&Hrd&Hc) end.
    + exists r, o2, d2. simpl. split; [done|]. split; [done|]. by rewrite app_assoc.
    + simpl. lia.
    + exists st'. split; [done|]. split; [done|]. split; [done|exact Hc].
Qed.

(** ** Properties *)

(** Hexadecimal codecs: data sent as hex digits decodes to itself, and a
    64-bit number printed with [{:x}] parses to itself. *)
Theorem hex_roundtrip data n :
  Forall is_u8 data -> is_u64 n ->
  hex_decode (hex_encode data) = Ret data /\ parse_u64_hex (to_hex n) = Ret n.
Proof.
  intros Hd Hn. split; [by apply hex_decode_encode|]. unfold parse_u64_hex. by rewrite from_to_hex.
Qed.

Lemma hex_roundtrip_witness :
  hex_decode (hex_encode [0; 171; 255]) = Ret [0; 171; 255] /\ parse_u64_hex (to_hex 4096) = Ret 4096.
Proof. apply hex_roundtrip; [solve_bytes|unfold is_u64; lia]. Defined.

(** C28. Reading memory: against a stub that answers each chunk request with the
    hex digits of the requested bytes, [read_mem] returns exactly the memory
    contents, sends exactly one [m] request per chunk of at most [max_chunk]
    bytes at increasing addresses (acknowledging each reply in ack mode), and
    leaves everything the stub sent afterwards in the queue; how the replies
    are cut into socket reads does not matter. *)
Theorem read_mem_correct st addr data evs :
  queue st ((Packet ∘ hex_encode <$> mem_chunks (packet_size st) data) ++ evs) ->
  write_results (stream st) = [] -> orphan_replies st = [] -> resume_in_flight st = false ->
  Forall is_u8 data -> 0 <= addr -> addr + zlen data < 2 ^ 64 ->
  exists st', read_mem addr (zlen data) st = (Ret data, st') /\ queue st' evs /\
    wrote (mem_requests (ack_bytes st) addr (mem_chunks (packet_size st) data)) st st' /\
    Forall (fun c => 1 <= zlen c <= max_chunk (packet_size st)) (mem_chunks (packet_size st) data).
Proof.
  intros Hq Hw Ho Hr Hd Haddr Hlen. unfold read_mem, run_loop.
  destruct (read_mem_loop (S (S (budget st))) addr (zlen data) 0 [] data st evs) as (st'&Hl&Hq'&Hwr);
    try done; try lia.
  { apply queue_budget in Hq. rewrite length_app, length_fmap in Hq. unfold mem_chunks in Hq. lia. }
  rewrite Z.add_0_r in Hwr. exists st'. split; [done|]. split; [done|]. split; [done|].
  unfold mem_chunks. generalize (length data) at 1. intros fuel. clear.
  pose proof (max_chunk_pos (packet_size st)). revert data.
  induction fuel as [|fuel IH]; intros [|x data]; simpl; constructor; [|done].
  unfold zlen. rewrite length_take. simpl. lia.
Qed.

(** A fresh connection whose socket will deliver [chunks]. *)
Definition sample_remote (chunks : list (list Z)) : GdbRemote :=
  connect (mkStream (ReadBytes <$> chunks) [] [] None []).

Lemma read_mem_correct_witness :
  exists st', read_mem 4096 3 (sample_remote [[36; 48; 49]; [102; 102; 56; 48; 35; 57; 53]]) =
    (Ret [1; 255; 128], st') /\
    sent (stream st') = encode_packet (str "m1000,3") ++ [PLUS].
Proof.
  destruct (read_mem_correct (sample_remote [[36; 48; 49]; [102; 102; 56; 48; 35; 57; 53]])
    4096 [1; 255; 128] []) as (st'&Hr&_&Hw&_).
  - exists [36; 48; 49; 102; 102; 56; 48; 35; 57; 53], [Packet (hex_encode [1; 255; 128])], Decoder_new.
    split; [reflexivity|]. split; [vm_compute; reflexivity|reflexivity].
  - reflexivity.
  - reflexivity.
  - reflexivity.
  - solve_bytes.
  - lia.
  - reflexivity.
  - exists st'. split; [exact Hr|]. destruct Hw as (->&_). vm_compute. reflexivity.
Defined.

(** While a resume is in flight every request is refused before anything is
    written or read, whatever it is, so that no request can take the pending
    stop reply for its own answer; [cont] and [step] set this state. *)
Theorem running_target_refuses_requests st p tid annex addr len data regnum kind size :
  resume_in_flight st = true -> 0 <= addr < 2 ^ 64 -> 0 < len ->
  send_packet p st = (Fail Protocol, st) /\
  set_thread tid st = (Fail Protocol, st) /\
  threads st = (Fail Protocol, st) /\
  fetch_qxfer annex st = (Fail Protocol, st) /\
  read_mem addr len st = (Fail Protocol, st) /\
  write_mem addr data st = (Fail Protocol, st) /\
  read_regs_raw st = (Fail Protocol, st) /\
  read_reg_raw regnum st = (Fail Protocol, st) /\
  write_reg_raw regnum data st = (Fail Protocol, st) /\
  insert_breakpoint kind addr size st = (Fail Protocol, st) /\
  remove_breakpoint kind addr size st = (Fail Protocol, st) /\
  detach st = (Fail Protocol, st) /\
  (forall t st0 st1, cont t st0 = (Ret tt, st1) \/ step t st0 = (Ret tt, st1) ->
     resume_in_flight st1 = true).
Proof.
  intros Hr Haddr Hlen.
  assert (Hsend : forall p, send_packet p st = (Fail Protocol, st)).
  { intros q. unfold send_packet. mrun. by rewrite Hr. }
  split; [apply Hsend|]. do 2 (split; [unfold set_thread, threads; mrun; by rewrite Hsend|]).
  split; [unfold fetch_qxfer, run_loop; cbn [loop]; unfold fetch_qxfer_body at 1; mrun; by rewrite Hsend|].
  split.
  { unfold read_mem, run_loop. cbn [loop]. unfold read_mem_body at 1.
    rewrite (proj2 (Z.ltb_lt 0 len)) by lia. mrun. unfold uadd at 1.
    rewrite (proj2 (Z.ltb_lt (addr + 0) _)) by lia. mrun. by rewrite Hsend. }
  unfold write_mem, read_regs_raw, read_reg_raw, write_reg_raw, insert_breakpoint, remove_breakpoint, detach.
  repeat (split; [mrun; by rewrite Hsend|]).
  intros t st0 st1. unfold cont, step, write_all.
  intros [H|H]; revert H; mrun; repeat case_match; mrun; intros [= <-]; done.
Qed.

Lemma running_target_refuses_requests_witness :
  let st := set_resume_in_flight true (sample_remote []) in
  send_packet (str "g") st = (Fail Protocol, st).
Proof.
  apply (running_target_refuses_requests _ (str "g") 0 [] 0 1 [] 0 0 0); [reflexivity|lia|lia].
Defined.

(** C31. [wait_stop] delivers the next stop: with any acknowledgements,
    interrupts and other packets before it in the stream, it returns the
    result of parsing the first stop packet (or the exit packet itself),
    clears the in-flight state, acknowledges every packet it consumed, and
    leaves the rest of the stream for the next caller. *)
Theorem wait_stop_finds_stop st skip p evs :
  queue st (skip ++ Packet p :: evs) ->
  Forall (fun d => match d with Packet q => is_stop_packet q = false /\ Forall is_u8 q | _ => True end) skip ->
  is_stop_packet p = true -> Forall is_u8 p -> write_results (stream st) = [] ->
  exists st', wait_stop st =
      ((if starts_TS (from_utf8_lossy p) then parse_stop_reply p
        else Ret (mkStopInfo None (Other (from_utf8_lossy p)) (from_utf8_lossy p))), st') /\
    queue st' evs /\ resume_in_flight st' = false /\
    sent (stream st') = sent (stream st) ++ concat (repeat (ack_bytes st) (S (packets skip))).
Proof.
  intros Hq Hs Hp Hu Hw. unfold wait_stop, run_loop. apply wait_stop_loop_queue; try done.
  apply queue_budget in Hq. rewrite length_app in Hq. lia.
Qed.

Lemma wait_stop_finds_stop_witness :
  exists st', wait_stop (sample_remote [[43; 36; 83; 48]; [53; 35; 98; 56]]) =
    (Ret (mkStopInfo None (Signal 5) (str "S05")), st') /\ sent (stream st') = [PLUS].
Proof.
  destruct (wait_stop_finds_stop (sample_remote [[43; 36; 83; 48]; [53; 35; 98; 56]]) [Ack] (str "S05") [])
    as (st'&Hr&_&_&Hs).
  - exists [43; 36; 83; 48; 53; 35; 98; 56], [Ack; Packet (str "S05")], Decoder_new.
    split; [reflexivity|]. split; [vm_compute; reflexivity|reflexivity].
  - repeat constructor.
  - reflexivity.
  - change (str "S05") with [83; 48; 53]. solve_bytes.
  - reflexivity.
  - exists st'. split; [exact Hr|exact Hs].
Defined.

(** Requests always come back: from any reachable decoder state, whatever the
    socket delivers, these operations terminate with a value or an error and
    never panic, and each successful one has consumed input. *)
Theorem requests_terminate st p tid addr data regnum kind size :
  ok st ->
  good 1 st (send_packet p st) /\ good 1 st (set_thread tid st) /\ good 1 st (threads st) /\
  good 1 st (write_mem addr data st) /\ good 1 st (read_regs_raw st) /\
  good 1 st (read_reg_raw regnum st) /\ good 1 st (write_reg_raw regnum data st) /\
  good 1 st (insert_breakpoint kind addr size st) /\
  good 1 st (remove_breakpoint kind addr size st) /\ good 1 st (detach st).
Proof.
  intros Hst.
  assert (Hreq : forall (q : list Z) (f : list Z -> M unit), (forall r, safe 0 (f r)) ->
    good 1 st ((send_packet q ≫= f) st)).
  { intros q f Hf. apply request_safe; auto with gdb_safe. }
  assert (Hreq' : forall (q : list Z) (f : list Z -> M (list Z)), (forall r, safe 0 (f r)) ->
    good 1 st ((send_packet q ≫= f) st)).
  { intros q f Hf. apply request_safe; auto with gdb_safe. }
  split; [by apply send_packet_safe|]. split; [apply Hreq; auto with gdb_safe|].
  split; [by apply threads_safe|]. split; [apply Hreq; auto with gdb_safe|].
  split; [apply Hreq'; intros r; case_match; auto with gdb_safe|].
  split; [apply Hreq'; intros r; repeat case_match; auto with gdb_safe|].
  split; [apply Hreq; auto with gdb_safe|].
  split; [apply Hreq; intros r; case_match; auto with gdb_safe|].
  split; [apply Hreq; intros r; case_match; auto with gdb_safe|apply Hreq; auto with gdb_safe].
Qed.

Lemma requests_terminate_witness :
  let st := sample_remote [[36; 69; 48; 49; 35; 97; 54]] in
  good 1 st (threads st) /\ (threads st).1 = Fail Protocol.
Proof.
  split; [|vm_compute; reflexivity].
  apply (requests_terminate (sample_remote [[36; 69; 48; 49; 35; 97; 54]]) [] 0 0 [] 0 0 0).
  split; [apply wf_new|vm_compute; reflexivity].
Defined.

(** C40. Parsing a stop reply panics exactly when the reply starts like one and the
    third byte of its lossy decoding is inside a character, so never for an
    ASCII reply, but for instance for the bytes [T ff 31]: the slice
    [&s[1..3]] is not checked. *)
Theorem parse_stop_reply_panics_iff p :
  Forall is_u8 p ->
  (parse_stop_reply p = Panic <->
   starts_TS (from_utf8_lossy p) = true /\ 3 <= zlen (from_utf8_lossy p) /\
   is_char_boundary (from_utf8_lossy p) 3 = false) /\
  (ascii p -> parse_stop_reply p <> Panic) /\
  parse_stop_reply [84; 255; 49] = Panic.
Proof.
  intros Hp. assert (Hiff : parse_stop_reply p = Panic <->
   starts_TS (from_utf8_lossy p) = true /\ 3 <= zlen (from_utf8_lossy p) /\
   is_char_boundary (from_utf8_lossy p) 3 = false).
  { unfold parse_stop_reply. destruct (from_utf8_lossy p) as [|b s] eqn:Hs; [by split; [|intros [? _]]|].
    unfold starts_TS. change (str "T") with [84]. change (str "S") with [83]. rewrite !starts_with_1.
    rewrite !(Z.eqb_sym b). destruct ((84 =? b) || (83 =? b)) eqn:Hb; cycle 1.
    { apply orb_false_iff in Hb as [-> ->]. simpl. by split; [|intros [? _]]. }
    assert (H1 : is_char_boundary (b :: s) 1 = true).
    { apply (boundary_after_ascii p); [done| |done]. zbool. lia. }
    replace (negb (84 =? b) && negb (83 =? b)) with false by (by destruct (84 =? b), (83 =? b)).
    destruct (Z.ltb_spec (zlen (b :: s)) 3) as [|Hlen]; [split; [done|lia]|].
    unfold str_slice. rewrite H1. simpl (1 <=? 3). 
    destruct (is_char_boundary (b :: s) 3) eqn:H3; simpl andb; [|by split].
    split; [|by intros (_&_&?)].
    rewrite (zslice_ok (b :: s) 1 3) by lia. cbn [mbind outcome_bind].
    match goal with |- context [from_str_radix_16 8 ?x] => destruct (from_str_radix_16 8 x) end; [|done].
    assert (Hend : is_char_boundary (b :: s) (zlen (b :: s)) = true).
    { unfold is_char_boundary. destruct (zlen (b :: s) =? 0); [done|].
      destruct (zget (b :: s) (zlen (b :: s))) eqn:E; [|apply Z.eqb_refl].
      apply mk_is_Some, zget_range in E. lia. }
    rewrite Hend, (proj2 (Z.leb_le 3 (zlen (b :: s)))) by lia. simpl andb.
    rewrite (zslice_ok (b :: s) 3) by lia. cbn [mbind outcome_bind].
    match goal with |- context [parse_stop_fields ?a ?b] =>
      pose proof (parse_stop_fields_no_panic a b) as Hn;
      destruct (parse_stop_fields a b) as [[[]]| |]; done end. }
  split; [done|]. split; [|vm_compute; reflexivity].
  intros Ha. rewrite Hiff. intros (_&Hlen&Hb).
  rewrite from_utf8_lossy_ascii in * by done. rewrite is_char_boundary_ascii in Hb; [done|done|lia].
Qed.

Lemma parse_stop_reply_panics_iff_witness : parse_stop_reply [84; 255; 49] = Panic.
Proof. apply (parse_stop_reply_panics_iff [84; 255; 49]). solve_bytes. Defined.

(** ** An unsolicited stop reply at start-up *)

Lemma set_read_timeout_ok t st evs :
  t <> Some 0 -> queue st evs ->
  exists st', set_read_timeout t st = (Ret tt, st') /\ queue st' evs /\ same_client st st'.
Proof.
  intros Ht Hq. unfold set_read_timeout. rewrite bool_decide_false by done.
  eexists. split; [done|]. split; [exact Hq|by repeat split].
Qed.

Lemma drain_ready_queue st evs :
  queue st evs -> read_timeout (stream st) <> Some 0 ->
  exists st', drain_ready st = (Ret tt, st') /\ queue st' evs /\ same_client st st'.
Proof.
  intros Hq Ht. unfold drain_ready. mrun.
  destruct (set_read_timeout_ok (Some 50) st evs) as (st1&->&Hq1&Hc1); [done|done|]. mrun.
  unfold run_loop.
  destruct (drain_loop_queue (S (S (budget st1))) st1 evs Hq1) as (st2&->&Hq2&_&Hc2); [unfold budget; lia|].
  mrun. destruct (set_read_timeout_ok (read_timeout (stream st)) st2 evs Ht Hq2) as (st3&->&Hq3&Hc3).
  exists st3. split; [done|]. split; [done|]. do 2 (etrans; [eassumption|]). done.
Qed.

(** When the stub sends a stop reply on its own before the first request,
    [handshake] does not keep it for [wait_stop]: the stop reply is taken for
    the answer to [qSupported], the feature list then is taken for the answer
    to [?], and the handshake fails. *)
Theorem handshake_takes_unsolicited_stop st p features evs :
  queue st (Packet p :: Packet features :: evs) -> is_stop_packet p = true ->
  contains (str "QStartNoAckMode") (from_utf8_lossy p) = false ->
  starts_TS (from_utf8_lossy features) = false ->
  read_timeout (stream st) <> Some 0 ->
  write_results (stream st) = [] -> orphan_replies st = [] -> resume_in_flight st = false ->
  exists st', handshake st = (Fail Protocol, st') /\ queue st' evs /\
    qsupported st' = from_utf8_lossy p.
Proof.
  intros Hq Hp Hc Hf Ht Hw Ho Hr. unfold handshake. mrun.
  destruct (drain_ready_queue st _ Hq Ht) as (st1&->&Hq1&(Hs1&Hw1&_&_&_&_&Ho1&Hr1)). mrun.
  match goal with |- context [send_packet ?q st1] =>
    destruct (send_packet_queue q [] st1 p _ Hq1) as (st2&->&Hq2&(_&Hw2&_&_&_&Ho2&Hr2));
      [constructor|congruence..|] end.
  mrun. cbn [qsupported set_qsupported]. rewrite Hc.
  set (st3 := set_qsupported (from_utf8_lossy p) st2).
  set (st4 := match parse_packet_size (from_utf8_lossy p) with
              | Some sz => set_packet_size sz st3 | None => st3 end).
  assert (H4 : (match parse_packet_size (from_utf8_lossy p) with
     | Some sz => modify (set_packet_size sz) | None => mret () end) st3 = (Ret tt, st4))
    by (unfold st4; by destruct (parse_packet_size _)).
  rewrite H4. mrun.
  assert (Hq4 : queue st4 (Packet features :: evs)) by (unfold st4; destruct (parse_packet_size _); exact Hq2).
  destruct (send_packet_queue (str "?") [] st4 features evs Hq4) as (st5&->&Hq5&(_&_&_&_&Hqs5&_&_));
    [constructor|unfold st4; destruct (parse_packet_size _); simpl; congruence..|].
  mrun. assert (Hparse : parse_stop_reply features = Fail Protocol).
  { unfold parse_stop_reply. destruct (from_utf8_lossy features) as [|b s]; [done|].
    unfold starts_TS in Hf. change (str "T") with [84] in Hf. change (str "S") with [83] in Hf.
    rewrite !starts_with_1 in Hf. apply orb_false_iff in Hf as [H1 H2].
    rewrite !(Z.eqb_sym b), H1, H2. done. }
  rewrite Hparse. exists st5. split; [done|]. split; [done|]. rewrite Hqs5.
  unfold st4. by destruct (parse_packet_size _).
Qed.

Definition unsolicited_stream : list (list Z) :=
  [encode_packet (str "T05thread:01;"); encode_packet (str "PacketSize=1000;QStartNoAckMode+")].

Lemma handshake_takes_unsolicited_stop_witness :
  exists st', handshake (sample_remote unsolicited_stream) = (Fail Protocol, st') /\
    qsupported st' = str "T05thread:01;".
Proof.
  destruct (handshake_takes_unsolicited_stop (sample_remote unsolicited_stream)
    (str "T05thread:01;") (str "PacketSize=1000;QStartNoAckMode+") []) as (st'&Hh&_&Hq);
    [|reflexivity..|discriminate|reflexivity|reflexivity|reflexivity|].
  - eexists (concat unsolicited_stream),
      [Packet (str "T05thread:01;"); Packet (str "PacketSize=1000;QStartNoAckMode+")], Decoder_new.
    split; [vm_compute; reflexivity|]. split; [vm_compute; reflexivity|reflexivity].
  - exists st'. split; [exact Hh|]. rewrite Hq. reflexivity.
Defined.

(** ** Stop replies built from their parts *)

(** The reply a stub sends for a stop of thread [tid] with signal [sig]. *)
Definition stop_reason_field (k : StopKind) : list Z :=
  match k with
  | SwBreak => str "swbreak:;"
  | HwBreak => str "hwbreak:;"
  | Watch w r a =>
      (if r then if w then str "awatch" else str "rwatch" else str "watch") ++
      match a with Some x => str ":" ++ to_hex x | None => [] end ++ str ";"
  | Signal _ | Other _ => []
  end.
Definition render_stop (sig : Z) (tid : option Z) (k : StopKind) : list Z :=
  str "T" ++ hex_encode [sig] ++
  match tid with Some t => str "thread:" ++ to_hex t ++ str ";" | None => [] end ++
  stop_reason_field k.

(** The kinds a stub can report, with signal [sig]. *)
Definition reportable (sig : Z) (k : StopKind) : Prop :=
  match k with
  | Signal s => s = sig
  | SwBreak | HwBreak => True
  | Watch w r a => (w || r = true) /\ match a with Some x => is_u64 x | None => True end
  | Other _ => False
  end.

(** The fields of a rendered reply. *)
Definition stop_fields (tid : option Z) (k : StopKind) : list (list Z) :=
  match tid with Some t => [str "thread:" ++ to_hex t] | None => [] end ++
  match k with
  | SwBreak => [str "swbreak:"]
  | HwBreak => [str "hwbreak:"]
  | Watch w r a =>
      [(if r then if w then str "awatch" else str "rwatch" else str "watch") ++
       match a with Some x => str ":" ++ to_hex x | None => [] end]
  | Signal _ | Other _ => []
  end.

Lemma two_digits_value sig :
  is_u8 sig -> from_str_radix_16 8 (hex_encode [sig]) = Some sig.
Proof.
  intros Hs. destruct (nibbles_range sig Hs) as [Hh Hl]. simpl hex_encode.
  pose proof (hex_digit_range _ Hh) as Hr. unfold hex_char in Hr.
  unfold from_str_radix_16, PLUS. rewrite (proj2 (Z.eqb_neq _ 43)) by lia. simpl.
  rewrite !hex_val_digit by done.
  rewrite (proj2 (Z.ltb_lt _ _)) by lia. simpl.
  assert (He : (0 * 16 + Z.shiftr sig 4) * 16 + Z.land sig 15 = sig).
  { rewrite Z.shiftr_div_pow2 by lia. change 15 with (Z.ones 4). rewrite Z.land_ones by lia.
    change (2 ^ 4) with 16. pose proof (Z.div_mod sig 16 ltac:(lia)). lia. }
  simpl in He. rewrite He. unfold is_u8 in Hs. by rewrite (proj2 (Z.ltb_lt _ _)) by lia.
Qed.

Lemma thread_field t kind specific :
  1 <= t < 2 ^ 64 -> 
  parse_stop_field (str "thread:" ++ to_hex t) (None, kind, specific) = Ret (Some t, kind, specific).
Proof.
  intros Ht. assert (Hu : is_u64 t) by (unfold is_u64; lia).
  destruct (to_hex_chars t Hu) as [Hd Hne]. unfold parse_stop_field.
  change (str "thread:" ++ to_hex t) with (str "thread" ++ [58] ++ to_hex t).
  rewrite split_once_app by solve_bytes.
  rewrite bytes_eqb_refl, rsplit_first_none by (apply hex_char_ne; [unfold hex_char; lia|done]).
  cbn [from_option id]. assert (Hm : strip_prefix [MINUS] (to_hex t) = None).
  { destruct (to_hex t) as [|c ds]; [done|]. apply Forall_cons in Hd as [Hc _].
    unfold hex_char in Hc. cbn [strip_prefix]. by rewrite (proj2 (Z.eqb_neq MINUS c)) by (unfold MINUS; lia). }
  rewrite Hm. cbn [from_option id]. pose proof (from_to_hex t Hu) as Hf.
  rewrite (bytes_eqb_ne (to_hex t) (str "0")), (bytes_eqb_ne (to_hex t) (str "-1")).
  - cbn [orb]. unfold parse_u64_hex. by rewrite Hf.
  - intros He. rewrite He in Hf. vm_compute in Hf. done.
  - intros He. rewrite He in Hf. vm_compute in Hf. injection Hf as <-. lia.
Qed.

(** A watchpoint field is decided by its name, and carries an address or not. *)
Lemma watch_field (name : list Z) thread kind specific (w r : bool) a :
  (w, r, name) = (true, false, str "watch") \/ (w, r, name) = (false, true, str "rwatch") \/
  (w, r, name) = (true, true, str "awatch") ->
  match a with Some x => is_u64 x | None => True end ->
  parse_stop_field (name ++ match a with Some x => str ":" ++ to_hex x | None => [] end)
    (thread, kind, specific) = Ret (thread, Watch w r a, true).
Proof.
  intros Hn Ha. unfold parse_stop_field.
  assert (Hs : split_once 58 (name ++ match a with Some x => str ":" ++ to_hex x | None => [] end) =
    match a with Some x => Some (name, to_hex x) | None => None end).
  { destruct a as [x|].
    - change (str ":" ++ to_hex x) with ([58] ++ to_hex x). apply split_once_app.
      destruct Hn as [|[|]]; simplify_eq; solve_bytes.
    - rewrite app_nil_r. by destruct Hn as [|[|]]; simplify_eq. }
  rewrite Hs. destruct a as [x|].
  - destruct Hn as [|[|]]; simplify_eq; cbn -[from_str_radix_16 to_hex]; by rewrite from_to_hex.
  - rewrite app_nil_r. by destruct Hn as [|[|]]; simplify_eq.
Qed.

Lemma stop_fields_rendered tid k :
  match k with Watch _ _ (Some x) => is_u64 x | _ => True end ->
  match tid with Some t => is_u64 t | None => True end ->
  match tid with Some t => str "thread:" ++ to_hex t ++ str ";" | None => [] end ++ stop_reason_field k =
    concat (map (fun p => p ++ [59]) (stop_fields tid k)) /\
  Forall (fun p => p <> [] /\ Forall (fun b => b <> 59) p) (stop_fields tid k) /\
  Forall ascii (stop_fields tid k).
Proof.
  intros Hk Ht. split; [|apply Forall_and; apply Forall_app; split].
  - unfold stop_fields. rewrite map_app, concat_app. f_equal.
    + destruct tid; simpl; [|done]. by rewrite app_nil_r.
    + destruct k as [| | |w r a|]; simpl; try done. rewrite app_nil_r.
      destruct r, w, a; simpl; by rewrite ?app_nil_r.
  - destruct tid as [t|]; [|constructor]. destruct (to_hex_chars t Ht) as [Hd _].
    apply Forall_singleton. split.
    + split; [done|]. apply Forall_app. split; [solve_bytes|].
      apply hex_char_ne; [unfold hex_char; lia|done].
    + apply Forall_app. split; [solve_bytes|by apply hex_char_ascii].
  - destruct k as [| | |w r a|]; [constructor| | | |constructor];
      [apply Forall_singleton; split; [split; [done|]|]; solve_bytes..|].
    apply Forall_singleton.
    assert (Ha : Forall (fun b => b <> 59 /\ 0 <= b < 128) (match a with Some x => str ":" ++ to_hex x | None => [] end)).
    { destruct a as [x|]; [|constructor]. destruct (to_hex_chars x Hk) as [Hd _].
      apply Forall_and. split; (apply Forall_app; split; [solve_bytes|]).
      - apply hex_char_ne; [unfold hex_char; lia|done].
      - by apply hex_char_ascii. }
    apply Forall_and in Ha as [Ha1 Ha2].
    split; [split; [by destruct r, w|]|]; (apply Forall_app; split; [destruct r, w; solve_bytes|done]).
Qed.

Lemma parse_rendered_fields sig tid k :
  match tid with Some t => 1 <= t < 2 ^ 64 | None => True end -> reportable sig k ->
  parse_stop_fields (stop_fields tid k) (None, Signal sig, false) =
  Ret (tid, k, match k with Signal _ => false | _ => true end).
Proof.
  intros Ht Hk. unfold stop_fields.
  assert (Hhead : forall rest,
    parse_stop_fields (match tid with Some t => [str "thread:" ++ to_hex t] | None => [] end ++ rest)
      (None, Signal sig, false) = parse_stop_fields rest (tid, Signal sig, false)).
  { intros rest. destruct tid as [t|]; [|done]. cbn [app parse_stop_fields].
    by rewrite thread_field by done. }
  rewrite Hhead. destruct k as [s| | |w r a|s]; simpl in Hk; try done; [by rewrite Hk|].
  cbn [parse_stop_fields]. rewrite (watch_field _ _ _ _ w r a); [done| |tauto].
  destruct w, r; simpl in *; [by right; right|by left|by right; left|by destruct Hk].
Qed.

(** Every stop a stub can report, with or without a thread, is understood: the
    reply built from a signal, a thread number and a reason (none, a software
    or hardware breakpoint, a watchpoint with its access kind and optional
    address) parses to exactly that thread and reason. *)
Theorem stop_reply_roundtrip sig tid k :
  is_u8 sig -> match tid with Some t => 1 <= t < 2 ^ 64 | None => True end -> reportable sig k ->
  parse_stop_reply (render_stop sig tid k) = Ret (mkStopInfo tid k (render_stop sig tid k)).
Proof.
  intros Hs Ht Hk.
  destruct (stop_fields_rendered tid k) as (Hr&Hne&Ha).
  { destruct k as [| | |? ? [x|]|]; simpl in Hk; tauto. }
  { destruct tid; [unfold is_u64; lia|done]. }
  assert (Hrest : render_stop sig tid k =
    84 :: hex_encode [sig] ++ concat (map (fun p => p ++ [59]) (stop_fields tid k))).
  { unfold render_stop. by rewrite Hr. }
  assert (Hascii : ascii (render_stop sig tid k)).
  { rewrite Hrest. apply Forall_cons. split; [lia|]. apply Forall_app.
    split; [apply hex_encode_ascii; by apply Forall_singleton|].
    apply Forall_concat, Forall_fmap. eapply Forall_impl; [exact Ha|]. intros f Hf.
    apply Forall_app. split; [done|]. solve_bytes. }
  unfold parse_stop_reply. rewrite from_utf8_lossy_ascii by done.
  set (s := render_stop sig tid k) in *. set (body := concat _) in Hrest.
  assert (Hlen : zlen s = 3 + zlen body).
  { rewrite Hrest. rewrite zlen_cons, zlen_app, hex_encode_zlen. change (zlen [sig]) with 1. lia. }
  pose proof (zlen_nonneg body).
  rewrite Hrest at 1. simpl (negb (84 =? 84) && _). cbv beta iota.
  rewrite (proj2 (Z.ltb_ge (zlen s) 3)) by lia.
  unfold str_slice. rewrite !is_char_boundary_ascii by (done || lia).
  rewrite (proj2 (Z.leb_le 3 (zlen s))) by lia. simpl andb. cbv iota.
  rewrite !(zslice_ok s) by lia. cbn [mbind outcome_bind].
  assert (H13 : take (Z.to_nat (3 - 1)) (drop (Z.to_nat 1) s) = hex_encode [sig]) by (by rewrite Hrest).
  assert (H3 : take (Z.to_nat (zlen s - 3)) (drop (Z.to_nat 3) s) = body).
  { rewrite Hlen, Hrest. simpl. apply take_ge. unfold zlen. lia. }
  rewrite H13, H3, two_digits_value by done.
  unfold body. rewrite split_on_terminated by done.
  rewrite parse_rendered_fields by done. simpl.
  destruct k; simpl in Hk; try done. by subst.
Qed.

Lemma stop_reply_roundtrip_witness :
  parse_stop_reply (str "T05thread:1a;awatch:7fff;") =
  Ret (mkStopInfo (Some 26) (Watch true true (Some 32767)) (str "T05thread:1a;awatch:7fff;")).
Proof.
  apply (stop_reply_roundtrip 5 (Some 26) (Watch true true (Some 32767)));
    [unfold is_u8; lia|cbn; lia|].
  split; [reflexivity|unfold is_u64; lia].
Defined.
