(* ===== verification/StateMonad.v ===== *)
(** Methods on [&mut self] that can fail or panic: the state is kept on errors. *)
From Stdlib Require Import ZArith Lia.
From stdpp Require Import base list.
From S2P Require Import Prelude.
Open Scope Z_scope.

Definition stm (S E A : Type) : Type := S -> outcome E A * S.
#[export] Instance stm_ret {S E} : MRet (stm S E) := fun A a st => (Ret a, st).
#[export] Instance stm_bind {S E} : MBind (stm S E) := fun A B f m st =>
  match m st with
  | (Ret a, st) => f a st
  | (Fail e, st) => (Fail e, st)
  | (Panic, st) => (Panic, st)
  end.

Section Operations.
  Context {S E : Type}.

Definition sfail {A} (e : E) : stm S E A := fun st => (Fail e, st).
Definition spanic {A} : stm S E A := fun st => (Panic, st).
Definition sget {A} (f : S -> A) : stm S E A := fun st => (Ret (f st), st).
Definition smodify (f : S -> S) : stm S E unit := fun st => (Ret tt, f st).
Definition slift {A} (o : outcome E A) : stm S E A := fun st => (o, st).
(** [unwrap] and indexing. *)
Definition sopt {A} (o : option A) : stm S E A := slift (lift_opt o).
Definition sassert (b : bool) : stm S E unit := slift (rassert b).
(** [match m { Ok(a) => .., Err(e) => .. }] *)
Definition stry {A} (m : stm S E A) : stm S E (A + E) := fun st =>
  match m st with
  | (Ret a, st) => (Ret (inl a), st)
  | (Fail e, st) => (Ret (inr e), st)
  | (Panic, st) => (Panic, st)
  end.
(** [if b { m }] *)
Definition swhen (b : bool) (m : stm S E unit) : stm S E unit := if b then m else mret tt.

(** [for x in l { f(x)?; }] *)
Fixpoint sfor {A} (l : list A) (f : A -> stm S E unit) : stm S E unit :=
  match l with
  | [] => mret tt
  | x :: l => _ ← f x; sfor l f
  end.
(** The same with a local variable. *)
Fixpoint sfold {A B} (l : list A) (b : B) (f : B -> A -> stm S E B) : stm S E B :=
  match l with
  | [] => mret b
  | x :: l => b ← f b x; sfold l b f
  end.
End Operations.

Lemma stm_bind_run {S E A B} (m : stm S E A) (f : A -> stm S E B) st :
  (m ≫= f) st = match m st with
                | (Ret a, st) => f a st
                | (Fail e, st) => (Fail e, st)
                | (Panic, st) => (Panic, st)
                end.
Proof. done. Qed.
Lemma stm_ret_run {S E A} (a : A) st : (mret a : stm S E A) st = (Ret a, st).
Proof. done. Qed.
Lemma sget_run {S E A} (f : S -> A) st : (sget f : stm S E A) st = (Ret (f st), st).
Proof. done. Qed.
Lemma smodify_run {S E} (f : S -> S) st : (smodify f : stm S E unit) st = (Ret tt, f st).
Proof. done. Qed.
Lemma slift_run {S E A} (o : outcome E A) st : (slift o : stm S E A) st = (o, st).
Proof. done. Qed.
Lemma sopt_run {S E A} (o : option A) st : (sopt o : stm S E A) st = (lift_opt o, st).
Proof. done. Qed.
Lemma sassert_run {S E} b st : (sassert b : stm S E unit) st = (rassert b, st).
Proof. done. Qed.
Lemma sfail_run {S E A} (e : E) st : (sfail e : stm S E A) st = (Fail e, st).
Proof. done. Qed.
Lemma stry_run {S E A} (m : stm S E A) st :
  stry m st = match m st with
              | (Ret a, st) => (Ret (inl a), st)
              | (Fail e, st) => (Ret (inr e), st)
              | (Panic, st) => (Panic, st)
              end.
Proof. done. Qed.

Create Rewrite HintDb srun.
#[export] Hint Rewrite @stm_bind_run @stm_ret_run @sget_run @smodify_run @slift_run @sopt_run
  @sassert_run @sfail_run @stry_run : srun.
(** Symbolic execution of one computation. *)
Ltac srun := repeat (autorewrite with srun; cbn [fst snd lift_opt rassert widen]).

(** ** Invariants of computations

    [keeps I m]: unless it panics, [m] keeps [I], on errors too. *)
Section Keeps.
  Context {S E : Type} (I : S -> Prop).

Definition after {A} (r : outcome E A * S) : Prop :=
  match r with (Panic, _) => True | (_, st) => I st end.
Definition keeps {A} (m : stm S E A) : Prop := forall st, I st -> after (m st).

Lemma keeps_ret {A} (a : A) : keeps (mret a).
Proof. by intros st. Qed.
Lemma after_bind {A B} (m : stm S E A) (f : A -> stm S E B) st :
  after (m st) -> (forall a st', m st = (Ret a, st') -> I st' -> after (f a st')) ->
  after ((m ≫= f) st).
Proof.
  intros Hm Hf. rewrite stm_bind_run. destruct (m st) as [[a| |] st1]; simpl in *; [by apply Hf|done..].
Qed.
Lemma keeps_bind {A B} (m : stm S E A) (f : A -> stm S E B) :
  keeps m -> (forall a, keeps (f a)) -> keeps (m ≫= f).
Proof. intros Hm Hf st Hst. apply after_bind; [by apply Hm|]. intros. by apply Hf. Qed.
Lemma keeps_get {A} (f : S -> A) : keeps (sget f).
Proof. by intros st. Qed.
Lemma keeps_get_bind {A B} (g : S -> A) (f : A -> stm S E B) :
  (forall st, I st -> after (f (g st) st)) -> keeps (sget g ≫= f).
Proof. intros Hf st Hst. rewrite stm_bind_run. simpl. by apply Hf. Qed.
Lemma keeps_lift {A} (o : outcome E A) : keeps (slift o).
Proof. intros st Hst. by destruct o. Qed.
Lemma keeps_opt {A} (o : option A) : keeps (sopt o).
Proof. apply keeps_lift. Qed.
Lemma keeps_assert b : keeps (sassert b).
Proof. apply keeps_lift. Qed.
Lemma keeps_fail {A} (e : E) : keeps (sfail e : stm S E A).
Proof. by intros st. Qed.
Lemma keeps_panic {A} : keeps (spanic : stm S E A).
Proof. by intros st. Qed.
Lemma keeps_modify f : (forall st, I st -> I (f st)) -> keeps (smodify f).
Proof. intros Hf st Hst. by apply Hf. Qed.
Lemma keeps_try {A} (m : stm S E A) : keeps m -> keeps (stry m).
Proof.
  intros Hm st Hst. rewrite stry_run. specialize (Hm st Hst). by destruct (m st) as [[] ?].
Qed.
Lemma keeps_when b (m : stm S E unit) : keeps m -> keeps (swhen b m).
Proof. intros Hm. destruct b; [done|apply keeps_ret]. Qed.
Lemma keeps_if {A} (b : bool) (m m' : stm S E A) : keeps m -> keeps m' -> keeps (if b then m else m').
Proof. by destruct b. Qed.
Lemma keeps_for {A} (l : list A) (f : A -> stm S E unit) :
  (forall x, x ∈ l -> keeps (f x)) -> keeps (sfor l f).
Proof.
  induction l as [|x l IH]; intros Hf; simpl; [apply keeps_ret|].
  apply keeps_bind; [apply Hf; left|]. intros _. apply IH. intros y Hy. apply Hf. by right.
Qed.
Lemma keeps_fold {A B} (l : list A) (b : B) (f : B -> A -> stm S E B) :
  (forall b x, keeps (f b x)) -> keeps (sfold l b f).
Proof.
  intros Hf. revert b. induction l as [|x l IH]; intros b; simpl; [apply keeps_ret|].
  apply keeps_bind; [apply Hf|]. intros b'. apply IH.
Qed.
(** A computation that does not change what [I] looks at. *)
Lemma keeps_frame {A T} (view : S -> T) (J : T -> Prop) (m : stm S E A) :
  (forall st, I st <-> J (view st)) -> (forall st, view (m st).2 = view st) -> keeps m.
Proof.
  intros HI Hm st Hst. specialize (Hm st). destruct (m st) as [[a| |] st1]; simpl in *; try done;
    apply HI; rewrite Hm; by apply HI.
Qed.
End Keeps.

Lemma after_mono {S E A} (I J : S -> Prop) (r : outcome E A * S) :
  (forall st, I st -> J st) -> after I r -> after J r.
Proof. destruct r as [[] ?]; simpl; auto. Qed.

(** Loops over consecutive indices, with an invariant [W i] before index [i] and
    a condition [F] on states left by errors. *)
Section Loops.
  Context {S E : Type}.

Definition ends {A} (Q : A -> S -> Prop) (F : S -> Prop) (r : outcome E A * S) : Prop :=
  match r with (Ret a, st) => Q a st | (Fail _, st) => F st | (Panic, _) => True end.

Lemma ends_bind {A B} (P : A -> S -> Prop) (Q : B -> S -> Prop) F (m : stm S E A) (f : A -> stm S E B) st :
  ends P F (m st) -> (forall a st', P a st' -> ends Q F (f a st')) -> ends Q F ((m ≫= f) st).
Proof. intros Hm Hf. rewrite stm_bind_run. destruct (m st) as [[] ?]; simpl in *; auto. Qed.

Lemma ends_weaken {A} (P Q : A -> S -> Prop) (F G : S -> Prop) (r : outcome E A * S) :
  (forall a st, P a st -> Q a st) -> (forall st, F st -> G st) -> ends P F r -> ends Q G r.
Proof. destruct r as [[] ?]; simpl; auto. Qed.

Lemma seqZ_S k n : 0 < n -> seqZ k n = k :: seqZ (k + 1) (n - 1).
Proof. intros Hn. rewrite seqZ_cons by lia. by rewrite Z.sub_1_r, Z.add_1_r. Qed.

Lemma sfor_seqZ (W : Z -> S -> Prop) (F : S -> Prop) (f : Z -> stm S E unit) k n st :
  0 <= n -> W k st ->
  (forall i st, k <= i < k + n -> W i st -> ends (fun _ => W (i + 1)) F (f i st)) ->
  ends (fun _ => W (k + n)) F (sfor (seqZ k n) f st).
Proof.
  intros Hn. revert n Hn k st. apply (natlike_ind (fun n => forall k st, _ -> _ -> _)).
  - intros k st Hk _. cbn [seqZ sfor]. simpl. by rewrite Z.add_0_r.
  - intros n Hn IH k st Hk Hf. rewrite seqZ_S by lia. cbn [sfor].
    apply (ends_bind (fun _ => W (k + 1))); [apply Hf; [lia|done]|].
    intros _ st' Hk'. replace (Z.succ n - 1) with n by lia. replace (k + Z.succ n) with (k + 1 + n) by lia.
    apply IH; [done|]. intros i st1 Hi. apply Hf. lia.
Qed.

Lemma sfold_seqZ {B} (W : Z -> B -> S -> Prop) (F : S -> Prop) (f : B -> Z -> stm S E B) k n b st :
  0 <= n -> W k b st ->
  (forall i b st, k <= i < k + n -> W i b st -> ends (W (i + 1)) F (f b i st)) ->
  ends (W (k + n)) F (sfold (seqZ k n) b f st).
Proof.
  intros Hn. revert n Hn k b st. apply (natlike_ind (fun n => forall k b st, _ -> _ -> _)).
  - intros k b st Hk _. cbn [seqZ sfold]. simpl. by rewrite Z.add_0_r.
  - intros n Hn IH k b st Hk Hf. rewrite seqZ_S by lia. cbn [sfold].
    apply (ends_bind (W (k + 1))); [apply Hf; [lia|done]|].
    intros b' st' Hk'. replace (Z.succ n - 1) with n by lia. replace (k + Z.succ n) with (k + 1 + n) by lia.
    apply IH; [done|]. intros i b1 st1 Hi. apply Hf. lia.
Qed.
End Loops.

Create HintDb keeps.
#[export] Hint Resolve keeps_ret keeps_get keeps_lift keeps_opt keeps_assert keeps_fail keeps_panic : keeps.
#[export] Hint Resolve keeps_try keeps_when keeps_if : keeps.

(** Follows the structure of a computation. *)
Ltac keeps_step :=
  match goal with
  | |- keeps _ (_ ≫= _) => apply keeps_bind; [|intros ?]
  | |- keeps _ (sfor _ _) => apply keeps_for; intros ? _
  | |- keeps _ (sfold _ _ _) => apply keeps_fold; intros ? ?
  | |- keeps _ (if _ then _ else _) => apply keeps_if
  | |- keeps _ (match ?x with _ => _ end) => destruct x
  | |- keeps _ (let '_ := ?x in _) => destruct x
  | |- keeps _ _ => progress auto with keeps
  end.
Ltac keeps := repeat keeps_step.

(** ** Total correctness up to errors

    [wp m Q st]: from [st], [m] does not panic, and if it returns [a] in
    [st'], then [Q a st']. *)
Section Wp.
  Context {S E : Type}.

Definition wp {A} (m : stm S E A) (Q : A -> S -> Prop) (st : S) : Prop :=
  match m st with
  | (Ret a, st') => Q a st'
  | (Fail _, _) => True
  | (Panic, _) => False
  end.

Lemma wp_ret {A} (a : A) (Q : A -> S -> Prop) st : Q a st -> wp (mret a) Q st.
Proof. done. Qed.
Lemma wp_fail {A} (e : E) (Q : A -> S -> Prop) st : wp (sfail e) Q st.
Proof. done. Qed.
Lemma wp_get {A} (f : S -> A) (Q : A -> S -> Prop) st : Q (f st) st -> wp (sget f) Q st.
Proof. done. Qed.
Lemma wp_modify f (Q : unit -> S -> Prop) st : Q tt (f st) -> wp (smodify f) Q st.
Proof. done. Qed.
Lemma wp_opt {A} (o : option A) a (Q : A -> S -> Prop) st : o = Some a -> Q a st -> wp (sopt o) Q st.
Proof. by intros ->. Qed.
Lemma wp_assert (b : bool) (Q : unit -> S -> Prop) st : b = true -> Q tt st -> wp (sassert b) Q st.
Proof. by intros ->. Qed.
Lemma wp_mono {A} (m : stm S E A) (Q Q' : A -> S -> Prop) st :
  wp m Q st -> (forall a st', Q a st' -> Q' a st') -> wp m Q' st.
Proof. unfold wp. destruct (m st) as [[]]; auto. Qed.
Lemma wp_bind {A B} (m : stm S E A) (f : A -> stm S E B) (Q : B -> S -> Prop) st :
  wp m (fun a => wp (f a) Q) st -> wp (m ≫= f) Q st.
Proof. unfold wp. rewrite stm_bind_run. by destruct (m st) as [[]]. Qed.
End Wp.

(** [returns m Q st]: from [st], [m] returns some [a] in some [st'] with [Q a st']. *)
Section Returns.
  Context {S E : Type}.

Definition returns {A} (m : stm S E A) (Q : A -> S -> Prop) (st : S) : Prop :=
  match m st with (Ret a, st') => Q a st' | _ => False end.

Lemma returns_ret {A} (a : A) (Q : A -> S -> Prop) st : Q a st -> returns (mret a) Q st.
Proof. done. Qed.
Lemma returns_get {A} (f : S -> A) (Q : A -> S -> Prop) st : Q (f st) st -> returns (sget f) Q st.
Proof. done. Qed.
Lemma returns_modify f (Q : unit -> S -> Prop) st : Q tt (f st) -> returns (smodify f) Q st.
Proof. done. Qed.
Lemma returns_opt {A} (o : option A) a (Q : A -> S -> Prop) st : o = Some a -> Q a st -> returns (sopt o) Q st.
Proof. by intros ->. Qed.
Lemma returns_bind {A B} (m : stm S E A) (f : A -> stm S E B) (Q : B -> S -> Prop) st :
  returns m (fun a => returns (f a) Q) st -> returns (m ≫= f) Q st.
Proof. unfold returns. rewrite stm_bind_run. by destruct (m st) as [[]]. Qed.
Lemma returns_mono {A} (m : stm S E A) (Q Q' : A -> S -> Prop) st :
  returns m Q st -> (forall a st', Q a st' -> Q' a st') -> returns m Q' st.
Proof. unfold returns. destruct (m st) as [[]]; auto. Qed.
Lemma returns_run {A} (m : stm S E A) a st' (Q : A -> S -> Prop) st : m st = (Ret a, st') -> Q a st' -> returns m Q st.
Proof. unfold returns. by intros ->. Qed.
End Returns.
