(* ===== verification/Breakpoints.v ===== *)
(** Breakpoint management of src/debugger.rs: the breakpoint list, the sorted
    list of code locations, the four hardware slots, and their activation in
    the debuggee, local (ptrace) or remote (GDB stub). *)
From Stdlib Require Import ZArith Lia.
From stdpp Require Import base list.
From S2P Require Import Prelude Errors Registers StateMonad Pool BreakpointData GdbProto GdbRemote.
Open Scope Z_scope.

(** ** The debuggee

    What the code asks of the kernel, on the state [M] of the traced process. *)
Class Machine (M : Type) := {
  read_u8 : M -> Z -> result Z;
  read_u64 : M -> Z -> result Z;
  (* ptrace(PTRACE_POKETEXT, tid, addr, word) *)
  poke_text : M -> Z -> Z -> Z -> result unit * M;
  (* ptrace(PTRACE_POKEUSER, tid, offsetof(u_debugreg) + 8 * register, value) *)
  poke_debugreg : M -> Z -> Z -> Z -> result unit * M;
  (* ptrace(PTRACE_INTERRUPT, tid) *)
  ptrace_interrupt : M -> Z -> result unit * M
}.

(** ** State *)

Inductive ProcessState :=
  | NoProcess | Starting | Exiting | PRunning | PSuspended | CoreDump | Stepping.
Definition process_ready (s : ProcessState) : bool :=
  match s with
  | NoProcess | Starting | Exiting | CoreDump => false
  | PRunning | PSuspended | Stepping => true
  end.

Inductive ThreadState := Running | Suspended.
#[export] Instance ThreadState_eq_dec : EqDecision ThreadState.
Proof. solve_decision. Defined.

(** The fields of a thread that breakpoint management uses; [rip] is
    [info.regs]' instruction pointer if known. *)
Record Thread := mkThread {
  tstate : ThreadState;
  rip : option Z;
  is_after_user_debug_trap_instruction : bool;
  ignore_next_hw_breakpoint_hit_at_addr : option Z;
  sent_interrupt : bool;
  exiting : bool
}.

Inductive StepBreakpointType :=
  | SBCall | SBJumpOut | SBAfterRet | SBAfterRange | SBCatch | SBCursor (subfunction_level : Z).

Inductive BreakpointRef :=
  | Step (t : StepBreakpointType)
  | RefId (id : Id) (subfunction_level : Z).
Definition is_step (r : BreakpointRef) : bool := match r with Step _ => true | RefId _ _ => false end.
Definition refers_to (id : Id) (r : BreakpointRef) : bool :=
  match r with RefId id' _ => bool_decide (id' = id) | Step _ => false end.

Record BreakpointLocation := mkLocation {
  addr : Z;
  original_byte : Z;
  hardware : bool;
  loc_active : bool;
  refs : list BreakpointRef;
  error : option Error;
  no_retry : bool
}.

Record HardwareBreakpoint := mkHw {
  hw_active : bool;
  thread_specific : option Z;
  hw_addr : Z;
  data_breakpoint_id : option Id;
  stop_on_read : bool;
  data_size : Z;
  pushed_to_threads : bool
}.
Definition hw_default : HardwareBreakpoint := mkHw false None 0 None false 0 false.

(** The part of the step in progress that is used here. *)
Record StepState := mkStep { step_tid : Z; keep_other_threads_suspended : bool }.

Record Debugger (Expression M : Type) := mkDebugger {
  is_remote : bool;
  target_state : ProcessState;
  threads : list (Z * Thread);             (* in the iteration order of the map *)
  any_live_tid : Z;
  breakpoints : Pool (Breakpoint Expression);
  breakpoint_locations : list BreakpointLocation;
  hardware_breakpoints : list HardwareBreakpoint;
  stepping : option StepState;
  pending_step : bool;
  stopping_to_handle_breakpoints : bool;
  stopped_until_symbols_are_loaded : option Z;
  guest_arch : Arch;
  remote : option GdbRemote;
  machine : M
}.
Arguments mkDebugger {Expression M}.
Arguments is_remote {Expression M} d.
Arguments target_state {Expression M} d.
Arguments threads {Expression M} d.
Arguments any_live_tid {Expression M} d.
Arguments breakpoints {Expression M} d.
Arguments breakpoint_locations {Expression M} d.
Arguments hardware_breakpoints {Expression M} d.
Arguments stepping {Expression M} d.
Arguments pending_step {Expression M} d.
Arguments stopping_to_handle_breakpoints {Expression M} d.
Arguments stopped_until_symbols_are_loaded {Expression M} d.
Arguments guest_arch {Expression M} d.
Arguments remote {Expression M} d.
Arguments machine {Expression M} d.

Section Setters.
  Context {Expression M : Type}.
  Implicit Types d : Debugger Expression M.

Definition set_threads t d : Debugger Expression M := mkDebugger (is_remote d) (target_state d) t (any_live_tid d)
  (breakpoints d) (breakpoint_locations d) (hardware_breakpoints d) (stepping d) (pending_step d)
  (stopping_to_handle_breakpoints d) (stopped_until_symbols_are_loaded d) (guest_arch d) (remote d) (machine d).
Definition set_breakpoints b d : Debugger Expression M := mkDebugger (is_remote d) (target_state d) (threads d) (any_live_tid d)
  b (breakpoint_locations d) (hardware_breakpoints d) (stepping d) (pending_step d)
  (stopping_to_handle_breakpoints d) (stopped_until_symbols_are_loaded d) (guest_arch d) (remote d) (machine d).
Definition set_locations l d : Debugger Expression M := mkDebugger (is_remote d) (target_state d) (threads d) (any_live_tid d)
  (breakpoints d) l (hardware_breakpoints d) (stepping d) (pending_step d)
  (stopping_to_handle_breakpoints d) (stopped_until_symbols_are_loaded d) (guest_arch d) (remote d) (machine d).
Definition set_hw h d : Debugger Expression M := mkDebugger (is_remote d) (target_state d) (threads d) (any_live_tid d)
  (breakpoints d) (breakpoint_locations d) h (stepping d) (pending_step d)
  (stopping_to_handle_breakpoints d) (stopped_until_symbols_are_loaded d) (guest_arch d) (remote d) (machine d).
Definition set_stepping s p d : Debugger Expression M := mkDebugger (is_remote d) (target_state d) (threads d) (any_live_tid d)
  (breakpoints d) (breakpoint_locations d) (hardware_breakpoints d) s p
  (stopping_to_handle_breakpoints d) (stopped_until_symbols_are_loaded d) (guest_arch d) (remote d) (machine d).
Definition set_stopping b d : Debugger Expression M := mkDebugger (is_remote d) (target_state d) (threads d) (any_live_tid d)
  (breakpoints d) (breakpoint_locations d) (hardware_breakpoints d) (stepping d) (pending_step d)
  b (stopped_until_symbols_are_loaded d) (guest_arch d) (remote d) (machine d).
Definition set_waiting w d : Debugger Expression M := mkDebugger (is_remote d) (target_state d) (threads d) (any_live_tid d)
  (breakpoints d) (breakpoint_locations d) (hardware_breakpoints d) (stepping d) (pending_step d)
  (stopping_to_handle_breakpoints d) w (guest_arch d) (remote d) (machine d).
Definition set_remote r d : Debugger Expression M := mkDebugger (is_remote d) (target_state d) (threads d) (any_live_tid d)
  (breakpoints d) (breakpoint_locations d) (hardware_breakpoints d) (stepping d) (pending_step d)
  (stopping_to_handle_breakpoints d) (stopped_until_symbols_are_loaded d) (guest_arch d) r (machine d).
Definition set_machine m d : Debugger Expression M := mkDebugger (is_remote d) (target_state d) (threads d) (any_live_tid d)
  (breakpoints d) (breakpoint_locations d) (hardware_breakpoints d) (stepping d) (pending_step d)
  (stopping_to_handle_breakpoints d) (stopped_until_symbols_are_loaded d) (guest_arch d) (remote d) m.
End Setters.

(** Field updates of a location. *)
Definition loc_set_active (b : bool) (l : BreakpointLocation) :=
  mkLocation (addr l) (original_byte l) (hardware l) b (refs l) (error l) (no_retry l).
Definition loc_set_original_byte (x : Z) (l : BreakpointLocation) :=
  mkLocation (addr l) x (hardware l) (loc_active l) (refs l) (error l) (no_retry l).
Definition loc_set_hardware (b : bool) (l : BreakpointLocation) :=
  mkLocation (addr l) (original_byte l) b (loc_active l) (refs l) (error l) (no_retry l).
Definition loc_set_refs (r : list BreakpointRef) (l : BreakpointLocation) :=
  mkLocation (addr l) (original_byte l) (hardware l) (loc_active l) r (error l) (no_retry l).
Definition loc_set_error (e : option Error) (l : BreakpointLocation) :=
  mkLocation (addr l) (original_byte l) (hardware l) (loc_active l) (refs l) e (no_retry l).
Definition loc_set_no_retry (b : bool) (l : BreakpointLocation) :=
  mkLocation (addr l) (original_byte l) (hardware l) (loc_active l) (refs l) (error l) b.
Definition set_pushed (b : bool) (h : HardwareBreakpoint) :=
  mkHw (hw_active h) (thread_specific h) (hw_addr h) (data_breakpoint_id h) (stop_on_read h) (data_size h) b.
Definition set_ignore (a : option Z) (t : Thread) :=
  mkThread (tstate t) (rip t) (is_after_user_debug_trap_instruction t) a (sent_interrupt t) (exiting t).
Definition set_sent_interrupt (b : bool) (t : Thread) :=
  mkThread (tstate t) (rip t) (is_after_user_debug_trap_instruction t)
    (ignore_next_hw_breakpoint_hit_at_addr t) b (exiting t).

(** Field updates of a breakpoint. *)
Section BpSetters.
  Context {Expression : Type}.
  Implicit Types b : Breakpoint Expression.
Definition bp_set_active (x : bool) b : Breakpoint Expression :=
  mkBreakpoint (on b) (condition b) (hits b) (addrs b) (enabled b) x (hidden b) (builtin b).
Definition bp_set_addrs (a : result (list (Z * Z))) b : Breakpoint Expression :=
  mkBreakpoint (on b) (condition b) (hits b) a (enabled b) (active b) (hidden b) (builtin b).
Definition bp_set_on (o : BreakpointOn) b : Breakpoint Expression :=
  mkBreakpoint o (condition b) (hits b) (addrs b) (enabled b) (active b) (hidden b) (builtin b).
Definition bp_set_condition c b : Breakpoint Expression :=
  mkBreakpoint (on b) c (hits b) (addrs b) (enabled b) (active b) (hidden b) (builtin b).
End BpSetters.

(** ** Operations *)

Section Ops.
  Context {Expression M : Type} `{Machine M}.
  (** Resolving a breakpoint to addresses with the loaded symbols
      (determine_locations_for_breakpoint), the loaded binaries with
      [symbols_loaded()], and the expression parser. *)
  Context (determine_locations : BreakpointOn -> BreakpointOn * result (list (Z * Z))).
  Context (binaries : list (Z * bool)).
  Context (parse_watch_expression : list Z -> result Expression).
  Notation Dbg := (Debugger Expression M).
  Notation D := (stm Dbg Error).
  Notation BP := (Breakpoint Expression).

(** [self.breakpoint_locations[idx]] and assignment through it. *)
Definition get_loc (idx : Z) : D BreakpointLocation :=
  ls ← sget breakpoint_locations; sopt (zget ls idx).
Definition upd_loc (idx : Z) (f : BreakpointLocation -> BreakpointLocation) : D unit :=
  ls ← sget breakpoint_locations;
  l ← sopt (zget ls idx);
  smodify (set_locations (zset ls idx (f l))).
Definition get_hw (i : Z) : D HardwareBreakpoint :=
  hs ← sget hardware_breakpoints; sopt (zget hs i).
Definition put_hw (i : Z) (h : HardwareBreakpoint) : D unit :=
  hs ← sget hardware_breakpoints;
  _ ← sopt (zget hs i);
  smodify (set_hw (zset hs i h)).
(** [self.breakpoints.get_mut(id)]; [unwrap]s. *)
Definition get_bp (id : Id) : D BP := p ← sget breakpoints; slift (widen (Pool.get p id)).
Definition upd_bp (id : Id) (f : BP -> BP) : D unit :=
  p ← sget breakpoints;
  p ← slift (widen (Pool.get_mut p id f));
  smodify (set_breakpoints p).
(** The memory of the debuggee. *)
Definition read_word (a : Z) : D Z := m ← sget machine; slift (read_u64 m a).
Definition poke_word (tid a w : Z) : D unit := fun d =>
  let '(r, m) := poke_text (machine d) tid a w in (r, set_machine m d).
Definition poke_dr (tid i v : Z) : D unit := fun d =>
  let '(r, m) := poke_debugreg (machine d) tid i v in (r, set_machine m d).
(** Running a request on the connection to the stub; the lock is never
    poisoned since a panic aborts. *)
Definition on_remote {A} (m : GdbRemote.M A) : D (A + GdbError) := fun d =>
  match remote d with
  | None => (Fail (Code Errors.ProcessState), d)
  | Some c =>
      let '(r, c) := m c in
      let d := set_remote (Some c) d in
      match r with
      | Ret a => (Ret (inl a), d)
      | Fail e => (Ret (inr e), d)
      | Panic => (Panic, d)
      end
  end.

Definition any_thread_in_state (s : ThreadState) (d : Dbg) : option Z :=
  match List.find (fun t => bool_decide (tstate t.2 = s) && negb (exiting t.2)) (threads d) with
  | Some t => Some t.1
  | None => None
  end.

(** The loop of [ptrace_interrupt_all_running_threads]: the threads with their
    flags, the number of threads to wait for, or the error. *)
Fixpoint interrupt_loop (m : M) (ts : list (Z * Thread)) (n : Z)
  : result Z * list (Z * Thread) * M :=
  match ts with
  | [] => (Ret n, [], m)
  | (tid, t) :: ts =>
      if bool_decide (tstate t = Running) && negb (exiting t) then
        let '(r, m) := if sent_interrupt t then (Ret tt, m) else ptrace_interrupt m tid in
        let go t :=
          let '(res, ts, m) := interrupt_loop m ts (n + 1) in (res, (tid, t) :: ts, m) in
        if sent_interrupt t then go t
        else
          match r with
          | Ret _ => go (set_sent_interrupt true t)
          | Fail e => if is_io_esrch e then go (set_sent_interrupt true t)
                      else (Fail e, (tid, t) :: ts, m)
          | Panic => (Panic, (tid, t) :: ts, m)
          end
      else
        let '(res, ts, m) := interrupt_loop m ts n in (res, (tid, t) :: ts, m)
  end.
Definition ptrace_interrupt_all_running_threads : D Z := fun d =>
  if is_remote d then (Ret 0, d)
  else
    let '(r, ts, m) := interrupt_loop (machine d) (threads d) 0 in
    (r, set_machine m (set_threads ts d)).

(** ** Code locations *)

Definition find_breakpoint_location (ls : list BreakpointLocation) (a : Z) : option Z :=
  let idx := Z.of_nat (partition_point (fun l => addr l <? a) ls) in
  match zget ls idx with
  | Some l => if addr l =? a then Some idx else None
  | None => None
  end.

(** [Vec::insert] *)
Definition vec_insert {A} (l : list A) (idx : nat) (x : A) : list A := take idx l ++ x :: drop idx l.

Definition add_breakpoint_location (r : BreakpointRef) (a : Z) : D unit :=
  ls ← sget breakpoint_locations;
  let idx := partition_point (fun l => addr l <? a) ls in
  match zget ls (Z.of_nat idx) with
  | Some l =>
      if addr l =? a then upd_loc (Z.of_nat idx) (fun l => loc_set_refs (refs l ++ [r]) l)
      else
        m ← sget machine;
        let byte := match read_u8 m a with Ret x => x | _ => 0 end in
        smodify (set_locations (vec_insert ls idx (mkLocation a byte false false [r] None false)))
  | None =>
      m ← sget machine;
      let byte := match read_u8 m a with Ret x => x | _ => 0 end in
      smodify (set_locations (vec_insert ls idx (mkLocation a byte false false [r] None false)))
  end.

(** The first free hardware slot. *)
Fixpoint position_inactive (hs : list HardwareBreakpoint) (i : Z) : option Z :=
  match hs with
  | [] => None
  | h :: hs => if negb (hw_active h) then Some i else position_inactive hs (i + 1)
  end.

(** The slot for a code location: only step breakpoints are thread-specific. *)
Definition claim_hw_slot (location : BreakpointLocation) : D unit :=
  hs ← sget hardware_breakpoints;
  match position_inactive hs 0 with
  | None => sfail (Code OutOfHardwareBreakpoints)
  | Some i =>
      let all_threads := existsb (fun r => negb (is_step r)) (refs location) in
      s ← sget stepping;
      let thread_specific := match s with
                             | Some s => if negb all_threads then Some (step_tid s) else None
                             | None => None
                             end in
      put_hw i (mkHw true thread_specific (addr location) None false 0 false)
  end.

(** Replacing one byte of a 64-bit word. *)
Definition set_byte (word bit_idx byte : Z) : Z :=
  Z.lor (Z.land word (Z.lxor (Z.ones 64) (wrap64 (Z.shiftl 255 bit_idx)))) (wrap64 (Z.shiftl byte bit_idx)).
Definition get_byte (word bit_idx : Z) : Z := Z.land (Z.shiftr word bit_idx) 255.
Definition INT3 : Z := 204.

(** GDB RSP: the length of a software breakpoint. *)
Definition sw_breakpoint_size (a : Arch) : Z := match a with X86_64 => 1 | _ => 4 end.

Definition activate_breakpoint_location (idx any_suspended_tid : Z) : D unit :=
  location ← get_loc idx;
  if loc_active location then mret tt
  else
    r ← sget is_remote;
    if r : bool then
      let kind := if hardware location then 1 else 0 in
      arch ← sget guest_arch;
      let size := if hardware location then 1 else sw_breakpoint_size arch in
      res ← on_remote (GdbRemote.insert_breakpoint kind (addr location) size);
      match res with
      | inr _ => sfail (Code Network)
      | inl _ =>
          _ ← swhen (hardware location) (claim_hw_slot location);
          upd_loc idx (loc_set_active true)
      end
    else
      _ ← (if hardware location then
             running ← sget (any_thread_in_state Running);
             _ ← sassert (match running with None => true | Some _ => false end);
             claim_hw_slot location
           else
             let byte_idx := addr location mod 8 in
             let bit_idx := byte_idx * 8 in
             word ← read_word (addr location - byte_idx);
             _ ← upd_loc idx (loc_set_original_byte (get_byte word bit_idx));
             poke_word any_suspended_tid (addr location - byte_idx) (set_byte word bit_idx INT3));
      upd_loc idx (loc_set_active true).

(** Clears the slots of a hardware location. *)
Definition release_hw_slots (a : Z) : D unit :=
  hs ← sget hardware_breakpoints;
  smodify (set_hw (map (fun h => if hw_active h && (hw_addr h =? a) then hw_default else h) hs)).

(** A process that is gone needs no clean-up. *)
Definition ignore_esrch (m : D unit) : D unit :=
  r ← stry m;
  match r with
  | inl _ => mret tt
  | inr e => if is_io_esrch e then mret tt else sfail e
  end.

Definition deactivate_breakpoint_location (idx any_suspended_tid : Z) : D unit :=
  location ← get_loc idx;
  if negb (loc_active location) then mret tt
  else
    r ← sget is_remote;
    if r : bool then
      let kind := if hardware location then 1 else 0 in
      arch ← sget guest_arch;
      let size := if hardware location then 1 else sw_breakpoint_size arch in
      _ ← on_remote (GdbRemote.remove_breakpoint kind (addr location) size);
      _ ← on_remote (GdbRemote.remove_breakpoint kind (addr location) 1);
      _ ← on_remote (GdbRemote.remove_breakpoint kind (addr location) 4);
      _ ← swhen (hardware location) (release_hw_slots (addr location));
      upd_loc idx (loc_set_active false)
    else
      _ ← (if hardware location then release_hw_slots (addr location)
           else
             let byte_idx := addr location mod 8 in
             let bit_idx := byte_idx * 8 in
             ignore_esrch (
               word ← read_word (addr location - byte_idx);
               poke_word any_suspended_tid (addr location - byte_idx)
                 (set_byte word bit_idx (original_byte location))));
      upd_loc idx (loc_set_active false).

(** ** Reconciling locations with the debuggee *)

(** [Vec::swap] *)
Definition swap_locs (i j : Z) : D unit :=
  ls ← sget breakpoint_locations;
  a ← sopt (zget ls i);
  b ← sopt (zget ls j);
  smodify (set_locations (zset (zset ls i b) j a)).

(** First loop of [handle_breakpoints]: compacts the locations that are still
    referred to and deactivates the others; [res_idx] is the loop variable. *)
Definition compact_step (res_idx idx : Z) : D Z :=
  l ← get_loc idx;
  match refs l with
  | [] =>
      tid ← sget any_live_tid;
      _ ← deactivate_breakpoint_location idx tid;
      mret res_idx
  | _ :: _ =>
      _ ← swap_locs res_idx idx;
      mret (res_idx + 1)
  end.
Definition compact_locations : D unit :=
  ls ← sget breakpoint_locations;
  res_idx ← sfold (seqZ 0 (zlen ls)) 0 compact_step;
  smodify (fun d => set_locations (take (Z.to_nat res_idx) (breakpoint_locations d)) d).

(** The loop that tries to activate every location. *)
Definition try_activate (idx : Z) : D unit :=
  l ← get_loc idx;
  if no_retry l then mret tt
  else
    tid ← sget any_live_tid;
    r ← stry (activate_breakpoint_location idx tid);
    match r with
    | inl _ => upd_loc idx (loc_set_error None)
    | inr e => upd_loc idx (loc_set_error (Some e))
    end.
Definition activate_all_locations : D unit :=
  ls ← sget breakpoint_locations;
  sfor (seqZ 0 (zlen ls)) try_activate.

(** [self.breakpoints.try_get_mut(id)] with an update if present. *)
Definition try_upd_bp (id : Id) (f : BP -> BP) : D unit :=
  smodify (fun d => match Pool.try_get_mut (breakpoints d) id f with
                    | Some p => set_breakpoints p d
                    | None => d
                    end).

Definition watch_kind (h : HardwareBreakpoint) : Z := if stop_on_read h then 4 else 2.

(** Remote data breakpoints: the body of the loop over the slots. *)
Definition push_watch (i : Z) : D unit :=
  h ← get_hw i;
  match data_breakpoint_id h with
  | None => mret tt
  | Some id =>
      if negb (hw_active h) || pushed_to_threads h then mret tt
      else
        r ← on_remote (GdbRemote.insert_breakpoint (watch_kind h) (hw_addr h) (data_size h));
        match r with
        | inl _ => put_hw i (set_pushed true h)
        | inr _ =>
            _ ← try_upd_bp id (fun b => bp_set_addrs (Fail (Code OutOfHardwareBreakpoints)) (set_enabled b false));
            put_hw i hw_default
        end
  end.
Definition drop_watch (i : Z) : D unit :=
  h ← get_hw i;
  if negb (hw_active h) && pushed_to_threads h then
    _ ← on_remote (GdbRemote.remove_breakpoint (watch_kind h) (hw_addr h) (data_size h));
    put_hw i (set_pushed false h)
  else mret tt.

Definition handle_breakpoints_remote : D unit :=
  _ ← activate_all_locations;
  conn ← sget remote;
  match conn with
  | None => mret tt
  | Some _ =>
      hs ← sget hardware_breakpoints;
      _ ← sfor (seqZ 0 (zlen hs)) push_watch;
      sfor (seqZ 0 (zlen hs)) drop_watch
  end.

(** The threads that stand at an address: [None] if there are none, otherwise
    those not just after a trap instruction of the program. *)
Definition tids_at (ts : list (Z * Thread)) (a : Z) : option (list Z) :=
  match filter (fun t : Z * Thread => rip t.2 = Some a) ts with
  | [] => None
  | here => Some (filter (fun t : Z * Thread => is_after_user_debug_trap_instruction t.2 = false) here).*1
  end.

Definition upd_thread (tid : Z) (f : Thread -> Thread) : D unit :=
  smodify (fun d => set_threads
    (map (fun t : Z * Thread => if t.1 =? tid then (t.1, f t.2) else t) (threads d)) d).

(** Converts a location to a hardware breakpoint while a thread stands there. *)
Definition convert_location (addresses : Z -> option (list Z)) (idx : Z) : D unit :=
  l ← get_loc idx;
  tid ← sget any_live_tid;
  match addresses (addr l), hardware l with
  | None, true =>
      _ ← deactivate_breakpoint_location idx tid;
      upd_loc idx (loc_set_hardware false)
  | Some tids, false =>
      _ ← deactivate_breakpoint_location idx tid;
      _ ← upd_loc idx (loc_set_hardware true);
      sfor tids (fun t => upd_thread t (set_ignore (Some (addr l))))
  | _, _ => mret tt
  end.

(** ** Debug registers *)

(** Address and dr7 bits of slot [i] for a thread. *)
Definition get_debug_register_values_for_hardware_breakpoint (b : HardwareBreakpoint) (i tid : Z)
  : partial (option (Z * Z)) :=
  if negb (hw_active b) || match thread_specific b with Some x => negb (x =? tid) | None => false end
  then Ret None
  else
    let dr7 := Z.shiftl 1 (i * 2) in
    match data_breakpoint_id b with
    | None => Ret (Some (hw_addr b, dr7))
    | Some _ =>
        let dr7 := Z.lor dr7 (Z.shiftl (if stop_on_read b then 3 else 1) (16 + i * 4)) in
        size_code ← (if data_size b =? 1 then Ret 0
                     else if data_size b =? 2 then Ret 1
                     else if data_size b =? 4 then Ret 3
                     else if data_size b =? 8 then Ret 2
                     else Panic);
        Ret (Some (hw_addr b, Z.lor dr7 (Z.shiftl size_code (18 + i * 4))))
    end.

Definition dr7_common_bits : Z := Z.shiftl 1 10.

Definition debug_values (i tid : Z) : D (option (Z * Z)) :=
  h ← get_hw i;
  slift (widen (get_debug_register_values_for_hardware_breakpoint h i tid)).

(** First loop: writes the addresses and collects the dr7 bits. *)
Definition write_addresses (tid dr7 : Z) : D Z :=
  sfold (seqZ 0 4) dr7 (fun dr7 i =>
    v ← debug_values i tid;
    match v with
    | Some (a, d7) => _ ← poke_dr tid i a; mret (Z.lor dr7 d7)
    | None => mret dr7
    end).

(** Removes the references of a breakpoint from the locations, and its slots. *)
Definition release_data_slots (id : Id) : D unit :=
  hs ← sget hardware_breakpoints;
  sfor (seqZ 0 (zlen hs)) (fun i =>
    h ← get_hw i;
    if hw_active h && bool_decide (data_breakpoint_id h = Some id) then
      r ← sget is_remote;
      conn ← sget remote;
      _ ← (if r && pushed_to_threads h && match conn with Some _ => true | None => false end
           then _ ← on_remote (GdbRemote.remove_breakpoint (watch_kind h) (hw_addr h) (data_size h)); mret tt
           else mret tt);
      put_hw i hw_default
    else mret tt).
Definition deactivate_breakpoint (id : Id) : D unit :=
  b ← get_bp id;
  _ ← upd_bp id (bp_set_active false);
  if negb (active b) then mret tt
  else
    _ ← smodify (fun d => set_locations
          (map (fun l => loc_set_refs (List.filter (fun r => negb (refers_to id r)) (refs l)) l)
               (breakpoint_locations d)) d);
    release_data_slots id.

(** Disabling slot [i], which the kernel refuses. *)
Definition reject_slot (i tid : Z) (e : Error) : D unit :=
  h ← get_hw i;
  _ ← match data_breakpoint_id h with
      | Some id =>
          _ ← deactivate_breakpoint id;
          upd_bp id (bp_set_addrs (Fail e))
      | None =>
          ls ← sget breakpoint_locations;
          idx ← sopt (find_breakpoint_location ls (hw_addr h));
          l ← get_loc idx;
          _ ← sassert (hardware l);
          r ← stry (deactivate_breakpoint_location idx tid);
          _ ← sassert (match r with inl _ => true | inr _ => false end);
          upd_loc idx (fun l => loc_set_no_retry true (loc_set_error (Some e) l))
      end;
  h ← get_hw i;
  sassert (negb (hw_active h)).

(** Tries slot [i] alone. The loop state is [(new_dr7, assigned_dr7, error)];
    a rejected slot consumes the error. *)
Definition try_single (tid dr7 : Z) (st : Z * Z * option Error) (i : Z) : D (Z * Z * option Error) :=
  let '(new_dr7, assigned_dr7, err) := st in
  v ← debug_values i tid;
  match v with
  | None => mret st
  | Some (_, d7) =>
      let single_dr7 := Z.lor d7 dr7_common_bits in
      r ← (if single_dr7 =? dr7 then mret (inr err)
           else
             p ← stry (poke_dr tid 7 single_dr7);
             match p with
             | inl _ => mret (inl tt)
             | inr e => if is_io_invalid_input e then mret (inr (Some e)) else sfail e
             end);
      match r with
      | inl _ => mret (Z.lor new_dr7 d7, single_dr7, err)
      | inr err =>
          e ← sopt err;
          _ ← reject_slot i tid e;
          mret (new_dr7, assigned_dr7, None)
      end
  end.

(** The retry loop; at most six attempts. *)
Fixpoint dr7_loop (fuel : nat) (tid attempts dr7 assigned_dr7 : Z) : D unit :=
  match fuel with
  | O => spanic
  | S fuel =>
      let attempts := attempts + 1 in
      if dr7 =? assigned_dr7 then mret tt
      else
        r ← stry (poke_dr tid 7 dr7);
        match r with
        | inl _ => mret tt
        | inr e =>
            if is_io_invalid_input e && (attempts <? 6) then
              '(new_dr7, assigned_dr7, _) ← sfold (seqZ 0 4) (dr7_common_bits, assigned_dr7, Some e) (try_single tid dr7);
              dr7_loop fuel tid attempts new_dr7 assigned_dr7
            else sfail e
        end
  end.

Definition set_debug_registers_for_thread_impl (tid : Z) : D unit :=
  _ ← poke_dr tid 7 dr7_common_bits;
  dr7 ← write_addresses tid dr7_common_bits;
  dr7_loop 6 tid 0 dr7 dr7_common_bits.
Definition set_debug_registers_for_thread (tid : Z) : D unit :=
  ignore_esrch (set_debug_registers_for_thread_impl tid).

Definition handle_breakpoints_local : D unit :=
  ts ← sget threads;
  ls ← sget breakpoint_locations;
  _ ← sfor (seqZ 0 (zlen ls)) (convert_location (tids_at ts));
  _ ← activate_all_locations;
  hs ← sget hardware_breakpoints;
  if existsb (fun b => hw_active b && negb (pushed_to_threads b)) hs then
    ts ← sget threads;
    _ ← sfor (filter (fun t : Z * Thread => exiting t.2 = false) ts).*1 set_debug_registers_for_thread;
    smodify (fun d => set_hw (map (set_pushed true) (hardware_breakpoints d)) d)
  else mret tt.

Definition handle_breakpoints : D unit :=
  _ ← compact_locations;
  r ← sget is_remote;
  if r : bool then handle_breakpoints_remote else handle_breakpoints_local.

Definition arrange_handle_breakpoints : D unit :=
  r ← sget is_remote;
  if r : bool then
    running ← sget (any_thread_in_state Running);
    match running with
    | Some _ =>
        _ ← smodify (set_stopping true);
        conn ← sget remote;
        match conn with
        | Some _ => _ ← on_remote GdbRemote.interrupt; mret tt
        | None => mret tt
        end
    | None => handle_breakpoints
    end
  else
    s ← sget stopping_to_handle_breakpoints;
    if s : bool then mret tt
    else
      n ← ptrace_interrupt_all_running_threads;
      if 0 <? n then smodify (set_stopping true) else handle_breakpoints.

(** ** Breakpoints *)

(** [check_if_we_should_wait_for_symbols_to_load]. *)
Definition check_if_we_should_wait_for_symbols_to_load : D unit :=
  ts ← sget target_state;
  _ ← sassert (process_ready ts);
  p ← sget breakpoints;
  pend ← sget pending_step;
  entries ← slift (widen (Pool.iter p));
  let needed := existsb (fun e : Id * BP =>
    enabled e.2 && match addrs e.2 with Fail err => is_loading err | _ => false end
      && should_wait_for_symbols (on e.2)) entries in
  if negb pend && negb needed then smodify (set_waiting None)
  else
    cur ← sget stopped_until_symbols_are_loaded;
    let still_loading := match cur with
      | Some b => match List.find (fun x => x.1 =? b) binaries with
                  | Some x => negb x.2
                  | None => false
                  end
      | None => false
      end in
    if still_loading then mret tt
    else
      match List.find (fun x => negb x.2) binaries with
      | Some x => smodify (set_waiting (Some x.1))
      | None => spanic      (* debug_assert!(false) *)
      end.

(** Allocating a hardware slot for a data breakpoint, or disabling it. *)
Definition activate_data_breakpoint (id : Id) (d : DataBreakpoint) : D bool :=
  hs ← sget hardware_breakpoints;
  match position_inactive hs 0 with
  | Some i =>
      _ ← put_hw i (mkHw true None (d_addr d) (Some id) (d_stop_on_read d) (d_size d) false);
      _ ← upd_bp id (fun b => bp_set_addrs not_calculated (bp_set_active true b));
      mret true
  | None =>
      _ ← upd_bp id (fun b => bp_set_addrs (Fail (Code OutOfHardwareBreakpoints)) (set_enabled b false));
      mret false
  end.

(** The loop body of [activate_breakpoints] for one breakpoint; the loop state
    is [(should_handle_breakpoints, wait_for_symbols)]. *)
Definition activate_one (st : bool * bool) (id : Id) : D (bool * bool) :=
  let '(should_handle, wait) := st in
  b ← get_bp id;
  if negb (enabled b) || active b then mret st
  else
    match on b with
    | DataBp d =>
        found ← activate_data_breakpoint id d;
        mret (should_handle || found, wait)
    | _ =>
        _ ← match addrs b with
            | Ret _ => mret tt
            | _ => let '(o, a) := determine_locations (on b) in
                   upd_bp id (fun b => bp_set_addrs a (bp_set_on o b))
            end;
        b ← get_bp id;
        match addrs b with
        | Ret l =>
            _ ← sassert (negb (bool_decide (l = [])));
            _ ← upd_bp id (bp_set_active true);
            _ ← sfor l (fun x => add_breakpoint_location (RefId id x.2) x.1);
            mret (true, wait)
        | Fail e =>
            mret (should_handle, wait || (is_loading e && should_wait_for_symbols (on b)))
        | Panic => mret st
        end
    end.

Definition activate_breakpoints (ids : list Id) : D unit :=
  ts ← sget target_state;
  _ ← sassert (process_ready ts);
  st ← sfold ids (false, false) activate_one;
  _ ← swhen st.1 arrange_handle_breakpoints;
  w ← sget stopped_until_symbols_are_loaded;
  if st.2 && match w with None => true | Some _ => false end then
    _ ← check_if_we_should_wait_for_symbols_to_load;
    w ← sget stopped_until_symbols_are_loaded;
    _ ← sassert (match w with Some _ => true | None => false end);
    _ ← ptrace_interrupt_all_running_threads;
    mret tt
  else mret tt.

Definition new_breakpoint (o : BreakpointOn) : BP :=
  mkBreakpoint o None 0 not_calculated true false false false.

Definition size_supported (o : BreakpointOn) : bool :=
  match o with
  | DataBp d => (d_size d =? 1) || (d_size d =? 2) || (d_size d =? 4) || (d_size d =? 8)
  | _ => true
  end.

Definition add_breakpoint (o : BreakpointOn) : D Id :=
  if negb (size_supported o) then sfail (Code Internal)
  else
    p ← sget breakpoints;
    '(id, p) ← slift (widen (Pool.add p (new_breakpoint o)));
    _ ← smodify (set_breakpoints p);
    ts ← sget target_state;
    _ ← swhen (process_ready ts) (activate_breakpoints [id]);
    mret id.

Definition remove_breakpoint (id : Id) : D bool :=
  p ← sget breakpoints;
  match Pool.try_get p id with
  | None => mret false
  | Some _ =>
      _ ← deactivate_breakpoint id;
      _ ← smodify (fun d => set_breakpoints (Pool.remove (breakpoints d) id).2 d);
      mret true
  end.

Definition set_breakpoint_enabled (id : Id) (en : bool) : D bool :=
  p ← sget breakpoints;
  match Pool.try_get p id with
  | None => mret false
  | Some b =>
      if Bool.eqb (enabled b) en then mret true
      else
        _ ← upd_bp id (fun b => set_enabled b en);
        ts ← sget target_state;
        _ ← (if negb en then deactivate_breakpoint id
             else swhen (process_ready ts) (activate_breakpoints [id]));
        mret true
  end.

Definition set_breakpoint_condition (id : Id) (c : option (list Z)) : D unit :=
  p ← sget breakpoints;
  match Pool.try_get p id with
  | None => mret tt
  | Some _ =>
      match c with
      | Some c => upd_bp id (bp_set_condition (Some (c, parse_watch_expression c, None)))
      | None => upd_bp id (bp_set_condition None)
      end
  end.

Definition set_data_breakpoint_stop_on_read (id : Id) (sor : bool) : D bool :=
  p ← sget breakpoints;
  match Pool.try_get p id with
  | None => mret false
  | Some b =>
      match on b with
      | DataBp d =>
          if Bool.eqb (d_stop_on_read d) sor then mret false
          else
            _ ← upd_bp id (bp_set_on (DataBp (mkData (d_addr d) (d_size d) sor)));
            _ ← deactivate_breakpoint id;
            ts ← sget target_state;
            _ ← swhen (process_ready ts) (activate_breakpoints [id]);
            mret true
      | _ => spanic
      end
  end.

Definition find_line_breakpoint_fuzzy (d : Dbg) (lb : LineBreakpoint) : partial (option Id) :=
  entries ← Pool.iter (breakpoints d);
  Ret (match List.find (fun e : Id * BP =>
         match on e.2 with
         | Line bp => RustStr.bytes_eqb (l_path bp) (l_path lb) &&
                      ((line bp =? line lb) || bool_decide (adjusted_line bp = Some (line lb)))
         | _ => false
         end) entries with
       | Some e => Some e.1
       | None => None
       end).

(** ** Steps and threads *)

Definition target_state_for_thread (d : Dbg) (tid : Z) : partial ThreadState :=
  if stopping_to_handle_breakpoints d ||
     match stopped_until_symbols_are_loaded d with Some _ => true | None => false end
  then Ret Suspended
  else
    match target_state d with
    | NoProcess | Starting | Exiting | PRunning => Ret Running
    | PSuspended | CoreDump => Ret Suspended
    | Stepping =>
        s ← lift_opt (stepping d);
        Ret (if (step_tid s =? tid) || negb (keep_other_threads_suspended s) then Running else Suspended)
    end.

Definition cancel_stepping : D unit :=
  s ← sget stepping;
  _ ← match s with
      | Some _ =>
          smodify (fun d => set_stepping None (pending_step d)
            (set_locations (map (fun l => loc_set_refs (List.filter (fun r => negb (is_step r)) (refs l)) l)
              (breakpoint_locations d)) d))
      | None => mret tt
      end;
  smodify (fun d => set_stepping (stepping d) false d).
End Ops.

(** Stop reasons, as ranked for the user interface. *)
Inductive StopReason :=
  | StopBreakpoint (id : Id)
  | StopDebugTrap
  | StopStep
  | StopSignal (s : Z)
  | StopException.
Definition priority (r : StopReason) : Z :=
  match r with
  | StopDebugTrap => 0
  | StopBreakpoint _ => 1
  | StopStep => 2
  | StopException => 3
  | StopSignal _ => 4
  end.
