(* ===== verification/BreakpointsSpec.v ===== *)
(** What breakpoint management guarantees: planting and removing trap
    instructions, the sorted location list, references and hardware slots. *)
From Stdlib Require Import ZArith Lia Sorted.
From stdpp Require Import base list sorting sets.
From S2P Require Import Prelude Errors Registers StateMonad Pool BreakpointData GdbProto GdbRemote Breakpoints LeBytes.
Open Scope Z_scope.

(** ** Bytes of a word *)

Lemma testbit_out x n i : 0 <= x < 2 ^ n -> n <= i -> Z.testbit x i = false.
Proof.
  intros Hx Hi. destruct (Z.eq_dec x 0) as [->|]; [apply Z.bits_0|].
  apply Z.bits_above_log2; [lia|]. apply Z.lt_le_trans with n; [|done]. apply Z.log2_lt_pow2; lia.
Qed.

Lemma set_byte_testbit w k b i :
  0 <= w < 2 ^ 64 -> is_u8 b -> 0 <= k -> k + 8 <= 64 -> 0 <= i ->
  Z.testbit (set_byte w k b) i =
  if (k <=? i) && (i <? k + 8) then Z.testbit b (i - k) else Z.testbit w i.
Proof.
  intros Hw Hb Hk Hk8 Hi. unfold set_byte, wrap64, is_u8 in *.
  rewrite Z.lor_spec, Z.land_spec, Z.lxor_spec.
  assert (Hmask : Z.testbit (Z.shiftl 255 k mod 2 ^ 64) i = ((k <=? i) && (i <? k + 8))).
  { destruct (Z.ltb_spec i 64).
    - rewrite Z.mod_pow2_bits_low by lia. rewrite Z.shiftl_spec by lia. change 255 with (Z.ones 8).
      destruct (Z.leb_spec k i), (Z.ltb_spec i (k + 8)); simpl.
      + apply Z.ones_spec_low. lia.
      + apply Z.ones_spec_high. lia.
      + apply Z.testbit_neg_r. lia.
      + apply Z.testbit_neg_r. lia.
    - rewrite Z.mod_pow2_bits_high by lia.
      destruct (Z.leb_spec k i), (Z.ltb_spec i (k + 8)); simpl; lia || done. }
  assert (Hbyte : Z.testbit (Z.shiftl b k mod 2 ^ 64) i =
    if (k <=? i) && (i <? k + 8) then Z.testbit b (i - k) else false).
  { destruct (Z.ltb_spec i 64).
    - rewrite Z.mod_pow2_bits_low by lia. rewrite Z.shiftl_spec by lia.
      destruct (Z.leb_spec k i), (Z.ltb_spec i (k + 8)); simpl; try done.
      + apply (testbit_out _ 8); [change (2 ^ 8) with 256|]; lia.
      + apply Z.testbit_neg_r. lia.
      + apply Z.testbit_neg_r. lia.
    - rewrite Z.mod_pow2_bits_high by lia.
      destruct (Z.leb_spec k i), (Z.ltb_spec i (k + 8)); simpl; lia || done. }
  rewrite Hmask, Hbyte. destruct (Z.ltb_spec i 64).
  - rewrite Z.ones_spec_low by lia. destruct ((k <=? i) && (i <? k + 8)); simpl.
    + by rewrite andb_false_r.
    + by rewrite andb_true_r, orb_false_r.
  - rewrite (testbit_out w 64 i) by lia. simpl.
    destruct (Z.leb_spec k i), (Z.ltb_spec i (k + 8)); simpl; lia || done.
Qed.

Lemma set_byte_range w k b :
  0 <= w < 2 ^ 64 -> is_u8 b -> 0 <= k -> k + 8 <= 64 -> 0 <= set_byte w k b < 2 ^ 64.
Proof.
  intros Hw Hb Hk Hk8. assert (Hn : 0 <= set_byte w k b).
  { unfold set_byte. apply Z.lor_nonneg. split; [apply Z.land_nonneg; left; lia|].
    unfold wrap64. apply Z.mod_pos_bound. lia. }
  split; [done|]. destruct (Z.eq_dec (set_byte w k b) 0) as [->|]; [lia|].
  apply Z.log2_lt_pow2; [lia|]. apply Z.nle_gt. intros Hl.
  pose proof (Z.bit_log2 (set_byte w k b) ltac:(lia)) as Hbit.
  rewrite set_byte_testbit in Hbit by (done || lia).
  destruct (Z.ltb_spec (Z.log2 (set_byte w k b)) (k + 8)); [lia|].
  rewrite andb_false_r, (testbit_out w 64) in Hbit by lia. done.
Qed.

Lemma get_byte_u8 w k : is_u8 (get_byte w k).
Proof.
  unfold get_byte, is_u8. change 255 with (Z.ones 8). rewrite Z.land_ones by lia.
  apply Z.mod_pos_bound. lia.
Qed.

Lemma get_byte_testbit w k i :
  0 <= k -> 0 <= i -> Z.testbit (get_byte w k) i = (i <? 8) && Z.testbit w (i + k).
Proof.
  intros Hk Hi. unfold get_byte. rewrite Z.land_spec, Z.shiftr_spec by lia.
  change 255 with (Z.ones 8). destruct (Z.ltb_spec i 8).
  - rewrite Z.ones_spec_low by lia. by rewrite andb_true_r.
  - rewrite Z.ones_spec_high by lia. by rewrite andb_false_r.
Qed.

Lemma get_set_byte w j k b :
  0 <= w < 2 ^ 64 -> is_u8 b -> 0 <= j < 8 -> 0 <= k < 8 ->
  get_byte (set_byte w (k * 8) b) (j * 8) = if j =? k then b else get_byte w (j * 8).
Proof.
  intros Hw Hb Hj Hk. apply Z.bits_inj'. intros i Hi.
  rewrite get_byte_testbit, set_byte_testbit by (done || lia).
  destruct (Z.eqb_spec j k) as [->|].
  - destruct (Z.ltb_spec i 8); simpl.
    + rewrite (proj2 (Z.leb_le _ _)), (proj2 (Z.ltb_lt _ _)) by lia. simpl. f_equal. lia.
    + symmetry. apply (testbit_out _ 8); [exact Hb|lia].
  - rewrite get_byte_testbit by lia. destruct (Z.ltb_spec i 8); simpl; [|done].
    destruct (Z.leb_spec (k * 8) (i + j * 8)), (Z.ltb_spec (i + j * 8) (k * 8 + 8)); simpl; try done; lia.
Qed.

(** ** What is assumed of the kernel

    [byte_at] is the memory of the traced process; reads are words of it, a
    successful poke changes eight bytes, anything else changes nothing. *)
Class MachineLaws (M : Type) `{Machine M} := {
  byte_at : M -> Z -> option Z;
  byte_at_u8 : forall m a x, byte_at m a = Some x -> is_u8 x;
  read_u8_spec : forall m a x, read_u8 m a = Ret x <-> byte_at m a = Some x;
  read_u64_spec : forall m a w, read_u64 m a = Ret w ->
    is_u64 w /\ forall k, 0 <= k < 8 -> byte_at m (a + k) = Some (get_byte w (k * 8));
  poke_text_ok : forall m t a w m', poke_text m t a w = (Ret tt, m') -> is_u64 w ->
    forall b, byte_at m' b = if (a <=? b) && (b <? a + 8) then Some (get_byte w ((b - a) * 8))
                             else byte_at m b;
  poke_text_fail : forall m t a w e m', poke_text m t a w = (Fail e, m') ->
    forall b, byte_at m' b = byte_at m b;
  poke_text_returns : forall m t a w, (poke_text m t a w).1 <> Panic;
  read_u64_returns : forall m a, read_u64 m a <> Panic;
  poke_debugreg_memory : forall m t i v b, byte_at (poke_debugreg m t i v).2 b = byte_at m b;
  poke_debugreg_returns : forall m t i v, (poke_debugreg m t i v).1 <> Panic
}.

Section Planting.
  Context {Expression M : Type} `{MachineLaws M}.
  Notation Dbg := (Debugger Expression M).
  Implicit Types d : Dbg.

Definition mem d (a : Z) : option Z := byte_at (machine d) a.

(** The debugger after planting or removing an instruction at location [idx]:
    only the memory and that location differ. *)
Definition same_but_location (idx : Z) (l' : BreakpointLocation) d d' : Prop :=
  d' = set_locations (zset (breakpoint_locations d) idx l') (set_machine (machine d') d).

Lemma upd_loc_run idx f d l :
  zget (breakpoint_locations d) idx = Some l ->
  upd_loc (M:=M) (Expression:=Expression) idx f d =
  (Ret tt, set_locations (zset (breakpoint_locations d) idx (f l)) d).
Proof. intros Hl. unfold upd_loc. srun. rewrite Hl. by srun. Qed.

Lemma get_loc_run idx d l :
  zget (breakpoint_locations d) idx = Some l ->
  get_loc (M:=M) (Expression:=Expression) idx d = (Ret l, d).
Proof. intros Hl. unfold get_loc. srun. by rewrite Hl. Qed.

(** Poking a word that differs from memory in the byte at [a]. *)
Lemma poke_byte m t a w b m' :
  0 <= a -> is_u8 b ->
  read_u64 m (a - a mod 8) = Ret w ->
  poke_text m t (a - a mod 8) (set_byte w (a mod 8 * 8) b) = (Ret tt, m') ->
  byte_at m a = Some (get_byte w (a mod 8 * 8)) /\
  forall x, byte_at m' x = if x =? a then Some b else byte_at m x.
Proof.
  intros Ha Hb Hr Hp. destruct (read_u64_spec _ _ _ Hr) as [Hw Hbytes].
  pose proof (Z.mod_pos_bound a 8 ltac:(lia)) as Hm. unfold is_u64 in Hw. split.
  - rewrite <- Hbytes by lia. f_equal. lia.
  - intros x. rewrite (poke_text_ok _ _ _ _ _ Hp) by (apply set_byte_range; done || lia).
    destruct (Z.leb_spec (a - a mod 8) x), (Z.ltb_spec x (a - a mod 8 + 8)); simpl;
      try (rewrite (proj2 (Z.eqb_neq x a)) by lia; done).
    rewrite get_set_byte by (done || lia).
    destruct (Z.eqb_spec x a) as [->|].
    + by rewrite (proj2 (Z.eqb_eq _ _)) by lia.
    + rewrite (proj2 (Z.eqb_neq _ _)) by lia. rewrite <- Hbytes by lia. f_equal. lia.
Qed.

Lemma zset_zset {A} (l : list A) i x y : zset (zset l i x) i y = zset l i y.
Proof.
  unfold zset, zlen. destruct ((0 <=? i) && (i <? Z.of_nat (length l))) eqn:E.
  - rewrite length_insert, E. by rewrite list_insert_insert_eq.
  - by rewrite E.
Qed.

(** Activating a software location. *)
Lemma activate_sw d d' idx tid l :
  is_remote d = false -> zget (breakpoint_locations d) idx = Some l ->
  loc_active l = false -> hardware l = false -> 0 <= addr l ->
  activate_breakpoint_location idx tid d = (Ret tt, d') ->
  exists old, mem d (addr l) = Some old /\
    (forall x, mem d' x = if x =? addr l then Some INT3 else mem d x) /\
    same_but_location idx (loc_set_active true (loc_set_original_byte old l)) d d'.
Proof.
  intros Hlocal Hl Hact Hhw Ha. unfold activate_breakpoint_location.
  srun. rewrite (get_loc_run _ _ _ Hl). rewrite Hact. srun. rewrite Hlocal, Hhw. srun.
  unfold read_word. srun.
  destruct (read_u64 (machine d) (addr l - addr l mod 8)) as [w| |] eqn:Hr; [|done..].
  srun. rewrite (upd_loc_run _ _ _ _ Hl). srun. unfold poke_word at 1. cbn [machine set_locations].
  destruct (poke_text (machine d) tid _ _) as [[[]| |] m'] eqn:Hp; [|done..].
  rewrite (upd_loc_run _ _ _ (loc_set_original_byte (get_byte w (addr l mod 8 * 8)) l)).
  2:{ cbn. by eapply zget_zset_eq. }
  intros [= <-].
  assert (HI : is_u8 INT3) by (unfold is_u8, INT3; lia).
  destruct (poke_byte _ _ _ _ _ _ Ha HI Hr Hp) as [Hold Hnew].
  exists (get_byte w (addr l mod 8 * 8)). split; [exact Hold|]. split; [exact Hnew|].
  unfold same_but_location. cbn. by rewrite zset_zset.
Qed.

(** The process is gone. *)
Definition gone (m : M) (t a w : Z) : Prop :=
  (exists e, read_u64 m (a - a mod 8) = Fail e /\ is_io_esrch e = true) \/
  (exists e, (poke_text m t (a - a mod 8) w).1 = Fail e /\ is_io_esrch e = true).

(** Deactivating a software location. *)
Lemma deactivate_sw d d' idx tid l :
  is_remote d = false -> zget (breakpoint_locations d) idx = Some l ->
  loc_active l = true -> hardware l = false -> 0 <= addr l -> is_u8 (original_byte l) ->
  deactivate_breakpoint_location idx tid d = (Ret tt, d') ->
  same_but_location idx (loc_set_active false l) d d' /\
  ((forall x, mem d' x = if x =? addr l then Some (original_byte l) else mem d x) \/
   exists w, gone (machine d) tid (addr l) w).
Proof.
  intros Hlocal Hl Hact Hhw Ha Hb. unfold deactivate_breakpoint_location.
  srun. rewrite (get_loc_run _ _ _ Hl). rewrite Hact. cbn [negb]. srun. rewrite Hlocal, Hhw. srun.
  unfold ignore_esrch. srun. unfold read_word. srun.
  destruct (read_u64 (machine d) (addr l - addr l mod 8)) as [w|e|] eqn:Hr; srun.
  - unfold poke_word at 1.
    destruct (poke_text (machine d) tid _ _) as [[[]|e|] m'] eqn:Hp; srun; try done.
    + rewrite (upd_loc_run _ _ _ l) by done. intros [= <-].
      destruct (poke_byte _ _ _ _ _ _ Ha Hb Hr Hp) as [_ Hnew].
      split; [done|]. left. exact Hnew.
    + destruct (is_io_esrch e) eqn:He; srun; [|done].
      rewrite (upd_loc_run _ _ _ l) by done. intros [= <-]. split; [done|].
      right. eexists. right. exists e. by rewrite Hp.
  - destruct (is_io_esrch e) eqn:He; srun; [|done].
    rewrite (upd_loc_run _ _ _ l) by done. intros [= <-]. split; [by destruct d|].
    right. exists 0. left. by exists e.
  - done.
Qed.
End Planting.

(** ** A concrete debuggee

    Memory is a total function; pokes fail at the word addresses [sim_bad]. *)
Record Sim := mkSim { sim_mem : Z -> Z; sim_bad : list Z }.

Definition sim_word (m : Sim) (a : Z) : Z :=
  Serial.le_value (map (fun k => sim_mem m (a + k) mod 256) [0; 1; 2; 3; 4; 5; 6; 7]).

#[export] Instance Sim_machine : Machine Sim := {|
  read_u8 m a := Ret (sim_mem m a mod 256);
  read_u64 m a := Ret (sim_word m a);
  poke_text m t a w :=
    if existsb (Z.eqb a) (sim_bad m) then (Fail (IO OtherKind None), m)
    else (Ret tt, mkSim (fun b => if (a <=? b) && (b <? a + 8) then get_byte w ((b - a) * 8) else sim_mem m b)
                    (sim_bad m));
  poke_debugreg m t i v := (Ret tt, m);
  ptrace_interrupt m t := (Ret tt, m)
|}.

Lemma get_byte_div w s : 0 <= s -> get_byte w s = (w / 2 ^ s) mod 256.
Proof.
  intros Hs. unfold get_byte. change 255 with (Z.ones 8).
  rewrite Z.land_ones, Z.shiftr_div_pow2 by lia. done.
Qed.

Lemma get_byte_le_value l (k : nat) b :
  Forall is_u8 l -> l !! k = Some b -> get_byte (Serial.le_value l) (Z.of_nat k * 8) = b.
Proof.
  intros Hl. revert k. induction Hl as [|c l Hc _ IH]; intros k Hk; [by rewrite lookup_nil in Hk|].
  rewrite get_byte_div by lia. unfold is_u8 in Hc. cbn [Serial.le_value]. destruct k as [|k]; simpl in Hk.
  - injection Hk as <-. change (2 ^ (Z.of_nat 0 * 8)) with 1. rewrite Z.div_1_r.
    rewrite (Z.mul_comm 256), Z.mod_add by lia. by apply Z.mod_small.
  - rewrite <- (IH k Hk), get_byte_div by lia.
    replace (2 ^ (Z.of_nat (S k) * 8)) with (256 * 2 ^ (Z.of_nat k * 8)).
    2:{ replace (Z.of_nat (S k) * 8) with (8 + Z.of_nat k * 8) by lia. by rewrite Z.pow_add_r by lia. }
    rewrite <- Z.div_div by lia. f_equal. f_equal.
    rewrite (Z.mul_comm 256), Z.div_add by lia. rewrite Z.div_small by lia. lia.
Qed.

Lemma sim_word_ok m a w :
  w = sim_word m a ->
  is_u64 w /\ forall k, 0 <= k < 8 -> Some (sim_mem m (a + k) mod 256) = Some (get_byte w (k * 8)).
Proof.
  intros ->. unfold sim_word. set (l := map _ _).
  assert (Hl : Forall is_u8 l).
  { apply Forall_map, Forall_true. intros k. apply Z.mod_pos_bound. lia. }
  split; [exact (le_value_range l Hl)|]. intros k Hk. f_equal. symmetry.
  replace k with (Z.of_nat (Z.to_nat k)) at 1 by lia. apply get_byte_le_value; [done|].
  assert (k = 0 \/ k = 1 \/ k = 2 \/ k = 3 \/ k = 4 \/ k = 5 \/ k = 6 \/ k = 7) as Hcases by lia.
  destruct Hcases as [->|[->|[->|[->|[->|[->|[->| ->]]]]]]]; reflexivity.
Qed.

#[export] Program Instance Sim_laws : MachineLaws Sim := {| byte_at m a := Some (sim_mem m a mod 256) |}.
Next Obligation. intros m a x [= <-]. apply Z.mod_pos_bound. lia. Qed.
Next Obligation. intros m a x. cbn. split; congruence. Qed.
Next Obligation.
  intros m a w Hw. apply sim_word_ok. by injection Hw as <-.
Qed.
Next Obligation.
  intros m t a w m'. cbn. case_match; [done|]. intros [= <-] Hw b. cbn.
  destruct ((a <=? b) && (b <? a + 8)); [|done]. by rewrite Z.mod_small by apply get_byte_u8.
Qed.
Next Obligation. intros m t a w e m'. cbn. case_match; [|done]. by intros [= _ <-]. Qed.
Next Obligation. intros m t a w. cbn. by case_match. Qed.
Next Obligation. done. Qed.
Next Obligation. done. Qed.
Next Obligation. done. Qed.

(** A local debugger with no threads running. *)
Definition sample_debugger (p : Pool (Breakpoint unit)) (ls : list BreakpointLocation)
    (hs : list HardwareBreakpoint) (ts : list (Z * Thread)) (m : Sim) : Debugger unit Sim :=
  mkDebugger false PSuspended ts 7 p ls hs None false false None X86_64 None m.
Definition free_slots : list HardwareBreakpoint := [hw_default; hw_default; hw_default; hw_default].
Definition sample_location (a : Z) (r : list BreakpointRef) (act : bool) : BreakpointLocation :=
  mkLocation a 0 false act r None false.
Definition plain_memory (bad : list Z) : Sim := mkSim (fun a => a * 7) bad.

(** ** Properties: trap instructions *)

Section TrapProperties.
  Context {Expression M : Type} `{MachineLaws M}.
  Notation Dbg := (Debugger Expression M).

(** C2. Planting and removing a software breakpoint: activation writes the trap
    instruction at the location's address and nothing else, and remembers the
    byte that was there; if from then on only other addresses are written,
    deactivation puts that byte back, so that memory is as it would have been
    without the breakpoint (unless the process is gone). Neither changes
    anything else of the debugger's state. *)
Theorem trap_instruction_restored (d d1 d2 d3 : Dbg) idx tid tid' l :
  is_remote d = false -> zget (breakpoint_locations d) idx = Some l ->
  loc_active l = false -> hardware l = false -> 0 <= addr l ->
  activate_breakpoint_location idx tid d = (Ret tt, d1) ->
  (* anything may happen to the process meanwhile, except at this address *)
  d2 = set_machine (machine d2) d1 -> mem d2 (addr l) = mem d1 (addr l) ->
  deactivate_breakpoint_location idx tid' d2 = (Ret tt, d3) ->
  exists old, mem d (addr l) = Some old /\
    (forall x, mem d1 x = if x =? addr l then Some INT3 else mem d x) /\
    ((forall x, mem d3 x = if x =? addr l then mem d x else mem d2 x) \/
     exists w, gone (machine d2) tid' (addr l) w) /\
    d3 = set_locations (zset (breakpoint_locations d) idx (loc_set_original_byte old l))
           (set_machine (machine d3) d).
Proof.
  intros Hlocal Hl Hact Hhw Ha Hact1 Hd2 Hm2 Hdeact.
  destruct (activate_sw d d1 idx tid l) as (old&Hold&Hnew&Hd1); [done..|].
  exists old. split; [done|]. split; [done|].
  assert (Hl1 : zget (breakpoint_locations d2) idx = Some (loc_set_active true (loc_set_original_byte old l))).
  { rewrite Hd2, Hd1. cbn. by eapply zget_zset_eq. }
  destruct (deactivate_sw d2 d3 idx tid' (loc_set_active true (loc_set_original_byte old l))) as [Hd3 Hmem];
    [by rewrite Hd2, Hd1|done|done|done|done|by eapply byte_at_u8|done|].
  split.
  - destruct Hmem as [Hmem|?]; [left|by right]. intros x. rewrite Hmem. cbn.
    by destruct (Z.eqb_spec x (addr l)) as [->|].
  - rewrite Hd3, Hd2, Hd1. unfold set_locations, set_machine. cbn. f_equal. rewrite zset_zset.
    destruct l; cbn in *. by rewrite Hact.
Qed.
End TrapProperties.

Lemma trap_instruction_restored_witness :
  let l := sample_location 4099 [RefId (mkId 0 1) 0] false in
  let d := sample_debugger Pool.new [l] free_slots [] (plain_memory []) in
  let d1 := (activate_breakpoint_location 0 7 d).2 in
  let d3 := (deactivate_breakpoint_location 0 7 d1).2 in
  mem d1 4099 = Some 204 /\ mem d3 4099 = Some 21 /\ mem d1 4100 = mem d 4100.
Proof.
  intros l d d1 d3.
  destruct (trap_instruction_restored d d1 d1 d3 0 7 7 l) as (old&Hold&H1&H3&_); try reflexivity.
  - cbn. lia.
  - rewrite !H1. split; [reflexivity|]. split; [|reflexivity]. vm_compute. reflexivity.
Defined.
