(* ===== verification/BreakpointRefs.v ===== *)
(** Referential integrity of breakpoint management: every code location and
    every hardware slot that names a breakpoint names one that exists and is
    active, through every operation and on every error path. *)
From Stdlib Require Import ZArith Lia.
From stdpp Require Import base list gmap sets.
From S2P Require Import Prelude Errors StateMonad Pool BreakpointData GdbProto GdbRemote Breakpoints BreakpointsSpec.
Open Scope Z_scope.

Section Refs.
  Context {Expression M : Type} `{Machine M}.
  Context (determine_locations : BreakpointOn -> BreakpointOn * result (list (Z * Z))).
  Context (binaries : list (Z * bool)).
  Context (parse_watch_expression : list Z -> result Expression).
  Notation Dbg := (Debugger Expression M).
  Notation D := (stm Dbg Error).
  Notation BP := (Breakpoint Expression).
  Implicit Types (d : Dbg) (p : Pool BP).

Definition live_active p (id : Id) : Prop := exists b, Pool.abs p !! id = Some b /\ active b = true.

(** Locations whose references are all among those that satisfy [P]. *)
Definition locs_ok (P : Id -> Prop) (ls : list BreakpointLocation) : Prop :=
  forall l id lv, l ∈ ls -> RefId id lv ∈ refs l -> P id.
Definition hws_ok (P : Id -> Prop) (hs : list HardwareBreakpoint) : Prop :=
  forall h id, h ∈ hs -> hw_active h = true -> data_breakpoint_id h = Some id -> P id.

(** The three components the invariant is about. *)
Definition view d : Pool BP * list BreakpointLocation * list HardwareBreakpoint :=
  (breakpoints d, breakpoint_locations d, hardware_breakpoints d).
Definition ref_inv_of (v : Pool BP * list BreakpointLocation * list HardwareBreakpoint) : Prop :=
  let '(p, ls, hs) := v in
  Pool.inv p /\ locs_ok (live_active p) ls /\ hws_ok (live_active p) hs.
Definition ref_inv d : Prop := ref_inv_of (view d).
Notation Keeps := (keeps (S:=Dbg) (E:=Error) ref_inv).

(** ** Lists of locations and slots *)

Lemma locs_ok_mono (P Q : Id -> Prop) ls : (forall id, P id -> Q id) -> locs_ok P ls -> locs_ok Q ls.
Proof. unfold locs_ok. eauto. Qed.
Lemma hws_ok_mono (P Q : Id -> Prop) hs : (forall id, P id -> Q id) -> hws_ok P hs -> hws_ok Q hs.
Proof. unfold hws_ok. eauto. Qed.

Lemma zset_elem {A} (l : list A) i x y : y ∈ zset l i x -> y = x \/ y ∈ l.
Proof.
  unfold zset. case_match; [|by right]. intros (k&Hk)%list_elem_of_lookup.
  destruct (decide (k = Z.to_nat i)) as [->|].
  - left. apply list_lookup_insert_Some in Hk. naive_solver.
  - right. rewrite list_lookup_insert_ne in Hk by done. by eapply list_elem_of_lookup_2.
Qed.
Lemma zget_elem {A} (l : list A) i x : zget l i = Some x -> x ∈ l.
Proof. intros [_ Hx]%zget_Some. by eapply list_elem_of_lookup_2. Qed.

Lemma locs_ok_zset P ls i l :
  locs_ok P ls -> (forall id lv, RefId id lv ∈ refs l -> P id) -> locs_ok P (zset ls i l).
Proof. intros Hls Hl l' id lv [->|Hin]%zset_elem; [apply Hl|by apply Hls]. Qed.
Lemma hws_ok_zset P hs i h :
  hws_ok P hs -> (hw_active h = true -> forall id, data_breakpoint_id h = Some id -> P id) ->
  hws_ok P (zset hs i h).
Proof. intros Hhs Hh h' id [->|Hin]%zset_elem Ha; [by apply Hh|by apply Hhs]. Qed.
Lemma locs_ok_insert P ls i l :
  locs_ok P ls -> (forall id lv, RefId id lv ∈ refs l -> P id) -> locs_ok P (vec_insert ls i l).
Proof.
  intros Hls Hl l' id lv. unfold vec_insert. rewrite elem_of_app, elem_of_cons.
  intros [Hin|[->|Hin]]; [apply Hls|apply Hl|apply Hls].
  - by eapply elem_of_list_take in Hin as [? ?] || (eapply subseteq_take; exact Hin).
  - eapply subseteq_drop; exact Hin.
Qed.
Lemma locs_ok_map P (f : BreakpointLocation -> BreakpointLocation) ls :
  (forall l r, r ∈ refs (f l) -> r ∈ refs l) -> locs_ok P ls -> locs_ok P (map f ls).
Proof.
  intros Hf Hls l id lv (l0&->&Hin)%list_elem_of_fmap Hr. by eapply Hls, Hf.
Qed.
Lemma hws_ok_map P (f : HardwareBreakpoint -> HardwareBreakpoint) hs :
  (forall h, f h = hw_default \/ (hw_active (f h) = hw_active h /\ data_breakpoint_id (f h) = data_breakpoint_id h)) ->
  hws_ok P hs -> hws_ok P (map f hs).
Proof.
  intros Hf Hhs h id (h0&->&Hin)%list_elem_of_fmap Ha Hid.
  destruct (Hf h0) as [He|[He1 He2]]; [by rewrite He in Ha|].
  rewrite He1 in Ha. rewrite He2 in Hid. by eapply Hhs.
Qed.

(** Updating a breakpoint without deactivating it. *)
Lemma live_active_write p p' id (f : BP -> BP) id' :
  Pool.inv p -> Pool.try_get_mut p id f = Some p' -> (forall b, active b = true -> active (f b) = true) ->
  live_active p id' -> live_active p' id'.
Proof.
  intros Hp Hw Hf (b&Hb&Ha). pose proof (write_refines p id f Hp) as Hr. rewrite Hw in Hr.
  destruct Hr as (v&Hv&_&Habs&_). unfold live_active. rewrite Habs.
  destruct (decide (id' = id)) as [->|].
  - rewrite lookup_insert_eq. exists (f v). split; [done|]. apply Hf. congruence.
  - rewrite lookup_insert_ne by done. by exists b.
Qed.
Lemma live_active_write_same p p' id (f : BP -> BP) :
  Pool.inv p -> Pool.try_get_mut p id f = Some p' -> (forall b, active (f b) = true) -> live_active p' id.
Proof.
  intros Hp Hw Hf. pose proof (write_refines p id f Hp) as Hr. rewrite Hw in Hr.
  destruct Hr as (v&Hv&_&Habs&_). exists (f v). rewrite Habs, lookup_insert_eq. split; [done|apply Hf].
Qed.
Lemma write_inv p p' id (f : BP -> BP) : Pool.inv p -> Pool.try_get_mut p id f = Some p' -> Pool.inv p'.
Proof.
  intros Hp Hw. pose proof (write_refines p id f Hp) as Hr. rewrite Hw in Hr. by destruct Hr as (v&_&?&_).
Qed.

(** ** Operations that change none of the three components *)

Definition untouched {A} (m : D A) : Prop := forall d, view (m d).2 = view d.
Lemma untouched_keeps {A} (m : D A) : untouched m -> Keeps m.
Proof. apply (keeps_frame ref_inv view ref_inv_of). done. Qed.

Lemma on_remote_untouched {A} (m : GdbRemote.M A) : untouched (on_remote m).
Proof.
  intros d. unfold on_remote. destruct (remote d); [|done]. destruct (m g) as [[] ?]; done.
Qed.
Lemma poke_word_untouched t a w : untouched (poke_word t a w).
Proof. intros d. unfold poke_word. by destruct (poke_text (machine d) t a w). Qed.
Lemma poke_dr_untouched t i v : untouched (poke_dr t i v).
Proof. intros d. unfold poke_dr. by destruct (poke_debugreg (machine d) t i v). Qed.
Lemma read_word_untouched a : untouched (read_word a).
Proof. intros d. unfold read_word. by srun. Qed.
Lemma interrupt_untouched : untouched ptrace_interrupt_all_running_threads.
Proof.
  intros d. unfold ptrace_interrupt_all_running_threads. destruct (is_remote d); [done|].
  by destruct (interrupt_loop (machine d) (threads d) 0) as [[? ?] ?].
Qed.
Lemma smodify_untouched f : (forall d, view (f d) = view d) -> untouched (smodify f).
Proof. intros Hf d. apply Hf. Qed.

Lemma on_remote_keeps {A} (m : GdbRemote.M A) : Keeps (on_remote m).
Proof. apply untouched_keeps, on_remote_untouched. Qed.
Lemma poke_word_keeps t a w : Keeps (poke_word t a w).
Proof. apply untouched_keeps, poke_word_untouched. Qed.
Lemma poke_dr_keeps t i v : Keeps (poke_dr t i v).
Proof. apply untouched_keeps, poke_dr_untouched. Qed.
Lemma read_word_keeps a : Keeps (read_word a).
Proof. apply untouched_keeps, read_word_untouched. Qed.
Lemma interrupt_keeps : Keeps ptrace_interrupt_all_running_threads.
Proof. apply untouched_keeps, interrupt_untouched. Qed.
Lemma get_loc_keeps i : Keeps (get_loc (M:=M) (Expression:=Expression) i).
Proof. unfold get_loc. keeps. Qed.
Lemma get_hw_keeps i : Keeps (get_hw (M:=M) (Expression:=Expression) i).
Proof. unfold get_hw. keeps. Qed.
Lemma get_bp_keeps i : Keeps (get_bp (M:=M) (Expression:=Expression) i).
Proof. unfold get_bp. keeps. Qed.
Lemma debug_values_keeps i t : Keeps (debug_values (M:=M) (Expression:=Expression) i t).
Proof. unfold debug_values. keeps. apply get_hw_keeps. Qed.
#[local] Hint Resolve on_remote_keeps poke_word_keeps poke_dr_keeps read_word_keeps interrupt_keeps
  get_loc_keeps get_hw_keeps get_bp_keeps debug_values_keeps : keeps.

(** ** Locations *)

Lemma set_locations_keeps (f : Dbg -> list BreakpointLocation) :
  (forall d P, locs_ok P (breakpoint_locations d) -> locs_ok P (f d)) ->
  Keeps (smodify (fun d => set_locations (f d) d)).
Proof.
  intros Hf. apply keeps_modify. intros d (Hp&Hl&Hh). split; [done|]. split; [by apply Hf|done].
Qed.
Lemma set_hw_keeps (f : Dbg -> list HardwareBreakpoint) :
  (forall d P, hws_ok P (hardware_breakpoints d) -> hws_ok P (f d)) ->
  Keeps (smodify (fun d => set_hw (f d) d)).
Proof.
  intros Hf. apply keeps_modify. intros d (Hp&Hl&Hh). split; [done|]. split; [done|by apply Hf].
Qed.

(** An update of a location that adds no reference. *)
Lemma upd_loc_keeps i (f : BreakpointLocation -> BreakpointLocation) :
  (forall l r, r ∈ refs (f l) -> r ∈ refs l) -> Keeps (upd_loc (M:=M) (Expression:=Expression) i f).
Proof.
  intros Hf d (Hp&Hl&Hh). unfold upd_loc. srun.
  destruct (zget (breakpoint_locations d) i) as [l|] eqn:E; [|done]. srun.
  split; [done|]. split; [|done]. apply locs_ok_zset; [done|].
  intros id lv Hr%Hf. eapply Hl; [by eapply zget_elem|done].
Qed.
(** A slot that is not for a data breakpoint. *)
Lemma put_hw_keeps i h :
  (hw_active h = true -> data_breakpoint_id h = None) ->
  Keeps (put_hw (M:=M) (Expression:=Expression) i h).
Proof.
  intros Hn d (Hp&Hl&Hh). unfold put_hw. srun.
  destruct (zget (hardware_breakpoints d) i) as [h0|] eqn:E; [|done]. srun.
  split; [done|]. split; [done|]. apply hws_ok_zset; [done|].
  intros Ha id Hid. rewrite Hn in Hid by done. done.
Qed.
Lemma claim_hw_slot_keeps l : Keeps (claim_hw_slot (M:=M) (Expression:=Expression) l).
Proof.
  unfold claim_hw_slot. keeps; apply put_hw_keeps; done.
Qed.
Lemma release_hw_slots_keeps a : Keeps (release_hw_slots (M:=M) (Expression:=Expression) a).
Proof.
  unfold release_hw_slots. apply keeps_get_bind. intros d (Hp&Hl&Hh).
  split; [done|]. split; [done|]. apply hws_ok_map; [|done]. intros h. case_match; auto.
Qed.
#[local] Hint Resolve claim_hw_slot_keeps release_hw_slots_keeps : keeps.
#[local] Hint Extern 2 (Keeps (upd_loc _ _)) => (apply upd_loc_keeps; done) : keeps.

Lemma activate_breakpoint_location_keeps i t : Keeps (activate_breakpoint_location (Expression:=Expression) i t).
Proof. unfold activate_breakpoint_location. keeps. Qed.
Lemma ignore_esrch_keeps m : Keeps m -> Keeps (ignore_esrch (M:=M) (Expression:=Expression) m).
Proof. intros Hm. unfold ignore_esrch. keeps. Qed.
Lemma deactivate_breakpoint_location_keeps i t : Keeps (deactivate_breakpoint_location (Expression:=Expression) i t).
Proof.
  unfold deactivate_breakpoint_location. keeps. apply ignore_esrch_keeps. keeps.
Qed.
#[local] Hint Resolve activate_breakpoint_location_keeps deactivate_breakpoint_location_keeps : keeps.

(** ** Compaction and activation *)

Lemma swap_locs_keeps i j : Keeps (swap_locs i j).
Proof.
  intros d (Hp&Hl&Hh). unfold swap_locs. srun.
  destruct (zget (breakpoint_locations d) i) as [a|] eqn:Ea; srun; [|done].
  destruct (zget (breakpoint_locations d) j) as [b|] eqn:Eb; srun; [|done].
  split; [done|]. split; [|done].
  repeat apply locs_ok_zset; [done| |]; intros id lv; eapply Hl; by eapply zget_elem.
Qed.

Lemma compact_locations_keeps : Keeps (compact_locations (Expression:=Expression)).
Proof.
  unfold compact_locations, compact_step. keeps; [apply swap_locs_keeps|].
  apply set_locations_keeps. intros d P Hl l id lv Hin. apply Hl. by eapply subseteq_take.
Qed.

Lemma try_activate_keeps i : Keeps (try_activate (Expression:=Expression) i).
Proof. unfold try_activate. keeps. Qed.
Lemma activate_all_locations_keeps : Keeps (activate_all_locations (Expression:=Expression)).
Proof. unfold activate_all_locations. keeps. apply try_activate_keeps. Qed.
#[local] Hint Resolve compact_locations_keeps activate_all_locations_keeps : keeps.

(** Changing a breakpoint's fields other than [active] to false. *)
Lemma set_breakpoints_ref_inv d p' :
  ref_inv d -> Pool.inv p' -> (forall id, live_active (breakpoints d) id -> live_active p' id) ->
  ref_inv (set_breakpoints p' d).
Proof.
  intros (_&Hl&Hh) Hp' Hm. split; [done|].
  split; [by eapply locs_ok_mono|by eapply hws_ok_mono].
Qed.

Lemma upd_bp_keeps id (f : BP -> BP) :
  (forall b, active b = true -> active (f b) = true) -> Keeps (upd_bp id f).
Proof.
  intros Hf d Hd. unfold upd_bp. srun. unfold Pool.get_mut.
  destruct (Pool.try_get_mut (breakpoints d) id f) as [p'|] eqn:E; [|done]. srun.
  cbn. destruct Hd as (Hp&?&?). apply set_breakpoints_ref_inv; [done|by eapply write_inv|].
  intros id'. by eapply live_active_write.
Qed.
Lemma try_upd_bp_keeps id (f : BP -> BP) :
  (forall b, active b = true -> active (f b) = true) -> Keeps (try_upd_bp id f).
Proof.
  intros Hf d Hd. unfold try_upd_bp. srun. simpl.
  destruct (Pool.try_get_mut (breakpoints d) id f) as [p'|] eqn:E; [|done].
  destruct Hd as (Hp&?&?). apply set_breakpoints_ref_inv; [done|by eapply write_inv|].
  intros id'. by eapply live_active_write.
Qed.

(** Writing back a slot that was read, with its identity kept. *)
Lemma put_hw_same_keeps d i h h' :
  ref_inv d -> zget (hardware_breakpoints d) i = Some h ->
  hw_active h' = hw_active h -> data_breakpoint_id h' = data_breakpoint_id h ->
  after ref_inv (put_hw (M:=M) (Expression:=Expression) i h' d).
Proof.
  intros (Hp&Hl&Hh) Hi Ha Hid. unfold put_hw. srun. rewrite Hi. srun.
  split; [done|]. split; [done|]. apply hws_ok_zset; [done|].
  intros Hact id Hd. eapply Hh; [by eapply zget_elem|congruence|congruence].
Qed.

Lemma on_remote_hw {A} (m : GdbRemote.M A) d : hardware_breakpoints (on_remote (M:=M) (Expression:=Expression) m d).2 = hardware_breakpoints d.
Proof. pose proof (on_remote_untouched m d) as Hv. unfold view in Hv. by simplify_eq. Qed.

Lemma put_hw_default_keeps i : Keeps (put_hw i hw_default).
Proof. by apply put_hw_keeps. Qed.
#[local] Hint Resolve put_hw_default_keeps : keeps.

Lemma push_watch_keeps i : Keeps (push_watch (Expression:=Expression) (M:=M) i).
Proof.
  intros d Hd. unfold push_watch, get_hw. srun.
  destruct (zget (hardware_breakpoints d) i) as [h|] eqn:Eh; srun; [|done].
  destruct (data_breakpoint_id h) as [id|] eqn:Eid; srun; [|done].
  destruct (negb (hw_active h) || pushed_to_threads h); srun; [done|].
  apply after_bind; [by apply on_remote_keeps|].
  intros r d' Hr Hd'. pose proof (on_remote_hw (GdbRemote.insert_breakpoint (watch_kind h) (hw_addr h) (data_size h)) d) as Hhw.
  rewrite Hr in Hhw. simpl in Hhw. destruct r.
  - eapply put_hw_same_keeps; [done|by rewrite Hhw|done|done].
  - apply after_bind; [apply try_upd_bp_keeps; done|]. intros [] d2 _ Hd2. by apply put_hw_default_keeps.
Qed.

Lemma drop_watch_keeps i : Keeps (drop_watch (Expression:=Expression) (M:=M) i).
Proof.
  intros d Hd. unfold drop_watch, get_hw. srun.
  destruct (zget (hardware_breakpoints d) i) as [h|] eqn:Eh; srun; [|done].
  destruct (negb (hw_active h) && pushed_to_threads h); srun; [|done].
  apply after_bind; [by apply on_remote_keeps|].
  intros r d' Hr Hd'. pose proof (on_remote_hw (GdbRemote.remove_breakpoint (watch_kind h) (hw_addr h) (data_size h)) d) as Hhw.
  rewrite Hr in Hhw. simpl in Hhw. eapply put_hw_same_keeps; [done|by rewrite Hhw|done|done].
Qed.

Lemma handle_breakpoints_remote_keeps : Keeps (handle_breakpoints_remote (Expression:=Expression) (M:=M)).
Proof.
  unfold handle_breakpoints_remote. keeps; [apply push_watch_keeps|apply drop_watch_keeps].
Qed.

Lemma upd_thread_keeps t f : Keeps (upd_thread t f).
Proof. by apply keeps_modify. Qed.
Lemma convert_location_keeps a i : Keeps (convert_location (Expression:=Expression) (M:=M) a i).
Proof. unfold convert_location. keeps; apply upd_thread_keeps. Qed.
#[local] Hint Resolve handle_breakpoints_remote_keeps convert_location_keeps : keeps.

(** ** Deactivating a breakpoint *)

(** While the slots of [id] are being released, they alone may name it. *)
Definition releasing (p : Pool BP) (id : Id) (n i : Z) d : Prop :=
  breakpoints d = p /\ Pool.inv p /\ locs_ok (live_active p) (breakpoint_locations d) /\
  zlen (hardware_breakpoints d) = n /\
  forall j h id', zget (hardware_breakpoints d) j = Some h -> hw_active h = true ->
    data_breakpoint_id h = Some id' -> live_active p id' \/ (id' = id /\ i <= j).

Lemma release_data_slots_spec p id d :
  releasing p id (zlen (hardware_breakpoints d)) 0 d ->
  ends (fun _ d' => ref_inv d' /\ breakpoints d' = p) (fun _ => False)
    (release_data_slots (Expression:=Expression) (M:=M) id d).
Proof.
  intros Hd. unfold release_data_slots. srun. set (n := zlen (hardware_breakpoints d)) in *.
  eapply ends_weaken; [| |apply (sfor_seqZ (releasing p id n) (fun _ => False) _ 0 n d)];
    [|done|apply zlen_nonneg|done|].
  - intros _ d' (Hb&Hp&Hl&Hn&Hh). split; [|done]. split; [by rewrite Hb|]. rewrite Hb. split; [done|].
    intros h id' Hin Ha Hid. apply list_elem_of_lookup in Hin as [k Hk].
    assert (Hz : zget (hardware_breakpoints d') (Z.of_nat k) = Some h) by (by rewrite zget_of_nat).
    destruct (Hh _ _ _ Hz Ha Hid) as [?|[_ Hle]]; [done|].
    apply mk_is_Some, zget_range in Hz. lia.
  - clear Hd. clearbody n. clear d. intros i d Hi (Hb&Hp&Hl&Hn&Hh). unfold get_hw. srun.
    destruct (zget (hardware_breakpoints d) i) as [h|] eqn:Eh; srun; [|done].
    assert (Hput : forall d', view d' = view d ->
      ends (fun _ => releasing p id n (i + 1)) (fun _ => False) (put_hw (Expression:=Expression) (M:=M) i hw_default d')).
    { intros d' Hv. unfold view in Hv. injection Hv as Hv1 Hv2 Hv3. unfold put_hw. srun.
      rewrite Hv3, Eh. srun. split; [by cbn; rewrite Hv1|]. split; [done|]. split; [by cbn; rewrite Hv2|].
      split; [cbn; by rewrite zlen_zset|]. cbn. intros j h' id' Hj Ha Hid.
      destruct (decide (i = j)) as [<-|Hne].
      - rewrite (zget_zset_eq _ _ _ _ Eh) in Hj. injection Hj as <-. done.
      - rewrite zget_zset_ne in Hj by done. destruct (Hh _ _ _ Hj Ha Hid) as [?|[??]]; [by left|right; lia || (split; [done|lia])]. }
    destruct (hw_active h && bool_decide (data_breakpoint_id h = Some id)) eqn:Ec; srun.
    + destruct (_ && _ && _) eqn:Er; srun; [|by apply Hput].
      destruct (remote d) as [c|] eqn:Ec'; [|by rewrite andb_false_r in Er].
      pose proof (on_remote_untouched (GdbRemote.remove_breakpoint (watch_kind h) (hw_addr h) (data_size h)) d) as Hv.
      unfold on_remote in *. rewrite Ec' in *.
      destruct (GdbRemote.remove_breakpoint _ _ _ c) as [[] c']; simpl in Hv |- *; try done; by apply Hput.
    + split; [done|]. split; [done|]. split; [done|]. split; [done|].
      intros j h' id' Hj Ha Hid. destruct (Hh _ _ _ Hj Ha Hid) as [?|[-> Hle]]; [by left|].
      destruct (decide (i = j)) as [<-|]; [|right; split; [done|lia]].
      exfalso. rewrite Hj in Eh. injection Eh as ->. rewrite Ha, bool_decide_true in Ec by done. done.
Qed.

(** What deactivation leaves: [id] is not active any more, nothing refers to
    it, and it cannot fail. *)
Lemma deactivate_breakpoint_spec id d :
  ref_inv d ->
  ends (fun _ d' => ref_inv d' /\ ~ live_active (breakpoints d') id /\
          forall id', is_Some (Pool.abs (breakpoints d) !! id') <-> is_Some (Pool.abs (breakpoints d') !! id'))
    (fun _ => False) (deactivate_breakpoint (Expression:=Expression) (M:=M) id d).
Proof.
  intros (Hp&Hl&Hh). unfold deactivate_breakpoint, get_bp, upd_bp. srun. unfold Pool.get, Pool.get_mut.
  pose proof (write_refines (breakpoints d) id (bp_set_active false) Hp) as Hw.
  pose proof (abs_lookup (breakpoints d) id) as Habs.
  destruct (Pool.try_get (breakpoints d) id) as [b|] eqn:Eg; srun; [|done].
  destruct (Pool.try_get_mut (breakpoints d) id (bp_set_active false)) as [p'|] eqn:Ew; srun; [|done].
  destruct Hw as (v&Hv&Hp'&Habs'&_). rewrite Hv in Habs. injection Habs as ->.
  assert (Hlive : forall id', live_active p' id' <-> live_active (breakpoints d) id' /\ id' <> id).
  { intros id'. unfold live_active. rewrite Habs'. destruct (decide (id' = id)) as [->|Hne].
    - rewrite lookup_insert_eq. split; [|naive_solver]. intros (b'&Hb'&Hact). injection Hb' as <-. cbn in Hact. done.
    - rewrite lookup_insert_ne by done. naive_solver. }
  assert (Hdom : forall id', is_Some (Pool.abs (breakpoints d) !! id') <-> is_Some (Pool.abs p' !! id')).
  { intros id'. rewrite Habs'. destruct (decide (id' = id)) as [->|Hne].
    - rewrite lookup_insert_eq, Hv. split; eauto.
    - by rewrite lookup_insert_ne. }
  destruct (active b) eqn:Ea; cbn [negb]; srun.
  - eapply ends_weaken; [| |apply (release_data_slots_spec p' id)]; [|done|].
    + intros _ d' [Hr Hb]. split; [done|]. rewrite Hb. split; [|done]. rewrite Hlive. naive_solver.
    + split; [done|]. split; [done|]. split; [|split; [done|]].
      * cbn. intros l id' lv (l0&->&Hin)%list_elem_of_fmap Hr. cbn in Hr.
        apply list_elem_of_In, filter_In in Hr as [Hr%list_elem_of_In Hnr]. apply Hlive.
        split; [by eapply Hl|]. intros ->. cbn in Hnr. rewrite bool_decide_true in Hnr by done. done.
      * cbn. intros j h id' Hj Hact Hid. destruct (decide (id' = id)) as [->|Hne].
        -- right. split; [done|]. apply mk_is_Some, zget_range in Hj. lia.
        -- left. apply Hlive. split; [|done]. eapply Hh; [by eapply zget_elem|done|done].
  - assert (Hsame : forall id', live_active (breakpoints d) id' -> live_active p' id').
    { intros id' Hla. apply Hlive. split; [done|]. intros ->. destruct Hla as (b'&Hb'&Hact').
      rewrite Hv in Hb'. injection Hb' as <-. congruence. }
    split; [|split; [|done]].
    + split; [done|]. split; [by eapply locs_ok_mono|by eapply hws_ok_mono].
    + cbn. rewrite Hlive. naive_solver.
Qed.

Lemma deactivate_breakpoint_keeps id : Keeps (deactivate_breakpoint (Expression:=Expression) (M:=M) id).
Proof.
  intros d Hd. pose proof (deactivate_breakpoint_spec id d Hd) as He.
  destruct (deactivate_breakpoint id d) as [[] ?]; simpl in *; tauto.
Qed.
#[local] Hint Resolve deactivate_breakpoint_keeps : keeps.

(** ** Debug registers *)

Lemma reject_slot_keeps i t e : Keeps (reject_slot (Expression:=Expression) (M:=M) i t e).
Proof. unfold reject_slot. keeps. by apply upd_bp_keeps. Qed.
#[local] Hint Resolve reject_slot_keeps : keeps.

Lemma try_single_keeps t dr7 st i : Keeps (try_single (Expression:=Expression) (M:=M) t dr7 st i).
Proof. unfold try_single. keeps. Qed.
#[local] Hint Resolve try_single_keeps : keeps.

Lemma dr7_loop_keeps fuel t n dr7 a : Keeps (dr7_loop (Expression:=Expression) (M:=M) fuel t n dr7 a).
Proof. revert n dr7 a. induction fuel as [|fuel IH]; intros n dr7 a; simpl; keeps. Qed.

Lemma set_debug_registers_keeps t : Keeps (set_debug_registers_for_thread (Expression:=Expression) (M:=M) t).
Proof.
  unfold set_debug_registers_for_thread, set_debug_registers_for_thread_impl, write_addresses.
  apply ignore_esrch_keeps. keeps. apply dr7_loop_keeps.
Qed.
#[local] Hint Resolve set_debug_registers_keeps : keeps.

Lemma handle_breakpoints_keeps : Keeps (handle_breakpoints (Expression:=Expression) (M:=M)).
Proof.
  unfold handle_breakpoints, handle_breakpoints_local. keeps.
  apply set_hw_keeps. intros d P. apply hws_ok_map. auto.
Qed.
#[local] Hint Resolve handle_breakpoints_keeps : keeps.

Lemma set_stopping_keeps b : Keeps (smodify (set_stopping b)).
Proof. by apply keeps_modify. Qed.
#[local] Hint Resolve set_stopping_keeps : keeps.

Lemma arrange_handle_breakpoints_keeps : Keeps (arrange_handle_breakpoints (Expression:=Expression) (M:=M)).
Proof. unfold arrange_handle_breakpoints. keeps. Qed.
#[local] Hint Resolve arrange_handle_breakpoints_keeps : keeps.

(** ** Activating a breakpoint *)

(** Adding a reference to an active breakpoint. *)
Lemma add_breakpoint_location_keeps id lv a :
  keeps (E:=Error) (fun d => ref_inv d /\ live_active (breakpoints d) id)
    (add_breakpoint_location (Expression:=Expression) (M:=M) (RefId id lv) a).
Proof.
  intros d [(Hp&Hl&Hh) Hid]. unfold add_breakpoint_location. srun.
  set (ls := breakpoint_locations d) in *. set (idx := partition_point _ ls).
  assert (Hins : forall byte, after (E:=Error) (fun d => ref_inv d /\ live_active (breakpoints d) id)
    (smodify (set_locations (vec_insert ls idx (mkLocation a byte false false [RefId id lv] None false))) d)).
  { intros byte. srun. split; [|done]. split; [done|]. split; [|done]. apply locs_ok_insert; [done|].
    intros id' lv' Hr. apply list_elem_of_singleton in Hr. by injection Hr as -> ->. }
  destruct (zget ls (Z.of_nat idx)) as [l|] eqn:El; [|srun; apply Hins].
  destruct (addr l =? a); [|srun; apply Hins].
  unfold upd_loc. srun. fold ls. rewrite El. srun. split; [|done]. split; [done|]. split; [|done].
  apply locs_ok_zset; [done|]. cbn. intros id' lv' [Hr|Hr%list_elem_of_singleton]%elem_of_app.
  - eapply Hl; [by eapply zget_elem|done].
  - by injection Hr as -> ->.
Qed.

Lemma put_hw_other i h d d' :
  put_hw (Expression:=Expression) (M:=M) i h d = (Ret tt, d') ->
  breakpoints d' = breakpoints d /\ breakpoint_locations d' = breakpoint_locations d /\
  hardware_breakpoints d' = zset (hardware_breakpoints d) i h.
Proof. unfold put_hw. srun. destruct (zget _ i); srun; [|done]. by intros [= <-]. Qed.

Lemma activate_data_breakpoint_keeps id b : Keeps (activate_data_breakpoint (Expression:=Expression) (M:=M) id b).
Proof.
  intros d (Hp&Hl&Hh). unfold activate_data_breakpoint. srun.
  destruct (position_inactive (hardware_breakpoints d) 0) as [i|]; srun.
  - set (h := mkHw true None (d_addr b) (Some id) (d_stop_on_read b) (d_size b) false).
    destruct (put_hw i h d) as [[[]| |] d1] eqn:Ep; [| |done].
    2:{ unfold put_hw in Ep. revert Ep. srun. by destruct (zget _ i). }
    apply put_hw_other in Ep as (Hb1&Hl1&Hh1). srun.
    unfold upd_bp. srun. unfold Pool.get_mut. rewrite Hb1.
    set (f := fun b : BP => bp_set_addrs not_calculated (bp_set_active true b)).
    destruct (Pool.try_get_mut (breakpoints d) id f) as [p'|] eqn:Ew; srun; [|done].
    assert (Hmono : forall id', live_active (breakpoints d) id' -> live_active p' id')
      by (intros id'; by eapply live_active_write).
    split; [by eapply write_inv|]. cbn. rewrite Hl1, Hh1. split; [by eapply locs_ok_mono|].
    apply hws_ok_zset; [by eapply hws_ok_mono|]. intros _ id' [= <-]. by eapply live_active_write_same.
  - revert d Hp Hl Hh. intros d Hp Hl Hh.
    pose proof (upd_bp_keeps id (fun b : BP => bp_set_addrs (Fail (Code OutOfHardwareBreakpoints)) (set_enabled b false))
      ltac:(done) d (conj Hp (conj Hl Hh))) as Hk.
    destruct (upd_bp _ _ d) as [[[]| |] d1]; srun; done.
Qed.

Lemma upd_bp_run id (f : BP -> BP) d :
  upd_bp (M:=M) id f d =
  match Pool.try_get_mut (breakpoints d) id f with
  | Some p => (Ret tt, set_breakpoints p d)
  | None => (Panic, d)
  end.
Proof. unfold upd_bp. srun. unfold Pool.get_mut. destruct (Pool.try_get_mut _ id f); by srun. Qed.

Lemma activate_one_keeps st id : Keeps (activate_one (Expression:=Expression) (M:=M) determine_locations st id).
Proof.
  unfold activate_one. destruct st as [sh w]. apply keeps_bind; [auto with keeps|]. intros b.
  apply keeps_if; [auto with keeps|].
  assert (Hcode : Keeps (
    _ ← match addrs b with
        | Ret _ => mret tt
        | _ => let '(o, a) := determine_locations (on b) in upd_bp id (fun b => bp_set_addrs a (bp_set_on o b))
        end;
    b ← get_bp id;
    match addrs b with
    | Ret l =>
        _ ← sassert (negb (bool_decide (l = [])));
        _ ← upd_bp id (bp_set_active true);
        _ ← sfor l (fun x => add_breakpoint_location (RefId id x.2) x.1);
        mret (true, w)
    | Fail e => mret (sh, w || (is_loading e && should_wait_for_symbols (on b)))
    | Panic => mret (sh, w)
    end)).
  { apply keeps_bind.
    { destruct (addrs b); auto with keeps; destruct (determine_locations (on b)); by apply upd_bp_keeps. }
    intros _. apply keeps_bind; [auto with keeps|]. intros b2.
    destruct (addrs b2) as [l| |]; [|auto with keeps..].
    apply keeps_bind; [auto with keeps|]. intros _ d Hd. rewrite stm_bind_run, upd_bp_run.
    destruct (Pool.try_get_mut (breakpoints d) id (bp_set_active true)) as [p'|] eqn:Ew; [|done].
    destruct Hd as (Hp&Hl&Hh).
    assert (Hd1 : ref_inv (set_breakpoints p' d) /\ live_active (breakpoints (set_breakpoints p' d)) id).
    { split; [|by eapply live_active_write_same].
      apply set_breakpoints_ref_inv; [done|by eapply write_inv|]. intros id'. by eapply live_active_write. }
    assert (Hk : keeps (E:=Error) (fun d => ref_inv d /\ live_active (breakpoints d) id)
      (_ ← sfor l (fun x => add_breakpoint_location (Expression:=Expression) (M:=M) (RefId id x.2) x.1);
       mret (true, w))).
    { apply keeps_bind; [|intros _; apply keeps_ret].
      apply keeps_for. intros x _. apply add_breakpoint_location_keeps. }
    eapply after_mono; [|exact (Hk _ Hd1)]. by intros ? [? _]. }
  destruct (on b); [exact Hcode..|].
  apply keeps_bind; [apply activate_data_breakpoint_keeps|]. auto with keeps.
Qed.

Lemma check_wait_keeps : Keeps (check_if_we_should_wait_for_symbols_to_load (Expression:=Expression) (M:=M) binaries).
Proof. unfold check_if_we_should_wait_for_symbols_to_load. keeps; by apply keeps_modify. Qed.

Lemma activate_breakpoints_keeps ids :
  Keeps (activate_breakpoints (Expression:=Expression) (M:=M) determine_locations binaries ids).
Proof.
  unfold activate_breakpoints. keeps; [apply activate_one_keeps|apply check_wait_keeps].
Qed.
#[local] Hint Resolve activate_breakpoints_keeps : keeps.

(** ** The operations of the user interface *)

Lemma add_breakpoint_keeps o : Keeps (add_breakpoint (Expression:=Expression) (M:=M) determine_locations binaries o).
Proof.
  unfold add_breakpoint. apply keeps_if; [auto with keeps|]. apply keeps_get_bind. intros d Hd.
  destruct (Pool.add (breakpoints d) (new_breakpoint o)) as [[id p']| |] eqn:Ea; srun; [|done..].
  assert (Hd' : ref_inv (set_breakpoints p' d)).
  { destruct Hd as (Hp&Hl&Hh).
    assert (Hlt : next_seqno (breakpoints d) + 1 < 2 ^ 64).
    { unfold Pool.add, uadd in Ea. destruct (Z.ltb_spec (next_seqno (breakpoints d) + 1) (2 ^ 64)); done. }
    destruct (add_refines (breakpoints d) (new_breakpoint o) Hp Hlt) as (id'&p2&Heq&_&_&Hf&Hi&Habs&_).
    rewrite Ea in Heq. injection Heq as <- <-.
    apply set_breakpoints_ref_inv; [done|done|]. intros id'' (b&Hb&Hact). exists b.
    rewrite Habs, lookup_insert_ne by congruence. done. }
  assert (Hk : Keeps (swhen (process_ready (target_state d))
    (activate_breakpoints (Expression:=Expression) (M:=M) determine_locations binaries [id]))) by keeps.
  specialize (Hk _ Hd'). cbn [target_state set_breakpoints].
  destruct (swhen _ _ (set_breakpoints p' d)) as [[] ?]; exact Hk.
Qed.

(** What [remove_breakpoint] leaves. *)
Lemma remove_breakpoint_spec id d :
  ref_inv d ->
  ends (fun r d' => ref_inv d' /\ r = bool_decide (is_Some (Pool.abs (breakpoints d) !! id)) /\
          Pool.abs (breakpoints d') !! id = None /\
          forall id', id' <> id -> is_Some (Pool.abs (breakpoints d) !! id') <-> is_Some (Pool.abs (breakpoints d') !! id'))
    (fun _ => False) (remove_breakpoint (Expression:=Expression) (M:=M) id d).
Proof.
  intros Hd. unfold remove_breakpoint. srun. pose proof (abs_lookup (breakpoints d) id) as Habs.
  destruct (Pool.try_get (breakpoints d) id) as [b|].
  - eapply ends_bind; [by apply deactivate_breakpoint_spec|]. intros [] d1 (Hd1&Hna&Hdom). srun. cbn.
    destruct Hd1 as (Hp1&Hl1&Hh1). destruct (remove_refines (breakpoints d1) id Hp1) as (_&Hp2&Habs2&_).
    assert (Hlive : forall id', live_active (breakpoints d1) id' ->
      live_active (Pool.remove (breakpoints d1) id).2 id').
    { intros id' Hla. destruct (decide (id' = id)) as [->|Hne]; [done|].
      destruct Hla as (b'&Hb'&Hact). exists b'. by rewrite Habs2, lookup_delete_ne by congruence. }
    split; [apply set_breakpoints_ref_inv; done|]. rewrite Habs. rewrite bool_decide_true by eauto.
    split; [done|]. rewrite Habs2. split; [by rewrite lookup_delete_eq|].
    intros id' Hne. rewrite lookup_delete_ne by congruence. apply Hdom.
  - srun. cbn. rewrite Habs, bool_decide_false by (intros []; done). split; [done|]. split; [done|]. split; done.
Qed.
(** A location and a slot once a breakpoint is gone. *)
Definition unreferenced (id : Id) (l : BreakpointLocation) : BreakpointLocation :=
  loc_set_refs (List.filter (fun r => negb (refers_to id r)) (refs l)) l.
Definition unwatched (id : Id) (h : HardwareBreakpoint) : HardwareBreakpoint :=
  if hw_active h && bool_decide (data_breakpoint_id h = Some id) then hw_default else h.

Lemma on_remote_result {A} (m : GdbRemote.M A) d : is_Some (remote d) ->
  ends (fun _ d' => exists c, d' = set_remote (Some c) d) (fun _ => False) (on_remote m d).
Proof. intros [c Hc]. unfold on_remote. rewrite Hc. destruct (m c) as [[] c']; simpl; eauto. Qed.
Lemma map_next {A} (f : A -> A) (l : list A) i x : zget l i = Some x ->
  zset (map f (take (Z.to_nat i) l) ++ drop (Z.to_nat i) l) i (f x) = map f (take (Z.to_nat (i + 1)) l) ++ drop (Z.to_nat (i + 1)) l /\
  zget (map f (take (Z.to_nat i) l) ++ drop (Z.to_nat i) l) i = Some x.
Proof.
  intros [Hi Hx]%zget_Some. pose proof (lookup_lt_Some _ _ _ Hx) as Hlt. set (k := Z.to_nat i) in *. replace (Z.to_nat (i + 1)) with (S k) by lia.
  assert (Hlen : length (map f (take k l)) = k) by (rewrite length_map, length_take; lia).
  rewrite (drop_S _ _ _ Hx), (take_S_r _ _ _ Hx), map_app. unfold zset, zget, zlen. rewrite length_app. cbn [length map]. rewrite Hlen.
  replace ((0 <=? i) && (i <? Z.of_nat (k + S (length (drop (S k) l)))))%Z with true by (symmetry; apply andb_true_iff; split; lia).
  fold k. rewrite insert_app_r_alt, lookup_app_r by lia. rewrite Hlen, Nat.sub_diag. split; [by rewrite <- app_assoc|done].
Qed.
Lemma release_data_slots_result id d :
  ends (fun _ d' => exists conn, d' = set_remote conn (set_hw (map (unwatched id) (hardware_breakpoints d)) d) /\ (is_remote d = false -> conn = remote d))
    (fun _ => False) (release_data_slots (Expression:=Expression) (M:=M) id d).
Proof.
  unfold release_data_slots. srun. set (hs := hardware_breakpoints d).
  set (W := fun i d' => exists conn, d' = set_remote conn (set_hw (map (unwatched id) (take (Z.to_nat i) hs) ++ drop (Z.to_nat i) hs) d) /\
    (is_remote d = false -> conn = remote d)).
  eapply ends_weaken; [| |apply (sfor_seqZ W (fun _ => False) _ 0 (zlen hs) d)]; [|done|apply zlen_nonneg| |].
  - intros _ d' (conn&->&Hc). exists conn. split; [|done]. rewrite Z.add_0_l. unfold zlen. by rewrite Nat2Z.id, firstn_all, drop_all, app_nil_r.
  - exists (remote d). split; [|done]. unfold hs. simpl. by destruct d.
  - intros i d' Hi (conn&->&Hc). destruct (proj2 (zget_range hs i) ltac:(lia)) as [h Hh]. destruct (map_next (unwatched id) hs i h Hh) as [Hset Hget].
    set (cur := map _ _ ++ _) in *. unfold get_hw. srun. cbn [hardware_breakpoints set_remote set_hw]. rewrite Hget. srun.
    assert (Hput : forall conn', (is_remote d = false -> conn' = remote d) -> unwatched id h = hw_default ->
      ends (fun _ => W (i + 1)) (fun _ => False) (put_hw (Expression:=Expression) (M:=M) i hw_default (set_remote conn' (set_hw cur d)))).
    { intros conn' Hc' Hu. unfold put_hw. srun. cbn [hardware_breakpoints set_remote set_hw]. rewrite Hget. srun. exists conn'. split; [|done].
      rewrite <- Hset, Hu. done. }
    assert (Hu : unwatched id h = if hw_active h && bool_decide (data_breakpoint_id h = Some id) then hw_default else h) by done.
    destruct (hw_active h && bool_decide (data_breakpoint_id h = Some id)); srun.
    + cbn [is_remote set_remote set_hw remote]. destruct (is_remote d && pushed_to_threads h && match conn with Some _ => true | None => false end) eqn:Er; srun; [|by apply Hput].
      apply andb_true_iff in Er as [Er Ec]. apply andb_true_iff in Er as [Er _]. destruct conn as [c|]; [|done].
      assert (Hr := on_remote_result (GdbRemote.remove_breakpoint (watch_kind h) (hw_addr h) (data_size h)) (set_remote (Some c) (set_hw cur d)) ltac:(by eexists)).
      destruct (on_remote _ _) as [[a|e|] d1]; simpl in Hr |- *; [|done|done]. destruct Hr as [c' ->].
      apply (Hput (Some c')); [by rewrite Er|done].
    + exists conn. split; [|done]. rewrite <- Hset, Hu. unfold zset. case_match; [|done]. rewrite list_insert_id; [done|].
      apply zget_Some in Hget as [_ Hget]. exact Hget.
Qed.

(** With a local debuggee no index or [unwrap] on the way can panic. *)
Lemma release_data_slots_local_returns id d :
  is_remote d = false -> exists d', release_data_slots (Expression:=Expression) (M:=M) id d = (Ret tt, d').
Proof.
  intros Hlocal. unfold release_data_slots. srun.
  assert (Hb : forall i, i ∈ seqZ 0 (zlen (hardware_breakpoints d)) -> 0 <= i < zlen (hardware_breakpoints d))
    by (intros i Hi%elem_of_seqZ; lia).
  revert Hb. generalize (seqZ 0 (zlen (hardware_breakpoints d))) as l. intros l. revert d Hlocal.
  induction l as [|i l IH]; intros d Hlocal Hb; [by exists d|]. cbn [sfor]. srun. unfold get_hw. srun.
  assert (is_Some (zget (hardware_breakpoints d) i)) as [h Hh] by (apply zget_range, Hb; by left).
  assert (Hl : forall j, j ∈ l -> 0 <= j < zlen (hardware_breakpoints d)) by (intros j Hj; apply Hb; by right).
  rewrite Hh. srun.
  destruct (hw_active h && bool_decide (data_breakpoint_id h = Some id)); srun; [|by apply IH]. rewrite Hlocal. cbn [andb]. srun. unfold put_hw. srun. rewrite Hh. srun.
  apply IH; [done|]. cbn. by rewrite zlen_zset.
Qed.

Lemma remove_breakpoint_local_returns id d :
  ref_inv d -> is_remote d = false ->
  (remove_breakpoint (Expression:=Expression) (M:=M) id d).1 <> Panic.
Proof.
  intros (Hp&_&_) Hlocal. unfold remove_breakpoint. srun.
  pose proof (write_refines (breakpoints d) id (bp_set_active false) Hp) as Hw.
  destruct (Pool.try_get (breakpoints d) id) as [b|] eqn:Eg; [|done].
  unfold deactivate_breakpoint, get_bp, upd_bp. srun. unfold Pool.get, Pool.get_mut. rewrite Eg. srun.
  destruct (Pool.try_get_mut (breakpoints d) id (bp_set_active false)) as [p'|] eqn:Ew; srun.
  - destruct (negb (active b)); srun; [cbn; discriminate|].
    destruct (release_data_slots_local_returns id (set_locations
      (map (fun l => loc_set_refs (List.filter (fun r => negb (refers_to id r)) (refs l)) l)
        (breakpoint_locations d)) (set_breakpoints p' d)) Hlocal) as [d' Hd'].
    cbn in Hd' |- *. rewrite Hd'. discriminate.
  - rewrite abs_lookup in Hw. congruence.
Qed.

(** A breakpoint that is not active has no references and no slots. *)
Lemma inactive_unreferenced id d : ref_inv d -> ~ live_active (breakpoints d) id ->
  map (unreferenced id) (breakpoint_locations d) = breakpoint_locations d /\ map (unwatched id) (hardware_breakpoints d) = hardware_breakpoints d.
Proof.
  intros (_&Hl&Hh) Hn. split; rewrite <- (map_id (_ d)) at 2; apply map_ext_in.
  - intros l Hin%list_elem_of_In. unfold unreferenced, loc_set_refs. rewrite List.forallb_filter_id; [by destruct l|].
    apply forallb_forall. intros [?|id' lv] Hr%list_elem_of_In; [done|]. cbn. rewrite bool_decide_false; [done|]. intros ->. by eapply Hn, Hl.
  - intros h Hin%list_elem_of_In. unfold unwatched. case_match eqn:E; [|done]. apply andb_true_iff in E as [Ha Hid%bool_decide_eq_true]. by destruct Hn; eapply Hh.
Qed.
Lemma remove_breakpoint_result id d : ref_inv d ->
  ends (fun r d' => r = bool_decide (is_Some (Pool.abs (breakpoints d) !! id)) /\
      exists p conn, d' = set_remote conn (set_hw (map (unwatched id) (hardware_breakpoints d))
        (set_locations (map (unreferenced id) (breakpoint_locations d)) (set_breakpoints p d))) /\
        Pool.abs p = delete id (Pool.abs (breakpoints d)) /\ (is_remote d = false -> conn = remote d))
    (fun _ => False) (remove_breakpoint (Expression:=Expression) (M:=M) id d).
Proof.
  intros Hd. pose proof (proj1 Hd) as Hp. unfold remove_breakpoint. srun. pose proof (abs_lookup (breakpoints d) id) as Habs.
  pose proof (write_refines (breakpoints d) id (bp_set_active false) Hp) as Hw.
  destruct (Pool.try_get (breakpoints d) id) as [b|] eqn:Eg.
  2: { srun. cbn. rewrite Habs, bool_decide_false by (by intros []). split; [done|]. exists (breakpoints d), (remote d).
       destruct (inactive_unreferenced id d Hd) as [-> ->]; [intros (?&?&_); congruence|]. split; [by destruct d|]. split; [by rewrite delete_id|done]. }
  rewrite Habs, bool_decide_true by eauto. unfold deactivate_breakpoint, get_bp, upd_bp. srun. unfold Pool.get, Pool.get_mut. rewrite Eg. srun.
  destruct (Pool.try_get_mut (breakpoints d) id (bp_set_active false)) as [p'|] eqn:Ew; srun; [|done].
  destruct Hw as (v&Hv&Hp'&Habs'&_). destruct (remove_refines p' id Hp') as (_&_&Habs2&_).
  assert (Hdel : Pool.abs (Pool.remove p' id).2 = delete id (Pool.abs (breakpoints d))) by (rewrite Habs2, Habs'; apply delete_insert_eq).
  destruct (active b) eqn:Ea; cbn [negb]; srun.
  - eapply ends_bind; [apply release_data_slots_result|]. intros [] d1 (conn&->&Hc). srun. cbn. split; [done|]. by eexists _, conn.
  - cbn. split; [done|]. eexists _, (remote d). destruct (inactive_unreferenced id d Hd) as [-> ->]; [intros (b'&Hb'&Ha'); congruence|].
    split; [|done]. by destruct d.
Qed.

Lemma remove_breakpoint_keeps id : Keeps (remove_breakpoint (Expression:=Expression) (M:=M) id).
Proof.
  intros d Hd. pose proof (remove_breakpoint_spec id d Hd) as He.
  destruct (remove_breakpoint id d) as [[] ?]; simpl in *; tauto.
Qed.

Lemma set_breakpoint_enabled_keeps id e :
  Keeps (set_breakpoint_enabled (Expression:=Expression) (M:=M) determine_locations binaries id e).
Proof. unfold set_breakpoint_enabled. keeps. by apply upd_bp_keeps. Qed.
Lemma set_breakpoint_condition_keeps id c :
  Keeps (set_breakpoint_condition (Expression:=Expression) (M:=M) parse_watch_expression id c).
Proof. unfold set_breakpoint_condition. keeps; by apply upd_bp_keeps. Qed.
Lemma set_data_breakpoint_stop_on_read_keeps id s :
  Keeps (set_data_breakpoint_stop_on_read (Expression:=Expression) (M:=M) determine_locations binaries id s).
Proof. unfold set_data_breakpoint_stop_on_read. keeps; by apply upd_bp_keeps. Qed.
Lemma cancel_stepping_keeps : Keeps (cancel_stepping (Expression:=Expression) (M:=M)).
Proof.
  unfold cancel_stepping. keeps; try by apply keeps_modify.
  apply keeps_modify. intros d (Hp&Hl&Hh). split; [done|]. split; [|done].
  apply locs_ok_map; [|done]. intros l r. cbn. intros [Hr _]%list_elem_of_In%filter_In.
  by apply list_elem_of_In.
Qed.

(** C1. References stay valid: whatever a breakpoint operation does, and whether it
    succeeds or fails half-way, every code location and every active hardware
    slot that names a breakpoint afterwards names one that exists and is
    active, and the pool of breakpoints stays well-formed. *)
Theorem reference_integrity d o id ids e c s :
  ref_inv d ->
  after ref_inv (add_breakpoint determine_locations binaries o d) /\
  after ref_inv (remove_breakpoint id d) /\
  after ref_inv (set_breakpoint_enabled determine_locations binaries id e d) /\
  after ref_inv (set_breakpoint_condition parse_watch_expression id c d) /\
  after ref_inv (set_data_breakpoint_stop_on_read determine_locations binaries id s d) /\
  after ref_inv (activate_breakpoints determine_locations binaries ids d) /\
  after ref_inv (arrange_handle_breakpoints d) /\
  after ref_inv (handle_breakpoints d) /\
  after ref_inv (cancel_stepping d).
Proof.
  intros Hd. split; [by apply add_breakpoint_keeps|]. split; [by apply remove_breakpoint_keeps|].
  split; [by apply set_breakpoint_enabled_keeps|]. split; [by apply set_breakpoint_condition_keeps|].
  split; [by apply set_data_breakpoint_stop_on_read_keeps|]. split; [by apply activate_breakpoints_keeps|].
  split; [by apply arrange_handle_breakpoints_keeps|]. split; [by apply handle_breakpoints_keeps|].
  by apply cancel_stepping_keeps.
Qed.

(** C22. Removing a breakpoint never fails, reports whether it existed, and does
    nothing else: the other breakpoints stay as they are, the locations lose the
    references to it and keep the others, the active hardware slots that watch
    for it are reset and the others are not, and nothing else of the state
    changes but the connection of a remote debuggee, which is told. So no
    location and no active slot names it any more. With a local debuggee it does
    not panic. *)
Theorem remove_breakpoint_complete d id :
  ref_inv d ->
  ends (fun r d' =>
      r = bool_decide (is_Some (Pool.abs (breakpoints d) !! id)) /\
      (exists p conn, d' = set_remote conn (set_hw (map (unwatched id) (hardware_breakpoints d))
          (set_locations (map (unreferenced id) (breakpoint_locations d)) (set_breakpoints p d))) /\
        Pool.abs p = delete id (Pool.abs (breakpoints d)) /\ (is_remote d = false -> conn = remote d)) /\
      (forall l lv, l ∈ breakpoint_locations d' -> RefId id lv ∉ refs l) /\
      (forall h, h ∈ hardware_breakpoints d' -> hw_active h = true -> data_breakpoint_id h <> Some id))
    (fun _ => False) (remove_breakpoint id d) /\
  (is_remote d = false -> (remove_breakpoint id d).1 <> Panic).
Proof.
  intros Hd. split; [|by apply remove_breakpoint_local_returns]. eapply ends_weaken; [| |by apply remove_breakpoint_result]; [|done].
  intros r d' (Hr&p&conn&->&Hp&Hc). split; [done|]. split; [by exists p, conn|]. cbn. split.
  - intros l lv (l0&->&_)%list_elem_of_fmap Href. cbn in Href. apply list_elem_of_In, filter_In in Href as [_ Href].
    cbn in Href. by rewrite bool_decide_true in Href.
  - intros h (h0&->&_)%list_elem_of_fmap. unfold unwatched. case_match eqn:E; [done|]. intros Ha Hid. rewrite Ha, bool_decide_true in E by done. done.
Qed.
End Refs.

(** One breakpoint, active at one location. *)
Definition sample_breakpoint : Breakpoint unit :=
  mkBreakpoint InitialExec None 0 (Ret [(32, 0)]) true true false false.
Definition sample_breakpoints : Pool (Breakpoint unit) := mkPool [mkSlot 1 (Some sample_breakpoint)] [] 2.
Definition sample_id : Id := mkId 0 1.
Definition breakpoint_debugger : Debugger unit Sim :=
  sample_debugger sample_breakpoints [sample_location 32 [RefId sample_id 0; Step SBCall] true] free_slots [] (plain_memory []).

Lemma breakpoint_debugger_refs : ref_inv breakpoint_debugger.
Proof.
  split; [|split].
  - destruct (add_refines Pool.new sample_breakpoint (inv_new) ltac:(cbn; lia)) as (id&p'&Ha&_&_&_&Hp&_).
    vm_compute in Ha. injection Ha as _ <-. exact Hp.
  - intros l id lv ->%list_elem_of_singleton Hr. cbn in Hr.
    apply elem_of_cons in Hr as [[= -> _]|Hr]; [by exists sample_breakpoint|].
    apply elem_of_cons in Hr as [?|Hr]; [done|by apply elem_of_nil in Hr].
  - intros h id Hin. unfold breakpoint_debugger, free_slots in Hin. cbn in Hin.
    repeat (apply elem_of_cons in Hin as [->|Hin]; [done|]). by apply elem_of_nil in Hin.
Qed.

Lemma reference_integrity_witness :
  let d' := (set_breakpoint_enabled (fun o => (o, Ret [(16, 0)])) [] sample_id false breakpoint_debugger).2 in
  (set_breakpoint_enabled (fun o => (o, Ret [(16, 0)])) [] sample_id false breakpoint_debugger).1 = Ret true /\
  ref_inv d' /\ map refs (breakpoint_locations d') = [[Step SBCall]].
Proof.
  destruct (reference_integrity (fun o => (o, Ret [(16, 0)])) [] (fun _ => Ret tt) breakpoint_debugger
    InitialExec sample_id [sample_id] false None true breakpoint_debugger_refs) as (_&_&H&_).
  split; [reflexivity|]. split; [exact H|reflexivity].
Defined.

Lemma remove_breakpoint_complete_witness :
  let r := remove_breakpoint sample_id breakpoint_debugger in
  r.1 = Ret true /\ Pool.abs (breakpoints r.2) !! sample_id = None /\
  map refs (breakpoint_locations r.2) = [[Step SBCall]].
Proof.
  destruct (remove_breakpoint_complete breakpoint_debugger sample_id breakpoint_debugger_refs) as [(_&(p&conn&Hd&Hp&_)&_) _].
  split; [reflexivity|]. split; [|reflexivity]. transitivity (Pool.abs p !! sample_id); [|by rewrite Hp, lookup_delete_eq].
  exact (f_equal (fun d => Pool.abs (breakpoints d) !! sample_id) Hd).
Defined.
