(* ===== verification/BreakpointLists.v ===== *)
(** The sorted list of code locations: adding, finding and reconciling. *)
From Stdlib Require Import ZArith Lia Sorted.
From stdpp Require Import base list sorting sets.
From S2P Require Import Prelude Errors StateMonad Pool BreakpointData GdbProto GdbRemote Breakpoints BreakpointsSpec BreakpointRefs.
Open Scope Z_scope.

Definition addrs_of (ls : list BreakpointLocation) : list Z := addr <$> ls.
(** The invariant of [breakpoint_locations]: strictly increasing addresses. *)
Definition sorted_locations (ls : list BreakpointLocation) : Prop := StronglySorted Z.lt (addrs_of ls).

(** The location at an address, through the lookup of the code. *)
Definition location_at (ls : list BreakpointLocation) (a : Z) : option BreakpointLocation :=
  match find_breakpoint_location ls a with
  | Some i => zget ls i
  | None => None
  end.

Lemma sorted_split pre ls :
  sorted_locations (pre ++ ls) <->
  sorted_locations pre /\ sorted_locations ls /\
  forall l l', l ∈ pre -> l' ∈ ls -> addr l < addr l'.
Proof.
  unfold sorted_locations, addrs_of. rewrite fmap_app, StronglySorted_app. split.
  - intros (H&H1&H2). do 2 (split; [done|]). intros l l' Hl Hl'. apply H; by apply list_elem_of_fmap_2.
  - intros (H1&H2&H). split; [|done]. intros x y Hx Hy.
    apply list_elem_of_fmap in Hx as (l&->&?), Hy as (l'&->&?). by apply H.
Qed.

(** Everything before the insertion point is below [a], everything after is not. *)
Lemma insertion_point ls a :
  sorted_locations ls ->
  exists pre post, ls = pre ++ post /\ length pre = partition_point (fun l => addr l <? a) ls /\
    (forall l, l ∈ pre -> addr l < a) /\ (forall l, l ∈ post -> a <= addr l).
Proof.
  induction ls as [|l ls IH]; intros Hs; [by exists [], []; repeat split; set_solver|].
  pose proof (proj1 (sorted_split [l] ls) Hs) as (_&Hs'&Hlt). simpl.
  destruct (Z.ltb_spec (addr l) a) as [Hl|Hl].
  - destruct (IH Hs') as (pre&post&->&Hlen&Hpre&Hpost). exists (l :: pre), post.
    split; [done|]. split; [simpl; lia|]. split; [|done].
    intros x [->|?]%elem_of_cons; [done|by apply Hpre].
  - exists [], (l :: ls). do 2 (split; [done|]). split; [set_solver|].
    intros x [->|Hx]%elem_of_cons; [done|]. specialize (Hlt l x ltac:(set_solver) Hx). lia.
Qed.

Lemma zget_mid {A} (pre post : list A) : zget (pre ++ post) (Z.of_nat (length pre)) = head post.
Proof.
  rewrite zget_of_nat, lookup_app_r by lia. rewrite Nat.sub_diag. by destruct post.
Qed.

(** Lookup in a sorted list finds the location if there is one. *)
Lemma find_location_spec pre post a :
  length pre = partition_point (fun l => addr l <? a) (pre ++ post) ->
  find_breakpoint_location (pre ++ post) a =
  match post with
  | l :: _ => if addr l =? a then Some (Z.of_nat (length pre)) else None
  | [] => None
  end.
Proof. intros Hlen. unfold find_breakpoint_location. rewrite <- Hlen, zget_mid. by destruct post. Qed.

Lemma location_at_spec ls a l :
  sorted_locations ls -> location_at ls a = Some l <-> l ∈ ls /\ addr l = a.
Proof.
  intros Hs. destruct (insertion_point ls a Hs) as (pre&post&->&Hlen&Hpre&Hpost).
  unfold location_at. rewrite find_location_spec by done.
  apply sorted_split in Hs as (_&Hs&_). destruct post as [|l0 post].
  - split; [done|]. rewrite app_nil_r. intros [Hl <-]. specialize (Hpre _ Hl). lia.
  - apply (sorted_split [l0] post) in Hs as (_&_&Hlt).
    assert (Hpost' : forall x, x ∈ post -> a < addr x).
    { intros x Hx. specialize (Hlt l0 x ltac:(set_solver) Hx). specialize (Hpost l0 ltac:(set_solver)). lia. }
    destruct (Z.eqb_spec (addr l0) a) as [He|He].
    + rewrite zget_mid. cbn. split.
      * intros [= <-]. set_solver.
      * intros [Hl Ha]. set_unfold. destruct Hl as [Hl|[->|Hl]]; [|done|].
        -- specialize (Hpre _ Hl). lia.
        -- specialize (Hpost' _ Hl). lia.
    + split; [done|]. intros [Hl Ha]. set_unfold. destruct Hl as [Hl|[->|Hl]]; [|done|].
      * specialize (Hpre _ Hl). lia.
      * specialize (Hpost' _ Hl). lia.
Qed.

Lemma sorted_middle pre l post :
  sorted_locations (pre ++ post) ->
  (forall x, x ∈ pre -> addr x < addr l) -> (forall x, x ∈ post -> addr l < addr x) ->
  sorted_locations (pre ++ l :: post).
Proof.
  intros (Hpre&Hpost&Hlt)%sorted_split Hl Hr. apply sorted_split. split; [done|]. split.
  - apply (sorted_split [l] post). split; [by repeat constructor|]. split; [done|].
    intros x y ->%list_elem_of_singleton Hy. by apply Hr.
  - intros x y Hx [->|Hy]%elem_of_cons; [by apply Hl|by apply Hlt].
Qed.

Lemma option_ext_iff {A} (o o' : option A) : (forall x, o = Some x <-> o' = Some x) -> o = o'.
Proof.
  intros H. destruct o as [x|]; [symmetry; by apply H|].
  destruct o' as [y|]; [|done]. exfalso. by discriminate (proj2 (H y) eq_refl).
Qed.

(** Replacing or inserting the location of one address. *)
Lemma location_at_middle pre (old : list BreakpointLocation) l post x :
  sorted_locations (pre ++ old ++ post) -> sorted_locations (pre ++ l :: post) ->
  (forall y, y ∈ old -> addr y = addr l) ->
  location_at (pre ++ l :: post) x =
  if x =? addr l then Some l else location_at (pre ++ old ++ post) x.
Proof.
  intros Hs Hs' Hold. destruct (Z.eqb_spec x (addr l)) as [->|Hx].
  - apply location_at_spec; [done|]. set_solver.
  - apply option_ext_iff. intros y. rewrite !location_at_spec by done.
    set_unfold. naive_solver congruence.
Qed.

Lemma zset_mid {A} (pre post : list A) x y :
  zset (pre ++ x :: post) (Z.of_nat (length pre)) y = pre ++ y :: post.
Proof. rewrite zset_of_nat. rewrite insert_app_r_alt by lia. by rewrite Nat.sub_diag. Qed.

Section Locations.
  Context {Expression M : Type} `{Machine M}.
  Notation Dbg := (Debugger Expression M).

(** The byte remembered for a new location. *)
Definition byte_at_or_0 (m : M) (a : Z) : Z := match read_u8 m a with Ret x => x | _ => 0 end.

(** C26. Adding a reference to an address keeps the list of locations sorted and
    is an update of the map from addresses to locations: at [a] the reference is
    appended to those already there (a new location is inactive, software, and
    remembers the byte in memory), every other address is untouched. It always
    succeeds. *)
Theorem add_location_updates_map (d : Dbg) r a :
  sorted_locations (breakpoint_locations d) ->
  exists ls, add_breakpoint_location r a d = (Ret tt, set_locations ls d) /\
    sorted_locations ls /\
    forall x, location_at ls x =
      if x =? a then
        Some (match location_at (breakpoint_locations d) a with
              | Some l => loc_set_refs (refs l ++ [r]) l
              | None => mkLocation a (byte_at_or_0 (machine d) a) false false [r] None false
              end)
      else location_at (breakpoint_locations d) x.
Proof.
  intros Hs. destruct (insertion_point _ a Hs) as (pre&post&Hls&Hlen&Hpre&Hpost).
  rewrite Hls in Hs, Hlen.
  assert (Hfind := find_location_spec pre post a Hlen).
  unfold add_breakpoint_location. srun. rewrite Hls, <- Hlen, zget_mid.
  assert (Hnew : (forall x, x ∈ post -> a < addr x) ->
    location_at (pre ++ post) a = None ->
    let l := mkLocation a (byte_at_or_0 (machine d) a) false false [r] None false in
    exists ls, (@Ret Error unit tt, set_locations (vec_insert (pre ++ post) (length pre) l) d) =
      (Ret tt, set_locations ls d) /\ sorted_locations ls /\
    forall x, location_at ls x =
      if x =? a then Some (match location_at (pre ++ post) a with
              | Some l => loc_set_refs (refs l ++ [r]) l
              | None => l
              end)
      else location_at (pre ++ post) x).
  { intros Hpost' Hnone l. eexists. split; [reflexivity|]. unfold vec_insert.
    rewrite take_app_length, drop_app_length. rewrite Hnone.
    assert (Hs' : sorted_locations (pre ++ l :: post)) by by apply sorted_middle.
    split; [done|]. intros x. apply (location_at_middle pre [] l post x); [done..|set_solver]. }
  destruct post as [|l post]; simpl.
  - srun. apply Hnew; [set_solver|]. unfold location_at. by rewrite Hfind.
  - pose proof (proj1 (sorted_split _ _) Hs) as (_&Hs2&_).
    apply (sorted_split [l] post) in Hs2 as (_&_&Hlt).
    destruct (Z.eqb_spec (addr l) a) as [<-|Hne].
    + unfold upd_loc. srun. rewrite Hls, zget_mid. simpl. srun. rewrite zset_mid.
      eexists. split; [reflexivity|].
      assert (Hs' : sorted_locations (pre ++ loc_set_refs (refs l ++ [r]) l :: post)).
      { unfold sorted_locations, addrs_of in *. by rewrite fmap_app, fmap_cons in *. }
      split; [done|]. intros x.
      assert (location_at (pre ++ l :: post) (addr l) = Some l) as ->.
      { apply location_at_spec; [done|]. set_solver. }
      apply (location_at_middle pre [l] (loc_set_refs (refs l ++ [r]) l) post x Hs Hs').
      by intros y ->%list_elem_of_singleton.
    + assert (Ha : a < addr l) by (pose proof (Hpost l ltac:(set_solver)); lia).
      srun. apply Hnew.
      * intros x [->|Hx]%elem_of_cons; [done|]. specialize (Hlt l x ltac:(set_solver) Hx). lia.
      * unfold location_at. rewrite Hfind. by destruct (Z.eqb_spec (addr l) a).
Qed.
End Locations.

Lemma add_location_updates_map_witness :
  let d := sample_debugger Pool.new [sample_location 16 [Step SBCall] false; sample_location 32 [Step SBCall] false]
             free_slots [] (plain_memory []) in
  let r := RefId (mkId 0 1) 0 in
  addrs_of (breakpoint_locations (add_breakpoint_location r 24 d).2) = [16; 24; 32] /\
  exists ls, add_breakpoint_location r 24 d = (Ret tt, set_locations ls d) /\ sorted_locations ls.
Proof.
  intros d r. split; [vm_compute; reflexivity|].
  destruct (add_location_updates_map d r 24) as (ls&H1&H2&_); [|by exists ls].
  unfold sorted_locations. cbn. repeat constructor; lia.
Defined.
