(* ===== verification/BreakpointReconcile.v ===== *)
(** What handle_breakpoints leaves behind: every location that is still referred
    to, in order, active or with the error that explains why not. *)
From Stdlib Require Import ZArith Lia Sorted.
From stdpp Require Import base list sorting sets.
From S2P Require Import Prelude Errors StateMonad Pool BreakpointData GdbProto GdbRemote Breakpoints BreakpointsSpec BreakpointRefs BreakpointLists.
Open Scope Z_scope.

Section Reconcile.
  Context {Expression M : Type} `{Machine M}.
  Notation Dbg := (Debugger Expression M).
  Notation D := (stm Dbg Error).
  Notation locs := (breakpoint_locations (Expression:=Expression) (M:=M)).
  Implicit Types d : Dbg.

(** ** Computations that touch neither the locations nor the threads *)

(** What only the surrounding code changes. *)
Definition env d : list (Z * Thread) * bool := (threads d, is_remote d).
Definition same d d' : Prop := locs d' = locs d /\ env d' = env d.
Definition quiet {A} (m : D A) : Prop := forall d, same d (m d).2.

Lemma same_refl d : same d d.
Proof. done. Qed.
Lemma same_trans d1 d2 d3 : same d1 d2 -> same d2 d3 -> same d1 d3.
Proof. unfold same. intuition congruence. Qed.

Lemma zget_bound {A} (l : list A) i x : zget l i = Some x -> 0 <= i < zlen l.
Proof. intros Hi. apply zget_range. by exists x. Qed.

Lemma quiet_ret {A} (a : A) : quiet (mret a).
Proof. done. Qed.
Lemma quiet_bind {A B} (m : D A) (f : A -> D B) : quiet m -> (forall a, quiet (f a)) -> quiet (m ≫= f).
Proof.
  intros Hm Hf d. rewrite stm_bind_run. specialize (Hm d). destruct (m d) as [[a| |] d1]; simpl in *; [|done..].
  eapply same_trans; [exact Hm|apply Hf].
Qed.
Lemma quiet_get {A} (f : Dbg -> A) : quiet (sget f).
Proof. done. Qed.
Lemma quiet_lift {A} (o : outcome Error A) : quiet (slift o).
Proof. done. Qed.
Lemma quiet_opt {A} (o : option A) : quiet (sopt o).
Proof. done. Qed.
Lemma quiet_assert b : quiet (sassert b).
Proof. done. Qed.
Lemma quiet_fail {A} e : quiet (sfail e : D A).
Proof. done. Qed.
Lemma quiet_when b (m : D unit) : quiet m -> quiet (swhen b m).
Proof. by destruct b. Qed.
Lemma quiet_try {A} (m : D A) : quiet m -> quiet (stry m).
Proof. intros Hm d. rewrite stry_run. specialize (Hm d). by destruct (m d) as [[] ?]. Qed.
Lemma quiet_modify f : (forall d, same d (f d)) -> quiet (smodify f).
Proof. intros Hf d. apply Hf. Qed.
Lemma quiet_for {A} (l : list A) (f : A -> D unit) : (forall x, quiet (f x)) -> quiet (sfor l f).
Proof. intros Hf. induction l as [|x l IH]; [done|]. cbn [sfor]. apply quiet_bind; [apply Hf|done]. Qed.
Lemma quiet_fold {A B} (l : list A) (b : B) (f : B -> A -> D B) :
  (forall b x, quiet (f b x)) -> quiet (sfold l b f).
Proof.
  intros Hf. revert b. induction l as [|x l IH]; intros b; [done|].
  cbn [sfold]. apply quiet_bind; [apply Hf|done].
Qed.
Lemma quiet_remote {A} (m : GdbRemote.M A) : quiet (on_remote m).
Proof. intros d. unfold on_remote. destruct (remote d) as [c|]; [|done]. by destruct (m c) as [[] ?]. Qed.
Lemma quiet_read a : quiet (read_word a).
Proof. done. Qed.
Lemma quiet_poke t a w : quiet (poke_word t a w).
Proof. intros d. unfold poke_word. by destruct (poke_text _ _ _ _) as [[] ?]. Qed.
Lemma quiet_poke_dr t i v : quiet (poke_dr t i v).
Proof. intros d. unfold poke_dr. by destruct (poke_debugreg _ _ _ _) as [[] ?]. Qed.
Lemma quiet_put_hw i h : quiet (put_hw i h).
Proof. intros d. unfold put_hw. srun. by destruct (zget _ _). Qed.
Lemma quiet_claim l : quiet (claim_hw_slot l).
Proof.
  unfold claim_hw_slot. apply quiet_bind; [done|]. intros hs. destruct (position_inactive hs 0); [|done].
  apply quiet_bind; [done|]. intros s. apply quiet_put_hw.
Qed.
Lemma quiet_release a : quiet (release_hw_slots a).
Proof. done. Qed.
Lemma quiet_ignore m : quiet m -> quiet (ignore_esrch m).
Proof.
  intros Hm. unfold ignore_esrch. apply quiet_bind; [by apply quiet_try|].
  intros [?|e]; [done|]. by destruct (is_io_esrch e).
Qed.

(** Running a quiet computation first. *)
Lemma ends_quiet {A B} Q F (m : D A) (f : A -> D B) d :
  quiet m -> (forall d', same d d' -> F d') ->
  (forall a d', same d d' -> m d = (Ret a, d') -> ends Q F (f a d')) -> ends Q F ((m ≫= f) d).
Proof.
  intros Hm HF Hf. rewrite stm_bind_run. specialize (Hm d).
  destruct (m d) as [[a| |] d1]; simpl in *; [by apply Hf|by apply HF|done].
Qed.

Lemma zset_id {A} (l : list A) i x : zget l i = Some x -> zset l i x = l.
Proof.
  intros [? Hi]%zget_Some. rewrite zset_insert by done. by apply list_insert_id.
Qed.


(** ** Computations that change one location *)

Definition changes (idx : Z) (R : BreakpointLocation -> BreakpointLocation -> Prop) d d' : Prop :=
  exists l l', zget (locs d) idx = Some l /\ R l l' /\
    locs d' = zset (locs d) idx l' /\ env d' = env d.

Lemma changes_same idx R d d' l : same d d' -> zget (locs d) idx = Some l -> R l l -> changes idx R d d'.
Proof. intros [Hl Ht] Hg HR. exists l, l. by rewrite zset_id, Hl, Ht. Qed.

Lemma changes_trans idx (R1 R2 R : BreakpointLocation -> BreakpointLocation -> Prop) d d1 d2 :
  changes idx R1 d d1 -> changes idx R2 d1 d2 -> (forall x y z, R1 x y -> R2 y z -> R x z) ->
  changes idx R d d2.
Proof.
  intros (l&l1&Hg&HR&Hl&Ht) (l'&l2&Hg'&HR'&Hl'&Ht') HRR.
  rewrite Hl in Hg', Hl'. erewrite zget_zset_eq in Hg' by done. injection Hg' as <-.
  exists l, l2. rewrite Hl', zset_zset, Ht'. eauto.
Qed.

Lemma changes_after_same idx R d d1 d2 : same d d1 -> changes idx R d1 d2 -> changes idx R d d2.
Proof.
  intros [Hl Ht] (l&l'&Hg&HR&Hl'&Ht'). exists l, l'. rewrite <- Hl, Ht', Ht. done.
Qed.

(** [m], started in a state like [d]. *)
Definition from {A} d (Q : A -> Dbg -> Prop) (F : Dbg -> Prop) (m : D A) : Prop :=
  forall d', same d d' -> ends Q F (m d').

Lemma from_start {A} d (Q : A -> Dbg -> Prop) F (m : D A) : from d Q F m -> ends Q F (m d).
Proof. intros Hm. by apply Hm. Qed.

Lemma from_quiet {A B} d Q (F : Dbg -> Prop) (m : D A) (f : A -> D B) :
  quiet m -> (forall d', same d d' -> F d') -> (forall a, from d Q F (f a)) -> from d Q F (m ≫= f).
Proof.
  intros Hm HF Hf d' Hd. rewrite stm_bind_run. specialize (Hm d').
  destruct (m d') as [[a| |] d1]; simpl in *; [|by apply HF; eapply same_trans|done].
  apply Hf. by eapply same_trans.
Qed.

Lemma from_get_loc {B} d Q (F : Dbg -> Prop) idx (f : BreakpointLocation -> D B) :
  (forall l, zget (locs d) idx = Some l -> from d Q F (f l)) -> from d Q F (get_loc idx ≫= f).
Proof.
  intros Hf d' Hd. unfold get_loc. srun. destruct (zget (locs d') idx) eqn:E; [|done]. srun.
  apply Hf; [|done]. by rewrite <- (proj1 Hd).
Qed.

Lemma from_ret {A} d (Q : A -> Dbg -> Prop) F a : (forall d', same d d' -> Q a d') -> from d Q F (mret a).
Proof. intros HQ d' Hd. by apply HQ. Qed.

Lemma from_update d F idx f :
  from d (fun _ => changes idx (fun l l' => l' = f l) d) F (upd_loc idx f).
Proof.
  intros d' [Hl Ht]. unfold upd_loc. srun. destruct (zget (locs d') idx) as [l|] eqn:E; [|done]. srun.
  exists l, (f l). cbn. rewrite <- Hl. auto.
Qed.

Create HintDb quiet.
Hint Resolve quiet_ret quiet_get quiet_lift quiet_opt quiet_assert quiet_fail quiet_when quiet_try quiet_remote
  quiet_read quiet_poke quiet_poke_dr quiet_put_hw quiet_claim quiet_release quiet_ignore quiet_bind
  quiet_for quiet_fold : quiet.
Ltac quietly := apply from_quiet; [solve [eauto with quiet]|done|intros ?].

Lemma deactivate_ends idx t d :
  ends (fun _ => changes idx (fun l l' => l' = loc_set_active false l) d) (same d)
    (deactivate_breakpoint_location idx t d).
Proof.
  apply from_start. unfold deactivate_breakpoint_location. apply from_get_loc. intros l Hl.
  destruct (loc_active l) eqn:Hact; cbn [negb].
  2:{ apply from_ret. intros d' Hd. apply (changes_same _ _ _ _ l); [done..|].
      destruct l; cbn in *. by rewrite Hact. }
  quietly. destruct a.
  - do 5 quietly. apply from_update.
  - apply from_quiet; [|done|intros _; apply from_update].
    destruct (hardware l); eauto with quiet.
Qed.

(** A location may only gain a trap instruction's original byte. *)
Definition same_site (l l' : BreakpointLocation) : Prop :=
  addr l' = addr l /\ hardware l' = hardware l /\ refs l' = refs l /\ no_retry l' = no_retry l /\ error l' = error l.

Lemma activate_ends idx t d :
  ends (fun _ => changes idx (fun l l' => same_site l l' /\ loc_active l' = true) d)
    (fun d' => same d d' \/ changes idx same_site d d')
    (activate_breakpoint_location idx t d).
Proof.
  apply from_start. unfold activate_breakpoint_location. apply from_get_loc. intros l Hl.
  destruct (loc_active l) eqn:Hact.
  { apply from_ret. intros d' Hd. by apply (changes_same _ _ _ _ l). }
  assert (Hend : from d (fun _ => changes idx (fun l l' => same_site l l' /\ loc_active l' = true) d)
    (fun d' => same d d' \/ changes idx same_site d d') (upd_loc idx (loc_set_active true))).
  { intros d' Hd. eapply ends_weaken; [| |apply (from_update d (fun _ => False)); done]; [|done].
    intros _ d2 (l1&l2&?&->&?). by exists l1, (loc_set_active true l1). }
  apply from_quiet; [auto with quiet|by left|]. intros r. destruct r.
  - apply from_quiet; [auto with quiet|by left|]. intros arch.
    apply from_quiet; [auto with quiet|by left|]. intros [?|?].
    + apply from_quiet; [auto with quiet|by left|]. intros _. apply Hend.
    + intros d' Hd. by left.
  - destruct (hardware l) eqn:Hhw.
    + apply from_quiet; [eauto with quiet|by left|]. intros _. apply Hend.
    + intros d0 Hd0. eapply (ends_bind (fun _ d' => changes idx same_site d d')).
      * revert d0 Hd0. apply from_quiet; [auto with quiet|by left|]. intros w d1 Hd1.
        apply (ends_bind (fun _ d' => changes idx same_site d d')).
        -- eapply ends_weaken; [| |apply (from_update d (fun _ => False)); done]; [|done].
           intros _ d2 (l1&l2&?&->&?). by exists l1, (loc_set_original_byte (get_byte w (addr l mod 8 * 8)) l1).
        -- intros _ d2 Hd2. pose proof (quiet_poke t (addr l - addr l mod 8)
             (set_byte w (addr l mod 8 * 8) INT3) d2) as [Hl3 Ht3].
           assert (Hc : changes idx same_site d (poke_word t (addr l - addr l mod 8)
             (set_byte w (addr l mod 8 * 8) INT3) d2).2).
           { destruct Hd2 as (l1&l2&?&?&?&?). exists l1, l2. rewrite Hl3, Ht3. done. }
           destruct (poke_word t _ _ d2) as [[] d3]; simpl in *; auto.
      * intros _ d2 (l1&l2&Hg&HR&Hl2&Ht2). unfold upd_loc. srun. rewrite Hl2.
        erewrite zget_zset_eq by done. srun. exists l1, (loc_set_active true l2). cbn.
        rewrite zset_zset. auto.
Qed.

(** ** Loops over the locations *)

Definition changes_locs (idx : Z) (R : BreakpointLocation -> BreakpointLocation -> Prop) d d' : Prop :=
  exists l l', zget (locs d) idx = Some l /\ R l l' /\ locs d' = zset (locs d) idx l'.
Lemma changes_weaken idx (R R' : BreakpointLocation -> BreakpointLocation -> Prop) d d' :
  (forall l l', R l l' -> R' l l') -> changes idx R d d' -> changes_locs idx R' d d'.
Proof. intros HR (l&l'&?&?&?&?). exists l, l'. auto. Qed.

Definition each (R : BreakpointLocation -> BreakpointLocation -> Prop) (ls ls' : list BreakpointLocation) : Prop :=
  zlen ls' = zlen ls /\
  forall i l', zget ls' i = Some l' -> exists l, zget ls i = Some l /\ R l l'.

Lemma for_each R (f : Z -> D unit) d :
  (forall idx d1, ends (fun _ => changes_locs idx R d1) (fun _ => True) (f idx d1)) ->
  ends (fun _ d' => each R (locs d) (locs d')) (fun _ => True) (sfor (seqZ 0 (zlen (locs d))) f d).
Proof.
  intros Hf.
  set (W := fun k d' => zlen (locs d') = zlen (locs d) /\
    forall i l', zget (locs d') i = Some l' ->
      exists l, zget (locs d) i = Some l /\ if i <? k then R l l' else l' = l).
  eapply (ends_weaken (fun _ => W (0 + zlen (locs d)))); [|done|apply sfor_seqZ].
  - intros _ d' (Hlen&Hi). split; [done|]. intros i l' Hl'. destruct (Hi i l' Hl') as (l&Hl&HR).
    exists l. split; [done|]. apply zget_bound in Hl.
    by rewrite (proj2 (Z.ltb_lt _ _)) in HR by lia.
  - apply zlen_nonneg.
  - split; [done|]. intros i l' Hl'. exists l'. split; [done|].
    apply zget_bound in Hl'. by rewrite (proj2 (Z.ltb_ge _ _)) by lia.
  - intros i d1 Hi (Hlen&Hd1). eapply ends_weaken; [|done|apply Hf].
    intros _ d2 (l&l'&Hl&HR&Hl2). split; [by rewrite Hl2, zlen_zset|].
    intros j x Hx. rewrite Hl2 in Hx. destruct (decide (i = j)) as [<-|Hne].
    + erewrite zget_zset_eq in Hx by done. injection Hx as <-.
      destruct (Hd1 _ _ Hl) as (l0&Hl0&Heq). exists l0. split; [done|].
      rewrite (proj2 (Z.ltb_lt _ _)) by lia. rewrite (proj2 (Z.ltb_ge _ _)) in Heq by lia. by subst.
    + rewrite zget_zset_ne in Hx by done. destruct (Hd1 _ _ Hx) as (l0&Hl0&Heq). exists l0.
      split; [done|]. destruct (Z.ltb_spec j i), (Z.ltb_spec j (i + 1)); lia || done.
Qed.

(** Anything may happen to a location's state, nothing to what it stands for. *)
Definition same_key (l l' : BreakpointLocation) : Prop := addr l' = addr l /\ refs l' = refs l.

Lemma each_addrs ls ls' : each (fun l l' => addr l' = addr l) ls ls' -> addrs_of ls' = addrs_of ls.
Proof.
  intros [Hlen Hi]. apply list_eq. intros k. unfold addrs_of. rewrite !list_lookup_fmap.
  destruct (ls' !! k) as [l'|] eqn:E.
  - rewrite <- zget_of_nat in E. destruct (Hi _ _ E) as (l&Hl&Ha). rewrite zget_of_nat in Hl.
    rewrite Hl. cbn. by rewrite Ha.
  - rewrite (proj2 (lookup_ge_None _ _)); [done|]. apply lookup_ge_None in E. unfold zlen in Hlen. lia.
Qed.

Lemma each_weaken (R R' : BreakpointLocation -> BreakpointLocation -> Prop) ls ls' :
  (forall l l', R l l' -> R' l l') -> each R ls ls' -> each R' ls ls'.
Proof. intros HR [Hlen Hi]. split; [done|]. intros i l' Hl'. destruct (Hi i l' Hl') as (l&?&?). eauto. Qed.

Lemma each_trans (R1 R2 R : BreakpointLocation -> BreakpointLocation -> Prop) ls ls1 ls2 :
  (forall x y z, R1 x y -> R2 y z -> R x z) -> each R1 ls ls1 -> each R2 ls1 ls2 -> each R ls ls2.
Proof.
  intros HR [Hlen1 H1] [Hlen2 H2]. split; [congruence|]. intros i z Hz.
  destruct (H2 _ _ Hz) as (y&Hy&?). destruct (H1 _ _ Hy) as (x&?&?). eauto.
Qed.

(** Activation: every location ends up active or with an error. *)
Definition tried (l l' : BreakpointLocation) : Prop :=
  same_key l l' /\ hardware l' = hardware l /\ no_retry l' = no_retry l /\
  (l' = l /\ no_retry l = true \/ loc_active l' = true \/ error l' <> None).

Lemma update_after idx f d d1 (R1 R : BreakpointLocation -> BreakpointLocation -> Prop) F :
  changes idx R1 d d1 -> (forall l l1, R1 l l1 -> R l (f l1)) ->
  ends (fun _ => changes_locs idx R d) F (upd_loc idx f d1).
Proof.
  intros (l&l1&Hg&HR1&Hl1&Ht1) HR. unfold upd_loc. srun.
  rewrite Hl1. erewrite zget_zset_eq by done. srun. exists l, (f l1). cbn. rewrite zset_zset. auto.
Qed.

Lemma update_after_same idx f d d1 (R : BreakpointLocation -> BreakpointLocation -> Prop) F :
  same d d1 -> (forall l, R l (f l)) -> ends (fun _ => changes_locs idx R d) F (upd_loc idx f d1).
Proof.
  intros [Hl1 Ht1] HR. unfold upd_loc. srun.
  rewrite Hl1. destruct (zget (locs d) idx) as [l|] eqn:E; [|done]. srun. exists l, (f l). auto.
Qed.

Lemma try_activate_ends idx d :
  ends (fun _ => changes_locs idx tried d) (fun _ => True) (try_activate idx d).
Proof.
  unfold try_activate, get_loc. srun. destruct (zget (locs d) idx) as [l|] eqn:El; [|done]. srun.
  destruct (no_retry l) eqn:Hr.
  { exists l, l. rewrite zset_id by done. unfold tried, same_key. auto 10. }
  srun. pose proof (activate_ends idx (any_live_tid d) d) as Ha.
  destruct (activate_breakpoint_location idx _ d) as [[?|e|] d1]; simpl in Ha; srun; [..|done].
  - eapply update_after; [exact Ha|]. intros l0 l1 [(Ha1&Ha2&Ha3&Ha4&Ha5) Hact].
    unfold tried, same_key. cbn. auto 10.
  - destruct Ha as [Ha|Ha].
    + eapply update_after_same; [done|]. intros l0. unfold tried, same_key. cbn. auto 10.
    + eapply update_after; [exact Ha|]. intros l0 l1 (Ha1&Ha2&Ha3&Ha4&Ha5).
      unfold tried, same_key. cbn. auto 10.
Qed.

Lemma activate_all_ends d :
  ends (fun _ d' => each tried (locs d) (locs d')) (fun _ => True) (activate_all_locations d).
Proof. unfold activate_all_locations. srun. apply for_each. intros. apply try_activate_ends. Qed.

(** Conversion: a location is hardware exactly when a thread stands there. *)
Definition converted (addresses : Z -> option (list Z)) (l l' : BreakpointLocation) : Prop :=
  same_key l l' /\ error l' = error l /\ no_retry l' = no_retry l /\
  hardware l' = match addresses (addr l) with Some _ => true | None => false end.

Lemma upd_threads_locs (tids : list Z) f d :
  ends (fun _ d' => locs d' = locs d) (fun _ => True) (sfor tids (fun t => upd_thread t f) d).
Proof.
  revert d. induction tids as [|t tids IH]; intros d; [done|]. cbn [sfor].
  apply (ends_bind (fun _ d' => locs d' = locs d)); [done|].
  intros _ d1 Hd1. eapply ends_weaken; [|done|apply IH]. intros [] d2 Hd2. by rewrite Hd2.
Qed.

Lemma convert_ends addresses idx d :
  ends (fun _ => changes_locs idx (converted addresses) d) (fun _ => True) (convert_location addresses idx d).
Proof.
  unfold convert_location, get_loc. srun. destruct (zget (locs d) idx) as [l|] eqn:El; [|done]. srun.
  destruct (addresses (addr l)) as [tids|] eqn:Ea, (hardware l) eqn:Eh.
  - exists l, l. rewrite zset_id by done. unfold converted, same_key. cbn. rewrite Ea. auto 10.
  - eapply ends_bind; [eapply ends_weaken; [intros ? ? Hx; exact Hx| |apply deactivate_ends]; done|]. intros [] d1 Hd1.
    destruct Hd1 as (l0&l1&Hg&->&Hl1&_). rewrite El in Hg. injection Hg as <-.
    unfold upd_loc. srun. rewrite Hl1. erewrite zget_zset_eq by done. srun.
    eapply ends_weaken; [|done|apply upd_threads_locs]. intros [] d2 Hd2.
    exists l, (loc_set_hardware true (loc_set_active false l)). rewrite Hd2. cbn. rewrite zset_zset.
    unfold converted, same_key. cbn. rewrite Ea. auto 10.
  - eapply ends_bind; [eapply ends_weaken; [intros ? ? Hx; exact Hx| |apply deactivate_ends]; done|]. intros [] d1 Hd1.
    destruct Hd1 as (l0&l1&Hg&->&Hl1&_). rewrite El in Hg. injection Hg as <-.
    unfold upd_loc. srun. rewrite Hl1. erewrite zget_zset_eq by done. srun.
    exists l, (loc_set_hardware false (loc_set_active false l)). cbn. rewrite zset_zset.
    unfold converted, same_key. cbn. rewrite Ea. auto 10.
  - exists l, l. rewrite zset_id by done. unfold converted, same_key. cbn. rewrite Ea. auto 10.
Qed.

(** ** Compaction *)

Definition nonempty (l : BreakpointLocation) : Prop := refs l <> [].
#[local] Instance nonempty_dec l : Decision (nonempty l).
Proof. unfold nonempty. apply _. Defined.
Definition key_of (l : BreakpointLocation) : Z * list BreakpointRef := (addr l, refs l).
(** A location that must not be retried says why. *)
Definition explained (l : BreakpointLocation) : Prop := no_retry l = true -> error l <> None.

Definition compacting d (k res : Z) d' : Prop :=
  zlen (locs d') = zlen (locs d) /\ env d' = env d /\ 0 <= res <= k /\
  key_of <$> take (Z.to_nat res) (locs d') = key_of <$> filter nonempty (take (Z.to_nat k) (locs d)) /\
  (forall j, k <= j -> zget (locs d') j = zget (locs d) j) /\
  Forall explained (locs d').

Lemma take_succ {A} (l : list A) k x :
  zget l k = Some x -> take (Z.to_nat (k + 1)) l = take (Z.to_nat k) l ++ [x].
Proof.
  intros [Hk Hx]%zget_Some. replace (Z.to_nat (k + 1)) with (S (Z.to_nat k)) by lia. by apply take_S_r.
Qed.

Lemma Forall_zset {A} (P : A -> Prop) l i x : Forall P l -> P x -> Forall P (zset l i x).
Proof. intros Hl Hx. unfold zset. case_match; [|done]. by apply Forall_insert. Qed.
Lemma Forall_zget {A} (P : A -> Prop) l i x : Forall P l -> zget l i = Some x -> P x.
Proof. intros Hl [_ Hx]%zget_Some. by eapply Forall_lookup_1. Qed.

Lemma compact_step_ends d k res d1 :
  compacting d k res d1 -> 0 <= k ->
  ends (fun res' => compacting d (k + 1) res') (fun _ => True) (compact_step res k d1).
Proof.
  intros (Hlen&Ht&Hres&Hkeys&Hdrop&Hex) Hk. unfold compact_step, get_loc. srun.
  destruct (zget (locs d1) k) as [l|] eqn:El; [|done]. srun.
  pose proof El as El0. rewrite Hdrop in El0 by lia.
  destruct (refs l) as [|r rs] eqn:Er.
  - srun. eapply (ends_bind (fun _ d2 => changes k (fun l l' => l' = loc_set_active false l) d1 d2)).
    { eapply ends_weaken; [intros ? ? Hx; exact Hx| |apply deactivate_ends]; done. }
    intros [] d2 (l0&l1&Hg&->&Hl2&Ht2). rewrite El in Hg. injection Hg as <-.
    srun. cbn. unfold compacting. rewrite Hl2, zlen_zset, Ht2.
    do 2 (split; [congruence|]). split; [lia|]. repeat split.
    + rewrite (take_succ _ _ _ El0), filter_app, filter_cons_False, filter_nil, app_nil_r by (intros Hn; by apply Hn).
      rewrite <- Hkeys. rewrite zset_insert by done. rewrite take_insert_ge by lia. done.
    + intros j Hj. rewrite zget_zset_ne by lia. apply Hdrop. lia.
    + apply Forall_zset; [done|]. by apply (Forall_zget _ _ _ _ Hex El).
  - unfold swap_locs. srun. rewrite El. destruct (zget (locs d1) res) as [a|] eqn:Ea; [|done]. srun.
    cbn. unfold compacting. cbn. rewrite !zlen_zset.
    split; [done|]. split; [exact Ht|]. split; [lia|]. repeat split.
    + rewrite (take_succ _ _ _ El0), filter_app, filter_cons_True, filter_nil by (unfold nonempty; by rewrite Er).
      assert (Hat : zget (zset (zset (locs d1) res l) k a) res = Some l).
      { destruct (decide (k = res)) as [->|Hne].
        - rewrite El in Ea. injection Ea as <-. erewrite zget_zset_eq; [done|]. by erewrite zget_zset_eq.
        - rewrite zget_zset_ne by done. by erewrite zget_zset_eq. }
      rewrite (take_succ _ _ _ Hat), !fmap_app, <- Hkeys. f_equal.
      rewrite !zset_insert by lia. rewrite !take_insert_ge by lia. done.
    + intros j Hj. rewrite !zget_zset_ne by lia. apply Hdrop. lia.
    + apply Forall_zset; [apply Forall_zset; [done|]|]; by eapply Forall_zget.
Qed.

Lemma compact_ends d :
  Forall explained (locs d) ->
  ends (fun _ d' => key_of <$> locs d' = key_of <$> filter nonempty (locs d) /\ env d' = env d /\
      Forall explained (locs d')) (fun _ => True) (compact_locations d).
Proof.
  intros Hex. unfold compact_locations. srun.
  apply (ends_bind (fun res => compacting d (0 + zlen (locs d)) res)).
  - apply sfold_seqZ; [apply zlen_nonneg| |].
    + unfold compacting. repeat split; try done; lia.
    + intros i b d1 Hi Hd1. apply compact_step_ends; [done|lia].
  - intros res d1 (Hlen&Ht&Hres&Hkeys&_&Hex1). srun. cbn. split; [|split; [done|]].
    + rewrite Hkeys. f_equal. f_equal. apply take_ge. unfold zlen. lia.
    + by apply Forall_take.
Qed.

(** ** Pushing the debug registers *)

(** What the earlier stages established about a location and what the last one
    keeps: the kernel may still refuse a slot, which the error then says. *)
Definition settled (l l' : BreakpointLocation) : Prop :=
  addr l' = addr l /\ hardware l' = hardware l /\ (loc_active l' = true \/ error l' <> None).
Definition still_settled (ls0 : list BreakpointLocation) d : Prop := each settled ls0 (locs d).

Lemma quiet_keeps ls0 {A} (m : D A) : quiet m -> keeps (still_settled ls0) m.
Proof.
  intros Hm d Hd. specialize (Hm d). destruct (m d) as [[] d1]; simpl in *; try done;
    unfold still_settled; by rewrite (proj1 Hm).
Qed.

Lemma quiet_get_hw i : quiet (get_hw i).
Proof. intros d. unfold get_hw. srun. by destruct (zget (hardware_breakpoints d) i). Qed.
Lemma quiet_upd_bp id f : quiet (upd_bp id f).
Proof. intros d. unfold upd_bp. srun. by destruct (Pool.get_mut (breakpoints d) id f). Qed.
Hint Resolve quiet_get_hw quiet_upd_bp : quiet.

Lemma quiet_release_data id : quiet (release_data_slots id).
Proof.
  unfold release_data_slots. apply quiet_bind; [done|]. intros hs. apply quiet_for. intros i.
  apply quiet_bind; [auto with quiet|]. intros h. case_match; [|done].
  do 2 (apply quiet_bind; [done|]; intros ?). apply quiet_bind; [|auto with quiet].
  case_match; [|done]. apply quiet_bind; auto with quiet.
Qed.

Lemma map_locs_settled ls0 (f : BreakpointLocation -> BreakpointLocation) d :
  (forall l l', settled l l' -> settled l (f l')) ->
  still_settled ls0 d -> still_settled ls0 (set_locations (map f (locs d)) d).
Proof.
  intros Hf [Hlen Hi]. split; cbn.
  - rewrite <- Hlen. unfold zlen. by rewrite length_map.
  - intros i l' Hl'. rewrite Pool.zget_fmap in Hl'. destruct (zget (locs d) i) as [l1|] eqn:E; [|done].
    injection Hl' as <-. destruct (Hi i l1 E) as (l&Hl&HR). exists l. auto.
Qed.

Lemma deactivate_breakpoint_settled ls0 id : keeps (still_settled ls0) (deactivate_breakpoint id).
Proof.
  unfold deactivate_breakpoint. apply keeps_bind.
  { apply quiet_keeps. intros d. unfold get_bp. srun. by destruct (Pool.get (breakpoints d) id). }
  intros b. apply keeps_bind; [apply quiet_keeps; auto with quiet|]. intros _.
  apply keeps_if; [apply keeps_ret|]. apply keeps_bind; [|intros _; apply quiet_keeps, quiet_release_data].
  apply keeps_modify. intros d. apply map_locs_settled. done.
Qed.

Lemma changes_settled ls0 idx (R : BreakpointLocation -> BreakpointLocation -> Prop) d d' :
  (forall l l1 l2, settled l l1 -> R l1 l2 -> settled l l2) ->
  changes_locs idx R d d' -> still_settled ls0 d -> still_settled ls0 d'.
Proof.
  intros HR (l1&l2&Hg&HRl&Hl) [Hlen Hi]. unfold still_settled. rewrite Hl. split; [by rewrite zlen_zset|].
  intros i l' Hl'. destruct (decide (idx = i)) as [<-|Hne].
  - erewrite zget_zset_eq in Hl' by done. injection Hl' as <-.
    destruct (Hi _ _ Hg) as (l&?&?). exists l. eauto.
  - rewrite zget_zset_ne in Hl' by done. eauto.
Qed.

Lemma reject_slot_settled ls0 i tid e : keeps (still_settled ls0) (reject_slot i tid e).
Proof.
  unfold reject_slot. apply keeps_bind; [apply quiet_keeps; auto with quiet|]. intros h.
  apply keeps_bind.
  2:{ intros _. apply keeps_bind; [apply quiet_keeps; auto with quiet|]. intros h'. apply keeps_assert. }
  destruct (data_breakpoint_id h) as [id|].
  - apply keeps_bind; [apply deactivate_breakpoint_settled|]. intros _. apply quiet_keeps. auto with quiet.
  - apply keeps_bind; [apply keeps_get|]. intros ls. apply keeps_bind; [apply keeps_opt|]. intros idx.
    intros d Hd. unfold get_loc. srun. destruct (zget (locs d) idx) as [l|] eqn:El; [|done]. srun.
    destruct (hardware l) eqn:Hh; [|done]. srun.
    pose proof (deactivate_ends idx tid d) as Ha.
    destruct (deactivate_breakpoint_location idx tid d) as [[[]|e'|] d1]; simpl in Ha; srun; try done.
    assert (Hu := update_after idx (fun l => loc_set_no_retry true (loc_set_error (Some e) l)) d d1
      (fun l l' => l' = loc_set_active false l)
      (fun l l' => addr l' = addr l /\ hardware l' = hardware l /\ error l' <> None) (still_settled ls0) Ha).
    assert (Hr : forall l l1, l1 = loc_set_active false l ->
      addr (loc_set_no_retry true (loc_set_error (Some e) l1)) = addr l /\
      hardware (loc_set_no_retry true (loc_set_error (Some e) l1)) = hardware l /\
      error (loc_set_no_retry true (loc_set_error (Some e) l1)) <> None) by (by intros ? ? ->).
    specialize (Hu Hr). clear Hr. unfold after. destruct (upd_loc idx _ d1) as [[] d2]; simpl in Hu; [|done..].
    eapply changes_settled; [|exact Hu|exact Hd].
    intros x y z (Ha1&Ha2&_) (Hb1&Hb2&Hb3). unfold settled. rewrite Hb1, Hb2. auto.
Qed.

Lemma quiet_debug_values i tid : quiet (debug_values i tid).
Proof. unfold debug_values. apply quiet_bind; [apply quiet_get_hw|]. intros h. done. Qed.
Hint Resolve quiet_debug_values : quiet.

Lemma try_single_settled ls0 tid dr7 st i : keeps (still_settled ls0) (try_single tid dr7 st i).
Proof.
  unfold try_single. destruct st as [[n a] err]. apply keeps_bind; [apply quiet_keeps; auto with quiet|].
  intros [[ad d7]|]; [|apply keeps_ret]. apply keeps_bind.
  - apply keeps_if; [apply keeps_ret|]. apply keeps_bind; [apply quiet_keeps; auto with quiet|].
    intros [?|e]; [apply keeps_ret|]. apply keeps_if; [apply keeps_ret|apply keeps_fail].
  - intros [?|err']; [apply keeps_ret|]. apply keeps_bind; [apply keeps_opt|]. intros e.
    apply keeps_bind; [apply reject_slot_settled|]. intros _. apply keeps_ret.
Qed.

Lemma dr7_loop_settled ls0 fuel tid n dr7 a : keeps (still_settled ls0) (dr7_loop fuel tid n dr7 a).
Proof.
  revert n dr7 a. induction fuel as [|fuel IH]; intros n dr7 a; cbn [dr7_loop]; [apply keeps_panic|].
  apply keeps_if; [apply keeps_ret|]. apply keeps_bind; [apply quiet_keeps; auto with quiet|].
  intros [?|e]; [apply keeps_ret|]. apply keeps_if; [|apply keeps_fail].
  apply keeps_bind; [apply keeps_fold; intros; apply try_single_settled|]. intros [[? ?] ?]. apply IH.
Qed.

Lemma set_debug_registers_settled ls0 tid : keeps (still_settled ls0) (set_debug_registers_for_thread tid).
Proof.
  unfold set_debug_registers_for_thread, ignore_esrch. apply keeps_bind.
  - apply keeps_try. unfold set_debug_registers_for_thread_impl.
    apply keeps_bind; [apply quiet_keeps; auto with quiet|]. intros _.
    apply keeps_bind; [|intros; apply dr7_loop_settled]. apply quiet_keeps. unfold write_addresses.
    apply quiet_fold. intros b i. apply quiet_bind; [auto with quiet|]. intros [[a d7]|]; [|done].
    apply quiet_bind; auto with quiet.
  - intros [?|e]; [apply keeps_ret|]. apply keeps_if; [apply keeps_ret|apply keeps_fail].
Qed.

Lemma sorted_filter (P : BreakpointLocation -> Prop) `{forall l, Decision (P l)} ls :
  sorted_locations ls -> sorted_locations (filter P ls).
Proof.
  induction ls as [|l ls IH]; intros Hs; [done|]. apply (sorted_split [l] ls) in Hs as (_&Hs&Hlt).
  rewrite filter_cons. case_decide; [|by apply IH]. apply (sorted_split [l]). split; [by repeat constructor|].
  split; [by apply IH|]. intros x y ->%list_elem_of_singleton [_ Hy]%list_elem_of_filter.
  apply Hlt; [by left|done].
Qed.

Lemma tids_at_Some ts a :
  match tids_at ts a with Some _ => true | None => false end = true <->
  exists tid t, (tid, t) ∈ ts /\ rip t = Some a.
Proof.
  unfold tids_at. destruct (filter (fun t : Z * Thread => rip t.2 = Some a) ts) as [|[tid t] here] eqn:E.
  - split; [done|]. intros (tid&t&Hin&Hr). exfalso.
    assert (Hf : (tid, t) ∈ filter (fun t : Z * Thread => rip t.2 = Some a) ts) by by apply list_elem_of_filter.
    rewrite E in Hf. by apply not_elem_of_nil in Hf.
  - split; [|done]. intros _. exists tid, t.
    assert (Hf : (tid, t) ∈ filter (fun t : Z * Thread => rip t.2 = Some a) ts) by (rewrite E; by left).
    apply list_elem_of_filter in Hf as [??]. done.
Qed.

(** The local half, from a compacted list. *)
Definition local_result (ts : list (Z * Thread)) (l l' : BreakpointLocation) : Prop :=
  addr l' = addr l /\
  hardware l' = match tids_at ts (addr l) with Some _ => true | None => false end /\
  (loc_active l' = true \/ error l' <> None).

Lemma each_refl (R : BreakpointLocation -> BreakpointLocation -> Prop) ls :
  (forall i l, zget ls i = Some l -> R l l) -> each R ls ls.
Proof. intros HR. split; [done|]. intros i l Hl. exists l. eauto. Qed.

Lemma debug_registers_local ls0 d :
  still_settled ls0 d ->
  ends (fun _ => still_settled ls0) (fun _ => True)
    ((hs ← sget hardware_breakpoints;
      if existsb (fun b => hw_active b && negb (pushed_to_threads b)) hs then
        ts ← sget threads;
        _ ← sfor (filter (fun t : Z * Thread => exiting t.2 = false) ts).*1 set_debug_registers_for_thread;
        smodify (fun d => set_hw (map (set_pushed true) (hardware_breakpoints d)) d)
      else mret tt) d).
Proof.
  intros Hd. srun. case_match; [|done]. srun.
  pose proof (keeps_for (still_settled ls0) (filter (fun t : Z * Thread => exiting t.2 = false) (threads d)).*1
    set_debug_registers_for_thread (fun t _ => set_debug_registers_settled ls0 t) d Hd) as Hf.
  unfold after in Hf. destruct (sfor _ _ d) as [[] d1]; [|done..]. srun. exact Hf.
Qed.

Lemma handle_local_ends d :
  Forall explained (locs d) ->
  ends (fun _ d' => each (local_result (threads d)) (locs d) (locs d')) (fun _ => True)
    (handle_breakpoints_local d).
Proof.
  intros Hex. unfold handle_breakpoints_local. srun.
  eapply (ends_bind (fun _ d' => each (converted (tids_at (threads d))) (locs d) (locs d'))).
  { apply for_each. intros. apply convert_ends. }
  intros [] d1 Hd1. eapply (ends_bind (fun _ d' => each tried (locs d1) (locs d'))); [apply activate_all_ends|].
  intros [] d2 Hd2. assert (Hset : still_settled (locs d2) d2).
  { apply each_refl. intros i l2 Hl2. split; [done|]. split; [done|].
    destruct (proj2 Hd2 i l2 Hl2) as (l1&Hl1&_&_&_&Hok). destruct (proj2 Hd1 i l1 Hl1) as (l&Hl&_&He&Hn&_).
    destruct Hok as [[-> Hr]|?]; [|done]. right. rewrite He. apply (Forall_zget _ _ _ _ Hex Hl). congruence. }
  eapply ends_weaken; [|done|apply (debug_registers_local (locs d2)); done].
  intros [] d3 Hd3.
  assert (H23 : each (fun x z => exists y, tried x y /\ settled y z) (locs d1) (locs d3)).
  { eapply each_trans; [|exact Hd2|exact Hd3]. intros x y z H1 H2. by exists y. }
  eapply each_trans; [|exact Hd1|exact H23].
  intros x y z ([Ha _]&_&_&Hh) (w&([Hb _]&Hc&_&_)&He&Hf&Hg).
  unfold local_result. rewrite He, Hb, Hf, Hc. auto.
Qed.

(** ** The properties *)

(** C3. Reconciling with a local debuggee, when it succeeds: the locations are
    exactly those that some breakpoint or step still refers to, in the same
    order; each of them is a hardware breakpoint if and only if a thread stands
    at its address (otherwise a trap instruction); and each is active in the
    debuggee unless its error says why not. *)
Theorem reconcile_local d d' :
  is_remote d = false -> Forall explained (locs d) -> handle_breakpoints d = (Ret tt, d') ->
  addrs_of (locs d') = addrs_of (filter nonempty (locs d)) /\
  (sorted_locations (locs d) -> sorted_locations (locs d')) /\
  forall l, l ∈ locs d' ->
    (hardware l = true <-> exists tid t, (tid, t) ∈ threads d /\ rip t = Some (addr l)) /\
    (loc_active l = true \/ error l <> None).
Proof.
  intros Hlocal Hex. unfold handle_breakpoints. srun.
  pose proof (compact_ends d Hex) as Hc.
  destruct (compact_locations d) as [[[]|e|] d1] eqn:Ec; [|done..]. destruct Hc as (Hk&Ht&Hex1).
  srun. unfold env in Ht. injection Ht as Ht Hr. rewrite Hr, Hlocal.
  pose proof (handle_local_ends d1 Hex1) as Hh. intros Hret. rewrite Hret in Hh. simpl in Hh.
  assert (Haddr : addrs_of (locs d1) = addrs_of (filter nonempty (locs d))).
  { unfold addrs_of. apply (f_equal (fmap fst)) in Hk. by rewrite <- !list_fmap_compose in Hk. }
  assert (Haddr' : addrs_of (locs d') = addrs_of (locs d1)).
  { apply each_addrs. eapply each_weaken; [|exact Hh]. by intros ? ? [? _]. }
  rewrite Haddr', Haddr. split; [done|]. split.
  - intros Hs. unfold sorted_locations. rewrite Haddr', Haddr. by apply sorted_filter.
  - intros l (k&Hl)%list_elem_of_lookup. rewrite <- zget_of_nat in Hl.
    destruct (proj2 Hh _ _ Hl) as (l1&Hl1&Ha&Hhw&Hok). split; [|done].
    by rewrite Hhw, tids_at_Some, Ha, Ht.
Qed.
End Reconcile.

Lemma reconcile_local_witness :
  let d := sample_debugger Pool.new
    [sample_location 16 [] true; sample_location 24 [Step SBCall] false; sample_location 32 [RefId (mkId 0 1) 0] false]
    free_slots [(7, mkThread Suspended (Some 24) false None false false)] (plain_memory []) in
  let d' := (handle_breakpoints d).2 in
  addrs_of (breakpoint_locations d') = [24; 32] /\ map hardware (breakpoint_locations d') = [true; false].
Proof.
  intros d d'.
  assert (Hok : handle_breakpoints d = (Ret tt, d')).
  { vm_compute. reflexivity. }
  destruct (reconcile_local d d') as (Ha&_&_); [reflexivity|by repeat constructor|exact Hok|].
  split; [exact Ha|vm_compute; reflexivity].
Defined.

(** When the trap instruction of a location that is no longer needed cannot
    be removed (the process is alive but the write fails), the compaction stops
    half way and leaves the list of locations out of order. *)
Theorem failed_removal_unsorts_locations :
  let d := sample_debugger Pool.new
    [sample_location 16 [] false; sample_location 24 [RefId (mkId 0 1) 0] false; sample_location 32 [] true]
    free_slots [] (plain_memory [32]) in
  sorted_locations (breakpoint_locations d) /\
  exists e, (handle_breakpoints d).1 = Fail e /\
    addrs_of (breakpoint_locations (handle_breakpoints d).2) = [24; 16; 32] /\
    ~ sorted_locations (breakpoint_locations (handle_breakpoints d).2).
Proof.
  intros d. split; [repeat constructor; cbn; lia|]. eexists. split; [reflexivity|].
  assert (H : addrs_of (breakpoint_locations (handle_breakpoints d).2) = [24; 16; 32]) by reflexivity.
  split; [exact H|]. unfold sorted_locations. rewrite H. intros Hs.
  apply StronglySorted_cons in Hs as [Hs _]. apply Forall_inv in Hs. lia.
Qed.
