(* ===== verification/HardwareSlots.v ===== *)
(** The four hardware breakpoint slots: their encoding in the debug registers,
    their allocation to data breakpoints, and what a rejected watchpoint leaves. *)
From Stdlib Require Import ZArith Lia String.
From stdpp Require Import base list sets gmap.
From S2P Require Import Prelude RustStr Errors Registers StateMonad Pool BreakpointData GdbProto GdbRemote GdbRemoteSpec Breakpoints BreakpointsSpec BreakpointRefs BreakpointLists.
Open Scope Z_scope.

(** ** The debug registers as the manual describes them *)

Definition live_for (h : HardwareBreakpoint) (tid : Z) : bool :=
  hw_active h && match thread_specific h with Some x => x =? tid | None => true end.
(** The R/W and LEN fields of a slot: 0 for execution, otherwise write or
    read-write, and the length. *)
Definition dr7_field (h : HardwareBreakpoint) : Z :=
  match data_breakpoint_id h with
  | None => 0
  | Some _ =>
      (if stop_on_read h then 3 else 1) +
      4 * (if data_size h =? 1 then 0 else if data_size h =? 2 then 1 else if data_size h =? 4 then 3 else 2)
  end.

(** The reader's side: slot [i] of a dr7 value. *)
Definition dr7_enabled (dr7 i : Z) : bool := Z.testbit dr7 (2 * i).
Definition dr7_condition (dr7 i : Z) : Z := Z.land (Z.shiftr dr7 (16 + 4 * i)) 15.

Definition slot_bits (i field : Z) : Z := Z.lor (Z.shiftl 1 (2 * i)) (Z.shiftl field (16 + 4 * i)).

Definition range16 : list Z := seqZ 0 16.
Definition range4 : list Z := seqZ 0 4.
Definition slot_bits_ok : bool :=
  forallb (fun i => forallb (fun j => forallb (fun f =>
    Bool.eqb (dr7_enabled (slot_bits i f) j) (i =? j) &&
    (dr7_condition (slot_bits i f) j =? (if i =? j then f else 0)) &&
    negb (Z.testbit (slot_bits i f) 10) && (slot_bits i f <? 2 ^ 32)) range16) range4) range4.

Lemma slot_bits_table : slot_bits_ok = true.
Proof. vm_compute. reflexivity. Qed.

Lemma slot_bits_decode i j f :
  0 <= i < 4 -> 0 <= j < 4 -> 0 <= f < 16 ->
  dr7_enabled (slot_bits i f) j = (i =? j) /\
  dr7_condition (slot_bits i f) j = (if i =? j then f else 0).
Proof.
  intros Hi Hj Hf. pose proof slot_bits_table as Ht. unfold slot_bits_ok in Ht.
  assert (Hin : forall n x, 0 <= x < n -> In x (seqZ 0 n)).
  { intros n x Hx. apply list_elem_of_In, elem_of_seqZ. lia. }
  rewrite forallb_forall in Ht. specialize (Ht i (Hin 4 i Hi)). rewrite forallb_forall in Ht.
  specialize (Ht j (Hin 4 j Hj)). rewrite forallb_forall in Ht. specialize (Ht f (Hin 16 f Hf)).
  repeat (apply andb_prop in Ht as [Ht ?]). split; [by apply Bool.eqb_prop|by apply Z.eqb_eq].
Qed.

Lemma dr7_field_range h : 0 <= dr7_field h < 16.
Proof. unfold dr7_field. repeat case_match; lia. Qed.

(** The bits of a slot, for the reader above. *)
Lemma debug_register_values h i tid v :
  0 <= i < 4 -> get_debug_register_values_for_hardware_breakpoint h i tid = Ret v ->
  v = if live_for h tid then Some (hw_addr h, slot_bits i (dr7_field h)) else None.
Proof.
  intros Hi. unfold get_debug_register_values_for_hardware_breakpoint, live_for.
  destruct (hw_active h); simpl; [|by intros [= <-]].
  assert (Hgo : (match data_breakpoint_id h with
    | None => Ret (Some (hw_addr h, Z.shiftl 1 (i * 2)))
    | Some _ => size_code ← (if data_size h =? 1 then Ret 0 else if data_size h =? 2 then Ret 1
                     else if data_size h =? 4 then Ret 3 else if data_size h =? 8 then Ret 2 else Panic);
        Ret (Some (hw_addr h, Z.lor (Z.lor (Z.shiftl 1 (i * 2)) (Z.shiftl (if stop_on_read h then 3 else 1) (16 + i * 4)))
            (Z.shiftl size_code (18 + i * 4))))
    end : partial (option (Z * Z))) = Ret v -> v = Some (hw_addr h, slot_bits i (dr7_field h))).
  { unfold dr7_field, slot_bits. destruct (data_breakpoint_id h).
    - assert (i = 0 \/ i = 1 \/ i = 2 \/ i = 3) as Hc by lia.
      destruct Hc as [->|[->|[->| ->]]]; repeat case_match; simpl; intros Hv; try done; injection Hv as <-; reflexivity.
    - intros [= <-]. rewrite Z.shiftl_0_l, Z.lor_0_r. by rewrite Z.mul_comm. }
  destruct (thread_specific h) as [x|]; simpl; [|exact Hgo].
  destruct (x =? tid); simpl; [exact Hgo|by intros [= <-]].
Qed.

(** ** Collecting the bits of all slots *)

Lemma dr7_enabled_lor a b i : 0 <= i -> dr7_enabled (Z.lor a b) i = dr7_enabled a i || dr7_enabled b i.
Proof. intros. apply Z.lor_spec. Qed.
Lemma dr7_condition_lor a b i : dr7_condition (Z.lor a b) i = Z.lor (dr7_condition a i) (dr7_condition b i).
Proof. unfold dr7_condition. by rewrite Z.shiftr_lor, Z.land_lor_distr_l. Qed.

Section Collect.
  Context {Expression M : Type} `{Machine M}.
  Notation Dbg := (Debugger Expression M).

(** [v] programs exactly the slots below [k] that are live for the thread. *)
Definition programs (hs : list HardwareBreakpoint) (tid k v : Z) : Prop :=
  Z.testbit v 10 = true /\
  forall i h, 0 <= i < 4 -> zget hs i = Some h ->
    dr7_enabled v i = ((i <? k) && live_for h tid) /\
    dr7_condition v i = (if (i <? k) && live_for h tid then dr7_field h else 0).

(** The address registers of the live slots below [k], written in order. *)
Definition write_drs (tid : Z) (hs : list HardwareBreakpoint) (k : Z) (m : M) : M :=
  fold_left (fun m i => match zget hs i with
    | Some h => if live_for h tid then (poke_debugreg m tid i (hw_addr h)).2 else m
    | None => m
    end) (seqZ 0 k) m.

Lemma write_drs_S tid hs k m h :
  0 <= k -> zget hs k = Some h ->
  write_drs tid hs (k + 1) m =
  (if live_for h tid then (poke_debugreg (write_drs tid hs k m) tid k (hw_addr h)).2 else write_drs tid hs k m).
Proof.
  intros Hk Hh. unfold write_drs. rewrite (seqZ_app 0 k 1) by lia. rewrite fold_left_app, Z.add_0_l.
  rewrite (seqZ_S k 1) by lia. change (seqZ (k + 1) (1 - 1)) with (@nil Z). cbn [fold_left]. by rewrite Hh.
Qed.

Lemma programs_step hs tid k v h :
  0 <= k < 4 -> zget hs k = Some h -> programs hs tid k v ->
  programs hs tid (k + 1) (if live_for h tid then Z.lor v (slot_bits k (dr7_field h)) else v).
Proof.
  intros Hk Hh [Hten Hp]. split.
  { destruct (live_for h tid); [|done]. by rewrite Z.lor_spec, Hten. }
  intros i h' Hi Hh'. destruct (Hp i h' Hi Hh') as [He Hc].
  destruct (decide (i = k)) as [->|Hne].
  - rewrite Hh in Hh'. injection Hh' as <-. rewrite Z.ltb_irrefl in He, Hc. simpl in He, Hc.
    rewrite (proj2 (Z.ltb_lt k (k + 1))) by lia. simpl.
    destruct (live_for h tid); [|done].
    destruct (slot_bits_decode k k (dr7_field h) Hk Hk (dr7_field_range h)) as [Hse Hsc].
    rewrite dr7_enabled_lor, dr7_condition_lor, He, Hc, Hse, Hsc, Z.eqb_refl by lia. done.
  - assert ((i <? k + 1) = (i <? k)) as -> by (destruct (Z.ltb_spec i (k + 1)), (Z.ltb_spec i k); lia || done).
    destruct (live_for h tid); [|done].
    destruct (slot_bits_decode k i (dr7_field h) Hk Hi (dr7_field_range h)) as [Hse Hsc].
    rewrite dr7_enabled_lor, dr7_condition_lor, Hse, Hsc by lia.
    rewrite (proj2 (Z.eqb_neq k i)) by lia. by rewrite orb_false_r, Z.lor_0_r.
Qed.

(** Programming the debug registers: when the registers can be written, the
    control value collected for a thread, read as the processor reads it,
    enables exactly the slots that are active for that thread, with the
    condition and length each asks for, and each enabled slot's address has been
    written to its address register, in order. Other slots and the debugger's
    own state are untouched. *)
Theorem dr7_programs_active_slots (d d' : Dbg) tid v :
  zlen (hardware_breakpoints d) = 4 ->
  write_addresses tid dr7_common_bits d = (Ret v, d') ->
  programs (hardware_breakpoints d) tid 4 v /\
  d' = set_machine (write_drs tid (hardware_breakpoints d) 4 (machine d)) d.
Proof.
  intros Hlen Hw. unfold write_addresses in Hw.
  pose proof (sfold_seqZ (fun k v d1 => programs (hardware_breakpoints d) tid k v /\
      d1 = set_machine (write_drs tid (hardware_breakpoints d) k (machine d)) d) (fun _ => True)
    (fun dr7 i => v ← debug_values i tid;
      match v with Some (a, d7) => _ ← poke_dr tid i a; mret (Z.lor dr7 d7) | None => mret dr7 end)
    0 4 dr7_common_bits d) as Hloop.
  rewrite Hw in Hloop. apply Hloop; [lia| |].
  - split; [|by destruct d]. split; [reflexivity|]. intros i h Hi _.
    assert (i = 0 \/ i = 1 \/ i = 2 \/ i = 3) as [->|[->|[->| ->]]] by lia; done.
  - clear Hloop Hw. intros i b d1 Hi [Hp ->].
    assert (is_Some (zget (hardware_breakpoints d) i)) as [h Hh] by (apply zget_range; lia).
    unfold debug_values, get_hw. srun. cbn [hardware_breakpoints set_machine]. rewrite Hh. srun.
    destruct (get_debug_register_values_for_hardware_breakpoint h i tid) as [r| |] eqn:Er; srun; [|done..].
    apply debug_register_values in Er; [|lia].
    pose proof (programs_step (hardware_breakpoints d) tid i b h Hi Hh Hp) as Hp'.
    pose proof (write_drs_S tid _ i (machine d) h ltac:(lia) Hh) as Hm.
    destruct (live_for h tid); subst r; [|split; [done|by rewrite Hm]].
    unfold poke_dr. srun. cbn [machine set_machine].
    destruct (poke_debugreg (write_drs tid (hardware_breakpoints d) i (machine d)) tid i (hw_addr h))
      as [[[]| |] m'] eqn:Ep; srun; [|done..].
    split; [done|]. by rewrite Hm.
Qed.
End Collect.

Definition busy_slots : list HardwareBreakpoint :=
  [ mkHw true None 4096 (Some sample_id) true 8 false;
    mkHw true (Some 7) 32 None false 0 false;
    mkHw true (Some 8) 64 None false 0 false;
    mkHw true None 128 (Some sample_id) false 4 false ].

Lemma dr7_programs_active_slots_witness :
  let d := sample_debugger sample_breakpoints [] busy_slots [] (plain_memory []) in
  match write_addresses 7 dr7_common_bits d with
  | (Ret v, _) => map (fun i => (dr7_enabled v i, dr7_condition v i)) [0; 1; 2; 3] =
      [(true, 11); (true, 0); (false, 0); (true, 13)] /\ programs busy_slots 7 4 v
  | _ => False
  end.
Proof.
  intros d. destruct (write_addresses 7 dr7_common_bits d) as [[v| |] d'] eqn:Ew; [|discriminate..].
  destruct (dr7_programs_active_slots d d' 7 v) as [Hp _]; [reflexivity|exact Ew|].
  split; [|exact Hp]. vm_compute in Ew. injection Ew as <- _. reflexivity.
Defined.

(** ** Slots of data breakpoints *)

Section Slots.
  Context {Expression M : Type} `{Machine M}.
  Notation Dbg := (Debugger Expression M).
  Context (determine_locations : BreakpointOn -> BreakpointOn * result (list (Z * Z))).
  Context (binaries : list (Z * bool)).

Lemma position_inactive_spec hs k :
  match position_inactive hs k with
  | Some i => exists j h, i = k + Z.of_nat j /\ hs !! j = Some h /\ hw_active h = false /\
      forall j' h', (j' < j)%nat -> hs !! j' = Some h' -> hw_active h' = true
  | None => forall h, h ∈ hs -> hw_active h = true
  end.
Proof.
  revert k. induction hs as [|h hs IH]; intros k; simpl; [by intros h ?%elem_of_nil|].
  destruct (hw_active h) eqn:Ea; simpl.
  - specialize (IH (k + 1)). destruct (position_inactive hs (k + 1)) as [i|].
    + destruct IH as (j&h'&->&Hj&Hf&Hb). exists (S j), h'. split; [lia|]. do 2 (split; [done|]).
      intros [|j'] h0 Hlt Hh0; simpl in *; [by injection Hh0 as <-|]. apply (Hb j'); [lia|done].
    + intros h' [->|Hin]%elem_of_cons; [done|by apply IH].
  - exists O, h. split; [lia|]. split; [done|]. split; [done|]. lia.
Qed.

Lemma upd_bp_ok (d : Dbg) id f b :
  Pool.inv (breakpoints d) -> Pool.abs (breakpoints d) !! id = Some b ->
  exists p', upd_bp id f d = (Ret tt, set_breakpoints p' d) /\
    Pool.inv p' /\ Pool.abs p' = <[id := f b]> (Pool.abs (breakpoints d)).
Proof.
  intros Hp Hb. pose proof (write_refines (breakpoints d) id f Hp) as Hw.
  unfold upd_bp. srun. unfold Pool.get_mut.
  destruct (Pool.try_get_mut (breakpoints d) id f) as [p'|]; [|congruence].
  destruct Hw as (v&Hv&Hp'&Habs&_). rewrite Hb in Hv. injection Hv as <-. srun. by exists p'.
Qed.

(** A data breakpoint gets the first hardware slot that is not in use, set
    up with its address, size and kind, and becomes active; no other slot
    changes. If all slots are in use it is disabled with the error "out of
    hardware breakpoints" and the slots stay as they are. Either way only that
    breakpoint of the list changes. *)
Theorem data_breakpoint_slot (d : Dbg) id b db :
  Pool.inv (breakpoints d) -> Pool.abs (breakpoints d) !! id = Some b ->
  (exists pre h post p', hardware_breakpoints d = pre ++ h :: post /\
    hw_active h = false /\ Forall (fun h => hw_active h = true) pre /\
    activate_data_breakpoint id db d = (Ret true, set_breakpoints p' (set_hw
      (pre ++ mkHw true None (d_addr db) (Some id) (d_stop_on_read db) (d_size db) false :: post) d)) /\
    Pool.inv p' /\
    Pool.abs p' = <[id := bp_set_addrs not_calculated (bp_set_active true b)]> (Pool.abs (breakpoints d))) \/
  (exists p', Forall (fun h => hw_active h = true) (hardware_breakpoints d) /\
    activate_data_breakpoint id db d = (Ret false, set_breakpoints p' d) /\
    Pool.inv p' /\
    Pool.abs p' = <[id := bp_set_addrs (Fail (Code OutOfHardwareBreakpoints)) (set_enabled b false)]>
      (Pool.abs (breakpoints d))).
Proof.
  intros Hp Hb. unfold activate_data_breakpoint. srun.
  pose proof (position_inactive_spec (hardware_breakpoints d) 0) as Hpos.
  destruct (position_inactive (hardware_breakpoints d) 0) as [i|].
  - left. destruct Hpos as (j&h&->&Hj&Hf&Hbefore). rewrite Z.add_0_l.
    unfold put_hw. srun. rewrite zget_of_nat, Hj. srun. rewrite zset_of_nat.
    set (slot := mkHw _ _ _ _ _ _ _).
    destruct (upd_bp_ok (set_hw (<[j := slot]> (hardware_breakpoints d)) d) id
      (fun b => bp_set_addrs not_calculated (bp_set_active true b)) b Hp Hb) as (p'&Hrun&Hp'&Habs).
    exists (take j (hardware_breakpoints d)), h, (drop (S j) (hardware_breakpoints d)), p'.
    split; [by rewrite take_drop_middle|]. split; [done|]. split; [|split; [|done]].
    + apply Forall_lookup. intros k x [Hx Hlt]%lookup_take_Some. by eapply Hbefore.
    + rewrite Hrun. srun. by rewrite insert_take_drop by (by eapply lookup_lt_Some).
  - right. destruct (upd_bp_ok d id
      (fun b => bp_set_addrs (Fail (Code OutOfHardwareBreakpoints)) (set_enabled b false)) b Hp Hb) as (p'&Hrun&Hp'&Habs).
    exists p'. split; [by apply Forall_forall|]. srun. by rewrite Hrun.
Qed.

(** When the stub refuses a watchpoint, its slot is released and the
    breakpoint is marked disabled, but it stays marked active; enabling it
    again later reports success and yet neither takes a slot nor sends
    anything to the stub. *)
Theorem rejected_watch_is_never_set_again (d : Dbg) i h id b c e :
  Pool.inv (breakpoints d) -> Pool.abs (breakpoints d) !! id = Some b -> active b = true ->
  zget (hardware_breakpoints d) i = Some h -> hw_active h = true -> pushed_to_threads h = false ->
  data_breakpoint_id h = Some id -> remote d = Some c -> process_ready (target_state d) = true ->
  (GdbRemote.insert_breakpoint (watch_kind h) (hw_addr h) (data_size h) c).1 = Fail e ->
  exists d1 d2, push_watch i d = (Ret tt, d1) /\
    zget (hardware_breakpoints d1) i = Some hw_default /\
    Pool.abs (breakpoints d1) !! id =
      Some (bp_set_addrs (Fail (Code OutOfHardwareBreakpoints)) (set_enabled b false)) /\
    set_breakpoint_enabled determine_locations binaries id true d1 = (Ret true, d2) /\
    hardware_breakpoints d2 = hardware_breakpoints d1 /\ remote d2 = remote d1.
Proof.
  intros Hp Hb Hact Hi Ha Hpushed Hid Hc Hready Hrej.
  unfold push_watch, get_hw. srun. rewrite Hi. srun. rewrite Hid, Ha, Hpushed. cbn [negb orb]. srun.
  unfold on_remote. rewrite Hc.
  destruct (GdbRemote.insert_breakpoint _ _ _ c) as [r c']. simpl in Hrej. subst r. srun.
  unfold try_upd_bp. srun. cbn [breakpoints set_remote].
  pose proof (write_refines (breakpoints d) id
    (fun b => bp_set_addrs (Fail (Code OutOfHardwareBreakpoints)) (set_enabled b false)) Hp) as Hw.
  destruct (Pool.try_get_mut _ _ _) as [p1|]; [|congruence].
  destruct Hw as (v&Hv&Hp1&Habs1&_). rewrite Hb in Hv. injection Hv as <-.
  unfold put_hw. srun. cbn [hardware_breakpoints set_breakpoints set_remote]. rewrite Hi. srun.
  set (d1 := set_hw _ _). set (b1 := bp_set_addrs _ _) in *.
  assert (Hb1 : Pool.abs p1 !! id = Some b1) by (rewrite Habs1; apply lookup_insert_eq).
  pose proof (write_refines p1 id (fun b => set_enabled b true) Hp1) as Hw2.
  destruct (Pool.try_get_mut p1 id (fun b => set_enabled b true)) as [p2|] eqn:Ep2; [|congruence].
  destruct Hw2 as (v&Hv&Hp2&Habs2&_). rewrite Hb1 in Hv. injection Hv as <-.
  assert (Hg2 : Pool.try_get p2 id = Some (set_enabled b1 true)).
  { by rewrite <- abs_lookup, Habs2, lookup_insert_eq. }
  exists d1, (set_breakpoints p2 d1). split; [done|]. split; [cbn; by eapply zget_zset_eq|]. split; [exact Hb1|].
  split; [|done]. unfold set_breakpoint_enabled. srun. rewrite abs_lookup in Hb1.
  change (breakpoints d1) with p1. rewrite Hb1. cbn [enabled b1 bp_set_addrs set_enabled Bool.eqb]. srun.
  unfold upd_bp at 1. srun. change (breakpoints d1) with p1. unfold Pool.get_mut. rewrite Ep2. srun.
  unfold swhen. cbn [target_state set_breakpoints d1 set_hw set_remote negb]. rewrite Hready.
  unfold activate_breakpoints. srun. cbn [target_state set_breakpoints d1 set_hw set_remote]. rewrite Hready. srun.
  cbn [sfold]. unfold activate_one, get_bp. srun. cbn [breakpoints set_breakpoints]. unfold Pool.get. rewrite Hg2. srun.
  cbn [enabled active b1 bp_set_addrs set_enabled negb orb]. rewrite Hact. by srun.
Qed.
End Slots.

Lemma data_breakpoint_slot_witness :
  let db := mkData 4096 8 true in
  let r := activate_data_breakpoint sample_id db breakpoint_debugger in
  r.1 = Ret true /\ map hw_addr (hardware_breakpoints r.2) = [4096; 0; 0; 0].
Proof.
  intros db r.
  destruct (data_breakpoint_slot breakpoint_debugger sample_id sample_breakpoint db) as
    [(pre&h&post&p'&H1&_&_&Hr&_)|(p'&_&Hr&_)].
  - exact (proj1 breakpoint_debugger_refs).
  - reflexivity.
  - split; [unfold r; by rewrite Hr|reflexivity].
  - exfalso. vm_compute in Hr. discriminate Hr.
Defined.

(** A stub that answers "E01" to the next request. *)
Definition rejecting_debugger : Debugger unit Sim :=
  mkDebugger true PSuspended [] 7 sample_breakpoints []
    [mkHw true None 4096 (Some sample_id) false 8 false; hw_default; hw_default; hw_default]
    None false false None X86_64 (Some (sample_remote [str "+$E01#a6"%string])) (plain_memory []).

Lemma rejected_watch_is_never_set_again_witness :
  let d1 := (push_watch 0 rejecting_debugger).2 in
  let r := set_breakpoint_enabled (fun o => (o, Ret [])) [] sample_id true d1 in
  map hw_active (hardware_breakpoints d1) = [false; false; false; false] /\
  r.1 = Ret true /\ hardware_breakpoints r.2 = hardware_breakpoints d1.
Proof.
  intros d1 r.
  destruct (rejected_watch_is_never_set_again (fun o => (o, Ret [])) [] rejecting_debugger 0
    (mkHw true None 4096 (Some sample_id) false 8 false) sample_id sample_breakpoint
    (sample_remote [str "+$E01#a6"%string])
    Protocol) as (d1'&d2&H1&H2&H3&H4&H5&H6); try reflexivity.
  - exact (proj1 breakpoint_debugger_refs).
  - assert (d1 = d1') as E by (unfold d1; by rewrite H1). unfold r. rewrite E, H4.
    split; [|split; [reflexivity|exact H5]]. rewrite <- E. reflexivity.
Defined.
