(* ===== verification/MemReader.v ===== *)
(** CachedMemReader of src/procfs.rs: reads of the debuggee's memory through a
    one-page cache, variable-length integers and null-terminated strings. *)
From Stdlib Require Import ZArith Lia ZifyBool.
From stdpp Require Import base list.
From S2P Require Import Prelude Errors StateMonad Serial.
Open Scope Z_scope.

Definition PAGE_SIZE : Z := 4096.
(** [x & !(PAGE_SIZE - 1)] and [x & (PAGE_SIZE - 1)]. *)
Definition page_of (x : Z) : Z := Z.ldiff x (PAGE_SIZE - 1).
Definition page_offset (x : Z) : Z := Z.land x (PAGE_SIZE - 1).

(** The cache: [addr] is the address of the page it holds, if any. *)
Record CachedMemReader := mkCached { addr : option Z; page : list Z }.
Definition new : CachedMemReader := mkCached None [].

Section Reader.
  (** [self.mem.read_uninit(offset, buf)] with a buffer of the given length:
      the bytes read. *)
  Context (mem_read : Z -> Z -> result (list Z)).
  Notation R := (stm CachedMemReader Error).

(** The loop over the pages before the last: the new offset, the number of
    bytes still to read, and the bytes read so far. [fuel] bounds the pages. *)
Fixpoint read_pages (fuel : nat) (last_page offset n : Z) (acc : list Z) : R (Z * Z * list Z) :=
  if page_of offset <? last_page then
    match fuel with
    | O => spanic
    | S fuel =>
        let start := page_offset offset in
        len ← slift (usub PAGE_SIZE start);
        _ ← sassert (len <=? n);
        c ← sget addr;
        bytes ← (if bool_decide (c = Some (page_of offset))
                 then p ← sget page; slift (zslice p start (start + len))
                 else slift (mem_read offset len));
        offset' ← slift (uadd offset len);
        read_pages fuel last_page offset' (n - len) (acc ++ bytes)
    end
  else mret (offset, n, acc).

(** Fills the buffer of [n] bytes; the second component is the slice that the
    function returns. *)
Definition read_uninit (offset n : Z) : R (list Z * list Z) :=
  if n =? 0 then mret ([], [])
  else if U64_MAX - offset <? n then sfail (Code Runtime)
  else
    let last_page := page_of (offset + n - 1) in
    '(offset, n, acc) ← read_pages (Z.to_nat (n / PAGE_SIZE + 2)) last_page offset n [];
    c ← sget addr;
    _ ← (if bool_decide (c = Some last_page) then mret tt
         else
           _ ← smodify (fun s => mkCached None (page s));
           p ← slift (mem_read last_page PAGE_SIZE);
           smodify (fun _ => mkCached (Some last_page) p));
    p ← sget page;
    let start := page_offset offset in
    tail ← slift (zslice p start (start + n));
    mret (acc ++ tail, tail).

Definition read (offset n : Z) : R (list Z) := '(buf, _) ← read_uninit offset n; mret buf.

Definition read_u8 (offset : Z) : R Z :=
  c ← sget addr;
  if bool_decide (c = Some (page_of offset)) then
    p ← sget page; sopt (zget p (page_offset offset))
  else
    buf ← read offset 1; sopt (zget buf 0).
Definition read_le (n : Z) (offset : Z) : R Z := buf ← read offset n; mret (le_value buf).
Definition read_u16 : Z -> R Z := read_le 2.
Definition read_u32 : Z -> R Z := read_le 4.
Definition read_usize : Z -> R Z := read_le 8.

(** The loop of [leb128_impl]: the value, the last byte, the shift and the
    offset after it. At most ten bytes are read. *)
Fixpoint leb128_loop (fuel : nat) (offset res shift : Z) : R (Z * Z * Z * Z) :=
  match fuel with
  | O => spanic
  | S fuel =>
      byte ← read_u8 offset;
      offset ← slift (uadd offset 1);
      let res := Z.lor res (wrap64 (Z.shiftl (Z.land byte 127) shift)) in
      let shift := shift + 7 in
      if Z.land byte 128 =? 0 then mret (res, byte, shift, offset)
      else if 64 <=? shift then sfail (Code Sanity)
      else leb128_loop fuel offset res shift
  end.
Definition leb128_impl (offset : Z) : R (Z * Z * Z * Z) := leb128_loop 10 offset 0 0.
Definition eat_uleb128 (offset : Z) : R (Z * Z) :=
  '(res, _, _, offset) ← leb128_impl offset; mret (res, offset).
(** [!0 << shift] and the cast to [isize]. *)
Definition eat_sleb128 (offset : Z) : R (Z * Z) :=
  '(res, byte, shift, offset) ← leb128_impl offset;
  let res := if negb (Z.land byte 64 =? 0) && (shift <? 64)
             then Z.lor res (wrap64 (Z.shiftl U64_MAX shift)) else res in
  mret (to_signed 64 res, offset).

(** [res[start..].iter().position(|c| *c == 0)] *)
Fixpoint position_zero (l : list Z) (i : Z) : option Z :=
  match l with
  | [] => None
  | b :: l => if b =? 0 then Some i else position_zero l (i + 1)
  end.

Fixpoint read_null_terminated_loop (fuel : nat) (offset limit chunk_size : Z) (res : list Z) : R (list Z * bool) :=
  if zlen res <? limit then
    match fuel with
    | O => spanic
    | S fuel =>
        e ← slift (uadd (Z.ldiff offset (chunk_size - 1)) chunk_size);
        n ← slift (usub e offset);
        let n := Z.min n (limit - zlen res) in
        bytes ← read offset n;
        match position_zero bytes 0 with
        | Some i => mret (res ++ take (Z.to_nat i) bytes, true)
        | None =>
            offset ← slift (uadd offset n);
            let chunk_size := if (n =? chunk_size) && (chunk_size <? PAGE_SIZE)
                              then Z.shiftl chunk_size 1 else chunk_size in
            read_null_terminated_loop fuel offset limit chunk_size (res ++ bytes)
        end
    end
  else mret (res, false).
Definition read_null_terminated (offset limit : Z) : R (list Z * bool) :=
  read_null_terminated_loop (Z.to_nat limit) offset limit (Z.shiftl 1 7) [].
End Reader.

(** ** Page arithmetic *)

Lemma page_of_eq x : page_of x = x - x mod 4096.
Proof.
  unfold page_of. change (PAGE_SIZE - 1) with (Z.ones 12). rewrite Z.ldiff_ones_r by lia.
  rewrite Z.shiftr_div_pow2, Z.shiftl_mul_pow2 by lia. change (2 ^ 12) with 4096.
  pose proof (Z.div_mod x 4096). lia.
Qed.
Lemma page_offset_eq x : page_offset x = x mod 4096.
Proof. unfold page_offset. change (PAGE_SIZE - 1) with (Z.ones 12). by rewrite Z.land_ones by lia. Qed.

Ltac pages := rewrite ?page_of_eq, ?page_offset_eq in *; unfold PAGE_SIZE in *; Z.div_mod_to_equations; lia.

(** ** Reading memory *)

Section Correct.
  Context (mem_read : Z -> Z -> result (list Z)).
  (** The debuggee's memory while it is stopped, and what reading it means:
      all bytes or an error; a range of mapped bytes can be read. *)
  Context (memory : Z -> option Z).

(** [l] is the [n] bytes of memory at [a]. *)
Definition bytes_at (a n : Z) (l : list Z) : Prop :=
  zlen l = n /\ forall k, 0 <= k < n -> zget l k = memory (a + k).

Class MemLaws : Prop := {
  mem_bytes : forall a n l, 0 <= a -> 0 <= n -> mem_read a n = Ret l -> bytes_at a n l;
  mem_returns : forall a n, 0 <= a -> 0 <= n -> mem_read a n <> Panic;
  mem_mapped : forall a n, 0 <= a -> 0 <= n -> (forall k, 0 <= k < n -> memory (a + k) <> None) ->
    exists l, mem_read a n = Ret l;
  mem_u8 : forall a b, memory a = Some b -> is_u8 b
}.
Context `{MemLaws}.

Definition cache_ok (c : CachedMemReader) : Prop :=
  forall p, addr c = Some p -> page_of p = p /\ bytes_at p PAGE_SIZE (page c).

(** The page of [x] is mapped. *)
Definition page_mapped (x : Z) : Prop := forall k, 0 <= k < PAGE_SIZE -> memory (page_of x + k) <> None.

Lemma bytes_at_app a n m l k : bytes_at a n l -> bytes_at (a + n) m k -> bytes_at a (n + m) (l ++ k).
Proof.
  intros [Hl Hlb] [Hk Hkb]. split; [rewrite zlen_app; lia|]. intros i Hi. rewrite zget_app.
  destruct (Z.ltb_spec i (zlen l)); [apply Hlb; lia|]. rewrite Hkb by lia. f_equal. lia.
Qed.

Lemma bytes_at_nil a : bytes_at a 0 [].
Proof. split; [done|]. lia. Qed.

(** A slice of the cached page. *)
Lemma bytes_at_slice p l a n :
  bytes_at p PAGE_SIZE l -> 0 <= a -> 0 <= n -> a + n <= PAGE_SIZE ->
  exists k, zslice (E:=Error) l a (a + n) = Ret k /\ bytes_at (p + a) n k.
Proof.
  intros [Hl Hb] Ha Hn Hle. exists (take (Z.to_nat n) (drop (Z.to_nat a) l)).
  split; [rewrite zslice_ok by lia; by replace (a + n - a) with n by lia|]. split.
  - unfold zlen in *. rewrite length_take, length_drop. lia.
  - intros k Hk. rewrite zget_take_drop by lia. rewrite Hb by lia. f_equal. lia.
Qed.

(** What a read leaves: the right bytes or an error, and a correct cache; an
    error only if a page it needs is not mapped. *)
Definition reads {A} (ok : A -> Prop) (mapped : Prop) (r : outcome Error A * CachedMemReader) : Prop :=
  cache_ok r.2 /\ match r.1 with Ret a => ok a | Fail _ => ~ mapped | Panic => False end.

(** Every page that contains one of the bytes is mapped. *)
Definition readable (a n : Z) : Prop := forall x, a <= x < a + n -> page_mapped x.

Lemma readable_byte a n x : readable a n -> a <= x < a + n -> memory x <> None.
Proof.
  intros Hr Hx. specialize (Hr x Hx (x - page_of x)).
  replace (page_of x + (x - page_of x)) with x in Hr by lia. apply Hr. pages.
Qed.

Lemma mem_read_cases a n :
  0 <= a -> 0 <= n -> match mem_read a n with
  | Ret l => bytes_at a n l
  | Fail _ => exists x, a <= x < a + n /\ memory x = None
  | Panic => False
  end.
Proof using All.
  intros Ha Hn. destruct (mem_read a n) as [l|e|] eqn:E.
  - by apply mem_bytes.
  - destruct (decide (Forall (fun k => memory (a + k) <> None) (seqZ 0 n))) as [Hall|Hex].
    + exfalso. rewrite Forall_forall in Hall. destruct (mem_mapped a n Ha Hn) as [l Hl]; [|congruence].
      intros k Hk. apply Hall, elem_of_seqZ. lia.
    + apply not_Forall_Exists in Hex; [|apply _].
      apply Exists_exists in Hex as (k&Hk&Hm). apply elem_of_seqZ in Hk. exists (a + k). split; [lia|].
      destruct (memory (a + k)) eqn:Em; [|done]. exfalso. apply Hm. by rewrite Em.
  - exact (mem_returns a n Ha Hn E).
Qed.

Lemma read_pages_spec fuel last_page offset n acc a c :
  cache_ok c -> 0 <= offset -> 0 < n -> offset + n < 2 ^ 64 -> last_page = page_of (offset + n - 1) ->
  last_page - page_of offset <= 4096 * Z.of_nat fuel -> bytes_at a (offset - a) acc ->
  match read_pages mem_read fuel last_page offset n acc c with
  | (Ret (offset', n', acc'), c') => c' = c /\ offset' + n' = offset + n /\ offset' = Z.max offset last_page /\
      0 <= offset' /\ 0 < n' /\ bytes_at a (offset' - a) acc'
  | (Fail _, c') => c' = c /\ exists x, offset <= x < offset + n /\ memory x = None
  | (Panic, _) => False
  end.
Proof using All.
  intros Hc. revert offset n acc. induction fuel as [|fuel IH]; intros offset n acc Ho Hn Hend -> Hf Hacc.
  - simpl. rewrite (proj2 (Z.ltb_ge _ _)) by lia. split; [done|]. split; [done|]. split; [|done]. pages.
  - cbn [read_pages]. destruct (Z.ltb_spec (page_of offset) (page_of (offset + n - 1))) as [Hlt|Hge].
    2:{ split; [done|]. split; [done|]. split; [|done]. pages. }
    assert (Hp : 0 <= page_offset offset < 4096) by pages.
    assert (Hlen : 4096 - page_offset offset <= n) by pages.
    srun. unfold usub, PAGE_SIZE. rewrite (proj2 (Z.leb_le _ _)) by lia. srun.
    rewrite (proj2 (Z.leb_le _ _)) by lia. srun.
    assert (Hgo : forall bytes, bytes_at offset (4096 - page_offset offset) bytes ->
      match (offset' ← slift (uadd offset (4096 - page_offset offset));
        read_pages mem_read fuel (page_of (offset + n - 1)) offset' (n - (4096 - page_offset offset)) (acc ++ bytes)) c with
      | (Ret (offset', n', acc'), c') => c' = c /\ offset' + n' = offset + n /\ offset' = Z.max offset (page_of (offset + n - 1)) /\
          0 <= offset' /\ 0 < n' /\ bytes_at a (offset' - a) acc'
      | (Fail _, c') => c' = c /\ exists x, offset <= x < offset + n /\ memory x = None
      | (Panic, _) => False
      end).
    { intros bytes Hb. unfold uadd. rewrite (proj2 (Z.ltb_lt _ _)) by lia. srun.
      assert (Hpage : page_of (offset + n - 1) = page_of (offset + (4096 - page_offset offset) + (n - (4096 - page_offset offset)) - 1))
        by (f_equal; lia).
      specialize (IH (offset + (4096 - page_offset offset)) (n - (4096 - page_offset offset)) (acc ++ bytes)).
      assert (Hnn : 0 < n - (4096 - page_offset offset)) by pages.
      assert (Hfuel : page_of (offset + n - 1) - page_of (offset + (4096 - page_offset offset)) <= 4096 * Z.of_nat fuel) by pages.
      assert (Happ : bytes_at a (offset + (4096 - page_offset offset) - a) (acc ++ bytes)).
      { replace (offset + (4096 - page_offset offset) - a) with ((offset - a) + (4096 - page_offset offset)) by lia.
        apply bytes_at_app; [done|]. by replace (a + (offset - a)) with offset by lia. }
      specialize (IH ltac:(lia) Hnn ltac:(lia) Hpage Hfuel Happ).
      destruct (read_pages mem_read fuel _ _ _ _ c) as [[[[o' n'] acc']|e|] c'].
      - destruct IH as (?&?&?&?&?&?). split; [done|]. split; [lia|]. split; [pages|done].
      - destruct IH as (?&x&?&?). split; [done|]. exists x. split; [lia|done].
      - done. }
    destruct (bool_decide (addr c = Some (page_of offset))) eqn:Eb; srun.
    + apply bool_decide_eq_true in Eb. destruct (Hc _ Eb) as [_ Hb].
      destruct (bytes_at_slice _ _ (page_offset offset) (4096 - page_offset offset) Hb) as (k&Hk&Hkb);
        [lia|lia|unfold PAGE_SIZE; lia|].
      rewrite Hk. srun. apply Hgo. replace (page_of offset + page_offset offset) with offset in Hkb by pages. done.
    + pose proof (mem_read_cases offset (4096 - page_offset offset) ltac:(lia) ltac:(lia)) as Hm.
      destruct (mem_read offset (4096 - page_offset offset)) as [l|e|]; srun; [by apply Hgo| |done].
      split; [done|]. destruct Hm as (x&?&?). exists x. split; [lia|done].
Qed.

(** The whole read, and the slice it returns: the part in the last page. *)
Lemma read_uninit_spec offset n c :
  cache_ok c -> 0 <= offset -> 0 <= n -> offset + n < 2 ^ 64 ->
  reads (fun r => bytes_at offset n r.1 /\ exists pre, r.1 = pre ++ r.2 /\
      zlen r.2 = n - Z.max 0 (page_of (offset + n - 1) - offset)) (readable offset n)
    (read_uninit mem_read offset n c).
Proof using All.
  intros Hc Ho Hn Hend. unfold read_uninit. destruct (Z.eqb_spec n 0) as [->|Hn0].
  { split; [done|]. split; [apply bytes_at_nil|]. exists []. split; [done|]. cbn [snd]. rewrite zlen_nil, Z.add_0_r. pages. }
  rewrite (proj2 (Z.ltb_ge _ _)) by (unfold U64_MAX; lia). srun.
  set (last_page := page_of (offset + n - 1)).
  pose proof (read_pages_spec (Z.to_nat (n / PAGE_SIZE + 2)) last_page offset n [] offset c Hc Ho ltac:(lia) Hend eq_refl) as Hp.
  assert (Hfuel : last_page - page_of offset <= 4096 * Z.of_nat (Z.to_nat (n / PAGE_SIZE + 2))).
  { rewrite Z2Nat.id by pages. unfold last_page. pages. }
  specialize (Hp Hfuel). clear Hfuel.
  replace (offset - offset) with 0 in Hp by lia. specialize (Hp (bytes_at_nil offset)).
  destruct (read_pages mem_read _ last_page offset n [] c) as [[[[o' n'] acc]|e|] c']; [|..|done].
  2:{ destruct Hp as (->&x&Hx&Hm). split; [done|]. intros Hr. by apply (readable_byte offset n x). }
  destruct Hp as (->&Hsum&Hmax&Ho'&Hn'&Hacc). srun.
  assert (Hpage : page_of o' = last_page) by (unfold last_page in *; pages).
  assert (Hlast : page_of last_page = last_page) by (unfold last_page; pages).
  assert (Hfit : page_offset o' + n' <= PAGE_SIZE).
  { assert (page_of o' = page_of (o' + n' - 1)) by (rewrite Hsum; done). pages. }
  (* the tail comes from the page in the cache *)
  assert (Htail : forall c1, cache_ok c1 -> addr c1 = Some last_page ->
    reads (fun r => bytes_at offset n r.1 /\ exists pre, r.1 = pre ++ r.2 /\
        zlen r.2 = n - Z.max 0 (last_page - offset)) (readable offset n)
      ((p ← sget page; tail ← slift (zslice p (page_offset o') (page_offset o' + n')); mret (acc ++ tail, tail)) c1)).
  { intros c1 Hc1 Ha1. destruct (Hc1 _ Ha1) as [_ Hb]. srun.
    destruct (bytes_at_slice _ _ (page_offset o') n' Hb) as (k&Hk&Hkb); [pages|lia|done|].
    rewrite Hk. srun. split; [done|]. cbn. split.
    - replace n with ((o' - offset) + n') by lia. apply bytes_at_app; [done|].
      replace (offset + (o' - offset)) with (last_page + page_offset o') by (rewrite <- Hpage; pages). done.
    - exists acc. split; [done|]. rewrite (proj1 Hkb). lia. }
  destruct (bool_decide (addr c = Some last_page)) eqn:Eb; srun.
  - apply bool_decide_eq_true in Eb. by apply Htail.
  - pose proof (mem_read_cases last_page PAGE_SIZE ltac:(pages) ltac:(unfold PAGE_SIZE; lia)) as Hm.
    destruct (mem_read last_page PAGE_SIZE) as [l|e|]; srun; [|..|done].
    + apply Htail; [|done]. intros p Hp'. injection Hp' as <-. done.
    + split; [by intros p|]. intros Hr. destruct Hm as (x&Hx&Hm).
      apply (Hr (offset + n - 1) ltac:(lia) (x - last_page)); [lia|].
      fold last_page. by replace (last_page + (x - last_page)) with x by lia.
Qed.

Lemma read_spec offset n c :
  cache_ok c -> 0 <= offset -> 0 <= n -> offset + n < 2 ^ 64 ->
  reads (bytes_at offset n) (readable offset n) (read mem_read offset n c).
Proof using All.
  intros Hc Ho Hn Hend. pose proof (read_uninit_spec offset n c Hc Ho Hn Hend) as [Hc' Hr].
  unfold read. srun. destruct (read_uninit mem_read offset n c) as [[[buf tl]|e|] c']; simpl in *; [|done..].
  srun. by destruct Hr.
Qed.

Lemma read_u8_spec offset c :
  cache_ok c -> 0 <= offset -> offset + 1 < 2 ^ 64 ->
  reads (fun b => memory offset = Some b) (page_mapped offset) (read_u8 mem_read offset c).
Proof using All.
  intros Hc Ho Hend. unfold read_u8. srun. destruct (bool_decide (addr c = Some (page_of offset))) eqn:Eb; srun.
  - apply bool_decide_eq_true in Eb. destruct (Hc _ Eb) as [_ [Hlen Hb]].
    assert (Hr : 0 <= page_offset offset < PAGE_SIZE) by pages.
    pose proof (proj2 (zget_range (page c) (page_offset offset)) ltac:(lia)) as [b Hg].
    rewrite Hg. split; [done|]. cbn. rewrite <- Hg, Hb by done. f_equal. pages.
  - pose proof (read_spec offset 1 c Hc Ho ltac:(lia) Hend) as [Hc' Hr].
    destruct (read mem_read offset 1 c) as [[buf|e|] c']; simpl in *; srun; [| |done].
    + destruct Hr as [Hlen Hb]. specialize (Hb 0 ltac:(lia)). rewrite Z.add_0_r in Hb.
      pose proof (proj2 (zget_range buf 0) ltac:(lia)) as [b Hg]. rewrite Hg in Hb |- *. by split.
    + split; [done|]. intros Hm. apply Hr. intros x Hx. by replace x with offset by lia.
Qed.

(** ** Variable-length integers *)

Fixpoint leb_value (l : list Z) : Z :=
  match l with
  | [] => 0
  | b :: l => b mod 128 + 128 * leb_value l
  end.
(** All bytes but the last have the continuation bit. *)
Fixpoint leb_bytes (l : list Z) : Prop :=
  match l with
  | [] => False
  | [b] => 0 <= b < 128
  | b :: l => 128 <= b < 256 /\ leb_bytes l
  end.

Lemma lor_disjoint a b k : 0 <= k -> 0 <= a < 2 ^ k -> Z.lor a (b * 2 ^ k) = a + b * 2 ^ k.
Proof.
  intros Hk Ha. assert (Hland : Z.land a (b * 2 ^ k) = 0).
  { apply Z.bits_inj'. intros i Hi. rewrite Z.land_spec, Z.bits_0. destruct (Z.ltb_spec i k).
    - rewrite Z.mul_pow2_bits_low by done. by rewrite andb_false_r.
    - destruct (Z.eq_dec a 0) as [->|]; [by rewrite Z.bits_0|]. rewrite Z.bits_above_log2; [done|lia|].
      apply Z.lt_le_trans with k; [|done]. apply Z.log2_lt_pow2; lia. }
  rewrite <- (Z.lxor_lor _ _ Hland). symmetry. by apply Z.add_nocarry_lxor.
Qed.

Lemma land_127 b : Z.land b 127 = b mod 128.
Proof. change 127 with (Z.ones 7). by rewrite Z.land_ones by lia. Qed.
Lemma land_bit b k : 0 <= k -> (Z.land b (2 ^ k) =? 0) = negb (Z.testbit b k).
Proof.
  intros Hk. destruct (Z.testbit b k) eqn:E; simpl.
  - apply Z.eqb_neq. intros H0. apply (f_equal (fun z => Z.testbit z k)) in H0.
    rewrite Z.land_spec, Z.pow2_bits_true, Z.bits_0, E in H0 by done. done.
  - apply Z.eqb_eq, Z.bits_inj'. intros i Hi. rewrite Z.land_spec, Z.bits_0.
    destruct (decide (i = k)) as [->|]; [by rewrite E|]. rewrite Z.pow2_bits_false by done. by rewrite andb_false_r.
Qed.
Lemma testbit_range b k : 0 <= k -> 0 <= b < 2 ^ (k + 1) -> Z.testbit b k = (2 ^ k <=? b).
Proof.
  intros Hk Hb. rewrite Z.testbit_eqb by done. rewrite Z.pow_add_r in Hb by lia.
  assert (Hp : 0 < 2 ^ k) by (apply Z.pow_pos_nonneg; lia).
  destruct (Z.leb_spec (2 ^ k) b).
  - apply Z.eqb_eq. assert (b / 2 ^ k = 1) as -> by (symmetry; apply Z.div_unique with (b - 2 ^ k); lia). done.
  - apply Z.eqb_neq. rewrite Z.div_small by lia. done.
Qed.

(** One byte of the loop adds its seven bits. *)
Lemma leb_step res b shift :
  0 <= shift < 64 -> 0 <= res < 2 ^ shift -> 0 <= b ->
  Z.lor res (wrap64 (Z.shiftl (Z.land b 127) shift)) = (res + b mod 128 * 2 ^ shift) mod 2 ^ 64.
Proof.
  intros Hs Hr Hb. rewrite land_127. rewrite Z.shiftl_mul_pow2 by lia. unfold wrap64.
  assert (Hsplit : 2 ^ 64 = 2 ^ (64 - shift) * 2 ^ shift) by (rewrite <- Z.pow_add_r by lia; f_equal; lia).
  assert (0 < 2 ^ shift) by (apply Z.pow_pos_nonneg; lia).
  assert (0 < 2 ^ (64 - shift)) by (apply Z.pow_pos_nonneg; lia).
  rewrite Hsplit. rewrite Z.mul_mod_distr_r by lia. rewrite lor_disjoint by lia.
  apply Z.mod_unique with (b mod 128 / 2 ^ (64 - shift)).
  - left. pose proof (Z.mod_pos_bound (b mod 128) (2 ^ (64 - shift)) ltac:(lia)). nia.
  - pose proof (Z.div_mod (b mod 128) (2 ^ (64 - shift)) ltac:(lia)). nia.
Qed.

(** The loop reads exactly the encoding and computes its value modulo 2^64. *)
Lemma leb128_loop_spec fuel offset res shift l c :
  cache_ok c -> 0 <= offset -> offset + zlen l < 2 ^ 64 -> leb_bytes l -> (length l <= fuel)%nat ->
  0 <= shift -> shift + 7 * (zlen l - 1) < 64 -> 0 <= res < 2 ^ shift ->
  bytes_at offset (zlen l) l -> readable offset (zlen l) ->
  exists c', leb128_loop mem_read fuel offset res shift c =
      (Ret ((res + leb_value l * 2 ^ shift) mod 2 ^ 64, default 0 (last l), shift + 7 * zlen l, offset + zlen l), c') /\
    cache_ok c'.
Proof using All.
  revert offset res shift l c. induction fuel as [|fuel IH]; intros offset res shift l c Hc Ho Hend Hl Hf Hs Hs' Hr Hb Hread.
  { destruct l; simpl in *; [done|lia]. }
  destruct l as [|b l]; [done|]. cbn [leb128_loop]. srun.
  pose proof (zlen_nonneg l) as Hlen. rewrite zlen_cons in *.
  pose proof (read_u8_spec offset c Hc Ho ltac:(lia)) as [Hc' Hu].
  destruct Hb as [_ Hb].
  assert (Hfirst : memory offset = Some b).
  { specialize (Hb 0 ltac:(lia)). rewrite zget_cons in Hb. simpl in Hb. by rewrite Z.add_0_r in Hb. }
  destruct (read_u8 mem_read offset c) as [[b'|e|] c1]; simpl in *; [| |done].
  2:{ exfalso. apply Hu, Hread. lia. }
  assert (b' = b) as -> by congruence.
  unfold uadd. rewrite (proj2 (Z.ltb_lt _ _)) by lia. srun.
  assert (Hbit : (Z.land b 128 =? 0) = (b <? 128) /\ 0 <= b < 256).
  { change 128 with (2 ^ 7) at 1. rewrite land_bit by lia.
    assert (0 <= b < 256) by (destruct l; simpl in Hl; lia). split; [|done].
    rewrite testbit_range by lia. change (2 ^ 7) with 128. destruct (Z.leb_spec 128 b), (Z.ltb_spec b 128); lia || done. }
  destruct Hbit as [Hbit Hb256]. rewrite Hbit. rewrite leb_step by lia.
  destruct l as [|b2 l].
  - simpl in Hl. rewrite (proj2 (Z.ltb_lt _ _)) by lia. exists c1. split; [|done]. srun.
    cbn [leb_value last default]. change (zlen (@nil Z)) with 0. rewrite Z.mul_0_r, !Z.add_0_r, Z.mul_1_r. done.
  - destruct Hl as [Hb128 Hl]. rewrite (proj2 (Z.ltb_ge _ _)) by lia.
    assert (Hlen1 : 1 <= zlen (b2 :: l)) by (rewrite zlen_cons; pose proof (zlen_nonneg l); lia).
    rewrite (proj2 (Z.leb_gt _ _)) by lia.
    assert (Hpow : 2 ^ (shift + 7) = 2 ^ shift * 128) by (rewrite Z.pow_add_r by lia; done).
    pose proof (Z.mod_pos_bound b 128 ltac:(lia)) as Hb7.
    assert (Hsum : 0 <= res + b mod 128 * 2 ^ shift < 2 ^ (shift + 7)) by nia.
    assert (Hle64 : 2 ^ (shift + 7) <= 2 ^ 64 * 128).
    { change (2 ^ 64 * 128) with (2 ^ 71). apply Z.pow_le_mono_r; lia. }
    destruct (decide (shift + 7 <= 64)) as [Hfit|Hno].
    2:{ exfalso. lia. }
    assert (Hle : 2 ^ (shift + 7) <= 2 ^ 64) by (apply Z.pow_le_mono_r; lia).
    rewrite (Z.mod_small (res + b mod 128 * 2 ^ shift)) by lia.
    destruct (IH (offset + 1) (res + b mod 128 * 2 ^ shift) (shift + 7) (b2 :: l) c1) as (c'&Hrun&Hc''); try done; try lia.
    { split; [done|]. intros k Hk. specialize (Hb (k + 1) ltac:(lia)). rewrite zget_cons in Hb.
      rewrite (proj2 (Z.eqb_neq _ _)) in Hb by lia. replace (k + 1 - 1) with k in Hb by lia.
      replace (offset + 1 + k) with (offset + (k + 1)) by lia. rewrite (proj2 (Z.ltb_ge _ _)) in Hb by lia. done. }
    { intros x Hx. apply Hread. lia. }
    exists c'. split; [|done]. rewrite Hrun. do 2 f_equal. rewrite Hpow.
    change (default 0 (last (b :: b2 :: l))) with (default 0 (last (b2 :: l))).
    change (leb_value (b :: b2 :: l)) with (b mod 128 + 128 * leb_value (b2 :: l)).
    f_equal; [f_equal; [f_equal|lia]|lia]. f_equal. lia.
Qed.

End Correct.

(** The encodings of the DWARF standard, of numbers of at most [7 * fuel] bits. *)
Fixpoint uleb_encode (fuel : nat) (v : Z) : list Z :=
  match fuel with
  | O => []
  | S fuel => if v <? 128 then [v] else (v mod 128 + 128) :: uleb_encode fuel (v / 128)
  end.
Fixpoint sleb_encode (fuel : nat) (v : Z) : list Z :=
  match fuel with
  | O => []
  | S fuel =>
      let b := v mod 128 in
      if ((v / 128 =? 0) && (b <? 64)) || ((v / 128 =? -1) && (64 <=? b)) then [b]
      else (b + 128) :: sleb_encode fuel (v / 128)
  end.
Definition uleb (v : Z) : list Z := uleb_encode 10 v.
Definition sleb (v : Z) : list Z := sleb_encode 10 v.

Lemma leb_bytes_cons b l : 128 <= b < 256 -> leb_bytes l -> leb_bytes (b :: l).
Proof. destruct l; simpl; [done|]. by split. Qed.

Lemma pow128_S n : 2 ^ (7 * Z.of_nat (S n)) = 128 * 2 ^ (7 * Z.of_nat n).
Proof.
  replace (7 * Z.of_nat (S n)) with (7 + 7 * Z.of_nat n) by lia. rewrite Z.pow_add_r by lia. done.
Qed.

Lemma uleb_encode_spec fuel v :
  0 <= v < 2 ^ (7 * Z.of_nat fuel) -> (0 < fuel)%nat ->
  leb_bytes (uleb_encode fuel v) /\ leb_value (uleb_encode fuel v) = v /\
  (length (uleb_encode fuel v) <= fuel)%nat.
Proof.
  revert v. induction fuel as [|fuel IH]; intros v Hv Hf; [lia|]. cbn [uleb_encode].
  rewrite pow128_S in Hv. destruct (Z.ltb_spec v 128).
  - simpl. rewrite Z.mod_small by lia. lia.
  - assert (Hdiv : 0 <= v / 128 < 2 ^ (7 * Z.of_nat fuel)).
    { split; [apply Z.div_pos; lia|]. apply Z.div_lt_upper_bound; lia. }
    destruct fuel as [|fuel]; [change (2 ^ (7 * Z.of_nat 0)) with 1 in Hdiv; assert (v / 128 = 0) by lia;
      apply Z.div_small_iff in H0; lia|].
    destruct (IH (v / 128) Hdiv ltac:(lia)) as (Hb&Hval&Hlen).
    pose proof (Z.mod_pos_bound v 128 ltac:(lia)).
    split; [apply leb_bytes_cons; [lia|done]|]. split; [|simpl in *; lia].
    cbn [leb_value]. rewrite Hval. rewrite (Z.add_mod _ 128) by lia. rewrite Z.mod_mod by lia.
    rewrite Z.mod_same, Z.add_0_r, Z.mod_mod by lia. pose proof (Z.div_mod v 128). lia.
Qed.

Lemma sleb_encode_spec fuel v :
  - 2 ^ (7 * Z.of_nat fuel - 1) <= v < 2 ^ (7 * Z.of_nat fuel - 1) -> (0 < fuel)%nat ->
  let l := sleb_encode fuel v in
  leb_bytes l /\ leb_value l = v mod 2 ^ (7 * zlen l) /\ (length l <= fuel)%nat /\
  - 2 ^ (7 * zlen l - 1) <= v < 2 ^ (7 * zlen l - 1) /\
  Z.testbit (default 0 (last l)) 6 = (v <? 0).
Proof.
  revert v. induction fuel as [|fuel IH]; intros v Hv Hf; [lia|]. cbn [sleb_encode].
  pose proof (Z.mod_pos_bound v 128 ltac:(lia)) as Hm. pose proof (Z.div_mod v 128 ltac:(lia)) as Hd.
  destruct (((v / 128 =? 0) && (v mod 128 <? 64)) || ((v / 128 =? -1) && (64 <=? v mod 128))) eqn:E.
  - cbn [leb_bytes leb_value length last default]. change (7 * zlen [v mod 128]) with 7.
    change (2 ^ (7 - 1)) with 64. change (2 ^ 7) with 128. rewrite Z.mod_mod by lia.
    split; [lia|]. split; [lia|]. split; [lia|]. split; [lia|].
    unfold id. rewrite testbit_range by lia. change (2 ^ 6) with 64.
    destruct (Z.leb_spec 64 (v mod 128)), (Z.ltb_spec v 0); try done; lia.
  - destruct fuel as [|fuel].
    { exfalso. change (2 ^ (7 * Z.of_nat 1 - 1)) with 64 in Hv. destruct (decide (0 <= v)).
      - assert (v / 128 = 0) by (apply Z.div_small; lia). lia.
      - assert (v / 128 = -1) by (symmetry; apply Z.div_unique with (v + 128); lia). lia. }
    assert (Hp : 2 ^ (7 * Z.of_nat (S (S fuel)) - 1) = 128 * 2 ^ (7 * Z.of_nat (S fuel) - 1)).
    { replace (7 * Z.of_nat (S (S fuel)) - 1) with (7 + (7 * Z.of_nat (S fuel) - 1)) by lia.
      rewrite Z.pow_add_r by lia. done. }
    destruct (IH (v / 128)) as (Hb&Hval&Hlen&Hrange&Hsign); [lia|lia|].
    set (l := sleb_encode (S fuel) (v / 128)) in *. clearbody l.
    assert (Hl : l <> []) by (by destruct l).
    assert (Hz : 0 < zlen l) by (unfold zlen; destruct l; simpl in *; [done|lia]).
    rewrite zlen_cons. split; [apply leb_bytes_cons; [lia|done]|]. split; [|split; [simpl; lia|split]].
    + cbn [leb_value]. rewrite Hval. replace (7 * (1 + zlen l)) with (7 + 7 * zlen l) by lia.
      rewrite Z.pow_add_r by lia. change (2 ^ 7) with 128.
      rewrite Z.rem_mul_r by (apply Z.pow_nonzero || lia; lia).
      f_equal. replace (v mod 128 + 128) with (v mod 128 + 1 * 128) by lia. by rewrite Z.mod_add, Z.mod_mod by lia.
    + replace (7 * (1 + zlen l) - 1) with (7 + (7 * zlen l - 1)) by lia. rewrite Z.pow_add_r by lia.
      change (2 ^ 7) with 128. lia.
    + destruct l as [|x l]; [done|]. change (default 0 (last (v mod 128 + 128 :: x :: l))) with (default 0 (last (x :: l))).
      rewrite Hsign. destruct (Z.ltb_spec (v / 128) 0), (Z.ltb_spec v 0); try done; lia.
Qed.

(** ** Null-terminated strings *)

Lemma position_zero_spec l i :
  match position_zero l i with
  | Some j => exists pre post, l = pre ++ 0 :: post /\ j = i + zlen pre /\ Forall (fun b => b <> 0) pre
  | None => Forall (fun b => b <> 0) l
  end.
Proof.
  revert i. induction l as [|b l IH]; intros i; simpl; [done|]. destruct (Z.eqb_spec b 0) as [->|Hb].
  - exists [], l. split; [done|]. rewrite zlen_nil. split; [lia|done].
  - specialize (IH (i + 1)). destruct (position_zero l (i + 1)) as [j|]; [|by constructor].
    destruct IH as (pre&post&->&->&Hpre). exists (b :: pre), post. split; [done|].
    rewrite zlen_cons. split; [lia|by constructor].
Qed.

Section Strings.
  Context (mem_read : Z -> Z -> result (list Z)) (memory : Z -> option Z) `{!MemLaws mem_read memory}.

(** The bytes at [a] up to a null byte or [limit] bytes. *)
Definition string_at (a limit : Z) (r : list Z * bool) : Prop :=
  bytes_at memory a (zlen r.1) r.1 /\ Forall (fun b => b <> 0) r.1 /\ zlen r.1 <= limit /\
  if r.2 then zlen r.1 < limit /\ memory (a + zlen r.1) = Some 0 else zlen r.1 = limit.

Lemma ldiff_pow2 x j : 0 <= j -> Z.ldiff x (2 ^ j - 1) = x - x mod 2 ^ j.
Proof.
  intros Hj. rewrite <- Z.ones_equiv || replace (2 ^ j - 1) with (Z.ones j) by (rewrite Z.ones_equiv; lia).
  rewrite Z.ldiff_ones_r by done. rewrite Z.shiftr_div_pow2, Z.shiftl_mul_pow2 by done.
  pose proof (Z.div_mod x (2 ^ j) ltac:(apply Z.pow_nonzero; lia)). lia.
Qed.

Lemma bytes_at_prefix a n l k : bytes_at memory a n (l ++ k) -> bytes_at memory a (zlen l) l.
Proof.
  intros [Hlen Hb]. rewrite zlen_app in Hlen. split; [done|]. intros i Hi.
  pose proof (zlen_nonneg k). specialize (Hb i ltac:(lia)). rewrite zget_app in Hb.
  by rewrite (proj2 (Z.ltb_lt _ _)) in Hb by lia.
Qed.

Lemma null_terminated_loop_spec fuel a offset limit j res c :
  cache_ok memory c -> 0 <= offset -> 7 <= j <= 12 -> zlen res <= limit ->
  offset + (limit - zlen res) + 4096 < 2 ^ 64 -> limit - zlen res <= Z.of_nat fuel ->
  offset = a + zlen res -> bytes_at memory a (zlen res) res -> Forall (fun b => b <> 0) res ->
  reads memory (string_at a limit) (readable memory a limit)
    (read_null_terminated_loop mem_read fuel offset limit (2 ^ j) res c).
Proof using All.
  revert offset j res c. induction fuel as [|fuel IH]; intros offset j res c Hc Ho Hj Hlen Hend Hf Heq Hb Hnz.
  { cbn [read_null_terminated_loop]. rewrite (proj2 (Z.ltb_ge _ _)) by lia. split; [done|].
    split; [done|]. split; [done|]. cbn. split; lia. }
  cbn [read_null_terminated_loop]. destruct (Z.ltb_spec (zlen res) limit) as [Hlt|Hge].
  2:{ split; [done|]. split; [done|]. split; [done|]. cbn. split; lia. }
  assert (Hpow : 128 <= 2 ^ j <= 4096).
  { split; [change 128 with (2 ^ 7)|change 4096 with (2 ^ 12)]; apply Z.pow_le_mono_r; lia. }
  pose proof (Z.mod_pos_bound offset (2 ^ j) ltac:(lia)) as Hm.
  pose proof (Z.mod_le offset (2 ^ j) Ho ltac:(lia)) as Hmle.
  rewrite ldiff_pow2 by lia. srun. unfold uadd. rewrite (proj2 (Z.ltb_lt _ _)) by lia. srun.
  unfold usub. rewrite (proj2 (Z.leb_le _ _)) by lia. srun.
  set (n := Z.min _ _). assert (Hn : 0 < n <= limit - zlen res /\ n <= 4096) by (unfold n; lia).
  pose proof (read_spec mem_read memory offset n c Hc Ho ltac:(lia) ltac:(lia)) as [Hc' Hr].
  destruct (read mem_read offset n c) as [[bytes|e|] c']; simpl in *; [|..|done].
  2:{ split; [done|]. intros Hread. apply Hr. intros x Hx. apply Hread. pose proof (zlen_nonneg res). lia. }
  pose proof (position_zero_spec bytes 0) as Hz. destruct Hr as [Hbl Hbb].
  assert (Hall : bytes_at memory a (zlen res + n) (res ++ bytes)).
  { apply bytes_at_app; [done|]. rewrite <- Heq. by split. }
  destruct (position_zero bytes 0) as [i|].
  - destruct Hz as (pre&post&->&->&Hpre). srun. split; [done|]. cbn. rewrite Z.add_0_l.
    assert (Htake : take (Z.to_nat (zlen pre)) (pre ++ 0 :: post) = pre).
    { unfold zlen. rewrite Nat2Z.id. by rewrite take_app_length. }
    rewrite Htake. rewrite zlen_app, zlen_cons in Hbl. pose proof (zlen_nonneg post). pose proof (zlen_nonneg pre).
    split; [|split; [by apply Forall_app|]].
    + rewrite app_assoc in Hall. cbn. by eapply bytes_at_prefix.
    + cbn. rewrite zlen_app. split; [lia|]. split; [lia|]. rewrite Z.add_assoc, <- Heq.
      rewrite <- Hbb by lia. rewrite zget_app, Z.ltb_irrefl, Z.sub_diag. by rewrite zget_cons.
  - unfold uadd. rewrite (proj2 (Z.ltb_lt (offset + n) (2 ^ 64))) by lia. srun.
    set (chunk' := if (n =? 2 ^ j) && (2 ^ j <? PAGE_SIZE) then Z.shiftl (2 ^ j) 1 else 2 ^ j).
    assert (exists j', 7 <= j' <= 12 /\ chunk' = 2 ^ j') as (j'&Hj'&Hchunk).
    { unfold chunk'. destruct (n =? 2 ^ j), (Z.ltb_spec (2 ^ j) PAGE_SIZE) as [Hsmall|]; simpl; try by exists j.
      exists (j + 1). rewrite Z.shiftl_mul_pow2, Z.pow_add_r by lia. split; [|done].
      destruct (decide (j = 12)) as [->|]; [unfold PAGE_SIZE in Hsmall; simpl in Hsmall; lia|lia]. }
    rewrite Hchunk. apply IH; rewrite ?zlen_app; try done; try lia.
    + by rewrite Hbl.
    + by apply Forall_app.
Qed.
End Strings.

(** ** Properties *)

Section Properties.
  Context (mem_read : Z -> Z -> result (list Z)) (memory : Z -> option Z) `{!MemLaws mem_read memory}.

(** C34. Reads through the cache: whatever page the cache holds and whatever
    pages the range crosses, a read gives exactly the bytes of the debuggee's
    memory at that address, never panics, and keeps the cache correct; it fails
    only if the range wraps around the address space or a page it touches is
    not mapped. *)
Theorem cached_read_correct offset n c :
  cache_ok memory c -> 0 <= offset -> 0 <= n ->
  reads memory (bytes_at memory offset n) (readable memory offset n /\ offset + n < 2 ^ 64)
    (read mem_read offset n c).
Proof using All.
  intros Hc Ho Hn. destruct (decide (offset + n < 2 ^ 64)) as [Hend|Hend].
  - destruct (read_spec mem_read memory offset n c Hc Ho Hn Hend) as [Hc' Hr]. split; [done|].
    destruct (read mem_read offset n c) as [[] ?]; simpl in *; tauto.
  - unfold read, read_uninit. srun. destruct (Z.eqb_spec n 0) as [->|Hn0].
    + split; [done|]. apply bytes_at_nil.
    + rewrite (proj2 (Z.ltb_lt _ _)) by (unfold U64_MAX; lia). srun. split; [done|]. cbn. lia.
Qed.

(** The slice that a successful cached read returns is only the part of the
    buffer in the last page: when the range crosses a page boundary the
    returned slice is shorter than the buffer, although the buffer is filled. *)
Theorem read_uninit_returns_tail offset n c :
  cache_ok memory c -> 0 <= offset -> 0 < n -> offset + n < 2 ^ 64 -> readable memory offset n ->
  exists buf tail c', read_uninit mem_read offset n c = (Ret (buf, tail), c') /\
    bytes_at memory offset n buf /\ zlen buf = n /\
    (zlen tail < n <-> page_of offset < page_of (offset + n - 1)).
Proof using All.
  intros Hc Ho Hn Hend Hr. destruct (read_uninit_spec mem_read memory offset n c Hc Ho ltac:(lia) Hend) as [_ Hs].
  destruct (read_uninit mem_read offset n c) as [[[buf tl]|e|] c']; simpl in Hs; [|tauto|done].
  destruct Hs as (Hb&pre&_&Htl). exists buf, tl, c'. split; [done|]. split; [done|]. split; [apply Hb|].
  rewrite Htl. pages.
Qed.

(** Variable-length integers: reading the DWARF encoding of any 64-bit
    unsigned or signed integer from the debuggee gives the integer back and
    moves the offset past it. *)
Theorem leb128_roundtrip offset v w c :
  cache_ok memory c -> 0 <= offset -> offset + 10 < 2 ^ 64 ->
  is_u64 v -> - 2 ^ 63 <= w < 2 ^ 63 ->
  (bytes_at memory offset (zlen (uleb v)) (uleb v) -> readable memory offset (zlen (uleb v)) ->
   exists c', eat_uleb128 mem_read offset c = (Ret (v, offset + zlen (uleb v)), c') /\ cache_ok memory c') /\
  (bytes_at memory offset (zlen (sleb w)) (sleb w) -> readable memory offset (zlen (sleb w)) ->
   exists c', eat_sleb128 mem_read offset c = (Ret (w, offset + zlen (sleb w)), c') /\ cache_ok memory c').
Proof using All.
  intros Hc Ho Hend Hv Hw. unfold is_u64 in Hv. split; intros Hb Hr.
  - destruct (uleb_encode_spec 10 v) as (Hl&Hval&Hlen); [change (7 * Z.of_nat 10) with 70; lia|lia|].
    fold (uleb v) in *. destruct (leb128_loop_spec mem_read memory 10 offset 0 0 (uleb v) c)
      as (c'&Hrun&Hc'); try done; try (unfold zlen in *; lia).
    exists c'. split; [|done]. unfold eat_uleb128, leb128_impl. srun. rewrite Hrun. srun.
    rewrite Hval. do 3 f_equal. change (2 ^ 0) with 1. rewrite Z.mod_small; lia.
  - destruct (sleb_encode_spec 10 w) as (Hl&Hval&Hlen&Hrange&Hsign); [change (7 * Z.of_nat 10 - 1) with 69; lia|lia|].
    fold (sleb w) in *. destruct (leb128_loop_spec mem_read memory 10 offset 0 0 (sleb w) c)
      as (c'&Hrun&Hc'); try done; try (unfold zlen in *; lia).
    exists c'. split; [|done]. unfold eat_sleb128, leb128_impl. srun. rewrite Hrun. srun.
    do 3 f_equal. rewrite Hval, Z.mul_1_r, !Z.add_0_l.
    assert (Hbit : (Z.land (default 0 (last (sleb w))) 64 =? 0) = negb (w <? 0)).
    { rewrite <- Hsign. by apply (land_bit _ 6). }
    rewrite Hbit, negb_involutive.
    assert (Hk : 1 <= zlen (sleb w) <= 10) by (unfold zlen in *; destruct (sleb w); simpl in *; [done|lia]).
    set (k := 7 * zlen (sleb w)) in *. assert (Hk7 : 7 <= k <= 70) by lia. clearbody k.
    assert (Hp : 2 ^ k = 2 * 2 ^ (k - 1)).
    { replace k with (1 + (k - 1)) at 1 by lia. rewrite Z.pow_add_r by lia. done. }
    destruct (Z.ltb_spec w 0) as [Hneg|Hpos].
    + assert (Hm : w mod 2 ^ k = w + 2 ^ k) by (symmetry; apply Z.mod_unique with (-1); lia).
      rewrite Hm. destruct (Z.ltb_spec k 64) as [Hk64|Hk64]; cbn [andb].
      * assert (Hp64 : 2 ^ 64 = 2 ^ (64 - k) * 2 ^ k) by (rewrite <- Z.pow_add_r by lia; f_equal; lia).
        assert (0 < 2 ^ (64 - k)) by (apply Z.pow_pos_nonneg; lia).
        assert (0 < 2 ^ k) by (apply Z.pow_pos_nonneg; lia).
        assert (Hw64 : wrap64 (Z.shiftl U64_MAX k) = (2 ^ (64 - k) - 1) * 2 ^ k).
        { unfold wrap64, U64_MAX. rewrite Z.shiftl_mul_pow2 by lia. symmetry.
          apply Z.mod_unique with (2 ^ k - 1); [left; nia|]. nia. }
        rewrite Hw64, Z.mod_small by nia. rewrite lor_disjoint by lia.
        unfold to_signed. change (2 ^ (64 - 1)) with (2 ^ 63). rewrite (proj2 (Z.ltb_ge _ _)) by nia. nia.
      * assert (Hm64 : (w + 2 ^ k) mod 2 ^ 64 = w + 2 ^ 64).
        { replace (2 ^ k) with (2 ^ (k - 64) * 2 ^ 64) by (rewrite <- Z.pow_add_r by lia; f_equal; lia).
          rewrite Z.mod_add by lia. symmetry. apply Z.mod_unique with (-1); lia. }
        rewrite Hm64. unfold to_signed. change (2 ^ (64 - 1)) with (2 ^ 63).
        rewrite (proj2 (Z.ltb_ge _ _)) by lia. lia.
    + rewrite (Z.mod_small w) by lia. rewrite Z.mod_small by lia. cbn [andb].
      unfold to_signed. change (2 ^ (64 - 1)) with (2 ^ 63). by rewrite (proj2 (Z.ltb_lt _ _)) by lia.
Qed.

(** Null-terminated strings: the result is the bytes of memory up to the
    first null byte or up to the limit, whichever comes first, and says which;
    the reader always stops, never panics, and fails only if a page of the
    range is not mapped. *)
Theorem read_null_terminated_correct offset limit c :
  cache_ok memory c -> 0 <= offset -> 0 <= limit -> offset + limit + PAGE_SIZE < 2 ^ 64 ->
  reads memory (string_at memory offset limit) (readable memory offset limit)
    (read_null_terminated mem_read offset limit c).
Proof using All.
  intros Hc Ho Hl Hend. unfold PAGE_SIZE in Hend. apply (null_terminated_loop_spec mem_read memory _ offset offset limit 7 []);
    rewrite ?zlen_nil; try done; try lia. apply bytes_at_nil.
Qed.
End Properties.

(** Four mapped pages, with the encodings of 624485 and -123456 across the end
    of the first and a string in the second. *)
Definition sample_bytes : list Z := uleb 624485 ++ sleb (-123456) ++ [110; 110; 100; 0].
Definition sample_byte (a : Z) : Z := default (a mod 256) (zget sample_bytes (a - 8190)).
Definition sample_memory (a : Z) : option Z :=
  if (4096 <=? a) && (a <? 20480) then Some (sample_byte a) else None.
Definition sample_read (a n : Z) : result (list Z) :=
  if n <? 0 then Fail (Code Internal)
  else if (n =? 0) || ((4096 <=? a) && (a + n <=? 20480))
  then Ret (map (fun k => sample_byte (a + k)) (seqZ 0 n)) else Fail (Code ProcessState).

#[export] Instance sample_laws : MemLaws sample_read sample_memory.
Proof.
  constructor.
  - intros a n l _ _. unfold sample_read. destruct (Z.ltb_spec n 0); [done|].
    destruct ((n =? 0) || ((4096 <=? a) && (a + n <=? 20480))) eqn:E; [|done]. intros [= <-]. split.
    + unfold zlen. rewrite length_map, length_seqZ. lia.
    + intros k Hk. rewrite zget_lookup by lia. rewrite list_lookup_fmap, lookup_seqZ_lt by lia. cbn.
      unfold sample_memory. rewrite (proj2 (Z.leb_le 4096 _)), (proj2 (Z.ltb_lt _ 20480)) by lia. simpl.
      do 2 f_equal. lia.
  - intros a n _ _. unfold sample_read. repeat case_match; done.
  - intros a n _ Hn Hall. unfold sample_read. rewrite (proj2 (Z.ltb_ge _ _)) by lia.
    destruct (Z.eqb_spec n 0) as [->|]; [by eexists|].
    pose proof (Hall 0 ltac:(lia)) as H0. pose proof (Hall (n - 1) ltac:(lia)) as H1.
    unfold sample_memory in H0, H1. replace ((4096 <=? a) && (a + n <=? 20480)) with true; [by eexists|].
    symmetry. destruct (_ && _) eqn:E0 in H0; [|done]. destruct (_ && _) eqn:E1 in H1; [|done]. lia.
  - intros a b. unfold sample_memory, sample_byte. case_match; [|done]. intros [= <-].
    destruct (zget sample_bytes (a - 8190)) as [b|] eqn:E; simpl.
    + apply zget_Some in E as [_ E]. apply list_elem_of_lookup_2 in E.
      assert (Hall : forallb (fun b => (0 <=? b) && (b <? 256)) sample_bytes = true) by reflexivity.
      rewrite forallb_forall in Hall. specialize (Hall b (proj1 (list_elem_of_In _ _) E)). unfold is_u8. lia.
    + apply Z.mod_pos_bound. lia.
Qed.

Definition empty_cache : CachedMemReader := new.
Lemma empty_cache_ok memory : cache_ok memory empty_cache.
Proof. by intros p. Qed.

Lemma sample_readable a n : 4096 <= a -> a + n <= 20480 -> readable sample_memory a n.
Proof.
  intros Ha Hn x Hx k Hk. unfold sample_memory. rewrite (proj2 (Z.leb_le 4096 _)), (proj2 (Z.ltb_lt _ 20480)) by pages.
  done.
Qed.
(** What the sample memory holds, checked byte by byte. *)
Lemma sample_holds a l :
  forallb (fun p => match sample_memory (a + p.1) with Some b => b =? p.2 | None => false end)
    (zip (seqZ 0 (zlen l)) l) = true -> bytes_at sample_memory a (zlen l) l.
Proof.
  intros Hall. split; [done|]. intros k Hk. rewrite forallb_forall in Hall.
  destruct (proj2 (zget_range l k) Hk) as [b Hb]. rewrite Hb. specialize (Hall (k, b)).
  apply zget_Some in Hb as [_ Hb]. cbn in Hall.
  assert (Hin : In (k, b) (zip (seqZ 0 (zlen l)) l)).
  { apply list_elem_of_In, list_elem_of_lookup. exists (Z.to_nat k). apply lookup_zip_Some.
    split; [|done]. rewrite lookup_seqZ_lt by lia. f_equal. lia. }
  specialize (Hall Hin). destruct (sample_memory (a + k)); [|done]. f_equal. lia.
Qed.

Lemma cached_read_correct_witness :
  (read sample_read 8190 9000 empty_cache).1 <> Panic /\
  exists buf c, read sample_read 8190 9000 empty_cache = (Ret buf, c) /\ bytes_at sample_memory 8190 9000 buf.
Proof.
  destruct (cached_read_correct sample_read sample_memory 8190 9000 empty_cache (empty_cache_ok _)) as [_ Hr]; [lia|lia|].
  destruct (read sample_read 8190 9000 empty_cache) as [[buf|e|] c]; simpl in *.
  - split; [done|]. by exists buf, c.
  - exfalso. apply Hr. split; [apply sample_readable; lia|lia].
  - done.
Defined.

Lemma read_uninit_returns_tail_witness :
  exists buf tail c, read_uninit sample_read 8190 12 empty_cache = (Ret (buf, tail), c) /\
    zlen buf = 12 /\ zlen tail < 12.
Proof.
  destruct (read_uninit_returns_tail sample_read sample_memory 8190 12 empty_cache (empty_cache_ok _))
    as (buf&tl&c&Hrun&_&Hlen&Htl); [lia|lia|lia|apply sample_readable; lia|].
  exists buf, tl, c. split; [exact Hrun|]. split; [exact Hlen|]. apply Htl. reflexivity.
Defined.

Lemma leb128_roundtrip_witness :
  exists c1 c2, eat_uleb128 sample_read 8190 empty_cache = (Ret (624485, 8193), c1) /\
    eat_sleb128 sample_read 8193 c1 = (Ret (-123456, 8196), c2).
Proof.
  destruct (leb128_roundtrip sample_read sample_memory 8190 624485 (-123456) empty_cache (empty_cache_ok _))
    as [Hu _]; [lia|lia|unfold is_u64; lia|lia|].
  destruct Hu as (c1&Hrun1&Hc1); [by apply sample_holds|by apply sample_readable|].
  destruct (leb128_roundtrip sample_read sample_memory 8193 624485 (-123456) c1 Hc1)
    as [_ Hs]; [lia|lia|unfold is_u64; lia|lia|].
  destruct Hs as (c2&Hrun2&_); [by apply sample_holds|by apply sample_readable|].
  exists c1, c2. split; [exact Hrun1|exact Hrun2].
Defined.

Lemma read_null_terminated_correct_witness :
  (read_null_terminated sample_read 8196 100 empty_cache).1 = Ret ([110; 110; 100], true) /\
  string_at sample_memory 8196 100 ([110; 110; 100], true).
Proof.
  destruct (read_null_terminated_correct sample_read sample_memory 8196 100 empty_cache (empty_cache_ok _))
    as [_ Hr]; [lia|lia|unfold PAGE_SIZE; lia|].
  assert (E : (read_null_terminated sample_read 8196 100 empty_cache).1 = Ret ([110; 110; 100], true))
    by (vm_compute; reflexivity).
  rewrite E in Hr. split; [exact E|exact Hr].
Defined.
