(* ===== verification/CoreDump.v ===== *)
(** The memory of a core dump (CoreDumpMemReader of src/elf.rs), and the readers
    of memory of src/procfs.rs that choose between a process, a core dump and a
    GDB stub. *)
From Stdlib Require Import ZArith Lia ZifyBool.
From stdpp Require Import base list.
From S2P Require Import Prelude Errors StateMonad Serial GdbRemote MemReader.
Open Scope Z_scope.

(** ** Core dumps *)

(** Of a file only its contents matter. *)
Inductive CoreDumpMemorySource :=
  | Zero
  | File (data : list Z) (offset : Z)
  | MissingFile.
Record CoreDumpMemoryRange := mkRange { start_address : Z; size : Z; source : CoreDumpMemorySource }.
Definition range_end (r : CoreDumpMemoryRange) : Z := start_address r + size r.

(** The bytes [skip..skip + n] of a range. *)
Definition read_source (r : CoreDumpMemoryRange) (skip n : Z) : result (list Z) :=
  match source r with
  | Zero => Ret (replicate (Z.to_nat n) 0)
  | File data offset =>
      start_offset ← uadd offset skip;
      if zlen data <? saturating_add start_offset n then Fail (Code MalformedExecutable)
      else zslice data start_offset (start_offset + n)
  | MissingFile => Fail (Code ProcessState)
  end.

(** The loop of [read_uninit]: [ranges] are those from [idx] on, [left] bytes
    from address [a] are still to be read. *)
Fixpoint read_ranges (ranges : list CoreDumpMemoryRange) (a left : Z) : result (list Z) :=
  if left <=? 0 then Ret []
  else
    match ranges with
    | [] => Fail (Code ProcessState)
    | r :: ranges =>
        if a <? start_address r then Fail (Code ProcessState)
        else
          end_ ← uadd (start_address r) (size r);
          _ ← rassert (a <? end_);
          let n := Z.min (end_ - a) left in
          bytes ← read_source r (a - start_address r) n;
          rest ← read_ranges ranges (a + n) (left - n);
          Ret (bytes ++ rest)
    end.
Definition core_read (ranges : list CoreDumpMemoryRange) (a n : Z) : result (list Z) :=
  read_ranges (drop (partition_point (fun r => range_end r <=? a) ranges) ranges) a n.

(** [read_best_effort]: what the buffer [buf] at [a] holds afterwards. *)
Fixpoint best_effort_loop (ranges : list CoreDumpMemoryRange) (a : Z) (buf : list Z) : partial (list Z) :=
  match ranges with
  | [] => Ret buf
  | r :: ranges =>
      top ← uadd a (zlen buf);
      if top <=? start_address r then Ret buf
      else
        match source r with
        | File data offset =>
            let start := if start_address r <? a then a - start_address r else 0 in
            let end_ := Z.min (Z.min (size r) (saturating_sub (zlen data) offset)) (top - start_address r) in
            if end_ <=? start then best_effort_loop ranges a buf
            else
              pos ← usub (start_address r + start) a;
              part ← zslice data (offset + start) (offset + end_);
              if pos + (end_ - start) <=? zlen buf then
                best_effort_loop ranges a
                  (take (Z.to_nat pos) buf ++ part ++ drop (Z.to_nat (pos + (end_ - start))) buf)
              else Panic
        | _ => best_effort_loop ranges a buf
        end
  end.
Definition read_best_effort (ranges : list CoreDumpMemoryRange) (a : Z) (buf : list Z) : partial (list Z) :=
  best_effort_loop (drop (partition_point (fun r => range_end r <=? a) ranges) ranges) a buf.

(** ** The readers *)

(** What the kernel's [process_vm_readv] returns. *)
Inductive VmRead := VmBytes (b : list Z) | VmFault | VmError (raw_os_error : Z).
Definition pid_read (vm : VmRead) (n : Z) : result (list Z) :=
  match vm with
  | VmFault => Fail (Code ProcessState)
  | VmError e => Fail (IO OtherKind (Some e))
  | VmBytes b => if zlen b =? n then Ret b else Fail (Code ProcessState)
  end.

(** [RemoteMemReader::read_uninit] on the connection; the lock is never poisoned. *)
Definition remote_read (tid a n : Z) : stm GdbRemote Error (list Z) := fun c =>
  if resume_in_flight c then (Fail (Code ProcessState), c)
  else
    let go c :=
      match read_mem a n c with
      | (Ret data, c) => (if zlen data =? n then Ret data else Fail (Code ProcessState), c)
      | (Fail _, c) => (Fail (Code ProcessState), c)
      | (Panic, c) => (Panic, c)
      end in
    if tid =? 0 then go c
    else
      match set_thread (tid mod 2 ^ 64) c with
      | (Ret _, c) => go c
      | (Fail _, c) => (Fail (Code ProcessState), c)
      | (Panic, c) => (Panic, c)
      end.

Inductive AnyReader :=
  | Invalid
  | Pid (process_vm_readv : Z -> Z -> VmRead)
  | Core (ranges : list CoreDumpMemoryRange)
  | Remote (tid : Z).
Definition check_valid (m : AnyReader) : result unit :=
  match m with Invalid => Fail (Code ProcessState) | _ => Ret tt end.
Definition any_read (m : AnyReader) (a n : Z) : stm GdbRemote Error (list Z) :=
  match m with
  | Invalid => sfail (Code ProcessState)
  | Pid vm => slift (pid_read (vm a n) n)
  | Core ranges => slift (core_read ranges a n)
  | Remote tid => remote_read tid a n
  end.
Definition any_read_u64 (m : AnyReader) (a : Z) : stm GdbRemote Error Z := b ← any_read m a 8; mret (le_value b).
Definition any_read_u8 (m : AnyReader) (a : Z) : stm GdbRemote Error Z := b ← any_read m a 1; sopt (zget b 0).

(** ** Correctness *)

(** Ranges in order, disjoint, not empty, within the address space. *)
Fixpoint ranges_ok (low : Z) (ranges : list CoreDumpMemoryRange) : Prop :=
  match ranges with
  | [] => True
  | r :: ranges => low <= start_address r /\ 0 < size r /\ range_end r < 2 ^ 64 /\
      match source r with File data offset => 0 <= offset /\ offset + size r < 2 ^ 64 /\ Forall is_u8 data | _ => True end /\
      ranges_ok (range_end r) ranges
  end.

(** The byte of memory at an address, and whether the dump has it. *)
Definition source_byte (r : CoreDumpMemoryRange) (k : Z) : option Z :=
  match source r with Zero => Some 0 | File data offset => zget data (offset + k) | MissingFile => None end.
Fixpoint core_byte (ranges : list CoreDumpMemoryRange) (a : Z) : option Z :=
  match ranges with
  | [] => None
  | r :: ranges => if (start_address r <=? a) && (a <? range_end r) then source_byte r (a - start_address r) else core_byte ranges a
  end.

Lemma core_byte_below low ranges a : ranges_ok low ranges -> a < low -> core_byte ranges a = None.
Proof.
  revert low. induction ranges as [|r ranges IH]; intros low Hok Ha; [done|]. destruct Hok as (H1&H2&_&_&H3). cbn [core_byte].
  rewrite (proj2 (Z.leb_gt (start_address r) a)) by lia. cbn [andb]. apply (IH (range_end r)); [done|]. unfold range_end. lia.
Qed.
Lemma core_byte_drop low ranges a :
  ranges_ok low ranges ->
  let rest := drop (partition_point (fun r => range_end r <=? a) ranges) ranges in
  core_byte rest a = core_byte ranges a /\ (forall x, a <= x -> core_byte rest x = core_byte ranges x) /\
  (exists low', ranges_ok low' rest) /\ match rest with [] => True | r :: _ => a < range_end r end.
Proof.
  intros Hok. cbv zeta. revert low Hok. induction ranges as [|r ranges IH]; intros low Hok; [repeat split; by exists low|].
  cbn [partition_point]. destruct Hok as (H1&H2&H3&H4&H5). destruct (Z.leb_spec (range_end r) a) as [Hle|Hgt].
  - cbn [drop]. destruct (IH _ H5) as (_&Hx&Hl&Hr).
    assert (Hgen : forall x, a <= x -> core_byte (drop (partition_point (fun r => range_end r <=? a) ranges) ranges) x = core_byte (r :: ranges) x).
    { intros x Hxa. rewrite Hx by done. cbn [core_byte]. by rewrite (proj2 (Z.ltb_ge x (range_end r))), andb_false_r by lia. }
    split; [by apply Hgen|]. split; [exact Hgen|]. by split.
  - cbn [drop]. split; [done|]. split; [done|]. split; [exists low; by repeat split|done].
Qed.

Lemma read_source_ok r skip n :
  0 <= skip -> 0 < n -> skip + n <= size r -> range_end r < 2 ^ 64 ->
  match source r with File data offset => 0 <= offset /\ offset + size r < 2 ^ 64 /\ Forall is_u8 data | _ => True end ->
  match read_source r skip n with
  | Ret l => zlen l = n /\ forall k, 0 <= k < n -> zget l k = source_byte r (skip + k)
  | Fail _ => exists k, 0 <= k < n /\ source_byte r (skip + k) = None
  | Panic => False
  end.
Proof.
  intros Hs Hn Hle Hend Hsrc. unfold read_source, source_byte. destruct (source r) as [|data offset|].
  - assert (Hl : zlen (replicate (Z.to_nat n) 0) = n) by (unfold zlen; rewrite length_replicate; lia).
    split; [done|]. intros k Hk. rewrite zget_lookup by lia. apply lookup_replicate_2. lia.
  - destruct Hsrc as (Ho&Hos&_). unfold uadd. rewrite (proj2 (Z.ltb_lt _ (2 ^ 64))) by lia. cbn [mbind outcome_bind].
    unfold saturating_add. rewrite Z.min_r by (unfold U64_MAX; lia). destruct (Z.ltb_spec (zlen data) (offset + skip + n)).
    + exists (n - 1). split; [lia|]. destruct (zget data (offset + (skip + (n - 1)))) eqn:E; [|done].
      assert (0 <= offset + (skip + (n - 1)) < zlen data) by (apply zget_range; by eexists). lia.
    + rewrite zslice_ok by lia. replace (offset + skip + n - (offset + skip)) with n by lia. split.
      * unfold zlen in *. rewrite length_take, length_drop. lia.
      * intros k Hk. rewrite zget_take_drop by lia. f_equal. lia.
  - exists 0. split; [lia|done].
Qed.

Lemma read_ranges_ok low ranges a left :
  ranges_ok low ranges -> match ranges with [] => True | r :: _ => a < range_end r end -> 0 <= left ->
  match read_ranges ranges a left with
  | Ret l => zlen l = left /\ forall k, 0 <= k < left -> zget l k = core_byte ranges (a + k)
  | Fail _ => exists k, 0 <= k < left /\ core_byte ranges (a + k) = None
  | Panic => False
  end.
Proof.
  revert low a left. induction ranges as [|r ranges IH]; intros low a left Hok Ha Hleft; cbn [read_ranges].
  - destruct (Z.leb_spec left 0); [split; [rewrite zlen_nil; lia|lia]|]. exists 0. split; [lia|done].
  - destruct (Z.leb_spec left 0); [split; [rewrite zlen_nil; lia|lia]|]. destruct Hok as (H1&H2&H3&H4&H5).
    destruct (Z.ltb_spec a (start_address r)) as [Hlt|Hge].
    + exists 0. split; [lia|]. rewrite Z.add_0_r. apply (core_byte_below (start_address r)); [by repeat split|done].
    + unfold range_end in H3, Ha. unfold uadd. rewrite (proj2 (Z.ltb_lt _ (2 ^ 64))) by lia. cbn [mbind outcome_bind].
      rewrite (proj2 (Z.ltb_lt a _)) by lia. cbn [rassert mbind outcome_bind].
      set (n := Z.min (start_address r + size r - a) left).
      pose proof (read_source_ok r (a - start_address r) n ltac:(lia) ltac:(lia) ltac:(lia) H3 H4) as Hsrc.
      assert (Hin : forall k, 0 <= k < n -> core_byte (r :: ranges) (a + k) = source_byte r (a - start_address r + k)).
      { intros k Hk. cbn [core_byte]. unfold range_end.
        rewrite (proj2 (Z.leb_le (start_address r) _)), (proj2 (Z.ltb_lt (a + k) _)) by lia. cbn [andb]. f_equal. lia. }
      destruct (read_source r (a - start_address r) n) as [bytes|e|]; [|destruct Hsrc as (k&Hk&Hn); exists k; split; [lia|by rewrite Hin]|done].
      cbn [mbind outcome_bind]. destruct Hsrc as [Hbl Hbv].
      assert (Hout : forall x, start_address r + size r <= x -> core_byte (r :: ranges) x = core_byte ranges x).
      { intros x Hx. cbn [core_byte]. unfold range_end. by rewrite (proj2 (Z.ltb_ge x _)), andb_false_r by lia. }
      assert (Hrest : left - n <= 0 \/ a + n = start_address r + size r) by lia.
      assert (Hrec : match read_ranges ranges (a + n) (left - n) with
        | Ret l => zlen l = left - n /\ forall k, 0 <= k < left - n -> zget l k = core_byte ranges (a + n + k)
        | Fail _ => exists k, 0 <= k < left - n /\ core_byte ranges (a + n + k) = None
        | Panic => False end).
      { destruct Hrest as [Hz|Hn'].
        - assert (Hrr : read_ranges ranges (a + n) (left - n) = Ret []) by (destruct ranges; cbn [read_ranges]; by rewrite (proj2 (Z.leb_le _ 0))).
          rewrite Hrr, zlen_nil. split; lia.
        - apply (IH (range_end r)); [done| |lia]. destruct ranges as [|r2 ranges]; [done|].
          destruct H5 as (Hr1&Hr2&_). unfold range_end in *. lia. }
      destruct (read_ranges ranges (a + n) (left - n)) as [rest|e|]; [| |done]; cbn [mbind outcome_bind].
      * destruct Hrec as [Hrl Hrv]. split; [rewrite zlen_app; lia|]. intros k Hk. rewrite zget_app.
        destruct (Z.ltb_spec k (zlen bytes)); [rewrite Hbv by lia; symmetry; apply Hin; lia|].
        rewrite Hrv by lia. rewrite Hout by lia. f_equal. lia.
      * destruct Hrec as (k&Hk&Hn). exists (n + k). split; [lia|]. rewrite Hout by lia. by replace (a + (n + k)) with (a + n + k) by lia.
Qed.

Lemma source_byte_u8 r k b :
  match source r with File data offset => 0 <= offset /\ offset + size r < 2 ^ 64 /\ Forall is_u8 data | _ => True end ->
  source_byte r k = Some b -> is_u8 b.
Proof.
  unfold source_byte. destruct (source r) as [|data offset|]; [intros _ [= <-]; unfold is_u8; lia| |done].
  intros (_&_&Hd) Hz. apply zget_Some in Hz as [_ Hz]. rewrite Forall_lookup in Hd. by eapply Hd.
Qed.

Lemma core_read_ok ranges a n : ranges_ok 0 ranges -> 0 <= n ->
  match core_read ranges a n with
  | Ret l => bytes_at (core_byte ranges) a n l
  | Fail _ => exists k, 0 <= k < n /\ core_byte ranges (a + k) = None
  | Panic => False
  end.
Proof.
  intros Hok Hn. destruct (core_byte_drop 0 ranges a Hok) as (_&Hx&(low&Hl)&Hr). unfold core_read.
  pose proof (read_ranges_ok low _ a n Hl Hr Hn) as H. destruct (read_ranges _ a n) as [l|e|]; [| |done].
  - destruct H as [H1 H2]. split; [done|]. intros k Hk. rewrite H2 by done. apply Hx. lia.
  - destruct H as (k&Hk&Hnone). exists k. split; [done|]. rewrite <- Hx by lia. done.
Qed.

(** A core dump with well-formed ranges is a memory that can be read through the cache. *)
#[export] Instance core_laws ranges (Hok : ranges_ok 0 ranges) : MemLaws (core_read ranges) (core_byte ranges).
Proof.
  constructor.
  - intros a n l _ Hn Hr. pose proof (core_read_ok ranges a n Hok Hn) as H. by rewrite Hr in H.
  - intros a n _ Hn Hr. pose proof (core_read_ok ranges a n Hok Hn) as H. by rewrite Hr in H.
  - intros a n _ Hn Hall. pose proof (core_read_ok ranges a n Hok Hn) as H.
    destruct (core_read ranges a n) as [l|e|]; [by exists l| |done].
    destruct H as (k&Hk&Hnone). exfalso. by apply (Hall k Hk).
  - intros a b. revert Hok. generalize 0. induction ranges as [|r ranges IH]; intros low Hok; [done|].
    destruct Hok as (_&_&_&H4&H5). cbn [core_byte]. destruct (_ && _); [by apply source_byte_u8|by apply (IH (range_end r))].
Qed.

(** ** Best effort *)

(** The byte that a file gives for an address. *)
Definition file_byte (r : CoreDumpMemoryRange) (k : Z) : option Z :=
  match source r with File data offset => zget data (offset + k) | _ => None end.
Fixpoint best_byte (ranges : list CoreDumpMemoryRange) (a : Z) : option Z :=
  match ranges with
  | [] => None
  | r :: ranges => if (start_address r <=? a) && (a <? range_end r) then file_byte r (a - start_address r) else best_byte ranges a
  end.
Lemma best_byte_below low ranges a : ranges_ok low ranges -> a < low -> best_byte ranges a = None.
Proof.
  revert low. induction ranges as [|r ranges IH]; intros low Hok Ha; [done|]. destruct Hok as (H1&H2&_&_&H3). cbn [best_byte].
  rewrite (proj2 (Z.leb_gt (start_address r) a)) by lia. cbn [andb]. apply (IH (range_end r)); [done|]. unfold range_end. lia.
Qed.

Lemma zget_splice (buf part : list Z) pos k :
  0 <= pos -> pos + zlen part <= zlen buf -> 0 <= k ->
  zget (take (Z.to_nat pos) buf ++ part ++ drop (Z.to_nat (pos + zlen part)) buf) k =
    if (pos <=? k) && (k <? pos + zlen part) then zget part (k - pos) else zget buf k.
Proof.
  intros Hp Hle Hk. assert (Ht : zlen (take (Z.to_nat pos) buf) = pos) by (unfold zlen in *; rewrite length_take; lia).
  rewrite zget_app, Ht. destruct (Z.ltb_spec k pos).
  - rewrite (proj2 (Z.leb_gt pos k)) by lia. cbn [andb]. rewrite !zget_lookup by lia. apply lookup_take_lt. lia.
  - rewrite (proj2 (Z.leb_le pos k)) by lia. cbn [andb]. rewrite zget_app.
    destruct (Z.ltb_spec (k - pos) (zlen part)).
    + by rewrite (proj2 (Z.ltb_lt k _)) by lia.
    + rewrite (proj2 (Z.ltb_ge k _)) by lia. rewrite !zget_lookup by lia. rewrite lookup_drop. pose proof (zlen_nonneg part). f_equal. lia.
Qed.
Lemma zlen_splice (buf part : list Z) pos :
  0 <= pos -> pos + zlen part <= zlen buf ->
  zlen (take (Z.to_nat pos) buf ++ part ++ drop (Z.to_nat (pos + zlen part)) buf) = zlen buf.
Proof. intros Hp Hle. unfold zlen in *. rewrite !length_app, length_take, length_drop. lia. Qed.

Definition filled (ranges : list CoreDumpMemoryRange) (a : Z) (buf buf' : list Z) : Prop :=
  zlen buf' = zlen buf /\ forall k, 0 <= k < zlen buf ->
    zget buf' k = match best_byte ranges (a + k) with Some b => Some b | None => zget buf k end.

Lemma best_effort_ok low ranges a buf :
  ranges_ok low ranges -> a + zlen buf < 2 ^ 64 -> match ranges with [] => True | r :: _ => a < range_end r end ->
  exists buf', best_effort_loop ranges a buf = Ret buf' /\ filled ranges a buf buf'.
Proof.
  revert low buf. induction ranges as [|r ranges IH]; intros low buf Hok Htop Ha; cbn [best_effort_loop]; [by exists buf|].
  unfold uadd at 1. rewrite (proj2 (Z.ltb_lt _ _) Htop). cbn [mbind outcome_bind].
  pose proof Hok as (H1&H2&H3&H4&H5). unfold range_end in Ha.
  destruct (Z.leb_spec (a + zlen buf) (start_address r)) as [Hbrk|Hgo].
  { exists buf. split; [done|]. split; [done|]. intros k Hk. rewrite (best_byte_below (start_address r)); [done| |lia]. by repeat split. }
  assert (Hnext : match ranges with [] => True | r :: _ => a < range_end r end).
  { destruct ranges as [|r2 ranges]; [done|]. destruct H5 as (?&?&_). unfold range_end in *. lia. }
  assert (Hskip : forall buf1, zlen buf1 = zlen buf ->
    (forall k, 0 <= k < zlen buf -> zget buf1 k =
       if (start_address r <=? a + k) && (a + k <? range_end r) then
         match file_byte r (a + k - start_address r) with Some b => Some b | None => zget buf k end
       else zget buf k) ->
    exists buf', best_effort_loop ranges a buf1 = Ret buf' /\ filled (r :: ranges) a buf buf').
  { intros buf1 Hl1 Hb1. destruct (IH (range_end r) buf1 H5 ltac:(by rewrite Hl1) Hnext) as (buf'&Hr&Hl'&Hf). exists buf'. split; [done|].
    split; [lia|]. intros k Hk. rewrite Hf, Hb1 by lia. cbn [best_byte].
    destruct ((start_address r <=? a + k) && (a + k <? range_end r)) eqn:E; [|done].
    rewrite (best_byte_below (range_end r)) by (done || lia). done. }
  assert (Hnone : (forall k, file_byte r k = None) -> exists buf', best_effort_loop ranges a buf = Ret buf' /\ filled (r :: ranges) a buf buf').
  { intros Hn. apply Hskip; [done|]. intros k Hk. rewrite Hn. by destruct (_ && _). }
  unfold file_byte in *. destruct (source r) as [|data offset|]; [by apply Hnone| |by apply Hnone].
  set (start := if start_address r <? a then a - start_address r else 0).
  assert (Hstart : 0 <= start /\ start_address r + start = Z.max a (start_address r)) by (subst start; destruct (Z.ltb_spec (start_address r) a); lia).
  set (end_ := Z.min _ _). destruct H4 as (Ho&_&_). pose proof (zlen_nonneg data).
  assert (Hend : end_ = Z.min (Z.min (size r) (Z.max 0 (zlen data - offset))) (a + zlen buf - start_address r)) by done.
  assert (Hget : forall k, zget data (offset + k) = None \/ offset + k < zlen data).
  { intros k. destruct (zget data (offset + k)) eqn:E; [|by left]. right.
    assert (0 <= offset + k < zlen data) by (apply zget_range; by eexists). lia. }
  unfold range_end in *. destruct (Z.leb_spec end_ start) as [Hempty|Hsome].
  - apply Hskip; [done|]. intros k Hk. destruct (_ && _) eqn:E; [|done].
    destruct (Hget (a + k - start_address r)) as [->|Hlt]; [done|]. lia.
  - unfold usub. rewrite (proj2 (Z.leb_le a _)) by lia. cbn [mbind outcome_bind].
    set (pos := start_address r + start - a). rewrite zslice_ok by lia. cbn [mbind outcome_bind].
    set (part := take _ (drop _ data)).
    assert (Hpl : zlen part = end_ - start) by (subst part; unfold zlen in *; rewrite length_take, length_drop; lia).
    rewrite <- Hpl. rewrite (proj2 (Z.leb_le _ (zlen buf))) by lia. apply Hskip; [apply zlen_splice; lia|].
    intros k Hk. rewrite zget_splice by lia.
    destruct ((start_address r <=? a + k) && (a + k <? start_address r + size r)) eqn:E.
    + destruct ((pos <=? k) && (k <? pos + zlen part)) eqn:E2.
      * subst part. replace (offset + end_ - (offset + start)) with (end_ - start) by lia. rewrite zget_take_drop by lia.
        replace (offset + start + (k - pos)) with (offset + (a + k - start_address r)) by lia.
        destruct (proj2 (zget_range data (offset + (a + k - start_address r))) ltac:(lia)) as [b Hb]. by rewrite Hb.
      * destruct (Hget (a + k - start_address r)) as [->|Hlt]; [done|]. lia.
    + destruct ((pos <=? k) && (k <? pos + zlen part)) eqn:E2; [lia|done].
Qed.

(** C37. Reading a core dump: with ranges in order, a read gives exactly the bytes
    of the dump at those addresses (zeros for pages the kernel left out, the
    file's bytes for mapped files), fails exactly when one of them is missing,
    and never panics, directly or through the page cache; the best-effort read
    fills the bytes that files have and leaves the others. *)
Theorem core_dump_read_correct ranges a n buf c :
  ranges_ok 0 ranges -> 0 <= a -> 0 <= n -> a + n < 2 ^ 64 -> a + zlen buf < 2 ^ 64 -> cache_ok (core_byte ranges) c ->
  match core_read ranges a n with
  | Ret l => bytes_at (core_byte ranges) a n l
  | Fail _ => exists k, 0 <= k < n /\ core_byte ranges (a + k) = None
  | Panic => False
  end /\
  reads (core_byte ranges) (bytes_at (core_byte ranges) a n) (readable (core_byte ranges) a n) (read (core_read ranges) a n c) /\
  exists buf', read_best_effort ranges a buf = Ret buf' /\ filled ranges a buf buf'.
Proof.
  intros Hok Ha Hn Hend Htop Hc. split; [by apply core_read_ok|]. split.
  - pose proof (core_laws ranges Hok). by apply read_spec.
  - destruct (core_byte_drop 0 ranges a Hok) as (_&_&(low&Hl)&Hr).
    destruct (best_effort_ok low _ a buf Hl Htop Hr) as (buf'&Hrun&Hlen&Hf). exists buf'. split; [exact Hrun|]. split; [done|].
    intros k Hk. rewrite Hf by done. clear Hrun Hlen Hf Hl Hr low Hc.
    assert (Hd : forall low, ranges_ok low ranges ->
      best_byte (drop (partition_point (fun r => range_end r <=? a) ranges) ranges) (a + k) = best_byte ranges (a + k)).
    { clear Hok. induction ranges as [|r ranges IH]; intros low Hok; [done|]. cbn [partition_point].
      destruct Hok as (_&_&_&_&H5). destruct (Z.leb_spec (range_end r) a); [|done]. cbn [drop]. rewrite (IH _ H5).
      cbn [best_byte]. by rewrite (proj2 (Z.ltb_ge (a + k) (range_end r))), andb_false_r by lia. }
    by rewrite (Hd 0 Hok).
Qed.

(** A dump with a page of a file and an untouched page. *)
Definition sample_dump : list CoreDumpMemoryRange :=
  [mkRange 4096 8 (File [9; 1; 2; 3; 4; 5; 6; 7; 8] 1); mkRange 4104 8 Zero; mkRange 8192 4 MissingFile].

Lemma core_dump_read_correct_witness :
  bytes_at (core_byte sample_dump) 4100 6 [5; 6; 7; 8; 0; 0] /\
  read_best_effort sample_dump 4100 [50; 51; 52; 53; 54] = Ret [5; 6; 7; 8; 54].
Proof.
  assert (Hok : ranges_ok 0 sample_dump).
  { unfold sample_dump, range_end. cbn [ranges_ok start_address size source range_end].
    repeat match goal with |- _ /\ _ => split | |- Forall _ _ => solve_bytes | |- _ => exact I || (unfold range_end; cbn; lia) end. }
  destruct (core_dump_read_correct sample_dump 4100 6 [50; 51; 52; 53; 54] MemReader.new Hok) as (H&_&buf'&Hb&_); [done..|by intros p|].
  split; [|vm_compute; reflexivity].
  change (core_read sample_dump 4100 6) with (Ret (E:=Error) [5; 6; 7; 8; 0; 0]) in H. exact H.
Defined.
