(* ===== verification/MemMaps.v ===== *)
(** Memory maps of a process (src/procfs.rs): parsing /proc/pid/maps, finding
    the binaries among the mapped files, the map that holds an address, and the
    translation between addresses in a binary and in the process. *)
From Stdlib Require Import ZArith Lia String.
From stdpp Require Import base list.
From S2P Require Import Prelude RustStr RustText Errors BreakpointData.
Open Scope Z_scope.

(** ** Data *)

#[export] Instance SpecialSegmentId_eq_dec : EqDecision SpecialSegmentId.
Proof. solve_decision. Defined.
#[export] Instance BinaryLocator_eq_dec : EqDecision BinaryLocator.
Proof. solve_decision. Defined.

(** The order of [SpecialSegmentId], and the derived one of [BinaryLocator]. *)
Definition segment_key (s : SpecialSegmentId) : list Z :=
  match s with NoSegment => [0; 0; 0] | Vdso a b => [1; a; b] end.
Fixpoint lex_compare (a b : list Z) : comparison :=
  match a, b with
  | [], [] => Eq
  | [], _ :: _ => Lt
  | _ :: _, [] => Gt
  | x :: a, y :: b => match x ?= y with Eq => lex_compare a b | c => c end
  end.
Definition segment_compare (a b : SpecialSegmentId) : comparison := lex_compare (segment_key a) (segment_key b).
Definition locator_compare (a b : BinaryLocator) : comparison :=
  match lex_compare (path a) (path b) with
  | Eq => match inode a ?= inode b with Eq => segment_compare (special a) (special b) | c => c end
  | c => c
  end.
Definition is_none (s : SpecialSegmentId) : bool := match s with NoSegment => true | Vdso _ _ => false end.

(** Permissions as a mask of five bits. *)
Definition READ : Z := 1.
Definition WRITE : Z := 2.
Definition EXECUTE : Z := 4.
Definition SHARED : Z := 8.
Definition PRIVATE : Z := 16.
Definition has_perm (perms p : Z) : bool := Z.land perms p =? p.

Record MemMapInfo := mkMap {
  start : Z; len : Z; perms : Z; offset : Z; map_inode : Z; map_path : option (list Z);
  binary_locator : option BinaryLocator; binary_id : option Z; elf_seen : bool
}.
Definition set_locator (l : option BinaryLocator) (m : MemMapInfo) : MemMapInfo :=
  mkMap (start m) (len m) (perms m) (offset m) (map_inode m) (map_path m) l (binary_id m) (elf_seen m).

(** ** Parsing *)

(** [s.splitn(2, c)]: the first piece, and the rest if there is a separator. *)
Definition splitn2 (c : Z) (s : list Z) : list Z * option (list Z) :=
  match split_once c s with Some (a, b) => (a, Some b) | None => (s, None) end.
(** A field of the line, and what follows it. *)
Definition field (s : list Z) : list Z * option (list Z) := splitn2 32 (trim_start s).
Definition more (o : option (list Z)) : result (list Z) :=
  match o with Some s => Ret s | None => Fail (Code Format) end.
(** The error conversion of the integer parsers. *)
Definition parsed (o : option Z) : result Z :=
  match o with Some n => Ret n | None => Fail (Code Format) end.

Definition parse_perm (acc ch : Z) : Z :=
  if ch =? 114 then Z.lor acc READ
  else if ch =? 119 then Z.lor acc WRITE
  else if ch =? 120 then Z.lor acc EXECUTE
  else if ch =? 115 then Z.lor acc SHARED
  else if ch =? 112 then Z.lor acc PRIVATE
  else acc.

Definition parse_line (line : list Z) : result MemMapInfo :=
  let '(range, rest) := field line in
  rest ← more rest;
  let '(start, end_) := splitn2 45 range in
  end_ ← more end_;
  start ← parsed (from_str_radix_16 64 start);
  end_ ← parsed (from_str_radix_16 64 end_);
  let '(perms, rest) := field rest in
  rest ← more rest;
  let permissions := foldl parse_perm 0 perms in
  let '(offset, rest) := field rest in
  rest ← more rest;
  offset ← parsed (from_str_radix_16 64 offset);
  let '(_, rest) := field rest in
  rest ← more rest;
  let '(inode, rest) := field rest in
  inode ← parsed (parse_uint 64 inode);
  let path := match rest with
              | None => None
              | Some p => match trim_start p with [] => None | p => Some p end
              end in
  len ← usub end_ start;
  Ret (mkMap start len permissions offset inode path None None false).

Fixpoint parse_lines (lines : list (list Z)) : result (list MemMapInfo) :=
  match lines with
  | [] => Ret []
  | l :: lines => m ← parse_line l; ms ← parse_lines lines; Ret (m :: ms)
  end.
(** [sort_by_key(|m| m.start)], stable. *)
Fixpoint insert_by {A} (key : A -> Z) (x : A) (l : list A) : list A :=
  match l with
  | [] => [x]
  | y :: l' => if key x <=? key y then x :: l else y :: insert_by key x l'
  end.
Definition sort_by {A} (key : A -> Z) (l : list A) : list A := foldr (insert_by key) [] l.

(** ** Binaries *)

Definition file_locator (pid : Z) (m : MemMapInfo) : partial (option BinaryLocator) :=
  match map_path m with
  | Some p =>
      if bytes_eqb p (str "[vdso]") && has_perm (perms m) EXECUTE
      then
        end_ ← uadd (start m) (len m);
        Ret (Some (mkBinaryLocator p (pid mod 2 ^ 64) (Vdso (start m) end_)))
      else if negb (bool_decide (p = [])) && negb (starts_with (str "[") p)
      then
        let path := match strip_suffix (str " (deleted)") p with Some q => q | None => p end in
        Ret (Some (mkBinaryLocator path (map_inode m) NoSegment))
      else Ret (binary_locator m)
  | None => Ret (binary_locator m)
  end.
Fixpoint assign_locators (pid : Z) (maps : list MemMapInfo) : partial (list MemMapInfo) :=
  match maps with
  | [] => Ret []
  | m :: maps => l ← file_locator pid m; ms ← assign_locators pid maps; Ret (set_locator l m :: ms)
  end.
Definition executable_locator (m : MemMapInfo) : option BinaryLocator :=
  if has_perm (perms m) EXECUTE then binary_locator m else None.
Definition unset_data_file (executables : list BinaryLocator) (m : MemMapInfo) : MemMapInfo :=
  match binary_locator m with
  | Some id => if bool_decide (id ∈ executables) then m else set_locator None m
  | None => m
  end.
Definition detect_executables (pid : Z) (maps : list MemMapInfo) : partial (list MemMapInfo) :=
  maps ← assign_locators pid maps;
  let executables := omap executable_locator maps in
  Ret (map (unset_data_file executables) maps).

Definition read_proc_maps (pid : Z) (lines : list (list Z)) : result (list MemMapInfo) :=
  ms ← parse_lines lines; widen (detect_executables pid (sort_by start ms)).

(** [list_binaries]: sorted by locator (stably), duplicates dropped, sorted back. *)
Fixpoint insert_locator (x : Z * BinaryLocator) (l : list (Z * BinaryLocator)) : list (Z * BinaryLocator) :=
  match l with
  | [] => [x]
  | y :: l' => match locator_compare x.2 y.2 with Gt => y :: insert_locator x l' | _ => x :: l end
  end.
Definition sort_locators (l : list (Z * BinaryLocator)) : list (Z * BinaryLocator) := foldr insert_locator [] l.
Fixpoint dedup_from (last : BinaryLocator) (l : list (Z * BinaryLocator)) : list (Z * BinaryLocator) :=
  match l with
  | [] => []
  | x :: l => if bool_decide (x.2 = last) then dedup_from last l else x :: dedup_from x.2 l
  end.
Definition dedup (l : list (Z * BinaryLocator)) : list (Z * BinaryLocator) :=
  match l with [] => [] | x :: l => x :: dedup_from x.2 l end.
Definition indexed_locators (maps : list MemMapInfo) : list (Z * BinaryLocator) :=
  omap (fun p => match binary_locator p.2 with Some l => Some (p.1, l) | None => None end)
    (imap (fun i m => (Z.of_nat i, m)) maps).
Definition list_binaries (maps : list MemMapInfo) : list BinaryLocator :=
  map snd (sort_by fst (dedup (sort_locators (indexed_locators maps)))).

(** The map that holds an address. The sum is the end of the map as the parser
    read it, which does not overflow. *)
Definition addr_to_map (maps : list MemMapInfo) (addr : Z) : option MemMapInfo :=
  let idx := partition_point (fun m => start m + len m <=? addr) maps in
  match maps !! idx with
  | Some m => if start m <=? addr then Some m else None
  | None => None
  end.

(** ** Addresses in a binary and in the process *)

(** A section of an ELF file, and the entries (offset, end, index) of the file's
    index of sections by offset. *)
Record ElfSection := mkSection { section_type : Z; flags : Z; address : Z; s_offset : Z }.
Record ElfSections := mkElf { sections : list ElfSection; section_by_offset : list (Z * Z * Z) }.
Definition SHT_PROGBITS : Z := 1.
Definition SHF_EXECINSTR : Z := Z.shiftl 1 2.

Record AddrMap := mkAddrMap { diff : Z; known : bool; consistent : bool }.
Definition AddrMap_default : AddrMap := mkAddrMap 0 false true.

(** One turn of the loop of [update]. *)
Definition update_section (m : MemMapInfo) (s : ElfSection) (a : AddrMap) : AddrMap :=
  if negb (section_type s =? SHT_PROGBITS) || (Z.land (flags s) SHF_EXECINSTR =? 0) then a
  else
    let d := wrapping_sub (wrapping_sub (start m) (offset m)) (wrapping_sub (address s) (s_offset s)) in
    if negb (known a) then mkAddrMap d true (consistent a)
    else if negb (d =? diff a) && consistent a then mkAddrMap (diff a) (known a) false
    else a.
Fixpoint update_loop (m : MemMapInfo) (elf : ElfSections) (entries : list (Z * Z * Z)) (a : AddrMap) : partial AddrMap :=
  match entries with
  | [] => Ret a
  | (_, end_, i) :: entries =>
      map_end ← uadd (offset m) (len m);
      if end_ <=? map_end then
        s ← lift_opt (zget (sections elf) i);
        update_loop m elf entries (update_section m s a)
      else Ret a
  end.
Definition update (a : AddrMap) (m : MemMapInfo) (elf : ElfSections) : partial AddrMap :=
  l ← lift_opt (binary_locator m);
  match special l with
  | Vdso s _ => Ret (mkAddrMap s true (consistent a))
  | NoSegment =>
      if negb (has_perm (perms m) EXECUTE) then Ret a
      else
        let idx := partition_point (fun t => t.1.1 <? offset m) (section_by_offset elf) in
        update_loop m elf (drop idx (section_by_offset elf)) a
  end.
Definition static_to_dynamic (a : AddrMap) (s : Z) : Z := wrapping_add s (diff a).
Definition dynamic_to_static (a : AddrMap) (d : Z) : Z := wrapping_sub d (diff a).
