(* ===== verification/MemMapsSpec.v ===== *)
(** What the functions on memory maps (MemMaps.v) guarantee: the lookup by
    address, the text of /proc/pid/maps, the list of binaries, and the addresses
    of a binary's sections. *)
From Stdlib Require Import ZArith Lia String Sorting.Sorted.
From stdpp Require Import base list sorting.
From S2P Require Import Prelude RustStr RustText Errors BreakpointData MemMaps.
Open Scope Z_scope.

(** ** The map that holds an address *)

(** Maps in the order of their addresses, from [low] on, without overlap. *)
Fixpoint maps_from (low : Z) (maps : list MemMapInfo) : Prop :=
  match maps with
  | [] => True
  | m :: maps => low <= start m /\ 0 <= len m /\ start m + len m < 2 ^ 64 /\ maps_from (start m + len m) maps
  end.

Lemma maps_from_mono a b maps : a <= b -> maps_from b maps -> maps_from a maps.
Proof. destruct maps as [|m maps]; simpl; [done|]. intuition lia. Qed.
Lemma maps_from_elem low maps m : maps_from low maps -> m ∈ maps -> low <= start m /\ 0 <= len m.
Proof.
  revert low. induction maps as [|x maps IH]; intros low; simpl; [by intros _ ?%elem_of_nil|].
  intros (H1&H2&_&H3) [->|Hm]%elem_of_cons; [done|]. destruct (IH _ H3 Hm). lia.
Qed.

(** In a list of disjoint maps sorted by address, the binary search finds
    exactly the map that holds the address. *)
Theorem addr_to_map_correct low maps a m :
  maps_from low maps -> addr_to_map maps a = Some m <-> m ∈ maps /\ start m <= a < start m + len m.
Proof.
  unfold addr_to_map. revert low. induction maps as [|x maps IH]; intros low Hok.
  { simpl. split; [done|]. by intros [?%elem_of_nil _]. }
  simpl in Hok. destruct Hok as (H1&H2&_&Hok). simpl. rewrite elem_of_cons.
  destruct (Z.leb_spec (start x + len x) a) as [Hle|Hgt].
  - simpl. rewrite (IH _ Hok). split; [tauto|]. intros [[->|Hm] Ha]; [lia|done].
  - simpl. destruct (Z.leb_spec (start x) a) as [Hs|Hs].
    + split; [intros [= <-]; split; [by left|lia]|]. intros [[->|Hm] Ha]; [done|].
      destruct (maps_from_elem _ _ _ Hok Hm). lia.
    + split; [done|]. intros [[->|Hm] Ha]; [lia|]. destruct (maps_from_elem _ _ _ Hok Hm). lia.
Qed.

(** ** Lines of /proc/pid/maps *)

(** Text that does not begin with white space. *)
Definition visible (s : list Z) : Prop := strip_any WHITE_SPACE s = None.

Lemma trim_start_visible s : visible s -> trim_start s = s.
Proof. unfold visible, trim_start. destruct s as [|c s]; [done|]. intros H. cbn [List.length strip_all]. by rewrite H. Qed.
Lemma trim_start_space s : trim_start (32 :: s) = trim_start s.
Proof. done. Qed.
Lemma trim_start_spaces n s : trim_start (replicate n 32 ++ s) = trim_start s.
Proof. induction n as [|n IH]; [done|]. cbn [replicate app]. by rewrite trim_start_space. Qed.
Lemma visible_ascii c s : 33 <= c < 128 -> visible (c :: s).
Proof.
  intros Hc. unfold visible, WHITE_SPACE. cbn -[Z.eqb].
  repeat rewrite (proj2 (Z.eqb_neq _ c)) by lia. done.
Qed.

(** A word: printable ASCII without spaces, such as a number. *)
Definition word (w : list Z) : Prop := w <> [] /\ Forall (fun c => 33 <= c < 128) w.

Lemma field_word w rest : word w -> field (w ++ 32 :: rest) = (w, Some rest).
Proof.
  intros [Hne Hw]. unfold field, splitn2. rewrite trim_start_visible.
  - change (w ++ 32 :: rest) with (w ++ [32] ++ rest). rewrite split_once_app; [done|].
    eapply Forall_impl; [exact Hw|]. simpl. lia.
  - destruct w as [|c w]; [done|]. apply Forall_cons_1 in Hw as [Hc _]. by apply visible_ascii.
Qed.
Lemma split_once_None c s : Forall (fun b => b <> c) s -> split_once c s = None.
Proof. induction 1 as [|b s Hb _ IH]; [done|]. simpl. by rewrite (proj2 (Z.eqb_neq b c)), IH. Qed.
Lemma field_last w : word w -> field w = (w, None).
Proof.
  intros [Hne Hw]. unfold field, splitn2. rewrite trim_start_visible.
  - rewrite split_once_None; [done|]. eapply Forall_impl; [exact Hw|]. simpl. lia.
  - destruct w as [|c w]; [done|]. apply Forall_cons_1 in Hw as [Hc _]. by apply visible_ascii.
Qed.

Lemma hex_chars_word n : is_u64 n -> word (to_hex n) /\ Forall (fun c => c <> 45) (to_hex n).
Proof.
  intros [Hc Hne]%to_hex_chars. split; [split; [done|]|]; (eapply Forall_impl; [exact Hc|]); unfold hex_char; simpl; lia.
Qed.
Lemma to_dec_nonempty n : 0 <= n < 2 ^ 64 -> to_dec n <> [].
Proof. intros Hn E. pose proof (parse_to_dec 64 n ltac:(lia) Hn) as H. by rewrite E in H. Qed.
Lemma dec_word n : is_u64 n -> word (to_dec n).
Proof.
  intros Hn. unfold is_u64 in Hn. split; [by apply to_dec_nonempty|].
  eapply Forall_impl; [by apply to_dec_digits|]. simpl. lia.
Qed.

(** The permissions as the kernel prints them. *)
Definition show_perms (p : Z) : list Z :=
  [if Z.testbit p 0 then 114 else 45; if Z.testbit p 1 then 119 else 45; if Z.testbit p 2 then 120 else 45;
   if Z.testbit p 3 then 115 else 112].
Definition perms_ok (p : Z) : bool := (0 <=? p) && (p <? 32) && negb (Bool.eqb (Z.testbit p 3) (Z.testbit p 4)).

Lemma perms_roundtrip p : perms_ok p = true -> foldl parse_perm 0 (show_perms p) = p.
Proof.
  intros Hp. assert (Hr : 0 <= p < 32) by (unfold perms_ok in Hp; zbool; lia).
  assert (Hall : forallb (fun p => implb (perms_ok p) (foldl parse_perm 0 (show_perms p) =? p)) (seqZ 0 32) = true)
    by (by vm_compute).
  rewrite forallb_forall in Hall. specialize (Hall p). rewrite <- list_elem_of_In, elem_of_seqZ, Hp in Hall.
  apply Z.eqb_eq, Hall. lia.
Qed.
Lemma show_perms_word p : word (show_perms p).
Proof. split; [done|]. unfold show_perms. repeat constructor; case_match; lia. Qed.

(** A line of the file: a map as parsed, the device field and the number of
    spaces before the path. *)
Record MapLine := mkLine { line_map : MemMapInfo; device : list Z; pad : nat }.
Definition show_line (l : MapLine) : list Z :=
  let m := line_map l in
  (to_hex (start m) ++ 45 :: to_hex (start m + len m)) ++ 32 :: show_perms (perms m) ++ 32 :: to_hex (offset m) ++
  32 :: device l ++ 32 :: to_dec (map_inode m) ++
  match map_path m with
  | Some p => 32 :: replicate (pad l) 32 ++ p
  | None => replicate (pad l) 32
  end.
(** The map is one the kernel prints, and has not been given a binary. *)
Definition line_ok (l : MapLine) : Prop :=
  let m := line_map l in
  is_u64 (start m) /\ 0 <= len m /\ is_u64 (start m + len m) /\ perms_ok (perms m) = true /\ is_u64 (offset m) /\
  is_u64 (map_inode m) /\ (forall p, map_path m = Some p -> p <> [] /\ visible p) /\ word (device l) /\
  binary_locator m = None /\ binary_id m = None /\ elf_seen m = false.

Lemma word_app a b : word a -> word b -> word (a ++ b).
Proof. intros [Ha Ha'] [Hb Hb']. split; [by destruct a|]. by apply Forall_app. Qed.
Lemma range_word a b : is_u64 a -> is_u64 b -> word (to_hex a ++ 45 :: to_hex b).
Proof.
  intros [Ha _]%hex_chars_word [Hb _]%hex_chars_word. apply word_app; [done|].
  change (45 :: to_hex b) with ([45] ++ to_hex b). apply word_app; [|done]. split; [done|by repeat constructor; lia].
Qed.
Lemma splitn2_range a b : is_u64 a -> splitn2 45 (to_hex a ++ 45 :: to_hex b) = (to_hex a, Some (to_hex b)).
Proof.
  intros [_ Ha]%hex_chars_word. unfold splitn2. change (45 :: to_hex b) with ([45] ++ to_hex b).
  by rewrite split_once_app.
Qed.

(** The last field: nothing, or spaces and the path. *)
Definition parsed_path (rest : option (list Z)) : option (list Z) :=
  match rest with
  | None => None
  | Some p => match trim_start p with [] => None | p => Some p end
  end.
Lemma path_field w m n :
  word w -> (forall p, map_path m = Some p -> p <> [] /\ visible p) ->
  exists rest, parsed_path rest = map_path m /\
    field (w ++ match map_path m with Some p => 32 :: replicate n 32 ++ p | None => replicate n 32 end) = (w, rest).
Proof.
  intros Hw Hp. destruct (map_path m) as [p|].
  - eexists. split; [|by apply field_word]. simpl. destruct (Hp p eq_refl) as [Hne Hv].
    rewrite trim_start_spaces, trim_start_visible by done. by destruct p.
  - destruct n as [|n].
    + exists None. split; [done|]. rewrite app_nil_r. by apply field_last.
    + exists (Some (replicate n 32)). split; [|by apply field_word]. unfold parsed_path. rewrite <- (app_nil_r (replicate n 32)), trim_start_spaces. done.
Qed.

Lemma line_roundtrip l : line_ok l -> parse_line (show_line l) = Ret (line_map l).
Proof.
  intros (H1&H2&H3&H4&H5&H6&H7&H8&H9&H10&H11). unfold parse_line, show_line.
  rewrite field_word by (by apply range_word). cbn [more mbind outcome_bind].
  rewrite splitn2_range by done. cbn [more mbind outcome_bind].
  rewrite !from_to_hex by done. cbn [parsed mbind outcome_bind].
  rewrite field_word by apply show_perms_word. cbn [more mbind outcome_bind].
  rewrite field_word by (by apply hex_chars_word). cbn [more mbind outcome_bind].
  rewrite from_to_hex by done. cbn [parsed mbind outcome_bind].
  rewrite field_word by done. cbn [more mbind outcome_bind].
  destruct (path_field (to_dec (map_inode (line_map l))) (line_map l) (pad l)) as (rest&Hrest&->); [by apply dec_word|done|].
  rewrite parse_to_dec by (unfold is_u64 in H6; lia). cbn [parsed mbind outcome_bind].
  fold (parsed_path rest). rewrite Hrest, perms_roundtrip by done.
  unfold usub. rewrite (proj2 (Z.leb_le _ _)) by lia. cbn [mbind outcome_bind].
  replace (start (line_map l) + len (line_map l) - start (line_map l)) with (len (line_map l)) by lia.
  f_equal. destruct (line_map l). simpl in *. by subst.
Qed.

Lemma lines_roundtrip ls : Forall line_ok ls -> parse_lines (map show_line ls) = Ret (map line_map ls).
Proof. induction 1 as [|l ls Hl _ IH]; [done|]. cbn [map parse_lines]. by rewrite line_roundtrip, IH. Qed.

Lemma insert_by_front {A} (key : A -> Z) x l : Forall (fun y => key x <= key y) l -> insert_by key x l = x :: l.
Proof. destruct 1 as [|y l Hy]; simpl; [done|]. by rewrite (proj2 (Z.leb_le _ _)). Qed.
Lemma sort_by_sorted {A} (key : A -> Z) l : StronglySorted (fun x y => key x <= key y) l -> sort_by key l = l.
Proof. unfold sort_by. induction 1 as [|x l Hl IH Hx]; [done|]. simpl. by rewrite IH, insert_by_front. Qed.
Lemma maps_from_sorted low maps : maps_from low maps -> StronglySorted (fun x y => start x <= start y) maps.
Proof.
  revert low. induction maps as [|m maps IH]; intros low; simpl; [by constructor|]. intros (H1&H2&_&H3).
  constructor; [by eapply IH|]. rewrite Forall_forall. intros x Hx. destruct (maps_from_elem _ _ _ H3 Hx). lia.
Qed.

(** ** Which maps belong to binaries *)

(** The binary a fresh map may belong to, and whether it is mapped executable. *)
Definition binary_of (pid : Z) (m : MemMapInfo) : option BinaryLocator :=
  match file_locator pid m with Ret l => l | _ => None end.
Definition mapped_executable (pid : Z) (maps : list MemMapInfo) (l : BinaryLocator) : Prop :=
  Exists (fun m => has_perm (perms m) EXECUTE = true /\ binary_of pid m = Some l) maps.
#[export] Instance mapped_executable_dec pid maps l : Decision (mapped_executable pid maps l) := _.
Definition with_binary (pid : Z) (maps : list MemMapInfo) (m : MemMapInfo) : MemMapInfo :=
  set_locator match binary_of pid m with
              | Some l => if decide (mapped_executable pid maps l) then Some l else None
              | None => None
              end m.

Lemma file_locator_ok pid m : 0 <= start m + len m < 2 ^ 64 -> file_locator pid m = Ret (binary_of pid m).
Proof.
  intros H. unfold binary_of, file_locator. destruct (map_path m) as [p|]; [|done].
  destruct (bytes_eqb p _ && _).
  - unfold uadd. by rewrite (proj2 (Z.ltb_lt _ _)) by lia.
  - by destruct (_ && _).
Qed.
Lemma assign_locators_ok pid maps :
  Forall (fun m => 0 <= start m + len m < 2 ^ 64) maps ->
  assign_locators pid maps = Ret (map (fun m => set_locator (binary_of pid m) m) maps).
Proof. induction 1 as [|m maps Hm _ IH]; [done|]. simpl. by rewrite file_locator_ok, IH. Qed.

Lemma executables_spec pid maps l :
  l ∈ omap executable_locator (map (fun m => set_locator (binary_of pid m) m) maps) <-> mapped_executable pid maps l.
Proof.
  unfold mapped_executable. induction maps as [|m maps IH]; simpl; [split; [by intros ?%elem_of_nil|by inversion 1]|].
  unfold executable_locator at 1. simpl. rewrite Exists_cons.
  destruct (has_perm (perms m) EXECUTE) eqn:E.
  - destruct (binary_of pid m) as [b|].
    + rewrite elem_of_cons, IH. naive_solver.
    + rewrite IH. naive_solver.
  - rewrite IH. naive_solver.
Qed.

Lemma detect_executables_ok pid maps :
  Forall (fun m => 0 <= start m + len m < 2 ^ 64) maps ->
  detect_executables pid maps = Ret (map (with_binary pid maps) maps).
Proof.
  intros H. unfold detect_executables. rewrite assign_locators_ok by done. cbn [mbind outcome_bind]. f_equal.
  rewrite map_map. apply map_ext. intros m. unfold unset_data_file, with_binary. simpl.
  destruct (binary_of pid m) as [l|]; [|done].
  destruct (decide (mapped_executable pid maps l)) as [Hl|Hl].
  - rewrite bool_decide_true by (by apply executables_spec). done.
  - rewrite bool_decide_false by (by intros ?%executables_spec). done.
Qed.

(** The text of /proc/pid/maps is parsed to the maps it was printed from;
    a map of a file or of the vdso gets its binary when some map of the same
    binary is executable, and no binary otherwise. *)
Theorem proc_maps_roundtrip pid ls :
  Forall line_ok ls -> maps_from 0 (map line_map ls) ->
  read_proc_maps pid (map show_line ls) = Ret (map (with_binary pid (map line_map ls)) (map line_map ls)).
Proof.
  intros Hls Hm. unfold read_proc_maps. rewrite lines_roundtrip by done. cbn [mbind outcome_bind].
  rewrite sort_by_sorted by (by eapply maps_from_sorted). rewrite detect_executables_ok; [done|].
  apply Forall_map. eapply Forall_impl; [exact Hls|]. intros l (_&_&H&_). unfold is_u64 in H. simpl. lia.
Qed.

(** ** The order of binaries *)

Definition order_ok {A} (c : A -> A -> comparison) : Prop :=
  (forall a b, c a b = Eq <-> a = b) /\ (forall a b, c b a = CompOpp (c a b)) /\
  (forall x y z, c x y = Lt -> c y z = Lt -> c x z = Lt).

Definition compare_then {A B} (ca : A -> A -> comparison) (cb : B -> B -> comparison) (p q : A * B) : comparison :=
  match ca p.1 q.1 with Eq => cb p.2 q.2 | c => c end.

Lemma order_then {A B} (ca : A -> A -> comparison) (cb : B -> B -> comparison) :
  order_ok ca -> order_ok cb -> order_ok (compare_then ca cb).
Proof.
  intros (Ha1&Ha2&Ha3) (Hb1&Hb2&Hb3). unfold compare_then. split; [|split].
  - intros [a b] [a' b']. simpl. specialize (Ha1 a a'). destruct (ca a a'); split; naive_solver.
  - intros [a b] [a' b']. simpl. rewrite (Ha2 a a'). destruct (ca a a'); simpl; auto.
  - intros [a b] [a' b'] [a'' b'']. simpl.
    destruct (ca a a') eqn:E1; [apply Ha1 in E1 as ->| |done];
      (destruct (ca a' a'') eqn:E2; [apply Ha1 in E2 as ->| |done]); try done.
    + apply Hb3.
    + by rewrite E1.
    + by rewrite (Ha3 _ _ _ E1 E2).
Qed.
Lemma order_map {A B} (f : A -> B) c : (forall a b, f a = f b -> a = b) -> order_ok c -> order_ok (fun a b => c (f a) (f b)).
Proof. intros Hf (H1&H2&H3). split; [|split]; [|intros; apply H2|intros; by eapply H3]. intros a b. rewrite H1. naive_solver. Qed.

Lemma Z_order : order_ok Z.compare.
Proof.
  split; [intros; apply Z.compare_eq_iff|]. split; [intros; by rewrite Z.compare_antisym|].
  intros x y z. rewrite !Z.compare_lt_iff. lia.
Qed.
Lemma lex_order : order_ok lex_compare.
Proof.
  destruct Z_order as (Z1&Z2&Z3). split; [|split].
  - intros a. induction a as [|x a IH]; intros [|y b]; simpl; try done. specialize (Z1 x y).
    destruct (x ?= y); [|split; [done|naive_solver]..]. rewrite IH, (proj1 Z1) by done. naive_solver.
  - intros a. induction a as [|x a IH]; intros [|y b]; simpl; try done. rewrite (Z2 x y).
    destruct (x ?= y); simpl; auto.
  - intros a. induction a as [|x a IH]; intros [|y b] [|z c]; simpl; try done.
    destruct (x ?= y) eqn:E1; [apply Z1 in E1 as ->| |done];
      (destruct (y ?= z) eqn:E2; [apply Z1 in E2 as ->| |done]); try done.
    + apply IH.
    + by rewrite E1.
    + by rewrite (Z3 _ _ _ E1 E2).
Qed.

Definition locator_key (l : BinaryLocator) : list Z * (Z * list Z) := (path l, (inode l, segment_key (special l))).
Lemma locator_key_inj a b : locator_key a = locator_key b -> a = b.
Proof.
  destruct a as [p i s], b as [p' i' s']. unfold locator_key. simpl. intros [= -> -> H].
  by destruct s, s'; simplify_eq/=.
Qed.
Lemma locator_order : order_ok locator_compare.
Proof.
  exact (order_map locator_key _ locator_key_inj (order_then _ _ lex_order (order_then _ _ Z_order lex_order))).
Qed.

(** ** The list of binaries *)

(** The order that a stable sort by locator gives indexed locators. *)
Definition entry_lt (p q : Z * BinaryLocator) : Prop :=
  locator_compare p.2 q.2 = Lt \/ (p.2 = q.2 /\ p.1 < q.1).

Lemma entry_lt_trans p q r : entry_lt p q -> entry_lt q r -> entry_lt p r.
Proof.
  destruct locator_order as (_&_&Ht). unfold entry_lt.
  intros [H1|[H1 H1']] [H2|[H2 H2']].
  - left. by eapply Ht.
  - left. by rewrite <- H2.
  - left. by rewrite H1.
  - right. split; [congruence|lia].
Qed.

Lemma insert_locator_elem x l p : p ∈ insert_locator x l <-> p = x \/ p ∈ l.
Proof.
  induction l as [|y l IH]; simpl; [by rewrite list_elem_of_singleton, elem_of_nil; naive_solver|].
  destruct (locator_compare x.2 y.2); rewrite !elem_of_cons; [tauto..|]. rewrite IH. tauto.
Qed.
Lemma insert_locator_sorted x l :
  Forall (fun p => x.1 < p.1) l -> StronglySorted entry_lt l -> StronglySorted entry_lt (insert_locator x l).
Proof.
  destruct locator_order as (He&Ho&_).
  intros Hx Hl. induction Hl as [|y l Hl IH Hy]; [by repeat constructor|]. simpl.
  apply Forall_cons_1 in Hx as [Hxy Hx]. destruct (locator_compare x.2 y.2) eqn:E.
  1,2: assert (Hlt : entry_lt x y) by (unfold entry_lt; rewrite E; naive_solver);
    constructor; [by constructor|constructor; [done|eapply Forall_impl; [exact Hy|]; intros; by eapply entry_lt_trans]].
  constructor; [by apply IH|]. rewrite Forall_forall. intros p [->|Hp]%insert_locator_elem.
  - left. by rewrite Ho, E.
  - rewrite Forall_forall in Hy. by apply Hy.
Qed.
Lemma sort_locators_elem l p : p ∈ sort_locators l <-> p ∈ l.
Proof.
  unfold sort_locators. induction l as [|x l IH]; [done|]. simpl. rewrite insert_locator_elem, elem_of_cons, IH. done.
Qed.
Lemma sort_locators_sorted l :
  StronglySorted (fun p q => p.1 < q.1) l -> StronglySorted entry_lt (sort_locators l).
Proof.
  unfold sort_locators. induction 1 as [|x l Hl IH Hx]; [by constructor|]. simpl.
  apply insert_locator_sorted; [|done]. rewrite Forall_forall in Hx. apply Forall_forall.
  intros p Hp. apply Hx. by apply sort_locators_elem.
Qed.

(** Dropping repetitions keeps the first entry of each locator. *)
Lemma dedup_from_elem last l p :
  Forall (fun q => locator_compare last q.2 <> Gt) l -> StronglySorted entry_lt l ->
  p ∈ dedup_from last l <-> p ∈ l /\ p.2 <> last /\ forall q, q ∈ l -> q.2 = p.2 -> p.1 <= q.1.
Proof.
  destruct locator_order as (He&Ho&Ht). intros Hlast Hl. revert last Hlast.
  induction Hl as [|x l Hl IH Hx]; intros last Hlast; simpl.
  { rewrite elem_of_nil. naive_solver. }
  apply Forall_cons_1 in Hlast as [Hlx Hlast]. pose proof Hx as Hx'. rewrite Forall_forall in Hx'.
  assert (Hle : Forall (fun q => locator_compare x.2 q.2 <> Gt) l).
  { eapply Forall_impl; [exact Hx|]. intros q [H|[H _]]; [congruence|]. by rewrite (proj2 (He _ _)). }
  case_bool_decide as E.
  - subst last. rewrite IH by done. rewrite elem_of_cons. split.
    + intros (Hp&Hne&Hmin). split; [tauto|]. split; [done|]. intros q [->|Hq]%elem_of_cons; [congruence|]. by apply Hmin.
    + intros ([->|Hp]&Hne&Hmin); [done|]. split; [done|]. split; [done|]. intros q Hq. apply Hmin. by right.
  - rewrite elem_of_cons, IH by done. rewrite elem_of_cons. split.
    + intros [->|(Hp&Hne&Hmin)].
      * split; [by left|]. split; [done|]. intros q [->|Hq]%elem_of_cons Heq; [lia|].
        destruct (Hx' q Hq) as [H|[_ H]]; [|lia]. rewrite Heq, (proj2 (He _ _)) in H; done.
      * split; [by right|]. split.
        -- intros Heq. destruct (Hx' p Hp) as [H|[H _]]; [|congruence]. by rewrite Heq in H; rewrite (Ho x.2 last), H in Hlx.
        -- intros q [->|Hq]%elem_of_cons Heq; [congruence|]. by apply Hmin.
    + intros ([->|Hp]&Hne&Hmin); [by left|]. right. split; [done|]. split.
      * intros Heq. specialize (Hmin x ltac:(by left) ltac:(done)).
        destruct (Hx' p Hp) as [H|[_ H]]; [|lia]. rewrite Heq, (proj2 (He _ _)) in H; done.
      * intros q Hq. apply Hmin. by right.
Qed.
Lemma dedup_elem l p :
  StronglySorted entry_lt l ->
  p ∈ dedup l <-> p ∈ l /\ forall q, q ∈ l -> q.2 = p.2 -> p.1 <= q.1.
Proof.
  destruct locator_order as (He&_&_). intros Hl. destruct Hl as [|x l Hl Hx]; simpl; [rewrite elem_of_nil; naive_solver|].
  rewrite elem_of_cons, dedup_from_elem, elem_of_cons; [|eapply Forall_impl; [exact Hx|]|done].
  2: { intros q [H|[H _]]; [congruence|]. by rewrite (proj2 (He _ _)). }
  rewrite Forall_forall in Hx. split.
  - intros [->|(Hp&Hne&Hmin)].
    + split; [by left|]. intros q [->|Hq]%elem_of_cons Heq; [lia|].
      destruct (Hx q Hq) as [H|[_ H]]; [|lia]. rewrite Heq, (proj2 (He _ _)) in H; done.
    + split; [by right|]. intros q [->|Hq]%elem_of_cons Heq; [congruence|]. by apply Hmin.
  - intros ([->|Hp]&Hmin); [by left|]. destruct (decide (p.2 = x.2)) as [Heq|Hne].
    + specialize (Hmin x ltac:(by left) ltac:(done)).
      destruct (Hx p Hp) as [H|[_ H]]; [|lia]. rewrite Heq, (proj2 (He _ _)) in H; done.
    + right. split; [done|]. split; [done|]. intros q Hq. apply Hmin. by right.
Qed.

Lemma dedup_from_sorted {R} last l : StronglySorted R l -> StronglySorted R (dedup_from last l).
Proof.
  intros Hl. revert last. induction Hl as [|x l Hl IH Hx]; intros last; [by constructor|]. simpl.
  case_bool_decide; [apply IH|]. constructor; [apply IH|]. clear -Hx. generalize (x.2).
  induction Hx as [|y l Hy _ IH]; intros b; simpl; [done|]. case_bool_decide; [apply IH|]. constructor; [done|apply IH].
Qed.
Lemma dedup_sorted {R} l : StronglySorted R l -> StronglySorted R (dedup l).
Proof.
  intros Hl. pose proof (fun last => dedup_from_sorted last _ Hl) as H.
  destruct l as [|x l]; [by constructor|].
  assert (Hd : exists last, dedup_from last (x :: l) = x :: dedup_from x.2 l).
  { exists (mkBinaryLocator (0 :: path x.2) 0 NoSegment). simpl. rewrite bool_decide_false; [done|].
    intros E. apply (f_equal (List.length ∘ path)) in E. simpl in E. lia. }
  destruct Hd as [last Hd]. specialize (H last). by rewrite Hd in H.
Qed.

Lemma sorted_NoDup {A} (R : A -> A -> Prop) l : (forall x, ~ R x x) -> StronglySorted R l -> NoDup l.
Proof.
  intros HR. induction 1 as [|x l Hl IH Hx]; constructor; [|done]. intros Hin.
  rewrite Forall_forall in Hx. by eapply HR, Hx.
Qed.

Lemma insert_by_elem {A} (key : A -> Z) x l y : y ∈ insert_by key x l <-> y = x \/ y ∈ l.
Proof.
  induction l as [|z l IH]; simpl; [by rewrite list_elem_of_singleton, elem_of_nil; naive_solver|].
  destruct (key x <=? key z); rewrite !elem_of_cons; [done|]. rewrite IH. tauto.
Qed.
Lemma sort_by_elem {A} (key : A -> Z) l y : y ∈ sort_by key l <-> y ∈ l.
Proof. unfold sort_by. induction l as [|x l IH]; [done|]. simpl. by rewrite insert_by_elem, elem_of_cons, IH. Qed.
Lemma sort_by_strict {A} (key : A -> Z) l :
  NoDup (map key l) -> StronglySorted (fun x y => key x < key y) (sort_by key l).
Proof.
  unfold sort_by. induction l as [|x l IH]; simpl; [by constructor|]. rewrite NoDup_cons. intros [Hx Hl].
  assert (Hne : Forall (fun y => key y <> key x) (foldr (insert_by key) [] l)).
  { apply Forall_forall. intros y Hy Heq. apply Hx. rewrite <- Heq. apply list_elem_of_fmap_2. by apply (sort_by_elem key). }
  specialize (IH Hl). clear Hx Hl. induction IH as [|y l' Hl' IH Hy]; simpl; [by repeat constructor|].
  apply Forall_cons_1 in Hne as [Hyx Hne]. destruct (Z.leb_spec (key x) (key y)).
  - constructor; [by constructor|]. constructor; [lia|]. eapply Forall_impl; [exact Hy|]. simpl. lia.
  - constructor; [by apply IH|]. apply Forall_forall. intros z [->|Hz]%insert_by_elem; [lia|].
    rewrite Forall_forall in Hy. by apply Hy.
Qed.

(** The elements of a list without those seen before. *)
Fixpoint first_occurrences (seen l : list BinaryLocator) : list BinaryLocator :=
  match l with
  | [] => []
  | x :: l => if bool_decide (x ∈ seen) then first_occurrences seen l else x :: first_occurrences (x :: seen) l
  end.
Fixpoint first_entries (seen : list BinaryLocator) (l : list (Z * BinaryLocator)) : list (Z * BinaryLocator) :=
  match l with
  | [] => []
  | x :: l => if bool_decide (x.2 ∈ seen) then first_entries seen l else x :: first_entries (x.2 :: seen) l
  end.

Lemma first_entries_snd seen l : map snd (first_entries seen l) = first_occurrences seen (map snd l).
Proof. revert seen. induction l as [|x l IH]; intros seen; simpl; [done|]. case_bool_decide; simpl; by rewrite IH. Qed.
Lemma first_entries_elem seen l p :
  StronglySorted (fun p q => p.1 < q.1) l ->
  p ∈ first_entries seen l <-> p ∈ l /\ p.2 ∉ seen /\ forall q, q ∈ l -> q.2 = p.2 -> p.1 <= q.1.
Proof.
  intros Hl. revert seen. induction Hl as [|x l Hl IH Hx]; intros seen; simpl; [rewrite elem_of_nil; naive_solver|].
  rewrite Forall_forall in Hx. case_bool_decide as E.
  - rewrite IH, elem_of_cons. split.
    + intros (Hp&Hs&Hmin). split; [tauto|]. split; [done|]. intros q [->|Hq]%elem_of_cons Heq; [congruence|]. by apply Hmin.
    + intros ([->|Hp]&Hs&Hmin); [done|]. split; [done|]. split; [done|]. intros q Hq. apply Hmin. by right.
  - rewrite elem_of_cons, IH, !elem_of_cons. split.
    + intros [->|(Hp&Hs&Hmin)].
      * split; [by left|]. split; [done|]. intros q [->|Hq]%elem_of_cons _; [lia|]. specialize (Hx q Hq). simpl in Hx. lia.
      * split; [by right|]. split; [tauto|]. intros q [->|Hq]%elem_of_cons Heq; [destruct Hs; by left|]. by apply Hmin.
    + intros ([->|Hp]&Hs&Hmin); [by left|]. destruct (decide (p.2 = x.2)) as [Heq|Hne].
      * specialize (Hmin x ltac:(by left) ltac:(done)). specialize (Hx p Hp). simpl in Hx. lia.
      * right. split; [done|]. split; [tauto|]. intros q Hq. apply Hmin. by right.
Qed.
Lemma first_entries_sorted {R} seen l : StronglySorted R l -> StronglySorted R (first_entries seen l).
Proof.
  intros Hl. revert seen. induction Hl as [|x l Hl IH Hx]; intros seen; [by constructor|]. simpl.
  case_bool_decide; [apply IH|]. constructor; [apply IH|]. clear -Hx. generalize (x.2 :: seen).
  induction Hx as [|y l Hy _ IH]; intros s; simpl; [done|]. case_bool_decide; [apply IH|]. constructor; [done|apply IH].
Qed.

(** The indexed locators, from index [k] on. *)
Definition indexed_from (k : nat) (maps : list MemMapInfo) : list (Z * BinaryLocator) :=
  omap (fun p => match binary_locator p.2 with Some l => Some (p.1, l) | None => None end)
    (imap (fun i m => (Z.of_nat (k + i), m)) maps).
Lemma indexed_from_cons k m maps :
  indexed_from k (m :: maps) =
  match binary_locator m with Some l => [(Z.of_nat k, l)] | None => [] end ++ indexed_from (S k) maps.
Proof.
  unfold indexed_from. rewrite imap_cons, Nat.add_0_r.
  replace (imap ((fun i m => (Z.of_nat (k + i), m)) ∘ S) maps) with (imap (fun i m => (Z.of_nat (S k + i), m)) maps)
    by (apply imap_ext; intros; simpl; f_equal; lia).
  simpl. by destruct (binary_locator m).
Qed.
Lemma indexed_from_spec k maps :
  StronglySorted (fun p q => p.1 < q.1) (indexed_from k maps) /\
  Forall (fun p => Z.of_nat k <= p.1) (indexed_from k maps) /\
  map snd (indexed_from k maps) = omap binary_locator maps.
Proof.
  revert k. induction maps as [|m maps IH]; intros k; [by repeat constructor|]. rewrite indexed_from_cons.
  destruct (IH (S k)) as (H1&H2&H3). cbn [omap list_omap].
  assert (H2' : Forall (fun p => Z.of_nat k <= p.1) (indexed_from (S k) maps))
    by (eapply Forall_impl; [exact H2|]; simpl; lia).
  destruct (binary_locator m) as [l|]; simpl; [|done].
  split; [|split]; [|by constructor|by rewrite H3]. constructor; [done|].
  eapply Forall_impl; [exact H2|]. simpl. lia.
Qed.

(** The list of binaries has each binary of the maps once, in the order in
    which the maps first mention it. *)
Theorem list_binaries_first_occurrences maps :
  list_binaries maps = first_occurrences [] (omap binary_locator maps).
Proof.
  destruct (indexed_from_spec 0 maps) as (Hs&_&Hm). unfold list_binaries.
  change (indexed_locators maps) with (indexed_from 0 maps). rewrite <- Hm, <- first_entries_snd. f_equal.
  set (l := indexed_from 0 maps) in *. clearbody l. clear Hm.
  pose proof (dedup_sorted _ (sort_locators_sorted _ Hs)) as Hd.
  assert (Hel : forall p, p ∈ dedup (sort_locators l) <-> p ∈ first_entries [] l).
  { intros p. rewrite dedup_elem, first_entries_elem by (done || by apply sort_locators_sorted).
    setoid_rewrite sort_locators_elem. split; [intros [? ?]|intros (?&?&?)]; (split; [done|]); [|done].
    split; [apply not_elem_of_nil|done]. }
  assert (Hinj : forall p q, p ∈ l -> q ∈ l -> p.1 = q.1 -> p = q).
  { clear -Hs. intros p q. induction Hs as [|x l _ IH Hx]; [by intros ?%elem_of_nil|]. rewrite Forall_forall in Hx.
    intros [->|Hp]%elem_of_cons [->|Hq]%elem_of_cons; [done| | |by apply IH];
      [specialize (Hx q Hq)|specialize (Hx p Hp)]; simpl in Hx; lia. }
  assert (Hin : forall p, p ∈ dedup (sort_locators l) -> p ∈ l).
  { intros p. rewrite dedup_elem by (by apply sort_locators_sorted). rewrite sort_locators_elem. by intros [? _]. }
  assert (Hnd : NoDup (dedup (sort_locators l))).
  { eapply sorted_NoDup; [|exact Hd]. destruct locator_order as (He&_). intros p [H|[_ H]]; [|lia].
    by rewrite (proj2 (He _ _)) in H. }
  assert (Hlt : StronglySorted (fun p q : Z * BinaryLocator => p.1 < q.1) (sort_by fst (dedup (sort_locators l)))).
  { apply sort_by_strict. apply (NoDup_fmap_2_strong fst); [|done]. intros p q Hp Hq. by apply Hinj; apply Hin. }
  assert (Hlt' := first_entries_sorted [] _ Hs).
  eapply (StronglySorted_unique_strong (fun p q : Z * BinaryLocator => p.1 < q.1)); [|exact Hlt|exact Hlt'|].
  - intros p q _ _ H1 H2. lia.
  - apply NoDup_Permutation; [eapply sorted_NoDup; [|exact Hlt]|eapply sorted_NoDup; [|exact Hlt']|];
      [intros; simpl; lia..|]. intros p. by rewrite sort_by_elem.
Qed.

(** ** Addresses of sections *)

(** The entries that the loop looks at: those that end inside the map's part of
    the file, up to the first that does not. *)
Fixpoint entries_within (map_end : Z) (entries : list (Z * Z * Z)) : list (Z * Z * Z) :=
  match entries with
  | [] => []
  | e :: entries => if e.1.2 <=? map_end then e :: entries_within map_end entries else []
  end.
Definition scanned (m : MemMapInfo) (elf : ElfSections) : list (Z * Z * Z) :=
  entries_within (offset m + len m)
    (drop (partition_point (fun t => t.1.1 <? offset m) (section_by_offset elf)) (section_by_offset elf)).
(** A code section among them. *)
Definition code_section (s : ElfSection) : bool :=
  (section_type s =? SHT_PROGBITS) && negb (Z.land (flags s) SHF_EXECINSTR =? 0).
Definition scanned_code (entries : list (Z * Z * Z)) (elf : ElfSections) (s : ElfSection) : Prop :=
  exists e, e ∈ entries /\ zget (sections elf) e.2 = Some s /\ code_section s = true.
(** The distance of its code in memory from its addresses. *)
Definition bias (m : MemMapInfo) (s : ElfSection) : Z :=
  wrapping_sub (wrapping_sub (start m) (offset m)) (wrapping_sub (address s) (s_offset s)).

(** What [update] may do to the translation. *)
Definition update_ok (m : MemMapInfo) (code : ElfSection -> Prop) (a a' : AddrMap) : Prop :=
  (known a = true -> known a' = true /\ diff a' = diff a) /\
  (forall s, code s -> known a' = true) /\
  (consistent a' = true <-> consistent a = true /\ forall s, code s -> bias m s = diff a').

Lemma update_section_ok m s a :
  update_ok m (fun s' => s' = s /\ code_section s = true) a (update_section m s a).
Proof.
  unfold update_section, update_ok, code_section. fold (bias m s).
  destruct (section_type s =? SHT_PROGBITS); simpl; [|naive_solver].
  destruct (Z.land (flags s) SHF_EXECINSTR =? 0); simpl; [naive_solver|].
  destruct a as [d k c]. simpl. destruct k; simpl; [|naive_solver].
  destruct (Z.eqb_spec (bias m s) d), c; simpl; naive_solver.
Qed.
Lemma update_ok_trans m (P Q R : ElfSection -> Prop) a b c :
  (forall s, R s <-> P s \/ Q s) -> update_ok m P a b -> update_ok m Q b c -> update_ok m R a c.
Proof.
  intros HR (A1&A2&A3) (B1&B2&B3). split; [|split].
  - intros H. destruct (A1 H) as [H1 H2]. destruct (B1 H1). split; [done|congruence].
  - intros s [Hs|Hs]%HR; [|by eapply B2]. by apply B1, (A2 s).
  - rewrite B3, A3. split.
    + intros [[H1 H2] H3]. split; [done|]. intros s [Hs|Hs]%HR; [|by apply H3].
      rewrite (H2 s Hs). symmetry. by apply B1, (A2 s).
    + intros [H1 H2]. split; [split; [done|]|].
      * intros s Hs. rewrite H2 by (apply HR; by left). by apply B1, (A2 s).
      * intros s Hs. apply H2, HR. by right.
Qed.
Lemma update_ok_refl m (P : ElfSection -> Prop) a : (forall s, ~ P s) -> update_ok m P a a.
Proof. intros HP. split; [done|]. split; [intros s Hs; by destruct (HP s)|]. split; [|tauto]. intros H. split; [done|]. intros s Hs. by destruct (HP s). Qed.

Lemma update_loop_ok m elf entries a :
  offset m + len m < 2 ^ 64 -> Forall (fun e => is_Some (zget (sections elf) e.2)) entries ->
  exists a', update_loop m elf entries a = Ret a' /\
    update_ok m (scanned_code (entries_within (offset m + len m) entries) elf) a a'.
Proof.
  intros Hend He. revert a. induction He as [|[[b e] i] entries Hi _ IH]; intros a.
  { exists a. split; [done|]. apply update_ok_refl. by intros s (?&?%elem_of_nil&_). }
  simpl. unfold uadd. rewrite (proj2 (Z.ltb_lt _ _)) by done. cbn [mbind outcome_bind].
  destruct (e <=? offset m + len m).
  - destruct Hi as [s Hs]. simpl in Hs. rewrite Hs. cbn [lift_opt mbind outcome_bind].
    destruct (IH (update_section m s a)) as (a'&Hr&Hok). exists a'. split; [done|].
    pose proof (update_section_ok m s a) as Hu.
    eapply update_ok_trans; [|exact Hu|exact Hok].
    intros s'. unfold scanned_code. setoid_rewrite elem_of_cons. split.
    + intros (x&[->|Hx]&Hs'&Hc); [left|right; by exists x]. simpl in Hs'. by simplify_eq.
    + intros [[-> Hc]|(x&Hx&Hs'&Hc)]; [exists (b, e, i)|exists x]; auto.
  - exists a. split; [done|]. apply update_ok_refl. by intros s (?&?%elem_of_nil&_).
Qed.

Lemma wrap_section a m s k :
  bias m s = diff a ->
  static_to_dynamic a (wrap64 (address s + k)) = wrap64 (start m + (s_offset s + k - offset m)).
Proof.
  unfold static_to_dynamic, bias, wrapping_add, wrapping_sub, wrap64. intros <-.
  rewrite <- (Zminus_mod (start m - offset m)), Z.add_mod_idemp_l, Z.add_mod_idemp_r by done. f_equal. lia.
Qed.

(** Looking at an executable map of a binary never panics, and keeps what
    was known. While the translation counts as consistent, every address of a
    code section that the map covers is translated to the place in memory that
    holds that byte of the file, and back; it stops being consistent exactly
    when some such section lies elsewhere. *)
Theorem addr_map_update m elf a l :
  binary_locator m = Some l -> special l = NoSegment -> has_perm (perms m) EXECUTE = true ->
  offset m + len m < 2 ^ 64 -> Forall (fun e => is_Some (zget (sections elf) e.2)) (section_by_offset elf) ->
  exists a', update a m elf = Ret a' /\
    update_ok m (scanned_code (scanned m elf) elf) a a' /\
    (forall s k, consistent a' = true -> scanned_code (scanned m elf) elf s ->
       static_to_dynamic a' (wrap64 (address s + k)) = wrap64 (start m + (s_offset s + k - offset m))) /\
    (forall x, is_u64 x -> dynamic_to_static a' (static_to_dynamic a' x) = x).
Proof.
  intros Hl Hsp Hx Hend He. unfold update. rewrite Hl. cbn [lift_opt mbind outcome_bind]. rewrite Hsp, Hx. cbn [negb].
  destruct (update_loop_ok m elf (drop (partition_point (fun t => t.1.1 <? offset m) (section_by_offset elf))
    (section_by_offset elf)) a Hend) as (a'&Hr&Hok); [by apply Forall_drop|].
  exists a'. split; [done|]. split; [done|]. split.
  - intros s k Hc Hs. apply wrap_section. by apply Hok.
  - intros x Hu. unfold dynamic_to_static, static_to_dynamic, wrapping_add, wrapping_sub, wrap64, is_u64 in *.
    rewrite Zminus_mod_idemp_l. rewrite <- (Z.mod_small x (2 ^ 64)) at 2 by done. f_equal. lia.
Qed.

(** ** Examples *)

Definition text_map : MemMapInfo :=
  mkMap 4194304 4096 21 0 7 (Some (str "/bin/a b")) None None false.
Definition rodata_map : MemMapInfo :=
  mkMap 4198400 4096 17 4096 7 (Some (str "/bin/a b (deleted)")) None None false.
Definition data_map : MemMapInfo := mkMap 8388608 4096 17 0 9 (Some (str "/data")) None None false.
Definition anon_map : MemMapInfo := mkMap 16777216 4096 19 0 0 None None None false.
Definition sample_maps : list MemMapInfo := [text_map; rodata_map; data_map; anon_map].
Definition sample_lines : list MapLine := map (fun m => mkLine m (str "08:01") 10) sample_maps.

Lemma sample_maps_from : maps_from 0 sample_maps.
Proof. repeat split; done || (simpl; lia). Qed.
Lemma sample_lines_ok : Forall line_ok sample_lines.
Proof.
  assert (Hw : word (str "08:01")) by (split; [done|change (str "08:01") with [48; 56; 58; 48; 49]; rewrite !Forall_cons, Forall_nil; lia]).
  unfold sample_lines, sample_maps. cbn [map]. rewrite !Forall_cons.
  unfold line_ok, is_u64. split_and!; simpl; try (exact Hw || done || lia); intros p [= <-]; done.
Qed.

Lemma addr_to_map_correct_witness :
  addr_to_map sample_maps 4198401 = Some rodata_map /\
  (addr_to_map sample_maps 5000000 = Some rodata_map <-> rodata_map ∈ sample_maps /\ 4198400 <= 5000000 < 4198400 + 4096).
Proof.
  split; [done|]. exact (addr_to_map_correct 0 sample_maps 5000000 rodata_map sample_maps_from).
Defined.

Definition bin_a : BinaryLocator := mkBinaryLocator (str "/bin/a b") 7 NoSegment.
Lemma proc_maps_roundtrip_witness :
  map show_line sample_lines =
    [str "400000-401000 r-xp 0 08:01 7           /bin/a b"; str "401000-402000 r--p 1000 08:01 7           /bin/a b (deleted)";
     str "800000-801000 r--p 0 08:01 9           /data"; str "1000000-1001000 rw-p 0 08:01 0          "] /\
  read_proc_maps 5 (map show_line sample_lines) = Ret (map (with_binary 5 sample_maps) sample_maps) /\
  map binary_locator (map (with_binary 5 sample_maps) sample_maps) = [Some bin_a; Some bin_a; None; None].
Proof.
  split; [by vm_compute|]. split; [|by vm_compute].
  exact (proc_maps_roundtrip 5 sample_lines sample_lines_ok sample_maps_from).
Defined.

Definition sample_elf : ElfSections :=
  mkElf [mkSection 0 0 0 0; mkSection 1 6 4096 256; mkSection 1 2 65536 2048] [(256, 512, 1); (2048, 3000, 2)].
Lemma addr_map_update_witness :
  exists a', update AddrMap_default (set_locator (Some bin_a) text_map) sample_elf = Ret a' /\
    consistent a' = true /\ static_to_dynamic a' 4100 = 4194304 + 260.
Proof.
  destruct (addr_map_update (set_locator (Some bin_a) text_map) sample_elf AddrMap_default bin_a) as (a'&Hr&_&Ht&_);
    [done..|by repeat constructor|].
  exists a'. split; [exact Hr|]. assert (Hc : consistent a' = true) by (vm_compute in Hr; by injection Hr as <-).
  split; [exact Hc|]. apply (Ht (mkSection 1 6 4096 256) 4 Hc). exists (256, 512, 1).
  split; [by left|]. by split.
Defined.
