(* ===== verification/ExprLexer.v ===== *)
(** The lexer of watch expressions (src/interp.rs): the input stream, literals
    and the token buffer. A text is its list of characters (code points); the
    input stream is the list split at the position, which is always between
    two characters. *)
From Stdlib Require Import ZArith Lia String Ascii.
From stdpp Require Import base list.
From S2P Require Import Prelude Errors StateMonad Floats.
Open Scope Z_scope.

(** An ASCII character, and a text of them. *)
Definition ch (s : string) : Z :=
  match s with String a _ => Z.of_N (N_of_ascii a) | EmptyString => 0 end.
Arguments ch s%_string_scope : simpl never.
Definition text (s : string) : list Z := map (fun a => Z.of_N (N_of_ascii a)) (list_ascii_of_string s).
Arguments text s%_string_scope : simpl never.

(** ** Numbers *)

Inductive BasicValue := I (x : Z) | U (x : Z) | F (x : f64).
Inductive LiteralValue :=
  | Basic (b : BasicValue)
  | LChar (c : Z)
  | LString (s : list Z).
Definition as_unsigned (v : LiteralValue) : option Z := match v with Basic (U x) => Some x | _ => None end.
Definition is_unsigned (v : LiteralValue) : bool := match as_unsigned v with Some _ => true | None => false end.

(** [c.to_digit(radix)] *)
Definition to_digit (radix c : Z) : option Z :=
  let d := if (48 <=? c) && (c <=? 57) then c - 48
           else if (97 <=? c) && (c <=? 122) then c - 87
           else if (65 <=? c) && (c <=? 90) then c - 55
           else radix in
  if d <? radix then Some d else None.
Definition is_digit (radix c : Z) : bool := match to_digit radix c with Some _ => true | None => false end.

(** ** Operators and tokens *)

Inductive UnaryOperator := Neg | Not | Borrow | Dereference.
Inductive BinaryOperator :=
  | Add | Sub | Mul | Div | Rem | BitAnd | BitOr | BitXor | Shl | Shr
  | OEq | Ne | OGt | OLt | Ge | Le
  | LazyAnd | LazyOr
  | Assign | AddAssign | SubAssign | MulAssign | DivAssign | RemAssign | AndAssign | OrAssign | XorAssign
  | ShlAssign | ShrAssign
  | ORange
  | Index | Slicify | Comma.
#[export] Instance UnaryOperator_eq_dec : EqDecision UnaryOperator.
Proof. solve_decision. Defined.
#[export] Instance BinaryOperator_eq_dec : EqDecision BinaryOperator.
Proof. solve_decision. Defined.

Inductive Token :=
  | TBinary (op : BinaryOperator)
  | TUnary (op : UnaryOperator)
  | Arrow
  | TChar (c : Z)
  | TLiteral (v : LiteralValue)
  | Identifier (s : list Z) (quoted : bool)
  | Eof.
Definition is_identifier (t : Token) : bool := match t with Identifier _ _ => true | _ => false end.
Definition is_keyword (word : list Z) (t : Token) : bool :=
  match t with Identifier s false => bool_decide (s = word) | _ => false end.
Definition is_char (c : Z) (t : Token) : bool := match t with TChar x => x =? c | _ => false end.
Definition is_arrow (t : Token) : bool := match t with Arrow => true | _ => false end.
Definition is_binary_operator (op : BinaryOperator) (t : Token) : bool :=
  match t with TBinary x => bool_decide (x = op) | _ => false end.
Definition is_eof (t : Token) : bool := match t with Eof => true | _ => false end.

(** White space, as the parser's assertions spell it. *)
Definition is_whitespace (c : Z) : bool := (c =? ch " ") || (c =? 10) || (c =? 13) || (c =? 9).

(** ** The input stream *)

(** The characters before the position, last first, and those after it. *)
Record InputStream := mkStream { before : list Z; rest : list Z }.

(** [c.len_utf8()], and the length of a text in bytes. *)
Definition len_utf8 (c : Z) : Z :=
  if c <? 128 then 1 else if c <? 2048 then 2 else if c <? 65536 then 3 else 4.
Definition text_len (s : list Z) : Z := foldr (fun c n => len_utf8 c + n) 0 s.
Definition pos (i : InputStream) : Z := text_len (before i).

Abbreviation istm := (stm InputStream Error).

Definition ipeek : istm (option Z) := sget (fun i => hd_error (rest i)).
Definition ieat : istm (option Z) := fun i =>
  match rest i with
  | [] => (Ret None, i)
  | c :: r => (Ret (Some c), mkStream (c :: before i) r)
  end.
Definition uneat : istm unit := fun i =>
  match before i with
  | [] => (Panic, i)
  | c :: b => (Ret tt, mkStream b (c :: rest i))
  end.
Definition eat_if_eq (c : Z) : istm bool :=
  o ← ipeek;
  match o with
  | Some x => if x =? c then _ ← ieat; mret true else mret false
  | None => mret false
  end.
Fixpoint digits_of (radix : Z) (s : list Z) : list Z :=
  match s with
  | [] => []
  | c :: s => if is_digit radix c then c :: digits_of radix s else []
  end.
Definition eat_digits (radix : Z) : istm (list Z) := fun i =>
  let ds := digits_of radix (rest i) in
  (Ret ds, mkStream (rev ds ++ before i) (drop (List.length ds) (rest i))).

(** ** Literals *)

Definition syntax_error {S A} : stm S Error A := sfail (Code Syntax).

Definition parse_char_escape_sequence : istm Z :=
  o ← ieat;
  match o with
  | None => syntax_error
  | Some c =>
      if c =? ch "0" then mret 0
      else if c =? ch "n" then mret 10
      else if c =? ch "r" then mret 13
      else if c =? ch "t" then mret 9
      else if c =? ch "x" then
        a ← ieat;
        b ← ieat;
        if bool_decide (b = None) then syntax_error
        else
          a ← sopt a;
          b ← sopt b;
          match to_digit 16 a, to_digit 16 b with
          | Some a, Some b => mret (wrap8 (a * 16 + b))
          | _, _ =>
              (* the position of the sequence in the message *)
              p ← sget pos;
              _ ← slift (widen (usub p 4));
              syntax_error
          end
      else mret c
  end.

(** The characters up to the closing quote [q]. *)
Fixpoint quoted_loop (fuel : nat) (q : Z) (s : list Z) : istm (list Z) :=
  match fuel with
  | O => spanic
  | S fuel =>
      o ← ieat;
      match o with
      | None => syntax_error
      | Some c =>
          if c =? q then mret s
          else if c =? ch "\" then c ← parse_char_escape_sequence; quoted_loop fuel q (s ++ [c])
          else quoted_loop fuel q (s ++ [c])
      end
  end.
Definition lex_quoted (q : Z) : istm (list Z) :=
  n ← sget (fun i => List.length (rest i)); quoted_loop (S n) q [].

Definition lex_char_literal : istm Z :=
  o ← ieat;
  c ← match o with
      | None => syntax_error
      | Some c =>
          if c =? 39 then syntax_error
          else if c =? ch "\" then parse_char_escape_sequence
          else mret c
      end;
  o ← ieat;
  match o with
  | Some x => if x =? 39 then mret c else syntax_error
  | None => syntax_error
  end.

(** The value of digits, checked in 64 bits. *)
Fixpoint int_value (radix : Z) (ds : list Z) (val : Z) : istm Z :=
  match ds with
  | [] => mret val
  | c :: ds =>
      match checked_mul val radix with
      | None => syntax_error
      | Some x =>
          d ← sopt (to_digit radix c);
          match checked_add x d with
          | None => syntax_error
          | Some v => int_value radix ds v
          end
      end
  end.
(** As a float: of the integer part, and of the fraction's digits, last first. *)
Fixpoint float_value (radix : Z) (ds : list Z) (val : f64) : istm f64 :=
  match ds with
  | [] => mret val
  | c :: ds =>
      d ← sopt (to_digit radix c);
      float_value radix ds (f64_add (f64_mul val (f64_of_int radix)) (f64_of_int d))
  end.
Fixpoint frac_value (radix : Z) (ds : list Z) (frac : f64) : istm f64 :=
  match ds with
  | [] => mret frac
  | c :: ds =>
      d ← sopt (to_digit radix c);
      frac_value radix ds (f64_div (f64_add frac (f64_of_int d)) (f64_of_int radix))
  end.
(** Saturating in [i32]. *)
Fixpoint exp_value (ds : list Z) (exp : Z) : istm Z :=
  match ds with
  | [] => mret exp
  | c :: ds => d ← sopt (to_digit 10 c); exp_value ds (Z.min (2 ^ 31 - 1) (Z.min (2 ^ 31 - 1) (exp * 10) + d))
  end.

(** [f64::powi], whose precision the standard library leaves open. *)
Class Powi := powi : f64 -> Z -> f64.

Section Lexing.
Context {P : Powi}.

(** The radix and the digits of the integer part, of which [int_s] has been read. *)
Definition lex_radix (int_s : list Z) : istm (Z * list Z) :=
  if bool_decide (int_s = text "0") then
    hex ← eat_if_eq (ch "x");
    if (hex : bool) then s ← eat_digits 16; mret (16, s)
    else
      bin ← eat_if_eq (ch "b");
      if (bin : bool) then s ← eat_digits 2; mret (2, s) else mret (10, int_s)
  else mret (10, int_s).
(** Whether the [..] operator follows, whether there is a fraction, and its digits. *)
Definition lex_fraction (previous_dot : bool) (radix : Z) : istm (bool * bool * list Z) :=
  dot ← (if previous_dot then mret false else eat_if_eq (ch "."));
  if (dot : bool) then
    next ← ipeek;
    if bool_decide (next = Some (ch ".")) then _ ← uneat; mret (true, false, [])
    else s ← eat_digits radix; mret (false, true, s)
  else mret (false, false, []).
(** The base of the exponent (0 for none), its sign and digits. *)
Definition lex_exponent (previous_dot : bool) : istm (Z * bool * list Z) :=
  e ← (if previous_dot then mret false else eat_if_eq (ch "e"));
  exp_radix ← (if (e : bool) then mret 10 else p ← eat_if_eq (ch "p"); mret (if p : bool then 2 else 0));
  exp_negative ← (if exp_radix =? 0 then mret false else eat_if_eq (ch "-"));
  exp_s ← (if exp_radix =? 0 then mret [] else eat_digits 10);
  mret (exp_radix, exp_negative, exp_s).
(** What may not follow a number. *)
Definition check_suffix (previous_dot range_dot : bool) : istm unit :=
  next ← ipeek;
  match next with
  | Some c =>
      if ((48 <=? c) && (c <=? 57)) || ((97 <=? c) && (c <=? 122)) || ((65 <=? c) && (c <=? 90)) || (c =? ch "_")
      then syntax_error
      else if (c =? ch ".") && negb previous_dot && negb range_dot then syntax_error
      else mret tt
  | None => mret tt
  end.
Definition literal_float (radix : Z) (int_s frac_s : list Z) (exp_radix : Z) (exp_negative : bool) (exp_s : list Z) : istm LiteralValue :=
  val ← float_value radix int_s (f64_of_int 0);
  frac ← frac_value radix (rev frac_s) (f64_of_int 0);
  let val := f64_add val frac in
  if negb (exp_radix =? 0) then
    exp ← exp_value exp_s 0;
    let exp := if exp_negative then - exp else exp in
    mret (Basic (F (f64_mul val (powi (f64_of_int exp_radix) exp))))
  else mret (Basic (F val)).

(** A number; [previous_dot] when the token before is a dot. *)
Definition lex_number (previous_dot : bool) : istm LiteralValue :=
  int_s ← eat_digits 10;
  '(radix, int_s) ← lex_radix int_s;
  '(range_dot, has_dot, frac_s) ← lex_fraction previous_dot radix;
  '(exp_radix, exp_negative, exp_s) ← lex_exponent previous_dot;
  _ ← check_suffix previous_dot range_dot;
  if has_dot || negb (exp_radix =? 0) then literal_float radix int_s frac_s exp_radix exp_negative exp_s
  else
    val ← int_value radix int_s 0;
    mret (Basic (U val)).

(** The characters of an identifier; [':'] only doubled. *)
Definition ident_char (c : Z) : bool :=
  ((97 <=? c) && (c <=? 122)) || ((65 <=? c) && (c <=? 90)) || (c =? ch "_") || (c =? ch "#") || (c =? ch "$").
Fixpoint ident_loop (fuel : nat) (s : list Z) : istm (list Z) :=
  match fuel with
  | O => spanic
  | S fuel =>
      o ← ipeek;
      match o with
      | None => mret s
      | Some c =>
          if ident_char c || ((48 <=? c) && (c <=? 57)) then _ ← ieat; ident_loop fuel (s ++ [c])
          else if c =? ch ":" then
            _ ← ieat;
            next ← ipeek;
            if bool_decide (next = Some (ch ":")) then _ ← ieat; ident_loop fuel (s ++ [c; c])
            else _ ← uneat; mret s
          else mret s
      end
  end.
Definition lex_identifier : istm (list Z) :=
  n ← sget (fun i => List.length (rest i)); ident_loop (S n) [].

(** An operator [op], or [op'] when [c] follows. *)
Definition with_next (c : Z) (op' op : BinaryOperator) : istm BinaryOperator :=
  b ← eat_if_eq c; mret (if b : bool then op' else op).
Definition assign_or (op' op : BinaryOperator) : istm BinaryOperator := with_next (ch "=") op' op.

(** The token that starts with [c], which has been eaten; [None] for white space. *)
Definition lex_one (previous_dot : bool) (c : Z) : istm (option Token) :=
  let bin (m : istm BinaryOperator) : istm (option Token) := op ← m; mret (Some (TBinary op)) in
  if (c =? ch " ") || (c =? 9) || (c =? 10) || (c =? 13) then mret None
  else if c =? ch "+" then bin (assign_or AddAssign Add)
  else if c =? ch "-" then
    b ← eat_if_eq (ch ">"); if b : bool then mret (Some Arrow) else bin (assign_or SubAssign Sub)
  else if c =? ch "*" then bin (assign_or MulAssign Mul)
  else if c =? ch "/" then bin (assign_or DivAssign Div)
  else if c =? ch "%" then bin (assign_or RemAssign Rem)
  else if c =? ch "&" then bin (b ← eat_if_eq (ch "="); if b : bool then mret AndAssign else with_next (ch "&") LazyAnd BitAnd)
  else if c =? ch "|" then bin (b ← eat_if_eq (ch "="); if b : bool then mret OrAssign else with_next (ch "|") LazyOr BitOr)
  else if c =? ch "^" then bin (assign_or XorAssign BitXor)
  else if c =? ch "<" then
    bin (b ← eat_if_eq (ch "="); if b : bool then mret Le else
         b ← eat_if_eq (ch "<"); if b : bool then assign_or ShlAssign Shl else mret OLt)
  else if c =? ch ">" then
    bin (b ← eat_if_eq (ch "="); if b : bool then mret Ge else
         b ← eat_if_eq (ch ">"); if b : bool then assign_or ShrAssign Shr else mret OGt)
  else if c =? ch "=" then bin (assign_or OEq Assign)
  else if c =? ch "." then b ← eat_if_eq (ch "."); mret (Some (if b : bool then TBinary ORange else TChar c))
  else if c =? ch "!" then b ← eat_if_eq (ch "="); mret (Some (if b : bool then TBinary Ne else TUnary Not))
  else if c =? ch "," then mret (Some (TBinary Comma))
  else if (c =? ch "(") || (c =? ch ")") || (c =? ch "[") || (c =? ch "]") || (c =? ch "{") || (c =? ch "}") ||
          (c =? ch ";") || (c =? ch "@") then mret (Some (TChar c))
  else
    next ← ipeek;
    if (c =? ch ":") && negb (bool_decide (next = Some (ch ":"))) then mret (Some (TChar c))
    else if c =? 34 then s ← lex_quoted 34; mret (Some (TLiteral (LString s)))
    else if c =? 39 then c ← lex_char_literal; mret (Some (TLiteral (LChar c)))
    else if (48 <=? c) && (c <=? 57) then _ ← uneat; v ← lex_number previous_dot; mret (Some (TLiteral v))
    else if c =? ch "`" then s ← lex_quoted c; mret (Some (Identifier s true))
    else if ident_char c || (c =? ch ":") then _ ← uneat; s ← lex_identifier; mret (Some (Identifier s false))
    else syntax_error.

(** ** The token buffer *)

Definition trange : Type := Z * Z.
Record Lexer := mkLexer {
  input : InputStream; next_tokens : list (trange * Token); previous_token_end : Z; previous_dot : bool
}.
Abbreviation lstm := (stm Lexer Error).

Definition set_input (i : InputStream) (l : Lexer) : Lexer :=
  mkLexer i (next_tokens l) (previous_token_end l) (previous_dot l).
Definition set_tokens (ts : list (trange * Token)) (l : Lexer) : Lexer :=
  mkLexer (input l) ts (previous_token_end l) (previous_dot l).
Definition set_end (e : Z) (l : Lexer) : Lexer := mkLexer (input l) (next_tokens l) e (previous_dot l).
Definition set_dot (b : bool) (l : Lexer) : Lexer :=
  mkLexer (input l) (next_tokens l) (previous_token_end l) b.
Definition on_input {A} (m : istm A) : lstm A := fun l =>
  let '(r, i) := m (input l) in (r, set_input i l).

Fixpoint peek_loop (fuel n : nat) : lstm (trange * Token) :=
  match fuel with
  | O => spanic
  | S fuel =>
      ts ← sget next_tokens;
      match nth_error ts (n - 1) with
      | Some t => mret t
      | None =>
          start ← sget (fun l => pos (input l));
          o ← on_input ieat;
          match o with
          | None => mret ((start, start), Eof)
          | Some c =>
              dot ← sget previous_dot;
              _ ← smodify (set_dot false);
              t ← on_input (lex_one dot c);
              match t with
              | None => peek_loop fuel n
              | Some t =>
                  _ ← smodify (set_dot (is_char (ch ".") t));
                  e ← sget (fun l => pos (input l));
                  _ ← smodify (fun l => set_tokens (next_tokens l ++ [((start, e), t)]) l);
                  peek_loop fuel n
              end
          end
      end
  end.
Definition peek (n : nat) : lstm (trange * Token) :=
  _ ← sassert (0 <? n)%nat;
  k ← sget (fun l => List.length (rest (input l)));
  peek_loop (S (S k)) n.

Definition eat (n : nat) : lstm (trange * Token) :=
  _ ← sassert (0 <? n)%nat;
  p ← peek n;
  _ ← smodify (set_end p.1.2);
  ts ← sget next_tokens;
  p ← sget (fun l => pos (input l));
  _ ← smodify (set_tokens (drop n ts));
  mret (default ((p, p), Eof) (last (take n ts))).
Definition eat_if (f : Token -> bool) : lstm (option (trange * Token)) :=
  p ← peek 1;
  if f p.2 then
    ts ← sget next_tokens;
    match ts with
    | [] => spanic
    | (r, t) :: ts =>
        _ ← smodify (set_tokens ts);
        _ ← smodify (set_end r.2);
        mret (Some (r, t))
    end
  else mret None.
Definition peek_expect (f : Token -> bool) : lstm (trange * Token) :=
  p ← peek 1; if f p.2 then mret p else syntax_error.
Definition expect (f : Token -> bool) : lstm (trange * Token) :=
  _ ← peek_expect f; eat 1.

End Lexing.
