(* ===== verification/ExprLexerSpec.v ===== *)
(** The lexer of watch expressions never panics: it splits the text into
    tokens and white space, in order and without overlap. *)
From Stdlib Require Import ZArith Lia String.
From stdpp Require Import base list.
From S2P Require Import Prelude Errors StateMonad ExprLexer.
Open Scope Z_scope.

(** ** Positions *)

Lemma len_utf8_pos c : 1 <= len_utf8 c.
Proof. unfold len_utf8. repeat case_match; lia. Qed.
Lemma text_len_app a b : text_len (a ++ b) = text_len a + text_len b.
Proof. induction a as [|c a IH]; simpl; [done|]. rewrite IH. lia. Qed.
Lemma text_len_ge s : zlen s <= text_len s.
Proof. unfold zlen. induction s as [|c s IH]; simpl; [done|]. pose proof (len_utf8_pos c). lia. Qed.
Lemma text_len_rev s : text_len (rev s) = text_len s.
Proof. induction s as [|c s IH]; simpl; [done|]. rewrite text_len_app. simpl. lia. Qed.

(** [i'] is [i] after reading the characters [k]. *)
Definition reads_to (k : list Z) (i i' : InputStream) : Prop :=
  rest i = k ++ rest i' /\ before i' = rev k ++ before i.
Definition advance (i i' : InputStream) : Prop := exists k, reads_to k i i'.

Lemma advance_refl i : advance i i.
Proof. by exists []. Qed.
Lemma reads_to_trans a b i j k : reads_to a i j -> reads_to b j k -> reads_to (a ++ b) i k.
Proof. intros [H1 H2] [H3 H4]. split; [by rewrite H1, H3, app_assoc|]. by rewrite H4, H2, rev_app_distr, app_assoc. Qed.
Lemma advance_trans i j k : advance i j -> advance j k -> advance i k.
Proof. intros [a Ha] [b Hb]. exists (a ++ b). by eapply reads_to_trans. Qed.
Lemma advance_before i j : advance i j -> (List.length (before i) <= List.length (before j))%nat.
Proof. intros (k&_&->). rewrite length_app. lia. Qed.
Lemma advance_char c b r : advance (mkStream b (c :: r)) (mkStream (c :: b) r).
Proof. by exists [c]. Qed.

(** Reading on from [i], without panic. *)
Definition reads_on {A} (m : istm A) (Q : A -> Prop) (i : InputStream) : Prop :=
  wp m (fun a i' => advance i i' /\ Q a) i.

Lemma reads_on_bind {A B} (m : istm A) (f : A -> istm B) Q R i :
  reads_on m Q i -> (forall a i', advance i i' -> Q a -> reads_on (f a) R i') -> reads_on (m ≫= f) R i.
Proof.
  intros Hm Hf. apply wp_bind. eapply wp_mono; [exact Hm|]. intros a i' [Hi HQ].
  eapply wp_mono; [by apply Hf|]. intros b i2 [Hi2 HR]. split; [by eapply advance_trans|done].
Qed.
Lemma reads_on_ret {A} (a : A) (Q : A -> Prop) i : Q a -> reads_on (mret a) Q i.
Proof. intros H. by split; [apply advance_refl|]. Qed.
Lemma reads_on_fail {A} e (Q : A -> Prop) i : reads_on (sfail e) Q i.
Proof. done. Qed.
Lemma reads_on_get {A} (f : InputStream -> A) i : reads_on (sget f) (fun a => a = f i) i.
Proof. by split; [apply advance_refl|]. Qed.
Lemma reads_on_opt {A} (o : option A) a (Q : A -> Prop) i : o = Some a -> Q a -> reads_on (sopt o) Q i.
Proof. intros -> H. by split; [apply advance_refl|]. Qed.
Lemma reads_on_mono {A} (m : istm A) (Q R : A -> Prop) i : reads_on m Q i -> (forall a, Q a -> R a) -> reads_on m R i.
Proof. intros Hm H. eapply wp_mono; [exact Hm|]. naive_solver. Qed.
Lemma reads_on_if {A} (b : bool) (m m' : istm A) Q i : reads_on m Q i -> reads_on m' Q i -> reads_on (if b then m else m') Q i.
Proof. by destruct b. Qed.

Lemma ipeek_on i : reads_on ipeek (fun o => o = hd_error (rest i)) i.
Proof. apply (reads_on_get (fun i => hd_error (rest i))). Qed.
Lemma ieat_on i : reads_on ieat (fun o => o = hd_error (rest i)) i.
Proof. destruct i as [b [|c r]]; (split; [|done]); [apply advance_refl|apply advance_char]. Qed.
Lemma eat_if_eq_run c i :
  eat_if_eq c i = match rest i with
                  | x :: r => if x =? c then (Ret true, mkStream (x :: before i) r) else (Ret false, i)
                  | [] => (Ret false, i)
                  end.
Proof. destruct i as [b [|x r]]; [done|]. unfold eat_if_eq, ipeek. srun. simpl. by destruct (x =? c). Qed.
Lemma eat_if_eq_on c i : reads_on (eat_if_eq c) (fun _ => True) i.
Proof.
  unfold reads_on, wp. rewrite eat_if_eq_run. destruct i as [b [|x r]]; [by split; [apply advance_refl|]|]. simpl.
  destruct (x =? c); (split; [|done]); [apply advance_char|apply advance_refl].
Qed.
Lemma digits_of_prefix radix s : s = digits_of radix s ++ drop (List.length (digits_of radix s)) s.
Proof. induction s as [|c s IH]; simpl; [done|]. destruct (is_digit radix c); simpl; [by rewrite <- IH|done]. Qed.
Lemma digits_of_digits radix s : Forall (fun c => is_Some (to_digit radix c)) (digits_of radix s).
Proof.
  induction s as [|c s IH]; simpl; [done|]. unfold is_digit. destruct (to_digit radix c) eqn:E; [|done].
  constructor; [by eexists|done].
Qed.
Lemma eat_digits_on radix i : reads_on (eat_digits radix) (Forall (fun c => is_Some (to_digit radix c))) i.
Proof.
  split; [|apply digits_of_digits]. exists (digits_of radix (rest i)). split; [apply digits_of_prefix|done].
Qed.


(** ** Literals *)

Lemma ieat_bind {A} (f : option Z -> istm A) Q i :
  match rest i with
  | [] => reads_on (f None) Q i
  | c :: r => reads_on (f (Some c)) Q (mkStream (c :: before i) r)
  end -> reads_on (ieat ≫= f) Q i.
Proof.
  intros H. apply wp_bind. unfold wp, ieat. destruct i as [b [|c r]]; [exact H|]. simpl in *.
  refine (wp_mono _ _ _ _ H _). intros a i' [Hi HQ]. split; [|done]. by eapply advance_trans; [apply advance_char|].
Qed.

Lemma escape_on i : (2 <= List.length (before i))%nat -> reads_on parse_char_escape_sequence (fun _ => True) i.
Proof.
  intros Hi. unfold parse_char_escape_sequence. apply ieat_bind. destruct i as [b [|c r]]; [by apply reads_on_fail|]. simpl in *.
  repeat (apply reads_on_if; [by apply reads_on_ret|]). apply reads_on_if; [|by apply reads_on_ret].
  apply ieat_bind. destruct r as [|x r]; simpl; apply ieat_bind; simpl; [by apply reads_on_fail|].
  destruct r as [|y r]; simpl; [by apply reads_on_fail|].
  eapply reads_on_bind; [by apply (reads_on_opt _ x (fun _ => True))|]. intros a i1 H1 _.
  eapply reads_on_bind; [by apply (reads_on_opt _ y (fun _ => True))|]. intros d i2 H2 _.
  assert (Hf : reads_on (p ← sget pos; _ ← slift (widen (usub p 4)); (syntax_error : istm Z)) (fun _ => True) i2).
  { eapply reads_on_bind; [apply (reads_on_get pos)|]. intros p i3 _ ->. unfold usub.
    pose proof (text_len_ge (before i2)). pose proof (advance_before _ _ (advance_trans _ _ _ H1 H2)) as Hl. simpl in Hl.
    unfold pos. unfold zlen in *. by rewrite (proj2 (Z.leb_le 4 _)) by lia. }
  destruct (to_digit 16 a), (to_digit 16 d); [by apply reads_on_ret|exact Hf..].
Qed.

Lemma quoted_loop_on fuel q s i :
  (List.length (rest i) < fuel)%nat -> (1 <= List.length (before i))%nat -> reads_on (quoted_loop fuel q s) (fun _ => True) i.
Proof.
  revert s i. induction fuel as [|fuel IH]; intros s i Hf Hb; [lia|]. simpl. apply ieat_bind.
  destruct i as [b [|c r]]; [by apply reads_on_fail|]. simpl in *. apply reads_on_if; [by apply reads_on_ret|].
  apply reads_on_if; [|apply IH; simpl; lia].
  eapply reads_on_bind; [apply escape_on; simpl; lia|]. intros x i1 (k&H1&H2) _. simpl in *. apply IH.
  - rewrite H1, length_app in Hf. lia.
  - rewrite H2, length_app. simpl. lia.
Qed.
Lemma lex_quoted_on q i : (1 <= List.length (before i))%nat -> reads_on (lex_quoted q) (fun _ => True) i.
Proof.
  intros Hb. unfold lex_quoted. eapply reads_on_bind; [apply (reads_on_get (fun i => List.length (rest i)))|]. intros n i1 (k&H1&H2) ->.
  apply quoted_loop_on; [rewrite H1, length_app; lia|rewrite H2, length_app; lia].
Qed.
Lemma lex_char_literal_on i : (1 <= List.length (before i))%nat -> reads_on lex_char_literal (fun _ => True) i.
Proof.
  intros Hb. unfold lex_char_literal. apply ieat_bind. destruct i as [b [|c r]]; simpl in *; [by apply reads_on_fail|].
  eapply reads_on_bind.
  - apply reads_on_if; [by apply reads_on_fail|]. apply reads_on_if; [apply escape_on; simpl; lia|by apply reads_on_ret].
  - intros x i1 _ _. apply ieat_bind. destruct (rest i1); [by apply reads_on_fail|].
    apply reads_on_if; [by apply reads_on_ret|by apply reads_on_fail].
Qed.

(** ** Numbers *)

Section Numbers.
Context (radix : Z).
Abbreviation digits := (Forall (fun c => is_Some (to_digit radix c))).

Lemma int_value_on ds val i : digits ds -> reads_on (int_value radix ds val) (fun _ => True) i.
Proof.
  intros Hds. revert val i. induction Hds as [|c ds [d Hd] _ IH]; intros val i; [by apply reads_on_ret|]. simpl.
  destruct (checked_mul val radix); [|by apply reads_on_fail].
  eapply reads_on_bind; [by apply (reads_on_opt _ d (fun _ => True))|]. intros d' i' _ _.
  destruct (checked_add z d'); [apply IH|by apply reads_on_fail].
Qed.
Lemma float_value_on ds val i : digits ds -> reads_on (float_value radix ds val) (fun _ => True) i.
Proof.
  intros Hds. revert val i. induction Hds as [|c ds [d Hd] _ IH]; intros val i; [by apply reads_on_ret|]. simpl.
  eapply reads_on_bind; [by apply (reads_on_opt _ d (fun _ => True))|]. intros d' i' _ _. apply IH.
Qed.
Lemma frac_value_on ds val i : digits ds -> reads_on (frac_value radix ds val) (fun _ => True) i.
Proof.
  intros Hds. revert val i. induction Hds as [|c ds [d Hd] _ IH]; intros val i; [by apply reads_on_ret|]. simpl.
  eapply reads_on_bind; [by apply (reads_on_opt _ d (fun _ => True))|]. intros d' i' _ _. apply IH.
Qed.
End Numbers.
Lemma exp_value_on ds val i : Forall (fun c => is_Some (to_digit 10 c)) ds -> reads_on (exp_value ds val) (fun _ => True) i.
Proof.
  intros Hds. revert val i. induction Hds as [|c ds [d Hd] _ IH]; intros val i; [by apply reads_on_ret|]. simpl.
  eapply reads_on_bind; [by apply (reads_on_opt _ d (fun _ => True))|]. intros d' i' _ _. apply IH.
Qed.

Section Tokens.
Context {P : Powi}.

Lemma lex_radix_on int_s i :
  Forall (fun c => is_Some (to_digit 10 c)) int_s ->
  reads_on (lex_radix int_s) (fun p => Forall (fun c => is_Some (to_digit p.1 c)) p.2) i.
Proof.
  intros H. unfold lex_radix. apply reads_on_if; [|by apply reads_on_ret].
  eapply reads_on_bind; [apply eat_if_eq_on|]. intros hex i1 _ _. apply reads_on_if.
  - eapply reads_on_bind; [apply eat_digits_on|]. intros ds i2 _ Hds. by apply reads_on_ret.
  - eapply reads_on_bind; [apply eat_if_eq_on|]. intros bin i2 _ _. apply reads_on_if; [|by apply reads_on_ret].
    eapply reads_on_bind; [apply eat_digits_on|]. intros ds i3 _ Hds. by apply reads_on_ret.
Qed.
Lemma lex_fraction_on pd radix i :
  reads_on (lex_fraction pd radix) (fun p => Forall (fun c => is_Some (to_digit radix c)) p.2) i.
Proof.
  unfold lex_fraction. destruct pd; [by apply reads_on_ret|]. unfold reads_on. apply wp_bind. unfold wp at 1.
  rewrite eat_if_eq_run. destruct i as [b [|c r]]; [by split; [apply advance_refl|]|]. simpl.
  destruct (c =? ch "."); [|by apply (reads_on_ret (false, false, []))]. apply wp_bind, wp_get. case_bool_decide.
  - split; [apply advance_refl|done].
  - assert (Hr : reads_on (s ← eat_digits radix; mret (false, true, s))
      (fun p => Forall (fun c => is_Some (to_digit radix c)) p.2) (mkStream (c :: b) r)).
    { eapply reads_on_bind; [apply eat_digits_on|]. intros ds i2 _ Hds. by apply reads_on_ret. }
    refine (wp_mono _ _ _ _ Hr _). intros p i' [Hi Hp]. split; [|exact Hp]. by eapply advance_trans; [apply advance_char|].
Qed.
Lemma lex_exponent_on pd i :
  reads_on (lex_exponent pd) (fun p => Forall (fun c => is_Some (to_digit 10 c)) p.2) i.
Proof.
  unfold lex_exponent. eapply (reads_on_bind _ _ (fun _ => True)); [destruct pd; [by apply reads_on_ret|apply eat_if_eq_on]|].
  intros e i1 _ _. eapply (reads_on_bind _ _ (fun _ => True)).
  { apply reads_on_if; [by apply reads_on_ret|]. eapply reads_on_bind; [apply eat_if_eq_on|]. intros. by apply reads_on_ret. }
  intros radix i2 _ _. eapply (reads_on_bind _ _ (fun _ => True)); [apply reads_on_if; [by apply reads_on_ret|apply eat_if_eq_on]|].
  intros neg i3 _ _. eapply reads_on_bind; [apply reads_on_if; [by apply reads_on_ret, Forall_nil|apply eat_digits_on]|].
  intros ds i4 _ Hds. by apply reads_on_ret.
Qed.
Lemma check_suffix_on pd rd i : reads_on (check_suffix pd rd) (fun _ => True) i.
Proof.
  unfold check_suffix. eapply reads_on_bind; [apply ipeek_on|]. intros o i1 _ _.
  destruct o; [repeat apply reads_on_if|]; by (apply reads_on_fail || apply reads_on_ret).
Qed.
Lemma literal_float_on radix int_s frac_s er en es i :
  Forall (fun c => is_Some (to_digit radix c)) int_s -> Forall (fun c => is_Some (to_digit radix c)) frac_s ->
  Forall (fun c => is_Some (to_digit 10 c)) es -> reads_on (literal_float radix int_s frac_s er en es) (fun _ => True) i.
Proof.
  intros Hi Hf He. unfold literal_float. eapply reads_on_bind; [by apply float_value_on|]. intros v i1 _ _.
  eapply reads_on_bind; [by apply frac_value_on, Forall_rev|]. intros f i2 _ _. apply reads_on_if; [|by apply reads_on_ret].
  eapply reads_on_bind; [by apply exp_value_on|]. intros. by apply reads_on_ret.
Qed.
Lemma lex_number_wp pd c b r :
  is_digit 10 c = true -> wp (lex_number pd) (fun _ i' => advance (mkStream (c :: b) r) i') (mkStream b (c :: r)).
Proof.
  intros Hc. unfold lex_number. apply wp_bind. unfold wp at 1, eat_digits. cbn [rest before digits_of]. rewrite Hc.
  set (ds := c :: digits_of 10 r). set (i1 := mkStream (rev ds ++ b) (drop (List.length ds) (c :: r))).
  assert (H1 : advance (mkStream (c :: b) r) i1).
  { exists (digits_of 10 r). split; [apply digits_of_prefix|]. subst i1 ds. simpl. by rewrite <- app_assoc. }
  assert (Hds : Forall (fun c => is_Some (to_digit 10 c)) ds).
  { subst ds. constructor; [|apply digits_of_digits]. unfold is_digit in Hc. destruct (to_digit 10 c); [by eexists|done]. }
  clearbody ds i1. match goal with |- wp ?m _ _ => assert (H : reads_on m (fun _ => True) i1) end.
  - eapply reads_on_bind; [by apply lex_radix_on|]. intros [radix int_s] i2 _ Hi.
    eapply reads_on_bind; [apply lex_fraction_on|]. intros [[rd hd] fs] i3 _ Hf.
    eapply reads_on_bind; [apply lex_exponent_on|]. intros [[er en] es] i4 _ He.
    eapply reads_on_bind; [apply check_suffix_on|]. intros _ i5 _ _. apply reads_on_if; [by apply literal_float_on|].
    eapply reads_on_bind; [by apply int_value_on|]. intros. by apply reads_on_ret.
  - refine (wp_mono _ _ _ _ H _). intros v i' [Hi _]. by eapply advance_trans.
Qed.

(** ** Identifiers *)

Lemma ident_loop_on fuel s i : (List.length (rest i) < fuel)%nat -> reads_on (ident_loop fuel s) (fun _ => True) i.
Proof.
  revert s i. induction fuel as [|fuel IH]; intros s i Hf; [lia|]. cbn [ident_loop].
  unfold reads_on. apply wp_bind, wp_get. destruct i as [b [|c r]]; [by apply reads_on_ret|]. cbn [hd_error rest].
  assert (Hnext : forall s, reads_on (ident_loop fuel s) (fun _ => True) (mkStream (c :: b) r)) by (intros; apply IH; simpl in *; lia).
  apply reads_on_if.
  { apply ieat_bind. apply Hnext. }
  apply reads_on_if; [|by apply reads_on_ret]. unfold reads_on. apply wp_bind. unfold wp at 1, ieat. cbn [rest before].
  apply wp_bind, wp_get. cbn [rest]. case_bool_decide as E; [|split; [apply advance_refl|done]].
  destruct r as [|x r]; [done|]. eapply wp_mono; [apply ieat_bind; apply (IH _ (mkStream (x :: c :: b) r)); simpl in *; lia|].
  intros v i' [Hi _]. split; [|done]. by eapply advance_trans; [apply advance_char|].
Qed.
Lemma lex_identifier_wp c b r :
  ident_char c = true \/ (c = ch ":" /\ hd_error r = Some (ch ":")) ->
  wp lex_identifier (fun _ i' => advance (mkStream (c :: b) r) i') (mkStream b (c :: r)).
Proof.
  intros Hc. unfold lex_identifier. apply wp_bind, wp_get. cbn [rest].
  assert (Hn : (List.length r < List.length (c :: r))%nat) by (simpl; lia). revert Hn. generalize (List.length (c :: r)).
  intros n Hn. cbn [ident_loop]. apply wp_bind, wp_get. cbn [rest hd_error].
  assert (Hnext : forall fuel s i, (List.length (rest i) < fuel)%nat -> advance (mkStream (c :: b) r) i ->
    wp (ident_loop fuel s) (fun _ i' => advance (mkStream (c :: b) r) i') i).
  { intros fuel s i Hf Hi. eapply wp_mono; [by apply ident_loop_on|]. intros v i' [Hi' _]. by eapply advance_trans. }
  destruct (ident_char c) eqn:Ei.
  - cbn [orb]. apply wp_bind. unfold wp at 1, ieat. cbn [rest before]. by apply Hnext; [|apply advance_refl].
  - destruct Hc as [?|[-> Hr]]; [done|]. destruct r as [|x r]; [done|]. injection Hr as ->.
    change (false || ((48 <=? ch ":") && (ch ":" <=? 57))) with false. cbn iota. rewrite Z.eqb_refl.
    apply wp_bind. unfold wp at 1, ieat. cbn [rest before]. apply wp_bind, wp_get. rewrite bool_decide_true by done.
    apply wp_bind. unfold wp at 1, ieat. cbn [rest before]. apply Hnext; [simpl in *; lia|apply advance_char].
Qed.

(** ** Tokens *)

(** What the parser needs to know of a token that starts with the character [c]. *)
Definition token_ok (c : Z) (t : Token) : Prop :=
  match t with TChar x => x = c | TUnary op => op = Not | Eof => False | _ => True end.
Definition lexed (c : Z) (t : option Token) : Prop :=
  match t with Some t => token_ok c t | None => False end.

Lemma with_next_on c op' op i : reads_on (with_next c op' op) (fun _ => True) i.
Proof. eapply reads_on_bind; [apply eat_if_eq_on|]. intros. by apply reads_on_ret. Qed.
Lemma reads_on_choice c (m m' : istm BinaryOperator) i :
  (forall i, reads_on m (fun _ => True) i) -> (forall i, reads_on m' (fun _ => True) i) ->
  reads_on (b ← eat_if_eq c; if b : bool then m else m') (fun _ => True) i.
Proof. intros Hm Hm'. eapply reads_on_bind; [apply eat_if_eq_on|]. intros b i1 _ _. by apply reads_on_if. Qed.

Lemma lex_one_token pd c b r :
  is_whitespace c = false -> reads_on (lex_one pd c) (lexed c) (mkStream (c :: b) r).
Proof.
  intros Hc. unfold lex_one.
  assert (Hbin : forall (m : istm BinaryOperator) i, (forall i, reads_on m (fun _ => True) i) ->
    reads_on (op ← m; mret (Some (TBinary op))) (lexed c) i).
  { intros m i Hm. eapply reads_on_bind; [apply Hm|]. intros. by apply reads_on_ret. }
  destruct ((c =? ch " ") || (c =? 9) || (c =? 10) || (c =? 13)) eqn:Ews.
  { unfold is_whitespace in Hc. destruct (c =? ch " "), (c =? 9), (c =? 10), (c =? 13); done. }
  apply reads_on_if; [apply Hbin; intros; apply with_next_on|].
  apply reads_on_if.
  { eapply reads_on_bind; [apply eat_if_eq_on|]. intros b' i _ _.
    apply reads_on_if; [by apply reads_on_ret|apply Hbin; intros; apply with_next_on]. }
  do 3 (apply reads_on_if; [apply Hbin; intros; apply with_next_on|]).
  do 2 (apply reads_on_if; [apply Hbin; intros; apply reads_on_choice; intros; [by apply reads_on_ret|apply with_next_on]|]).
  apply reads_on_if; [apply Hbin; intros; apply with_next_on|].
  do 2 (apply reads_on_if; [apply Hbin; intros; apply reads_on_choice; intros;
    [by apply reads_on_ret|apply reads_on_choice; intros; [apply with_next_on|by apply reads_on_ret]]|]).
  apply reads_on_if; [apply Hbin; intros; apply with_next_on|].
  do 2 (apply reads_on_if; [eapply reads_on_bind; [apply eat_if_eq_on|]; intros [] i _ _; by apply reads_on_ret|]).
  do 2 (apply reads_on_if; [by apply reads_on_ret|]).
  apply wp_bind, wp_get. cbn [rest].
  destruct ((c =? ch ":") && negb (bool_decide (hd_error r = Some (ch ":")))) eqn:Ecolon; [by apply reads_on_ret|].
  apply reads_on_if; [eapply reads_on_bind; [apply lex_quoted_on; simpl; lia|]; intros; by apply reads_on_ret|].
  apply reads_on_if; [eapply reads_on_bind; [apply lex_char_literal_on; simpl; lia|]; intros; by apply reads_on_ret|].
  destruct ((48 <=? c) && (c <=? 57)) eqn:Edigit.
  { apply wp_bind. unfold wp at 1, uneat. cbn [before rest]. apply wp_bind.
    eapply wp_mono; [apply lex_number_wp; unfold is_digit, to_digit; by rewrite Edigit, (proj2 (Z.ltb_lt _ _)) by (zbool; lia)|].
    intros v i' Hi. by split. }
  apply reads_on_if; [eapply reads_on_bind; [apply lex_quoted_on; simpl; lia|]; intros; by apply reads_on_ret|].
  destruct (ident_char c || (c =? ch ":")) eqn:Eid; [|by apply reads_on_fail].
  apply wp_bind. unfold wp at 1, uneat. cbn [before rest]. apply wp_bind.
  eapply wp_mono; [apply lex_identifier_wp|intros v i' Hi; by split].
  destruct (ident_char c); [by left|right]. simpl in Eid. apply Z.eqb_eq in Eid as ->. split; [done|].
  rewrite Z.eqb_refl in Ecolon. by case_bool_decide.
Qed.

Lemma lex_one_wp pd c b r :
  wp (lex_one pd c) (fun t i' => advance (mkStream (c :: b) r) i' /\
    match t with Some t => token_ok c t | None => is_whitespace c = true /\ i' = mkStream (c :: b) r end)
    (mkStream (c :: b) r).
Proof.
  destruct (is_whitespace c) eqn:Ec.
  - unfold lex_one. assert (Hc : (c =? ch " ") || (c =? 9) || (c =? 10) || (c =? 13) = true).
    { unfold is_whitespace in Ec. destruct (c =? ch " "), (c =? 9), (c =? 10), (c =? 13); done. }
    rewrite Hc. split; [apply advance_refl|done].
  - eapply wp_mono; [by apply lex_one_token|]. intros [t|] i' [Hi Hl]; [by split|done].
Qed.

(** ** The token buffer *)

(** The text up to [previous_token_end], white space, and the buffered token. *)
Definition buffer_ok (l : Lexer) (a w : list Z) : Prop :=
  text_len a = previous_token_end l /\ Forall (fun c => is_whitespace c = true) w /\
  match next_tokens l with
  | [] => rev (before (input l)) = a ++ w
  | [(r, t)] => exists c k, rev (before (input l)) = a ++ w ++ c :: k /\
      r = (text_len (a ++ w), pos (input l)) /\ token_ok c t
  | _ => False
  end.
Definition lexer_ok (s : list Z) (l : Lexer) : Prop :=
  rev (before (input l)) ++ rest (input l) = s /\ exists a w, buffer_ok l a w.
(** What is left to read. *)
Definition left_of (l : Lexer) : nat := (List.length (rest (input l)) + List.length (next_tokens l))%nat.

Definition peeked (s : list Z) (l : Lexer) (p : trange * Token) (l' : Lexer) : Prop :=
  lexer_ok s l' /\ (left_of l' <= left_of l)%nat /\ previous_token_end l' = previous_token_end l /\
  (next_tokens l <> [] -> l' = l) /\
  match next_tokens l' with
  | [q] => p = q
  | _ => rest (input l') = [] /\ p = ((pos (input l'), pos (input l')), Eof)
  end.

Lemma wp_on_input {A} (m : istm A) Q l : wp m (fun a i => Q a (set_input i l)) (input l) -> wp (on_input m) Q l.
Proof. unfold wp, on_input. by destruct (m (input l)) as [[]]. Qed.

Lemma advance_text i i' : advance i i' -> rev (before i') ++ rest i' = rev (before i) ++ rest i.
Proof. intros (k&H1&H2). by rewrite H1, H2, rev_app_distr, rev_involutive, <- app_assoc. Qed.

Lemma peek_loop_ok s fuel l :
  lexer_ok s l -> (List.length (rest (input l)) < fuel)%nat -> wp (peek_loop fuel 1) (peeked s l) l.
Proof.
  revert l. induction fuel as [|fuel IH]; intros l Hok Hf; [lia|]. cbn [peek_loop]. apply wp_bind, wp_get.
  pose proof Hok as [Hs (a&w&Ha&Hw&Hb)].
  destruct (next_tokens l) as [|[r t] [|]] eqn:Et; [| |done]; cbn [nth_error Nat.sub].
  2: { apply wp_ret. split_and!; [done..|]. by rewrite Et. }
  apply wp_bind, wp_get, wp_bind, wp_on_input. unfold wp at 1, ieat. destruct l as [[b [|c r]] ts pe pd]; simpl in *; subst ts.
  { split_and!; [|done..]. split; [done|]. exists a, w. by split. }
  apply wp_bind, wp_get, wp_bind, wp_modify, wp_bind, wp_on_input. cbn [input set_input set_dot].
  eapply wp_mono; [apply lex_one_wp|]. intros t i' [Hi Hlex]. pose proof (advance_text _ _ Hi) as Htext. simpl in Htext.
  destruct Hi as (k&Hk1&Hk2). simpl in Hk1, Hk2.
  assert (Hrev : rev (before i') = a ++ w ++ c :: k).
  { rewrite Hk2, rev_app_distr, rev_involutive. simpl. by rewrite Hb, <- !app_assoc. }
  assert (Hlen : (List.length (rest i') <= List.length r)%nat) by (rewrite Hk1, length_app; lia).
  destruct t as [t|].
  - apply wp_bind, wp_modify, wp_bind, wp_get, wp_bind, wp_modify. cbn [input next_tokens set_input set_dot app set_tokens].
    eapply wp_mono; [apply IH|].
    + split; [cbn; by rewrite Htext, <- app_assoc|]. exists a, w. split; [done|]. split; [done|]. simpl. exists c, k.
      split; [done|]. split; [|done]. f_equal. unfold pos. simpl. by rewrite <- (text_len_rev b), Hb.
    + cbn. lia.
    + intros p l' (H1&H2&H3&_&H5). split_and!; [done| |done..]. unfold left_of in *. simpl in *. lia.
  - destruct Hlex as [Hc ->]. cbn. eapply wp_mono; [apply IH|].
    + split; [cbn; by rewrite <- app_assoc|]. exists a, (w ++ [c]). split; [done|]. split; [apply Forall_app; split; [done|by repeat constructor]|].
      simpl. by rewrite Hb, app_assoc.
    + simpl. lia.
    + intros p l' (H1&H2&H3&_&H5). split_and!; [done| |done..]. unfold left_of in *. simpl in *. lia.
Qed.

(** A character [c] of the text, after [p0] bytes and white space, at [start]. *)
Definition starts_at (s : list Z) (p0 start c : Z) : Prop :=
  exists a w post, s = a ++ w ++ c :: post /\ text_len a = p0 /\ Forall (fun c => is_whitespace c = true) w /\
    start = text_len (a ++ w).
(** A token has been eaten, or the end was there. *)
Definition eaten (s : list Z) (l : Lexer) (p : trange * Token) (l' : Lexer) : Prop :=
  lexer_ok s l' /\ previous_token_end l' = p.1.2 /\
  ((p.2 = Eof /\ next_tokens l = [] /\ (left_of l' <= left_of l)%nat) \/
   ((left_of l' < left_of l)%nat /\ exists c, starts_at s (previous_token_end l) p.1.1 c /\ token_ok c p.2)).

Lemma peek_ok s l : lexer_ok s l -> wp (peek 1) (peeked s l) l.
Proof. intros Hok. unfold peek. apply wp_bind, wp_assert; [done|]. apply wp_bind, wp_get. by apply peek_loop_ok; [|lia]. Qed.

(** Dropping the buffered token. *)
Lemma drop_token s l r t pd :
  lexer_ok s l -> next_tokens l = [(r, t)] -> eaten s l (r, t) (mkLexer (input l) [] r.2 pd).
Proof.
  intros [Hs (a&w&Ha&Hw&Hb)] Ht. rewrite Ht in Hb. destruct Hb as (c&k&Hk&Hr&Htok). subst r. cbn [fst snd].
  split; [|split; [done|]].
  - split; [done|]. exists (a ++ w ++ c :: k), []. split; [|split; [done|]]; cbn; [|by rewrite app_nil_r].
    by rewrite <- Hk, text_len_rev.
  - right. split; [unfold left_of; rewrite Ht; simpl; lia|]. exists c. split; [|done].
    exists a, w, (k ++ rest (input l)). rewrite <- Hs, Hk, <- !app_assoc. by split_and!.
Qed.
Lemma eaten_peeked s l l1 p p' l' : peeked s l p' l1 -> eaten s l1 p l' -> eaten s l p l'.
Proof.
  intros (_&H2&H3&H7&_) (H4&H5&H6). split; [done|]. split; [done|]. rewrite <- H3.
  destruct H6 as [(?&Ht&?)|[? ?]]; [left|right; split; [lia|done]]. split; [done|]. split; [|lia].
  destruct (decide (next_tokens l = [])) as [|Hne]; [done|]. rewrite <- Ht. by rewrite H7.
Qed.
Lemma lexer_ok_end s l pd :
  lexer_ok s l -> next_tokens l = [] -> rest (input l) = [] ->
  eaten s l ((pos (input l), pos (input l)), Eof) (mkLexer (input l) [] (pos (input l)) pd).
Proof.
  intros [Hs (a&w&Ha&Hw&Hb)] Ht Hr. rewrite Ht in Hb. split; [|split; [done|]].
  - split; [done|]. exists (a ++ w), []. split; [|split; [done|]]; cbn; [|by rewrite app_nil_r].
    by rewrite <- Hb, text_len_rev.
  - left. split; [done|]. split; [done|]. unfold left_of. rewrite Ht. simpl. lia.
Qed.

Lemma eat_ok s l : lexer_ok s l -> wp (eat 1) (eaten s l) l.
Proof.
  intros Hok. unfold eat. apply wp_bind, wp_assert; [done|]. apply wp_bind. eapply wp_mono; [by apply peek_ok|].
  intros p l1 Hp. pose proof Hp as (Hok1&_&_&_&Hb).
  apply wp_bind, wp_modify, wp_bind, wp_get, wp_bind, wp_get, wp_bind, wp_modify, wp_ret. cbn [input next_tokens set_end].
  destruct (next_tokens l1) as [|q [|q' ts]] eqn:Et.
  - destruct Hb as [Hr ->]. cbn [take drop last default]. eapply eaten_peeked; [exact Hp|]. exact (lexer_ok_end s l1 (previous_dot l1) Hok1 Et Hr).
  - subst q. destruct p as [r t]. cbn [take drop last default]. eapply eaten_peeked; [exact Hp|]. exact (drop_token s l1 r t (previous_dot l1) Hok1 Et).
  - destruct Hok1 as [_ (a&w&_&_&H)]. rewrite Et in H. by destruct q.
Qed.

Lemma eat_if_ok f s l :
  f Eof = false -> lexer_ok s l ->
  wp (eat_if f) (fun o l' => match o with
                             | Some p => eaten s l p l' /\ f p.2 = true
                             | None => exists p, peeked s l p l' end) l.
Proof.
  intros Hf Hok. unfold eat_if. apply wp_bind. eapply wp_mono; [by apply peek_ok|].
  intros p l1 Hp. pose proof Hp as (Hok1&_&_&_&Hb). destruct (f p.2) eqn:E; [|apply wp_ret; by exists p].
  apply wp_bind, wp_get. destruct (next_tokens l1) as [|q [|q' ts]] eqn:Et.
  - destruct Hb as [Hr ->]. simpl in E. congruence.
  - subst q. destruct p as [r t]. apply wp_bind, wp_modify, wp_bind, wp_modify, wp_ret. cbn.
    split; [|done]. eapply eaten_peeked; [exact Hp|]. exact (drop_token s l1 r t (previous_dot l1) Hok1 Et).
  - destruct Hok1 as [_ (a&w&_&_&H)]. rewrite Et in H. by destruct q.
Qed.
Lemma peek_expect_ok f s l : lexer_ok s l -> wp (peek_expect f) (fun p l' => peeked s l p l' /\ f p.2 = true) l.
Proof.
  intros Hok. unfold peek_expect. apply wp_bind. eapply wp_mono; [by apply peek_ok|]. intros p l1 Hp.
  destruct (f p.2) eqn:E; [by apply wp_ret|by apply wp_fail].
Qed.
(** With a buffered token, [eat] is what [expect] and the loops rely on. *)
Lemma eat_buffered l r t :
  next_tokens l = [(r, t)] -> eat 1 l = (Ret (r, t), mkLexer (input l) [] r.2 (previous_dot l)).
Proof. destruct l as [i ts e d]. simpl. by intros ->. Qed.
Lemma expect_ok f s l :
  f Eof = false -> lexer_ok s l -> wp (expect f) (fun p l' => eaten s l p l' /\ f p.2 = true) l.
Proof.
  intros Hf Hok. unfold expect. apply wp_bind. eapply wp_mono; [by apply peek_expect_ok|]. intros [r t] l1 [Hp Ht].
  pose proof Hp as (Hok1&_&_&_&Hb). simpl in Ht. destruct (next_tokens l1) as [|q [|q' ts]] eqn:Et.
  - destruct Hb as [_ [= _ ->]]. congruence.
  - subst q. unfold wp. rewrite (eat_buffered _ _ _ Et). split; [|done]. eapply eaten_peeked; [exact Hp|]. by apply drop_token.
  - destruct Hok1 as [_ (a&w&_&_&H)]. rewrite Et in H. by destruct q.
Qed.

End Tokens.
