(* ===== verification/ExprParser.v ===== *)
(** The parser of watch expressions (src/interp.rs): recursive descent over the
    tokens of ExprLexer.v into a flat syntax tree. The recursion takes fuel,
    and running out of it is a panic; ExprParserSpec.v shows that the number
    of characters is enough. *)
From Stdlib Require Import ZArith Lia String.
From stdpp Require Import base list.
From S2P Require Import Prelude RustStr Errors StateMonad Registers ExprLexer.
Open Scope Z_scope.

(** ** Syntax tree *)

Abbreviation ASTIdx := nat.
Abbreviation lstm := (stm Lexer Error).
Inductive AST :=
  | Literal (v : LiteralValue)
  | Variable_ (name : list Z) (quoted from_any_frame : bool)
  | UnaryOp (op : UnaryOperator)
  | BinaryOp (op : BinaryOperator)
  | Field (name : list Z) (quoted : bool)
  | TypeCast
  | Type_ (name : list Z) (quoted : bool)
  | PointerType
  | ArrayType (len : option Z)
  | Array
  | Tuple
  | TupleIndexing (i : Z)
  | StructExpression (field_names : list (list Z))
  | Call (name : list Z)
  | Continue
  | Break
  | Return
  | Block
  | While
  | For (name : list Z)
  | If
  | Let_ (name : list Z) (has_type : bool)
  | TypeInfo
  | FunctionDefinition (name : list Z) (arg_names : list (list Z)) (has_return_type : bool)
  | StructDefinition (name : list Z) (field_names : list (list Z)).
Record ASTNode := mkNode { range : trange; node : AST; children : list ASTIdx; has_parens : bool }.
Record Expression := mkExpr { ast : list ASTNode; root : ASTIdx }.

Definition set_start (s : Z) (n : ASTNode) : ASTNode := mkNode (s, (range n).2) (node n) (children n) (has_parens n).
Definition set_node_end (e : Z) (n : ASTNode) : ASTNode := mkNode ((range n).1, e) (node n) (children n) (has_parens n).
Definition set_node (a : AST) (n : ASTNode) : ASTNode := mkNode (range n) a (children n) (has_parens n).
Definition add_child (i : ASTIdx) (n : ASTNode) : ASTNode := mkNode (range n) (node n) (children n ++ [i]) (has_parens n).
Definition set_parens (n : ASTNode) : ASTNode := mkNode (range n) (node n) (children n) true.

(** ** Precedence *)

Inductive Precedence :=
  | PWeakest | PReturn | PComma | PAssign | PRange | PLazyOr | PLazyAnd | PCmp | POr | PXor | PAnd | PShift
  | PAdd | PMul | PTypeCast | PUnary | PCallOrIndex | PField | PStrongest.
Definition prec_rank (p : Precedence) : Z :=
  match p with
  | PWeakest => 0 | PReturn => 1 | PComma => 2 | PAssign => 3 | PRange => 4 | PLazyOr => 5 | PLazyAnd => 6
  | PCmp => 7 | POr => 8 | PXor => 9 | PAnd => 10 | PShift => 11 | PAdd => 12 | PMul => 13 | PTypeCast => 14
  | PUnary => 15 | PCallOrIndex => 16 | PField => 17 | PStrongest => 18
  end.
(** [a >= b] *)
Definition prec_ge (a b : Precedence) : bool := prec_rank b <=? prec_rank a.
Definition binary_operator_precedence (op : BinaryOperator) : Precedence :=
  match op with
  | Add | Sub => PAdd
  | Mul | Div | Rem => PMul
  | BitAnd => PAnd
  | BitOr => POr
  | BitXor => PXor
  | Shl | Shr => PShift
  | OEq | Ne | OGt | OLt | Ge | Le => PCmp
  | LazyAnd => PLazyAnd
  | LazyOr => PLazyOr
  | Assign | AddAssign | SubAssign | MulAssign | DivAssign | RemAssign
  | AndAssign | OrAssign | XorAssign | ShlAssign | ShrAssign => PAssign
  | ORange => PRange
  | Index => PCallOrIndex
  | Slicify => PField
  | Comma => PComma
  end.
Definition unary_operator_precedence (op : UnaryOperator) : Precedence := PUnary.

(** ** The parser's state: the lexer and the nodes made so far *)

Record Parser := mkParser { lex : Lexer; nodes : list ASTNode }.
Abbreviation pstm := (stm Parser Error).

Definition on_lexer {A} (m : lstm A) : pstm A := fun s =>
  let '(r, l) := m (lex s) in (r, mkParser l (nodes s)).
Definition push_node (n : ASTNode) : pstm ASTIdx := fun s =>
  (Ret (List.length (nodes s)), mkParser (lex s) (nodes s ++ [n])).
(** [&expr.ast[i]], and an assignment to it. *)
Definition node_at (i : ASTIdx) : pstm ASTNode := ns ← sget nodes; sopt (ns !! i).
Definition upd_node (i : ASTIdx) (f : ASTNode -> ASTNode) : pstm unit :=
  n ← node_at i; smodify (fun s => mkParser (lex s) (<[i := f n]> (nodes s))).
Definition prev_end : pstm Z := sget (fun s => previous_token_end (lex s)).

Section Parsing.
Context {P : Powi}.

Definition peat : pstm (trange * Token) := on_lexer (eat 1).
Definition ppeek : pstm (trange * Token) := on_lexer (peek 1).
Definition peat_if (f : Token -> bool) : pstm bool :=
  o ← on_lexer (eat_if f); mret (match o with Some _ => true | None => false end).
Definition pexpect (f : Token -> bool) : pstm (trange * Token) := on_lexer (expect f).
Definition pexpect_next (f : Token -> bool) : pstm unit := _ ← on_lexer (peek_expect f); mret tt.
Definition into_identifier (t : Token) : pstm (list Z) :=
  match t with Identifier s _ => mret s | _ => spanic end.
Definition identifier : pstm (list Z) := p ← pexpect is_identifier; into_identifier p.2.

(** ** Types *)

Fixpoint parse_type (fuel : nat) : pstm ASTIdx :=
  match fuel with
  | O => spanic
  | S fuel =>
      '(range, token) ← peat;
      '(a, children) ←
        match token with
        | TBinary Mul => t ← parse_type fuel; mret (PointerType, [t])
        | TBinary BitAnd => syntax_error
        | Identifier s quoted => mret (Type_ s quoted, [])
        | TChar c =>
            if c =? ch "[" then
              t ← parse_type fuel;
              '(_, token) ← peat;
              match token with
              | TChar c =>
                  if c =? ch ";" then
                    '(_, t') ← peat;
                    match t' with
                    | TLiteral (Basic (U len)) => _ ← pexpect (is_char (ch "]")); mret (ArrayType (Some len), [t])
                    | _ => syntax_error
                    end
                  else if c =? ch "]" then mret (ArrayType None, [t])
                  else syntax_error
              | _ => syntax_error
              end
            else syntax_error
        | _ => syntax_error
        end;
      e ← prev_end;
      push_node (mkNode (range.1, e) a children false)
  end.

(** ** Expressions

    [pe] and [pt] are the parsers of subexpressions and types; [n] bounds the
    turns of loops. *)
Section Pieces.
Variable pe : Precedence -> pstm ASTIdx.
Variable pt : pstm ASTIdx.

Fixpoint block_loop (n : nat) (cs : list ASTIdx) : pstm (list ASTIdx) :=
  match n with
  | O => spanic
  | S n =>
      o ← on_lexer (eat_if (is_char (ch "}")));
      match o with
      | Some (range, _) => i ← push_node (mkNode range Tuple [] false); mret (cs ++ [i])
      | None =>
          i ← pe PWeakest;
          '(_, t) ← peat;
          match t with
          | TChar c =>
              if c =? ch ";" then block_loop n (cs ++ [i])
              else if c =? ch "}" then mret (cs ++ [i])
              else syntax_error
          | _ => syntax_error
          end
      end
  end.
Definition parse_block (n : nat) : pstm ASTIdx :=
  '(range, _) ← pexpect (is_char (ch "{"));
  cs ← block_loop n [];
  _ ← sassert (negb (bool_decide (cs = [])));
  e ← prev_end;
  push_node (mkNode (range.1, e) Block cs false).

(** [if lex.eat_if(','')?.is_none() { lex.peek_expect(c)?; }] *)
Definition comma_or (c : Z) : pstm unit :=
  b ← peat_if (is_binary_operator Comma);
  if (b : bool) then mret tt else pexpect_next (is_char c).

(** The fields of a struct expression or definition, up to ['}']. *)
Fixpoint fields_loop (n : nat) (value : pstm ASTIdx) (names : list (list Z)) (cs : list ASTIdx)
    : pstm (list (list Z) * list ASTIdx) :=
  match n with
  | O => spanic
  | S n =>
      '(_, t) ← peat;
      match t with
      | Identifier s _ =>
          _ ← pexpect (is_char (ch ":"));
          v ← value;
          _ ← comma_or (ch "}");
          fields_loop n value (names ++ [s]) (cs ++ [v])
      | TChar c => if c =? ch "}" then mret (names, cs) else syntax_error
      | _ => syntax_error
      end
  end.
Definition parse_struct (n : nat) : pstm (AST * list ASTIdx) :=
  '(_, token) ← peat;
  match token with
  | TChar c =>
      if c =? ch "{" then
        '(names, cs) ← fields_loop n (pe PComma) [] []; mret (StructExpression names, cs)
      else syntax_error
  | Identifier name _ =>
      _ ← pexpect (is_char (ch "{"));
      '(names, cs) ← fields_loop n pt [] []; mret (StructDefinition name names, cs)
  | _ => syntax_error
  end.

Definition parse_return : pstm (AST * list ASTIdx) :=
  '(_, t) ← ppeek;
  let ends := match t with
              | Eof | TBinary Comma => true
              | TChar c => (c =? ch ";") || (c =? ch "}") || (c =? ch ")")
              | _ => false
              end in
  if (ends : bool) then mret (Return, []) else e ← pe PReturn; mret (Return, [e]).
Definition parse_while (n : nat) : pstm (AST * list ASTIdx) :=
  c ← pe PWeakest; b ← parse_block n; mret (While, [c; b]).
Definition parse_for (n : nat) : pstm (AST * list ASTIdx) :=
  name ← identifier;
  _ ← pexpect (is_keyword (text "in"));
  c ← pe PWeakest; b ← parse_block n; mret (For name, [c; b]).
Definition parse_loop (n : nat) : pstm (AST * list ASTIdx) := b ← parse_block n; mret (While, [b]).
Definition parse_if (n : nat) : pstm (AST * list ASTIdx) :=
  c ← pe PWeakest;
  b ← parse_block n;
  els ← peat_if (is_keyword (text "else"));
  if (els : bool) then
    '(_, t) ← ppeek;
    e ← (if is_keyword (text "if") t then pe PStrongest else parse_block n);
    mret (If, [c; b; e])
  else mret (If, [c; b]).
Definition parse_let : pstm (AST * list ASTIdx) :=
  name ← identifier;
  has_type ← peat_if (is_char (ch ":"));
  ts ← (if (has_type : bool) then t ← pt; mret [t] else mret []);
  assign ← peat_if (is_binary_operator Assign);
  vs ← (if (assign : bool) then v ← pe PWeakest; mret [v] else mret []);
  mret (Let_ name has_type, ts ++ vs).
Fixpoint args_loop (n : nat) (names : list (list Z)) (cs : list ASTIdx) : pstm (list (list Z) * list ASTIdx) :=
  match n with
  | O => spanic
  | S n =>
      closed ← peat_if (is_char (ch ")"));
      if (closed : bool) then mret (names, cs)
      else
        name ← identifier;
        _ ← pexpect (is_char (ch ":"));
        t ← pt;
        args_loop n (names ++ [name]) (cs ++ [t])
  end.
Definition parse_fn (n : nat) : pstm (AST * list ASTIdx) :=
  name ← identifier;
  _ ← pexpect (is_char (ch "("));
  '(names, cs) ← args_loop n [] [];
  has_return_type ← peat_if is_arrow;
  ts ← (if (has_return_type : bool) then t ← pt; mret [t] else mret []);
  b ← parse_block n;
  mret (FunctionDefinition name names has_return_type, cs ++ ts ++ [b]).

(** The tree of an identifier that is not quoted: a keyword, or a variable. *)
Definition parse_word (n : nat) (s : list Z) : pstm (AST * list ASTIdx) :=
  if bool_decide (s = text "struct") then parse_struct n
  else if bool_decide (s = text "continue") then mret (Continue, [])
  else if bool_decide (s = text "break") then mret (Break, [])
  else if bool_decide (s = text "return") then parse_return
  else if bool_decide (s = text "while") then parse_while n
  else if bool_decide (s = text "for") then parse_for n
  else if bool_decide (s = text "loop") then parse_loop n
  else if bool_decide (s = text "if") then parse_if n
  else if bool_decide (s = text "let") then parse_let
  else if bool_decide (s = text "fn") then parse_fn n
  else mret (Variable_ s false false, []).

Fixpoint elements_loop (n : nat) (cs : list ASTIdx) : pstm (list ASTIdx) :=
  match n with
  | O => spanic
  | S n =>
      closed ← peat_if (is_char (ch "]"));
      if (closed : bool) then mret cs
      else
        e ← pe PComma;
        _ ← comma_or (ch "]");
        elements_loop n (cs ++ [e])
  end.

(** The first part of an expression: a new node, or one that takes its place. *)
Inductive Prefix := PNode (a : AST) (cs : list ASTIdx) | PReplace (i : ASTIdx).
Definition as_node (p : AST * list ASTIdx) : Prefix := PNode p.1 p.2.
Definition parse_unary (op : UnaryOperator) : pstm Prefix :=
  e ← pe (unary_operator_precedence op); mret (PNode (UnaryOp op) [e]).
Definition parse_prefix (n : nat) (range : trange) (token : Token) : pstm Prefix :=
  match token with
  | TLiteral v => mret (PNode (Literal v) [])
  | Identifier s true => mret (PNode (Variable_ s true false) [])
  | Identifier s false => p ← parse_word n s; mret (as_node p)
  | TBinary BitXor =>
      e ← pe PStrongest;
      x ← node_at e;
      match node x with
      | Variable_ name quoted _ =>
          _ ← upd_node e (set_node (Variable_ name quoted true));
          _ ← upd_node e (set_start range.1);
          mret (PReplace e)
      | _ => syntax_error
      end
  | TBinary Sub => parse_unary Neg
  | TBinary Mul => parse_unary Dereference
  | TBinary BitAnd => parse_unary Borrow
  | TBinary _ => syntax_error
  | TUnary Not => parse_unary Not
  | TUnary _ => spanic
  | TChar c =>
      if c =? ch "{" then
        (* the token has been eaten: [parse_block] expects another *)
        i ← parse_block n; mret (PReplace i)
      else if c =? ch "(" then
        e ← pe PWeakest;
        '(r, t) ← peat;
        if is_char (ch ")") t then
          _ ← upd_node e (set_start range.1);
          _ ← upd_node e (set_node_end r.2);
          _ ← upd_node e set_parens;
          mret (PReplace e)
        else syntax_error
      else if c =? ch "[" then cs ← elements_loop n []; mret (PNode Array cs)
      else syntax_error
  | Arrow | Eof => syntax_error
  end.

(** The arguments of a call, up to [')'] (not eaten), as children of [i]. *)
Fixpoint call_loop (n : nat) (i : ASTIdx) : pstm unit :=
  match n with
  | O => spanic
  | S n =>
      '(_, t) ← ppeek;
      if is_char (ch ")") t then mret tt
      else
        e ← pe PComma;
        _ ← upd_node i (add_child e);
        _ ← comma_or (ch ")");
        call_loop n i
  end.
Definition parse_call (n : nat) (i : ASTIdx) : pstm unit :=
  x ← node_at i;
  match node x with
  | Variable_ name false false =>
      _ ← (if bool_decide (name = text "type") then
             t ← pt;
             _ ← upd_node i (add_child t);
             upd_node i (set_node TypeInfo)
           else _ ← call_loop n i; upd_node i (set_node (Call name)));
      '(r, _) ← pexpect (is_char (ch ")"));
      upd_node i (set_node_end r.2)
  | _ => syntax_error
  end.

(** A node over [i] and [j], from the start of the one to the end of the other. *)
Definition push_pair (i j : ASTIdx) (a : AST) : pstm ASTIdx :=
  x ← node_at i; y ← node_at j; push_node (mkNode ((range x).1, (range y).2) a [i; j] false).

Definition parse_field (i : ASTIdx) : pstm ASTIdx :=
  '(r, t) ← peat;
  x ← node_at i;
  let new a cs := push_node (mkNode ((range x).1, r.2) a (i :: cs) false) in
  match t with
  | Identifier s quoted => new (Field s quoted) []
  | TLiteral v => match as_unsigned v with Some k => new (TupleIndexing k) [] | None => syntax_error end
  | TChar c =>
      if c =? ch "[" then
        e ← pe PWeakest; _ ← pexpect (is_char (ch "]")); new (BinaryOp Slicify) [e]
      else syntax_error
  | _ => syntax_error
  end.

(** The operators after an expression: the next, if it binds tighter than
    [outer] (one such turn), and what it applies to. *)
Definition parse_suffix (n : nat) (outer : Precedence) (i : ASTIdx) : pstm (option ASTIdx) :=
  let weaker p m := if prec_ge outer p then mret None else _ ← peat; j ← m; mret (Some j) in
  '(_, token) ← ppeek;
  match token with
  | TBinary op =>
      let precedence := binary_operator_precedence op in
      weaker precedence (rhs ← pe precedence; push_pair i rhs (BinaryOp op))
  | TChar c =>
      if c =? ch "(" then weaker PCallOrIndex (_ ← parse_call n i; mret i)
      else if c =? ch "[" then
        weaker PCallOrIndex
          (rhs ← pe PWeakest; _ ← pexpect (is_char (ch "]")); push_pair i rhs (BinaryOp Index))
      else if c =? ch "." then weaker PField (parse_field i)
      else mret None
  | Identifier s false =>
      if bool_decide (s = text "as") then weaker PTypeCast (t ← pt; push_pair i t TypeCast) else mret None
  | _ => mret None
  end.
Fixpoint suffix_loop (n : nat) (outer : Precedence) (i : ASTIdx) : pstm ASTIdx :=
  match n with
  | O => spanic
  | S n' =>
      o ← parse_suffix n outer i;
      match o with
      | None => mret i
      | Some j => e ← prev_end; _ ← upd_node j (set_node_end e); suffix_loop n' outer j
      end
  end.

Definition parse_expression_with (n : nat) (outer : Precedence) : pstm ASTIdx :=
  '(range, token) ← peat;
  p ← parse_prefix n range token;
  i ← match p with
      | PReplace i => mret i
      | PNode a cs => e ← prev_end; push_node (mkNode (range.1, e) a cs false)
      end;
  suffix_loop n outer i.
End Pieces.

Fixpoint parse_expression (fuel : nat) (outer : Precedence) : pstm ASTIdx :=
  match fuel with
  | O => spanic
  | S fuel => parse_expression_with (parse_expression fuel) (parse_type fuel) fuel outer
  end.

(** ** Entry points *)

(** [&s[..p]] and [&s[p..]] *)
Fixpoint split_at (s : list Z) (p : Z) : option (list Z * list Z) :=
  if p =? 0 then Some ([], s)
  else match s with
       | [] => None
       | c :: s => match split_at s (p - len_utf8 c) with
                   | Some (a, b) => Some (c :: a, b)
                   | None => None
                   end
       end.

Definition start_lexer (s : list Z) : Lexer := mkLexer (mkStream [] s) [] 0 false.
Definition parse_with (fuel : nat) (s : list Z) : result Expression :=
  let run : pstm Expression :=
    root ← parse_expression fuel PWeakest;
    '(_, t) ← ppeek;
    if negb (is_eof t) then syntax_error
    else
      x ← node_at root;
      '(front, _) ← sopt (split_at s (range x).1);
      '(_, back) ← sopt (split_at s (range x).2);
      _ ← sassert (forallb is_whitespace front);
      _ ← sassert (forallb is_whitespace back);
      ns ← sget nodes;
      mret (mkExpr ns root) in
  (run (mkParser (start_lexer s) [])).1.
Definition parse_watch_expression (s : list Z) : result Expression := parse_with (S (List.length s)) s.

(** ** Expressions as text *)

Definition is_trivial_false (e : Expression) : partial bool :=
  n ← lift_opt (ast e !! root e);
  Ret (match node n with Literal (Basic (U 0)) => true | _ => false end).

Definition needs_parentheses (n : ASTNode) : bool :=
  if has_parens n then false
  else match node n with
       | BinaryOp Index | BinaryOp Slicify => false
       | UnaryOp _ | BinaryOp _ | TypeCast | While | For _ | If | Let_ _ _
       | FunctionDefinition _ _ _ | StructDefinition _ _ => true
       | _ => false
       end.
(** The name assigned to, if the expression is such an assignment. *)
Definition assigned_variable (e : Expression) (n : ASTNode) : partial (option (list Z)) :=
  match node n with
  | BinaryOp Assign =>
      c ← lift_opt (hd_error (children n));
      m ← lift_opt (ast e !! c);
      Ret (match node m with Variable_ name false false => Some name | _ => None end)
  | _ => Ret None
  end.
Definition adjust_expression_for_appending_child_path (s : list Z) : result (list Z) :=
  e ← parse_watch_expression s;
  n ← lift_opt (ast e !! root e);
  v ← widen (assigned_variable e n);
  match v with
  | Some name => Ret name
  | None =>
      let parentheses := match node n with BinaryOp Assign => true | _ => needs_parentheses n end in
      Ret (if parentheses then text "(" ++ s ++ text ")" else s)
  end.

Definition does_expression_need_full_stack (e : Expression) : bool :=
  existsb (fun n => match node n with Variable_ _ _ from_any_frame => from_any_frame | _ => false end) (ast e).

End Parsing.

(** The characters of a name that need no quotes, the first and the others. *)
Definition plain_char (first : bool) (c : Z) : bool :=
  ((97 <=? c) && (c <=? 122)) || ((65 <=? c) && (c <=? 90)) || (c =? ch "_") || (c =? ch "#") || (c =? ch "$") ||
  (c =? ch ":") || (negb first && (48 <=? c) && (c <=? 57)).
Definition should_quote_identifier (name : list Z) : bool :=
  match name with
  | [] => true
  | c :: cs => negb (plain_char true c && forallb (plain_char false) cs)
  end.
Definition make_expression_for_variable (name : list Z) : list Z :=
  match parse_ignore_case name with
  | Some _ => text "`" ++ name ++ text "`"
  | None => if should_quote_identifier name then text "`" ++ name ++ text "`" else name
  end.
