(* ===== verification/ExprParserSpec.v ===== *)
(** The parser of watch expressions ends on every text, with as many turns as
    the text has characters, and panics on none except those that begin with a
    brace, where the assertion about the range of the root can fail. *)
From Stdlib Require Import ZArith Lia String.
From stdpp Require Import base list.
From S2P Require Import Prelude Errors StateMonad ExprLexer ExprLexerSpec ExprParser.
Open Scope Z_scope.

Section Total.
Context {P : Powi} (s : list Z).

Abbreviation tokens_left st := (left_of (lex st)).
Abbreviation end_of st := (previous_token_end (lex st)).

(** The parser went on from [st0] to [st]: it read tokens and added nodes. *)
Definition went (st0 st : Parser) : Prop :=
  lexer_ok s (lex st) /\ nodes st0 `prefix_of` nodes st /\ (tokens_left st <= tokens_left st0)%nat.

Lemma went_refl st : lexer_ok s (lex st) -> went st st.
Proof. intros H. split; [done|]. by split. Qed.
Lemma went_trans a b c : went a b -> went b c -> went a c.
Proof. intros (H1&H2&H3) (H4&H5&H6). split; [done|]. split; [by etrans|lia]. Qed.
Lemma went_length a b : went a b -> (List.length (nodes a) <= List.length (nodes b))%nat.
Proof. intros (_&H&_). by apply prefix_length. Qed.

(** ** Steps *)

Lemma wp_on_lexer {A} (m : lstm A) Q st :
  wp m (fun a l => Q a (mkParser l (nodes st))) (lex st) -> wp (on_lexer m) Q st.
Proof. unfold wp, on_lexer. by destruct (m (lex st)) as [[]]. Qed.

Definition ate (st0 st : Parser) (r : trange) (t : Token) (st' : Parser) : Prop :=
  went st0 st' /\ nodes st' = nodes st /\ end_of st' = r.2 /\ (tokens_left st' <= tokens_left st)%nat /\
  (t <> Eof -> (tokens_left st' < tokens_left st)%nat /\ exists c, starts_at s (end_of st) r.1 c /\ token_ok c t).

Lemma ate_of st0 st p l' : went st0 st -> eaten s (lex st) p l' -> ate st0 st p.1 p.2 (mkParser l' (nodes st)).
Proof.
  intros (H1&H2&H3) (H4&H5&H6). split; [|split; [done|split; [done|]]].
  - split; [done|]. split; [done|]. simpl. destruct H6 as [(_&_&?)|[? _]]; lia.
  - simpl. destruct H6 as [(?&_&?)|[? ?]]; split; [done|done|lia|done].
Qed.

Lemma wp_peat st0 st Q :
  went st0 st -> (forall r t st', ate st0 st r t st' -> Q (r, t) st') -> wp peat Q st.
Proof.
  intros Hw HQ. apply wp_on_lexer. eapply wp_mono; [by apply eat_ok; apply Hw|]. intros [r t] l' He. apply HQ.
  by apply (ate_of _ _ (r, t)).
Qed.
Definition saw (st0 st : Parser) (t : Token) (st' : Parser) : Prop :=
  went st0 st' /\ nodes st' = nodes st /\ end_of st' = end_of st /\ (tokens_left st' <= tokens_left st)%nat /\
  (t <> Eof -> next_tokens (lex st') <> []).
Lemma wp_ppeek st0 st Q :
  went st0 st -> (forall r t st', saw st0 st t st' -> Q (r, t) st') -> wp ppeek Q st.
Proof.
  intros (H1&H2&H3) HQ. apply wp_on_lexer. eapply wp_mono; [by apply peek_ok|]. intros [r t] l' (H4&H5&H6&_&H7). apply HQ.
  split_and!; try done; [split_and!; try done; simpl; lia|]. intros Ht E. simpl in E. rewrite E in H7. destruct H7 as [_ [= _ ->]]. done.
Qed.
Lemma wp_peat_seen st0 st Q :
  went st0 st -> next_tokens (lex st) <> [] ->
  (forall r t st', went st0 st' -> nodes st' = nodes st -> (tokens_left st' < tokens_left st)%nat -> Q (r, t) st') -> wp peat Q st.
Proof.
  intros Hw Hne HQ. apply wp_on_lexer. eapply wp_mono; [by apply eat_ok; apply Hw|]. intros [r t] l' He.
  destruct (ate_of _ _ (r, t) _ Hw He) as (H1&H2&_). apply HQ; [done..|]. by destruct He as (_&_&[(_&?&_)|[? _]]).
Qed.
Lemma wp_peat_if f st0 st Q :
  f Eof = false -> went st0 st ->
  (forall st', went st0 st' -> nodes st' = nodes st -> (tokens_left st' < tokens_left st)%nat -> Q true st') ->
  (forall st', went st0 st' -> nodes st' = nodes st -> (tokens_left st' <= tokens_left st)%nat -> Q false st') ->
  wp (peat_if f) Q st.
Proof.
  intros Hf Hw Ht He. pose proof Hw as (H1&H2&H3). apply wp_bind, wp_on_lexer. eapply wp_mono; [by apply eat_if_ok|].
  intros [p|] l'; [intros [Hp Hfp]|intros (p&H4&H5&_)]; apply wp_ret.
  - destruct (ate_of _ _ _ _ Hw Hp) as (?&?&_&_&Hlt). apply Ht; [done..|]. apply Hlt. intros E. congruence.
  - apply He; [|done..]. split_and!; try done. simpl. lia.
Qed.
Lemma wp_pexpect f st0 st Q :
  f Eof = false -> went st0 st ->
  (forall r t st', f t = true -> ate st0 st r t st' -> (tokens_left st' < tokens_left st)%nat -> Q (r, t) st') -> wp (pexpect f) Q st.
Proof.
  intros Hf Hw HQ. apply wp_on_lexer. eapply wp_mono; [by apply expect_ok; [|apply Hw]|]. intros [r t] l' [He Ht].
  pose proof (ate_of _ _ _ _ Hw He) as Ha. apply HQ; [done..|]. simpl in *. destruct Ha as (_&_&_&_&Hlt). apply Hlt. intros ->. congruence.
Qed.
Lemma wp_pexpect_next f st0 st Q :
  went st0 st -> (forall st', went st0 st' -> nodes st' = nodes st -> (tokens_left st' <= tokens_left st)%nat -> Q tt st') ->
  wp (pexpect_next f) Q st.
Proof.
  intros (H1&H2&H3) HQ. apply wp_bind, wp_on_lexer. eapply wp_mono; [by apply peek_expect_ok|].
  intros p l' [(H4&H5&_) _]. apply wp_ret, HQ; [|done..]. split_and!; try done. simpl. lia.
Qed.
Lemma wp_prev_end Q st : Q (end_of st) st -> wp prev_end Q st.
Proof. done. Qed.

(** A node that was added since [st0]. *)
Definition new_node (st0 : Parser) (i : ASTIdx) (n : ASTNode) (st : Parser) : Prop :=
  (List.length (nodes st0) <= i)%nat /\ nodes st !! i = Some n.
Definition fresh (st0 : Parser) (i : ASTIdx) (st : Parser) : Prop :=
  (List.length (nodes st0) <= i < List.length (nodes st))%nat.

Lemma wp_push_node n st0 st Q :
  went st0 st ->
  (forall i st', went st0 st' -> lex st' = lex st -> nodes st' = nodes st ++ [n] -> new_node st0 i n st' ->
     (List.length (nodes st) <= i)%nat -> Q i st') ->
  wp (push_node n) Q st.
Proof.
  intros Hw HQ. pose proof (went_length _ _ Hw) as Hl. destruct Hw as (H1&[ns H2]&H3). apply HQ; try done.
  - split; [done|]. split; [|done]. exists (ns ++ [n]). simpl. by rewrite H2, app_assoc.
  - split; [done|]. simpl. by rewrite lookup_app_r, Nat.sub_diag.
Qed.
Lemma wp_node_at i st Q : (i < List.length (nodes st))%nat -> (forall n, nodes st !! i = Some n -> Q n st) -> wp (node_at i) Q st.
Proof.
  intros Hi HQ. destruct (lookup_lt_is_Some_2 _ _ Hi) as [n Hn]. apply wp_bind, wp_get. eapply wp_opt; [exact Hn|]. by apply HQ.
Qed.
Lemma wp_upd_node i f st0 st Q :
  went st0 st -> fresh st0 i st ->
  (forall n st', went st0 st' -> lex st' = lex st -> nodes st !! i = Some n -> nodes st' = <[i := f n]> (nodes st) ->
     new_node st0 i (f n) st' -> Q tt st') ->
  wp (upd_node i f) Q st.
Proof.
  intros Hw [Hi Hi'] HQ. apply wp_bind, wp_node_at; [done|]. intros n Hn. apply wp_modify.
  destruct Hw as (H1&[ns H2]&H3). apply (HQ n); try done.
  - split; [done|]. split; [|done]. simpl. rewrite H2, insert_app_r_alt by done. by eexists.
  - split; [done|]. simpl. by apply list_lookup_insert_eq.
Qed.

Lemma fresh_went st0 st i st' : fresh st0 i st -> (List.length (nodes st) <= List.length (nodes st'))%nat -> fresh st0 i st'.
Proof. unfold fresh. lia. Qed.
Lemma new_node_fresh st0 i n st : new_node st0 i n st -> fresh st0 i st.
Proof. intros [H1 H2%lookup_lt_Some]. done. Qed.
Lemma new_node_kept st0 st1 i n st' : new_node st0 i n st1 -> went st1 st' -> new_node st0 i n st'.
Proof. intros [H1 H2] (_&H3&_). split; [done|]. by eapply prefix_lookup_Some. Qed.

(** ** Parsers that make a node *)

Definition made (st : Parser) (i : ASTIdx) (st' : Parser) : Prop :=
  went st st' /\ (tokens_left st' < tokens_left st)%nat /\ exists n, new_node st i n st' /\ (range n).2 = end_of st'.
(** [m] makes a node, when fewer than [k] characters and tokens are left. *)
Definition makes (k : nat) (m : pstm ASTIdx) : Prop :=
  forall st, lexer_ok s (lex st) -> (tokens_left st < k)%nat -> wp m (made st) st.

Lemma wp_makes k m st0 st Q :
  makes k m -> went st0 st -> (tokens_left st < k)%nat ->
  (forall i n st', went st0 st' -> (tokens_left st' < tokens_left st)%nat -> new_node st0 i n st' ->
     (List.length (nodes st) <= i)%nat -> went st st' -> (range n).2 = end_of st' -> Q i st') ->
  wp m Q st.
Proof.
  intros Hm Hw Hk HQ. eapply wp_mono; [by apply Hm; [apply Hw|]|]. intros i st' (H1&H2&n&[H3 H4]&H5).
  eapply HQ; try done; [by eapply went_trans|]. split; [|done]. pose proof (went_length _ _ Hw). lia.
Qed.
(** To push a node over what has been read. *)
Lemma push_makes st st1 a cs start :
  went st st1 -> (tokens_left st1 < tokens_left st)%nat ->
  wp (e ← prev_end; push_node (mkNode (start, e) a cs false)) (made st) st1.
Proof.
  intros Hw Hlt. apply wp_bind, wp_prev_end. eapply wp_push_node; [exact Hw|]. intros i st' Hw' Hl Hn Hnew _.
  split; [done|]. rewrite Hl. split; [done|]. by eexists.
Qed.

Lemma parse_type_ok fuel : makes fuel (parse_type fuel).
Proof.
  induction fuel as [|fuel IH]; intros st Hok Hk; [lia|]. cbn [parse_type]. apply wp_bind.
  eapply wp_peat; [by apply went_refl|]. intros r t st1 (Hw1&_&_&_&Hlt).
  assert (Hlt1 : t <> Eof -> (tokens_left st1 < tokens_left st)%nat) by (intros Ht; by apply Hlt).
  destruct t as [[]| | |c| |w q|]; cbn; try done; specialize (Hlt1 ltac:(done)).
  - apply wp_bind, wp_bind. eapply wp_makes; [exact IH|exact Hw1|lia|]. intros i n st2 Hw2 Hm2 _ _ _ _. apply wp_ret.
    apply push_makes; [done|lia].
  - destruct (c =? ch "["); [|done]. apply wp_bind, wp_bind. eapply wp_makes; [exact IH|exact Hw1|lia|].
    intros i n st2 Hw2 Hm2 _ _ _ _. apply wp_bind. eapply wp_peat; [exact Hw2|]. intros r3 t3 st3 (Hw3&_&_&Hm3&_).
    destruct t3 as [| | |c3| | |]; try done. destruct (c3 =? ch ";").
    + apply wp_bind. eapply wp_peat; [exact Hw3|]. intros r4 t4 st4 (Hw4&_&_&Hm4&_).
      destruct t4 as [| | | |[[]| |]| |]; try done. apply wp_bind. eapply wp_pexpect; [done|exact Hw4|].
      intros r5 t5 st5 _ (Hw5&_&_&Hm5&_) _. apply wp_ret, push_makes; [done|lia].
    + destruct (c3 =? ch "]"); [|done]. apply wp_ret, push_makes; [done|lia].
  - apply wp_bind, wp_ret, push_makes; [done|lia].
Qed.

(** ** The pieces of expressions *)

Section Pieces.
Context (pe : Precedence -> pstm ASTIdx) (pt : pstm ASTIdx) (k : nat).
Hypothesis (Hpe : forall outer, makes k (pe outer)) (Hpt : makes k pt).

(** [m] goes on and returns something. *)
Definition goes {A} (st0 st : Parser) (m : pstm A) (Q : A -> Prop) : Prop :=
  wp m (fun a st' => went st0 st' /\ (tokens_left st' <= tokens_left st)%nat /\ Q a) st.

Lemma goes_bind {A B} st0 st (m : pstm A) (f : A -> pstm B) Q R :
  goes st0 st m Q ->
  (forall a st', went st0 st' -> (tokens_left st' <= tokens_left st)%nat -> Q a -> goes st0 st' (f a) R) ->
  goes st0 st (m ≫= f) R.
Proof.
  intros Hm Hf. apply wp_bind. eapply wp_mono; [exact Hm|]. intros a st' (H1&H2&H3).
  eapply wp_mono; [by apply Hf|]. intros b st2 (H4&H5&H6). split_and!; [done|lia|done].
Qed.
Lemma goes_ret {A} st0 st (a : A) (Q : A -> Prop) : went st0 st -> Q a -> goes st0 st (mret a) Q.
Proof. intros H1 H2. by split_and!. Qed.
Lemma goes_fail {A} st0 st (Q : A -> Prop) : goes st0 st syntax_error Q.
Proof. done. Qed.
Lemma goes_makes st0 st m j : makes j m -> went st0 st -> (tokens_left st < j)%nat -> goes st0 st m (fun _ => True).
Proof. intros Hm Hw Hk. eapply wp_makes; [done..|]. intros i n st' Hw' Hlt _ _ _ _. split_and!; [done|lia|done]. Qed.
Lemma goes_peat st0 st : went st0 st -> goes st0 st peat (fun _ => True).
Proof. intros Hw. eapply wp_peat; [exact Hw|]. intros r t st' (H1&_&_&H2&_). by split_and!. Qed.
Lemma goes_pexpect st0 st f : f Eof = false -> went st0 st -> goes st0 st (pexpect f) (fun p => f p.2 = true).
Proof. intros Hf Hw. eapply wp_pexpect; [done..|]. intros r t st' Ht (H1&_&_&H2&_) _. by split_and!. Qed.
Lemma goes_peat_if st0 st f : f Eof = false -> went st0 st -> goes st0 st (peat_if f) (fun _ => True).
Proof. intros Hf Hw. eapply wp_peat_if; [done..| |]; intros st' H1 _ H2; split_and!; (done || lia). Qed.
Lemma goes_ppeek st0 st : went st0 st -> goes st0 st ppeek (fun _ => True).
Proof. intros Hw. eapply wp_ppeek; [done|]. intros r t st' (H1&_&_&H2&_). by split_and!. Qed.
Lemma goes_identifier st0 st : went st0 st -> goes st0 st identifier (fun _ => True).
Proof.
  intros Hw. eapply goes_bind; [by apply goes_pexpect|]. intros [r t] st' Hw' _ Ht. by destruct t; try done; apply goes_ret.
Qed.
Lemma goes_comma_or st0 st c : went st0 st -> goes st0 st (comma_or c) (fun _ => True).
Proof.
  intros Hw. eapply goes_bind; [by apply goes_peat_if|]. intros b st1 Hw1 _ _. destruct b; [by apply goes_ret|].
  eapply wp_pexpect_next; [exact Hw1|]. intros st2 H1 _ H2. by split_and!.
Qed.

Lemma block_loop_ok n st0 st cs :
  went st0 st -> (tokens_left st < n)%nat -> (tokens_left st < k)%nat -> goes st0 st (block_loop pe n cs) (fun cs' => cs' <> []).
Proof using Hpe.
  revert st cs. induction n as [|n IH]; intros st cs Hw Hn Hk; [lia|]. cbn [block_loop]. apply wp_bind, wp_on_lexer.
  eapply wp_mono; [by apply eat_if_ok; [|apply Hw]|]. intros [p|] l1.
  - intros [Hp _]. destruct (ate_of _ _ _ _ Hw Hp) as (Hw1&_&_&Hm1&_). simpl in Hm1. destruct p as [r t]. apply wp_bind.
    eapply wp_push_node; [exact Hw1|]. intros i st2 Hw2 Hl _ _ _. split_and!; [done|by rewrite Hl|by destruct cs].
  - intros (p&Hok1&Hm1&_). assert (Hw1 : went st0 (mkParser l1 (nodes st))).
    { destruct Hw as (_&H2&H3). split; [done|]. split; [done|]. simpl. lia. }
    assert (Hlt : (tokens_left (mkParser l1 (nodes st)) <= tokens_left st)%nat) by done. clear Hm1.
    generalize dependent (mkParser l1 (nodes st)). intros st1 Hw1 Hlt.
    apply wp_bind. eapply wp_makes; [apply Hpe|exact Hw1|lia|]. intros i n' st2 Hw2 Hm2 _ _ _ _. apply wp_bind.
    eapply wp_peat; [exact Hw2|]. intros r t st3 (Hw3&_&_&Hm3&_). destruct t as [| | |c| | |]; try done.
    destruct (c =? ch ";").
    + eapply wp_mono; [apply IH; [done|lia..]|]. intros cs' st4 (H1&H2&H3). split_and!; [done|lia|done].
    + destruct (c =? ch "}"); [|done]. split_and!; [done|lia|by destruct cs].
Qed.
Lemma parse_block_ok n : (n <= k)%nat -> makes n (parse_block pe n).
Proof using Hpe.
  intros Hnk st Hok Hn. unfold parse_block. apply wp_bind. eapply wp_pexpect; [done|by apply went_refl|].
  intros r t st1 _ (Hw1&_) Hlt. apply wp_bind. eapply wp_mono; [apply block_loop_ok; [exact Hw1|lia..]|].
  intros cs st2 (Hw2&Hm2&Hcs). apply wp_bind, wp_assert; [by case_bool_decide|]. apply push_makes; [done|lia].
Qed.

Lemma fields_loop_ok n st0 st value names cs :
  makes k value -> went st0 st -> (tokens_left st < n)%nat -> (tokens_left st < k)%nat ->
  goes st0 st (fields_loop n value names cs) (fun _ => True).
Proof.
  intros Hv. revert st names cs. induction n as [|n IH]; intros st names cs Hw Hn Hk; [lia|]. cbn [fields_loop].
  apply wp_bind. eapply wp_peat; [exact Hw|]. intros r t st1 (Hw1&_&_&Hm1&Hlt). destruct t as [| | |c| |w q|]; try done.
  - destruct (c =? ch "}"); [|done]. by split_and!.
  - destruct (Hlt ltac:(done)) as [Hlt1 _].
    assert (H : goes st0 st1 (_ ← pexpect (is_char (ch ":")); v ← value; _ ← comma_or (ch "}");
                fields_loop n value (names ++ [w]) (cs ++ [v])) (fun _ => True)).
    { eapply goes_bind; [by apply goes_pexpect|]. intros _ st2 Hw2 Hm2 _.
      eapply goes_bind; [eapply goes_makes; [exact Hv|done|lia]|]. intros v st3 Hw3 Hm3 _.
      eapply goes_bind; [by apply goes_comma_or|]. intros _ st4 Hw4 Hm4 _. apply IH; [done|lia..]. }
    eapply wp_mono; [exact H|]. intros a st2 (H1&H2&_). split_and!; [done|lia|done].
Qed.

(** One step of a piece. *)
Ltac gone := assumption || reflexivity || exact I || lia.
Ltac gmake := eapply goes_makes; [first [apply Hpe | apply Hpt | by apply parse_block_ok]|assumption|lia].
Ltac gsimple :=
  first [ apply goes_peat | apply goes_ppeek | apply goes_pexpect | apply goes_peat_if | apply goes_identifier
        | apply goes_comma_or | apply goes_ret | apply goes_fail ]; gone.
Ltac gstep := eapply goes_bind; [first [gsimple | gmake]|intros ? ? ? ? ?].
Ltac gname a := eapply goes_bind; [first [gsimple | gmake]|intros a ? ? ? ?].
Ltac gauto := repeat (gstep || gsimple || gmake).

Lemma parse_struct_ok st0 st :
  went st0 st -> (tokens_left st < k)%nat -> goes st0 st (parse_struct pe pt k) (fun _ => True).
Proof using Hpe Hpt.
  intros Hw Hk. unfold parse_struct. gname p. destruct p as [r [| | |c| |w q|]]; try done.
  - destruct (c =? ch "{"); [|done]. eapply goes_bind; [by apply fields_loop_ok; [apply Hpe|..]; [|lia..]|].
    intros [names cs] st2 Hw2 _ _. by apply goes_ret.
  - gstep. eapply goes_bind; [by apply fields_loop_ok; [apply Hpt|..]; [|lia..]|].
    intros [names cs] st2 Hw2 _ _. by apply goes_ret.
Qed.
Lemma parse_return_ok st0 st :
  went st0 st -> (tokens_left st < k)%nat -> goes st0 st (parse_return pe) (fun _ => True).
Proof using Hpe.
  intros Hw Hk. unfold parse_return. gname p. destruct p as [r t].
  match goal with |- context [if ?b then _ else _] => destruct b end; gauto.
Qed.
Lemma parse_while_ok st0 st :
  went st0 st -> (tokens_left st < k)%nat -> goes st0 st (parse_while pe k) (fun _ => True).
Proof using Hpe. intros Hw Hk. unfold parse_while. gauto. Qed.
Lemma parse_for_ok st0 st :
  went st0 st -> (tokens_left st < k)%nat -> goes st0 st (parse_for pe k) (fun _ => True).
Proof using Hpe. intros Hw Hk. unfold parse_for. gauto. Qed.
Lemma parse_loop_ok st0 st :
  went st0 st -> (tokens_left st < k)%nat -> goes st0 st (parse_loop pe k) (fun _ => True).
Proof using Hpe. intros Hw Hk. unfold parse_loop. gauto. Qed.
Lemma parse_if_ok st0 st :
  went st0 st -> (tokens_left st < k)%nat -> goes st0 st (parse_if pe k) (fun _ => True).
Proof using Hpe.
  intros Hw Hk. unfold parse_if. do 2 gstep. gname els. destruct els; [|gauto]. gname p. destruct p as [r t].
  eapply goes_bind; [destruct (is_keyword _ t); gmake|]. intros. gauto.
Qed.
Lemma parse_let_ok st0 st :
  went st0 st -> (tokens_left st < k)%nat -> goes st0 st (parse_let pe pt) (fun _ => True).
Proof using Hpe Hpt.
  intros Hw Hk. unfold parse_let. gstep. gname ty. eapply (goes_bind _ _ _ _ (fun _ => True)); [destruct ty; gauto|]. intros ts st1 ? ? _.
  gname asg. eapply (goes_bind _ _ _ _ (fun _ => True)); [destruct asg; gauto|]. intros. gauto.
Qed.
Lemma args_loop_ok n st0 st names cs :
  went st0 st -> (tokens_left st < n)%nat -> (tokens_left st < k)%nat -> goes st0 st (args_loop pt n names cs) (fun _ => True).
Proof using Hpt.
  revert st names cs. induction n as [|n IH]; intros st names cs Hw Hn Hk; [lia|]. cbn [args_loop]. gname closed.
  destruct closed; [gauto|]. do 2 gstep.
  apply wp_bind. eapply wp_makes; [exact Hpt|eassumption|lia|]. intros i x st2 Hw2 Hm2 _ _ _ _.
  eapply wp_mono; [apply IH; [done|lia..]|]. intros b st3 (? & ? & _). split_and!; [done|lia|done].
Qed.
Lemma parse_fn_ok st0 st :
  went st0 st -> (tokens_left st < k)%nat -> goes st0 st (parse_fn pe pt k) (fun _ => True).
Proof using Hpe Hpt.
  intros Hw Hk. unfold parse_fn. do 2 gstep. eapply goes_bind; [apply args_loop_ok; [done|lia..]|].
  intros [names cs] st2 ? ? _. gname rt. eapply (goes_bind _ _ _ _ (fun _ => True)); [destruct rt; gauto|]. intros. gauto.
Qed.
Lemma parse_word_ok w st0 st :
  went st0 st -> (tokens_left st < k)%nat -> goes st0 st (parse_word pe pt k w) (fun _ => True).
Proof using Hpe Hpt.
  intros Hw Hk. unfold parse_word. repeat case_bool_decide;
    first [by apply parse_struct_ok|by apply parse_return_ok|by apply parse_while_ok|by apply parse_for_ok
          |by apply parse_loop_ok|by apply parse_if_ok|by apply parse_let_ok|by apply parse_fn_ok|by apply goes_ret].
Qed.
Lemma elements_loop_ok n st0 st cs :
  went st0 st -> (tokens_left st < n)%nat -> (tokens_left st < k)%nat -> goes st0 st (elements_loop pe n cs) (fun _ => True).
Proof using Hpe.
  revert st cs. induction n as [|n IH]; intros st cs Hw Hn Hk; [lia|]. cbn [elements_loop]. gname closed.
  destruct closed; [gauto|].
  apply wp_bind. eapply wp_makes; [apply Hpe|eassumption|lia|]. intros i x st2 Hw2 Hm2 _ _ _ _.
  assert (H' : goes st0 st2 (_ ← comma_or (ch "]"); elements_loop pe n (cs ++ [i])) (fun _ => True)).
  { gstep. apply IH; [done|lia..]. }
  eapply wp_mono; [exact H'|]. intros b st3 (? & ? & _). split_and!; [done|lia|done].
Qed.

(** Node [i] was made since [st0] and starts at [a]. *)
Definition starts_with (st0 : Parser) (i : ASTIdx) (a : Z) (st : Parser) : Prop :=
  exists n, new_node st0 i n st /\ (range n).1 = a.
(** A step after which that is still so. *)
Definition keeps_start {A} (st0 st : Parser) (i : ASTIdx) (a : Z) (m : pstm A) : Prop :=
  wp m (fun _ st' => went st0 st' /\ (tokens_left st' <= tokens_left st)%nat /\ starts_with st0 i a st') st.

Lemma starts_with_fresh st0 i a st : starts_with st0 i a st -> fresh st0 i st.
Proof. intros (n&H&_). by eapply new_node_fresh. Qed.
Lemma starts_with_nodes st0 i a st st' : starts_with st0 i a st -> nodes st' = nodes st -> starts_with st0 i a st'.
Proof. intros (n&[H1 H2]&H3) E. exists n. split; [|done]. split; [done|by rewrite E]. Qed.
Lemma starts_with_kept st0 i a st st' : starts_with st0 i a st -> went st st' -> starts_with st0 i a st'.
Proof. intros (n&H1&H2) Hw. exists n. split; [|done]. by eapply new_node_kept. Qed.
Lemma keeps_start_bind {A B} st0 st i a (m : pstm A) (f : A -> pstm B) :
  keeps_start st0 st i a m ->
  (forall x st', went st0 st' -> (tokens_left st' <= tokens_left st)%nat -> starts_with st0 i a st' -> keeps_start st0 st' i a (f x)) ->
  keeps_start st0 st i a (m ≫= f).
Proof.
  intros Hm Hf. apply wp_bind. eapply wp_mono; [exact Hm|]. intros x st' (H1&H2&H3).
  eapply wp_mono; [by apply Hf|]. intros y st2 (H4&H5&H6). split_and!; [done|lia|done].
Qed.
(** What only reads keeps the nodes. *)
Lemma keeps_start_goes {A} st0 st i a (m : pstm A) Q :
  went st0 st -> starts_with st0 i a st -> goes st st m Q -> keeps_start st0 st i a m.
Proof.
  intros Hw Hs Hm. eapply wp_mono; [exact Hm|]. intros x st' (H1&H2&_).
  split; [by eapply went_trans|]. split; [done|]. by eapply starts_with_kept.
Qed.
Lemma keeps_start_upd st0 st i a f :
  went st0 st -> starts_with st0 i a st -> (forall n, (range (f n)).1 = (range n).1) -> keeps_start st0 st i a (upd_node i f).
Proof.
  intros Hw Hs Hf. eapply wp_upd_node; [exact Hw|by eapply starts_with_fresh|]. intros n st' Hw' Hl Hn _ Hnew.
  rewrite Hl. split_and!; [done..|]. exists (f n). split; [done|]. rewrite Hf. destruct Hs as (n'&[_ Hn']&<-). congruence.
Qed.

Lemma went_ok st0 st : went st0 st -> went st st.
Proof. intros Hw. apply went_refl, Hw. Qed.
Ltac kread := eapply keeps_start_goes; [assumption|assumption|].
Ltac kupd := apply keeps_start_upd; [assumption..|done].

Lemma call_loop_ok n st0 st i a :
  went st0 st -> starts_with st0 i a st -> (tokens_left st < n)%nat -> (tokens_left st < k)%nat ->
  keeps_start st0 st i a (call_loop pe n i).
Proof using Hpe.
  revert st. induction n as [|n IH]; intros st Hw Hs Hn Hk; [lia|]. cbn [call_loop].
  eapply keeps_start_bind; [kread; by apply goes_ppeek, (went_ok st0)|]. intros [r t] st1 Hw1 Hm1 Hs1.
  destruct (is_char (ch ")") t); [by split_and!|]. apply wp_bind.
  eapply wp_makes; [apply Hpe|exact Hw1|lia|]. intros e x st2 Hw2 Hm2 _ _ Hw12 _.
  assert (Hs2 : starts_with st0 i a st2) by (by eapply starts_with_kept).
  assert (H : keeps_start st0 st2 i a (_ ← upd_node i (add_child e); _ ← comma_or (ch ")"); call_loop pe n i)).
  { eapply keeps_start_bind; [kupd|]. intros _ st3 Hw3 Hm3 Hs3.
    eapply keeps_start_bind; [kread; by apply goes_comma_or, (went_ok st0)|]. intros _ st4 Hw4 Hm4 Hs4. apply IH; [done..|lia|lia]. }
  eapply wp_mono; [exact H|]. intros _ st3 (?&?&?). split_and!; [done|lia|done].
Qed.
Lemma parse_call_ok n st0 st i a :
  went st0 st -> starts_with st0 i a st -> (tokens_left st < n)%nat -> (tokens_left st < k)%nat ->
  keeps_start st0 st i a (parse_call pe pt n i).
Proof using Hpe Hpt.
  intros Hw Hs Hn Hk. unfold parse_call. apply wp_bind, wp_node_at; [by eapply starts_with_fresh|]. intros x Hx.
  destruct (node x) as [|name [] []| | | | | | | | | | | | | | | | | | | | | | |]; try done.
  eapply keeps_start_bind.
  - case_bool_decide.
    + eapply keeps_start_bind; [kread; eapply goes_makes; [exact Hpt|by apply (went_ok st0)|lia]|]. intros t st1 Hw1 Hm1 Hs1.
      eapply keeps_start_bind; [kupd|]. intros _ st2 Hw2 Hm2 Hs2. kupd.
    + eapply keeps_start_bind; [apply call_loop_ok; [done..|lia|lia]|]. intros _ st1 Hw1 Hm1 Hs1. kupd.
  - intros _ st1 Hw1 Hm1 Hs1. eapply keeps_start_bind; [kread; by apply goes_pexpect; [|apply (went_ok st0)]|].
    intros [r t] st2 Hw2 Hm2 Hs2. kupd.
Qed.

(** A new node that takes over the start of node [i]. *)
Definition extends (st0 : Parser) (a : Z) (st : Parser) (m : pstm ASTIdx) : Prop :=
  wp m (fun j st' => went st0 st' /\ (tokens_left st' <= tokens_left st)%nat /\ starts_with st0 j a st') st.

Lemma push_pair_ok st0 st i a j x :
  went st0 st -> starts_with st0 i a st -> fresh st0 j st -> extends st0 a st (push_pair i j x).
Proof.
  intros Hw (n&Hn&Ha) Hj. apply wp_bind, wp_node_at; [by eapply new_node_fresh|]. intros n' Hn'.
  apply wp_bind, wp_node_at; [apply Hj|]. intros y _. eapply wp_push_node; [exact Hw|]. intros i' st' Hw' Hl _ Hnew _.
  rewrite Hl. split_and!; [done..|]. eexists. split; [exact Hnew|]. simpl. destruct Hn as [_ Hn]. congruence.
Qed.
(** After a subexpression or a type, and a closing token. *)
Lemma extends_pair {C} st0 st i a m (f : ASTIdx -> pstm C) x :
  makes k m -> went st0 st -> starts_with st0 i a st -> (tokens_left st < k)%nat ->
  (forall j st', went st0 st' -> goes st' st' (f j) (fun _ => True)) ->
  extends st0 a st (j ← m; _ ← f j; push_pair i j x).
Proof.
  intros Hm Hw Hs Hk Hf. apply wp_bind. eapply wp_makes; [exact Hm|exact Hw|lia|]. intros j n st1 Hw1 Hm1 Hj _ Hw01 _.
  apply wp_bind. eapply wp_mono; [by apply Hf|]. intros _ st2 (Hw12&Hm2&_).
  assert (Hw2 : went st0 st2) by (by eapply went_trans).
  eapply wp_mono; [apply push_pair_ok; [exact Hw2|by eapply starts_with_kept; [|eapply went_trans]|]|].
  - eapply new_node_fresh, new_node_kept; [exact Hj|done].
  - intros i' st3 (H1&H2&H3). split_and!; [done|lia|done].
Qed.
Lemma parse_field_ok st0 st i a :
  went st0 st -> starts_with st0 i a st -> (tokens_left st < k)%nat -> extends st0 a st (parse_field pe i).
Proof using Hpe.
  intros Hw Hs Hk. unfold parse_field. apply wp_bind. eapply wp_peat; [exact Hw|]. intros r t st1 (Hw1&Hn1&_&Hm1&_).
  assert (Hs1 : starts_with st0 i a st1) by (by eapply starts_with_nodes).
  apply wp_bind, wp_node_at; [by eapply starts_with_fresh|]. intros x Hx.
  assert (Hxa : (range x).1 = a) by (destruct Hs1 as (n&[_ Hn]&<-); congruence).
  assert (Hnew : forall st2 y cs, went st0 st2 -> (tokens_left st2 <= tokens_left st1)%nat ->
    wp (push_node (mkNode ((range x).1, r.2) y cs false))
       (fun j st' => went st0 st' /\ (tokens_left st' <= tokens_left st)%nat /\ starts_with st0 j a st') st2).
  { intros st2 y cs Hw2 Hm2. eapply wp_push_node; [exact Hw2|]. intros j st' Hw' Hl _ Hnew _. rewrite Hl.
    split_and!; [done|lia|]. by eexists. }
  destruct t as [| | |c|v|w q|]; try done; [| |by apply Hnew].
  - destruct (c =? ch "["); [|done]. apply wp_bind. eapply wp_makes; [apply Hpe|exact Hw1|lia|]. intros e n st2 Hw2 Hm2 _ _ _ _.
    apply wp_bind. eapply wp_pexpect; [done|exact Hw2|]. intros r3 t3 st3 _ (Hw3&_&_&Hm3&_) _. apply Hnew; [done|lia].
  - destruct (as_unsigned v); [by apply Hnew|done].
Qed.

(** One turn of the loop over operators. *)
Definition suffixed (st0 st : Parser) (a : Z) (o : option ASTIdx) (st' : Parser) : Prop :=
  went st0 st' /\
  match o with
  | None => (tokens_left st' <= tokens_left st)%nat /\ nodes st' = nodes st /\ end_of st' = end_of st
  | Some j => (tokens_left st' < tokens_left st)%nat /\ starts_with st0 j a st'
  end.

Lemma pair_ok st0 st i a m x :
  makes k m -> went st0 st -> starts_with st0 i a st -> (tokens_left st < k)%nat ->
  extends st0 a st (j ← m; push_pair i j x).
Proof.
  intros Hm Hw Hs Hk. assert (H : extends st0 a st (j ← m; _ ← mret tt; push_pair i j x)).
  - apply extends_pair; [done..|]. intros j st' Hw'. apply goes_ret; [by eapply went_ok|done].
  - unfold extends, wp in *. rewrite stm_bind_run in *. by destruct (m st) as [[]].
Qed.

Lemma parse_suffix_ok n outer st0 st i a :
  went st0 st -> starts_with st0 i a st -> (tokens_left st < n)%nat -> (tokens_left st < k)%nat ->
  wp (parse_suffix pe pt n outer i) (suffixed st0 st a) st.
Proof using Hpe Hpt.
  intros Hw Hs Hn Hk. unfold parse_suffix. apply wp_bind. eapply wp_ppeek; [exact Hw|]. intros r t st1 (Hw1&Hn1&He1&Hm1&Hseen).
  assert (Hnone : wp (mret None : pstm (option ASTIdx)) (suffixed st0 st a) st1) by (by split_and!).
  assert (Hs1 : starts_with st0 i a st1) by (by eapply starts_with_nodes).
  assert (Hsome : forall p (m : pstm ASTIdx), t <> Eof ->
    (forall st', went st0 st' -> starts_with st0 i a st' -> (tokens_left st' < n)%nat -> (tokens_left st' < k)%nat -> extends st0 a st' m) ->
    wp (if prec_ge outer p then mret None else _ ← peat; j ← m; mret (Some j)) (suffixed st0 st a) st1).
  { intros p m Ht Hm. destruct (prec_ge outer p); [exact Hnone|]. apply wp_bind.
    eapply wp_peat_seen; [exact Hw1|by apply Hseen|]. intros r2 t2 st2 Hw2 Hn2 Hm2. apply wp_bind.
    eapply wp_mono; [apply Hm; [done|by eapply starts_with_nodes|lia|lia]|]. intros j st3 (H1&H2&H3). apply wp_ret.
    split; [done|]. split; [lia|done]. }
  destruct t as [op| | |c| |w []|]; try exact Hnone.
  - apply Hsome; [done|]. intros st2 Hw2 Hs2 Hlt2 Hk2. apply pair_ok; [apply Hpe|done..].
  - destruct (c =? ch "(").
    { apply Hsome; [done|]. intros st2 Hw2 Hs2 Hlt2 Hk2. apply wp_bind. eapply wp_mono; [by apply parse_call_ok|].
      intros _ st3 (H1&H2&H3). by apply wp_ret. }
    destruct (c =? ch "[").
    { apply Hsome; [done|]. intros st2 Hw2 Hs2 Hlt2 Hk2.
      eapply (extends_pair st0 st2 i a (pe PWeakest) (fun _ => pexpect (is_char (ch "]")))); [apply Hpe|done..|].
      intros j st3 Hw3. eapply wp_mono; [by apply goes_pexpect, (went_ok st0)|]. intros p st4 (?&?&_). by split_and!. }
    destruct (c =? ch "."); [|exact Hnone]. apply Hsome; [done|]. intros st2 Hw2 Hs2 Hlt2 Hk2. by apply parse_field_ok.
  - case_bool_decide; [|exact Hnone]. apply Hsome; [done|]. intros st2 Hw2 Hs2 Hlt2 Hk2. by apply pair_ok.
Qed.

(** The node that stands for all that has been read since [st0]. *)
Definition covers (st0 : Parser) (a : Z) (i : ASTIdx) (st : Parser) : Prop :=
  went st0 st /\ exists n, new_node st0 i n st /\ range n = (a, end_of st).

Lemma suffix_loop_ok n outer st0 st i a :
  covers st0 a i st -> (tokens_left st < n)%nat -> (tokens_left st < k)%nat ->
  wp (suffix_loop pe pt n outer i) (fun j st' => covers st0 a j st' /\ (tokens_left st' <= tokens_left st)%nat) st.
Proof using Hpe Hpt.
  revert st i. induction n as [|n IH]; intros st i (Hw&x&Hx&Hr) Hn Hk; [lia|]. cbn [suffix_loop]. apply wp_bind.
  eapply wp_mono; [apply (parse_suffix_ok (S n) outer st0 st i a); [done| |lia|done]|].
  { exists x. by rewrite Hr. }
  intros [j|] st1 [Hw1 H1].
  - destruct H1 as (Hm1&Hs1). apply wp_bind, wp_prev_end, wp_bind.
    eapply wp_upd_node; [exact Hw1|by eapply starts_with_fresh|]. intros y st2 Hw2 Hl Hy _ Hnew.
    eapply wp_mono; [apply IH|].
    + split; [done|]. exists (set_node_end (end_of st1) y). split; [done|]. rewrite Hl. destruct Hs1 as (y'&[_ Hy']&<-).
      unfold set_node_end. simpl. congruence.
    + rewrite Hl. lia.
    + rewrite Hl. lia.
    + intros j' st3 [H2 H3]. rewrite Hl in H3. split; [done|lia].
  - destruct H1 as (Hm1&Hn1&He1). apply wp_ret. split; [|done]. split; [done|]. exists x. destruct Hx as [Hx1 Hx2].
    split; [split; [done|by rewrite Hn1]|by rewrite He1].
Qed.

(** The first part of an expression that begins with the token [t] at [r]. *)
Definition prefixed (st0 st : Parser) (r : trange) (t : Token) (p : Prefix) (st' : Parser) : Prop :=
  went st0 st' /\ (tokens_left st' <= tokens_left st)%nat /\
  match p with
  | PNode _ _ => True
  | PReplace i => exists n, new_node st0 i n st' /\ (range n).2 = end_of st' /\ ((range n).1 = r.1 \/ t = TChar (ch "{"))
  end.
Lemma prefixed_goes st0 st r t (m : pstm (AST * list ASTIdx)) :
  goes st0 st m (fun _ => True) -> wp (p ← m; mret (as_node p)) (prefixed st0 st r t) st.
Proof. intros H. apply wp_bind. eapply wp_mono; [exact H|]. intros p st' (H1&H2&_). by apply wp_ret. Qed.
Lemma parse_unary_ok st0 st r t op :
  went st0 st -> (tokens_left st < k)%nat -> wp (parse_unary pe op) (prefixed st0 st r t) st.
Proof using Hpe.
  intros Hw Hk. apply wp_bind. eapply wp_makes; [apply Hpe|exact Hw|done|]. intros e n st1 Hw1 Hm1 _ _ _ _. apply wp_ret.
  split; [done|]. split; [lia|done].
Qed.

Lemma parse_frame_ok st0 st r t :
  went st0 st -> (tokens_left st < k)%nat -> wp (parse_prefix pe pt k r (TBinary BitXor)) (prefixed st0 st r t) st.
Proof using Hpe.
  intros Hw Hk. cbn [parse_prefix]. apply wp_bind. eapply wp_makes; [apply Hpe|exact Hw|done|]. intros e n st1 Hw1 Hm1 Hn _ _ He.
  apply wp_bind, wp_node_at; [by eapply new_node_fresh|]. intros n' Hn'. assert (n' = n) as -> by (destruct Hn; congruence).
  destruct (node n) as [|name q []| | | | | | | | | | | | | | | | | | | | | | |]; try done;
    (apply wp_bind; eapply wp_upd_node; [exact Hw1|by eapply new_node_fresh|]; intros n2 st2 Hw2 Hl2 Hn2 _ Hnew2;
     apply wp_bind; eapply wp_upd_node; [exact Hw2|by eapply new_node_fresh|]; intros n3 st3 Hw3 Hl3 Hn3 _ Hnew3;
     apply wp_ret; split; [done|]; rewrite Hl3, Hl2; split; [lia|]; eexists; split; [exact Hnew3|]; split; [|by left];
     destruct Hnew2; simplify_eq; simpl; congruence).
Qed.
Lemma parse_parens_ok st0 st r t :
  went st0 st -> (tokens_left st < k)%nat -> wp (parse_prefix pe pt k r (TChar (ch "("))) (prefixed st0 st r t) st.
Proof using Hpe.
  intros Hw Hk. cbn. apply wp_bind. eapply wp_makes; [apply Hpe|exact Hw|done|]. intros e n st1 Hw1 Hm1 Hn _ _ He.
  apply wp_bind. eapply wp_peat; [exact Hw1|]. intros r2 t2 st2 (Hw2&Hn2&He2&Hm2&_). destruct (is_char (ch ")") t2); [|done].
  assert (Hf2 : fresh st0 e st2) by (destruct (new_node_fresh _ _ _ _ Hn); split; [done|by rewrite Hn2]).
  apply wp_bind. eapply wp_upd_node; [exact Hw2|done|]. intros n3 st3 Hw3 Hl3 Hx3 _ Hnew3.
  apply wp_bind. eapply wp_upd_node; [exact Hw3|by eapply new_node_fresh|]. intros n4 st4 Hw4 Hl4 Hx4 _ Hnew4.
  apply wp_bind. eapply wp_upd_node; [exact Hw4|by eapply new_node_fresh|]. intros n5 st5 Hw5 Hl5 Hx5 _ Hnew5.
  apply wp_ret. split; [done|]. rewrite Hl5, Hl4, Hl3. split; [lia|]. eexists. split; [exact Hnew5|].
  destruct Hnew3, Hnew4. simplify_eq. split; [|by left]. simpl. congruence.
Qed.

Lemma parse_prefix_ok st0 st r t c :
  went st0 st -> (tokens_left st < k)%nat -> token_ok c t -> wp (parse_prefix pe pt k r t) (prefixed st0 st r t) st.
Proof using Hpe Hpt.
  intros Hw Hk Hc. destruct t as [op|op| |x|v|w q|].
  - destruct op; try done; [by apply parse_unary_ok..|by apply parse_frame_ok].
  - simpl in Hc. subst op. by apply parse_unary_ok.
  - done.
  - cbn [parse_prefix]. destruct (Z.eqb_spec x (ch "{")) as [->|].
    { apply wp_bind. eapply wp_makes; [by apply parse_block_ok|exact Hw|lia|]. intros i n st1 Hw1 Hm1 Hn _ _ He.
      apply wp_ret. split; [done|]. split; [lia|]. exists n. by split_and!; [..|right]. }
    destruct (Z.eqb_spec x (ch "(")) as [->|]; [by apply parse_parens_ok|].
    destruct (x =? ch "["); [|done]. apply wp_bind. eapply wp_mono; [apply elements_loop_ok; [exact Hw|done..]|].
    intros cs st1 (H1&H2&_). by apply wp_ret.
  - by apply wp_ret.
  - destruct q; [by apply wp_ret|]. apply prefixed_goes. by apply parse_word_ok.
  - done.
Qed.
End Pieces.

(** The node starts with the first token, unless that is a brace. *)
Definition begins (st : Parser) (i : ASTIdx) (st' : Parser) : Prop :=
  exists n c a, nodes st' !! i = Some n /\ starts_at s (end_of st) a c /\ ((range n).1 = a \/ c = ch "{").

Lemma parse_expression_ok fuel outer st :
  lexer_ok s (lex st) -> (tokens_left st < fuel)%nat ->
  wp (parse_expression fuel outer) (fun i st' => made st i st' /\ begins st i st') st.
Proof.
  revert outer st. induction fuel as [|fuel IH]; intros outer st Hok Hk; [lia|]. cbn [parse_expression].
  assert (Hpe : forall outer, makes fuel (parse_expression fuel outer)).
  { intros outer' st' Hok' Hk'. eapply wp_mono; [by apply IH|]. by intros i st2 [H _]. }
  pose proof (parse_type_ok fuel) as Hpt. clear IH. unfold parse_expression_with. apply wp_bind.
  eapply wp_peat; [by apply went_refl|]. intros r t st1 (Hw1&Hn1&He1&_&Ht).
  destruct (decide (is_eof t = true)) as [Heof|Hne]; [by destruct t|].
  destruct Ht as (Hm1&c&Hstart&Hc); [by intros ->|]. apply wp_bind.
  eapply wp_mono; [apply (parse_prefix_ok _ _ fuel Hpe Hpt st st1 r t c); [done|lia|done]|].
  intros p st2 (Hw2&Hm2&Hp). apply wp_bind.
  assert (Hfirst : wp match p with PReplace i => mret i | PNode a cs => e ← prev_end; push_node (mkNode (r.1, e) a cs false) end
    (fun i st3 => exists a, covers st a i st3 /\ (tokens_left st3 < tokens_left st)%nat /\ (a = r.1 \/ c = ch "{")) st2).
  { destruct p as [a cs|i].
    - apply wp_bind, wp_prev_end. eapply wp_push_node; [exact Hw2|]. intros i st3 Hw3 Hl _ Hnew _. exists r.1. rewrite Hl.
      split; [|split; [lia|by left]]. split; [done|]. eexists. split; [exact Hnew|]. simpl. by rewrite Hl.
    - destruct Hp as (n&Hn&He&Ha). apply wp_ret. exists (range n).1.
      split; [split; [done|]; exists n; split; [done|]; destruct (range n); simpl in *; congruence|]. split; [lia|].
      destruct Ha as [Ha| ->]; [by left|right]. by simpl in Hc. }
  eapply wp_mono; [exact Hfirst|]. intros i st3 (a&Hcov&Hm3&Ha).
  eapply wp_mono; [apply (suffix_loop_ok _ _ fuel Hpe Hpt fuel outer st st3 i a Hcov); lia|].
  intros j st4 [(Hw4&n&Hn&Hr) Hm4]. split.
  - split; [done|]. split; [lia|]. exists n. split; [done|]. by rewrite Hr.
  - exists n, c, r.1. split; [by destruct Hn|]. split; [done|]. rewrite Hr. done.
Qed.

(** ** The whole text *)

Lemma split_at_len a b : split_at (a ++ b) (text_len a) = Some (a, b).
Proof.
  induction a as [|c a IH]; [by destruct b|]. simpl. pose proof (len_utf8_pos c). pose proof (text_len_ge a). pose proof (zlen_nonneg a).
  rewrite (proj2 (Z.eqb_neq _ _)) by lia. replace (len_utf8 c + text_len a - len_utf8 c) with (text_len a) by lia. by rewrite IH.
Qed.
Lemma text_len_nil a : text_len a = 0 -> a = [].
Proof. destruct a as [|c a]; [done|]. simpl. pose proof (len_utf8_pos c). pose proof (text_len_ge a). pose proof (zlen_nonneg a). lia. Qed.
Lemma whitespace_forallb w : Forall (fun c => is_whitespace c = true) w -> forallb is_whitespace w = true.
Proof. intros H. apply forallb_forall. intros c Hc. rewrite Forall_forall in H. by apply H, list_elem_of_In. Qed.

(** Nothing but white space before byte [p], and from byte [p] on. *)
Definition blank_before (p : Z) : Prop :=
  exists a b, s = a ++ b /\ text_len a = p /\ Forall (fun c => is_whitespace c = true) a.
Definition blank_from (p : Z) : Prop :=
  exists a b, s = a ++ b /\ text_len a = p /\ Forall (fun c => is_whitespace c = true) b.
Definition begins_with (x : Z) : Prop :=
  exists w post, s = w ++ x :: post /\ Forall (fun c => is_whitespace c = true) w.

Lemma split_at_Some t p a b : split_at t p = Some (a, b) -> t = a ++ b /\ text_len a = p.
Proof.
  revert p a. induction t as [|c t IH]; intros p a; simpl; destruct (Z.eqb_spec p 0) as [->|]; try by intros [= <- <-].
  destruct (split_at t (p - len_utf8 c)) as [[a' b']|] eqn:E; [|done]. intros [= <- <-]. apply IH in E as [-> E].
  split; [done|]. simpl. lia.
Qed.

(** At the end of the text nothing is left to read. *)
Lemma eof_blank l p l' : peeked s l p l' -> is_eof p.2 = true -> blank_from (previous_token_end l).
Proof.
  intros ([Hs (a&w&Ha&Hw&Hb)]&_&He&_&Hn) Hp. rewrite He in Ha. destruct (next_tokens l') as [|[r t] [|]]; [|subst p|done].
  - destruct Hn as [Hr _]. rewrite Hr, app_nil_r in Hs. exists a, w. by rewrite <- Hs.
  - destruct Hb as (c&k&_&_&Hc). by destruct t.
Qed.
End Total.

(** How the parser ends: with a node, from which the result follows, or with an
    error. *)
Definition parser_ends {P : Powi} (s : list Z) (r : result ASTIdx) (st : Parser) : Prop :=
  match r with
  | Ret i => exists n, nodes st !! i = Some n /\
      match parse_watch_expression s with
      | Ret e => root e = i /\ ast e !! i = Some n /\ blank_before s (range n).1 /\ blank_from s (range n).2
      | Fail _ => True
      | Panic => begins_with s (ch "{") /\ ~ blank_before s (range n).1
      end
  | Fail e => parse_watch_expression s = Fail e
  | Panic => False
  end.

Lemma parser_ends_ok {P : Powi} s :
  let run := parse_expression (S (List.length s)) PWeakest (mkParser (start_lexer s) []) in parser_ends s run.1 run.2.
Proof.
  unfold parser_ends, parse_watch_expression, parse_with. cbn zeta.
  assert (Hok : lexer_ok s (lex (mkParser (start_lexer s) []))) by (split; [done|by exists [], []]).
  pose proof (parse_expression_ok s (S (List.length s)) PWeakest _ Hok) as H. unfold wp in H.
  rewrite stm_bind_run. destruct (parse_expression _ _ _) as [[i| |] st1]; cbn [fst snd]; [|done|].
  2: { exfalso. apply H. unfold left_of. simpl. lia. }
  destruct H as [((Hw1&_)&_&n&[_ Hn]&He) (n'&c&a&Hn'&Hstart&Ha)]; [unfold left_of; simpl; lia|].
  assert (n' = n) as -> by congruence. exists n. split; [done|]. rewrite stm_bind_run.
  assert (Hpeek : wp ppeek (fun p st2 => nodes st2 = nodes st1 /\ peeked s (lex st1) p (lex st2)) st1).
  { apply wp_on_lexer. eapply wp_mono; [by apply peek_ok|]. done. }
  unfold wp in Hpeek. destruct (ppeek st1) as [[[r t]| |] st2]; [|done|done]. destruct Hpeek as [Hn2 Hp].
  destruct (is_eof t) eqn:Heof; [|done]. pose proof (eof_blank _ _ _ _ Hp Heof) as Hblank. rewrite <- He in Hblank.
  cbn [negb]. rewrite stm_bind_run. unfold node_at. srun. rewrite Hn2, Hn. srun.
  destruct Hblank as (b1&b2&Hb&Hbl&Hbw).
  assert (Hback : split_at s (range n).2 = Some (b1, b2)) by (rewrite Hb, <- Hbl; apply split_at_len).
  destruct Hstart as (w0&w&post&Hs&Hw0&Hw&->). apply text_len_nil in Hw0 as ->. simpl in Hs, Ha.
  destruct Ha as [Ha| ->].
  - assert (Hfront : split_at s (range n).1 = Some (w, c :: post)) by (rewrite Hs, Ha; apply split_at_len).
    rewrite Hfront. srun. rewrite Hback. srun. rewrite (whitespace_forallb w) by done. srun.
    rewrite (whitespace_forallb b2) by done. srun. split; [done|]. split; [simpl; by rewrite Hn2|].
    split; [exists w, (c :: post); by rewrite Ha|by exists b1, b2].
  - assert (Hfront : forall f1 f2, s = f1 ++ f2 -> text_len f1 = (range n).1 -> split_at s (range n).1 = Some (f1, f2)).
    { intros f1 f2 Hf <-. rewrite Hf. apply split_at_len. }
    destruct (split_at s (range n).1) as [[f1 f2]|] eqn:Ef; srun.
    2: { split; [by exists w, post|]. intros (a1&a2&Ha1&Hlen&_). by specialize (Hfront _ _ Ha1 Hlen). }
    rewrite Hback. srun. destruct (forallb is_whitespace f1) eqn:Efw; srun.
    2: { split; [by exists w, post|]. intros (a1&a2&Ha1&Hlen&Haw). specialize (Hfront _ _ Ha1 Hlen). injection Hfront as -> ->.
         by rewrite whitespace_forallb in Efw. }
    rewrite (whitespace_forallb b2) by done. srun. split; [done|]. split; [simpl; by rewrite Hn2|].
    split; [|by exists b1, b2]. apply split_at_Some in Ef as [-> <-]. exists f1, f2.
    split; [done|]. split; [done|]. apply Forall_forall. intros x Hx. rewrite forallb_forall in Efw. by apply Efw, list_elem_of_In.
Qed.
Lemma parse_watch_expression_ok {P : Powi} s :
  match parse_watch_expression s with
  | Ret e => exists n, ast e !! root e = Some n /\ blank_before s (range n).1 /\ blank_from s (range n).2
  | Fail _ => True
  | Panic => begins_with s (ch "{")
  end.
Proof.
  pose proof (parser_ends_ok s) as H. cbn zeta in H. destruct (parse_expression _ _ _) as [[i|e|] st]; cbn [fst snd parser_ends] in H; [|by rewrite H|done].
  destruct H as (n&_&H). destruct (parse_watch_expression s) as [e| |]; [|done|tauto]. destruct H as (->&Hn&H). by exists n.
Qed.

(** C14. Parsing a watch expression ends on every text: within as many turns as
    the text has characters and one more the parser ends with an error, which is
    the result, or with a node; it does not run out of turns and no assertion
    inside it fails. With a node, the result is the tree with this node as its
    root, which spans the text but for white space, or an error if something
    follows, or the assertion after the parser fails: only on texts that begin
    with a brace, when there is more than white space before the node. *)
Theorem parse_watch_expression_total {P : Powi} s :
  match parse_expression (S (List.length s)) PWeakest (mkParser (start_lexer s) []) with
  | (Ret i, st) => exists n, nodes st !! i = Some n /\
      match parse_watch_expression s with
      | Ret e => root e = i /\ ast e !! i = Some n /\ blank_before s (range n).1 /\ blank_from s (range n).2
      | Fail _ => True
      | Panic => begins_with s (ch "{") /\ ~ blank_before s (range n).1
      end
  | (Fail e, _) => parse_watch_expression s = Fail e
  | (Panic, _) => False
  end.
Proof. pose proof (parser_ends_ok s) as H. cbn zeta in H. destruct (parse_expression _ _ _) as [[] ?]; exact H. Qed.
