(* ===== verification/ExprPrint.v ===== *)
(** Tokens of watch expressions as text, and the lexer as their inverse. *)
From Stdlib Require Import ZArith Lia String.
From stdpp Require Import base list.
From S2P Require Import Prelude RustText Errors StateMonad ExprLexer ExprLexerSpec.
Open Scope Z_scope.

(** ** Tokens as text *)

Definition show_operator (op : BinaryOperator) : list Z :=
  match op with
  | Add => text "+" | Sub => text "-" | Mul => text "*" | Div => text "/" | Rem => text "%"
  | BitAnd => text "&" | BitOr => text "|" | BitXor => text "^" | Shl => text "<<" | Shr => text ">>"
  | OEq => text "==" | Ne => text "!=" | OGt => text ">" | OLt => text "<" | Ge => text ">=" | Le => text "<="
  | LazyAnd => text "&&" | LazyOr => text "||"
  | Assign => text "=" | AddAssign => text "+=" | SubAssign => text "-=" | MulAssign => text "*="
  | DivAssign => text "/=" | RemAssign => text "%=" | AndAssign => text "&=" | OrAssign => text "|="
  | XorAssign => text "^=" | ShlAssign => text "<<=" | ShrAssign => text ">>="
  | ORange => text ".." | Comma => text ","
  | Index | Slicify => []
  end.
Definition show_token (t : Token) : list Z :=
  match t with
  | TBinary op => show_operator op
  | TUnary _ => text "!"
  | Arrow => text "->"
  | TChar c => [c]
  | TLiteral (Basic (U n)) => to_dec n
  | TLiteral _ => []
  | Identifier s false => s
  | Identifier s true => text "`" ++ s ++ text "`"
  | Eof => []
  end.
(** The tokens, with a space between two. *)
Fixpoint show_tokens (ts : list Token) : list Z :=
  match ts with
  | [] => []
  | [t] => show_token t
  | t :: ts => show_token t ++ 32 :: show_tokens ts
  end.

(** The names that are words of the language: letters, digits after the first
    character, and doubled colons. *)
Definition is_dec (c : Z) : bool := (48 <=? c) && (c <=? 57).
Fixpoint name_rest (s : list Z) : bool :=
  match s with
  | [] => true
  | c :: s' =>
      if ident_char c || is_dec c then name_rest s'
      else (c =? ch ":") && match s' with c2 :: s2 => (c2 =? ch ":") && name_rest s2 | [] => false end
  end.
Definition name_ok (s : list Z) : bool :=
  match s with [] => false | c :: _ => negb (is_dec c) && name_rest s end.
Definition quotable (s : list Z) : bool := forallb (fun c => negb (c =? ch "`") && negb (c =? ch "\")) s.

(** The tokens that can be shown. *)
Definition showable (t : Token) : Prop :=
  match t with
  | TBinary op => op <> Index /\ op <> Slicify
  | TUnary op => op = Not
  | Arrow => True
  | TChar c => c ∈ text "()[]{};@."
  | TLiteral (Basic (U n)) => 0 <= n < 2 ^ 64
  | TLiteral _ => False
  | Identifier s false => name_ok s = true
  | Identifier s true => quotable s = true
  | Eof => False
  end.

(** ** Lexing one token *)

Section Printing.
Context {P : Powi}.

(** What may follow a token: the end, or a space. *)
Definition gap (r : list Z) : Prop := r = [] \/ exists r', r = 32 :: r'.
(** The text [c :: w], before a gap, is the token [t]. *)
Definition lexes_to (c : Z) (w : list Z) (t : Token) : Prop :=
  is_whitespace c = false /\ forall pd b r, gap r ->
    lex_one pd c (mkStream (c :: b) (w ++ r)) = (Ret (Some t), mkStream (rev w ++ c :: b) r).

Lemma to_digit_dec c : 48 <= c <= 57 -> to_digit 10 c = Some (c - 48).
Proof.
  intros Hc. unfold to_digit. rewrite (proj2 (Z.leb_le 48 c)), (proj2 (Z.leb_le c 57)) by lia. cbn [andb].
  by rewrite (proj2 (Z.ltb_lt _ _)) by lia.
Qed.
Lemma digits_of_app ds r : gap r -> Forall (fun c => 48 <= c <= 57) ds -> digits_of 10 (ds ++ r) = ds.
Proof.
  intros Hr. induction 1 as [|c ds Hc _ IH]; [by destruct Hr as [->|[r' ->]]|]. cbn [app digits_of]. unfold is_digit. by rewrite to_digit_dec, IH.
Qed.
Lemma int_value_dec ds acc n i : 0 <= acc -> dec_loop 64 ds acc = Some n -> int_value 10 ds acc i = (Ret n, i).
Proof.
  revert acc. induction ds as [|c ds IH]; intros acc Ha; cbn [dec_loop int_value]; [by intros [= <-]|].
  destruct ((48 <=? c) && (c <=? 57)) eqn:Hc; [|done]. apply andb_prop in Hc as [H1%Z.leb_le H2%Z.leb_le].
  cbv zeta. destruct (Z.ltb_spec (acc * 10 + (c - 48)) (2 ^ 64)) as [Hlt|]; [|done]. intros Hd.
  unfold checked_mul. rewrite (proj2 (Z.ltb_lt (acc * 10) _)) by lia. rewrite to_digit_dec by done. srun.
  unfold checked_add. rewrite (proj2 (Z.ltb_lt _ _)) by done. apply IH; [lia|done].
Qed.

Lemma eat_if_eq_gap c b r : c <> 32 -> gap r -> eat_if_eq c (mkStream b r) = (Ret false, mkStream b r).
Proof.
  intros Hc [->|[r' ->]]; rewrite eat_if_eq_run; [done|]. cbn [rest]. by rewrite (proj2 (Z.eqb_neq 32 c)) by done.
Qed.

Lemma lex_number_dec pd ds n b r :
  gap r -> Forall (fun c => 48 <= c <= 57) ds -> dec_loop 64 ds 0 = Some n ->
  lex_number pd (mkStream b (ds ++ r)) = (Ret (Basic (U n)), mkStream (rev ds ++ b) r).
Proof.
  intros Hr Hds Hn. unfold lex_number. rewrite stm_bind_run. unfold eat_digits at 1. cbn [rest before].
  rewrite digits_of_app, drop_app_length by done. set (i := mkStream _ _).
  assert (Hno : forall c, c <> 32 -> eat_if_eq c i = (Ret false, i)) by (intros; by apply eat_if_eq_gap).
  assert (Hx : lex_radix ds i = (Ret (10, ds), i)).
  { unfold lex_radix. case_bool_decide; [|done]. srun. rewrite Hno by done. srun. rewrite Hno by done. by srun. }
  assert (Hf : lex_fraction pd 10 i = (Ret (false, false, []), i)).
  { unfold lex_fraction. destruct pd; [done|]. srun. rewrite Hno by done. by srun. }
  assert (He : lex_exponent pd i = (Ret (0, false, []), i)).
  { unfold lex_exponent. srun. destruct pd; srun; [|rewrite Hno by done; srun]; rewrite Hno by done; by srun. }
  assert (Hc : check_suffix pd false i = (Ret tt, i)) by (subst i; by destruct Hr as [->|[r' ->]]).
  srun. rewrite Hx. srun. rewrite Hf. srun. rewrite He. srun. rewrite Hc. srun. cbn [orb Z.eqb negb]. srun.
  rewrite (int_value_dec _ _ n) by done. by srun.
Qed.

Lemma ident_loop_name fuel acc s b r :
  gap r -> name_rest s = true -> (List.length s < fuel)%nat ->
  ident_loop fuel acc (mkStream b (s ++ r)) = (Ret (acc ++ s), mkStream (rev s ++ b) r).
Proof.
  intros Hr. revert acc s b. induction fuel as [|fuel IH]; intros acc s b Hs Hf; [lia|]. cbn [ident_loop]. unfold ipeek, ieat, uneat. srun.
  destruct s as [|c s]; cbn [app rest hd_error].
  - rewrite app_nil_r. by destruct Hr as [->|[r' ->]].
  - cbn [name_rest] in Hs. unfold is_dec in Hs. destruct (ident_char c || (48 <=? c) && (c <=? 57)) eqn:Ec.
    + srun. cbn [rest before]. rewrite IH by (done || (simpl in Hf; lia)). cbn [rev]. by rewrite <- !app_assoc.
    + apply andb_prop in Hs as [Hc Hs]. rewrite Hc. destruct s as [|c2 s]; [done|]. apply andb_prop in Hs as [Hc2 Hs].
      apply Z.eqb_eq in Hc as ->. apply Z.eqb_eq in Hc2 as ->. do 2 (srun; cbn [app rest before hd_error]).
      rewrite bool_decide_true by done. srun. cbn [rest before]. rewrite IH by (done || (simpl in Hf; lia)).
      cbn [rev]. by rewrite <- !app_assoc.
Qed.
Lemma quoted_loop_name fuel acc s b r :
  quotable s = true -> (List.length s < fuel)%nat ->
  quoted_loop fuel (ch "`") acc (mkStream b (s ++ ch "`" :: r)) =
    (Ret (acc ++ s), mkStream (ch "`" :: rev s ++ b) r).
Proof.
  revert acc s b. induction fuel as [|fuel IH]; intros acc s b Hs Hf; [lia|]. cbn [quoted_loop]. unfold ieat. srun.
  destruct s as [|c s]; cbn [app rest before].
  - rewrite Z.eqb_refl. srun. by rewrite app_nil_r.
  - unfold quotable in Hs. cbn [forallb] in Hs. apply andb_prop in Hs as [Hc Hs]. apply andb_prop in Hc as [H1 H2].
    apply negb_true_iff in H1, H2. rewrite H1, H2. rewrite IH by (done || (simpl in Hf; lia)). cbn [rev]. by rewrite <- !app_assoc.
Qed.

Lemma lex_one_digit pd c i :
  is_dec c = true -> lex_one pd c i = (_ ← uneat; v ← lex_number pd; mret (Some (TLiteral v))) i.
Proof.
  intros [H1%Z.leb_le H2%Z.leb_le]%andb_prop. assert (Hc : c ∈ seqZ 48 10) by (apply elem_of_seqZ; lia).
  vm_compute in Hc. repeat (apply elem_of_cons in Hc as [->|Hc]; [reflexivity|]). by apply elem_of_nil in Hc.
Qed.
Lemma ident_char_range c : ident_char c = true -> c ∈ filter (fun c => ident_char c = true) (seqZ 0 128).
Proof.
  intros Hc. apply list_elem_of_filter. split; [done|]. apply elem_of_seqZ. revert Hc. unfold ident_char.
  change (ch "_") with 95. change (ch "#") with 35. change (ch "$") with 36. intros Hc. zbool. lia.
Qed.
Lemma lex_one_ident pd c i :
  ident_char c = true -> lex_one pd c i = (_ ← uneat; s ← lex_identifier; mret (Some (Identifier s false))) i.
Proof.
  intros Hc%ident_char_range. vm_compute in Hc. repeat (apply elem_of_cons in Hc as [->|Hc]; [reflexivity|]).
  by apply elem_of_nil in Hc.
Qed.

Lemma lexes_number ds n c w :
  ds = c :: w -> Forall (fun c => 48 <= c <= 57) ds -> dec_loop 64 ds 0 = Some n -> lexes_to c w (TLiteral (Basic (U n))).
Proof.
  intros -> Hds Hn. pose proof Hds as Hds'. apply Forall_cons_1 in Hds' as [Hc _].
  assert (Hdec : is_dec c = true) by (unfold is_dec; rewrite (proj2 (Z.leb_le 48 c)), (proj2 (Z.leb_le c 57)) by lia; done).
  split.
  - unfold is_whitespace. change (ch " ") with 32. rewrite !(proj2 (Z.eqb_neq c _)) by lia. done.
  - intros pd b r Hr. rewrite lex_one_digit by done. rewrite stm_bind_run. unfold uneat. cbn [before rest].
    change (c :: w ++ r) with ((c :: w) ++ r). rewrite stm_bind_run, (lex_number_dec _ _ n) by done.
    cbn [rev]. by rewrite <- app_assoc.
Qed.
Lemma lexes_name c w : name_ok (c :: w) = true -> lexes_to c w (Identifier (c :: w) false).
Proof.
  intros [Hd Hr]%andb_prop. apply negb_true_iff in Hd.
  assert (Hloop : forall b r, gap r -> lex_identifier (mkStream b (c :: w ++ r)) = (Ret (c :: w), mkStream (rev w ++ c :: b) r)).
  { intros b r Hg. unfold lex_identifier. srun. cbn [rest]. change (c :: w ++ r) with ((c :: w) ++ r).
    rewrite ident_loop_name; [|done|done|rewrite length_app; lia]. cbn [rev app]. by rewrite <- app_assoc. }
  cbn [name_rest] in Hr. rewrite Hd, orb_false_r in Hr. split.
  - destruct (ident_char c) eqn:E.
    + apply ident_char_range in E. vm_compute in E. repeat (apply elem_of_cons in E as [->|E]; [reflexivity|]). by apply elem_of_nil in E.
    + apply andb_prop in Hr as [->%Z.eqb_eq _]. done.
  - intros pd b r Hg. destruct (ident_char c) eqn:E.
    + rewrite lex_one_ident by done. rewrite stm_bind_run. unfold uneat. cbn [before rest]. by rewrite stm_bind_run, Hloop.
    + apply andb_prop in Hr as [->%Z.eqb_eq Hr]. destruct w as [|c2 w]; [done|]. apply andb_prop in Hr as [->%Z.eqb_eq Hr].
      change (lex_one pd (ch ":") (mkStream (ch ":" :: b) ((ch ":" :: w) ++ r)))
        with ((s ← lex_identifier; mret (Some (Identifier s false))) (mkStream b (ch ":" :: (ch ":" :: w) ++ r))).
      by rewrite stm_bind_run, Hloop.
Qed.
Lemma lexes_quoted s : quotable s = true -> lexes_to (ch "`") (s ++ [ch "`"]) (Identifier s true).
Proof.
  intros Hs. split; [done|]. intros pd b r Hg. rewrite <- app_assoc. cbn [app].
  change (lex_one pd (ch "`") ?i) with ((s ← lex_quoted (ch "`"); mret (Some (Identifier s true))) i).
  rewrite stm_bind_run. unfold lex_quoted. srun. cbn [rest]. rewrite quoted_loop_name; [|done|rewrite length_app; lia].
  cbn [app]. by rewrite rev_app_distr.
Qed.

(** One character of the gap decides. *)
Ltac lex_gap := intros pd b r [->|[r' ->]]; reflexivity.
Lemma showable_lexes t : showable t -> exists c w, show_token t = c :: w /\ lexes_to c w t.
Proof.
  destruct t as [op|op| |c|[[]| |]|s []|]; simpl; try done.
  - intros [H1 H2]. destruct op; try done; (eexists _, _; split; [reflexivity|]; split; [done|lex_gap]).
  - intros ->. eexists _, _; split; [reflexivity|]; split; [done|lex_gap].
  - intros _. eexists _, _; split; [reflexivity|]; split; [done|lex_gap].
  - intros Hc. exists c, []. split; [done|]. vm_compute in Hc.
    repeat (apply elem_of_cons in Hc as [->|Hc]; [split; [done|lex_gap]|]). by apply elem_of_nil in Hc.
  - intros Hx. destruct (dec_digits_spec 20 x []) as (ds&Hds&Hall&Hne&Hval); [change (10 ^ Z.of_nat 20) with (10 ^ 20); lia|].
    unfold to_dec. rewrite Hds, app_nil_r. destruct ds as [|c w]; [by destruct Hne|]. exists c, w. split; [done|].
    eapply lexes_number; [done..|]. apply Hval. lia.
  - intros Hs. exists (ch "`"), (s ++ [ch "`"]). split; [done|]. by apply lexes_quoted.
  - intros Hs. destruct s as [|c w]; [done|]. exists c, w. split; [done|]. by apply lexes_name.
Qed.

(** ** The token buffer *)

(** What is left of the text is the tokens [ts]. *)
Definition holds (l : Lexer) (ts : list Token) : Prop :=
  Forall showable ts /\
  match next_tokens l with
  | [] => exists k, rest (input l) = replicate k 32 ++ show_tokens ts
  | [(r, t)] => exists ts' k, ts = t :: ts' /\ rest (input l) = replicate k 32 ++ show_tokens ts'
  | _ => False
  end.

Lemma peek_loop_spaces fuel l k rest' :
  next_tokens l = [] -> rest (input l) = replicate k 32 ++ rest' ->
  peek_loop (k + fuel) 1 l =
  peek_loop fuel 1 (mkLexer (mkStream (replicate k 32 ++ before (input l)) rest') [] (previous_token_end l)
                      (match k with O => previous_dot l | _ => false end)).
Proof.
  revert l. induction k as [|k IH]; intros [[b r] ts pe pd] Ht Hr; simpl in Ht, Hr; subst ts r; [done|].
  assert (Hstep : peek_loop (S k + fuel) 1 (mkLexer (mkStream b (32 :: replicate k 32 ++ rest')) [] pe pd) =
    peek_loop (k + fuel) 1 (mkLexer (mkStream (32 :: b) (replicate k 32 ++ rest')) [] pe false)) by done.
  rewrite Hstep, IH by done. cbn [input before previous_dot previous_token_end].
  replace (replicate k 32 ++ 32 :: b) with (replicate (S k) 32 ++ b)
    by (by rewrite <- replicate_cons_app || (rewrite replicate_S_end, <- app_assoc; done)).
  by destruct k.
Qed.

(** The text after the first token. *)
Definition show_rest (ts : list Token) : list Z := match ts with [] => [] | _ => 32 :: show_tokens ts end.
Lemma show_tokens_cons t ts : show_tokens (t :: ts) = show_token t ++ show_rest ts.
Proof. destruct ts; [|done]. simpl. by rewrite app_nil_r. Qed.
Lemma show_rest_gap ts : gap (show_rest ts).
Proof. destruct ts; [by left|right]. by eexists. Qed.
Lemma show_rest_spaces ts : exists k, show_rest ts = replicate k 32 ++ show_tokens ts.
Proof. destruct ts; [by exists O|by exists 1%nat]. Qed.

Lemma peek_holds l t ts :
  holds l (t :: ts) -> exists r l', peek 1 l = (Ret (r, t), l') /\ holds l' (t :: ts) /\ next_tokens l' = [(r, t)].
Proof.
  intros [Hsh Hl]. destruct (next_tokens l) as [|[r t'] [|]] eqn:Et; [| |done].
  - destruct Hl as [k Hr]. pose proof Hsh as Hsh'. apply Forall_cons_1 in Hsh' as [Ht Hts].
    destruct (showable_lexes t Ht) as (c&w&Hc&Hws&Hlex). rewrite show_tokens_cons, Hc in Hr.
    assert (Hf : exists fuel, S (S (List.length (rest (input l)))) = (k + S (S fuel))%nat).
    { rewrite Hr, length_app, length_replicate. exists (List.length ((c :: w) ++ show_rest ts)). lia. }
    destruct Hf as [fuel Hf]. eexists _, _. unfold peek. srun. rewrite Hf, (peek_loop_spaces _ _ k _ Et Hr).
    cbn [peek_loop app]. srun. cbn [next_tokens nth_error Nat.sub]. srun. unfold on_input at 1, ieat at 1.
    cbn [input rest before set_input set_tokens next_tokens]. srun. unfold on_input at 1. cbn [input set_input set_dot rest before].
    rewrite Hlex by apply show_rest_gap. srun. cbn. split; [reflexivity|]. split; [|done]. split; [done|]. cbn.
    destruct (show_rest_spaces ts) as [k' Hk']. by exists ts, k'.
  - destruct Hl as (ts'&k&[= <- <-]&Hr). exists r, l. split; [|split; [|done]].
    + unfold peek. srun. destruct l as [i tks pe pd]. simpl in Et. by subst tks.
    + split; [done|]. rewrite Et. by exists ts, k.
Qed.
Lemma peek_holds_eof l : holds l [] -> exists r l', peek 1 l = (Ret (r, Eof), l') /\ holds l' [].
Proof.
  intros [Hsh Hl]. destruct (next_tokens l) as [|[r t'] [|]] eqn:Et; [|by destruct Hl as (?&?&?&_)|done].
  destruct Hl as [k Hr]. assert (Hf : exists fuel, S (S (List.length (rest (input l)))) = (k + S fuel)%nat).
  { rewrite Hr, length_app, length_replicate. exists (S (List.length (show_tokens []))). lia. }
  destruct Hf as [fuel Hf]. eexists _, _. unfold peek. srun. rewrite Hf, (peek_loop_spaces _ _ k _ Et Hr).
  cbn. split; [reflexivity|]. split; [done|]. by exists O.
Qed.
Lemma eat_holds l t ts :
  holds l (t :: ts) -> exists r l', eat 1 l = (Ret (r, t), l') /\ holds l' ts.
Proof.
  intros H. destruct (peek_holds l t ts H) as (r&l1&Hp&[Hsh Hl]&Ht). rewrite Ht in Hl. destruct Hl as (ts'&k&[= <-]&Hr).
  eexists r, _. unfold eat. srun. rewrite Hp. srun. cbn [next_tokens set_end input]. rewrite Ht. cbn. split; [reflexivity|].
  split; [by apply Forall_cons_1 in Hsh as [_ ?]|]. cbn. by exists k.
Qed.
Lemma eat_if_holds (f : Token -> bool) l t ts :
  holds l (t :: ts) ->
  if (f t : bool) then exists o l', eat_if f l = (Ret (Some o), l') /\ holds l' ts
  else exists l', eat_if f l = (Ret None, l') /\ holds l' (t :: ts).
Proof.
  intros H. destruct (peek_holds l t ts H) as (r&l1&Hp&Hh&Ht). unfold eat_if. srun. rewrite Hp. srun.
  destruct (f t); srun; [|by exists l1]. rewrite Ht. destruct Hh as [Hsh Hl]. rewrite Ht in Hl.
  destruct Hl as (ts'&k&[= <-]&Hr). eexists (r, t), _. split; [reflexivity|]. split; [by apply Forall_cons_1 in Hsh as [_ ?]|]. cbn. by exists k.
Qed.
Lemma expect_holds (f : Token -> bool) l t ts :
  holds l (t :: ts) -> f t = true -> exists r l', expect f l = (Ret (r, t), l') /\ holds l' ts.
Proof.
  intros H Hf. destruct (peek_holds l t ts H) as (r&l1&Hp&Hh&Ht). unfold expect, peek_expect. srun. rewrite Hp. srun.
  rewrite Hf. srun. by apply eat_holds.
Qed.
Lemma start_holds ts : Forall showable ts -> holds (mkLexer (mkStream [] (show_tokens ts)) [] 0 false) ts.
Proof. intros H. split; [done|]. by exists O. Qed.
End Printing.
