(* ===== verification/ExprRoundtrip.v ===== *)
(** Printing and parsing of watch expressions: an expression printed with
    parentheses only where the precedences of the operators ask for them is
    parsed to its own syntax tree. *)
From Stdlib Require Import ZArith Lia String.
From stdpp Require Import base list.
From S2P Require Import Prelude Errors StateMonad Registers ExprLexer ExprLexerSpec ExprParser ExprParserSpec ExprPrint.
Open Scope Z_scope.

(** ** Expressions and their tokens *)

Inductive ty :=
  | TyName (name : list Z) (quoted : bool)
  | TyPointer (t : ty)
  | TyArray (t : ty) (len : option Z).
Inductive expr :=
  | EInt (n : Z)
  | EVar (name : list Z) (quoted : bool)
  | EUnary (op : UnaryOperator) (e : expr)
  | EBinary (op : BinaryOperator) (a b : expr)
  | EIndex (a b : expr)
  | ESlicify (a b : expr)
  | EField (a : expr) (name : list Z) (quoted : bool)
  | ETupleIndex (a : expr) (n : Z)
  | ECast (a : expr) (t : ty).

(** How tightly the outermost operator binds. *)
Definition level (e : expr) : Precedence :=
  match e with
  | EInt _ | EVar _ _ => PStrongest
  | EUnary op _ => unary_operator_precedence op
  | EBinary op _ _ => binary_operator_precedence op
  | EIndex _ _ => PCallOrIndex
  | ESlicify _ _ | EField _ _ _ | ETupleIndex _ _ => PField
  | ECast _ _ => PTypeCast
  end.
(** Whether an operand needs parentheses: to the right of an operator with
    precedence [outer], and to the left of one with precedence [p]. *)
Definition right_parens (outer : Precedence) (e : expr) : bool :=
  match e with EUnary _ _ => false | _ => prec_ge outer (level e) end.
Definition left_parens (p : Precedence) (e : expr) : bool := negb (prec_ge (level e) p).
Definition wrap (parens : bool) (ts : list Token) : list Token :=
  if parens then TChar (ch "(") :: ts ++ [TChar (ch ")")] else ts.

Fixpoint ty_tokens (t : ty) : list Token :=
  match t with
  | TyName s q => [Identifier s q]
  | TyPointer t => TBinary Mul :: ty_tokens t
  | TyArray t None => TChar (ch "[") :: ty_tokens t ++ [TChar (ch "]")]
  | TyArray t (Some n) => TChar (ch "[") :: ty_tokens t ++ [TChar (ch ";"); TLiteral (Basic (U n)); TChar (ch "]")]
  end.
Definition unary_token (op : UnaryOperator) : Token :=
  match op with Neg => TBinary Sub | Not => TUnary Not | Borrow => TBinary BitAnd | Dereference => TBinary Mul end.
Fixpoint tokens (e : expr) : list Token :=
  match e with
  | EInt n => [TLiteral (Basic (U n))]
  | EVar s q => [Identifier s q]
  | EUnary op e => unary_token op :: wrap (right_parens PUnary e) (tokens e)
  | EBinary op a b =>
      let p := binary_operator_precedence op in
      wrap (left_parens p a) (tokens a) ++ TBinary op :: wrap (right_parens p b) (tokens b)
  | EIndex a b => wrap (left_parens PCallOrIndex a) (tokens a) ++ TChar (ch "[") :: tokens b ++ [TChar (ch "]")]
  | ESlicify a b =>
      wrap (left_parens PCallOrIndex a) (tokens a) ++ TChar (ch ".") :: TChar (ch "[") :: tokens b ++ [TChar (ch "]")]
  | EField a s q => wrap (left_parens PCallOrIndex a) (tokens a) ++ [TChar (ch "."); Identifier s q]
  | ETupleIndex a n => wrap (left_parens PCallOrIndex a) (tokens a) ++ [TChar (ch "."); TLiteral (Basic (U n))]
  | ECast a t => wrap (left_parens PTypeCast a) (tokens a) ++ Identifier (text "as") false :: ty_tokens t
  end.
(** The text of an expression. *)
Definition show_expr (e : expr) : list Z := show_tokens (tokens e).

Definition keywords : list (list Z) :=
  [text "struct"; text "continue"; text "break"; text "return"; text "while"; text "for"; text "loop"; text "if";
   text "let"; text "fn"].
Definition word_ok (s : list Z) (quoted : bool) : bool := if quoted then quotable s else name_ok s.
Fixpoint ty_ok (t : ty) : Prop :=
  match t with
  | TyName s q => word_ok s q = true
  | TyPointer t => ty_ok t
  | TyArray t len => ty_ok t /\ match len with Some n => 0 <= n < 2 ^ 64 | None => True end
  end.
(** What can be printed: numbers of 64 bits, names that are words and not
    keywords, or quoted; operators that stand between operands. *)
Fixpoint expr_ok (e : expr) : Prop :=
  match e with
  | EInt n => 0 <= n < 2 ^ 64
  | EVar s q => word_ok s q = true /\ (q = false -> s ∉ keywords)
  | EUnary _ e => expr_ok e
  | EBinary op a b => op <> Index /\ op <> Slicify /\ expr_ok a /\ expr_ok b
  | EIndex a b | ESlicify a b => expr_ok a /\ expr_ok b
  | EField a s q => expr_ok a /\ word_ok s q = true
  | ETupleIndex a n => expr_ok a /\ 0 <= n < 2 ^ 64
  | ECast a t => expr_ok a /\ ty_ok t
  end.

(** ** Trees *)

Definition shape (ns : list ASTNode) (i : ASTIdx) (a : AST) (cs : list ASTIdx) : Prop :=
  exists n, ns !! i = Some n /\ node n = a /\ children n = cs.
Fixpoint ty_tree (ns : list ASTNode) (i : ASTIdx) (t : ty) : Prop :=
  match t with
  | TyName s q => shape ns i (Type_ s q) []
  | TyPointer t => exists j, shape ns i PointerType [j] /\ ty_tree ns j t
  | TyArray t len => exists j, shape ns i (ArrayType len) [j] /\ ty_tree ns j t
  end.
(** The nodes from [i] down are those of the expression. *)
Fixpoint tree (ns : list ASTNode) (i : ASTIdx) (e : expr) : Prop :=
  match e with
  | EInt n => shape ns i (Literal (Basic (U n))) []
  | EVar s q => shape ns i (Variable_ s q false) []
  | EUnary op e => exists j, shape ns i (UnaryOp op) [j] /\ tree ns j e
  | EBinary op a b => exists j k, shape ns i (BinaryOp op) [j; k] /\ tree ns j a /\ tree ns k b
  | EIndex a b => exists j k, shape ns i (BinaryOp Index) [j; k] /\ tree ns j a /\ tree ns k b
  | ESlicify a b => exists j k, shape ns i (BinaryOp Slicify) [j; k] /\ tree ns j a /\ tree ns k b
  | EField a s q => exists j, shape ns i (Field s q) [j] /\ tree ns j a
  | ETupleIndex a n => exists j, shape ns i (TupleIndexing n) [j] /\ tree ns j a
  | ECast a t => exists j k, shape ns i TypeCast [j; k] /\ tree ns j a /\ ty_tree ns k t
  end.

(** The nodes keep what they are, up to their ranges and parentheses. *)
Definition keeps_shapes (ns ns' : list ASTNode) : Prop := forall i a cs, shape ns i a cs -> shape ns' i a cs.

Lemma keeps_refl ns : keeps_shapes ns ns.
Proof. by intros i a cs. Qed.
Lemma keeps_trans a b c : keeps_shapes a b -> keeps_shapes b c -> keeps_shapes a c.
Proof. intros H1 H2 i x cs H. by apply H2, H1. Qed.
Lemma keeps_ty_tree ns ns' i t : keeps_shapes ns ns' -> ty_tree ns i t -> ty_tree ns' i t.
Proof. intros H. revert i. induction t; simpl; intros i; [apply H|naive_solver..]. Qed.
Lemma keeps_tree ns ns' i e : keeps_shapes ns ns' -> tree ns i e -> tree ns' i e.
Proof. intros H. revert i. induction e; simpl; intros i; [apply H..| | | | | | |]; naive_solver eauto using keeps_ty_tree. Qed.
Lemma keeps_app ns n : keeps_shapes ns (ns ++ [n]).
Proof. intros i a cs (m&Hm&H). exists m. split; [|done]. by apply lookup_app_l_Some. Qed.
Lemma tree_shape ns i e : tree ns i e -> exists a cs, shape ns i a cs.
Proof. destruct e; simpl; naive_solver. Qed.
Lemma ty_tree_shape ns i t : ty_tree ns i t -> exists a cs, shape ns i a cs.
Proof. destruct t; simpl; naive_solver. Qed.

Section Roundtrip.
Context {P : Powi}.

Abbreviation toks st ts := (holds (lex st) ts).

(** ** Running the parser on known tokens *)

Lemma returns_on_lexer {A} (m : lstm A) a l' Q st :
  m (lex st) = (Ret a, l') -> Q a (mkParser l' (nodes st)) -> returns (on_lexer m) Q st.
Proof. unfold returns, on_lexer. by intros ->. Qed.
Lemma returns_peat st t ts Q :
  toks st (t :: ts) -> (forall r st', toks st' ts -> nodes st' = nodes st -> Q (r, t) st') -> returns peat Q st.
Proof. intros H HQ. destruct (eat_holds _ _ _ H) as (r&l'&Hr&H'). eapply returns_on_lexer; [exact Hr|]. by apply HQ. Qed.
Lemma returns_ppeek st ts Q :
  toks st ts -> (forall r st', toks st' ts -> nodes st' = nodes st -> Q (r, match ts with [] => Eof | t :: _ => t end) st') -> returns ppeek Q st.
Proof.
  intros H HQ. destruct ts as [|t ts].
  - destruct (peek_holds_eof _ H) as (r&l'&Hr&H'). eapply returns_on_lexer; [exact Hr|]. by apply HQ.
  - destruct (peek_holds _ _ _ H) as (r&l'&Hr&H'&_). eapply returns_on_lexer; [exact Hr|]. by apply HQ.
Qed.
Lemma returns_pexpect f st t ts Q :
  toks st (t :: ts) -> f t = true -> (forall r st', toks st' ts -> nodes st' = nodes st -> Q (r, t) st') ->
  returns (pexpect f) Q st.
Proof.
  intros H Hf HQ. destruct (expect_holds f _ _ _ H Hf) as (r&l'&Hr&H'). eapply returns_on_lexer; [exact Hr|]. by apply HQ.
Qed.
Lemma returns_push n st ts Q :
  toks st ts ->
  (forall i st', toks st' ts -> keeps_shapes (nodes st) (nodes st') -> shape (nodes st') i (node n) (children n) -> Q i st') ->
  returns (push_node n) Q st.
Proof.
  intros H HQ. apply HQ; [done|apply keeps_app|]. exists n. split; [|done]. simpl. by rewrite lookup_app_r, Nat.sub_diag.
Qed.
Lemma returns_node_at i a cs st Q :
  shape (nodes st) i a cs -> (forall n, node n = a -> children n = cs -> Q n st) -> returns (node_at i) Q st.
Proof. intros (n&Hn&H1&H2) HQ. unfold node_at, returns. srun. rewrite Hn. by apply HQ. Qed.
Lemma returns_upd i f a cs st ts Q :
  toks st ts -> shape (nodes st) i a cs -> (forall n, node (f n) = node n /\ children (f n) = children n) ->
  (forall st', toks st' ts -> keeps_shapes (nodes st) (nodes st') -> Q tt st') -> returns (upd_node i f) Q st.
Proof.
  intros H (n&Hn&_) Hf HQ. unfold upd_node, node_at, returns. srun. rewrite Hn. srun. apply HQ; [done|].
  intros j x cs' (m&Hm&H1&H2). simpl. destruct (decide (j = i)) as [->|Hne].
  - assert (m = n) as -> by congruence. exists (f n). destruct (Hf n) as [-> ->]. split; [|done].
    apply list_lookup_insert_eq. by eapply lookup_lt_Some.
  - exists m. by rewrite list_lookup_insert_ne.
Qed.
Lemma returns_prev_end st Q : Q (previous_token_end (lex st)) st -> returns prev_end Q st.
Proof. done. Qed.
(** A node over what has been read. *)
Lemma returns_new_node st ts a cs s Q :
  toks st ts ->
  (forall i st', toks st' ts -> keeps_shapes (nodes st) (nodes st') -> shape (nodes st') i a cs -> Q i st') ->
  returns (e ← prev_end; push_node (mkNode (s, e) a cs false)) Q st.
Proof. intros H HQ. apply returns_bind, returns_prev_end. eapply returns_push; [exact H|]. intros i st'. apply HQ. Qed.
Lemma returns_pair i j a st ts b cs b' cs' Q :
  toks st ts -> shape (nodes st) i b cs -> shape (nodes st) j b' cs' ->
  (forall k st', toks st' ts -> keeps_shapes (nodes st) (nodes st') -> shape (nodes st') k a [i; j] -> Q k st') ->
  returns (push_pair i j a) Q st.
Proof.
  intros H Hi Hj HQ. apply returns_bind. eapply returns_node_at; [exact Hi|]. intros x _ _.
  apply returns_bind. eapply returns_node_at; [exact Hj|]. intros y _ _. eapply returns_push; [exact H|]. intros k st'. apply HQ.
Qed.

(** ** Types *)

Lemma parse_type_tokens t : forall fuel st ts Q,
  toks st (ty_tokens t ++ ts) -> (List.length (ty_tokens t) <= fuel)%nat ->
  (forall i st', toks st' ts -> keeps_shapes (nodes st) (nodes st') -> ty_tree (nodes st') i t -> Q i st') ->
  returns (parse_type fuel) Q st.
Proof.
  induction t as [s q|t IH|t IH len]; intros fuel st ts Q Hst Hf HQ; (destruct fuel as [|fuel]; [destruct len||idtac; simpl in Hf; lia|]);
    cbn [parse_type ty_tokens app] in *.
  - apply returns_bind. eapply returns_peat; [exact Hst|]. intros r st1 H1 E1. cbn.
    eapply returns_new_node; [exact H1|]. intros i st2 H2 K2 S2. apply HQ; [done| |done]. by rewrite <- E1.
  - apply returns_bind. eapply returns_peat; [exact Hst|]. intros r st1 H1 E1. apply returns_bind, returns_bind.
    eapply IH; [exact H1|simpl in Hf; lia|]. intros j st2 H2 K2 T2. apply returns_ret.
    eapply returns_new_node; [exact H2|]. intros i st3 H3 K3 S3. rewrite E1 in K2.
    apply HQ; [done|by eapply keeps_trans|]. exists j. split; [done|]. by eapply keeps_ty_tree.
  - assert (Hopen : toks st (TChar (ch "[") :: ty_tokens t ++ match len with
        | Some n => TChar (ch ";") :: TLiteral (Basic (U n)) :: TChar (ch "]") :: ts | None => TChar (ch "]") :: ts end)).
    { destruct len; cbn [app] in Hst; by rewrite <- app_assoc in Hst. }
    clear Hst. assert (Hfuel : (List.length (ty_tokens t) <= fuel)%nat) by (destruct len; simpl in Hf; rewrite ?length_app in Hf; lia).
    apply returns_bind. eapply returns_peat; [exact Hopen|]. intros r st1 H1 E1. apply returns_bind. cbn. apply returns_bind.
    eapply IH; [exact H1|exact Hfuel|]. intros j st2 H2 K2 T2. rewrite E1 in K2.
    assert (Hend : forall st3 a, toks st3 ts -> nodes st3 = nodes st2 -> a = ArrayType len ->
      returns (e ← prev_end; push_node (mkNode (r.1, e) a [j] false)) Q st3).
    { intros st3 a H3 E3 ->. eapply returns_new_node; [exact H3|]. intros i st4 H4 K4 S4. rewrite E3 in K4.
      apply HQ; [done|by eapply keeps_trans|]. exists j. split; [done|]. by eapply keeps_ty_tree. }
    apply returns_bind. destruct len as [n|].
    + eapply returns_peat; [exact H2|]. intros r3 st3 H3 E3. cbn. apply returns_bind.
      eapply returns_peat; [exact H3|]. intros r4 st4 H4 E4. cbn. apply returns_bind.
      eapply returns_pexpect; [exact H4|done|]. intros r5 st5 H5 E5. apply returns_ret. apply Hend; [done|congruence|done].
    + eapply returns_peat; [exact H2|]. intros r3 st3 H3 E3. cbn. apply Hend; [done|congruence|done].
Qed.

(** ** Where the loop over operators stops *)

(** The precedence with which a token continues an expression. *)
Definition binds (t : Token) : option Precedence :=
  match t with
  | TBinary op => Some (binary_operator_precedence op)
  | TChar c => if (c =? ch "(") || (c =? ch "[") then Some PCallOrIndex else if c =? ch "." then Some PField else None
  | Identifier s false => if bool_decide (s = text "as") then Some PTypeCast else None
  | _ => None
  end.
Definition stops (p : Precedence) (ts : list Token) : Prop :=
  match ts with
  | [] => True
  | t :: _ => match binds t with Some q => prec_rank q <= prec_rank p | None => True end
  end.
Lemma stops_mono p q ts : prec_rank p <= prec_rank q -> stops p ts -> stops q ts.
Proof. unfold stops. destruct ts as [|t ts]; [done|]. destruct (binds t); [lia|done]. Qed.

(** The precedence at which the last operand of an expression is parsed. *)
Definition tail_level (e : expr) : Precedence :=
  match e with EUnary _ _ | EBinary _ _ _ => level e | _ => PStrongest end.
Lemma level_tail e : prec_rank (level e) <= prec_rank (tail_level e).
Proof. destruct e; simpl; lia. Qed.
Lemma stops_strongest ts : stops PStrongest ts.
Proof. unfold stops. destruct ts as [|t ts]; [done|]. by destruct (binds t) as [[]|]. Qed.

Lemma suffix_none fuel n outer i st ts Q :
  stops outer ts -> toks st ts -> (forall st', toks st' ts -> nodes st' = nodes st -> Q i st') ->
  returns (suffix_loop (parse_expression fuel) (parse_type fuel) (S n) outer i) Q st.
Proof.
  intros Hs Hst HQ. cbn [suffix_loop]. apply returns_bind. unfold parse_suffix. apply returns_bind.
  eapply returns_ppeek; [exact Hst|]. intros r st1 H1 E1.
  assert (Hnone : returns (mret None : pstm (option ASTIdx)) (fun o st' => returns match o with
     | None => mret i
     | Some j => e ← prev_end; _ ← upd_node j (set_node_end e); suffix_loop (parse_expression fuel) (parse_type fuel) n outer j
     end Q st') st1) by (by apply HQ).
  destruct ts as [|t ts]; [done|]. unfold stops in Hs.
  destruct t as [op| | |c| |w []|]; try exact Hnone; cbn [binds] in Hs; unfold prec_ge.
  - rewrite (proj2 (Z.leb_le _ _) Hs). exact Hnone.
  - destruct (c =? ch "("); [rewrite (proj2 (Z.leb_le _ _) Hs); exact Hnone|].
    destruct (c =? ch "["); [rewrite (proj2 (Z.leb_le _ _) Hs); exact Hnone|].
    destruct (c =? ch "."); [rewrite (proj2 (Z.leb_le _ _) Hs); exact Hnone|exact Hnone].
  - destruct (bool_decide (w = text "as")); [rewrite (proj2 (Z.leb_le _ _) Hs); exact Hnone|exact Hnone].
Qed.
(** A turn of the loop that makes the node [j]. *)
Lemma suffix_some pe pt n outer i st Q :
  returns (parse_suffix pe pt (S n) outer i) (fun o st1 => exists j a cs ts,
    o = Some j /\ shape (nodes st1) j a cs /\ toks st1 ts /\
    forall st2, toks st2 ts -> keeps_shapes (nodes st1) (nodes st2) -> returns (suffix_loop pe pt n outer j) Q st2) st ->
  returns (suffix_loop pe pt (S n) outer i) Q st.
Proof.
  intros H. cbn [suffix_loop]. apply returns_bind. eapply returns_mono; [exact H|].
  intros o st1 (j&a&cs&ts&->&Hj&Hts&Hnext). apply returns_bind, returns_prev_end, returns_bind.
  eapply returns_upd; [exact Hts|exact Hj|done|exact Hnext].
Qed.
(** Such a turn for a token that binds with [p], tighter than [outer]. *)
Lemma returns_turn st t ts outer p (m : pstm ASTIdx) Q :
  toks st (t :: ts) -> prec_rank outer < prec_rank p ->
  (forall st', toks st' ts -> nodes st' = nodes st -> returns m (fun j => Q (Some j)) st') ->
  returns (if prec_ge outer p then mret None else _ ← peat; j ← m; mret (Some j)) Q st.
Proof.
  intros Hst Hp Hm. unfold prec_ge. rewrite (proj2 (Z.leb_gt _ _)) by done. apply returns_bind.
  eapply returns_peat; [exact Hst|]. intros r st' H' E'. apply returns_bind. by apply Hm.
Qed.

(** ** Expressions *)

(** What is left to do once [e] has been parsed as the first operand. *)
Definition finishes (fuel : nat) (outer : Precedence) (e : expr) (ts : list Token) (st : Parser) (Q : ASTIdx -> Parser -> Prop) : Prop :=
  forall n j st', (List.length ts < n)%nat -> tree (nodes st') j e -> toks st' ts -> keeps_shapes (nodes st) (nodes st') ->
    returns (suffix_loop (parse_expression fuel) (parse_type fuel) n outer j) Q st'.
Definition parses (e : expr) : Prop := forall fuel outer st ts Q,
  prec_rank outer <= prec_rank PUnary -> right_parens outer e = false -> stops (tail_level e) ts ->
  toks st (tokens e ++ ts) -> (List.length (tokens e ++ ts) <= fuel)%nat -> finishes fuel outer e ts st Q ->
  returns (parse_expression_with (parse_expression fuel) (parse_type fuel) fuel outer) Q st.

Lemma parse_bare e : parses e -> forall fuel outer st ts Q,
  prec_rank outer <= prec_rank PUnary -> right_parens outer e = false -> stops outer ts ->
  toks st (tokens e ++ ts) -> (List.length (tokens e ++ ts) < fuel)%nat ->
  (forall j st', tree (nodes st') j e -> toks st' ts -> keeps_shapes (nodes st) (nodes st') -> Q j st') ->
  returns (parse_expression fuel outer) Q st.
Proof.
  intros He fuel outer st ts Q Ho Hr Hs Hst Hf HQ. destruct fuel as [|fuel]; [lia|]. cbn [parse_expression].
  eapply He; [done..| |exact Hst|lia|].
  - eapply stops_mono; [|exact Hs]. destruct e; simpl; simpl in Ho; try lia; try (destruct outer; simpl; lia).
    unfold right_parens, prec_ge in Hr. apply Z.leb_gt in Hr. simpl in Hr. lia.
  - intros n j st' Hn Ht Hst' Hk. destruct n as [|n]; [lia|]. eapply suffix_none; [done..|]. intros st2 H2 E2.
    apply HQ; [by rewrite E2|done|by rewrite E2].
Qed.
Lemma parse_paren e : parses e -> forall fuel outer st ts Q,
  toks st (wrap true (tokens e) ++ ts) -> (List.length (wrap true (tokens e) ++ ts) <= fuel)%nat ->
  finishes fuel outer e ts st Q ->
  returns (parse_expression_with (parse_expression fuel) (parse_type fuel) fuel outer) Q st.
Proof.
  intros He fuel outer st ts Q Hst Hf HQ. cbn [wrap app] in Hst, Hf. rewrite <- app_assoc in Hst, Hf. cbn [app List.length] in Hst, Hf.
  rewrite length_app in Hf. cbn [List.length] in Hf.
  unfold parse_expression_with. apply returns_bind. eapply returns_peat; [exact Hst|]. intros r st1 H1 E1. cbn.
  apply returns_bind, returns_bind. eapply (parse_bare e He fuel PWeakest); [done|by destruct e as [| | |[]| | | | |]| |exact H1| |].
  - done.
  - rewrite length_app. simpl. lia.
  - intros j st2 T2 H2 K2. rewrite E1 in K2. destruct (tree_shape _ _ _ T2) as (a&cs&S2). apply returns_bind.
    eapply returns_peat; [exact H2|]. intros r3 st3 H3 E3. cbn. rewrite <- E3 in S2, T2, K2.
    apply returns_bind. eapply returns_upd; [exact H3|exact S2|done|]. intros st4 H4 K4.
    apply returns_bind. eapply returns_upd; [exact H4|by apply K4|done|]. intros st5 H5 K5.
    apply returns_bind. eapply returns_upd; [exact H5|by apply K5, K4|done|]. intros st6 H6 K6.
    apply returns_ret, returns_bind, returns_ret. apply HQ; [lia| |done|].
    + eapply keeps_tree; [|exact T2]. eauto using keeps_trans.
    + eauto using keeps_trans.
Qed.
Lemma parse_right e : parses e -> forall fuel outer st ts Q,
  prec_rank outer <= prec_rank PUnary -> stops outer ts ->
  toks st (wrap (right_parens outer e) (tokens e) ++ ts) -> (List.length (wrap (right_parens outer e) (tokens e) ++ ts) < fuel)%nat ->
  (forall j st', tree (nodes st') j e -> toks st' ts -> keeps_shapes (nodes st) (nodes st') -> Q j st') ->
  returns (parse_expression fuel outer) Q st.
Proof.
  intros He fuel outer st ts Q Ho Hs Hst Hf HQ. destruct (right_parens outer e) eqn:Hr.
  - destruct fuel as [|fuel]; [lia|]. cbn [parse_expression]. eapply parse_paren; [exact He|exact Hst|lia|].
    intros n j st' Hn Ht Hst' Hk. destruct n as [|n]; [lia|]. eapply suffix_none; [done..|]. intros st2 H2 E2.
    apply HQ; [by rewrite E2|done|by rewrite E2].
  - by eapply parse_bare.
Qed.
Lemma parse_left e : parses e -> forall fuel outer p st ts Q,
  prec_rank outer <= prec_rank PUnary -> prec_rank outer < prec_rank p -> (left_parens p e = false -> stops (tail_level e) ts) ->
  toks st (wrap (left_parens p e) (tokens e) ++ ts) -> (List.length (wrap (left_parens p e) (tokens e) ++ ts) <= fuel)%nat ->
  finishes fuel outer e ts st Q ->
  returns (parse_expression_with (parse_expression fuel) (parse_type fuel) fuel outer) Q st.
Proof.
  intros He fuel outer p st ts Q Ho Hp Hs Hst Hf HQ. destruct (left_parens p e) eqn:Hl; [by eapply parse_paren|].
  eapply He; [done| |by apply Hs|exact Hst|exact Hf|exact HQ].
  unfold left_parens, prec_ge in Hl. apply negb_false_iff, Z.leb_le in Hl.
  destruct e; try done; apply Z.leb_gt; lia.
Qed.

Lemma parse_word_variable pe pt n w : w ∉ keywords -> parse_word pe pt n w = mret (Variable_ w false false, []).
Proof.
  intros Hw. unfold keywords in Hw. rewrite !not_elem_of_cons in Hw. unfold parse_word.
  repeat (rewrite bool_decide_false by tauto). done.
Qed.
(** A literal or a variable. *)
Lemma parse_atom e t a :
  tokens e = [t] -> (forall ns i, shape ns i a [] -> tree ns i e) ->
  (forall pe pt n r st, returns (parse_prefix pe pt n r t) (fun p st' => p = PNode a [] /\ st' = st) st) -> parses e.
Proof.
  intros He Htree Hp fuel outer st ts Q _ _ _ Hst Hf HQ. rewrite He in Hst, Hf. unfold parse_expression_with.
  apply returns_bind. eapply returns_peat; [exact Hst|]. intros r st1 H1 E1. apply returns_bind.
  eapply returns_mono; [apply Hp|]. intros p st2 [-> ->]. apply returns_bind. eapply returns_new_node; [exact H1|].
  intros i st3 H3 K3 S3. apply HQ; [simpl in Hf; lia|by apply Htree|done|by rewrite <- E1].
Qed.
Lemma parse_unary_operator op e : parses e -> parses (EUnary op e).
Proof.
  intros He fuel outer st ts Q _ _ Hs Hst Hf HQ. cbn [tokens app List.length] in Hst, Hf. unfold parse_expression_with.
  apply returns_bind. eapply returns_peat; [exact Hst|]. intros r st1 H1 E1. apply returns_bind.
  assert (Hun : returns (parse_unary (parse_expression fuel) op) (fun p st2 => exists j, p = PNode (UnaryOp op) [j] /\
    tree (nodes st2) j e /\ toks st2 ts /\ keeps_shapes (nodes st) (nodes st2)) st1).
  { apply returns_bind. eapply (parse_right e He fuel PUnary); [done|exact Hs|exact H1|lia|]. intros j st2 T2 H2 K2.
    apply returns_ret. exists j. by rewrite <- E1. }
  assert (Hpre : returns (parse_prefix (parse_expression fuel) (parse_type fuel) fuel r (unary_token op))
    (fun p st2 => exists j, p = PNode (UnaryOp op) [j] /\
    tree (nodes st2) j e /\ toks st2 ts /\ keeps_shapes (nodes st) (nodes st2)) st1) by (by destruct op).
  eapply returns_mono; [exact Hpre|]. intros p st2 (j&->&T2&H2&K2). apply returns_bind. eapply returns_new_node; [exact H2|].
  rewrite length_app in Hf. intros i st3 H3 K3 S3. apply HQ; [lia| |done|by eapply keeps_trans].
  exists j. split; [done|]. by eapply keeps_tree.
Qed.

(** A turn that applies the operation of [m] to the first operand [a]. *)
Lemma parse_operation e a fuel outer ts t ts' st Q :
  finishes fuel outer e ts st Q -> (List.length ts < List.length (t :: ts'))%nat ->
  (forall n j st1, tree (nodes st1) j a -> toks st1 (t :: ts') -> keeps_shapes (nodes st) (nodes st1) ->
     returns (parse_suffix (parse_expression fuel) (parse_type fuel) (S n) outer j)
       (fun o st2 => exists k, o = Some k /\ tree (nodes st2) k e /\ toks st2 ts /\ keeps_shapes (nodes st1) (nodes st2)) st1) ->
  finishes fuel outer a (t :: ts') st Q.
Proof.
  intros HQ Hlen Hm n j st1 Hn T1 H1 K1. destruct n as [|n]; [lia|]. apply suffix_some.
  eapply returns_mono; [by apply Hm|]. intros o st2 (k&->&T2&H2&K2). destruct (tree_shape _ _ _ T2) as (x&cs&S2).
  exists k, x, cs, ts. split; [done|]. split; [done|]. split; [done|]. intros st3 H3 K3.
  apply HQ; [simpl in *; lia|by eapply keeps_tree|done|by eauto using keeps_trans].
Qed.

Lemma binary_rank op : op <> Index -> op <> Slicify -> prec_rank (binary_operator_precedence op) <= prec_rank PUnary.
Proof. destruct op; simpl; (done || lia). Qed.

Lemma parse_binary_operator op a b :
  op <> Index -> op <> Slicify -> parses a -> parses b -> parses (EBinary op a b).
Proof.
  intros H1 H2 Ha Hb fuel outer st ts Q Ho Hr Hs Hst Hf HQ. set (p := binary_operator_precedence op) in *.
  cbn [tokens tail_level level right_parens] in *. fold p in Hst, Hf, Hr, Hs. unfold prec_ge in Hr. apply Z.leb_gt in Hr.
  rewrite <- app_assoc in Hst, Hf. cbn [app] in Hst, Hf.
  eapply (parse_left a Ha fuel outer p); [done|done| |exact Hst|exact Hf|].
  - intros Hl. unfold left_parens, prec_ge in Hl. apply negb_false_iff, Z.leb_le in Hl. pose proof (level_tail a).
    unfold stops. cbn [binds]. fold p. lia.
  - assert (Hlen : (List.length (wrap (right_parens p b) (tokens b) ++ ts) < fuel)%nat)
      by (rewrite length_app in Hf; simpl in Hf; lia).
    eapply (parse_operation (EBinary op a b)); [exact HQ|simpl; rewrite length_app; lia|].
    intros n j st1 T1 Hst1 K1. unfold parse_suffix. apply returns_bind. eapply returns_ppeek; [exact Hst1|].
    intros r st2 Hst2 E2. cbn. fold p. eapply returns_turn; [exact Hst2|done|]. intros st3 Hst3 E3. apply returns_bind.
    eapply (parse_right b Hb fuel p); [by apply binary_rank|done|exact Hst3|exact Hlen|]. intros k st4 T4 Hst4 K4.
    rewrite E3, E2 in K4. destruct (tree_shape _ _ _ T4) as (x&cs&S4).
    destruct (tree_shape _ _ _ (keeps_tree _ _ _ _ K4 T1)) as (y&ds&S4').
    eapply returns_pair; [exact Hst4|exact S4'|exact S4|]. intros i st5 Hst5 K5 S5. exists i. split; [done|].
    split; [|split; [done|by eapply keeps_trans]]. exists j, k. split; [done|].
    split; [|by eapply keeps_tree]. eapply keeps_tree; [exact K5|]. by eapply keeps_tree.
Qed.

(** The operators that follow their operand: [ts'] from the token [t] on. *)
Definition follows (p : Precedence) (a e : expr) (t : Token) (ts' : list Token) : Prop := forall fuel outer n j ts st,
  prec_rank outer < prec_rank (level e) -> (List.length (t :: ts' ++ ts) <= fuel)%nat ->
  tree (nodes st) j a -> toks st (t :: ts' ++ ts) ->
  returns (parse_suffix (parse_expression fuel) (parse_type fuel) (S n) outer j)
    (fun o st2 => exists k, o = Some k /\ tree (nodes st2) k e /\ toks st2 ts /\ keeps_shapes (nodes st) (nodes st2)) st.
Lemma parse_postfix p a e t ts' :
  (forall ts, tokens e ++ ts = wrap (left_parens p a) (tokens a) ++ t :: ts' ++ ts) -> level e <> PStrongest ->
  prec_rank p <= prec_rank (level e) -> (forall outer, right_parens outer e = prec_ge outer (level e)) ->
  prec_rank PUnary < prec_rank p \/ p = level e ->
  (forall ts, left_parens p a = false -> stops (tail_level a) (t :: ts)) ->
  parses a -> follows p a e t ts' -> parses e.
Proof.
  intros Htok Hne Hle Hpar Hp Hstop Ha Hfol fuel outer st ts Q Ho Hr Hs Hst Hf HQ.
  rewrite Hpar in Hr. unfold prec_ge in Hr. apply Z.leb_gt in Hr. rewrite Htok in Hst, Hf.
  assert (Hout : prec_rank outer < prec_rank p) by (destruct Hp as [Hp| ->]; lia).
  eapply (parse_left a Ha fuel outer p); [done|done|by apply Hstop|exact Hst|exact Hf|].
  rewrite length_app in Hf. eapply (parse_operation e); [exact HQ|simpl; rewrite length_app; lia|].
  intros n j st1 T1 Hst1 K1. apply Hfol; [done|lia|done|done].
Qed.

(** Two trees under a new node. *)
Lemma returns_pair_tree i j a b st ts x Q :
  toks st ts -> tree (nodes st) i a -> tree (nodes st) j b ->
  (forall k st', toks st' ts -> keeps_shapes (nodes st) (nodes st') -> shape (nodes st') k x [i; j] ->
     tree (nodes st') i a -> tree (nodes st') j b -> Q k st') ->
  returns (push_pair i j x) Q st.
Proof.
  intros H Ta Tb HQ. destruct (tree_shape _ _ _ Ta) as (y&cs&Sa). destruct (tree_shape _ _ _ Tb) as (z&ds&Sb).
  eapply returns_pair; [done..|]. intros k st' H' K' S'. apply HQ; [done..| |]; by eapply keeps_tree.
Qed.
(** A subexpression up to a closing bracket. *)
Lemma parse_bracketed b fuel st ts (k : ASTIdx -> pstm ASTIdx) Q :
  parses b -> toks st (tokens b ++ TChar (ch "]") :: ts) -> (List.length (tokens b ++ TChar (ch "]") :: ts) < fuel)%nat ->
  (forall j st', tree (nodes st') j b -> toks st' ts -> keeps_shapes (nodes st) (nodes st') -> returns (k j) Q st') ->
  returns (e ← parse_expression fuel PWeakest; _ ← pexpect (is_char (ch "]")); k e) Q st.
Proof.
  intros Hb Hst Hf HQ. apply returns_bind. eapply (parse_bare b Hb fuel PWeakest); [done|by destruct b as [| | |[]| | | | |]| |exact Hst|exact Hf|]; [done|].
  intros j st1 T1 H1 K1. apply returns_bind. eapply returns_pexpect; [exact H1|done|]. intros r st2 H2 E2.
  apply HQ; [by rewrite E2|done|by rewrite E2].
Qed.

Lemma parse_index a b : parses a -> parses b -> parses (EIndex a b).
Proof.
  intros Ha Hb. eapply (parse_postfix PCallOrIndex a _ (TChar (ch "[")) (tokens b ++ [TChar (ch "]")])); try done.
  - intros ts. cbn [tokens]. by rewrite <- app_assoc.
  - by left.
  - intros ts Hl. unfold left_parens, prec_ge in Hl. apply negb_false_iff, Z.leb_le in Hl. pose proof (level_tail a).
    unfold stops. change (binds (TChar (ch "["))) with (Some PCallOrIndex). cbn iota. lia.
  - intros fuel outer n j ts st Ho Hf T Hst. rewrite <- app_assoc in Hst, Hf. unfold parse_suffix. apply returns_bind.
    eapply returns_ppeek; [exact Hst|]. intros r st1 H1 E1. cbn. eapply returns_turn; [exact H1|done|]. intros st2 H2 E2.
    eapply parse_bracketed; [exact Hb|exact H2|simpl in *; lia|]. intros k st3 T3 H3 K3. rewrite E2, E1 in K3.
    eapply returns_pair_tree; [exact H3|by eapply keeps_tree|exact T3|]. intros i st4 H4 K4 S4 Ta Tb. exists i. split; [done|].
    split; [by exists j, k|]. split; [done|by eapply keeps_trans].
Qed.
Lemma parse_cast a t : parses a -> parses (ECast a t).
Proof.
  intros Ha. eapply (parse_postfix PTypeCast a _ (Identifier (text "as") false) (ty_tokens t)); try done.
  - intros ts. cbn [tokens]. by rewrite <- app_assoc.
  - by right.
  - intros ts Hl. unfold left_parens, prec_ge in Hl. apply negb_false_iff, Z.leb_le in Hl. pose proof (level_tail a).
    unfold stops. change (binds (Identifier (text "as") false)) with (Some PTypeCast). cbn iota. lia.
  - intros fuel outer n j ts st Ho Hf T Hst. unfold parse_suffix. apply returns_bind.
    eapply returns_ppeek; [exact Hst|]. intros r st1 H1 E1. cbn. eapply returns_turn; [exact H1|done|]. intros st2 H2 E2.
    apply returns_bind. eapply parse_type_tokens; [exact H2|simpl in Hf; rewrite length_app in Hf; lia|]. intros k st3 H3 K3 T3. rewrite E2, E1 in K3.
    destruct (tree_shape _ _ _ (keeps_tree _ _ _ _ K3 T)) as (y&cs&Sa). destruct (ty_tree_shape _ _ _ T3) as (z&ds&Sb).
    eapply returns_pair; [exact H3|exact Sa|exact Sb|]. intros i st4 H4 K4 S4. exists i. split; [done|].
    split; [|split; [done|by eapply keeps_trans]]. exists j, k. split; [done|].
    split; [eapply keeps_tree; [exact K4|]; by eapply keeps_tree|by eapply keeps_ty_tree].
Qed.
(** Index and Slicify are not written between their operands. *)
Definition infix (a : expr) : Prop := match a with EBinary op _ _ => op <> Index /\ op <> Slicify | _ => True end.
Lemma expr_ok_infix a : expr_ok a -> infix a.
Proof. destruct a; simpl; tauto. Qed.
(** The operators with a dot, whose token after the dot is [t]. *)
Lemma parse_dot a e t ts' : infix a ->
  tokens e = wrap (left_parens PCallOrIndex a) (tokens a) ++ TChar (ch ".") :: t :: ts' -> level e = PField ->
  (forall outer, right_parens outer e = prec_ge outer (level e)) -> parses a ->
  (forall fuel j ts st, tree (nodes st) j a -> toks st (t :: ts' ++ ts) -> (List.length (t :: ts' ++ ts) < fuel)%nat ->
     returns (parse_field (parse_expression fuel) j)
       (fun k st2 => tree (nodes st2) k e /\ toks st2 ts /\ keeps_shapes (nodes st) (nodes st2)) st) ->
  parses e.
Proof.
  intros Hin Htok Hlev Hpar Ha Hfield. eapply (parse_postfix PCallOrIndex a e (TChar (ch ".")) (t :: ts')); try done.
  - intros ts. rewrite Htok. by rewrite <- app_assoc.
  - by rewrite Hlev.
  - by rewrite Hlev.
  - by left.
  - intros ts Hl. unfold left_parens, prec_ge in Hl. apply negb_false_iff, Z.leb_le in Hl.
    destruct a as [| |[]|[]| | | | |]; simpl in Hin, Hl; try tauto; try lia; apply stops_strongest.
  - intros fuel outer n j ts st Ho Hf T Hst. rewrite Hlev in Ho. unfold parse_suffix. apply returns_bind.
    eapply returns_ppeek; [exact Hst|]. intros r st1 H1 E1. cbn. eapply returns_turn; [exact H1|done|]. intros st2 H2 E2.
    eapply returns_mono; [apply Hfield; [by rewrite E2, E1|exact H2|simpl in *; lia]|]. intros k st3 (T3&H3&K3).
    exists k. split; [done|]. split; [done|]. split; [done|]. by rewrite <- E1, <- E2.
Qed.
(** A new node after the dot. *)
Lemma returns_dot_node st ts x j s e Q a :
  toks st ts -> tree (nodes st) j a ->
  (forall k st', toks st' ts -> keeps_shapes (nodes st) (nodes st') -> shape (nodes st') k x [j] -> tree (nodes st') j a -> Q k st') ->
  returns (push_node (mkNode (s, e) x [j] false)) Q st.
Proof. intros H T HQ. eapply returns_push; [exact H|]. intros k st' H' K' S'. apply HQ; [done..|]. by eapply keeps_tree. Qed.
Lemma parse_field_name a s q : infix a -> parses a -> parses (EField a s q).
Proof.
  intros Hin Ha. eapply (parse_dot a _ (Identifier s q) []); try done. intros fuel j ts st T Hst Hf.
  unfold parse_field. apply returns_bind. eapply returns_peat; [exact Hst|]. intros r st1 H1 E1.
  destruct (tree_shape _ _ _ T) as (y&cs&Sa). rewrite <- E1 in Sa, T. apply returns_bind.
  eapply returns_node_at; [exact Sa|]. intros x _ _. cbv zeta. cbn [as_unsigned]. cbn iota. eapply returns_dot_node; [exact H1|exact T|].
  intros k st2 H2 K2 S2 T2. split; [by exists j|]. split; [done|]. by rewrite <- E1.
Qed.
Lemma parse_tuple_index a n : infix a -> parses a -> parses (ETupleIndex a n).
Proof.
  intros Hin Ha. eapply (parse_dot a _ (TLiteral (Basic (U n))) []); try done. intros fuel j ts st T Hst Hf.
  unfold parse_field. apply returns_bind. eapply returns_peat; [exact Hst|]. intros r st1 H1 E1.
  destruct (tree_shape _ _ _ T) as (y&cs&Sa). rewrite <- E1 in Sa, T. apply returns_bind.
  eapply returns_node_at; [exact Sa|]. intros x _ _. cbv zeta. cbn [as_unsigned]. cbn iota. eapply returns_dot_node; [exact H1|exact T|].
  intros k st2 H2 K2 S2 T2. split; [by exists j|]. split; [done|]. by rewrite <- E1.
Qed.
Lemma parse_slicify a b : infix a -> parses a -> parses b -> parses (ESlicify a b).
Proof.
  intros Hin Ha Hb. eapply (parse_dot a _ (TChar (ch "[")) (tokens b ++ [TChar (ch "]")])); try done.
  intros fuel j ts st T Hst Hf. rewrite <- app_assoc in Hst, Hf.
  unfold parse_field. apply returns_bind. eapply returns_peat; [exact Hst|]. intros r st1 H1 E1.
  destruct (tree_shape _ _ _ T) as (y&cs&Sa). rewrite <- E1 in Sa, T. apply returns_bind.
  eapply returns_node_at; [exact Sa|]. intros x _ _. cbv zeta. cbn iota. rewrite Z.eqb_refl.
  eapply parse_bracketed; [exact Hb|exact H1|simpl in *; lia|]. intros k st2 T2 H2 K2. rewrite E1 in K2.
  eapply returns_push; [exact H2|]. intros i st3 H3 K3 S3. split; [|split; [done|by eapply keeps_trans]].
  exists j, k. split; [done|]. rewrite E1 in T. split; [|by eapply keeps_tree].
  eapply keeps_tree; [|exact T]. by eapply keeps_trans.
Qed.

Lemma parse_printed e : expr_ok e -> parses e.
Proof.
  induction e as [n|s q|op e IH|op a IHa b IHb|a IHa b IHb|a IHa b IHb|a IHa s q|a IHa n|a IHa t]; simpl.
  - intros _. by eapply parse_atom.
  - intros [_ Hs]. eapply (parse_atom _ _ (Variable_ s q false)); [done..|]. intros pe pt n r st. destruct q; [done|].
    cbn [parse_prefix]. rewrite parse_word_variable by auto. done.
  - intros He. by apply parse_unary_operator, IH.
  - intros (H1&H2&Ha&Hb). by apply parse_binary_operator; auto.
  - intros [Ha Hb]. apply parse_index; auto.
  - intros [Ha Hb]. apply parse_slicify; auto using expr_ok_infix.
  - intros [Ha _]. apply parse_field_name; auto using expr_ok_infix.
  - intros [Ha _]. apply parse_tuple_index; auto using expr_ok_infix.
  - intros [Ha _]. apply parse_cast; auto.
Qed.

(** ** The whole text *)

Lemma showable_char c : bool_decide (c ∈ text "()[]{};@.") = true -> showable (TChar c).
Proof. apply bool_decide_eq_true. Qed.
Lemma wrap_showable b ts : Forall showable ts -> Forall showable (wrap b ts).
Proof.
  intros H. destruct b; [|done]. constructor; [by apply showable_char|]. apply Forall_app. split; [done|].
  constructor; [by apply showable_char|done].
Qed.
Lemma word_showable s q : word_ok s q = true -> showable (Identifier s q).
Proof. by destruct q. Qed.
Lemma brackets_showable : showable (TChar (ch "[")) /\ showable (TChar (ch "]")) /\ showable (TChar (ch ".")) /\ showable (TChar (ch ";")).
Proof. split_and!; by apply showable_char. Qed.
Lemma ty_tokens_showable t : ty_ok t -> Forall showable (ty_tokens t).
Proof.
  destruct brackets_showable as (B1&B2&_&B4). induction t as [s q|t IH|t IH [n|]]; simpl.
  - intros H. constructor; [by apply word_showable|done].
  - intros H. constructor; [done|auto].
  - intros [H Hn]. constructor; [done|]. apply Forall_app. split; [auto|]. by rewrite !Forall_cons, Forall_nil.
  - intros [H _]. constructor; [done|]. apply Forall_app. split; [auto|]. by rewrite !Forall_cons, Forall_nil.
Qed.
Lemma tokens_showable e : expr_ok e -> Forall showable (tokens e).
Proof.
  destruct brackets_showable as (B1&B2&B3&_).
  induction e as [n|s q|op e IH|op a IHa b IHb|a IHa b IHb|a IHa b IHb|a IHa s q|a IHa n|a IHa t]; simpl;
    rewrite ?Forall_app, ?Forall_cons, ?Forall_app, ?Forall_cons, ?Forall_nil.
  - done.
  - intros [H _]. split; [by apply word_showable|done].
  - intros H. split; [by destruct op|]. apply wrap_showable; auto.
  - intros (H1&H2&Ha&Hb). split; [apply wrap_showable; auto|]. split; [done|]. apply wrap_showable; auto.
  - intros [Ha Hb]. split; [apply wrap_showable; auto|]. auto.
  - intros [Ha Hb]. split; [apply wrap_showable; auto|]. split_and!; auto.
  - intros [Ha Hs]. split; [apply wrap_showable; auto|]. split_and!; [done|by apply word_showable|done].
  - intros [Ha Hn]. split; [apply wrap_showable; auto|]. auto.
  - intros [Ha Ht]. split; [apply wrap_showable; auto|]. split; [done|by apply ty_tokens_showable].
Qed.

(** An expression does not begin with a brace. *)
Definition not_brace (ts : list Token) : Prop := match ts with [] => False | t :: _ => t <> TChar (ch "{") end.
Lemma tokens_not_brace e : not_brace (tokens e).
Proof.
  assert (Hw : forall b ts ts', not_brace ts -> not_brace (wrap b ts ++ ts')) by (intros [] [|t ts] ts'; [done..|]; by simpl).
  induction e as [| |op| | | | | |]; simpl; try done; [by destruct op|by apply Hw..].
Qed.
Lemma show_not_brace ts : Forall showable ts -> not_brace ts -> ~ begins_with (show_tokens ts) (ch "{").
Proof using P.
  intros Hsh Hb (w&post&Hs&Hw). destruct ts as [|t ts]; [done|]. apply Forall_cons_1 in Hsh as [Ht _].
  destruct (showable_lexes t Ht) as (c&w'&Hc&Hws&Hlex). rewrite show_tokens_cons, Hc in Hs.
  destruct w as [|x w]; [|apply Forall_cons_1 in Hw as [Hx _]; injection Hs as -> _; congruence].
  injection Hs as -> _. specialize (Hlex false [] [] (or_introl eq_refl)).
  change (lex_one false (ch "{") ?i) with (Ret (E:=Error) (Some (TChar (ch "{"))), i) in Hlex. by injection Hlex as <- _.
Qed.
Lemma show_tokens_length ts : Forall showable ts -> (List.length ts <= List.length (show_tokens ts))%nat.
Proof using P.
  induction 1 as [|t ts Ht Hts IH]; [done|]. destruct (showable_lexes t Ht) as (c&w&Hc&_). destruct (show_rest_spaces ts) as [k Hk].
  rewrite show_tokens_cons, Hk, Hc, !length_app. simpl. lia.
Qed.

Lemma parse_show e :
  expr_ok e -> exists x, parse_watch_expression (show_expr e) = Ret x /\ tree (ast x) (root x) e.
Proof.
  intros He. pose proof (tokens_showable e He) as Hsh. set (s := show_expr e).
  pose proof (parse_watch_expression_ok s) as Hok.
  assert (Hrun : returns (parse_expression (S (List.length s)) PWeakest) (fun i st => tree (nodes st) i e /\ toks st [])
    (mkParser (start_lexer s) [])).
  { eapply (parse_bare e (parse_printed e He)); [done|by destruct e as [| | |[]| | | | |]| | | |by intros].
    - done.
    - rewrite app_nil_r. by apply start_holds.
    - rewrite app_nil_r. pose proof (show_tokens_length (tokens e) Hsh). subst s. unfold show_expr. lia. }
  unfold parse_watch_expression, parse_with in *. rewrite stm_bind_run in *. unfold returns in Hrun.
  destruct (parse_expression _ _ _) as [[i| |] st1]; [|done|done]. destruct Hrun as [Ht Hts].
  rewrite stm_bind_run in *. assert (Hpeek : returns ppeek (fun p st => p.2 = Eof /\ nodes st = nodes st1) st1).
  { eapply returns_ppeek; [exact Hts|]. by intros r st2 _ E. }
  unfold returns in Hpeek. destruct (ppeek st1) as [[[r t]| |] st2]; [|done|done]. destruct Hpeek as [Heof E2]. simpl in Heof. subst t.
  rewrite <- E2 in Ht. cbn [is_eof negb] in *. destruct (tree_shape _ _ _ Ht) as (a&cs&n&Hn&_).
  rewrite stm_bind_run in *. unfold node_at in *. revert Hok. srun. rewrite Hn. srun.
  destruct (split_at s (range n).1) as [[f1 f2]|]; srun; [|by intros H%show_not_brace; [..|apply tokens_not_brace]].
  destruct (split_at s (range n).2) as [[b1 b2]|]; srun; [|by intros H%show_not_brace; [..|apply tokens_not_brace]].
  destruct (forallb is_whitespace f1); srun; [|by intros H%show_not_brace; [..|apply tokens_not_brace]].
  destruct (forallb is_whitespace b2); srun; [|by intros H%show_not_brace; [..|apply tokens_not_brace]].
  intros _. by eexists.
Qed.

(** The name of a variable as text, when the text can name it. *)
Lemma plain_name name : should_quote_identifier name = false -> quotable name = true.
Proof.
  assert (Hc : forall first c, plain_char first c = true -> negb (c =? ch "`") && negb (c =? ch "\") = true).
  { intros first c H. destruct (Z.eqb_spec c (ch "`")) as [->|]; [by destruct first|].
    destruct (Z.eqb_spec c (ch "\")) as [->|]; [by destruct first|done]. }
  destruct name as [|c w]; [done|]. unfold should_quote_identifier, quotable. rewrite negb_false_iff. intros [H1 H2]%andb_prop.
  cbn [forallb]. rewrite (Hc _ _ H1). apply forallb_forall. intros x Hx. eapply Hc. by eapply forallb_forall in H2.
Qed.
(** Whether the name is put in quotes. *)
Definition gets_quotes (name : list Z) : bool :=
  match parse_ignore_case name with Some _ => true | None => should_quote_identifier name end.
Lemma show_variable name : make_expression_for_variable name = show_expr (EVar name (gets_quotes name)).
Proof. unfold make_expression_for_variable, gets_quotes. by destruct (parse_ignore_case name), (should_quote_identifier name). Qed.

(** The expression made for a variable is parsed to that variable, when
    its name has no backquote and no backslash and, unless it gets quotes, is
    a word with doubled colons that is not a keyword. *)
Theorem variable_expression_roundtrip name :
  quotable name = true -> (gets_quotes name = false -> name_ok name = true /\ name ∉ keywords) ->
  exists x, parse_watch_expression (make_expression_for_variable name) = Ret x /\
    shape (ast x) (root x) (Variable_ name (gets_quotes name) false) [].
Proof.
  intros Hq Hn. rewrite show_variable. apply (parse_show (EVar name (gets_quotes name))). simpl.
  destruct (gets_quotes name); [done|]. simpl. by destruct Hn.
Qed.

(** C16. Printing an expression with parentheses only where the precedences ask
    for them, and parsing the text, gives the expression back. *)
Theorem expression_roundtrip e :
  expr_ok e -> exists x, parse_watch_expression (show_expr e) = Ret x /\ tree (ast x) (root x) e.
Proof. apply parse_show. Qed.
End Roundtrip.

(** ** Instances *)

#[local] Instance powi_sample : Powi := fun x _ => x.

(** [-x.y as *u8 + (1 - a[2]) * 3] *)
Definition sample_expr : expr :=
  EBinary Add (ECast (EUnary Neg (EField (EVar (text "x") false) (text "y") false)) (TyPointer (TyName (text "u8") false)))
    (EBinary Mul (EBinary Sub (EInt 1) (EIndex (EVar (text "a") false) (EInt 2))) (EInt 3)).
Example sample_text : show_expr sample_expr = text "- x . y as * u8 + ( 1 - a [ 2 ] ) * 3".
Proof. reflexivity. Qed.
Lemma expression_roundtrip_witness :
  exists x, parse_watch_expression (text "- x . y as * u8 + ( 1 - a [ 2 ] ) * 3") = Ret x /\
    tree (ast x) (root x) sample_expr.
Proof.
  apply (expression_roundtrip sample_expr). cbn [expr_ok sample_expr ty_ok word_ok]. change (2 ^ 64) with 18446744073709551616.
  split_and!; try discriminate; try reflexivity; try lia; intros _; apply (bool_decide_unpack _); vm_compute; exact Logic.I.
Defined.
Lemma variable_expression_roundtrip_witness :
  make_expression_for_variable (text "Vec<u8>") = text "`Vec<u8>`" /\
  exists x, parse_watch_expression (make_expression_for_variable (text "Vec<u8>")) = Ret x /\
    shape (ast x) (root x) (Variable_ (text "Vec<u8>") true false) [].
Proof.
  split; [reflexivity|]. apply (variable_expression_roundtrip (text "Vec<u8>")); [reflexivity|]. intros H. discriminate H.
Defined.

(** ** Texts the parser rejects *)

(** Keywords, and words with single colons, get no quotes and cannot be read
    back. *)
Definition rejected (s : list Z) : bool := match parse_watch_expression s with Ret _ => false | _ => true end.
Lemma keyword_variable_unreadable :
  map (fun name => gets_quotes name || negb (rejected (make_expression_for_variable name))) [text "loop"; text "fn"; text "a:b"]
  = [false; false; false].
Proof. reflexivity. Qed.
(** An extra register's name gets no quotes either, and is read as the
    register. *)
Lemma extra_register_unquoted :
  gets_quotes (text "xmm0") = false /\ exists r, Extra.extra_parse_ignore_case (E:=Error) (text "xmm0") = Ret (Some r).
Proof. vm_compute. split; [done|by eexists]. Qed.
(** A block is rejected: its brace is read once before the block is parsed and
    again by it. Two braces make a block whose range leaves out the first. *)
Lemma block_expression_rejected :
  rejected (text "{1}") = true /\ parse_watch_expression (text "{{1}") = Panic.
Proof. split; reflexivity. Qed.
(** A function of two arguments separated by a comma is rejected. *)
Lemma fn_comma_rejected :
  map (fun s => rejected (text s)) ["fn f(a: u8) {1}"; "fn f(a: u8 b: u8) {1}"; "fn f(a: u8, b: u8) {1}"]%string
  = [false; false; true].
Proof. reflexivity. Qed.
