(* ===== verification/ValueBlob.v ===== *)
(** Values of expressions (src/expr.rs): byte arrays without an exact length,
    bit ranges of them, and values that are still in the debuggee's memory. *)
From Stdlib Require Import ZArith Lia.
From stdpp Require Import base list.
From S2P Require Import Prelude Errors StateMonad Serial Registers MemReader.
Open Scope Z_scope.

(** ** Byte arrays *)

(** At most 24 bytes in three machine words, or a vector. *)
Inductive ValueBlob :=
  | Small (a : list Z)
  | Big (v : list Z).

(** [as_slice] and, for [as_mut_slice], storing the bytes back. *)
Definition as_slice (b : ValueBlob) : list Z :=
  match b with Small a => concat (map (le_bytes 8) a) | Big v => v end.
Definition words_of (l : list Z) : list Z :=
  [le_value (take 8 l); le_value (take 8 (drop 8 l)); le_value (take 8 (drop 16 l))].
Definition store (b : ValueBlob) (bytes : list Z) : ValueBlob :=
  match b with Small _ => Small (words_of bytes) | Big _ => Big bytes end.

Definition zeros (n : Z) : list Z := replicate (Z.to_nat n) 0.
Definition new (v : Z) : ValueBlob := Small [v; 0; 0].
Definition with_capacity (bytes : Z) : ValueBlob :=
  if bytes <=? 24 then Small [0; 0; 0] else Big (zeros bytes).
(** [l[at..at + v.len()].copy_from_slice(v)] *)
Definition overwrite {E} (l : list Z) (at_ : Z) (v : list Z) : outcome E (list Z) :=
  if (0 <=? at_) && (at_ + zlen v <=? zlen l)
  then Ret (take (Z.to_nat at_) l ++ v ++ drop (Z.to_nat (at_ + zlen v)) l) else Panic.
Definition from_slice {E} (s : list Z) : outcome E ValueBlob :=
  let r := with_capacity (zlen s) in
  bytes ← overwrite (as_slice r) 0 s; Ret (store r bytes).
Definition from_vec {E} (v : list Z) : outcome E ValueBlob := if zlen v <=? 24 then from_slice v else Ret (Big v).
Definition from_two_usizes (a b : Z) : ValueBlob := Small [a; b; 0].
Definition from_u64_slice {E} (val : list Z) : outcome E ValueBlob := from_vec (concat (map (le_bytes 8) val)).

Definition get_usize (b : ValueBlob) : result Z :=
  match b with Small a => lift_opt (zget a 0) | Big _ => Fail (Code Dwarf) end.
Definition get_usize_prefix (b : ValueBlob) : partial Z :=
  match b with
  | Small a => lift_opt (zget a 0)
  | Big v => Ret (le_value (take 8 (take (Z.to_nat (Z.min (zlen v) 8)) v ++ replicate 8 0)))
  end.
Definition get_usize_at (b : ValueBlob) (offset : Z) : result Z :=
  let s := as_slice b in
  e ← uadd offset 8;
  if zlen s <? e then Fail (Code Internal)
  else bytes ← zslice s offset e; Ret (le_value bytes).

(** [v.resize(bytes, 0)] *)
Definition vec_resize (v : list Z) (bytes : Z) : list Z :=
  take (Z.to_nat bytes) v ++ zeros (bytes - zlen v).
Definition resize (b : ValueBlob) (bytes : Z) : partial ValueBlob :=
  match b with
  | Small _ => if bytes <=? 24 then Ret b else Ret (Big (vec_resize (as_slice b) bytes))
  | Big v =>
      if 24 <? bytes then Ret (Big (vec_resize v bytes))
      else
        prefix ← zslice v 0 bytes;
        s ← overwrite (as_slice (new 0)) 0 prefix;
        Ret (store (new 0) s)
  end.
Definition capacity (b : ValueBlob) : Z := match b with Small _ => 24 | Big v => zlen v end.

(** [slice[i]] and [slice[i] = x] *)
Definition byte_at (l : list Z) (i : Z) : partial Z := lift_opt (zget l i).
Definition set_byte_at (l : list Z) (i x : Z) : partial (list Z) :=
  if (0 <=? i) && (i <? zlen l) then Ret (zset l i x) else Panic.

(** [slice.copy_within(from..to, dest)] *)
Definition copy_within (l : list Z) (from to dest : Z) : partial (list Z) :=
  part ← zslice l from to; overwrite l dest part.

(** The loop of [add_low_bits], for [i] from [n - 1] down; [q] and [r] are
    [bits / 8] and [bits & 7]. *)
Fixpoint add_low_loop (q r : Z) (n : nat) (l : list Z) : partial (list Z) :=
  match n with
  | O => Ret l
  | S n =>
      let i := Z.of_nat n in
      b ← byte_at l i;
      up ← byte_at l (i + q + 1);
      l ← set_byte_at l (i + q + 1) (Z.lor up (Z.shiftr b (8 - r)));
      l ← set_byte_at l (i + q) (wrap8 (Z.shiftl b r));
      add_low_loop q r n l
  end.
Definition add_low_bits (b : ValueBlob) (bits : Z) : partial ValueBlob :=
  let bytes := capacity b in
  b7 ← uadd bits 7;
  n ← uadd bytes (b7 / 8);
  b ← resize b n;
  let slice := as_slice b in
  slice ← (if Z.land bits 7 =? 0 then copy_within slice 0 bytes (bits / 8)
           else add_low_loop (bits / 8) (Z.land bits 7) (Z.to_nat bytes) slice);
  Ret (store b slice).

(** The loop of [remove_low_bits], for [i] from [i] up, [n] more steps. *)
Fixpoint remove_low_loop (q r bytes i : Z) (n : nat) (l : list Z) : partial (list Z) :=
  match n with
  | O => Ret l
  | S n =>
      b ← byte_at l (i + q);
      l ← set_byte_at l i (Z.shiftr b r);
      l ← (if i + q + 1 <? bytes then
             low ← byte_at l i;
             up ← byte_at l (i + q + 1);
             set_byte_at l i (Z.lor low (wrap8 (Z.shiftl up (8 - r))))
           else Ret l);
      remove_low_loop q r bytes (i + 1) n l
  end.
Definition remove_low_bits (b : ValueBlob) (bits : Z) : partial ValueBlob :=
  let bytes := capacity b in
  if bytes * 8 <? bits then Panic
  else
    let slice := as_slice b in
    slice ← (if Z.land bits 7 =? 0 then copy_within slice (bits / 8) bytes 0
             else remove_low_loop (bits / 8) (Z.land bits 7) bytes 0 (Z.to_nat (bytes - bits / 8)) slice);
    resize (store b slice) (bytes - bits / 8).

Fixpoint bitwise_or_loop (l : list Z) (start : Z) (other : list Z) (other_start : Z) (count : nat) (i : Z)
  : partial (list Z) :=
  match count with
  | O => Ret l
  | S count =>
      x ← byte_at l (start + i);
      y ← byte_at other (other_start + i);
      l ← set_byte_at l (start + i) (Z.lor x y);
      bitwise_or_loop l start other other_start count (i + 1)
  end.
Definition bitwise_or (b : ValueBlob) (self_start : Z) (other : ValueBlob) (other_start count : Z) : partial ValueBlob :=
  slice ← bitwise_or_loop (as_slice b) self_start (as_slice other) other_start (Z.to_nat count) 0;
  Ret (store b slice).

Definition zero_upper_bits (b : ValueBlob) (bits_to_keep : Z) : partial ValueBlob :=
  let slice := as_slice b in
  k7 ← uadd bits_to_keep 7;
  upper ← zslice slice (k7 / 8) (zlen slice);
  slice ← overwrite slice (k7 / 8) (zeros (zlen upper));
  slice ← (if negb (Z.land bits_to_keep 7 =? 0) then
             x ← byte_at slice (bits_to_keep / 8);
             set_byte_at slice (bits_to_keep / 8) (Z.land x (Z.shiftl 1 (Z.land bits_to_keep 7) - 1))
           else Ret slice);
  Ret (store b slice).

Definition append_bits (b : ValueBlob) (self_bits : Z) (other : ValueBlob) (size_in_bits bit_offset : Z)
  : partial ValueBlob :=
  e ← uadd bit_offset size_in_bits;
  other ← zero_upper_bits other e;
  t ← uadd self_bits size_in_bits;
  t7 ← uadd t 7;
  let total_bytes := t7 / 8 in
  b ← resize b total_bytes;
  if (Z.land self_bits 7 =? 0) && (bit_offset =? 0) then
    s7 ← uadd size_in_bits 7;
    src ← zslice (as_slice other) 0 (s7 / 8);
    dest ← overwrite (as_slice b) (self_bits / 8) src;
    Ret (store b dest)
  else
    let shift := 16 - Z.land bit_offset 7 + Z.land self_bits 7 in
    other ← add_low_bits other shift;
    let self_whole_bytes := self_bits / 8 in
    let skip_bytes := 2 + bit_offset / 8 in
    count ← usub total_bytes self_whole_bytes;
    bitwise_or b self_whole_bytes other skip_bytes count.

Definition bit_range (b : ValueBlob) (bit_offset bit_size : Z) : result ValueBlob :=
  let byte_offset := bit_offset / 8 in
  e ← uadd bit_offset bit_size;
  e7 ← uadd e 7;
  let byte_end := e7 / 8 in
  let slice := as_slice b in
  if zlen slice <? byte_end then Fail (Code Dwarf)
  else
    part ← zslice slice byte_offset byte_end;
    res ← from_slice part;
    res ← (if negb (Z.land bit_offset 7 =? 0) then
             res ← widen (remove_low_bits res (Z.land bit_offset 7));
             s7 ← uadd bit_size 7;
             widen (resize res (s7 / 8))
           else Ret res);
    if negb (Z.land bit_size 7 =? 0) then widen (zero_upper_bits res bit_size) else Ret res.

Definition byte_range (b : ValueBlob) (start end_ : Z) : result ValueBlob :=
  let slice := as_slice b in
  if zlen slice <? end_ then Fail (Code Runtime)
  else part ← zslice slice start end_; from_slice part.

(** ** Values that may still be in memory *)

Inductive AddrOrValueBlob :=
  | Addr (a : Z)
  | Blob (b : ValueBlob).
Definition value_default : AddrOrValueBlob := Blob (new 0).

Definition addr_of (v : AddrOrValueBlob) : option Z := match v with Addr a => Some a | Blob _ => None end.
Definition blob_ref (v : AddrOrValueBlob) : option ValueBlob := match v with Blob b => Some b | Addr _ => None end.

Section Memory.
  (** The reader under the cache, as in MemReader. *)
  Context (mem_read : Z -> Z -> result (list Z)).
  Notation R := (stm CachedMemReader Error).

Definition into_value (v : AddrOrValueBlob) (bytes : Z) : R ValueBlob :=
  match v with
  | Blob b => if capacity b <? bytes then sfail (Code Dwarf) else mret b
  | Addr a =>
      if Z.shiftl 100 20 <? bytes then sfail (Code Sanity)
      else
        let b := with_capacity bytes in
        buf ← read mem_read a bytes;
        s ← slift (overwrite (as_slice b) 0 buf);
        mret (store b s)
  end.

Definition value_byte_range (v : AddrOrValueBlob) (start end_ : Z) : R AddrOrValueBlob :=
  match v with
  | Addr addr => if U64_MAX - start <? addr then sfail (Code ProcessState) else mret (Addr (addr + start))
  | Blob b => b ← slift (byte_range b start end_); mret (Blob b)
  end.

(** [bit_range] with the range [start..end_]; a range's length saturates at 0. *)
Definition value_bit_range (v : AddrOrValueBlob) (start end_ : Z) : R Z :=
  let len := saturating_sub end_ start in
  _ ← sassert (len <=? 64);
  e7 ← slift (uadd end_ 7);
  let byte_start := start / 8 in
  let byte_end := e7 / 8 in
  let byte_len := saturating_sub byte_end byte_start in
  bytes ← match v with
          | Blob b =>
              if capacity b * 8 <? end_ then sfail (Code Dwarf)
              else _ ← sassert (byte_len <=? 9); slift (zslice (as_slice b) byte_start byte_end)
          | Addr addr =>
              _ ← sassert (byte_len <=? 9);
              read mem_read (saturating_add addr byte_start) byte_len
          end;
  let a := bytes ++ zeros (9 - zlen bytes) in
  let r := le_value (take 8 a) in
  let r := if negb (start mod 8 =? 0) then Z.shiftr r (start mod 8) else r in
  r ← (if 8 <? byte_len then
         a8 ← sopt (zget a 8);
         _ ← sassert (negb (start mod 8 =? 0));
         mret (Z.lor r (wrap64 (Z.shiftl a8 (64 - start mod 8))))
       else mret r);
  mret (if len <? 64 then Z.land r (Z.shiftl 1 len - 1) else r).

Definition value_get_usize (v : AddrOrValueBlob) : R Z :=
  match v with Addr a => read_usize mem_read a | Blob b => slift (get_usize b) end.
Definition value_get_usize_prefix (v : AddrOrValueBlob) : R Z :=
  match v with Addr a => read_usize mem_read a | Blob b => slift (widen (get_usize_prefix b)) end.
Definition value_get_usize_at (v : AddrOrValueBlob) (offset : Z) : R Z :=
  match v with
  | Addr a => a ← slift (uadd a offset); read_usize mem_read a
  | Blob b => slift (get_usize_at b offset)
  end.

(** ** Fields of structs *)

(** A field: the size of its type, its own size in bits and its offset in bits
    ([calculate_size] and [calculate_bit_size] of the type). *)
Record StructField := mkField { type_bytes : Z; field_bits : Z; bit_offset : Z }.

Definition get_struct_field (v : AddrOrValueBlob) (f : StructField) : R AddrOrValueBlob :=
  if field_bits f =? 0 then mret (Blob (new 0))
  else
    f7 ← slift (uadd (field_bits f) 7);
    let type_bytes := if type_bytes f =? 0 then f7 / 8 else type_bytes f in
    let finish b := b ← slift (widen (resize b type_bytes)); mret (Blob b) in
    match v with
    | Addr addr =>
        start ← slift (uadd addr (bit_offset f / 8));
        if (type_bytes * 8 =? field_bits f) && (bit_offset f mod 8 =? 0) then mret (Addr start)
        else if Z.shiftl 1 30 <? field_bits f then sfail (Code Sanity)
        else
          let start_byte := bit_offset f / 8 in
          end_ ← slift (uadd (bit_offset f) (field_bits f));
          blob ← into_value (Addr start) ((end_ - start_byte * 8 + 7) / 8);
          r ← stry (slift (bit_range blob (bit_offset f - start_byte * 8) (field_bits f)));
          match r with inl b => finish b | inr _ => spanic end
    | Blob blob =>
        r ← stry (slift (bit_range blob (bit_offset f) (field_bits f)));
        match r with inl b => finish b | inr _ => sfail (Code Dwarf) end
    end.

(** ** Assembling a value from the pieces of a location *)

(** A location of a piece, as the evaluator of DWARF expressions returns it: a
    value is given with its conversion to 64 bits, which can fail; a register by
    its DWARF number. *)
Inductive Location :=
  | LEmpty
  | LValue (v : result Z)
  | LBytes (b : list Z)
  | LRegister (register : Z)
  | LAddress (a : Z)
  | LImplicitPointer.
Record Piece := mkPiece { location : Location; size_in_bits : option Z; piece_bit_offset : option Z }.

(** What the evaluation knows of the thread: the architecture, the registers of
    the frame, and the vector registers once fetched. *)
Record EvalRegs := mkEvalRegs {
  arch : Arch; regs : option Regs.Registers; extra_regs : option Extra.ExtraRegisters
}.
Context (ctx : EvalRegs).

Definition register_value (reg : Z) : result (ValueBlob * bool) :=
  match from_dwarf_arch (arch ctx) reg with
  | Some r =>
      match regs ctx with
      | None => Fail (Code Dwarf)
      | Some rs =>
          match Regs.get rs r with
          | Ret (v, dub) => Ret (new v, dub)
          | Fail _ => Fail (Code Dwarf)
          | Panic => Panic
          end
      end
  | None =>
      x ← Extra.extra_from_dwarf reg;
      match x with
      | Some r =>
          match extra_regs ctx with
          | None => Fail (Code Dwarf)
          | Some rs => '(v, dub) ← Extra.extra_get rs r; blob ← from_u64_slice v; Ret (blob, dub)
          end
      | None => Fail (Code NotImplemented)
      end
  end.

(** The value of a piece, its number of bytes, and whether it is a guess. *)
Definition piece_value (p : Piece) : result (AddrOrValueBlob * Z * bool) :=
  match location p with
  | LEmpty => Fail (Code OptimizedAway)
  | LValue v => v ← v; Ret (Blob (new v), 8, false)
  | LBytes b => blob ← from_slice b; Ret (Blob blob, zlen b, false)
  | LRegister reg => '(blob, dub) ← register_value reg; Ret (Blob blob, 8, dub)
  | LAddress a => s7 ← uadd (default 64 (size_in_bits p)) 7; Ret (Addr a, s7 / 8, false)
  | LImplicitPointer => Fail (Code Dwarf)
  end.

(** The loop over the pieces; [one] says that there is a single one. *)
Fixpoint assemble (one : bool) (pieces : list Piece) (res : ValueBlob) (res_bits : Z) (dubious : bool)
  : R (AddrOrValueBlob * bool) :=
  match pieces with
  | [] => mret (Blob res, dubious)
  | p :: pieces =>
      '(val, blob_bytes, d) ← slift (piece_value p);
      let dubious := dubious || d in
      let bit_offset := default 0 (piece_bit_offset p) in
      let size := default (saturating_sub (blob_bytes * 8) bit_offset) (size_in_bits p) in
      if size =? 0 then sfail (Code Dwarf)
      else if one && (bit_offset =? 0) && (size =? blob_bytes * 8) then mret (val, dubious)
      else
        n ← slift (uadd size bit_offset);
        n7 ← slift (uadd n 7);
        val ← into_value val (n7 / 8);
        res ← slift (widen (append_bits res res_bits val size bit_offset));
        res_bits ← slift (uadd res_bits size);
        assemble one pieces res res_bits dubious
  end.
Definition eval_pieces (pieces : list Piece) (dubious : bool) : R (AddrOrValueBlob * bool) :=
  assemble (zlen pieces =? 1) pieces (new 0) 0 dubious.
End Memory.

(** ** Structs made by the debugger *)

Record StructBuilder := mkBuilder { value_blob : list Z; fields : list (list Z * StructField) }.
Definition builder_default : StructBuilder := mkBuilder [] [].
Definition add_blob_field (s : StructBuilder) (name value : list Z) (type_size : Z) : StructBuilder :=
  let prev_len := zlen (value_blob s) in
  let blob := value_blob s ++ value in
  mkBuilder blob (fields s ++ [(name, mkField type_size ((zlen blob - prev_len) * 8) (prev_len * 8))]).
Definition add_field (s : StructBuilder) (name : list Z) (v : AddrOrValueBlob) (size : Z) : partial StructBuilder :=
  blob ← lift_opt (blob_ref v);
  let bytes := as_slice blob in
  _ ← rassert (size <=? zlen bytes);
  value ← zslice bytes 0 size;
  Ret (add_blob_field s name value size).
Definition add_usize_field (s : StructBuilder) (name : list Z) (value type_size : Z) : StructBuilder :=
  add_blob_field s name (le_bytes 8 value) type_size.
Definition add_usize_blob_field (s : StructBuilder) (name : list Z) (value : list Z) (type_size : Z) : StructBuilder :=
  add_blob_field s name (concat (map (le_bytes 8) value)) type_size.
Definition add_slice_field (s : StructBuilder) (name : list Z) (ptr len type_size : Z) : StructBuilder :=
  add_blob_field s name (le_bytes 8 ptr ++ le_bytes 8 len) type_size.
(** The type is an array of that many characters; an enum type on 64 bits. *)
Definition add_str_field (s : StructBuilder) (name value : list Z) : StructBuilder :=
  add_blob_field s name value (zlen value).
Definition add_enum_field (s : StructBuilder) (name : list Z) (val : Z) (enumerands : list (list Z))
  : partial StructBuilder :=
  _ ← rassert (val <? zlen enumerands); Ret (add_usize_field s name val 8).
(** [finish]: the value and its fields. *)
Definition finish (s : StructBuilder) : partial (AddrOrValueBlob * list (list Z * StructField)) :=
  blob ← from_vec (value_blob s); Ret (Blob blob, fields s).

(** [swap_bytes() >> (64 - size*8)] when the value is big-endian. *)
Definition flip_endianness_if_needed (x size : Z) (big_endian : bool) : Z :=
  let size := Z.max (Z.min size 8) 1 in
  if big_endian then Z.shiftr (le_value (rev (le_bytes 8 x))) (64 - size * 8) else x.
