(* ===== verification/ValueBlobSpec.v ===== *)
(** Properties of the byte arrays of src/expr.rs (ValueBlob): each operation on
    bits is arithmetic on the number that the bytes stand for. *)
From Stdlib Require Import ZArith Lia ZifyBool.
From stdpp Require Import base list.
From S2P Require Import Prelude Errors StateMonad Serial LeBytes MemReader ValueBlob.
Open Scope Z_scope.

(** ** Bytes *)

(** Stored bytes are read back. *)
Definition blob_ok (b : ValueBlob) : Prop :=
  match b with
  | Small a => length a = 3%nat /\ Forall is_u64 a
  | Big v => Forall is_u8 v /\ 24 < zlen v
  end.
(** The number that a blob stands for. *)
Definition value (b : ValueBlob) : Z := le_value (as_slice b).

Lemma concat_le_bytes_u8 a : Forall is_u8 (concat (map (le_bytes 8) a)).
Proof.
  induction a as [|x a IH]; [constructor|]. cbn [map concat]. apply Forall_app. split; [apply le_bytes_u8|exact IH].
Qed.
Lemma as_slice_u8 b : blob_ok b -> Forall is_u8 (as_slice b).
Proof. destruct b; [intros _; apply concat_le_bytes_u8|by intros []]. Qed.
Lemma as_slice_length b : blob_ok b -> zlen (as_slice b) = capacity b.
Proof.
  destruct b as [a|v]; [|done]. intros [Ha _]. destruct a as [|x [|y [|z [|]]]]; done.
Qed.
Lemma as_slice_nat b : blob_ok b -> length (as_slice b) = Z.to_nat (capacity b).
Proof. intros H. rewrite <- (as_slice_length b H). unfold zlen. lia. Qed.
Lemma capacity_ge b : blob_ok b -> 24 <= capacity b.
Proof. destruct b; simpl; [lia|intros []; lia]. Qed.

Lemma words_of_bytes l : Forall is_u8 l -> length l = 24%nat -> concat (map (le_bytes 8) (words_of l)) = l.
Proof.
  intros Hl Hlen. unfold words_of. cbn [map concat]. rewrite app_nil_r.
  assert (Hw : forall k, (k <= 16)%nat -> le_bytes 8 (le_value (take 8 (drop k l))) = take 8 (drop k l)).
  { intros k Hk. assert (Hk8 : length (take 8 (drop k l)) = 8%nat) by (rewrite length_take, length_drop; lia).
    rewrite <- Hk8 at 1. apply le_bytes_value, Forall_take, Forall_drop, Hl. }
  pose proof (Hw 0%nat ltac:(lia)) as H0. rewrite drop_0 in H0. rewrite H0, (Hw 8%nat), (Hw 16%nat) by lia.
  rewrite <- (take_drop 8 l) at 4. f_equal. rewrite <- (take_drop 8 (drop 8 l)) at 2. f_equal.
  rewrite drop_drop. rewrite take_ge; [done|]. rewrite length_drop. lia.
Qed.
Lemma le_value_u64 l : Forall is_u8 l -> (length l <= 8)%nat -> is_u64 (le_value l).
Proof.
  intros Hl Hlen. pose proof (le_value_range l Hl) as Hr. unfold is_u64, zlen in *.
  assert (pow256 (length l) <= 256 ^ 8) by (apply Z.pow_le_mono_r; lia). change (256 ^ 8) with (2 ^ 64) in *. lia.
Qed.
Lemma store_ok b l : blob_ok b -> Forall is_u8 l -> zlen l = capacity b -> blob_ok (store b l) /\ as_slice (store b l) = l /\ capacity (store b l) = capacity b.
Proof.
  destruct b as [a|v]; intros Hb Hl Hlen.
  - simpl in Hlen. split; [|split; [apply words_of_bytes; [done|unfold zlen in Hlen; lia]|done]]. split; [done|].
    unfold words_of. repeat constructor; apply le_value_u64; try (rewrite length_take; lia);
      repeat (apply Forall_take || apply Forall_drop); done.
  - simpl in *. destruct Hb as [_ Hb]. split; [split; [done|lia]|done].
Qed.
Lemma with_capacity_ok n : blob_ok (with_capacity n) /\ value (with_capacity n) = 0 /\ capacity (with_capacity n) = Z.max 24 n.
Proof.
  unfold with_capacity. destruct (Z.leb_spec n 24).
  - split; [split; [done|]|split; [done|simpl; lia]]. by repeat constructor.
  - assert (Hz : zlen (zeros n) = n) by (unfold zeros, zlen; rewrite length_replicate; lia). split; [|split].
    + split; [|simpl; lia]. apply Forall_replicate. done.
    + apply le_value_zeros.
    + simpl. lia.
Qed.
Lemma new_ok v : is_u64 v -> blob_ok (new v) /\ value (new v) = v.
Proof.
  intros Hv. split.
  { split; [done|]. constructor; [exact Hv|]. repeat (constructor; [unfold is_u64; lia|]). constructor. }
  unfold value, new. cbn [as_slice map concat].
  rewrite !le_value_app, !le_value_bytes_mod. change (pow256 8) with (2 ^ 64). unfold is_u64 in Hv.
  rewrite Z.mod_small by lia. change (0 mod 2 ^ 64) with 0. change (le_value []) with 0. lia.
Qed.

Lemma overwrite_ok {E} l at_ v : 0 <= at_ -> at_ + zlen v <= zlen l ->
  overwrite (E:=E) l at_ v = Ret (take (Z.to_nat at_) l ++ v ++ drop (Z.to_nat (at_ + zlen v)) l).
Proof. intros H0 H1. unfold overwrite. by rewrite (proj2 (Z.leb_le 0 at_)), (proj2 (Z.leb_le _ (zlen l))) by lia. Qed.
Lemma overwrite_prefix {E} l v : zlen v <= zlen l -> overwrite (E:=E) l 0 v = Ret (v ++ drop (length v) l).
Proof. intros H. rewrite overwrite_ok by lia. simpl. do 3 f_equal. unfold zlen. lia. Qed.
Lemma zlen_take_drop {A} (l : list A) v n : (n <= length l)%nat -> length v = n -> zlen (v ++ drop n l) = zlen l.
Proof. intros Hn Hv. unfold zlen. rewrite length_app, length_drop. lia. Qed.

(** A slice becomes a blob with the same number, extended with zeros. *)
Lemma from_slice_ok {E} s : Forall is_u8 s ->
  exists b, from_slice (E:=E) s = Ret b /\ blob_ok b /\ value b = le_value s /\ capacity b = Z.max 24 (zlen s).
Proof.
  intros Hs. destruct (with_capacity_ok (zlen s)) as (Hok&Hv&Hc). unfold from_slice.
  assert (Hlen : zlen (as_slice (with_capacity (zlen s))) = Z.max 24 (zlen s)) by (by rewrite as_slice_length).
  rewrite overwrite_prefix by lia. cbn [mbind outcome_bind].
  set (rest := drop (length s) (as_slice (with_capacity (zlen s)))).
  assert (Hrest : Forall is_u8 rest) by (apply Forall_drop, as_slice_u8, Hok).
  assert (Hz : le_value rest = 0).
  { subst rest. rewrite le_value_drop by by apply as_slice_u8. unfold value in Hv. by rewrite Hv, Z.div_0_l by (pose proof (pow256_pos (length s)); lia). }
  destruct (store_ok (with_capacity (zlen s)) (s ++ rest)) as (H1&H2&H3); [done|by apply Forall_app| |].
  { subst rest. rewrite zlen_take_drop; [by rewrite as_slice_length|unfold zlen in *; lia|done]. }
  eexists. split; [done|]. split; [done|]. split; [|by rewrite H3, Hc].
  unfold value. rewrite H2, le_value_app, Hz. lia.
Qed.

Lemma value_range b : blob_ok b -> 0 <= value b < 256 ^ capacity b.
Proof. intros Hb. rewrite <- as_slice_length by done. by apply le_value_range, as_slice_u8. Qed.
Lemma store_value b l : blob_ok b -> Forall is_u8 l -> zlen l = capacity b ->
  blob_ok (store b l) /\ value (store b l) = le_value l /\ capacity (store b l) = capacity b.
Proof. intros H1 H2 H3. destruct (store_ok b l H1 H2 H3) as (?&Hs&?). split; [done|]. unfold value. by rewrite Hs. Qed.

(** Resizing keeps the number, cut to the new size when the bytes are in a vector. *)
Lemma vec_resize_ok v n : Forall is_u8 v -> 0 <= n ->
  Forall is_u8 (vec_resize v n) /\ zlen (vec_resize v n) = n /\ le_value (vec_resize v n) = le_value v mod 256 ^ n.
Proof.
  intros Hv Hn. unfold vec_resize, zeros. split; [|split].
  - apply Forall_app. split; [by apply Forall_take|]. by apply Forall_replicate.
  - unfold zlen. rewrite length_app, length_take, length_replicate. lia.
  - rewrite le_value_app, le_value_zeros, le_value_take by done. replace (Z.of_nat (Z.to_nat n)) with n by lia. lia.
Qed.
Lemma resize_ok b n : blob_ok b -> 0 <= n ->
  exists b', resize b n = Ret b' /\ blob_ok b' /\ capacity b' = Z.max 24 n /\
    value b' = if capacity b <=? 24 then value b else value b mod 256 ^ n.
Proof.
  intros Hb Hn. destruct b as [a|v]; cbn [resize capacity].
  - destruct (Z.leb_spec n 24).
    + exists (Small a). simpl. split; [done|]. split; [done|]. split; [lia|done].
    + assert (Hu : Forall is_u8 (as_slice (Small a))) by (by apply as_slice_u8).
      destruct (vec_resize_ok (as_slice (Small a)) n Hu Hn) as (H1&H2&H3).
      eexists. split; [done|]. split; [split; [done|lia]|]. split; [cbn [capacity]; lia|].
      change (value (Big ?x)) with (le_value x). rewrite H3. change (24 <=? 24) with true. cbv iota.
      pose proof (value_range (Small a) Hb) as Hr. cbn [capacity] in Hr.
      assert (256 ^ 24 <= 256 ^ n) by (apply Z.pow_le_mono_r; lia).
      change (le_value (as_slice (Small a))) with (value (Small a)). apply Z.mod_small. lia.
  - destruct Hb as [Hv Hlen]. rewrite (proj2 (Z.leb_gt (zlen v) 24)) by lia. destruct (Z.ltb_spec 24 n).
    + destruct (vec_resize_ok v n Hv Hn) as (H1&H2&H3). eexists. split; [done|].
      split; [split; [done|lia]|]. split; [cbn [capacity]; lia|exact H3].
    + rewrite zslice_ok by lia. cbn [mbind outcome_bind]. rewrite Z.sub_0_r, drop_0.
      destruct (new_ok 0 ltac:(unfold is_u64; lia)) as [H0 Hv0].
      assert (Hp : zlen (take (Z.to_nat n) v) = n) by (unfold zlen in *; rewrite length_take; lia).
      rewrite overwrite_prefix by (rewrite as_slice_length by done; simpl; lia). cbn [mbind outcome_bind].
      set (rest := drop (length (take (Z.to_nat n) v)) (as_slice (new 0))).
      assert (Hrest : Forall is_u8 rest) by (apply Forall_drop, as_slice_u8, H0).
      assert (Hz : le_value rest = 0).
      { subst rest. rewrite le_value_drop by by apply as_slice_u8. unfold value in Hv0. rewrite Hv0.
        apply Z.div_0_l. pose proof (pow256_pos (length (take (Z.to_nat n) v))). lia. }
      destruct (store_value (new 0) (take (Z.to_nat n) v ++ rest)) as (Ha&Hval&Hc).
      { done. } { apply Forall_app. split; [by apply Forall_take|done]. }
      { subst rest. rewrite zlen_take_drop; [by rewrite as_slice_length| |done]. rewrite as_slice_nat by done. simpl. unfold zlen in *. lia. }
      eexists. split; [done|]. split; [done|]. split; [rewrite Hc; simpl; lia|].
      rewrite Hval, le_value_app, Hz, le_value_take by done. replace (Z.of_nat (Z.to_nat n)) with n by lia. unfold value. simpl. lia.
Qed.

(** ** Clearing the upper bits *)

Lemma land_7 x : Z.land x 7 = x mod 8.
Proof. change 7 with (Z.ones 3). by rewrite Z.land_ones by lia. Qed.

Lemma byte_at_nat l i b : l !! i = Some b -> byte_at l (Z.of_nat i) = Ret b.
Proof. intros H. unfold byte_at. by rewrite zget_of_nat, H. Qed.
Lemma set_byte_at_nat l i x : (i < length l)%nat -> set_byte_at l (Z.of_nat i) x = Ret (<[i := x]> l).
Proof.
  intros H. unfold set_byte_at, zlen. rewrite (proj2 (Z.leb_le 0 _)), (proj2 (Z.ltb_lt _ _)) by lia.
  cbn [andb]. by rewrite zset_of_nat.
Qed.

Lemma zero_upper_bits_ok b k : blob_ok b -> 0 <= k <= 8 * capacity b -> k + 7 < 2 ^ 64 ->
  exists b', zero_upper_bits b k = Ret b' /\ blob_ok b' /\ capacity b' = capacity b /\ value b' = value b mod 2 ^ k.
Proof.
  intros Hb Hk Hmax. unfold zero_upper_bits, uadd. rewrite (proj2 (Z.ltb_lt _ (2 ^ 64))) by done. cbn [mbind outcome_bind].
  pose proof (as_slice_length b Hb) as Hlen. pose proof (as_slice_u8 b Hb) as Hu. set (s := as_slice b) in *.
  set (m := (k + 7) / 8). assert (Hm : 0 <= m <= zlen s) by (subst m; Z.div_mod_to_equations; lia).
  rewrite zslice_ok by lia. cbn [mbind outcome_bind].
  set (s1 := take (Z.to_nat m) s ++ zeros (zlen s - m)).
  assert (Hs1 : overwrite (E:=Empty_set) s m (zeros (zlen (take (Z.to_nat (zlen s - m)) (drop (Z.to_nat m) s)))) = Ret s1).
  { assert (Hz : zlen (take (Z.to_nat (zlen s - m)) (drop (Z.to_nat m) s)) = zlen s - m).
    { unfold zlen in *. rewrite length_take, length_drop. lia. }
    rewrite Hz. assert (Hzz : zlen (zeros (zlen s - m)) = zlen s - m) by (unfold zeros, zlen in *; rewrite length_replicate; lia).
    rewrite overwrite_ok by lia. rewrite Hzz. replace (m + (zlen s - m)) with (zlen s) by lia.
    rewrite drop_ge by (unfold zlen; lia). by rewrite app_nil_r. }
  rewrite Hs1. cbn [mbind outcome_bind].
  assert (Hu1 : Forall is_u8 s1).
  { apply Forall_app. split; [by apply Forall_take|]. by apply Forall_replicate. }
  assert (Hl1 : zlen s1 = capacity b).
  { subst s1. unfold zeros, zlen in *. rewrite length_app, length_take, length_replicate. lia. }
  assert (Hv1 : le_value s1 = le_value s mod 256 ^ m).
  { subst s1. unfold zeros. rewrite le_value_app, le_value_zeros, le_value_take by done. replace (Z.of_nat (Z.to_nat m)) with m by lia. lia. }
  rewrite land_7. destruct (Z.eqb_spec (k mod 8) 0) as [H8|H8]; cbn [negb mbind outcome_bind].
  - destruct (store_value b s1 Hb Hu1 Hl1) as (H1&H2&H3). eexists. split; [done|]. split; [done|]. split; [done|].
    rewrite H2, Hv1. unfold value. fold s. f_equal. change 256 with (2 ^ 8). rewrite <- Z.pow_mul_r by lia. f_equal.
    subst m. Z.div_mod_to_equations; lia.
  - set (i := Z.to_nat (k / 8)). replace (k / 8) with (Z.of_nat i) by (subst i; Z.div_mod_to_equations; lia).
    assert (Hmi : m = Z.of_nat (S i)) by (subst m i; Z.div_mod_to_equations; lia).
    assert (Hi : (i < length s1)%nat) by (unfold zlen in *; lia).
    destruct (lookup_lt_is_Some_2 s1 i Hi) as [x Hx]. rewrite (byte_at_nat _ _ _ Hx). cbn [mbind outcome_bind].
    rewrite set_byte_at_nat by done. cbn [mbind outcome_bind]. rewrite land_low by (apply Z.mod_pos_bound; lia).
    assert (Hr : 0 < 2 ^ (k mod 8)) by (apply Z.pow_pos_nonneg; Z.div_mod_to_equations; lia).
    assert (Hr8 : 2 ^ (k mod 8) <= 2 ^ 8) by (apply Z.pow_le_mono_r; Z.div_mod_to_equations; lia). change (2 ^ 8) with 256 in Hr8.
    destruct (store_value b (<[i := x mod 2 ^ (k mod 8)]> s1) Hb) as (H1&H2&H3).
    { apply Forall_insert; [done|]. pose proof (Z.mod_pos_bound x _ Hr). unfold is_u8. lia. }
    { unfold zlen in *. by rewrite length_insert. }
    eexists. split; [done|]. split; [done|]. split; [done|]. rewrite H2, (le_value_insert _ _ x) by done.
    pose proof (le_value_lookup s1 i x Hu1 Hx) as Hxv. rewrite Hv1, Hmi in *. unfold value. fold s.
    pose proof (pow256_pos i) as Hpi. rewrite pow256_S, (Z.mul_comm 256) in *.
    replace (2 ^ k) with (pow256 i * 2 ^ (k mod 8)).
    2:{ rewrite pow256_bits, <- Z.pow_add_r by (subst i; Z.div_mod_to_equations; lia). f_equal. subst i. Z.div_mod_to_equations; lia. }
    rewrite Z.rem_mul_r in Hxv |- * by lia. rewrite (Z.rem_mul_r (le_value s)) by lia.
    assert (Hxe : x = (le_value s / pow256 i) mod 256).
    { rewrite Hxv. rewrite (Z.mul_comm (pow256 i)), Z.div_add by lia. rewrite Z.div_small by (apply Z.mod_pos_bound; lia).
      rewrite Z.add_0_l. by rewrite Z.mod_mod by lia. }
    rewrite <- Hxe. replace ((le_value s / pow256 i) mod 2 ^ (k mod 8)) with (x mod 2 ^ (k mod 8)); [lia|].
    rewrite Hxe. apply Z.mod_mod_divide.
    exists (2 ^ (8 - k mod 8)). rewrite <- Z.pow_add_r by (Z.div_mod_to_equations; lia).
    change 256 with (2 ^ 8). f_equal. lia.
Qed.

(** ** Shifting down *)

Lemma shift_byte x y r : is_u8 x -> is_u8 y -> 0 < r < 8 ->
  Z.lor (Z.shiftr x r) (wrap8 (Z.shiftl y (8 - r))) = ((x + 256 * y) / 2 ^ r) mod 256 /\
  is_u8 (Z.shiftr x r) /\ is_u8 (wrap8 (Z.shiftl y (8 - r))).
Proof.
  intros Hx Hy Hr. unfold is_u8 in *. rewrite Z.shiftr_div_pow2, Z.shiftl_mul_pow2 by lia. unfold wrap8.
  assert (H8 : 256 = 2 ^ (8 - r) * 2 ^ r) by (rewrite <- Z.pow_add_r by lia; change 256 with (2 ^ 8); f_equal; lia).
  assert (Hp : 0 < 2 ^ r) by (apply Z.pow_pos_nonneg; lia). assert (Hq : 0 < 2 ^ (8 - r)) by (apply Z.pow_pos_nonneg; lia).
  assert (Hlow : 0 <= x / 2 ^ r < 2 ^ (8 - r)) by (split; [apply Z.div_pos; lia|apply Z.div_lt_upper_bound; lia]).
  assert (Hmod : (y * 2 ^ (8 - r)) mod 256 = 2 ^ (8 - r) * (y mod 2 ^ r)).
  { rewrite (Z.mul_comm y), H8 at 1. by rewrite Z.mul_mod_distr_l by lia. }
  pose proof (Z.mod_pos_bound y (2 ^ r) Hp).
  split; [|split; [split; [lia|apply Z.div_lt_upper_bound; nia]|apply Z.mod_pos_bound; lia]].
  rewrite Hmod, (Z.mul_comm (2 ^ (8 - r))), <- Z.shiftl_mul_pow2, lor_small by lia.
  replace (x + 256 * y) with (x + (2 ^ (8 - r) * y) * 2 ^ r) by (rewrite H8 at 1; ring). rewrite Z.div_add by lia.
  replace (x / 2 ^ r + 2 ^ (8 - r) * y) with (x / 2 ^ r + y * 2 ^ (8 - r)) by lia.
  assert (Hm : forall z, z mod 256 = z mod 2 ^ (8 - r) + 2 ^ (8 - r) * ((z / 2 ^ (8 - r)) mod 2 ^ r)).
  { intros z. rewrite H8 at 1. by rewrite Z.rem_mul_r by lia. }
  rewrite Hm, Z.mod_add, (Z.mod_small (x / 2 ^ r)) by lia.
  by rewrite Z.div_add, (Z.div_small (x / 2 ^ r)), Z.add_0_l by lia.
Qed.

Lemma drop_insert_lower {A} (l : list A) i j x : (i < j)%nat -> drop j (<[i := x]> l) = drop j l.
Proof. intros H. apply list_eq. intros k. rewrite !lookup_drop. apply list_lookup_insert_ne. lia. Qed.
Lemma take_insert_upper {A} (l : list A) i j x : (j <= i)%nat -> take j (<[i := x]> l) = take j l.
Proof.
  intros H. apply list_eq. intros k. destruct (decide (k < j)%nat).
  - rewrite !lookup_take_lt by done. apply list_lookup_insert_ne. lia.
  - by rewrite !lookup_take_ge by lia.
Qed.
Lemma take_S_insert {A} (l : list A) i x : (i < length l)%nat -> take (S i) (<[i := x]> l) = take i l ++ [x].
Proof.
  intros H. rewrite (take_S_r _ _ x) by by apply list_lookup_insert_eq. by rewrite take_insert_upper.
Qed.

Lemma remove_low_loop_ok (q r i n : nat) l :
  Forall is_u8 l -> (i + n + q = length l)%nat -> (0 < r < 8)%nat ->
  exists l', remove_low_loop (Z.of_nat q) (Z.of_nat r) (zlen l) (Z.of_nat i) n l = Ret l' /\
    Forall is_u8 l' /\ length l' = length l /\ drop (i + n) l' = drop (i + n) l /\
    le_value (take (i + n) l') = le_value (take i l) + pow256 i * (le_value (drop (i + q) l) / 2 ^ Z.of_nat r).
Proof.
  intros Hl Hn Hr. revert i l Hl Hn. induction n as [|n IH]; intros i l Hl Hn.
  - exists l. rewrite Nat.add_0_r. cbn [remove_low_loop]. repeat split; try done.
    rewrite (drop_ge l (i + q)) by lia. cbn [le_value]. rewrite Z.div_0_l by (pose proof (Z.pow_pos_nonneg 2 (Z.of_nat r)); lia). lia.
  - cbn [remove_low_loop]. assert (Hiq : (i + q < length l)%nat) by lia.
    destruct (lookup_lt_is_Some_2 l (i + q) Hiq) as [x Hx].
    replace (Z.of_nat i + Z.of_nat q) with (Z.of_nat (i + q)) by lia. rewrite (byte_at_nat _ _ _ Hx). cbn [mbind outcome_bind].
    rewrite set_byte_at_nat by lia. cbn [mbind outcome_bind].
    set (y := default 0 (l !! S (i + q))).
    assert (Hux : is_u8 x) by (rewrite Forall_lookup in Hl; by eapply Hl).
    assert (Huy : is_u8 y).
    { subst y. destruct (l !! S (i + q)) as [y|] eqn:Hy; [|by unfold is_u8]. simpl. rewrite Forall_lookup in Hl. by eapply Hl. }
    set (z := ((x + 256 * y) / 2 ^ Z.of_nat r) mod 256).
    destruct (shift_byte x y (Z.of_nat r) Hux Huy ltac:(lia)) as (Hz&Hu1&Hu2). fold z in Hz.
    assert (Hstep : (if Z.of_nat (i + q) + 1 <? zlen l then
        low ← byte_at (<[i:=Z.shiftr x (Z.of_nat r)]> l) (Z.of_nat i);
        up ← byte_at (<[i:=Z.shiftr x (Z.of_nat r)]> l) (Z.of_nat (i + q) + 1);
        set_byte_at (<[i:=Z.shiftr x (Z.of_nat r)]> l) (Z.of_nat i) (Z.lor low (wrap8 (Z.shiftl up (8 - Z.of_nat r))))
      else Ret (<[i:=Z.shiftr x (Z.of_nat r)]> l)) = Ret (<[i:=z]> l)).
    { replace (Z.of_nat (i + q) + 1) with (Z.of_nat (S (i + q))) by lia. destruct (l !! S (i + q)) as [y'|] eqn:Hy; simpl in y.
      - rewrite (proj2 (Z.ltb_lt _ _)) by (apply lookup_lt_Some in Hy; unfold zlen; lia).
        rewrite (byte_at_nat _ i (Z.shiftr x (Z.of_nat r))) by (apply list_lookup_insert_eq; lia). cbn [mbind outcome_bind].
        rewrite (byte_at_nat _ (S (i + q)) y') by (by rewrite list_lookup_insert_ne by lia). cbn [mbind outcome_bind].
        rewrite set_byte_at_nat by (rewrite length_insert; lia). fold y. rewrite Hz. by rewrite list_insert_insert_eq.
      - rewrite (proj2 (Z.ltb_ge _ _)) by (apply lookup_ge_None in Hy; unfold zlen; lia). do 2 f_equal.
        rewrite <- Hz. subst y. change (wrap8 (Z.shiftl 0 (8 - Z.of_nat r))) with (wrap8 (Z.shiftl 0 (8 - Z.of_nat r))).
        rewrite Z.shiftl_0_l. change (wrap8 0) with 0. by rewrite Z.lor_0_r. }
    rewrite Hstep. cbn [mbind outcome_bind].
    assert (Huz : is_u8 z) by (apply Z.mod_pos_bound; lia).
    destruct (IH (S i) (<[i:=z]> l)) as (l'&Hrun&Hl'&Hlen'&Hdrop&Hval).
    { by apply Forall_insert. } { rewrite length_insert. lia. }
    replace (zlen (<[i:=z]> l)) with (zlen l) in Hrun by (unfold zlen; by rewrite length_insert).
    replace (Z.of_nat (S i)) with (Z.of_nat i + 1) in Hrun by lia.
    exists l'. split; [exact Hrun|]. split; [done|]. split; [by rewrite Hlen', length_insert|].
    replace (i + S n)%nat with (S i + n)%nat by lia.
    split; [rewrite Hdrop, drop_insert_lower; [done|lia]|]. rewrite Hval.
    rewrite take_S_insert, drop_insert_lower by lia. rewrite le_value_app, length_take.
    replace (min i (length l)) with i by lia. cbn [le_value].
    assert (HD : le_value (drop (i + q) l) = x + 256 * (y + 256 * le_value (drop (S (S (i + q))) l))).
    { rewrite (drop_S _ _ _ Hx). cbn [le_value]. do 2 f_equal. subst y. destruct (l !! S (i + q)) as [y'|] eqn:Hy.
      - by rewrite (drop_S _ _ _ Hy).
      - rewrite !drop_ge by (apply lookup_ge_None in Hy; lia). done. }
    assert (HD1 : le_value (drop (S i + q) l) = le_value (drop (i + q) l) / 256).
    { rewrite !le_value_drop by done. change (S i + q)%nat with (S (i + q)). pose proof (pow256_pos (i + q)).
      by rewrite pow256_S, (Z.mul_comm 256), Z.div_div by lia. }
    assert (Hp : 0 < 2 ^ Z.of_nat r) by (apply Z.pow_pos_nonneg; lia).
    assert (Hzv : z = (le_value (drop (i + q) l) / 2 ^ Z.of_nat r) mod 256).
    { subst z. rewrite HD. replace (x + 256 * (y + 256 * le_value (drop (S (S (i + q))) l)))
        with (x + 256 * y + (2 ^ (16 - Z.of_nat r) * le_value (drop (S (S (i + q))) l)) * 2 ^ Z.of_nat r).
      2:{ assert (H16 : 2 ^ (16 - Z.of_nat r) * 2 ^ Z.of_nat r = 65536).
          { rewrite <- Z.pow_add_r by lia. by replace (16 - Z.of_nat r + Z.of_nat r) with 16 by lia. }
          replace (x + 256 * (y + 256 * le_value (drop (S (S (i + q))) l))) with
            (x + 256 * y + 65536 * le_value (drop (S (S (i + q))) l)) by lia. rewrite <- H16. ring. }
      rewrite Z.div_add by lia.
      replace (2 ^ (16 - Z.of_nat r)) with (2 ^ (8 - Z.of_nat r) * 256) by (change 256 with (2 ^ 8); rewrite <- Z.pow_add_r by lia; f_equal; lia).
      replace (2 ^ (8 - Z.of_nat r) * 256 * le_value (drop (S (S (i + q))) l)) with (2 ^ (8 - Z.of_nat r) * le_value (drop (S (S (i + q))) l) * 256) by lia.
      by rewrite Z.mod_add by lia. }
    rewrite HD1, pow256_S. set (D := le_value (drop (i + q) l)) in *.
    rewrite (Z.div_div D 256), (Z.mul_comm 256 (2 ^ _)), <- Z.div_div by lia. rewrite Hzv.
    pose proof (Z.div_mod (D / 2 ^ Z.of_nat r) 256 ltac:(lia)). nia.
Qed.

(** ** Shifting up *)

(** One byte moved up: its low part joins the byte above, whose low bits are 0. *)
Lemma split_byte b up r : is_u8 b -> is_u8 up -> 0 < r < 8 -> up mod 2 ^ r = 0 ->
  let lo := wrap8 (Z.shiftl b r) in let hi := Z.lor up (Z.shiftr b (8 - r)) in
  is_u8 lo /\ is_u8 hi /\ lo mod 2 ^ r = 0 /\ lo + 256 * hi = 2 ^ r * b + 256 * up.
Proof.
  intros Hb Hup Hr Hmod. cbv zeta. unfold is_u8, wrap8 in *. rewrite Z.shiftl_mul_pow2, Z.shiftr_div_pow2 by lia.
  assert (H8 : 256 = 2 ^ (8 - r) * 2 ^ r) by (rewrite <- Z.pow_add_r by lia; change 256 with (2 ^ 8); f_equal; lia).
  assert (Hp : 0 < 2 ^ r) by (apply Z.pow_pos_nonneg; lia). assert (Hq : 0 < 2 ^ (8 - r)) by (apply Z.pow_pos_nonneg; lia).
  assert (Hhi : 0 <= b / 2 ^ (8 - r) < 2 ^ r) by (split; [apply Z.div_pos; lia|apply Z.div_lt_upper_bound; lia]).
  assert (Hup' : up = up / 2 ^ r * 2 ^ r) by (pose proof (Z.div_mod up (2 ^ r)); lia).
  assert (Hor : Z.lor up (b / 2 ^ (8 - r)) = up + b / 2 ^ (8 - r)).
  { rewrite Hup' at 1. rewrite <- Z.shiftl_mul_pow2, Z.lor_comm, lor_small by lia. lia. }
  assert (Hlo : (b * 2 ^ r) mod 256 = 2 ^ r * (b mod 2 ^ (8 - r))).
  { rewrite (Z.mul_comm b), H8, (Z.mul_comm (2 ^ (8 - r))). by rewrite Z.mul_mod_distr_l by lia. }
  assert (Hupb : up / 2 ^ r < 2 ^ (8 - r)) by (apply Z.div_lt_upper_bound; lia).
  pose proof (Z.mod_pos_bound b (2 ^ (8 - r)) Hq). rewrite Hor, Hlo. split; [nia|]. split; [nia|].
  split; [rewrite Z.mul_comm; apply Z.mod_mul; lia|].
  pose proof (Z.div_mod b (2 ^ (8 - r)) ltac:(lia)). rewrite H8. nia.
Qed.

Lemma drop_insert_two {A} (l : list A) k x y :
  (S k < length l)%nat -> drop k (<[k := y]> (<[S k := x]> l)) = y :: x :: drop (S (S k)) l.
Proof.
  intros H. rewrite (drop_S _ y k) by (apply list_lookup_insert_eq; rewrite length_insert; lia). f_equal.
  rewrite drop_insert_lower by lia. rewrite (drop_S _ x (S k)) by (by apply list_lookup_insert_eq). f_equal.
  by rewrite drop_insert_lower by lia.
Qed.

Lemma add_low_loop_ok (q r n : nat) l up :
  Forall is_u8 l -> l !! (n + q)%nat = Some up -> (0 < r < 8)%nat -> up mod 2 ^ Z.of_nat r = 0 ->
  exists l', add_low_loop (Z.of_nat q) (Z.of_nat r) n l = Ret l' /\ Forall is_u8 l' /\ length l' = length l /\
    le_value l' = le_value (take q l) + pow256 q * (2 ^ Z.of_nat r * le_value (take n l)) +
      pow256 (n + q) * le_value (drop (n + q) l).
Proof.
  intros Hl Hup Hr. revert l up Hl Hup. induction n as [|n IH]; intros l up Hl Hup Hmod.
  - exists l. split; [done|]. split; [done|]. split; [done|]. rewrite take_0. change (le_value []) with 0.
    change (0 + q)%nat with q. rewrite (le_value_take_drop q l); [ring|]. apply lookup_lt_Some in Hup. simpl in Hup. lia.
  - cbn [add_low_loop]. pose proof (lookup_lt_Some _ _ _ Hup) as Hlen.
    destruct (lookup_lt_is_Some_2 l n ltac:(lia)) as [b Hb]. rewrite (byte_at_nat _ _ _ Hb). cbn [mbind outcome_bind].
    replace (Z.of_nat n + Z.of_nat q + 1) with (Z.of_nat (S (n + q))) by lia.
    replace (Z.of_nat n + Z.of_nat q) with (Z.of_nat (n + q)) by lia.
    rewrite (byte_at_nat _ (S (n + q)) up) by exact Hup. cbn [mbind outcome_bind].
    rewrite set_byte_at_nat by exact Hlen. cbn [mbind outcome_bind].
    rewrite set_byte_at_nat by (rewrite length_insert; simpl in Hlen; lia). cbn [mbind outcome_bind].
    assert (Hub : is_u8 b) by (rewrite Forall_lookup in Hl; by eapply Hl).
    assert (Huu : is_u8 up) by (rewrite Forall_lookup in Hl; by eapply Hl).
    destruct (split_byte b up (Z.of_nat r) Hub Huu ltac:(lia) Hmod) as (Hlo&Hhi&Hm&Heq).
    set (lo := wrap8 _) in *. set (hi := Z.lor up _) in *.
    set (l1 := <[(n + q)%nat:=lo]> (<[S (n + q):=hi]> l)).
    destruct (IH l1 lo) as (l'&Hrun&Hl'&Hlen'&Hval).
    { subst l1. by repeat apply Forall_insert. }
    { subst l1. apply list_lookup_insert_eq. rewrite length_insert. simpl in Hlen. lia. }
    { exact Hm. }
    exists l'. split; [exact Hrun|]. split; [done|]. split; [by rewrite Hlen'; subst l1; rewrite !length_insert|].
    rewrite Hval. subst l1. rewrite drop_insert_two by exact Hlen.
    rewrite !take_insert_upper by lia. rewrite (take_S_r l n b Hb), le_value_app, length_take.
    replace (min n (length l)) with n by lia. cbn [le_value plus].
    rewrite (drop_S l up (S (n + q)) Hup). cbn [le_value]. rewrite pow256_S, !pow256_add.
    set (D := le_value (drop (S (S (n + q))) l)). set (T := le_value (take n l)).
    assert (Hgoal : lo + 256 * (hi + 256 * D) = 2 ^ Z.of_nat r * b + 256 * (up + 256 * D)) by lia.
    rewrite Hgoal. ring.
Qed.

(** ** Bitwise or *)

Lemma bitwise_or_loop_ok (start os : nat) other count (i : nat) l :
  Forall is_u8 l -> Forall is_u8 other -> (start + i + count <= length l)%nat -> (os + i + count <= length other)%nat ->
  exists l', bitwise_or_loop l (Z.of_nat start) other (Z.of_nat os) count (Z.of_nat i) = Ret l' /\
    Forall is_u8 l' /\ length l' = length l /\
    le_value l' = Z.lor (le_value l)
      (Z.shiftl (le_value (take count (drop (os + i) other))) (8 * Z.of_nat (start + i))).
Proof.
  intros Hl Ho. revert i l Hl. induction count as [|count IH]; intros i l Hl H1 H2.
  - exists l. cbn [bitwise_or_loop take le_value]. rewrite Z.shiftl_0_l, Z.lor_0_r. done.
  - cbn [bitwise_or_loop]. destruct (lookup_lt_is_Some_2 l (start + i) ltac:(lia)) as [x Hx].
    destruct (lookup_lt_is_Some_2 other (os + i) ltac:(lia)) as [y Hy].
    replace (Z.of_nat start + Z.of_nat i) with (Z.of_nat (start + i)) by lia.
    replace (Z.of_nat os + Z.of_nat i) with (Z.of_nat (os + i)) by lia.
    rewrite (byte_at_nat _ _ _ Hx). cbn [mbind outcome_bind]. rewrite (byte_at_nat _ _ _ Hy). cbn [mbind outcome_bind].
    rewrite set_byte_at_nat by lia. cbn [mbind outcome_bind].
    assert (Huy : is_u8 y) by (rewrite Forall_lookup in Ho; by eapply Ho).
    assert (Hux : is_u8 x) by (rewrite Forall_lookup in Hl; by eapply Hl).
    assert (Hul : Forall is_u8 (<[(start + i)%nat:=Z.lor x y]> l)).
    { apply Forall_insert; [done|].
      unfold is_u8 in *. rewrite <- (Z.mod_small x 256), <- (Z.mod_small y 256) by lia.
      change 256 with (2 ^ 8). rewrite <- !Z.land_ones, <- Z.land_lor_distr_l, Z.land_ones by lia. apply Z.mod_pos_bound. lia. }
    destruct (IH (S i) (<[(start + i)%nat:=Z.lor x y]> l)) as (l'&Hrun&Hl'&Hlen'&Hval); [done|rewrite length_insert; lia|lia|].
    replace (Z.of_nat (S i)) with (Z.of_nat i + 1) in Hrun by lia.
    exists l'. split; [exact Hrun|]. split; [done|]. split; [by rewrite Hlen', length_insert|].
    rewrite Hval, (le_value_insert_lor _ _ x) by done. rewrite <- Z.lor_assoc. f_equal.
    rewrite (drop_S other y (os + i) Hy). cbn [take le_value].
    replace (os + S i)%nat with (S (os + i)) by lia. set (D := le_value (take count _)).
    replace (y + 256 * D) with (Z.lor y (Z.shiftl D 8)).
    2:{ unfold is_u8 in Huy. rewrite lor_small by lia. lia. }
    rewrite Z.shiftl_lor, Z.shiftl_shiftl by lia. do 2 f_equal. lia.
Qed.

(** ** Whole operations *)

Lemma remove_low_bits_ok b k : blob_ok b -> 0 < k < 8 ->
  exists b', remove_low_bits b k = Ret b' /\ blob_ok b' /\ capacity b' = capacity b /\ value b' = value b / 2 ^ k.
Proof.
  intros Hb Hk. pose proof (capacity_ge b Hb) as Hcap. pose proof (as_slice_length b Hb) as Hlen.
  unfold remove_low_bits. rewrite (proj2 (Z.ltb_ge _ k)) by lia. rewrite land_7, Z.mod_small by lia.
  rewrite (proj2 (Z.eqb_neq k 0)) by lia. rewrite Z.div_small by lia. rewrite Z.sub_0_r.
  destruct (remove_low_loop_ok 0 (Z.to_nat k) 0 (length (as_slice b)) (as_slice b)) as (l'&Hrun&Hl'&Hlen'&_&Hval);
    [by apply as_slice_u8|lia|lia|].
  replace (Z.of_nat (Z.to_nat k)) with k in * by lia. change (Z.of_nat 0) with 0 in Hrun. rewrite Hlen in Hrun.
  replace (Z.to_nat (capacity b)) with (length (as_slice b)) by (unfold zlen in Hlen; lia).
  rewrite Hrun. cbn [mbind outcome_bind].
  assert (Hv : le_value l' = value b / 2 ^ k).
  { rewrite take_ge in Hval by lia. rewrite Hval, take_0, drop_0. change (le_value []) with 0. change (pow256 0) with 1.
    unfold value. lia. }
  destruct (store_value b l' Hb Hl') as (H1&H2&H3); [unfold zlen in *; lia|].
  destruct (resize_ok (store b l') (capacity b) H1 ltac:(lia)) as (b'&Hr&Hok&Hc&Hvb). exists b'.
  split; [exact Hr|]. split; [done|]. split; [lia|]. rewrite Hvb, H3, H2, Hv.
  destruct (capacity b <=? 24); [done|]. apply Z.mod_small. pose proof (value_range b Hb).
  split; [apply Z.div_pos; lia|]. apply Z.div_lt_upper_bound; [lia|].
  assert (1 <= 2 ^ k) by (apply (Z.pow_le_mono_r 2 0); lia). nia.
Qed.

Lemma add_low_bits_ok b k : blob_ok b -> 0 <= k -> capacity b + k + 7 < 2 ^ 64 ->
  exists b', add_low_bits b k = Ret b' /\ blob_ok b' /\ capacity b' = capacity b + (k + 7) / 8 /\
    value b' = value b mod 256 ^ (k / 8) + 2 ^ k * value b.
Proof.
  intros Hb Hk Hmax. pose proof (capacity_ge b Hb) as Hcap. pose proof (value_range b Hb) as Hvr.
  unfold add_low_bits, uadd. rewrite (proj2 (Z.ltb_lt (k + 7) _)) by lia. cbn [mbind outcome_bind].
  rewrite (proj2 (Z.ltb_lt (capacity b + (k + 7) / 8) _)) by (Z.div_mod_to_equations; lia). cbn [mbind outcome_bind].
  set (n := capacity b + (k + 7) / 8). assert (Hn : capacity b <= n) by (subst n; Z.div_mod_to_equations; lia).
  destruct (resize_ok b n Hb ltac:(lia)) as (b1&Hr&Hok1&Hc1&Hv1). rewrite Hr. cbn [mbind outcome_bind].
  assert (Hvv : value b1 = value b).
  { rewrite Hv1. destruct (capacity b <=? 24); [done|]. apply Z.mod_small.
    assert (256 ^ capacity b <= 256 ^ n) by (apply Z.pow_le_mono_r; lia). lia. }
  pose proof (as_slice_length b1 Hok1) as Hlen1. pose proof (as_slice_u8 b1 Hok1) as Hu1.
  set (s := as_slice b1) in *. set (c := Z.to_nat (capacity b)). set (q := Z.to_nat (k / 8)).
  assert (Hsv : le_value s = value b) by exact Hvv.
  assert (Hdropc : le_value (drop c s) = 0).
  { rewrite le_value_drop, Hsv by done. apply Z.div_small. subst c. by replace (Z.of_nat (Z.to_nat (capacity b))) with (capacity b) by lia. }
  assert (Htakec : le_value (take c s) = value b).
  { rewrite le_value_take, Hsv by done. apply Z.mod_small. subst c. by replace (Z.of_nat (Z.to_nat (capacity b))) with (capacity b) by lia. }
  assert (Hres : exists l', (if Z.land k 7 =? 0 then copy_within s 0 (capacity b) (k / 8)
      else add_low_loop (k / 8) (Z.land k 7) (Z.to_nat (capacity b)) s) = Ret l' /\ Forall is_u8 l' /\
      length l' = length s /\ le_value l' = value b mod 256 ^ (k / 8) + 2 ^ k * value b).
  { assert (Hqk : Z.of_nat q = k / 8) by (subst q; Z.div_mod_to_equations; lia).
    assert (Htq : le_value (take q s) = value b mod 256 ^ (k / 8)) by (by rewrite le_value_take, Hsv, Hqk by done).
    rewrite land_7. destruct (Z.eqb_spec (k mod 8) 0) as [H8|H8].
    - unfold copy_within. rewrite zslice_ok by lia. cbn [mbind outcome_bind]. rewrite Z.sub_0_r, drop_0. fold c.
      assert (Hlc : zlen (take c s) = capacity b) by (unfold zlen in *; rewrite length_take; lia).
      rewrite overwrite_ok by (rewrite ?Hlc; subst n; Z.div_mod_to_equations; lia).
      eexists. split; [done|]. fold q. rewrite Hlc.
      assert (Hend : Z.to_nat (k / 8 + capacity b) = length s) by (unfold zlen in *; subst n; Z.div_mod_to_equations; lia).
      rewrite Hend, drop_all, app_nil_r. split; [apply Forall_app; split; by apply Forall_take|].
      split; [rewrite length_app, !length_take; unfold zlen in *; lia|].
      rewrite le_value_app, Htq, Htakec, length_take. replace (min q (length s)) with q by (unfold zlen in *; lia).
      rewrite pow256_bits, Hqk. replace (8 * (k / 8)) with k by (Z.div_mod_to_equations; lia). done.
    - assert (Hcq : (c + q < length s)%nat) by (unfold zlen in *; subst n c q; Z.div_mod_to_equations; lia).
      destruct (lookup_lt_is_Some_2 s (c + q) Hcq) as [up Hup].
      assert (Hup0 : up = 0).
      { rewrite (le_value_lookup s (c + q) up Hu1 Hup), Hsv. rewrite Z.div_small; [done|].
        assert (256 ^ capacity b <= pow256 (c + q)) by (apply Z.pow_le_mono_r; lia). lia. }
      destruct (add_low_loop_ok q (Z.to_nat (k mod 8)) c s up) as (l'&Hrun&Hl'&Hlen'&Hval); [done|done|Z.div_mod_to_equations; lia|by rewrite Hup0|].
      replace (Z.of_nat (Z.to_nat (k mod 8))) with (k mod 8) in * by (Z.div_mod_to_equations; lia). rewrite Hqk in Hrun.
      exists l'. split; [exact Hrun|]. split; [done|]. split; [done|]. rewrite Hval, Htq, Htakec.
      rewrite <- drop_drop, le_value_drop, Hdropc by by apply Forall_drop.
      rewrite Z.div_0_l by (pose proof (pow256_pos q); lia). rewrite pow256_bits, Hqk.
      rewrite Z.mul_assoc, <- Z.pow_add_r by (Z.div_mod_to_equations; lia).
      replace (8 * (k / 8) + k mod 8) with k by (Z.div_mod_to_equations; lia). lia. }
  destruct Hres as (l'&Hrun&Hl'&Hlen'&Hval). fold c in Hrun. rewrite Hrun. cbn [mbind outcome_bind].
  destruct (store_value b1 l' Hok1 Hl') as (H1&H2&H3); [unfold zlen in *; lia|].
  eexists. split; [done|]. split; [done|]. split; [rewrite H3, Hc1; lia|]. by rewrite H2.
Qed.

Lemma slice_value (s : list Z) a e : Forall is_u8 s -> 0 <= a <= e -> e <= zlen s ->
  let part := take (Z.to_nat (e - a)) (drop (Z.to_nat a) s) in
  zslice (E:=Error) s a e = Ret part /\ Forall is_u8 part /\ zlen part = e - a /\
  le_value part = (le_value s / 2 ^ (8 * a)) mod 2 ^ (8 * (e - a)).
Proof.
  intros Hs Ha He. cbv zeta. split; [by apply zslice_ok|]. split; [by apply Forall_take, Forall_drop|].
  split; [unfold zlen in *; rewrite length_take, length_drop; lia|].
  rewrite le_value_take, le_value_drop by (try apply Forall_drop; done). rewrite !pow256_bits. do 3 f_equal; lia.
Qed.

Lemma pow2_pos k : 0 <= k -> 0 < 2 ^ k.
Proof. intros H. by apply Z.pow_pos_nonneg. Qed.
Lemma div_mod_pow2 x a m r : 0 <= a -> 0 <= r <= m -> ((x / 2 ^ a) mod 2 ^ m) / 2 ^ r = (x / 2 ^ (a + r)) mod 2 ^ (m - r).
Proof.
  intros Ha Hr. rewrite <- !Z.shiftr_div_pow2, <- !Z.land_ones by lia. rewrite Z.shiftr_land, Z.shiftr_shiftr by lia. f_equal.
  rewrite !Z.ones_equiv, Z.shiftr_div_pow2 by lia. pose proof (pow2_pos r ltac:(lia)). pose proof (pow2_pos (m - r) ltac:(lia)).
  assert (2 ^ m = 2 ^ (m - r) * 2 ^ r) as -> by (rewrite <- Z.pow_add_r by lia; f_equal; lia).
  replace (Z.pred (2 ^ (m - r) * 2 ^ r)) with (2 ^ r - 1 + Z.pred (2 ^ (m - r)) * 2 ^ r) by lia.
  rewrite Z.div_add, Z.div_small by lia. lia.
Qed.
Lemma mod_mod_pow2 x a b : 0 <= b <= a -> (x mod 2 ^ a) mod 2 ^ b = x mod 2 ^ b.
Proof.
  intros H. apply Z.mod_mod_divide.
  exists (2 ^ (a - b)). rewrite <- Z.pow_add_r by lia. f_equal. lia.
Qed.

Lemma mod_mod_min x a b : 0 <= a -> 0 <= b -> (x mod 2 ^ a) mod 2 ^ b = x mod 2 ^ Z.min a b.
Proof.
  intros Ha Hb. destruct (Z.le_ge_cases a b).
  - rewrite (Z.min_l a b) by done. apply Z.mod_small. pose proof (Z.mod_pos_bound x (2 ^ a) (pow2_pos a Ha)).
    assert (2 ^ a <= 2 ^ b) by (apply Z.pow_le_mono_r; lia). lia.
  - rewrite Z.min_r by done. by apply mod_mod_pow2.
Qed.

(** How many bits of a bit range are kept: too many when the range is not at a
    byte boundary, is a whole number of bytes long, and fits in three words. *)
Definition kept_bits (off size : Z) : Z :=
  if (size mod 8 =? 0) && negb (off mod 8 =? 0) && (size / 8 <? 24) then size + 8 - off mod 8 else size.

Lemma bit_range_ok b off size :
  blob_ok b -> 0 <= off -> 0 <= size -> off + size + 7 < 2 ^ 64 ->
  (off + size <= 8 * capacity b ->
     exists r, bit_range b off size = Ret r /\ blob_ok r /\ size <= 8 * capacity r /\
       value r = (value b / 2 ^ off) mod 2 ^ kept_bits off size) /\
  (8 * capacity b < off + size -> bit_range b off size = Fail (Code Dwarf)).
Proof.
  intros Hb Hoff Hsize Hmax. pose proof (as_slice_length b Hb) as Hlen. pose proof (as_slice_u8 b Hb) as Hu.
  unfold bit_range. assert (Hadd : forall x y : Z, x + y < 2 ^ 64 -> uadd (E:=Error) x y = Ret (x + y)).
  { intros x y H. unfold uadd. by rewrite (proj2 (Z.ltb_lt _ _)). }
  rewrite !Hadd by lia. cbn [mbind outcome_bind]. rewrite Hadd by lia. cbn [mbind outcome_bind].
  set (a := off / 8). set (e := (off + size + 7) / 8).
  assert (Ho8 : off = 8 * a + off mod 8 /\ 0 <= off mod 8 < 8) by (subst a; Z.div_mod_to_equations; lia).
  assert (He8 : off + size <= 8 * e <= off + size + 7) by (subst e; Z.div_mod_to_equations; lia).
  assert (Hs8 : size <= 8 * ((size + 7) / 8) <= size + 7) by (Z.div_mod_to_equations; lia).
  assert (Hsz : size = 8 * (size / 8) + size mod 8 /\ 0 <= size mod 8 < 8) by (clear; Z.div_mod_to_equations; lia).
  clearbody a e. assert (Hae : 0 <= a <= e) by lia. split; intros Hin.
  2:{ by rewrite (proj2 (Z.ltb_lt _ _)) by lia. }
  assert (He : e <= zlen (as_slice b)) by lia.
  rewrite (proj2 (Z.ltb_ge _ _)) by done.
  destruct (slice_value (as_slice b) a e Hu Hae He) as (Hsl&Hup&Hlp&Hvp). rewrite Hsl. cbn [mbind outcome_bind].
  destruct (from_slice_ok (E:=Error) _ Hup) as (r0&Hr0&Hok0&Hv0&Hc0). rewrite Hr0. cbn [mbind outcome_bind].
  fold (value b) in Hvp. rewrite Hvp in Hv0. rewrite Hlp in Hc0. clear Hsl Hr0 Hvp Hlp Hup. rewrite !land_7.
  assert (Hstep : exists r1, (if negb (off mod 8 =? 0) then
        res ← widen (remove_low_bits r0 (off mod 8)); widen (resize res ((size + 7) / 8)) else Ret r0) = Ret (E:=Error) r1 /\
      blob_ok r1 /\ size <= 8 * capacity r1 /\
      exists k, size <= k /\ value r1 = (value b / 2 ^ off) mod 2 ^ k /\ (size mod 8 = 0 -> k = kept_bits off size)).
  { destruct (Z.eqb_spec (off mod 8) 0) as [Ho|Ho]; cbn [negb].
    - exists r0. split; [done|]. split; [done|]. split; [lia|].
      exists (8 * (e - a)). split; [lia|]. split.
      + rewrite Hv0. do 3 f_equal. lia.
      + intros Hs. unfold kept_bits. rewrite Ho. change (negb (0 =? 0)) with false. rewrite andb_false_r. cbn [andb]. lia.
    - destruct (remove_low_bits_ok r0 (off mod 8) Hok0) as (r1&Hr1&Hok1&Hc1&Hv1); [lia|].
      rewrite Hr1. cbn [widen mbind outcome_bind].
      destruct (resize_ok r1 ((size + 7) / 8) Hok1) as (r2&Hr2&Hok2&Hc2&Hv2); [lia|].
      rewrite Hr2. exists r2. split; [done|]. split; [done|]. split; [rewrite Hc2; lia|].
      assert (Hv1' : value r1 = (value b / 2 ^ off) mod 2 ^ (8 * (e - a) - off mod 8)).
      { rewrite Hv1, Hv0, div_mod_pow2 by lia.
        do 3 f_equal. lia. }
      rewrite Hc1, Hc0 in Hv2. destruct (Z.leb_spec (Z.max 24 (e - a)) 24).
      + exists (8 * (e - a) - off mod 8). split; [lia|]. split; [by rewrite Hv2|].
        intros Hs. unfold kept_bits. rewrite (proj2 (Z.eqb_eq (size mod 8) 0)), (proj2 (Z.eqb_neq (off mod 8) 0)) by done.
        rewrite (proj2 (Z.ltb_lt (size / 8) 24)) by lia. cbn [andb negb].
        lia.
      + exists (Z.min (8 * (e - a) - off mod 8) (8 * ((size + 7) / 8))). split; [lia|]. split.
        * rewrite Hv2, Hv1'. change 256 with (2 ^ 8). rewrite <- Z.pow_mul_r by lia. apply mod_mod_min; lia.
        * intros Hs. unfold kept_bits. rewrite (proj2 (Z.ltb_ge (size / 8) 24)) by lia.
          rewrite andb_false_r. lia. }
  destruct Hstep as (r1&Hrun&Hok1&Hc1&k&Hk&Hv1&Hkept). rewrite Hrun. cbn [mbind outcome_bind].
  destruct (Z.eqb_spec (size mod 8) 0) as [Hs|Hs]; cbn [negb].
  - exists r1. split; [done|]. split; [done|]. split; [done|]. by rewrite Hv1, Hkept.
  - destruct (zero_upper_bits_ok r1 size Hok1) as (r2&Hr2&Hok2&Hc2&Hv2); [lia..|]. rewrite Hr2.
    exists r2. split; [done|]. split; [done|]. split; [by rewrite Hc2|]. rewrite Hv2, Hv1, mod_mod_pow2 by lia.
    unfold kept_bits. by rewrite (proj2 (Z.eqb_neq (size mod 8) 0)) by done.
Qed.

(** C7. Bit ranges: a range within the bytes gives the number that the bits from
    [off] stand for, [size] bits of it, in bounds and without a panic; when the
    range is not byte-aligned but a whole number of bytes long (and small), the
    bits after it up to the next byte boundary stay in the result as well. A
    range outside the bytes is an error. *)
Theorem bit_range_correct b off size :
  blob_ok b -> 0 <= off -> 0 <= size -> off + size + 7 < 2 ^ 64 ->
  (off + size <= 8 * capacity b ->
     exists r, bit_range b off size = Ret r /\ blob_ok r /\ size <= 8 * capacity r /\
       value r = (value b / 2 ^ off) mod 2 ^ kept_bits off size) /\
  (8 * capacity b < off + size -> bit_range b off size = Fail (Code Dwarf)).
Proof. apply bit_range_ok. Qed.

Lemma bit_range_correct_witness :
  exists b r, from_slice (E:=Error) [255; 255; 255] = Ret b /\ bit_range b 3 8 = Ret r /\ value r = 8191 /\
    exists r', bit_range b 3 7 = Ret r' /\ value r' = 127.
Proof.
  destruct (from_slice_ok (E:=Error) [255; 255; 255]) as (b&Hb&Hok&Hv&Hc); [solve_bytes|].
  destruct (bit_range_correct b 3 8 Hok) as [H _]; [lia..|].
  destruct H as (r&Hr&_&_&Hvr); [rewrite Hc; vm_compute; discriminate|].
  destruct (bit_range_correct b 3 7 Hok) as [H' _]; [lia..|].
  destruct H' as (r'&Hr'&_&_&Hvr'); [rewrite Hc; vm_compute; discriminate|].
  exists b, r. split; [exact Hb|]. split; [exact Hr|]. split; [rewrite Hvr, Hv; reflexivity|].
  exists r'. split; [exact Hr'|]. rewrite Hvr', Hv. reflexivity.
Defined.

(** ** Appending *)

Lemma uadd_ok {E} x y : x + y < 2 ^ 64 -> uadd (E:=E) x y = Ret (x + y).
Proof. intros H. unfold uadd. by rewrite (proj2 (Z.ltb_lt _ _)). Qed.

(** The bits below the piece that a misaligned append carries along. *)
Definition stray (other self_bits bit_offset : Z) : Z :=
  (other mod 2 ^ bit_offset) * 2 ^ (self_bits mod 8) / 2 ^ bit_offset.

Lemma stray_range other sb bo : 0 <= bo -> 0 <= stray other sb bo < 2 ^ (sb mod 8).
Proof.
  intros Hbo. unfold stray. pose proof (Z.mod_pos_bound other (2 ^ bo) (pow2_pos _ Hbo)).
  pose proof (Z.mod_pos_bound sb 8 ltac:(lia)). pose proof (pow2_pos (sb mod 8) ltac:(lia)).
  split; [apply Z.div_pos; nia|]. apply Z.div_lt_upper_bound; nia.
Qed.

(** The aligned case: the bytes of the piece are copied. *)
Lemma append_aligned b b1 other sb size :
  blob_ok b1 -> blob_ok other -> value b1 = value b -> 0 <= value b < 2 ^ sb -> 0 <= value other < 2 ^ size ->
  0 <= sb -> 0 <= size -> sb mod 8 = 0 -> sb / 8 + (size + 7) / 8 <= capacity b1 -> (size + 7) / 8 <= capacity other ->
  exists b', (src ← zslice (as_slice other) 0 ((size + 7) / 8); dest ← overwrite (as_slice b1) (sb / 8) src;
      Ret (E:=Empty_set) (store b1 dest)) = Ret b' /\
    blob_ok b' /\ capacity b' = capacity b1 /\ value b' = value b + 2 ^ sb * value other.
Proof.
  intros H1 Ho Hv1 Hb Hvo Hsb Hs H8 Hc1 Hco. pose proof (as_slice_length _ H1) as Hl1. pose proof (as_slice_length _ Ho) as Hlo.
  pose proof (as_slice_u8 _ H1) as Hu1. pose proof (as_slice_u8 _ Ho) as Huo.
  set (m := (size + 7) / 8) in *. assert (Hm : 0 <= size <= 8 * m) by (subst m; Z.div_mod_to_equations; lia).
  set (w := sb / 8) in *. assert (Hw : sb = 8 * w) by (subst w; Z.div_mod_to_equations; lia). clearbody m w.
  rewrite zslice_ok by lia. cbn [mbind outcome_bind]. rewrite Z.sub_0_r, drop_0.
  set (src := take (Z.to_nat m) (as_slice other)).
  assert (Hsrc : zlen src = m) by (unfold src, zlen in *; rewrite length_take; lia).
  assert (Hvs : le_value src = value other).
  { subst src. rewrite le_value_take by done. apply Z.mod_small. rewrite pow256_bits. fold (value other).
    assert (2 ^ size <= 2 ^ (8 * Z.of_nat (Z.to_nat m))) by (apply Z.pow_le_mono_r; lia). lia. }
  rewrite overwrite_ok by lia. cbn [mbind outcome_bind]. rewrite Hsrc.
  set (l := as_slice b1) in *. assert (Hlv : le_value l = value b) by exact Hv1.
  destruct (store_value b1 (take (Z.to_nat w) l ++ src ++ drop (Z.to_nat (w + m)) l)) as (Ha&Hv&Hc); [done| | |].
  { repeat (apply Forall_app; split); [by apply Forall_take| |by apply Forall_drop]. by apply Forall_take. }
  { unfold zlen in *. rewrite !length_app, length_take, length_drop. lia. }
  eexists. split; [done|]. split; [done|]. split; [done|]. rewrite Hv, !le_value_app, Hvs, length_take.
  replace (Z.of_nat (min (Z.to_nat w) (length l))) with w by (unfold zlen in *; lia).
  rewrite le_value_take, le_value_drop, Hlv, !pow256_bits by done. change 256 with (2 ^ 8). rewrite <- Z.pow_mul_r by lia.
  replace (8 * Z.of_nat (Z.to_nat w)) with sb by lia. rewrite (Z.mod_small (value b)) by done.
  rewrite (Z.div_small (value b)); [rewrite <- Hw; lia|].
  assert (2 ^ sb <= 2 ^ (8 * Z.of_nat (Z.to_nat (w + m)))) by (apply Z.pow_le_mono_r; lia). lia.
Qed.

(** The number that the misaligned case ORs in. *)
Lemma shifted_piece O sb bo size : 0 <= O < 2 ^ (bo + size) -> 0 <= sb -> 0 <= bo -> 0 <= size ->
  O * 2 ^ (sb mod 8) / 2 ^ bo = stray O sb bo + 2 ^ (sb mod 8) * (O / 2 ^ bo).
Proof.
  intros HO Hsb Hbo Hs. unfold stray. pose proof (pow2_pos bo Hbo).
  rewrite (Z.div_mod O (2 ^ bo)) at 1 by lia.
  replace ((2 ^ bo * (O / 2 ^ bo) + O mod 2 ^ bo) * 2 ^ (sb mod 8)) with
    (O mod 2 ^ bo * 2 ^ (sb mod 8) + (2 ^ (sb mod 8) * (O / 2 ^ bo)) * 2 ^ bo) by ring.
  by rewrite Z.div_add by lia.
Qed.

Lemma shifted_bytes O sb bo :
  0 <= O -> 0 <= sb -> 0 <= bo ->
  let shift := 16 - bo mod 8 + sb mod 8 in
  (O mod 256 ^ (shift / 8) + 2 ^ shift * O) / 256 ^ (2 + bo / 8) = O * 2 ^ (sb mod 8) / 2 ^ bo.
Proof.
  intros HO Hsb Hbo. cbv zeta. set (s := sb mod 8). set (o := bo mod 8). set (w := bo / 8). set (q := (16 - o + s) / 8).
  assert (Hs : 0 <= s < 8) by (apply Z.mod_pos_bound; lia). assert (Ho : 0 <= o < 8) by (apply Z.mod_pos_bound; lia).
  assert (Hbw : bo = 8 * w + o) by (subst w o; clear; Z.div_mod_to_equations; lia).
  assert (Hq : 8 * q <= 16 - o + s < 8 * q + 8) by (subst q; clear; Z.div_mod_to_equations; lia).
  assert (Hq2 : q <= 2) by lia. clearbody s o w q.
  change 256 with (2 ^ 8). rewrite <- !Z.pow_mul_r by lia.
  pose proof (pow2_pos (8 * q) ltac:(lia)) as Hpq. pose proof (Z.mod_pos_bound O (2 ^ (8 * q)) Hpq) as Hm.
  replace (8 * (2 + w)) with (8 * q + (8 * (2 + w) - 8 * q)) by lia.
  rewrite (Z.pow_add_r 2 (8 * q) (8 * (2 + w) - 8 * q)) by lia.
  pose proof (pow2_pos (8 * (2 + w) - 8 * q) ltac:(lia)) as Hp2. rewrite <- Z.div_div by lia.
  replace (2 ^ (16 - o + s)) with (2 ^ (16 - o + s - 8 * q) * 2 ^ (8 * q)) by (rewrite <- Z.pow_add_r by lia; f_equal; lia).
  replace (O mod 2 ^ (8 * q) + 2 ^ (16 - o + s - 8 * q) * 2 ^ (8 * q) * O) with
    (O mod 2 ^ (8 * q) + (2 ^ (16 - o + s - 8 * q) * O) * 2 ^ (8 * q)) by ring.
  rewrite Z.div_add, (Z.div_small (O mod _)), Z.add_0_l by lia.
  pose proof (pow2_pos (16 - o + s - 8 * q - s + s) ltac:(lia)).
  destruct (Z.le_ge_cases s (16 - o + s - 8 * q)).
  - replace (2 ^ (16 - o + s - 8 * q)) with (2 ^ (16 - o - 8 * q) * 2 ^ s) by (rewrite <- Z.pow_add_r by lia; f_equal; lia).
    replace (2 ^ (8 * (2 + w) - 8 * q)) with (2 ^ (16 - o - 8 * q) * 2 ^ bo) by (rewrite <- Z.pow_add_r by lia; f_equal; lia).
    rewrite <- Z.mul_assoc. pose proof (pow2_pos (16 - o - 8 * q) ltac:(lia)). pose proof (pow2_pos bo ltac:(lia)).
    rewrite Z.div_mul_cancel_l by lia. f_equal. ring.
  - set (k := s - (16 - o + s - 8 * q)).
    replace (2 ^ s) with (2 ^ k * 2 ^ (16 - o + s - 8 * q)) by (subst k; rewrite <- Z.pow_add_r by lia; f_equal; lia).
    replace (2 ^ bo) with (2 ^ k * 2 ^ (8 * (2 + w) - 8 * q)) by (subst k; rewrite <- Z.pow_add_r by lia; f_equal; lia).
    pose proof (pow2_pos k ltac:(lia)). replace (O * (2 ^ k * 2 ^ (16 - o + s - 8 * q))) with (2 ^ k * (2 ^ (16 - o + s - 8 * q) * O)) by ring.
    by rewrite Z.div_mul_cancel_l by lia.
Qed.

Lemma append_misaligned b1 other sb size bo :
  blob_ok b1 -> blob_ok other -> 0 <= value other < 2 ^ (bo + size) -> 0 <= sb -> 0 <= size -> 0 <= bo ->
  bo + size <= 8 * capacity other -> (sb + size + 7) / 8 <= capacity b1 -> capacity other < 2 ^ 63 ->
  exists b', (other ← add_low_bits other (16 - Z.land bo 7 + Z.land sb 7);
      count ← usub ((sb + size + 7) / 8) (sb / 8); bitwise_or b1 (sb / 8) other (2 + bo / 8) count) = Ret b' /\
    blob_ok b' /\ capacity b' = capacity b1 /\
    value b' = Z.lor (value b1) (Z.shiftl (value other * 2 ^ (sb mod 8) / 2 ^ bo) (8 * (sb / 8))).
Proof.
  intros H1 Ho HO Hsb Hs Hbo Hfit Htot Hmax. rewrite !land_7.
  pose proof (Z.mod_pos_bound sb 8 ltac:(lia)) as Hs8. pose proof (Z.mod_pos_bound bo 8 ltac:(lia)) as Hb8.
  set (shift := 16 - bo mod 8 + sb mod 8).
  destruct (add_low_bits_ok other shift Ho ltac:(lia) ltac:(lia)) as (o2&Hr2&Ho2&Hc2&Hv2). rewrite Hr2. cbn [mbind outcome_bind].
  assert (Hsp : sb = 8 * (sb / 8) + sb mod 8) by (apply Z.div_mod; lia).
  assert (Hbp : bo = 8 * (bo / 8) + bo mod 8) by (apply Z.div_mod; lia).
  assert (Htp : sb + size <= 8 * ((sb + size + 7) / 8) <= sb + size + 7) by (clear; Z.div_mod_to_equations; lia).
  assert (Hsh : shift <= 8 * ((shift + 7) / 8) <= shift + 7) by (clear; Z.div_mod_to_equations; lia).
  assert (0 <= sb / 8 /\ 0 <= bo / 8) by (split; apply Z.div_pos; lia).
  set (w := sb / 8) in *. set (t := (sb + size + 7) / 8) in *. set (sk := 2 + bo / 8) in *.
  unfold usub. rewrite (proj2 (Z.leb_le w t)) by lia. cbn [mbind outcome_bind]. unfold bitwise_or.
  pose proof (as_slice_u8 _ H1) as Hu1. pose proof (as_slice_u8 _ Ho2) as Hu2.
  pose proof (as_slice_length _ H1) as Hl1. pose proof (as_slice_length _ Ho2) as Hl2.
  destruct (bitwise_or_loop_ok (Z.to_nat w) (Z.to_nat sk) (as_slice o2) (Z.to_nat (t - w)) 0 (as_slice b1) Hu1 Hu2)
    as (l'&Hrun&Hl'&Hlen'&Hval); [unfold zlen in *; lia|unfold zlen in *; lia|].
  replace (Z.of_nat (Z.to_nat w)) with w in Hrun by lia. replace (Z.of_nat (Z.to_nat sk)) with sk in Hrun by lia.
  change (Z.of_nat 0) with 0 in Hrun. rewrite Hrun. cbn [mbind outcome_bind].
  destruct (store_value b1 l' H1 Hl') as (Ha&Hv&Hc); [unfold zlen in *; lia|].
  eexists. split; [done|]. split; [done|]. split; [done|]. rewrite Hv, Hval. f_equal.
  rewrite Nat.add_0_r. replace (8 * Z.of_nat (Z.to_nat w + 0)) with (8 * w) by lia. f_equal.
  rewrite le_value_take, le_value_drop by (try apply Forall_drop; done). fold (value o2). rewrite Hv2.
  replace (Z.of_nat (Z.to_nat sk)) with sk by lia. unfold sk, shift. rewrite shifted_bytes by lia.
  apply Z.mod_small. pose proof (pow2_pos bo Hbo). pose proof (pow2_pos (sb mod 8) ltac:(lia)).
  split; [apply Z.div_pos; nia|]. apply Z.div_lt_upper_bound; [lia|]. rewrite pow256_bits.
  assert (Hp : 2 ^ (bo + size) * 2 ^ (sb mod 8) <= 2 ^ bo * 2 ^ (8 * Z.of_nat (Z.to_nat (t - w)))).
  { rewrite <- !Z.pow_add_r by lia. apply Z.pow_le_mono_r; lia. }
  nia.
Qed.

Lemma lor_range a b n : 0 <= n -> 0 <= a < 2 ^ n -> 0 <= b < 2 ^ n -> 0 <= Z.lor a b < 2 ^ n.
Proof.
  intros Hn Ha Hb. rewrite <- (Z.mod_small a (2 ^ n)), <- (Z.mod_small b (2 ^ n)) by done.
  rewrite <- !Z.land_ones, <- Z.land_lor_distr_l, Z.land_ones by lia. apply Z.mod_pos_bound, pow2_pos, Hn.
Qed.

(** What [append_bits] computes. *)
Definition appended (b other sb size bo : Z) : Z :=
  Z.lor b (Z.shiftl (stray other sb bo) (8 * (sb / 8))) + 2 ^ sb * ((other / 2 ^ bo) mod 2 ^ size).

Lemma stray_mod other sb size bo : 0 <= bo -> 0 <= size -> stray (other mod 2 ^ (bo + size)) sb bo = stray other sb bo.
Proof. intros H1 H2. unfold stray. by rewrite mod_mod_pow2 by lia. Qed.
Lemma piece_mod other size bo : 0 <= bo -> 0 <= size -> other mod 2 ^ (bo + size) / 2 ^ bo = (other / 2 ^ bo) mod 2 ^ size.
Proof.
  intros H1 H2. pose proof (div_mod_pow2 other 0 (bo + size) bo ltac:(lia) ltac:(lia)) as H.
  rewrite Z.div_1_r in H. rewrite H. do 2 f_equal. lia.
Qed.
Lemma stray_aligned other sb bo : 0 <= bo -> sb mod 8 = 0 \/ bo = 0 -> stray other sb bo = 0.
Proof.
  intros Hb H. unfold stray. pose proof (Z.mod_pos_bound other (2 ^ bo) (pow2_pos _ Hb)).
  destruct H as [->| ->]; [rewrite Z.mul_1_r; by apply Z.div_small|]. by rewrite Z.mod_1_r.
Qed.

Lemma lor_appended b other sb size bo : 0 <= sb -> 0 <= bo -> 0 <= size -> 0 <= b < 2 ^ sb ->
  Z.lor b (Z.shiftl (other mod 2 ^ (bo + size) * 2 ^ (sb mod 8) / 2 ^ bo) (8 * (sb / 8))) = appended b other sb size bo.
Proof.
  intros Hsb Hbo Hs Hb. pose proof (Z.mod_pos_bound sb 8 ltac:(lia)) as Hs8.
  assert (Hsp : sb = 8 * (sb / 8) + sb mod 8) by (apply Z.div_mod; lia).
  assert (0 <= sb / 8) by (apply Z.div_pos; lia).
  rewrite (shifted_piece _ sb bo size); [|apply Z.mod_pos_bound, pow2_pos; lia|done..].
  rewrite stray_mod, piece_mod by done. set (P := (other / 2 ^ bo) mod 2 ^ size).
  pose proof (stray_range other sb bo Hbo) as HJ. set (J := stray other sb bo) in *. unfold appended. fold P J.
  rewrite <- lor_small, Z.shiftl_lor, Z.shiftl_shiftl, Z.lor_assoc by lia.
  replace (sb mod 8 + 8 * (sb / 8)) with sb by lia. apply lor_small; [done|].
  apply lor_range; [done|done|]. rewrite Z.shiftl_mul_pow2 by lia. pose proof (pow2_pos (8 * (sb / 8)) ltac:(lia)).
  split; [nia|]. rewrite Hsp at 2. rewrite Z.add_comm, Z.pow_add_r by lia. nia.
Qed.

Lemma append_bits_ok b self_bits other size bo :
  blob_ok b -> blob_ok other -> 0 <= self_bits -> 0 <= size -> 0 <= bo ->
  0 <= value b < 2 ^ self_bits -> self_bits <= 8 * capacity b -> bo + size <= 8 * capacity other ->
  capacity other < 2 ^ 63 -> self_bits + size + 7 < 2 ^ 64 -> bo + size + 7 < 2 ^ 64 ->
  exists b', append_bits b self_bits other size bo = Ret b' /\ blob_ok b' /\ self_bits + size <= 8 * capacity b' /\
    value b' = appended (value b) (value other) self_bits size bo /\
    (self_bits mod 8 = 0 \/ bo = 0 ->
       value b' = value b + 2 ^ self_bits * ((value other / 2 ^ bo) mod 2 ^ size) /\ value b' < 2 ^ (self_bits + size)).
Proof.
  intros Hb Ho Hsb Hs Hbo Hvb Hfit Hfit' Hmax H1 H2.
  destruct (zero_upper_bits_ok other (bo + size) Ho) as (o1&Hr1&Ho1&Hc1&Hv1); [lia..|].
  destruct (resize_ok b ((self_bits + size + 7) / 8) Hb) as (b1&Hrb&Hb1&Hcb1&Hvb1); [apply Z.div_pos; lia|].
  assert (Ht : self_bits + size <= 8 * ((self_bits + size + 7) / 8)) by (clear; Z.div_mod_to_equations; lia).
  assert (Hvv : value b1 = value b).
  { rewrite Hvb1. destruct (capacity b <=? 24); [done|]. apply Z.mod_small.
    assert (2 ^ self_bits <= 256 ^ ((self_bits + size + 7) / 8)); [|lia].
    change 256 with (2 ^ 8). rewrite <- Z.pow_mul_r by lia. apply Z.pow_le_mono_r; lia. }
  assert (Hvo : 0 <= value o1 < 2 ^ (bo + size)) by (rewrite Hv1; apply Z.mod_pos_bound, pow2_pos; lia).
  assert (Hres : exists b', append_bits b self_bits other size bo = Ret b' /\ blob_ok b' /\ capacity b' = capacity b1 /\
    value b' = appended (value b) (value other) self_bits size bo).
  { unfold append_bits. rewrite (uadd_ok bo) by lia. cbn [mbind outcome_bind]. rewrite Hr1. cbn [mbind outcome_bind].
    rewrite (uadd_ok self_bits) by lia. cbn [mbind outcome_bind].
    rewrite (uadd_ok (self_bits + size)) by lia. cbn [mbind outcome_bind].
    rewrite Hrb. cbn [mbind outcome_bind]. rewrite (land_7 self_bits).
    destruct (Z.eqb_spec (self_bits mod 8) 0) as [H8|H8]; [destruct (Z.eqb_spec bo 0) as [->|Hb0]|]; cbn [andb].
    1:{ rewrite uadd_ok by lia. cbn [mbind outcome_bind].
        destruct (append_aligned b b1 o1 self_bits size) as (b'&Hr&Hok&Hc&Hv); try done.
        - rewrite Hcb1. clear - Hsb Hs H8. Z.div_mod_to_equations; lia.
        - rewrite Hc1. clear - Hfit' Hs. Z.div_mod_to_equations; lia.
        - exists b'. split; [exact Hr|]. split; [done|]. split; [done|]. rewrite Hv, Hv1. unfold appended.
          rewrite stray_aligned, Z.shiftl_0_l, Z.lor_0_r, Z.div_1_r by (lia || by left). done. }
    all: rewrite <- (land_7 self_bits);
      destruct (append_misaligned b1 o1 self_bits size bo) as (b'&Hr&Hok&Hc&Hv); try (done || lia);
      exists b'; (split; [exact Hr|]); (split; [done|]); (split; [done|]); rewrite Hv, Hvv, Hv1; by apply lor_appended. }
  destruct Hres as (b'&Hr&Hok&Hc&Hv). exists b'. split; [done|]. split; [done|]. split; [rewrite Hc, Hcb1; lia|].
  split; [done|]. intros Hal. rewrite Hv. unfold appended. rewrite stray_aligned, Z.shiftl_0_l, Z.lor_0_r by done.
  split; [done|]. rewrite Z.pow_add_r by lia. pose proof (Z.mod_pos_bound (value other / 2 ^ bo) (2 ^ size) (pow2_pos _ Hs)). nia.
Qed.

(** Appending bits: joining a piece of [size] bits of another value to a value
    of [self_bits] bits gives the number with the piece above the value, for
    any sizes and offsets, in bounds and without a panic, except that, when
    neither the value ends at a byte boundary nor the piece starts at bit 0,
    up to seven bits below the piece are ORed into the top of the value. *)
Theorem append_bits_correct b self_bits other size bo :
  blob_ok b -> blob_ok other -> 0 <= self_bits -> 0 <= size -> 0 <= bo ->
  0 <= value b < 2 ^ self_bits -> self_bits <= 8 * capacity b -> bo + size <= 8 * capacity other ->
  capacity other < 2 ^ 63 -> self_bits + size + 7 < 2 ^ 64 -> bo + size + 7 < 2 ^ 64 ->
  exists b', append_bits b self_bits other size bo = Ret b' /\ blob_ok b' /\ self_bits + size <= 8 * capacity b' /\
    value b' = appended (value b) (value other) self_bits size bo /\
    (self_bits mod 8 = 0 \/ bo = 0 ->
       value b' = value b + 2 ^ self_bits * ((value other / 2 ^ bo) mod 2 ^ size) /\ value b' < 2 ^ (self_bits + size)).
Proof. apply append_bits_ok. Qed.

Lemma append_bits_correct_witness :
  (exists b', append_bits (new 5) 3 (new 6) 4 0 = Ret b' /\ value b' = 5 + 8 * 6) /\
  (exists b', append_bits (new 1) 3 (new 3) 4 2 = Ret b' /\ value b' = 7 /\ 7 <> 1 + 8 * ((3 / 4) mod 16)).
Proof.
  split.
  - destruct (append_bits_correct (new 5) 3 (new 6) 4 0) as (b'&Hr&_&_&_&Hv);
      [by apply new_ok|by apply new_ok|vm_compute; (split; congruence) || congruence..|].
    exists b'. split; [exact Hr|]. destruct Hv as [-> _]; [by right|]. reflexivity.
  - destruct (append_bits_correct (new 1) 3 (new 3) 4 2) as (b'&Hr&_&_&Hv&_);
      [by apply new_ok|by apply new_ok|vm_compute; (split; congruence) || congruence..|].
    exists b'. split; [exact Hr|]. rewrite Hv. split; [reflexivity|]. vm_compute. discriminate.
Defined.
