(* ===== verification/ValueSpec.v ===== *)
(** Properties of values of expressions (ValueBlob): reading up to 64 bits,
    fields of structs, and values assembled from the pieces of a location. *)
From Stdlib Require Import ZArith Lia ZifyBool.
From stdpp Require Import base list.
From S2P Require Import Prelude Errors StateMonad Serial LeBytes Registers MemReader ValueBlob ValueBlobSpec.
Open Scope Z_scope.

(** ** Up to 64 bits *)

(** The arithmetic at the end of [bit_range], on the bytes that hold the range. *)
Definition low_bits (bytes : list Z) (s len : Z) : Z :=
  let r := Z.shiftr (le_value (take 8 bytes)) s in
  let r := if 8 <? zlen bytes then Z.lor r (wrap64 (Z.shiftl (default 0 (zget bytes 8)) (64 - s))) else r in
  r mod 2 ^ len.

Lemma low_bits_ok bytes s len : Forall is_u8 bytes -> zlen bytes = (s + len + 7) / 8 -> 0 <= s < 8 -> 0 <= len <= 64 ->
  low_bits bytes s len = (le_value bytes / 2 ^ s) mod 2 ^ len.
Proof.
  intros Hu Hl Hs Hlen. unfold low_bits. rewrite Z.shiftr_div_pow2 by lia. pose proof (pow2_pos s ltac:(lia)) as Hps.
  destruct (Z.ltb_spec 8 (zlen bytes)) as [H9|H9].
  2:{ rewrite take_ge by (unfold zlen in H9; lia). done. }
  assert (Hn : length bytes = 9%nat) by (unfold zlen in *; revert Hl H9; clear - Hs Hlen; intros; Z.div_mod_to_equations; lia).
  destruct (lookup_lt_is_Some_2 bytes 8 ltac:(lia)) as [x Hx].
  assert (Hz : zget bytes 8 = Some x) by exact (eq_trans (zget_of_nat bytes 8) Hx). rewrite Hz. simpl default.
  assert (Hux : is_u8 x) by (rewrite Forall_lookup in Hu; by eapply Hu). unfold is_u8 in Hux.
  assert (Hv : le_value bytes = le_value (take 8 bytes) + 2 ^ 64 * x).
  { rewrite (le_value_take_drop 8 bytes) at 1 by lia. rewrite (drop_S _ _ _ Hx), drop_ge by lia.
    cbn [le_value]. change (pow256 8) with (2 ^ 64). lia. }
  assert (Ht : 0 <= le_value (take 8 bytes) < 2 ^ 64).
  { pose proof (le_value_u64 (take 8 bytes) (Forall_take _ _ _ Hu)) as H. rewrite length_take in H. apply H. lia. }
  set (t := le_value (take 8 bytes)) in *. rewrite Hv. unfold wrap64.
  assert (H64 : 2 ^ 64 = 2 ^ (64 - s) * 2 ^ s) by (rewrite <- Z.pow_add_r by lia; f_equal; lia).
  pose proof (pow2_pos (64 - s) ltac:(lia)) as Hp64.
  assert (Hlow : 0 <= t / 2 ^ s < 2 ^ (64 - s)) by (split; [apply Z.div_pos; lia|apply Z.div_lt_upper_bound; lia]).
  assert (Hx64 : (Z.shiftl x (64 - s)) mod 2 ^ 64 = Z.shiftl (x mod 2 ^ s) (64 - s)).
  { rewrite !Z.shiftl_mul_pow2 by lia. rewrite H64, (Z.mul_comm x), Z.mul_mod_distr_l by lia. lia. }
  rewrite Hx64, lor_small by lia.
  replace (t + 2 ^ 64 * x) with (t + (2 ^ (64 - s) * x) * 2 ^ s) by (rewrite H64; ring). rewrite Z.div_add by lia.
  rewrite (Z.div_mod x (2 ^ s)) at 2 by lia.
  replace (t / 2 ^ s + 2 ^ (64 - s) * (2 ^ s * (x / 2 ^ s) + x mod 2 ^ s)) with
    (t / 2 ^ s + 2 ^ (64 - s) * (x mod 2 ^ s) + (x / 2 ^ s) * 2 ^ 64) by (rewrite H64; ring).
  rewrite <- (mod_mod_pow2 _ 64 len) by lia. rewrite <- (mod_mod_pow2 (_ + x / 2 ^ s * 2 ^ 64) 64 len) by lia.
  by rewrite Z.mod_add by lia.
Qed.

Section Memory.
  Context (mem_read : Z -> Z -> result (list Z)).
  Notation vbr := (value_bit_range mem_read).

(** The end of [bit_range], once the bytes are read. *)
Lemma bit_range_tail bytes n s start end_ (st : CachedMemReader) :
  zlen bytes = n -> Forall is_u8 bytes -> s = start mod 8 -> 0 <= start <= end_ -> end_ - start <= 64 ->
  n = (end_ + 7) / 8 - start / 8 ->
  (let a := bytes ++ zeros (9 - zlen bytes) in
   let r := le_value (take 8 a) in
   let r := if negb (start mod 8 =? 0) then Z.shiftr r (start mod 8) else r in
   r ← (if 8 <? n then
          a8 ← sopt (zget a 8);
          _ ← sassert (negb (start mod 8 =? 0));
          mret (Z.lor r (wrap64 (Z.shiftl a8 (64 - start mod 8))))
        else mret r);
   mret (if end_ - start <? 64 then Z.land r (Z.shiftl 1 (end_ - start) - 1) else r) : stm CachedMemReader Error Z) st
  = (Ret ((le_value bytes / 2 ^ s) mod 2 ^ (end_ - start)), st).
Proof.
  intros <- Hu Hs Hse Hlen Hl. pose proof (Z.mod_pos_bound start 8 ltac:(lia)) as Hs8. rewrite <- Hs in *.
  assert (Hsplit : start = 8 * (start / 8) + s) by (rewrite Hs; apply Z.div_mod; lia).
  assert (Hl' : zlen bytes = (s + (end_ - start) + 7) / 8).
  { rewrite Hl. replace (s + (end_ - start) + 7) with (end_ + 7 + (- (start / 8)) * 8) by lia. rewrite Z.div_add by lia. lia. }
  assert (H9 : zlen bytes <= 9) by (rewrite Hl'; clear - Hs8 Hlen; Z.div_mod_to_equations; lia).
  cbv zeta. set (a := bytes ++ zeros (9 - zlen bytes)).
  assert (Hta : le_value (take 8 a) = le_value (take 8 bytes)).
  { subst a. destruct (decide (8 <= length bytes)%nat) as [H8|H8]; [by rewrite take_app_le|].
    rewrite (take_ge bytes 8) by lia. unfold zeros. rewrite take_app_ge by lia. rewrite take_replicate, le_value_app, le_value_zeros. lia. }
  assert (Hsh : (if negb (s =? 0) then Z.shiftr (le_value (take 8 a)) s else le_value (take 8 a)) =
    Z.shiftr (le_value (take 8 bytes)) s).
  { rewrite Hta. destruct (Z.eqb_spec s 0) as [->|]; cbn [negb]; [by rewrite Z.shiftr_0_r|done]. }
  rewrite Hsh. pose proof (low_bits_ok bytes s (end_ - start) Hu Hl' Hs8 ltac:(lia)) as Hlb. rewrite <- Hlb.
  assert (Hmask : forall r, 0 <= r < 2 ^ 64 -> (if end_ - start <? 64 then Z.land r (Z.shiftl 1 (end_ - start) - 1) else r) = r mod 2 ^ (end_ - start)).
  { intros r Hr. destruct (Z.ltb_spec (end_ - start) 64); [by apply land_low; lia|].
    replace (end_ - start) with 64 by lia. by rewrite Z.mod_small. }
  assert (Ht : 0 <= le_value (take 8 bytes) < 2 ^ 64).
  { pose proof (le_value_u64 (take 8 bytes) (Forall_take _ _ _ Hu)) as H. rewrite length_take in H. apply H. lia. }
  assert (Hr0 : 0 <= Z.shiftr (le_value (take 8 bytes)) s < 2 ^ 64).
  { rewrite Z.shiftr_div_pow2 by lia. pose proof (pow2_pos s ltac:(lia)). split; [apply Z.div_pos; lia|].
    apply Z.div_lt_upper_bound; nia. }
  unfold low_bits. destruct (Z.ltb_spec 8 (zlen bytes)) as [Hbig|Hbig]; srun.
  - assert (Hz : zget a 8 = zget bytes 8).
    { subst a. rewrite zget_app. by rewrite (proj2 (Z.ltb_lt 8 _)). }
    rewrite Hz. destruct (proj2 (zget_range bytes 8) ltac:(lia)) as [x Hx]. rewrite Hx. cbn [lift_opt]. srun.
    assert (Hs0 : s <> 0) by (intros ->; revert Hl' Hbig; clear - Hlen; intros; Z.div_mod_to_equations; lia).
    rewrite (proj2 (Z.eqb_neq s 0)) by done. cbn [negb rassert]. srun. simpl default. rewrite Hmask; [done|].
    apply lor_range; [lia|done|]. apply Z.mod_pos_bound. lia.
  - by rewrite Hmask.
Qed.

(** Reading up to 64 bits of a value gives exactly the number that those bits
    stand for, whatever the alignment (ranges that straddle nine bytes
    included), from the bytes of a blob or from those read from memory; a range
    outside a blob is an error; nothing panics. *)
Theorem value_bit_range_correct b addr start end_ st l st' :
  blob_ok b -> 0 <= start <= end_ -> end_ - start <= 64 -> end_ + 7 < 2 ^ 64 ->
  let n := (end_ + 7) / 8 - start / 8 in
  (end_ <= 8 * capacity b -> vbr (Blob b) start end_ st = (Ret ((value b / 2 ^ start) mod 2 ^ (end_ - start)), st)) /\
  (8 * capacity b < end_ -> vbr (Blob b) start end_ st = (Fail (Code Dwarf), st)) /\
  (read mem_read (saturating_add addr (start / 8)) n st = (Ret l, st') -> Forall is_u8 l -> zlen l = n ->
     vbr (Addr addr) start end_ st = (Ret ((le_value l / 2 ^ (start mod 8)) mod 2 ^ (end_ - start)), st')).
Proof.
  intros Hb Hse Hlen Hmax n. pose proof (as_slice_length b Hb) as Hcap.
  assert (Hse8 : start = 8 * (start / 8) + start mod 8 /\ 0 <= start mod 8 < 8) by (clear; Z.div_mod_to_equations; lia).
  assert (He8 : end_ <= 8 * ((end_ + 7) / 8) <= end_ + 7) by (clear; Z.div_mod_to_equations; lia).
  assert (Hn : 0 <= n <= 9) by (subst n; lia).
  assert (Hpre : forall v, vbr v start end_ st = (bytes ← match v with
        | Blob b => if capacity b * 8 <? end_ then sfail (Code Dwarf)
            else _ ← sassert (n <=? 9); slift (zslice (as_slice b) (start / 8) ((end_ + 7) / 8))
        | Addr addr => _ ← sassert (n <=? 9); read mem_read (saturating_add addr (start / 8)) n end;
      let a := bytes ++ zeros (9 - zlen bytes) in
      let r := le_value (take 8 a) in
      let r := if negb (start mod 8 =? 0) then Z.shiftr r (start mod 8) else r in
      r ← (if 8 <? n then a8 ← sopt (zget a 8); _ ← sassert (negb (start mod 8 =? 0));
             mret (Z.lor r (wrap64 (Z.shiftl a8 (64 - start mod 8)))) else mret r);
      mret (if end_ - start <? 64 then Z.land r (Z.shiftl 1 (end_ - start) - 1) else r)) st).
  { intros v. unfold value_bit_range.
    assert (Hsub : saturating_sub ((end_ + 7) / 8) (start / 8) = n) by (unfold saturating_sub; subst n; lia).
    replace (saturating_sub end_ start) with (end_ - start) by (unfold saturating_sub; lia).
    rewrite (proj2 (Z.leb_le (end_ - start) 64)) by lia. rewrite uadd_ok by lia. srun. by rewrite Hsub. }
  rewrite !Hpre. rewrite (proj2 (Z.leb_le n 9)) by lia. clear Hpre. split; [|split].
  - intros Hin. rewrite (proj2 (Z.ltb_ge _ end_)) by lia.
    destruct (slice_value (as_slice b) (start / 8) ((end_ + 7) / 8) (as_slice_u8 b Hb)) as (Hsl&Hup&Hlp&Hvp); [lia..|].
    rewrite Hsl. etrans; [exact (bit_range_tail _ n _ start end_ st Hlp Hup eq_refl ltac:(lia) ltac:(lia) eq_refl)|].
    rewrite Hvp. fold (value b). do 2 f_equal. fold n. rewrite div_mod_pow2 by (subst n; lia).
    replace (8 * (start / 8) + start mod 8) with start by lia. apply mod_mod_pow2. subst n. lia.
  - intros Hout. by rewrite (proj2 (Z.ltb_lt _ end_)) by lia.
  - intros Hread Hul Hll. srun. rewrite Hread.
    exact (bit_range_tail l n _ start end_ st' Hll Hul eq_refl ltac:(lia) ltac:(lia) eq_refl).
Qed.
End Memory.

Lemma value_bit_range_correct_witness :
  value_bit_range (fun _ _ => Fail (Code Internal)) (Blob (from_two_usizes (2 ^ 64 - 1) 5)) 4 68 MemReader.new =
    (Ret ((2 ^ 64 - 1 + 2 ^ 64 * 5) / 2 ^ 4 mod 2 ^ 64), MemReader.new).
Proof.
  assert (Hok : blob_ok (from_two_usizes (2 ^ 64 - 1) 5)).
  { split; [reflexivity|]. repeat (apply Forall_cons; split; [unfold is_u64; lia|]). apply Forall_nil. exact I. }
  destruct (value_bit_range_correct (fun _ _ => Fail (Code Internal)) (from_two_usizes (2 ^ 64 - 1) 5) 0 4 68 MemReader.new
    [] MemReader.new Hok) as [H _]; [lia..|].
  rewrite H by (vm_compute; discriminate). reflexivity.
Defined.

(** ** Pieces *)

Section Pieces.
  Context (mem_read : Z -> Z -> result (list Z)) (ctx : EvalRegs).

(** A piece that is a value: the lowest [size] bits of [v]; [d] says that it is a guess. *)
Definition piece_is (p : Piece) (v : ValueBlob) (size : Z) (d : bool) : Prop :=
  (exists bytes, piece_value ctx p = Ret (Blob v, bytes, d)) /\ size_in_bits p = Some size /\
  default 0 (piece_bit_offset p) = 0 /\ blob_ok v /\ 0 < size <= 8 * capacity v /\ capacity v < 2 ^ 60.

(** The pieces one above the other. *)
Fixpoint joined (l : list (ValueBlob * Z * bool)) : Z :=
  match l with [] => 0 | (v, size, _) :: l => value v mod 2 ^ size + 2 ^ size * joined l end.
Fixpoint total_bits (l : list (ValueBlob * Z * bool)) : Z :=
  match l with [] => 0 | (_, size, _) :: l => size + total_bits l end.
Definition any_dubious (l : list (ValueBlob * Z * bool)) : bool := existsb (fun x => snd x) l.

Lemma assemble_ok pieces l res res_bits dubious (st : CachedMemReader) :
  Forall2 (fun p x => piece_is p x.1.1 x.1.2 x.2) pieces l ->
  blob_ok res -> 0 <= res_bits <= 8 * capacity res -> value res < 2 ^ res_bits -> res_bits + total_bits l + 7 < 2 ^ 64 ->
  exists r, assemble mem_read ctx false pieces res res_bits dubious st = (Ret (Blob r, dubious || any_dubious l), st) /\
    blob_ok r /\ res_bits + total_bits l <= 8 * capacity r /\ value r = value res + 2 ^ res_bits * joined l.
Proof.
  intros Hl. revert res res_bits dubious. induction Hl as [|p [[v size] d] pieces l Hp Hl IH]; intros res rb dub Hok Hrb Hv Htot.
  - exists res. cbn [assemble any_dubious existsb joined total_bits]. rewrite orb_false_r. split; [done|].
    split; [done|]. split; lia.
  - cbn [fst snd] in Hp. destruct Hp as ((bytes&Hpv)&Hsz&Hoff&Hvok&Hsize&Hcap).
    cbn [total_bits joined any_dubious existsb] in *. cbn [snd] in *.
    assert (Hpos : 0 <= total_bits l).
    { clear - Hl. induction Hl as [|p [[v s] d] ps l (_&_&_&_&H&_) _ IH]; [done|]. simpl in *. lia. }
    cbn [assemble]. rewrite Hpv, Hoff, Hsz. srun. change (default _ (Some size)) with size.
    rewrite (proj2 (Z.eqb_neq size 0)) by lia. cbn [andb]. rewrite (uadd_ok size 0) by lia. srun.
    rewrite Z.add_0_r, (uadd_ok size 7) by lia. srun.
    unfold into_value. rewrite (proj2 (Z.ltb_ge _ _)) by (clear - Hsize; Z.div_mod_to_equations; lia). srun.
    destruct (append_bits_ok res rb v size 0) as (r&Hr&Hrok&Hrc&_&Hrv); try done; try lia.
    { split; [|lia]. by apply value_range. }
    destruct Hrv as [Hrv Hrlt]; [by right|]. rewrite Z.div_1_r in Hrv. rewrite Hr. cbn [widen]. srun.
    rewrite uadd_ok by lia. srun.
    destruct (IH r (rb + size) (dub || d)) as (r'&Hrun&Hok'&Hc'&Hv'); [done|lia|done|lia|].
    exists r'. rewrite Hrun, orb_assoc. split; [done|]. split; [done|]. split; [lia|].
    rewrite Hv', Hrv, Z.pow_add_r by lia. ring.
Qed.

(** A location in several pieces (registers, constants, bytes): the value has
    the bits of the first piece lowest, then those of the second, and so on; it
    is a guess when any piece is; nothing panics. *)
Theorem pieces_are_joined pieces l dubious (st : CachedMemReader) :
  Forall2 (fun p x => piece_is p x.1.1 x.1.2 x.2) pieces l -> zlen pieces <> 1 -> total_bits l + 7 < 2 ^ 64 ->
  exists r, eval_pieces mem_read ctx pieces dubious st = (Ret (Blob r, dubious || any_dubious l), st) /\
    blob_ok r /\ total_bits l <= 8 * capacity r /\ value r = joined l.
Proof.
  intros Hl Hn Htot. destruct (new_ok 0 ltac:(unfold is_u64; lia)) as [H0 Hv0].
  destruct (assemble_ok pieces l (new 0) 0 dubious st) as (r&Hr&Hok&Hc&Hv); [done|done|simpl; lia|by rewrite Hv0|lia|].
  exists r. unfold eval_pieces. rewrite (proj2 (Z.eqb_neq _ _)) by done. split; [done|]. split; [done|]. split; [lia|].
  rewrite Hv, Hv0. lia.
Qed.
End Pieces.

(** A 16-byte struct in two registers, as the calling convention passes it. *)
Definition sample_ctx : EvalRegs :=
  mkEvalRegs X86_64 (Some (Regs.set (Regs.set Regs.default Rdi 4660 false) Rsi 22136 true)) None.
Definition sample_pieces : list Piece := [mkPiece (LRegister 5) (Some 64) None; mkPiece (LRegister 4) (Some 64) None].

Lemma pieces_are_joined_witness :
  exists r, eval_pieces (fun _ _ => Fail (Code Internal)) sample_ctx sample_pieces false MemReader.new =
    (Ret (Blob r, true), MemReader.new) /\ value r = 4660 + 2 ^ 64 * 22136.
Proof.
  destruct (pieces_are_joined (fun _ _ => Fail (Code Internal)) sample_ctx sample_pieces
    [(ValueBlob.new 4660, 64, false); (ValueBlob.new 22136, 64, true)] false MemReader.new) as (r&Hr&_&_&Hv).
  - constructor; [|constructor; [|constructor]]; (split; [eexists; vm_compute; reflexivity|]);
      (split; [reflexivity|]); (split; [reflexivity|]); (split; [apply new_ok; unfold is_u64; lia|]); simpl; lia.
  - vm_compute. discriminate.
  - vm_compute. reflexivity.
  - exists r. split; [exact Hr|]. rewrite Hv. vm_compute. reflexivity.
Defined.

(** ** Structs *)

(** A struct made of fields given by their names and bytes. *)
Definition build (l : list (list Z * list Z)) : StructBuilder :=
  foldl (fun s '(name, bytes) => add_blob_field s name bytes (zlen bytes)) builder_default l.
Definition fields_bytes (l : list (list Z * list Z)) : list Z := concat (map snd l).

Lemma build_snoc l n b : build (l ++ [(n, b)]) = add_blob_field (build l) n b (zlen b).
Proof. unfold build. by rewrite foldl_app. Qed.
Lemma build_ok l :
  value_blob (build l) = fields_bytes l /\ length (fields (build l)) = length l /\
  forall i name bytes, l !! i = Some (name, bytes) ->
    fields (build l) !! i = Some (name, mkField (zlen bytes) (zlen bytes * 8) (zlen (fields_bytes (take i l)) * 8)).
Proof.
  induction l as [|[n b] l (IHb&IHl&IHf)] using rev_ind; [by repeat split|].
  rewrite build_snoc. unfold add_blob_field. cbn [value_blob fields]. rewrite IHb. unfold fields_bytes. rewrite map_app, concat_app. cbn [map concat snd]. rewrite app_nil_r.
  split; [done|]. split; [rewrite !length_app, IHl; done|]. intros i name bytes Hi.
  destruct (decide (i < length l)%nat) as [Hlt|Hge].
  - rewrite lookup_app_l in Hi by done. rewrite lookup_app_l by (by rewrite IHl). rewrite take_app_le by lia. by apply IHf.
  - rewrite lookup_app_r in Hi by lia. destruct (i - length l)%nat as [|k] eqn:Ek; [|by rewrite lookup_cons, lookup_nil in Hi].
    injection Hi as -> ->. rewrite lookup_app_r, IHl, Ek by (rewrite IHl; lia). cbn [lookup list_lookup].
    assert (Hi : i = length l) by lia. subst i. rewrite take_app_length.
    do 3 f_equal; rewrite zlen_app; lia.
Qed.

Lemma fields_bytes_split l i name bytes : l !! i = Some (name, bytes) ->
  fields_bytes l = fields_bytes (take i l) ++ bytes ++ fields_bytes (drop (S i) l).
Proof.
  intros H. rewrite <- (take_drop_middle l i _ H) at 1. unfold fields_bytes. by rewrite map_app, concat_app.
Qed.

(** A field of a struct value that is a whole number of bytes long but does not
    begin at a byte boundary (a bit field of 8 or 16 bits, say) is shown with
    the bits that follow it, up to the next byte boundary, in its value. *)
Theorem misaligned_field_shows_stray_bits mem_read b f (st : CachedMemReader) :
  blob_ok b -> 0 < field_bits f < 192 -> field_bits f mod 8 = 0 -> 0 <= bit_offset f -> bit_offset f mod 8 <> 0 ->
  bit_offset f + field_bits f <= 8 * capacity b -> bit_offset f + field_bits f + 7 < 2 ^ 64 ->
  0 < type_bytes f <= 24 ->
  exists r, get_struct_field mem_read (Blob b) f st = (Ret (Blob r), st) /\
    value r mod 256 ^ type_bytes f =
      (value b / 2 ^ bit_offset f) mod 2 ^ (field_bits f + (8 - bit_offset f mod 8)) mod 256 ^ type_bytes f.
Proof.
  intros Hok Hbits H8 Hoff Ho8 Hin Hmax Hty.
  destruct (bit_range_ok b (bit_offset f) (field_bits f) Hok) as [Hbr _]; [lia..|].
  destruct Hbr as (r0&Hr0&Hr0ok&_&Hv0); [done|].
  destruct (resize_ok r0 (type_bytes f) Hr0ok ltac:(lia)) as (r&Hr&_&_&Hrv). exists r. split.
  - unfold get_struct_field. rewrite (proj2 (Z.eqb_neq (field_bits f) 0)), uadd_ok by lia. srun.
    rewrite (proj2 (Z.eqb_neq (type_bytes f) 0)) by lia. unfold stry, slift. rewrite Hr0. by rewrite Hr.
  - assert (Hkept : kept_bits (bit_offset f) (field_bits f) = field_bits f + (8 - bit_offset f mod 8)).
    { unfold kept_bits. rewrite (proj2 (Z.eqb_eq _ 0) H8), (proj2 (Z.eqb_neq _ 0) Ho8).
      rewrite (proj2 (Z.ltb_lt (field_bits f / 8) 24)) by (apply Z.div_lt_upper_bound; lia). cbn [andb negb]. lia. }
    rewrite Hrv, Hv0, Hkept. destruct (capacity r0 <=? 24); [done|].
    apply Z.mod_mod. pose proof (Z.pow_pos_nonneg 256 (type_bytes f)). lia.
Qed.

(** [unsigned a : 3; unsigned b : 8; ..] with every bit of the struct set: [b] is shown as 8191. *)
Lemma misaligned_field_shows_stray_bits_witness :
  exists r, get_struct_field (fun _ _ => Fail (Code Internal)) (Blob (ValueBlob.new (2 ^ 32 - 1))) (mkField 4 8 3) MemReader.new =
    (Ret (Blob r), MemReader.new) /\ value r mod 256 ^ 4 = 8191.
Proof.
  destruct (misaligned_field_shows_stray_bits (fun _ _ => Fail (Code Internal)) (ValueBlob.new (2 ^ 32 - 1)) (mkField 4 8 3) MemReader.new)
    as (r&Hr&Hv).
  - apply new_ok. unfold is_u64. lia.
  - cbn. lia.
  - reflexivity.
  - cbn. lia.
  - cbn. discriminate.
  - cbn. lia.
  - cbn. lia.
  - cbn. lia.
  - exists r. split; [exact Hr|]. etrans; [exact Hv|]. vm_compute. reflexivity.
Defined.

(** Structs that the debugger makes: a struct assembled from fields, each
    given by its bytes, is a value in which reading any field back gives those
    bytes. *)
Theorem struct_fields_read_back mem_read l i name bytes (st : CachedMemReader) :
  Forall (fun p => Forall is_u8 p.2) l -> 8 * zlen (fields_bytes l) + 14 < 2 ^ 64 ->
  l !! i = Some (name, bytes) -> bytes <> [] ->
  exists b f r, finish (build l) = Ret (Blob b, fields (build l)) /\ fields (build l) !! i = Some (name, f) /\
    get_struct_field mem_read (Blob b) f st = (Ret (Blob r), st) /\
    zlen bytes <= capacity r /\ le_bytes (length bytes) (value r) = bytes.
Proof.
  intros Hu Hmax Hi Hne. destruct (build_ok l) as (Hb&_&Hf). specialize (Hf i name bytes Hi).
  pose proof (fields_bytes_split l i name bytes Hi) as Hsplit. set (pre := fields_bytes (take i l)) in *.
  set (post := fields_bytes (drop (S i) l)) in *.
  assert (Hub : Forall is_u8 (fields_bytes l)).
  { unfold fields_bytes. clear - Hu. induction Hu as [|[n b] l Hp _ IH]; [constructor|]. cbn [map concat snd]. by apply Forall_app. }
  assert (Hlen : zlen (fields_bytes l) = zlen pre + zlen bytes + zlen post) by (rewrite Hsplit, !zlen_app; lia).
  assert (Hpos : 0 < zlen bytes) by (destruct bytes; [done|rewrite zlen_cons; pose proof (zlen_nonneg bytes); lia]).
  pose proof (zlen_nonneg pre). pose proof (zlen_nonneg post).
  assert (Hfin : exists b, finish (build l) = Ret (Blob b, fields (build l)) /\ blob_ok b /\ value b = le_value (fields_bytes l) /\
    zlen (fields_bytes l) <= capacity b).
  { unfold finish, from_vec. rewrite Hb. destruct (Z.leb_spec (zlen (fields_bytes l)) 24).
    - destruct (from_slice_ok (E:=Empty_set) _ Hub) as (b&Hr&Hok&Hv&Hc). rewrite Hr. exists b. rewrite Hc. repeat split; try done. lia.
    - eexists. split; [done|]. split; [by split|]. split; [done|]. simpl. lia. }
  destruct Hfin as (b&Hfin&Hok&Hv&Hcap). exists b. eexists. rewrite Hf.
  destruct (bit_range_ok b (zlen pre * 8) (zlen bytes * 8) Hok) as [Hbr _]; [lia..|].
  destruct Hbr as (r0&Hr0&Hr0ok&Hr0c&Hr0v); [lia|].
  destruct (resize_ok r0 (zlen bytes) Hr0ok ltac:(lia)) as (r&Hr&Hrok&Hrc&Hrv).
  exists r. split; [done|]. split; [done|]. split; [|split; [lia|]].
  - unfold get_struct_field. cbn [field_bits type_bytes bit_offset]. rewrite (proj2 (Z.eqb_neq _ 0)) by lia.
    rewrite uadd_ok by lia. srun. rewrite (proj2 (Z.eqb_neq (zlen bytes) 0)) by lia.
    unfold stry, slift. rewrite Hr0. by rewrite Hr.
  - assert (Hkept : kept_bits (zlen pre * 8) (zlen bytes * 8) = 8 * zlen bytes).
    { unfold kept_bits. rewrite (Z.mod_mul (zlen pre) 8) by lia. change (negb (0 =? 0)) with false. rewrite andb_false_r. simpl. lia. }
    assert (Hr0b : value r0 = le_value bytes).
    { rewrite Hr0v, Hkept, Hv, Hsplit, le_value_app. replace (zlen pre * 8) with (8 * Z.of_nat (length pre)) by (unfold zlen; lia).
      rewrite <- pow256_bits, (Z.mul_comm (pow256 _)), Z.div_add by (pose proof (pow256_pos (length pre)); lia).
      assert (Forall is_u8 pre /\ Forall is_u8 bytes /\ Forall is_u8 post) as (Hp&Hby&Hpo).
      { rewrite Hsplit in Hub. apply Forall_app in Hub as [? Hub]. by apply Forall_app in Hub as [??]. }
      rewrite (Z.div_small (le_value pre)) by exact (le_value_range pre Hp). rewrite Z.add_0_l, le_value_app.
      replace (8 * zlen bytes) with (8 * Z.of_nat (length bytes)) by done.
      rewrite <- pow256_bits, (Z.mul_comm (pow256 _)), Z.mod_add by (pose proof (pow256_pos (length bytes)); lia).
      apply Z.mod_small. exact (le_value_range bytes Hby). }
    assert (Hby : Forall is_u8 bytes) by (rewrite Hsplit in Hub; apply Forall_app in Hub as [_ Hub]; by apply Forall_app in Hub as [? _]).
    assert (Hrb : value r = le_value bytes).
    { rewrite Hrv, Hr0b. destruct (capacity r0 <=? 24); [done|]. apply Z.mod_small. exact (le_value_range bytes Hby). }
    rewrite Hrb. by apply le_bytes_value.
Qed.

Lemma struct_fields_read_back_witness :
  exists b f r, finish (build [([112], [1; 2; 3]); ([113], [4; 5])]) = Ret (Blob b, fields (build [([112], [1; 2; 3]); ([113], [4; 5])])) /\
    get_struct_field (fun _ _ => Fail (Code Internal)) (Blob b) f MemReader.new = (Ret (Blob r), MemReader.new) /\
    le_bytes 2 (value r) = [4; 5].
Proof.
  destruct (struct_fields_read_back (fun _ _ => Fail (Code Internal)) [([112], [1; 2; 3]); ([113], [4; 5])] 1 [113] [4; 5]
    MemReader.new) as (b&f&r&Hb&_&Hr&_&Hv).
  - repeat (apply Forall_cons; split; [solve_bytes|]). apply Forall_nil. exact I.
  - vm_compute. reflexivity.
  - reflexivity.
  - discriminate.
  - exists b, f, r. split; [exact Hb|]. split; [exact Hr|exact Hv].
Defined.
