(* ===== verification/Types.v ===== *)
(** Types of the debuggee's values (src/types.rs): the records of types, their
    sizes, and the types the interpreter of expressions makes. A pointer to a
    type is an index into the arena; what only the display of types uses (DIE
    offsets, lines, nested names) is left out. *)
From Stdlib Require Import ZArith Lia String.
From stdpp Require Import base list.
From S2P Require Import Prelude RustStr.
Open Scope Z_scope.

(** ** Flags *)

(** [f.contains(x)], [f.insert(x)], [f.remove(x)] *)
Definition contains (f x : Z) : bool := Z.land f x =? x.
Definition insert_flag (f x : Z) : Z := Z.lor f x.
Definition remove_flag (f x : Z) : Z := Z.ldiff f x.

Module PrimitiveFlags.
Definition SIGNED : Z := 0x1.
Definition FLOAT : Z := 0x2.
Definition CHAR : Z := 0x4.
Definition AMBIGUOUS_CHAR : Z := 0x8.
Definition BOOL : Z := 0x10.
Definition UNSPECIFIED : Z := 0x20.
End PrimitiveFlags.
Module PointerFlags.
Definition REFERENCE : Z := 0x1.
End PointerFlags.
Module ArrayFlags.
Definition LEN_KNOWN : Z := 0x1.
Definition UTF_STRING : Z := 0x2.
Definition TRUNCATED : Z := 0x4.
End ArrayFlags.
Module FieldFlags.
Definition SIZE_KNOWN : Z := 0x8.
End FieldFlags.
Module TypeFlags.
Definition SIZE_KNOWN : Z := 0x8.
Definition BUILTIN : Z := 0x10.
End TypeFlags.

(** ** Types *)

Abbreviation TypePtr := nat.
Record PointerType := mkPointer { p_flags : Z; p_type : TypePtr }.
Record PointerToMemberType := mkMember { m_type : TypePtr; containing_type : TypePtr }.
(** A stride of 0 stands for the size of the element type. *)
Record ArrayType := mkArray { a_flags : Z; a_type : TypePtr; stride : Z; a_len : Z }.
Record SliceType := mkSlice { s_flags : Z; s_type : TypePtr }.
Record StructField := mkField {
  f_name : list Z; f_flags : Z; f_bit_offset : Z; f_bit_size : Z; f_type : TypePtr; discr_value : Z
}.
Record StructType := mkStruct { st_flags : Z; st_fields : list StructField }.
Record Enumerand := mkEnumerand { e_name : list Z; e_value : Z; e_flags : Z }.
Record EnumType := mkEnum { enumerands : list Enumerand; e_type : TypePtr }.
Inductive TType :=
  | TUnknown
  | TPrimitive (f : Z)
  | TPointer (p : PointerType)
  | TPointerToMember (m : PointerToMemberType)
  | TFunction
  | TArray (a : ArrayType)
  | TStruct (s : StructType)
  | TEnum (e : EnumType)
  | TMetaType
  | TMetaField
  | TMetaVariable
  | TMetaCodeLocation
  | TSlice (s : SliceType).
Record TypeInfo := mkType { t_name : list Z; t_size : Z; t_flags : Z; t_t : TType }.

Definition as_pointer (t : TType) : option PointerType := match t with TPointer p => Some p | _ => None end.
Definition is_meta (t : TType) : bool :=
  match t with TMetaType | TMetaField | TMetaVariable | TMetaCodeLocation => true | _ => false end.

(** The arena of types; following a pointer. *)
Abbreviation Types := (list TypeInfo).
Definition type_at (ts : Types) (p : TypePtr) : partial TypeInfo := lift_opt (ts !! p).

(** The loop of [calculate_size], [n] turns to go. *)
Fixpoint size_loop (ts : Types) (n : nat) (t : TypeInfo) (multiplier : Z) : partial Z :=
  match n with
  | O => Ret 0
  | S n =>
      if contains (t_flags t) TypeFlags.SIZE_KNOWN then umul (t_size t) multiplier
      else
        match t_t t with
        | TUnknown | TPrimitive _ | TPointer _ | TPointerToMember _ | TFunction | TMetaType | TMetaField => umul 8 multiplier
        | TMetaVariable => umul 16 multiplier
        | TMetaCodeLocation => umul 24 multiplier
        | TSlice _ => umul 16 multiplier
        | TStruct _ => Ret 0
        | TEnum e => t ← type_at ts (e_type e); size_loop ts n t multiplier
        | TArray a =>
            multiplier ← (if contains (a_flags a) ArrayFlags.LEN_KNOWN then umul multiplier (a_len a) else Ret multiplier);
            t ← type_at ts (a_type a);
            size_loop ts n t multiplier
        end
  end.
Definition calculate_size (ts : Types) (p : TypePtr) : partial Z :=
  t ← type_at ts p; size_loop ts 100 t 1.
Definition calculate_bit_size (ts : Types) (f : StructField) : partial Z :=
  if contains (f_flags f) FieldFlags.SIZE_KNOWN then Ret (f_bit_size f)
  else s ← calculate_size ts (f_type f); umul s 8.

(** ** Adding types *)

Definition add_type (ts : Types) (t : TypeInfo) : TypePtr * Types := (List.length ts, ts ++ [t]).
Definition add_primitive (ts : Types) (name : list Z) (size flags : Z) : TypePtr * Types :=
  add_type ts (mkType name size TypeFlags.SIZE_KNOWN (TPrimitive flags)).
Definition add_pointer (ts : Types) (t : TypePtr) (flags : Z) : TypePtr * Types :=
  add_type ts (mkType [] 8 TypeFlags.SIZE_KNOWN (TPointer (mkPointer flags t))).
Definition add_array (ts : Types) (t : TypePtr) (len : option Z) (extra_flags : Z) : partial (TypePtr * Types) :=
  stride ← calculate_size ts t;
  let len_or_fallback := default 0 len in
  let flags := match len with Some _ => insert_flag extra_flags ArrayFlags.LEN_KNOWN | None => extra_flags end in
  size ← umul len_or_fallback stride;
  Ret (add_type ts (mkType [] size TypeFlags.SIZE_KNOWN (TArray (mkArray flags t stride len_or_fallback)))).
Definition add_slice (ts : Types) (t : TypePtr) (flags : Z) : TypePtr * Types :=
  add_type ts (mkType [] 16 TypeFlags.SIZE_KNOWN (TSlice (mkSlice flags t))).
Definition add_enum (ts : Types) (en : EnumType) : partial (TypePtr * Types) :=
  size ← calculate_size ts (e_type en);
  Ret (add_type ts (mkType [] size TypeFlags.SIZE_KNOWN (TEnum en))).

(** ** Built-in types *)

Record BuiltinTypes := mkBuiltin {
  void : TypePtr; void_pointer : TypePtr; function : TypePtr; function_pointer : TypePtr; unknown : TypePtr;
  u8_ : TypePtr; u16_ : TypePtr; u32_ : TypePtr; u64_ : TypePtr;
  i8_ : TypePtr; i16_ : TypePtr; i32_ : TypePtr; i64_ : TypePtr;
  f32_ : TypePtr; f64_ : TypePtr; f128_ : TypePtr;
  char8 : TypePtr; char32 : TypePtr; bool_ : TypePtr;
  meta_type : TypePtr; meta_field : TypePtr; meta_variable : TypePtr; meta_code_location : TypePtr
}.
Definition add_builtins (ts : Types) : BuiltinTypes * Types :=
  let known := TypeFlags.SIZE_KNOWN in
  let builtin := Z.lor known TypeFlags.BUILTIN in
  let primitive (name : string) size flags := mkType (str name) size builtin (TPrimitive flags) in
  let '(void, ts) := add_type ts (primitive "void"%string 0 PrimitiveFlags.UNSPECIFIED) in
  let '(function, ts) := add_type ts (mkType (str "fn") 0 builtin TFunction) in
  let '(unknown, ts) := add_type ts (mkType (str "<unknown>") 8 builtin TUnknown) in
  let '(void_pointer, ts) := add_type ts (mkType [] 8 builtin (TPointer (mkPointer 0 void))) in
  let '(function_pointer, ts) := add_type ts (mkType [] 8 builtin (TPointer (mkPointer 0 function))) in
  let '(u8_, ts) := add_type ts (primitive "u8"%string 1 0) in
  let '(u16_, ts) := add_type ts (primitive "u16"%string 2 0) in
  let '(u32_, ts) := add_type ts (primitive "u32"%string 4 0) in
  let '(u64_, ts) := add_type ts (primitive "u64"%string 8 0) in
  let '(i8_, ts) := add_type ts (primitive "i8"%string 1 PrimitiveFlags.SIGNED) in
  let '(i16_, ts) := add_type ts (primitive "i16"%string 2 PrimitiveFlags.SIGNED) in
  let '(i32_, ts) := add_type ts (primitive "i32"%string 4 PrimitiveFlags.SIGNED) in
  let '(i64_, ts) := add_type ts (primitive "i64"%string 8 PrimitiveFlags.SIGNED) in
  let '(f32_, ts) := add_type ts (primitive "f32"%string 4 PrimitiveFlags.FLOAT) in
  let '(f64_, ts) := add_type ts (primitive "f64"%string 8 PrimitiveFlags.FLOAT) in
  let '(f128_, ts) := add_type ts (mkType (str "<f128 not supported>") 16 builtin TUnknown) in
  let '(char8, ts) := add_type ts (primitive "char8"%string 1 PrimitiveFlags.CHAR) in
  let '(char32, ts) := add_type ts (primitive "char32"%string 4 PrimitiveFlags.CHAR) in
  let '(bool_, ts) := add_type ts (primitive "bool"%string 1 PrimitiveFlags.BOOL) in
  let '(meta_type, ts) := add_type ts (mkType (str "type") 8 known TMetaType) in
  let '(meta_field, ts) := add_type ts (mkType (str "field") 8 known TMetaField) in
  let '(meta_variable, ts) := add_type ts (mkType (str "variable") 16 known TMetaVariable) in
  let '(meta_code_location, ts) := add_type ts (mkType (str "location") 24 known TMetaCodeLocation) in
  (mkBuiltin void void_pointer function function_pointer unknown u8_ u16_ u32_ u64_ i8_ i16_ i32_ i64_ f32_ f64_ f128_
     char8 char32 bool_ meta_type meta_field meta_variable meta_code_location, ts).
