(* ===== verification/ExprValues.v ===== *)
(** The operators of watch expressions on values (src/interp.rs): numbers read
    from values and written back, casts, pointers, arrays and strings. *)
From Stdlib Require Import ZArith Lia String.
From stdpp Require Import base list.
From S2P Require Import Prelude RustStr Errors StateMonad Serial Floats ExprLexer MemReader ValueBlob Types.
Open Scope Z_scope.

(** ** Values *)

Module ValueFlags.
Definition RAW : Z := 0x1.
Definition PRETTY : Z := 0x2.
Definition HEX : Z := 0x4.
Definition BIN : Z := 0x8.
Definition NO_UNWRAPPING_INTERNAL : Z := 0x10.
Definition SHOW_TYPE_NAME : Z := 0x20.
Definition BIG_ENDIAN : Z := 0x40.
Definition inherit (f : Z) : Z := remove_flag f SHOW_TYPE_NAME.
End ValueFlags.

Record Value := mkValue { val : AddrOrValueBlob; type_ : TypePtr; flags : Z }.

(** What evaluation changes: the state of the interpreter, and the cache over
    the debuggee's memory, which the source keeps in the context. *)
Record EvalState := mkEval {
  types : Types; builtin_types : BuiltinTypes; variables : list (list Z * Value); memory : CachedMemReader;
  currently_evaluated_value_dubious : bool
}.
Definition set_types (ts : Types) (s : EvalState) : EvalState :=
  mkEval ts (builtin_types s) (variables s) (memory s) (currently_evaluated_value_dubious s).
Definition set_memory (m : CachedMemReader) (s : EvalState) : EvalState :=
  mkEval (types s) (builtin_types s) (variables s) m (currently_evaluated_value_dubious s).
Definition set_variables (vs : list (list Z * Value)) (s : EvalState) : EvalState :=
  mkEval (types s) (builtin_types s) vs (memory s) (currently_evaluated_value_dubious s).
Abbreviation estm := (stm EvalState Error).

Definition on_memory {A} (m : stm CachedMemReader Error A) : estm A := fun s =>
  let '(r, c) := m (memory s) in (r, set_memory c s).
Definition type_info (p : TypePtr) : estm TypeInfo := ts ← sget types; slift (widen (type_at ts p)).
Definition size_of (p : TypePtr) : estm Z := ts ← sget types; slift (widen (calculate_size ts p)).
(** A new type. *)
Definition alloc (f : Types -> TypePtr * Types) : estm TypePtr := fun s =>
  let '(p, ts) := f (types s) in (Ret p, set_types ts s).
Definition alloc_array (t : TypePtr) (len : option Z) (extra_flags : Z) : estm TypePtr :=
  ts ← sget types;
  '(p, ts) ← slift (widen (add_array ts t len extra_flags));
  _ ← smodify (set_types ts);
  mret p.
Definition builtin (f : BuiltinTypes -> TypePtr) : estm TypePtr := sget (fun s => f (builtin_types s)).
(** A value of a word, of a built-in type. *)
Definition blob_value (x : Z) (f : BuiltinTypes -> TypePtr) : estm Value :=
  t ← builtin f; mret (mkValue (Blob (new x)) t 0).

Definition type_mismatch {A} : estm A := sfail (Code TypeMismatch).
Definition runtime_error {A} : estm A := sfail (Code Runtime).

(** ** Numbers *)

Definition transmute_to_usize (b : BasicValue) : Z := match b with I x => wrap64 x | U x => x | F x => x end.
Definition cast_to_isize (b : BasicValue) : Z :=
  match b with I x => x | U x => to_signed 64 x | F x => f64_to_int (- 2 ^ 63) (2 ^ 63 - 1) x end.
Definition cast_to_usize (b : BasicValue) : Z :=
  match b with I x => wrap64 x | U x => x | F x => f64_to_int 0 (2 ^ 64 - 1) x end.
Definition cast_to_f64 (b : BasicValue) : f64 := match b with I x | U x => f64_of_int x | F x => x end.
Definition is_f64 (b : BasicValue) : bool := match b with F _ => true | _ => false end.
Definition is_isize (b : BasicValue) : bool := match b with I _ => true | _ => false end.
(** The result of arithmetic in [isize]. *)
Definition signed64 (x : Z) : Z := to_signed 64 (wrap64 x).

Definition as_blob (v : LiteralValue) : partial ValueBlob :=
  match v with
  | Basic b => Ret (new (transmute_to_usize b))
  | LChar c => Ret (new c)
  | LString s => from_slice (utf8_encode s)
  end.
Definition utf8_len (s : list Z) : Z := zlen (utf8_encode s).
Definition literal_value (v : LiteralValue) : estm Value :=
  t ← match v with
      | Basic (U _) => builtin u64_
      | Basic (I _) => builtin i64_
      | Basic (F _) => builtin f64_
      | LChar c => if c <? 128 then builtin char8 else builtin char32
      | LString s => c ← builtin char8; alloc_array c (Some (utf8_len s)) 0
      end;
  b ← slift (widen (as_blob v));
  mret (mkValue (Blob b) t 0).

(** [while let Type::Enum(e) = ..], through at most [fuel] enums. *)
Fixpoint strip_enums (fuel : nat) (p : TypePtr) : estm TypePtr :=
  match fuel with
  | O => spanic
  | S fuel => t ← type_info p; match t_t t with TEnum e => strip_enums fuel (e_type e) | _ => mret p end
  end.
Definition strip_enum (p : TypePtr) : estm TypePtr :=
  n ← sget (fun s => List.length (types s)); strip_enums (S n) p.

Section Memory.
  (** The reader under the cache, as in MemReader. *)
  Context (mem_read : Z -> Z -> result (list Z)).

(** [val.into_value(size, memory)?.get_usize()?] *)
Definition word_of (v : AddrOrValueBlob) (size : Z) : estm Z :=
  b ← on_memory (into_value mem_read v size); slift (get_usize b).
Definition low_bytes (x size : Z) : Z := Z.land x (Z.shiftl 1 (size * 8) - 1).

Definition to_basic (v : Value) : estm BasicValue :=
  p ← strip_enum (type_ v);
  t ← type_info p;
  size ← size_of p;
  if (8 <? size) || (size =? 0) then type_mismatch
  else
    match t_t t with
    | TPrimitive f =>
        x ← word_of (val v) size;
        if contains f PrimitiveFlags.FLOAT then
          if size =? 4 then mret (F (f64_of_f32_bits (x mod 2 ^ 32)))
          else if size =? 8 then mret (F x)
          else sfail (Code Dwarf)
        else
          let x := flip_endianness_if_needed x size (contains (flags v) ValueFlags.BIG_ENDIAN) in
          let x := if size <? 8 then low_bytes x size else x in
          if contains f PrimitiveFlags.SIGNED then
            let x := if (size <? 8) && negb (Z.land x (Z.shiftl 1 (size * 8 - 1)) =? 0)
                     then Z.lor x (Z.lxor U64_MAX (Z.shiftl 1 (size * 8) - 1)) else x in
            mret (I (to_signed 64 x))
          else mret (U x)
    | TPointer _ | TPointerToMember _ => x ← word_of (val v) size; mret (U x)
    | _ => type_mismatch
    end.

Definition from_basic (b : BasicValue) (type_ : TypePtr) : estm (option AddrOrValueBlob) :=
  inner ← strip_enum type_;
  t ← type_info inner;
  size ← size_of inner;
  let finish x := mret (Some (Blob (new (if size <? 8 then low_bytes x size else x)))) in
  match t_t t with
  | TPrimitive f =>
      if contains f PrimitiveFlags.FLOAT then
        if size =? 4 then finish (f32_bits_of_f64 (cast_to_f64 b))
        else if size =? 8 then finish (cast_to_f64 b)
        else sfail (Code Dwarf)
      else if contains f PrimitiveFlags.SIGNED then finish (wrap64 (cast_to_isize b))
      else finish (cast_to_usize b)
  | TPointer _ | TPointerToMember _ => finish (cast_to_usize b)
  | _ => mret None
  end.

(** ** Unary operators *)

Definition eval_borrow (only_type : bool) (v : Value) : estm Value :=
  t ← type_info (type_ v);
  let other :=
    p ← alloc (fun ts => add_pointer ts (type_ v) 0);
    if only_type then mret (mkValue (val v) p (flags v))
    else
      match val v with
      | Blob _ => type_mismatch
      | Addr a => mret (mkValue (Blob (new a)) p (flags v))
      end in
  match t_t t with
  | TPointer p =>
      if contains (p_flags p) PointerFlags.REFERENCE then
        t ← alloc (fun ts => add_pointer ts (p_type p) (remove_flag (p_flags p) PointerFlags.REFERENCE));
        mret (mkValue (val v) t (flags v))
      else other
  | _ => other
  end.
Definition eval_dereference (v : Value) : estm Value :=
  t ← type_info (type_ v);
  match t_t t with
  | TPointer p => a ← word_of (val v) 8; mret (mkValue (Addr a) (p_type p) (flags v))
  | _ => type_mismatch
  end.
(** [!x], and [-x] when [neg]. *)
Definition eval_negate (neg : bool) (v : Value) : estm Value :=
  t ← type_info (type_ v);
  match t_t t with
  | TPrimitive f =>
      if contains f PrimitiveFlags.UNSPECIFIED then type_mismatch
      else
        size ← size_of (type_ v);
        if (8 <? size) || (size =? 0) then type_mismatch
        else
          x ← word_of (val v) size;
          let finish x p := mret (mkValue (Blob (new x)) p (remove_flag (flags v) ValueFlags.BIG_ENDIAN)) in
          if contains f PrimitiveFlags.FLOAT then
            if negb neg then type_mismatch
            else if size =? 4 then finish (f32_neg (x mod 2 ^ 32)) (type_ v)
            else if size =? 8 then finish (f64_neg x) (type_ v)
            else sfail (Code Dwarf)
          else if contains f PrimitiveFlags.BOOL then
            if neg then type_mismatch else finish (Z.lxor x 1) (type_ v)
          else
            let x := flip_endianness_if_needed x size (contains (flags v) ValueFlags.BIG_ENDIAN) in
            let x := Z.lxor U64_MAX x in
            p ← (if neg && negb (contains f PrimitiveFlags.SIGNED)
                 then alloc (fun ts => add_primitive ts [] size (insert_flag f PrimitiveFlags.SIGNED)) else mret (type_ v));
            let x := if neg then wrapping_add x 1 else x in
            finish (Z.land x (Z.shiftr U64_MAX (64 - size * 8))) p
  | _ => type_mismatch
  end.

(** ** Casts *)

Definition is_reinterpretable (t : TType) (to : bool) : bool :=
  match t with
  | TPrimitive _ | TPointer _ | TPointerToMember _ | TStruct _ | TEnum _ => true
  | TArray a => contains (a_flags a) ArrayFlags.LEN_KNOWN || to
  | TSlice _ => negb to
  | _ => false
  end.
(** [r.unwrap()] *)
Definition unwrap {A} (r : result A) : result A := match r with Fail _ => Panic | r => r end.
(** The bytes to cast: a slice stands for the array it points to. *)
Definition cast_source (v : Value) : estm (Z * AddrOrValueBlob) :=
  t ← type_info (type_ v);
  match t_t t with
  | TSlice s =>
      b ← on_memory (into_value mem_read (val v) 16);
      addr ← slift (unwrap (get_usize_at b 0));
      len ← slift (unwrap (get_usize_at b 8));
      inner_size ← size_of (s_type s);
      n ← slift (umul inner_size len);
      mret (n, Addr addr)
  | _ => n ← size_of (type_ v); mret (n, val v)
  end.
Definition reinterpret_cast (v : Value) (ty : TypePtr) : estm Value :=
  '(from_size, from_val) ← cast_source v;
  t ← type_info ty;
  let sized :=
    to_size ← size_of ty;
    x ← match from_val with
        | Addr a =>
            if to_size <=? from_size then mret (Addr a)
            else b ← on_memory (into_value mem_read from_val to_size); mret (Blob b)
        | Blob b => b ← slift (widen (resize b to_size)); mret (Blob b)
        end;
    mret (mkValue x ty (flags v)) in
  match t_t t with
  | TArray a =>
      if contains (a_flags a) ArrayFlags.LEN_KNOWN then sized
      else
        element_size ← size_of (a_type a);
        if element_size =? 0 then type_mismatch
        else
          let n := from_size / element_size in
          sized_array ← alloc_array (a_type a) (Some n) 0;
          x ← match from_val with
              | Addr a => mret (Addr a)
              | Blob b => m ← slift (umul n element_size); b ← slift (widen (resize b m)); mret (Blob b)
              end;
          mret (mkValue x sized_array (flags v))
  | _ => sized
  end.
Definition eval_cast (v : Value) (ty : TypePtr) : estm Value :=
  from ← type_info (type_ v);
  to ← type_info ty;
  if negb (is_reinterpretable (t_t from) false) then type_mismatch
  else if negb (is_reinterpretable (t_t to) true) then type_mismatch
  else
    r ← stry (to_basic v);
    match r with
    | inl b =>
        o ← from_basic b ty;
        match o with
        | Some x => mret (mkValue x ty (remove_flag (flags v) ValueFlags.BIG_ENDIAN))
        | None => reinterpret_cast v ty
        end
    | inr e => if is_code TypeMismatch e then reinterpret_cast v ty else sfail e
    end.

(** ** Pointers, arrays and slices *)

Definition in_isize (x : Z) : bool := (- 2 ^ 63 <=? x) && (x <? 2 ^ 63).
(** [isize::checked_mul(a, b)] and [isize::checked_add(a, b)] *)
Definition isize_mul (a b : Z) : option Z := if in_isize (a * b) then Some (a * b) else None.
Definition isize_add (a b : Z) : option Z := if in_isize (a + b) then Some (a + b) else None.

Definition index_pointer (index : bool) (lhs : Value) (p : PointerType) (idx : Z) : estm Value :=
  addr ← word_of (val lhs) 8;
  size ← size_of (p_type p);
  let stride := to_signed 64 size in
  if stride =? 0 then type_mismatch
  else
    match isize_mul idx stride ≫= isize_add (to_signed 64 addr) with
    | None => runtime_error
    | Some offset =>
        if (index : bool) then mret (mkValue (Addr (wrap64 offset)) (p_type p) (ValueFlags.inherit (flags lhs)))
        else if idx <? 0 then runtime_error
        else
          t ← alloc_array (p_type p) (Some idx) 0;
          mret (mkValue (Addr addr) t (ValueFlags.inherit (flags lhs)))
    end.
Definition index_array (lhs : Value) (a : ArrayType) (idx : Z) : estm Value :=
  if contains (a_flags a) ArrayFlags.LEN_KNOWN && (Z.max (a_len a) 1 <=? idx) then runtime_error
  else
    stride ← (if stride a =? 0 then size_of (a_type a) else mret (stride a));
    match checked_mul idx stride with
    | None => runtime_error
    | Some offset =>
        if U64_MAX / 8 <? offset then runtime_error
        else
          x ← match val lhs with
              | Addr addr => match checked_add addr offset with Some x => mret (Addr x) | None => runtime_error end
              | Blob b =>
                  o8 ← slift (umul offset 8);
                  s8 ← slift (umul stride 8);
                  b ← slift (bit_range b o8 s8);
                  mret (Blob b)
              end;
          mret (mkValue x (a_type a) (ValueFlags.inherit (flags lhs)))
    end.
Definition index_slice (lhs : Value) (s : SliceType) (idx : Z) : estm Value :=
  stride ← size_of (s_type s);
  blob ← on_memory (into_value mem_read (val lhs) 16);
  addr ← slift (widen (get_usize_prefix blob));
  len ← slift (get_usize_at blob 8);
  if Z.max len 1 <=? idx then runtime_error
  else
    match checked_mul idx stride ≫= checked_add addr with
    | Some x => mret (mkValue (Addr x) (s_type s) (ValueFlags.inherit (flags lhs)))
    | None => runtime_error
    end.
(** [lhs[rhs]], [lhs.[rhs]] and [lhs, rhs]. *)
Definition eval_index (op : BinaryOperator) (lhs rhs : Value) : estm Value :=
  b ← to_basic rhs;
  if is_f64 b then type_mismatch
  else
    t ← type_info (type_ lhs);
    let index := bool_decide (op = Index) in
    match t_t t with
    | TPointer p => index_pointer index lhs p (cast_to_isize b)
    | TArray a => if index then index_array lhs a (cast_to_usize b) else type_mismatch
    | TSlice s => if index then index_slice lhs s (cast_to_usize b) else type_mismatch
    | _ => type_mismatch
    end.

Definition eval_range (lhs rhs : Value) : estm Value :=
  t1 ← type_info (type_ lhs);
  t2 ← type_info (type_ rhs);
  match as_pointer (t_t t1), as_pointer (t_t t2) with
  | Some p1, Some p2 =>
      size ← size_of (p_type p1);
      size2 ← size_of (p_type p2);
      if negb (size2 =? size) then type_mismatch
      else if size =? 0 then type_mismatch
      else
        addr1 ← word_of (val lhs) 8;
        addr2 ← word_of (val rhs) 8;
        if addr2 <? addr1 then runtime_error
        else
          let len := addr2 - addr1 in
          if negb (len mod size =? 0) then runtime_error
          else
            t ← alloc_array (p_type p1) (Some (len / size)) 0;
            mret (mkValue (Addr addr1) t 0)
  | _, _ => sfail (Code NotImplemented)
  end.

(** ** Strings *)

(** Whether a value of the type is an array of bytes, or a C string. *)
Definition string_kind (p : TypePtr) : estm (bool * bool) :=
  t ← type_info p;
  let check inner (len_known : bool) :=
    it ← type_info inner;
    size ← size_of inner;
    if negb (size =? 1) then mret (false, false)
    else if negb len_known then
      mret (false, match t_t it with TPrimitive f => contains f PrimitiveFlags.AMBIGUOUS_CHAR | _ => false end)
    else mret (true, false) in
  match t_t t with
  | TPointer p => check (p_type p) false
  | TArray a => check (a_type a) (contains (a_flags a) ArrayFlags.LEN_KNOWN)
  | TSlice s => check (s_type s) true
  | _ => mret (false, false)
  end.
(** The bytes to compare. *)
Definition string_bytes (v : Value) (is_c_string : bool) : estm (list Z) :=
  t ← type_info (type_ v);
  '(blob, size) ←
    (if (is_c_string : bool) then
       addr ← match t_t t with
              | TPointer _ => on_memory (value_bit_range mem_read (val v) 0 64)
              | TArray _ => match addr_of (val v) with Some x => mret x | None => type_mismatch end
              | _ => spanic
              end;
       '(bytes, terminated) ← on_memory (read_null_terminated mem_read addr (Z.shiftl 1 20));
       if negb terminated then sfail (Code Sanity)
       else b ← slift (from_vec bytes); mret (b, zlen bytes)
     else
       match t_t t with
       | TArray a => b ← on_memory (into_value mem_read (val v) (a_len a)); mret (b, a_len a)
       | TSlice _ =>
           addr ← on_memory (value_bit_range mem_read (val v) 0 64);
           size ← on_memory (value_bit_range mem_read (val v) 64 128);
           if Z.shiftl 100 20 <? size then sfail (Code Sanity)
           else
             buf ← on_memory (read mem_read addr size);
             b ← slift (from_vec buf);
             mret (b, size)
       | _ => spanic
       end);
  slift (zslice (as_slice blob) 0 size).

(** [Ord for [u8]] *)
Fixpoint compare_bytes (a b : list Z) : comparison :=
  match a, b with
  | [], [] => Eq
  | [], _ => Lt
  | _, [] => Gt
  | x :: a, y :: b => match Z.compare x y with Eq => compare_bytes a b | c => c end
  end.
Definition is_comparison (op : BinaryOperator) : bool :=
  match op with OEq | Ne | OGt | OLt | Ge | Le => true | _ => false end.
(** [c.is_eq()] etc. *)
Definition comparison_holds (op : BinaryOperator) (c : comparison) : estm bool :=
  match op with
  | OEq => mret (match c with Eq => true | _ => false end)
  | Ne => mret (match c with Eq => false | _ => true end)
  | OGt => mret (match c with Gt => true | _ => false end)
  | OLt => mret (match c with Lt => true | _ => false end)
  | Ge => mret (match c with Lt => false | _ => true end)
  | Le => mret (match c with Gt => false | _ => true end)
  | _ => spanic
  end.
(** The comparison of two strings; [None] if neither operand has the type of an
    array of bytes. *)
Definition compare_strings (op : BinaryOperator) (lhs rhs : Value) : estm (option Value) :=
  '(lhs_is_byte_array, lhs_is_c_string) ← string_kind (type_ lhs);
  '(rhs_is_byte_array, rhs_is_c_string) ← string_kind (type_ rhs);
  if (lhs_is_byte_array : bool) || rhs_is_byte_array then
    if negb (lhs_is_byte_array || lhs_is_c_string) then type_mismatch
    else if negb (rhs_is_byte_array || rhs_is_c_string) then type_mismatch
    else
      lhs_slice ← string_bytes lhs lhs_is_c_string;
      rhs_slice ← string_bytes rhs rhs_is_c_string;
      r ← comparison_holds op (compare_bytes lhs_slice rhs_slice);
      v ← blob_value (Z.b2z r) bool_;
      mret (Some v)
  else mret None.

(** ** Arithmetic *)

(** [x.div_euclid(y)] and [x.rem_euclid(y)] *)
Definition div_euclid (x y : Z) : Z := if 0 <? y then x / y else - (x / - y).
Definition rem_euclid (x y : Z) : Z := x mod Z.abs y.
(** [x % y] and [x / y] on [isize] with overflow checks. *)
Definition isize_rem (x y : Z) : result Z :=
  if (y =? 0) || ((x =? - 2 ^ 63) && (y =? -1)) then Panic else Ret (Z.rem x y).
Definition isize_div (x y : Z) : result Z :=
  if (y =? 0) || ((x =? - 2 ^ 63) && (y =? -1)) then Panic else Ret (Z.quot x y).

(** The difference of two pointers, in elements. *)
Definition subtract_pointers (pa pb : PointerType) (a b : BasicValue) : estm Value :=
  stride_a ← size_of (p_type pa);
  stride_b ← size_of (p_type pb);
  if negb (stride_a =? stride_b) then type_mismatch
  else if stride_a =? 0 then type_mismatch
  else
    let x := to_signed 64 (wrapping_sub (cast_to_usize a) (cast_to_usize b)) in
    let stride := to_signed 64 stride_a in
    r ← slift (isize_rem x stride);
    if negb (r =? 0) then type_mismatch
    else x ← slift (isize_div x stride); blob_value (wrap64 x) i64_.
(** A pointer and what is added to it or subtracted; [None] to treat the
    pointer as a number. *)
Definition offset_pointer (sub : bool) (ta : TypePtr) (pa : PointerType) (tb : TType) (a b : BasicValue)
  : estm (option Value) :=
  let by_elements :=
    stride ← size_of (p_type pa);
    let x := cast_to_usize a in
    let y := wrap64 (cast_to_usize b * stride) in
    let x := if sub then wrapping_sub x y else wrapping_add x y in
    mret (Some (mkValue (Blob (new x)) ta 0)) in
  match tb with
  | TPointerToMember m =>
      if sub then mret None
      else if negb (p_type pa =? containing_type m)%nat then type_mismatch
      else
        t ← alloc (fun ts => add_pointer ts (m_type m) 0);
        mret (Some (mkValue (Blob (new (wrapping_add (cast_to_usize a) (cast_to_usize b)))) t 0))
  | TPointer _ => mret None
  | _ => if is_f64 b then type_mismatch else by_elements
  end.
Definition add_numbers (sub : bool) (a b : BasicValue) : BasicValue :=
  if is_f64 a || is_f64 b then
    F (if sub then f64_sub (cast_to_f64 a) (cast_to_f64 b) else f64_add (cast_to_f64 a) (cast_to_f64 b))
  else if sub then I (to_signed 64 (wrapping_sub (cast_to_usize a) (cast_to_usize b)))
  else if is_isize a || is_isize b then I (signed64 (cast_to_isize a + cast_to_isize b))
  else U (wrapping_add (cast_to_usize a) (cast_to_usize b)).
Definition eval_add_sub (sub : bool) (ta tb : TypePtr) (a b : BasicValue) : estm (BasicValue + Value) :=
  ia ← type_info ta;
  ib ← type_info tb;
  let numbers ta ia ib a b :=
    o ← match as_pointer (t_t ia) with
        | Some pa => offset_pointer sub ta pa (t_t ib) a b
        | None => mret None
        end;
    mret (match o with Some v => inr v | None => inl (add_numbers sub a b) end) in
  match as_pointer (t_t ia), as_pointer (t_t ib) with
  | Some pa, Some pb => if sub then v ← subtract_pointers pa pb a b; mret (inr v) else numbers ta ia ib a b
  | None, Some _ => if sub then numbers ta ia ib a b else numbers tb ib ia b a
  | _, None => numbers ta ia ib a b
  end.

Inductive MulOp := OpMul | OpDiv | OpRem.
Definition eval_mul (op : MulOp) (a b : BasicValue) : estm BasicValue :=
  if is_f64 a || is_f64 b then
    let x := cast_to_f64 a in
    let y := cast_to_f64 b in
    mret (F (match op with OpMul => f64_mul x y | OpDiv => f64_div x y | OpRem => f64_rem_euclid x y end))
  else if (cast_to_usize b =? 0) && match op with OpMul => false | _ => true end then runtime_error
  else if is_isize a || is_isize b then
    let x := cast_to_isize a in
    let y := cast_to_isize b in
    mret (I (signed64 (match op with OpMul => x * y | OpDiv => div_euclid x y | OpRem => rem_euclid x y end)))
  else
    let x := cast_to_usize a in
    let y := cast_to_usize b in
    mret (U (match op with OpMul => wrap64 (x * y) | OpDiv => x / y | OpRem => x mod y end)).
Definition eval_bits (op : Z -> Z -> Z) (a b : BasicValue) : estm BasicValue :=
  if is_f64 a || is_f64 b then type_mismatch
  else
    let r := op (cast_to_usize a) (cast_to_usize b) in
    mret (if is_isize a || is_isize b then I (to_signed 64 r) else U r).
Definition eval_shift (left : bool) (a b : BasicValue) : estm BasicValue :=
  if is_f64 a || is_f64 b then type_mismatch
  else
    let y := cast_to_usize b in
    if 64 <=? y then runtime_error
    else
      match a with
      | U x => mret (U (if left then wrap64 (Z.shiftl x y) else Z.shiftr x y))
      | I x => mret (I (if left then signed64 (Z.shiftl x y) else Z.shiftr x y))
      | F _ => spanic
      end.
Definition compare_numbers (op : BinaryOperator) (a b : BasicValue) : estm Value :=
  let c := if is_f64 a || is_f64 b then f64_compare (cast_to_f64 a) (cast_to_f64 b)
           else if is_isize a || is_isize b then Some (Z.compare (cast_to_isize a) (cast_to_isize b))
           else Some (Z.compare (cast_to_usize a) (cast_to_usize b)) in
  r ← match c with None => mret false | Some c => comparison_holds op c end;
  blob_value (Z.b2z r) bool_.
Definition number_value (r : BasicValue) : estm Value :=
  blob_value (transmute_to_usize r) (match r with U _ => u64_ | I _ => i64_ | F _ => f64_ end).

Definition eval_arithmetic (op : BinaryOperator) (ta tb : TypePtr) (a b : BasicValue) : estm Value :=
  match op with
  | Add | Sub =>
      r ← eval_add_sub (bool_decide (op = Sub)) ta tb a b;
      match r with inl x => number_value x | inr v => mret v end
  | Mul => r ← eval_mul OpMul a b; number_value r
  | Div => r ← eval_mul OpDiv a b; number_value r
  | Rem => r ← eval_mul OpRem a b; number_value r
  | BitAnd => r ← eval_bits Z.land a b; number_value r
  | BitOr => r ← eval_bits Z.lor a b; number_value r
  | BitXor => r ← eval_bits Z.lxor a b; number_value r
  | Shl => r ← eval_shift true a b; number_value r
  | Shr => r ← eval_shift false a b; number_value r
  | OEq | Ne | OGt | OLt | Ge | Le => compare_numbers op a b
  | _ => sfail (Code NotImplemented)
  end.

(** ** Binary operators on evaluated operands *)

Definition eval_binary (op : BinaryOperator) (lhs rhs : Value) : estm Value :=
  match op with
  | Index | Slicify | Comma => eval_index op lhs rhs
  | ORange => eval_range lhs rhs
  | _ =>
      s ← (if is_comparison op then compare_strings op lhs rhs else mret None);
      match s with
      | Some v => mret v
      | None =>
          a ← to_basic lhs;
          b ← to_basic rhs;
          eval_arithmetic op (type_ lhs) (type_ rhs) a b
      end
  end.
(** [lhs && rhs], and [lhs || rhs] if not [is_and]; [rhs] evaluates the operand. *)
Definition eval_lazy (is_and : bool) (lhs : Value) (rhs : estm Value) : estm Value :=
  a ← to_basic lhs;
  let x := negb (cast_to_usize a =? 0) in
  x ← (if eqb x is_and then
         v ← rhs; b ← to_basic v; mret (negb (cast_to_usize b =? 0))
       else mret x);
  blob_value (Z.b2z x) bool_.
End Memory.
