(* ===== verification/ExprValuesSpec.v ===== *)
(** Properties of the operators of watch expressions (ExprValues.v): integers
    of every width are read and written as the numbers they stand for, and
    pointers move by elements. *)
From Stdlib Require Import ZArith Lia String.
From stdpp Require Import base list.
From S2P Require Import Prelude RustStr Errors StateMonad Serial LeBytes Floats ExprLexer MemReader ValueBlob ValueBlobSpec Types ExprValues.
Open Scope Z_scope.

(** ** Machine words *)

Lemma wrap64_range x : 0 <= wrap64 x < 2 ^ 64.
Proof. apply Z.mod_pos_bound. lia. Qed.
Lemma wrap64_small x : 0 <= x < 2 ^ 64 -> wrap64 x = x.
Proof. apply Z.mod_small. Qed.
(** A number of [n] bits in two's complement, and its pattern. *)
Definition wrap (signed : bool) (bits x : Z) : Z :=
  let r := x mod 2 ^ bits in if signed then to_signed bits r else r.
Lemma to_signed_range bits x : 0 < bits -> 0 <= x < 2 ^ bits -> - 2 ^ (bits - 1) <= to_signed bits x < 2 ^ (bits - 1).
Proof.
  intros Hb Hx. assert (2 ^ bits = 2 * 2 ^ (bits - 1)) by (rewrite <- Z.pow_succ_r by lia; f_equal; lia).
  unfold to_signed. destruct (Z.ltb_spec x (2 ^ (bits - 1))); lia.
Qed.
Lemma to_signed_mod bits x : 0 < bits -> to_signed bits x mod 2 ^ bits = x mod 2 ^ bits.
Proof.
  intros Hb. unfold to_signed. destruct (x <? 2 ^ (bits - 1)); [done|].
  rewrite <- (Z_mod_plus_full (x - 2 ^ bits) 1). f_equal. lia.
Qed.
Lemma wrap_mod s bits x : 0 < bits -> wrap s bits x mod 2 ^ bits = x mod 2 ^ bits.
Proof. intros Hb. unfold wrap. destruct s; rewrite ?to_signed_mod by done; apply Zmod_mod. Qed.
Lemma wrap_wrap s s' bits bits' x : 0 < bits <= bits' -> wrap s bits (wrap s' bits' x) = wrap s bits x.
Proof.
  intros Hb. unfold wrap at 1 3. assert (wrap s' bits' x mod 2 ^ bits = x mod 2 ^ bits) as ->; [|done].
  rewrite <- (mod_mod_pow2 (wrap s' bits' x) bits' bits), wrap_mod, mod_mod_pow2 by lia. done.
Qed.
Lemma to_signed_inj bits x : 0 < bits -> - 2 ^ (bits - 1) <= x < 2 ^ (bits - 1) -> to_signed bits (x mod 2 ^ bits) = x.
Proof.
  intros Hb Hx. assert (2 ^ bits = 2 * 2 ^ (bits - 1)) by (rewrite <- Z.pow_succ_r by lia; f_equal; lia).
  unfold to_signed. destruct (Z.leb_spec 0 x).
  - rewrite Z.mod_small by lia. destruct (Z.ltb_spec x (2 ^ (bits - 1))); lia.
  - rewrite <- (Z_mod_plus_full x 1), Z.mod_small by lia. destruct (Z.ltb_spec (x + 1 * 2 ^ bits) (2 ^ (bits - 1))); lia.
Qed.
(** The numbers of a type. *)
Definition in_range (signed : bool) (bits x : Z) : Prop :=
  if signed then - 2 ^ (bits - 1) <= x < 2 ^ (bits - 1) else 0 <= x < 2 ^ bits.
Lemma wrap_range s bits x : 0 < bits -> in_range s bits (wrap s bits x).
Proof.
  intros Hb. pose proof (Z.mod_pos_bound x (2 ^ bits) ltac:(lia)). destruct s; simpl; [by apply to_signed_range|done].
Qed.
Lemma wrap_in_range s bits x : 0 < bits -> in_range s bits x -> wrap s bits x = x.
Proof. intros Hb Hx. destruct s; simpl in *; [by apply to_signed_inj|by apply Z.mod_small]. Qed.

(** ** Following types *)

Lemma type_info_run p s t : types s !! p = Some t -> type_info p s = (Ret t, s).
Proof. intros H. unfold type_info, type_at. srun. rewrite H. done. Qed.
Definition sized (t : TypeInfo) : Prop := contains (t_flags t) TypeFlags.SIZE_KNOWN = true.
Lemma size_loop_sized ts n t m : sized t -> size_loop ts (S n) t m = umul (t_size t) m.
Proof. intros H. cbn [size_loop]. by rewrite H. Qed.
Lemma size_of_run p s t : types s !! p = Some t -> sized t -> t_size t < 2 ^ 64 -> size_of p s = (Ret (t_size t), s).
Proof.
  intros H Hs Hlt. unfold size_of, calculate_size, type_at. srun. rewrite H. cbn [lift_opt mbind outcome_bind].
  rewrite (size_loop_sized _ 99) by done. unfold umul. rewrite Z.mul_1_r, (proj2 (Z.ltb_lt _ _)) by done. done.
Qed.
Lemma strip_enum_run p s t : types s !! p = Some t -> (forall e, t_t t <> TEnum e) -> strip_enum p s = (Ret p, s).
Proof.
  intros H Ht. unfold strip_enum. srun. cbn [strip_enums]. rewrite stm_bind_run, (type_info_run _ _ _ H).
  destruct (t_t t) eqn:E; try done. by destruct (Ht e).
Qed.

(** ** Integers *)

(** The type is an integer type (or a character or truth value) of that many
    bytes; pointers count as unsigned. *)
Definition int_type (t : TypeInfo) (size : Z) (signed : bool) : Prop :=
  sized t /\ t_size t = size /\ 1 <= size <= 8 /\
  exists f, t_t t = TPrimitive f /\ contains f PrimitiveFlags.FLOAT = false /\ contains f PrimitiveFlags.SIGNED = signed.
Lemma low_bytes_mod x size : 0 <= size -> low_bytes x size = x mod 2 ^ (size * 8).
Proof. intros Hs. unfold low_bytes. apply land_low. lia. Qed.
Lemma land_bit_testbit x k : 0 <= k -> (Z.land x (Z.shiftl 1 k) =? 0) = negb (Z.testbit x k).
Proof. intros Hk. rewrite Z.shiftl_1_l. by apply land_bit. Qed.
(** Sign extension of a number of [size] bytes. *)
Lemma sign_extend x size : 1 <= size < 8 -> 0 <= x < 2 ^ (size * 8) ->
  to_signed 64 (if negb (Z.land x (Z.shiftl 1 (size * 8 - 1)) =? 0) then Z.lor x (Z.lxor U64_MAX (Z.shiftl 1 (size * 8) - 1)) else x)
  = to_signed (size * 8) x.
Proof.
  intros Hs Hx. rewrite land_bit_testbit, negb_involutive by lia.
  assert (Hhalf : 2 ^ (size * 8) = 2 * 2 ^ (size * 8 - 1)) by (rewrite <- Z.pow_succ_r by lia; f_equal; lia).
  assert (Hle : 2 ^ (size * 8) <= 2 ^ 56) by (apply Z.pow_le_mono_r; lia).
  rewrite (testbit_range x (size * 8 - 1)) by (rewrite ?Z.sub_add; lia).
  unfold to_signed at 2. rewrite Z.leb_antisym. destruct (Z.ltb_spec x (2 ^ (size * 8 - 1))); cbn [negb].
  - unfold to_signed. by rewrite (proj2 (Z.ltb_lt x (2 ^ (64 - 1)))) by lia.
  - assert (Z.lxor U64_MAX (Z.shiftl 1 (size * 8) - 1) = (2 ^ (64 - size * 8) - 1) * 2 ^ (size * 8)) as ->.
    { change U64_MAX with (Z.ones 64). rewrite Z.shiftl_1_l, Z.sub_1_r, <- Z.ones_equiv, Z.lxor_comm.
      assert (Z.lxor (Z.ones (size * 8)) (Z.ones 64) = Z.ldiff (Z.ones 64) (Z.ones (size * 8))) as ->.
      { apply Z.bits_inj'. intros n Hn. rewrite Z.lxor_spec, Z.ldiff_spec, !Z.testbit_ones_nonneg by lia.
        destruct (Z.ltb_spec n (size * 8)), (Z.ltb_spec n 64); done || lia. }
      rewrite Z.ldiff_ones_r, Z.shiftr_div_pow2, Z.shiftl_mul_pow2, !Z.ones_equiv by lia. f_equal.
      replace (2 ^ 64) with (2 ^ (64 - size * 8) * 2 ^ (size * 8)) by (rewrite <- Z.pow_add_r by lia; f_equal; lia).
      symmetry. apply Z.div_unique with (2 ^ (size * 8) - 1); lia. }
    rewrite lor_disjoint by lia. unfold to_signed.
    assert (2 ^ 64 = 2 ^ (64 - size * 8) * 2 ^ (size * 8)) by (rewrite <- Z.pow_add_r by lia; f_equal; lia).
    assert (2 ^ 64 = 2 * 2 ^ 63) by done. change (2 ^ (64 - 1)) with (2 ^ 63).
    destruct (Z.ltb_spec (x + (2 ^ (64 - size * 8) - 1) * 2 ^ (size * 8)) (2 ^ 63)); nia.
Qed.

Lemma set_memory_same s : set_memory (memory s) s = s.
Proof. by destruct s. Qed.
Lemma on_memory_pure {A} (m : stm CachedMemReader Error A) r s : m (memory s) = (r, memory s) -> on_memory m s = (r, s).
Proof. intros H. unfold on_memory. by rewrite H, set_memory_same. Qed.

(** A word whose low bytes are the number, and a basic value that is. *)
Definition int_word (size : Z) (signed : bool) (z w : Z) : Prop := is_u64 w /\ z = wrap signed (size * 8) w.
Definition int_basic (signed : bool) (z : Z) : BasicValue := if signed then I z else U z.
Definition int_value (s : EvalState) (v : Value) (size : Z) (signed : bool) (z : Z) : Prop :=
  exists t w, types s !! type_ v = Some t /\ int_type t size signed /\ val v = Blob (new w) /\
    contains (flags v) ValueFlags.BIG_ENDIAN = false /\ int_word size signed z w.

Lemma int_value_range s v size signed z : int_value s v size signed z -> in_range signed (size * 8) z.
Proof. intros (t&w&_&(_&_&?&_)&_&_&_&->). apply wrap_range. lia. Qed.
Lemma in_range_mono signed bits bits' z : 0 < bits <= bits' -> in_range signed bits z -> in_range signed bits' z.
Proof.
  intros Hb. assert (2 ^ (bits - 1) <= 2 ^ (bits' - 1)) by (apply Z.pow_le_mono_r; lia).
  assert (2 ^ bits <= 2 ^ bits') by (apply Z.pow_le_mono_r; lia). destruct signed; simpl; lia.
Qed.

Section Reads.
  Context (mem_read : Z -> Z -> result (list Z)).

Lemma word_of_new w size s : size <= 24 -> word_of mem_read (Blob (new w)) size s = (Ret w, s).
Proof.
  intros Hs. unfold word_of. rewrite stm_bind_run. rewrite (on_memory_pure _ (Ret (new w))); [done|].
  unfold into_value. cbn [capacity new]. by rewrite (proj2 (Z.ltb_ge _ _)).
Qed.
Lemma read_int w size (signed : bool) : 1 <= size <= 8 -> is_u64 w ->
  let x := if size <? 8 then low_bytes w size else w in
  (if signed then
     I (to_signed 64 (if (size <? 8) && negb (Z.land x (Z.shiftl 1 (size * 8 - 1)) =? 0)
                      then Z.lor x (Z.lxor U64_MAX (Z.shiftl 1 (size * 8) - 1)) else x))
   else U x) = int_basic signed (wrap signed (size * 8) w).
Proof.
  intros Hs Hw x. subst x. unfold int_basic, wrap. destruct (Z.ltb_spec size 8) as [Hlt|Hge].
  - rewrite low_bytes_mod by lia. destruct signed; [|done]. cbn [andb]. rewrite sign_extend; [done|lia|].
    apply Z.mod_pos_bound. lia.
  - assert (size = 8) as -> by lia. unfold is_u64 in Hw. rewrite Z.mod_small by done. by destruct signed.
Qed.

Lemma to_basic_int s v size signed z : int_value s v size signed z -> to_basic mem_read v s = (Ret (int_basic signed z), s).
Proof.
  intros (t&w&Ht&(Hsz&Hsize&Hr&f&Hf&Hnf&Hsg)&Hv&Hbe&Hw&->). unfold to_basic.
  rewrite stm_bind_run, (strip_enum_run _ _ _ Ht) by (by rewrite Hf). srun. rewrite (type_info_run _ _ _ Ht). srun.
  rewrite (size_of_run _ _ _ Ht Hsz) by lia. srun. rewrite Hsize.
  rewrite (proj2 (Z.ltb_ge _ _)), (proj2 (Z.eqb_neq _ _)) by lia. cbn [orb]. rewrite Hf. srun.
  rewrite Hv, word_of_new by lia. srun. rewrite Hnf, Hbe, Hsg. unfold flip_endianness_if_needed. cbv zeta.
  pose proof (read_int w size signed Hr Hw) as Hread. cbv zeta in Hread. destruct signed; srun; by rewrite Hread.
Qed.
Lemma from_basic_int s p t size signed sg z : types s !! p = Some t -> int_type t size signed -> in_range sg 64 z ->
  from_basic (int_basic sg z) p s = (Ret (Some (Blob (new (z mod 2 ^ (size * 8))))), s).
Proof.
  intros Ht (Hsz&Hsize&Hr&f&Hf&Hnf&Hsg) Hz. unfold from_basic.
  rewrite stm_bind_run, (strip_enum_run _ _ _ Ht) by (by rewrite Hf). srun. rewrite (type_info_run _ _ _ Ht). srun.
  rewrite (size_of_run _ _ _ Ht Hsz) by lia. srun. rewrite Hsize, Hf, Hnf, Hsg.
  assert (Hfin : forall x, is_u64 x -> x mod 2 ^ 64 = z mod 2 ^ 64 ->
    (if size <? 8 then low_bytes x size else x) = z mod 2 ^ (size * 8)).
  { intros x Hx Hxz. destruct (Z.ltb_spec size 8).
    - rewrite low_bytes_mod by lia. rewrite <- (mod_mod_pow2 x 64), Hxz, mod_mod_pow2 by lia. done.
    - assert (size = 8) as -> by lia. change (8 * 8) with 64. rewrite <- Hxz. symmetry. by apply Z.mod_small. }
  assert (Hu : cast_to_usize (int_basic sg z) = z mod 2 ^ 64).
  { destruct sg; simpl in *; [done|]. symmetry. by apply Z.mod_small. }
  assert (Hi : wrap64 (cast_to_isize (int_basic sg z)) = z mod 2 ^ 64).
  { destruct sg; simpl in *; [done|]. apply (to_signed_mod 64). lia. }
  rewrite Hu, Hi. destruct signed; srun; rewrite Hfin; try done; first [apply Z.mod_pos_bound; lia|apply Zmod_mod].
Qed.
End Reads.

Lemma int_value_new s p t size signed z f : types s !! p = Some t -> int_type t size signed ->
  contains f ValueFlags.BIG_ENDIAN = false ->
  int_value s (mkValue (Blob (new (z mod 2 ^ (size * 8)))) p f) size signed (wrap signed (size * 8) z).
Proof.
  intros Ht Hi Hf. exists t, (z mod 2 ^ (size * 8)). split; [done|]. split; [done|]. split; [done|]. split; [done|].
  destruct Hi as (_&_&Hr&_). split.
  - pose proof (Z.mod_pos_bound z (2 ^ (size * 8)) ltac:(lia)). unfold is_u64.
    assert (2 ^ (size * 8) <= 2 ^ 64) by (apply Z.pow_le_mono_r; lia). lia.
  - unfold wrap. by rewrite Zmod_mod.
Qed.
Lemma remove_flag_contains f x : 0 < x -> contains (remove_flag f x) x = false.
Proof.
  intros Hx. unfold contains, remove_flag. apply Z.eqb_neq.
  assert (Z.land (Z.ldiff f x) x = 0) as ->; [|lia]. apply Z.bits_inj'. intros n _. rewrite Z.land_spec, Z.ldiff_spec, Z.bits_0.
  by destruct (Z.testbit f n), (Z.testbit x n).
Qed.

(** C24. A cast between integer types, of 1 to 8 bytes and any signs, takes the
    number modulo the size of the new type, in its range, whatever the bytes of
    the word above the old type. *)
Theorem integer_cast_wraps mem_read s v ty t size signed z size' signed' :
  int_value s v size signed z -> types s !! ty = Some t -> int_type t size' signed' ->
  exists v', eval_cast mem_read v ty s = (Ret v', s) /\ type_ v' = ty /\ int_value s v' size' signed' (wrap signed' (size' * 8) z).
Proof.
  intros Hv Ht Hi. pose proof Hv as (from&w&Hfrom&(_&_&Hsize&f&Hf&_)&_). pose proof Hi as (_&_&_&f'&Hf'&_).
  unfold eval_cast. rewrite stm_bind_run, (type_info_run _ _ _ Hfrom). srun. rewrite (type_info_run _ _ _ Ht). srun.
  rewrite Hf, Hf'. cbn [is_reinterpretable negb]. srun. rewrite (to_basic_int _ _ _ _ _ _ Hv). srun.
  rewrite (from_basic_int _ _ _ _ _ signed z Ht Hi).
  - srun. eexists. split; [reflexivity|]. split; [done|]. apply (int_value_new _ _ t); [done..|].
    by apply remove_flag_contains.
  - eapply (in_range_mono _ (size * 8)); [lia|]. by eapply int_value_range.
Qed.

(** ** Pointers *)

(** A pointer to address [a], whose elements have [stride] bytes. *)
Definition pointer_value (s : EvalState) (v : Value) (a : Z) (p : PointerType) (stride : Z) : Prop :=
  exists t, types s !! type_ v = Some t /\ sized t /\ t_size t = 8 /\ t_t t = TPointer p /\
    val v = Blob (new a) /\ is_u64 a /\ calculate_size (types s) (p_type p) = Ret stride /\ 0 < stride < 2 ^ 63.
Lemma in_isize_iff x : in_isize x = true <-> - 2 ^ 63 <= x < 2 ^ 63.
Proof. unfold in_isize. rewrite andb_true_iff, Z.leb_le, Z.ltb_lt. done. Qed.
Lemma element_size s v a p stride : pointer_value s v a p stride -> size_of (p_type p) s = (Ret stride, s).
Proof. intros (t&_&_&_&_&_&_&Hs&_). unfold size_of. srun. by rewrite Hs. Qed.

Section Pointers.
  Context (mem_read : Z -> Z -> result (list Z)).
  Context (s : EvalState) (v : Value) (a : Z) (p : PointerType) (stride : Z).
  Hypothesis Hv : pointer_value s v a p stride.

Lemma to_basic_pointer : to_basic mem_read v s = (Ret (U a), s).
Proof using Hv.
  destruct Hv as (t&Ht&Hs&Hsz&Hp&Hval&_). unfold to_basic.
  rewrite stm_bind_run, (strip_enum_run _ _ _ Ht) by (by rewrite Hp). srun. rewrite (type_info_run _ _ _ Ht). srun.
  rewrite (size_of_run _ _ _ Ht Hs) by lia. srun. rewrite Hsz. cbn [Z.ltb Z.eqb orb Z.compare Pos.compare Pos.compare_cont]. rewrite Hp.
  by rewrite Hval, stm_bind_run, word_of_new.
Qed.
Lemma pointer_type_info : exists t, type_info (type_ v) s = (Ret t, s) /\ t_t t = TPointer p.
Proof using Hv. destruct Hv as (t&Ht&_&_&Hp&_). exists t. split; [by apply type_info_run|done]. Qed.
(** The same pointer, moved. *)
Lemma pointer_moved b : is_u64 b -> pointer_value s (mkValue (Blob (new b)) (type_ v) 0) b p stride.
Proof using Hv. destruct Hv as (t&?&?&?&?&_&_&?&?). intros Hb. by exists t. Qed.

Context (w : Value) (size : Z) (sg : bool) (z : Z).
Hypothesis Hw : int_value s w size sg z.
Lemma int_type_info : exists t f, type_info (type_ w) s = (Ret t, s) /\ t_t t = TPrimitive f.
Proof using Hw. destruct Hw as (t&x&Ht&(_&_&_&f&Hf&_)&_). exists t, f. split; [by apply type_info_run|done]. Qed.
Lemma int_range64 : in_range sg 64 z.
Proof using Hw.
  pose proof (int_value_range _ _ _ _ _ Hw) as Hr. destruct Hw as (t&x&_&(_&_&?&_)&_). eapply in_range_mono; [|exact Hr]. lia.
Qed.
Lemma usize_mod : cast_to_usize (int_basic sg z) mod 2 ^ 64 = z mod 2 ^ 64.
Proof using Hw. pose proof int_range64. destruct sg; simpl in *; [apply Zmod_mod|done]. Qed.

Lemma eval_pointer_add : eval_binary mem_read Add v w s = (Ret (mkValue (Blob (new ((a + z * stride) mod 2 ^ 64))) (type_ v) 0), s).
Proof using Hv Hw.
  destruct pointer_type_info as (t&Ht&Hp), int_type_info as (u&f&Hu&Hf). cbn [eval_binary is_comparison]. srun.
  rewrite to_basic_pointer. srun. rewrite (to_basic_int _ _ _ _ _ _ Hw). srun. cbn [eval_arithmetic].
  change (bool_decide (Add = Sub)) with false. srun. unfold eval_add_sub. srun. rewrite Ht. srun. rewrite Hu. srun.
  rewrite Hp, Hf. cbn [as_pointer]. srun. unfold offset_pointer.
  assert (is_f64 (int_basic sg z) = false) as -> by (by destruct sg). srun. rewrite (element_size _ _ _ _ _ Hv). srun.
  do 4 f_equal. unfold wrapping_add, wrap64. cbn [cast_to_usize].
  by rewrite Zplus_mod_idemp_r, (Zplus_mod a), (Zmult_mod (cast_to_usize _)), usize_mod, <- Zmult_mod, <- Zplus_mod.
Qed.

Lemma isize_value : in_isize (z * stride) = true -> cast_to_isize (int_basic sg z) = z.
Proof using Hv Hw.
  intros Hz%in_isize_iff. destruct Hv as (t&_&_&_&_&_&_&_&Hstr). pose proof int_range64 as Hr.
  destruct sg; [done|]. simpl in *. unfold to_signed. rewrite (proj2 (Z.ltb_lt _ _)); [done|]. change (2 ^ (64 - 1)) with (2 ^ 63). nia.
Qed.
Lemma signed_address : wrap64 (to_signed 64 a + z * stride) = (a + z * stride) mod 2 ^ 64.
Proof using Type. unfold wrap64. by rewrite Zplus_mod, (to_signed_mod 64), <- Zplus_mod. Qed.
Lemma signed_stride : to_signed 64 stride = stride.
Proof using Hv.
  destruct Hv as (_&_&_&_&_&_&_&_&Hstr). unfold to_signed.
  by rewrite (proj2 (Z.ltb_lt _ _)) by (change (2 ^ (64 - 1)) with (2 ^ 63); lia).
Qed.
Lemma eval_pointer_index : in_isize (z * stride) = true -> in_isize (to_signed 64 a + z * stride) = true ->
  eval_binary mem_read Index v w s =
  (Ret (mkValue (Addr ((a + z * stride) mod 2 ^ 64)) (p_type p) (ValueFlags.inherit (flags v))), s).
Proof using Hv Hw.
  intros Hz Ha. destruct pointer_type_info as (t&Ht&Hp). cbn [eval_binary]. unfold eval_index. srun.
  rewrite (to_basic_int _ _ _ _ _ _ Hw). srun. assert (is_f64 (int_basic sg z) = false) as -> by (by destruct sg). srun.
  rewrite Ht. srun. rewrite Hp, isize_value by done. change (bool_decide (Index = Index)) with true. unfold index_pointer. srun.
  pose proof Hv as (_&_&_&_&_&Hval&_&_&Hstr). rewrite Hval, word_of_new by lia. srun. rewrite (element_size _ _ _ _ _ Hv). srun.
  rewrite signed_stride, (proj2 (Z.eqb_neq _ _)) by lia. unfold isize_mul, isize_add. rewrite Hz. cbn [mbind option_bind]. rewrite Ha.
  by rewrite signed_address.
Qed.
Lemma pointer_distance : in_isize (z * stride) = true ->
  to_signed 64 (wrapping_sub ((a + z * stride) mod 2 ^ 64) a) = z * stride.
Proof using Type.
  intros Hz%in_isize_iff. unfold wrapping_sub, wrap64. rewrite Zminus_mod_idemp_l, Z.add_simpl_l. apply to_signed_inj; [done|exact Hz].
Qed.
End Pointers.

Section PointerDifference.
  Context (mem_read : Z -> Z -> result (list Z)).
  Context (s : EvalState) (v q : Value) (a : Z) (p : PointerType) (stride z : Z).
  Hypothesis (Hv : pointer_value s v a p stride) (Hq : pointer_value s q ((a + z * stride) mod 2 ^ 64) p stride).
Lemma eval_pointer_difference : in_isize (z * stride) = true ->
  eval_binary mem_read Sub q v s = (Ret (mkValue (Blob (new (wrap64 z))) (i64_ (builtin_types s)) 0), s).
Proof using Hv Hq.
  intros Hz. destruct (pointer_type_info _ _ _ _ _ Hv) as (t&Ht&Hp), (pointer_type_info _ _ _ _ _ Hq) as (u&Hu&Hqp).
  pose proof Hv as (_&_&_&_&_&_&_&_&Hstr). cbn [eval_binary is_comparison]. srun.
  rewrite (to_basic_pointer _ _ _ _ _ _ Hq). srun. rewrite (to_basic_pointer _ _ _ _ _ _ Hv). srun. cbn [eval_arithmetic].
  change (bool_decide (Sub = Sub)) with true. srun. unfold eval_add_sub. srun. rewrite Hu. srun. rewrite Ht. srun.
  rewrite Hp, Hqp. cbn [as_pointer]. srun. unfold subtract_pointers. srun. rewrite (element_size _ _ _ _ _ Hv). srun.
  rewrite (element_size _ _ _ _ _ Hv). srun. rewrite Z.eqb_refl, (proj2 (Z.eqb_neq _ _)) by lia. cbn [negb cast_to_usize].
  rewrite pointer_distance, (signed_stride _ _ _ _ _ Hv) by done. unfold isize_rem, isize_div.
  rewrite (proj2 (Z.eqb_neq stride 0)), (proj2 (Z.eqb_neq stride (-1))), andb_false_r by lia. cbn [orb]. srun.
  rewrite Z.rem_mul, Z.quot_mul by lia. cbn [Z.eqb negb]. srun. done.
Qed.
End PointerDifference.

(** Pointer arithmetic counts elements: [p + n] is the pointer [n] elements
    further, [p[n]] is the element at that address, and subtracting [p] from
    [p + n] gives [n] back, as an [i64]; for every element size and every
    integer type of [n], when the distance fits an [isize]. *)
Theorem pointer_arithmetic mem_read s v w a p stride size sg n t :
  pointer_value s v a p stride -> int_value s w size sg n ->
  types s !! i64_ (builtin_types s) = Some t -> int_type t 8 true ->
  in_isize (n * stride) = true -> in_isize (to_signed 64 a + n * stride) = true ->
  let b := (a + n * stride) mod 2 ^ 64 in
  exists q d,
    eval_binary mem_read Add v w s = (Ret q, s) /\ pointer_value s q b p stride /\
    eval_binary mem_read Index v w s = (Ret (mkValue (Addr b) (p_type p) (ValueFlags.inherit (flags v))), s) /\
    eval_binary mem_read Sub q v s = (Ret d, s) /\ int_value s d 8 true n.
Proof.
  intros Hv Hw Ht Hi Hz Ha b. assert (Hb : is_u64 b) by (apply Z.mod_pos_bound; lia).
  pose proof (pointer_moved _ _ _ _ _ Hv b Hb) as Hq. eexists _, _.
  split; [exact (eval_pointer_add mem_read _ _ _ _ _ Hv _ _ _ _ Hw)|]. split; [exact Hq|].
  split; [exact (eval_pointer_index mem_read _ _ _ _ _ Hv _ _ _ _ Hw Hz Ha)|].
  split; [exact (eval_pointer_difference mem_read _ _ _ _ _ _ _ Hv Hq Hz)|].
  assert (n = wrap true (8 * 8) n) as Hn.
  { symmetry. apply wrap_in_range; [lia|]. apply in_isize_iff in Hz. destruct Hv as (_&_&_&_&_&_&_&_&?). simpl. nia. }
  rewrite Hn at 2. by apply (int_value_new _ _ t).
Qed.

(** ** Concrete instances *)

(** The types of a new session and, at the end, pointers to 32-bit integers. *)
Definition sample_state : EvalState :=
  let '(b, ts) := add_builtins [] in
  let ts := match add_pointer ts (i32_ b) 0 with (_, ts) => ts end in
  mkEval ts b [] MemReader.new false.
Definition sample_value (word : Z) (ty : BuiltinTypes -> TypePtr) : Value :=
  mkValue (Blob (new word)) (ty (builtin_types sample_state)) 0.
Definition sample_pointer (a : Z) : Value := mkValue (Blob (new a)) (length (types sample_state) - 1)%nat 0.
Ltac sample_integer := eexists _, _; split; [reflexivity|]; split;
  [split; [reflexivity|]; split; [reflexivity|]; split; [lia|]; eexists; split_and!; reflexivity|];
  split_and!; try reflexivity; split; [unfold is_u64; cbn; lia|reflexivity].

(** A signed byte of -1, with junk above it, is 65535 as a [u16]. *)
Lemma integer_cast_wraps_witness :
  exists v', eval_cast (fun _ _ => Panic) (sample_value 0xABFF i8_) (u16_ (builtin_types sample_state)) sample_state
      = (Ret v', sample_state) /\
    type_ v' = u16_ (builtin_types sample_state) /\ int_value sample_state v' 2 false 65535.
Proof.
  apply (integer_cast_wraps (fun _ _ => Panic) sample_state (sample_value 0xABFF i8_) _
    (mkType (str "u16") 2 (Z.lor TypeFlags.SIZE_KNOWN TypeFlags.BUILTIN) (TPrimitive 0)) 1 true (-1) 2 false).
  - sample_integer.
  - reflexivity.
  - split; [reflexivity|]. split; [reflexivity|]. split; [lia|]. eexists. split_and!; reflexivity.
Defined.
(** A pointer to [i32] at the address 4096, three elements before it. *)
Lemma pointer_arithmetic_witness :
  exists q d,
    eval_binary (fun _ _ => Panic) Add (sample_pointer 4096) (sample_value 0xFD i8_) sample_state = (Ret q, sample_state) /\
    pointer_value sample_state q 4084 (mkPointer 0 (i32_ (builtin_types sample_state))) 4 /\
    eval_binary (fun _ _ => Panic) Index (sample_pointer 4096) (sample_value 0xFD i8_) sample_state
      = (Ret (mkValue (Addr 4084) (i32_ (builtin_types sample_state)) 0), sample_state) /\
    eval_binary (fun _ _ => Panic) Sub q (sample_pointer 4096) sample_state = (Ret d, sample_state) /\
    int_value sample_state d 8 true (-3).
Proof.
  apply (pointer_arithmetic (fun _ _ => Panic) sample_state (sample_pointer 4096) (sample_value 0xFD i8_) 4096
    (mkPointer 0 (i32_ (builtin_types sample_state))) 4 1 true (-3)
    (mkType (str "i64") 8 (Z.lor TypeFlags.SIZE_KNOWN TypeFlags.BUILTIN) (TPrimitive PrimitiveFlags.SIGNED))).
  - eexists. split; [reflexivity|]. split_and!; try reflexivity; unfold is_u64; lia.
  - sample_integer.
  - reflexivity.
  - split; [reflexivity|]. split; [reflexivity|]. split; [lia|]. eexists. split_and!; reflexivity.
  - reflexivity.
  - reflexivity.
Defined.
(** The length of a slice comes from the debuggee; its size in bytes is
    computed without a guard. *)
Example slice_cast_overflow_panics :
  let '(b, ts) := add_builtins [] in
  let '(slice, ts) := add_slice ts (i32_ b) 0 in
  let '(array, ts) := match add_array ts (u8_ b) None 0 with Ret (a, ts) => (a, ts) | _ => (0%nat, ts) end in
  (eval_cast (fun _ _ => Panic) (mkValue (Blob (from_two_usizes 4096 (2 ^ 62))) slice 0) array
     (mkEval ts b [] MemReader.new false)).1 = Panic.
Proof. vm_compute. reflexivity. Qed.
