(* ===== verification/ExprEval.v ===== *)
(** The interpreter of watch expressions (src/interp.rs): it walks the syntax
    tree of ExprParser.v and applies the operators of ExprValues.v. What it
    asks of the symbols, the pretty printers and the reflection of types is the
    interface [Debuggee]. *)
From Stdlib Require Import ZArith Lia String.
From stdpp Require Import base list.
From S2P Require Import Prelude RustStr Errors StateMonad Serial Floats ExprLexer ExprParser MemReader ValueBlob Types ExprValues.
Open Scope Z_scope.

(** What evaluation needs of other components: the lookup of names in the
    symbols ([EvalState::get_variable], [get_type] of src/expr.rs), the
    recognition of containers behind [prettify_value] of src/pretty.rs ([Some]
    when the struct is replaced), and [reflect_meta_value] of src/expr.rs. *)
Class Debuggee := {
  get_variable : list Z -> bool -> bool -> bool -> bool -> estm Value;
  get_type : list Z -> estm TypePtr;
  prettify_struct : Value -> estm (option Value);
  reflect_meta_value : Value -> estm Value
}.

(** [HashMap::get] and [insert] *)
Fixpoint variable_get (vs : list (list Z * Value)) (name : list Z) : option Value :=
  match vs with
  | [] => None
  | (n, v) :: vs => if bool_decide (n = name) then Some v else variable_get vs name
  end.
Definition variable_insert (name : list Z) (v : Value) (vs : list (list Z * Value)) : list (list Z * Value) :=
  (name, v) :: filter (fun x => x.1 <> name) vs.

Section Eval.
  Context (mem_read : Z -> Z -> result (list Z)) {D : Debuggee}.

(** [prettify_value] leaves everything but structs alone. *)
Definition prettify_value (v : Value) : estm (option Value) :=
  if contains (flags v) ValueFlags.NO_UNWRAPPING_INTERNAL then mret None
  else
    t ← type_info (type_ v);
    match t_t t with TStruct _ => prettify_struct v | _ => mret None end.
(** The value, and what it was before it was prettified. *)
Fixpoint follow_loop (n : nat) (pointers_too : bool) (v : Value) (additional : list Value) : estm (Value * list Value) :=
  match n with
  | O => sfail (Code Sanity)
  | S n =>
      t ← type_info (type_ v);
      if is_meta (t_t t) then v ← reflect_meta_value v; mret (v, additional)
      else
        '(v, additional) ←
          (if contains (flags v) ValueFlags.RAW then mret (v, additional)
           else
             o ← prettify_value v;
             match o with Some v' => mret (v', additional ++ [v]) | None => mret (v, additional) end);
        t ← type_info (type_ v);
        match t_t t with
        | TPointer p =>
            if contains (p_flags p) PointerFlags.REFERENCE || pointers_too then
              addr ← word_of mem_read (val v) 8;
              follow_loop n pointers_too (mkValue (Addr addr) (p_type p) (flags v)) additional
            else mret (v, additional)
        | _ => mret (v, additional)
        end
  end.
Definition follow_references_and_prettify (pointers_too : bool) (v : Value) : estm (Value * list Value) :=
  follow_loop 100 pointers_too v [].
Definition follow (pointers_too : bool) (v : Value) : estm Value :=
  '(v, _) ← follow_references_and_prettify pointers_too v; mret v.

(** ** Types and fields *)

Fixpoint eval_type (e : Expression) (fuel : nat) (i : ASTIdx) : estm TypePtr :=
  match fuel with
  | O => spanic
  | S fuel =>
      n ← sopt (ast e !! i);
      match node n with
      | Type_ name _ => get_type name
      | ExprParser.PointerType =>
          c ← sopt (children n !! 0%nat);
          inner ← eval_type e fuel c;
          alloc (fun ts => add_pointer ts inner 0)
      | ExprParser.ArrayType len =>
          c ← sopt (children n !! 0%nat);
          inner ← eval_type e fuel c;
          alloc_array inner len 0
      | _ => spanic
      end
  end.

Definition struct_field (v : Value) (f : Types.StructField) : estm Value :=
  type_bytes ← size_of (f_type f);
  ts ← sget types;
  bits ← slift (widen (calculate_bit_size ts f));
  x ← on_memory (get_struct_field mem_read (val v) (ValueBlob.mkField type_bytes bits (f_bit_offset f)));
  mret (mkValue x (f_type f) (ValueFlags.inherit (flags v))).
(** The fields that change how a value is interpreted and shown. *)
Definition format_field (name : list Z) (f : Z) : option Z :=
  if bool_decide (name = text "#r") then
    Some (if contains f ValueFlags.PRETTY then remove_flag f ValueFlags.PRETTY else insert_flag f ValueFlags.RAW)
  else if bool_decide (name = text "#p") then
    Some (if contains f ValueFlags.RAW then remove_flag f ValueFlags.RAW else insert_flag f ValueFlags.PRETTY)
  else if bool_decide (name = text "#x") then Some (insert_flag f ValueFlags.HEX)
  else if bool_decide (name = text "#b") then Some (insert_flag f ValueFlags.BIN)
  else if bool_decide (name = text "#be") then Some (insert_flag f ValueFlags.BIG_ENDIAN)
  else if bool_decide (name = text "#le") then Some (remove_flag f ValueFlags.BIG_ENDIAN)
  else None.
Definition find_struct_field (s : StructType) (name : list Z) : option Types.StructField :=
  find (fun f => bool_decide (f_name f = utf8_encode name)) (st_fields s).
(** The first of the values that has the field. *)
Fixpoint find_field (vs : list Value) (name : list Z) (quoted : bool) : estm Value :=
  match vs with
  | [] => type_mismatch
  | v :: vs =>
      t ← type_info (type_ v);
      match t_t t with
      | TStruct s =>
          match find_struct_field s name with
          | Some f => struct_field v f
          | None => find_field vs name quoted
          end
      | TSlice _ =>
          if negb quoted && bool_decide (name = text "#len") then
            len ← on_memory (value_bit_range mem_read (val v) 64 128); blob_value len u64_
          else find_field vs name quoted
      | TArray a =>
          if negb quoted && bool_decide (name = text "#len") then
            if negb (contains (a_flags a) ArrayFlags.LEN_KNOWN) then type_mismatch else blob_value (a_len a) u64_
          else find_field vs name quoted
      | _ => find_field vs name quoted
      end
  end.
Definition eval_field (v : Value) (name : list Z) (quoted : bool) : estm Value :=
  match (if quoted then None else format_field name (flags v)) with
  | Some f => mret (mkValue (val v) (type_ v) f)
  | None =>
      '(v, additional) ← follow_references_and_prettify true v;
      find_field (v :: rev additional) name quoted
  end.
Definition eval_tuple_index (v : Value) (i : Z) : estm Value :=
  v ← follow true v;
  t ← type_info (type_ v);
  match t_t t with
  | TStruct s =>
      if zlen (st_fields s) <=? i then type_mismatch
      else f ← sopt (zget (st_fields s) i); struct_field v f
  | _ => type_mismatch
  end.

(** A value that stands for a type. *)
Definition type_value (p : TypePtr) : estm Value :=
  t ← alloc (fun ts => add_type ts (mkType (str "type") 8 TypeFlags.SIZE_KNOWN TMetaType));
  mret (mkValue (Blob (new (Z.of_nat p))) t 0).

(** ** Expressions *)

Section Step.
  (** The evaluation of subexpressions and types. *)
  Variable ev : bool -> ASTIdx -> estm Value.
  Variable et : ASTIdx -> estm TypePtr.

Definition child (n : ASTNode) (i : nat) : estm ASTIdx := sopt (children n !! i).
Definition eval_child (n : ASTNode) (i : nat) (only_type : bool) : estm Value := c ← child n i; ev only_type c.

Definition eval_variable (name : list Z) (quoted from_any_frame only_type : bool) : estm Value :=
  vs ← sget variables;
  match (if negb quoted && negb from_any_frame then variable_get vs name else None) with
  | Some v => mret v
  | None => get_variable name (negb quoted) from_any_frame only_type false
  end.
Definition eval_assign (e : Expression) (n : ASTNode) : estm Value :=
  c ← child n 0;
  t ← sopt (ast e !! c);
  match node t with
  | Variable_ name false false =>
      vs ← sget variables;
      _ ← match variable_get vs name with
          | Some _ => mret tt
          | None =>
              r ← stry (get_variable name true false true false);
              match r with
              | inr err => if is_code NoVariable err then mret tt else sfail err
              | inl _ => runtime_error
              end
          end;
      v ← eval_child n 1 false;
      v ← (if contains (flags v) ValueFlags.PRETTY then follow false v else mret v);
      _ ← smodify (fun s => set_variables (variable_insert name v (variables s)) s);
      mret v
  | Variable_ _ _ _ | Field _ _ | TupleIndexing _ => sfail (Code NotImplemented)
  | _ => sfail (Code Syntax)
  end.
Fixpoint eval_try (cs : list ASTIdx) : estm Value :=
  match cs with
  | [] => blob_value 0 u64_
  | c :: cs => r ← stry (ev false c); match r with inl v => mret v | inr _ => eval_try cs end
  end.
Definition eval_call (e : Expression) (n : ASTNode) (name : list Z) : estm Value :=
  if bool_decide (name = text "typeof") then
    if negb (List.length (children n) =? 1)%nat then type_mismatch
    else
      v ← eval_child n 0 true;
      v ← (if contains (flags v) ValueFlags.PRETTY then follow true v else mret v);
      type_value (type_ v)
  else if bool_decide (name = text "var") then
    if negb (List.length (children n) =? 1)%nat then type_mismatch
    else
      c ← child n 0;
      t ← sopt (ast e !! c);
      match node t with
      | Variable_ name _ from_any_frame => get_variable name false from_any_frame false true
      | _ => sfail (Code Syntax)
      end
  else if bool_decide (name = text "try") then eval_try (children n)
  else sfail (Code NoFunction).

Definition eval_unary (op : UnaryOperator) (v : Value) : estm Value :=
  match op with
  | Dereference => eval_dereference mem_read v
  | Neg => eval_negate mem_read true v
  | Not => eval_negate mem_read false v
  | Borrow => spanic
  end.
Definition eval_step (e : Expression) (only_type : bool) (n : ASTNode) : estm Value :=
  match node n with
  | Literal v => literal_value v
  | Variable_ name quoted from_any_frame => eval_variable name quoted from_any_frame only_type
  | Field name quoted => v ← eval_child n 0 false; eval_field v name quoted
  | TupleIndexing i => v ← eval_child n 0 false; eval_tuple_index v i
  | UnaryOp Borrow => v ← eval_child n 0 only_type; eval_borrow only_type v
  | UnaryOp op => v ← eval_child n 0 false; v ← follow false v; eval_unary op v
  | TypeCast =>
      v ← eval_child n 0 false;
      v ← follow false v;
      c ← child n 1;
      t ← et c;
      eval_cast mem_read v t
  | ExprParser.TypeInfo => c ← child n 0; t ← et c; type_value t
  | BinaryOp Assign => eval_assign e n
  | BinaryOp op =>
      lhs ← eval_child n 0 false;
      lhs ← follow false lhs;
      let rhs := r ← eval_child n 1 false; follow false r in
      match op with
      | LazyAnd => eval_lazy mem_read true lhs rhs
      | LazyOr => eval_lazy mem_read false lhs rhs
      | _ => rhs ← rhs; eval_binary mem_read op lhs rhs
      end
  | Call name => eval_call e n name
  | Type_ _ _ | ExprParser.PointerType | ExprParser.ArrayType _ => spanic
  | _ => sfail (Code NotImplemented)
  end.
End Step.

Fixpoint eval_expression (e : Expression) (fuel : nat) (only_type : bool) (i : ASTIdx) : estm Value :=
  match fuel with
  | O => spanic
  | S fuel =>
      n ← sopt (ast e !! i);
      eval_step (eval_expression e fuel) (eval_type e fuel) e only_type n
  end.
Definition set_dubious (b : bool) (s : EvalState) : EvalState :=
  mkEval (types s) (builtin_types s) (variables s) (memory s) b.
Definition eval_parsed_expression (e : Expression) : estm (Value * bool) :=
  _ ← smodify (set_dubious false);
  v ← eval_expression e (S (List.length (ast e))) false (root e);
  d ← sget currently_evaluated_value_dubious;
  mret (v, d).
Definition eval_watch_expression {P : Powi} (s : list Z) : estm (Value * bool) :=
  e ← slift (parse_watch_expression s); eval_parsed_expression e.
End Eval.
