(* ===== verification/ExprEvalSpec.v ===== *)
(** What the interpreter of watch expressions computes: an arithmetic
    expression, from its text on, has the value of machine arithmetic. *)
From Stdlib Require Import ZArith Lia String.
From stdpp Require Import base list.
From S2P Require Import Prelude RustStr Errors StateMonad Serial LeBytes Floats ExprLexer ExprParser ExprRoundtrip MemReader ValueBlob ValueBlobSpec Types ExprValues ExprValuesSpec ExprEval.
Open Scope Z_scope.

(** ** Machine arithmetic *)

(** The values of arithmetic: numbers of 64 bits and truth values. *)
Inductive kind := Unsigned | Signed | Truth.
Definition is_signed (k : kind) : bool := match k with Signed => true | _ => false end.
Definition bytes_of (k : kind) : Z := match k with Truth => 1 | _ => 8 end.
Definition flags_of (k : kind) : Z :=
  match k with Unsigned => 0 | Signed => PrimitiveFlags.SIGNED | Truth => PrimitiveFlags.BOOL end.
Definition word_kind (signed : bool) : kind := if signed then Signed else Unsigned.
Definition truth (b : bool) : option (kind * Z) := Some (Truth, Z.b2z b).

(** The operators between operands of any kinds: a number is signed when an
    operand is, and of the two's complement of 64 bits. *)
Definition arith_spec (op : BinaryOperator) (a b : kind * Z) : option (kind * Z) :=
  let s := is_signed a.1 || is_signed b.1 in
  let x := wrap s 64 a.2 in
  let y := wrap s 64 b.2 in
  let number z := Some (word_kind s, wrap s 64 z) in
  match op with
  | Add => number (x + y)
  | Sub => Some (Signed, wrap true 64 (x - y))
  | Mul => number (x * y)
  | Div => if y =? 0 then None else number (div_euclid x y)
  | Rem => if y =? 0 then None else number (rem_euclid x y)
  | BitAnd => number (Z.land x y)
  | BitOr => number (Z.lor x y)
  | BitXor => number (Z.lxor x y)
  | Shl => if (0 <=? b.2) && (b.2 <? 64) then Some (word_kind (is_signed a.1), wrap (is_signed a.1) 64 (a.2 * 2 ^ b.2)) else None
  | Shr => if (0 <=? b.2) && (b.2 <? 64) then Some (word_kind (is_signed a.1), a.2 / 2 ^ b.2) else None
  | OEq => truth (x =? y)
  | Ne => truth (negb (x =? y))
  | OLt => truth (x <? y)
  | OGt => truth (y <? x)
  | Le => truth (x <=? y)
  | Ge => truth (y <=? x)
  | _ => None
  end.
Definition negate_spec (a : kind * Z) : option (kind * Z) :=
  match a.1 with Truth => None | _ => Some (Signed, wrap true 64 (- a.2)) end.
Definition not_spec (a : kind * Z) : kind * Z :=
  match a.1 with Truth => (Truth, 1 - a.2) | k => (k, wrap (is_signed k) 64 (-1 - a.2)) end.
(** The value of an expression; [None] when its evaluation is an error. *)
Fixpoint denote (e : expr) : option (kind * Z) :=
  match e with
  | EInt n => Some (Unsigned, n)
  | EUnary Neg e => a ← denote e; negate_spec a
  | EUnary Not e => a ← denote e; Some (not_spec a)
  | EBinary LazyAnd a b => a ← denote a; if a.2 =? 0 then truth false else b ← denote b; truth (negb (b.2 =? 0))
  | EBinary LazyOr a b => a ← denote a; if a.2 =? 0 then b ← denote b; truth (negb (b.2 =? 0)) else truth true
  | EBinary op a b => a ← denote a; b ← denote b; arith_spec op a b
  | _ => None
  end.
(** The expressions of arithmetic. *)
Definition arith_op (op : BinaryOperator) : bool :=
  match op with
  | Add | Sub | Mul | Div | Rem | BitAnd | BitOr | BitXor | Shl | Shr | OEq | Ne | OGt | OLt | Ge | Le | LazyAnd | LazyOr => true
  | _ => false
  end.
Fixpoint arith (e : expr) : bool :=
  match e with
  | EInt n => (0 <=? n) && (n <? 2 ^ 64)
  | EUnary (Neg | Not) e => arith e
  | EBinary op a b => arith_op op && arith a && arith b
  | _ => false
  end.

(** ** Values in the interpreter *)

Definition number_type (t : TypeInfo) (k : kind) : Prop :=
  sized t /\ t_size t = bytes_of k /\ t_t t = TPrimitive (flags_of k).
Definition in_kind (a : kind * Z) : Prop :=
  match a.1 with Truth => a.2 = 0 \/ a.2 = 1 | k => in_range (is_signed k) 64 a.2 end.
Definition number (s : EvalState) (v : Value) (a : kind * Z) : Prop :=
  exists t, types s !! type_ v = Some t /\ number_type t a.1 /\ flags v = 0 /\
    val v = Blob (new (a.2 mod 2 ^ (bytes_of a.1 * 8))) /\ in_kind a.
(** The built-in types are what [add_builtins] makes. *)
Definition builtins_ok (s : EvalState) : Prop :=
  let has f k := exists t, types s !! f (builtin_types s) = Some t /\ number_type t k in
  has u64_ Unsigned /\ has i64_ Signed /\ has bool_ Truth.
(** Evaluation only adds types. *)
Definition extends (s s' : EvalState) : Prop :=
  types s `prefix_of` types s' /\ builtin_types s' = builtin_types s /\
  currently_evaluated_value_dubious s' = currently_evaluated_value_dubious s.

Lemma in_kind_range a : in_kind a -> in_range (is_signed a.1) (bytes_of a.1 * 8) a.2.
Proof. destruct a as [[] z]; cbn; [done|done|lia]. Qed.
Lemma extends_refl s : extends s s.
Proof. by split. Qed.
Lemma extends_trans a b c : extends a b -> extends b c -> extends a c.
Proof. intros (?&?&?) (?&?&?). split; [by etrans|]. split; congruence. Qed.
Lemma extends_type s s' p t : extends s s' -> types s !! p = Some t -> types s' !! p = Some t.
Proof. intros [Hp _] Ht. by eapply prefix_lookup_Some. Qed.
Lemma extends_number s s' v a : extends s s' -> number s v a -> number s' v a.
Proof. intros He (t&Ht&H). exists t. split; [by eapply extends_type|done]. Qed.
Lemma extends_builtins s s' : extends s s' -> builtins_ok s -> builtins_ok s'.
Proof.
  intros He ((t1&H1&?)&(t2&H2&?)&(t3&H3&?)). pose proof He as (_&Hb&_). unfold builtins_ok. rewrite Hb.
  split_and!; eexists; (split; [by eapply extends_type|done]).
Qed.
Lemma number_int_type t k : number_type t k -> int_type t (bytes_of k) (is_signed k).
Proof. intros (?&?&?). split; [done|]. split; [done|]. split; [by destruct k|]. exists (flags_of k). by destruct k. Qed.
Lemma number_int_value s v a : number s v a -> int_value s v (bytes_of a.1) (is_signed a.1) a.2.
Proof.
  intros (t&Ht&Hn&Hf&Hv&Hr%in_kind_range). exists t, (a.2 mod 2 ^ (bytes_of a.1 * 8)). split; [done|]. split; [by apply number_int_type|].
  split; [done|]. split; [by rewrite Hf|]. split.
  - pose proof (Z.mod_pos_bound a.2 (2 ^ (bytes_of a.1 * 8)) ltac:(by destruct a.1)). unfold is_u64.
    assert (2 ^ (bytes_of a.1 * 8) <= 2 ^ 64) by (by destruct a.1). lia.
  - unfold wrap. rewrite Zmod_mod. symmetry. apply (wrap_in_range (is_signed a.1)); [by destruct a.1|done].
Qed.

(** ** Running the interpreter on numbers *)

(** The computation returns the value, or ends with an error for [None]; it
    only adds types. *)
Definition evaluates (m : estm Value) (o : option (kind * Z)) (s : EvalState) : Prop :=
  match o with
  | Some a => returns m (fun v s' => number s' v a /\ extends s s') s
  | None => exists e s', m s = (Fail e, s')
  end.
Lemma evaluates_bind m f o g s :
  evaluates m o s ->
  (forall a v s', o = Some a -> number s' v a -> extends s s' -> evaluates (f v) (g a) s') ->
  evaluates (m ≫= f) (o ≫= g) s.
Proof.
  intros Hm Hf. destruct o as [a|]; simpl in *.
  - unfold returns in Hm. destruct (m s) as [[v| |] s'] eqn:E; [|done|done]. destruct Hm as [Hn He].
    specialize (Hf a v s' eq_refl Hn He). destruct (g a) as [b|]; simpl in *.
    + apply returns_bind. unfold returns at 1. rewrite E. eapply returns_mono; [exact Hf|]. intros w s2 [Hw He2].
      split; [done|]. by eapply extends_trans.
    + rewrite stm_bind_run, E. done.
  - destruct Hm as (e&s'&Hm). exists e, s'. by rewrite stm_bind_run, Hm.
Qed.
(** A step that only looks. *)
Lemma evaluates_step {A} (m : estm A) a f o s : m s = (Ret a, s) -> evaluates (f a) o s -> evaluates (m ≫= f) o s.
Proof.
  intros Hm Hf. destruct o as [b|]; simpl in *.
  - apply returns_bind. unfold returns at 1. by rewrite Hm.
  - by rewrite stm_bind_run, Hm.
Qed.
Lemma evaluates_ret s v a : number s v a -> evaluates (mret v) (Some a) s.
Proof. intros H. apply returns_ret. split; [done|apply extends_refl]. Qed.
Lemma evaluates_fail e s : evaluates (sfail e) None s.
Proof. by exists e, s. Qed.

(** A word of a built-in type. *)
Lemma evaluates_word w f s t a :
  types s !! f (builtin_types s) = Some t -> number_type t a.1 -> in_kind a ->
  w = a.2 mod 2 ^ (bytes_of a.1 * 8) -> evaluates (blob_value w f) (Some a) s.
Proof. intros Ht Hn Hr ->. apply evaluates_ret. by exists t. Qed.
Lemma evaluates_truth (b : bool) s : builtins_ok s -> evaluates (blob_value (Z.b2z b) bool_) (truth b) s.
Proof. intros (_&_&t&Ht&Hn). apply (evaluates_word _ _ _ t); [done|done|destruct b; [by right|by left]|by destruct b]. Qed.
Lemma evaluates_number signed z s : builtins_ok s ->
  evaluates (number_value (int_basic signed (wrap signed 64 z))) (Some (word_kind signed, wrap signed 64 z)) s.
Proof.
  intros ((t1&H1&N1)&(t2&H2&N2)&_). pose proof (wrap_range signed 64 z ltac:(lia)) as Hr. unfold number_value.
  destruct signed.
  - by apply (evaluates_word _ _ _ t2).
  - apply (evaluates_word _ _ _ t1); [done|done|done|]. cbn [int_basic transmute_to_usize word_kind bytes_of fst snd].
    symmetry. by apply Z.mod_small.
Qed.
(** The operands as numbers of 64 bits. *)
Lemma cast_to_usize_int signed z : in_range signed 64 z -> cast_to_usize (int_basic signed z) = z mod 2 ^ 64.
Proof. destruct signed; simpl; intros H; [done|]. symmetry. by apply Z.mod_small. Qed.
Lemma cast_to_isize_int signed z : in_range signed 64 z -> cast_to_isize (int_basic signed z) = wrap true 64 z.
Proof.
  destruct signed; simpl; intros H; [symmetry; by apply (wrap_in_range true 64)|].
  unfold wrap. by rewrite Z.mod_small.
Qed.
Lemma is_f64_int signed z : is_f64 (int_basic signed z) = false.
Proof. by destruct signed. Qed.
Lemma is_isize_int signed z : is_isize (int_basic signed z) = signed.
Proof. by destruct signed. Qed.
#[export] Hint Rewrite is_f64_int is_isize_int : srun.

Lemma signed64_wrap z : signed64 z = wrap true 64 z.
Proof. done. Qed.
Lemma wrap_congr s bits x y : 0 < bits -> x mod 2 ^ bits = y mod 2 ^ bits -> wrap s bits x = wrap s bits y.
Proof. intros _ H. unfold wrap. by rewrite H. Qed.

Section Operands.
  (** Two operands in the range of 64 bits. *)
  Context (sa sb : bool) (a b : Z).
  Hypotheses (Ha : in_range sa 64 a) (Hb : in_range sb 64 b).
  Abbreviation s := (sa || sb).
  Abbreviation x := (wrap s 64 a).
  Abbreviation y := (wrap s 64 b).

Lemma operand_mod : x mod 2 ^ 64 = a mod 2 ^ 64 /\ y mod 2 ^ 64 = b mod 2 ^ 64.
Proof using Type. split; apply wrap_mod; lia. Qed.
Lemma add_numbers_int (sub : bool) :
  add_numbers sub (int_basic sa a) (int_basic sb b) =
  int_basic (sub || s) (wrap (sub || s) 64 (if sub then x - y else x + y)).
Proof using Ha Hb.
  destruct operand_mod as [Hx Hy]. unfold add_numbers. rewrite !is_f64_int, !is_isize_int, !cast_to_usize_int, !cast_to_isize_int by done. cbn [orb].
  destruct sub; cbn [orb].
  - cbn [int_basic]. f_equal.
    change (wrap true 64 (a mod 2 ^ 64 - b mod 2 ^ 64) = wrap true 64 (x - y)). apply wrap_congr; [lia|].
    by rewrite <- Zminus_mod, (Zminus_mod a b), (Zminus_mod x y), Hx, Hy.
  - by destruct s.
Qed.

Lemma wrap_zero : (b mod 2 ^ 64 =? 0) = (y =? 0).
Proof using Hb a.
  destruct operand_mod as [_ Hy]. destruct (Z.eqb_spec (b mod 2 ^ 64) 0) as [E|E], (Z.eqb_spec y 0) as [F|F]; try done.
  - exfalso. rewrite <- Hy in E. pose proof (wrap_range s 64 b ltac:(lia)) as Hr.
    rewrite <- (wrap_in_range s 64 y) in F by (done || lia). apply F. unfold wrap at 1. rewrite E. by destruct s.
  - exfalso. rewrite F in Hy. rewrite <- Hy in E. done.
Qed.
Lemma eval_mul_int op st : builtins_ok st ->
  evaluates (r ← eval_mul op (int_basic sa a) (int_basic sb b); number_value r)
    (match op with
     | OpMul => Some (word_kind s, wrap s 64 (x * y))
     | OpDiv => if y =? 0 then None else Some (word_kind s, wrap s 64 (div_euclid x y))
     | OpRem => if y =? 0 then None else Some (word_kind s, wrap s 64 (rem_euclid x y))
     end) st.
Proof using Ha Hb.
  intros Hst. unfold eval_mul. rewrite !is_f64_int, !is_isize_int, !cast_to_usize_int, !cast_to_isize_int by done. cbn [orb].
  rewrite wrap_zero. assert (Hok : forall z, evaluates (r ← mret (int_basic s (wrap s 64 z)); number_value r) (Some (word_kind s, wrap s 64 z)) st).
  { intros z. eapply evaluates_step; [done|]. by apply evaluates_number. }
  destruct (Z.eqb_spec y 0) as [Hy|Hy]; cbn [andb].
  - destruct op; [|by eexists _, _..].
    destruct s eqn:Es; cbn [int_basic]; (rewrite signed64_wrap || idtac); by apply Hok.
  - revert Hy. destruct s eqn:Es; intros Hy; [rewrite signed64_wrap; destruct op; apply Hok|].
    change (wrap false 64 a) with (a mod 2 ^ 64) in *. change (wrap false 64 b) with (b mod 2 ^ 64) in *.
    pose proof (Z.mod_pos_bound a (2 ^ 64) ltac:(lia)) as HX. pose proof (Z.mod_pos_bound b (2 ^ 64) ltac:(lia)) as HY.
    set (X := a mod 2 ^ 64) in *. set (Y := b mod 2 ^ 64) in *.
    assert (Hu : forall q, 0 <= q < 2 ^ 64 -> U q = int_basic false (wrap false 64 q)).
    { intros q Hq. cbn [int_basic]. f_equal. symmetry. by apply Z.mod_small. }
    destruct op; [apply Hok|..].
    + assert (div_euclid X Y = X / Y) as -> by (unfold div_euclid; by rewrite (proj2 (Z.ltb_lt 0 Y)) by lia).
      rewrite Hu; [apply Hok|]. split; [apply Z.div_pos; lia|apply Z.div_lt_upper_bound; nia].
    + assert (rem_euclid X Y = X mod Y) as -> by (unfold rem_euclid; by rewrite Z.abs_eq by lia).
      rewrite Hu; [apply Hok|]. pose proof (Z.mod_pos_bound X Y). lia.
Qed.

Lemma eval_bits_int op f st : builtins_ok st ->
  (forall c d n, Z.testbit (op c d) n = f (Z.testbit c n) (Z.testbit d n)) -> f false false = false ->
  evaluates (r ← eval_bits op (int_basic sa a) (int_basic sb b); number_value r) (Some (word_kind s, wrap s 64 (op x y))) st.
Proof using Ha Hb.
  intros Hst Hop Hf. destruct operand_mod as [Hx Hy].
  assert (Hmod : op (a mod 2 ^ 64) (b mod 2 ^ 64) = op x y mod 2 ^ 64).
  { rewrite <- Hx, <- Hy. apply Z.bits_inj'. intros n Hn. rewrite Hop.
    destruct (Z.ltb_spec n 64); [by rewrite !Z.mod_pow2_bits_low, Hop by lia|by rewrite !Z.mod_pow2_bits_high by lia]. }
  unfold eval_bits. rewrite !is_f64_int, !is_isize_int, !cast_to_usize_int by done. cbn [orb]. rewrite Hmod.
  eapply evaluates_step; [done|]. change (if s then I (to_signed 64 (op x y mod 2 ^ 64)) else U (op x y mod 2 ^ 64)) with
    (if s then I (wrap true 64 (op x y)) else U (wrap false 64 (op x y))).
  assert ((if s then I (wrap true 64 (op x y)) else U (wrap false 64 (op x y))) = int_basic s (wrap s 64 (op x y))) as ->
    by (by destruct s). by apply evaluates_number.
Qed.
Lemma eval_shift_int (left : bool) st : builtins_ok st ->
  evaluates (r ← eval_shift left (int_basic sa a) (int_basic sb b); number_value r)
    (if (0 <=? b) && (b <? 64)
     then Some (word_kind sa, if left then wrap sa 64 (a * 2 ^ b) else a / 2 ^ b) else None) st.
Proof using Ha Hb.
  intros Hst. unfold eval_shift. rewrite !is_f64_int, cast_to_usize_int by done. cbn [orb].
  assert (Hb' : (64 <=? b mod 2 ^ 64) = negb ((0 <=? b) && (b <? 64))).
  { destruct (Z.leb_spec 0 b); cbn [andb].
    - rewrite Z.mod_small by (destruct sb; simpl in Hb; lia). by rewrite Z.leb_antisym.
    - destruct sb; simpl in Hb; [|lia]. rewrite <- (Z_mod_plus_full b 1), Z.mod_small by lia. apply Z.leb_le. lia. }
  rewrite Hb'. destruct ((0 <=? b) && (b <? 64)) eqn:E; cbn [negb]; [|by eexists _, _].
  apply andb_prop in E as [E1%Z.leb_le E2%Z.ltb_lt]. rewrite (Z.mod_small b) by lia.
  assert (Hr : (if left then wrap sa 64 (a * 2 ^ b) else a / 2 ^ b) = wrap sa 64 (if left then a * 2 ^ b else a / 2 ^ b)).
  { destruct left; [done|]. symmetry. apply wrap_in_range; [lia|]. pose proof (Z.pow_pos_nonneg 2 b). destruct sa; simpl in *.
    - split; [apply Z.div_le_lower_bound; nia|apply Z.div_lt_upper_bound; nia].
    - split; [apply Z.div_pos; lia|apply Z.div_lt_upper_bound; nia]. }
  rewrite Hr. assert (Hgo : forall r, r = int_basic sa (wrap sa 64 (if left then a * 2 ^ b else a / 2 ^ b)) ->
    evaluates (r ← mret r; number_value r) (Some (word_kind sa, wrap sa 64 (if left then a * 2 ^ b else a / 2 ^ b))) st).
  { intros r ->. eapply evaluates_step; [done|]. by apply evaluates_number. }
  destruct sa; cbn [int_basic]; apply Hgo; cbn [int_basic]; f_equal; destruct left;
    rewrite ?signed64_wrap, ?Z.shiftl_mul_pow2, ?Z.shiftr_div_pow2 by lia; done.
Qed.
Lemma compare_numbers_int op st : builtins_ok st -> is_comparison op = true ->
  evaluates (compare_numbers op (int_basic sa a) (int_basic sb b))
    (truth (match op with
            | OEq => x =? y | Ne => negb (x =? y) | OLt => x <? y | OGt => y <? x | Le => x <=? y | _ => y <=? x
            end)) st.
Proof using Ha Hb.
  intros Hst Hop. unfold compare_numbers. rewrite !is_f64_int, !is_isize_int, !cast_to_usize_int, !cast_to_isize_int by done. cbn [orb].
  assert (Hc : (if s then Some (wrap true 64 a ?= wrap true 64 b) else Some (a mod 2 ^ 64 ?= b mod 2 ^ 64)) = Some (x ?= y)) by (by destruct s).
  rewrite Hc. clear Hc. set (c := x) in *. set (d := y) in *. clearbody c d.
  match goal with |- evaluates _ (truth ?r) _ => assert (Hr : comparison_holds op (c ?= d) = mret r) end.
  { destruct (Z.compare_spec c d), op; try done; cbn [comparison_holds]; f_equal; symmetry;
      rewrite ?negb_true_iff, ?negb_false_iff, ?Z.eqb_eq, ?Z.eqb_neq, ?Z.ltb_lt, ?Z.ltb_ge, ?Z.leb_le, ?Z.leb_gt; lia. }
  rewrite Hr. eapply evaluates_step; [done|]. by apply evaluates_truth.
Qed.
End Operands.

Section Numbers.
  Context (mem_read : Z -> Z -> result (list Z)) {D : Debuggee}.

Lemma number_range64 s v a : number s v a -> in_range (is_signed a.1) 64 a.2.
Proof. intros (t&_&_&_&_&Hr%in_kind_range). eapply in_range_mono; [|exact Hr]. by destruct a.1. Qed.
Lemma to_basic_number s v a : number s v a -> to_basic mem_read v s = (Ret (int_basic (is_signed a.1) a.2), s).
Proof. intros H. by eapply to_basic_int, number_int_value. Qed.
Lemma number_type_info s v a : number s v a -> exists t, type_info (type_ v) s = (Ret t, s) /\ t_t t = TPrimitive (flags_of a.1).
Proof. intros (t&Ht&(_&_&Hp)&_). exists t. split; [by apply type_info_run|done]. Qed.
Lemma string_kind_number s v a : number s v a -> string_kind (type_ v) s = (Ret (false, false), s).
Proof. intros H. destruct (number_type_info s v a H) as (t&Ht&Hp). unfold string_kind. rewrite stm_bind_run, Ht, Hp. done. Qed.
Lemma eval_add_sub_number (sub : bool) s v w a b x y : number s v a -> number s w b ->
  eval_add_sub sub (type_ v) (type_ w) x y s = (Ret (inl (add_numbers sub x y)), s).
Proof.
  intros Hv Hw. destruct (number_type_info s v a Hv) as (t&Ht&Hp). destruct (number_type_info s w b Hw) as (u&Hu&Hq).
  unfold eval_add_sub. rewrite stm_bind_run, Ht, stm_bind_run, Hu, Hp, Hq. done.
Qed.

(** The operators that evaluate both operands. *)
Definition strict_op (op : BinaryOperator) : bool := match op with LazyAnd | LazyOr => false | _ => arith_op op end.
Lemma eval_binary_number op s v w a b : builtins_ok s -> number s v a -> number s w b -> strict_op op = true ->
  evaluates (eval_binary mem_read op v w) (arith_spec op a b) s.
Proof.
  intros Hs Hv Hw Hop. pose proof (number_range64 _ _ _ Hv) as Ra. pose proof (number_range64 _ _ _ Hw) as Rb.
  assert (Hgo : evaluates (eval_arithmetic op (type_ v) (type_ w) (int_basic (is_signed a.1) a.2) (int_basic (is_signed b.1) b.2))
    (arith_spec op a b) s -> evaluates (eval_binary mem_read op v w) (arith_spec op a b) s).
  { intros H. assert (Hn : (if is_comparison op then compare_strings mem_read op v w else mret None) s = (Ret None, s)).
    { destruct (is_comparison op); [|done]. unfold compare_strings.
      rewrite stm_bind_run, (string_kind_number _ _ _ Hv). cbn iota beta.
      rewrite stm_bind_run, (string_kind_number _ _ _ Hw). done. }
    unfold eval_binary. destruct op; try discriminate Hop; (eapply evaluates_step; [exact Hn|]);
      (eapply evaluates_step; [by apply to_basic_number|]); (eapply evaluates_step; [by apply to_basic_number|]); exact H. }
  apply Hgo. clear Hgo.
  destruct op; try discriminate Hop; cbn [eval_arithmetic arith_spec];
    try match goal with |- evaluates (compare_numbers ?o _ _) _ _ => exact (compare_numbers_int _ _ _ _ Ra Rb o s Hs eq_refl) end.
  - eapply evaluates_step; [by eapply eval_add_sub_number|]. cbv beta iota. rewrite add_numbers_int by done.
    change (bool_decide (Add = Sub)) with false. cbn [orb]. by apply evaluates_number.
  - eapply evaluates_step; [by eapply eval_add_sub_number|]. cbv beta iota. rewrite add_numbers_int by done.
    change (bool_decide (Sub = Sub)) with true. cbn [orb]. by apply (evaluates_number true).
  - apply (eval_mul_int _ _ _ _ Ra Rb OpMul s Hs).
  - apply (eval_mul_int _ _ _ _ Ra Rb OpDiv s Hs).
  - apply (eval_mul_int _ _ _ _ Ra Rb OpRem s Hs).
  - by apply (eval_bits_int _ _ _ _ Ra Rb Z.land andb s Hs); [apply Z.land_spec|].
  - by apply (eval_bits_int _ _ _ _ Ra Rb Z.lor orb s Hs); [apply Z.lor_spec|].
  - by apply (eval_bits_int _ _ _ _ Ra Rb Z.lxor xorb s Hs); [apply Z.lxor_spec|].
  - apply (eval_shift_int _ _ _ _ Ra Rb true s Hs).
  - apply (eval_shift_int _ _ _ _ Ra Rb false s Hs).
Qed.

(** ** Unary operators, references and truth values *)

Lemma evaluates_bind_ret {A B} (m : estm A) (k : A -> estm B) (f : B -> estm Value) o s :
  evaluates (m ≫= fun a => k a ≫= f) o s -> evaluates ((m ≫= k) ≫= f) o s.
Proof.
  assert (H : ((m ≫= k) ≫= f) s = (m ≫= fun a => k a ≫= f) s) by (rewrite !stm_bind_run; by destruct (m s) as [[] ?]).
  unfold evaluates, returns. by rewrite H.
Qed.
Lemma follow_number n pt s v a l : number s v a -> follow_loop mem_read (S n) pt v l s = (Ret (v, l), s).
Proof.
  intros H. pose proof H as (t&_&_&Hf&_). destruct (number_type_info s v a H) as (t'&Ht&Hp). cbn [follow_loop].
  assert (Hpv : prettify_value v s = (Ret None, s)).
  { unfold prettify_value. rewrite Hf. change (contains 0 ValueFlags.NO_UNWRAPPING_INTERNAL) with false. cbv iota.
    by rewrite stm_bind_run, Ht, Hp. }
  rewrite stm_bind_run, Ht, Hp. cbn [is_meta]. rewrite Hf. change (contains 0 ValueFlags.RAW) with false. cbv iota.
  rewrite stm_bind_run, stm_bind_run, Hpv, stm_ret_run, stm_bind_run, Ht, Hp. done.
Qed.
Lemma follow_run pt s v a : number s v a -> follow mem_read pt v s = (Ret v, s).
Proof. intros H. unfold follow, follow_references_and_prettify. by rewrite stm_bind_run, (follow_number 99 pt s v a). Qed.
Lemma evaluates_followed m o s : evaluates m o s -> evaluates (r ← m; follow mem_read false r) o s.
Proof.
  intros H. assert (o = o ≫= Some) as -> by (by destruct o). eapply evaluates_bind; [exact H|].
  intros a v s' _ Hv _. apply (evaluates_ret s'  v a) in Hv as Hr. unfold evaluates, returns in *. by rewrite (follow_run _ _ _ _ Hv).
Qed.

Lemma not_word x : 0 <= x < 2 ^ 64 -> Z.lxor U64_MAX x = 2 ^ 64 - 1 - x.
Proof.
  intros Hx. change U64_MAX with (Z.ones 64). change (2 ^ 64 - 1) with (Z.ones 64).
  assert (Hhigh : forall n, 64 <= n -> Z.testbit x n = false).
  { intros n Hn. rewrite <- (Z.mod_small x (2 ^ 64)) by done. apply Z.mod_pow2_bits_high. lia. }
  rewrite Z.sub_nocarry_ldiff; apply Z.bits_inj'; intros n Hn; rewrite Z.ldiff_spec, ?Z.lxor_spec, ?Z.bits_0, Z.testbit_ones_nonneg by lia;
    destruct (Z.ltb_spec n 64); rewrite ?Hhigh by lia; by destruct (Z.testbit x n).
Qed.
Lemma neg_word z : Z.land (wrapping_add (Z.lxor U64_MAX (z mod 2 ^ 64)) 1) U64_MAX = wrap true 64 (- z) mod 2 ^ 64.
Proof.
  pose proof (Z.mod_pos_bound z (2 ^ 64) ltac:(lia)). rewrite not_word by done. change U64_MAX with (Z.ones 64).
  rewrite Z.land_ones, (wrap_mod true 64) by lia. unfold wrapping_add, wrap64. rewrite Zmod_mod.
  replace (2 ^ 64 - 1 - z mod 2 ^ 64 + 1) with (0 - z mod 2 ^ 64 + 1 * 2 ^ 64) by lia.
  by rewrite Z_mod_plus_full, Zminus_mod_idemp_r.
Qed.
Lemma complement_word z : Z.land (Z.lxor U64_MAX (z mod 2 ^ 64)) U64_MAX = (-1 - z) mod 2 ^ 64.
Proof.
  pose proof (Z.mod_pos_bound z (2 ^ 64) ltac:(lia)). rewrite not_word by done. change U64_MAX with (Z.ones 64).
  rewrite Z.land_ones by lia. replace (2 ^ 64 - 1 - z mod 2 ^ 64) with (-1 - z mod 2 ^ 64 + 1 * 2 ^ 64) by lia.
  by rewrite Z_mod_plus_full, Zminus_mod_idemp_r.
Qed.
Lemma evaluates_alloc f t a w s :
  f (types s) = (List.length (types s), types s ++ [t]) -> number_type t a.1 -> in_kind a -> w = a.2 mod 2 ^ (bytes_of a.1 * 8) ->
  evaluates (p ← alloc f; mret (mkValue (Blob (new w)) p 0)) (Some a) s.
Proof.
  intros Hf Hn Hk ->. unfold evaluates, returns. rewrite stm_bind_run. unfold alloc. rewrite Hf. cbn. split.
  - exists t. cbn. split; [|done]. by rewrite lookup_app_r, Nat.sub_diag.
  - split; [by apply prefix_app_r|done].
Qed.
Lemma eval_negate_number (neg : bool) s v a : number s v a ->
  evaluates (eval_negate mem_read neg v) (if neg then negate_spec a else Some (not_spec a)) s.
Proof.
  intros H. pose proof H as (t&Ht&Hn&Hf&Hv&Hk). pose proof Hn as (Hs&Hsz&Hp). destruct a as [k z]. cbn [fst snd] in *.
  unfold eval_negate. eapply evaluates_step; [by apply type_info_run|]. rewrite Hp.
  assert (contains (flags_of k) PrimitiveFlags.UNSPECIFIED = false) as -> by (by destruct k).
  eapply evaluates_step; [apply (size_of_run _ _ _ Ht Hs); rewrite Hsz; by destruct k|]. rewrite Hsz.
  assert ((8 <? bytes_of k) || (bytes_of k =? 0) = false) as -> by (by destruct k).
  eapply evaluates_step; [rewrite Hv; apply word_of_new; by destruct k|].
  assert (contains (flags_of k) PrimitiveFlags.FLOAT = false) as -> by (by destruct k). rewrite Hf.
  assert (Hkeep : forall w z', in_kind (k, z') -> w = z' mod 2 ^ (bytes_of k * 8) ->
    evaluates (mret (mkValue (Blob (new w)) (type_ v) (remove_flag 0 ValueFlags.BIG_ENDIAN))) (Some (k, z')) s).
  { intros w z' Hz' ->. apply evaluates_ret. by exists t. }
  destruct k.
  - destruct neg.
    + change (contains (flags_of Unsigned) PrimitiveFlags.BOOL) with false. cbv iota zeta.
      apply (evaluates_alloc _ (mkType [] 8 TypeFlags.SIZE_KNOWN (TPrimitive 1))); [done|done|apply (wrap_range true); lia|].
      apply neg_word.
    + apply (Hkeep _ (wrap false 64 (-1 - z))); [apply (wrap_range false); lia|]. cbn [bytes_of].
      change (8 * 8) with 64. rewrite (wrap_mod false 64) by lia. apply complement_word.
  - destruct neg.
    + apply (Hkeep _ (wrap true 64 (- z))); [apply (wrap_range true); lia|]. apply neg_word.
    + apply (Hkeep _ (wrap true 64 (-1 - z))); [apply (wrap_range true); lia|]. cbn [bytes_of].
      change (8 * 8) with 64. rewrite (wrap_mod true 64) by lia. apply complement_word.
  - destruct neg; [by eexists _, _|]. apply (Hkeep _ (1 - z)); destruct Hk as [Hz|Hz]; cbn in Hz |- *; subst z; auto.
Qed.

Lemma usize_zero s v a : number s v a -> (cast_to_usize (int_basic (is_signed a.1) a.2) =? 0) = (a.2 =? 0).
Proof.
  intros H. pose proof (number_range64 _ _ _ H) as Hr. rewrite cast_to_usize_int by done.
  destruct (Z.eqb_spec a.2 0) as [->|Hne]; [done|]. apply Z.eqb_neq. intros E. apply Hne.
  rewrite <- (wrap_in_range _ 64 _ ltac:(lia) Hr). unfold wrap. rewrite E. by destruct (is_signed a.1).
Qed.
Lemma eval_lazy_number (is_and : bool) s v a rhs o : builtins_ok s -> number s v a ->
  evaluates rhs o s ->
  evaluates (eval_lazy mem_read is_and v rhs)
    (if eqb (negb (a.2 =? 0)) is_and then o ≫= (fun b => truth (negb (b.2 =? 0))) else truth (negb is_and)) s.
Proof.
  intros Hs Hv Hr. unfold eval_lazy. eapply evaluates_step; [by apply to_basic_number|]. rewrite (usize_zero s v a Hv).
  destruct (eqb (negb (a.2 =? 0)) is_and) eqn:E.
  - apply evaluates_bind_ret. eapply evaluates_bind; [exact Hr|]. intros b w s' _ Hw He.
    apply evaluates_bind_ret. eapply evaluates_step; [by apply to_basic_number|]. rewrite (usize_zero s' w b Hw).
    eapply evaluates_step; [done|]. apply evaluates_truth. by eapply extends_builtins.
  - eapply evaluates_step; [done|]. apply eqb_false_iff in E. assert (negb (a.2 =? 0) = negb is_and) as ->
      by (by destruct (negb (a.2 =? 0)), is_and). by apply evaluates_truth.
Qed.

(** ** Trees *)

Fixpoint depth (e : expr) : nat :=
  match e with
  | EInt _ | EVar _ _ => 1
  | EUnary _ e | EField e _ _ | ETupleIndex e _ | ECast e _ => S (depth e)
  | EBinary _ a b | EIndex a b | ESlicify a b => S (Nat.max (depth a) (depth b))
  end.
Lemma builtin_u64 s n : builtins_ok s -> 0 <= n < 2 ^ 64 -> evaluates (literal_value (Basic (U n))) (Some (Unsigned, n)) s.
Proof.
  intros ((t&Ht&Hn)&_) Hr. unfold literal_value. eapply evaluates_step; [done|]. eapply evaluates_step; [done|].
  apply evaluates_ret. exists t. split; [done|]. split; [done|]. split; [done|]. split; [|done]. cbn.
  by rewrite Z.mod_small.
Qed.
Lemma denote_strict op a b : strict_op op = true ->
  denote (EBinary op a b) = (x ← denote a; y ← denote b; arith_spec op x y).
Proof. by destruct op. Qed.
Lemma denote_lazy (is_and : bool) a b :
  denote (EBinary (if is_and then LazyAnd else LazyOr) a b) =
  (x ← denote a; if eqb (negb (x.2 =? 0)) is_and then y ← denote b; truth (negb (y.2 =? 0)) else truth (negb is_and)).
Proof. destruct is_and; simpl; destruct (denote a) as [x|]; simpl; [|done| |done]; by destruct (x.2 =? 0). Qed.

Lemma eval_expression_step x fuel i n s o :
  ast x !! i = Some n ->
  evaluates (eval_step mem_read (eval_expression mem_read x fuel) (eval_type x fuel) x false n) o s ->
  evaluates (eval_expression mem_read x (S fuel) false i) o s.
Proof. intros Hn H. cbn [eval_expression]. eapply evaluates_step; [|exact H]. srun. by rewrite Hn. Qed.
Lemma evaluates_child ev n k j o s :
  children n !! k = Some j -> evaluates (ev false j) o s -> evaluates (eval_child ev n k false) o s.
Proof. intros Hc H. unfold eval_child, child. eapply evaluates_step; [|exact H]. srun. by rewrite Hc. Qed.

Lemma eval_tree x e : forall fuel i s, arith e = true -> tree (ast x) i e -> (depth e <= fuel)%nat -> builtins_ok s ->
  evaluates (eval_expression mem_read x fuel false i) (denote e) s.
Proof.
  induction e as [n| |op e IH|op a IHa b IHb| | | | |]; intros fuel i s Ha Ht Hd Hs; try discriminate Ha;
    (destruct fuel as [|fuel]; [simpl in Hd; lia|]).
  - destruct Ht as (nd&Hn&Hnode&_). eapply eval_expression_step; [done|]. unfold eval_step. rewrite Hnode.
    cbn [arith] in Ha. apply andb_prop in Ha as [H1%Z.leb_le H2%Z.ltb_lt]. by apply builtin_u64.
  - destruct Ht as (j&(nd&Hn&Hnode&Hch)&Ht). eapply eval_expression_step; [done|]. unfold eval_step. rewrite Hnode.
    assert (Hgo : forall neg : bool, arith e = true ->
      evaluates (v ← eval_child (eval_expression mem_read x fuel) nd 0 false; v ← follow mem_read false v; eval_negate mem_read neg v)
        (a ← denote e; if neg then negate_spec a else Some (not_spec a)) s).
    { intros neg He. eapply evaluates_bind.
      - eapply evaluates_child; [by rewrite Hch|]. apply IH; [done|done|simpl in Hd; lia|done].
      - intros a v s' _ Hv _. eapply evaluates_step; [by eapply follow_run|]. by apply eval_negate_number. }
    destruct op; try discriminate Ha; [exact (Hgo true Ha)|exact (Hgo false Ha)].
  - destruct Ht as (j&k&(nd&Hn&Hnode&Hch)&Hta&Htb). cbn [arith] in Ha. apply andb_prop in Ha as [Ha Hb]. apply andb_prop in Ha as [Hop Ha].
    simpl in Hd. eapply eval_expression_step; [done|].
    assert (Hlhs : evaluates (eval_child (eval_expression mem_read x fuel) nd 0 false) (denote a) s).
    { eapply evaluates_child; [by rewrite Hch|]. apply IHa; [done|done|lia|done]. }
    assert (Hrhs : forall s', builtins_ok s' ->
      evaluates (r ← eval_child (eval_expression mem_read x fuel) nd 1 false; follow mem_read false r) (denote b) s').
    { intros s' Hs'. apply evaluates_followed. eapply evaluates_child; [by rewrite Hch|]. apply IHb; [done|done|lia|done]. }
    destruct (strict_op op) eqn:Hst.
    + rewrite denote_strict by done.
      assert (Hrun : evaluates (lhs ← eval_child (eval_expression mem_read x fuel) nd 0 false; lhs ← follow mem_read false lhs;
        rhs ← (r ← eval_child (eval_expression mem_read x fuel) nd 1 false; follow mem_read false r); eval_binary mem_read op lhs rhs)
        (x ← denote a; y ← denote b; arith_spec op x y) s).
      { eapply evaluates_bind; [exact Hlhs|]. intros p v s1 _ Hv He. eapply evaluates_step; [by eapply follow_run|].
        eapply evaluates_bind; [by eapply Hrhs, extends_builtins|]. intros q w s2 _ Hw He2.
        apply eval_binary_number; [by do 2 (eapply extends_builtins; [done|])|by eapply extends_number|done|done]. }
      unfold eval_step. rewrite Hnode. destruct op; first [discriminate Hst|exact Hrun].
    + assert (exists is_and : bool, op = if is_and then LazyAnd else LazyOr) as [is_and ->].
      { destruct op; try discriminate Hop; try discriminate Hst; [by exists true|by exists false]. }
      rewrite denote_lazy.
      assert (Hrun : evaluates (lhs ← eval_child (eval_expression mem_read x fuel) nd 0 false; lhs ← follow mem_read false lhs;
        eval_lazy mem_read is_and lhs (r ← eval_child (eval_expression mem_read x fuel) nd 1 false; follow mem_read false r))
        (x ← denote a; if eqb (negb (x.2 =? 0)) is_and then y ← denote b; truth (negb (y.2 =? 0)) else truth (negb is_and)) s).
      { eapply evaluates_bind; [exact Hlhs|]. intros p v s1 _ Hv He. eapply evaluates_step; [by eapply follow_run|].
        apply eval_lazy_number; [by eapply extends_builtins|done|by eapply Hrhs, extends_builtins]. }
      unfold eval_step. rewrite Hnode. destruct is_and; exact Hrun.
Qed.
End Numbers.

(** ** The fuel of the interpreter *)

Lemma shape_functional ns i a cs a' cs' : shape ns i a cs -> shape ns i a' cs' -> a = a' /\ cs = cs'.
Proof. intros (n&Hn&<-&<-) (n'&Hn'&<-&<-). by simplify_eq. Qed.
Lemma arith_shape ns i e : arith e = true -> tree ns i e ->
  exists a cs, shape ns i a cs /\ match e with
    | EInt n => a = Literal (Basic (U n)) /\ cs = []
    | EUnary op _ => a = UnaryOp op /\ List.length cs = 1%nat
    | EBinary op _ _ => a = BinaryOp op /\ List.length cs = 2%nat
    | _ => False
    end.
Proof.
  destruct e; try done; intros _; simpl; [eauto 10| |].
  - intros (j&H&_). eauto 10.
  - intros (j&k&H&_). eauto 10.
Qed.
(** A node is the root of one expression. *)
Lemma tree_functional ns e : forall i e', arith e = true -> arith e' = true -> tree ns i e -> tree ns i e' -> e = e'.
Proof.
  induction e as [n| |op e IH|op a IHa b IHb| | | | |]; intros i e' He He' Ht Ht'; try discriminate He;
    destruct e' as [n'| |op' e'|op' a' b'| | | | |]; try discriminate He';
    destruct (arith_shape _ _ _ He Ht) as (x&cs&Hs&Hx&Hc); destruct (arith_shape _ _ _ He' Ht') as (x'&cs'&Hs'&Hx'&Hc');
    destruct (shape_functional _ _ _ _ _ _ Hs Hs') as [<- <-]; simplify_eq; f_equal.
  - destruct Ht as (j&Hj&Ht), Ht' as (j'&Hj'&Ht'). destruct (shape_functional _ _ _ _ _ _ Hj Hj') as [_ [= <-]].
    eapply IH; [by destruct op'|by destruct op'|done|done].
  - destruct Ht as (j&k&Hj&Ha&Hb), Ht' as (j'&k'&Hj'&Ha'&Hb'). destruct (shape_functional _ _ _ _ _ _ Hj Hj') as [_ [= <- <-]].
    cbn [arith] in He, He'. apply andb_prop in He as [[_ ?]%andb_prop ?], He' as [[_ ?]%andb_prop ?]. by eapply IHa.
  - destruct Ht as (j&k&Hj&Ha&Hb), Ht' as (j'&k'&Hj'&Ha'&Hb'). destruct (shape_functional _ _ _ _ _ _ Hj Hj') as [_ [= <- <-]].
    cbn [arith] in He, He'. apply andb_prop in He as [[_ ?]%andb_prop ?], He' as [[_ ?]%andb_prop ?]. by eapply IHb.
Qed.

(** The nodes on a longest path are different. *)
Definition below (ns : list ASTNode) (d : nat) (j : ASTIdx) : Prop :=
  (j < List.length ns)%nat /\ exists e, arith e = true /\ tree ns j e /\ (depth e <= d)%nat.
Lemma path_cons ns i e d l : arith e = true -> tree ns i e -> (d < depth e)%nat -> NoDup l -> Forall (below ns d) l ->
  NoDup (i :: l) /\ Forall (below ns (depth e)) (i :: l).
Proof.
  intros He Ht Hd Hl Hb. split.
  - apply NoDup_cons. split; [|done]. intros Hi. rewrite Forall_forall in Hb. destruct (Hb i Hi) as (_&e'&He'&Ht'&Hd').
    assert (e = e') as -> by (by eapply tree_functional). lia.
  - constructor.
    + destruct (tree_shape _ _ _ Ht) as (a&cs&n&Hn&_). split; [by eapply lookup_lt_Some|]. by exists e.
    + eapply Forall_impl; [exact Hb|]. intros j (Hj&e'&?&?&?). split; [done|]. exists e'. split_and!; [done..|lia].
Qed.
Lemma tree_path ns e : arith e = true -> forall i, tree ns i e ->
  exists l, List.length l = depth e /\ NoDup l /\ Forall (below ns (depth e)) l.
Proof.
  induction e as [n| |op e IH|op a IHa b IHb| | | | |]; intros He i Ht; try discriminate He.
  - exists [i]. split; [done|]. apply (path_cons ns i (EInt n) 0 []); [done..|simpl; lia|apply NoDup_nil_2|by apply Forall_nil].
  - pose proof Ht as (j&_&Hj). destruct (IH ltac:(by destruct op) j Hj) as (l&Hl&Hnd&Hb). exists (i :: l).
    split; [simpl; by rewrite Hl|]. apply (path_cons ns i (EUnary op e) (depth e)); [done..|simpl; lia|done|done].
  - pose proof Ht as (j&k&_&Hj&Hk). pose proof He as He'. cbn [arith] in He. apply andb_prop in He as [[_ Ha]%andb_prop Hb].
    destruct (IHa Ha j Hj) as (la&Hla&Hnda&Hba), (IHb Hb k Hk) as (lb&Hlb&Hndb&Hbb).
    destruct (Nat.leb_spec (depth b) (depth a)).
    + exists (i :: la). split; [simpl; lia|]. apply (path_cons ns i (EBinary op a b) (depth a)); [done..|simpl; lia|done|done].
    + exists (i :: lb). split; [simpl; lia|]. apply (path_cons ns i (EBinary op a b) (depth b)); [done..|simpl; lia|done|done].
Qed.
Lemma tree_depth ns i e : arith e = true -> tree ns i e -> (depth e <= List.length ns)%nat.
Proof.
  intros He Ht. destruct (tree_path ns e He i Ht) as (l&<-&Hnd&Hb).
  rewrite <- (length_seq (List.length ns) 0). apply submseteq_length, NoDup_submseteq; [done|].
  intros j Hj. rewrite Forall_forall in Hb. apply elem_of_seq. destruct (Hb j Hj). lia.
Qed.

Lemma arith_expr_ok e : arith e = true -> expr_ok e.
Proof.
  induction e as [n| |op e IH|op a IHa b IHb| | | | |]; intros He; try discriminate He.
  - cbn [arith] in He. apply andb_prop in He as [H1%Z.leb_le H2%Z.ltb_lt]. done.
  - apply IH. by destruct op.
  - cbn [arith] in He. apply andb_prop in He as [[Hop Ha]%andb_prop Hb]. simpl. split; [by intros ->|]. split; [by intros ->|]. auto.
Qed.

(** C10. The text of an arithmetic expression (numbers, unary and binary
    operators on integers, comparisons, && and ||, parentheses where the
    precedences ask for them) is parsed and evaluated to the value of the
    expression in two's complement arithmetic of 64 bits, signed when an
    operand is; where that value is not defined, by a division by zero, a shift
    of 64 bits or more or the negation of a truth value, the evaluation ends
    with an error. It neither panics nor runs out of fuel, and only adds types. *)
Theorem arithmetic_expression_value {P : Powi} {D : Debuggee} mem_read e s :
  arith e = true -> builtins_ok s ->
  match denote e with
  | Some a => exists v s', eval_watch_expression mem_read (show_expr e) s = (Ret (v, false), s') /\
      number s' v a /\ types s `prefix_of` types s'
  | None => exists err s', eval_watch_expression mem_read (show_expr e) s = (Fail err, s')
  end.
Proof.
  intros He Hs. destruct (parse_show e (arith_expr_ok e He)) as (x&Hx&Ht).
  pose proof (eval_tree mem_read x e (S (List.length (ast x))) (root x) (set_dubious false s) He Ht) as Hev.
  specialize (Hev ltac:(pose proof (tree_depth _ _ _ He Ht); lia) Hs).
  unfold eval_watch_expression, eval_parsed_expression. rewrite stm_bind_run, slift_run, Hx, stm_bind_run, smodify_run, stm_bind_run.
  unfold evaluates, returns in Hev. destruct (denote e) as [a|].
  - destruct (eval_expression _ _ _ _ _ _) as [[v| |] s']; [|done|done]. destruct Hev as (Hn&Hp&_&Hd). exists v, s'.
    rewrite stm_bind_run, sget_run, Hd. done.
  - destruct Hev as (err&s'&Hev). rewrite Hev. by exists err, s'.
Qed.

(** ** An instance *)

(** No symbols, no memory. *)
Definition no_memory (a n : Z) : result (list Z) := Fail (Code ProcessState).
#[local] Instance no_debuggee : Debuggee := {|
  get_variable := fun _ _ _ _ _ => sfail (Code NoVariable);
  get_type := fun _ => sfail (Code TypeMismatch);
  prettify_struct := fun _ => mret None;
  reflect_meta_value := fun v => mret v
|}.
#[local] Instance powi_sample : Powi := fun x _ => x.
Definition fresh_state : EvalState := let '(b, ts) := add_builtins [] in mkEval ts b [] MemReader.new false.
Lemma fresh_builtins : builtins_ok fresh_state.
Proof. vm_compute. split_and!; eexists; repeat split. Qed.
(** [-7 * (3 - 5) / 4] *)
Definition sample_sum : expr :=
  EBinary Div (EBinary Mul (EUnary Neg (EInt 7)) (EBinary Sub (EInt 3) (EInt 5))) (EInt 4).
Lemma arithmetic_expression_value_witness :
  show_expr sample_sum = text "- 7 * ( 3 - 5 ) / 4" /\ denote sample_sum = Some (Signed, 3) /\
  exists v s', eval_watch_expression no_memory (text "- 7 * ( 3 - 5 ) / 4") fresh_state = (Ret (v, false), s') /\
    number s' v (Signed, 3) /\ types fresh_state `prefix_of` types s'.
Proof.
  split; [reflexivity|]. split; [reflexivity|]. apply (arithmetic_expression_value no_memory sample_sum fresh_state eq_refl fresh_builtins).
Defined.

(** A debuggee that knows the type [u64]. *)
#[local] Instance u64_debuggee : Debuggee | 0 := {|
  get_variable := fun _ _ _ _ _ => sfail (Code NoVariable);
  get_type := fun _ => b ← sget builtin_types; mret (u64_ b);
  prettify_struct := fun _ => mret None;
  reflect_meta_value := fun v => mret v
|}.
(** The size of an array type is computed without a guard: an expression that
    names an array of more bytes than there are addresses panics. *)
Example oversized_array_type_panics :
  (eval_watch_expression (D := u64_debuggee) no_memory (text "0 as [u64; 2305843009213693952]") fresh_state).1 = Panic.
Proof. vm_compute. reflexivity. Qed.
