(* ===== verification/GdbRegs.v ===== *)
(** The register layout of a GDB stub (src/debugger.rs): the target description,
    the g packet, and a debugger that connects to a stub and reads registers. *)
From Stdlib Require Import ZArith Lia String.
From stdpp Require Import base list gmap.
From S2P Require Import Prelude RustStr RustText Serial Errors Registers GdbRemote.
Open Scope Z_scope.

(** A register of a target description: name, size in bits, number. *)
Abbreviation reg_entry := (list Z * Z * Z)%type.
Definition entry_name (e : reg_entry) : list Z := e.1.1.
Definition entry_bits (e : reg_entry) : Z := e.1.2.
Definition entry_num (e : reg_entry) : Z := e.2.

(** ** The target description *)

Definition parse_target_xml_arch (xml : list Z) : option Arch :=
  s ← after (str "<architecture>") xml;
  s ← before (str "</architecture>") s;
  let name := trim s in
  if starts_with (str "riscv") name then Some Riscv64
  else if starts_with (str "aarch64") name || starts_with (str "armv") name || bytes_eqb name (str "arm")
  then Some AArch64
  else if starts_with (str "i386") name || starts_with (str "x86") name || starts_with (str "amd64") name
  then Some X86_64
  else None.

(** The text up to the first [>] and the text after it. *)
Definition split_tag (s : list Z) : list Z * list Z :=
  match before [62] s, after [62] s with
  | Some tag, Some rest => (tag ++ [62], rest)
  | _, _ => (s, [])
  end.
(** [tag.find(key).and_then(.. up to the closing quote ..)], with [key]
    ending in an opening quote. *)
Definition attribute (key tag : list Z) : option (list Z) := s ← after key tag; before [34] s.
Definition number_attribute (bits : Z) (key tag : list Z) (default : Z) : Z :=
  match attribute key tag ≫= parse_uint bits with Some n => n | None => default end.

(** The loop of [parse_target_xml_regs]; [fuel] bounds the number of tags. *)
Fixpoint scan_regs (fuel : nat) (rest : list Z) (next_regnum : Z) : partial (list reg_entry) :=
  match after (str "<reg ") rest with
  | None => Ret []
  | Some aft =>
      match fuel with
      | O => Panic
      | S fuel =>
          let '(tag, rest) := split_tag aft in
          match attribute (str "name=" ++ [34]) tag with
          | None => scan_regs fuel rest next_regnum
          | Some name =>
              let bitsize := number_attribute 32 (str "bitsize=" ++ [34]) tag 64 in
              let regnum := number_attribute 64 (str "regnum=" ++ [34]) tag next_regnum in
              next_regnum ← uadd regnum 1;
              out ← scan_regs fuel rest next_regnum;
              Ret ((name, bitsize, regnum) :: out)
          end
      end
  end.
(** [sort_by_key(|(_, _, n)| *n)], which is stable. *)
Fixpoint insert_entry (e : reg_entry) (l : list reg_entry) : list reg_entry :=
  match l with
  | [] => [e]
  | x :: l' => if entry_num e <=? entry_num x then e :: l else x :: insert_entry e l'
  end.
Definition sort_entries (l : list reg_entry) : list reg_entry := foldr insert_entry [] l.
Definition parse_target_xml_regs (xml : list Z) : partial (list reg_entry) :=
  out ← scan_regs (List.length xml) xml 0; Ret (sort_entries out).

(** The loop of [extract_all_xi_includes]. *)
Fixpoint scan_includes (fuel : nat) (rest : list Z) (out : list (list Z)) : list (list Z) :=
  match find_split (str "xi:include") rest, fuel with
  | Some (_, aft), S fuel =>
      let rest := drop (List.length (str "xi:include")) aft in
      let out := match attribute (str "href=" ++ [34]) aft with
                 | Some h => if bool_decide (h ∈ out) then out else out ++ [h]
                 | None => out
                 end in
      scan_includes fuel rest out
  | _, _ => out
  end.
Definition extract_all_xi_includes (xml : list Z) : list (list Z) := scan_includes (List.length xml) xml [].
Definition extract_xi_include (xml : list Z) : option (list Z) := head (extract_all_xi_includes xml).

(** ** The g packet *)

Definition numbered (names : list string) (bits first : Z) : list reg_entry :=
  imap (fun i name => (str name, bits, first + Z.of_nat i)) names.
Definition default_x86_64_gdb_regs : list reg_entry :=
  numbered ["rax"; "rbx"; "rcx"; "rdx"; "rsi"; "rdi"; "rbp"; "rsp"; "r8"; "r9"; "r10"; "r11"; "r12"; "r13"; "r14";
            "r15"; "rip"; "eflags"]%string 64 0 ++
  numbered ["cs"; "ss"; "ds"; "es"; "fs"; "gs"]%string 16 18 ++
  numbered ["orig_rax"; "fs_base"; "gs_base"]%string 64 24.

(** The slot of a register name; the arms of the [match] in order. *)
Definition GDB_NAMES : list (string * option RegisterIdx) :=
  [("rax", Some Rax); ("rdx", Some Rdx); ("rcx", Some Rcx); ("rbx", Some Rbx); ("rsi", Some Rsi); ("rdi", Some Rdi);
   ("rbp", Some Rbp); ("rsp", Some Rsp); ("sp", Some Rsp); ("r8", Some R8); ("r9", Some R9); ("r10", Some R10);
   ("r11", Some R11); ("r12", Some R12); ("r13", Some R13); ("r14", Some R14); ("r15", Some R15); ("rip", Some Rip);
   ("pc", Some Rip); ("cs", Some Cs); ("ss", Some Ss); ("fs", Some Fs); ("gs", Some Gs); ("fs_base", Some FsBase);
   ("gs_base", Some GsBase); ("eflags", Some Flags); ("flags", Some Flags); ("cpsr", Some Flags);
   ("sstatus", Some Flags); ("orig_rax", Some OrigRax); ("zero", None); ("wsp", None); ("ra", Some RetAddr);
   ("lr", Some RetAddr); ("x30", Some RetAddr); ("fp", Some Rbp); ("s0", Some Rbp); ("x29", Some Rbp);
   ("a0", Some Rax); ("x10", Some Rax); ("a1", Some Rdx); ("x11", Some Rdx); ("a2", Some Rcx); ("x12", Some Rcx);
   ("a3", Some Rbx); ("x13", Some Rbx); ("a4", Some Rsi); ("x14", Some Rsi); ("a5", Some Rdi); ("x15", Some Rdi);
   ("a6", Some R8); ("x16", Some R8); ("a7", Some R9); ("x17", Some R9); ("x0", Some Rax); ("x1", Some Rdx);
   ("x3", Some Rcx); ("x4", Some Rbx); ("x5", Some Rsi); ("x6", Some Rdi); ("x7", Some R8); ("x9", Some R10);
   ("x18", Some R11); ("x19", Some R12); ("x20", Some R13); ("x21", Some R14); ("x22", Some R15)]%string.
Definition gdb_register_idx (name : list Z) : option RegisterIdx :=
  match find (fun '(n, _) => bytes_eqb name (str n)) GDB_NAMES with
  | Some (_, idx) => idx
  | None => None
  end.

(** [(bits as usize + 7) / 8] and the little-endian value of at most eight bytes. *)
Definition entry_bytes (e : reg_entry) : Z := (entry_bits e + 7) / 8.
Definition entry_value {E} (raw : list Z) (offset nbytes : Z) : outcome E Z :=
  bytes ← zslice raw offset (offset + Z.min nbytes 8); Ret (le_value bytes).

Fixpoint registers_from_gdb_loop (layout : list reg_entry) (raw : list Z) (offset : Z) (r : Regs.Registers)
  : partial Regs.Registers :=
  match layout with
  | [] => Ret r
  | e :: layout =>
      let nbytes := entry_bytes e in
      end_ ← uadd offset nbytes;
      if zlen raw <? end_ then Ret r
      else
        val ← entry_value raw offset nbytes;
        let r := match gdb_register_idx (entry_name e) with
                 | Some idx => Regs.set r idx val false
                 | None => r
                 end in
        registers_from_gdb_loop layout raw end_ r
  end.
Definition registers_from_gdb (layout : list reg_entry) (raw : list Z) : partial Regs.Registers :=
  registers_from_gdb_loop layout raw 0 Regs.default.

Fixpoint decode_named_loop (layout : list reg_entry) (raw : list Z) (offset : Z) : partial (list (list Z * Z)) :=
  match layout with
  | [] => Ret []
  | e :: layout =>
      let nbytes := entry_bytes e in
      end_ ← uadd offset nbytes;
      if zlen raw <? end_ then Ret []
      else
        val ← entry_value raw offset nbytes;
        out ← decode_named_loop layout raw end_;
        Ret ((entry_name e, val) :: out)
  end.
Definition decode_gdb_named_regs (layout : list reg_entry) (raw : list Z) : partial (list (list Z * Z)) :=
  decode_named_loop layout raw 0.

(** ** Connecting to a stub *)

(** What the debugger keeps of a thread: the index, the registers, the
    registers under the names of the target, and the thread from which the
    vector registers will be fetched. *)
Record ThreadInfo := mkInfo {
  regs : Regs.Registers;
  remote_gregs : option (list (list Z * Z));
  extra_regs : Xsave.LazyExtraRegisters
}.
Record Thread := mkThread { idx : Z; info : ThreadInfo }.
Definition new_thread (i : Z) : Thread := mkThread i (mkInfo Regs.default None Xsave.lazy_default).

Record Session := mkSession {
  conn : GdbRemote;
  remote_regs : list reg_entry;
  guest_arch : Arch;
  threads : gmap Z Thread;
  next_thread_idx : Z;
  any_live_tid : Z
}.

(** The requests for the included files of a description, in order: a file that
    cannot be fetched is skipped. The result says whether any was added. *)
Fixpoint fetch_includes (hrefs : list (list Z)) (xml : list Z) (found : bool) : M (list Z * bool) :=
  match hrefs with
  | [] => mret (xml, found)
  | href :: hrefs =>
      r ← attempt (fetch_qxfer href);
      match r with
      | inl extra =>
          if contains (str "<reg ") extra || negb (bool_decide (extra = []))
          then fetch_includes hrefs (xml ++ [10] ++ extra) true
          else fetch_includes hrefs xml found
      | inr _ => fetch_includes hrefs xml found
      end
  end.
Fixpoint resolve_includes (rounds : nat) (xml : list Z) : M (list Z) :=
  match rounds with
  | O => mret xml
  | S rounds =>
      if contains (str "<reg ") xml then mret xml
      else
        '(xml, found) ← fetch_includes (extract_all_xi_includes xml) xml false;
        if (found : bool) then resolve_includes rounds xml else mret xml
  end.

(** [t as pid_t] *)
Definition as_pid (t : Z) : Z := to_signed 32 (t mod 2 ^ 32).
Definition add_thread (acc : gmap Z Thread * Z * Z) (t : Z) : gmap Z Thread * Z * Z :=
  let '(ths, next, any_tid) := acc in
  let tid := as_pid t in
  if tid <=? 0 then acc else (<[tid := new_thread next]> ths, next + 1, tid).
Definition initial_threads (tids : list Z) : gmap Z Thread * Z * Z :=
  let '(ths, next, any_tid) := foldl add_thread (∅, 1, 0) tids in
  if bool_decide (ths = ∅) then (<[1 := new_thread next]> ths, next + 1, 1) else (ths, next, any_tid).

(** [refresh_remote_thread] on the connection: the two forms of the registers,
    unless a request fails or the target is running. *)
Definition request_registers (layout : list reg_entry) (tid : Z) : M (option (Regs.Registers * list (list Z * Z))) :=
  running ← gets resume_in_flight;
  if (running : bool) then mret None
  else
    r ← attempt (set_thread (tid mod 2 ^ 64));
    match r with
    | inr _ => mret None
    | inl _ =>
        raw ← attempt read_regs_raw;
        match raw with
        | inr _ => mret None
        | inl raw =>
            gregs ← lift (widen (decode_gdb_named_regs layout raw));
            rs ← lift (widen (registers_from_gdb layout raw));
            mret (Some (rs, gregs))
        end
    end.
Definition set_thread_registers (tid : Z) (rs : Regs.Registers) (gregs : list (list Z * Z)) (t : Thread) : Thread :=
  mkThread (idx t) (mkInfo rs (Some gregs) (Xsave.reset_with_tid (extra_regs (info t)) tid)).
Definition refresh_remote_thread (tid : Z) (d : Session) : outcome GdbError Session :=
  match request_registers (remote_regs d) tid (conn d) with
  | (Ret r, c) =>
      let ths := match r with
                 | Some (rs, gregs) => alter (set_thread_registers tid rs gregs) tid (threads d)
                 | None => threads d
                 end in
      Ret (mkSession c (remote_regs d) (guest_arch d) ths (next_thread_idx d) (any_live_tid d))
  | (Fail e, _) => Fail e
  | (Panic, _) => Panic
  end.

(** [connect_remote] on an open socket, up to reading the registers of the
    threads, which a hash map lists in an unspecified order [order]; [elf_arch]
    is the architecture of the first ELF file that the user gave, if any. *)
Definition connect_requests : M (list Z * list Z * list reg_entry) :=
  _ ← handshake;
  r ← attempt fetch_target_xml;
  let xml := match r with inl xml => xml | inr _ => [] end in
  xml ← resolve_includes 8 xml;
  layout ← lift (widen (parse_target_xml_regs xml));
  let layout := if bool_decide (layout = []) then default_x86_64_gdb_regs else layout in
  tids ← GdbRemote.threads;
  mret (xml, tids, layout).
Definition connect_remote (order : gmap Z Thread -> list Z) (elf_arch : option Arch) (s : TcpStream) : result Session :=
  match connect_requests (connect s) with
  | (Ret (xml, tids, layout), c) =>
      let arch := match parse_target_xml_arch xml, elf_arch with
                  | Some a, _ => a
                  | None, Some a => a
                  | None, None => X86_64
                  end in
      let '(ths, next, any_tid) := initial_threads tids in
      match foldl (fun d tid => d ≫= refresh_remote_thread tid) (Ret (mkSession c layout arch ths next any_tid)) (order ths) with
      | Ret d => Ret d
      | Fail _ => Fail (Code Network)
      | Panic => Panic
      end
  | (Fail _, _) => Fail (Code Network)
  | (Panic, _) => Panic
  end.
