(* ===== verification/GdbRegsSpec.v ===== *)
(** Properties of the register layout of a GDB stub (GdbRegs). *)
From Stdlib Require Import ZArith Lia ZifyBool String.
From stdpp Require Import base list gmap.
From S2P Require Import Prelude RustStr RustText Serial LeBytes Errors Registers RegistersSpec GdbRemote GdbRegs.
Open Scope Z_scope.

(** ** The g packet *)

(** The packet in which each register of a layout has a given value. *)
Definition sized (e : reg_entry) (v : Z) : list Z := le_bytes (Z.to_nat (entry_bytes e)) v.
Definition packet (l : list (reg_entry * Z)) : list Z := concat (map (fun '(e, v) => sized e v) l).
(** What is kept of a value: its low eight bytes. *)
Definition kept (e : reg_entry) (v : Z) : Z := v mod 256 ^ Z.min (entry_bytes e) 8.
Definition named (l : list (reg_entry * Z)) : list (list Z * Z) := map (fun '(e, v) => (entry_name e, kept e v)) l.
(** The value that the last register with a slot has. *)
Definition slot_value (r : RegisterIdx) (l : list (list Z * Z)) : option Z :=
  last (omap (fun '(n, v) => if bool_decide (gdb_register_idx n = Some r) then Some v else None) l).

Definition set_named (r : Regs.Registers) (nv : list Z * Z) : Regs.Registers :=
  match gdb_register_idx nv.1 with Some i => Regs.set r i nv.2 false | None => r end.

(** Both decoders read the same registers. *)
Lemma registers_from_named layout raw off r :
  registers_from_gdb_loop layout raw off r = l ← decode_named_loop layout raw off; Ret (foldl set_named r l).
Proof.
  revert off r. induction layout as [|e layout IH]; intros off r; [done|].
  cbn [registers_from_gdb_loop decode_named_loop].
  destruct (uadd off (entry_bytes e)) as [end_| |]; [|done..]. simpl. destruct (zlen raw <? end_); [done|].
  destruct (entry_value raw off (entry_bytes e)) as [v| |]; [|done..]. simpl. rewrite IH.
  by destruct (decode_named_loop layout raw end_).
Qed.

Lemma entry_bytes_nonneg e : 0 <= entry_bits e -> 0 <= entry_bytes e.
Proof. intros H. unfold entry_bytes. apply Z.div_pos; lia. Qed.

Lemma entry_value_sized {E} pre e v rest :
  0 <= entry_bits e -> entry_value (E:=E) (pre ++ sized e v ++ rest) (zlen pre) (entry_bytes e) = Ret (kept e v).
Proof.
  intros He%entry_bytes_nonneg. unfold entry_value.
  assert (Hl : zlen (sized e v) = entry_bytes e) by (unfold zlen, sized; rewrite le_bytes_length; lia).
  pose proof (zlen_nonneg pre). pose proof (zlen_nonneg rest).
  rewrite zslice_ok by (rewrite ?zlen_app; lia). simpl. f_equal.
  replace (Z.to_nat (zlen pre)) with (List.length pre) by (unfold zlen; lia). rewrite drop_app_length.
  replace (zlen pre + Z.min (entry_bytes e) 8 - zlen pre) with (Z.min (entry_bytes e) 8) by lia.
  rewrite take_app_le by (unfold zlen in Hl; lia). unfold sized. rewrite take_le_bytes, le_value_bytes_mod.
  unfold kept. do 2 f_equal. lia.
Qed.

Lemma decode_named_spec l rest short pre :
  Forall (fun p => 0 <= entry_bits p.1) l ->
  zlen (pre ++ packet l ++ short) < 2 ^ 64 - 2 ^ 32 ->
  match rest with [] => True | e :: _ => 0 <= entry_bits e < 2 ^ 32 /\ zlen short < entry_bytes e end ->
  decode_named_loop (map fst l ++ rest) (pre ++ packet l ++ short) (zlen pre) = Ret (named l).
Proof.
  intros Hl. revert pre. induction Hl as [|[e v] l He _ IH]; intros pre Hlen Hrest.
  - simpl in *. destruct rest as [|e rest]; [done|]. destruct Hrest as [Hb Hs]. simpl.
    assert (entry_bytes e <= 2 ^ 32) by (unfold entry_bytes; Z.div_mod_to_equations; lia).
    rewrite zlen_app in Hlen. pose proof (zlen_nonneg short).
    unfold uadd. rewrite (proj2 (Z.ltb_lt _ (2 ^ 64))) by lia. simpl.
    by rewrite zlen_app, (proj2 (Z.ltb_lt _ (zlen pre + entry_bytes e))) by lia.
  - cbn [map app fst packet concat]. fold (packet l). rewrite <- !app_assoc. simpl in He.
    assert (Hn : zlen (sized e v) = entry_bytes e) by (unfold zlen, sized; rewrite le_bytes_length; pose proof (entry_bytes_nonneg e He); lia).
    change (packet ((e, v) :: l)) with (sized e v ++ packet l) in Hlen. rewrite <- !app_assoc in Hlen.
    pose proof (zlen_nonneg (packet l)). pose proof (zlen_nonneg short). pose proof (zlen_nonneg pre).
    cbn [decode_named_loop]. rewrite !zlen_app in *. unfold uadd.
    rewrite (proj2 (Z.ltb_lt _ (2 ^ 64))) by lia. cbn [mbind outcome_bind].
    rewrite (proj2 (Z.ltb_ge _ _)) by lia. rewrite entry_value_sized by done. cbn [mbind outcome_bind].
    replace (zlen pre + entry_bytes e) with (zlen (pre ++ sized e v)) by (rewrite zlen_app; lia).
    rewrite app_assoc. rewrite IH; [done| |done]. rewrite <- app_assoc, !zlen_app. lia.
Qed.

Lemma set_named_wf l rs : RegsSpec.wf rs -> RegsSpec.wf (foldl set_named rs l).
Proof.
  revert rs. induction l as [|nv l IH]; intros rs H; [done|]. simpl. apply IH. unfold set_named.
  case_match; [by apply RegsSpec.wf_set|done].
Qed.
Definition certain (rs : Regs.Registers) : Prop := forall r, Regs.is_dubious rs r = false.
Lemma lookup_set_named l rs r :
  RegsSpec.wf rs -> certain rs ->
  RegsSpec.lookup (foldl set_named rs l) r =
    match slot_value r l with Some v => Some (v, false) | None => RegsSpec.lookup rs r end.
Proof.
  intros Hwf Hc. induction l as [|[n v] l IH] using rev_ind; [done|].
  rewrite foldl_app. simpl. unfold slot_value. rewrite omap_app. fold (slot_value r).
  assert (Hcl : certain (foldl set_named rs l)).
  { clear IH. induction l as [|[n' v'] l IH'] using rev_ind; [done|]. rewrite foldl_app. simpl. intros q.
    unfold set_named at 1. simpl. case_match; [|apply IH']. by rewrite RegsSpec.is_dubious_set, IH'. }
  unfold set_named at 1. simpl. destruct (gdb_register_idx n) as [i|]; simpl.
  - rewrite RegsSpec.lookup_set by by apply set_named_wf. destruct (decide (i = r)) as [->|Hne].
    + rewrite bool_decide_true by done. by rewrite last_snoc, Hcl.
    + rewrite bool_decide_false by naive_solver. rewrite app_nil_r. exact IH.
  - rewrite app_nil_r. exact IH.
Qed.

Lemma slot_value_app r a b :
  slot_value r (a ++ b) = match slot_value r b with Some v => Some v | None => slot_value r a end.
Proof. unfold slot_value. rewrite omap_app, last_app. done. Qed.

(** ** Target descriptions *)

Definition QUOTE : list Z := [34].
(** A register element, as stubs print it: the text after [<reg ], then all of it. *)
Definition tag_text (e : reg_entry) : list Z :=
  (str "name=" ++ QUOTE) ++ entry_name e ++ 34 :: str " " ++
  (str "bitsize=" ++ QUOTE) ++ to_dec (entry_bits e) ++ 34 :: str " " ++
  (str "regnum=" ++ QUOTE) ++ to_dec (entry_num e) ++ 34 :: str "/>".
Definition print_reg (e : reg_entry) : list Z := str "<reg " ++ tag_text e.
Definition print_regs (l : list (reg_entry * list Z)) : list Z := concat (map (fun '(e, gap) => print_reg e ++ gap) l).
Definition name_char (c : Z) : Prop := c <> 34 /\ c <> 61 /\ c <> 62.
Definition entry_ok (e : reg_entry) : Prop :=
  Forall name_char (entry_name e) /\ 0 <= entry_bits e < 2 ^ 32 /\ 0 <= entry_num e < U64_MAX.
(** A text without a register element. *)
Definition plain (gap : list Z) : Prop := find_split (str "<reg ") gap = None.

Lemma attribute_quoted key v rest :
  Forall (fun b => b <> 34) v -> attribute key (key ++ v ++ 34 :: rest) = Some v.
Proof. intros H. unfold attribute. rewrite after_app. simpl. by apply before_char. Qed.
Lemma number_attribute_quoted bits key n rest d :
  0 <= bits <= 64 -> 0 <= n < 2 ^ bits ->
  number_attribute bits key (key ++ to_dec n ++ 34 :: rest) d = n.
Proof.
  intros Hb Hn. unfold number_attribute. rewrite attribute_quoted.
  - simpl. by rewrite parse_to_dec.
  - assert (2 ^ bits <= 2 ^ 64) by (apply Z.pow_le_mono_r; lia).
    eapply Forall_impl; [apply to_dec_digits; lia|]. simpl. lia.
Qed.

Lemma entry_digits e : entry_ok e ->
  Forall (fun c => 48 <= c <= 57) (to_dec (entry_bits e)) /\ Forall (fun c => 48 <= c <= 57) (to_dec (entry_num e)).
Proof. intros (_&?&?). unfold U64_MAX in *. split; apply to_dec_digits; lia. Qed.

Ltac no_char := apply (bool_decide_unpack _); vm_compute; exact I.

Lemma number_attribute_skip bits c key pre s d :
  Forall (fun b => b <> c) pre -> number_attribute bits (c :: key) (pre ++ s) d = number_attribute bits (c :: key) s d.
Proof. intros H. unfold number_attribute, attribute. by rewrite after_over. Qed.

Lemma tag_attributes e d : entry_ok e ->
  attribute (str "name=" ++ QUOTE) (tag_text e) = Some (entry_name e) /\
  number_attribute 32 (str "bitsize=" ++ QUOTE) (tag_text e) 64 = entry_bits e /\
  number_attribute 64 (str "regnum=" ++ QUOTE) (tag_text e) d = entry_num e.
Proof.
  intros Hok. destruct (entry_digits e Hok) as [Hd1 Hd2]. destruct Hok as (Hn&Hb&Hr).
  assert (Forall (fun b => b <> 34) (entry_name e)) as Hq by (eapply Forall_impl; [exact Hn|unfold name_char; tauto]).
  assert (Forall (fun b => b <> 34 /\ b <> 61) (entry_name e)) as Hqe by (eapply Forall_impl; [exact Hn|unfold name_char; tauto]).
  unfold tag_text. split; [by apply attribute_quoted|]. split.
  - change (str "bitsize=" ++ QUOTE) with (98 :: (str "itsize" ++ [61; 34])) at 1.
    rewrite number_attribute_skip by no_char.
    set (rest := _ ++ to_dec (entry_bits e) ++ _).
    assert (H : after (str "bitsize=" ++ QUOTE) (entry_name e ++ 34 :: str " " ++ rest) = after (str "bitsize=" ++ QUOTE) rest).
    { change (str "bitsize=" ++ QUOTE) with (str "bitsize" ++ [61; 34]).
      rewrite after_quoted; [|no_char|exact Hqe]. change (str "bitsize" ++ [61; 34]) with (98 :: (str "itsize" ++ [61; 34])).
      apply (after_over 98 _ [34; 32]). no_char. }
    unfold number_attribute, attribute.
    change (98 :: (str "itsize" ++ [61; 34])) with (str "bitsize=" ++ QUOTE). rewrite H.
    fold (attribute (str "bitsize=" ++ QUOTE) rest).
    subst rest. apply (number_attribute_quoted 32 (str "bitsize=" ++ QUOTE)); lia.
  - change (str "regnum=" ++ QUOTE) with (114 :: (str "egnum" ++ [61; 34])) at 1.
    rewrite number_attribute_skip by no_char.
    set (rest := _ ++ to_dec (entry_num e) ++ _).
    assert (H : after (str "regnum=" ++ QUOTE) (entry_name e ++ 34 :: str " " ++ (str "bitsize=" ++ QUOTE) ++
       to_dec (entry_bits e) ++ 34 :: str " " ++ rest) = after (str "regnum=" ++ QUOTE) rest).
    { change (str "regnum=" ++ QUOTE) with (str "regnum" ++ [61; 34]).
      rewrite after_quoted; [|no_char|exact Hqe].
      change (34 :: str " " ++ (str "bitsize=" ++ QUOTE) ++ to_dec (entry_bits e) ++ 34 :: str " " ++ rest)
        with ((34 :: str " " ++ (str "bitsize=" ++ QUOTE)) ++ to_dec (entry_bits e) ++ (34 :: str " ") ++ rest).
      change (str "regnum" ++ [61; 34]) with (114 :: (str "egnum" ++ [61; 34])).
      rewrite !after_over; [done|no_char| |no_char]. eapply Forall_impl; [exact Hd1|simpl; lia]. }
    unfold number_attribute, attribute.
    change (114 :: (str "egnum" ++ [61; 34])) with (str "regnum=" ++ QUOTE). rewrite H.
    fold (attribute (str "regnum=" ++ QUOTE) rest).
    subst rest. apply (number_attribute_quoted 64 (str "regnum=" ++ QUOTE)); [lia|]. unfold U64_MAX in Hr. lia.
Qed.

Lemma split_tag_text e rest : entry_ok e -> split_tag (tag_text e ++ rest) = (tag_text e, rest).
Proof.
  intros Hok. destruct (entry_digits e Hok) as [Hd1 Hd2]. destruct Hok as (Hn&_).
  set (body := (str "name=" ++ QUOTE) ++ entry_name e ++ (34 :: str " " ++ (str "bitsize=" ++ QUOTE)) ++
    to_dec (entry_bits e) ++ (34 :: str " " ++ (str "regnum=" ++ QUOTE)) ++ to_dec (entry_num e) ++ 34 :: str "/").
  assert (Hbody : Forall (fun b => b <> 62) body).
  { unfold body. rewrite !Forall_app. split; [no_char|]. split; [eapply Forall_impl; [exact Hn|unfold name_char; tauto]|].
    split; [no_char|]. split; [eapply Forall_impl; [exact Hd1|simpl; lia]|].
    split; [no_char|]. split; [eapply Forall_impl; [exact Hd2|simpl; lia]|no_char]. }
  assert (Ht : tag_text e = body ++ [62]).
  { unfold tag_text, body. change (str "/>") with ([47] ++ [62]). change (str "/") with [47]. cbn [app].
    do 4 (rewrite <- ?app_assoc; cbn [app]). reflexivity. }
  rewrite Ht. clearbody body. unfold split_tag. rewrite <- app_assoc. cbn [app].
  by rewrite before_char, after_char by done.
Qed.

Lemma print_regs_cons e g l : print_regs ((e, g) :: l) = str "<reg " ++ tag_text e ++ g ++ print_regs l.
Proof. unfold print_regs, print_reg. cbn [map concat]. by rewrite <- !app_assoc. Qed.
Lemma after_reg gap s : plain gap -> after (str "<reg ") (gap ++ str "<reg " ++ s) = Some s.
Proof.
  intros H. unfold after. change (str "<reg ") with (60 :: str "reg ").
  pose proof (find_split_after 60 (str "reg ") gap s) as E. cbn [app] in E |- *. rewrite E; [done|no_char|exact H].
Qed.

Lemma scan_regs_print l fuel gap next :
  Forall (fun p => entry_ok p.1 /\ plain p.2) l -> plain gap -> (List.length l <= fuel)%nat ->
  scan_regs fuel (gap ++ print_regs l) next = Ret (map fst l).
Proof.
  intros Hl. revert fuel gap next. induction Hl as [|[e g] l [Hok Hg] _ IH]; intros fuel gap next Hgap Hf.
  - change (print_regs []) with (@nil Z). rewrite app_nil_r.
    assert (H : after (str "<reg ") gap = None) by (unfold after; by rewrite Hgap).
    destruct fuel; cbn [scan_regs]; by rewrite H.
  - destruct fuel as [|fuel]; [simpl in Hf; lia|].
    rewrite print_regs_cons. cbn [scan_regs].
    rewrite after_reg by done.
    rewrite split_tag_text by done. destruct (tag_attributes e next Hok) as (Ha&Hb&Hr). simpl in Hok.
    unfold QUOTE in Ha, Hb, Hr. rewrite Ha, Hb, Hr. destruct Hok as (_&_&Hnum). unfold uadd.
    rewrite (proj2 (Z.ltb_lt _ (2 ^ 64))) by (unfold U64_MAX in Hnum; simpl in Hnum; lia). cbn [mbind outcome_bind].
    rewrite IH by (simpl in *; done || lia). cbn [mbind outcome_bind]. by destruct e as [[n b] k].
Qed.

(** ** Sorting *)

Definition entry_le (a b : reg_entry) : Prop := entry_num a <= entry_num b.
Lemma insert_entry_perm e l : insert_entry e l ≡ₚ e :: l.
Proof.
  induction l as [|x l IH]; simpl; [done|]. case_match; [done|]. rewrite IH. constructor.
Qed.
Lemma sort_entries_perm l : sort_entries l ≡ₚ l.
Proof. induction l as [|e l IH]; simpl; [done|]. by rewrite insert_entry_perm, IH. Qed.
Lemma insert_entry_hd a e l : HdRel entry_le a l -> entry_le a e -> HdRel entry_le a (insert_entry e l).
Proof. intros H He. destruct l as [|x l]; simpl; [by constructor|]. apply HdRel_inv in H. case_match; by constructor. Qed.
Lemma insert_entry_sorted e l : Sorted entry_le l -> Sorted entry_le (insert_entry e l).
Proof.
  induction 1 as [|x l Hs IH Hx]; simpl; [by repeat constructor|]. destruct (Z.leb_spec (entry_num e) (entry_num x)).
  - repeat (constructor; try done).
  - constructor; [done|]. apply insert_entry_hd; [done|]. unfold entry_le. lia.
Qed.
Lemma sort_entries_sorted l : Sorted entry_le (sort_entries l).
Proof. induction l as [|e l IH]; simpl; [constructor|]. by apply insert_entry_sorted. Qed.
Lemma sort_entries_id l : Sorted entry_le l -> sort_entries l = l.
Proof.
  induction 1 as [|x l Hs IH Hx]; simpl; [done|]. rewrite IH. destruct l as [|y l]; [done|].
  apply HdRel_inv in Hx. simpl. unfold entry_le in Hx. by rewrite (proj2 (Z.leb_le _ _)) by lia.
Qed.

(** ** Arbitrary descriptions *)

Lemma split_tag_app s tag rest : split_tag s = (tag, rest) -> s = tag ++ rest.
Proof.
  unfold split_tag, before, after. destruct (find_char_Some 62 s) as [E|(pre&post&E&Hs)]; rewrite E.
  - intros [= <- <-]. by rewrite app_nil_r.
  - intros [= <- <-]. simpl. by rewrite <- app_assoc.
Qed.

(** Every number given to a register in the text is below [bound]. *)
Definition numbers_below (bound : Z) (xml : list Z) : Prop :=
  forall pre s n, xml = pre ++ (str "regnum=" ++ QUOTE) ++ s -> before QUOTE s ≫= parse_uint 64 = Some n -> n < bound.

Lemma scan_regs_total bound fuel pre rest next :
  numbers_below bound (pre ++ rest) -> bound + zlen rest <= 2 ^ 64 -> next + zlen rest < 2 ^ 64 ->
  (List.length rest <= fuel)%nat ->
  exists l, scan_regs fuel rest next = Ret l /\ (List.length l <= List.length rest)%nat.
Proof.
  revert pre rest next. induction fuel as [|fuel IH]; intros pre rest next Hb Hbound Hnext Hf; cbn [scan_regs].
  - destruct rest; [|simpl in Hf; lia]. exists []. by split.
  - destruct (after (str "<reg ") rest) as [aft|] eqn:Ha; [|exists []; split; [done|simpl; lia]].
    apply after_Some in Ha as [skip ->]. destruct (split_tag aft) as [tag rest] eqn:Et.
    apply split_tag_app in Et as ->.
    assert (Hlen : zlen (skip ++ str "<reg " ++ tag ++ rest) = zlen skip + 5 + zlen tag + zlen rest).
    { rewrite !zlen_app. change (zlen (str "<reg ")) with 5. lia. }
    pose proof (zlen_nonneg skip). pose proof (zlen_nonneg tag). pose proof (zlen_nonneg rest).
    assert (Hrec : forall next', next' + zlen rest < 2 ^ 64 ->
      exists l, scan_regs fuel rest next' = Ret l /\ (List.length l <= List.length rest)%nat).
    { intros next' Hn'. apply (IH (pre ++ skip ++ str "<reg " ++ tag)); [by rewrite <- !app_assoc|lia|done|].
      unfold zlen in *. lia. }
    destruct (attribute (str "name=" ++ [34]) tag) as [name|].
    + set (regnum := number_attribute 64 (str "regnum=" ++ [34]) tag next).
      assert (Hreg : regnum < bound \/ regnum = next).
      { subst regnum. unfold number_attribute. destruct (attribute _ tag ≫= _) as [n|] eqn:En; [|by right]. left.
        unfold attribute in En. destruct (after (str "regnum=" ++ [34]) tag) as [s|] eqn:Es; [|done].
        apply after_Some in Es as [q ->]. cbn [mbind option_bind] in En.
        destruct (before [34] s) as [v|] eqn:Ev; [|done].
        apply (Hb (pre ++ skip ++ str "<reg " ++ q) (s ++ rest)).
        - by rewrite <- !app_assoc.
        - unfold QUOTE. by rewrite (before_char_app _ _ rest _ Ev). }
      unfold uadd. rewrite (proj2 (Z.ltb_lt _ (2 ^ 64))) by lia. cbn [mbind outcome_bind].
      destruct (Hrec (regnum + 1)) as (l&Hl&Hlen'); [lia|]. rewrite Hl. eexists. split; [done|].
      unfold zlen in *. cbn [List.length]. lia.
    + destruct (Hrec next) as (l&Hl&Hlen'); [lia|]. exists l. split; [done|]. unfold zlen in *. lia.
Qed.

(** ** The decoders on whole packets *)

(** What follows the registers [l] in a packet: nothing more in the layout, or
    too few bytes for the next register. *)
Definition ends_early (rest : list reg_entry) (short : list Z) : Prop :=
  match rest with [] => True | e :: _ => 0 <= entry_bits e < 2 ^ 32 /\ zlen short < entry_bytes e end.

Lemma decoders_on_packet l rest short :
  Forall (fun p => 0 <= entry_bits p.1) l -> zlen (packet l ++ short) < 2 ^ 64 - 2 ^ 32 -> ends_early rest short ->
  decode_gdb_named_regs (map fst l ++ rest) (packet l ++ short) = Ret (named l) /\
  registers_from_gdb (map fst l ++ rest) (packet l ++ short) = Ret (foldl set_named Regs.default (named l)).
Proof.
  intros Hl Hlen Hrest. pose proof (decode_named_spec l rest short [] Hl Hlen Hrest) as H. split; [exact H|].
  unfold registers_from_gdb. rewrite registers_from_named. unfold decode_gdb_named_regs in H.
  cbn [app] in H. change (zlen []) with 0 in H. by rewrite H.
Qed.
Lemma certain_default : certain Regs.default.
Proof. by intros []. Qed.
Lemma lookup_default r : RegsSpec.lookup Regs.default r = None.
Proof. by destruct r. Qed.
Lemma lookup_packet l r :
  RegsSpec.lookup (foldl set_named Regs.default l) r = option_map (fun v => (v, false)) (slot_value r l).
Proof.
  rewrite lookup_set_named by (try done; apply certain_default). rewrite lookup_default. by destruct (slot_value r l).
Qed.

(** Decoding a g packet: for a packet in which the registers of a layout have
    given values, followed by the end of the layout or by too few bytes for the
    next register, the named registers are exactly those names with the low
    eight bytes of those values, in order, and each slot of the register file
    holds the value of the last name that maps to it, or is unknown. *)
Theorem gdb_packet_decoded l rest short :
  Forall (fun p => 0 <= entry_bits p.1) l -> zlen (packet l ++ short) < 2 ^ 64 - 2 ^ 32 -> ends_early rest short ->
  decode_gdb_named_regs (map fst l ++ rest) (packet l ++ short) = Ret (named l) /\
  exists rs, registers_from_gdb (map fst l ++ rest) (packet l ++ short) = Ret rs /\
    forall r, RegsSpec.lookup rs r = option_map (fun v => (v, false)) (slot_value r (named l)).
Proof.
  intros Hl Hlen Hrest. destruct (decoders_on_packet l rest short Hl Hlen Hrest) as [H1 H2].
  split; [exact H1|]. eexists. split; [exact H2|]. apply lookup_packet.
Qed.

(** The default layout with the value [v e] in each register. *)
Definition default_packet (v : reg_entry -> Z) : list (reg_entry * Z) :=
  map (fun e => (e, v e)) default_x86_64_gdb_regs.
Definition sample_value (e : reg_entry) : Z := 1000 + entry_num e.

Lemma gdb_packet_decoded_witness :
  exists rs, registers_from_gdb default_x86_64_gdb_regs (packet (default_packet sample_value)) = Ret rs /\
    RegsSpec.lookup rs Rip = Some (1016, false) /\ RegsSpec.lookup rs GsBase = Some (1026, false) /\
    RegsSpec.lookup rs Cfa = None.
Proof.
  destruct (gdb_packet_decoded (default_packet sample_value) [] []) as (_&rs&Hrs&Hl).
  - apply (bool_decide_unpack _). vm_compute. exact I.
  - vm_compute. reflexivity.
  - exact I.
  - rewrite app_nil_r in Hrs. exists rs. split; [exact Hrs|]. rewrite !Hl. vm_compute. repeat split.
Defined.

(** A target description read back: the text of a list of registers, with
    any text around them that holds no register element, is parsed to those
    registers in the order of their numbers (the given order among equals). *)
Theorem target_xml_roundtrip header l :
  plain header -> Forall (fun p => entry_ok p.1 /\ plain p.2) l ->
  parse_target_xml_regs (header ++ print_regs l) = Ret (sort_entries (map fst l)) /\
  Sorted entry_le (sort_entries (map fst l)) /\ sort_entries (map fst l) ≡ₚ map fst l /\
  (Sorted entry_le (map fst l) -> sort_entries (map fst l) = map fst l).
Proof.
  intros Hh Hl. split; [|split; [apply sort_entries_sorted|split; [apply sort_entries_perm|apply sort_entries_id]]].
  unfold parse_target_xml_regs. rewrite scan_regs_print; [done|done|done|].
  rewrite length_app. clear Hl Hh. induction l as [|[e g] l IH]; [simpl; lia|].
  rewrite print_regs_cons. rewrite !length_app. change (List.length (str "<reg ")) with 5%nat. simpl. lia.
Qed.

Lemma target_xml_roundtrip_witness :
  parse_target_xml_regs (str "<target>" ++
    print_regs [((str "pc", 64, 32), [10]); ((str "zero", 64, 0), [10]); ((str "v0", 128, 33), str "</target>")]) =
  Ret [(str "zero", 64, 0); (str "pc", 64, 32); (str "v0", 128, 33)].
Proof.
  destruct (target_xml_roundtrip (str "<target>")
    [((str "pc", 64, 32), [10]); ((str "zero", 64, 0), [10]); ((str "v0", 128, 33), str "</target>")]) as (H&_).
  - reflexivity.
  - unfold entry_ok, name_char, U64_MAX. repeat constructor; try lia; vm_compute; congruence.
  - exact H.
Defined.

(** Parsing a target description always ends with a list sorted by register
    number when the numbers in the text are far enough below the greatest; the
    parser panics only by counting past it. *)
Theorem target_xml_terminates bound xml :
  numbers_below bound xml -> bound + zlen xml < 2 ^ 64 -> 0 <= bound ->
  exists l, parse_target_xml_regs xml = Ret l /\ Sorted entry_le l /\ zlen l <= zlen xml.
Proof.
  intros Hb Hbound H0. destruct (scan_regs_total bound (List.length xml) [] xml 0) as (l&Hl&Hlen); [done|lia..|].
  exists (sort_entries l). unfold parse_target_xml_regs. rewrite Hl. split; [done|].
  split; [apply sort_entries_sorted|]. unfold zlen. rewrite (Permutation_length (sort_entries_perm l)). lia.
Qed.

Lemma target_xml_terminates_witness :
  (exists l, parse_target_xml_regs (str "<reg <reg name") = Ret l /\ Sorted entry_le l /\ zlen l <= 14) /\
  parse_target_xml_regs (str "<reg name=" ++ QUOTE ++ str "a" ++ QUOTE ++ str " regnum=" ++ QUOTE ++
    str "18446744073709551615" ++ QUOTE ++ str "/>") = Panic.
Proof.
  split; [|vm_compute; reflexivity].
  apply (target_xml_terminates 0 (str "<reg <reg name")).
  - intros pre s n H _. exfalso. apply (f_equal (fun l => 61 ∈ l)) in H.
    assert (H' : 61 ∈ str "<reg <reg name").
    { rewrite H, elem_of_app. right. rewrite elem_of_app. left. apply (bool_decide_unpack _). vm_compute. exact I. }
    revert H'. apply (bool_decide_unpack _). vm_compute. exact I.
  - vm_compute. reflexivity.
  - lia.
Defined.

(** The general registers of an AArch64 stub. *)
Definition aarch64_layout : list reg_entry :=
  imap (fun i n => (str "x" ++ to_dec (Z.of_nat i), 64, Z.of_nat i)) (replicate 31 tt) ++
  [(str "sp", 64, 31); (str "pc", 64, 32); (str "cpsr", 32, 33)].
Definition aarch64_packet (v : Z -> Z) : list (reg_entry * Z) := map (fun e => (e, v (entry_num e))) aarch64_layout.

(** On AArch64 the registers x10 to x17, taken for the argument registers of
    RISC-V, overwrite those that hold the first arguments: whatever the values,
    the slots of x0, x1, x3 to x7 and x9 show x10 to x17 (and x9 itself), while
    the stack pointer, frame pointer, link register and pc are right. *)
Theorem aarch64_registers_clobbered v :
  exists rs, registers_from_gdb aarch64_layout (packet (aarch64_packet v)) = Ret rs /\
    let shows r i := RegsSpec.lookup rs r = Some (v i mod 2 ^ 64, false) in
    shows Rax 10 /\ shows Rdx 11 /\ shows Rcx 12 /\ shows Rbx 13 /\ shows Rsi 14 /\ shows Rdi 15 /\
    shows R8 16 /\ shows R9 17 /\ shows R10 9 /\
    shows Rsp 31 /\ shows Rbp 29 /\ shows RetAddr 30 /\ shows Rip 32.
Proof.
  destruct (decoders_on_packet (aarch64_packet v) [] []) as (_&Hrs).
  - unfold aarch64_packet. apply Forall_map. simpl. apply (bool_decide_unpack _). vm_compute. exact I.
  - rewrite app_nil_r. unfold packet, aarch64_packet. rewrite map_map.
    assert (H : zlen (concat (map (fun e => sized e (v (entry_num e))) aarch64_layout)) =
      foldr (fun e n => Z.max 0 (entry_bytes e) + n) 0 aarch64_layout).
    { induction aarch64_layout as [|e l IH]; [done|]. cbn [map concat foldr]. rewrite zlen_app, IH. f_equal.
      unfold zlen, sized. rewrite le_bytes_length. lia. }
    rewrite H. vm_compute. reflexivity.
  - exact I.
  - assert (Hm : map fst (aarch64_packet v) = aarch64_layout).
    { unfold aarch64_packet. rewrite map_map. cbn [fst]. apply map_id. }
    rewrite !app_nil_r, Hm in Hrs.
    eexists. split; [exact Hrs|]. cbv beta zeta. rewrite !lookup_packet.
    repeat split; unfold named, aarch64_packet; rewrite map_map; reflexivity.
Qed.
