(* ===== verification/GdbSession.v ===== *)
(** Properties of a debugger's session with a GDB stub (GdbRegs): reading the
    registers of a thread, connecting, and the files of a target description. *)
From Stdlib Require Import ZArith Lia ZifyBool String.
From stdpp Require Import base list gmap.
From S2P Require Import Prelude RustStr RustText Serial Errors Registers RegistersSpec GdbProto GdbRemote GdbRemoteSpec GdbRegs GdbRegsSpec.
Open Scope Z_scope.

(** ** Reading registers *)

Lemma decode_hex_reply_encode data : Forall is_u8 data -> decode_hex_reply (hex_encode data) = Ret data.
Proof.
  intros H. unfold decode_hex_reply. rewrite from_utf8_ascii by by apply hex_encode_ascii. by apply hex_decode_encode.
Qed.
Lemma packet_u8 l : Forall is_u8 (packet l).
Proof.
  unfold packet. induction l as [|[e v] l IH]; [constructor|]. cbn [map concat]. apply Forall_app. split; [|exact IH].
  apply le_bytes_u8.
Qed.

Lemma request_registers_queue l rest short tid st evs :
  queue st (Packet (str "OK") :: Packet (hex_encode (packet l ++ short)) :: evs) ->
  write_results (stream st) = [] -> orphan_replies st = [] -> resume_in_flight st = false ->
  Forall is_u8 short -> Forall (fun p => 0 <= entry_bits p.1) l -> zlen (packet l ++ short) < 2 ^ 64 - 2 ^ 32 ->
  ends_early rest short ->
  exists st', request_registers (map fst l ++ rest) tid st =
    (Ret (Some (foldl set_named Regs.default (named l), named l)), st') /\ queue st' evs /\
    sent (stream st') = sent (stream st) ++ encode_packet (str "Hg" ++ to_hex (tid mod 2 ^ 64)) ++ ack_bytes st ++
      encode_packet (str "g") ++ ack_bytes st.
Proof.
  intros Hq Hw Ho Hr Hs Hl Hlen He. unfold request_registers. mrun. rewrite Hr. mrun.
  destruct (send_packet_queue (str "Hg" ++ to_hex (tid mod 2 ^ 64)) [] st (str "OK") _ Hq) as (st1&H1&Hq1&Hw1); try done.
  assert (Hset : set_thread (tid mod 2 ^ 64) st = (Ret tt, st1)) by (unfold set_thread; mrun; by rewrite H1).
  rewrite Hset. mrun. destruct Hw1 as (Hs1&Hwr1&Hn1&_&_&Ho1&Hr1).
  destruct (send_packet_queue (str "g") [] st1 (hex_encode (packet l ++ short)) evs Hq1) as (st2&H2&Hq2&Hw2); try done.
  { by rewrite Ho1. } { by rewrite Hr1. }
  assert (Hu : Forall is_u8 (packet l ++ short)) by (apply Forall_app; split; [apply packet_u8|done]).
  assert (Hraw : read_regs_raw st1 = (Ret (packet l ++ short), st2)).
  { unfold read_regs_raw. mrun. rewrite H2. mrun. rewrite hex_encode_not_error by done.
    by rewrite decode_hex_reply_encode. }
  rewrite Hraw. mrun. destruct (decoders_on_packet l rest short Hl Hlen He) as [Hd1 Hd2].
  rewrite Hd1, Hd2. mrun. exists st2. split; [done|]. split; [done|]. destruct Hw2 as (Hs2&_).
  assert (Ha : ack_bytes st1 = ack_bytes st) by (unfold ack_bytes; by rewrite Hn1).
  rewrite Hs2, Hs1, Ha. by rewrite <- !app_assoc.
Qed.

(** C38. Progress: when the target is stopped and the stub answers, reading the
    registers of a thread ends with that thread showing the registers that the
    stub sent, under both sets of names, and no other thread changed; exactly
    two requests are sent, and later packets stay in the queue. *)
Theorem refresh_shows_registers d tid t l rest short evs :
  queue (conn d) (Packet (str "OK") :: Packet (hex_encode (packet l ++ short)) :: evs) ->
  write_results (stream (conn d)) = [] -> orphan_replies (conn d) = [] -> resume_in_flight (conn d) = false ->
  Forall is_u8 short -> Forall (fun p => 0 <= entry_bits p.1) l -> zlen (packet l ++ short) < 2 ^ 64 - 2 ^ 32 ->
  ends_early rest short -> remote_regs d = map fst l ++ rest -> threads d !! tid = Some t ->
  exists d' t', refresh_remote_thread tid d = Ret d' /\ threads d' = <[tid := t']> (threads d) /\
    idx t' = idx t /\ remote_gregs (info t') = Some (named l) /\
    (forall r, RegsSpec.lookup (regs (info t')) r = option_map (fun v => (v, false)) (slot_value r (named l))) /\
    Xsave.ltid (extra_regs (info t')) = Some tid /\
    queue (conn d') evs /\
    sent (stream (conn d')) = sent (stream (conn d)) ++ encode_packet (str "Hg" ++ to_hex (tid mod 2 ^ 64)) ++
      ack_bytes (conn d) ++ encode_packet (str "g") ++ ack_bytes (conn d).
Proof.
  intros Hq Hw Ho Hr Hs Hl Hlen He Hregs Ht. unfold refresh_remote_thread. rewrite Hregs.
  destruct (request_registers_queue l rest short tid (conn d) evs) as (st'&Hreq&Hq'&Hsent); try done.
  rewrite Hreq. eexists _, (set_thread_registers tid (foldl set_named Regs.default (named l)) (named l) t).
  split; [done|]. cbn [threads conn]. split.
  { apply map_eq. intros k. destruct (decide (k = tid)) as [->|Hne].
    - by rewrite lookup_alter_eq, Ht, lookup_insert_eq.
    - by rewrite lookup_alter_ne, lookup_insert_ne. }
  split; [done|]. split; [done|]. split; [intros r; apply lookup_packet|]. split; [done|]. by split.
Qed.

(** A stopped session with one thread and two registers. *)
Definition sample_layout : list reg_entry := [(str "pc", 64, 0); (str "sp", 64, 1)].
Definition sample_session : Session :=
  mkSession (sample_remote [encode_packet (str "OK") ++ encode_packet (hex_encode (packet [((str "pc", 64, 0), 4660)]))])
    sample_layout Riscv64 (<[1 := new_thread 1]> ∅) 2 1.

Lemma refresh_shows_registers_witness :
  exists d' t', refresh_remote_thread 1 sample_session = Ret d' /\ threads d' !! 1 = Some t' /\
    RegsSpec.lookup (regs (info t')) Rip = Some (4660, false) /\ RegsSpec.lookup (regs (info t')) Rsp = None.
Proof.
  destruct (refresh_shows_registers sample_session 1 (new_thread 1) [((str "pc", 64, 0), 4660)] [(str "sp", 64, 1)] [] [])
    as (d'&t'&Hd&Hth&_&_&Hl&_).
  - exists (encode_packet (str "OK") ++ encode_packet (hex_encode (packet [((str "pc", 64, 0), 4660)]))),
      [Packet (str "OK"); Packet (hex_encode (packet [((str "pc", 64, 0), 4660)]))], Decoder_new.
    split; [vm_compute; reflexivity|]. split; [vm_compute; reflexivity|reflexivity].
  - reflexivity.
  - reflexivity.
  - reflexivity.
  - constructor.
  - apply Forall_cons; split; [vm_compute; discriminate|constructor].
  - vm_compute. reflexivity.
  - split; [split; vm_compute; congruence|vm_compute; reflexivity].
  - reflexivity.
  - apply lookup_insert_eq.
  - exists d', t'. split; [exact Hd|]. split; [rewrite Hth; apply lookup_insert_eq|]. rewrite !Hl. split; reflexivity.
Defined.

(** ** Connecting *)

Lemma run_bind_Ret {A B} (m : M A) (f : A -> M B) st b st' :
  (m ≫= f) st = (Ret b, st') -> exists a st1, m st = (Ret a, st1) /\ f a st1 = (Ret b, st').
Proof. rewrite run_bind. destruct (m st) as [[a|e|] st1]; [|done..]. intros H. by exists a, st1. Qed.

(** Live threads have positive identifiers and distinct indices. *)
Definition threads_ok (ths : gmap Z Thread) (next : Z) : Prop :=
  (forall tid t, ths !! tid = Some t -> 0 < tid < 2 ^ 31 /\ 1 <= idx t < next) /\
  (forall tid tid' t t', ths !! tid = Some t -> ths !! tid' = Some t' -> idx t = idx t' -> tid = tid').
(** A session has a layout, at least one thread, and names one of its threads. *)
Definition session_ok (d : Session) : Prop :=
  remote_regs d <> [] /\ is_Some (threads d !! any_live_tid d) /\ threads_ok (threads d) (next_thread_idx d).

Lemma as_pid_range t : as_pid t < 2 ^ 31.
Proof. unfold as_pid, to_signed. case_match; Z.div_mod_to_equations; lia. Qed.

Lemma threads_ok_insert ths next tid :
  threads_ok ths next -> 1 <= next -> 0 < tid < 2 ^ 31 -> threads_ok (<[tid := new_thread next]> ths) (next + 1).
Proof.
  intros [Hr Hi] Hn Ht. split.
  - intros k t. destruct (decide (k = tid)) as [->|Hne].
    + rewrite lookup_insert_eq. intros [= <-]. simpl. lia.
    + rewrite lookup_insert_ne by done. intros H. specialize (Hr _ _ H). lia.
  - intros k k' t t'. destruct (decide (k = tid)) as [->|Hne], (decide (k' = tid)) as [->|Hne'];
      rewrite ?lookup_insert_eq, ?lookup_insert_ne by done; [done| | |apply Hi].
    + intros [= <-] H Hidx. apply Hr in H as [_ H]. simpl in Hidx. lia.
    + intros H [= <-] Hidx. apply Hr in H as [_ H]. simpl in Hidx. lia.
Qed.

Lemma initial_threads_ok tids ths next any_tid :
  initial_threads tids = (ths, next, any_tid) -> is_Some (ths !! any_tid) /\ threads_ok ths next.
Proof.
  unfold initial_threads.
  assert (H : let '(ths, next, any_tid) := foldl add_thread (∅, 1, 0) tids in
    threads_ok ths next /\ 1 <= next /\ (ths = ∅ \/ is_Some (ths !! any_tid))).
  { assert (Hgen : forall acc : gmap Z Thread * Z * Z, (let '(ths, next, any_tid) := acc in
        threads_ok ths next /\ 1 <= next /\ (ths = ∅ \/ is_Some (ths !! any_tid))) ->
      let '(ths, next, any_tid) := foldl add_thread acc tids in
        threads_ok ths next /\ 1 <= next /\ (ths = ∅ \/ is_Some (ths !! any_tid))).
    { induction tids as [|t tids IH]; intros acc Hacc; [done|]. simpl. apply IH.
      destruct acc as [[a n] k]. destruct Hacc as (Ha&Hn&Hk). unfold add_thread.
      destruct (Z.leb_spec (as_pid t) 0); [done|]. pose proof (as_pid_range t).
      split; [by apply threads_ok_insert|]. split; [lia|]. right. rewrite lookup_insert_eq. by eexists. }
    apply Hgen. split; [|split; [lia|by left]]. split; intros *; rewrite lookup_empty; done. }
  destruct (foldl add_thread (∅, 1, 0) tids) as [[a n] k]. destruct H as (Ha&Hn&Hk).
  destruct (decide (a = ∅)) as [->|Hne].
  - rewrite bool_decide_true by done. intros [= <- <- <-]. rewrite lookup_insert_eq. split; [by eexists|].
    by apply threads_ok_insert.
  - rewrite bool_decide_false by done. intros [= <- <- <-]. destruct Hk as [->|Hk]; [done|]. by split.
Qed.

Lemma refresh_ok tid d d' : session_ok d -> refresh_remote_thread tid d = Ret d' -> session_ok d'.
Proof.
  unfold refresh_remote_thread. destruct (request_registers _ _ _) as [[r| |] c]; [|done..].
  intros (Hl&Ha&Hr&Hi) [= <-]. destruct r as [[rs gregs]|]; [|exact (conj Hl (conj Ha (conj Hr Hi)))].
  assert (Hidx : forall k t, alter (set_thread_registers tid rs gregs) tid (threads d) !! k = Some t ->
    exists t0, threads d !! k = Some t0 /\ idx t0 = idx t).
  { intros k t. destruct (decide (k = tid)) as [->|Hne].
    - rewrite lookup_alter_eq. destruct (threads d !! tid) as [t0|]; [|done]. intros [= <-]. by exists t0.
    - rewrite lookup_alter_ne by done. intros H. by exists t. }
  split; [done|]. split; [|split].
  - cbn. destruct (decide (any_live_tid d = tid)) as [<-|Hne].
    + rewrite lookup_alter_eq. destruct Ha as [t Ht]. rewrite Ht. exists (set_thread_registers (any_live_tid d) rs gregs t). reflexivity.
    + by rewrite lookup_alter_ne.
  - cbn. intros k t (t0&H0&<-)%Hidx. by apply (Hr k t0).
  - cbn. intros k k' t t' (t0&H0&<-)%Hidx (t1&H1&<-)%Hidx. by apply Hi.
Qed.

(** C39. Session well-formedness: a successful connection has a register layout, at
    least one thread, a live thread to address, positive thread identifiers and
    distinct thread indices, whatever the stub sent; reading registers keeps all
    of that. *)
Theorem session_well_formed order elf_arch s d :
  connect_remote order elf_arch s = Ret d ->
  session_ok d /\ forall tid d', refresh_remote_thread tid d = Ret d' -> session_ok d'.
Proof.
  intros Hc. assert (session_ok d) as Hok; [|split; [done|]; intros tid d'; by apply refresh_ok].
  unfold connect_remote in Hc. destruct (connect_requests (connect s)) as [[[[xml tids] layout]| |] c] eqn:E; [|done..].
  assert (Hlayout : layout <> []).
  { unfold connect_requests in E. apply run_bind_Ret in E as (?&?&_&E). apply run_bind_Ret in E as (?&?&_&E).
    apply run_bind_Ret in E as (?&?&_&E). apply run_bind_Ret in E as (l&?&_&E).
    apply run_bind_Ret in E as (?&?&_&E). injection E as _ _ <- _.
    destruct (decide (l = [])) as [->|Hne]; [done|]. by rewrite bool_decide_false. }
  destruct (initial_threads tids) as [[ths next] any_tid] eqn:Ei. apply initial_threads_ok in Ei as [Hany Hths].
  set (d0 := mkSession _ _ _ _ _ _) in Hc. assert (H0 : session_ok d0) by (split; [done|by split]).
  assert (Hfold : forall l (m : outcome GdbError Session), (forall d, m = Ret d -> session_ok d) ->
    forall d, foldl (fun d tid => d ≫= refresh_remote_thread tid) m l = Ret d -> session_ok d).
  { induction l as [|tid l IH]; intros m Hm d'; [apply Hm|]. simpl. apply IH. intros d1 Hd1.
    apply bind_Ret in Hd1 as (d2&Hd2&Hr). eapply refresh_ok; [|exact Hr]. by apply Hm. }
  destruct (foldl _ (Ret d0) _) as [d1| |] eqn:Ef; [|done..]. injection Hc as <-.
  eapply Hfold; [|exact Ef]. by intros d2 [= <-].
Qed.

(** A stub with one stopped thread and a description of two registers. *)
Definition sample_stub : TcpStream :=
  mkStream (ReadErr TimedOut :: (ReadBytes ∘ encode_packet <$>
    [str "PacketSize=1000"; str "S05"; 108 :: print_regs [((str "pc", 64, 0), []); ((str "sp", 64, 1), [])];
     str "m1"; str "l"; str "OK"; hex_encode (packet [((str "pc", 64, 0), 4660); ((str "sp", 64, 1), 8192)])]))
    [] [] None [].
Definition in_order (ths : gmap Z Thread) : list Z := elements (dom ths).

Lemma ret_with {E A} (m : outcome E A) (f : A -> bool) :
  match m with Ret a => f a | _ => false end = true -> exists a, m = Ret a /\ f a = true.
Proof. destruct m as [a| |]; [|done..]. intros H. by exists a. Qed.
Definition shows_pc (d : Session) : bool :=
  bool_decide ((t ← threads d !! 1; RegsSpec.lookup (regs (info t)) Rip) = Some (4660, false)).

Lemma sample_connects : exists d, connect_remote in_order None sample_stub = Ret d /\ shows_pc d = true.
Proof. apply ret_with. vm_compute. reflexivity. Qed.

Lemma session_well_formed_witness :
  exists d, connect_remote in_order None sample_stub = Ret d /\ session_ok d /\ shows_pc d = true.
Proof.
  destruct sample_connects as (d&Hd&Hpc). exists d. split; [exact Hd|]. split; [|exact Hpc].
  exact (proj1 (session_well_formed in_order None sample_stub d Hd)).
Defined.

(** ** Included files *)

Lemma scan_includes_grows fuel rest out :
  NoDup out -> NoDup (scan_includes fuel rest out) /\ out `prefix_of` scan_includes fuel rest out.
Proof.
  revert rest out. induction fuel as [|fuel IH]; intros rest out Hout; simpl;
    destruct (find_split _ rest) as [[pre aft]|]; [by split|by split| |by split].
  assert (Hnew : forall h, NoDup (if bool_decide (h ∈ out) then out else out ++ [h]) /\
    out `prefix_of` (if bool_decide (h ∈ out) then out else out ++ [h])).
  { intros h. case_bool_decide as Hh; [by split|]. split; [|by apply prefix_app_r]. apply NoDup_app.
    split; [done|]. split; [|apply NoDup_singleton]. intros x Hx ->%list_elem_of_singleton. done. }
  destruct (attribute _ aft) as [h|]; [|by apply IH].
  destruct (Hnew h) as [Hn Hp]. destruct (IH (drop 10 aft) _ Hn) as [H1 H2]. split; [done|]. by etrans.
Qed.

(** An inclusion after [xi:include], with the text up to the next one. *)
Definition include_text (h gap : list Z) : list Z := str " " ++ (str "href=" ++ QUOTE) ++ h ++ 34 :: gap.
Definition print_includes (l : list (list Z * list Z)) : list Z :=
  concat (map (fun '(h, gap) => str "xi:include" ++ include_text h gap) l).
Definition no_include (s : list Z) : Prop := find_split (str "xi:include") s = None.
Definition include_ok (p : list Z * list Z) : Prop :=
  Forall (fun b => b <> 34) p.1 /\ no_include (include_text p.1 p.2).
Definition add_new (out : list (list Z)) (h : list Z) : list (list Z) := if bool_decide (h ∈ out) then out else out ++ [h].

Lemma include_find gap s : no_include gap ->
  find_split (str "xi:include") (gap ++ str "xi:include" ++ s) = Some (gap, str "xi:include" ++ s).
Proof.
  intros H. change (str "xi:include") with (120 :: str "i:include").
  pose proof (find_split_after 120 (str "i:include") gap s) as E. cbn [app] in E |- *. apply E; [no_char|exact H].
Qed.
Lemma include_href h s : Forall (fun b => b <> 34) h ->
  attribute (str "href=" ++ QUOTE) (str "xi:include" ++ str " " ++ (str "href=" ++ QUOTE) ++ h ++ 34 :: s) = Some h.
Proof.
  intros H. pose proof (attribute_quoted (str "href=" ++ QUOTE) h s H) as E.
  unfold attribute in *. change (str "href=" ++ QUOTE) with (104 :: (str "ref=" ++ QUOTE)) at 1.
  rewrite (app_assoc (str "xi:include")), after_over by no_char. exact E.
Qed.

Lemma scan_includes_print l fuel gap out :
  Forall include_ok l -> no_include gap -> (List.length l <= fuel)%nat ->
  scan_includes fuel (gap ++ print_includes l) out = foldl add_new out (map fst l).
Proof.
  intros Hl. revert fuel gap out. induction Hl as [|[h g] l [Hh Hg] _ IH]; intros fuel gap out Hgap Hf.
  - change (print_includes []) with (@nil Z). rewrite app_nil_r. unfold no_include in Hgap.
    destruct fuel; cbn [scan_includes]; by rewrite Hgap.
  - destruct fuel as [|fuel]; [simpl in Hf; lia|].
    assert (Hc : print_includes ((h, g) :: l) = str "xi:include" ++ include_text h g ++ print_includes l).
    { unfold print_includes. cbn [map concat]. by rewrite <- app_assoc. }
    rewrite Hc. cbn [scan_includes]. rewrite include_find by done. rewrite drop_app_length.
    assert (Ha : attribute (str "href=" ++ [34]) (str "xi:include" ++ include_text h g ++ print_includes l) = Some h).
    { unfold include_text. rewrite <- !app_assoc. cbn [app]. apply (include_href h (g ++ print_includes l)). exact Hh. }
    rewrite Ha. cbn [map foldl fst]. apply IH; [exact Hg|simpl in Hf; lia].
Qed.

(** The files that a description includes: every file named by an inclusion
    is listed once, in the order of first mention, and the list never has a
    duplicate, whatever the text. *)
Theorem includes_listed_once header l xml :
  no_include header -> Forall include_ok l ->
  extract_all_xi_includes (header ++ print_includes l) = foldl add_new [] (map fst l) /\
  (forall h, h ∈ extract_all_xi_includes (header ++ print_includes l) <-> h ∈ map fst l) /\
  NoDup (extract_all_xi_includes xml).
Proof.
  intros Hh Hl. assert (Hx : extract_all_xi_includes (header ++ print_includes l) = foldl add_new [] (map fst l)).
  { apply scan_includes_print; [done..|]. rewrite length_app. clear.
    induction l as [|[h g] l IH]; [simpl; lia|]. unfold print_includes in *. cbn [map concat]. rewrite !length_app.
    change (List.length (str "xi:include")) with 10%nat. cbn [List.length]. lia. }
  split; [exact Hx|]. split; [|by apply scan_includes_grows, NoDup_nil_2].
  intros h. rewrite Hx.
  assert (Hgen : forall out, h ∈ foldl add_new out (map fst l) <-> h ∈ out \/ h ∈ map fst l).
  { clear. induction l as [|[x g] l IH]; intros out; simpl; [rewrite elem_of_nil; tauto|].
    rewrite IH, elem_of_cons. unfold add_new. case_bool_decide as Hx; [naive_solver|].
    rewrite elem_of_app, list_elem_of_singleton. tauto. }
  rewrite Hgen, elem_of_nil. tauto.
Qed.

Lemma includes_listed_once_witness :
  extract_all_xi_includes (str "<target><" ++ print_includes
    [(str "core.xml", str "/><"); (str "vector.xml", str "/><"); (str "core.xml", str "/></target>")]) =
  [str "core.xml"; str "vector.xml"].
Proof.
  destruct (includes_listed_once (str "<target><")
    [(str "core.xml", str "/><"); (str "vector.xml", str "/><"); (str "core.xml", str "/></target>")] [])
    as (H&_).
  - reflexivity.
  - repeat constructor; vm_compute; congruence.
  - rewrite H. reflexivity.
Defined.
