(* ===== verification/StdSort.v ===== *)
(** Sorting of slices ([sort_unstable], [sort_unstable_by_key] and the radix
    sorts): a sorted permutation, the order of equal keys left open. *)
From Stdlib Require Import ZArith Lia.
From stdpp Require Import base list sorting.
From S2P Require Import Prelude.

Class SliceSort {A : Type} (le : relation A) := {
  slice_sort : list A -> list A;
  slice_sort_perm l : slice_sort l ≡ₚ l;
  slice_sort_sorted l : StronglySorted le (slice_sort l)
}.
Arguments slice_sort {A} le {SliceSort} l.
#[export] Hint Resolve slice_sort_perm slice_sort_sorted : nnd.

Lemma StronglySorted_lookup {A} (R : relation A) l : StronglySorted R l ->
  forall i j x y, (i < j)%nat -> l !! i = Some x -> l !! j = Some y -> R x y.
Proof.
  induction 1 as [|z l _ IH Hz]; intros i j x y Hij Hi Hj; [done|]. destruct j as [|j]; [lia|]. destruct i as [|i]; simplify_eq/=.
  - by apply (Forall_lookup_1 _ _ _ _ Hz Hj).
  - apply (IH i j); [lia|done|done].
Qed.

(** A merge sort is one. *)
Definition merge_slice_sort {A} (le : relation A) `{!RelDecision le} `{!Total le} `{!Transitive le} : SliceSort le.
Proof.
  refine {| slice_sort := merge_sort le |}; [apply merge_sort_Permutation|].
  intros l. by apply Sorted_StronglySorted, (Sorted_merge_sort le).
Defined.

(** Order by a key that is an integer, or a pair of them. *)
Definition by_key {A} (key : A -> Z) : relation A := fun x y => (key x <= key y)%Z.
#[export] Instance by_key_dec {A} (key : A -> Z) : RelDecision (by_key key).
Proof. intros x y. unfold by_key. apply _. Defined.
#[export] Instance by_key_total {A} (key : A -> Z) : Total (by_key key).
Proof. intros x y. unfold by_key. lia. Qed.
#[export] Instance by_key_trans {A} (key : A -> Z) : Transitive (by_key key).
Proof. intros x y z. unfold by_key. lia. Qed.
Definition by_keys {A} (key : A -> Z * Z) : relation A :=
  fun x y => ((key x).1 < (key y).1 \/ (key x).1 = (key y).1 /\ (key x).2 <= (key y).2)%Z.
#[export] Instance by_keys_dec {A} (key : A -> Z * Z) : RelDecision (by_keys key).
Proof. intros x y. unfold by_keys. apply _. Defined.
#[export] Instance by_keys_total {A} (key : A -> Z * Z) : Total (by_keys key).
Proof. intros x y. unfold by_keys. lia. Qed.
#[export] Instance by_keys_trans {A} (key : A -> Z * Z) : Transitive (by_keys key).
Proof. intros x y z. unfold by_keys. lia. Qed.

(** [Vec::dedup_by_key]: of consecutive equal keys the first stays. *)
Fixpoint dedup_from {A} (key : A -> Z) (last : Z) (l : list A) : list A :=
  match l with
  | [] => []
  | x :: l => if (key x =? last)%Z then dedup_from key last l else x :: dedup_from key (key x) l
  end.
Definition dedup_by_key {A} (key : A -> Z) (l : list A) : list A :=
  match l with [] => [] | x :: l => x :: dedup_from key (key x) l end.

Section Dedup.
  Context {A : Type} (key : A -> Z).
Local Open Scope Z_scope.
Lemma dedup_from_subset last l x : x ∈ dedup_from key last l -> x ∈ l.
Proof.
  revert last; induction l as [|y l IH]; intros last; simpl; [done|]. case_match.
  - intros ?%IH. by apply list_elem_of_further.
  - rewrite !elem_of_cons. intros [->|?%IH]; auto.
Qed.
(** Sorted keys become strictly sorted. *)
Lemma dedup_from_strict last l : StronglySorted (by_key key) l -> Forall (fun x => last <= key x) l ->
  StronglySorted (fun x y => key x < key y) (dedup_from key last l) /\ Forall (fun x => last < key x) (dedup_from key last l).
Proof.
  revert last; induction l as [|x l IH]; intros last Hs Hl; simpl; [split; constructor|].
  apply StronglySorted_inv in Hs as [Hs Hx]. apply Forall_cons in Hl as [Hlx Hl].
  destruct (Z.eqb_spec (key x) last) as [E|E]; [by apply IH|].
  destruct (IH (key x) Hs Hx) as [IH1 IH2]. split; [by constructor|]. constructor; [lia|].
  eapply Forall_impl; [apply IH2|]. simpl. lia.
Qed.
(** Every key is kept, with an element before which no element has it. *)
Lemma dedup_from_keys last l : StronglySorted (by_key key) l -> Forall (fun x => last <= key x) l ->
  forall x, x ∈ l -> key x = last \/ exists y, y ∈ dedup_from key last l /\ key y = key x.
Proof.
  revert last; induction l as [|z l IH]; intros last Hs Hl x Hx; [by apply elem_of_nil in Hx|]. simpl.
  apply StronglySorted_inv in Hs as [Hs Hz]. apply Forall_cons in Hl as [Hlz Hl].
  destruct (Z.eqb_spec (key z) last) as [E|E]; apply elem_of_cons in Hx as [->|Hx]; [by left|by apply IH| |].
  - right. exists z. split; [apply list_elem_of_here|done].
  - right. destruct (IH (key z) Hs Hz x Hx) as [E'|(y&Hy&Ey)].
    + exists z. split; [apply list_elem_of_here|done].
    + exists y. split; [by apply list_elem_of_further|done].
Qed.
End Dedup.
