(* ===== verification/LineInfo.v ===== *)
(** Line numbers of machine code (LineInfo of src/symbols.rs): an address, a
    place in a source file and flags in two words of 64 bits. *)
From Stdlib Require Import ZArith Lia.
From stdpp Require Import base list.
From S2P Require Import Prelude Errors Types LeBytes.
Open Scope Z_scope.

Module LineFlags.
Definition INLINED_FUNCTION : Z := 0x1.
Definition STATEMENT : Z := 0x2.
End LineFlags.

(** Word 0: 48 bits of address, 14 bits of column, 2 bits of flags. Word 1: 26
    bits of file, 26 bits of line, 12 bits of subfunction level. *)
Record LineInfo := mkLine { data0 : Z; data1 : Z }.
Definition SUBFUNCTION_LEVEL_MAX : Z := 2 ^ 12 - 1.
Definition NO_FILE_IDX : Z := 2 ^ 26 - 1.
(** [x << n] on [usize] *)
Definition shl64 (x n : Z) : Z := wrap64 (Z.shiftl x n).

Definition line_new (addr : Z) (file_idx : option Z) (line column flags subfunction_level : Z) : result LineInfo :=
  let subfunction_level := Z.min subfunction_level SUBFUNCTION_LEVEL_MAX in
  file_idx ← match file_idx with
             | None => Ret NO_FILE_IDX
             | Some i => if NO_FILE_IDX <=? i then Fail (Code NotImplemented) else Ret i
             end;
  if 2 ^ 48 <=? addr then Fail (Code NotImplemented)
  else
    let '(line, column) :=
      if (2 ^ 26 <=? line) || (2 ^ 14 <=? column) then (Z.min line (2 ^ 26 - 1), Z.min column (2 ^ 14 - 1)) else (line, column) in
    Ret (mkLine (Z.lor (Z.lor (shl64 addr 16) (shl64 column 2)) flags)
                (Z.lor (Z.lor (shl64 file_idx 38) (shl64 line 12)) subfunction_level)).
Definition line_invalid : LineInfo := mkLine U64_MAX U64_MAX.

Definition l_addr (l : LineInfo) : Z := Z.shiftr (data0 l) 16.
Definition l_column (l : LineInfo) : Z := Z.land (Z.shiftr (data0 l) 2) (Z.shiftl 1 14 - 1).
Definition l_flags (l : LineInfo) : Z := Z.land (data0 l) (Z.shiftl 1 2 - 1).
Definition l_file_idx (l : LineInfo) : option Z :=
  let r := Z.shiftr (data1 l) 38 in if r =? NO_FILE_IDX then None else Some r.
Definition l_line (l : LineInfo) : Z := Z.land (Z.shiftr (data1 l) 12) (Z.shiftl 1 26 - 1).
Definition l_subfunction_level (l : LineInfo) : Z := Z.land (data1 l) (Z.shiftl 1 14 - 1) mod 2 ^ 16.

Definition set_flag (l : LineInfo) (f : Z) : LineInfo := mkLine (Z.lor (data0 l) f) (data1 l).
Definition unset_flag (l : LineInfo) (f : Z) : LineInfo := mkLine (Z.ldiff (data0 l) f) (data1 l).
Definition set_line_and_column_from (l from : LineInfo) : LineInfo :=
  let col_bits := Z.shiftl 1 16 - Z.shiftl 1 2 in
  let line_bits := Z.shiftl 1 38 - Z.shiftl 1 12 in
  mkLine (Z.lor (Z.ldiff (data0 l) col_bits) (Z.land (data0 from) col_bits))
         (Z.lor (Z.ldiff (data1 l) line_bits) (Z.land (data1 from) line_bits)).
Definition with_addr (l : LineInfo) (addr : Z) : LineInfo :=
  mkLine (Z.lor (Z.land (data0 l) 0xffff) (shl64 addr 16)) (data1 l).
Definition with_addr_and_flags (l : LineInfo) (addr flags : Z) : LineInfo :=
  mkLine (Z.lor (Z.lor (Z.land (data0 l) (Z.shiftl 1 16 - Z.shiftl 1 2)) (shl64 addr 16)) flags) (data1 l).
Definition with_subfunction_level (l : LineInfo) (subfunction_level : Z) : LineInfo :=
  let subfunction_level := Z.min subfunction_level SUBFUNCTION_LEVEL_MAX in
  mkLine (data0 l) (Z.lor (Z.ldiff (data1 l) (Z.shiftl 1 12 - 1)) subfunction_level).

Definition line_equals (l other : LineInfo) (use_line_number_with_column : bool) : bool :=
  bool_decide (l_file_idx l = l_file_idx other) && (l_line l =? l_line other) &&
  (negb use_line_number_with_column || (l_column l =? l_column other)).
(** Sorting keys: by (file, line, column, addr), and by (addr, no file, no line,
    end of an inlined function). *)
Definition file_line_column_addr (l : LineInfo) : Z * Z :=
  (Z.ldiff (data1 l) (Z.shiftl 1 12 - 1), Z.lor (shl64 (Z.shiftr (data0 l) 2) (48 + 2)) (Z.shiftr (data0 l) 16)).
Definition addr_filenone_linebad_inlined (l : LineInfo) : Z :=
  let k := Z.land (data0 l) 0xffffffffffff0000 in
  let a := Z.shiftr (data1 l) 38 =? NO_FILE_IDX in
  let b := l_line l =? 0 in
  let c := negb (Z.land (data0 l) LineFlags.INLINED_FUNCTION =? 0) in
  Z.lor (Z.lor (Z.lor k (Z.shiftl (Z.b2z a) 2)) (Z.shiftl (Z.b2z b) 1)) (Z.b2z c).

(** ** The fields *)

(** What the words hold. *)
Record Fields := mkFields { addr : Z; column : Z; fflags : Z; file : Z; line : Z; level : Z }.
Definition fields_of (l : LineInfo) : Fields :=
  mkFields (data0 l / 2 ^ 16) (data0 l / 2 ^ 2 mod 2 ^ 14) (data0 l mod 2 ^ 2)
    (data1 l / 2 ^ 38) (data1 l / 2 ^ 12 mod 2 ^ 26) (data1 l mod 2 ^ 12).
Definition pack (f : Fields) : LineInfo :=
  mkLine (addr f * 2 ^ 16 + column f * 2 ^ 2 + fflags f) (file f * 2 ^ 38 + line f * 2 ^ 12 + level f).
Definition fields_ok (f : Fields) : Prop :=
  0 <= addr f < 2 ^ 48 /\ 0 <= column f < 2 ^ 14 /\ 0 <= fflags f < 2 ^ 2 /\
  0 <= file f < 2 ^ 26 /\ 0 <= line f < 2 ^ 26 /\ 0 <= level f < 2 ^ 12.
Definition line_ok (l : LineInfo) : Prop := is_u64 (data0 l) /\ is_u64 (data1 l).

Lemma split3 hi mid lo a b : 0 <= lo < 2 ^ a -> 0 <= mid < 2 ^ b -> 0 <= a -> 0 <= b ->
  (hi * 2 ^ (a + b) + mid * 2 ^ a + lo) / 2 ^ (a + b) = hi /\
  (hi * 2 ^ (a + b) + mid * 2 ^ a + lo) / 2 ^ a mod 2 ^ b = mid /\
  (hi * 2 ^ (a + b) + mid * 2 ^ a + lo) mod 2 ^ a = lo.
Proof.
  intros Hlo Hmid Ha Hb. rewrite Z.pow_add_r by lia. split_and!.
  - symmetry. apply Z.div_unique with (mid * 2 ^ a + lo); [left; nia|nia].
  - replace ((hi * (2 ^ a * 2 ^ b) + mid * 2 ^ a + lo)) with ((hi * 2 ^ b + mid) * 2 ^ a + lo) by ring.
    rewrite Z.div_add_l, (Z.div_small lo), Z.add_0_r by lia. rewrite Z.add_comm, Z_mod_plus_full. apply Z.mod_small. lia.
  - replace ((hi * (2 ^ a * 2 ^ b) + mid * 2 ^ a + lo)) with (lo + (hi * 2 ^ b + mid) * 2 ^ a) by ring.
    rewrite Z_mod_plus_full. by apply Z.mod_small.
Qed.
Lemma join3 x a b : 0 <= a -> 0 <= b -> x / 2 ^ (a + b) * 2 ^ (a + b) + x / 2 ^ a mod 2 ^ b * 2 ^ a + x mod 2 ^ a = x.
Proof.
  intros Ha Hb. pose proof (Z.div_mod x (2 ^ a) ltac:(lia)). pose proof (Z.div_mod (x / 2 ^ a) (2 ^ b) ltac:(lia)) as H2.
  rewrite Z.div_div in H2 by lia. rewrite Z.pow_add_r by lia. nia.
Qed.
Lemma fields_pack f : fields_ok f -> fields_of (pack f) = f.
Proof.
  destruct f as [a c fl fi li le]. intros (Ha&Hc&Hf&Hfi&Hl&Hle). simpl in *. unfold fields_of, pack. cbn [data0 data1 addr column fflags file line level].
  destruct (split3 a c fl 2 14) as (E1&E2&E3); [lia..|]. destruct (split3 fi li le 12 26) as (E4&E5&E6); [lia..|].
  change (2 + 14) with 16 in *. change (12 + 26) with 38 in *. by rewrite E1, E2, E3, E4, E5, E6.
Qed.
Lemma pack_fields l : pack (fields_of l) = l.
Proof.
  destruct l as [x y]. unfold pack, fields_of. cbn [data0 data1 addr column fflags file line level]. f_equal.
  - apply (join3 x 2 14); lia.
  - apply (join3 y 12 26); lia.
Qed.
Lemma fields_of_ok l : line_ok l -> fields_ok (fields_of l).
Proof.
  intros [H0 H1]. unfold is_u64 in *. unfold fields_ok, fields_of. cbn [addr column fflags file line level].
  split_and!; try (apply Z.mod_pos_bound; lia); try (apply Z.div_pos; lia); apply Z.div_lt_upper_bound; lia.
Qed.

Lemma land_middle x a b : 0 <= a <= b -> Z.land x (Z.shiftl 1 b - Z.shiftl 1 a) = x / 2 ^ a mod 2 ^ (b - a) * 2 ^ a.
Proof.
  intros Hab. rewrite !Z.shiftl_1_l. rewrite <- Z.shiftr_div_pow2, <- Z.land_ones, <- Z.shiftl_mul_pow2 by lia.
  replace (2 ^ b - 2 ^ a) with (Z.shiftl (Z.ones (b - a)) a).
  2: { rewrite Z.shiftl_mul_pow2, Z.ones_equiv by lia. unfold Z.pred. rewrite Z.mul_add_distr_r, <- Z.pow_add_r by lia. rewrite Z.sub_add. lia. }
  apply Z.bits_inj'. intros n Hn. rewrite Z.land_spec, !Z.shiftl_spec by lia. destruct (Z.leb_spec a n).
  - by rewrite Z.land_spec, Z.shiftr_spec, Z.sub_add by lia.
  - by rewrite !(Z.testbit_neg_r _ (n - a)), andb_false_r by lia.
Qed.
Lemma ldiff_sub x m : Z.ldiff x m = x - Z.land x m.
Proof.
  rewrite Z.sub_nocarry_ldiff.
  - apply Z.bits_inj'. intros n Hn. rewrite !Z.ldiff_spec, Z.land_spec. by destruct (Z.testbit x n), (Z.testbit m n).
  - apply Z.bits_inj'. intros n Hn. rewrite Z.ldiff_spec, Z.land_spec, Z.bits_0. by destruct (Z.testbit x n), (Z.testbit m n).
Qed.
Lemma lor_add x y : Z.land x y = 0 -> Z.lor x y = x + y.
Proof. intros H. pose proof (Z.add_lor_land x y). lia. Qed.
Lemma shl64_small x n w : 0 <= n -> 0 <= x < 2 ^ w -> w + n <= 64 -> 0 <= w -> shl64 x n = Z.shiftl x n.
Proof.
  intros Hn Hx Hw Hw0. unfold shl64, wrap64. apply Z.mod_small. rewrite Z.shiftl_mul_pow2 by lia. split; [nia|].
  apply Z.lt_le_trans with (2 ^ w * 2 ^ n); [nia|]. rewrite <- Z.pow_add_r by lia. apply Z.pow_le_mono_r; lia.
Qed.
(** Three fields in a word. *)
Lemma lor3 hi mid lo a b : 0 <= a -> 0 <= b -> 0 <= mid < 2 ^ b -> 0 <= lo < 2 ^ a ->
  Z.lor (Z.lor (Z.shiftl hi (a + b)) (Z.shiftl mid a)) lo = hi * 2 ^ (a + b) + mid * 2 ^ a + lo.
Proof.
  intros Ha Hb Hm Hl. rewrite Z.lor_comm, (Z.add_comm a b), <- (Z.shiftl_shiftl _ b a), <- Z.shiftl_lor, lor_small by lia.
  rewrite Z.lor_comm, lor_small by lia. rewrite Z.pow_add_r by lia. ring.
Qed.

Section Accessors.
  Context (l : LineInfo).
  Abbreviation f := (fields_of l).
Lemma l_addr_field : l_addr l = addr f.
Proof using Type. apply Z.shiftr_div_pow2. lia. Qed.
Lemma l_column_field : l_column l = column f.
Proof using Type. unfold l_column. by rewrite land_low, Z.shiftr_div_pow2 by lia. Qed.
Lemma l_flags_field : l_flags l = fflags f.
Proof using Type. unfold l_flags. by rewrite land_low by lia. Qed.
Lemma l_file_idx_field : l_file_idx l = if file f =? NO_FILE_IDX then None else Some (file f).
Proof using Type. unfold l_file_idx. by rewrite Z.shiftr_div_pow2 by lia. Qed.
Lemma l_line_field : l_line l = line f.
Proof using Type. unfold l_line. by rewrite land_low, Z.shiftr_div_pow2 by lia. Qed.
(** The mask takes two bits too many: they are the low bits of the line. *)
Lemma l_subfunction_level_field : l_subfunction_level l = level f + 2 ^ 12 * (line f mod 4).
Proof using Type.
  unfold l_subfunction_level. rewrite land_low by lia. rewrite Z.mod_small.
  2: { pose proof (Z.mod_pos_bound (data1 l) (2 ^ 14) ltac:(lia)). lia. }
  unfold fields_of. cbn [level line]. change (2 ^ 26) with (2 ^ 24 * 4). rewrite (Z.mul_comm _ 4), Z.rem_mul_r by lia.
  rewrite (Z.mul_comm 4), Z_mod_plus_full, Zmod_mod. change (2 ^ 14) with (2 ^ 12 * 4). rewrite Z.rem_mul_r by lia. lia.
Qed.
End Accessors.

Lemma line_new_pack a fi li c fl le : 0 <= a < 2 ^ 48 -> (forall i, fi = Some i -> 0 <= i < NO_FILE_IDX) ->
  0 <= li < 2 ^ 26 -> 0 <= c < 2 ^ 14 -> 0 <= fl < 4 -> 0 <= le < 2 ^ 12 ->
  line_new a fi li c fl le = Ret (pack (mkFields a c fl (default NO_FILE_IDX fi) li le)).
Proof.
  intros Ha Hfi Hli Hc Hfl Hle. unfold line_new, SUBFUNCTION_LEVEL_MAX. rewrite (Z.min_l le) by lia.
  assert (Hf : 0 <= default NO_FILE_IDX fi < 2 ^ 26) by (destruct fi as [i|]; simpl; [specialize (Hfi i eq_refl)|]; unfold NO_FILE_IDX in *; lia).
  assert (match fi with None => Ret NO_FILE_IDX | Some i => if NO_FILE_IDX <=? i then Fail (Code NotImplemented) else Ret i end
    = Ret (E := Error) (default NO_FILE_IDX fi)) as ->.
  { destruct fi as [i|]; [|done]. specialize (Hfi i eq_refl). by rewrite (proj2 (Z.leb_gt _ _)) by lia. }
  cbn [mbind outcome_bind]. rewrite !(proj2 (Z.leb_gt _ _)) by lia. cbn [orb].
  rewrite (shl64_small a 16 48), (shl64_small c 2 14), (shl64_small _ 38 26), (shl64_small li 12 26) by lia.
  unfold pack. cbn [addr column fflags file line level]. do 2 f_equal; [apply (lor3 a c fl 2 14)|apply (lor3 _ li le 12 26)]; lia.
Qed.

(** ** Properties *)

Lemma line_new_correct a fi li c fl le : 0 <= a -> 0 <= li -> 0 <= c -> 0 <= fl < 4 -> 0 <= le ->
  (forall i, fi = Some i -> 0 <= i) ->
  match line_new a fi li c fl le with
  | Ret l => line_ok l /\ l_addr l = a /\ l_file_idx l = fi /\ l_flags l = fl /\
      l_line l = Z.min li (2 ^ 26 - 1) /\ l_column l = Z.min c (2 ^ 14 - 1) /\ level (fields_of l) = Z.min le SUBFUNCTION_LEVEL_MAX
  | Fail e => e = Code NotImplemented /\ (2 ^ 48 <= a \/ exists i, fi = Some i /\ NO_FILE_IDX <= i)
  | Panic => False
  end.
Proof.
  intros Ha Hli Hc Hfl Hle Hfi. assert (Hdec : (exists i, fi = Some i /\ NO_FILE_IDX <= i) \/ ~ exists i, fi = Some i /\ NO_FILE_IDX <= i).
  { destruct fi as [i|]; [destruct (Z.leb_spec NO_FILE_IDX i)|]; [left; by exists i|right; intros (j&[= <-]&?); lia|right; by intros (j&?&_)]. }
  destruct Hdec as [(i&->&Hi)|Hno].
  { unfold line_new. rewrite (proj2 (Z.leb_le NO_FILE_IDX i)) by done. split; [done|]. right. by exists i. }
  destruct (Z.leb_spec (2 ^ 48) a) as [Hbig|Hsmall].
  { unfold line_new. destruct fi as [i|]; [destruct (Z.leb_spec NO_FILE_IDX i); [by destruct Hno; exists i|]|];
      cbn [mbind outcome_bind]; rewrite (proj2 (Z.leb_le _ a)) by done; (split; [done|by left]). }
  assert (line_new a fi li c fl le = line_new a fi (Z.min li (2 ^ 26 - 1)) (Z.min c (2 ^ 14 - 1)) fl (Z.min le SUBFUNCTION_LEVEL_MAX)) as ->.
  { unfold line_new. rewrite (Z.min_l (Z.min le _)) by lia. destruct (match fi with None => _ | Some _ => _ end); cbn [mbind outcome_bind]; [|done|done].
    rewrite (proj2 (Z.leb_gt _ a)) by lia. rewrite (proj2 (Z.leb_gt _ (Z.min li _))), (proj2 (Z.leb_gt _ (Z.min c _))) by lia. cbn [orb].
    destruct (Z.leb_spec (2 ^ 26) li), (Z.leb_spec (2 ^ 14) c); cbn [orb]; [done..|]. by rewrite (Z.min_l li), (Z.min_l c) by lia. }
  assert (Hf : forall i, fi = Some i -> 0 <= i < NO_FILE_IDX).
  { intros i ->. split; [by apply Hfi|]. destruct (Z.ltb_spec i NO_FILE_IDX); [done|]. by destruct Hno; exists i. }
  unfold SUBFUNCTION_LEVEL_MAX. rewrite line_new_pack by (done || lia). set (f := mkFields _ _ _ _ _ _).
  assert (Hok : fields_ok f).
  { unfold f, fields_ok. cbn [addr column fflags file line level]. split_and!; try lia; destruct fi as [i|]; simpl; try (specialize (Hf i eq_refl)); unfold NO_FILE_IDX in *; lia. }
  split. { destruct Hok as (?&?&?&?&?&?). unfold line_ok, is_u64, pack. cbn [data0 data1]. lia. }
  rewrite l_addr_field, l_file_idx_field, l_flags_field, l_line_field, l_column_field, fields_pack by done. unfold f. cbn [addr column fflags file line level].
  split_and!; try done. destruct fi as [i|]; simpl; [|done]. specialize (Hf i eq_refl). by rewrite (proj2 (Z.eqb_neq _ _)) by lia.
Qed.

(** The words keep what is put into them: address, column, flags, file and
    line are read back, for all values that fit their bits; files and addresses
    that do not fit are errors, and lines and columns are clamped. *)
Theorem line_info_roundtrip a fi li c fl le : 0 <= a -> 0 <= li -> 0 <= c -> 0 <= fl < 4 -> 0 <= le ->
  (forall i, fi = Some i -> 0 <= i) ->
  match line_new a fi li c fl le with
  | Ret l => line_ok l /\ l_addr l = a /\ l_file_idx l = fi /\ l_flags l = fl /\
      l_line l = Z.min li (2 ^ 26 - 1) /\ l_column l = Z.min c (2 ^ 14 - 1) /\ level (fields_of l) = Z.min le SUBFUNCTION_LEVEL_MAX
  | Fail e => e = Code NotImplemented /\ (2 ^ 48 <= a \/ exists i, fi = Some i /\ NO_FILE_IDX <= i)
  | Panic => False
  end.
Proof. apply line_new_correct. Qed.
Lemma line_info_roundtrip_witness : exists l, line_new 4660 (Some 3) (2 ^ 27) 5 2 7 = Ret l /\ l_addr l = 4660 /\ l_file_idx l = Some 3 /\ l_line l = 2 ^ 26 - 1.
Proof.
  pose proof (line_info_roundtrip 4660 (Some 3) (2 ^ 27) 5 2 7 ltac:(lia) ltac:(lia) ltac:(lia) ltac:(lia) ltac:(lia) ltac:(by intros i [= <-])) as H.
  destruct (line_new 4660 (Some 3) (2 ^ 27) 5 2 7) as [l|e|] eqn:E; [|vm_compute in E; done|done]. exists l. destruct H as (_&?&?&_&?&_). by split_and!.
Defined.

(** The accessor of the subfunction level masks 14 bits where the field has
    12: it adds the two low bits of the line number, 4096 times, to the level,
    so that for three lines out of four the level is above the maximum that
    stands for no level. *)
Theorem subfunction_level_has_line_bits l :
  l_subfunction_level l = level (fields_of l) + 4096 * (l_line l mod 4) /\
  (l_line l mod 4 = 0 \/ SUBFUNCTION_LEVEL_MAX < l_subfunction_level l).
Proof.
  rewrite l_subfunction_level_field, l_line_field. split; [done|]. destruct (Z.eq_dec (line (fields_of l) mod 4) 0) as [|Hne]; [by left|right]. unfold SUBFUNCTION_LEVEL_MAX.
  pose proof (Z.mod_pos_bound (data1 l) (2 ^ 12) ltac:(lia)). pose proof (Z.mod_pos_bound (line (fields_of l)) 4 ltac:(lia)).
  unfold fields_of at 1. cbn [level]. lia.
Qed.

(** Lexicographic order. *)
Fixpoint lex (a b : list Z) : comparison :=
  match a, b with
  | x :: a, y :: b => match x ?= y with Eq => lex a b | c => c end
  | _, _ => Eq
  end.
Lemma scale_compare k x y r s : 0 < k -> 0 <= r < k -> 0 <= s < k -> (x * k + r ?= y * k + s) = lex [x; r] [y; s].
Proof.
  intros Hk Hr Hs. cbn [lex]. destruct (Z.compare_spec x y) as [->|H|H].
  - rewrite Z.add_compare_mono_l. by destruct (r ?= s).
  - apply Z.compare_lt_iff. nia.
  - apply Z.compare_gt_iff. nia.
Qed.
Lemma first_key_field l : (file_line_column_addr l).1 = (file (fields_of l) * 2 ^ 26 + line (fields_of l)) * 2 ^ 12.
Proof.
  cbn [fst file_line_column_addr]. rewrite ldiff_sub, land_low by lia. pose proof (join3 (data1 l) 12 26 ltac:(lia) ltac:(lia)) as H.
  unfold fields_of. cbn [file line]. change (12 + 26) with 38 in H. lia.
Qed.
Lemma second_key_field l : line_ok l -> (file_line_column_addr l).2 = column (fields_of l) * 2 ^ 50 + addr (fields_of l).
Proof.
  intros Hl. pose proof (fields_of_ok l Hl) as (Ha&Hc&_). cbn [snd file_line_column_addr]. change (48 + 2) with 50.
  rewrite Z.lor_comm. rewrite !Z.shiftr_div_pow2 by lia. unfold shl64, wrap64. rewrite Z.shiftl_mul_pow2 by lia.
  change (2 ^ 64) with (2 ^ 14 * 2 ^ 50). rewrite Z.mul_mod_distr_r, <- Z.shiftl_mul_pow2, lor_small by (unfold fields_of in *; cbn [addr column] in *; lia).
  unfold fields_of. cbn [addr column]. lia.
Qed.
Lemma addr_key_field l : line_ok l -> addr_filenone_linebad_inlined l =
  addr (fields_of l) * 2 ^ 16 + Z.b2z (bool_decide (l_file_idx l = None)) * 4 + Z.b2z (l_line l =? 0) * 2 + fflags (fields_of l) mod 2.
Proof.
  intros Hl. unfold addr_filenone_linebad_inlined. rewrite Z.shiftr_div_pow2 by lia.
  assert ((data1 l / 2 ^ 38 =? NO_FILE_IDX) = bool_decide (l_file_idx l = None)) as ->.
  { rewrite l_file_idx_field. unfold fields_of. cbn [file]. by destruct (data1 l / 2 ^ 38 =? NO_FILE_IDX). }
  assert (Z.land (data0 l) 0xffffffffffff0000 = addr (fields_of l) * 2 ^ 16) as ->.
  { change 0xffffffffffff0000 with (Z.shiftl 1 64 - Z.shiftl 1 16). rewrite land_middle by lia. f_equal. apply Z.mod_small.
    apply (fields_of_ok l Hl). }
  assert (negb (Z.land (data0 l) LineFlags.INLINED_FUNCTION =? 0) = (fflags (fields_of l) mod 2 =? 1)) as ->.
  { unfold LineFlags.INLINED_FUNCTION. change 1 with (Z.ones 1) at 1. rewrite Z.land_ones by lia. unfold fields_of. cbn [fflags].
    change (2 ^ 2) with (2 * 2). rewrite Z.rem_mul_r, Z.add_comm, (Z.mul_comm 2), Z.add_comm, Z_mod_plus_full, Zmod_mod by lia.
    change (2 ^ 1) with 2. pose proof (Z.mod_pos_bound (data0 l) 2 ltac:(lia)). destruct (Z.eqb_spec (data0 l mod 2) 0), (Z.eqb_spec (data0 l mod 2) 1); done || lia. }
  pose proof (Z.mod_pos_bound (fflags (fields_of l)) 2 ltac:(lia)) as Hm.
  assert (Hlow : forall a b c : bool, Z.lor (Z.lor (Z.lor (addr (fields_of l) * 2 ^ 16) (Z.shiftl (Z.b2z a) 2)) (Z.shiftl (Z.b2z b) 1)) (Z.b2z c)
    = addr (fields_of l) * 2 ^ 16 + Z.b2z a * 4 + Z.b2z b * 2 + Z.b2z c).
  { intros a b c. rewrite <- !Z.lor_assoc, Z.lor_comm, <- Z.shiftl_mul_pow2, lor_small by (done || by destruct a, b, c).
    assert (Z.lor (Z.shiftl (Z.b2z a) 2) (Z.lor (Z.shiftl (Z.b2z b) 1) (Z.b2z c)) = Z.b2z a * 4 + Z.b2z b * 2 + Z.b2z c) as -> by (by destruct a, b, c).
    rewrite Z.shiftl_mul_pow2 by lia. lia. }
  rewrite Hlow. destruct (Z.eqb_spec (fflags (fields_of l) mod 2) 1); cbn [Z.b2z]; lia.
Qed.

(** The file as it is stored: no file is above all others. *)
Definition file_key (l : LineInfo) : Z := default NO_FILE_IDX (l_file_idx l).
Lemma file_key_field l : file_key l = file (fields_of l).
Proof. unfold file_key. rewrite l_file_idx_field. by destruct (Z.eqb_spec (file (fields_of l)) NO_FILE_IDX). Qed.

(** The packed sorting keys compare like the tuples they stand for. *)
Theorem sorting_keys_lexicographic l k : line_ok l -> line_ok k ->
  lex [(file_line_column_addr l).1; (file_line_column_addr l).2] [(file_line_column_addr k).1; (file_line_column_addr k).2]
    = lex [file_key l; l_line l; l_column l; l_addr l] [file_key k; l_line k; l_column k; l_addr k] /\
  (addr_filenone_linebad_inlined l ?= addr_filenone_linebad_inlined k)
    = lex [l_addr l; Z.b2z (bool_decide (l_file_idx l = None)); Z.b2z (l_line l =? 0); l_flags l mod 2]
          [l_addr k; Z.b2z (bool_decide (l_file_idx k = None)); Z.b2z (l_line k =? 0); l_flags k mod 2].
Proof.
  intros Hl Hk. pose proof (fields_of_ok l Hl) as (Ha&Hc&Hf&Hfi&Hli&_). pose proof (fields_of_ok k Hk) as (Ha'&Hc'&Hf'&Hfi'&Hli'&_). split.
  - rewrite !first_key_field, !second_key_field, !file_key_field, !l_line_field, !l_column_field, !l_addr_field by done.
    set (x := fields_of l) in *. set (y := fields_of k) in *.
    assert (((file x * 2 ^ 26 + line x) * 2 ^ 12 ?= (file y * 2 ^ 26 + line y) * 2 ^ 12) = lex [file x; line x] [file y; line y]) as H1.
    { rewrite <- scale_compare with (k := 2 ^ 26) by lia. symmetry. apply Zmult_compare_compat_r. done. }
    assert (H2 := scale_compare (2 ^ 50) (column x) (column y) (addr x) (addr y) ltac:(lia) ltac:(lia) ltac:(lia)).
    cbn [lex] in H1, H2 |- *. rewrite H1, H2.
    by destruct (file x ?= file y), (line x ?= line y), (column x ?= column y), (addr x ?= addr y).
  - rewrite !addr_key_field, !l_addr_field, !l_flags_field by done.
    pose proof (Z.mod_pos_bound (fflags (fields_of l)) 2 ltac:(lia)) as Hm. pose proof (Z.mod_pos_bound (fflags (fields_of k)) 2 ltac:(lia)) as Hm'.
    assert (Hb : forall b, 0 <= Z.b2z b <= 1) by (intros []; simpl; lia).
    pose proof (Hb (bool_decide (l_file_idx l = None))). pose proof (Hb (bool_decide (l_file_idx k = None))).
    pose proof (Hb (l_line l =? 0)). pose proof (Hb (l_line k =? 0)). rewrite <- !Z.add_assoc, scale_compare by lia.
    cbn [lex]. rewrite !scale_compare by lia. cbn [lex]. rewrite !scale_compare by lia. cbn [lex].
    repeat (case_match; try done).
Qed.

Lemma sorting_keys_lexicographic_witness : exists l k, line_ok l /\ line_ok k /\
  lex [(file_line_column_addr l).1; (file_line_column_addr l).2] [(file_line_column_addr k).1; (file_line_column_addr k).2] = Lt.
Proof.
  set (l := pack (mkFields 9 1 0 2 5 0)). set (k := pack (mkFields 4 2 0 2 5 0)). exists l, k.
  assert (Hl : line_ok l) by (vm_compute; split; split; congruence). assert (Hk : line_ok k) by (vm_compute; split; split; congruence).
  split; [exact Hl|]. split; [exact Hk|]. destruct (sorting_keys_lexicographic l k Hl Hk) as [-> _]. vm_compute. reflexivity.
Defined.

Lemma lor_shift lo hi n : 0 <= n -> 0 <= lo < 2 ^ n -> Z.lor lo (Z.shiftl hi n) = hi * 2 ^ n + lo.
Proof. intros Hn Hlo. rewrite lor_small by done. ring. Qed.
Lemma replace_middle x y a b : 0 <= a <= b ->
  Z.lor (Z.ldiff x (Z.shiftl 1 b - Z.shiftl 1 a)) (Z.land y (Z.shiftl 1 b - Z.shiftl 1 a))
    = x / 2 ^ b * 2 ^ b + y / 2 ^ a mod 2 ^ (b - a) * 2 ^ a + x mod 2 ^ a.
Proof.
  intros Hab. rewrite lor_add.
  - rewrite ldiff_sub, !land_middle by done. pose proof (join3 x a (b - a) ltac:(lia) ltac:(lia)) as H. rewrite Zplus_minus in H. lia.
  - apply Z.bits_inj'. intros n Hn. rewrite Z.land_spec, Z.ldiff_spec, Z.land_spec, Z.bits_0.
    by destruct (Z.testbit x n), (Z.testbit y n), (Z.testbit _ n).
Qed.
Lemma fields_of_pack l f : fields_ok f -> l = pack f -> fields_of l = f.
Proof. intros Hf ->. by apply fields_pack. Qed.

(** The functions that change a line replace their own fields and keep the
    others. *)
Theorem updates_keep_other_fields l from a fl le : line_ok l -> line_ok from ->
  0 <= a < 2 ^ 48 -> 0 <= fl < 4 -> 0 <= le ->
  let f := fields_of l in
  fields_of (with_addr l a) = mkFields a (column f) (fflags f) (file f) (line f) (level f) /\
  fields_of (with_addr_and_flags l a fl) = mkFields a (column f) fl (file f) (line f) (level f) /\
  fields_of (with_subfunction_level l le) =
    mkFields (addr f) (column f) (fflags f) (file f) (line f) (Z.min le SUBFUNCTION_LEVEL_MAX) /\
  fields_of (set_line_and_column_from l from) =
    mkFields (addr f) (column (fields_of from)) (fflags f) (file f) (line (fields_of from)) (level f).
Proof.
  intros Hl Hfrom Ha Hfl Hle f. pose proof (fields_of_ok l Hl) as Hok. fold f in Hok. pose proof (fields_of_ok from Hfrom) as Hok'.
  pose proof (pack_fields l) as Hp. fold f in Hp. destruct Hok as (H1&H2&H3&H4&H5&H6), Hok' as (H1'&H2'&H3'&H4'&H5'&H6').
  split_and!; apply fields_of_pack.
  1,3,5,7: unfold fields_ok, SUBFUNCTION_LEVEL_MAX; cbn [addr column fflags file line level]; lia.
  - unfold with_addr, pack. rewrite (shl64_small a 16 48) by lia. cbn [addr column fflags file line level]. f_equal; [|by rewrite <- Hp].
    change 0xffff with (Z.shiftl 1 16 - 1). rewrite land_low, lor_shift by (lia || apply Z.mod_pos_bound; lia).
    pose proof (join3 (data0 l) 2 14 ltac:(lia) ltac:(lia)) as H. pose proof (Z.div_mod (data0 l) (2 ^ 16)).
    unfold f, fields_of. cbn [column fflags]. change (2 + 14) with 16 in H. lia.
  - unfold with_addr_and_flags, pack. rewrite (shl64_small a 16 48), land_middle by lia. cbn [addr column fflags file line level]. f_equal; [|by rewrite <- Hp].
    fold (column f). rewrite <- (Z.shiftl_mul_pow2 _ 2), (Z.lor_comm (Z.shiftl _ 2)) by lia. apply (lor3 a (column f) fl 2 14); lia.
  - unfold with_subfunction_level, pack. cbn [addr column fflags file line level]. f_equal; [by rewrite <- Hp|].
    rewrite ldiff_sub, land_low by lia. assert (data1 l - data1 l mod 2 ^ 12 = Z.shiftl (data1 l / 2 ^ 12) 12) as ->.
    { rewrite Z.shiftl_mul_pow2 by lia. pose proof (Z.div_mod (data1 l) (2 ^ 12)). lia. }
    rewrite Z.lor_comm, lor_shift by (unfold SUBFUNCTION_LEVEL_MAX; lia). pose proof (join3 (data1 l) 12 26 ltac:(lia) ltac:(lia)) as H.
    unfold f, fields_of. cbn [file line]. pose proof (Z.div_mod (data1 l) (2 ^ 12)). change (12 + 26) with 38 in H. lia.
  - unfold set_line_and_column_from, pack. rewrite !replace_middle by lia. done.
Qed.
Lemma updates_keep_other_fields_witness : exists l, line_ok l /\ fields_of (with_addr l 77) = mkFields 77 1 3 2 5 6.
Proof.
  set (l := pack (mkFields 9 1 3 2 5 6)). exists l. assert (Hl : line_ok l) by (vm_compute; split; split; congruence). split; [exact Hl|].
  destruct (updates_keep_other_fields l l 77 0 0 Hl Hl ltac:(lia) ltac:(lia) ltac:(lia)) as [-> _]. vm_compute. reflexivity.
Defined.

(** Clients reason with the lemmas on fields. *)
#[global] Arguments l_addr : simpl never.
#[global] Arguments l_column : simpl never.
#[global] Arguments l_flags : simpl never.
#[global] Arguments l_file_idx : simpl never.
#[global] Arguments l_line : simpl never.
#[global] Arguments addr_filenone_linebad_inlined : simpl never.
#[global] Arguments file_line_column_addr : simpl never.
#[global] Arguments line_new : simpl never.
