(* ===== verification/MergeIterator.v ===== *)
(** Merging of sorted slices (MergeIterator of src/util.rs): a heap of the heads
    of the slices. Its order among equal keys is left open. *)
From Stdlib Require Import ZArith Lia.
From stdpp Require Import base list sorting.
From S2P Require Import Prelude.
Open Scope Z_scope.

(** [Ord]: an order that is total, up to ties. *)
Class KeyOrder (K : Type) := {
  key_le : K -> K -> Prop;
  key_le_refl x : key_le x x;
  key_le_trans x y z : key_le x y -> key_le y z -> key_le x z;
  key_le_total x y : key_le x y \/ key_le y x
}.
(** [BinaryHeap::pop] takes out one of the greatest entries. *)
Class BinaryHeap (K : Type) `{KeyOrder K} := {
  heap_pop : list (K * nat) -> option ((K * nat) * list (K * nat));
  heap_pop_empty : heap_pop [] = None;
  heap_pop_some h : h <> [] -> exists e rest, heap_pop h = Some (e, rest) /\ h ≡ₚ e :: rest /\ forall x, x ∈ h -> key_le x.1 e.1
}.

Section Merge.
  Context {T K : Type} `{BinaryHeap K} (key_func : T -> K).

Record MergeIterator := mkMerge { sources : list (list T); heap : list (K * nat) }.
Fixpoint initial_heap (i : nat) (ss : list (list T)) : list (K * nat) :=
  match ss with
  | [] => []
  | [] :: ss => initial_heap (S i) ss
  | (x :: _) :: ss => (key_func x, i) :: initial_heap (S i) ss
  end.
Definition merge_new (ss : list (list T)) : MergeIterator := mkMerge ss (initial_heap 0 ss).
Definition merge_peek (m : MergeIterator) : partial (option T) :=
  match heap_pop (heap m) with
  | None => Ret None
  | Some ((_, i), _) => src ← lift_opt (sources m !! i); r ← lift_opt (head src); Ret (Some r)
  end.
Definition merge_next (m : MergeIterator) : partial (option T * MergeIterator) :=
  match heap_pop (heap m) with
  | None => Ret (None, m)
  | Some ((_, i), h) =>
      src ← lift_opt (sources m !! i);
      r ← lift_opt (head src);
      let src := tail src in
      let h := match src with x :: _ => (key_func x, i) :: h | [] => h end in
      Ret (Some r, mkMerge (<[i := src]> (sources m)) h)
  end.
(** All the items, in turn. *)
Fixpoint merge_all (fuel : nat) (m : MergeIterator) : partial (list T) :=
  match fuel with
  | O => Panic
  | S fuel => '(o, m) ← merge_next m; match o with None => Ret [] | Some x => r ← merge_all fuel m; Ret (x :: r) end
  end.

(** ** Properties *)

(** The heap has the heads of the slices that are not empty. *)
Definition heads (i : nat) (ss : list (list T)) : list (K * nat) := initial_heap i ss.
Definition merge_ok (m : MergeIterator) : Prop := heap m ≡ₚ heads 0 (sources m).
Definition key_ge (x y : T) : Prop := key_le (key_func y) (key_func x).

Lemma heads_elem i ss e : e ∈ heads i ss <-> exists j x s, ss !! j = Some (x :: s) /\ e = (key_func x, (i + j)%nat).
Proof.
  unfold heads. revert i; induction ss as [|[|y s] ss IH]; intros i; simpl.
  - split; [by intros ?%elem_of_nil|]. by intros (j&x&s&?&_).
  - rewrite IH. split.
    + intros (j&x&s&Hj&->). exists (S j), x, s. split; [done|]. f_equal. lia.
    + intros ([|j]&x&s&Hj&->); [done|]. exists j, x, s. split; [done|]. f_equal. lia.
  - rewrite elem_of_cons, IH. split.
    + intros [->|(j&x&s'&Hj&->)]; [exists 0%nat, y, s; split; [done|]; f_equal; lia|]. exists (S j), x, s'. split; [done|]. f_equal. lia.
    + intros ([|j]&x&s'&Hj&->); [left; injection Hj as -> ->; f_equal; lia|]. right. exists j, x, s'. split; [done|]. f_equal. lia.
Qed.
(** Taking the head of one slice changes its entry. *)
Lemma heads_insert i ss j x s : ss !! j = Some (x :: s) ->
  heads i ss ≡ₚ (key_func x, (i + j)%nat) :: heads i (<[j := []]> ss) /\
  heads i (<[j := s]> ss) ≡ₚ match s with y :: _ => [(key_func y, (i + j)%nat)] | [] => [] end ++ heads i (<[j := []]> ss).
Proof.
  unfold heads. revert i j; induction ss as [|t ss IH]; intros i j Hj; [done|]. destruct j as [|j].
  - injection Hj as ->. simpl. rewrite Nat.add_0_r. split; [done|]. by destruct s.
  - destruct (IH (S i) j Hj) as [IH1 IH2]. rewrite Nat.add_succ_r. simpl. destruct t as [|z t]; [by split|]. split.
    + rewrite IH1. apply Permutation_swap.
    + rewrite IH2. by rewrite Permutation_middle.
Qed.
Lemma concat_insert (ss : list (list T)) j x s : ss !! j = Some (x :: s) -> concat ss ≡ₚ x :: concat (<[j := s]> ss).
Proof.
  revert j; induction ss as [|t ss IH]; intros j Hj; [done|]. destruct j as [|j]; simpl.
  - by injection Hj as ->.
  - rewrite (IH j Hj). by rewrite <- Permutation_middle.
Qed.
Lemma heads_nil i ss : heads i ss = [] -> concat ss = [].
Proof. unfold heads. revert i; induction ss as [|[|x s] ss IH]; intros i E; simpl in *; [done|by apply (IH (S i))|done]. Qed.
Lemma merge_new_ok ss : merge_ok (merge_new ss).
Proof. unfold merge_ok. reflexivity. Qed.

(** One step takes a greatest head off its slice; no step fails. *)
Lemma merge_next_ok m : merge_ok m ->
  (merge_next m = Ret (None, m) /\ concat (sources m) = []) \/
  (exists j x s m', merge_next m = Ret (Some x, m') /\ sources m !! j = Some (x :: s) /\ sources m' = <[j := s]> (sources m) /\ merge_ok m' /\
     forall e, e ∈ heads 0 (sources m) -> key_le e.1 (key_func x)).
Proof.
  unfold merge_ok, merge_next. intros Hok. destruct (decide (heap m = [])) as [E|E].
  - left. rewrite E, heap_pop_empty. split; [done|]. rewrite E in Hok. apply Permutation_nil_l in Hok.
    by apply (heads_nil 0).
  - right. destruct (heap_pop_some _ E) as ([k i]&rest&Hp&Hperm&Hmax). rewrite Hp.
    assert (Hin : (k, i) ∈ heads 0 (sources m)) by (rewrite <- Hok, Hperm; apply list_elem_of_here).
    apply heads_elem in Hin as (j&x&s&Hj&Ee). injection Ee as -> ->. simpl. rewrite Hj. simpl.
    destruct (heads_insert 0 (sources m) j x s Hj) as [H1 H2].
    assert (Hrest : rest ≡ₚ heads 0 (<[j := []]> (sources m))).
    { apply (Permutation_cons_inv (a := (key_func x, j))). rewrite <- Hperm, Hok. exact H1. }
    eexists j, x, s, _. split; [reflexivity|]. split; [done|]. split; [done|]. split.
    + simpl. rewrite H2, <- Hrest. by destruct s.
    + intros e He. rewrite <- Hok in He. exact (Hmax e He).
Qed.

(** The head taken is above everything in the slices that are sorted. *)
Lemma head_above ss x : Forall (StronglySorted key_ge) ss -> (forall e, e ∈ heads 0 ss -> key_le e.1 (key_func x)) -> Forall (key_ge x) (concat ss).
Proof.
  intros Hs Hx. apply Forall_forall. intros y Hy. apply list_elem_of_In, in_concat in Hy as (t&Ht&Hy).
  apply list_elem_of_In, list_elem_of_lookup in Ht as [j Ht]. apply list_elem_of_In in Hy.
  destruct t as [|z t]; [by apply elem_of_nil in Hy|].
  assert (Hz : key_ge x z) by (apply (Hx (key_func z, j)), heads_elem; exists j, z, t; done).
  apply elem_of_cons in Hy as [->|Hy]; [done|].
  pose proof (Forall_lookup_1 _ _ _ _ Hs Ht) as Hzt. apply StronglySorted_inv in Hzt as [_ Hzt].
  rewrite Forall_forall in Hzt. eapply key_le_trans; [apply Hzt, Hy|apply Hz].
Qed.

(** The items that a merge gives, in turn. *)
Inductive merges : MergeIterator -> list T -> Prop :=
  | merges_end m : merge_next m = Ret (None, m) -> concat (sources m) = [] -> merges m []
  | merges_next m x m' l : merge_next m = Ret (Some x, m') -> concat (sources m) ≡ₚ x :: concat (sources m') -> merges m' l -> merges m (x :: l).
Lemma merges_exist m : merge_ok m -> Forall (StronglySorted key_ge) (sources m) ->
  exists l, merges m l /\ l ≡ₚ concat (sources m) /\ StronglySorted key_ge l.
Proof.
  remember (length (concat (sources m))) as n eqn:En. revert m En. induction n as [|n IH]; intros m En Hok Hs;
    destruct (merge_next_ok m Hok) as [[E E0]|(j&x&s&m'&E&Hj&Hm'&Hok'&Hmax)].
  - exists []. rewrite E0. split; [by apply merges_end|]. split; [done|constructor].
  - pose proof (concat_insert _ _ _ _ Hj) as Hp. rewrite Hp in En. done.
  - exists []. rewrite E0. split; [by apply merges_end|]. split; [done|constructor].
  - pose proof (concat_insert _ _ _ _ Hj) as Hp. rewrite <- Hm' in Hp. rewrite Hp in En. simpl in En.
    assert (Hs' : Forall (StronglySorted key_ge) (sources m')).
    { rewrite Hm'. apply Forall_insert; [done|]. apply (StronglySorted_inv (a := x)). exact (Forall_lookup_1 _ _ _ _ Hs Hj). }
    destruct (IH m' ltac:(lia) Hok' Hs') as (l&Hl&Hperm&Hsl). exists (x :: l). split; [by eapply merges_next|].
    split; [by rewrite Hp, Hperm|]. constructor; [done|]. rewrite Hperm.
    pose proof (head_above _ _ Hs Hmax) as Ha. rewrite Hp in Ha. by apply Forall_cons in Ha as [_ Ha].
Qed.
(** [peek] is what [next] gives. *)
Lemma peek_next m : merge_peek m = '(o, _) ← merge_next m; Ret o.
Proof.
  unfold merge_peek, merge_next. destruct (heap_pop (heap m)) as [[[k i] h]|]; [|done]. destruct (sources m !! i) as [src|]; [|done].
  cbn [lift_opt mbind outcome_bind]. by destruct (head src).
Qed.
Lemma merges_length m l : merges m l -> length (concat (sources m)) = length l.
Proof. induction 1 as [m _ ->|m x m' l _ Hp _ IH]; [done|]. rewrite Hp. simpl. by rewrite IH. Qed.
(** A merge of sorted slices gives a sorted permutation of their items. *)
Lemma merge_all_merges m l : merges m l -> merge_all (S (length l)) m = Ret l.
Proof. induction 1 as [m E _|m x m' l E _ _ IH]; cbn [merge_all length]; rewrite E; cbn [mbind outcome_bind]; [done|]. cbn [merge_all] in IH. by rewrite IH. Qed.
End Merge.

(** A heap that is a list, searched for its greatest entry. *)
Section ListHeap.
  Context {K : Type} `{KeyOrder K} `{!RelDecision key_le}.
Fixpoint pop_max (h : list (K * nat)) : option ((K * nat) * list (K * nat)) :=
  match h with
  | [] => None
  | x :: h => match pop_max h with
              | None => Some (x, [])
              | Some (e, rest) => if decide (key_le e.1 x.1) then Some (x, e :: rest) else Some (e, x :: rest)
              end
  end.
Lemma pop_max_ok h : h <> [] -> exists e rest, pop_max h = Some (e, rest) /\ h ≡ₚ e :: rest /\ forall x, x ∈ h -> key_le x.1 e.1.
Proof.
  induction h as [|x h IH]; intros Hne; [done|]. cbn [pop_max]. destruct h as [|y h].
  { exists x, []. split; [done|]. split; [done|]. intros z ->%list_elem_of_singleton. apply key_le_refl. }
  destruct (IH ltac:(done)) as (e&rest&->&Hp&Hmax). case_decide as Hd.
  - exists x, (e :: rest). split; [done|]. split; [by rewrite Hp|]. intros z [->|Hz]%elem_of_cons; [apply key_le_refl|]. eapply key_le_trans; [by apply Hmax|done].
  - exists e, (x :: rest). split; [done|]. split; [rewrite Hp; apply Permutation_swap|]. intros z [->|Hz]%elem_of_cons; [|by apply Hmax].
    by destruct (key_le_total x.1 e.1).
Qed.
Definition list_heap : BinaryHeap K := {| heap_pop := pop_max; heap_pop_empty := eq_refl; heap_pop_some := pop_max_ok |}.
End ListHeap.
