(* ===== verification/Symbols.v ===== *)
(** The tables of debug symbols and the lookups in them (src/symbols.rs):
    functions and their address ranges, inlined calls, line numbers, names. *)
From Stdlib Require Import ZArith Lia.
From stdpp Require Import base list gmap sorting.
From S2P Require Import Prelude Errors Serial LineInfo MergeIterator.
Open Scope Z_scope.

(** A byte string; [<] on [&[u8]] is lexicographic. *)
Abbreviation bytes := (list Z) (only parsing).
Fixpoint bytes_compare (a b : bytes) : comparison :=
  match a, b with
  | [], [] => Eq
  | [], _ :: _ => Lt
  | _ :: _, [] => Gt
  | x :: a, y :: b => match x ?= y with Eq => bytes_compare a b | c => c end
  end.
Definition bytes_lt (a b : bytes) : bool := match bytes_compare a b with Lt => true | _ => false end.

(** Offset of an entry in .debug_info; [usize::MAX] stands for none. *)
Abbreviation DieOffset := Z (only parsing).

(** ** Functions *)

(** Address of the first instruction, or [FUNCTION_ADDR_MAX] plus an offset in
    .debug_info for a function that is only inlined. *)
Abbreviation FunctionAddr := Z (only parsing).
Definition FUNCTION_ADDR_MAX : Z := 2 ^ 60.
Definition FunctionAddr_new (addr : Z) : FunctionAddr := if FUNCTION_ADDR_MAX <=? addr then FUNCTION_ADDR_MAX - 1 else addr.
Definition FunctionAddr_inline (die : DieOffset) : partial FunctionAddr :=
  _ ← rassert (die <? FUNCTION_ADDR_MAX); Ret (FUNCTION_ADDR_MAX + die).
Definition addr_of (a : FunctionAddr) : option Z := if a <? FUNCTION_ADDR_MAX then Some a else None.
Definition is_addr (a : FunctionAddr) : bool := a <? FUNCTION_ADDR_MAX.

Module FunctionFlags.
Definition SENTINEL : Z := 0x1.
Definition SECTION : Z := 0x2.
Definition SYMTAB : Z := 0x4.
Definition INLINED : Z := 0x8.
End FunctionFlags.
Definition contains_flag (flags f : Z) : bool := Z.land flags f =? f.

Inductive LanguageFamily := Cpp | Rust | OtherLanguage | UnknownLanguage | InternalLanguage.

Record FunctionInfo := mkFn {
  f_addr : FunctionAddr;
  die : DieOffset;
  entry_addr : Z;
  prev_addr : FunctionAddr;
  mangled_name : bytes;
  shard_idx : nat;
  flags : Z;
  language : LanguageFamily;
  levels_range : nat * nat
}.
Definition num_levels (f : FunctionInfo) : nat := (levels_range f).2 - (levels_range f).1 - 1.
Definition debug_info_offset (f : FunctionInfo) : option DieOffset := if die f =? U64_MAX then None else Some (die f).

(** ** Inlined calls *)

Record Subfunction := mkSf {
  callee_idx : Z;
  local_variables : Z;
  call_line : LineInfo;
  addr_range : Z * Z;
  identity : Z
}.
Definition pack_range (r : Z * Z) : Z := Z.lor (wrap64 (Z.shiftl r.1 24)) (r.2 - r.1).
Definition local_variables_range (sf : Subfunction) : Z * Z :=
  let start := Z.shiftr (local_variables sf) 24 in (start, start + Z.land (local_variables sf) 0xffffff).

(** ** Variables *)

Module VariableFlags.
Definition PARAMETER : Z := 0x1.
Definition FRAME_BASE : Z := 0x2.
Definition TEMPLATE_PARAMETER : Z := 0x4.
Definition GLOBAL : Z := 0x8.
End VariableFlags.
Definition pack_offset_and_flags (off : DieOffset) (flags : Z) : Z := Z.lor (wrap64 (Z.shiftl off 8)) flags.
Definition variable_die (offset_and_flags : Z) : option DieOffset :=
  let off := Z.shiftr offset_and_flags 8 in if off =? Z.shiftr U64_MAX 8 then None else Some off.
Definition variable_flags (offset_and_flags : Z) : Z := Z.land offset_and_flags 0xff.
Definition variable_add_flags (offset_and_flags f : Z) : Z := Z.lor offset_and_flags f.

(** Where a variable is: a constant, or a slice of the binary (address, length). *)
Inductive PackedVariableLocation :=
  | ShortConst (a : bytes)
  | LongConst (ptr len : Z)
  | LocExpr (ptr len : Z)
  | LocUnknown.
Definition const_usize (x : Z) : PackedVariableLocation := ShortConst (le_bytes 8 x ++ replicate 4 0).
Record VariableInfo := mkVar {
  var_name : bytes;
  var_type : Z;
  var_location : PackedVariableLocation;
  var_start : Z;
  var_len : Z;
  var_line : LineInfo;
  var_offset_and_flags : Z
}.
Definition variable_new (name : bytes) (type_ : Z) (offset : DieOffset) (line : LineInfo) (flags : Z) : VariableInfo :=
  mkVar name type_ LocUnknown 0 0 line (pack_offset_and_flags offset flags).
Definition variable_range (v : VariableInfo) : Z * Z := (var_start v, var_start v + var_len v).
Definition with_range (v : VariableInfo) (begin_ end_ : Z) : VariableInfo :=
  mkVar (var_name v) (var_type v) (var_location v) begin_ (Z.min (end_ - begin_) (2 ^ 32 - 1)) (var_line v) (var_offset_and_flags v).

(** ** The tables *)

(** A string table: names with what they stand for (src/arena.rs). *)
Definition string_table_search {I} (strings : list (bytes * I)) (s : bytes) : partial (option I) :=
  let i := partition_point (fun x => bytes_lt x.1 s) strings in
  match strings !! i with
  | Some x => if bool_decide (x.1 = s) then Ret (Some x.2) else Ret None
  | None => Ret None
  end.

Record SymbolsShard := mkShard {
  addr_to_line : list LineInfo;
  line_to_addr : list LineInfo;
  subfunctions : list Subfunction;
  subfunction_levels : list nat;
  mangled_name_to_function : list (bytes * FunctionAddr * nat);
  local_variables_table : list VariableInfo;
  sorted_global_variable_names : list (bytes * Z)
}.
Record VTableInfo := mkVTable { vt_start : Z; vt_end : Z; vt_name : bytes }.

Record Symbols := mkSymbols {
  units : list DieOffset;
  functions : list FunctionInfo;
  shards : list SymbolsShard;
  base_types : list Z;
  vtables : list VTableInfo
}.
Section Lookups.
  Context (s : Symbols).

(** The unit that has an offset: its index. *)
Definition find_unit (offset : DieOffset) : result nat :=
  let idx := partition_point (fun u => u <=? offset) (units s) in
  if (idx =? 0)%nat then Fail (Code Internal) else Ret (idx - 1)%nat.

(** The list of ranges of a function is walked to its first range; [fuel] is the
    index of the function, as indices only decrease. *)
Fixpoint first_range (fuel idx : nat) : partial nat :=
  match fuel with
  | O => Panic
  | S fuel =>
      f ← lift_opt (functions s !! idx);
      if f_addr f <=? prev_addr f then Ret idx
      else
        let new_idx := partition_point (fun g => f_addr g <? prev_addr f) (functions s) in
        if (length (functions s) <=? new_idx + 1)%nat then Ret idx
        else
          g ← lift_opt (functions s !! new_idx);
          if negb (f_addr g =? prev_addr f) || negb (die g =? die f) then Ret idx else first_range fuel new_idx
  end.
Definition addr_to_function (addr : Z) : result (FunctionInfo * nat) :=
  let idx := partition_point (fun f => f_addr f <=? addr) (functions s) in
  if (idx =? 0)%nat then Fail (Code ProcessState)
  else match functions s !! idx with
  | None => Fail (Code ProcessState)
  | Some next =>
      if negb (is_addr (f_addr next)) then Fail (Code ProcessState)
      else
        f ← lift_opt (functions s !! (idx - 1)%nat);
        if contains_flag (flags f) FunctionFlags.SENTINEL then Fail (Code ProcessState)
        else
          idx ← widen (first_range (S idx) (idx - 1)%nat);
          f ← lift_opt (functions s !! idx);
          Ret (f, idx)
  end.

(** The loop of [function_addr_ranges]: the ranges in the order they are pushed. *)
Fixpoint addr_ranges_loop (fuel function_idx : nat) : partial (list (Z * Z)) :=
  match fuel with
  | O => Panic
  | S fuel =>
      f ← lift_opt (functions s !! function_idx);
      _ ← rassert (negb (contains_flag (flags f) FunctionFlags.SENTINEL));
      start ← lift_opt (addr_of (f_addr f));
      next ← lift_opt (functions s !! S function_idx);
      end_ ← lift_opt (addr_of (f_addr next));
      let new_idx := partition_point (fun g => f_addr g <? prev_addr f) (functions s) in
      if (length (functions s) <=? new_idx + 1)%nat then Ret [(start, end_)]
      else
        g ← lift_opt (functions s !! new_idx);
        if negb (f_addr g =? prev_addr f) || negb (die g =? die f) || (f_addr g <=? prev_addr g) then Ret [(start, end_)]
        else rest ← addr_ranges_loop fuel new_idx; Ret ((start, end_) :: rest)
  end.
Definition function_addr_ranges (function_idx : nat) : partial (list (Z * Z)) :=
  f ← lift_opt (functions s !! function_idx);
  match addr_of (f_addr f) with
  | None => Ret []
  | Some _ => ranges ← addr_ranges_loop (2 + length (functions s)) function_idx; Ret (reverse ranges)
  end.

(** The nearest function with a name: a distance and the function. *)
Definition closer (a b : Z * option nat) : Z * option nat :=
  match a.1 ?= b.1 with
  | Lt => a
  | Gt => b
  | Eq => match a.2, b.2 with
          | None, _ => a
          | Some _, None => b
          | Some i, Some j => if (i <=? j)%nat then a else b
          end
  end.
Definition name_addr_lt (t : bytes * FunctionAddr * nat) (name : bytes) (addr : FunctionAddr) : bool :=
  match bytes_compare t.1.1 name with Lt => true | Gt => false | Eq => t.1.2 <? addr end.
Definition nearest_in_shard (name : bytes) (addr : FunctionAddr) (res : Z * option nat) (a : list (bytes * FunctionAddr * nat)) : partial (Z * option nat) :=
  let idx := partition_point (fun t => name_addr_lt t name addr) a in
  res ← match a !! idx with
        | Some t => if bool_decide (t.1.1 = name) then d ← usub t.1.2 addr; Ret (closer res (d, Some t.2)) else Ret res
        | None => Ret res
        end;
  if (0 <? idx)%nat then
    t ← lift_opt (a !! (idx - 1)%nat);
    if bool_decide (t.1.1 = name) then d ← usub addr t.1.2; Ret (closer res (d, Some t.2)) else Ret res
  else Ret res.
Definition find_nearest_function (name : bytes) (addr : FunctionAddr) : partial (option nat) :=
  res ← foldl (fun acc sh => res ← acc; nearest_in_shard name addr res (mangled_name_to_function sh)) (Ret (U64_MAX, None)) (shards s);
  Ret res.2.

(** *** Levels of inlined calls *)

Definition nat_slice {A} (l : list A) (r : nat * nat) : partial (list A) :=
  if ((r.1 <=? r.2) && (r.2 <=? length l))%nat then Ret (take (r.2 - r.1) (drop r.1 l)) else Panic.
Definition subfunction_idxs_at_level (level : nat) (f : FunctionInfo) : partial (nat * nat) :=
  shard ← lift_opt (shards s !! shard_idx f);
  levels ← nat_slice (subfunction_levels shard) (levels_range f);
  _ ← rassert (level + 1 <? length levels)%nat;
  a ← lift_opt (levels !! level); b ← lift_opt (levels !! S level); Ret (a, b).
Definition subfunctions_at_level (level : nat) (f : FunctionInfo) : partial (list Subfunction) :=
  shard ← lift_opt (shards s !! shard_idx f);
  r ← subfunction_idxs_at_level level f; nat_slice (subfunctions shard) r.
Definition root_subfunction (f : FunctionInfo) : partial (option (Subfunction * nat)) :=
  if ((levels_range f).2 <=? (levels_range f).1)%nat then Ret None
  else
    idxs ← subfunction_idxs_at_level 0 f;
    _ ← rassert (negb (idxs.2 <=? idxs.1)%nat);
    shard ← lift_opt (shards s !! shard_idx f);
    sf ← lift_opt (subfunctions shard !! idxs.1);
    Ret (Some (sf, idxs.1)).

(** The loop of [containing_subfunction_at_level] over [n] levels from [level]. *)
Fixpoint containing_loop (n level : nat) (addr : Z) (shard : SymbolsShard) (levels : list nat) (res : option (nat * nat)) : partial (option (nat * nat)) :=
  match n with
  | O => Ret res
  | S n =>
      a ← lift_opt (levels !! level); b ← lift_opt (levels !! S level);
      ranges ← nat_slice (subfunctions shard) (a, b);
      let i := partition_point (fun r => (addr_range r).2 <=? addr) ranges in
      match ranges !! i with
      | None => Ret res
      | Some r => if addr <? (addr_range r).1 then Ret res else containing_loop n (S level) addr shard levels (Some ((a + i)%nat, level))
      end
  end.
Definition containing_subfunction_at_level (addr : Z) (level : Z) (f : FunctionInfo) : partial (option (nat * nat)) :=
  shard ← lift_opt (shards s !! shard_idx f);
  levels ← nat_slice (subfunction_levels shard) (levels_range f);
  if SUBFUNCTION_LEVEL_MAX <=? level then containing_loop (num_levels f) 0 addr shard levels None
  else
    _ ← rassert (Z.to_nat level + 1 <? length levels)%nat;
    containing_loop 1 (Z.to_nat level) addr shard levels None.
Definition subfunction_ancestor_at_level (sf_idx : nat) (from_level to_level : Z) (f : FunctionInfo) : partial (nat * Z) :=
  if from_level <=? to_level then Ret (sf_idx, from_level)
  else
    shard ← lift_opt (shards s !! shard_idx f);
    sf ← lift_opt (subfunctions shard !! sf_idx);
    r ← containing_subfunction_at_level (addr_range sf).1 to_level f;
    r ← lift_opt r;
    Ret (r.1, to_level).

Fixpoint find_global_in (shs : list SymbolsShard) (name : bytes) : partial (option Z) :=
  match shs with
  | [] => Ret None
  | sh :: shs =>
      r ← string_table_search (sorted_global_variable_names sh) name;
      match r with Some id => Ret (Some id) | None => find_global_in shs name end
  end.
Definition find_global_variable_by_name (name : bytes) : partial (option Z) := find_global_in (shards s) name.

(** *** Lines *)

(** The index of the first line that may matter, and [first_below] so far. *)
Fixpoint line_sources (shs : list SymbolsShard) (addr first_below : Z) : partial (list (list LineInfo) * Z) :=
  match shs with
  | [] => Ret ([], first_below)
  | sh :: shs =>
      let i := partition_point (fun l => l_addr l <=? addr) (addr_to_line sh) in
      '(i, first_below) ←
        (if (0 <? i)%nat then l ← lift_opt (addr_to_line sh !! (i - 1)%nat); Ret ((i - 1)%nat, Z.max first_below (l_addr l))
         else Ret (i, first_below));
      '(rest, first_below) ← line_sources shs addr first_below;
      Ret (if (i <? length (addr_to_line sh))%nat then (drop i (addr_to_line sh) :: rest, first_below) else (rest, first_below))
  end.
(** A source that starts below the greatest address up to [addr] loses its head. *)
Fixpoint trim_sources (sources : list (list LineInfo)) (first_below : Z) : partial (list (list LineInfo)) :=
  match sources with
  | [] => Ret []
  | src :: sources =>
      l ← lift_opt (head src);
      rest ← trim_sources sources first_below;
      Ret ((if l_addr l <? first_below then tail src else src) :: rest)
  end.

(** [line.file_idx().unwrap()] *)
Definition file_of {E} (l : LineInfo) : outcome E Z := lift_opt (l_file_idx l).
Definition is_statement (l : LineInfo) : bool := contains_flag (l_flags l) LineFlags.STATEMENT.

(** [slice.partition_point] whose predicate can panic. *)
Fixpoint partition_point_m {A} (pred : A -> partial bool) (l : list A) : partial nat :=
  match l with
  | [] => Ret O
  | x :: l => b ← pred x; if (b : bool) then n ← partition_point_m pred l; Ret (S n) else Ret O
  end.
(** The first loop of [line_to_addrs]: over the lines that are no statements. *)
Fixpoint skip_non_statements (only_statements : bool) (ls : list LineInfo) : list LineInfo :=
  match ls with
  | l :: rest => if only_statements && negb (is_statement l) then skip_non_statements only_statements rest else ls
  | [] => []
  end.
(** The second loop: the lines of the file with the number. *)
Fixpoint take_line (file_idx line_number : Z) (only_statements : bool) (ls : list LineInfo) : list LineInfo :=
  match ls with
  | l :: rest =>
      if bool_decide (l_file_idx l = Some file_idx) && (l_line l =? line_number)
      then (if negb only_statements || is_statement l then [l] else []) ++ take_line file_idx line_number only_statements rest
      else []
  | [] => []
  end.
Fixpoint line_to_addrs_loop (shs : list SymbolsShard) (file_idx line_number : Z) (only_statements : bool) (res : list LineInfo) (min_line : Z)
  : partial (list LineInfo * Z) :=
  match shs with
  | [] => Ret (res, min_line)
  | sh :: shs =>
      idx ← partition_point_m (fun l => f ← file_of l; Ret ((f <? file_idx) || ((f =? file_idx) && (l_line l <? line_number)))) (line_to_addr sh);
      let ls := skip_non_statements only_statements (drop idx (line_to_addr sh)) in
      let min_line := match ls with
                      | l :: _ => if bool_decide (l_file_idx l = Some file_idx) then Z.min min_line (l_line l) else min_line
                      | [] => min_line
                      end in
      line_to_addrs_loop shs file_idx line_number only_statements (res ++ take_line file_idx line_number only_statements ls) min_line
  end.
(** The lines, or else the next line that has addresses. *)
Definition line_to_addrs (file_idx line_number : Z) (only_statements : bool) : partial (list LineInfo + option Z) :=
  '(res, min_line) ← line_to_addrs_loop (shards s) file_idx line_number only_statements [] U64_MAX;
  Ret (match res with
       | _ :: _ => inl res
       | [] => if min_line =? U64_MAX then inr None else inr (Some min_line)
       end).
Fixpoint take_file (file_idx : Z) (ls : list LineInfo) : partial (list LineInfo) :=
  match ls with
  | l :: rest => f ← file_of l; if f =? file_idx then r ← take_file file_idx rest; Ret (l :: r) else Ret []
  | [] => Ret []
  end.
Fixpoint lines_for_file (shs : list SymbolsShard) (file_idx : Z) : partial (list LineInfo) :=
  match shs with
  | [] => Ret []
  | sh :: shs =>
      i ← partition_point_m (fun l => f ← file_of l; Ret (f <? file_idx)) (line_to_addr sh);
      ls ← take_file file_idx (drop i (line_to_addr sh));
      rest ← lines_for_file shs file_idx;
      Ret (ls ++ rest)
  end.

(** *** Types and vtables *)

Definition find_base_type (offset : DieOffset) : result Z :=
  let idx := partition_point (fun x => Z.shiftr x 8 <? offset) (base_types s) in
  match base_types s !! idx with
  | Some x => if Z.shiftr x 8 =? offset then Ret (Z.land x 0xff) else Fail (Code Dwarf)
  | None => Fail (Code Dwarf)
  end.
Definition find_vtable (static_addr : Z) : result VTableInfo :=
  let idx := partition_point (fun v => vt_end v <=? static_addr) (vtables s) in
  match vtables s !! idx with
  | Some v => if vt_start v <=? static_addr then Ret v else Fail (Code Dwarf)
  | None => Fail (Code Dwarf)
  end.
End Lookups.

(** ** Lines by address *)

(** [Reverse<usize>]: the greatest key is the least number. *)
Record Reverse := mkReverse { reversed : Z }.
#[export] Instance Reverse_order : KeyOrder Reverse.
Proof.
  refine {| key_le x y := reversed y <= reversed x |}; [lia|lia|].
  intros x y. destruct (Z.le_ge_cases (reversed x) (reversed y)); [right|left]; lia.
Defined.

Section Lines.
  Context `{!BinaryHeap Reverse} (s : Symbols).
Definition line_key (l : LineInfo) : Reverse := mkReverse (addr_filenone_linebad_inlined l).

Record AddrToLineIter := mkIter { prev_line_addr : Z; iter : MergeIterator (T := LineInfo) (K := Reverse) }.
Definition addr_to_line_iter (addr : Z) : partial AddrToLineIter :=
  '(sources, first_below) ← line_sources (shards s) addr 0;
  sources ← trim_sources sources first_below;
  Ret (mkIter U64_MAX (merge_new line_key sources)).
(** [fuel] is more than the number of lines left. *)
Fixpoint iter_next (fuel : nat) (it : AddrToLineIter) : partial (option LineInfo * AddrToLineIter) :=
  match fuel with
  | O => Panic
  | S fuel =>
      '(o, m) ← merge_next line_key (iter it);
      match o with
      | None => Ret (None, mkIter (prev_line_addr it) m)
      | Some line => if negb (l_addr line =? prev_line_addr it) then Ret (Some line, mkIter (l_addr line) m) else iter_next fuel (mkIter (prev_line_addr it) m)
      end
  end.
Definition lines_left (it : AddrToLineIter) : nat := length (concat (sources (iter it))).
(** All the items of the iterator. *)
Fixpoint iter_collect (fuel : nat) (it : AddrToLineIter) : partial (list LineInfo) :=
  match fuel with
  | O => Panic
  | S fuel =>
      '(o, it) ← iter_next (S (lines_left it)) it;
      match o with None => Ret [] | Some l => r ← iter_collect fuel it; Ret (l :: r) end
  end.
Definition find_line (addr : Z) : partial (option LineInfo) :=
  it ← addr_to_line_iter addr;
  '(o, _) ← iter_next (S (lines_left it)) it;
  Ret (match o with
       | None => None
       | Some line => if (addr <? l_addr line) || negb (bool_decide (is_Some (l_file_idx line))) then None else Some line
       end).
End Lines.

(** ** Files *)

Section Files.
  (** [std::path::Path]: equality of paths, the last component and the rest. *)
  Context {Path : Type} `{!EqDecision Path} (file_name : Path -> option bytes) (parent : Path -> option Path) (is_utf8 : bytes -> bool).

Definition suffix_S : bytes := [0x5f; 0x53].
Definition strip_suffix (b suffix : bytes) : option bytes :=
  if bool_decide (drop (length b - length suffix) b = suffix) then Some (take (length b - length suffix) b) else None.
Definition to_str (b : bytes) : option bytes := if is_utf8 b then Some b else None.
(** The loop over the files: the first in the same directory, the first, how
    many. *)
Fixpoint matching_files (path : Path) (base alt_base : bytes) (files : list (Path * Z)) (same_dir any : option Z) (count : nat) : option Z * option Z * nat :=
  match files with
  | [] => (same_dir, any, count)
  | (p, i) :: files =>
      match n ← file_name p; to_str n with
      | None => matching_files path base alt_base files same_dir any count
      | Some name =>
          if negb (bool_decide (name = base)) && negb (bool_decide (name = alt_base)) then matching_files path base alt_base files same_dir any count
          else
            let any := match any with None => Some i | Some _ => any end in
            let same_dir := match same_dir with
                            | None => if bool_decide (parent p = parent path) then Some i else None
                            | Some _ => same_dir
                            end in
            matching_files path base alt_base files same_dir any (S count)
      end
  end.
(** [files]: the entries of the map, in the order it is iterated. *)
Definition find_used_file_idx (files : list (Path * Z)) (path : Path) : option Z :=
  match list_find (fun e => e.1 = path) files with
  | Some (_, (_, i)) => Some i
  | None =>
      base ← file_name path;
      base ← to_str base;
      let alt_base := match strip_suffix base suffix_S with Some stripped => stripped | None => base ++ suffix_S end in
      let '(same_dir, any, count) := matching_files path base alt_base files None None 0 in
      if (count =? 1)%nat then any else match same_dir with Some i => Some i | None => any end
  end.
Definition list_lines_for_file (s : Symbols) (files : list (Path * Z)) (path : Path) : partial (list LineInfo) :=
  match find_used_file_idx files path with Some i => lines_for_file (shards s) i | None => Ret [] end.
End Files.

(** ** The state of loading: one shard *)

Record SymbolsLoaderShard := mkLoader {
  sym : SymbolsShard;
  addr_to_line_len_after_debug_line : nat;
  file_used_lines : list (Z * Z);
  shard_functions : list FunctionInfo;
  max_function_end : Z
}.
Definition set_sym (sh : SymbolsLoaderShard) (f : SymbolsShard -> SymbolsShard) : SymbolsLoaderShard :=
  mkLoader (f (sym sh)) (addr_to_line_len_after_debug_line sh) (file_used_lines sh) (shard_functions sh) (max_function_end sh).
Definition set_addr_to_line (ls : list LineInfo) (s : SymbolsShard) : SymbolsShard :=
  mkShard ls (line_to_addr s) (subfunctions s) (subfunction_levels s) (mangled_name_to_function s) (local_variables_table s) (sorted_global_variable_names s).
Definition set_line_to_addr (ls : list LineInfo) (s : SymbolsShard) : SymbolsShard :=
  mkShard (addr_to_line s) ls (subfunctions s) (subfunction_levels s) (mangled_name_to_function s) (local_variables_table s) (sorted_global_variable_names s).
Definition set_subfunctions (sfs : list Subfunction) (s : SymbolsShard) : SymbolsShard :=
  mkShard (addr_to_line s) (line_to_addr s) sfs (subfunction_levels s) (mangled_name_to_function s) (local_variables_table s) (sorted_global_variable_names s).
Definition set_subfunction_levels (ls : list nat) (s : SymbolsShard) : SymbolsShard :=
  mkShard (addr_to_line s) (line_to_addr s) (subfunctions s) ls (mangled_name_to_function s) (local_variables_table s) (sorted_global_variable_names s).
Definition set_local_variables (vs : list VariableInfo) (s : SymbolsShard) : SymbolsShard :=
  mkShard (addr_to_line s) (line_to_addr s) (subfunctions s) (subfunction_levels s) (mangled_name_to_function s) vs (sorted_global_variable_names s).
Definition set_functions (fs : list FunctionInfo) (sh : SymbolsLoaderShard) : SymbolsLoaderShard :=
  mkLoader (sym sh) (addr_to_line_len_after_debug_line sh) (file_used_lines sh) fs (max_function_end sh).
