(* ===== verification/DebugLine.v ===== *)
(** Reading of .debug_line and the order of lines (parse_debug_line,
    sort_addr_to_line, sort_line_to_addr of src/symbols.rs). *)
From Stdlib Require Import ZArith Lia.
From stdpp Require Import base list sorting.
From S2P Require Import Prelude Errors StdSort LineInfo MergeIterator Symbols.
Open Scope Z_scope.

(** A row of a line number program, as gimli's accessors give it: the line is
    missing or at least 1, the column is missing for the left edge. *)
Record LineRow := mkRow {
  row_address : Z;
  row_file_index : Z;
  row_line : option Z;
  row_column : option Z;
  row_is_stmt : bool;
  row_end_sequence : bool
}.
(** What a unit's program gives: rows, and maybe an error after them. *)
Record LineProgram := mkProgram { rows : list LineRow; rows_error : option Error; file_idx_remap : list Z }.

Definition row_info (remap : list Z) (row : LineRow) : result LineInfo :=
  if row_end_sequence row then line_new (row_address row) None 0 0 0 SUBFUNCTION_LEVEL_MAX
  else
    let file := zget remap (row_file_index row) in
    let is_stmt := row_is_stmt row && bool_decide (is_Some file) in
    line_new (row_address row) file (default 0 (row_line row)) (default 0 (row_column row))
      (if is_stmt then LineFlags.STATEMENT else 0) SUBFUNCTION_LEVEL_MAX.

(** The two tables of lines being built. *)
Record LineTables := mkTables { to_line : list LineInfo; to_addr : list LineInfo }.
Definition replace_last {A} (l : list A) (x : A) : list A := removelast l ++ [x].
Definition has_file (l : LineInfo) : bool := bool_decide (is_Some (l_file_idx l)).
(** A missing line number between lines of the same file. *)
Definition stray_zero (info prev : LineInfo) : bool :=
  (l_line info =? 0) && has_file info && bool_decide (l_file_idx prev = l_file_idx info) && negb (l_line prev =? 0).
Definition push_line (info : LineInfo) (t : LineTables) : LineTables :=
  mkTables (to_line t ++ [info]) (if has_file info then to_addr t ++ [info] else to_addr t).
Definition add_line (address : Z) (info : LineInfo) (t : LineTables) : partial LineTables :=
  match last (to_line t) with
  | None => Ret (push_line info t)
  | Some prev =>
      if stray_zero info prev then Ret t
      else if l_addr prev =? address then
        if negb (has_file prev) then Ret (push_line info (mkTables (removelast (to_line t)) (to_addr t)))
        else
          _ ← rassert (match last (to_addr t) with Some p => l_addr p =? address | None => false end);
          if negb (has_file info) then Ret (mkTables (replace_last (to_line t) info) (removelast (to_addr t)))
          else if implb (is_statement prev) (is_statement info) then
            Ret (mkTables (replace_last (to_line t) info) (replace_last (to_addr t) info))
          else Ret t
      else Ret (push_line info t)
  end.
(** The loop over the rows of one program; [skip]: the sequence is skipped. *)
Fixpoint read_rows (remap : list Z) (rs : list LineRow) (skip : bool) (t : LineTables) : result LineTables :=
  match rs with
  | [] => Ret t
  | row :: rs =>
      let skip := if row_address row =? 0 then true else skip in
      t ← (if skip then Ret t else info ← row_info remap row; widen (add_line (row_address row) info t));
      read_rows remap rs (if row_end_sequence row then false else skip) t
  end.
Fixpoint read_programs (programs : list (option LineProgram)) (t : LineTables) : result LineTables :=
  match programs with
  | [] => Ret t
  | None :: programs => read_programs programs t
  | Some p :: programs =>
      t ← read_rows (file_idx_remap p) (rows p) false t;
      match rows_error p with Some e => Fail e | None => read_programs programs t end
  end.
Definition parse_debug_line (programs : list (option LineProgram)) (shard : SymbolsLoaderShard) : result SymbolsLoaderShard :=
  t ← read_programs programs (mkTables (addr_to_line (sym shard)) (line_to_addr (sym shard)));
  Ret (set_sym shard (fun s => set_addr_to_line (to_line t) (set_line_to_addr (to_addr t) s))).

(** ** Sorting *)

Section Sorting.
  Context `{!SliceSort (by_key addr_filenone_linebad_inlined)} `{!SliceSort (by_keys file_line_column_addr)}.

(** [retain] with the line kept last. *)
Fixpoint retain_lines (prev : LineInfo) (ls : list LineInfo) : list LineInfo :=
  match ls with
  | [] => []
  | l :: ls =>
      if l_addr l =? l_addr prev then retain_lines prev ls
      else if (l_line l =? 0) && has_file l && bool_decide (l_file_idx l = l_file_idx prev) && negb (l_line prev =? 0) then retain_lines prev ls
      else l :: retain_lines l ls
  end.
Definition sort_addr_to_line (shard : SymbolsLoaderShard) (finalize : bool) : result SymbolsLoaderShard :=
  prev ← match line_new 0 None 0 0 0 0 with Ret l => Ret l | _ => Panic end;
  let lines := retain_lines prev (slice_sort (by_key addr_filenone_linebad_inlined) (addr_to_line (sym shard))) in
  let shard := set_sym shard (set_addr_to_line lines) in
  Ret (if finalize then shard
       else mkLoader (sym shard) (length lines) (file_used_lines shard) (shard_functions shard) (max_function_end shard)).

(** How many lines of each file are used: runs of the same file. *)
Fixpoint count_used_lines (ls : list LineInfo) (used : list (Z * Z)) : partial (list (Z * Z)) :=
  match ls with
  | [] => Ret used
  | l :: ls =>
      if (l_line l =? 0) || negb (is_statement l) then count_used_lines ls used
      else
        idx ← file_of l;
        count_used_lines ls
          match last used with
          | Some x => if x.1 =? idx then replace_last used (x.1, x.2 + 1) else used ++ [(idx, 1)]
          | None => used ++ [(idx, 1)]
          end
  end.
Definition sort_line_to_addr (shard : SymbolsLoaderShard) : partial SymbolsLoaderShard :=
  let lines := slice_sort (by_keys file_line_column_addr) (line_to_addr (sym shard)) in
  let shard := set_sym shard (set_line_to_addr lines) in
  used ← count_used_lines lines (file_used_lines shard);
  Ret (mkLoader (sym shard) (addr_to_line_len_after_debug_line shard) used (shard_functions shard) (max_function_end shard)).
End Sorting.
