(* ===== verification/DebugLineSpec.v ===== *)
(** What is kept of .debug_line: one line per address, the recommended one. *)
From Stdlib Require Import ZArith Lia.
From stdpp Require Import base list sorting.
From S2P Require Import Prelude Errors StdSort LineInfo MergeIterator Symbols DebugLine.
Open Scope Z_scope.

(** ** Rows *)

Definition row_ok (remap : list Z) (row : LineRow) : Prop :=
  0 <= row_address row /\ Forall (fun i => 0 <= i) remap /\ 0 <= default 0 (row_line row) /\ 0 <= default 0 (row_column row).
(** The file that a row stands for; none for the end of a sequence. *)
Definition row_file (remap : list Z) (row : LineRow) : option Z := if row_end_sequence row then None else zget remap (row_file_index row).

Lemma has_file_spec l : has_file l = true <-> is_Some (l_file_idx l).
Proof. unfold has_file. by rewrite bool_decide_eq_true. Qed.
Lemma row_info_ok remap row info : row_ok remap row -> row_info remap row = Ret info ->
  line_ok info /\ l_addr info = row_address row /\ l_file_idx info = row_file remap row.
Proof.
  intros (Ha&Hr&Hl&Hc) E. unfold row_info, row_file in *. destruct (row_end_sequence row).
  - pose proof (line_new_correct (row_address row) None 0 0 0 SUBFUNCTION_LEVEL_MAX Ha ltac:(lia) ltac:(lia) ltac:(lia) ltac:(unfold SUBFUNCTION_LEVEL_MAX; lia) ltac:(done)) as H.
    rewrite E in H. destruct H as (?&?&?&_). done.
  - set (fl := if _ && _ then _ else _) in E. assert (Hfl : 0 <= fl < 4) by (unfold fl, LineFlags.STATEMENT; destruct (_ && _); lia).
    assert (Hf : forall i, zget remap (row_file_index row) = Some i -> 0 <= i).
    { intros i Hi. apply zget_Some in Hi as [_ Hi]. by apply (Forall_lookup_1 _ _ _ _ Hr Hi). }
    pose proof (line_new_correct (row_address row) _ _ _ fl SUBFUNCTION_LEVEL_MAX Ha Hl Hc Hfl ltac:(unfold SUBFUNCTION_LEVEL_MAX; lia) Hf) as H.
    rewrite E in H. destruct H as (?&?&?&_). done.
Qed.
Lemma row_info_no_panic remap row : row_ok remap row -> row_info remap row <> Panic.
Proof.
  intros _ E. unfold row_info, line_new in E. destruct (row_end_sequence row).
  - cbn [mbind outcome_bind] in E. destruct (2 ^ 48 <=? row_address row); [done|]. cbn in E. done.
  - destruct (zget remap _) as [i|]; [destruct (NO_FILE_IDX <=? i)|]; cbn [mbind outcome_bind] in E; try done;
      destruct (2 ^ 48 <=? row_address row); try done; destruct (_ || _); done.
Qed.

(** ** The tables *)

(** The table by line has the lines of the table by address, without its end
    markers; neighbours have different addresses. *)
Fixpoint neighbours_differ (ls : list LineInfo) : Prop :=
  match ls with
  | l :: ((k :: _) as rest) => l_addr l <> l_addr k /\ neighbours_differ rest
  | _ => True
  end.
Definition files_only (ls : list LineInfo) : list LineInfo := List.filter has_file ls.
Definition tables_ok (t : LineTables) : Prop := to_addr t = files_only (to_line t) /\ neighbours_differ (to_line t).

Lemma files_only_app a b : files_only (a ++ b) = files_only a ++ files_only b.
Proof. apply List.filter_app. Qed.
Lemma files_only_snoc ls x : files_only (ls ++ [x]) = if has_file x then files_only ls ++ [x] else files_only ls.
Proof. rewrite files_only_app. cbn [files_only List.filter]. destruct (has_file x); [reflexivity|apply app_nil_r]. Qed.
Lemma neighbours_snoc ls x : neighbours_differ (ls ++ [x]) <-> neighbours_differ ls /\ (match last ls with Some p => l_addr p <> l_addr x | None => True end).
Proof.
  induction ls as [|l [|k ls] IH]; [simpl; tauto|simpl; tauto|]. change ((l :: k :: ls) ++ [x]) with (l :: k :: (ls ++ [x])). cbn [neighbours_differ app] in *.
  change (last (l :: k :: ls)) with (last (k :: ls)). tauto.
Qed.
Lemma removelast_snoc {A} (l : list A) x : removelast (l ++ [x]) = l.
Proof. rewrite removelast_app by done. simpl. by rewrite app_nil_r. Qed.
Lemma last_split {A} (l : list A) x : last l = Some x -> exists l', l = l' ++ [x].
Proof. intros H. apply last_Some in H. exact H. Qed.

(** Adding a line, on each branch. *)
Inductive added (info : LineInfo) (t : LineTables) : LineTables -> Prop :=
  | added_first : last (to_line t) = None \/ (exists prev, last (to_line t) = Some prev /\ stray_zero info prev = false /\ l_addr prev <> l_addr info) ->
      added info t (push_line info t)
  | added_stray prev : last (to_line t) = Some prev -> stray_zero info prev = true -> added info t t
  | added_after_end ls prev : to_line t = ls ++ [prev] -> l_addr prev = l_addr info -> has_file prev = false ->
      added info t (push_line info (mkTables ls (to_addr t)))
  | added_end ls ks prev : to_line t = ls ++ [prev] -> to_addr t = ks ++ [prev] -> l_addr prev = l_addr info -> has_file prev = true -> has_file info = false ->
      added info t (mkTables (ls ++ [info]) ks)
  | added_better ls ks prev : to_line t = ls ++ [prev] -> to_addr t = ks ++ [prev] -> l_addr prev = l_addr info -> has_file prev = true -> has_file info = true ->
      stray_zero info prev = false -> implb (is_statement prev) (is_statement info) = true -> added info t (mkTables (ls ++ [info]) (ks ++ [info]))
  | added_worse ls prev : to_line t = ls ++ [prev] -> l_addr prev = l_addr info -> has_file prev = true -> has_file info = true ->
      stray_zero info prev = false -> implb (is_statement prev) (is_statement info) = false -> added info t t.
Lemma stray_zero_files info prev : stray_zero info prev = true -> has_file info = true /\ has_file prev = true.
Proof.
  unfold stray_zero. intros H. apply andb_true_iff in H as [H _]. apply andb_true_iff in H as [H E%bool_decide_eq_true]. apply andb_true_iff in H as [_ H].
  split; [done|]. apply has_file_spec. rewrite E. by apply has_file_spec.
Qed.

(** No assertion fails: the last line by address is the last line with a file. *)
Lemma add_line_ok info t : tables_ok t -> exists t', add_line (l_addr info) info t = Ret t' /\ added info t t'.
Proof.
  intros [Ht _]. unfold add_line. destruct (last (to_line t)) as [prev|] eqn:El; [|eexists; split; [reflexivity|]; apply added_first; by left].
  destruct (last_split _ _ El) as [ls E]. destruct (stray_zero info prev) eqn:Ez; [eexists; split; [reflexivity|exact (added_stray info t prev El Ez)]|].
  destruct (Z.eqb_spec (l_addr prev) (l_addr info)) as [Ea|Ea]; [|eexists; split; [reflexivity|]; apply added_first; right; by exists prev].
  destruct (has_file prev) eqn:Ep; cbn [negb].
  2: { rewrite E, removelast_snoc. eexists. split; [reflexivity|]. exact (added_after_end info t ls prev E Ea Ep). }
  assert (Eks : to_addr t = files_only ls ++ [prev]) by (by rewrite Ht, E, files_only_snoc, Ep).
  rewrite Eks, last_snoc, E. unfold replace_last. rewrite !removelast_snoc, Ea, Z.eqb_refl. cbn [rassert mbind outcome_bind].
  destruct (has_file info) eqn:Ei; cbn [negb]; [|eexists; split; [reflexivity|exact (added_end info t ls _ prev E Eks Ea Ep Ei)]].
  destruct (implb _ _) eqn:Es; (eexists; split; [reflexivity|]); [by eapply added_better|exact (added_worse info t ls prev E Ea Ep Ei Ez Es)].
Qed.
Lemma added_tables_ok info t t' : tables_ok t -> added info t t' -> tables_ok t'.
Proof.
  intros Hok H. pose proof Hok as [Ht Hn]. unfold tables_ok.
  destruct H as [Hl|prev El Ez|ls prev E Ea Ep|ls ks prev E Eks Ea Ep Ei|ls ks prev E Eks Ea Ep Ei Ez Es|ls prev E Ea Ep Ei Ez Es]; [|exact Hok| | | |exact Hok].
  - cbn [push_line to_line to_addr]. rewrite files_only_snoc, <- Ht. split; [reflexivity|].
    apply neighbours_snoc. split; [exact Hn|]. destruct Hl as [->|(prev&->&_&Hne)]; [exact Logic.I|exact Hne].
  - cbn [push_line to_line to_addr]. rewrite E in Ht, Hn. rewrite files_only_snoc, Ep in Ht.
    rewrite files_only_snoc, <- Ht. split; [reflexivity|]. apply neighbours_snoc in Hn as [Hn Hlast]. apply neighbours_snoc. split; [exact Hn|]. by rewrite <- Ea.
  - cbn [to_line to_addr]. rewrite E, files_only_snoc, Ep, Eks in Ht. apply app_inj_tail in Ht as [-> _].
    rewrite files_only_snoc, Ei. split; [reflexivity|]. rewrite E in Hn. apply neighbours_snoc in Hn as [Hn Hlast].
    apply neighbours_snoc. split; [exact Hn|]. by rewrite <- Ea.
  - cbn [to_line to_addr]. rewrite E, files_only_snoc, Ep, Eks in Ht. apply app_inj_tail in Ht as [-> _].
    rewrite files_only_snoc, Ei. split; [reflexivity|]. rewrite E in Hn. apply neighbours_snoc in Hn as [Hn Hlast].
    apply neighbours_snoc. split; [exact Hn|]. by rewrite <- Ea.
Qed.

(** ** Whole programs *)

Lemma read_rows_ok remap rs skip t : Forall (row_ok remap) rs -> tables_ok t ->
  match read_rows remap rs skip t with Ret t' => tables_ok t' | Fail _ => True | Panic => False end.
Proof.
  revert skip t; induction rs as [|row rs IH]; intros skip t Hrs Ht; [exact Ht|]. apply Forall_cons in Hrs as [Hrow Hrs]. cbn [read_rows].
  set (skip' := if row_address row =? 0 then true else skip). destruct skip'; [by apply IH|].
  pose proof (row_info_no_panic remap row Hrow) as Hnp. destruct (row_info remap row) as [info|e|] eqn:E; cbn [mbind outcome_bind]; [|exact Logic.I|done].
  destruct (row_info_ok remap row info Hrow E) as (_&<-&_). destruct (add_line_ok info t Ht) as (t'&->&Ha). cbn [widen mbind outcome_bind].
  apply IH; [done|]. by eapply added_tables_ok.
Qed.
Definition program_ok (p : LineProgram) : Prop := Forall (row_ok (file_idx_remap p)) (rows p).
Lemma read_programs_ok ps t : Forall (fun o => match o with Some p => program_ok p | None => True end) ps -> tables_ok t ->
  match read_programs ps t with Ret t' => tables_ok t' | Fail _ => True | Panic => False end.
Proof.
  revert t; induction ps as [|[p|] ps IH]; intros t Hps Ht; [exact Ht| |]; apply Forall_cons in Hps as [Hp Hps]; cbn [read_programs]; [|by apply IH].
  pose proof (read_rows_ok _ _ false t Hp Ht) as H. destruct (read_rows _ _ _ t) as [t'|e|]; cbn [mbind outcome_bind]; [|exact Logic.I|done].
  destruct (rows_error p); [exact Logic.I|by apply IH].
Qed.

(** C36. Reading .debug_line of any programs never fails an assertion: it ends, or
    gives an error, and then the table by line has exactly the lines of the table
    by address that are no end markers, in the same order, and no two neighbours
    of the table by address have the same address. *)
Theorem debug_line_tables_agree ps sh : Forall (fun o => match o with Some p => program_ok p | None => True end) ps ->
  addr_to_line (sym sh) = [] -> line_to_addr (sym sh) = [] ->
  match parse_debug_line ps sh with
  | Ret sh' => line_to_addr (sym sh') = List.filter has_file (addr_to_line (sym sh')) /\ neighbours_differ (addr_to_line (sym sh'))
  | Fail _ => True
  | Panic => False
  end.
Proof.
  intros Hps E1 E2. unfold parse_debug_line. rewrite E1, E2. pose proof (read_programs_ok ps (mkTables [] []) Hps ltac:(by split)) as H.
  destruct (read_programs _ _) as [t|e|]; cbn [mbind outcome_bind]; [exact H|exact Logic.I|done].
Qed.

(** ** Which row is kept *)

(** Of rows at one address: the last recommended one, or else the last. *)
Definition pick (g : list LineInfo) : option LineInfo :=
  match last (List.filter is_statement g) with Some l => Some l | None => last g end.
Definition better (best l : LineInfo) : LineInfo := if implb (is_statement best) (is_statement l) then l else best.

Lemma pick_snoc g x : pick (g ++ [x]) = Some (match pick g with Some b => better b x | None => x end).
Proof.
  unfold pick, better. rewrite List.filter_app, last_snoc. cbn [List.filter].
  destruct (is_statement x) eqn:Ex; [rewrite last_snoc|rewrite app_nil_r].
  - destruct (last (List.filter is_statement g)) as [b|] eqn:Eb; [|destruct (last g) as [b|]; [|done]]; by destruct (is_statement b).
  - destruct (last (List.filter is_statement g)) as [b|] eqn:Eb.
    + apply last_Some_elem_of, list_elem_of_In, filter_In in Eb as [_ ->]. done.
    + destruct (last g) as [b|] eqn:El; [|done]. destruct (is_statement b) eqn:Esb; [|done].
      destruct (last_split _ _ El) as [g' ->]. rewrite List.filter_app in Eb. cbn [List.filter] in Eb. rewrite Esb, last_snoc in Eb. done.
Qed.
Lemma pick_fold b g : foldl better b g = default b (pick (b :: g)).
Proof.
  induction g as [|x g IH] using rev_ind; [by unfold pick; cbn [List.filter]; destruct (is_statement b)|].
  rewrite foldl_app, IH. cbn [foldl]. rewrite app_comm_cons, pick_snoc. cbn [default]. destruct (pick (b :: g)) as [y|] eqn:E; [done|].
  unfold pick in E. destruct (last (List.filter _ _)); [done|]. destruct (last (b :: g)) eqn:E'; [done|]. by apply last_None in E'.
Qed.

(** Adding lines one after the other. *)
Fixpoint add_lines (infos : list LineInfo) (t : LineTables) : partial LineTables :=
  match infos with [] => Ret t | info :: infos => t ← add_line (l_addr info) info t; add_lines infos t end.
Lemma add_lines_app a b t : add_lines (a ++ b) t = t ← add_lines a t; add_lines b t.
Proof.
  revert t; induction a as [|x a IH]; intros t; [done|]. cbn [app add_lines]. destruct (add_line _ x t) as [t'|e|]; cbn [mbind outcome_bind]; [apply IH|done|done].
Qed.
Definition reads_row (remap : list Z) (row : LineRow) (info : LineInfo) : Prop :=
  row_address row <> 0 /\ row_end_sequence row = false /\ row_ok remap row /\ row_info remap row = Ret info.
Lemma read_rows_lines remap rs infos rest t : Forall2 (reads_row remap) rs infos ->
  read_rows remap (rs ++ rest) false t = t ← widen (add_lines infos t); read_rows remap rest false t.
Proof.
  intros H. revert t; induction H as [|row info rs infos (Ha&He&Hok&Hi) _ IH]; intros t; [done|]. cbn [app read_rows add_lines].
  rewrite (proj2 (Z.eqb_neq _ _) Ha), Hi, He. cbn [mbind outcome_bind]. destruct (row_info_ok remap row info Hok Hi) as (_&<-&_).
  destruct (add_line _ info t) as [t'|[]|]; cbn [widen mbind outcome_bind]; [|done]. apply IH.
Qed.

Definition real_line (l : LineInfo) : Prop := has_file l = true /\ l_line l <> 0.
Lemma real_not_stray info prev : real_line info -> stray_zero info prev = false.
Proof. intros [_ H]. unfold stray_zero. by rewrite (proj2 (Z.eqb_neq _ _) H). Qed.
Lemma add_better best info t : real_line best -> real_line info -> l_addr best = l_addr info ->
  add_line (l_addr info) info (push_line best t) = Ret (push_line (better best info) t).
Proof.
  intros Hb Hi Ha. unfold add_line, push_line. destruct Hb as [Hb _]. cbn [to_line to_addr]. rewrite Hb, last_snoc, real_not_stray, Ha, Z.eqb_refl, last_snoc, Ha, Z.eqb_refl by done.
  destruct Hi as [Hi _]. cbn [negb rassert mbind outcome_bind]. rewrite Hi. unfold better, replace_last. rewrite !removelast_snoc.
  destruct (implb _ _); cbn [negb].
  - by rewrite Hi, Hb.
  - by rewrite Hb.
Qed.
Lemma better_real best l : real_line best -> real_line l -> l_addr best = l_addr l -> real_line (better best l) /\ l_addr (better best l) = l_addr l.
Proof. intros Hb Hl Ha. unfold better. by destruct (implb _ _). Qed.
(** Rows without a line number between rows of the same file are left out. *)
Definition numbered (g : list LineInfo) : list LineInfo := List.filter (fun l => negb (l_line l =? 0)) g.
Definition group_row (b : LineInfo) (g : list LineInfo) (l : LineInfo) : Prop :=
  has_file l = true /\
  if l_line l =? 0 then Forall (fun x => l_file_idx x = l_file_idx l) (b :: numbered g) else l_addr l = l_addr b.
(** The rows at one address: the first has a line number, the others may lack
    one if all the rows with one are in their file. *)
Definition group (b : LineInfo) (g : list LineInfo) : Prop := real_line b /\ Forall (group_row b g) g.
Lemma group_numbered b g : group b g -> Forall (fun l => real_line l /\ l_addr l = l_addr b) (numbered g).
Proof.
  intros [_ H]. apply Forall_forall. intros l Hl. apply list_elem_of_In, filter_In in Hl as [Hl Hz]. apply negb_true_iff in Hz.
  rewrite Forall_forall in H. destruct (H l) as [Hf Ha]; [by apply list_elem_of_In|]. rewrite Hz in Ha. apply Z.eqb_neq in Hz. by repeat split.
Qed.
Lemma add_stray best l t : real_line best -> has_file l = true -> l_line l = 0 -> l_file_idx best = l_file_idx l ->
  add_line (l_addr l) l (push_line best t) = Ret (push_line best t).
Proof.
  intros [Hb Hz] Hf Hl He. unfold add_line. unfold push_line at 1. cbn [to_line]. rewrite last_snoc.
  assert (Hs : stray_zero l best = true); [|by rewrite Hs]. unfold stray_zero. rewrite Hl, Hf, bool_decide_eq_true_2 by done.
  by rewrite (proj2 (Z.eqb_neq _ _) Hz).
Qed.
(** A group of rows after its first row. *)
Lemma add_group b g t : group b g -> add_lines g (push_line b t) = Ret (push_line (foldl better b (numbered g)) t).
Proof.
  enough (H : forall rest best, real_line best -> l_addr best = l_addr b -> (forall l, l ∈ rest -> group_row best rest l) ->
    add_lines rest (push_line best t) = Ret (push_line (foldl better best (numbered rest)) t)).
  { intros [Hb Hg]. apply H; [done|done|]. by apply Forall_forall. }
  induction rest as [|l rest IH]; intros best Hb Ha Hr; [done|]. cbn [add_lines]. destruct (Hr l ltac:(by left)) as [Hf Hl].
  unfold numbered in *. cbn [List.filter] in *. destruct (Z.eqb_spec (l_line l) 0) as [Hz|Hz]; cbn [negb foldl] in *.
  - rewrite add_stray; [|done..|by apply Forall_cons in Hl as [? _]]. cbn [mbind outcome_bind]. apply IH; [done|done|].
    intros x Hx. specialize (Hr x ltac:(by right)). unfold group_row, numbered in Hr |- *. cbn [List.filter] in Hr. by rewrite Hz in Hr.
  - assert (Hreal : real_line l) by done. rewrite add_better by done. cbn [mbind outcome_bind].
    destruct (better_real best l Hb Hreal) as [Hr' Ha']; [done|]. apply IH; [done|by rewrite Ha', Hl|].
    intros x Hx. specialize (Hr x ltac:(by right)). unfold group_row, numbered in Hr |- *. cbn [List.filter] in Hr.
    rewrite (proj2 (Z.eqb_neq _ _) Hz) in Hr. cbn [negb] in Hr. destruct Hr as [Hxf Hx']. split; [done|].
    destruct (l_line x =? 0); [|by rewrite Ha', Hl]. apply Forall_cons in Hx' as [H1 [H2 H3]%Forall_cons].
    apply Forall_cons. split; [|done]. unfold better. by destruct (implb _ _).
Qed.

(** Groups of rows at one address, after a row at [prev]. *)
Inductive groups : option Z -> list (list LineInfo) -> Prop :=
  | groups_nil prev : groups prev []
  | groups_cons prev b g gs : group b g -> prev <> Some (l_addr b) -> groups (Some (l_addr b)) gs -> groups prev ((b :: g) :: gs).
Definition picks (gs : list (list LineInfo)) : list LineInfo := omap (fun g => pick (numbered g)) gs.
Definition push_all (ls : list LineInfo) (t : LineTables) : LineTables := mkTables (to_line t ++ ls) (to_addr t ++ ls).

Lemma numbered_cons b g : real_line b -> numbered (b :: g) = b :: numbered g.
Proof. intros [_ H]. unfold numbered. cbn [List.filter]. by rewrite (proj2 (Z.eqb_neq _ _) H). Qed.
Lemma group_pick b g : group b g ->
  exists p, pick (numbered (b :: g)) = Some p /\ foldl better b (numbered g) = p /\ real_line p /\ l_addr p = l_addr b.
Proof.
  intros Hgr. pose proof (group_numbered b g Hgr) as Hg. destruct Hgr as [Hb _]. rewrite numbered_cons by done. revert Hg. generalize (numbered g) as ns. clear g. intros ns Hg.
  assert (Hp : real_line (foldl better b ns) /\ l_addr (foldl better b ns) = l_addr b).
  { induction ns as [|x ns IH] using rev_ind; [done|]. apply Forall_app in Hg as [Hg Hx]. apply Forall_singleton in Hx as [Hx Hxa].
    rewrite foldl_app. cbn [foldl]. destruct (IH Hg) as [H1 H2]. destruct (better_real (foldl better b ns) x H1 Hx) as [H3 H4]; [by rewrite H2|]. split; [done|]. by rewrite H4. }
  rewrite pick_fold in Hp |- *. destruct (pick (b :: ns)) as [p|] eqn:E; [by exists p|].
  unfold pick in E. destruct (last (List.filter _ _)); [done|]. by apply last_None in E.
Qed.
Lemma push_line_real p t : real_line p -> push_line p t = push_all [p] t.
Proof. intros [H _]. unfold push_line, push_all. by rewrite H. Qed.
Lemma push_all_app a b t : push_all b (push_all a t) = push_all (a ++ b) t.
Proof. unfold push_all. cbn [to_line to_addr]. by rewrite !app_assoc. Qed.
Lemma push_all_nil t : push_all [] t = t.
Proof. unfold push_all. rewrite !app_nil_r. by destruct t. Qed.
Lemma add_fresh b t : real_line b -> (forall p, last (to_line t) = Some p -> l_addr p <> l_addr b) -> add_line (l_addr b) b t = Ret (push_line b t).
Proof.
  intros Hb Hf. unfold add_line. destruct (last (to_line t)) as [p|] eqn:E; [|done]. rewrite real_not_stray by done.
  by rewrite (proj2 (Z.eqb_neq _ _) (Hf p eq_refl)).
Qed.
Lemma add_one_group b g t : group b g -> add_line (l_addr b) b t = Ret (push_line b t) ->
  exists p, pick (numbered (b :: g)) = Some p /\ real_line p /\ l_addr p = l_addr b /\ add_lines (b :: g) t = Ret (push_all [p] t).
Proof.
  intros Hg Ha. destruct (group_pick b g Hg) as (p&Hp&Hf&Hr&Hpa). exists p. split_and!; [done..|].
  cbn [add_lines]. rewrite Ha. cbn [mbind outcome_bind]. rewrite add_group, Hf, push_line_real by done. done.
Qed.
Lemma add_groups prev gs t : groups prev gs -> (forall p, last (to_line t) = Some p -> prev = Some (l_addr p)) ->
  add_lines (concat gs) t = Ret (push_all (picks gs) t) /\ Forall real_line (picks gs).
Proof.
  intros H. revert t; induction H as [prev|prev b g gs Hg Hne _ IH]; intros t Ht; [split; [by rewrite push_all_nil|constructor]|].
  destruct (add_one_group b g t Hg) as (p&Hp&Hr&Hpa&Hadd). { apply add_fresh; [apply Hg|]. intros q Hq E. apply Hne. by rewrite (Ht q Hq), E. }
  cbn [concat picks omap list_omap]. rewrite add_lines_app, Hadd, Hp. cbn [mbind outcome_bind].
  destruct (IH (push_all [p] t)) as [-> Hrs]. { intros q Hq. unfold push_all in Hq. cbn [to_line] in Hq. rewrite last_snoc in Hq. injection Hq as <-. by rewrite Hpa. }
  split; [by rewrite push_all_app|by constructor].
Qed.

(** A table that a sequence ended, without an end marker at address [a]. *)
Definition without_end_at (a : Z) (ls : list LineInfo) : list LineInfo :=
  match last ls with Some p => if l_addr p =? a then removelast ls else ls | None => ls end.
Definition ended (t : LineTables) : Prop := forall p, last (to_line t) = Some p -> has_file p = false.
(** The rows that stay when the sequence ends at [a]. *)
Definition until_end (a : Z) (ls : list LineInfo) : list LineInfo :=
  match last ls with Some p => if l_addr p =? a then removelast ls else ls | None => ls end.

Lemma add_first_group b g gs t : groups None ((b :: g) :: gs) -> ended t ->
  add_lines (concat ((b :: g) :: gs)) t = Ret (push_all (picks ((b :: g) :: gs)) (mkTables (without_end_at (l_addr b) (to_line t)) (to_addr t))) /\
  Forall real_line (picks ((b :: g) :: gs)) /\ picks ((b :: g) :: gs) <> [].
Proof.
  intros H Hend. inversion H as [|? ? ? ? Hg _ Hgs]; subst. pose proof (proj1 Hg) as Hb. set (t0 := mkTables _ (to_addr t)).
  assert (Ha : add_line (l_addr b) b t = Ret (push_line b t0)).
  { unfold t0, without_end_at. destruct (last (to_line t)) as [p|] eqn:E; [|rewrite add_fresh; [by destruct t|done|by rewrite E]].
    destruct (Z.eqb_spec (l_addr p) (l_addr b)) as [Ep|Ep]; [|rewrite add_fresh; [by destruct t|done|]; intros q Hq; congruence].
    unfold add_line. rewrite E, real_not_stray, Ep, Z.eqb_refl, (Hend p E) by done. done. }
  destruct (group_pick b g Hg) as (p&Hp&Hf&Hr&Hpa). cbn [concat picks omap list_omap]. rewrite add_lines_app. cbn [add_lines].
  rewrite Ha. cbn [mbind outcome_bind]. rewrite add_group, Hf, push_line_real, Hp by done. cbn [mbind outcome_bind].
  destruct (add_groups _ gs (push_all [p] t0) Hgs) as [-> Hrs].
  { intros q Hq. unfold push_all in Hq. cbn [to_line] in Hq. rewrite last_snoc in Hq. injection Hq as <-. by rewrite Hpa. }
  split; [by rewrite push_all_app|]. split; [by constructor|done].
Qed.
Lemma add_end_marker e ls t : has_file e = false -> Forall real_line ls -> ls <> [] ->
  add_line (l_addr e) e (push_all ls t) = Ret (mkTables (to_line t ++ until_end (l_addr e) ls ++ [e]) (to_addr t ++ until_end (l_addr e) ls)).
Proof.
  intros He Hls Hne. destruct (last ls) as [p|] eqn:El; [|by apply last_None in El]. destruct (last_split _ _ El) as [ls' ->].
  apply Forall_app in Hls as [_ [[Hp _] _]%Forall_cons]. unfold add_line, push_all, until_end. cbn [to_line to_addr]. rewrite !app_assoc, !last_snoc.
  assert (Hz : stray_zero e p = false) by (unfold stray_zero; rewrite He, andb_false_r; done). rewrite Hz.
  destruct (Z.eqb_spec (l_addr p) (l_addr e)) as [Ea|Ea]; cbn [rassert mbind outcome_bind].
  - rewrite Hp, He. cbn [negb rassert mbind outcome_bind]. unfold replace_last. by rewrite !removelast_snoc.
  - unfold push_line. cbn [to_line to_addr]. by rewrite He, <- !app_assoc.
Qed.

(** C21. Of the rows of a sequence that have the same address, one is kept, in
    both tables: the last of those recommended for breakpoints if there are any,
    or else the last. This is for a sequence whose rows are at addresses other
    than 0 (others are skipped) and have files that are known; the first row at
    each address has a line number, and rows without one, which are left out,
    are in the file of the other rows of their group. An end marker of the
    sequence before at the first address goes, and so does the last row when the
    sequence ends at its address; an end marker follows in the table by address
    only. *)
Theorem recommended_row_per_address remap rgs b g gs erow e t :
  Forall2 (Forall2 (reads_row remap)) rgs ((b :: g) :: gs) -> groups None ((b :: g) :: gs) ->
  row_ok remap erow -> row_address erow <> 0 -> row_end_sequence erow = true -> row_info remap erow = Ret e -> ended t ->
  let kept := until_end (l_addr e) (picks ((b :: g) :: gs)) in
  read_rows remap (concat rgs ++ [erow]) false t =
    Ret (mkTables (without_end_at (l_addr b) (to_line t) ++ kept ++ [e]) (to_addr t ++ kept)) /\
  Forall2 (fun rows l => exists g', Forall2 (reads_row remap) rows g' /\ pick (numbered g') = Some l) rgs (picks ((b :: g) :: gs)).
Proof.
  intros Hrows Hgs Hok Hea Hee Hei Hend kept.
  assert (Hrow : Forall2 (reads_row remap) (concat rgs) (concat ((b :: g) :: gs))).
  { clear - Hrows. induction Hrows; cbn [concat]; [constructor|by apply Forall2_app]. }
  destruct (add_first_group b g gs t Hgs Hend) as (Hadd&Hreal&Hne). destruct (row_info_ok remap erow e Hok Hei) as (_&Hea'&Hef).
  assert (He : has_file e = false).
  { unfold row_file in Hef. rewrite Hee in Hef. unfold has_file. rewrite Hef. apply bool_decide_eq_false. by intros []. }
  split.
  - rewrite (read_rows_lines _ _ _ _ _ Hrow), Hadd. cbn [widen mbind outcome_bind read_rows]. rewrite (proj2 (Z.eqb_neq _ _) Hea), Hei. cbn [mbind outcome_bind].
    rewrite <- Hea', add_end_marker by done. cbn [widen mbind outcome_bind to_line to_addr]. done.
  - clear Hrow Hadd Hreal Hne kept. revert rgs Hrows. generalize (@None Z) as prev, ((b :: g) :: gs) as gs0, Hgs. clear. intros prev gs0 Hgs.
    induction Hgs as [prev|prev b g gs Hg _ _ IH]; intros rgs Hrows; inversion Hrows as [|rows ? rgs' ? Hr Hrs]; subst; [constructor|].
    destruct (group_pick b g Hg) as (p&Hp&_). cbn [picks omap list_omap]. rewrite Hp. constructor; [by exists (b :: g)|by apply IH].
Qed.

(** ** The example of the source: five rows at one address *)

Definition sample_rows : list LineRow :=
  [mkRow 0x17b7 1 (Some 175) (Some 9) true false; mkRow 0x17b7 1 (Some 176) (Some 9) true false; mkRow 0x17b7 1 (Some 25) (Some 24) true false;
   mkRow 0x17b7 1 (Some 26) (Some 5) true false; mkRow 0x17b7 1 (Some 26) (Some 14) false false].
Definition sample_end : LineRow := mkRow 0x17c0 1 (Some 26) (Some 1) false true.
Definition sample_info (row : LineRow) : LineInfo := match row_info [0; 1] row with Ret l => l | _ => line_invalid end.
Lemma debug_line_tables_agree_witness : exists sh', parse_debug_line [Some (mkProgram (sample_rows ++ [sample_end]) None [0; 1])]
    (mkLoader (mkShard [] [] [] [] [] [] []) 0 [] [] 0) = Ret sh' /\ line_to_addr (sym sh') = List.filter has_file (addr_to_line (sym sh')).
Proof.
  set (ps := [Some (mkProgram (sample_rows ++ [sample_end]) None [0; 1])]). set (sh := mkLoader (mkShard [] [] [] [] [] [] []) 0 [] [] 0).
  assert (Hps : Forall (fun o => match o with Some p => program_ok p | None => True end) ps).
  { unfold ps, program_ok. constructor; [|constructor]. simpl. repeat (apply Forall_cons; split; [unfold row_ok; simpl; split_and!; try lia; by repeat constructor|]). constructor. }
  pose proof (debug_line_tables_agree ps sh Hps eq_refl eq_refl) as H. destruct (parse_debug_line ps sh) as [sh'|e|] eqn:E; [|vm_compute in E; done|done].
  exists sh'. split; [reflexivity|]. apply H.
Defined.
(** The same, with a row without a line number after them. *)
Definition sample_sequence : list LineRow := sample_rows ++ [mkRow 0x17b9 1 None None true false].
Lemma recommended_row_per_address_witness : exists l e, l_line l = 26 /\ l_column l = 5 /\ has_file e = false /\
  read_rows [0; 1] (sample_sequence ++ [sample_end]) false (mkTables [] []) = Ret (mkTables [l; e] [l]).
Proof.
  set (infos := map sample_info sample_sequence). exists (sample_info (mkRow 0x17b7 1 (Some 26) (Some 5) true false)), (sample_info sample_end).
  split; [vm_compute; reflexivity|]. split; [vm_compute; reflexivity|]. split; [vm_compute; reflexivity|].
  assert (Hok : forall row, row ∈ sample_end :: sample_sequence -> row_ok [0; 1] row).
  { intros row Hr. apply list_elem_of_In in Hr. repeat (destruct Hr as [<-|Hr]; [unfold row_ok; simpl; split_and!; try lia; by repeat constructor|]). destruct Hr. }
  assert (Hg : groups None [infos]).
  { set (v := infos). vm_compute in v. change infos with v. clear infos. unfold v. apply groups_cons; [split|done|constructor].
    - split; vm_compute; congruence.
    - repeat (apply Forall_cons; split; [split; [by vm_compute|]|]); [by vm_compute..| |constructor].
      match goal with |- if ?c then _ else _ => change c with true end. repeat (apply Forall_cons; split; [by vm_compute|]). constructor. }
  assert (Hr : Forall2 (Forall2 (reads_row [0; 1])) [sample_sequence] [infos]).
  { constructor; [|constructor]. assert (Hall : forall row, row ∈ sample_sequence -> reads_row [0; 1] row (sample_info row)).
    { intros row Hin. pose proof (Hok row (list_elem_of_further _ _ _ Hin)) as Hrow. apply list_elem_of_In in Hin.
      repeat (destruct Hin as [<-|Hin]; [split; [vm_compute; congruence|]; split; [reflexivity|]; split; [exact Hrow|vm_compute; reflexivity]|]). destruct Hin. }
    unfold infos. clear - Hall. induction sample_sequence as [|row rs IH]; [constructor|]. cbn [map]. constructor; [apply Hall, list_elem_of_here|].
    apply IH. intros r Hr. by apply Hall, list_elem_of_further. }
  pose proof (recommended_row_per_address [0; 1] [sample_sequence] _ _ [] sample_end (sample_info sample_end) (mkTables [] []) Hr Hg
    (Hok _ (list_elem_of_here _ _)) ltac:(vm_compute; congruence) eq_refl ltac:(vm_compute; reflexivity) ltac:(by intros p [=])) as [E _].
  cbn [concat] in E. rewrite app_nil_r in E. rewrite E. vm_compute. reflexivity.
Defined.
