(* ===== verification/LinesSpec.v ===== *)
(** Lines by address: the sorted tables of the shards, their merging, and the
    line that covers an address. *)
From Stdlib Require Import ZArith Lia.
From stdpp Require Import base list sorting.
From S2P Require Import Prelude Errors StdSort LineInfo MergeIterator Symbols DebugLine DebugLineSpec.
Open Scope Z_scope.

(** ** The order of lines *)

Abbreviation lkey := addr_filenone_linebad_inlined.
Lemma line_addr_range l : line_ok l -> 0 <= l_addr l < 2 ^ 48.
Proof. intros Hl. rewrite l_addr_field. by destruct (fields_of_ok l Hl). Qed.
(** Keys are ordered by address first; at an address, lines with a number come
    before lines without, and end markers come last. *)
Lemma lkey_parts l : line_ok l -> exists r, lkey l = l_addr l * 2 ^ 16 + r /\ 0 <= r < 2 ^ 16 /\
  r = Z.b2z (negb (has_file l)) * 4 + Z.b2z (l_line l =? 0) * 2 + l_flags l mod 2.
Proof.
  intros Hl. rewrite addr_key_field, l_addr_field, l_flags_field by done. pose proof (Z.mod_pos_bound (fflags (fields_of l)) 2 ltac:(lia)) as Hm.
  assert (bool_decide (l_file_idx l = None) = negb (has_file l)) as ->.
  { unfold has_file. destruct (l_file_idx l); [rewrite bool_decide_eq_false_2 by done; by rewrite bool_decide_eq_true_2 by (by eexists)|].
    rewrite bool_decide_eq_true_2 by done. rewrite bool_decide_eq_false_2; [done|by intros []]. }
  eexists. split; [rewrite <- !Z.add_assoc; reflexivity|]. rewrite Z.add_assoc. split; [|done].
  destruct (negb (has_file l)), (l_line l =? 0); cbn [Z.b2z]; lia.
Qed.
Lemma lkey_addr l k : line_ok l -> line_ok k -> lkey l <= lkey k -> l_addr l <= l_addr k.
Proof. intros Hl Hk H. destruct (lkey_parts l Hl) as (r&E&Hr&_), (lkey_parts k Hk) as (r'&E'&Hr'&_). lia. Qed.
Lemma lkey_addr_lt l k : line_ok l -> line_ok k -> l_addr l < l_addr k -> lkey l < lkey k.
Proof. intros Hl Hk H. destruct (lkey_parts l Hl) as (r&E&Hr&_), (lkey_parts k Hk) as (r'&E'&Hr'&_). lia. Qed.
(** Below a line without a number there are only such lines, at an address. *)
Lemma lkey_zero l k : line_ok l -> line_ok k -> l_addr l = l_addr k -> lkey l <= lkey k -> l_line l = 0 -> has_file k = true -> l_line k = 0.
Proof.
  intros Hl Hk Ha H Hz Hf. destruct (lkey_parts l Hl) as (r&E&_&Er), (lkey_parts k Hk) as (r'&E'&_&Er').
  rewrite Hz, Z.eqb_refl in Er. rewrite Hf in Er'. cbn [negb Z.b2z] in Er, Er'. destruct (Z.eqb_spec (l_line k) 0); [done|]. cbn [Z.b2z] in Er'.
  pose proof (Z.mod_pos_bound (l_flags l) 2 ltac:(lia)). pose proof (Z.mod_pos_bound (l_flags k) 2 ltac:(lia)). destruct (negb (has_file l)); cbn [Z.b2z] in Er; lia.
Qed.

(** ** The sorted table of a shard *)

Definition strictly_sorted (ls : list LineInfo) : Prop := StronglySorted (fun l k => l_addr l < l_addr k) ls.
(** A line that says there is no line number. *)
Definition numberless (l : LineInfo) : Prop := l_line l = 0 /\ has_file l = true.

Lemma retain_ok prev ls : StronglySorted (by_key lkey) ls -> Forall line_ok ls -> Forall (fun l => l_addr prev <= l_addr l) ls ->
  strictly_sorted (retain_lines prev ls) /\ Forall (fun l => l_addr prev < l_addr l) (retain_lines prev ls) /\
  (forall k, k ∈ retain_lines prev ls -> k ∈ ls /\ forall l, l ∈ ls -> l_addr l = l_addr k -> lkey k <= lkey l \/ numberless l) /\
  (forall l, l ∈ ls -> l_addr l <> l_addr prev -> (exists k, k ∈ retain_lines prev ls /\ l_addr k = l_addr l) \/ numberless l).
Proof.
  revert prev; induction ls as [|x ls IH]; intros prev Hs Hok Hp; cbn [retain_lines].
  { split; [apply SSorted_nil|]. split; [apply Forall_nil; done|]. split; intros k Hk; by apply elem_of_nil in Hk. }
  apply StronglySorted_inv in Hs as [Hs Hx]. apply Forall_cons in Hok as [Hxok Hok]. apply Forall_cons in Hp as [Hpx Hp].
  assert (Hge : Forall (fun l => l_addr x <= l_addr l) ls).
  { apply Forall_forall. intros l Hl. apply lkey_addr; [done|by apply (proj1 (Forall_forall _ _) Hok)|]. by apply (proj1 (Forall_forall _ _) Hx). }
  destruct (Z.eqb_spec (l_addr x) (l_addr prev)) as [E|E].
  { destruct (IH prev Hs Hok Hp) as (H1&H2&H3&H4). split_and!; [done|done| |].
    - intros k Hk. destruct (H3 k Hk) as [Hin Hbest]. split; [by apply list_elem_of_further|]. intros l [->|Hl]%elem_of_cons Hlk; [|by apply Hbest].
      apply (proj1 (Forall_forall _ _) H2) in Hk. lia.
    - intros l [->|Hl]%elem_of_cons Hne; [done|]. by apply H4. }
  destruct (_ && _) eqn:Ez.
  { assert (Hnl : numberless x).
    { apply andb_true_iff in Ez as [Ez _]. apply andb_true_iff in Ez as [Ez _]. apply andb_true_iff in Ez as [Ez%Z.eqb_eq Ef]. done. }
    destruct (IH prev Hs Hok Hp) as (H1&H2&H3&H4). split_and!; [done|done| |].
    - intros k Hk. destruct (H3 k Hk) as [Hin Hbest]. split; [by apply list_elem_of_further|]. intros l [->|Hl]%elem_of_cons Hlk; [by right|by apply Hbest].
    - intros l [->|Hl]%elem_of_cons Hne; [by right|]. by apply H4. }
  destruct (IH x Hs Hok Hge) as (H1&H2&H3&H4). split_and!.
  - by constructor.
  - constructor; [lia|]. eapply Forall_impl; [apply H2|]. simpl. lia.
  - intros k [->|Hk]%elem_of_cons.
    + split; [apply list_elem_of_here|]. intros l [->|Hl]%elem_of_cons _; [left; lia|]. left. by apply (proj1 (Forall_forall _ _) Hx).
    + destruct (H3 k Hk) as [Hin Hbest]. split; [by apply list_elem_of_further|]. intros l [->|Hl]%elem_of_cons Hlk; [|by apply Hbest].
      apply (proj1 (Forall_forall _ _) H2) in Hk. lia.
  - intros l [->|Hl]%elem_of_cons Hne; [left; exists x; split; [apply list_elem_of_here|done]|].
    destruct (Z.eq_dec (l_addr l) (l_addr x)) as [El|El]; [left; exists x; split; [apply list_elem_of_here|done]|].
    destruct (H4 l Hl El) as [(k&Hk&Ek)|]; [|by right]. left. exists k. split; [by apply list_elem_of_further|done].
Qed.

(** Sorting a shard's table leaves one line per address, the addresses
    strictly increasing: at each address above 0 the best of the lines there, a
    line with a number before a line without and both before an end marker;
    only lines without a number may be left out altogether. *)
Theorem sorted_table_one_line_per_address `{!SliceSort (by_key lkey)} sh finalize : Forall line_ok (addr_to_line (sym sh)) ->
  exists sh', sort_addr_to_line sh finalize = Ret sh' /\
    let before := addr_to_line (sym sh) in let after := addr_to_line (sym sh') in
    strictly_sorted after /\
    (forall k, k ∈ after -> k ∈ before /\ 0 < l_addr k /\ forall l, l ∈ before -> l_addr l = l_addr k -> lkey k <= lkey l \/ numberless l) /\
    (forall l, l ∈ before -> 0 < l_addr l -> (exists k, k ∈ after /\ l_addr k = l_addr l) \/ numberless l) /\
    (finalize = false -> addr_to_line_len_after_debug_line sh' = length after).
Proof.
  intros Hok. unfold sort_addr_to_line. destruct (line_new 0 None 0 0 0 0) as [prev|e|] eqn:E; [|vm_compute in E; done|vm_compute in E; done].
  cbn [mbind outcome_bind]. assert (Hprev : l_addr prev = 0) by (vm_compute in E; injection E as <-; vm_compute; reflexivity).
  set (ls := slice_sort _ _). assert (Hls : ls ≡ₚ addr_to_line (sym sh)) by apply slice_sort_perm.
  assert (Hlok : Forall line_ok ls) by (by rewrite Hls). 
  destruct (retain_ok prev ls (slice_sort_sorted _) Hlok) as (H1&H2&H3&H4).
  { eapply Forall_impl; [apply Hlok|]. intros l Hl. rewrite Hprev. apply line_addr_range, Hl. }
  eexists. split; [reflexivity|]. cbn zeta. 
  assert (Hafter : addr_to_line (sym (if finalize then set_sym sh (set_addr_to_line (retain_lines prev ls))
      else mkLoader (sym (set_sym sh (set_addr_to_line (retain_lines prev ls)))) (length (retain_lines prev ls)) (file_used_lines (set_sym sh (set_addr_to_line (retain_lines prev ls))))
             (shard_functions (set_sym sh (set_addr_to_line (retain_lines prev ls)))) (max_function_end (set_sym sh (set_addr_to_line (retain_lines prev ls))))))
      = retain_lines prev ls) by (by destruct finalize).
  rewrite Hafter. split_and!; [done| | |].
  - intros k Hk. destruct (H3 k Hk) as [Hin Hbest]. rewrite <- Hls. split; [done|]. split; [rewrite <- Hprev; by apply (proj1 (Forall_forall _ _) H2)|].
    intros l Hl. apply Hbest. by rewrite Hls.
  - intros l Hl Hpos. apply H4; [by rewrite Hls|lia].
  - intros ->. done.
Qed.

(** ** Merging the shards *)

Section Merging.
  Context `{!BinaryHeap Reverse}.
Abbreviation merger := (MergeIterator (T := LineInfo) (K := Reverse)).

(** The items of the iterator are those of the merge, one per address. *)
Lemma iter_next_ok fuel p (m : merger) l : merges line_key m l -> (length l < fuel)%nat ->
  match dedup_from l_addr p l with
  | [] => exists it, iter_next fuel (mkIter p m) = Ret (None, it)
  | x :: rest => exists m' l', iter_next fuel (mkIter p m) = Ret (Some x, mkIter (l_addr x) m') /\ merges line_key m' l' /\
      dedup_from l_addr (l_addr x) l' = rest /\ (length l' < length l)%nat
  end.
Proof.
  intros Hl. revert fuel p; induction Hl as [m E E0|m x m' l E Hp Hl IH]; intros fuel p Hf; (destruct fuel as [|fuel]; [lia|]); cbn [iter_next iter]; rewrite E; cbn [mbind outcome_bind prev_line_addr dedup_from].
  { by eexists. }
  destruct (Z.eqb_spec (l_addr x) p) as [Ep|Ep]; cbn [negb]; [|exists m', l; split_and!; try done; simpl; lia].
  simpl in Hf. specialize (IH fuel p ltac:(lia)). destruct (dedup_from l_addr p l) as [|y rest]; [done|]. destruct IH as (m''&l'&?&?&?&?).
  exists m'', l'. split_and!; try done. simpl. lia.
Qed.
Lemma iter_collect_ok fuel p (m : merger) l : merges line_key m l -> (length l < fuel)%nat -> iter_collect fuel (mkIter p m) = Ret (dedup_from l_addr p l).
Proof.
  revert p m l; induction fuel as [|fuel IH]; intros p m l Hl Hf; [lia|]. cbn [iter_collect]. unfold lines_left. cbn [iter].
  rewrite (merges_length line_key m l Hl). pose proof (iter_next_ok (S (length l)) p m l Hl ltac:(lia)) as Hn.
  destruct (dedup_from l_addr p l) as [|x rest]; [destruct Hn as (it&->); done|]. destruct Hn as (m'&l'&->&Hl'&<-&Hlt). cbn [mbind outcome_bind].
  rewrite (IH _ _ l' Hl') by lia. done.
Qed.
End Merging.

(** ** The lines of all shards from an address on *)

Lemma sorted_partition ls addr : strictly_sorted ls -> let i := partition_point (fun l => l_addr l <=? addr) ls in
  forall j l, ls !! j = Some l -> l_addr l <= addr <-> (j < i)%nat.
Proof.
  intros Hs i j l Hj. split.
  - intros Hle. destruct (Nat.ltb_spec j i); [done|]. exfalso.
    assert (Hpp : (l_addr l <=? addr) = false); [|lia]. apply (partition_point_after (fun l => l_addr l <=? addr) ls j l); [|done|done].
    intros a b y z Hab Hy Hz Hle'. apply Z.leb_le in Hle'. apply Z.leb_le.
    pose proof (StronglySorted_lookup _ _ Hs a b y z Hab Hy Hz). simpl in *. lia.
  - intros Hlt. pose proof (partition_point_before _ _ _ _ Hlt Hj) as H. by apply Z.leb_le in H.
Qed.

(** What the tables of the shards are after sorting. *)
Definition shards_sorted (shs : list SymbolsShard) : Prop :=
  Forall (fun sh => strictly_sorted (addr_to_line sh) /\ Forall line_ok (addr_to_line sh)) shs.
Definition all_lines (shs : list SymbolsShard) : list LineInfo := concat (map addr_to_line shs).
(** [b] is the greatest address of a line up to [addr], or [b0] if that is
    greater or there is none. *)
Definition greatest_below (shs : list SymbolsShard) (addr b0 b : Z) : Prop :=
  b0 <= b /\ (b = b0 \/ (b <= addr /\ exists l, l ∈ all_lines shs /\ l_addr l = b)) /\ forall l, l ∈ all_lines shs -> l_addr l <= addr -> l_addr l <= b.
(** A source: the lines of a shard above [addr], with the one before them. *)
Definition source_ok (addr b : Z) (src : list LineInfo) : Prop :=
  strictly_sorted src /\ Forall line_ok src /\ match src with x :: rest => (l_addr x <= addr -> l_addr x <= b) /\ Forall (fun l => addr < l_addr l) rest | [] => False end.

Lemma all_lines_cons sh shs l : l ∈ all_lines (sh :: shs) <-> l ∈ addr_to_line sh \/ l ∈ all_lines shs.
Proof. unfold all_lines. cbn [map concat]. apply elem_of_app. Qed.
Lemma strictly_sorted_drop n ls : strictly_sorted ls -> strictly_sorted (drop n ls).
Proof. intros H. rewrite <- (take_drop n ls) in H. by apply StronglySorted_app in H as (_&_&H). Qed.
Lemma greatest_cons shs sh addr b0 b1 b : greatest_below shs addr b1 b -> b0 <= b1 ->
  (b1 = b0 \/ (b1 <= addr /\ exists l, l ∈ addr_to_line sh /\ l_addr l = b1)) -> (forall l, l ∈ addr_to_line sh -> l_addr l <= addr -> l_addr l <= b1) ->
  greatest_below (sh :: shs) addr b0 b.
Proof.
  intros (H1&H2&H3) H0 Hb1 Hsh. split; [lia|]. split.
  - destruct H2 as [->|(Hb&l&Hl&El)]; [|right; split; [done|]; exists l; rewrite all_lines_cons; by split; [right|]].
    destruct Hb1 as [->|(Hb&l&Hl&El)]; [by left|]. right. split; [done|]. exists l. rewrite all_lines_cons. by split; [left|].
  - intros l [Hl|Hl]%all_lines_cons Hle; [|by apply H3]. specialize (Hsh l Hl Hle). lia.
Qed.

Lemma line_sources_ok shs addr b0 : shards_sorted shs -> exists srcs b, line_sources shs addr b0 = Ret (srcs, b) /\
  greatest_below shs addr b0 b /\ Forall (source_ok addr b) srcs /\ (forall l, l ∈ concat srcs -> l ∈ all_lines shs) /\
  (forall l, l ∈ all_lines shs -> b <= l_addr l -> l ∈ concat srcs).
Proof.
  revert b0; induction shs as [|sh shs IH]; intros b0 Hs; cbn [line_sources].
  { exists [], b0. split; [done|]. split; [split; [lia|]; split; [by left|]; intros l Hl; by apply elem_of_nil in Hl|]. split; [constructor|]. done. }
  apply Forall_cons in Hs as [[Hsh Hok] Hs]. set (i := partition_point _ _). pose proof (sorted_partition _ addr Hsh) as Hpart. fold i in Hpart. cbv zeta in Hpart.
  set (r := if (0 <? i)%nat then _ else _).
  assert (Hr : exists j b1, r = Ret (j, b1) /\ b0 <= b1 /\ (b1 = b0 \/ (b1 <= addr /\ exists l, l ∈ addr_to_line sh /\ l_addr l = b1)) /\
    (forall l, l ∈ addr_to_line sh -> l_addr l <= addr -> l_addr l <= b1) /\ (j <= i)%nat /\ (i <= S j)%nat /\
    (forall l, addr_to_line sh !! j = Some l -> l_addr l <= addr -> l_addr l <= b1) /\
    (forall k l, (k < j)%nat -> addr_to_line sh !! k = Some l -> l_addr l < b1)).
  { unfold r. destruct (Nat.ltb_spec 0 i) as [Hi|Hi].
    - destruct (lookup_lt_is_Some_2 (addr_to_line sh) (i - 1)%nat) as [l0 Hl0].
      { pose proof (partition_point_le (fun l => l_addr l <=? addr) (addr_to_line sh)). fold i in H. lia. }
      rewrite Hl0. cbn [lift_opt mbind outcome_bind]. exists (i - 1)%nat, (Z.max b0 (l_addr l0)). split; [done|]. split; [lia|].
      assert (Hle0 : l_addr l0 <= addr) by (apply (Hpart (i - 1)%nat l0 Hl0); lia).
      assert (Hall : forall k l, addr_to_line sh !! k = Some l -> l_addr l <= addr -> l_addr l <= l_addr l0).
      { intros k l Hk Hle. apply (Hpart k l Hk) in Hle. destruct (decide (k = i - 1)%nat) as [->|]; [simplify_eq; lia|].
        pose proof (StronglySorted_lookup _ _ Hsh k (i - 1)%nat l l0 ltac:(lia) Hk Hl0). simpl in *. lia. }
      split; [destruct (Z.max_spec b0 (l_addr l0)) as [[_ ->]|[_ ->]]; [right; split; [done|]; exists l0; split; [by eapply list_elem_of_lookup_2|done]|by left]|].
      split; [intros l [k Hk]%list_elem_of_lookup Hle; specialize (Hall k l Hk Hle); lia|]. split; [lia|]. split; [lia|].
      split; [intros l Hl; simplify_eq; lia|]. intros k l Hlt Hk. pose proof (StronglySorted_lookup _ _ Hsh k (i - 1)%nat l l0 Hlt Hk Hl0). simpl in *. lia.
    - exists i, b0. split; [done|]. split; [lia|]. split; [by left|].
      split; [intros l [k Hk]%list_elem_of_lookup Hle; apply (Hpart k l Hk) in Hle; lia|]. split; [lia|]. split; [lia|].
      split; [intros l Hl Hle; apply (Hpart i l Hl) in Hle; lia|]. intros; lia. }
  destruct Hr as (j&b1&->&Hb01&Hb1&Hbelow&Hji&Hij&Hhead&Hdropped). cbn [mbind outcome_bind].
  destruct (IH b1 Hs) as (srcs&b&->&Hg&Hsrcs&Hsub&Hsup). cbn [mbind outcome_bind].
  pose proof (greatest_cons _ sh _ b0 _ _ Hg Hb01 Hb1 Hbelow) as Hg'. pose proof Hg as (Hb1b&_&_).
  assert (Hin : forall k l, addr_to_line sh !! k = Some l -> b <= l_addr l -> l ∈ drop j (addr_to_line sh)).
  { intros k l Hk Hle. destruct (decide (k < j)%nat) as [Hlt|Hge]; [specialize (Hdropped k l Hlt Hk); lia|].
    apply list_elem_of_lookup. exists (k - j)%nat. rewrite lookup_drop. by replace (j + (k - j))%nat with k by lia. }
  destruct (Nat.ltb_spec j (length (addr_to_line sh))) as [Hj|Hj].
  - exists (drop j (addr_to_line sh) :: srcs), b. split; [done|]. split; [done|]. split; [|split].
    + constructor; [|done]. split; [by apply strictly_sorted_drop|]. split; [by apply Forall_drop|].
      destruct (drop j (addr_to_line sh)) as [|x rest] eqn:Ed; [apply (f_equal length) in Ed; rewrite length_drop in Ed; simpl in Ed; lia|].
      assert (Hx : addr_to_line sh !! j = Some x) by (rewrite <- (Nat.add_0_r j), <- lookup_drop, Ed; done).
      split; [intros Hle; specialize (Hhead x Hx Hle); lia|]. apply Forall_lookup. intros k l Hk.
      assert (Hl : addr_to_line sh !! (j + S k)%nat = Some l) by (rewrite <- lookup_drop, Ed; done).
      destruct (Z.ltb_spec addr (l_addr l)) as [|Hle]; [done|]. apply (Hpart _ l Hl) in Hle. lia.
    + intros l Hl. cbn [concat] in Hl. apply all_lines_cons. apply elem_of_app in Hl as [Hl|Hl]; [left|right; by apply Hsub].
      apply list_elem_of_lookup in Hl as [k Hk]. rewrite lookup_drop in Hk. by eapply list_elem_of_lookup_2.
    + intros l [Hl|Hl]%all_lines_cons Hle; cbn [concat]; apply elem_of_app; [left|right; by apply Hsup].
      apply list_elem_of_lookup in Hl as [k Hk]. by eapply Hin.
  - exists srcs, b. split; [done|]. split; [done|]. split; [done|]. split.
    + intros l Hl. apply all_lines_cons. right. by apply Hsub.
    + intros l [Hl|Hl]%all_lines_cons Hle; [|by apply Hsup]. apply list_elem_of_lookup in Hl as [k Hk].
      pose proof (Hin k l Hk Hle) as Hd. rewrite drop_ge in Hd by lia. by apply elem_of_nil in Hd.
Qed.

Lemma trim_sources_ok addr b srcs : b <= addr \/ b = 0 -> 0 <= addr -> Forall (source_ok addr b) srcs ->
  exists srcs', trim_sources srcs b = Ret srcs' /\ Forall (fun src => strictly_sorted src /\ Forall line_ok src) srcs' /\
    forall l, l ∈ concat srcs' <-> l ∈ concat srcs /\ b <= l_addr l.
Proof.
  intros Hb Haddr. induction 1 as [|src srcs (Hs&Hok&Hsrc) _ (srcs'&E&Hok'&Hin)]; cbn [trim_sources].
  { exists []. split; [done|]. split; [constructor|]. intros l. split; [intros Hl; by apply elem_of_nil in Hl|by intros [Hl _]]. }
  destruct src as [|x rest]; [done|]. destruct Hsrc as [Hx Hrest]. cbn [head lift_opt mbind outcome_bind tail]. rewrite E. cbn [mbind outcome_bind].
  assert (Habove : forall l, l ∈ rest -> b <= l_addr l) by (intros l Hl; pose proof (proj1 (Forall_forall _ _) Hrest l Hl) as H; simpl in H; lia).
  eexists. split; [reflexivity|]. split.
  - constructor; [|done]. destruct (l_addr x <? b); [|done]. split; [by apply StronglySorted_inv in Hs as [? _]|by apply Forall_cons in Hok as [_ ?]].
  - intros l. cbn [concat]. rewrite !elem_of_app, Hin, elem_of_cons. destruct (Z.ltb_spec (l_addr x) b) as [Hlt|Hge].
    + split; [intros [Hl|[Hl Hle]]; [split; [left; by right|by apply Habove]|split; [by right|done]]|].
      intros [[[->|Hl]|Hl] Hle]; [lia|by left|by right].
    + rewrite elem_of_cons. split; [intros [[->|Hl]|[Hl Hle]]; [split; [by left; left|done]|split; [by left; right|by apply Habove]|split; [by right|done]]|].
      intros [[Hl|Hl] Hle]; [by left|by right].
Qed.
Lemma source_sorted src : strictly_sorted src -> Forall line_ok src -> StronglySorted (key_ge line_key) src.
Proof.
  induction 1 as [|x src _ IH Hx]; intros Hok; [constructor|]. apply Forall_cons in Hok as [Hxok Hok]. constructor; [by apply IH|].
  apply Forall_forall. intros y Hy. unfold key_ge. simpl. pose proof (proj1 (Forall_forall _ _) Hx y Hy) as H. pose proof (proj1 (Forall_forall _ _) Hok y Hy) as Hyok.
  pose proof (lkey_addr_lt x y Hxok Hyok H). lia.
Qed.

(** Of the merged lines the best at each address stays. *)
Lemma dedup_best p l : StronglySorted (by_key lkey) l -> Forall line_ok l -> Forall (fun x => l_addr x <> p) l ->
  strictly_sorted (dedup_from l_addr p l) /\
  (forall k, k ∈ dedup_from l_addr p l -> k ∈ l /\ forall x, x ∈ l -> l_addr x = l_addr k -> lkey k <= lkey x) /\
  (forall x, x ∈ l -> exists k, k ∈ dedup_from l_addr p l /\ l_addr k = l_addr x).
Proof.
  intros Hs Hok Hp. destruct l as [|y l]; [split; [constructor|]; split; intros ? Hk; by apply elem_of_nil in Hk|].
  apply Forall_cons in Hp as [Hyp Hp]. cbn [dedup_from]. rewrite (proj2 (Z.eqb_neq _ _) Hyp). clear p Hyp Hp.
  revert y Hs Hok. induction l as [|z l IH]; intros y Hs Hok; cbn [dedup_from].
  { split; [constructor; [constructor|done]|]. split; [|intros x Hx; by exists x]. intros k Hk. split; [done|]. intros x Hx _.
    apply list_elem_of_singleton in Hk as ->. apply list_elem_of_singleton in Hx as ->. done. }
  pose proof Hs as Hs0. apply StronglySorted_inv in Hs as [Hs Hy]. apply Forall_cons in Hok as [Hyok Hok]. pose proof Hok as Hok0. apply Forall_cons in Hok as [Hzok Hok].
  assert (Hyz : lkey y <= lkey z) by (by apply Forall_cons in Hy as [? _]). pose proof (lkey_addr y z Hyok Hzok Hyz) as Hyz'.
  destruct (Z.eqb_spec (l_addr z) (l_addr y)) as [E|E].
  - apply StronglySorted_inv in Hs as [Hs Hz]. destruct (IH y) as (H1&H2&H3).
    { constructor; [done|]. by apply Forall_cons in Hy as [_ ?]. } { by constructor. }
    split; [done|]. split.
    + intros k Hk. destruct (H2 k Hk) as [Hin Hbest]. split; [apply elem_of_cons in Hin as [->|Hin]; [apply list_elem_of_here|by do 2 apply list_elem_of_further]|].
      intros x [->|[->|Hx]%elem_of_cons]%elem_of_cons Ex; [apply Hbest; [apply list_elem_of_here|done]| |apply Hbest; [by apply list_elem_of_further|done]].
      pose proof (Hbest y (list_elem_of_here _ _) ltac:(lia)). lia.
    + intros x [->|[->|Hx]%elem_of_cons]%elem_of_cons; [apply H3, list_elem_of_here| |apply H3; by apply list_elem_of_further].
      destruct (H3 y (list_elem_of_here _ _)) as (k&Hk&Ek). exists k. split; [done|]. lia.
  - destruct (IH z Hs Hok0) as (H1&H2&H3).
    assert (Hgt : forall x, x ∈ z :: l -> l_addr y < l_addr x).
    { intros x Hx. assert (l_addr z <= l_addr x); [|lia]. apply elem_of_cons in Hx as [->|Hx]; [lia|].
      apply StronglySorted_inv in Hs as [_ Hz]. apply (lkey_addr z x Hzok (proj1 (Forall_forall _ _) Hok x Hx) (proj1 (Forall_forall _ _) Hz x Hx)). }
    split; [constructor; [done|]; apply Forall_forall; intros k Hk; apply Hgt; by apply H2|]. split.
    + intros k [->|Hk]%elem_of_cons; [split; [apply list_elem_of_here|]|destruct (H2 k Hk) as [Hin Hbest]; split; [by apply list_elem_of_further|]];
        intros x [->|Hx]%elem_of_cons Ex; [done|specialize (Hgt x Hx); lia|specialize (Hgt k Hin); lia|by apply Hbest].
    + intros x [->|Hx]%elem_of_cons; [exists y; split; [apply list_elem_of_here|done]|]. destruct (H3 x Hx) as (k&Hk&Ek). exists k. split; [by apply list_elem_of_further|done].
Qed.

Section FindLine.
  Context `{!BinaryHeap Reverse} (s : Symbols).
  Hypothesis Hsorted : shards_sorted (shards s).

(** What the iterator gives from an address on. *)
Definition lines_from (b : Z) (L : list LineInfo) : Prop := strictly_sorted L /\
  (forall k, k ∈ L -> k ∈ all_lines (shards s) /\ b <= l_addr k /\ forall x, x ∈ all_lines (shards s) -> l_addr x = l_addr k -> lkey k <= lkey x) /\
  (forall x, x ∈ all_lines (shards s) -> b <= l_addr x -> exists k, k ∈ L /\ l_addr k = l_addr x).
Lemma all_lines_ok l : l ∈ all_lines (shards s) -> line_ok l.
Proof using Hsorted.
  intros Hl. apply list_elem_of_In, in_concat in Hl as (ls&Hls&Hl). apply in_map_iff in Hls as (sh&<-&Hsh).
  apply list_elem_of_In in Hsh, Hl. destruct (proj1 (Forall_forall _ _) Hsorted sh Hsh) as [_ Hok]. by apply (proj1 (Forall_forall _ _) Hok).
Qed.
Lemma addr_to_line_iter_ok addr : 0 <= addr -> exists m l b, addr_to_line_iter s addr = Ret (mkIter U64_MAX m) /\ merges line_key m l /\
  greatest_below (shards s) addr 0 b /\ lines_from b (dedup_from l_addr U64_MAX l).
Proof using Hsorted.
  intros Haddr. unfold addr_to_line_iter. destruct (line_sources_ok (shards s) addr 0 Hsorted) as (srcs&b&->&Hg&Hsrcs&Hsub&Hsup). cbn [mbind outcome_bind].
  assert (Hb : b <= addr \/ b = 0) by (destruct Hg as (_&[->|[? _]]&_); [by right|by left]).
  destruct (trim_sources_ok addr b srcs Hb Haddr Hsrcs) as (srcs'&->&Hok&Hin). cbn [mbind outcome_bind].
  destruct (merges_exist line_key (merge_new line_key srcs') (merge_new_ok _ _)) as (l&Hm&Hperm&Hs).
  { eapply Forall_impl; [apply Hok|]. intros src [? ?]. by apply source_sorted. }
  cbn [merge_new sources] in Hperm. exists (merge_new line_key srcs'), l, b. split; [done|]. split; [done|]. split; [done|].
  assert (Hl : forall x, x ∈ l <-> x ∈ all_lines (shards s) /\ b <= l_addr x).
  { intros x. rewrite Hperm, Hin. split; [intros [? ?]; split; [by apply Hsub|done]|intros [? ?]; split; [by apply Hsup|done]]. }
  assert (Hlok : Forall line_ok l) by (apply Forall_forall; intros x [Hx _]%Hl; by apply all_lines_ok).
  assert (Hmax : Forall (fun x => l_addr x <> U64_MAX) l).
  { eapply Forall_impl; [apply Hlok|]. intros x Hx. pose proof (line_addr_range x Hx). unfold U64_MAX. lia. }
  destruct (dedup_best U64_MAX l Hs Hlok Hmax) as (H1&H2&H3). split; [done|]. split.
  - intros k Hk. destruct (H2 k Hk) as [[Hka Hkb]%Hl Hbest]. split; [done|]. split; [done|]. intros x Hx Ex. apply Hbest; [|done]. apply Hl. split; [done|]. lia.
  - intros x Hx Hxb. apply H3, Hl. done.
Qed.

(** C19. The iterator of lines from an address on gives the lines of all shards as
    one sorted table: strictly increasing addresses from the greatest line
    address up to the given one on, every line address from there on, and at each
    the best line of all shards; it ends. *)
Theorem line_iterator_merges_shards addr : 0 <= addr -> exists it L b, addr_to_line_iter s addr = Ret it /\
  iter_collect (S (lines_left it)) it = Ret L /\ greatest_below (shards s) addr 0 b /\ lines_from b L.
Proof using Hsorted.
  intros Haddr. destruct (addr_to_line_iter_ok addr Haddr) as (m&l&b&E&Hm&Hg&HL). eexists _, _, b. split; [done|]. split; [|done].
  apply iter_collect_ok; [done|]. unfold lines_left. cbn [iter]. rewrite (merges_length line_key m l Hm). lia.
Qed.

(** C20. The line of an address is the best line, over all shards, at the greatest
    line address up to it, unless that is an end marker. *)
Theorem find_line_best_below addr : 0 <= addr -> exists o, find_line s addr = Ret o /\
  match o with
  | Some l => l ∈ all_lines (shards s) /\ has_file l = true /\ l_addr l <= addr /\
      forall x, x ∈ all_lines (shards s) -> l_addr x <= addr -> l_addr x < l_addr l \/ (l_addr x = l_addr l /\ lkey l <= lkey x)
  | None => (forall x, x ∈ all_lines (shards s) -> addr < l_addr x) \/
      exists e, e ∈ all_lines (shards s) /\ has_file e = false /\ l_addr e <= addr /\
        forall x, x ∈ all_lines (shards s) -> l_addr x <= addr -> l_addr x < l_addr e \/ (l_addr x = l_addr e /\ has_file x = false)
  end.
Proof using Hsorted.
  intros Haddr. destruct (addr_to_line_iter_ok addr Haddr) as (m&l&b&E&Hm&(Hb0&Hb&Hmax)&(Hs&Hbest&Hall)). unfold find_line. rewrite E. cbn [mbind outcome_bind].
  unfold lines_left. cbn [iter]. rewrite (merges_length line_key m l Hm). pose proof (iter_next_ok (S (length l)) U64_MAX m l Hm ltac:(lia)) as Hn.
  destruct (dedup_from l_addr U64_MAX l) as [|k rest] eqn:Ed.
  { destruct Hn as (it&->). cbn [mbind outcome_bind]. exists None. split; [done|]. left. intros x Hx.
    destruct (Z.ltb_spec addr (l_addr x)) as [|Hle]; [done|]. exfalso. destruct Hb as [->|(_&y&Hy&Ey)].
    - pose proof (line_addr_range x (all_lines_ok x Hx)). destruct (Hall x Hx ltac:(lia)) as (z&Hz&_). by apply elem_of_nil in Hz.
    - destruct (Hall y Hy ltac:(lia)) as (z&Hz&_). by apply elem_of_nil in Hz. }
  destruct Hn as (m'&l'&->&_). cbn [mbind outcome_bind]. destruct (Hbest k (list_elem_of_here _ _)) as (Hk&Hkb&Hkbest). pose proof (all_lines_ok k Hk) as Hkok.
  assert (Hfirst : forall x, x ∈ all_lines (shards s) -> b <= l_addr x -> l_addr k <= l_addr x).
  { intros x Hx Hxb. destruct (Hall x Hx Hxb) as (y&Hy&<-). apply elem_of_cons in Hy as [->|Hy]; [lia|].
    apply StronglySorted_inv in Hs as [_ Hs]. pose proof (proj1 (Forall_forall _ _) Hs y Hy) as H. simpl in H. lia. }
  destruct (Z.ltb_spec addr (l_addr k)) as [Hlt|Hle]; cbn [orb].
  { exists None. split; [done|]. left. intros x Hx. destruct (Z.ltb_spec addr (l_addr x)) as [|Hle]; [done|]. exfalso.
    destruct Hb as [->|(Hba&y&Hy&Ey)].
    - pose proof (line_addr_range x (all_lines_ok x Hx)). specialize (Hfirst x Hx ltac:(lia)). lia.
    - specialize (Hfirst y Hy ltac:(lia)). lia. }
  assert (Hbk : forall x, x ∈ all_lines (shards s) -> l_addr x <= addr -> l_addr x < l_addr k \/ (l_addr x = l_addr k /\ lkey k <= lkey x)).
  { intros x Hx Hxa. pose proof (Hmax x Hx Hxa). destruct (Z.lt_total (l_addr x) (l_addr k)) as [|[Ex|]]; [by left|right; split; [done|by apply Hkbest]|lia]. }
  fold (has_file k). destruct (has_file k) eqn:Ef; cbn [negb]; eexists; (split; [reflexivity|]); [done|].
  right. exists k. split_and!; try done. intros x Hx Hxa. destruct (Hbk x Hx Hxa) as [|[Ex Hkx]]; [by left|right]. split; [done|].
  destruct (has_file x) eqn:Efx; [|done]. exfalso. destruct (lkey_parts k Hkok) as (r&E1&_&Er), (lkey_parts x (all_lines_ok x Hx)) as (r'&E2&_&Er').
  rewrite Ef in Er. rewrite Efx in Er'. pose proof (Z.mod_pos_bound (l_flags k) 2 ltac:(lia)). pose proof (Z.mod_pos_bound (l_flags x) 2 ltac:(lia)).
  destruct (l_line k =? 0), (l_line x =? 0); cbn [negb Z.b2z] in Er, Er'; lia.
Qed.
End FindLine.

(** ** An example: two shards that both have a line at an address *)

#[local] Instance reverse_decision : RelDecision (key_le (K := Reverse)).
Proof. intros x y. simpl. apply _. Defined.
Definition sample_heap : BinaryHeap Reverse := list_heap.
Definition sample_line (a : Z) (file : option Z) (line : Z) : LineInfo := match line_new a file line 0 0 0 with Ret l => l | _ => line_invalid end.
Definition sample_lines1 : list LineInfo := [sample_line 16 (Some 0) 5; sample_line 32 None 0].
Definition sample_lines2 : list LineInfo := [sample_line 32 (Some 1) 9; sample_line 48 (Some 1) 10].
Definition sample_symbols : Symbols := mkSymbols [] [] [mkShard sample_lines1 [] [] [] [] [] []; mkShard sample_lines2 [] [] [] [] [] []] [] [].
Lemma sample_sorted : shards_sorted (shards sample_symbols).
Proof. repeat (constructor || split); vm_compute; congruence. Defined.
Lemma find_line_best_below_witness : shards_sorted (shards sample_symbols) /\ 0 <= 40 /\
  exists l, @find_line sample_heap sample_symbols 40 = Ret (Some l) /\ l_line l = 9.
Proof.
  split; [exact sample_sorted|]. split; [lia|]. destruct (@find_line_best_below sample_heap sample_symbols sample_sorted 40 ltac:(lia)) as (o&E&_).
  rewrite E. vm_compute in E. injection E as <-. eexists. split; [reflexivity|]. vm_compute. reflexivity.
Defined.
Lemma line_iterator_merges_shards_witness : shards_sorted (shards sample_symbols) /\ 0 <= 20 /\
  exists it L, addr_to_line_iter sample_symbols 20 = Ret it /\
    @iter_collect sample_heap (S (lines_left it)) it = Ret L /\ map l_line L = [5; 9; 10].
Proof.
  split; [exact sample_sorted|]. split; [lia|].
  destruct (@line_iterator_merges_shards sample_heap sample_symbols sample_sorted 20 ltac:(lia)) as (it&L&b&E&EL&_).
  exists it, L. split; [exact E|]. split; [exact EL|]. vm_compute in E. injection E as <-. vm_compute in EL. injection EL as <-. vm_compute. reflexivity.
Defined.
Lemma sorted_table_one_line_per_address_witness : Forall line_ok (sample_lines2 ++ sample_lines1) /\
  exists sh', @sort_addr_to_line (merge_slice_sort _) (mkLoader (mkShard (sample_lines2 ++ sample_lines1) [] [] [] [] [] []) 0 [] [] 0) false = Ret sh' /\
    map l_line (addr_to_line (sym sh')) = [5; 9; 10].
Proof.
  assert (Hok : Forall line_ok (sample_lines2 ++ sample_lines1)) by (repeat (constructor || split); vm_compute; congruence). split; [exact Hok|].
  destruct (@sorted_table_one_line_per_address (merge_slice_sort _) (mkLoader (mkShard (sample_lines2 ++ sample_lines1) [] [] [] [] [] []) 0 [] [] 0) false Hok) as (sh'&E&_).
  exists sh'. split; [exact E|]. vm_compute in E. injection E as <-. vm_compute. reflexivity.
Defined.
