(* ===== verification/Subfunctions.v ===== *)
(** The tree of inlined calls of a function, built while its entries in
    .debug_info are read (DwarfLoader of src/symbols.rs). *)
From Stdlib Require Import ZArith Lia.
From stdpp Require Import base list sorting.
From S2P Require Import Prelude StdSort LineInfo Symbols.
Open Scope Z_scope.

(** Start or end of a range of a subfunction; the level is above 0 for a start
    and below 0 for an end. *)
Record SubfunctionEvent := mkEvent { ev_addr : Z; subfunction_idx : Z; signed_level : Z }.
Definition event_key (e : SubfunctionEvent) : Z * Z := (ev_addr e, signed_level e).

Record FunctionStackEntry := mkFnEntry {
  fn_function : nat;
  fn_subfunctions : list (Subfunction * Z);
  subfunction_events : list SubfunctionEvent
}.
Record SubfunctionStackEntry := mkSfEntry { se_subfunction_idx : Z; se_level : Z; se_local_variables : list VariableInfo }.
(** The stacks of open functions and calls, innermost first, and the shard. *)
Record DwarfLoader := mkDwarfLoader {
  function_stack : list FunctionStackEntry;
  subfunction_stack : list SubfunctionStackEntry;
  shard : SymbolsLoaderShard;
  temp_levels : list (list Subfunction)
}.
Definition U32_MAX : Z := 2 ^ 32 - 1.
Definition with_addr_range (sf : Subfunction) (r : Z * Z) : Subfunction :=
  mkSf (callee_idx sf) (local_variables sf) (call_line sf) r (identity sf).
Definition with_call_line (sf : Subfunction) (l : LineInfo) : Subfunction :=
  mkSf (callee_idx sf) (local_variables sf) l (addr_range sf) (identity sf).
Definition range_events (sf_idx level : Z) (ranges : list (Z * Z)) : list SubfunctionEvent :=
  concat (map (fun r => [mkEvent r.1 sf_idx (level + 1); mkEvent r.2 sf_idx (- (level + 1))]) ranges).

(** ** Call lines without a number *)

Definition fixup_subfunction_call_line (sh : SymbolsLoaderShard) (line : LineInfo) (addr : Z) : partial LineInfo :=
  if (l_line line =? 0) && bool_decide (is_Some (l_file_idx line)) then
    lines ← nat_slice (addr_to_line (sym sh)) (0%nat, addr_to_line_len_after_debug_line sh);
    let i := partition_point (fun l => l_addr l <? addr) lines in
    if (0 <? i)%nat then
      prev ← lift_opt (addr_to_line (sym sh) !! (i - 1)%nat);
      if bool_decide (l_file_idx prev = l_file_idx line) && negb (l_line prev =? 0)
      then Ret (set_line_and_column_from line prev) else Ret line
    else Ret line
  else Ret line.

(** ** Entries that are read *)

Section Loading.
  Context `{!SliceSort (by_key (fun r : Z * Z => r.1))} `{!SliceSort (by_keys event_key)}.

(** A function with ranges of addresses (DW_TAG_subprogram): its ranges, each a
    function of the table, linked to the one before, and its root. *)
Fixpoint link_functions (f : FunctionInfo) (i : nat) (all ranges : list (Z * Z)) : partial (list FunctionInfo) :=
  match ranges with
  | [] => Ret []
  | range :: ranges =>
      prev ← lift_opt (all !! ((i + length all - 1) mod length all)%nat);
      rest ← link_functions f (S i) all ranges;
      Ret (mkFn (FunctionAddr_new range.1) (die f) (entry_addr f) (FunctionAddr_new prev.1) (mangled_name f) (shard_idx f) (flags f) (language f) (levels_range f) :: rest)
  end.
Definition begin_function (f : FunctionInfo) (decl : LineInfo) (pc_ranges : list (Z * Z)) (ld : DwarfLoader) : partial DwarfLoader :=
  let pc_ranges := slice_sort (by_key (fun r : Z * Z => r.1)) pc_ranges in
  fs ← link_functions f 0 pc_ranges pc_ranges;
  let entry := mkFnEntry (length (shard_functions (shard ld)))
                 [(mkSf (die f) (pack_range (0, 0)) decl (0, 0) 0, U32_MAX)] (range_events 0 0 pc_ranges) in
  let sh := mkLoader (sym (shard ld)) (addr_to_line_len_after_debug_line (shard ld)) (file_used_lines (shard ld))
              (shard_functions (shard ld) ++ fs) (foldl (fun m r => Z.max m r.2) (max_function_end (shard ld)) pc_ranges) in
  Ret (mkDwarfLoader (entry :: function_stack ld) (mkSfEntry 0 0 [] :: subfunction_stack ld) sh (temp_levels ld)).

(** An inlined call (DW_TAG_inlined_subroutine) in the innermost call; [false]
    when it is left out. *)
Definition begin_inlined (callee_die : DieOffset) (call_line : LineInfo) (entry_pc : Z) (pc_ranges : list (Z * Z)) (ld : DwarfLoader)
  : partial (bool * DwarfLoader) :=
  match function_stack ld, subfunction_stack ld with
  | f :: fs, parent :: _ =>
      let level := se_level parent + 1 in
      if U32_MAX - 1 <=? zlen (fn_subfunctions f) then Ret (false, ld)
      else if SUBFUNCTION_LEVEL_MAX <=? level then Ret (false, ld)
      else
        sh ← (if bool_decide (is_Some (l_file_idx call_line)) && negb (entry_pc =? 0) then
                let entry_call_line := with_addr_and_flags call_line entry_pc (Z.lor LineFlags.INLINED_FUNCTION LineFlags.STATEMENT) in
                entry_call_line ← fixup_subfunction_call_line (shard ld) entry_call_line entry_pc;
                Ret (set_sym (shard ld) (fun s => set_line_to_addr (line_to_addr s ++ [with_subfunction_level entry_call_line (level - 1)]) s))
              else Ret (shard ld));
        let sf_idx := zlen (fn_subfunctions f) in
        let f := mkFnEntry (fn_function f)
                   (fn_subfunctions f ++ [(mkSf callee_die (pack_range (0, 0)) call_line (0, 0) sf_idx, se_subfunction_idx parent)])
                   (subfunction_events f ++ range_events sf_idx level pc_ranges) in
        Ret (true, mkDwarfLoader (f :: fs) (mkSfEntry sf_idx level [] :: subfunction_stack ld) sh (temp_levels ld))
  | _, _ => Panic
  end.

(** The end of the innermost call: its variables go to the table. *)
Definition finish_subfunction (ld : DwarfLoader) : partial DwarfLoader :=
  match subfunction_stack ld, function_stack ld with
  | top :: stack, f :: fs =>
      let start := zlen (local_variables_table (sym (shard ld))) in
      let variables := local_variables_table (sym (shard ld)) ++ se_local_variables top in
      let end_ := zlen variables in
      '(sf, parent) ← lift_opt (zget (fn_subfunctions f) (se_subfunction_idx top));
      let sf := mkSf (callee_idx sf) (pack_range (start, end_)) (call_line sf) (addr_range sf) (identity sf) in
      let f := mkFnEntry (fn_function f) (zset (fn_subfunctions f) (se_subfunction_idx top) (sf, parent)) (subfunction_events f) in
      Ret (mkDwarfLoader (f :: fs) stack (set_sym (shard ld) (set_local_variables variables)) (temp_levels ld))
  | _, _ => Panic
  end.

(** ** The sweep over the events *)

(** [stack]: for each open level, the open range and how many ranges of the
    input it stands for. *)
Record Sweep := mkSweep { stack : list (nat * Z); levels : list (list Subfunction); sw_num_levels : nat; sw_shard : SymbolsLoaderShard }.

(** Opens ranges at the levels [start_level + n - 1] down to [start_level], the
    first for subfunction [cur], the others for its ancestors. *)
Fixpoint open_ranges (sfs : list (Subfunction * Z)) (addr : Z) (n start_level : nat) (cur : Z) (st : list (nat * Z)) (lvs : list (list Subfunction))
  : partial (list (nat * Z) * list (list Subfunction)) :=
  match n with
  | O => Ret (st, lvs)
  | S n =>
      let cur_level := (start_level + n)%nat in
      '(sf, parent) ← lift_opt (zget sfs cur);
      ranges ← lift_opt (lvs !! cur_level);
      e ← lift_opt (st !! cur_level);
      open_ranges sfs addr n start_level parent (<[cur_level := (length ranges, e.2)]> st)
        (<[cur_level := ranges ++ [with_addr_range sf (addr, addr)]]> lvs)
  end.
Definition start_event (sfs : list (Subfunction * Z)) (addr sf_idx : Z) (level : nat) (sw : Sweep) : partial Sweep :=
  match stack sw !! level with
  | Some (r, active) => Ret (mkSweep (<[level := (r, active + 1)]> (stack sw)) (levels sw) (sw_num_levels sw) (sw_shard sw))
  | None =>
      let start_level := length (stack sw) in
      let st := stack sw ++ replicate (S level - start_level) (0%nat, 0) in
      let num_levels := if (sw_num_levels sw <=? level)%nat then S level else sw_num_levels sw in
      let lvs := if ((sw_num_levels sw <=? level) && (length (levels sw) <? num_levels))%nat then resize (num_levels * 4) [] (levels sw) else levels sw in
      top ← lift_opt (st !! level);
      let st := <[level := (top.1, top.2 + 1)]> st in
      '(st, lvs) ← open_ranges sfs addr (S level - start_level) start_level sf_idx st lvs;
      Ret (mkSweep st lvs num_levels (sw_shard sw))
  end.

(** Closes the ranges on top of the stack that stand for nothing: the level of
    the last one closed, and its range. *)
Fixpoint close_ranges (addr : Z) (n : nat) (st : list (nat * Z)) (lvs : list (list Subfunction)) (last_closed : option nat)
  : partial (list (nat * Z) * list (list Subfunction) * option nat) :=
  match n with
  | O => Ret (st, lvs, last_closed)
  | S n =>
      match st !! n with
      | Some (r, 0) =>
          ranges ← lift_opt (lvs !! n);
          sf ← lift_opt (ranges !! r);
          close_ranges addr n (take n st) (<[n := <[r := with_addr_range sf ((addr_range sf).1, addr)]> ranges]> lvs) (Some r)
      | _ => Ret (st, lvs, last_closed)
      end
  end.
Definition end_event (addr : Z) (level : nat) (next : option SubfunctionEvent) (sw : Sweep) : partial Sweep :=
  '(r, active) ← lift_opt (stack sw !! level);
  active ← usub active 1;
  let st := <[level := (r, active)]> (stack sw) in
  '(st, lvs, last_closed) ← close_ranges addr (length st) st (levels sw) None;
  match last_closed, next with
  | Some r, Some e =>
      if addr <? ev_addr e then
        ranges ← lift_opt (lvs !! length st);
        sf ← lift_opt (ranges !! r);
        if bool_decide (is_Some (l_file_idx (call_line sf))) then
          line ← fixup_subfunction_call_line (sw_shard sw) (call_line sf) (addr_range sf).1;
          let line := with_addr_and_flags line addr LineFlags.INLINED_FUNCTION in
          Ret (mkSweep st lvs (sw_num_levels sw) (set_sym (sw_shard sw) (fun s => set_addr_to_line (addr_to_line s ++ [line]) s)))
        else Ret (mkSweep st lvs (sw_num_levels sw) (sw_shard sw))
      else Ret (mkSweep st lvs (sw_num_levels sw) (sw_shard sw))
  | _, _ => Ret (mkSweep st lvs (sw_num_levels sw) (sw_shard sw))
  end.
Fixpoint sweep (sfs : list (Subfunction * Z)) (events : list SubfunctionEvent) (sw : Sweep) : partial Sweep :=
  match events with
  | [] => Ret sw
  | e :: events =>
      let level := Z.to_nat (wrap64 (Z.abs (signed_level e) - 1)) in
      sw ← (if 0 <? signed_level e then start_event sfs (ev_addr e) (subfunction_idx e) level sw
            else end_event (ev_addr e) level (head events) sw);
      sweep sfs events sw
  end.

(** ** The end of a function *)

(** The ranges of one level, with their call lines, after the others. *)
Fixpoint push_ranges (sh : SymbolsLoaderShard) (ranges : list Subfunction) : partial SymbolsLoaderShard :=
  match ranges with
  | [] => Ret sh
  | sf :: ranges =>
      l ← fixup_subfunction_call_line sh (call_line sf) (addr_range sf).1;
      push_ranges (set_sym sh (fun s => set_subfunctions (subfunctions s ++ [with_call_line sf l]) s)) ranges
  end.
Definition push_level (s : SymbolsShard) : SymbolsShard := set_subfunction_levels (subfunction_levels s ++ [length (subfunctions s)]) s.
Fixpoint push_levels (sh : SymbolsLoaderShard) (lvs : list (list Subfunction)) (n level : nat) : partial (SymbolsLoaderShard * list (list Subfunction)) :=
  match n with
  | O => Ret (sh, lvs)
  | S n =>
      ranges ← lift_opt (lvs !! level);
      sh ← push_ranges sh ranges;
      push_levels (set_sym sh push_level) (<[level := []]> lvs) n (S level)
  end.
Definition set_levels_range (r : nat * nat) (f : FunctionInfo) : FunctionInfo :=
  mkFn (f_addr f) (die f) (entry_addr f) (prev_addr f) (mangled_name f) (shard_idx f) (flags f) (language f) r.
Definition finish_function (ld : DwarfLoader) : partial DwarfLoader :=
  match function_stack ld with
  | [] => Panic
  | top :: fs =>
      match subfunction_events top with
      | [] => Ret (mkDwarfLoader fs (subfunction_stack ld) (shard ld) (temp_levels ld))
      | _ =>
          let events := slice_sort (by_keys event_key) (subfunction_events top) in
          sw ← sweep (fn_subfunctions top) events (mkSweep [] (temp_levels ld) 0 (shard ld));
          _ ← rassert (match stack sw with [] => true | _ => false end);
          let sh := sw_shard sw in
          let sh := if bool_decide (last (subfunction_levels (sym sh)) = Some (length (subfunctions (sym sh)))) then sh else set_sym sh push_level in
          let levels_start := (length (subfunction_levels (sym sh)) - 1)%nat in
          '(sh, lvs) ← push_levels sh (levels sw) (sw_num_levels sw) 0;
          let level_idxs := (levels_start, length (subfunction_levels (sym sh))) in
          _ ← rassert (level_idxs.2 - level_idxs.1 =? sw_num_levels sw + 1)%nat;
          f ← lift_opt (shard_functions sh !! fn_function top);
          let sh := set_functions (<[fn_function top := set_levels_range level_idxs f]> (shard_functions sh)) sh in
          Ret (mkDwarfLoader fs (subfunction_stack ld) sh lvs)
      end
  end.
End Loading.
