(* ===== verification/SubfunctionsSpec.v ===== *)
(** The tree of inlined calls is well formed for any debug information: the
    sweep of finish_function never fails, and its ranges are nested. *)
From Stdlib Require Import ZArith Lia.
From stdpp Require Import base list sorting.
From S2P Require Import Prelude StdSort LineInfo Symbols Subfunctions.
Open Scope Z_scope.

(** ** Counting *)

Fixpoint count {A} (p : A -> bool) (l : list A) : Z :=
  match l with [] => 0 | x :: l => Z.b2z (p x) + count p l end.
Section Count.
  Context {A : Type} (p q : A -> bool).
Lemma count_nonneg l : 0 <= count p l.
Proof. induction l; simpl; [lia|]. destruct (p a); simpl; lia. Qed.
Lemma count_app l k : count p (l ++ k) = count p l + count p k.
Proof. induction l; simpl; lia. Qed.
Lemma count_perm l k : l ≡ₚ k -> count p l = count p k.
Proof. induction 1; simpl; lia. Qed.
Lemma count_mono l : Forall (fun x => p x = true -> q x = true) l -> count p l <= count q l.
Proof. induction 1 as [|x l H _ IH]; simpl; [lia|]. destruct (p x); [rewrite (H eq_refl)|]; destruct (q x); simpl in *; lia. Qed.
Lemma count_ext l : Forall (fun x => p x = q x) l -> count p l = count q l.
Proof. induction 1 as [|x l H _ IH]; simpl; [done|]. by rewrite H, IH. Qed.
Lemma count_zero l : Forall (fun x => p x = false) l -> count p l = 0.
Proof. induction 1 as [|x l H _ IH]; simpl; [done|]. by rewrite H, IH. Qed.
Lemma count_pos l : 0 < count p l <-> exists x, x ∈ l /\ p x = true.
Proof.
  induction l as [|y l IH]; simpl.
  - split; [lia|]. intros (x&Hx&_). by apply elem_of_nil in Hx.
  - pose proof (count_nonneg l). destruct (p y) eqn:E; simpl.
    + split; [|lia]. intros _. exists y. split; [apply list_elem_of_here|done].
    + rewrite IH. split; [intros (x&Hx&Ex); exists x; split; [by apply list_elem_of_further|done]|].
      intros (x&Hx&Ex). apply elem_of_cons in Hx as [->|Hx]; [congruence|]. by exists x.
Qed.
End Count.

Lemma exists_last' {A} (l : list A) : l = [] \/ exists l' x, l = l' ++ [x].
Proof. induction l as [|x l _] using rev_ind; [by left|right; by exists l, x]. Qed.

(** ** The ranges read from debug information *)

(** Subfunction [in_sf], of level [in_level], covers [in_begin, in_end). *)
Record InRange := mkIn { in_sf : Z; in_level : nat; in_begin : Z; in_end : Z }.
Definition events_of (r : InRange) : list SubfunctionEvent :=
  [mkEvent (in_begin r) (in_sf r) (Z.of_nat (in_level r) + 1); mkEvent (in_end r) (in_sf r) (- (Z.of_nat (in_level r) + 1))].
Definition in_covers (x : Z) (r : InRange) : bool := (in_begin r <=? x) && (x <? in_end r).

(** The subfunction at an index is [depth] calls below the root. *)
Inductive at_depth (sfs : list (Subfunction * Z)) : nat -> Z -> Prop :=
  | depth_root i sf p : zget sfs i = Some (sf, p) -> at_depth sfs 0 i
  | depth_call d i sf p : zget sfs i = Some (sf, p) -> at_depth sfs d p -> at_depth sfs (S d) i.
(** The caller [n] levels up. *)
Fixpoint ancestor (sfs : list (Subfunction * Z)) (n : nat) (i : Z) : option Subfunction :=
  '(sf, p) ← zget sfs i;
  match n with O => Some sf | S n => ancestor sfs n p end.

Definition range_ok (sfs : list (Subfunction * Z)) (r : InRange) : Prop :=
  in_begin r < in_end r /\ at_depth sfs (in_level r) (in_sf r) /\ (Z.of_nat (in_level r) < SUBFUNCTION_LEVEL_MAX).
(** What a stack entry of a function has been given. *)
Definition entry_ok (f : FunctionStackEntry) (rs : list InRange) : Prop :=
  subfunction_events f = concat (map events_of rs) /\ Forall (range_ok (fn_subfunctions f)) rs.

Definition is_start (l : nat) (e : SubfunctionEvent) : bool := signed_level e =? Z.of_nat l + 1.
Definition is_end (l : nat) (e : SubfunctionEvent) : bool := signed_level e =? - (Z.of_nat l + 1).
(** How many ranges of a level are open after some events. *)
Definition open_at (evs : list SubfunctionEvent) (l : nat) : Z := count (is_start l) evs - count (is_end l) evs.

Lemma count_events (p : SubfunctionEvent -> bool) rs : count p (concat (map events_of rs)) =
  count (fun r => p (mkEvent (in_begin r) (in_sf r) (Z.of_nat (in_level r) + 1))) rs +
  count (fun r => p (mkEvent (in_end r) (in_sf r) (- (Z.of_nat (in_level r) + 1)))) rs.
Proof. induction rs as [|r rs IH]; [done|]. cbn [map concat]. rewrite count_app, IH. simpl. lia. Qed.
Lemma open_at_app evs evs' l : open_at (evs ++ evs') l = open_at evs l + open_at evs' l.
Proof. unfold open_at. rewrite !count_app. lia. Qed.

Lemma count_covers sfs rs x l : Forall (range_ok sfs) rs ->
  let starts e := is_start l e && (ev_addr e <=? x) in let ends e := is_end l e && (ev_addr e <=? x) in
  count starts (concat (map events_of rs)) - count ends (concat (map events_of rs)) = count (fun r => (in_level r =? l)%nat && in_covers x r) rs.
Proof.
  intros Hok starts ends. rewrite !count_events. unfold starts, ends, is_start, is_end, in_covers. cbn [signed_level ev_addr].
  induction Hok as [|r rs' (Hr&_&_) _ IH]; cbn [count]; [done|].
  destruct (Nat.eqb_spec (in_level r) l) as [->|Hne];
    repeat match goal with
    | |- context [?a =? ?b] => destruct (Z.eqb_spec a b); try lia
    | |- context [in_begin r <=? ?b] => destruct (Z.leb_spec (in_begin r) b); try lia
    | |- context [in_end r <=? ?b] => destruct (Z.leb_spec (in_end r) b); try lia
    | |- context [?a <? in_end r] => destruct (Z.ltb_spec a (in_end r)); try lia
    end; cbn [Z.b2z andb]; lia.
Qed.

Section Prefixes.
  Context (sfs : list (Subfunction * Z)) (rs : list InRange) (P Q : list SubfunctionEvent).
  Hypothesis Hok : Forall (range_ok sfs) rs.
  Hypothesis Hperm : P ++ Q ≡ₚ concat (map events_of rs).
  Hypothesis Hsort : StronglySorted (by_keys event_key) (P ++ Q).

(** Up to an address that the events split at, a level is open for the ranges
    that cover the address. *)
Lemma open_at_split x l : Forall (fun e => ev_addr e <= x) P -> Forall (fun e => x < ev_addr e) Q ->
  open_at P l = count (fun r => (in_level r =? l)%nat && in_covers x r) rs.
Proof using Hok Hperm.
  intros HP HQ. unfold open_at.
  assert (HPc : forall p, count p P = count (fun e => p e && (ev_addr e <=? x)) (P ++ Q)).
  { intros p. rewrite count_app, (count_zero _ Q).
    - rewrite Z.add_0_r. apply count_ext. eapply Forall_impl; [apply HP|]. intros e He. simpl. rewrite (proj2 (Z.leb_le _ _)) by done. by rewrite andb_true_r.
    - eapply Forall_impl; [apply HQ|]. intros e He. simpl in *. rewrite (proj2 (Z.leb_gt _ _)) by done. by rewrite andb_false_r. }
  rewrite !HPc, !(count_perm _ _ _ Hperm).
  rewrite <- (count_covers sfs) by done. lia.
Qed.

Lemma open_at_nonneg l : 0 <= open_at P l.
Proof using Hok Hperm Hsort.
  destruct (exists_last' P) as [EP|(P'&k&EP)]; [by rewrite EP|].
  assert (HP : Forall (fun e => ev_addr e <= ev_addr k) P /\ Forall (fun e => ev_addr k <= ev_addr e) Q).
  { rewrite EP in Hsort. apply StronglySorted_app in Hsort as (Hcross&Hs&_). apply StronglySorted_app in Hs as (Hlast&_&_). split.
    - rewrite EP. apply Forall_forall. intros e He. apply elem_of_app in He as [He|He%list_elem_of_singleton]; [|by subst].
      pose proof (Hlast e k He (list_elem_of_here _ _)) as H. unfold by_keys, event_key in H. simpl in H. lia.
    - apply Forall_forall. intros e He. assert (Hk : k ∈ P' ++ [k]) by (apply elem_of_app; right; apply list_elem_of_here).
      pose proof (Hcross k e Hk He) as H. unfold by_keys, event_key in H. simpl in H. lia. }
  destruct HP as [HP HQ]. set (a := ev_addr k) in *.
  assert (H1 : count (is_end l) P <= count (fun e => is_end l e && (ev_addr e <=? a)) (P ++ Q)).
  { rewrite count_app. pose proof (count_nonneg (fun e => is_end l e && (ev_addr e <=? a)) Q).
    enough (count (is_end l) P <= count (fun e => is_end l e && (ev_addr e <=? a)) P) by lia.
    apply count_mono. eapply Forall_impl; [apply HP|]. intros e He ->. by rewrite (proj2 (Z.leb_le _ _)). }
  assert (H2 : count (fun e => is_start l e && (ev_addr e <? a)) (P ++ Q) <= count (is_start l) P).
  { rewrite count_app, (count_zero _ Q).
    - rewrite Z.add_0_r. apply count_mono, Forall_forall. intros e _ [H _]%andb_true_iff. done.
    - eapply Forall_impl; [apply HQ|]. intros e He. simpl. rewrite (proj2 (Z.ltb_ge _ _)) by done. by rewrite andb_false_r. }
  rewrite (count_perm _ _ _ Hperm), count_events in H1. rewrite (count_perm _ _ _ Hperm), count_events in H2. unfold open_at.
  enough (count (fun r => is_end l (mkEvent (in_end r) (in_sf r) (- (Z.of_nat (in_level r) + 1))) && (in_end r <=? a)) rs
    <= count (fun r => is_start l (mkEvent (in_begin r) (in_sf r) (Z.of_nat (in_level r) + 1)) && (in_begin r <? a)) rs).
  { pose proof (count_nonneg (fun r => is_start l (mkEvent (in_end r) (in_sf r) (- (Z.of_nat (in_level r) + 1))) && (in_end r <? a)) rs).
    rewrite (count_zero _ rs) in H1; [cbn [ev_addr] in *; lia|]. apply Forall_forall. intros r _. unfold is_end. cbn [signed_level].
    apply andb_false_iff. left. apply Z.eqb_neq. lia. }
  apply count_mono. eapply Forall_impl; [apply Hok|]. intros r (Hr&_&_). unfold is_end, is_start. cbn [signed_level].
  intros [H%Z.eqb_eq Ha%Z.leb_le]%andb_true_iff. apply andb_true_iff. split; [apply Z.eqb_eq|apply Z.ltb_lt]; lia.
Qed.
Lemma open_at_end l : Q = [] -> open_at P l = 0.
Proof using Hok Hperm.
  intros EQ. rewrite EQ, app_nil_r in Hperm. unfold open_at. rewrite !(count_perm _ _ _ Hperm), !count_events. unfold is_start, is_end. cbn [signed_level].
  clear - rs. induction rs as [|r rs' IH]; cbn [count]; [done|].
  repeat match goal with |- context [?a =? ?b] => destruct (Z.eqb_spec a b); try lia end; cbn [Z.b2z]; lia.
Qed.
End Prefixes.

(** ** Opening and closing ranges *)

(** The ranges of a level so far. *)
Definition lvl (lvs : list (list Subfunction)) (l : nat) : list Subfunction := default [] (lvs !! l).
Definition close_at (addr : Z) (sf : Subfunction) : Subfunction := with_addr_range sf ((addr_range sf).1, addr).
Definition close_last (addr : Z) (ranges : list Subfunction) : list Subfunction := alter (close_at addr) (length ranges - 1)%nat ranges.

Lemma alter_insert {A} (f : A -> A) (i : nat) (l : list A) x : l !! i = Some x -> alter f i l = <[i := f x]> l.
Proof. revert i; induction l as [|y l IH]; intros [|i] H; simplify_eq/=; [done|]. f_equal. by apply IH. Qed.
Lemma lvl_lookup lvs l : (l < length lvs)%nat -> lvs !! l = Some (lvl lvs l).
Proof. intros Hl. unfold lvl. by destruct (lookup_lt_is_Some_2 lvs l Hl) as [x ->]. Qed.

Lemma open_ranges_ok sfs addr n start cur st lvs :
  (start + n <= length st)%nat -> (start + n <= length lvs)%nat -> (n <> O -> at_depth sfs (start + n - 1) cur) ->
  exists st' lvs', open_ranges sfs addr n start cur st lvs = Ret (st', lvs') /\ length st' = length st /\ length lvs' = length lvs /\
    (forall l, (l < start \/ start + n <= l)%nat -> st' !! l = st !! l /\ lvl lvs' l = lvl lvs l) /\
    (forall l, (start <= l < start + n)%nat -> exists e sf, st !! l = Some e /\ st' !! l = Some (length (lvl lvs l), e.2) /\
       ancestor sfs (start + n - 1 - l) cur = Some sf /\ lvl lvs' l = lvl lvs l ++ [with_addr_range sf (addr, addr)]).
Proof.
  revert cur st lvs. induction n as [|n IH]; intros cur st lvs Hst Hlv Hd; simpl.
  { exists st, lvs. split_and!; try done. intros l Hl. lia. }
  specialize (Hd ltac:(done)). replace (start + S n - 1)%nat with (start + n)%nat in * by lia.
  assert (Hcur : exists sf p, zget sfs cur = Some (sf, p) /\ (n <> O -> at_depth sfs (start + n - 1) p)).
  { inversion Hd as [i sf p Hg E|d i sf p Hg Hp E]; subst; exists sf, p; (split; [done|]); intros Hn; [lia|].
    simpl. by rewrite Nat.sub_0_r. }
  destruct Hcur as (sf&p&Hg&Hp). rewrite Hg. simpl. rewrite (lvl_lookup lvs) by lia. simpl.
  destruct (lookup_lt_is_Some_2 st (start + n)%nat) as [e He]; [lia|]. rewrite He. simpl.
  set (st1 := <[_ := _]> st). set (lvs1 := <[_ := _]> lvs).
  destruct (IH p st1 lvs1) as (st'&lvs'&->&Hlen1&Hlen2&Hout&Hin).
  { unfold st1. rewrite length_insert. lia. } { unfold lvs1. rewrite length_insert. lia. } { done. }
  unfold st1, lvs1 in *. rewrite length_insert in Hlen1. rewrite length_insert in Hlen2. exists st', lvs'. split_and!; try done.
  - intros l Hl. destruct (Hout l ltac:(lia)) as [E1 E2]. rewrite E1, E2. unfold lvl. rewrite !list_lookup_insert_ne by lia. done.
  - intros l Hl. destruct (decide (l = start + n)%nat) as [->|Hne].
    + destruct (Hout (start + n)%nat ltac:(lia)) as [E1 E2]. exists e, sf. rewrite E1, E2. unfold lvl.
      rewrite !list_lookup_insert_eq by lia. split_and!; try done. rewrite Nat.sub_diag. simpl. by rewrite Hg.
    + destruct (Hin l ltac:(lia)) as (e'&sf'&E1&E2&E3&E4). exists e', sf'. unfold lvl in *. rewrite list_lookup_insert_ne in E1 by lia. rewrite list_lookup_insert_ne in E2 by lia. rewrite list_lookup_insert_ne in E4 by lia.
      split_and!; try done. replace (start + n - l)%nat with (S (start + n - 1 - l)) by lia. simpl. by rewrite Hg.
Qed.

Lemma close_ranges_ok addr n st lvs lc :
  n = length st -> (n <= length lvs)%nat -> (forall l r c, st !! l = Some (r, c) -> S r = length (lvl lvs l)) ->
  exists n' st' lvs' lc', close_ranges addr n st lvs lc = Ret (st', lvs', lc') /\ (n' <= n)%nat /\ st' = take n' st /\ length lvs' = length lvs /\
    (forall l, (n' <= l < n)%nat -> exists r, st !! l = Some (r, 0)) /\
    (forall r c, last st' = Some (r, c) -> c <> 0) /\
    (forall l, lvl lvs' l = if decide (n' <= l < n)%nat then close_last addr (lvl lvs l) else lvl lvs l) /\
    (lc' = if decide (n' < n)%nat then fst <$> st !! n' else lc).
Proof.
  revert st lvs lc. induction n as [|n IH]; intros st lvs lc Hn Hlv Hidx; simpl.
  { exists O, st, lvs, lc. apply symmetry, length_zero_iff_nil in Hn as ->. split_and!; try done; try (intros; simplify_eq/=; lia). }
  destruct (lookup_lt_is_Some_2 st n) as [[r c] He]; [lia|]. rewrite He.
  assert (Hlast : last st = Some (r, c)) by (rewrite last_lookup, <- Hn; done).
  destruct (decide (c = 0)) as [->|Hc].
  2: { assert ((match c with 0 => ranges ← lift_opt (lvs !! n); sf ← lift_opt (ranges !! r);
           close_ranges addr n (take n st) (<[n := <[r := with_addr_range sf ((addr_range sf).1, addr)]> ranges]> lvs) (Some r)
         | _ => Ret (st, lvs, lc) end) = Ret (E := Empty_set) (st, lvs, lc)) as -> by (by destruct c).
       exists (S n), st, lvs, lc. split_and!; try done; try lia.
       - rewrite take_ge by lia. done.
       - intros r' c' E. rewrite Hlast in E. by injection E as <- <-.
       - intros l. by rewrite decide_False by lia.
       - by rewrite decide_False by lia. }
  rewrite (lvl_lookup lvs) by lia. simpl. pose proof (Hidx n r 0 He) as Hr.
  destruct (lookup_lt_is_Some_2 (lvl lvs n) r) as [sf Hsf]; [lia|]. rewrite Hsf. simpl.
  assert (Hcl : <[r := with_addr_range sf ((addr_range sf).1, addr)]> (lvl lvs n) = close_last addr (lvl lvs n)).
  { unfold close_last. rewrite <- Hr. replace (S r - 1)%nat with r by lia. by rewrite (alter_insert _ _ _ _ Hsf). }
  rewrite Hcl. set (lvs1 := <[n := _]> lvs).
  assert (Hl1 : forall l, l <> n -> lvl lvs1 l = lvl lvs l) by (intros l Hl; unfold lvl, lvs1; by rewrite list_lookup_insert_ne by done).
  assert (Hln : lvl lvs1 n = close_last addr (lvl lvs n)) by (unfold lvl, lvs1; by rewrite list_lookup_insert_eq by lia).
  destruct (IH (take n st) lvs1 (Some r)) as (n'&st'&lvs'&lc'&->&Hn'&->&Hlen&Hzero&Htop&Hlvl&->).
  { rewrite length_take. lia. } { unfold lvs1. rewrite length_insert. lia. }
  { intros l r' c' E. pose proof (lookup_lt_Some _ _ _ E) as Hl. rewrite length_take in Hl. rewrite lookup_take_lt in E by lia. rewrite Hl1 by lia. by eapply Hidx. }
  unfold lvs1 in Hlen. rewrite length_insert in Hlen.
  eexists n', _, lvs', _. split; [reflexivity|]. split_and!; try done; try lia.
  - by rewrite take_take, Nat.min_l by lia.
  - intros l Hl. destruct (decide (l = n)) as [->|]; [by exists r|]. destruct (Hzero l ltac:(lia)) as [r' E]. rewrite lookup_take_lt in E by lia. by exists r'.
  - intros l. rewrite Hlvl. destruct (decide (l = n)) as [->|].
    + rewrite (decide_False (P := (n' <= n < n)%nat)), decide_True, Hln by lia. done.
    + rewrite Hl1 by done. destruct (decide (n' <= l < n)%nat); [by rewrite decide_True by lia|by rewrite decide_False by lia].
  - rewrite (decide_True (P := (n' < S n)%nat)) by lia. destruct (decide (n' < n)%nat) as [H|H]; [by rewrite lookup_take_lt by lia|].
    assert (n' = n) as -> by lia. by rewrite He.
Qed.

(** ** The ranges found so far

    [n] levels are open, [f l] are the ranges of level [l], the last one of an
    open level being open; everything up to address [a] is settled. *)
Section Ranges.
  Context (sfs : list (Subfunction * Z)).
  Implicit Types (P : list SubfunctionEvent) (f : nat -> list Subfunction).

Definition is_open (n : nat) f (l i : nat) : Prop := (l < n)%nat /\ S i = length (f l).
Abbreviation from sf := (addr_range sf).1.
Abbreviation upto sf := (addr_range sf).2.

(** A range starts where a range of its subfunction or of an inlined call below
    it starts. *)
Definition came_from P (l : nat) (sf : Subfunction) : Prop :=
  exists e L s, e ∈ P /\ signed_level e = Z.of_nat L + 1 /\ (l <= L)%nat /\ ev_addr e = from sf /\
    ancestor sfs (L - l) (subfunction_idx e) = Some s /\ sf = with_addr_range s (addr_range sf).
Record ranges_inv P (a : Z) (n : nat) f : Prop := {
  ri_from : forall l i sf, f l !! i = Some sf -> came_from P l sf;
  ri_open : forall l i sf, f l !! i = Some sf -> is_open n f l i -> from sf <= a;
  ri_closed : forall l i sf, f l !! i = Some sf -> ~ is_open n f l i -> from sf < upto sf <= a;
  ri_sorted : forall l i j sf sf', (i < j)%nat -> f l !! i = Some sf -> f l !! j = Some sf' -> upto sf <= from sf';
  ri_nested : forall l j sf, f (S l) !! j = Some sf -> exists i sf', f l !! i = Some sf' /\ from sf' <= from sf /\
    (is_open n f l i \/ (~ is_open n f (S l) j /\ upto sf <= upto sf'))
}.
(** Level [l] covers [x]. *)
Definition covered (n : nat) f (l : nat) (x : Z) : Prop :=
  exists i sf, f l !! i = Some sf /\ from sf <= x /\ (is_open n f l i \/ x < upto sf).

Lemma is_open_dec n f l i : is_open n f l i \/ ~ is_open n f l i.
Proof. unfold is_open. lia. Qed.

Lemma ranges_advance P P' a a' n f : ranges_inv P a n f -> a <= a' -> (forall e, e ∈ P -> e ∈ P') -> ranges_inv P' a' n f.
Proof.
  intros [H1 H2 H3 H4 H5] Ha HP. split; try done.
  - intros l i sf Hi. destruct (H1 l i sf Hi) as (e&L&s&He&Hs). exists e, L, s. split; [auto|done].
  - intros l i sf Hi Ho. specialize (H2 l i sf Hi Ho). lia.
  - intros l i sf Hi Ho. specialize (H3 l i sf Hi Ho). lia.
Qed.

(** Opening the levels from [n] to [level] at [a]. *)
Section Open.
  Context (P : list SubfunctionEvent) (a : Z) (n level : nat) (f f' : nat -> list Subfunction).
  Hypothesis Hinv : ranges_inv P a n f.
  Hypothesis Hn : (n <= level)%nat.
  Hypothesis Hnonempty : forall l, (l < n)%nat -> f l <> [].
  Hypothesis Hout : forall l, (l < n \/ level < l)%nat -> f' l = f l.
  Hypothesis Hin : forall l, (n <= l <= level)%nat -> exists sf, f' l = f l ++ [with_addr_range sf (a, a)] /\ came_from P l (with_addr_range sf (a, a)).

Lemma open_old l i sf : f l !! i = Some sf -> f' l !! i = Some sf /\ (is_open (S level) f' l i <-> is_open n f l i).
Proof using Hinv Hn Hout Hin.
  intros Hi. pose proof (lookup_lt_Some _ _ _ Hi). unfold is_open. destruct (decide (n <= l <= level)%nat) as [Hl|Hl].
  - destruct (Hin l Hl) as (s&->&_). rewrite lookup_app_l, length_app by done. simpl. split; [done|lia].
  - rewrite Hout by lia. split; [done|lia].
Qed.
Lemma open_inv l i sf : f' l !! i = Some sf -> f l !! i = Some sf \/
  ((n <= l <= level)%nat /\ addr_range sf = (a, a) /\ i = length (f l) /\ is_open (S level) f' l i /\ came_from P l sf).
Proof using Hinv Hn Hout Hin.
  intros Hi. destruct (decide (n <= l <= level)%nat) as [Hl|Hl]; [|rewrite Hout in Hi by lia; by left].
  destruct (Hin l Hl) as (s&E&Hfrom). rewrite E in Hi. apply lookup_app_Some in Hi as [Hi|[Hlen Hi]]; [by left|right].
  apply list_lookup_singleton_Some in Hi as [Hi <-]. unfold is_open. rewrite E, length_app. simpl. split_and!; done || lia.
Qed.
Lemma open_closed_before l i sf : (n <= l)%nat -> f l !! i = Some sf -> from sf < upto sf <= a.
Proof using Hinv Hn. intros Hl Hi. eapply ri_closed; [done..|]. unfold is_open. lia. Qed.

Lemma ranges_open : ranges_inv P a (S level) f'.
Proof using Hinv Hn Hnonempty Hout Hin.
  split.
  - intros l i sf [Hi|(_&_&_&_&?)]%open_inv; [by eapply ri_from|done].
  - intros l i sf [Hi|(_&E&_)]%open_inv Ho; [|rewrite E; simpl; lia]. destruct (open_old _ _ _ Hi) as [_ E]. eapply ri_open; [done..|]. by apply E.
  - intros l i sf [Hi|(_&_&_&?&_)]%open_inv Ho; [|done]. destruct (open_old _ _ _ Hi) as [_ E]. eapply ri_closed; [done..|]. by rewrite <- E.
  - intros l i j sf sf' Hij Hi Hj. apply open_inv in Hi as [Hi|(Hl&_&Ei&_)].
    + apply open_inv in Hj as [Hj|(Hl&E&_)]; [by eapply ri_sorted|]. rewrite E. simpl. apply (open_closed_before l i); [lia|done].
    + apply lookup_lt_Some in Hj. destruct (Hin l Hl) as (s&E&_). rewrite E, length_app in Hj. simpl in Hj. lia.
  - intros l j sf Hj. apply open_inv in Hj as [Hj|(Hl&E&_&Ho&_)].
    + destruct (ri_nested _ _ _ _ Hinv l j sf Hj) as (i&sf'&Hi&Hfrom&Hup). destruct (open_old _ _ _ Hi) as [Hi' Ei]. destruct (open_old _ _ _ Hj) as [_ Ej].
      exists i, sf'. rewrite Ei, Ej. done.
    + destruct (decide (n <= l)%nat) as [Hnl|Hnl].
      * destruct (Hin l ltac:(lia)) as (s&E'&_). exists (length (f l)), (with_addr_range s (a, a)).
        rewrite E', list_lookup_middle by done. rewrite E. split; [done|]. split; [simpl; lia|]. left. unfold is_open. rewrite E', length_app. simpl. lia.
      * assert (is_open (S level) f' (S l) j) as _ by done. destruct (f l) as [|x xs] eqn:Ef; [by destruct Hnonempty with l; [lia|]|].
        destruct (lookup_lt_is_Some_2 (f l) (length (f l) - 1)%nat) as [sf' Hi]; [rewrite Ef; simpl; lia|].
        exists (length (f l) - 1)%nat, sf'. rewrite Hout by lia. split; [done|].
        assert (Hop : is_open n f l (length (f l) - 1)%nat) by (unfold is_open; rewrite Ef; simpl; lia).
        split; [rewrite E; simpl; by eapply ri_open|]. left. apply (open_old _ _ _ Hi), Hop.
Qed.
Lemma covered_open l x : x < a -> covered (S level) f' l x <-> covered n f l x.
Proof using Hinv Hn Hnonempty Hout Hin.
  intros Hx. split; intros (i&sf&Hi&Hfrom&Hup).
  - apply open_inv in Hi as [Hi|(_&E&_)]; [|rewrite E in Hfrom; simpl in Hfrom; lia].
    exists i, sf. destruct (open_old _ _ _ Hi) as [_ E]. by rewrite <- E.
  - exists i, sf. destruct (open_old _ _ _ Hi) as [Hi' E]. by rewrite E.
Qed.
End Open.

(** Closing the levels from [n'] to [n - 1] at [a]. *)
Section Close.
  Context (P : list SubfunctionEvent) (a : Z) (n n' : nat) (f f' : nat -> list Subfunction).
  Hypothesis Hinv : ranges_inv P a n f.
  Hypothesis Hn : (n' <= n)%nat.
  Hypothesis Hf : forall l, f' l = if decide (n' <= l < n)%nat then close_last a (f l) else f l.
  Hypothesis Hstarts : forall l i sf, f l !! i = Some sf -> is_open n f l i -> from sf < a.

Lemma close_length l : length (f' l) = length (f l).
Proof using Hf. rewrite Hf. case_decide; [|done]. apply length_alter. Qed.
Lemma close_is_open l i : is_open n' f' l i <-> is_open n f l i /\ (l < n')%nat.
Proof using Hf Hn. unfold is_open. rewrite close_length. lia. Qed.
Lemma close_inv l i sf' : f' l !! i = Some sf' -> exists sf, f l !! i = Some sf /\ from sf' = from sf /\
  ((n' <= l)%nat /\ is_open n f l i /\ sf' = close_at a sf \/ (~ is_open n f l i \/ (l < n')%nat) /\ sf' = sf).
Proof using Hf Hn.
  rewrite Hf. intros Hi. case_decide as Hl.
  - unfold close_last in Hi. destruct (decide (S i = length (f l))) as [Ei|Ei].
    + replace (length (f l) - 1)%nat with i in Hi by lia. rewrite list_lookup_alter_eq in Hi.
      destruct (f l !! i) as [sf|] eqn:E; [|done]. injection Hi as <-. exists sf. split; [done|]. split; [done|]. left. unfold is_open. split; [lia|]. split; [lia|done].
    + pose proof (lookup_lt_Some _ _ _ Hi) as Hlt. rewrite length_alter in Hlt. rewrite list_lookup_alter_ne in Hi by lia.
      exists sf'. split; [done|]. split; [done|]. right. unfold is_open. split; [lia|done].
  - exists sf'. split; [done|]. split; [done|]. right. unfold is_open. split; [lia|done].
Qed.
Lemma close_fwd l i sf : f l !! i = Some sf -> exists sf', f' l !! i = Some sf' /\ from sf' = from sf /\
  ((n' <= l)%nat /\ is_open n f l i /\ upto sf' = a \/ (~ is_open n f l i \/ (l < n')%nat) /\ sf' = sf).
Proof using Hf Hn.
  intros Hi. destruct (lookup_lt_is_Some_2 (f' l) i) as [sf' Hi']; [rewrite close_length; by eapply lookup_lt_Some|].
  exists sf'. destruct (close_inv _ _ _ Hi') as (sf0&E&Ef&H). simplify_eq. split; [done|]. split; [done|].
  destruct H as [(?&?&->)|H]; [left|right]; done.
Qed.

Lemma ranges_close : ranges_inv P a n' f'.
Proof using Hf Hinv Hn Hstarts.
  split.
  - intros l i sf' (sf&Hi&_&H)%close_inv. destruct (ri_from _ _ _ _ Hinv l i sf Hi) as (e&L&s&He&Hs&HL&Hfrom&Hanc&E).
    exists e, L, s. destruct H as [(_&_&->)|[_ ->]]; [|done]. split_and!; try done. by rewrite E.
  - intros l i sf' (sf&Hi&->&H)%close_inv [Ho _]%close_is_open. by eapply ri_open.
  - intros l i sf' (sf&Hi&E&H)%close_inv Ho. rewrite close_is_open in Ho. destruct H as [(_&Hop&->)|[Hno ->]].
    + simpl. pose proof (Hstarts l i sf Hi Hop). lia.
    + eapply ri_closed; [done..|]. tauto.
  - intros l i j sf' sf2' Hij (sf&Hi&E&H)%close_inv (sf2&Hj&->&_)%close_inv.
    assert (Hno : ~ is_open n f l i) by (apply lookup_lt_Some in Hj; unfold is_open; lia).
    destruct H as [(_&Hop&_)|[_ ->]]; [done|]. by eapply ri_sorted.
  - intros l j sf' (sf&Hj&->&H)%close_inv. destruct (ri_nested _ _ _ _ Hinv l j sf Hj) as (i&sfi&Hi&Hfrom&Hup).
    destruct (close_fwd l i sfi Hi) as (sfi'&Hi'&Efrom&Hcase). exists i, sfi'. rewrite Efrom. split_and!; [done..|].
    rewrite !close_is_open. assert (Hend : upto sf' <= a \/ is_open n' f' (S l) j).
    { destruct H as [(_&_&->)|[H ->]]; [left; simpl; lia|]. rewrite close_is_open. destruct (is_open_dec n f (S l) j) as [Ho|Ho]; [right; tauto|].
      left. apply (ri_closed _ _ _ _ Hinv (S l) j sf Hj Ho). }
    destruct Hcase as [(Hl&Ho&->)|[Hno ->]].
    + right. rewrite close_is_open in Hend. destruct Hend as [Hend|[_ ?]]; [|lia]. split; [|done]. intros [_ ?]. lia.
    + destruct Hup as [Ho|[Ho Hle]]; [left; tauto|]. right. split; [tauto|]. destruct H as [(_&?&_)|[_ ->]]; [tauto|done].
Qed.
Lemma covered_close l x : x < a -> covered n' f' l x <-> covered n f l x.
Proof using Hf Hinv Hn Hstarts.
  intros Hx. split; intros (i&sf&Hi&Hfrom&Hup).
  - apply close_inv in Hi as (sf0&Hi&E&H). exists i, sf0. rewrite <- E. split_and!; [done..|].
    destruct H as [(_&?&_)|[_ ->]]; [by left|]. destruct Hup as [Ho%close_is_open|?]; [left; tauto|by right].
  - destruct (close_fwd l i sf Hi) as (sf'&Hi'&E&H). exists i, sf'. rewrite E. split_and!; [done..|].
    rewrite close_is_open. destruct H as [(_&_&->)|[Hno ->]]; [by right|]. destruct Hup as [?|?]; [left; tauto|by right].
Qed.
End Close.
End Ranges.

(** ** The state of the sweep *)

Record sweep_inv (sfs : list (Subfunction * Z)) (P : list SubfunctionEvent) (a : Z) (sw : Sweep) : Prop := {
  si_levels : (length (stack sw) <= sw_num_levels sw <= length (levels sw))%nat;
  si_clean : forall l, (sw_num_levels sw <= l)%nat -> lvl (levels sw) l = [];
  si_nonempty : forall l, (l < sw_num_levels sw)%nat -> lvl (levels sw) l <> [];
  si_stack : forall l r c, stack sw !! l = Some (r, c) -> c = open_at P l /\ S r = length (lvl (levels sw) l);
  si_above : forall l, (length (stack sw) <= l)%nat -> open_at P l = 0;
  si_top : forall r c, last (stack sw) = Some (r, c) -> c <> 0;
  si_ranges : ranges_inv sfs P a (length (stack sw)) (lvl (levels sw))
}.
Abbreviation sw_covered sw := (covered (length (stack sw)) (lvl (levels sw))).
(** Only lines are added to a shard. *)
Definition lines_added (sh sh' : SymbolsLoaderShard) : Prop :=
  exists ls, sh' = set_sym sh (set_addr_to_line (addr_to_line (sym sh) ++ ls)).
Definition lines_ok (sh : SymbolsLoaderShard) : Prop := (addr_to_line_len_after_debug_line sh <= length (addr_to_line (sym sh)))%nat.

Lemma lines_added_refl sh : lines_added sh sh.
Proof. exists []. rewrite app_nil_r. by destruct sh as [[]]. Qed.
Lemma lines_added_trans sh1 sh2 sh3 : lines_added sh1 sh2 -> lines_added sh2 sh3 -> lines_added sh1 sh3.
Proof. intros [k1 ->] [k2 ->]. exists (k1 ++ k2). destruct sh1 as [[]]. unfold set_sym, set_addr_to_line. simpl. by rewrite app_assoc. Qed.
Lemma lines_added_ok sh sh' : lines_added sh sh' -> lines_ok sh -> lines_ok sh'.
Proof. intros [k ->]. unfold lines_ok. simpl. rewrite length_app. lia. Qed.
Lemma fixup_returns sh line addr : lines_ok sh -> exists l, fixup_subfunction_call_line sh line addr = Ret l.
Proof.
  intros Hok. unfold fixup_subfunction_call_line, nat_slice. cbn [fst snd].
  destruct (_ && _); [|eexists; reflexivity]. cbn [Nat.leb andb]. rewrite (proj2 (Nat.leb_le _ _) Hok), drop_0, Nat.sub_0_r. cbn [mbind outcome_bind].
  set (i := partition_point _ _). destruct (Nat.ltb_spec 0 i); [|eexists; reflexivity].
  assert (Hi : (i <= length (take (addr_to_line_len_after_debug_line sh) (addr_to_line (sym sh))))%nat) by apply partition_point_le.
  rewrite length_take in Hi. destruct (lookup_lt_is_Some_2 (addr_to_line (sym sh)) (i - 1)%nat) as [prev ->]; [lia|]. cbn [lift_opt mbind outcome_bind].
  destruct (_ && _); eexists; reflexivity.
Qed.

Lemma open_at_snoc P e l : open_at (P ++ [e]) l = open_at P l + Z.b2z (is_start l e) - Z.b2z (is_end l e).
Proof. rewrite open_at_app. unfold open_at. cbn [count]. lia. Qed.
Lemma start_counts e lev l : signed_level e = Z.of_nat lev + 1 -> is_start l e = (l =? lev)%nat /\ is_end l e = false.
Proof. intros E. unfold is_start, is_end. rewrite E. destruct (Nat.eqb_spec l lev); [subst|]; (split; [|]); lia. Qed.
Lemma end_counts e lev l : signed_level e = - (Z.of_nat lev + 1) -> is_end l e = (l =? lev)%nat /\ is_start l e = false.
Proof. intros E. unfold is_start, is_end. rewrite E. destruct (Nat.eqb_spec l lev); [subst|]; (split; [|]); lia. Qed.
Lemma lvl_resize n lvs l : (length lvs <= n)%nat -> lvl (resize n [] lvs) l = lvl lvs l.
Proof.
  intros Hn. unfold lvl. rewrite resize_ge by done. destruct (decide (l < length lvs)%nat); [by rewrite lookup_app_l by lia|].
  rewrite lookup_app_r, (lookup_ge_None_2 lvs) by lia. destruct (replicate _ _ !! _) eqn:E; [|done]. by apply lookup_replicate in E as [-> _].
Qed.

(** The start of a range. *)
Section StartEvent.
  Context (sfs : list (Subfunction * Z)) (P : list SubfunctionEvent) (e : SubfunctionEvent) (lev : nat) (sw : Sweep).
  Hypothesis Hinv : sweep_inv sfs P (ev_addr e) sw.
  Hypothesis He : signed_level e = Z.of_nat lev + 1.
  Hypothesis Hpos : forall l, 0 <= open_at P l.
Let a := ev_addr e.
Definition after_event (sw' : Sweep) : Prop := sweep_inv sfs (P ++ [e]) (ev_addr e) sw' /\
  lines_added (sw_shard sw) (sw_shard sw') /\ forall l x, x < ev_addr e -> sw_covered sw' l x <-> sw_covered sw l x.

Lemma start_count l : open_at (P ++ [e]) l = open_at P l + Z.b2z (l =? lev)%nat.
Proof using He. rewrite open_at_snoc. destruct (start_counts e lev l He) as [-> ->]. simpl. lia. Qed.
Lemma start_ranges : ranges_inv sfs (P ++ [e]) a (length (stack sw)) (lvl (levels sw)).
Proof using Hinv. eapply ranges_advance; [apply (si_ranges _ _ _ _ Hinv)|done|]. intros e' He'. apply elem_of_app. by left. Qed.

Lemma start_again r c : stack sw !! lev = Some (r, c) ->
  after_event (mkSweep (<[lev := (r, c + 1)]> (stack sw)) (levels sw) (sw_num_levels sw) (sw_shard sw)).
Proof using Hinv He Hpos.
  intros E. pose proof (lookup_lt_Some _ _ _ E) as Hlev. pose proof start_ranges as Hr. pose proof start_count as Hcount.
  destruct Hinv as [Hlen Hclean Hne Hst Habove Htop _]. destruct (Hst _ _ _ E) as [Ec Er].
  split; [|split; [apply lines_added_refl|]]; [|cbn [stack levels]; intros; by rewrite length_insert].
  split; cbn [stack levels sw_num_levels]; rewrite ?length_insert; try done.
  - intros l r' c' E'. rewrite Hcount. destruct (Nat.eqb_spec l lev) as [->|Hl].
    + rewrite list_lookup_insert_eq in E' by done. injection E' as <- <-. simpl. split; [lia|done].
    + rewrite list_lookup_insert_ne in E' by done. destruct (Hst _ _ _ E'). simpl. split; [lia|done].
  - intros l Hl. rewrite Hcount, Habove by done. destruct (Nat.eqb_spec l lev); [lia|done].
  - intros r' c' E'. rewrite last_lookup, length_insert in E'. specialize (Hpos lev). destruct (decide (lev = pred (length (stack sw)))) as [El|Hl].
    + rewrite <- El, list_lookup_insert_eq in E' by done. injection E' as <- <-. lia.
    + rewrite list_lookup_insert_ne in E' by done. rewrite <- last_lookup in E'. by eapply Htop.
Qed.

Lemma start_new : stack sw !! lev = None -> at_depth sfs lev (subfunction_idx e) ->
  exists sw', start_event sfs (ev_addr e) (subfunction_idx e) lev sw = Ret sw' /\ after_event sw'.
Proof using Hinv He Hpos.
  intros E Hd. apply lookup_ge_None in E. pose proof start_ranges as Hr. pose proof start_count as Hcount.
  pose proof (si_ranges _ _ _ _ Hinv) as Hr0. destruct Hinv as [Hlen Hclean Hne Hst Habove Htop _]. set (n := length (stack sw)) in *.
  unfold start_event. rewrite (lookup_ge_None_2 (stack sw)) by done. fold n.
  set (st := stack sw ++ replicate (S lev - n) (0%nat, 0)).
  assert (Hstl : length st = S lev) by (unfold st; rewrite length_app, length_replicate; fold n; lia).
  set (num := if (sw_num_levels sw <=? lev)%nat then S lev else sw_num_levels sw).
  assert (Hnum : (num = Nat.max (S lev) (sw_num_levels sw))) by (unfold num; destruct (Nat.leb_spec (sw_num_levels sw) lev); lia).
  set (lvs := if (_ && _)%nat then _ else levels sw).
  assert (Hlvs : (num <= length lvs)%nat /\ forall l, lvl lvs l = lvl (levels sw) l).
  { unfold lvs. destruct (Nat.leb_spec (sw_num_levels sw) lev); cbn [andb]; [|split; [lia|done]].
    destruct (Nat.ltb_spec (length (levels sw)) num); [|split; [lia|done]]. split; [rewrite length_resize; lia|]. intros l. apply lvl_resize. lia. }
  destruct Hlvs as [Hlvs Hlvs'].
  assert (Htop0 : st !! lev = Some (0%nat, 0)).
  { unfold st. rewrite lookup_app_r by done. apply lookup_replicate. fold n. split; [done|lia]. }
  rewrite Htop0. cbn [lift_opt mbind outcome_bind fst snd]. set (st1 := <[lev := _]> st).
  assert (Hst1 : length st1 = S lev) by (unfold st1; by rewrite length_insert).
  destruct (open_ranges_ok sfs (ev_addr e) (S lev - n) n (subfunction_idx e) st1 lvs) as (st'&lvs'&->&Hl1&Hl2&Hout&Hin); [lia|lia| |].
  { intros _. by replace (n + (S lev - n) - 1)%nat with lev by lia. }
  cbn [mbind outcome_bind]. eexists. split; [reflexivity|]. unfold after_event. cbn [stack levels sw_shard].
  assert (Hout' : forall l, (l < n \/ lev < l)%nat -> lvl lvs' l = lvl (levels sw) l).
  { intros l Hl. destruct (Hout l ltac:(lia)) as [_ ->]. apply Hlvs'. }
  assert (Hin' : forall l, (n <= l <= lev)%nat -> exists sf, lvl lvs' l = lvl (levels sw) l ++ [with_addr_range sf (a, a)] /\
     came_from sfs (P ++ [e]) l (with_addr_range sf (a, a))).
  { intros l Hl. destruct (Hin l ltac:(lia)) as (_&sf&_&_&Hanc&->). rewrite Hlvs'. exists sf. split; [done|].
    replace (n + (S lev - n) - 1 - l)%nat with (lev - l)%nat in Hanc by lia.
    exists e, lev, sf. split_and!; try done; [apply elem_of_app; right; apply list_elem_of_here|lia]. }
  assert (Hne' : forall l, (l < n)%nat -> lvl (levels sw) l <> []) by (intros l Hl; apply Hne; lia).
  rewrite Hl1, Hst1. split; [|split; [apply lines_added_refl|]].
  - split; cbn [stack levels sw_num_levels]; rewrite ?Hl1, ?Hst1, ?Hl2; try lia.
    + intros l Hl. rewrite Hout' by lia. apply Hclean. lia.
    + intros l Hl. destruct (decide (n <= l <= lev)%nat) as [Hnl|Hnl]; [destruct (Hin' l Hnl) as (sf&->&_); by destruct (lvl _ _)|].
      rewrite Hout' by lia. apply Hne. lia.
    + intros l r c E'. rewrite Hcount. destruct (decide (n <= l <= lev)%nat) as [Hnl|Hnl].
      * destruct (Hin l ltac:(lia)) as (e0&sf&E0&E1&_&E2). rewrite E1 in E'. injection E' as <- <-. rewrite E2, length_app, Habove by (fold n; lia).
        split; [|simpl; lia]. unfold st1 in E0. destruct (Nat.eqb_spec l lev) as [->|Hne0].
        -- rewrite list_lookup_insert_eq in E0 by lia. by injection E0 as <-.
        -- rewrite list_lookup_insert_ne in E0 by done. unfold st in E0. rewrite lookup_app_r in E0 by (fold n; lia).
           apply lookup_replicate in E0 as [-> _]. done.
      * assert (Hl : (l < n)%nat) by (apply lookup_lt_Some in E'; rewrite Hl1, Hst1 in E'; lia). destruct (Hout l ltac:(lia)) as [E1 E2].
        rewrite E1 in E'. unfold st1, st in E'. rewrite list_lookup_insert_ne, lookup_app_l in E' by (fold n; lia). destruct (Hst _ _ _ E').
        rewrite E2, Hlvs'. destruct (Nat.eqb_spec l lev); [lia|]. simpl. split; [lia|done].
    + intros l Hl. rewrite Hcount, Habove by (fold n; lia). destruct (Nat.eqb_spec l lev); [lia|done].
    + intros r c E'. rewrite last_lookup, Hl1, Hst1 in E'. simpl in E'. destruct (Hin lev ltac:(lia)) as (e0&sf&E0&E1&_).
      rewrite E1 in E'. unfold st1 in E0. rewrite list_lookup_insert_eq in E0 by lia. by injection E0 as <-; injection E' as <- <-.
    + apply (ranges_open sfs (P ++ [e]) a n lev (lvl (levels sw))); done.
  - intros l x Hx. apply (covered_open sfs (P ++ [e]) a n lev); done.
Qed.
End StartEvent.

(** The end of a range. *)
Section EndEvent.
  Context (sfs : list (Subfunction * Z)) (P : list SubfunctionEvent) (e : SubfunctionEvent) (lev : nat) (sw : Sweep).
  Hypothesis Hinv : sweep_inv sfs P (ev_addr e) sw.
  Hypothesis He : signed_level e = - (Z.of_nat lev + 1).
  Hypothesis Hlines : lines_ok (sw_shard sw).
Let a := ev_addr e.

Lemma end_count l : open_at (P ++ [e]) l = open_at P l - Z.b2z (l =? lev)%nat.
Proof using He. rewrite open_at_snoc. destruct (end_counts e lev l He) as [-> ->]. simpl. lia. Qed.

(** The stack after an end, before ranges are closed. *)
Lemma end_close r c : stack sw !! lev = Some (r, c) ->
  (forall l i sf, lvl (levels sw) l !! i = Some sf -> is_open (length (stack sw)) (lvl (levels sw)) l i -> (addr_range sf).1 < a) ->
  let st := <[lev := (r, c - 1)]> (stack sw) in
  exists n' st' lvs' lc, close_ranges a (length st) st (levels sw) None = Ret (st', lvs', lc) /\ (length st' = n' /\
    match lc with Some r => S r = length (lvl lvs' n') /\ (n' < length lvs')%nat | None => True end) /\
    forall sh, lines_added (sw_shard sw) sh -> after_event sfs P e sw (mkSweep st' lvs' (sw_num_levels sw) sh).
Proof using Hinv He.
  intros E Hstarts st. pose proof (lookup_lt_Some _ _ _ E) as Hlev. pose proof end_count as Hcount.
  assert (Hr : ranges_inv sfs (P ++ [e]) a (length (stack sw)) (lvl (levels sw))).
  { eapply ranges_advance; [apply (si_ranges _ _ _ _ Hinv)|done|]. intros e' He'. apply elem_of_app. by left. }
  destruct Hinv as [Hlen Hclean Hne Hst Habove Htop _]. assert (Hstl : length st = length (stack sw)) by (unfold st; by rewrite length_insert).
  assert (Hst' : forall l r' c', st !! l = Some (r', c') -> c' = open_at (P ++ [e]) l /\ S r' = length (lvl (levels sw) l)).
  { intros l r' c' E'. rewrite Hcount. unfold st in E'. destruct (Nat.eqb_spec l lev) as [->|Hl].
    - rewrite list_lookup_insert_eq in E' by done. injection E' as <- <-. destruct (Hst _ _ _ E). simpl. split; [lia|done].
    - rewrite list_lookup_insert_ne in E' by done. destruct (Hst _ _ _ E'). simpl. split; [lia|done]. }
  destruct (close_ranges_ok a (length st) st (levels sw) None) as (n'&st'&lvs'&lc&->&Hn'&->&Hl2&Hzero&Htop'&Hlvl&->); [done|lia| |].
  { intros l r' c' E'. by eapply Hst'. }
  exists n', (take n' st), lvs'. eexists. split; [reflexivity|].
  assert (Hlen' : forall l, length (lvl lvs' l) = length (lvl (levels sw) l)).
  { intros l. rewrite Hlvl. case_decide; [|done]. apply length_alter. }
  assert (Htake : length (take n' st) = n') by (rewrite length_take; lia). split; [split; [done|]|].
  { destruct (decide (n' < length st)%nat) as [Hlt|]; [|done]. destruct (Hzero n' ltac:(lia)) as [r' Er]. rewrite Er. simpl.
    rewrite Hlen'. split; [by destruct (Hst' _ _ _ Er)|lia]. }
  intros sh Hsh. unfold after_event. cbn [stack levels sw_shard]. rewrite Htake. split; [|split; [done|]].
  - split; cbn [stack levels sw_num_levels]; rewrite ?Htake; try lia.
    + intros l Hl. apply length_zero_iff_nil. rewrite Hlen', Hclean by done. done.
    + intros l Hl Hnil. apply (Hne l Hl), length_zero_iff_nil. rewrite <- Hlen', Hnil. done.
    + intros l r' c' E'. pose proof (lookup_lt_Some _ _ _ E') as Hl. rewrite Htake in Hl. rewrite lookup_take_lt in E' by done. rewrite Hlen'. by apply Hst'.
    + intros l Hl. destruct (decide (l < length st)%nat) as [Hls|Hls].
      * destruct (Hzero l ltac:(lia)) as [r' Er]. by destruct (Hst' _ _ _ Er).
      * rewrite Hcount, Habove by lia. destruct (Nat.eqb_spec l lev); [lia|done].
    + done.
    + apply (ranges_close sfs (P ++ [e]) a (length (stack sw)) n' (lvl (levels sw))); try done; [lia|]. rewrite <- Hstl. done.
  - intros l x Hx. apply (covered_close sfs (P ++ [e]) a (length (stack sw)) n'); try done; [lia|]. rewrite <- Hstl. done.
Qed.

Lemma end_event_ok next : 0 < open_at P lev ->
  (forall l i sf, lvl (levels sw) l !! i = Some sf -> is_open (length (stack sw)) (lvl (levels sw)) l i -> (addr_range sf).1 < a) ->
  exists sw', end_event (ev_addr e) lev next sw = Ret sw' /\ after_event sfs P e sw sw'.
Proof using Hinv He Hlines.
  intros Hpos Hstarts. unfold end_event. destruct (stack sw !! lev) as [[r c]|] eqn:E.
  2: { apply lookup_ge_None in E. rewrite (si_above _ _ _ _ Hinv lev E) in Hpos. lia. }
  destruct (si_stack _ _ _ _ Hinv _ _ _ E) as [-> _]. cbn [lift_opt mbind outcome_bind]. unfold usub. rewrite (proj2 (Z.leb_le 1 _)) by lia.
  cbn [mbind outcome_bind]. fold a. destruct (end_close r _ E Hstarts) as (n'&st'&lvs'&lc&->&[Hst' Hlc]&Hafter). cbn [mbind outcome_bind].
  pose proof (Hafter _ (lines_added_refl _)) as Hsame.
  destruct lc as [r'|]; [|eexists; split; [reflexivity|done]]. destruct next as [e'|]; [|eexists; split; [reflexivity|done]].
  destruct (_ <? _); [|eexists; split; [reflexivity|done]]. destruct Hlc as [Hr' Hlt]. rewrite Hst', (lvl_lookup lvs' n') by done. cbn [lift_opt mbind outcome_bind].
  destruct (lookup_lt_is_Some_2 (lvl lvs' n') r') as [sf Hsf]; [lia|]. rewrite Hsf. cbn [lift_opt mbind outcome_bind].
  destruct (bool_decide _); [|eexists; split; [reflexivity|done]].
  destruct (fixup_returns (sw_shard sw) (call_line sf) (addr_range sf).1 Hlines) as [line ->]. cbn [mbind outcome_bind].
  eexists. split; [reflexivity|]. apply Hafter. eexists. reflexivity.
Qed.
End EndEvent.

(** ** The whole sweep *)

(** From the current address on, the open levels cover. *)
Lemma covered_settled sfs P a sw l x : sweep_inv sfs P a sw -> a <= x -> sw_covered sw l x <-> (l < length (stack sw))%nat.
Proof.
  intros Hinv Hx. pose proof (si_ranges _ _ _ _ Hinv) as Hr. split.
  - intros (i&sf&Hi&Hfrom&[[Ho _]|Hup]); [done|]. destruct (is_open_dec (length (stack sw)) (lvl (levels sw)) l i) as [[Ho _]|Ho]; [done|].
    pose proof (ri_closed _ _ _ _ _ Hr l i sf Hi Ho). lia.
  - intros Hl. destruct (lookup_lt_is_Some_2 _ _ Hl) as [[r c] E]. destruct (si_stack _ _ _ _ Hinv _ _ _ E) as [_ Hlen].
    destruct (lookup_lt_is_Some_2 (lvl (levels sw) l) r) as [sf Hsf]; [lia|]. assert (Ho : is_open (length (stack sw)) (lvl (levels sw)) l r) by done.
    exists r, sf. split; [done|]. split; [|by left]. pose proof (ri_open _ _ _ _ _ Hr l r sf Hsf Ho). lia.
Qed.
(** The open levels are those up to the deepest open range. *)
Lemma open_levels sfs P a sw l : sweep_inv sfs P a sw -> (forall l, 0 <= open_at P l) ->
  (l < length (stack sw))%nat <-> exists l', (l <= l')%nat /\ 0 < open_at P l'.
Proof.
  intros Hinv Hpos. split.
  - intros Hl. exists (length (stack sw) - 1)%nat. split; [lia|]. destruct (lookup_lt_is_Some_2 (stack sw) (length (stack sw) - 1)) as [[r c] E]; [lia|].
    destruct (si_stack _ _ _ _ Hinv _ _ _ E) as [-> _]. assert (El : last (stack sw) = Some (r, open_at P (length (stack sw) - 1))).
    { rewrite last_lookup. by replace (pred (length (stack sw))) with (length (stack sw) - 1)%nat by lia. }
    pose proof (si_top _ _ _ _ Hinv _ _ El). specialize (Hpos (length (stack sw) - 1)%nat). lia.
  - intros (l'&Hl&Ho). destruct (Nat.ltb_spec l' (length (stack sw))); [lia|]. rewrite (si_above _ _ _ _ Hinv l') in Ho by done. lia.
Qed.
Definition input_covers (rs : list InRange) (l : nat) (x : Z) : Prop := exists r, r ∈ rs /\ (l <= in_level r)%nat /\ in_begin r <= x < in_end r.

Section Sweeping.
  Context (sfs : list (Subfunction * Z)) (rs : list InRange).
  Hypothesis Hok : Forall (range_ok sfs) rs.

Lemma input_covers_open P Q x l : P ++ Q ≡ₚ concat (map events_of rs) ->
  Forall (fun e => ev_addr e <= x) P -> Forall (fun e => x < ev_addr e) Q ->
  input_covers rs l x <-> exists l', (l <= l')%nat /\ 0 < open_at P l'.
Proof using Hok.
  intros Hperm HP HQ. split.
  - intros (r&Hr&Hl&Hx). exists (in_level r). split; [done|]. rewrite (open_at_split sfs rs P Q Hok Hperm x) by done. apply count_pos. exists r. split; [done|].
    rewrite Nat.eqb_refl. unfold in_covers. lia.
  - intros (l'&Hl&Ho). rewrite (open_at_split sfs rs P Q Hok Hperm x) in Ho by done. apply count_pos in Ho as (r&Hr&E).
    apply andb_true_iff in E as [El%Nat.eqb_eq E]. exists r. split; [done|]. unfold in_covers in E. lia.
Qed.

(** What an event is. *)
Lemma event_cases P Q e : P ++ e :: Q ≡ₚ concat (map events_of rs) ->
  exists lev, Z.to_nat (wrap64 (Z.abs (signed_level e) - 1)) = lev /\
    (signed_level e = Z.of_nat lev + 1 /\ at_depth sfs lev (subfunction_idx e) \/ signed_level e = - (Z.of_nat lev + 1)).
Proof using Hok.
  intros Hperm. assert (Hin : e ∈ concat (map events_of rs)) by (rewrite <- Hperm; apply elem_of_app; right; apply list_elem_of_here).
  apply list_elem_of_In, in_concat in Hin as (es&Hes&Hin). apply in_map_iff in Hes as (r&<-&Hr). apply list_elem_of_In in Hr.
  pose proof (proj1 (Forall_forall _ _) Hok r Hr) as (_&Hd&Hlev). exists (in_level r).
  assert (Hw : forall s, Z.abs s = Z.of_nat (in_level r) + 1 -> Z.to_nat (wrap64 (Z.abs s - 1)) = in_level r).
  { intros s ->. unfold wrap64. rewrite Z.mod_small by (unfold SUBFUNCTION_LEVEL_MAX in *; lia). lia. }
  destruct Hin as [<-|[<-|[]]]; cbn [signed_level subfunction_idx]; (split; [apply Hw; lia|]); [left|right]; done.
Qed.

(** The state before the event [e]: settled up to [a]. *)
Record sweeping (P Q : list SubfunctionEvent) (a : Z) (sh0 : SymbolsLoaderShard) (sw : Sweep) : Prop := {
  sg_perm : P ++ Q ≡ₚ concat (map events_of rs);
  sg_sorted : StronglySorted (by_keys event_key) (P ++ Q);
  sg_before : Forall (fun e => ev_addr e <= a) P;
  sg_inv : sweep_inv sfs P a sw;
  sg_lines : lines_added sh0 (sw_shard sw);
  sg_covered : forall l x, x < a -> sw_covered sw l x <-> input_covers rs l x
}.

Lemma sweeping_advance P Q a a' sh0 sw : sweeping P Q a sh0 sw -> a <= a' -> Forall (fun e => a' <= ev_addr e) Q -> sweeping P Q a' sh0 sw.
Proof using Hok.
  intros [Hperm Hs HP Hinv Hl Hc] Ha HQ. split; try done.
  - eapply Forall_impl; [apply HP|]. simpl. lia.
  - destruct Hinv. split; try done. by eapply ranges_advance.
  - intros l x Hx. destruct (Z.ltb_spec x a); [by apply Hc|].
    rewrite (covered_settled sfs P a) by done. rewrite (open_levels sfs P a) by (done || apply (open_at_nonneg sfs rs P Q Hok Hperm Hs)).
    symmetry. apply (input_covers_open P Q); [done|eapply Forall_impl; [apply HP|]|eapply Forall_impl; [apply HQ|]]; simpl; lia.
Qed.

Lemma sweep_step P Q e sh0 sw : lines_ok sh0 -> sweeping P (e :: Q) (ev_addr e) sh0 sw ->
  exists sw', (if 0 <? signed_level e then start_event sfs (ev_addr e) (subfunction_idx e) (Z.to_nat (wrap64 (Z.abs (signed_level e) - 1))) sw
    else end_event (ev_addr e) (Z.to_nat (wrap64 (Z.abs (signed_level e) - 1))) (head Q) sw) = Ret sw' /\ sweeping (P ++ [e]) Q (ev_addr e) sh0 sw'.
Proof using Hok.
  intros Hlines [Hperm Hs HP Hinv Hl Hc]. pose proof (open_at_nonneg sfs rs P (e :: Q) Hok Hperm Hs) as Hpos.
  assert (Hafter : forall sw', after_event sfs P e sw sw' -> sweeping (P ++ [e]) Q (ev_addr e) sh0 sw').
  { intros sw' (Hinv'&Hl'&Hc'). split; rewrite <- ?app_assoc; try done.
    - apply Forall_app. split; [done|]. by constructor.
    - by eapply lines_added_trans.
    - intros l x Hx. rewrite Hc' by done. by apply Hc. }
  destruct (event_cases P Q e Hperm) as (lev&->&[[He Hd]|He]).
  - rewrite (proj2 (Z.ltb_lt 0 _)) by lia. destruct (stack sw !! lev) as [[r c]|] eqn:E.
    + unfold start_event. rewrite E. eexists. split; [reflexivity|]. apply Hafter. by apply start_again.
    + destruct (start_new sfs P e lev sw Hinv He Hpos E Hd) as (sw'&E'&Ha). exists sw'. split; [done|]. by apply Hafter.
  - rewrite (proj2 (Z.ltb_ge 0 _)) by lia.
    assert (Ho : 0 < open_at P lev).
    { assert (Hperm' : (P ++ [e]) ++ Q ≡ₚ concat (map events_of rs)) by (by rewrite <- app_assoc).
      assert (Hs' : StronglySorted (by_keys event_key) ((P ++ [e]) ++ Q)) by (by rewrite <- app_assoc).
      pose proof (open_at_nonneg sfs rs _ _ Hok Hperm' Hs' lev) as H. rewrite (end_count P e lev He), Nat.eqb_refl in H. simpl in H. lia. }
    destruct (end_event_ok sfs P e lev sw Hinv He (lines_added_ok _ _ Hl Hlines) (head Q) Ho) as (sw'&E'&Ha).
    + intros l i sf Hsf _. destruct (ri_from _ _ _ _ _ (si_ranges _ _ _ _ Hinv) l i sf Hsf) as (e0&L&s&He0&Hs0&_&<-&_).
      apply StronglySorted_app in Hs as (Hcross&_&_). pose proof (Hcross e0 e He0 (list_elem_of_here _ _)) as H. unfold by_keys, event_key in H. simpl in H. lia.
    + exists sw'. split; [done|]. by apply Hafter.
Qed.

Lemma sweep_ok P Q a sh0 sw : lines_ok sh0 -> Forall (fun e => a <= ev_addr e) Q -> sweeping P Q a sh0 sw ->
  exists a' sw', sweep sfs Q sw = Ret sw' /\ sweeping (P ++ Q) [] a' sh0 sw'.
Proof using Hok.
  intros Hlines. revert P a sw. induction Q as [|e Q IH]; intros P a sw HQ Hsw; simpl.
  { exists a, sw. rewrite app_nil_r. done. }
  apply Forall_cons in HQ as [Hae HQ].
  assert (HQ' : Forall (fun e' => ev_addr e <= ev_addr e') Q).
  { pose proof (sg_sorted _ _ _ _ _ Hsw) as Hs. apply StronglySorted_app in Hs as (_&_&Hs). apply StronglySorted_inv in Hs as [_ Hs].
    eapply Forall_impl; [apply Hs|]. intros e' H. unfold by_keys, event_key in H. simpl in H. lia. }
  assert (Hsw' : sweeping P (e :: Q) (ev_addr e) sh0 sw) by (eapply sweeping_advance; [done|done|by constructor]).
  destruct (sweep_step P Q e sh0 sw Hlines Hsw') as (sw1&->&Hsw1). cbn [mbind outcome_bind].
  destruct (IH (P ++ [e]) (ev_addr e) sw1 HQ' Hsw1) as (a'&sw'&E&Hsw2). exists a', sw'. split; [done|]. by rewrite <- app_assoc in Hsw2.
Qed.

(** The sweep ends with everything closed, and covers what the input covers. *)
Lemma sweep_all evs lvs sh : lines_ok sh -> (forall l, lvl lvs l = []) -> evs ≡ₚ concat (map events_of rs) -> StronglySorted (by_keys event_key) evs ->
  exists a sw, sweep sfs evs (mkSweep [] lvs 0 sh) = Ret sw /\ stack sw = [] /\ lines_added sh (sw_shard sw) /\ sweep_inv sfs evs a sw /\
    forall l x, covered 0 (lvl (levels sw)) l x <-> input_covers rs l x.
Proof using Hok.
  intros Hlines Hclean Hperm Hs. set (a0 := match evs with e :: _ => ev_addr e | [] => 0 end).
  assert (Ha0 : Forall (fun e => a0 <= ev_addr e) evs).
  { unfold a0. destruct evs as [|e evs']; constructor; [lia|]. apply StronglySorted_inv in Hs as [_ Hs].
    eapply Forall_impl; [apply Hs|]. intros e' H. unfold by_keys, event_key in H. simpl in H. lia. }
  assert (Hstart : sweeping [] evs a0 sh (mkSweep [] lvs 0 sh)).
  { split; cbn [stack levels sw_num_levels sw_shard]; try done.
    - split; cbn [stack levels sw_num_levels]; try done; [simpl; lia|intros; lia|].
      split; intros l; intros; exfalso; repeat match goal with H : lvl lvs _ !! _ = _ |- _ => by rewrite Hclean in H end.
    - apply lines_added_refl.
    - intros l x Hx. split; [intros (i&sf&Hi&_); by rewrite Hclean in Hi|]. intros (r&Hr&_&Hb&_). exfalso.
      assert (Hin : mkEvent (in_begin r) (in_sf r) (Z.of_nat (in_level r) + 1) ∈ evs).
      { rewrite Hperm. apply list_elem_of_In, in_concat. exists (events_of r). split; [by apply in_map, list_elem_of_In|by left]. }
      pose proof (proj1 (Forall_forall _ _) Ha0 _ Hin) as H. simpl in H. lia. }
  destruct (sweep_ok [] evs a0 sh _ Hlines Ha0 Hstart) as (a&sw&->&Hsw). exists a, sw. split; [done|].
  pose proof Hsw as [Hp _ _ Hinv Hl _]. rewrite app_nil_l in *.
  assert (Hstack : stack sw = []).
  { destruct (exists_last' (stack sw)) as [|(st&[r c]&E)]; [done|]. exfalso.
    assert (El : last (stack sw) = Some (r, c)) by (rewrite E; apply last_snoc). apply (si_top _ _ _ _ Hinv _ _ El).
    rewrite last_lookup in El. destruct (si_stack _ _ _ _ Hinv _ _ _ El) as [-> _].
    apply (open_at_end sfs rs evs [] Hok Hp). done. }
  split; [done|]. split; [done|]. split; [done|]. intros l x.
  destruct (Z.le_gt_cases a (x + 1)) as [H|H].
  - pose proof (sweeping_advance evs [] a (x + 1) sh sw Hsw H ltac:(constructor)) as Hsw'.
    pose proof (sg_covered _ _ _ _ _ Hsw' l x ltac:(lia)) as Hc. rewrite Hstack in Hc. done.
  - pose proof (sg_covered _ _ _ _ _ Hsw l x ltac:(lia)) as Hc. rewrite Hstack in Hc. done.
Qed.
End Sweeping.

(** ** The tables of a function *)

(** Where the runs of the levels start, and where the last ends. *)
Fixpoint offsets {A} (base : nat) (ks : list (list A)) : list nat :=
  match ks with [] => [base] | k :: ks => base :: offsets (base + length k) ks end.
(** The levels of a function are [ks] in the tables of a shard. *)
Definition function_tree (s : SymbolsShard) (r : nat * nat) (ks : list (list Subfunction)) : Prop :=
  exists base rest, nat_slice (subfunction_levels s) r = Ret (offsets base ks) /\ drop base (subfunctions s) = concat ks ++ rest.
Abbreviation from sf := (addr_range sf).1.
Abbreviation upto sf := (addr_range sf).2.
(** Nested ranges: those of a level are sorted and apart, each within one of the
    level above. *)
Record tree_wf (ks : list (list Subfunction)) : Prop := {
  tw_nonempty : Forall (fun k => k <> []) ks;
  tw_range : forall l k i sf, ks !! l = Some k -> k !! i = Some sf -> from sf < upto sf;
  tw_sorted : forall l k i j sf sf', ks !! l = Some k -> (i < j)%nat -> k !! i = Some sf -> k !! j = Some sf' -> upto sf <= from sf';
  tw_nested : forall l k k' j sf, ks !! l = Some k -> ks !! S l = Some k' -> k' !! j = Some sf ->
    exists i sf', k !! i = Some sf' /\ from sf' <= from sf /\ upto sf <= upto sf'
}.
Definition tree_covers (ks : list (list Subfunction)) (l : nat) (x : Z) : Prop :=
  exists k i sf, ks !! l = Some k /\ k !! i = Some sf /\ from sf <= x < upto sf.

Lemma length_offsets {A} base (ks : list (list A)) : length (offsets base ks) = S (length ks).
Proof. revert base; induction ks as [|k ks IH]; intros base; simpl; [done|]. by rewrite IH. Qed.
Lemma offsets_lookup {A} base (ks : list (list A)) l k : ks !! l = Some k ->
  exists a, offsets base ks !! l = Some a /\ offsets base ks !! S l = Some (a + length k)%nat /\
    forall rest, take (length k) (drop (a - base) (concat ks ++ rest)) = k /\ (base <= a)%nat /\ (a - base + length k <= length (concat ks))%nat.
Proof.
  revert base l; induction ks as [|k0 ks IH]; intros base l Hl; [done|]. destruct l as [|l]; simpl in *.
  - injection Hl as ->. exists base. split; [done|]. split; [by destruct ks|]. intros rest. rewrite Nat.sub_diag, drop_0.
    rewrite <- app_assoc, take_app_length, length_app. split; [done|lia].
  - destruct (IH (base + length k0)%nat l Hl) as (a&E1&E2&H). exists a. split; [done|]. split; [done|]. intros rest. specialize (H rest).
    destruct H as (H&Hle&Hlen). replace (a - base)%nat with (length k0 + (a - (base + length k0)))%nat by lia.
    rewrite <- app_assoc, <- drop_drop, drop_app_length, length_app. split; [done|]. lia.
Qed.
