(* ===== verification/SubfunctionTree.v ===== *)
(** From the entries of a function in .debug_info to the lookups: the tables
    that finish_function writes hold a well-formed tree of inlined calls, and
    containing_subfunction_at_level finds the innermost one at an address. *)
From Stdlib Require Import ZArith Lia.
From stdpp Require Import base list sorting.
From S2P Require Import Prelude StdSort LineInfo Symbols Subfunctions SubfunctionsSpec.
Open Scope Z_scope.

(** ** Writing the tables *)

(** Equal up to the line of the call, which is repaired when it is missing. *)
Definition same_but_line (sf sf' : Subfunction) : Prop := with_call_line sf (call_line sf') = sf'.
Lemma same_fields sf sf' : same_but_line sf sf' -> addr_range sf' = addr_range sf /\ identity sf' = identity sf /\ callee_idx sf' = callee_idx sf /\ local_variables sf' = local_variables sf.
Proof. intros <-. done. Qed.

Lemma push_ranges_ok sh ranges : lines_ok sh -> exists k, push_ranges sh ranges = Ret (set_sym sh (fun s => set_subfunctions (subfunctions s ++ k) s)) /\
  Forall2 same_but_line ranges k.
Proof.
  revert sh; induction ranges as [|sf ranges IH]; intros sh Hok; cbn [push_ranges].
  { exists []. split; [|constructor]. destruct sh as [[]]. unfold set_sym, set_subfunctions. simpl. by rewrite app_nil_r. }
  destruct (fixup_returns sh (call_line sf) (from sf) Hok) as [l ->]. cbn [mbind outcome_bind].
  destruct (IH (set_sym sh (fun s => set_subfunctions (subfunctions s ++ [with_call_line sf l]) s)) Hok) as (k&->&Hk).
  exists (with_call_line sf l :: k). split; [|by constructor]. destruct sh as [[]]. unfold set_sym, set_subfunctions. simpl. by rewrite <- app_assoc.
Qed.

(** The shard with the levels [ks] added after the last boundary. *)
Definition add_levels (sh : SymbolsLoaderShard) (ks : list (list Subfunction)) : SymbolsLoaderShard :=
  set_sym sh (fun s => set_subfunction_levels (subfunction_levels s ++ tail (offsets (length (subfunctions s)) ks))
                         (set_subfunctions (subfunctions s ++ concat ks) s)).
Lemma tail_offsets {A} base (k : list A) ks : tail (offsets base (k :: ks)) = (base + length k)%nat :: tail (offsets (base + length k) ks).
Proof. by destruct ks. Qed.
Lemma push_levels_ok sh lvs n level : lines_ok sh -> (level + n <= length lvs)%nat ->
  exists ks lvs', push_levels sh lvs n level = Ret (add_levels sh ks, lvs') /\ Forall2 (Forall2 same_but_line) (map (lvl lvs) (seq level n)) ks /\
    length lvs' = length lvs /\ forall l, lvl lvs' l = if decide (level <= l < level + n)%nat then [] else lvl lvs l.
Proof.
  revert sh lvs level; induction n as [|n IH]; intros sh lvs level Hok Hlen; cbn [push_levels].
  { exists [], lvs. split; [|split; [constructor|split; [done|]]].
    - destruct sh as [[]]. unfold add_levels, set_sym, set_subfunctions, set_subfunction_levels. simpl. by rewrite !app_nil_r.
    - intros l. by rewrite decide_False by lia. }
  rewrite (lvl_lookup lvs level) by lia. cbn [lift_opt mbind outcome_bind].
  destruct (push_ranges_ok sh (lvl lvs level) Hok) as (k&->&Hk). cbn [mbind outcome_bind].
  set (sh1 := set_sym (set_sym sh _) push_level).
  destruct (IH sh1 (<[level := []]> lvs) (S level)) as (ks&lvs'&->&Hks&Hl&Hclean); [done|rewrite length_insert; lia|].
  exists (k :: ks), lvs'. rewrite length_insert in Hl.
  assert (Hother : forall l, l <> level -> lvl (<[level := []]> lvs) l = lvl lvs l) by (intros l Hne; unfold lvl; by rewrite list_lookup_insert_ne by done).
  split; [|split; [|split; [done|]]].
  - f_equal. f_equal. unfold sh1, add_levels. destruct sh as [[] ? ? ? ?]. unfold set_sym, set_subfunctions, set_subfunction_levels, push_level.
    cbn -[offsets tl]. rewrite tail_offsets, length_app, <- !app_assoc. done.
  - cbn [seq map]. constructor; [done|]. erewrite map_ext_in; [apply Hks|]. intros l Hin%in_seq. symmetry. apply Hother. lia.
  - intros l. rewrite Hclean. destruct (decide (l = level)) as [->|Hne].
    + rewrite decide_False, decide_True by lia. unfold lvl. by rewrite list_lookup_insert_eq by lia.
    + rewrite Hother by done. destruct (decide (S level <= l < S level + n)%nat); [by rewrite decide_True by lia|by rewrite decide_False by lia].
Qed.

(** ** The tree *)

Lemma same_lookup k k' j sf' : Forall2 same_but_line k k' -> k' !! j = Some sf' -> exists sf, k !! j = Some sf /\ same_but_line sf sf'.
Proof. intros H Hj. destruct (Forall2_lookup_r _ _ _ _ _ H Hj) as (sf&?&?). by exists sf. Qed.

Section Tree.
  Context (sfs : list (Subfunction * Z)) (evs : list SubfunctionEvent) (a : Z) (sw : Sweep) (ks : list (list Subfunction)).
  Hypothesis Hinv : sweep_inv sfs evs a sw.
  Hypothesis Hstack : stack sw = [].
  Hypothesis Hks : Forall2 (Forall2 same_but_line) (map (lvl (levels sw)) (seq 0 (sw_num_levels sw))) ks.

Lemma tree_length : length ks = sw_num_levels sw.
Proof using Hks. apply Forall2_length in Hks. by rewrite length_map, length_seq in Hks. Qed.
Lemma tree_level l k : ks !! l = Some k -> (l < sw_num_levels sw)%nat /\ Forall2 same_but_line (lvl (levels sw) l) k.
Proof using Hks.
  intros Hl. destruct (Forall2_lookup_r _ _ _ _ _ Hks Hl) as (k0&E&H). apply list_lookup_fmap_Some_1 in E as (l'&->&E).
  apply lookup_seq in E as [-> Hlt]. done.
Qed.
Lemma tree_element l k j sf : ks !! l = Some k -> k !! j = Some sf -> exists sf0, lvl (levels sw) l !! j = Some sf0 /\ same_but_line sf0 sf.
Proof using Hks. intros Hl Hj. destruct (tree_level l k Hl) as [_ H]. by eapply same_lookup. Qed.
Lemma nothing_open l i : ~ is_open (length (stack sw)) (lvl (levels sw)) l i.
Proof using Hstack. rewrite Hstack. unfold is_open. simpl. lia. Qed.

Lemma tree_is_wf : tree_wf ks.
Proof using Hinv Hstack Hks.
  pose proof (si_ranges _ _ _ _ Hinv) as Hr. split.
  - apply Forall_lookup. intros l k Hl ->. destruct (tree_level l [] Hl) as [Hlt H]. apply Forall2_nil_inv_r in H. by apply (si_nonempty _ _ _ _ Hinv l).
  - intros l k i sf Hl Hi. destruct (tree_element l k i sf Hl Hi) as (sf0&E&(->&_)%same_fields). apply (ri_closed _ _ _ _ _ Hr l i sf0 E), nothing_open.
  - intros l k i j sf sf' Hl Hij Hi Hj. destruct (tree_element l k i sf Hl Hi) as (sf0&E&(->&_)%same_fields).
    destruct (tree_element l k j sf' Hl Hj) as (sf1&E'&(->&_)%same_fields). by eapply (ri_sorted _ _ _ _ _ Hr).
  - intros l k k' j sf Hl Hl' Hj. destruct (tree_element (S l) k' j sf Hl' Hj) as (sf0&E&(->&_)%same_fields).
    destruct (ri_nested _ _ _ _ _ Hr l j sf0 E) as (i&sf1&Hi&Hfrom&[Ho|[_ Hup]]); [by apply nothing_open in Ho|].
    destruct (tree_level l k Hl) as [_ Hlk]. destruct (Forall2_lookup_l _ _ _ _ _ Hlk Hi) as (sf1'&Hi'&(E1&_)%same_fields).
    exists i, sf1'. by rewrite E1.
Qed.
Lemma tree_covered l x : tree_covers ks l x <-> covered 0 (lvl (levels sw)) l x.
Proof using Hinv Hks.
  split.
  - intros (k&i&sf&Hl&Hi&Hx). destruct (tree_element l k i sf Hl Hi) as (sf0&E&(E1&_)%same_fields). rewrite E1 in Hx. exists i, sf0. split; [done|]. split; [lia|]. right. lia.
  - intros (i&sf&Hi&Hfrom&[[? _]|Hup]); [lia|]. destruct (decide (l < sw_num_levels sw)%nat) as [Hl|Hl]; [|by rewrite (si_clean _ _ _ _ Hinv l) in Hi by lia].
    destruct (lookup_lt_is_Some_2 ks l) as [k Hk]; [by rewrite tree_length|]. destruct (tree_level l k Hk) as [_ H].
    destruct (Forall2_lookup_l _ _ _ _ _ H Hi) as (sf'&Hi'&(E1&_)%same_fields). exists k, i, sf'. rewrite E1. split; [done|]. split; [done|]. lia.
Qed.
End Tree.

(** ** The end of a function *)

Definition temp_clean (lvs : list (list Subfunction)) : Prop := forall l, lvl lvs l = [].
(** A range of the tree is for a call of the input, or for a caller of one. *)
Definition tree_from (f : FunctionStackEntry) (rs : list InRange) (ks : list (list Subfunction)) : Prop :=
  forall l k i sf, ks !! l = Some k -> k !! i = Some sf -> exists r sf0, r ∈ rs /\ (l <= in_level r)%nat /\ in_begin r = from sf /\
    ancestor (fn_subfunctions f) (in_level r - l) (in_sf r) = Some sf0 /\ identity sf = identity sf0 /\ callee_idx sf = callee_idx sf0 /\ local_variables sf = local_variables sf0.
(** What [finish_function] does to the shard. *)
Definition same_other_tables (s s' : SymbolsShard) : Prop :=
  line_to_addr s' = line_to_addr s /\ local_variables_table s' = local_variables_table s /\ mangled_name_to_function s' = mangled_name_to_function s /\
  (exists ls, addr_to_line s' = addr_to_line s ++ ls) /\ (exists k, subfunctions s' = subfunctions s ++ k) /\ (exists k, subfunction_levels s' = subfunction_levels s ++ k).

Lemma event_range rs e L : e ∈ concat (map events_of rs) -> signed_level e = Z.of_nat L + 1 ->
  exists r, r ∈ rs /\ in_level r = L /\ in_begin r = ev_addr e /\ in_sf r = subfunction_idx e.
Proof.
  intros Hin He. apply list_elem_of_In, in_concat in Hin as (es&Hes&Hin). apply in_map_iff in Hes as (r&<-&Hr). apply list_elem_of_In in Hr.
  exists r. destruct Hin as [<-|[<-|[]]]; cbn [signed_level ev_addr subfunction_idx] in *; split_and!; done || lia.
Qed.

Lemma offsets_split {A} base (ks : list (list A)) : offsets base ks = base :: tail (offsets base ks).
Proof. by destruct ks. Qed.
(** The levels written after the last boundary are a slice of the table. *)
Lemma add_levels_tree sh ks : last (subfunction_levels (sym sh)) = Some (length (subfunctions (sym sh))) ->
  let r := ((length (subfunction_levels (sym sh)) - 1)%nat, length (subfunction_levels (sym (add_levels sh ks)))) in
  function_tree (sym (add_levels sh ks)) r ks /\ (r.2 - r.1 = length ks + 1)%nat.
Proof.
  intros Hlast r. destruct (exists_last' (subfunction_levels (sym sh))) as [E|(L&b&E)]; [by rewrite E in Hlast|].
  rewrite E, last_snoc in Hlast. injection Hlast as ->. set (base := length (subfunctions (sym sh))) in *.
  assert (Ha : subfunction_levels (sym (add_levels sh ks)) = L ++ offsets base ks).
  { destruct sh as [[] ? ? ? ?]. unfold add_levels, base. simpl in *. rewrite E, <- app_assoc. f_equal. by rewrite (offsets_split _ ks) at 2. }
  assert (Hb : subfunctions (sym (add_levels sh ks)) = subfunctions (sym sh) ++ concat ks) by (by destruct sh as [[] ? ? ? ?]).
  unfold r. rewrite Ha, E, !length_app, length_offsets. cbn [fst snd length]. split; [|lia].
  exists base, []. rewrite Ha, Hb, app_nil_r. split; [|unfold base; by rewrite drop_app_length].
  unfold nat_slice. cbn [fst snd]. rewrite !(proj2 (Nat.leb_le _ _)) by (rewrite ?length_app, ?length_offsets; lia). cbn [andb].
  replace (length L + 1 - 1)%nat with (length L) by lia. rewrite drop_app_length, take_ge by (rewrite length_offsets; lia). done.
Qed.
Definition ensure_boundary (sh : SymbolsLoaderShard) : SymbolsLoaderShard :=
  if bool_decide (last (subfunction_levels (sym sh)) = Some (length (subfunctions (sym sh)))) then sh else set_sym sh push_level.
Lemma ensure_boundary_ok sh : last (subfunction_levels (sym (ensure_boundary sh))) = Some (length (subfunctions (sym (ensure_boundary sh)))).
Proof. unfold ensure_boundary. case_bool_decide; [done|]. destruct sh as [[] ? ? ? ?]. simpl. by rewrite last_snoc. Qed.

Section Finish.
  Context `{!SliceSort (by_keys event_key)}.

Lemma finish_function_ok ld f fs rs fi : function_stack ld = f :: fs -> entry_ok f rs -> rs <> [] -> lines_ok (shard ld) ->
  temp_clean (temp_levels ld) -> shard_functions (shard ld) !! fn_function f = Some fi ->
  exists sh lvs ks r, finish_function ld = Ret (mkDwarfLoader fs (subfunction_stack ld) sh lvs) /\
    temp_clean lvs /\ same_other_tables (sym (shard ld)) (sym sh) /\
    addr_to_line_len_after_debug_line sh = addr_to_line_len_after_debug_line (shard ld) /\
    shard_functions sh = <[fn_function f := set_levels_range r fi]> (shard_functions (shard ld)) /\
    function_tree (sym sh) r ks /\ tree_wf ks /\ tree_from f rs ks /\ ks <> [] /\ forall l x, tree_covers ks l x <-> input_covers rs l x.
Proof using Type.
  intros Hst [Hev Hok] Hne Hlines Hclean Hfi. unfold finish_function. rewrite Hst.
  assert (Hev' : subfunction_events f <> []) by (rewrite Hev; destruct rs; [done|discriminate]).
  set (evs := slice_sort (by_keys event_key) (subfunction_events f)).
  destruct (sweep_all (fn_subfunctions f) rs Hok evs (temp_levels ld) (shard ld) Hlines Hclean) as (a&sw&Hsw&Hstack&Hadd&Hinv&Hcov).
  { unfold evs. by rewrite slice_sort_perm, Hev. } { apply slice_sort_sorted. }
  destruct (subfunction_events f) as [|e0 es0] eqn:Eevs; [done|]. fold evs. rewrite Hsw. cbn [mbind outcome_bind]. rewrite Hstack. cbn [rassert mbind outcome_bind].
  fold (ensure_boundary (sw_shard sw)). set (sh1 := ensure_boundary (sw_shard sw)).
  assert (Hlines1 : lines_ok sh1).
  { unfold sh1, ensure_boundary. apply (lines_added_ok _ _ Hadd) in Hlines. by case_bool_decide. }
  destruct (si_levels _ _ _ _ Hinv) as [_ Hnum].
  destruct (push_levels_ok sh1 (levels sw) (sw_num_levels sw) 0 Hlines1 Hnum) as (ks&lvs&->&Hks&Hlv&Hclear). cbn [mbind outcome_bind fst snd].
  destruct (add_levels_tree sh1 ks (ensure_boundary_ok _)) as [Htree Hlen]. cbn [fst snd] in Hlen.
  pose proof (tree_length sw ks Hks) as Hlks. rewrite Hlen, Hlks, Nat.eqb_refl. cbn [rassert mbind outcome_bind].
  assert (Hfs : shard_functions (add_levels sh1 ks) = shard_functions (shard ld)).
  { unfold sh1, ensure_boundary. destruct Hadd as [k ->]. by case_bool_decide. }
  rewrite Hfs, Hfi. cbn [lift_opt mbind outcome_bind]. eexists _, lvs, ks, _. split; [reflexivity|].
  split; [|split; [|split; [|split; [reflexivity|split; [exact Htree|split; [|split; [|split]]]]]]].
  - intros l. rewrite Hclear. case_decide as H; [done|]. apply (si_clean _ _ _ _ Hinv). lia.
  - unfold sh1, ensure_boundary. destruct Hadd as [k ->]. case_bool_decide; unfold same_other_tables; simpl; split_and!; try done; try (by eexists).
    rewrite <- app_assoc. by eexists.
  - unfold sh1, ensure_boundary. destruct Hadd as [k ->]. by case_bool_decide.
  - by eapply tree_is_wf.
  - intros l k i sf Hl Hi. destruct (tree_element sw ks Hks l k i sf Hl Hi) as (sf0&E&Hsame).
    destruct (ri_from _ _ _ _ _ (si_ranges _ _ _ _ Hinv) l i sf0 E) as (e&L&s&He&Hs&HL&Hfrom&Hanc&E0).
    unfold evs in He. rewrite slice_sort_perm, Hev in He. destruct (event_range rs e L He Hs) as (r&Hr&<-&Hb&Hsf).
    destruct (same_fields _ _ Hsame) as (E1&E2&E3&E4). exists r, s. rewrite E1, E2, E3, E4, Hb, Hsf, E0. by split_and!.
  - intros ->. destruct rs as [|r rs']; [done|].
    apply Forall_cons in Hok as [(Hr&_) _]. 
    assert (Hc : input_covers (r :: rs') 0 (in_begin r)) by (exists r; split; [apply list_elem_of_here|lia]).
    apply Hcov in Hc as (i&sf&Hi&_). rewrite (si_clean _ _ _ _ Hinv 0) in Hi by (rewrite <- Hlks; simpl; lia). done.
  - intros l x. by rewrite (tree_covered (fn_subfunctions f) evs a sw ks Hinv Hks).
Qed.
End Finish.

(** ** Lookups in the tree *)

(** The search in one level: sorted ranges that do not overlap. *)
Lemma search_level (k : list Subfunction) addr :
  (forall i sf, k !! i = Some sf -> from sf < upto sf) ->
  (forall i j sf sf', (i < j)%nat -> k !! i = Some sf -> k !! j = Some sf' -> upto sf <= from sf') ->
  let i := partition_point (fun r => upto r <=? addr) k in
  forall j sf, k !! j = Some sf -> from sf <= addr < upto sf <-> (j = i /\ from sf <= addr).
Proof.
  intros Hr Hs i j sf Hj. split.
  - intros Hx. split; [|lia]. destruct (lt_eq_lt_dec j i) as [[Hlt| ->]|Hgt]; [|done|]; exfalso.
    + pose proof (partition_point_before _ _ _ _ Hlt Hj) as H. lia.
    + destruct (lookup_lt_is_Some_2 k i) as [sf' Hi]; [apply lookup_lt_Some in Hj; lia|]. pose proof (partition_point_at _ _ _ Hi) as H.
      pose proof (Hs i j sf' sf Hgt Hi Hj). pose proof (Hr i sf' Hi). lia.
  - intros [-> Hx]. split; [done|]. pose proof (partition_point_at _ _ _ Hj). lia.
Qed.

Section Lookup.
  Context (sh : SymbolsShard) (r : nat * nat) (ks : list (list Subfunction)).
  Hypothesis Htree : function_tree sh r ks.
  Hypothesis Hwf : tree_wf ks.

Lemma tree_levels : exists levels, nat_slice (subfunction_levels sh) r = Ret levels /\ length levels = S (length ks) /\ (r.2 - r.1 - 1 = length ks)%nat /\
  forall l k, ks !! l = Some k -> exists a, levels !! l = Some a /\ levels !! S l = Some (a + length k)%nat /\
    nat_slice (subfunctions sh) (a, (a + length k)%nat) = Ret k /\ forall i, (i < length k)%nat -> subfunctions sh !! (a + i)%nat = k !! i.
Proof using Htree Hwf.
  destruct Htree as (base&rest&Hlev&Hdrop). exists (offsets base ks). split; [done|]. rewrite length_offsets. split; [done|]. split.
  - unfold nat_slice in Hlev. destruct (_ && _) eqn:E; [|done]. injection Hlev as Hlev. apply (f_equal length) in Hlev.
    rewrite length_take, length_drop, length_offsets in Hlev. apply andb_true_iff in E as [_ E%Nat.leb_le]. lia.
  - intros l k Hl. destruct (offsets_lookup base ks l k Hl) as (a&E1&E2&H). destruct (H rest) as (Htake&Hle&Hlen).
    exists a. split; [done|]. split; [done|]. apply (f_equal length) in Hdrop as Hdl. rewrite length_drop, length_app in Hdl.
    assert (Hk : k <> []) by (apply (proj1 (Forall_lookup _ _) (tw_nonempty _ Hwf) l k Hl)).
    assert (Hkl : (0 < length k)%nat) by (destruct k; [done|simpl; lia]).
    assert (Ed : drop a (subfunctions sh) = drop (a - base) (concat ks ++ rest)).
    { rewrite <- Hdrop, drop_drop. f_equal. lia. }
    split.
    + unfold nat_slice. cbn [fst snd]. rewrite (proj2 (Nat.leb_le _ _)) by lia. rewrite (proj2 (Nat.leb_le _ _)) by lia. cbn [andb].
      rewrite Ed. replace (a + length k - a)%nat with (length k) by lia. by rewrite Htake.
    + intros i Hi. rewrite <- lookup_drop, Ed. rewrite <- (lookup_take_lt _ (length k)) by done. by rewrite Htake.
Qed.

(** A subfunction of level [l] that covers an address, at its index. *)
Definition found (l : nat) (idx : nat) (addr : Z) : Prop :=
  exists k i sf, ks !! l = Some k /\ k !! i = Some sf /\ subfunctions sh !! idx = Some sf /\ from sf <= addr < upto sf.
Lemma containing_loop_ok levels n level addr res : nat_slice (subfunction_levels sh) r = Ret levels -> (level + n <= length ks)%nat ->
  exists m out, containing_loop n level addr sh levels res = Ret out /\ (m <= n)%nat /\ (m < n -> ~ tree_covers ks (level + m) addr)%nat /\
    (forall l, (level <= l < level + m)%nat -> tree_covers ks l addr) /\
    match m with O => out = res | S m => exists idx, out = Some (idx, (level + m)%nat) /\ found (level + m) idx addr end.
Proof using Htree Hwf.
  intros Hlev. destruct tree_levels as (levels'&Hlev'&_&_&Hl). rewrite Hlev in Hlev'. injection Hlev' as <-.
  revert level res. induction n as [|n IH]; intros level res Hn; cbn [containing_loop].
  { exists O, res. split; [done|]. split; [lia|]. split; [lia|]. split; [lia|done]. }
  destruct (lookup_lt_is_Some_2 ks level) as [k Hk]; [lia|]. destruct (Hl level k Hk) as (a&->&->&Hs&Hidx). cbn [lift_opt mbind outcome_bind]. rewrite Hs. cbn [mbind outcome_bind].
  set (i := partition_point _ k).
  assert (Hsearch := search_level k addr (fun i sf => tw_range _ Hwf level k i sf Hk) (fun i j sf sf' => tw_sorted _ Hwf level k i j sf sf' Hk)). fold i in Hsearch. cbv zeta in Hsearch.
  assert (Hnone : (forall sf, k !! i = Some sf -> addr < from sf) -> ~ tree_covers ks (level + 0) addr).
  { intros H (k'&j&sf&Hk'&Hj&Hx). rewrite Nat.add_0_r, Hk in Hk'. injection Hk' as <-. apply (Hsearch j sf Hj) in Hx as [-> Hx]. specialize (H sf Hj). lia. }
  destruct (k !! i) as [sf|] eqn:Ei.
  2: { exists O, res. split; [done|]. split; [lia|]. split; [intros _; by apply Hnone|]. split; [lia|done]. }
  destruct (Z.ltb_spec addr (from sf)) as [Hlt|Hge].
  { exists O, res. split; [done|]. split; [lia|]. split; [intros _; apply Hnone; by intros sf0 [= <-]|]. split; [lia|done]. }
  assert (Hx : from sf <= addr < upto sf) by (apply (Hsearch i sf Ei); done).
  assert (Hfound : found level (a + i) addr).
  { exists k, i, sf. rewrite Hidx by (by eapply lookup_lt_Some). done. }
  destruct (IH (S level) (Some ((a + i)%nat, level))) as (m&out&->&Hm&Hstop&Hcov&Hout); [lia|].
  exists (S m), out. split; [done|]. split; [lia|]. split; [intros H; replace (level + S m)%nat with (S level + m)%nat by lia; apply Hstop; lia|]. split.
  - intros l Hll. destruct (decide (l = level)) as [->|]; [by exists k, i, sf|]. apply Hcov. lia.
  - destruct m as [|m]; [exists (a + i)%nat; rewrite Nat.add_0_r; done|]. destruct Hout as (idx&->&Hf). exists idx.
    replace (level + S m)%nat with (S level + m)%nat by lia. done.
Qed.
Lemma covers_below l x : tree_covers ks (S l) x -> tree_covers ks l x.
Proof using Hwf.
  intros (k'&j&sf&Hl&Hj&Hx). destruct (lookup_lt_is_Some_2 ks l) as [k Hk]; [apply lookup_lt_Some in Hl; lia|].
  destruct (tw_nested _ Hwf l k k' j sf Hk Hl Hj) as (i&sf'&Hi&?&?). exists k, i, sf'. split; [done|]. split; [done|]. lia.
Qed.
Lemma covers_upto l l' x : (l <= l')%nat -> tree_covers ks l' x -> tree_covers ks l x.
Proof using Hwf. induction 1 as [|l' _ IH]; [done|]. intros H. apply IH. by apply covers_below. Qed.

(** The innermost call at an address. *)
Lemma innermost_ok s f addr : shards s !! shard_idx f = Some sh -> levels_range f = r ->
  exists out, containing_subfunction_at_level s addr SUBFUNCTION_LEVEL_MAX f = Ret out /\
    match out with
    | None => forall l, ~ tree_covers ks l addr
    | Some (idx, level) => found level idx addr /\ forall l, tree_covers ks l addr <-> (l <= level)%nat
    end.
Proof using Htree Hwf.
  intros Hsh Hr. destruct tree_levels as (levels&Hlev&Hlen&Hnum&_). unfold containing_subfunction_at_level. rewrite Hsh, Hr, Z.leb_refl. cbn [lift_opt mbind outcome_bind]. rewrite Hlev. cbn [mbind outcome_bind].
  unfold num_levels. rewrite Hr, Hnum. destruct (containing_loop_ok levels (length ks) 0 addr None Hlev) as (m&out&->&Hm&Hstop&Hcov&Hout); [lia|].
  exists out. split; [done|].
  assert (Hbeyond : forall l, (m <= l)%nat -> ~ tree_covers ks l addr).
  { intros l Hl H. destruct (decide (m < length ks)%nat) as [Hlt|Hge]; [apply (Hstop Hlt); by apply (covers_upto (0 + m) l)|].
    destruct H as (k&_&_&Hk&_). apply lookup_lt_Some in Hk. lia. }
  destruct m as [|m]; [subst out; intros l; apply Hbeyond; lia|]. destruct Hout as (idx&->&Hf). split; [done|].
  intros l. split; [intros H; destruct (decide (l <= m)%nat) as [|Hl]; [done|exfalso; apply (Hbeyond l); [lia|done]]|]. intros Hl. apply Hcov. lia.
Qed.
(** The range of a level at an address, and the caller of a call. *)
Lemma at_level_ok s f addr level : shards s !! shard_idx f = Some sh -> levels_range f = r -> (level < length ks)%nat -> Z.of_nat level < SUBFUNCTION_LEVEL_MAX ->
  exists out, containing_subfunction_at_level s addr (Z.of_nat level) f = Ret out /\
    match out with None => ~ tree_covers ks level addr | Some (idx, level') => level' = level /\ found level idx addr end.
Proof using Htree Hwf.
  intros Hsh Hr Hl Hmax. destruct tree_levels as (levels&Hlev&Hlen&_&_). unfold containing_subfunction_at_level. rewrite Hsh, Hr. cbn [lift_opt mbind outcome_bind]. rewrite Hlev. cbn [mbind outcome_bind].
  rewrite (proj2 (Z.leb_gt _ _)) by done. rewrite Nat2Z.id, (proj2 (Nat.ltb_lt (level + 1) _)) by lia. cbn [rassert mbind outcome_bind].
  destruct (containing_loop_ok levels 1 level addr None Hlev) as (m&out&->&Hm&Hstop&Hcov&Hout); [lia|]. exists out. split; [done|].
  destruct m as [|[|m]]; [|destruct Hout as (idx&->&Hf); rewrite Nat.add_0_r in *; done|lia]. subst out. rewrite Nat.add_0_r in Hstop. apply Hstop. lia.
Qed.

(** The caller [to] levels down contains the call. *)
Lemma nested_in l to k j sf : (to <= l)%nat -> ks !! l = Some k -> k !! j = Some sf ->
  exists k' i sf', ks !! to = Some k' /\ k' !! i = Some sf' /\ from sf' <= from sf /\ upto sf <= upto sf'.
Proof using Hwf.
  intros Hle. revert k j sf. induction Hle as [|l Hle IH]; intros k j sf Hk Hj; [exists k, j, sf; split_and!; done || lia|].
  destruct (lookup_lt_is_Some_2 ks l) as [k0 Hk0]; [apply lookup_lt_Some in Hk; lia|].
  destruct (tw_nested _ Hwf l k0 k j sf Hk0 Hk Hj) as (i&sf0&Hi&?&?). destruct (IH k0 i sf0 Hk0 Hi) as (k'&i'&sf'&?&?&?&?).
  exists k', i', sf'. split_and!; done || lia.
Qed.
Lemma ancestor_ok s f l to idx addr : shards s !! shard_idx f = Some sh -> levels_range f = r -> found l idx addr -> (to < l)%nat -> Z.of_nat l < SUBFUNCTION_LEVEL_MAX ->
  exists idx' sf sf', subfunction_ancestor_at_level s idx (Z.of_nat l) (Z.of_nat to) f = Ret (idx', Z.of_nat to) /\
    subfunctions sh !! idx = Some sf /\ subfunctions sh !! idx' = Some sf' /\ from sf' <= from sf /\ upto sf <= upto sf'.
Proof using Htree Hwf.
  intros Hsh Hr (k&j&sf&Hk&Hj&Hidx&Hx) Hto Hmax. unfold subfunction_ancestor_at_level. rewrite (proj2 (Z.leb_gt _ _)) by lia.
  rewrite Hsh. cbn [lift_opt mbind outcome_bind]. rewrite Hidx. cbn [lift_opt mbind outcome_bind].
  destruct (at_level_ok s f (from sf) to Hsh Hr) as (out&->&Hout); [apply lookup_lt_Some in Hk; lia|lia|]. cbn [mbind outcome_bind].
  destruct (nested_in l to k j sf ltac:(lia) Hk Hj) as (k'&i&sf'&Hk'&Hi&Hfrom&Hup). pose proof (tw_range _ Hwf l k j sf Hk Hj) as Hne.
  destruct out as [[idx' level']|]; [|destruct Hout; exists k', i, sf'; split_and!; done || lia]. destruct Hout as [-> (k0&i0&sf0&Hk0&Hi0&Hidx0&Hx0)].
  cbn [lift_opt mbind outcome_bind fst]. rewrite Hk' in Hk0. injection Hk0 as <-.
  assert (Hsearch := search_level k' (from sf) (fun i sf => tw_range _ Hwf to k' i sf Hk') (fun i j sf sf' => tw_sorted _ Hwf to k' i j sf sf' Hk')). cbv zeta in Hsearch.
  destruct (proj1 (Hsearch i sf' Hi)) as [-> _]; [lia|]. destruct (proj1 (Hsearch i0 sf0 Hi0)) as [-> _]; [lia|].
  rewrite Hi in Hi0. injection Hi0 as <-.
  exists idx', sf, sf'. done.
Qed.
End Lookup.

(** A tree stays where it is when tables grow. *)
Definition tables_grow (s s' : SymbolsShard) : Prop :=
  (exists k, subfunctions s' = subfunctions s ++ k) /\ (exists k, subfunction_levels s' = subfunction_levels s ++ k).
Lemma function_tree_grows s s' r ks : tables_grow s s' -> concat ks <> [] -> function_tree s r ks -> function_tree s' r ks.
Proof.
  intros [[k1 E1] [k2 E2]] Hne (base&rest&Hlev&Hdrop). exists base, (rest ++ k1).
  assert (Hb : (base < length (subfunctions s))%nat).
  { apply (f_equal length) in Hdrop. rewrite length_drop, length_app in Hdrop. destruct (concat ks); [done|]. simpl in Hdrop. lia. }
  split.
  - revert Hlev. unfold nat_slice. destruct (_ && _) eqn:E; [|done]. apply andb_true_iff in E as [H1 H2%Nat.leb_le].
    rewrite E2, H1, (proj2 (Nat.leb_le _ _)) by (rewrite length_app; lia). cbn [andb]. intros <-. f_equal.
    apply Nat.leb_le in H1. rewrite drop_app_le by lia. rewrite take_app_le; [done|]. rewrite length_drop. lia.
  - rewrite E1, drop_app_le by lia. by rewrite Hdrop, app_assoc.
Qed.

(** ** Reading a function *)

Section Reading.
  Context `{!SliceSort (by_key (fun r : Z * Z => r.1))} `{!SliceSort (by_keys event_key)}.
Definition nonempty_ranges (ranges : list (Z * Z)) : Prop := Forall (fun r => r.1 < r.2) ranges.
Definition in_ranges (sf : Z) (level : nat) (ranges : list (Z * Z)) : list InRange := map (fun r => mkIn sf level r.1 r.2) ranges.
(** A loader between functions, or outside of any. *)
Definition loader_ok (ld : DwarfLoader) : Prop := lines_ok (shard ld) /\ temp_clean (temp_levels ld).

(** The loader is inside a function, [depth] calls deep (counting the function),
    and has read the ranges [rs] of it. *)
Inductive reads : DwarfLoader -> nat -> list InRange -> Prop :=
  | reads_begin f decl ranges ld ld' : loader_ok ld -> nonempty_ranges ranges -> ranges <> [] ->
      begin_function f decl ranges ld = Ret ld' -> reads ld' 1 (in_ranges 0 0 (slice_sort (by_key (fun r : Z * Z => r.1)) ranges))
  | reads_inlined callee line pc ranges ld ld' d rs sf_idx : reads ld (S d) rs -> nonempty_ranges ranges ->
      begin_inlined callee line pc ranges ld = Ret (true, ld') ->
      (match function_stack ld with f :: _ => sf_idx = zlen (fn_subfunctions f) | [] => False end) ->
      reads ld' (S (S d)) (rs ++ in_ranges sf_idx (S d) ranges)
  | reads_left_out callee line pc ranges ld ld' d rs : reads ld (S d) rs ->
      begin_inlined callee line pc ranges ld = Ret (false, ld') -> reads ld' (S d) rs
  | reads_end ld ld' d rs : reads ld (S d) rs -> finish_subfunction ld = Ret ld' -> reads ld' d rs.

(** The open calls, innermost first, are at the depths [d - 1] down to 0. *)
Fixpoint open_calls (sfs : list (Subfunction * Z)) (d : nat) (entries : list SubfunctionStackEntry) : Prop :=
  match d with
  | O => True
  | S d => match entries with
           | e :: entries => se_level e = Z.of_nat d /\ at_depth sfs d (se_subfunction_idx e) /\ open_calls sfs d entries
           | [] => False
           end
  end.
Definition reading_inv (ld : DwarfLoader) (d : nat) (rs : list InRange) : Prop :=
  exists f fs, function_stack ld = f :: fs /\ entry_ok f rs /\ rs <> [] /\ open_calls (fn_subfunctions f) d (subfunction_stack ld) /\
    loader_ok ld /\ is_Some (shard_functions (shard ld) !! fn_function f).

(** Parents are kept when subfunctions are added or changed. *)
Definition keeps_parents (sfs sfs' : list (Subfunction * Z)) : Prop :=
  forall i sf p, zget sfs i = Some (sf, p) -> exists sf', zget sfs' i = Some (sf', p).
Lemma at_depth_keeps sfs sfs' d i : keeps_parents sfs sfs' -> at_depth sfs d i -> at_depth sfs' d i.
Proof.
  intros Hk. induction 1 as [i sf p Hg|d i sf p Hg _ IH]; destruct (Hk _ _ _ Hg) as [sf' Hg']; [by econstructor|by econstructor].
Qed.
Lemma open_calls_keeps sfs sfs' d entries : keeps_parents sfs sfs' -> open_calls sfs d entries -> open_calls sfs' d entries.
Proof.
  intros Hk. revert entries; induction d as [|d IH]; intros [|e entries]; simpl; try done. intros (?&?&?). split; [done|]. split; [by eapply at_depth_keeps|auto].
Qed.
Lemma range_ok_keeps sfs sfs' rs : keeps_parents sfs sfs' -> Forall (range_ok sfs) rs -> Forall (range_ok sfs') rs.
Proof. intros Hk H. eapply Forall_impl; [apply H|]. intros r (?&?&?). split; [done|]. split; [by eapply at_depth_keeps|done]. Qed.
Lemma keeps_snoc sfs x : keeps_parents sfs (sfs ++ [x]).
Proof. intros i sf p Hg. exists sf. rewrite zget_app. assert (0 <= i < zlen sfs) by (apply zget_range; by eexists). by rewrite (proj2 (Z.ltb_lt _ _)) by lia. Qed.

Lemma in_ranges_events sf level ranges : range_events sf (Z.of_nat level) ranges = concat (map events_of (in_ranges sf level ranges)).
Proof. unfold range_events, in_ranges. rewrite map_map. done. Qed.
Lemma in_ranges_ok sfs sf level ranges : nonempty_ranges ranges -> at_depth sfs level sf -> Z.of_nat level < SUBFUNCTION_LEVEL_MAX ->
  Forall (range_ok sfs) (in_ranges sf level ranges).
Proof.
  intros Hne Hd Hl. apply Forall_forall. intros r Hr. apply list_elem_of_In, in_map_iff in Hr as (p&<-&Hp). split; [|done]. simpl.
  apply (proj1 (Forall_forall _ _) Hne p). by apply list_elem_of_In.
Qed.

Lemma begin_function_ok fi decl ranges ld : loader_ok ld -> nonempty_ranges ranges -> ranges <> [] ->
  exists ld', begin_function fi decl ranges ld = Ret ld' /\ reading_inv ld' 1 (in_ranges 0 0 (slice_sort (by_key (fun r : Z * Z => r.1)) ranges)).
Proof using Type.
  intros [Hlines Hclean] Hne Hnil. unfold begin_function. set (rs := slice_sort _ ranges).
  assert (Hrs : rs ≡ₚ ranges) by apply slice_sort_perm.
  assert (Hlen : rs <> []) by (intros E; rewrite E in Hrs; apply Permutation_nil_l in Hrs; done).
  assert (Hlink : forall i l, exists fs, link_functions fi i rs l = Ret fs /\ length fs = length l).
  { intros i l. revert i; induction l as [|r l IH]; intros i; cbn [link_functions]; [by exists []|].
    assert (Hl0 : length rs <> 0%nat) by (intros ?%length_zero_iff_nil; done).
    destruct (lookup_lt_is_Some_2 rs ((i + length rs - 1) mod length rs)) as [p ->]; [by apply Nat.mod_upper_bound|]. cbn [lift_opt mbind outcome_bind].
    destruct (IH (S i)) as (fs&->&Hl). cbn [mbind outcome_bind]. eexists. split; [reflexivity|]. simpl. by rewrite Hl. }
  destruct (Hlink 0%nat rs) as (fs&->&Hl). cbn [mbind outcome_bind]. eexists. split; [reflexivity|].
  eexists _, _. split; [reflexivity|]. assert (Hd : at_depth [(mkSf (die fi) (pack_range (0, 0)) decl (0, 0) 0, U32_MAX)] 0 0) by (by eapply depth_root).
  cbn [fn_subfunctions subfunction_stack subfunction_events]. split_and!.
  - split; [apply (in_ranges_events 0 0)|]. apply in_ranges_ok; [|done|unfold SUBFUNCTION_LEVEL_MAX; lia]. unfold nonempty_ranges. by rewrite Hrs.
  - unfold in_ranges. by destruct rs.
  - done.
  - done.
  - cbn [shard shard_functions fn_function]. apply lookup_lt_is_Some. rewrite length_app, Hl. destruct rs; [done|simpl; lia].
Qed.

Lemma begin_inlined_ok callee line pc ranges ld d rs : reading_inv ld (S d) rs -> nonempty_ranges ranges ->
  exists b ld', begin_inlined callee line pc ranges ld = Ret (b, ld') /\
    if b then forall f fs, function_stack ld = f :: fs -> reading_inv ld' (S (S d)) (rs ++ in_ranges (zlen (fn_subfunctions f)) (S d) ranges) else ld' = ld.
Proof using Type.
  intros (f&fs&Hf&[Hev Hok]&Hne&Hopen&[Hlines Hclean]&Hfn) Hr. unfold begin_inlined. rewrite Hf.
  destruct (subfunction_stack ld) as [|parent entries] eqn:Es; [done|]. pose proof Hopen as (Hlev&Hd&Hrest). rewrite Hlev.
  destruct (_ <=? zlen _); [by exists false, ld|]. destruct (Z.leb_spec SUBFUNCTION_LEVEL_MAX (Z.of_nat d + 1)) as [|Hmax]; [by exists false, ld|].
  set (shm := if _ && _ then _ else _). assert (Hsh : exists sh, shm = Ret sh /\ lines_ok sh /\ shard_functions sh = shard_functions (shard ld)).
  { unfold shm. destruct (_ && _); [|by exists (shard ld)].
    destruct (fixup_returns (shard ld) (with_addr_and_flags line pc (Z.lor LineFlags.INLINED_FUNCTION LineFlags.STATEMENT)) pc Hlines) as [l ->]. by eexists. }
  destruct Hsh as (sh&->&Hsh&Hfs). cbn [mbind outcome_bind]. eexists true, _. split; [reflexivity|]. intros f0 fs0 [= <- <-].
  eexists _, _. split; [reflexivity|]. cbn [fn_subfunctions subfunction_stack subfunction_events fn_function shard].
  set (sfs' := fn_subfunctions f ++ _). assert (Hk : keeps_parents (fn_subfunctions f) sfs') by apply keeps_snoc.
  assert (Hnew : at_depth sfs' (S d) (zlen (fn_subfunctions f))).
  { eapply depth_call; [unfold sfs'; rewrite zget_app, Z.ltb_irrefl, Z.sub_diag; reflexivity|]. by eapply at_depth_keeps. }
  split_and!.
  - split; cbn [subfunction_events fn_subfunctions].
    + rewrite Hev, map_app, concat_app. f_equal. replace (Z.of_nat d + 1) with (Z.of_nat (S d)) by lia. apply in_ranges_events.
    + apply Forall_app. split; [by eapply range_ok_keeps|]. apply in_ranges_ok; [done|done|lia].
  - by destruct rs.
  - cbn [open_calls se_level se_subfunction_idx]. split; [lia|]. split; [done|]. by eapply (open_calls_keeps _ _ (S d) (parent :: entries)).
  - done.
  - by rewrite Hfs.
Qed.

Lemma finish_subfunction_ok ld d rs : reading_inv ld (S d) rs -> exists ld', finish_subfunction ld = Ret ld' /\ reading_inv ld' d rs.
Proof using Type.
  intros (f&fs&Hf&[Hev Hok]&Hne&Hopen&[Hlines Hclean]&Hfn). unfold finish_subfunction. rewrite Hf.
  destruct (subfunction_stack ld) as [|top entries]; [done|]. destruct Hopen as (Hlev&Hd&Hrest).
  assert (Hget : exists sf p, zget (fn_subfunctions f) (se_subfunction_idx top) = Some (sf, p)) by (inversion Hd; by eexists _, _).
  destruct Hget as (sf&p&Hg). rewrite Hg. cbn [lift_opt mbind outcome_bind]. eexists. split; [reflexivity|]. eexists _, _. split; [reflexivity|].
  cbn [fn_subfunctions subfunction_stack subfunction_events fn_function shard].
  set (sfs' := zset _ _ _). assert (Hk : keeps_parents (fn_subfunctions f) sfs').
  { intros i sf0 p0 Hi. unfold sfs'. destruct (decide (i = se_subfunction_idx top)) as [->|Hi'].
    - rewrite Hg in Hi. injection Hi as <- <-. eexists. by eapply zget_zset_eq.
    - exists sf0. by rewrite zget_zset_ne by done. }
  split_and!; try done.
  - split; [done|by eapply range_ok_keeps].
  - by eapply open_calls_keeps.
Qed.

Lemma reads_inv ld d rs : reads ld d rs -> reading_inv ld d rs.
Proof using Type.
  induction 1 as [f decl ranges ld ld' Hok Hne Hnil E|callee line pc ranges ld ld' d rs sf_idx H IH Hne E Hidx|callee line pc ranges ld ld' d rs H IH E|ld ld' d rs H IH E].
  - destruct (begin_function_ok f decl ranges ld Hok Hne Hnil) as (ld''&E'&Hinv). rewrite E in E'. by injection E' as <-.
  - destruct (begin_inlined_ok callee line pc ranges ld d rs IH Hne) as (b&ld''&E'&Hinv). rewrite E in E'. injection E' as <- <-.
    destruct (function_stack ld) as [|f fs]; [done|]. subst sf_idx. by eapply Hinv.
  - destruct (function_stack ld) as [|f fs] eqn:Ef; [destruct IH as (f&fs&Hf&_); congruence|]. revert E. unfold begin_inlined. rewrite Ef.
    destruct (subfunction_stack ld) as [|parent entries]; [done|].
    destruct (_ <=? _); [intros [= <-]; done|]. destruct (_ <=? _); [intros [= <-]; done|].
    destruct (if _ && _ then _ else _) as [|[]|]; cbn [mbind outcome_bind]; done.
  - destruct (finish_subfunction_ok ld d rs IH) as (ld''&E'&Hinv). rewrite E in E'. by injection E' as <-.
Qed.

Lemma tree_concat ks : tree_wf ks -> ks <> [] -> concat ks <> [].
Proof. intros Hwf Hne E. destruct ks as [|k ks]; [done|]. apply app_eq_nil in E as [-> _]. pose proof (tw_nonempty _ Hwf) as H. by apply Forall_cons in H as [? _]. Qed.

(** C4. Whatever ranges the debug information gives to a function and to the
    calls inlined in it, in any order, overlapping or sticking out of each other,
    reading it never panics, and the tables get a well-formed tree of nested
    ranges: no level is empty, the ranges of a level are sorted and apart, each
    lies in one of the level above, level [l] covers exactly the addresses of
    the input ranges that are at least [l] calls deep, and every range starts
    where an input range of its call, or of a call below it, starts. *)
Theorem inlined_calls_form_a_tree ld rs : reads ld 0 rs ->
  exists f fs sh lvs ks r fi, function_stack ld = f :: fs /\ finish_function ld = Ret (mkDwarfLoader fs (subfunction_stack ld) sh lvs) /\
    lines_ok sh /\ temp_clean lvs /\ shard_functions sh !! fn_function f = Some fi /\ levels_range fi = r /\
    function_tree (sym sh) r ks /\ tree_wf ks /\ tree_from f rs ks /\ forall l x, tree_covers ks l x <-> input_covers rs l x.
Proof using Type.
  intros (f&fs&Hf&Hok&Hne&_&[Hlines Hclean]&[fi Hfi])%reads_inv.
  destruct (finish_function_ok ld f fs rs fi Hf Hok Hne Hlines Hclean Hfi) as (sh&lvs&ks&r&E&Hlv&Hsame&Hlen&Hfs&Htree&Hwf&Hfrom&_&Hcov).
  exists f, fs, sh, lvs, ks, r, (set_levels_range r fi). split_and!; try done.
  - destruct Hsame as (_&_&_&[ls El]&_). unfold lines_ok in *. rewrite Hlen, El, length_app. lia.
  - rewrite Hfs. apply list_lookup_insert_eq. by eapply lookup_lt_Some.
Qed.

(** C8. The innermost inlined call at an address is found, in the tables as they
    are then or with more functions after it: the level is the depth of the
    deepest range that covers the address, the range found covers the address
    and is of a call that the input has there or of a caller of it, and each of
    its callers is found, with a range around it. *)
Theorem innermost_inlined_call_found ld rs : reads ld 0 rs ->
  exists f ld' fi, head (function_stack ld) = Some f /\ finish_function ld = Ret ld' /\ shard_functions (shard ld') !! fn_function f = Some fi /\
    forall s table addr, shards s !! shard_idx fi = Some table -> tables_grow (sym (shard ld')) table ->
    exists out, containing_subfunction_at_level s addr SUBFUNCTION_LEVEL_MAX fi = Ret out /\
      match out with
      | None => forall l, ~ input_covers rs l addr
      | Some (idx, level) => (forall l, input_covers rs l addr <-> (l <= level)%nat) /\
          exists sf, subfunctions table !! idx = Some sf /\ from sf <= addr < upto sf /\
            (exists r sf0, r ∈ rs /\ (level <= in_level r)%nat /\ in_begin r = from sf /\
               ancestor (fn_subfunctions f) (in_level r - level) (in_sf r) = Some sf0 /\ identity sf = identity sf0) /\
            forall to, (to < level)%nat -> exists idx' sf', subfunction_ancestor_at_level s idx (Z.of_nat level) (Z.of_nat to) fi = Ret (idx', Z.of_nat to) /\
               subfunctions table !! idx' = Some sf' /\ from sf' <= from sf /\ upto sf <= upto sf'
      end.
Proof using Type.
  intros (f&fs&Hf&Hok&Hne&_&[Hlines Hclean]&[fi Hfi])%reads_inv.
  destruct (finish_function_ok ld f fs rs fi Hf Hok Hne Hlines Hclean Hfi) as (sh&lvs&ks&r&E&_&_&_&Hfs&Htree&Hwf&Hfrom&Hks&Hcov).
  eexists f, _, (set_levels_range r fi). split; [by rewrite Hf|]. split; [exact E|]. split.
  { cbn [shard]. rewrite Hfs. apply list_lookup_insert_eq. by eapply lookup_lt_Some. }
  cbn [shard]. intros s table addr Hs Hgrow. pose proof (function_tree_grows _ _ _ _ Hgrow (tree_concat ks Hwf Hks) Htree) as Htree'.
  destruct (innermost_ok table r ks Htree' Hwf s (set_levels_range r fi) addr Hs eq_refl) as (out&->&Hout). exists out. split; [done|].
  destruct out as [[idx level]|]; [|intros l; rewrite <- Hcov; apply Hout]. destruct Hout as [Hfound Hlev]. split; [intros l; by rewrite <- Hcov|].
  pose proof Hfound as (k&j&sf&Hk&Hj&Hidx&Hx). exists sf. split; [done|]. split; [done|]. split.
  - destruct (Hfrom level k j sf Hk Hj) as (r0&sf0&?&?&?&?&?&_). by exists r0, sf0.
  - intros to Hto. assert (Hmax : Z.of_nat level < SUBFUNCTION_LEVEL_MAX).
    { destruct (proj1 (Hcov level addr)) as (r0&Hr0&Hl0&_); [by apply Hlev|]. destruct Hok as [_ Hok]. pose proof (proj1 (Forall_forall _ _) Hok r0 Hr0) as (_&_&?). lia. }
    destruct (ancestor_ok table r ks Htree' Hwf s (set_levels_range r fi) level to idx addr Hs eq_refl Hfound Hto Hmax) as (idx'&sf1&sf'&E1&E2&E3&?&?).
    exists idx', sf'. rewrite Hidx in E2. injection E2 as <-. done.
Qed.
End Reading.

(** ** An example: calls inlined at 120-150 and at 130-160, the second read as
    part of the first, which it sticks out of *)

Definition sample_sort_ranges : SliceSort (by_key (fun r : Z * Z => r.1)) := merge_slice_sort _.
Definition sample_sort_events : SliceSort (by_keys event_key) := merge_slice_sort _.
Definition sample_function : FunctionInfo := mkFn 100 7 100 100 [0x66] 0 0 Rust (0%nat, 0%nat).
Definition sample_shard : SymbolsLoaderShard := mkLoader (mkShard [] [] [] [] [] [] []) 0 [] [] 0.
Definition sample_start : DwarfLoader := mkDwarfLoader [] [] sample_shard [].
Definition returned (m : partial DwarfLoader) : DwarfLoader := match m with Ret ld => ld | _ => sample_start end.
Definition sample_step (i : nat) (ld : DwarfLoader) : DwarfLoader :=
  match i with
  | 0%nat => returned (begin_function (SliceSort0 := sample_sort_ranges) sample_function line_invalid [(100, 200)] ld)
  | 1%nat => returned ('(_, ld) ← begin_inlined 8 line_invalid 120 [(120, 150)] ld; Ret ld)
  | 2%nat => returned ('(_, ld) ← begin_inlined 9 line_invalid 130 [(130, 160)] ld; Ret ld)
  | _ => returned (finish_subfunction ld)
  end.
Definition sample_loader : DwarfLoader := fold_left (fun ld i => sample_step i ld) [0; 1; 2; 3; 4; 5]%nat sample_start.
Definition sample_ranges : list InRange := [mkIn 0 0 100 200; mkIn 1 1 120 150; mkIn 2 2 130 160].
Ltac read_sample :=
  apply (reads_end (fold_left (fun ld i => sample_step i ld) [0; 1; 2; 3; 4]%nat sample_start)); [|vm_compute; reflexivity];
  apply (reads_end (fold_left (fun ld i => sample_step i ld) [0; 1; 2; 3]%nat sample_start)); [|vm_compute; reflexivity];
  apply (reads_end (fold_left (fun ld i => sample_step i ld) [0; 1; 2]%nat sample_start)); [|vm_compute; reflexivity];
  change sample_ranges with (([mkIn 0 0 100 200] ++ in_ranges 1 1 [(120, 150)]) ++ in_ranges 2 2 [(130, 160)]);
  apply (reads_inlined 9 line_invalid 130 [(130, 160)] (sample_step 1 (sample_step 0 sample_start))); [|by apply Forall_singleton|vm_compute; reflexivity|vm_compute; reflexivity];
  apply (reads_inlined 8 line_invalid 120 [(120, 150)] (sample_step 0 sample_start)); [|by apply Forall_singleton|vm_compute; reflexivity|vm_compute; reflexivity];
  replace [mkIn 0 0 100 200] with (in_ranges 0 0 (@slice_sort _ _ sample_sort_ranges [(100, 200)])) by (vm_compute; reflexivity);
  apply (reads_begin sample_function line_invalid [(100, 200)] sample_start); [split; [vm_compute; lia|by intros []]|by apply Forall_singleton|done|vm_compute; reflexivity].
Lemma inlined_calls_form_a_tree_witness : exists ld', reads (SliceSort0 := sample_sort_ranges) sample_loader 0 sample_ranges /\
  finish_function (SliceSort1 := sample_sort_events) sample_loader = Ret ld'.
Proof.
  assert (Hr : reads (SliceSort0 := sample_sort_ranges) sample_loader 0 sample_ranges) by read_sample.
  destruct (inlined_calls_form_a_tree (SliceSort1 := sample_sort_events) _ _ Hr) as (f&fs&sh&lvs&ks&r&fi&_&E&_).
  eexists. split; [exact Hr|exact E].
Defined.
Lemma innermost_inlined_call_found_witness : exists ld' fi, reads (SliceSort0 := sample_sort_ranges) sample_loader 0 sample_ranges /\
  finish_function (SliceSort1 := sample_sort_events) sample_loader = Ret ld' /\
  exists idx, containing_subfunction_at_level (mkSymbols [] [] [sym (shard ld')] [] []) 155 SUBFUNCTION_LEVEL_MAX fi = Ret (Some (idx, 2%nat)).
Proof.
  assert (Hr : reads (SliceSort0 := sample_sort_ranges) sample_loader 0 sample_ranges) by read_sample.
  destruct (innermost_inlined_call_found (SliceSort1 := sample_sort_events) _ _ Hr) as (f&ld'&fi&Hf&E&Hfi&H). exists ld', fi. split; [exact Hr|]. split; [exact E|].
  assert (Hi : shard_idx fi = 0%nat).
  { vm_compute in Hf, E. injection Hf as <-. injection E as <-. vm_compute in Hfi. by injection Hfi as <-. }
  destruct (H (mkSymbols [] [] [sym (shard ld')] [] []) (sym (shard ld')) 155) as (out&->&Hout); [by rewrite Hi|split; exists []; by rewrite app_nil_r|].
  assert (H2 : input_covers sample_ranges 2 155) by (exists (mkIn 2 2 130 160); split; [apply list_elem_of_In; right; right; by left|simpl; lia]).
  assert (H3 : ~ input_covers sample_ranges 3 155).
  { intros (r&Hr0&Hl&_). apply list_elem_of_In in Hr0 as [<-|[<-|[<-|[]]]]; simpl in Hl; lia. }
  destruct out as [[idx level]|]; [|by destruct (Hout 2%nat)]. destruct Hout as [Hl _]. exists idx. do 3 f_equal. apply Hl in H2. rewrite (Hl 3%nat) in H3. lia.
Defined.
