(* ===== verification/SymbolsLoad.v ===== *)
(** Building the tables of symbols from the parts that the shards have read
    (SymbolsLoader of src/symbols.rs): functions of .symtab and of sections,
    sorting and removal of duplicates, references between functions, names. *)
From Stdlib Require Import ZArith Lia.
From stdpp Require Import base list sorting.
From S2P Require Import Prelude RustStr Errors Serial StdSort LineInfo MergeIterator Symbols.
From Stdlib Require Import String.
Open Scope Z_scope.

(** ** .symtab *)

Inductive PointOfInterest := MainFunction | LibraryLoad | PanicPoint | ExceptionPoint.
#[export] Instance PointOfInterest_eq_dec : EqDecision PointOfInterest.
Proof. solve_decision. Defined.
Definition poi_save (p : PointOfInterest) : list Z :=
  [match p with MainFunction => 0 | LibraryLoad => 1 | PanicPoint => 2 | ExceptionPoint => 3 end].
Definition poi_load : reader PointOfInterest :=
  x ← read_u8;
  match x with
  | 0 => mret MainFunction | 1 => mret LibraryLoad | 2 => mret PanicPoint | 3 => mret ExceptionPoint
  | _ => rfail (Code Environment)
  end.

Record Elf64_Sym := mkSym { st_name : Z; st_info : Z; st_shndx : Z; st_value : Z; st_size : Z }.
Definition SHN_UNDEF : Z := 0.
Definition STT_OBJECT : Z := 1.
Definition STT_FUNC : Z := 2.
Definition ENTRY_SIZE : Z := 24.
(** The struct at an offset of the section. *)
Definition sym_at (symtab : list Z) (offset : Z) : partial Elf64_Sym :=
  b ← zslice symtab offset (offset + ENTRY_SIZE);
  let field at_ n := le_value (take n (drop at_ b)) in
  Ret (mkSym (field 0 4) (field 4 1) (field 6 2) (field 8 8) (field 16 8))%nat.
(** The bytes up to the next zero. *)
Fixpoint c_string (b : list Z) : list Z :=
  match b with [] => [] | c :: b => if c =? 0 then [] else c :: c_string b end.
Definition name_at (strtab : list Z) (st_name : Z) : list Z := c_string (drop (Z.to_nat st_name) strtab).
Fixpoint rfind (pat s : list Z) : option nat :=
  match s with
  | [] => if bool_decide (pat = []) then Some O else None
  | c :: s' => match rfind pat s' with
               | Some i => Some (S i)
               | None => if starts_with pat s then Some O else None
               end
  end.

Record SymtabShard := mkSymtab {
  symtab_functions : list FunctionInfo;
  symtab_vtables : list VTableInfo;
  symtab_points : list (PointOfInterest * Z)
}.
Section Symtab.
  (** cpp_demangle, parsing and printing: [None] when one of them fails. *)
  Context (demangle : list Z -> option (list Z)) (shard_idx : nat).

(** The name of the type in "{vtable(Foo)}", with anything after it. *)
Definition vtable_type_name (demangled : list Z) : option (list Z) :=
  if starts_with (str "{vtable(") demangled then
    let name := drop (List.length (str "{vtable(")) demangled in
    match rfind (str ")}") name with Some end_ => Some (take end_ name) | None => None end
  else None.
Definition parse_sym (strtab : list Z) (sym : Elf64_Sym) (out : SymtabShard) : partial SymtabShard :=
  if (st_value sym =? 0) || (st_shndx sym =? SHN_UNDEF) then Ret out
  else
    let addr := st_value sym in
    if Z.land (st_info sym) 0xf =? STT_FUNC then
      let name_ref := if (st_name sym =? 0) || (zlen strtab <=? st_name sym)
                      then str "[function at " ++ to_hex addr ++ str " (.symtab)]" else name_at strtab (st_name sym) in
      let f_addr := FunctionAddr_new addr in
      let f := mkFn f_addr U64_MAX addr f_addr name_ref shard_idx FunctionFlags.SYMTAB UnknownLanguage (0, 0)%nat in
      let points := (if bool_decide (name_ref = str "_dl_debug_state") then [(LibraryLoad, addr)] else []) ++
                    (if bool_decide (name_ref = str "__cxa_throw") then [(ExceptionPoint, addr)] else []) in
      Ret (mkSymtab (symtab_functions out ++ [f]) (symtab_vtables out) (symtab_points out ++ points))
    else if (Z.land (st_info sym) 0xf =? STT_OBJECT) && negb (st_size sym =? 0) && negb (st_name sym =? 0) && (st_name sym <? zlen strtab)
            && starts_with (str "_ZTV") (drop (Z.to_nat (st_name sym)) strtab) then
      match name ← demangle (name_at strtab (st_name sym)); vtable_type_name name with
      | None => Ret out
      | Some name =>
          end_ ← uadd addr (st_size sym);
          Ret (mkSymtab (symtab_functions out) (symtab_vtables out ++ [mkVTable addr end_ name]) (symtab_points out))
      end
    else Ret out.
(** [range.step_by(24)] *)
Fixpoint parse_entries (n : nat) (strtab symtab : list Z) (offset end_ : Z) (out : SymtabShard) : partial SymtabShard :=
  match n with
  | O => Ret out
  | S n =>
      if offset <? end_ then
        sym ← sym_at symtab offset;
        out ← parse_sym strtab sym out;
        parse_entries n strtab symtab (offset + ENTRY_SIZE) end_ out
      else Ret out
  end.
Fixpoint parse_ranges (strtab symtab : list Z) (ranges : list (Z * Z)) (out : SymtabShard) : partial SymtabShard :=
  match ranges with
  | [] => Ret out
  | (start, end_) :: ranges => out ← parse_entries (S (Z.to_nat (end_ - start))) strtab symtab start end_ out; parse_ranges strtab symtab ranges out
  end.
Fixpoint parse_symtab (sections : list (list Z * list Z * list (Z * Z))) (out : SymtabShard) : partial SymtabShard :=
  match sections with
  | [] => Ret out
  | (strtab, symtab, ranges) :: sections => out ← parse_ranges strtab symtab ranges out; parse_symtab sections out
  end.
End Symtab.

(** ** Sections as functions *)

Definition sections_to_add_as_functions : list (list Z) :=
  map str [".init"; ".fini"; ".plt"; ".plt.got"; ".plt.sec"; ".text"]%string.
Definition section_functions (shard_idx : nat) (name : list Z) (address size : Z) : list FunctionInfo :=
  if negb (size =? 0) && negb (address =? 0) then
    let start_addr := FunctionAddr_new address in
    let end_addr := FunctionAddr_new (saturating_add address size) in
    [mkFn start_addr U64_MAX address start_addr name shard_idx FunctionFlags.SECTION UnknownLanguage (0, 0)%nat;
     mkFn end_addr U64_MAX 0 end_addr [] shard_idx (Z.lor FunctionFlags.SECTION FunctionFlags.SENTINEL) UnknownLanguage (0, 0)%nat]
  else [].
(** [section]: the address and size of a section of the executable. *)
Definition parse_misc_sections (section : list Z -> option (Z * Z)) (shard_idx : nat) (fs : list FunctionInfo) : list FunctionInfo :=
  fs ++ List.concat (map (fun name => match section name with Some (a, n) => section_functions shard_idx name a n | None => [] end) sections_to_add_as_functions).

(** ** Functions *)

Definition function_sorting_key (f : FunctionInfo) : Z :=
  Z.lor (Z.lor (wrap64 (Z.shiftl (f_addr f) 2)) (Z.shiftl (Z.b2z (contains_flag (flags f) FunctionFlags.SENTINEL)) 1))
        (Z.b2z (contains_flag (flags f) FunctionFlags.SYMTAB)).
(** [!key] on [usize]: the greatest is the least key. *)
Definition negated_key (f : FunctionInfo) : Reverse := mkReverse (function_sorting_key f).

Section Functions.
  Context `{!SliceSort (by_key function_sorting_key)} `{!BinaryHeap Reverse} `{!SliceSort (by_key (fun t : Z * nat => t.1))}.

Definition sort_functions (fs : list FunctionInfo) : list FunctionInfo :=
  dedup_by_key f_addr (slice_sort (by_key function_sorting_key) fs).
Definition sentinel (addr : FunctionAddr) : FunctionInfo := mkFn addr U64_MAX 0 addr [] 0 FunctionFlags.SENTINEL UnknownLanguage (0, 0)%nat.
(** End markers: at the end of the functions, and at the end of .text. *)
Definition additional_functions (max_function_end : Z) (text_section : option (Z * Z)) : list FunctionInfo :=
  sentinel (FunctionAddr_new max_function_end) ::
    match text_section with
    | Some (address, size) =>
        let end_addr := saturating_add address size in
        if negb (end_addr =? max_function_end) then [sentinel (FunctionAddr_new end_addr)] else []
    | None => []
    end.
(** The loop of [dedup_functions] over the merged functions. *)
Fixpoint dedup_merged (fuel : nat) (iter : MergeIterator (T := FunctionInfo) (K := Reverse)) (prev_addr : Z) : partial (list FunctionInfo) :=
  match fuel with
  | O => Panic
  | S fuel =>
      '(o, iter) ← merge_next negated_key iter;
      match o with
      | None => Ret []
      | Some f => if negb (f_addr f =? prev_addr) then rest ← dedup_merged fuel iter (f_addr f); Ret (f :: rest) else dedup_merged fuel iter prev_addr
      end
  end.
Definition end_of_functions (shs : list SymbolsLoaderShard) : Z := match map max_function_end shs with [] => 0 | m :: ms => foldl Z.max m ms end.
Definition dedup_functions (shs : list SymbolsLoaderShard) (text_section : option (Z * Z)) : partial (list FunctionInfo) :=
  let sources := map shard_functions shs ++ [additional_functions (end_of_functions shs) text_section] in
  dedup_merged (S (List.length (List.concat sources))) (merge_new negated_key sources) U64_MAX.
(** The map from entries of .debug_info to functions, in shards by offset. *)
Definition die_to_function_shards (num_shards : nat) (fs : list FunctionInfo) : list (list (DieOffset * nat)) :=
  map (fun sh => slice_sort (by_key (fun t : Z * nat => t.1))
        (omap (fun '(i, f) => if contains_flag (flags f) FunctionFlags.INLINED && (die f mod Z.of_nat num_shards =? Z.of_nat sh) then Some (die f, i) else None)
              (combine (seq 0 (List.length fs)) fs))) (seq 0 num_shards).
(** The function that a call refers to by its entry. *)
Definition resolve_callee (dies : list (list (DieOffset * nat))) (die : DieOffset) : partial Z :=
  die_to_function ← lift_opt (zget dies (die mod zlen dies));
  let i := partition_point (fun t => t.1 <? die) die_to_function in
  Ret (match die_to_function !! i with
       | Some t => if t.1 =? die then Z.of_nat t.2 else U64_MAX
       | None => U64_MAX
       end).
Fixpoint fixup_function_refs (dies : list (list (DieOffset * nat))) (sfs : list Subfunction) : partial (list Subfunction) :=
  match sfs with
  | [] => Ret []
  | sf :: sfs =>
      sf ← (if identity sf =? 0 then Ret sf
            else idx ← resolve_callee dies (callee_idx sf); Ret (mkSf idx (local_variables sf) (call_line sf) (addr_range sf) (identity sf)));
      rest ← fixup_function_refs dies sfs;
      Ret (sf :: rest)
  end.
End Functions.
