(* ===== verification/FunctionsSpec.v ===== *)
(** The table of functions: sorting, merging of the shards, the end markers,
    and the walk over the ranges of a function. *)
From Stdlib Require Import ZArith Lia.
From stdpp Require Import base list sorting.
From S2P Require Import Prelude Errors StdSort LineInfo MergeIterator Symbols SymbolsLoad.
Open Scope Z_scope.

(** ** The order of functions *)

Abbreviation fkey := function_sorting_key.
Definition fn_ok (f : FunctionInfo) : Prop := 0 <= f_addr f < 2 ^ 61.
Definition is_sentinel (f : FunctionInfo) : bool := contains_flag (flags f) FunctionFlags.SENTINEL.
Definition of_symtab (f : FunctionInfo) : bool := contains_flag (flags f) FunctionFlags.SYMTAB.
(** Functions are ordered by address; at an address a function comes before an
    end marker, and one of .debug_info before one of .symtab. *)
Lemma fkey_parts f : fn_ok f -> fkey f = f_addr f * 4 + Z.b2z (is_sentinel f) * 2 + Z.b2z (of_symtab f).
Proof.
  intros [H0 H1]. unfold function_sorting_key. rewrite <- (Z.add_assoc (_ * 4)). fold (is_sentinel f) (of_symtab f). fold (shl64 (f_addr f) 2).
  rewrite (shl64_small _ _ 61), <- Z.lor_assoc by lia. change 4 with (2 ^ 2).
  assert (Hlow : Z.lor (Z.shiftl (Z.b2z (is_sentinel f)) 1) (Z.b2z (of_symtab f)) = Z.b2z (is_sentinel f) * 2 + Z.b2z (of_symtab f)) by (by destruct (is_sentinel f), (of_symtab f)).
  rewrite Hlow, Z.lor_comm, lor_shift; [done|lia|]. by destruct (is_sentinel f), (of_symtab f).
Qed.
Lemma fkey_addr f g : fn_ok f -> fn_ok g -> fkey f <= fkey g -> f_addr f <= f_addr g.
Proof.
  intros Hf Hg. rewrite !fkey_parts by done. destruct (is_sentinel f), (is_sentinel g), (of_symtab f), (of_symtab g); cbn [Z.b2z]; lia.
Qed.
Lemma fkey_addr_lt f g : fn_ok f -> fn_ok g -> f_addr f < f_addr g -> fkey f < fkey g.
Proof.
  intros Hf Hg. rewrite !fkey_parts by done. destruct (is_sentinel f), (is_sentinel g), (of_symtab f), (of_symtab g); cbn [Z.b2z]; lia.
Qed.

(** ** Sorted tables without duplicates *)

Definition sorted_functions (fs : list FunctionInfo) : Prop := StronglySorted (fun f g => f_addr f < f_addr g) fs.
(** [after] has, of the functions at each address of [before], a first one. *)
Definition one_per_address (before after : list FunctionInfo) : Prop :=
  sorted_functions after /\
  (forall f, f ∈ after -> f ∈ before /\ forall g, g ∈ before -> f_addr g = f_addr f -> fkey f <= fkey g) /\
  (forall g, g ∈ before -> exists f, f ∈ after /\ f_addr f = f_addr g).
Lemma one_per_address_perm l l' r : l ≡ₚ l' -> one_per_address l r -> one_per_address l' r.
Proof.
  intros Hp (H1&H2&H3). split_and!; [done| |].
  - intros f Hf. destruct (H2 f Hf) as [Hin Hbest]. split; [by rewrite <- Hp|]. intros g Hg. apply Hbest. by rewrite Hp.
  - intros g Hg. apply H3. by rewrite Hp.
Qed.

Lemma sorted_addrs l : StronglySorted (by_key fkey) l -> Forall fn_ok l -> StronglySorted (by_key f_addr) l.
Proof.
  induction 1 as [|f l _ IH Hf]; intros Hok; constructor; apply Forall_cons in Hok as [Hok Hl]; [by apply IH|].
  rewrite Forall_forall in Hf, Hl. apply Forall_forall. intros g Hg. apply fkey_addr; [done|by apply Hl|by apply Hf].
Qed.
Lemma dedup_from_least last l : StronglySorted (by_key fkey) l -> Forall fn_ok l -> Forall (fun f => last <= f_addr f) l ->
  forall f, f ∈ dedup_from f_addr last l -> forall g, g ∈ l -> f_addr g = f_addr f -> fkey f <= fkey g.
Proof.
  revert last; induction l as [|x l IH]; intros last Hs Hok Hl f Hf g Hg E; [by apply elem_of_nil in Hg|].
  pose proof (sorted_addrs _ Hs Hok) as Ha. apply StronglySorted_inv in Ha as [Ha Hxa]. pose proof Hs as Hs'. apply StronglySorted_inv in Hs as [Hs Hx].
  apply Forall_cons in Hok as [Hxok Hok]. apply Forall_cons in Hl as [Hlx Hl]. cbn [dedup_from] in Hf.
  destruct (Z.eqb_spec (f_addr x) last) as [El|El].
  - apply elem_of_cons in Hg as [->|Hg]; [|by apply (IH last)].
    destruct (dedup_from_strict f_addr last l Ha Hl) as [_ Hlt]. rewrite Forall_forall in Hlt. specialize (Hlt f Hf). simpl in Hlt. lia.
  - apply elem_of_cons in Hf as [->|Hf].
    + apply elem_of_cons in Hg as [->|Hg]; [lia|]. rewrite Forall_forall in Hx. by apply Hx.
    + apply elem_of_cons in Hg as [->|Hg]; [|by apply (IH (f_addr x))].
      destruct (dedup_from_strict f_addr (f_addr x) l Ha Hxa) as [_ Hlt]. rewrite Forall_forall in Hlt. specialize (Hlt f Hf). simpl in Hlt. lia.
Qed.
Lemma dedup_one_per_address l : StronglySorted (by_key fkey) l -> Forall fn_ok l -> one_per_address l (dedup_from f_addr (-1) l).
Proof.
  intros Hs Hok. pose proof (sorted_addrs _ Hs Hok) as Ha.
  assert (Hl : Forall (fun f => -1 <= f_addr f) l) by (eapply Forall_impl; [apply Hok|]; unfold fn_ok; simpl; lia).
  split_and!.
  - by apply (dedup_from_strict f_addr (-1)).
  - intros f Hf. split; [by eapply dedup_from_subset|]. by apply (dedup_from_least (-1)).
  - intros g Hg. destruct (dedup_from_keys f_addr (-1) l Ha Hl g Hg) as [E|?]; [|done]. rewrite Forall_forall in Hok. destruct (Hok g Hg). lia.
Qed.
(** The first function stays whatever other address comes before it. *)
Lemma dedup_from_fresh last l : (forall f, head l = Some f -> f_addr f <> last) -> Forall fn_ok l ->
  dedup_from f_addr last l = dedup_from f_addr (-1) l.
Proof.
  destruct l as [|f l]; [done|]. intros Hf Hok. specialize (Hf f eq_refl). apply Forall_cons in Hok as [[Hf0 _] _]. cbn [dedup_from].
  by rewrite (proj2 (Z.eqb_neq _ _) Hf), (proj2 (Z.eqb_neq _ (-1))) by lia.
Qed.
Lemma dedup_by_key_from l : Forall fn_ok l -> dedup_by_key f_addr l = dedup_from f_addr (-1) l.
Proof. destruct l as [|f l]; [done|]. intros [[Hf _] _]%Forall_cons. cbn [dedup_by_key dedup_from]. by rewrite (proj2 (Z.eqb_neq _ (-1))) by lia. Qed.

Lemma elem_of_concat_map {A} (g : A -> list FunctionInfo) shs (extra : list FunctionInfo) f :
  f ∈ concat (map g shs) ++ extra <-> (exists sh, sh ∈ shs /\ f ∈ g sh) \/ f ∈ extra.
Proof.
  rewrite elem_of_app. apply or_iff_compat_r. rewrite list_elem_of_In, in_concat. split.
  - intros (l&Hl&Hf). apply in_map_iff in Hl as (sh&<-&Hsh). exists sh. by rewrite !list_elem_of_In.
  - intros (sh&Hsh&Hf). exists (g sh). rewrite !list_elem_of_In in *. split; [by apply in_map|done].
Qed.
(** Picking in each shard and then among the picked is picking among all. *)
Lemma one_per_address_concat {A} (g h : A -> list FunctionInfo) shs extra fs :
  (forall sh, sh ∈ shs -> one_per_address (g sh) (h sh)) -> one_per_address (concat (map h shs) ++ extra) fs ->
  one_per_address (concat (map g shs) ++ extra) fs.
Proof.
  intros Hpick (H1&H2&H3). split_and!; [done| |].
  - intros f Hf. destruct (H2 f Hf) as [Hin Hbest]. rewrite elem_of_concat_map in Hin. split.
    + apply elem_of_concat_map. destruct Hin as [(sh&Hsh&Hin)|]; [left; exists sh; split; [done|]; by apply (Hpick sh Hsh)|by right].
    + intros x [(sh&Hsh&Hx)|Hx]%elem_of_concat_map E; [|apply Hbest; [apply elem_of_concat_map; by right|done]].
      destruct (Hpick sh Hsh) as (_&P2&P3). destruct (P3 x Hx) as (y&Hy&Ey). destruct (P2 y Hy) as [_ Hyx].
      transitivity (fkey y); [apply Hbest; [apply elem_of_concat_map; left; by exists sh|congruence]|by apply Hyx].
  - intros x [(sh&Hsh&Hx)|Hx]%elem_of_concat_map; [|apply H3, elem_of_concat_map; by right].
    destruct (Hpick sh Hsh) as (_&_&P3). destruct (P3 x Hx) as (y&Hy&<-). apply H3, elem_of_concat_map. left. by exists sh.
Qed.

Section Table.
  Context `{!SliceSort (by_key fkey)} `{!BinaryHeap Reverse}.

Lemma sort_functions_ok fs : Forall fn_ok fs -> one_per_address fs (sort_functions fs).
Proof.
  intros Hok. unfold sort_functions. assert (Hp := slice_sort_perm (le := by_key fkey) fs). rewrite <- Hp in Hok.
  rewrite dedup_by_key_from by done. apply (one_per_address_perm _ _ _ Hp). apply dedup_one_per_address; [apply slice_sort_sorted|done].
Qed.
Lemma sorted_keys fs : sorted_functions fs -> Forall fn_ok fs -> StronglySorted (key_ge negated_key) fs.
Proof.
  induction 1 as [|f l _ IH Hf]; intros Hok; constructor; apply Forall_cons in Hok as [Hok Hl]; [by apply IH|].
  rewrite Forall_forall in Hf, Hl. apply Forall_forall. intros g Hg. unfold key_ge. cbn. apply Z.lt_le_incl, fkey_addr_lt; [done|by apply Hl|by apply Hf].
Qed.
Lemma dedup_merged_ok fuel m l p : merges negated_key m l -> (length l < fuel)%nat -> dedup_merged fuel m p = Ret (dedup_from f_addr p l).
Proof.
  intros H. revert fuel p; induction H as [m E _|m x m' l E _ _ IH]; intros fuel p Hf; (destruct fuel as [|fuel]; [simpl in Hf; lia|]);
    cbn [dedup_merged]; rewrite E; cbn [mbind outcome_bind dedup_from]; [done|]. simpl in Hf.
  destruct (f_addr x =? p); cbn [negb]; rewrite IH by lia; done.
Qed.
(** Merging sorted sources keeps a first function of each address. *)
Lemma merge_functions_ok sources : Forall sorted_functions sources -> Forall fn_ok (concat sources) ->
  exists fs, dedup_merged (S (length (concat sources))) (merge_new negated_key sources) U64_MAX = Ret fs /\ one_per_address (concat sources) fs.
Proof.
  intros Hs Hok.
  assert (Hk : Forall (StronglySorted (key_ge negated_key)) sources).
  { clear - Hs Hok. induction Hs as [|fs ss Hfs _ IH]; [constructor|]. cbn [concat] in Hok. apply Forall_app in Hok as [H1 H2]. constructor; [by apply sorted_keys|by apply IH]. }
  destruct (merges_exist negated_key (merge_new negated_key sources) (merge_new_ok _ _) Hk) as (l&Hl&Hp&Hsl). cbn [MergeIterator.sources merge_new] in Hp.
  assert (Hlok : Forall fn_ok l) by (by rewrite Hp).
  exists (dedup_from f_addr U64_MAX l). split; [apply dedup_merged_ok; [done|rewrite Hp; lia]|].
  rewrite dedup_from_fresh; [|destruct l as [|g l]; intros f [=]; subst; apply Forall_cons in Hlok as [[? ?] _]; unfold U64_MAX; lia|done].
  apply (one_per_address_perm _ _ _ Hp). apply dedup_one_per_address; [|done].
  clear - Hsl. induction Hsl as [|x l _ IH Hx]; constructor; [done|]. apply Hx.
Qed.

(** C9. The table of functions is made of the functions of all shards, of the
    sections and of the end markers, sorted in each shard and then merged: when
    the end markers are in order it is strictly sorted by address, has every
    address, and at each address the best entry: a function before an end marker,
    one of .debug_info before one of .symtab. The merge terminates and does not
    fail, whatever the heap does with equal keys. *)
Theorem function_table_sorted shs text : Forall (fun sh => Forall fn_ok (shard_functions sh)) shs ->
  let additional := additional_functions (end_of_functions shs) text in
  Forall fn_ok additional -> sorted_functions additional ->
  exists fs, dedup_functions (map (fun sh => set_functions (sort_functions (shard_functions sh)) sh) shs) text = Ret fs /\
    one_per_address (concat (map shard_functions shs) ++ additional) fs.
Proof.
  intros Hok additional Haok Has. unfold dedup_functions. set (sorted := map (fun sh => set_functions _ sh) shs).
  assert (Hends : end_of_functions sorted = end_of_functions shs).
  { unfold end_of_functions, sorted. rewrite map_map. by erewrite (map_ext _ max_function_end). }
  rewrite Hends. fold additional. set (ins := concat (map shard_functions shs)).
  assert (Hmap : map shard_functions sorted = map (fun sh => sort_functions (shard_functions sh)) shs) by (unfold sorted; by rewrite map_map).
  rewrite Hmap. set (sources := _ ++ [additional]).
  assert (Hpick : forall sh, sh ∈ shs -> one_per_address (shard_functions sh) (sort_functions (shard_functions sh))).
  { intros sh Hsh. apply sort_functions_ok. by apply (proj1 (Forall_forall _ _) Hok). }
  assert (Hconcat : concat sources = concat (map (fun sh => sort_functions (shard_functions sh)) shs) ++ additional).
  { unfold sources. rewrite concat_app. cbn [concat]. by rewrite app_nil_r. }
  destruct (merge_functions_ok sources) as (fs&Hfs&Hone).
  - apply Forall_app. split; [|by apply Forall_singleton]. apply Forall_forall. intros l Hl. apply list_elem_of_In, in_map_iff in Hl as (sh&<-&Hsh).
    apply Hpick. by apply list_elem_of_In.
  - rewrite Hconcat. apply Forall_app. split; [|done]. apply Forall_concat, Forall_forall. intros l Hl. apply list_elem_of_In, in_map_iff in Hl as (sh&<-&Hsh).
    apply list_elem_of_In in Hsh. apply Forall_forall. intros f Hf. destruct (Hpick sh Hsh) as (_&H2&_). destruct (H2 f Hf) as [Hin _].
    by apply (proj1 (Forall_forall _ _) (proj1 (Forall_forall _ _) Hok sh Hsh)).
  - exists fs. split; [done|]. rewrite Hconcat in Hone. apply (one_per_address_concat _ _ _ _ _ Hpick Hone).
Qed.
End Table.

(** ** Walking the ranges of a function *)

Lemma partition_sorted fs a i f : sorted_functions fs -> fs !! i = Some f -> f_addr f = a -> partition_point (fun g => f_addr g <? a) fs = i.
Proof.
  intros Hs Hi <-. destruct (Nat.lt_trichotomy (partition_point (fun g => f_addr g <? f_addr f) fs) i) as [H|[H|H]]; [|done|].
  - destruct (lookup_lt_is_Some_2 fs (partition_point (fun g => f_addr g <? f_addr f) fs)) as [x Hx]; [apply lookup_lt_Some in Hi; lia|].
    pose proof (partition_point_at _ _ _ Hx) as Hf. pose proof (StronglySorted_lookup _ _ Hs _ _ _ _ H Hx Hi). simpl in *. lia.
  - pose proof (partition_point_before _ _ _ _ H Hi). simpl in *. lia.
Qed.
Lemma covering_index fs addr : sorted_functions fs -> let i := partition_point (fun f => f_addr f <=? addr) fs in
  forall j f, fs !! j = Some f -> f_addr f <= addr <-> (j < i)%nat.
Proof.
  intros Hs i j f Hj. split.
  - intros Hle. destruct (Nat.ltb_spec j i); [done|]. exfalso.
    assert (Hpp : (f_addr f <=? addr) = false); [|lia]. apply (partition_point_after (fun f => f_addr f <=? addr) fs j f); [|done|done].
    intros a b y z Hab Hy Hz Hle'. apply Z.leb_le in Hle'. apply Z.leb_le.
    pose proof (StronglySorted_lookup _ _ Hs a b y z Hab Hy Hz). simpl in *. lia.
  - intros Hlt. pose proof (partition_point_before _ _ _ _ Hlt Hj) as H. by apply Z.leb_le in H.
Qed.

(** The range before another, cyclically. *)
Definition before (n k : nat) : nat := match k with O => n - 1 | S k => k end.
(** The ranges [rs] of a function are in the table, each linked to the one before
    it and the first to the last. *)
Record function_ranges (s : Symbols) (d : DieOffset) (rs : list (Z * Z)) : Prop := {
  ranges_sorted : StronglySorted (fun a b => a.1 < b.1) rs;
  ranges_linked k r p : rs !! k = Some r -> rs !! before (length rs) k = Some p ->
    exists i f g, functions s !! i = Some f /\ functions s !! S i = Some g /\ f_addr f = r.1 /\ f_addr g = r.2 /\ prev_addr f = p.1 /\
      die f = d /\ is_sentinel f = false /\ is_addr (f_addr f) = true /\ is_addr (f_addr g) = true
}.
(** The function in the table that has an address. *)
Definition covers (s : Symbols) (addr : Z) (f : FunctionInfo) : Prop :=
  is_sentinel f = false /\ exists i g, functions s !! i = Some f /\ functions s !! S i = Some g /\ f_addr f <= addr < f_addr g /\ is_addr (f_addr g) = true.

Section Walk.
  Context (s : Symbols) (Hs : sorted_functions (functions s)).

Lemma index_of_addr i j f g : functions s !! i = Some f -> functions s !! j = Some g -> f_addr f = f_addr g -> i = j.
Proof using Hs.
  intros Hi Hj E. rewrite <- (partition_sorted _ (f_addr f) i f Hs Hi eq_refl). by apply partition_sorted with g.
Qed.
Lemma index_lt i j f g : functions s !! i = Some f -> functions s !! j = Some g -> f_addr f < f_addr g -> (i < j)%nat.
Proof using Hs.
  intros Hi Hj E. destruct (Nat.lt_trichotomy i j) as [H|[->|H]]; [done|simplify_eq; lia|].
  pose proof (StronglySorted_lookup _ _ Hs _ _ _ _ H Hj Hi). simpl in *. lia.
Qed.
Lemma first_range_total fuel i f : functions s !! i = Some f -> (i < fuel)%nat ->
  exists j g, first_range s fuel i = Ret j /\ functions s !! j = Some g /\ die g = die f /\ (j <= i)%nat.
Proof using Hs.
  revert i f; induction fuel as [|fuel IH]; intros i f Hi Hf; [lia|]. cbn [first_range]. rewrite Hi. cbn [lift_opt mbind outcome_bind].
  destruct (Z.leb_spec (f_addr f) (prev_addr f)) as [|Hprev]; [by exists i, f|]. set (j := partition_point _ _).
  destruct (Nat.leb_spec (length (functions s)) (j + 1)) as [|Hj]; [by exists i, f|].
  destruct (lookup_lt_is_Some_2 (functions s) j ltac:(lia)) as [g Hg]. rewrite Hg. cbn [lift_opt mbind outcome_bind].
  destruct (Z.eqb_spec (f_addr g) (prev_addr f)) as [Ea|]; cbn [negb orb]; [|by exists i, f].
  destruct (Z.eqb_spec (die g) (die f)) as [Ed|]; cbn [negb]; [|by exists i, f].
  assert (Hlt : (j < i)%nat) by (apply (index_lt j i g f); [done..|lia]).
  destruct (IH j g Hg ltac:(lia)) as (k&h&->&Hk&Hd&Hle). exists k, h. split_and!; [done|done|congruence|lia].
Qed.

Context (d : DieOffset) (rs : list (Z * Z)) (Hr : function_ranges s d rs).
Lemma range_entry k r : rs !! k = Some r -> exists p i f g, rs !! before (length rs) k = Some p /\
  functions s !! i = Some f /\ functions s !! S i = Some g /\ f_addr f = r.1 /\ f_addr g = r.2 /\ prev_addr f = p.1 /\
  die f = d /\ is_sentinel f = false /\ is_addr (f_addr f) = true /\ is_addr (f_addr g) = true.
Proof using Hr.
  intros Hk. destruct (lookup_lt_is_Some_2 rs (before (length rs) k)) as [p Hp].
  { apply lookup_lt_Some in Hk. unfold before. destruct k; lia. }
  destruct (ranges_linked _ _ _ Hr k r p Hk Hp) as (i&f&g&?). by exists p, i, f, g.
Qed.
Lemma first_range_linked k r fuel i f r0 : rs !! k = Some r -> rs !! 0%nat = Some r0 -> functions s !! i = Some f -> f_addr f = r.1 -> (i < fuel)%nat ->
  exists j g, first_range s fuel i = Ret j /\ functions s !! j = Some g /\ f_addr g = r0.1.
Proof using Hs Hr.
  revert k r fuel f; induction i as [i IH] using lt_wf_ind; intros k r fuel f Hk H0 Hi Ea Hfuel. destruct fuel as [|fuel]; [lia|]. cbn [first_range].
  destruct (range_entry k r Hk) as (p&i'&f'&g'&Hp&Hi'&_&Ea'&_&Ep&Ed&_).
  assert (i' = i) as -> by (eapply index_of_addr; [done|done|congruence]). assert (f' = f) as -> by congruence.
  rewrite Hi. cbn [lift_opt mbind outcome_bind]. destruct k as [|k]; cbn [before] in Hp.
  { assert (r = r0) as -> by congruence. rewrite (proj2 (Z.leb_le _ _)); [by exists i, f|]. rewrite Ep, Ea.
    destruct (length rs - 1)%nat as [|n]; [simplify_eq; lia|]. pose proof (StronglySorted_lookup _ _ (ranges_sorted _ _ _ Hr) 0 (S n) r0 p ltac:(lia) H0 Hp). simpl in *. lia. }
  pose proof (StronglySorted_lookup _ _ (ranges_sorted _ _ _ Hr) k (S k) p r ltac:(lia) Hp Hk) as Hlt. simpl in Hlt.
  rewrite (proj2 (Z.leb_gt _ _)) by lia. destruct (range_entry k p Hp) as (q&j&g&g2&_&Hj&Hj2&Eg&_&_&Edg&_).
  rewrite (partition_sorted _ _ j g Hs Hj) by congruence. apply lookup_lt_Some in Hj2. rewrite (proj2 (Nat.leb_gt _ _)) by lia.
  rewrite Hj. cbn [lift_opt mbind outcome_bind]. rewrite Eg, Ep, Edg, Ed, !Z.eqb_refl. cbn [negb orb].
  apply (IH j) with k p g; [|done..|]; [apply (index_lt j i g f); [done..|lia]|]. assert (j < i)%nat by (apply (index_lt j i g f); [done..|lia]). lia.
Qed.
(** The loop, from the range [S k] down to the second range. *)
Lemma addr_ranges_down k r fuel i f : rs !! S k = Some r -> functions s !! i = Some f -> f_addr f = r.1 -> (i < fuel)%nat ->
  addr_ranges_loop s fuel i = Ret (reverse (drop 1 (take (S (S k)) rs))).
Proof using Hs Hr.
  revert k r fuel f; induction i as [i IH] using lt_wf_ind; intros k r fuel f Hk Hi Ea Hfuel. destruct fuel as [|fuel]; [lia|]. cbn [addr_ranges_loop].
  destruct (range_entry (S k) r Hk) as (p&i'&f'&g'&Hp&Hi'&Hi2&Ea'&Eb&Ep&Ed&Hsent&Haddr&Haddr2). cbn [before] in Hp.
  assert (i' = i) as -> by (eapply index_of_addr; [done|done|congruence]). assert (f' = f) as -> by congruence.
  rewrite Hi. cbn [lift_opt mbind outcome_bind]. unfold is_sentinel in Hsent. rewrite Hsent. cbn [negb rassert mbind outcome_bind].
  unfold addr_of. unfold is_addr in Haddr, Haddr2. rewrite Haddr, Hi2. cbn [lift_opt mbind outcome_bind]. rewrite Haddr2. cbn [lift_opt mbind outcome_bind].
  pose proof (StronglySorted_lookup _ _ (ranges_sorted _ _ _ Hr) k (S k) p r ltac:(lia) Hp Hk) as Hlt. simpl in Hlt.
  destruct (range_entry k p Hp) as (q&j&g&g2&Hq&Hj&Hj2&Eg&_&Eq&Edg&_).
  assert (Hji : (j < i)%nat) by (apply (index_lt j i g f); [done..|lia]).
  rewrite (partition_sorted _ _ j g Hs Hj) by congruence. apply lookup_lt_Some in Hj2. rewrite (proj2 (Nat.leb_gt _ _)) by lia.
  rewrite Hj. cbn [lift_opt mbind outcome_bind]. rewrite Eg, Ep, Edg, Ed, !Z.eqb_refl. cbn [negb orb].
  assert (Hpair : (f_addr f, f_addr g') = r) by (rewrite Ea, Eb; by destruct r). rewrite Hpair. clear Hpair.
  assert (Hlen : (S k < length rs)%nat) by (by apply lookup_lt_Some in Hk).
  assert (Hrev : reverse (drop 1 (take (S (S k)) rs)) = r :: reverse (drop 1 (take (S k) rs))).
  { rewrite (take_S_r _ _ _ Hk), drop_app_le, reverse_snoc by (rewrite length_take; lia). done. }
  rewrite Hrev. destruct k as [|k]; cbn [before] in Hq.
  - rewrite (proj2 (Z.leb_le _ _)); [destruct rs; done|]. rewrite Eq.
    pose proof (StronglySorted_lookup _ _ (ranges_sorted _ _ _ Hr) 0 (length rs - 1) p q ltac:(lia) Hp Hq). simpl in *. lia.
  - pose proof (StronglySorted_lookup _ _ (ranges_sorted _ _ _ Hr) k (S k) q p ltac:(lia) Hq Hp) as Hqp. simpl in Hqp.
    rewrite (proj2 (Z.leb_gt _ _)) by lia. rewrite (IH j Hji k p fuel g Hp Hj Eg) by lia. done.
Qed.
End Walk.

(** C17. Looking up an address never panics. It gives the function that covers
    the address, by the entry of its first range when its ranges are linked in the
    table; it fails only when no function covers the address. *)
Theorem addr_to_function_covers s addr : sorted_functions (functions s) ->
  match addr_to_function s addr with
  | Ret (f, i) => functions s !! i = Some f /\ (exists c, covers s addr c /\ die f = die c) /\
      forall d rs r r0, function_ranges s d rs -> r ∈ rs -> r.1 <= addr < r.2 -> rs !! 0%nat = Some r0 -> f_addr f = r0.1
  | Fail e => e = Code ProcessState /\ forall c, ~ covers s addr c
  | Panic => False
  end.
Proof.
  intros Hs. unfold addr_to_function. set (idx := partition_point _ _). pose proof (covering_index _ addr Hs) as Hidx. cbn zeta in Hidx. fold idx in Hidx.
  assert (Hc : forall c, covers s addr c -> is_sentinel c = false /\ exists g, functions s !! (idx - 1)%nat = Some c /\ functions s !! idx = Some g /\ is_addr (f_addr g) = true /\ (0 < idx)%nat).
  { intros c (Hsent&i&g&Hi&Hg&Hle&Ha). split; [done|]. assert (i < idx)%nat by (apply (Hidx _ _ Hi); lia).
    assert (~ (S i < idx)%nat) by (rewrite <- (Hidx _ _ Hg); lia). assert (idx = S i) as -> by lia. exists g. rewrite Nat.sub_1_r. split_and!; [done..|lia]. }
  destruct (Nat.eqb_spec idx 0) as [E0|E0]; [split; [done|]; intros c (_&g&_&_&_&?)%Hc; lia|].
  destruct (functions s !! idx) as [next|] eqn:En; [|split; [done|]; intros c (_&g&_&?&_)%Hc; done].
  destruct (is_addr (f_addr next)) eqn:Ha; cbn [negb]; [|split; [done|]; intros c (_&g&_&?&?&_)%Hc; simplify_eq; congruence].
  destruct (lookup_lt_is_Some_2 (functions s) (idx - 1)) as [c Ec]; [apply lookup_lt_Some in En; lia|]. rewrite Ec. cbn [lift_opt mbind outcome_bind].
  destruct (contains_flag (flags c) FunctionFlags.SENTINEL) eqn:Es; [split; [done|]; intros c' (?&g&?&_)%Hc; unfold is_sentinel in *; simplify_eq; congruence|].
  destruct (first_range_total s Hs (S idx) (idx - 1) c Ec ltac:(lia)) as (j&f&Ej&Hj&Hd&_).
  rewrite Ej. cbn [widen mbind outcome_bind]. rewrite Hj. cbn [lift_opt mbind outcome_bind]. split; [done|]. split.
  - exists c. split; [|done]. split; [done|]. exists (idx - 1)%nat, next. replace (S (idx - 1)) with idx by lia. split_and!; [done|done| | |done].
    + apply (Hidx _ _ Ec). lia.
    + destruct (Z.lt_ge_cases addr (f_addr next)); [done|]. assert (idx < idx)%nat by (by apply (Hidx _ _ En)). lia.
  - intros d rs r r0 Hr Hin Hle H0. apply list_elem_of_lookup in Hin as [k Hk].
    destruct (range_entry s d rs Hr k r Hk) as (p&i&x&g&_&Hi&Hg&Ea&Eb&_&_&Hsent&_&Hga).
    destruct (Hc x) as (_&g'&Hx&_). { split; [done|]. exists i, g. split_and!; [done|done|lia|lia|done]. }
    assert (x = c) as -> by congruence.
    destruct (first_range_linked s Hs d rs Hr k r (S idx) (idx - 1) c r0 Hk H0 Ec Ea ltac:(lia)) as (j'&f'&Ej'&Hj'&E'). rewrite Ej in Ej'. injection Ej' as <-. assert (f' = f) as <- by congruence. done.
Qed.

(** The ranges of a function, from the entry of its [k]-th range: all of them
    from the first entry, with the first range at the end; but from another entry
    only the ranges after the first up to it. *)
Theorem function_addr_ranges_from_entry s d rs k r i f : sorted_functions (functions s) -> function_ranges s d rs ->
  rs !! k = Some r -> functions s !! i = Some f -> f_addr f = r.1 ->
  function_addr_ranges s i = Ret (match k with O => drop 1 rs ++ take 1 rs | S _ => drop 1 (take (S k) rs) end).
Proof.
  intros Hs Hr Hk Hi Ea. unfold function_addr_ranges. rewrite Hi. cbn [lift_opt mbind outcome_bind].
  destruct (range_entry s d rs Hr k r Hk) as (p&i'&f'&g'&Hp&Hi'&Hi2&Ea'&Eb&Ep&Ed&Hsent&Haddr&Haddr2).
  assert (i' = i) as -> by (eapply (index_of_addr s Hs); [done|done|congruence]). assert (f' = f) as -> by congruence.
  unfold addr_of at 1. unfold is_addr in Haddr. rewrite Haddr. pose proof (lookup_lt_Some _ _ _ Hi) as Hlen. destruct k as [|k].
  2: { rewrite (addr_ranges_down s Hs d rs Hr k r _ i f) by (done || lia). cbn [mbind outcome_bind]. by rewrite reverse_involutive. }
  assert (Hfuel : exists fuel, (2 + length (functions s) = S fuel /\ length (functions s) < fuel)%nat) by (eexists; split; [reflexivity|lia]).
  destruct Hfuel as (fuel&->&Hfuel). cbn [addr_ranges_loop]. rewrite Hi. cbn [lift_opt mbind outcome_bind]. unfold is_sentinel in Hsent. rewrite Hsent. cbn [negb rassert mbind outcome_bind].
  unfold addr_of. rewrite Haddr, Hi2. unfold is_addr in Haddr2. cbn [lift_opt mbind outcome_bind]. rewrite Haddr2. cbn [lift_opt mbind outcome_bind].
  assert (Hpair : (f_addr f, f_addr g') = r) by (rewrite Ea, Eb; by destruct r). rewrite Hpair. clear Hpair. cbn [before] in Hp.
  destruct (range_entry s d rs Hr _ p Hp) as (q&j&g&g2&Hq&Hj&Hj2&Eg&_&Eq&Edg&_).
  rewrite (partition_sorted _ _ j g Hs Hj) by congruence. apply lookup_lt_Some in Hj2. rewrite (proj2 (Nat.leb_gt _ _)) by lia.
  rewrite Hj. cbn [lift_opt mbind outcome_bind]. rewrite Eg, Ep, Edg, Ed, !Z.eqb_refl. cbn [negb orb].
  destruct rs as [|r1 rs']; [done|]. injection Hk as ->. destruct rs' as [|r2 rs'].
  - cbn in Hp, Hq. simplify_eq. rewrite (proj2 (Z.leb_le _ _)) by lia. done.
  - cbn [length] in Hp, Hq. replace (S (S (length rs')) - 1)%nat with (S (length rs')) in Hp, Hq by lia. cbn [before] in Hq.
    pose proof (StronglySorted_lookup _ _ (ranges_sorted _ _ _ Hr) (length rs') (S (length rs')) q p ltac:(lia) Hq Hp) as Hqp. simpl in Hqp.
    rewrite (proj2 (Z.leb_gt _ _)) by lia. rewrite (addr_ranges_down s Hs d _ Hr (length rs') p fuel j g Hp Hj Eg) by (apply lookup_lt_Some in Hj; lia). cbn [mbind outcome_bind].
    rewrite reverse_cons, reverse_involutive, take_ge by (cbn [length]; lia). done.
Qed.

(** ** Examples *)

Definition example_fn (addr prev die : Z) : FunctionInfo := mkFn addr die 0 prev [] 0 0 Cpp (0, 0)%nat.
(** One function in two ranges, another between them, and an end marker. *)
Definition split_symbols : Symbols :=
  mkSymbols [] [example_fn 100 300 1; example_fn 200 200 2; example_fn 300 100 1; sentinel 400] [] [] [].
Lemma split_sorted : sorted_functions (functions split_symbols).
Proof. repeat constructor. Qed.
Lemma split_ranges : function_ranges split_symbols 1 [(100, 200); (300, 400)].
Proof.
  constructor; [repeat constructor|]. intros [|[|k]] r p Hr Hp; simpl in *; simplify_eq/=.
  - exists 0%nat, (example_fn 100 300 1), (example_fn 200 200 2). by split_and!.
  - exists 2%nat, (example_fn 300 100 1), (sentinel 400). by split_and!.
Qed.
Lemma addr_to_function_covers_witness : exists f i, addr_to_function split_symbols 350 = Ret (f, i) /\ f_addr f = 100.
Proof.
  pose proof (addr_to_function_covers split_symbols 350 split_sorted) as H.
  destruct (addr_to_function split_symbols 350) as [[f i]|e|] eqn:E; [|by vm_compute in E|by vm_compute in E].
  exists f, i. split; [reflexivity|]. destruct H as (_&_&H). apply (H 1 [(100, 200); (300, 400)] (300, 400) (100, 200) split_ranges); [|simpl; lia|reflexivity].
  apply list_elem_of_further, list_elem_of_here.
Defined.
Lemma function_addr_ranges_from_entry_witness :
  function_addr_ranges split_symbols 0 = Ret [(300, 400); (100, 200)] /\ function_addr_ranges split_symbols 2 = Ret [(300, 400)].
Proof.
  split.
  - exact (function_addr_ranges_from_entry split_symbols 1 _ 0 (100, 200) 0 (example_fn 100 300 1) split_sorted split_ranges eq_refl eq_refl eq_refl).
  - exact (function_addr_ranges_from_entry split_symbols 1 _ 1 (300, 400) 2 (example_fn 300 100 1) split_sorted split_ranges eq_refl eq_refl eq_refl).
Defined.

(** A sort and a heap to evaluate with. *)
#[local] Instance example_sort : SliceSort (by_key fkey) := merge_slice_sort _.
#[local] Instance example_key_dec : RelDecision (key_le (K := Reverse)).
Proof. intros x y. simpl. apply _. Defined.
#[local] Instance example_heap : BinaryHeap Reverse := list_heap.
Definition example_loader (fs : list FunctionInfo) (end_ : Z) : SymbolsLoaderShard := mkLoader (mkShard [] [] [] [] [] [] []) 0 [] fs end_.
Definition example_shards : list SymbolsLoaderShard :=
  [example_loader [example_fn 300 300 2; mkFn 300 U64_MAX 300 300 [] 0 FunctionFlags.SYMTAB UnknownLanguage (0, 0)%nat] 400;
   example_loader [example_fn 100 100 1] 250].
Definition table_addrs (r : partial (list FunctionInfo)) : list Z := match r with Ret fs => map f_addr fs | _ => [] end.
Lemma function_table_sorted_witness : exists fs,
  dedup_functions (map (fun sh => set_functions (sort_functions (shard_functions sh)) sh) example_shards) (Some (50, 450)) = Ret fs /\
  map f_addr fs = [100; 300; 400; 500] /\ sorted_functions fs.
Proof.
  assert (Hok : Forall (fun sh => Forall fn_ok (shard_functions sh)) example_shards) by (repeat constructor; unfold fn_ok; simpl; lia).
  assert (Ha : Forall fn_ok (additional_functions (end_of_functions example_shards) (Some (50, 450)))) by (repeat constructor; unfold fn_ok; vm_compute; intuition congruence).
  assert (Hs : sorted_functions (additional_functions (end_of_functions example_shards) (Some (50, 450)))) by (vm_compute; repeat constructor).
  destruct (function_table_sorted example_shards (Some (50, 450)) Hok Ha Hs) as (fs&E&Hfs&_). exists fs. split; [exact E|]. split; [|exact Hfs].
  apply (f_equal table_addrs) in E. vm_compute in E. symmetry. exact E.
Defined.

(** When .text ends below the end of the last function, the two end markers
    are not in order, so that one source of the merge is not sorted and the table
    of functions is not either: here the marker at 200 comes last. *)
Theorem text_end_marker_out_of_order :
  table_addrs (dedup_functions (map (fun sh => set_functions (sort_functions (shard_functions sh)) sh) example_shards) (Some (50, 150))) =
    [100; 300; 400; 200].
Proof. vm_compute. reflexivity. Qed.
