(* ===== verification/LookupSpec.v ===== *)
(** Lookups in the tables of symbols: the addresses of a line, and the functions
    that inlined calls refer to. *)
From Stdlib Require Import ZArith Lia.
From stdpp Require Import base list sorting.
From S2P Require Import Prelude Errors StdSort LineInfo MergeIterator Symbols SymbolsLoad FunctionsSpec.
Open Scope Z_scope.

(** ** Addresses of a line *)

(** The tables are sorted by file and line, and end markers are not in them. *)
Definition line_le (l k : LineInfo) : Prop :=
  exists f g, l_file_idx l = Some f /\ l_file_idx k = Some g /\ (f < g \/ f = g /\ l_line l <= l_line k).
Definition lines_sorted (ls : list LineInfo) : Prop := StronglySorted line_le ls /\ Forall (fun l => is_Some (l_file_idx l)) ls.

Section LineToAddrs.
  Context (file_idx line_number : Z) (only_statements : bool).
Definition wanted (l : LineInfo) : bool := negb only_statements || is_statement l.
(** Lines of the file from the number on, and those with the number. *)
Definition candidate (l : LineInfo) : Prop := l_file_idx l = Some file_idx /\ line_number <= l_line l /\ wanted l = true.
Definition exact_line (l : LineInfo) : bool := bool_decide (l_file_idx l = Some file_idx) && (l_line l =? line_number) && wanted l.
Definition at_or_after (l : LineInfo) : Prop := exists f, l_file_idx l = Some f /\ (file_idx < f \/ file_idx = f /\ line_number <= l_line l).

Lemma none_exact x ls : Forall (line_le x) ls -> at_or_after x -> ~ (l_file_idx x = Some file_idx /\ l_line x = line_number) -> List.filter exact_line ls = [].
Proof using Type.
  intros Hle (f&Hf&Hx) Hne. induction Hle as [|k ls (f'&g&Hf'&Hg&Hk) _ IH]; [done|]. cbn [List.filter]. rewrite IH.
  unfold exact_line. case_bool_decide as Hb; [|done]. destruct (Z.eqb_spec (l_line k) line_number); [|done]. exfalso. apply Hne.
  simplify_eq. split; [rewrite Hf'; f_equal; lia|lia].
Qed.
Lemma take_line_exact ls : StronglySorted line_le ls -> Forall at_or_after ls -> take_line file_idx line_number only_statements ls = List.filter exact_line ls.
Proof using Type.
  induction 1 as [|x ls _ IH Hx]; intros Ha; [done|]. apply Forall_cons in Ha as [Hax Ha]. cbn [take_line List.filter].
  destruct (bool_decide (l_file_idx x = Some file_idx) && (l_line x =? line_number)) eqn:E.
  - rewrite IH by done. unfold exact_line at 2. rewrite E. unfold wanted. by destruct (_ || _).
  - unfold exact_line at 1. rewrite E. cbn [andb]. rewrite (none_exact x ls Hx Hax); [done|]. intros [H1 H2].
    rewrite H1, H2, Z.eqb_refl, bool_decide_true in E by done. done.
Qed.
(** From the first line that is wanted. *)
Lemma skip_takes ls : StronglySorted line_le ls -> Forall at_or_after ls ->
  let rest := skip_non_statements only_statements ls in
  take_line file_idx line_number only_statements rest = List.filter exact_line ls /\
  match rest with
  | l :: _ => if bool_decide (l_file_idx l = Some file_idx) then l ∈ ls /\ candidate l /\ forall k, k ∈ ls -> candidate k -> l_line l <= l_line k
              else forall k, k ∈ ls -> ~ candidate k
  | [] => forall k, k ∈ ls -> ~ candidate k
  end.
Proof using Type.
  induction 1 as [|x ls Hs IH Hx]; intros Ha; cbn [skip_non_statements]; [split; [done|]; by intros k ?%elem_of_nil|].
  pose proof Ha as Hall. apply Forall_cons in Ha as [Hax Ha]. assert (Hw : (only_statements && negb (is_statement x)) = negb (wanted x)) by (unfold wanted; by destruct only_statements, (is_statement x)).
  rewrite Hw. destruct (wanted x) eqn:Ew; cbn [negb].
  - split; [by apply take_line_exact; [constructor|]|]. destruct Hax as (f&Hf&Hfx). case_bool_decide as Hb.
    + split; [apply list_elem_of_here|]. split; [split_and!; [done| |done]; simplify_eq; lia|]. intros k [->|Hk]%elem_of_cons (Hkf&_); [lia|].
      rewrite Forall_forall in Hx. destruct (Hx k Hk) as (f1&g&H1&H2&H3). simplify_eq. lia.
    + intros k [->|Hk]%elem_of_cons (Hkf&_); [done|]. rewrite Forall_forall in Hx. destruct (Hx k Hk) as (f1&g&H1&H2&H3). simplify_eq.
      apply Hb. rewrite Hf. f_equal. lia.
  - destruct (IH Ha) as [H1 H2]. split; [cbn [List.filter]; unfold exact_line at 1; by rewrite Ew, andb_false_r|].
    destruct (skip_non_statements only_statements ls) as [|l rest].
    + intros k [->|Hk]%elem_of_cons; [|by apply H2]. intros (_&_&?). congruence.
    + case_bool_decide.
      * destruct H2 as (Hin&Hc&Hmin). split; [by apply list_elem_of_further|]. split; [done|]. intros k [->|Hk]%elem_of_cons Hck; [|by apply Hmin].
        destruct Hck as (_&_&?). congruence.
      * intros k [->|Hk]%elem_of_cons; [|by apply H2]. intros (_&_&?). congruence.
Qed.

Definition before_line (l : LineInfo) : partial bool := f ← file_of l; Ret ((f <? file_idx) || ((f =? file_idx) && (l_line l <? line_number))).
Lemma shard_lines ls : lines_sorted ls -> exists idx, partition_point_m before_line ls = Ret idx /\
  let rest := skip_non_statements only_statements (drop idx ls) in
  take_line file_idx line_number only_statements rest = List.filter exact_line ls /\
  match rest with
  | l :: _ => if bool_decide (l_file_idx l = Some file_idx) then l ∈ ls /\ candidate l /\ forall k, k ∈ ls -> candidate k -> l_line l <= l_line k
              else forall k, k ∈ ls -> ~ candidate k
  | [] => forall k, k ∈ ls -> ~ candidate k
  end.
Proof using Type.
  intros [Hs Hf]. induction Hs as [|x ls Hs IH Hx]; cbn [partition_point_m].
  { exists 0%nat. split; [done|]. split; [done|]. by intros k ?%elem_of_nil. }
  apply Forall_cons in Hf as [[f Hfx] Hf]. 
  assert (Eb : before_line x = Ret ((f <? file_idx) || ((f =? file_idx) && (l_line x <? line_number)))) by (unfold before_line, file_of; by rewrite Hfx).
  rewrite Eb. cbn [mbind outcome_bind].
  destruct ((f <? file_idx) || ((f =? file_idx) && (l_line x <? line_number))) eqn:E.
  - destruct (IH Hf) as (idx&->&H1&H2). cbn [mbind outcome_bind]. exists (S idx). split; [done|]. cbn [drop].
    assert (Hnc : ~ candidate x). { intros (H&Hl&_). simplify_eq. rewrite Z.ltb_irrefl, Z.eqb_refl, (proj2 (Z.ltb_ge _ _)) in E by done. done. }
    assert (Hne : exact_line x = false). { unfold exact_line. case_bool_decide as Hb; [|done]. destruct (Z.eqb_spec (l_line x) line_number); [|done].
      exfalso. simplify_eq. lia. }
    split; [cbn [List.filter]; by rewrite Hne|]. destruct (skip_non_statements _ _) as [|l rest].
    + intros k [->|Hk]%elem_of_cons; [done|by apply H2].
    + case_bool_decide; [|intros k [->|Hk]%elem_of_cons; [done|by apply H2]]. destruct H2 as (Hin&Hc&Hmin). split; [by apply list_elem_of_further|].
      split; [done|]. intros k [->|Hk]%elem_of_cons Hck; [done|by apply Hmin].
  - exists 0%nat. split; [done|]. rewrite drop_0. apply skip_takes; [by constructor|]. constructor.
    + exists f. split; [done|]. lia.
    + eapply Forall_impl; [exact Hx|]. intros k (f1&g&H1&H2&H3). simplify_eq. exists g. split; [done|]. lia.
Qed.

(** What the loop over the shards keeps. *)
Definition least_line (ls : list LineInfo) (m : Z) : Prop :=
  (m = U64_MAX /\ forall k, k ∈ ls -> ~ candidate k) \/
  ((exists l, l ∈ ls /\ candidate l /\ l_line l = m) /\ forall k, k ∈ ls -> candidate k -> m <= l_line k).
Lemma loop_ok shs seen res m : Forall (fun sh => lines_sorted (line_to_addr sh)) shs -> (forall l, l_line l < U64_MAX) -> least_line seen m ->
  exists m', line_to_addrs_loop shs file_idx line_number only_statements res m =
    Ret (res ++ List.filter exact_line (concat (map line_to_addr shs)), m') /\ least_line (seen ++ concat (map line_to_addr shs)) m'.
Proof using Type.
  intros Hs Hline. revert seen res m; induction Hs as [|sh shs Hsh _ IH]; intros seen res m Hm; cbn [line_to_addrs_loop map concat].
  { exists m. by rewrite !app_nil_r. }
  destruct (shard_lines _ Hsh) as (idx&E&Ht&Hh). unfold before_line in E. rewrite E. cbn [mbind outcome_bind]. rewrite Ht.
  rewrite (app_assoc seen), List.filter_app, app_assoc. apply IH. clear E Ht IH.
  set (ls := line_to_addr sh) in *. assert (Hnone : (forall k, k ∈ ls -> ~ candidate k) -> least_line (seen ++ ls) m).
  { intros Hn. destruct Hm as [[-> Hm]|[(l&Hl&Hc&<-) Hm]]; [left|right].
    - split; [done|]. intros k [?|?]%elem_of_app; [by apply Hm|by apply Hn].
    - split; [exists l; split; [by apply elem_of_app; left|done]|]. intros k [?|?]%elem_of_app Hk; [by apply Hm|by destruct (Hn k)]. }
  destruct (skip_non_statements _ _) as [|l rest]; [by apply Hnone|]. case_bool_decide; [|by apply Hnone]. destruct Hh as (Hin&Hc&Hmin). right.
  destruct Hm as [[-> Hm]|[(l'&Hl'&Hc'&<-) Hm]].
  - rewrite Z.min_r by (pose proof (Hline l); lia). split; [exists l; split; [by apply elem_of_app; right|done]|].
    intros k [?|?]%elem_of_app Hk; [by destruct (Hm k)|by apply Hmin].
  - split.
    + destruct (Z.min_spec (l_line l') (l_line l)) as [[_ ->]|[_ ->]]; [exists l'|exists l]; (split; [apply elem_of_app; auto|done]).
    + intros k [?|?]%elem_of_app Hk; [specialize (Hm k ltac:(done) Hk)|specialize (Hmin k ltac:(done) Hk)]; lia.
Qed.
End LineToAddrs.

(** C23. The addresses of a line are, in all shards, exactly the entries with its
    file and number, those for statements only if so asked; when there are none,
    the result is the next line of the file that has one, or that there is none. *)
Theorem line_to_addrs_correct s file_idx line_number only : Forall (fun sh => lines_sorted (line_to_addr sh)) (shards s) ->
  let all := concat (map line_to_addr (shards s)) in
  exists r, line_to_addrs s file_idx line_number only = Ret r /\
  match r with
  | inl res => res = List.filter (exact_line file_idx line_number only) all /\ res <> []
  | inr (Some m) => line_number < m /\ (exists l, l ∈ all /\ candidate file_idx line_number only l /\ l_line l = m) /\
      forall k, k ∈ all -> candidate file_idx line_number only k -> m <= l_line k
  | inr None => forall k, k ∈ all -> ~ candidate file_idx line_number only k
  end.
Proof.
  intros Hs all. assert (Hline : forall l, l_line l < U64_MAX).
  { intros l. unfold l_line. assert (Hb := Z.mod_pos_bound (Z.shiftr (data1 l) 12) (2 ^ 26) ltac:(lia)). rewrite <- Z.land_ones in Hb by lia.
    change (Z.shiftl 1 26 - 1) with (Z.ones 26). unfold U64_MAX. lia. }
  destruct (loop_ok file_idx line_number only (shards s) [] [] U64_MAX Hs Hline) as (m&E&Hm).
  { left. split; [done|]. by intros k ?%elem_of_nil. }
  unfold line_to_addrs. rewrite E. cbn [mbind outcome_bind app] in *. fold all in Hm |- *. destruct (List.filter _ all) as [|l res] eqn:Ef; [|eexists; split; [done|by split]].
  assert (Hno : forall k, k ∈ all -> candidate file_idx line_number only k -> l_line k <> line_number).
  { intros k Hk (Hf&_&Hw) Hl. assert (Hin : In k (List.filter (exact_line file_idx line_number only) all)); [|by rewrite Ef in Hin].
    apply filter_In. split; [by apply list_elem_of_In|]. unfold exact_line. by rewrite Hf, Hl, Hw, Z.eqb_refl, bool_decide_true. }
  eexists. split; [done|]. destruct Hm as [[-> Hm]|[(l&Hl&Hc&<-) Hm]]; [by rewrite Z.eqb_refl|].
  rewrite (proj2 (Z.eqb_neq _ _)) by (pose proof (Hline l); lia). split; [|split; [by exists l|done]].
  specialize (Hno l Hl Hc). destruct Hc as (_&?&_). lia.
Qed.

(** ** Functions that calls refer to *)

Section Callees.
  Context `{!SliceSort (by_key (fun t : Z * nat => t.1))}.
(** The entry of .debug_info that function [i] comes from, for one that is
    inlined somewhere. *)
Definition inlined_from (fs : list FunctionInfo) (d : DieOffset) (i : nat) : Prop :=
  exists f, fs !! i = Some f /\ die f = d /\ contains_flag (flags f) FunctionFlags.INLINED = true.
Lemma elem_of_combine_seq {A} (l : list A) k i x : (i, x) ∈ combine (seq k (length l)) l <-> (k <= i)%nat /\ l !! (i - k)%nat = Some x.
Proof using Type.
  revert k; induction l as [|y l IH]; intros k; cbn [length seq combine].
  - split; [by intros ?%elem_of_nil|by intros []].
  - rewrite elem_of_cons, IH. split.
    + intros [[= -> ->]|[Hle Hx]]; [by rewrite Nat.sub_diag|]. split; [lia|]. by replace (i - k)%nat with (S (i - S k)) by lia.
    + intros [Hle Hx]. destruct (decide (i = k)) as [->|]; [left; rewrite Nat.sub_diag in Hx; by injection Hx as ->|right].
      split; [lia|]. by replace (i - k)%nat with (S (i - S k)) in Hx by lia.
Qed.
Lemma die_shard_elem n fs sh d i tbl : die_to_function_shards n fs !! sh = Some tbl -> (d, i) ∈ tbl <-> inlined_from fs d i /\ d mod Z.of_nat n = Z.of_nat sh.
Proof using Type.
  intros Ht. unfold die_to_function_shards in Ht. rewrite list_lookup_fmap in Ht. destruct (seq 0 n !! sh) as [sh'|] eqn:Es; [|done].
  apply lookup_seq in Es as [-> _]. injection Ht as <-. rewrite slice_sort_perm, list_elem_of_omap. unfold inlined_from. split.
  - intros ([j f]&Hj&Ho). apply elem_of_combine_seq in Hj as [_ Hj]. rewrite Nat.sub_0_r in Hj. destruct (_ && _) eqn:E; [|done].
    apply andb_true_iff in E as [Ef Em%Z.eqb_eq]. injection Ho as <- <-. split; [by exists f|]. by rewrite Em.
  - intros [(f&Hf&<-&Hi) Hm]. exists (i, f). split; [apply elem_of_combine_seq; rewrite Nat.sub_0_r; split; [lia|done]|].
    by rewrite Hi, Hm, Z.eqb_refl.
Qed.
Lemma die_shard_sorted n fs sh tbl : die_to_function_shards n fs !! sh = Some tbl -> StronglySorted (by_key (fun t : Z * nat => t.1)) tbl.
Proof using Type.
  intros Ht. unfold die_to_function_shards in Ht. rewrite list_lookup_fmap in Ht. destruct (seq 0 n !! sh); [|done]. injection Ht as <-. apply slice_sort_sorted.
Qed.
Lemma resolve_callee_ok n fs d : (0 < n)%nat -> 0 <= d -> exists r, resolve_callee (die_to_function_shards n fs) d = Ret r /\
  ((exists i, r = Z.of_nat i /\ inlined_from fs d i) \/ r = U64_MAX /\ forall i, ~ inlined_from fs d i).
Proof using Type.
  intros Hn Hd. unfold resolve_callee. assert (Hlen : zlen (die_to_function_shards n fs) = Z.of_nat n) by (unfold zlen, die_to_function_shards; by rewrite length_map, length_seq).
  rewrite Hlen. pose proof (Z.mod_pos_bound d (Z.of_nat n) ltac:(lia)) as Hm.
  destruct (proj2 (zget_range (die_to_function_shards n fs) (d mod Z.of_nat n)) ltac:(rewrite Hlen; lia)) as [tbl Ht]. rewrite Ht. cbn [lift_opt mbind outcome_bind].
  eexists. split; [done|]. apply zget_Some in Ht as [_ Ht]. pose proof (fun i => die_shard_elem n fs _ d i tbl Ht) as Helem. rewrite Z2Nat.id in Helem by lia.
  set (pos := partition_point _ tbl). destruct (tbl !! pos) as [[e i]|] eqn:Ep; cbn [fst snd].
  - pose proof (partition_point_at _ _ _ Ep) as Hge. cbn in Hge. destruct (Z.eqb_spec e d) as [->|Hne].
    + left. exists i. split; [done|]. apply Helem. by eapply list_elem_of_lookup_2.
    + right. split; [done|]. intros j Hj. assert (Hin : (d, j) ∈ tbl) by (by apply Helem). apply list_elem_of_lookup in Hin as [q Hq].
      destruct (Nat.lt_trichotomy q pos) as [Hlt|[->|Hgt]]; [|by simplify_eq|].
      * pose proof (partition_point_before _ _ _ _ Hlt Hq). simpl in *. lia.
      * pose proof (StronglySorted_lookup _ _ (die_shard_sorted _ _ _ _ Ht) _ _ _ _ Hgt Ep Hq) as H. unfold by_key in H. simpl in H. lia.
  - right. split; [done|]. intros j Hj. assert (Hin : (d, j) ∈ tbl) by (by apply Helem). apply list_elem_of_lookup in Hin as [q Hq].
    assert (Hlt : (q < pos)%nat) by (apply lookup_ge_None in Ep; apply lookup_lt_Some in Hq; lia).
    pose proof (partition_point_before _ _ _ _ Hlt Hq). simpl in *. lia.
Qed.

(** What an inlined call refers to after loading. *)
Definition callee_resolved (fs : list FunctionInfo) (before after : Subfunction) : Prop :=
  addr_range after = addr_range before /\ identity after = identity before /\ call_line after = call_line before /\ local_variables after = local_variables before /\
  if identity before =? 0 then callee_idx after = callee_idx before
  else (exists i, callee_idx after = Z.of_nat i /\ inlined_from fs (callee_idx before) i) \/
       callee_idx after = U64_MAX /\ forall i, ~ inlined_from fs (callee_idx before) i.

(** The inlined calls get the index of a function that comes from the entry
    of .debug_info they name and is marked as inlined, or [usize::MAX] when there
    is none, in whatever shard the entry is; nothing else of them changes, and the
    root of a function keeps the offset of its entry. *)
Theorem callee_references_resolved n fs sfs : (0 < n)%nat -> Forall (fun sf => 0 <= callee_idx sf) sfs ->
  exists sfs', fixup_function_refs (die_to_function_shards n fs) sfs = Ret sfs' /\ Forall2 (callee_resolved fs) sfs sfs'.
Proof using Type.
  intros Hn. induction 1 as [|sf sfs Hsf _ (sfs'&IH&IH2)]; cbn [fixup_function_refs]; [by exists []|]. rewrite IH. unfold callee_resolved in *.
  destruct (identity sf =? 0) eqn:E; cbn [mbind outcome_bind].
  - eexists. split; [done|]. constructor; [|done]. by rewrite E.
  - destruct (resolve_callee_ok n fs (callee_idx sf) Hn Hsf) as (r&->&Hr). cbn [mbind outcome_bind]. eexists. split; [done|].
    constructor; [|done]. cbn [addr_range identity call_line local_variables callee_idx]. by rewrite E.
Qed.
End Callees.

(** ** Examples *)

Definition example_line (file line flags : Z) : LineInfo := match line_new 16 (Some file) line 1 flags 0 with Ret l => l | _ => line_invalid end.
Definition line_shard (ls : list LineInfo) : SymbolsShard := mkShard [] ls [] [] [] [] [].
Definition line_symbols : Symbols :=
  mkSymbols [] [] [line_shard [example_line 1 7 2; example_line 1 9 0; example_line 2 3 2]; line_shard [example_line 1 8 2; example_line 1 12 2]] [] [].
Lemma line_symbols_sorted : Forall (fun sh => lines_sorted (line_to_addr sh)) (shards line_symbols).
Proof.
  assert (H : forall a b f g x y, l_file_idx a = Some f -> l_file_idx b = Some g -> l_line a = x -> l_line b = y -> (f < g \/ f = g /\ x <= y) -> line_le a b)
    by (intros a b f g x y Hf Hg <- <- Hle; by exists f, g).
  assert (Hs : forall f l n, l_file_idx (example_line f l n) = Some f -> is_Some (l_file_idx (example_line f l n))) by (intros f l n E; by exists f).
  repeat (constructor || split); try (eapply H; [vm_compute; reflexivity..|lia]); by eapply Hs; vm_compute.
Qed.
Lemma line_to_addrs_correct_witness : line_to_addrs line_symbols 1 8 true = Ret (inl [example_line 1 8 2]) /\ line_to_addrs line_symbols 1 9 true = Ret (inr (Some 12)).
Proof.
  split.
  - destruct (line_to_addrs_correct line_symbols 1 8 true line_symbols_sorted) as (r&E&_). rewrite E. vm_compute in E. injection E as <-. vm_compute. reflexivity.
  - destruct (line_to_addrs_correct line_symbols 1 9 true line_symbols_sorted) as (r&E&_). rewrite E. vm_compute in E. injection E as <-. reflexivity.
Defined.
Definition inlined_fn : FunctionInfo := mkFn (2 ^ 60 + 77) 77 0 (2 ^ 60 + 77) [] 0 FunctionFlags.INLINED Cpp (0, 0)%nat.
Definition call_of (die identity : Z) : Subfunction := mkSf die 0 line_invalid (16, 32) identity.
#[local] Instance die_sort : SliceSort (by_key (fun t : Z * nat => t.1)) := merge_slice_sort _.
Lemma callee_references_resolved_witness :
  fixup_function_refs (die_to_function_shards 2 [example_fn 100 100 5; inlined_fn]) [call_of 5 0; call_of 77 1; call_of 5 2] =
    Ret [call_of 5 0; call_of 1 1; call_of U64_MAX 2].
Proof.
  destruct (callee_references_resolved 2 [example_fn 100 100 5; inlined_fn] [call_of 5 0; call_of 77 1; call_of 5 2] ltac:(lia)) as (sfs'&E&_).
  { repeat constructor; vm_compute; congruence. }
  rewrite E. vm_compute in E. injection E as <-. vm_compute. reflexivity.
Defined.
