(* ===== verification/Simd.v ===== *)
(** The vector instructions of x86 that the source uses through [std::arch]
    (src/search.rs, src/dwarf.rs): a register is the list of its bytes, lowest
    address first. A load from an address that is not mapped is a panic: the
    processor stops the program. *)
From Stdlib Require Import ZArith Lia.
From stdpp Require Import base list.
From S2P Require Import Prelude.
Open Scope Z_scope.

(** ** Registers *)

Abbreviation register := (list Z).
(** Bytes in two's complement. *)
Definition as_i8 (b : Z) : Z := if b <? 128 then b else b - 256.

(** [_mm_setzero_si128], [_mm256_set1_epi8] *)
Definition set1_epi8 (width : nat) (b : Z) : register := replicate width (wrap8 b).
(** [_mm256_sub_epi8] *)
Definition sub_epi8 : register -> register -> register := zip_with (fun a b => wrap8 (a - b)).
(** [_mm256_cmpgt_epi8], of signed bytes *)
Definition cmpgt_epi8 : register -> register -> register := zip_with (fun a b => if as_i8 b <? as_i8 a then 255 else 0).
(** [_mm_cmpeq_epi8], [_mm256_cmpeq_epi8] *)
Definition cmpeq_epi8 : register -> register -> register := zip_with (fun a b => if a =? b then 255 else 0).
(** [_mm256_or_si256], [_mm256_and_si256] *)
Definition or_si : register -> register -> register := zip_with Z.lor.
Definition and_si : register -> register -> register := zip_with Z.land.
(** [_mm_movemask_epi8], [_mm256_movemask_epi8]: the top bits of the bytes. *)
Fixpoint movemask_epi8 (r : register) : Z :=
  match r with [] => 0 | b :: r => Z.b2z (128 <=? b) + 2 * movemask_epi8 r end.
(** [x.trailing_zeros()], at most [n] for a number of [n] bits *)
Fixpoint trailing_zeros (n : nat) (x : Z) : Z :=
  match n with O => 0 | S n => if Z.odd x then 0 else 1 + trailing_zeros n (x / 2) end.

(** ** Memory *)

(** Memory that is mapped has a byte at the address. *)
Abbreviation memory := (Z -> option Z).
(** [_mm_loadu_si128], [_mm256_loadu_si256], [ptr::read_unaligned] *)
Fixpoint load (mem : memory) (p : Z) (width : nat) : partial register :=
  match width with
  | O => Ret []
  | S n => b ← lift_opt (mem p); r ← load mem (p + 1) n; Ret (b :: r)
  end.

(** ** Lemmas *)

Lemma movemask_range r : 0 <= movemask_epi8 r < 2 ^ zlen r.
Proof.
  induction r as [|b r IH]; [done|]. rewrite zlen_cons, Z.pow_add_r by (pose proof (zlen_nonneg r); lia).
  cbn [movemask_epi8]. destruct (128 <=? b); simpl; lia.
Qed.
Lemma movemask_testbit r (i : nat) b : r !! i = Some b -> Z.testbit (movemask_epi8 r) (Z.of_nat i) = (128 <=? b).
Proof.
  revert i; induction r as [|a r IH]; intros i Hi; [done|]. cbn [movemask_epi8]. destruct i as [|i].
  - injection Hi as ->. rewrite Z.add_comm. apply Z.testbit_0_r.
  - rewrite Z.add_comm, Nat2Z.inj_succ, Z.testbit_succ_r by lia. by apply IH.
Qed.
Lemma movemask_testbit_ge r i : zlen r <= i -> Z.testbit (movemask_epi8 r) i = false.
Proof.
  intros Hi. pose proof (movemask_range r) as Hr. pose proof (zlen_nonneg r).
  destruct (Z.eqb_spec (movemask_epi8 r) 0) as [->|]; [apply Z.testbit_0_l|].
  apply Z.bits_above_log2; [lia|]. apply Z.log2_lt_pow2; [lia|].
  apply Z.lt_le_trans with (2 ^ zlen r); [lia|]. apply Z.pow_le_mono_r; lia.
Qed.
(** A mask is covered when the bits it has are set. *)
Lemma land_covers m mask : (Z.land m mask =? mask) = true <-> forall i, 0 <= i -> Z.testbit mask i = true -> Z.testbit m i = true.
Proof.
  rewrite Z.eqb_eq. split.
  - intros H i Hi Hm. rewrite <- H, Z.land_spec in Hm. by apply andb_true_iff in Hm as [? _].
  - intros H. apply Z.bits_inj'. intros i Hi. rewrite Z.land_spec. destruct (Z.testbit mask i) eqn:E; [|apply andb_false_r].
    by rewrite H.
Qed.

Lemma load_mapped mem p n : (forall i, (i < n)%nat -> mem (p + Z.of_nat i) <> None) ->
  exists r, load mem p n = Ret r /\ length r = n /\ forall i, (i < n)%nat -> r !! i = mem (p + Z.of_nat i).
Proof.
  revert p; induction n as [|n IH]; intros p H.
  - exists []. split_and!; [done|done|]. intros i Hi. lia.
  - destruct (mem p) as [b|] eqn:Hb; [|by destruct (H 0%nat ltac:(lia)); rewrite Z.add_0_r].
    destruct (IH (p + 1)) as (r&Hr&Hlen&Hl).
    { intros i Hi. specialize (H (S i) ltac:(lia)). rewrite Nat2Z.inj_succ in H. by replace (p + 1 + Z.of_nat i) with (p + Z.succ (Z.of_nat i)) by lia. }
    exists (b :: r). cbn [load]. rewrite Hb. cbn [lift_opt mbind outcome_bind]. rewrite Hr. split_and!; [done|by simpl; rewrite Hlen|].
    intros [|i] Hi; simpl; [by rewrite Z.add_0_r|]. rewrite Hl by lia. f_equal. lia.
Qed.
