(* ===== verification/FuzzyMatch.v ===== *)
(** The matching of a search query against names (src/search.rs): the query's
    text, substring search with vector instructions and without, and the score
    of a match. *)
From Stdlib Require Import ZArith Lia.
From stdpp Require Import base list.
From S2P Require Import Prelude RustStr RustText Simd.
Open Scope Z_scope.

(** ** Queries *)

(** A [PaddedString] holds its text between 32 zero bytes on each side, unless
    it is the default one. *)
Record PaddedString := mkPadded { padded : list Z }.
Definition padded_new (a : list Z) : PaddedString := mkPadded (replicate 32 0 ++ a ++ replicate 32 0).
Definition padded_default : PaddedString := mkPadded [].
Definition padded_get (p : PaddedString) : partial (list Z) :=
  match padded p with [] => Ret [] | s => e ← usub (zlen s) 32; zslice s 32 e end.

Record SearchQuery := mkQuery {
  q_s : PaddedString; case_sensitive : bool; is_empty : bool;
  filename : PaddedString; search_line : option Z; go_to_line : option Z
}.

Definition is_ascii_uppercase (b : Z) : bool := (65 <=? b) && (b <=? 90).
Definition is_ascii_lowercase (b : Z) : bool := (97 <=? b) && (b <=? 122).
Definition is_ascii_digit (b : Z) : bool := (48 <=? b) && (b <=? 57).
Definition is_ascii_alphanumeric (b : Z) : bool := is_ascii_uppercase b || is_ascii_lowercase b || is_ascii_digit b.
Definition to_ascii_lowercase (b : Z) : Z := if is_ascii_uppercase b then b + 32 else b.

(** [s.find(c)], and [s.rfind(c)]: the text before and after the character. *)
Definition find_char (c : Z) (s : list Z) : option (list Z * list Z) := split_once c s.
Fixpoint rfind_char (c : Z) (s : list Z) : option (list Z * list Z) :=
  match s with
  | [] => None
  | b :: s =>
      match rfind_char c s with
      | Some (x, y) => Some (b :: x, y)
      | None => if b =? c then Some ([], s) else None
      end
  end.

(** "query@file:line" *)
Definition split_file (s : list Z) : list Z * list Z * option Z :=
  match find_char 64 s with
  | None => (s, [], None)
  | Some (query, filename) =>
      match find_char 58 filename with
      | None => (query, filename, None)
      | Some (name, number) =>
          match parse_uint 64 number with
          | Some n => (query, name, Some n)
          | None => (query, if bool_decide (number = []) then name else filename, None)
          end
      end
  end.
(** "query:line" *)
Definition split_line (s query : list Z) : list Z * option Z :=
  match rfind_char 58 s with
  | None => (query, None)
  | Some (before, line_str) =>
      match parse_uint 64 line_str with
      | Some n => (before, Some n)
      | None => (if bool_decide (line_str = []) then before else query, None)
      end
  end.
Definition query_parse (s : list Z) (can_have_file can_go_to_line : bool) : partial SearchQuery :=
  let is_empty := bool_decide (s = []) in
  let case_sensitive := existsb is_ascii_uppercase s in
  _ ← rassert (negb can_have_file || negb can_go_to_line);
  let '(query, filename, search_line) := if can_have_file then split_file s else (s, [], None) in
  let '(query, go_to_line) := if can_go_to_line then split_line s query else (query, None) in
  Ret (mkQuery (padded_new query) case_sensitive is_empty (padded_new filename) search_line go_to_line).

(** ** Substring search *)

(** The first [i] of [lo, lo + 1, ..] at which the test succeeds, trying [n]. *)
Fixpoint find_from (f : Z -> partial bool) (n : nat) (lo : Z) : partial (option Z) :=
  match n with
  | O => Ret None
  | S n => b ← f lo; if (b : bool) then Ret (Some lo) else find_from f n (lo + 1)
  end.
(** [for i in lo..hi] with a return. *)
Definition find_in (f : Z -> partial bool) (lo hi : Z) : partial (option Z) := find_from f (Z.to_nat (hi - lo)) lo.

Section Search.
  Context (mem : memory).

Definition compare (hay need : register) (upper_a_biased twenty_six_biased lowercase_mask : register) : Z :=
  let offset := sub_epi8 hay upper_a_biased in
  let is_upper := cmpgt_epi8 twenty_six_biased offset in
  let hay := or_si hay (and_si is_upper lowercase_mask) in
  movemask_epi8 (cmpeq_epi8 hay need).
Definition U32_MAX : Z := 2 ^ 32 - 1.

(** A slice: where it is in memory, and its bytes. *)
Record Slice := mkSlice { s_addr : Z; s_bytes : list Z }.
Definition subslice (s : Slice) (a b : Z) : partial Slice := r ← zslice (s_bytes s) a b; Ret (mkSlice (s_addr s + a) r).
(** [s[i..].as_ptr()] *)
Definition ptr_from (s : Slice) (i : Z) : partial Z := r ← subslice s i (zlen (s_bytes s)); Ret (s_addr r).
(** 32 bytes of the query at the offset from its text, within the padding. *)
Definition load_padded (p : PaddedString) (off : Z) : partial register := zslice (padded p) (32 + off) (64 + off).

Section Compare.
  Context (hay : Slice) (needle : PaddedString) (needle_len : Z) (cs : bool).
Let upper_a_biased := set1_epi8 32 (65 - 128).
Let twenty_six_biased := set1_epi8 32 (26 - 128).
Let lowercase_mask := set1_epi8 32 (if cs then 0 else 32).
  (** The mask of equal bytes of the haystack at an address and a register. *)
Definition compare_at (p : Z) (need : register) : partial Z :=
  h ← load mem p 32; Ret (compare h need upper_a_biased twenty_six_biased lowercase_mask).

(** The blocks of 32 bytes between the first and the last: where the loop ends. *)
Fixpoint compare_blocks (fuel : nat) (i j : Z) : partial Z :=
  match fuel with
  | O => Panic
  | S fuel =>
      if j <? needle_len - 32 then
        p ← ptr_from hay (i + j);
        needle_chunk ← load_padded needle j;
        m ← compare_at p needle_chunk;
        if negb (m =? U32_MAX) then Ret j else compare_blocks fuel i (j + 32)
      else Ret j
  end.
Definition match_long (first_32 last_32 : register) (i : Z) : partial bool :=
  p ← ptr_from hay i;
  m ← compare_at p first_32;
  if negb (m =? U32_MAX) then Ret false
  else
    q ← ptr_from hay (i + needle_len - 32);
    m ← compare_at q last_32;
    if negb (m =? U32_MAX) then Ret false
    else j ← compare_blocks (Z.to_nat needle_len) i 32; Ret (needle_len - 32 <=? j).
Definition match_prefix (prefix_needle : register) (prefix_mask : Z) (i : Z) : partial bool :=
  p ← ptr_from hay i;
  m ← compare_at p prefix_needle;
  Ret (Z.land m prefix_mask =? prefix_mask).
Definition match_suffix (suffix_needle : register) (suffix_mask : Z) (i : Z) : partial bool :=
  m ← compare_at (s_addr hay + (i + needle_len) - 32) suffix_needle;
  Ret (Z.land m suffix_mask =? suffix_mask).
End Compare.

Definition memmem_avx2 (hay : Slice) (needle_padded : PaddedString) (cs : bool) : partial (option Z) :=
  needle ← padded_get needle_padded;
  let len := zlen (s_bytes hay) in
  let needle_len := zlen needle in
  if bool_decide (needle = []) then Ret (Some 0)
  else if len <? needle_len then Ret None
  else if 32 <? needle_len then
    first_32 ← load_padded needle_padded 0;
    last_32 ← load_padded needle_padded (needle_len - 32);
    find_in (match_long hay needle_padded needle_len cs first_32 last_32) 0 (len - needle_len + 1)
  else
    prefix_needle ← load_padded needle_padded 0;
    let prefix_mask := Z.shiftr U32_MAX (32 - needle_len) in
    suffix_needle ← load_padded needle_padded (needle_len - 32);
    let suffix_mask := Z.shiftl U32_MAX (32 - needle_len) mod 2 ^ 32 in
    let switch_point := wrapping_sub 32 (s_addr hay mod 64) in
    let switch_point := if 32 <? switch_point then 0 else switch_point in
    r ← find_in (match_prefix hay cs prefix_needle prefix_mask) 0 (Z.min switch_point (len - needle_len + 1));
    match r with
    | Some i => Ret (Some i)
    | None => find_in (match_suffix hay needle_len cs suffix_needle suffix_mask) switch_point (len - needle_len + 1)
    end.

(** The bytes of the window at [i], folded, against the query. *)
Fixpoint match_bytes (hay needle : list Z) : bool :=
  match needle, hay with
  | [], _ => true
  | n :: needle, h :: hay => (to_ascii_lowercase h =? n) && match_bytes hay needle
  | _ :: _, [] => false
  end.
Definition memmem_fallback (haystack : list Z) (needle_padded : PaddedString) (cs : bool) : partial (option Z) :=
  needle ← padded_get needle_padded;
  let n := zlen needle in
  if bool_decide (needle = []) then Ret (Some 0)
  else if zlen haystack <? n then Ret None
  else if cs then
    find_in (fun i => window ← zslice haystack i (i + n); Ret (bool_decide (window = needle))) 0 (zlen haystack - n + 1)
  else
    find_in (fun i => window ← zslice haystack i (i + n); Ret (match_bytes window needle)) 0 (zlen haystack - n + 1).
(** [avx2]: the processor has the instructions. *)
Definition memmem (avx2 : bool) (hay : Slice) (needle : PaddedString) (cs : bool) : partial (option Z) :=
  if avx2 then memmem_avx2 hay needle cs else memmem_fallback (s_bytes hay) needle cs.

(** ** Scores *)

(** The greedy search for a subsequence: how much of the query was found, the
    ranges pushed, where the open range started, and where the loop ended. *)
Fixpoint subsequence_loop (hay : list Z) (hay_i : Z) (needle : list Z) (cs : bool) (match_start : option Z) (ranges : list (Z * Z))
  : list Z * list (Z * Z) * option Z * Z :=
  match hay, needle with
  | c :: hay', n :: needle' =>
      if (if cs then c else to_ascii_lowercase c) =? n then
        subsequence_loop hay' (hay_i + 1) needle' cs (match match_start with None => Some hay_i | s => s end) ranges
      else
        match match_start with
        | Some s => subsequence_loop hay' (hay_i + 1) needle cs None (ranges ++ [(s, hay_i)])
        | None => subsequence_loop hay' (hay_i + 1) needle cs None ranges
        end
  | _, _ => (needle, ranges, match_start, hay_i)
  end.
Definition pack_score (case extra len : Z) : Z :=
  Z.lor (Z.lor (wrap64 (Z.shiftl case 61)) (wrap64 (Z.shiftl extra 32))) len.

(** The result when the query ends the name, when it is a substring at [i], and
    otherwise. *)
Definition score_suffix (haystack : list Z) (n : Z) (match_ranges : list (Z * Z)) : partial (option Z * list (Z * Z)) :=
  let len := zlen haystack in
  if len =? n then Ret (Some 0, match_ranges)
  else
    k ← usub (len - n) 1;
    b ← lift_opt (zget haystack k);
    Ret (Some (pack_score 1 (Z.shiftl (Z.b2z (is_ascii_alphanumeric b)) 1) len), match_ranges ++ [(len - n, len)]).
Definition score_substring (haystack : list Z) (n i : Z) (match_ranges : list (Z * Z)) : partial (option Z * list (Z * Z)) :=
  let len := zlen haystack in
  alphanum_before ← (if 0 <? i then b ← lift_opt (zget haystack (i - 1)); Ret (is_ascii_alphanumeric b) else Ret false);
  alphanum_after ← (if i + n <? len then b ← lift_opt (zget haystack (i + n)); Ret (is_ascii_alphanumeric b) else Ret false);
  let extra := Z.lor (Z.lor 4 (Z.shiftl (Z.b2z alphanum_before) 1)) (Z.b2z alphanum_after) in
  Ret (Some (pack_score 1 extra len), match_ranges ++ [(i, i + n)]).
Definition score_subsequence (haystack needle : list Z) (cs : bool) (match_ranges : list (Z * Z)) : option Z * list (Z * Z) :=
  let '(rest, ranges, match_start, hay_i) := subsequence_loop haystack 0 needle cs None match_ranges in
  if bool_decide (rest = []) then
    let ranges := match match_start with Some s => ranges ++ [(s, hay_i)] | None => ranges end in
    (Some (pack_score 2 (zlen ranges) (zlen haystack)), ranges)
  else (None, ranges).

Definition fuzzy_match (avx2 : bool) (hay : Slice) (needle_padded : PaddedString) (cs : bool) (match_ranges : list (Z * Z))
  : partial (option Z * list (Z * Z)) :=
  _ ← rassert (bool_decide (match_ranges = []));
  needle ← padded_get needle_padded;
  let haystack := s_bytes hay in
  let len := zlen haystack in
  let n := zlen needle in
  if len <? n then Ret (None, match_ranges)
  else
    tail ← subslice hay (len - n) len;
    suffix ← memmem avx2 tail needle_padded cs;
    match suffix with
    | Some _ => score_suffix haystack n match_ranges
    | None =>
        e ← usub len 1;
        start ← subslice hay 0 e;
        o ← memmem avx2 start needle_padded cs;
        match o with
        | Some i => score_substring haystack n i match_ranges
        | None => Ret (score_subsequence haystack needle cs match_ranges)
        end
    end.
End Search.
