(* ===== verification/FuzzyMatchSpec.v ===== *)
(** Properties of the matching of names (FuzzyMatch.v): both substring searches
    find the first occurrence, the vector instructions stay in the blocks of
    memory that hold the name, and scores say how the query matches. *)
From Stdlib Require Import ZArith Lia String.
From stdpp Require Import base list.
From S2P Require Import Prelude RustStr RustText LeBytes Simd FuzzyMatch.
Open Scope Z_scope.

(** ** Occurrences *)

Definition fold_byte (cs : bool) (b : Z) : Z := if cs then b else to_ascii_lowercase b.
Definition folded (cs : bool) (s : list Z) : list Z := map (fold_byte cs) s.
(** The query occurs in the text at [i], regardless of case unless [cs]. *)
Definition occurs (cs : bool) (hay needle : list Z) (i : Z) : Prop :=
  exists pre post, folded cs hay = pre ++ needle ++ post /\ zlen pre = i.
Definition first_occurrence (cs : bool) (hay needle : list Z) (r : option Z) : Prop :=
  match r with
  | Some i => occurs cs hay needle i /\ forall j, j < i -> ~ occurs cs hay needle j
  | None => forall j, ~ occurs cs hay needle j
  end.
(** Byte [k] of the query matches when it is put at [i]. *)
Definition hit (cs : bool) (hay needle : list Z) (i k : Z) : Prop :=
  fold_byte cs <$> zget hay (i + k) = zget needle k.

Lemma zlen_folded cs s : zlen (folded cs s) = zlen s.
Proof. unfold zlen, folded. by rewrite length_map. Qed.
Lemma zget_folded cs s i : zget (folded cs s) i = fold_byte cs <$> zget s i.
Proof. unfold zget. rewrite zlen_folded. case_match; [|done]. apply list_lookup_fmap. Qed.
Lemma occurs_range cs hay needle i : occurs cs hay needle i -> 0 <= i /\ i + zlen needle <= zlen hay.
Proof.
  intros (pre&post&H&<-). apply (f_equal zlen) in H. rewrite zlen_folded, !zlen_app in H.
  pose proof (zlen_nonneg pre). pose proof (zlen_nonneg post). lia.
Qed.
Lemma zslice_take {E A} (l : list A) a b : 0 <= a <= b -> b <= zlen l ->
  zslice (E := E) l a b = Ret (take (Z.to_nat (b - a)) (drop (Z.to_nat a) l)).
Proof.
  intros Ha Hb. unfold zslice. rewrite (proj2 (Z.leb_le 0 a)), (proj2 (Z.leb_le a b)), (proj2 (Z.leb_le b _)) by lia. done.
Qed.
Lemma occurs_window cs hay needle i : 0 <= i -> i + zlen needle <= zlen hay ->
  occurs cs hay needle i <-> folded cs (take (Z.to_nat (zlen needle)) (drop (Z.to_nat i) hay)) = needle.
Proof.
  intros Hi Hlen. unfold folded. rewrite <- firstn_map, <- skipn_map. fold (folded cs hay).
  rewrite <- (zlen_folded cs hay) in Hlen. unfold occurs. unfold zlen in *. split.
  - intros (pre&post&->&Hpre). replace (Z.to_nat i) with (length pre) by lia. rewrite drop_app_length, Nat2Z.id. apply take_app_length.
  - intros H. exists (take (Z.to_nat i) (folded cs hay)), (drop (Z.to_nat (Z.of_nat (length needle))) (drop (Z.to_nat i) (folded cs hay))).
    rewrite <- H at 1. rewrite take_drop, take_drop. split; [done|]. rewrite length_take. lia.
Qed.
Lemma occurs_hits cs hay needle i : 0 <= i -> i + zlen needle <= zlen hay ->
  occurs cs hay needle i <-> forall k, 0 <= k < zlen needle -> hit cs hay needle i k.
Proof.
  intros Hi Hlen. rewrite occurs_window by done. unfold hit. split.
  - intros H k Hk. rewrite <- H at 1. rewrite zget_folded, zget_lookup, zget_lookup by lia. f_equal.
    rewrite lookup_take_lt, lookup_drop by lia. f_equal. lia.
  - intros H. apply list_eq. intros j. unfold folded. rewrite list_lookup_fmap.
    destruct (decide (j < length needle)%nat) as [Hj|Hj].
    + rewrite lookup_take_lt, lookup_drop by (unfold zlen; lia). specialize (H (Z.of_nat j) ltac:(unfold zlen; lia)).
      rewrite zget_of_nat, zget_lookup in H by lia. rewrite <- H. f_equal. f_equal. lia.
    + rewrite lookup_take_ge by (unfold zlen; lia). symmetry. apply lookup_ge_None_2. lia.
Qed.
Lemma occurs_empty cs hay : first_occurrence cs hay [] (Some 0).
Proof.
  split; [by exists [], (folded cs hay)|]. intros j Hj Ho. apply occurs_range in Ho. lia.
Qed.
Lemma too_short cs hay needle : zlen hay < zlen needle -> first_occurrence cs hay needle None.
Proof. intros H j Ho. apply occurs_range in Ho. lia. Qed.

(** ** Linear search *)

(** The result of a search over a range. *)
Definition first_in (P : Z -> Prop) (lo hi : Z) (r : option Z) : Prop :=
  match r with
  | Some i => lo <= i < hi /\ P i /\ forall j, lo <= j < i -> ~ P j
  | None => forall j, lo <= j < hi -> ~ P j
  end.
Lemma find_in_spec f (P : Z -> Prop) lo hi : (forall i, lo <= i < hi -> exists b, f i = Ret b /\ (b = true <-> P i)) ->
  exists r, find_in f lo hi = Ret r /\ first_in P lo hi r.
Proof.
  unfold find_in. intros H. assert (Hn : forall i, lo <= i < lo + Z.of_nat (Z.to_nat (hi - lo)) -> i < hi) by lia.
  assert (Hhi : hi <= lo + Z.of_nat (Z.to_nat (hi - lo))) by lia. revert Hn Hhi H.
  generalize (Z.to_nat (hi - lo)) as n. intros n. revert lo; induction n as [|n IH]; intros lo Hn Hhi H.
  - exists None. split; [done|]. intros j Hj. lia.
  - cbn [find_from]. destruct (H lo) as (b&->&Hb); [specialize (Hn lo); lia|]. cbn [mbind outcome_bind]. destruct b.
    + exists (Some lo). split; [done|]. split; [specialize (Hn lo); lia|]. split; [by apply Hb|]. lia.
    + destruct (IH (lo + 1)) as (r&->&Hr).
      { intros i Hi. apply Hn. lia. } { lia. } { intros i Hi. apply H. lia. }
      exists r. split; [done|]. assert (Hlo : ~ P lo) by (intros HP; by apply Hb in HP).
      destruct r as [i|]; simpl in *.
      * destruct Hr as (?&?&Hlt). split_and!; [lia|lia|done|]. intros j Hj. destruct (Z.eq_dec j lo) as [->|]; [done|]. apply Hlt. lia.
      * intros j Hj. destruct (Z.eq_dec j lo) as [->|]; [done|]. apply Hr. lia.
Qed.
Lemma first_in_occurrence cs hay needle r : first_in (occurs cs hay needle) 0 (zlen hay - zlen needle + 1) r -> first_occurrence cs hay needle r.
Proof.
  destruct r as [i|]; simpl.
  - intros (?&Ho&Hn). split; [done|]. intros j Hj Hoj. pose proof (occurs_range _ _ _ _ Hoj). apply (Hn j); [lia|done].
  - intros Hn j Hoj. pose proof (occurs_range _ _ _ _ Hoj). apply (Hn j); [lia|done].
Qed.
Lemma first_in_split P lo mid hi : lo <= mid -> (forall r, first_in P lo (Z.min mid hi) r -> r <> None -> first_in P lo hi r) /\
  (first_in P lo (Z.min mid hi) None -> forall r, first_in P mid hi r -> first_in P lo hi r).
Proof.
  intros Hmid. split.
  - intros [i|] Hi Hne; [|done]. simpl in *. destruct Hi as (?&?&?). split_and!; [lia|lia|done|done].
  - intros Hn [i|]; simpl in *.
    + intros (?&?&Hlt). split_and!; [lia|lia|done|]. intros j Hj. destruct (Z.ltb_spec j mid); [apply Hn; lia|apply Hlt; lia].
    + intros Hr j Hj. destruct (Z.ltb_spec j mid); [apply Hn; lia|apply Hr; lia].
Qed.

(** ** The search without vector instructions *)

Lemma match_bytes_iff hay needle : length hay = length needle -> match_bytes hay needle = true <-> folded false hay = needle.
Proof.
  revert hay; induction needle as [|n needle IH]; intros [|h hay] Hlen; try done; simpl in *.
  rewrite andb_true_iff, Z.eqb_eq, IH by lia. split; [intros [-> ->]; done|]. intros H. by injection H as -> ->.
Qed.
Lemma padded_get_new s : padded_get (padded_new s) = Ret s.
Proof.
  unfold padded_get, padded_new. cbn [padded]. destruct (replicate 32 0 ++ s ++ replicate 32 0) eqn:E; [by apply (f_equal length) in E|].
  rewrite <- E. clear E. unfold usub. rewrite !zlen_app. change (zlen (replicate 32 0)) with 32.
  rewrite (proj2 (Z.leb_le _ _)) by (pose proof (zlen_nonneg s); lia). cbn [mbind outcome_bind].
  rewrite zslice_take by (rewrite ?zlen_app; change (zlen (replicate 32 0)) with 32; pose proof (zlen_nonneg s); lia).
  change (Z.to_nat 32) with (length (replicate 32 0)). rewrite drop_app_length.
  replace (Z.to_nat _) with (length s) by (unfold zlen; lia). by rewrite take_app_length.
Qed.
Lemma fallback_correct haystack s cs : exists r,
  memmem_fallback haystack (padded_new s) cs = Ret r /\ first_occurrence cs haystack s r.
Proof.
  unfold memmem_fallback. rewrite padded_get_new. cbn [mbind outcome_bind]. case_bool_decide as Hs.
  { subst. eexists. split; [done|]. apply occurs_empty. }
  destruct (Z.ltb_spec (zlen haystack) (zlen s)); [eexists; split; [done|]; by apply too_short|].
  assert (Hwin : forall i, 0 <= i < zlen haystack - zlen s + 1 ->
    exists w, zslice (E := Empty_set) haystack i (i + zlen s) = Ret w /\ length w = length s /\ (folded cs w = s <-> occurs cs haystack s i)).
  { intros i Hi. pose proof (zlen_nonneg s). rewrite zslice_take by lia. rewrite Z.add_simpl_l. eexists. split; [done|]. split.
    - rewrite length_take, length_drop. unfold zlen in *. lia.
    - symmetry. apply occurs_window; lia. }
  destruct cs.
  - edestruct find_in_spec as (r&->&Hr); [|exists r; split; [done|]; by apply first_in_occurrence].
    intros i Hi. destruct (Hwin i Hi) as (w&->&_&Ho). eexists. split; [done|]. rewrite bool_decide_eq_true, <- Ho.
    unfold folded. by rewrite map_id.
  - edestruct find_in_spec as (r&->&Hr); [|exists r; split; [done|]; by apply first_in_occurrence].
    intros i Hi. destruct (Hwin i Hi) as (w&->&Hw&Ho). eexists. split; [done|]. by rewrite match_bytes_iff, <- Ho.
Qed.

(** ** The search with vector instructions *)

(** The name is in memory, and only the aligned blocks of 64 bytes that hold
    some of it need to be mapped: what lies before and after is arbitrary. *)
Definition slice_mapped (mem : memory) (s : Slice) : Prop :=
  (forall p b, mem p = Some b -> is_u8 b) /\
  forall k, 0 <= k < zlen (s_bytes s) ->
    mem (s_addr s + k) = zget (s_bytes s) k /\ forall p, p / 64 = (s_addr s + k) / 64 -> mem p <> None.

(** What the instructions do to one byte of the haystack. *)
Definition lane (cs : bool) (h : Z) : Z :=
  Z.lor h (Z.land (if as_i8 (wrap8 (h - wrap8 (65 - 128))) <? as_i8 (wrap8 (26 - 128)) then 255 else 0) (wrap8 (if cs then 0 else 32))).
Lemma lane_folds cs h : is_u8 h -> lane cs h = fold_byte cs h.
Proof.
  intros Hh. assert (Hall : forallb (fun cs => forallb (fun n => lane cs (Z.of_nat n) =? fold_byte cs (Z.of_nat n)) (seq 0 256)) [true; false] = true)
    by (vm_compute; reflexivity).
  rewrite forallb_forall in Hall. specialize (Hall cs ltac:(destruct cs; simpl; auto)). rewrite forallb_forall in Hall.
  specialize (Hall (Z.to_nat h) ltac:(apply in_seq; unfold is_u8 in Hh; lia)). rewrite Z2Nat.id in Hall by (unfold is_u8 in Hh; lia).
  by apply Z.eqb_eq.
Qed.
Abbreviation compare_bytes cs h need :=
  (compare h need (set1_epi8 32 (65 - 128)) (set1_epi8 32 (26 - 128)) (set1_epi8 32 (if cs : bool then 0 else 32))).
Lemma compare_lanes cs h need : length h = 32%nat ->
  compare_bytes cs h need = movemask_epi8 (zip_with (fun a n => if lane cs a =? n then 255 else 0) h need).
Proof.
  intros Hh. unfold compare. f_equal. unfold cmpeq_epi8. revert need. unfold set1_epi8. rewrite <- Hh. clear Hh.
  induction h as [|a h IH]; intros need; [done|]. destruct need as [|n need]; [done|].
  cbn [length replicate sub_epi8 cmpgt_epi8 or_si and_si zip_with]. f_equal. apply IH.
Qed.
Lemma compare_at_spec mem cs p need : (forall p b, mem p = Some b -> is_u8 b) -> length need = 32%nat ->
  (forall k, 0 <= k < 32 -> mem (p + k) <> None) ->
  exists m, compare_at mem cs p need = Ret m /\ 0 <= m < 2 ^ 32 /\
    forall k, 0 <= k < 32 -> Z.testbit m k = true <-> fold_byte cs <$> mem (p + k) = zget need k.
Proof.
  intros Hu8 Hneed Hmap. destruct (load_mapped mem p 32) as (h&Hload&Hlen&Hh); [intros i Hi; apply Hmap; lia|].
  unfold compare_at. rewrite Hload. cbn [mbind outcome_bind]. eexists. split; [done|]. rewrite compare_lanes by done.
  assert (Hz : length (zip_with (fun a n => if lane cs a =? n then 255 else 0) h need) = 32%nat) by (rewrite length_zip_with; lia).
  split. { pose proof (movemask_range (zip_with (fun a n => if lane cs a =? n then 255 else 0) h need)) as Hr. unfold zlen in Hr. by rewrite Hz in Hr. }
  intros k Hk. rewrite <- (Z2Nat.id k) at 1 by lia. destruct (mem (p + k)) as [a|] eqn:Ha; [|by destruct (Hmap k Hk)].
  assert (Hka : h !! Z.to_nat k = Some a) by (rewrite Hh, Z2Nat.id by lia; done).
  destruct (lookup_lt_is_Some_2 need (Z.to_nat k)) as [n Hn]; [lia|].
  rewrite zget_lookup, Hn by lia. cbn [fmap option_fmap option_map]. rewrite <- (lane_folds _ _ (Hu8 _ _ Ha)).
  rewrite (movemask_testbit _ _ (if lane cs a =? n then 255 else 0)) by (rewrite lookup_zip_with, Hka; cbn [mbind option_bind]; by rewrite Hn).
  destruct (Z.eqb_spec (lane cs a) n) as [->|Hne]; [done|]. split; [done|]. intros H. by injection H.
Qed.
Lemma full_mask m : 0 <= m < 2 ^ 32 -> m = U32_MAX <-> forall k, 0 <= k < 32 -> Z.testbit m k = true.
Proof.
  intros Hm. unfold U32_MAX. rewrite Z.sub_1_r, <- Z.ones_equiv. split.
  - intros -> k Hk. apply Z.ones_spec_low. lia.
  - intros H. apply Z.bits_inj'. intros k Hk. rewrite Z.testbit_ones_nonneg by lia. destruct (Z.ltb_spec k 32); [by apply H|].
    destruct (Z.eq_dec m 0) as [->|]; [apply Z.testbit_0_l|]. apply Z.bits_above_log2; [lia|].
    apply Z.lt_le_trans with 32; [|done]. apply Z.log2_lt_pow2; lia.
Qed.
Lemma covered_mask m mask lo hi : 0 <= lo -> (forall k, 0 <= k -> Z.testbit mask k = (lo <=? k) && (k <? hi)) ->
  (Z.land m mask =? mask) = true <-> forall k, lo <= k < hi -> Z.testbit m k = true.
Proof.
  intros Hlo H. rewrite land_covers. split.
  - intros Hc k Hk. apply Hc; [lia|]. rewrite H by lia. rewrite (proj2 (Z.leb_le _ _)), (proj2 (Z.ltb_lt _ _)) by lia. done.
  - intros Hc k Hk. rewrite H by done. rewrite andb_true_iff, Z.leb_le, Z.ltb_lt. apply Hc.
Qed.
Lemma prefix_mask_bits n k : 1 <= n <= 32 -> 0 <= k -> Z.testbit (Z.shiftr U32_MAX (32 - n)) k = (0 <=? k) && (k <? n).
Proof.
  intros Hn Hk. unfold U32_MAX. rewrite Z.shiftr_spec, Z.sub_1_r, <- Z.ones_equiv, Z.testbit_ones_nonneg by lia.
  rewrite (proj2 (Z.leb_le _ _)) by done. cbn [andb]. destruct (Z.ltb_spec (k + (32 - n)) 32), (Z.ltb_spec k n); done || lia.
Qed.
Lemma suffix_mask_bits n k : 1 <= n <= 32 -> 0 <= k -> Z.testbit (Z.shiftl U32_MAX (32 - n) mod 2 ^ 32) k = (32 - n <=? k) && (k <? 32).
Proof.
  intros Hn Hk. unfold U32_MAX. destruct (Z.ltb_spec k 32).
  - rewrite Z.mod_pow2_bits_low, Z.shiftl_spec, Z.sub_1_r, <- Z.ones_equiv, andb_true_r by lia.
    destruct (Z.leb_spec (32 - n) k); [apply Z.ones_spec_low; lia|]. apply Z.testbit_neg_r. lia.
  - rewrite Z.mod_pow2_bits_high, andb_false_r by lia. done.
Qed.

Lemma zget_app_l {A} (l k : list A) i : i < zlen l -> zget (l ++ k) i = zget l i.
Proof.
  intros Hi. unfold zget. rewrite zlen_app. pose proof (zlen_nonneg k). destruct (Z.leb_spec 0 i); [|done]. cbn [andb].
  rewrite (proj2 (Z.ltb_lt i (zlen l))), (proj2 (Z.ltb_lt i (zlen l + zlen k))) by lia. apply lookup_app_l. unfold zlen in Hi. lia.
Qed.
Lemma zget_app_r {A} (l k : list A) i : zlen l <= i -> zget (l ++ k) i = zget k (i - zlen l).
Proof.
  intros Hi. pose proof (zlen_nonneg l). rewrite !zget_lookup by lia. unfold zlen in *. rewrite lookup_app_r by lia. f_equal. lia.
Qed.
Lemma load_padded_spec s off : -32 <= off <= zlen s ->
  exists r, load_padded (padded_new s) off = Ret r /\ length r = 32%nat /\
    forall k, 0 <= k < 32 -> 0 <= off + k < zlen s -> zget r k = zget s (off + k).
Proof.
  intros Hoff. unfold load_padded, padded_new. cbn [padded]. set (l := replicate 32 0 ++ s ++ replicate 32 0).
  assert (Hl : zlen l = 64 + zlen s) by (unfold l; rewrite !zlen_app; change (zlen (replicate 32 0)) with 32; lia).
  rewrite zslice_take by lia. eexists. split; [done|]. split.
  - rewrite length_take, length_drop. unfold zlen in *. lia.
  - intros k Hk Hin. rewrite zget_take_drop by lia. unfold l. rewrite zget_app_r by (change (zlen (replicate 32 0)) with 32; lia).
    change (zlen (replicate 32 0)) with 32. rewrite zget_app_l by lia. f_equal. lia.
Qed.

Section Avx2.
  Context (mem : memory) (hay : Slice) (s : list Z) (cs : bool).
  Hypothesis Hm : slice_mapped mem hay.
  Abbreviation bytes := (s_bytes hay).
  Abbreviation n := (zlen s).
  Abbreviation len := (zlen bytes).
  Hypothesis Hn : 1 <= n <= len.

(** Bytes in a block of the name can be read. *)
Lemma block_mapped x k : 0 <= k < len -> x / 64 = (s_addr hay + k) / 64 -> mem x <> None.
Proof using Hm. intros Hk Hx. by apply (proj2 (proj2 Hm k Hk)). Qed.
Lemma inside_mapped k : 0 <= k < len -> mem (s_addr hay + k) <> None.
Proof using Hm. intros Hk. by apply (block_mapped _ k). Qed.

(** One comparison: bit [k] is the match of byte [off + k] of the query. *)
Lemma compare_hits i off need p : 0 <= i <= len - n -> load_padded (padded_new s) off = Ret need -> -32 <= off <= n ->
  p = s_addr hay + i + off -> (forall k, 0 <= k < 32 -> mem (p + k) <> None) ->
  exists m, compare_at mem cs p need = Ret m /\ 0 <= m < 2 ^ 32 /\
    forall k, 0 <= k < 32 -> 0 <= off + k < n -> Z.testbit m k = true <-> hit cs bytes s i (off + k).
Proof using Hm.
  intros Hi Hneed Hoff -> Hmap. destruct (load_padded_spec s off Hoff) as (r&Hr&Hlen&Hget). rewrite Hneed in Hr. injection Hr as <-.
  destruct (compare_at_spec mem cs _ need (proj1 Hm) Hlen Hmap) as (m&?&?&Hbit). exists m. split_and!; [done|lia|lia|].
  intros k Hk Hin. rewrite Hbit, Hget by lia. unfold hit. rewrite <- (proj1 (proj2 Hm (i + (off + k)) ltac:(lia))).
  by replace (s_addr hay + (i + (off + k))) with (s_addr hay + i + off + k) by lia.
Qed.

Lemma ptr_from_inside i : 0 <= i <= len -> ptr_from hay i = Ret (s_addr hay + i).
Proof using Type. intros Hi. unfold ptr_from, subslice. by rewrite zslice_take by lia. Qed.

(** A query of at most 32 bytes, at the start of a register. *)
Lemma match_prefix_spec need i : n <= 32 -> load_padded (padded_new s) 0 = Ret need -> 0 <= i <= len - n ->
  s_addr hay mod 64 + i < 32 ->
  exists b, match_prefix mem hay cs need (Z.shiftr U32_MAX (32 - n)) i = Ret b /\ (b = true <-> occurs cs bytes s i).
Proof using Hm Hn.
  intros Hshort Hneed Hi Hblock. unfold match_prefix. rewrite ptr_from_inside by lia. cbn [mbind outcome_bind].
  destruct (compare_hits i 0 need (s_addr hay + i) Hi Hneed) as (m&->&Hr&Hbit); [lia|lia| |].
  { intros k Hk. apply (block_mapped _ i); [lia|]. pose proof (Z.mod_pos_bound (s_addr hay) 64 ltac:(lia)) as Hmod.
    pose proof (Z.div_mod (s_addr hay) 64 ltac:(lia)) as Hdiv. transitivity (s_addr hay / 64).
    - symmetry. apply Z.div_unique with (s_addr hay mod 64 + i + k); [left|]; lia.
    - apply Z.div_unique with (s_addr hay mod 64 + i); [left|]; lia. }
  eexists. split; [done|]. rewrite (covered_mask m _ 0 n) by (done || (intros; apply prefix_mask_bits; lia)).
  rewrite occurs_hits by lia. split; intros H k Hk; [apply Hbit|apply (Hbit k)]; try lia; by apply H.
Qed.

(** A query of at most 32 bytes, at the end of a register that may start before
    the name. *)
Lemma match_suffix_spec need i : n <= 32 -> load_padded (padded_new s) (n - 32) = Ret need -> 0 <= i <= len - n ->
  32 <= s_addr hay mod 64 + i ->
  exists b, match_suffix mem hay n cs need (Z.shiftl U32_MAX (32 - n) mod 2 ^ 32) i = Ret b /\ (b = true <-> occurs cs bytes s i).
Proof using Hm Hn.
  intros Hshort Hneed Hi Hblock. unfold match_suffix.
  destruct (compare_hits i (n - 32) need (s_addr hay + (i + n) - 32) Hi Hneed) as (m&->&Hr&Hbit); [lia|lia| |].
  { intros k Hk. destruct (Z.leb_spec 32 (i + n + k)).
    - replace (s_addr hay + (i + n) - 32 + k) with (s_addr hay + (i + n + k - 32)) by lia. apply inside_mapped. lia.
    - apply (block_mapped _ 0); [lia|]. pose proof (Z.mod_pos_bound (s_addr hay) 64 ltac:(lia)) as Hmod.
      pose proof (Z.div_mod (s_addr hay) 64 ltac:(lia)) as Hdiv. transitivity (s_addr hay / 64); [|f_equal; lia].
      symmetry. apply Z.div_unique with (s_addr hay mod 64 + (i + n + k - 32)); [left|]; lia. }
  cbn [mbind outcome_bind]. eexists. split; [done|].
  rewrite (covered_mask m _ (32 - n) 32) by (lia || (intros; apply suffix_mask_bits; lia)).
  rewrite occurs_hits by lia. split; intros H k Hk.
  - replace k with (n - 32 + (k + (32 - n))) by lia. apply Hbit; [lia|lia|]. apply H. lia.
  - apply Hbit; [lia|lia|]. apply H. lia.
Qed.

(** ** Queries of more than 32 bytes *)

Lemma blocks_spec i fuel j : 32 < n -> 0 <= i <= len - n -> 0 <= j -> (0 < fuel)%nat -> n - j <= 32 * Z.of_nat fuel ->
  (forall k, n - 32 <= k < n -> hit cs bytes s i k) ->
  exists j', compare_blocks mem hay (padded_new s) n cs fuel i j = Ret j' /\
    (n - 32 <= j' <-> forall k, j <= k < n -> hit cs bytes s i k).
Proof using Hm.
  intros Hlong Hi. revert j; induction fuel as [|fuel IH]; intros j Hj Hpos Hfuel Hlast.
  { exfalso. lia. }
  cbn [compare_blocks]. destruct (Z.ltb_spec j (n - 32)).
  2: { exists j. split; [done|]. split; [|done]. intros _ k Hk. apply Hlast. lia. }
  rewrite ptr_from_inside by lia. cbn [mbind outcome_bind].
  destruct (load_padded_spec s j ltac:(lia)) as (need&Hneed&_). rewrite Hneed. cbn [mbind outcome_bind].
  destruct (compare_hits i j need (s_addr hay + (i + j)) Hi Hneed) as (m&->&Hr&Hbit); [lia|lia| |].
  { intros k Hk. rewrite <- Z.add_assoc. apply inside_mapped. lia. }
  cbn [mbind outcome_bind]. destruct (Z.eqb_spec m U32_MAX) as [Hfull|Hne]; cbn [negb].
  - destruct (IH (j + 32)) as (j'&->&Hj'); [lia|lia|lia|done|]. exists j'. split; [done|]. rewrite Hj'.
    rewrite full_mask in Hfull by lia. split; intros H' k Hk; [|apply H'; lia].
    destruct (Z.ltb_spec k (j + 32)); [|apply H'; lia]. replace k with (j + (k - j)) by lia. apply Hbit; [lia|lia|]. apply Hfull. lia.
  - exists j. split; [done|]. split; [lia|]. intros H'. exfalso. apply Hne. apply full_mask; [done|]. intros k Hk. apply Hbit; [lia|lia|].
    apply H'. lia.
Qed.
Lemma full_hits i off need p : 32 < n -> 0 <= i <= len - n -> load_padded (padded_new s) off = Ret need -> 0 <= off <= n - 32 ->
  p = s_addr hay + (i + off) ->
  exists m, compare_at mem cs p need = Ret m /\ (m = U32_MAX <-> forall k, off <= k < off + 32 -> hit cs bytes s i k).
Proof using Hm.
  intros Hlong Hi Hneed Hoff ->. destruct (compare_hits i off need (s_addr hay + (i + off)) Hi Hneed) as (m&->&Hr&Hbit); [lia|lia| |].
  { intros k Hk. rewrite <- Z.add_assoc. apply inside_mapped. lia. }
  exists m. split; [done|]. rewrite full_mask by done. split; intros H k Hk.
  - replace k with (off + (k - off)) by lia. apply Hbit; [lia|lia|]. apply H. lia.
  - apply Hbit; [lia|lia|]. apply H. lia.
Qed.
Lemma match_long_spec first last i : 32 < n -> load_padded (padded_new s) 0 = Ret first ->
  load_padded (padded_new s) (n - 32) = Ret last -> 0 <= i <= len - n ->
  exists b, match_long mem hay (padded_new s) n cs first last i = Ret b /\ (b = true <-> occurs cs bytes s i).
Proof using Hm Hn.
  intros Hlong Hfirst Hlast Hi. unfold match_long. pose proof (occurs_hits cs bytes s i ltac:(lia) ltac:(lia)) as Ho. rewrite (ptr_from_inside i) by lia. cbn [mbind outcome_bind].
  destruct (full_hits i 0 first (s_addr hay + i) Hlong Hi Hfirst) as (m&->&Hm1); [lia|lia|]. cbn [mbind outcome_bind].
  destruct (Z.eqb_spec m U32_MAX) as [H1|H1]; cbn [negb].
  2: { exists false. split; [done|]. split; [done|]. intros H. exfalso. apply H1. apply Hm1. intros k Hk. apply (proj1 Ho H). lia. }
  rewrite ptr_from_inside by lia. cbn [mbind outcome_bind].
  destruct (full_hits i (n - 32) last (s_addr hay + (i + n - 32)) Hlong Hi Hlast) as (m2&->&Hm2); [lia|lia|]. cbn [mbind outcome_bind].
  destruct (Z.eqb_spec m2 U32_MAX) as [H2|H2]; cbn [negb].
  2: { exists false. split; [done|]. split; [done|]. intros H. exfalso. apply H2. apply Hm2. intros k Hk. apply (proj1 Ho H). lia. }
  pose proof (proj1 Hm1 H1) as Hf. pose proof (proj1 Hm2 H2) as Hl.
  destruct (blocks_spec i (Z.to_nat n) 32) as (j&->&Hj); [lia|lia|lia|lia|lia| |].
  { intros k Hk. apply Hl. lia. }
  cbn [mbind outcome_bind]. eexists. split; [done|]. rewrite Z.leb_le, Hj, Ho. split; intros H k Hk; [|apply H; lia].
  destruct (Z.ltb_spec k 32); [apply Hf|apply H]; lia.
Qed.

Lemma avx2_correct : exists r, memmem_avx2 mem hay (padded_new s) cs = Ret r /\ first_occurrence cs bytes s r.
Proof using Hm Hn.
  unfold memmem_avx2. rewrite padded_get_new. cbn [mbind outcome_bind]. rewrite bool_decide_eq_false_2 by (intros ->; unfold zlen in Hn; simpl in Hn; lia).
  rewrite (proj2 (Z.ltb_ge _ _)) by lia. destruct (load_padded_spec s 0 ltac:(lia)) as (first&Hfirst&_). rewrite Hfirst. cbn [mbind outcome_bind].
  destruct (load_padded_spec s (n - 32) ltac:(lia)) as (last&Hlast&_). rewrite Hlast.
  destruct (Z.ltb_spec 32 n) as [Hlong|Hshort]; cbn [mbind outcome_bind].
  { edestruct find_in_spec as (r&->&Hr); [|exists r; split; [done|]; by apply first_in_occurrence].
    intros i Hi. apply match_long_spec; done || lia. }
  set (sp := if 32 <? wrapping_sub 32 (s_addr hay mod 64) then 0 else wrapping_sub 32 (s_addr hay mod 64)).
  assert (Hsp : 0 <= sp /\ forall i, 0 <= i -> (i < sp <-> s_addr hay mod 64 + i < 32)).
  { pose proof (Z.mod_pos_bound (s_addr hay) 64 ltac:(lia)) as Hmod. subst sp. unfold wrapping_sub, wrap64.
    revert Hmod. generalize (s_addr hay mod 64) as a. intros a Hmod. destruct (Z.leb_spec a 32).
    - rewrite Z.mod_small by lia. rewrite (proj2 (Z.ltb_ge _ _)) by lia. split; [lia|intros; lia].
    - rewrite <- (Z_mod_plus_full _ 1), Z.mod_small by lia. rewrite (proj2 (Z.ltb_lt _ _)) by lia. split; [lia|intros; lia]. }
  destruct Hsp as [Hsp0 Hsp].
  destruct (find_in_spec (match_prefix mem hay cs first (Z.shiftr U32_MAX (32 - n))) (occurs cs bytes s) 0 (Z.min sp (len - n + 1))) as (r&->&Hr).
  { intros i Hi. apply match_prefix_spec; [done|done|lia|]. apply Hsp; lia. }
  cbn [mbind outcome_bind]. destruct (first_in_split (occurs cs bytes s) 0 sp (len - n + 1) Hsp0) as [Hsome Hnone].
  destruct r as [i|]; [exists (Some i); split; [done|]; apply first_in_occurrence; by apply Hsome|].
  edestruct find_in_spec as (r&->&Hr2); [|exists r; split; [done|]; apply first_in_occurrence; by apply Hnone].
  intros i Hi. apply match_suffix_spec; [done|done|lia|]. assert (~ i < sp) as Hge by lia. rewrite Hsp in Hge by lia. lia.
Qed.
End Avx2.

Lemma memmem_correct mem avx2 hay s cs : slice_mapped mem hay ->
  exists r, memmem mem avx2 hay (padded_new s) cs = Ret r /\ first_occurrence cs (s_bytes hay) s r.
Proof.
  intros Hm. destruct avx2; [|apply fallback_correct]. cbn [memmem].
  destruct (decide (1 <= zlen s <= zlen (s_bytes hay))) as [Hn|Hn]; [by apply avx2_correct|].
  unfold memmem_avx2. rewrite padded_get_new. cbn [mbind outcome_bind]. case_bool_decide as Hs.
  { subst. eexists. split; [done|]. apply occurs_empty. }
  assert (1 <= zlen s) by (destruct s; [done|]; unfold zlen; simpl; lia).
  rewrite (proj2 (Z.ltb_lt _ _)) by lia. eexists. split; [done|]. apply too_short. lia.
Qed.

Lemma first_occurrence_unique cs hay needle r r' : first_occurrence cs hay needle r -> first_occurrence cs hay needle r' -> r = r'.
Proof.
  destruct r as [i|], r' as [j|]; simpl; [|intros [Ho _] H; by destruct (H i)|intros H [Ho _]; by destruct (H j)|done].
  intros [Hi Hbi] [Hj Hbj]. f_equal. destruct (Z.lt_total i j) as [H|[H|H]]; [|done|]; exfalso; [by apply (Hbj i H)|by apply (Hbi j H)].
Qed.

(** C12. Substring search with vector instructions gives what the plain search
    gives, the first occurrence of the query, in both case modes and for
    queries of every length; its loads stay in the aligned blocks of 64 bytes
    that hold the text, so that none of them faults, whatever lies around. *)
Theorem memmem_first_occurrence mem hay s cs : slice_mapped mem hay ->
  exists r, memmem mem true hay (padded_new s) cs = Ret r /\ memmem mem false hay (padded_new s) cs = Ret r /\
    first_occurrence cs (s_bytes hay) s r.
Proof.
  intros Hm. destruct (memmem_correct mem true hay s cs Hm) as (r&->&Hr), (memmem_correct mem false hay s cs Hm) as (r'&->&Hr').
  exists r. split_and!; [done| |done]. f_equal. by eapply first_occurrence_unique.
Qed.

(** ** Subsequences *)

(** The bytes of the text in the ranges, and ranges in order with gaps. *)
Definition slice_of (l : list Z) (a b : Z) : list Z := take (Z.to_nat (b - a)) (drop (Z.to_nat a) l).
Definition spell (l : list Z) (ranges : list (Z * Z)) : list Z := concat (map (fun r => slice_of l r.1 r.2) ranges).
Fixpoint spaced (lo hi : Z) (ranges : list (Z * Z)) : Prop :=
  match ranges with
  | [] => True
  | (a, b) :: ranges => lo <= a /\ a < b <= hi /\ spaced (b + 1) hi ranges
  end.
Definition opened (start : option Z) (i : Z) : list (Z * Z) := match start with Some s => [(s, i)] | None => [] end.

Lemma spaced_snoc lo hi ranges a b : spaced lo (a - 1) ranges -> lo <= a -> a < b <= hi -> spaced lo hi (ranges ++ [(a, b)]).
Proof.
  revert lo; induction ranges as [|[c d] ranges IH]; intros lo; simpl; [naive_solver|].
  intros (?&?&?) ? ?. split_and!; [done|lia|lia|]. apply IH; [done|lia|done].
Qed.
Lemma spaced_mono lo hi hi' ranges : hi <= hi' -> spaced lo hi ranges -> spaced lo hi' ranges.
Proof. revert lo; induction ranges as [|[c d] ranges IH]; intros lo Hhi; simpl; [done|]. intros (?&?&?). split_and!; [done|lia|lia|by apply IH]. Qed.
Lemma spell_app l rs rs' : spell l (rs ++ rs') = spell l rs ++ spell l rs'.
Proof. unfold spell. by rewrite map_app, concat_app. Qed.
Lemma slice_of_extend l a i x : 0 <= a <= i -> zget l i = Some x -> slice_of l a (i + 1) = slice_of l a i ++ [x].
Proof.
  intros Ha Hx. rewrite zget_lookup in Hx by lia. unfold slice_of. replace (Z.to_nat (i + 1 - a)) with (S (Z.to_nat (i - a))) by lia.
  apply take_S_r. rewrite lookup_drop. replace (Z.to_nat a + Z.to_nat (i - a))%nat with (Z.to_nat i) by lia. done.
Qed.

Lemma loop_step cs c n hay i needle start ranges :
  subsequence_loop (c :: hay) i (n :: needle) cs start ranges =
  if fold_byte cs c =? n then subsequence_loop hay (i + 1) needle cs (match start with None => Some i | s => s end) ranges
  else subsequence_loop hay (i + 1) (n :: needle) cs None (ranges ++ opened start i).
Proof. cbn [subsequence_loop]. unfold fold_byte. case_match; [done|]. destruct start; [done|]. by rewrite app_nil_r. Qed.

(** The loop finds a subsequence when there is one. *)
Lemma loop_sublist cs hay i needle start ranges rest ranges' start' e :
  subsequence_loop hay i needle cs start ranges = (rest, ranges', start', e) ->
  rest = [] <-> needle `sublist_of` folded cs hay.
Proof.
  revert i needle start ranges; induction hay as [|c hay IH]; intros i needle start ranges H.
  - destruct needle; simpl in H; injection H as <- <- <- <-; simpl.
    + split; [|done]. intros _. constructor.
    + split; [done|]. intros Hs. by apply sublist_nil_r in Hs.
  - destruct needle as [|n needle]; [simpl in H; injection H as <- <- <- <-; split; [intros _; apply sublist_nil_l|done]|].
    rewrite loop_step in H. simpl. destruct (Z.eqb_spec (fold_byte cs c) n) as [<-|Hne].
    + rewrite (IH _ _ _ _ H). split; [apply sublist_skip|]. intros Hs. apply sublist_cons_r in Hs as [Hs|(k&[= <-]&Hs)]; [|done].
      etrans; [|exact Hs]. apply sublist_cons, reflexivity.
    + rewrite (IH _ _ _ _ H). split; [apply sublist_cons|]. intros Hs. apply sublist_cons_r in Hs as [Hs|(k&[= -> ->]&Hs)]; [done|].
      by destruct Hne.
Qed.

Section Loop.
  Context (cs : bool) (text : list Z).
  Abbreviation H := (folded cs text).
  (** Before byte [i]: closed ranges, an open one, and what they spell. *)
Definition loop_inv (i : Z) (start : option Z) (ranges : list (Z * Z)) (used : list Z) : Prop :=
  0 <= i <= zlen text /\ spell H (ranges ++ opened start i) = used /\
  match start with
  | Some s => 0 <= s < i /\ spaced 0 (s - 1) ranges
  | None => spaced 0 (i - 1) ranges
  end.
Lemma loop_close i start ranges used : loop_inv i start ranges used -> spaced 0 i (ranges ++ opened start i).
Proof using Type.
  intros (Hi&_&Hs). destruct start as [s|]; simpl.
  - apply spaced_snoc; [apply Hs|lia|lia].
  - rewrite app_nil_r. eapply spaced_mono; [|done]. lia.
Qed.
Lemma loop_spells hay i needle start ranges rest ranges' start' e used :
  subsequence_loop hay i needle cs start ranges = (rest, ranges', start', e) -> hay = drop (Z.to_nat i) text ->
  loop_inv i start ranges used ->
  exists consumed, needle = consumed ++ rest /\ loop_inv e start' ranges' (used ++ consumed).
Proof using Type.
  revert i needle start ranges used; induction hay as [|c hay IH]; intros i needle start ranges used Hl Hhay Hinv.
  { simpl in Hl. destruct needle; injection Hl as <- <- <- <-; exists []; (split; [done|rewrite app_nil_r; exact Hinv]). }
  destruct needle as [|n needle]; [simpl in Hl; injection Hl as <- <- <- <-; exists []; (split; [done|rewrite app_nil_r; exact Hinv])|].
  pose proof Hinv as (Hi&Hused&Hs). assert (Hc : text !! Z.to_nat i = Some c).
  { rewrite <- (Nat.add_0_r (Z.to_nat i)), <- lookup_drop, <- Hhay. done. }
  pose proof (lookup_lt_Some _ _ _ Hc) as Hlt. assert (Hi' : 0 <= i + 1 <= zlen text) by (unfold zlen; lia).
  assert (Hhay' : hay = drop (Z.to_nat (i + 1)) text).
  { replace (Z.to_nat (i + 1)) with (Z.to_nat i + 1)%nat by lia. by rewrite <- drop_drop, <- Hhay. }
  assert (HH : zget H i = Some (fold_byte cs c)) by (rewrite zget_folded, zget_lookup by lia; by rewrite Hc).
  rewrite loop_step in Hl. destruct (Z.eqb_spec (fold_byte cs c) n) as [<-|Hne].
  - destruct (IH _ _ _ _ (used ++ [fold_byte cs c]) Hl Hhay') as (consumed&->&Hinv').
    2: { exists (fold_byte cs c :: consumed). by rewrite <- app_assoc in Hinv'. }
    split; [done|]. rewrite <- Hused, !spell_app, <- app_assoc. split.
    + f_equal. unfold spell. destruct start as [s|]; cbn [opened map concat fst snd]; rewrite !app_nil_r.
      * by apply slice_of_extend; [lia|].
      * rewrite (slice_of_extend _ i i _ ltac:(lia) HH). unfold slice_of. by rewrite Z.sub_diag.
    + destruct start as [s|]; [split; [lia|apply Hs]|]. split; [lia|]. exact Hs.
  - apply (IH _ _ _ _ used Hl Hhay'). split; [done|]. split; [simpl; by rewrite app_nil_r|]. rewrite Z.add_simpl_r. by eapply loop_close.
Qed.
End Loop.

(** ** Scores *)

Lemma pack_score_sum case extra len : 0 <= len < 2 ^ 32 -> 0 <= extra < 2 ^ 29 -> 0 <= case < 8 ->
  pack_score case extra len = case * 2 ^ 61 + extra * 2 ^ 32 + len.
Proof.
  intros Hl He Hc. unfold pack_score, wrap64. rewrite !Z.shiftl_mul_pow2 by lia. rewrite !Z.mod_small by lia.
  rewrite <- !Z.shiftl_mul_pow2 by lia. rewrite (Z.lor_comm (Z.shiftl case 61)), (lor_small _ case 61) by (rewrite ?Z.shiftl_mul_pow2 by lia; lia).
  rewrite Z.lor_comm, Z.shiftl_mul_pow2 by lia. replace (extra * 2 ^ 32 + 2 ^ 61 * case) with ((extra + case * 2 ^ 29) * 2 ^ 32) by lia.
  rewrite <- (Z.shiftl_mul_pow2 (extra + _)), lor_small, ?Z.shiftl_mul_pow2 by lia. lia.
Qed.
Definition alphanumeric_at (s : list Z) (i : Z) : bool := match zget s i with Some b => is_ascii_alphanumeric b | None => false end.
(** How a match at [i] is scored: at the end of the name it is better, and so
    it is when the bytes around it are no letters or digits. *)
Definition substring_extra (s : list Z) (n i : Z) : Z :=
  (if i + n =? zlen s then 0 else 4 + Z.b2z (alphanumeric_at s (i + n))) + 2 * Z.b2z (alphanumeric_at s (i - 1)).
(** Lower is better. *)
Inductive matched (cs : bool) (hay needle : list Z) : Z -> list (Z * Z) -> Prop :=
  | match_equal : folded cs hay = needle -> matched cs hay needle 0 []
  | match_substring i : folded cs hay <> needle -> occurs cs hay needle i ->
      (i + zlen needle = zlen hay \/ ~ occurs cs hay needle (zlen hay - zlen needle) /\ forall j, j < i -> ~ occurs cs hay needle j) ->
      matched cs hay needle (2 ^ 61 + substring_extra hay (zlen needle) i * 2 ^ 32 + zlen hay) [(i, i + zlen needle)]
  | match_subsequence ranges : (forall i, ~ occurs cs hay needle i) -> spell (folded cs hay) ranges = needle ->
      spaced 0 (zlen hay) ranges ->
      matched cs hay needle (2 * 2 ^ 61 + zlen ranges * 2 ^ 32 + zlen hay) ranges.

Lemma subslice_mapped mem hay a b : slice_mapped mem hay -> 0 <= a <= b -> b <= zlen (s_bytes hay) ->
  exists r, subslice hay a b = Ret r /\ slice_mapped mem r /\ s_bytes r = take (Z.to_nat (b - a)) (drop (Z.to_nat a) (s_bytes hay)).
Proof.
  intros [Hu8 Hm] Ha Hb. unfold subslice. rewrite zslice_take by done. eexists. split; [done|]. split; [|done]. split; [done|].
  cbn [s_bytes s_addr]. intros k Hk. assert (Hk' : 0 <= k < b - a) by (unfold zlen in *; rewrite length_take in Hk; lia).
  rewrite zget_take_drop, <- Z.add_assoc by lia. apply Hm. lia.
Qed.
Lemma occurs_prefix cs hay needle i e : 0 <= e <= zlen hay -> i + zlen needle <= e ->
  occurs cs (take (Z.to_nat e) hay) needle i <-> occurs cs hay needle i.
Proof.
  intros He Hie. assert (Hlen : zlen (take (Z.to_nat e) hay) = e) by (unfold zlen in *; rewrite length_take; lia).
  destruct (Z.leb_spec 0 i). 2: { split; intros Ho%occurs_range; lia. }
  rewrite !occurs_hits by lia. unfold hit. split; intros H' k Hk; rewrite <- (H' k Hk); f_equal; rewrite !zget_lookup, lookup_take_lt by lia; done.
Qed.
Lemma occurs_suffix cs hay needle : zlen needle <= zlen hay ->
  occurs cs (drop (Z.to_nat (zlen hay - zlen needle)) hay) needle 0 <-> occurs cs hay needle (zlen hay - zlen needle).
Proof.
  intros Hle. pose proof (zlen_nonneg needle). assert (Hlen : zlen (drop (Z.to_nat (zlen hay - zlen needle)) hay) = zlen needle) by (unfold zlen in *; rewrite length_drop; lia).
  rewrite !occurs_hits by lia. unfold hit. split; intros H' k Hk; rewrite <- (H' k Hk); f_equal; rewrite !zget_lookup, lookup_drop by lia; f_equal; lia.
Qed.
Lemma occurs_whole cs hay needle : zlen needle = zlen hay -> occurs cs hay needle 0 <-> folded cs hay = needle.
Proof.
  intros Hlen. rewrite occurs_window by lia. rewrite Hlen. unfold zlen. by rewrite Nat2Z.id, drop_0, firstn_all.
Qed.
Lemma occurs_sublist cs hay needle i : occurs cs hay needle i -> needle `sublist_of` folded cs hay.
Proof. intros (pre&post&->&_). apply sublist_inserts_l, sublist_inserts_r. reflexivity. Qed.
Lemma spaced_length lo hi ranges : spaced lo hi ranges -> ranges = [] \/ 2 * zlen ranges <= hi - lo + 1.
Proof.
  revert lo; induction ranges as [|[a b] ranges IH]; intros lo; simpl; [by left|]. intros (?&?&Hs). right. rewrite zlen_cons.
  destruct (IH _ Hs) as [->|]; [rewrite zlen_nil; lia|lia].
Qed.

Lemma at_byte {E} s i : 0 <= i < zlen s -> exists b, lift_opt (E := E) (zget s i) = Ret b /\ alphanumeric_at s i = is_ascii_alphanumeric b.
Proof.
  intros Hi. unfold alphanumeric_at. destruct (zget s i) as [b|] eqn:Hb; [by exists b|].
  rewrite zget_lookup in Hb by lia. apply lookup_ge_None_1 in Hb. unfold zlen in Hi. lia.
Qed.
Lemma alphanumeric_outside s i : ~ 0 <= i < zlen s -> alphanumeric_at s i = false.
Proof.
  intros Hi. unfold alphanumeric_at, zget. destruct (Z.leb_spec 0 i), (Z.ltb_spec i (zlen s)); done || lia.
Qed.

Section Fuzzy.
  Context (mem : memory) (avx2 : bool) (hay : Slice) (s : list Z) (cs : bool).
  Hypothesis (Hm : slice_mapped mem hay) (Hsize : zlen (s_bytes hay) < 2 ^ 29).
  Abbreviation bytes := (s_bytes hay).
  Abbreviation n := (zlen s).
  Abbreviation len := (zlen bytes).
  Hypothesis Hn : n <= len.

(** The two searches that [fuzzy_match] makes. *)
Lemma suffix_search : exists r, (tail ← subslice hay (len - n) len; memmem mem avx2 tail (padded_new s) cs) = Ret r /\
  (r <> None <-> occurs cs bytes s (len - n)).
Proof using Hm Hn.
  pose proof (zlen_nonneg s). destruct (subslice_mapped mem hay (len - n) len) as (t&->&Ht&Hb); [done|lia|lia|]. cbn [mbind outcome_bind].
  destruct (memmem_correct mem avx2 t s cs Ht) as (r&->&Hr). exists r. split; [done|].
  assert (Hlen : zlen (s_bytes t) = n) by (rewrite Hb; unfold zlen in *; rewrite length_take, length_drop; lia).
  rewrite <- occurs_suffix by done. assert (Hs : s_bytes t = drop (Z.to_nat (len - n)) bytes) by (rewrite Hb; apply take_ge; rewrite length_drop; unfold zlen in *; lia).
  rewrite <- Hs. destruct r as [i|]; simpl in Hr.
  - split; [intros _|done]. destruct Hr as [Ho _]. pose proof (occurs_range _ _ _ _ Ho). by replace 0 with i by lia.
  - split; [done|]. intros Ho. by destruct (Hr 0).
Qed.
Lemma start_search : ~ occurs cs bytes s (len - n) -> 0 < len ->
  exists r, (start ← subslice hay 0 (len - 1); memmem mem avx2 start (padded_new s) cs) = Ret r /\ first_occurrence cs bytes s r.
Proof using Hm Hn.
  intros Hno Hpos. destruct (subslice_mapped mem hay 0 (len - 1)) as (t&->&Ht&Hb); [done|lia|lia|]. cbn [mbind outcome_bind].
  destruct (memmem_correct mem avx2 t s cs Ht) as (r&->&Hr). exists r. split; [done|]. rewrite Z.sub_0_r, drop_0 in Hb. rewrite Hb in Hr.
  assert (Hoc : forall i, i + n <> len -> occurs cs (take (Z.to_nat (len - 1)) bytes) s i <-> occurs cs bytes s i).
  { intros i Hi. destruct (Z.leb_spec (i + n) (len - 1)); [apply occurs_prefix; lia|].
    assert (zlen (take (Z.to_nat (len - 1)) bytes) = len - 1) by (unfold zlen in *; rewrite length_take; lia).
    split; intros Ho%occurs_range; lia. }
  assert (Hall : forall i, occurs cs bytes s i -> i + n <> len) by (intros i Ho Hi; apply Hno; by replace (len - n) with i by lia).
  destruct r as [i|]; simpl in *.
  - destruct Hr as [Ho Hf]. assert (Hin := occurs_range _ _ _ _ Ho). assert (zlen (take (Z.to_nat (len - 1)) bytes) = len - 1) by (unfold zlen in *; rewrite length_take; lia).
    split; [apply Hoc; [lia|done]|]. intros j Hj Hoj. apply (Hf j Hj). apply Hoc; [by apply Hall|done].
  - intros i Ho. apply (Hr i). apply Hoc; [by apply Hall|done].
Qed.
End Fuzzy.

Lemma case_range cs hay needle i : occurs cs hay needle i -> zlen hay < 2 ^ 29 ->
  pack_score 1 (substring_extra hay (zlen needle) i) (zlen hay) = 2 ^ 61 + substring_extra hay (zlen needle) i * 2 ^ 32 + zlen hay.
Proof.
  intros Ho Hs. pose proof (zlen_nonneg hay). rewrite pack_score_sum; [lia|lia| |lia]. unfold substring_extra.
  destruct (i + zlen needle =? zlen hay), (alphanumeric_at hay (i + zlen needle)), (alphanumeric_at hay (i - 1)); simpl; lia.
Qed.

(** The three kinds of match. *)
Lemma score_suffix_matched bytes s cs : zlen bytes < 2 ^ 29 -> zlen s <= zlen bytes -> occurs cs bytes s (zlen bytes - zlen s) ->
  exists score ranges, score_suffix bytes (zlen s) [] = Ret (Some score, ranges) /\ matched cs bytes s score ranges.
Proof.
  intros Hsize Hn Ho. unfold score_suffix. pose proof (zlen_nonneg s). destruct (Z.eqb_spec (zlen bytes) (zlen s)) as [He|Hl].
  { eexists _, _. split; [done|]. apply match_equal, occurs_whole; [done|]. by rewrite He, Z.sub_diag in Ho. }
  unfold usub. rewrite (proj2 (Z.leb_le _ _)) by lia. cbn [mbind outcome_bind].
  destruct (at_byte (E := Empty_set) bytes (zlen bytes - zlen s - 1) ltac:(lia)) as (b&->&Hb). cbn [mbind outcome_bind]. rewrite <- Hb.
  assert (Z.shiftl (Z.b2z (alphanumeric_at bytes (zlen bytes - zlen s - 1))) 1 = substring_extra bytes (zlen s) (zlen bytes - zlen s)) as ->.
  { unfold substring_extra. rewrite Z.sub_add, Z.eqb_refl, Z.shiftl_mul_pow2 by done. lia. }
  rewrite (case_range cs) by done. eexists _, [(zlen bytes - zlen s, zlen bytes - zlen s + zlen s)].
  split; [by rewrite Z.sub_add|]. apply match_substring; [|done|left; lia]. intros He. apply Hl. by rewrite <- He, zlen_folded.
Qed.
Lemma score_substring_matched bytes s cs i : zlen bytes < 2 ^ 29 -> ~ occurs cs bytes s (zlen bytes - zlen s) ->
  folded cs bytes <> s -> first_occurrence cs bytes s (Some i) ->
  exists score ranges, score_substring bytes (zlen s) i [] = Ret (Some score, ranges) /\ matched cs bytes s score ranges.
Proof.
  intros Hsize Hno Hdiff [Ho Hbefore]. pose proof (occurs_range _ _ _ _ Ho) as Hr. pose proof (zlen_nonneg s). unfold score_substring.
  assert (Hi : i + zlen s <> zlen bytes) by (intros Hi; apply Hno; by replace (zlen bytes - zlen s) with i by lia).
  assert ((if 0 <? i then b ← lift_opt (zget bytes (i - 1)); Ret (is_ascii_alphanumeric b) else Ret false)
    = Ret (E := Empty_set) (alphanumeric_at bytes (i - 1))) as ->.
  { destruct (Z.ltb_spec 0 i); [|by rewrite alphanumeric_outside by lia].
    destruct (at_byte (E := Empty_set) bytes (i - 1) ltac:(lia)) as (b&->&->). done. }
  cbn [mbind outcome_bind]. rewrite (proj2 (Z.ltb_lt (i + zlen s) _)) by lia.
  destruct (at_byte (E := Empty_set) bytes (i + zlen s) ltac:(lia)) as (b&->&Hb). cbn [mbind outcome_bind]. rewrite <- Hb.
  assert (Z.lor (Z.lor 4 (Z.shiftl (Z.b2z (alphanumeric_at bytes (i - 1))) 1)) (Z.b2z (alphanumeric_at bytes (i + zlen s)))
    = substring_extra bytes (zlen s) i) as ->.
  { unfold substring_extra. rewrite (proj2 (Z.eqb_neq _ _)) by done. by destruct (alphanumeric_at bytes (i - 1)), (alphanumeric_at bytes (i + zlen s)). }
  rewrite (case_range cs) by done. eexists _, _. split; [done|]. apply match_substring; [done|done|]. right. by split.
Qed.
Lemma score_subsequence_matched bytes s cs : zlen bytes < 2 ^ 29 -> (forall i, ~ occurs cs bytes s i) ->
  match score_subsequence bytes s cs [] with
  | (Some score, ranges) => matched cs bytes s score ranges
  | (None, _) => ~ s `sublist_of` folded cs bytes
  end.
Proof.
  intros Hsize Hf. unfold score_subsequence. pose proof (zlen_nonneg bytes).
  destruct (subsequence_loop bytes 0 s cs None []) as [[[rest ranges] start] e] eqn:Hloop.
  destruct (loop_spells cs bytes _ _ _ _ _ _ _ _ _ [] Hloop eq_refl) as (consumed&Hc&Hinv); [by split; [lia|]|].
  case_bool_decide as Hrest; [|by rewrite <- (loop_sublist cs _ _ _ _ _ _ _ _ _ Hloop)].
  subst rest. rewrite app_nil_r in Hc. subst consumed. pose proof (loop_close _ _ _ _ _ _ Hinv) as Hspaced. destruct Hinv as (He&Hspell&_).
  assert (match start with Some s0 => ranges ++ [(s0, e)] | None => ranges end = ranges ++ opened start e) as ->
    by (destruct start; [done|by rewrite app_nil_r]).
  assert (Hsp := spaced_mono 0 e (zlen bytes) _ ltac:(lia) Hspaced).
  assert (0 <= zlen (ranges ++ opened start e) < 2 ^ 29).
  { split; [apply zlen_nonneg|]. destruct (spaced_length _ _ _ Hsp) as [->|]; [done|lia]. }
  rewrite pack_score_sum by lia. by apply match_subsequence.
Qed.

Lemma fuzzy_match_ok mem avx2 hay s cs : slice_mapped mem hay -> zlen (s_bytes hay) < 2 ^ 29 ->
  exists r ranges, fuzzy_match mem avx2 hay (padded_new s) cs [] = Ret (r, ranges) /\
    match r with
    | Some score => matched cs (s_bytes hay) s score ranges
    | None => ~ s `sublist_of` folded cs (s_bytes hay)
    end.
Proof.
  intros Hm Hsize. unfold fuzzy_match. rewrite padded_get_new. cbn [rassert mbind outcome_bind bool_decide]. set (bytes := s_bytes hay) in *.
  pose proof (zlen_nonneg s) as Hn0. destruct (Z.ltb_spec (zlen bytes) (zlen s)) as [Hlt|Hn].
  { eexists _, _. split; [done|]. intros Hs%sublist_length. unfold folded in Hs. rewrite length_map in Hs. unfold zlen in Hlt. lia. }
  destruct (suffix_search mem avx2 hay s cs Hm Hn) as (suffix&Hsuffix&Hocc). fold bytes in Hsuffix, Hocc.
  destruct (subslice_mapped mem hay (zlen bytes - zlen s) (zlen bytes)) as (t&Ht&_); [done|lia|done|]. rewrite Ht in Hsuffix |- *.
  cbn [mbind outcome_bind] in Hsuffix |- *. rewrite Hsuffix. cbn [mbind outcome_bind]. destruct suffix as [j|].
  { destruct (score_suffix_matched bytes s cs Hsize Hn (proj1 Hocc ltac:(done))) as (score&ranges&->&?). by exists (Some score), ranges. }
  assert (Hno : ~ occurs cs bytes s (zlen bytes - zlen s)) by (intros H; by apply Hocc in H).
  assert (Hdiff : folded cs bytes <> s).
  { intros He. apply Hno. assert (zlen s = zlen bytes) by (by rewrite <- He, zlen_folded). replace (zlen bytes - zlen s) with 0 by lia. by apply occurs_whole. }
  assert (Hpos : 0 < zlen bytes).
  { destruct bytes as [|b l]; [|rewrite zlen_cons; pose proof (zlen_nonneg l); lia]. by destruct s; [|rewrite zlen_cons, zlen_nil in Hn; pose proof (zlen_nonneg s); lia]. }
  unfold usub. rewrite (proj2 (Z.leb_le _ _)) by lia. cbn [mbind outcome_bind].
  destruct (start_search mem avx2 hay s cs Hm Hn Hno Hpos) as (first&Hfirst&Hf). fold bytes in Hfirst, Hf.
  destruct (subslice_mapped mem hay 0 (zlen bytes - 1)) as (st&Hst&_); [done|lia|unfold bytes; lia|]. rewrite Hst in Hfirst |- *.
  cbn [mbind outcome_bind] in Hfirst |- *. rewrite Hfirst. cbn [mbind outcome_bind]. destruct first as [i|].
  - destruct (score_substring_matched bytes s cs i Hsize Hno Hdiff Hf) as (score&ranges&->&?). by exists (Some score), ranges.
  - pose proof (score_subsequence_matched bytes s cs Hsize Hf) as Hq. destruct (score_subsequence bytes s cs []) as [r ranges]. by exists r, ranges.
Qed.

(** What is matched is a subsequence, and the score is a [usize]. *)
Lemma spell_sublist l lo hi ranges : spaced lo hi ranges -> 0 <= lo -> spell l ranges `sublist_of` drop (Z.to_nat lo) l.
Proof.
  revert lo; induction ranges as [|[a b] ranges IH]; intros lo; [intros _ _; apply sublist_nil_l|]. cbn [spaced]. intros (Ha&Hb&Hs) Hlo.
  unfold spell. cbn [map concat]. fold (spell l ranges). unfold slice_of. cbn [fst snd].
  transitivity (drop (Z.to_nat a) l).
  - rewrite <- (take_drop (Z.to_nat (b - a)) (drop (Z.to_nat a) l)) at 2. apply sublist_app; [done|]. rewrite drop_drop.
    replace (Z.to_nat a + Z.to_nat (b - a))%nat with (Z.to_nat b) by lia. etransitivity; [apply (IH (b + 1)); [done|lia]|].
    replace (Z.to_nat (b + 1)) with (Z.to_nat b + 1)%nat by lia. rewrite <- drop_drop. apply sublist_drop.
  - replace (Z.to_nat a) with (Z.to_nat lo + Z.to_nat (a - lo))%nat by lia. rewrite <- drop_drop. apply sublist_drop.
Qed.
Lemma matched_found cs hay needle score ranges : matched cs hay needle score ranges -> needle `sublist_of` folded cs hay.
Proof.
  destruct 1 as [->|i _ H _|ranges _ <- Hs]; [done|by eapply occurs_sublist|].
  pose proof (spell_sublist (folded cs hay) 0 _ _ Hs ltac:(done)) as H. by rewrite drop_0 in H.
Qed.
Lemma matched_score_range cs hay needle score ranges : zlen hay < 2 ^ 29 -> matched cs hay needle score ranges -> 0 <= score < 2 ^ 64.
Proof.
  intros Hl. pose proof (zlen_nonneg hay). destruct 1 as [|i _ H' _|ranges _ _ Hs]; [lia| |].
  - unfold substring_extra. case_match; destruct (alphanumeric_at hay (i - 1)), (alphanumeric_at hay (i + zlen needle)); cbn [Z.b2z]; lia.
  - pose proof (zlen_nonneg ranges). destruct (spaced_length _ _ _ Hs) as [->|]; [change (zlen []) with 0; lia|lia].
Qed.

(** C29. A name is in the results of a search when the query is a subsequence of
    it (of the name in lower case, unless the search is case sensitive), and its
    score says how: equal names first, then names with the query as a substring
    (at the end, and between characters that are no letters or digits, first),
    then subsequences by the number of pieces, and shorter names first. The
    ranges to highlight are those of the substring, or the pieces of the
    subsequence, in order and with gaps, which spell the query; but a name equal
    to the query gets no ranges. *)
Theorem fuzzy_match_correct mem avx2 hay s cs : slice_mapped mem hay -> zlen (s_bytes hay) < 2 ^ 29 ->
  exists r ranges, fuzzy_match mem avx2 hay (padded_new s) cs [] = Ret (r, ranges) /\
    match r with
    | Some score => matched cs (s_bytes hay) s score ranges
    | None => ~ s `sublist_of` folded cs (s_bytes hay)
    end.
Proof. exact (fuzzy_match_ok mem avx2 hay s cs). Qed.

(** ** An example *)

Definition example_name : list Z := str "std::Vec::push_back".
(** The name at 100, in memory mapped from 64 to 128 only. *)
Definition example_memory : memory := fun p =>
  if (64 <=? p) && (p <? 128) then Some (default 0 (if p <? 100 then None else zget example_name (p - 100))) else None.
Definition example_slice : Slice := mkSlice 100 example_name.
Lemma example_mapped : slice_mapped example_memory example_slice.
Proof.
  split.
  - intros p b. unfold example_memory. case_match; [|done]. intros [= <-]. destruct (p <? 100); [by vm_compute; split|].
    destruct (zget example_name (p - 100)) as [b|] eqn:E; [|by vm_compute; split]. cbn [default].
    apply zget_Some in E as [_ E]. apply list_elem_of_lookup_2 in E. assert (Hall : Forall is_u8 example_name) by (vm_compute; repeat constructor; discriminate).
    by apply (proj1 (Forall_forall _ _) Hall).
  - intros k Hk. change (zlen (s_bytes example_slice)) with 19 in Hk. cbn [s_addr s_bytes example_slice]. unfold example_memory. split.
    + rewrite (proj2 (Z.leb_le _ _)), (proj2 (Z.ltb_lt _ _)), (proj2 (Z.ltb_ge _ _)) by lia. cbn [andb]. replace (100 + k - 100) with k by lia.
      destruct (proj2 (zget_range example_name k) Hk) as [b E]. by rewrite E.
    + intros p Hp. assert (p / 64 = 1) by (rewrite Hp; Z.to_euclidean_division_equations; lia).
      rewrite (proj2 (Z.leb_le _ _)), (proj2 (Z.ltb_lt _ _)) by (Z.to_euclidean_division_equations; lia). done.
Qed.
Lemma memmem_first_occurrence_witness : memmem example_memory true example_slice (padded_new (str "vec")) false = Ret (Some 5) /\
  memmem example_memory false example_slice (padded_new (str "vec")) false = Ret (Some 5).
Proof.
  destruct (memmem_first_occurrence example_memory example_slice (str "vec") false example_mapped) as (r&E&E'&_).
  rewrite E, E'. vm_compute in E. injection E as <-. split; reflexivity.
Defined.
Lemma fuzzy_match_correct_witness : exists score, fuzzy_match example_memory true example_slice (padded_new (str "vec")) false [] = Ret (Some score, [(5, 8)]) /\
  matched false example_name (str "vec") score [(5, 8)].
Proof.
  destruct (fuzzy_match_correct example_memory true example_slice (str "vec") false example_mapped ltac:(reflexivity)) as (r&ranges&E&H).
  rewrite E. vm_compute in E. injection E as <- <-. eexists. split; [reflexivity|exact H].
Defined.
