(* ===== verification/SearchTasks.v ===== *)
(** Search in the symbols of all binaries (src/search.rs): what the searchers
    report, the tasks of a search and the results they share. *)
From Stdlib Require Import ZArith Lia.
From stdpp Require Import base list sorting.
From S2P Require Import Prelude RustStr StdSort LineInfo Symbols Simd FuzzyMatch.
Open Scope Z_scope.

(** ** Results *)

Definition MAX_RESULTS : nat := 1000.
Record SearchResult := mkResult { score : Z; symbols_idx : nat; result_id : Z }.
Record SearchResults := mkResults {
  results : list SearchResult;
  total_results : nat;
  items_done : Z; items_total : Z; bytes_done : Z;
  complete : bool
}.
Definition results_new : SearchResults := mkResults [] 0 0 0 0 false.
Definition set_complete (r : SearchResults) : SearchResults :=
  mkResults (results r) (total_results r) (items_done r) (items_total r) (bytes_done r) true.

(** One call of the callback of a search. *)
Record Batch := mkBatch { b_res : list SearchResult; delta_items_done : Z; delta_items_total : Z; delta_bytes_done : Z }.

Section Results.
  Context `{!SliceSort (by_key score)}.
Definition sort_and_truncate_results (v : list SearchResult) : list SearchResult := take MAX_RESULTS (slice_sort (by_key score) v).
(** What the callback does to the results when the search is not cancelled. *)
Definition deliver (b : Batch) (r : SearchResults) : SearchResults :=
  let original_count := length (b_res b) in
  let res := if (MAX_RESULTS <? length (b_res b))%nat then sort_and_truncate_results (b_res b) else b_res b in
  let rs := match res with [] => results r | _ => sort_and_truncate_results (results r ++ res) end in
  mkResults rs (total_results r + original_count) (wrap64 (items_done r + delta_items_done b)) (wrap64 (items_total r + delta_items_total b))
    (wrap64 (bytes_done r + delta_bytes_done b)) (complete r).
End Results.

(** ** Searchers *)

(** An item that is searched: skipped, or a result if it matches, and the bytes of
    its name. *)
Definition item : Type := option (option SearchResult * Z).
(** The loop over the items: the calls of the callback when nothing is cancelled. *)
Fixpoint search_loop (items : list item) (res : list SearchResult) (items_done bytes_done : Z) : list Batch :=
  match items with
  | [] => [mkBatch res items_done 0 bytes_done]
  | it :: items =>
      let items_done := items_done + 1 in
      let go res items_done bytes_done :=
        match it with
        | None => search_loop items res items_done bytes_done
        | Some (r, n) => search_loop items (match r with Some r => res ++ [r] | None => res end) items_done (bytes_done + n)
        end in
      if 2 ^ 16 <? items_done then mkBatch res items_done 0 bytes_done :: go [] 0 0 else go res items_done bytes_done
  end.
Definition search_items (items : list item) : list Batch := mkBatch [] 0 (zlen items) 0 :: search_loop items [] 0 0.

Fixpoint all_items {A} (f : A -> partial item) (l : list A) : partial (list item) :=
  match l with [] => Ret [] | x :: l => it ← f x; rest ← all_items f l; Ret (it :: rest) end.

Section Searchers.
  Context (mem : memory) (avx2 : bool).

(** The line of the query, and what the score of the file adds: [None] skips. *)
Definition right_line (query : SearchQuery) (line : LineInfo) : bool :=
  match search_line query with Some n => l_line line =? n | None => true end.
Definition add_file_score (file_scores : option (list Z)) (file_idx : Z) : partial (option Z) :=
  match file_scores with
  | None => Ret (Some 0)
  | Some scores => add_score ← lift_opt (zget scores file_idx); Ret (if add_score =? U64_MAX then None else Some add_score)
  end.
Definition function_score (query : SearchQuery) (file_scores : option (list Z)) (line : LineInfo) : partial (option Z) :=
  match l_file_idx line with
  | None => Ret None
  | Some file_idx => if negb (right_line query line) then Ret None else add_file_score file_scores file_idx
  end.
Definition variable_score (query : SearchQuery) (file_scores : option (list Z)) (line : LineInfo) : partial (option Z) :=
  match l_file_idx line with
  | None => Ret None
  | Some file_idx =>
      o ← add_file_score file_scores file_idx;
      Ret (match o with Some add_score => if right_line query line then Some add_score else None | None => None end)
  end.
Definition needs_line (query : SearchQuery) (file_scores : option (list Z)) : bool :=
  bool_decide (is_Some (search_line query)) || bool_decide (is_Some file_scores).
Definition match_name (name : Slice) (query : SearchQuery) (symbols_idx : nat) (id add_score : Z) : partial item :=
  '(score, _) ← fuzzy_match mem avx2 name (q_s query) (case_sensitive query) [];
  r ← match score with
      | None => Ret None
      | Some score => total ← uadd score add_score; Ret (Some (mkResult total symbols_idx id))
      end;
  Ret (Some (r, zlen (s_bytes name))).

Definition modify_query_for_mangled_search (query : SearchQuery) : partial SearchQuery :=
  s ← padded_get (q_s query); query_parse (List.filter (fun c => is_ascii_alphanumeric c || (c =? 95)) s) false false.
(** The part of a table that a shard searches. *)
Definition shard_range (len shard_idx shards : nat) : list nat :=
  let start := (len * shard_idx / shards)%nat in seq start (len * S shard_idx / shards - start).

(** FunctionSearcher; [name_ptr]: where the name of a function is in memory. *)
Definition function_item (name_ptr : nat -> Z) (s : Symbols) (symbols_idx : nat) (full_query query : SearchQuery) (file_scores : option (list Z)) (idx : nat) : partial item :=
  function ← lift_opt (functions s !! idx);
  if contains_flag (flags function) FunctionFlags.SENTINEL then Ret None
  else
    add_score ← (if needs_line full_query file_scores then
                   sf ← root_subfunction s function;
                   match sf with None => Ret None | Some (sf, _) => function_score full_query file_scores (call_line sf) end
                 else Ret (Some 0));
    match add_score with
    | None => Ret None
    | Some add_score => match_name (mkSlice (name_ptr idx) (mangled_name function)) query symbols_idx (Z.of_nat idx) add_score
    end.
Definition search_functions (name_ptr : nat -> Z) (s : Symbols) (symbols_idx shard_idx : nat) (full_query : SearchQuery) (file_scores : option (list Z)) : partial (list Batch) :=
  query ← modify_query_for_mangled_search full_query;
  items ← all_items (function_item name_ptr s symbols_idx full_query query file_scores) (shard_range (length (functions s)) shard_idx (length (shards s)));
  Ret (search_items items).

(** GlobalVariableSearcher; [variable]: where its name is, and its line. *)
Definition global_variable_item (variable : Z -> Z * LineInfo) (symbols_idx : nat) (query : SearchQuery) (file_scores : option (list Z)) (name : bytes * Z) : partial item :=
  add_score ← (if needs_line query file_scores then variable_score query file_scores (variable name.2).2 else Ret (Some 0));
  match add_score with
  | None => Ret None
  | Some add_score => match_name (mkSlice (variable name.2).1 name.1) query symbols_idx name.2 add_score
  end.
Definition search_global_variables (variable : Z -> Z * LineInfo) (s : Symbols) (symbols_idx shard_idx : nat) (query : SearchQuery) (file_scores : option (list Z)) : partial (list Batch) :=
  shard ← lift_opt (shards s !! shard_idx);
  items ← all_items (global_variable_item variable symbols_idx query file_scores) (sorted_global_variable_names shard);
  Ret (search_items items).

(** FileSearcher: the files, by how many lines use them. *)
Fixpoint file_results (used_lines : list Z) (file_scores : option (list Z)) (symbols_idx id : nat) : partial (list SearchResult) :=
  match used_lines with
  | [] => Ret []
  | used :: used_lines =>
      score ← match file_scores with Some v => lift_opt (v !! id) | None => Ret 0 end;
      rest ← file_results used_lines file_scores symbols_idx (S id);
      Ret (if negb (used =? 0) && negb (score =? U64_MAX) then mkResult score symbols_idx (Z.of_nat id) :: rest else rest)
  end.
Definition search_files (paths : list (list Z)) (used_lines : list Z) (file_scores : option (list Z)) (symbols_idx items_total : nat) : partial (list Batch) :=
  res ← file_results used_lines file_scores symbols_idx 0;
  Ret [mkBatch [] 0 (Z.of_nat items_total) 0; mkBatch res (Z.of_nat items_total) 0 (foldr Z.add 0 (map zlen paths))].
(** The scores of the files, by the query's file name; [path_ptr]: where a path is. *)
Fixpoint score_files (path_ptr : nat -> Z) (paths : list (list Z)) (i : nat) (query : SearchQuery) : partial (list Z) :=
  match paths with
  | [] => Ret []
  | path :: paths =>
      '(score, _) ← fuzzy_match mem avx2 (mkSlice (path_ptr i) path) (filename query) (case_sensitive query) [];
      rest ← score_files path_ptr paths (S i) query;
      Ret (default U64_MAX score :: rest)
  end.
End Searchers.

(** ** Tasks *)

Inductive Job :=
  | FileTask (symbols_idx : nat)                 (** file_search_task, not begun *)
  | SpawnTasks (symbols_idx shard_idx : nat)     (** in its last loop *)
  | SearchTask (batches : list Batch)            (** search_task, with the callbacks to come *)
  | FinishTask.                                  (** the last task, about to set [complete] *)
Record SearchState := mkState { st_results : SearchResults; cancel : bool; tasks_remaining : Z; jobs : list Job }.

Section Tasks.
  (** The number of tasks per binary and what the searcher reports in each. *)
  Context `{!SliceSort (by_key score)} (num_shards : nat -> nat) (search : nat -> nat -> list Batch).

(** [update] starts a search in [n] binaries. A file task that it runs itself, as
    there is no file name in the query, runs before later ones are there. *)
Definition search_start (n : nat) : SearchState :=
  mkState (if (n =? 0)%nat then set_complete results_new else results_new) false (Z.of_nat n) (map FileTask (seq 0 n)).

(** Steps of one job, by what it becomes and the jobs it adds. *)
Inductive job_step (r : SearchResults) (remaining : Z) : bool -> Job -> list Job -> SearchResults -> Z -> Prop :=
  | file_task c i : job_step r remaining c (FileTask i) [SpawnTasks i 0] r (wrap64 (remaining + (Z.of_nat (num_shards i) - 1)))
  | file_task_cancelled i : job_step r remaining true (FileTask i) [] r remaining
  | spawn_task c i k : (k < num_shards i)%nat -> job_step r remaining c (SpawnTasks i k) [SpawnTasks i (S k); SearchTask (search i k)] r remaining
  | spawn_end c i : job_step r remaining c (SpawnTasks i (num_shards i)) [] r remaining
  | search_callback b bs : job_step r remaining false (SearchTask (b :: bs)) [SearchTask bs] (deliver b r) remaining
  | search_cancelled bs : job_step r remaining true (SearchTask bs) [] r remaining
  | search_done : job_step r remaining false (SearchTask []) (if remaining =? 1 then [FinishTask] else []) r (wrap64 (remaining - 1))
  | finish c : job_step r remaining c FinishTask [] (set_complete r) remaining.
(** Jobs run in any order; a new query, or the end of the search, cancels. *)
Inductive search_step : SearchState -> SearchState -> Prop :=
  | step_job l1 j l2 js r r' remaining remaining' c : job_step r remaining c j js r' remaining' ->
      search_step (mkState r c remaining (l1 ++ j :: l2)) (mkState r' c remaining' (l1 ++ js ++ l2))
  | step_cancel r remaining js : search_step (mkState r false remaining js) (mkState r true remaining js).
End Tasks.
