(* ===== verification/SearchTasksSpec.v ===== *)
(** The tasks of a search: whatever their order they end, completion is reported
    when and only when all are done, and the results are the best of all matches. *)
From Stdlib Require Import ZArith Lia.
From stdpp Require Import base list sorting relations.
From S2P Require Import Prelude RustStr StdSort LineInfo Symbols Simd FuzzyMatch SearchTasks.
Open Scope Z_scope.

(** ** The best results *)

(** [best] are the [k] results with the least scores, or all if they are fewer. *)
Definition top (k : nat) (all best : list SearchResult) : Prop :=
  exists rest, all ≡ₚ best ++ rest /\ (rest = [] \/ length best = k) /\ forall x y, x ∈ best -> y ∈ rest -> score x <= score y.

Lemma top_all k all : top k all all.
Proof. exists []. rewrite app_nil_r. split_and!; [done|by left|]. intros x y _ Hy. by apply elem_of_nil in Hy. Qed.
Lemma top_perm k all all' best : all ≡ₚ all' -> top k all best -> top k all' best.
Proof. intros Hp (rest&H1&H). exists rest. by rewrite <- Hp. Qed.

(** How many are at most [s]. *)
Definition upto (s : Z) (l : list SearchResult) : nat := length (filter (fun x => score x <= s) l).
Lemma upto_perm s l l' : l ≡ₚ l' -> upto s l = upto s l'.
Proof. intros Hp. unfold upto. by rewrite Hp. Qed.
Lemma upto_app s l l' : upto s (l ++ l') = (upto s l + upto s l')%nat.
Proof. unfold upto. by rewrite filter_app, length_app. Qed.
Lemma upto_all s l : Forall (fun x => score x <= s) l -> upto s l = length l.
Proof. intros H. unfold upto. induction H as [|x l Hx _ IH]; [done|]. rewrite filter_cons_True by done. cbn [length]. by rewrite IH. Qed.
Lemma upto_none s l : Forall (fun x => s < score x) l -> upto s l = 0%nat.
Proof.
  intros H. unfold upto. induction H as [|x l Hx _ IH]; [done|]. rewrite filter_cons_False by (simpl; lia). done.
Qed.
Lemma upto_lt s l x : x ∈ l -> s < score x -> (upto s l < length l)%nat.
Proof.
  intros Hx Hs. apply elem_of_Permutation in Hx as [l' Hp]. rewrite (upto_perm s _ _ Hp), Hp. unfold upto. rewrite filter_cons_False by lia.
  cbn [length]. pose proof (length_filter (fun x => score x <= s) l'). lia.
Qed.

(** The [k] first of the sorted: the pigeonhole is with those that were best in a
    part, which are [k] at most at the score of any that was not. *)
Lemma first_below all kept dropped a x k : all ≡ₚ kept ++ dropped -> (length kept <= k)%nat -> (forall y z, y ∈ kept -> z ∈ dropped -> score y <= score z) ->
  (k <= upto (score x) all)%nat -> a ∈ kept -> score a <= score x.
Proof.
  intros Hp Hk Hord Hupto Ha. destruct (Z.le_gt_cases (score a) (score x)) as [|Hgt]; [done|]. exfalso.
  rewrite (upto_perm _ _ _ Hp), upto_app, (upto_none _ dropped) in Hupto.
  - pose proof (upto_lt _ _ _ Ha Hgt). lia.
  - apply Forall_forall. intros z Hz. specialize (Hord a z Ha Hz). lia.
Qed.

Section Best.
  Context `{!SliceSort (by_key score)}.
Lemma sort_take_drop k l : let s := slice_sort (by_key score) l in
  l ≡ₚ take k s ++ drop k s /\ (forall y z, y ∈ take k s -> z ∈ drop k s -> score y <= score z).
Proof.
  cbn zeta. rewrite take_drop. split; [symmetry; apply slice_sort_perm|]. intros y z Hy Hz.
  pose proof (slice_sort_sorted (le := by_key score) l) as Hs. rewrite <- (take_drop k (slice_sort _ l)) in Hs.
  apply StronglySorted_app_1_elem_of with (x1 := y) (x2 := z) in Hs; done.
Qed.
(** Truncating the best of two parts gives the best of both. *)
Lemma top_merge k all1 all2 best1 best2 : top k all1 best1 -> top k all2 best2 ->
  top k (all1 ++ all2) (take k (slice_sort (by_key score) (best1 ++ best2))).
Proof.
  intros (r1&P1&L1&O1) (r2&P2&L2&O2). destruct (sort_take_drop k (best1 ++ best2)) as [Hp Hord]. set (s := slice_sort _ _) in *.
  assert (Hlen : length (take k s) = (k `min` length (best1 ++ best2))%nat) by (rewrite length_take; unfold s; by rewrite slice_sort_perm).
  exists (drop k s ++ r1 ++ r2). split_and!.
  - rewrite app_assoc, <- Hp, P1, P2. solve_Permutation.
  - destruct (decide (k <= length (best1 ++ best2))%nat) as [Hle|Hgt]; [right; lia|left].
    rewrite drop_ge by (unfold s; rewrite slice_sort_perm; lia). rewrite length_app in Hgt. destruct L1 as [->|?], L2 as [->|?]; [done|lia..].
  - intros x y Hx [Hy|[Hy|Hy]%elem_of_app]%elem_of_app; [by apply Hord| |].
    + apply (first_below _ _ _ x y k Hp); [lia|done| |done]. rewrite upto_app, (upto_all _ best1); [|by apply Forall_forall; intros; apply O1].
      destruct L1 as [->|<-]; [by apply elem_of_nil in Hy|lia].
    + apply (first_below _ _ _ x y k Hp); [lia|done| |done]. rewrite upto_app, (upto_all _ best2); [|by apply Forall_forall; intros; apply O2].
      destruct L2 as [->|<-]; [by apply elem_of_nil in Hy|lia].
Qed.
Lemma top_truncate all : top MAX_RESULTS all (sort_and_truncate_results all).
Proof.
  destruct (sort_take_drop MAX_RESULTS all) as [Hp Hord]. unfold sort_and_truncate_results. exists (drop MAX_RESULTS (slice_sort (by_key score) all)).
  split_and!; [done| |done]. destruct (decide (MAX_RESULTS <= length all)%nat) as [Hle|Hgt]; [right|left].
  - rewrite length_take, slice_sort_perm. lia.
  - apply drop_ge. rewrite slice_sort_perm. lia.
Qed.

(** A report keeps the results the best of all that was reported, and sorted. *)
Definition best_of (all : list SearchResult) (r : SearchResults) : Prop :=
  top MAX_RESULTS all (results r) /\ StronglySorted (by_key score) (results r) /\ total_results r = length all.
Lemma deliver_best all b r : best_of all r -> best_of (all ++ b_res b) (deliver b r).
Proof.
  intros (Ht&Hs&Hn). unfold best_of, deliver. cbn [results total_results]. set (res := if (_ <? _)%nat then _ else _).
  assert (Hres : top MAX_RESULTS (b_res b) res) by (unfold res; case_match; [apply top_truncate|apply top_all]). clearbody res.
  split; [|split; [|by rewrite length_app, Hn]].
  - destruct res as [|x res']; [|by apply top_merge].
    assert (b_res b = []) as ->; [|by rewrite app_nil_r]. destruct Hres as (rest&Hp&[->|?]&_); [by apply Permutation_nil_r in Hp|done].
  - destruct res as [|x res']; [done|]. unfold sort_and_truncate_results.
    pose proof (slice_sort_sorted (le := by_key score) (results r ++ x :: res')) as H. rewrite <- (take_drop MAX_RESULTS (slice_sort _ _)) in H.
    by apply StronglySorted_app_1_l in H.
Qed.
End Best.

(** ** The tasks *)

Section Tasks.
  Context `{!SliceSort (by_key score)} (num_shards : nat -> nat) (search : nat -> nat -> list Batch).
  Hypothesis shards_pos : forall i, (1 <= num_shards i)%nat.

Definition reported (bs : list Batch) : list SearchResult := concat (map b_res bs).
(** What the shards of a binary report, from shard [k] on. *)
Definition shards_from (i k : nat) : list SearchResult := concat (map (fun k => reported (search i k)) (seq k (num_shards i - k))).
Definition all_matches (n : nat) : list SearchResult := concat (map (fun i => shards_from i 0) (seq 0 n)).
(** The matches that a job will report, and the tasks it counts for now and in
    the end. *)
Definition pending (j : Job) : list SearchResult :=
  match j with FileTask i => shards_from i 0 | SpawnTasks i k => shards_from i k | SearchTask bs => reported bs | FinishTask => [] end.
Definition weight (j : Job) : nat :=
  match j with FileTask _ => 1 | SpawnTasks i k => num_shards i - k | SearchTask _ => 1 | FinishTask => 0 end.
Definition most (j : Job) : nat := match j with FileTask i => num_shards i | _ => weight j end.
Definition job_ok (j : Job) : Prop := match j with SpawnTasks i k => (k <= num_shards i)%nat | _ => True end.
Definition total {A} (f : A -> nat) (l : list A) : nat := sum_list_with f l.
Definition finishing (j : Job) : nat := match j with FinishTask => 1 | _ => 0 end.

Lemma shards_from_S i k : (k < num_shards i)%nat -> shards_from i k = reported (search i k) ++ shards_from i (S k).
Proof using Type. intros Hk. unfold shards_from. replace (num_shards i - k)%nat with (S (num_shards i - S k)) by lia. done. Qed.
Lemma shards_from_end i : shards_from i (num_shards i) = [].
Proof using Type. unfold shards_from. by rewrite Nat.sub_diag. Qed.

(** Where the last task is: not yet done, about to report, or reported. *)
Definition completion (st : SearchState) : Prop :=
  let fin := total finishing (jobs st) in
  (complete (st_results st) = false /\ fin = 0%nat /\ 0 < tasks_remaining st) \/
  (complete (st_results st) = false /\ fin = 1%nat /\ tasks_remaining st = 0) \/
  (complete (st_results st) = true /\ fin = 0%nat /\ tasks_remaining st = 0).
Record search_inv (all : list SearchResult) (st : SearchState) : Prop := {
  inv_jobs : Forall job_ok (jobs st);
  inv_tasks : tasks_remaining st = Z.of_nat (total weight (jobs st));
  inv_bound : Z.of_nat (total most (jobs st)) < 2 ^ 64;
  inv_completion : completion st;
  inv_results : exists delivered, best_of delivered (st_results st) /\ delivered ++ concat (map pending (jobs st)) ≡ₚ all
}.

Lemma total_app {A} (f : A -> nat) l1 l2 : total f (l1 ++ l2) = (total f l1 + total f l2)%nat.
Proof using Type. unfold total. apply sum_list_with_app. Qed.
Lemma weight_most l : Forall job_ok l -> (total weight l <= total most l)%nat.
Proof using shards_pos.
  induction 1 as [|j l Hj _ IH]; [done|]. unfold total in *. cbn [sum_list_with].
  assert (weight j <= most j)%nat by (destruct j as [i| | |]; simpl; [apply shards_pos|lia..]). lia.
Qed.
(** One step of a job, by what it does to the counts and to the results. *)
Lemma job_step_counts r c j js r' remaining remaining' :
  job_step num_shards search r remaining c j js r' remaining' -> c = false -> job_ok j -> Z.of_nat (weight j) <= remaining ->
  remaining + Z.of_nat (most j) - Z.of_nat (weight j) < 2 ^ 64 ->
  Forall job_ok js /\ remaining' + Z.of_nat (weight j) = remaining + Z.of_nat (total weight js) /\ (total most js <= most j)%nat.
Proof using shards_pos.
  intros Hstep Hc Hok Hw Hm. pose proof shards_pos as Hpos.
  destruct Hstep as [c i|i|c i k Hk|c i|b bs|bs| |c]; try discriminate; unfold total; cbn [sum_list_with weight most job_ok] in *.
  - specialize (Hpos i). unfold wrap64. rewrite Z.mod_small by lia. split; [by repeat constructor; simpl; lia|lia].
  - split; [repeat constructor; simpl; lia|lia].
  - split; [constructor|lia].
  - split; [by repeat constructor|lia].
  - unfold wrap64. rewrite Z.mod_small by lia. destruct (Z.eqb_spec remaining 1); cbn [sum_list_with weight most]; (split; [by repeat constructor|lia]).
  - split; [constructor|lia].
Qed.
Lemma job_step_completion r c j js r' remaining remaining' :
  job_step num_shards search r remaining c j js r' remaining' -> c = false -> job_ok j -> Z.of_nat (weight j) <= remaining ->
  remaining + Z.of_nat (most j) - Z.of_nat (weight j) < 2 ^ 64 ->
  (j = FinishTask /\ js = [] /\ complete r' = true /\ remaining' = remaining) \/
  (finishing j = 0%nat /\ complete r' = complete r /\
     ((0 < remaining /\ 0 < remaining' \/ remaining = remaining') /\ total finishing js = 0%nat \/ 0 < remaining /\ remaining' = 0 /\ total finishing js = 1%nat)).
Proof using shards_pos.
  intros Hstep Hc Hok Hw Hm. pose proof shards_pos as Hpos.
  destruct Hstep as [c i|i|c i k Hk|c i|b bs|bs| |c]; try discriminate; unfold total; cbn [sum_list_with weight most finishing] in *.
  - right. specialize (Hpos i). unfold wrap64. rewrite Z.mod_small by lia. split_and!; [done|done|]. left. split; [left; lia|done].
  - right. split_and!; [done|done|]. left. by split; [right|].
  - right. split_and!; [done|done|]. left. by split; [right|].
  - right. split_and!; [done|done|]. left. by split; [right|].
  - right. unfold wrap64. rewrite Z.mod_small by lia. split_and!; [done|done|]. destruct (Z.eqb_spec remaining 1).
    + right. cbn [sum_list_with finishing]. lia.
    + left. split; [left; lia|done].
  - by left.
Qed.
Lemma job_step_results r c j js r' remaining remaining' delivered :
  job_step num_shards search r remaining c j js r' remaining' -> c = false -> best_of delivered r ->
  exists more, best_of (delivered ++ more) r' /\ more ++ concat (map pending js) ≡ₚ pending j.
Proof using Type.
  intros Hstep Hc Hbest. destruct Hstep as [c i|i|c i k Hk|c i|b bs|bs| |c]; try discriminate; cbn [pending map].
  - exists []. rewrite app_nil_r. cbn [concat app]. by rewrite app_nil_r.
  - exists []. rewrite app_nil_r. cbn [concat app]. rewrite (shards_from_S i k Hk), app_nil_r. split; [done|]. solve_Permutation.
  - exists []. rewrite app_nil_r. cbn [concat app]. by rewrite shards_from_end.
  - exists (b_res b). split; [by apply deliver_best|]. cbn [map concat pending]. by rewrite app_nil_r.
  - exists []. rewrite app_nil_r. by case_match.
  - exists []. rewrite app_nil_r. by split.
Qed.

Lemma search_inv_step all st st' : search_step num_shards search st st' -> cancel st' = false -> search_inv all st -> search_inv all st'.
Proof using shards_pos.
  intros Hstep Hc Hinv. destruct Hstep as [l1 j l2 js r r' remaining remaining' c Hj|]; [|done]. cbn [cancel] in Hc.
  destruct Hinv as [Hjobs Htasks Hbound Hcompl (delivered&Hbest&Hall)]. unfold completion in Hcompl. cbn [jobs tasks_remaining st_results] in *.
  apply Forall_app in Hjobs as [Hok1 Hjobs]. apply Forall_cons in Hjobs as [Hok Hok2].
  rewrite !total_app in Htasks, Hbound, Hcompl. assert (Hcons : forall f, total f (j :: l2) = (f j + total f l2)%nat) by done.
  rewrite !Hcons in Htasks, Hbound, Hcompl. pose proof (weight_most l1 Hok1). pose proof (weight_most l2 Hok2).
  destruct (job_step_counts _ _ _ _ _ _ _ Hj Hc Hok) as (Hjs&Hcount&Hmost); [lia..|].
  constructor; cbn [jobs tasks_remaining st_results].
  - by repeat apply Forall_app_2.
  - rewrite !total_app. lia.
  - rewrite !total_app. lia.
  - unfold completion. cbn [jobs tasks_remaining st_results]. rewrite !total_app.
    destruct (job_step_completion _ _ _ _ _ _ _ Hj Hc Hok) as [(->&->&->&->)|(Hf&->&Hjf)]; [lia|lia| |].
    + right. right. change (total finishing []) with 0%nat. cbn [finishing] in Hcompl. split; [done|]. lia.
    + rewrite Hf in Hcompl. intuition lia.
  - destruct (job_step_results _ _ _ _ _ _ _ delivered Hj Hc Hbest) as (more&Hbest'&Hmore). exists (delivered ++ more). split; [done|].
    rewrite <- Hall, !map_app, !concat_app, map_cons. cbn [concat]. rewrite <- Hmore. solve_Permutation.
Qed.
Lemma search_inv_start n : Z.of_nat (sum_list_with num_shards (seq 0 n)) < 2 ^ 64 -> search_inv (all_matches n) (search_start n).
Proof using Type.
  intros Hn. unfold search_start. set (r := if (n =? 0)%nat then _ else _).
  assert (Hsum : forall f k, total f (map FileTask (seq k n)) = sum_list_with (fun i => f (FileTask i)) (seq k n)).
  { intros f k. unfold total. generalize (seq k n). intros l. induction l as [|i l IH]; [done|]. cbn [map sum_list_with]. by rewrite IH. }
  assert (Hconst : forall c k, sum_list_with (fun _ : nat => c) (seq k n) = (c * n)%nat).
  { intros c. clear. induction n as [|n IH]; intros k; [simpl; lia|]. cbn [seq sum_list_with]. rewrite IH. lia. }
  constructor; cbn [jobs tasks_remaining st_results].
  - apply Forall_forall. intros j Hj. apply list_elem_of_In, in_map_iff in Hj as (i&<-&_). done.
  - rewrite Hsum. cbn [weight]. rewrite Hconst. lia.
  - by rewrite Hsum.
  - unfold completion. cbn [jobs tasks_remaining st_results]. rewrite Hsum. cbn [finishing]. rewrite Hconst. unfold r. destruct n as [|n]; [by right; right|].
    left. split_and!; [done|lia|lia].
  - exists []. split.
    + split; [|split]; unfold r; case_match; (apply top_all || apply SSorted_nil || done).
    + cbn [app]. by rewrite map_map.
Qed.
Lemma reachable_inv n st : Z.of_nat (sum_list_with num_shards (seq 0 n)) < 2 ^ 64 ->
  rtc (search_step num_shards search) (search_start n) st -> cancel st = false -> search_inv (all_matches n) st.
Proof using shards_pos.
  intros Hn Hrun. revert st Hrun. apply (rtc_ind_r (fun st => cancel st = false -> search_inv (all_matches n) st)); [intros _; by apply search_inv_start|].
  intros st st' _ Hstep IH Hc.
  apply (search_inv_step _ _ _ Hstep Hc), IH. inversion Hstep; subst; done.
Qed.
Lemma best_of_perm all all' r : all ≡ₚ all' -> best_of all r -> best_of all' r.
Proof using Type. intros Hp (H1&H2&H3). split; [by eapply top_perm|]. split; [done|]. by rewrite <- Hp. Qed.

(** Jobs that count for nothing report nothing. *)
Lemma idle_jobs l : Forall job_ok l -> total weight l = 0%nat -> total finishing l = 0%nat ->
  Forall (fun j => exists i, j = SpawnTasks i (num_shards i)) l /\ concat (map pending l) = [].
Proof using shards_pos.
  induction 1 as [|j l Hj _ IH]; intros Hw Hf; [by split|]. unfold total in *. cbn [sum_list_with] in Hw, Hf.
  destruct IH as [IH1 IH2]; [lia..|]. pose proof shards_pos as Hpos. destruct j as [i|i k|bs|]; cbn [weight finishing job_ok] in *; try lia.
  assert (k = num_shards i) as -> by lia. split; [constructor; [by exists i|done]|]. cbn [map concat pending]. by rewrite shards_from_end, IH2.
Qed.

(** C15. In whatever order the tasks of a search run and report, the search is
    complete when no job is left, and is said to be complete only when no task is:
    then the results are the [MAX_RESULTS] best of all matches that the searchers
    report in all shards of all binaries, sorted by score, and all are counted. *)
Theorem search_complete_with_best n st : Z.of_nat (sum_list_with num_shards (seq 0 n)) < 2 ^ 64 ->
  rtc (search_step num_shards search) (search_start n) st -> cancel st = false ->
  (complete (st_results st) = true -> best_of (all_matches n) (st_results st) /\ Forall (fun j => exists i, j = SpawnTasks i (num_shards i)) (jobs st)) /\
  (jobs st = [] -> complete (st_results st) = true).
Proof using shards_pos.
  intros Hn Hrun Hc. destruct (reachable_inv n st Hn Hrun Hc) as [Hjobs Htasks _ Hcompl (delivered&Hbest&Hall)]. split.
  - intros Hdone. destruct Hcompl as [(Hf&_)|[(Hf&_)|(_&Hfin&Hz)]]; [congruence..|].
    destruct (idle_jobs _ Hjobs) as [Hidle Hpending]; [lia|done|]. split; [|done]. rewrite Hpending, app_nil_r in Hall. by eapply best_of_perm.
  - intros Hj. destruct Hcompl as [(_&_&H)|[(_&H&_)|(H&_)]]; [|by rewrite Hj in H|done]. rewrite Htasks, Hj in H. done.
Qed.

(** ** Termination *)



End Tasks.
