(* ===== verification/SearchersSpec.v ===== *)
(** What the searchers report: every item once, in whatever shard it is, and for
    functions those whose names match. *)
From Stdlib Require Import ZArith Lia String.
From stdpp Require Import base list sorting relations.
From S2P Require Import Prelude RustStr StdSort LineInfo Symbols Simd FuzzyMatch FuzzyMatchSpec SearchTasks SearchTasksSpec.
Open Scope Z_scope.

(** ** The loop over the items *)

Definition item_result (it : item) : option SearchResult := match it with Some (Some r, _) => Some r | _ => None end.
Definition done_of (bs : list Batch) : Z := foldr Z.add 0 (map delta_items_done bs).
Lemma search_loop_reports items res d b : reported (search_loop items res d b) = res ++ omap item_result items /\
  done_of (search_loop items res d b) = d + zlen items.
Proof.
  revert res d b; induction items as [|it items IH]; intros res d b; cbn [search_loop].
  { unfold reported, done_of. simpl. rewrite !app_nil_r. split; [done|]. change (zlen []) with 0. lia. }
  rewrite zlen_cons. cbn [omap list_omap]. unfold item_result at 1.
  destruct (2 ^ 16 <? d + 1), it as [[[r|] n]|]; unfold reported, done_of in *; cbn [map concat foldr b_res delta_items_done];
    (split; [rewrite (proj1 (IH _ _ _)), <- ?app_assoc; done|rewrite (proj2 (IH _ _ _)); lia]).
Qed.
Lemma search_items_report items : reported (search_items items) = omap item_result items /\ done_of (search_items items) = zlen items.
Proof.
  unfold search_items, reported, done_of. cbn [map concat foldr b_res delta_items_done app].
  destruct (search_loop_reports items [] 0 0) as [H1 H2]. unfold reported, done_of in *. rewrite H1, H2. split; [done|lia].
Qed.
Lemma all_items_ok {A} (f : A -> partial item) l (its : list item) : Forall2 (fun x it => f x = Ret it) l its -> all_items f l = Ret its.
Proof. induction 1 as [|x it l its E _ IH]; [done|]. cbn [all_items]. by rewrite E, IH. Qed.

(** The shards' parts of a table are the table. *)
Lemma shard_ranges_partition len n : (0 < n)%nat -> concat (map (fun k => shard_range len k n) (seq 0 n)) = seq 0 len.
Proof.
  intros Hn. assert (H : forall m, concat (map (fun k => shard_range len k n) (seq 0 m)) = seq 0 (len * m / n)).
  { induction m as [|m IH]; [by rewrite Nat.mul_0_r, Nat.Div0.div_0_l|]. rewrite seq_S, map_app, concat_app, IH. cbn [map concat Nat.add].
    rewrite app_nil_r. unfold shard_range. assert (Hle : (len * m / n <= len * S m / n)%nat) by (apply Nat.Div0.div_le_mono; lia).
    rewrite <- (seq_app (len * m / n) _ 0). f_equal. lia. }
  rewrite H, Nat.div_mul by lia. done.
Qed.

(** ** Files *)

(** A score, also added to another, is no overflow and not the mark of a name
    that does not match. *)
Lemma matched_score_bound cs hay needle score ranges : zlen hay < 2 ^ 29 -> matched cs hay needle score ranges -> 0 <= score < 2 ^ 63.
Proof.
  intros Hl. pose proof (zlen_nonneg hay). destruct 1 as [|i _ H' _|ranges _ _ Hs]; [lia| |].
  - unfold substring_extra. case_match; destruct (alphanumeric_at hay (i - 1)), (alphanumeric_at hay (i + zlen needle)); cbn [Z.b2z]; lia.
  - pose proof (zlen_nonneg ranges). destruct (spaced_length _ _ _ Hs) as [->|]; [change (zlen []) with 0; lia|lia].
Qed.
Definition paths_mapped (mem : memory) (path_ptr : nat -> Z) (paths : list (list Z)) : Prop :=
  forall i path, paths !! i = Some path -> slice_mapped mem (mkSlice (path_ptr i) path) /\ zlen path < 2 ^ 29.
Lemma score_files_ok mem avx2 path_ptr paths query text n : filename query = padded_new text ->
  (forall i path, paths !! i = Some path -> slice_mapped mem (mkSlice (path_ptr (n + i)%nat) path) /\ zlen path < 2 ^ 29) ->
  exists scores, score_files mem avx2 path_ptr paths n query = Ret scores /\
    Forall2 (fun path score => if score =? U64_MAX then ~ text `sublist_of` folded (case_sensitive query) path
      else 0 <= score < 2 ^ 63 /\ text `sublist_of` folded (case_sensitive query) path) paths scores.
Proof.
  intros Hq. revert n. induction paths as [|path paths IH]; intros n Hm; [by exists []|].
  destruct (IH (S n)) as (scores&E&Hs). { intros i q Hi. rewrite Nat.add_succ_comm. by apply (Hm (S i)). }
  destruct (Hm 0%nat path eq_refl) as [Hslice Hlen]. rewrite Nat.add_0_r in Hslice.
  destruct (fuzzy_match_ok mem avx2 (mkSlice (path_ptr n) path) text (case_sensitive query) Hslice Hlen) as (score&ranges&E'&Hmatch).
  cbn [score_files]. rewrite Hq, E'. cbn [mbind outcome_bind]. rewrite E. cbn [mbind outcome_bind]. eexists. split; [done|].
  constructor; [|done]. cbn [s_bytes] in Hmatch. destruct score as [score|]; cbn [from_option id]; [|by rewrite Z.eqb_refl].
  pose proof (matched_score_bound _ _ _ _ _ Hlen Hmatch). rewrite (proj2 (Z.eqb_neq score U64_MAX)) by (unfold U64_MAX; lia).
  split; [done|]. apply (matched_found _ _ _ _ _ Hmatch).
Qed.

(** ** Functions *)

Section Functions.
  Context (mem : memory) (avx2 : bool) (name_ptr path_ptr : nat -> Z) (s : Symbols) (paths : list (list Z)).
Definition name_slice (idx : nat) (f : FunctionInfo) : Slice := mkSlice (name_ptr idx) (mangled_name f).
(** The names of the functions are in memory. *)
Definition names_mapped : Prop := forall idx f, functions s !! idx = Some f -> slice_mapped mem (name_slice idx f) /\ zlen (mangled_name f) < 2 ^ 29.
(** The table of inlined calls can be read at each function, and its files are
    in the table of files. *)
Definition places_readable : Prop := forall idx f, functions s !! idx = Some f -> exists o, root_subfunction s f = Ret o /\
  forall sf i file, o = Some (sf, i) -> l_file_idx (call_line sf) = Some file -> 0 <= file < zlen paths.
(** The scores of the files are those of the part of the query that names one. *)
Definition files_scored (query : SearchQuery) (file_scores : option (list Z)) (file_text : list Z) : Prop :=
  match file_scores with
  | None => True
  | Some scores => filename query = padded_new file_text /\ paths_mapped mem path_ptr paths /\ score_files mem avx2 path_ptr paths 0 query = Ret scores
  end.
(** The function is in the file and at the line the query asks for, if it asks. *)
Definition at_place (query : SearchQuery) (file_scores : option (list Z)) (file_text : list Z) (f : FunctionInfo) : Prop :=
  needs_line query file_scores = true ->
  exists sf i file path, root_subfunction s f = Ret (Some (sf, i)) /\ l_file_idx (call_line sf) = Some file /\
    (forall n, search_line query = Some n -> l_line (call_line sf) = n) /\
    zget paths file = Some path /\ (is_Some file_scores -> file_text `sublist_of` folded (case_sensitive query) path).
(** A query finds a function that is one by its name and its place. *)
Definition found_by (full_query : SearchQuery) (file_scores : option (list Z)) (file_text : list Z) (query : list Z) (cs : bool) (idx : nat) : Prop :=
  exists f, functions s !! idx = Some f /\ contains_flag (flags f) FunctionFlags.SENTINEL = false /\
    at_place full_query file_scores file_text f /\ query `sublist_of` folded cs (mangled_name f).

Definition place_score (full_query : SearchQuery) (file_scores : option (list Z)) (f : FunctionInfo) : partial (option Z) :=
  if needs_line full_query file_scores then
    sf ← root_subfunction s f;
    match sf with None => Ret None | Some (sf, _) => function_score full_query file_scores (call_line sf) end
  else Ret (Some 0).
Lemma place_score_ok full_query file_scores file_text idx f : places_readable -> files_scored full_query file_scores file_text -> functions s !! idx = Some f ->
  exists o, place_score full_query file_scores f = Ret o /\
    match o with
    | Some score => 0 <= score < 2 ^ 63 /\ at_place full_query file_scores file_text f
    | None => ~ at_place full_query file_scores file_text f
    end.
Proof.
  intros Hp Hs Hf. unfold place_score, at_place. destruct (needs_line full_query file_scores) eqn:Hn; [|by exists (Some 0); split; [|split; [lia|]]].
  destruct (Hp idx f Hf) as (o&->&Hfile). cbn [mbind outcome_bind]. destruct o as [[sf i]|].
  2: { exists None. split; [done|]. intros H. destruct (H eq_refl) as (?&?&?&?&?&_). simplify_eq. }
  unfold function_score. destruct (l_file_idx (call_line sf)) as [file|] eqn:El.
  2: { exists None. split; [done|]. intros H. destruct (H eq_refl) as (?&?&?&?&?&?&_). simplify_eq. }
  destruct (proj2 (zget_range paths file) (Hfile _ _ _ eq_refl El)) as [path Hpath].
  destruct (right_line full_query (call_line sf)) eqn:Hline; cbn [negb]; unfold right_line in Hline.
  2: { exists None. split; [done|]. intros H. destruct (H eq_refl) as (?&?&?&?&?&?&Hl&_). simplify_eq.
       destruct (search_line full_query) as [n|]; [|done]. by apply Z.eqb_neq in Hline; destruct Hline; apply Hl. }
  assert (Hl : forall n, search_line full_query = Some n -> l_line (call_line sf) = n) by (intros n E; rewrite E in Hline; by apply Z.eqb_eq).
  unfold add_file_score. destruct file_scores as [scores|].
  2: { exists (Some 0). split; [done|]. split; [lia|]. intros _. exists sf, i, file, path. split_and!; try done; by intros [? ?]. }
  destruct Hs as (Hq&Hm&E). destruct (score_files_ok mem avx2 path_ptr paths full_query file_text 0 Hq Hm) as (scores'&E'&H2). rewrite E' in E. injection E as ->.
  pose proof (Hfile _ _ _ eq_refl El) as Hrange. rewrite zget_lookup in Hpath by lia. destruct (Forall2_lookup_l _ _ _ _ _ H2 Hpath) as (score&Hscore&Hmatch).
  rewrite zget_lookup by lia. rewrite Hscore. cbn [lift_opt mbind outcome_bind]. destruct (score =? U64_MAX).
  - exists None. split; [done|]. intros H. destruct (H eq_refl) as (?&?&?&?&?&?&_&Hpath'&Hsub). simplify_eq.
    rewrite zget_lookup in Hpath' by lia. simplify_eq. by apply Hmatch, Hsub.
  - exists (Some score). split; [done|]. destruct Hmatch as [? ?]. split; [done|]. intros _. exists sf, i, file, path. rewrite zget_lookup by lia. split_and!; done.
Qed.

Lemma function_item_ok full_query file_scores file_text query text symbols_idx idx f : names_mapped -> places_readable ->
  files_scored full_query file_scores file_text -> functions s !! idx = Some f -> q_s query = padded_new text ->
  exists it, function_item mem avx2 name_ptr s symbols_idx full_query query file_scores idx = Ret it /\
    match item_result it with
    | Some r => result_id r = Z.of_nat idx /\ found_by full_query file_scores file_text text (case_sensitive query) idx
    | None => ~ found_by full_query file_scores file_text text (case_sensitive query) idx
    end.
Proof.
  intros Hm Hp Hs Hf Hq. unfold function_item. rewrite Hf. cbn [lift_opt mbind outcome_bind].
  destruct (contains_flag (flags f) FunctionFlags.SENTINEL) eqn:Es.
  { exists None. split; [done|]. intros (f'&Hf'&Es'&_). simplify_eq. congruence. }
  destruct (place_score_ok full_query file_scores file_text idx f Hp Hs Hf) as (o&Eo&Ho). unfold place_score in Eo. rewrite Eo. cbn [mbind outcome_bind].
  destruct o as [add_score|]. 2: { exists None. split; [done|]. intros (f'&Hf'&_&Hat&_). simplify_eq. done. }
  destruct (Hm idx f Hf) as [Hslice Hlen]. unfold match_name.
  destruct (fuzzy_match_ok mem avx2 (name_slice idx f) text (case_sensitive query) Hslice Hlen) as (score&ranges&E&Hmatch).
  rewrite Hq. unfold name_slice in E. rewrite E. cbn [mbind outcome_bind]. destruct score as [score|].
  - pose proof (matched_score_bound _ _ _ _ _ Hlen Hmatch). unfold uadd. rewrite (proj2 (Z.ltb_lt _ _)) by lia. cbn [mbind outcome_bind].
    eexists. split; [done|]. cbn [item_result result_id]. split; [done|]. exists f. split_and!; [done|done|apply Ho|]. apply (matched_found _ _ _ _ _ Hmatch).
  - eexists. split; [done|]. cbn [item_result]. intros (f'&Hf'&_&_&Hsub). simplify_eq. done.
Qed.

Lemma function_items_ok full_query file_scores file_text query text symbols_idx idxs : names_mapped -> places_readable ->
  files_scored full_query file_scores file_text -> Forall (fun idx => (idx < length (functions s))%nat) idxs -> q_s query = padded_new text ->
  exists its, all_items (function_item mem avx2 name_ptr s symbols_idx full_query query file_scores) idxs = Ret its /\ length its = length idxs /\
    map result_id (omap item_result its) `sublist_of` map Z.of_nat idxs /\
    forall idx, Z.of_nat idx ∈ map result_id (omap item_result its) <-> idx ∈ idxs /\ found_by full_query file_scores file_text text (case_sensitive query) idx.
Proof.
  intros Hm Hp Hs Hidxs Hq. induction Hidxs as [|idx idxs Hlt _ (its&E&Hlen&Hsub&Hiff)].
  { exists []. split_and!; [done|done|done|]. intros idx. simpl. split; [by intros ?%elem_of_nil|by intros [?%elem_of_nil _]]. }
  destruct (lookup_lt_is_Some_2 _ _ Hlt) as [f Hf]. destruct (function_item_ok full_query file_scores file_text query text symbols_idx idx f Hm Hp Hs Hf Hq) as (it&Eit&Hit).
  exists (it :: its). cbn [all_items]. rewrite Eit, E. cbn [mbind outcome_bind length omap list_omap]. split; [done|]. split; [by rewrite Hlen|].
  destruct (item_result it) as [r|] eqn:Er.
  - destruct Hit as [Hid Hfound]. cbn [map]. rewrite Hid. split; [by constructor|]. intros i. rewrite !elem_of_cons, Hiff. split.
    + intros [->%Nat2Z.inj|[? ?]]; [by split; [left|]|by split; [right|]].
    + intros [[->|?] ?]; [by left|by right].
  - cbn [map]. split; [by constructor|]. intros i. rewrite elem_of_cons, Hiff. split; [intros [? ?]; by split; [right|]|].
    intros [[->|?] ?]; [done|by split].
Qed.

(** The search of one shard. *)
Lemma search_functions_ok symbols_idx full_query file_scores file_text text k : names_mapped -> places_readable -> files_scored full_query file_scores file_text ->
  padded_get (q_s full_query) = Ret text -> (k < length (shards s))%nat ->
  let query := List.filter (fun c => is_ascii_alphanumeric c || (c =? 95)) text in let cs := existsb is_ascii_uppercase query in
  let part := shard_range (length (functions s)) k (length (shards s)) in
  exists bs, search_functions mem avx2 name_ptr s symbols_idx k full_query file_scores = Ret bs /\ done_of bs = zlen part /\
    map result_id (reported bs) `sublist_of` map Z.of_nat part /\
    forall idx, Z.of_nat idx ∈ map result_id (reported bs) <-> idx ∈ part /\ found_by full_query file_scores file_text query cs idx.
Proof.
  intros Hm Hp Hs Htext Hk query cs part. unfold search_functions, modify_query_for_mangled_search. rewrite Htext. cbn [mbind outcome_bind].
  unfold query_parse. cbn [negb orb rassert mbind outcome_bind]. fold query cs part.
  assert (Hpart : Forall (fun idx => (idx < length (functions s))%nat) part).
  { apply Forall_forall. intros idx Hidx. assert (Hin : idx ∈ seq 0 (length (functions s))); [|by apply elem_of_seq in Hin; lia].
    rewrite <- (shard_ranges_partition _ (length (shards s))) by lia. apply list_elem_of_In, in_concat. exists part. split; [|by apply list_elem_of_In].
    apply in_map_iff. exists k. split; [done|]. apply in_seq. lia. }
  set (q := mkQuery _ _ _ _ _ _). destruct (function_items_ok full_query file_scores file_text q query symbols_idx part Hm Hp Hs Hpart eq_refl) as (its&->&Hlen&Hsub&Hiff).
  cbn [mbind outcome_bind]. eexists. split; [done|]. destruct (search_items_report its) as [-> ->]. split; [unfold zlen; by rewrite Hlen|]. by split.
Qed.
(** What a shard reports when it does not fail. *)
Definition shard_batches (symbols_idx : nat) (full_query : SearchQuery) (file_scores : option (list Z)) (k : nat) : list Batch :=
  match search_functions mem avx2 name_ptr s symbols_idx k full_query file_scores with Ret bs => bs | _ => [] end.

(** C30. The search for functions does not fail, and the shards together search
    every function once: the results they report are, each once, the functions
    other than end markers in whose mangled name the letters, digits and
    underscores of the query are a subsequence and, when the query names a file
    or a line, whose first line is known, is the line asked for, and is in a file
    whose path has the file name of the query as a subsequence; and the items
    reported as done are as many as there are entries in the table. *)
Theorem function_search_covers symbols_idx full_query file_scores file_text text : names_mapped -> places_readable -> files_scored full_query file_scores file_text ->
  padded_get (q_s full_query) = Ret text -> (0 < length (shards s))%nat ->
  let query := List.filter (fun c => is_ascii_alphanumeric c || (c =? 95)) text in let cs := existsb is_ascii_uppercase query in
  let all := map (shard_batches symbols_idx full_query file_scores) (seq 0 (length (shards s))) in
  (forall k, (k < length (shards s))%nat -> search_functions mem avx2 name_ptr s symbols_idx k full_query file_scores = Ret (shard_batches symbols_idx full_query file_scores k)) /\
  NoDup (map result_id (concat (map reported all))) /\
  (forall idx, Z.of_nat idx ∈ map result_id (concat (map reported all)) <-> found_by full_query file_scores file_text query cs idx) /\
  foldr Z.add 0 (map done_of all) = zlen (functions s).
Proof.
  intros Hm Hp Hs Htext Hpos query cs all. set (n := length (shards s)) in *. set (part := fun k => shard_range (length (functions s)) k n).
  assert (Hshard : forall k, (k < n)%nat -> search_functions mem avx2 name_ptr s symbols_idx k full_query file_scores = Ret (shard_batches symbols_idx full_query file_scores k) /\
    done_of (shard_batches symbols_idx full_query file_scores k) = zlen (part k) /\
    map result_id (reported (shard_batches symbols_idx full_query file_scores k)) `sublist_of` map Z.of_nat (part k) /\
    forall idx, Z.of_nat idx ∈ map result_id (reported (shard_batches symbols_idx full_query file_scores k)) <-> idx ∈ part k /\ found_by full_query file_scores file_text query cs idx).
  { intros k Hk. destruct (search_functions_ok symbols_idx full_query file_scores file_text text k Hm Hp Hs Htext Hk) as (bs&E&H). unfold shard_batches. rewrite E. by split. }
  pose proof (shard_ranges_partition (length (functions s)) n Hpos) as Hpart. fold part in Hpart. unfold all. clear all. rewrite !map_map.
  assert (Hsum : forall l, Forall (fun k => (k < n)%nat) l ->
    map result_id (concat (map (fun k => reported (shard_batches symbols_idx full_query file_scores k)) l)) `sublist_of` map Z.of_nat (concat (map part l)) /\
    (forall idx, Z.of_nat idx ∈ map result_id (concat (map (fun k => reported (shard_batches symbols_idx full_query file_scores k)) l)) <-> idx ∈ concat (map part l) /\ found_by full_query file_scores file_text query cs idx) /\
    foldr Z.add 0 (map (fun k => done_of (shard_batches symbols_idx full_query file_scores k)) l) = zlen (concat (map part l))).
  { induction 1 as [|k l Hk _ (IH1&IH2&IH3)]; cbn [map concat foldr].
    - split_and!; [done| |done]. intros idx. split; [by intros ?%elem_of_nil|by intros [?%elem_of_nil _]].
    - destruct (Hshard k Hk) as (_&H1&H2&H3). rewrite !map_app. split; [by apply sublist_app|]. split.
      + intros idx. rewrite !elem_of_app, H3, IH2. tauto.
      + unfold zlen in *. rewrite H1, IH3, length_app. lia. }
  destruct (Hsum (seq 0 n)) as (H1&H2&H3). { apply Forall_forall. intros k Hk. apply elem_of_seq in Hk. lia. }
  rewrite Hpart in H1, H2, H3. split_and!.
  - intros k Hk. apply Hshard, Hk.
  - eapply sublist_NoDup; [|exact H1]. apply (NoDup_fmap_2 Z.of_nat), NoDup_seq.
  - intros idx. rewrite H2, elem_of_seq. split; [tauto|]. intros H. split; [|done]. destruct H as (f&Hf&_). apply lookup_lt_Some in Hf. lia.
  - rewrite H3. unfold zlen. by rewrite length_seq.
Qed.
End Functions.

(** ** Examples *)

(** Two functions of the same name, one of them with debug information, and one
    shard; a query for the name, a file and a line. *)
Definition example_call : Subfunction :=
  mkSf 0 0 (match line_new 4096 (Some 0) 12 1 0 0 with Ret l => l | _ => line_invalid end) (4096, 4100) 0.
Definition example_symbols : Symbols :=
  mkSymbols [] [mkFn 4096 1 4096 4096 example_name 0 0 Cpp (0, 2)%nat; mkFn 8192 1 8192 8192 example_name 0 0 Cpp (0, 0)%nat]
    [mkShard [] [] [example_call] [0; 1]%nat [] [] []] [] [].
Definition example_query : SearchQuery := mkQuery (padded_new (str "::vec")) false false (padded_new (str "back")) (Some 12) None.
Definition example_scores : list Z := match score_files example_memory true (fun _ => 100) [example_name] 0 example_query with Ret l => l | _ => [] end.
Lemma example_names : names_mapped example_memory (fun _ => 100) example_symbols.
Proof. intros [|[|idx]] f Hf; [| |done]; injection Hf as <-; (split; [apply example_mapped|reflexivity]). Qed.
Lemma example_places : places_readable example_symbols [example_name].
Proof.
  intros [|[|idx]] f Hf; [| |done]; injection Hf as <-; eexists; (split; [vm_compute; reflexivity|]); [|done].
  intros sf i file [= <- <-] Hl. vm_compute in Hl. injection Hl as <-. by vm_compute.
Qed.
Lemma example_scored : files_scored example_memory true (fun _ => 100) [example_name] example_query (Some example_scores) (str "back").
Proof.
  split; [done|]. split; [|by vm_compute]. intros [|i] path Hp; [|done]. injection Hp as <-. split; [apply example_mapped|reflexivity].
Qed.
Lemma function_search_covers_witness : exists r,
  search_functions example_memory true (fun _ => 100) example_symbols 7 0 example_query (Some example_scores) =
    Ret [mkBatch [] 0 2 0; mkBatch [r] 2 0 19] /\ result_id r = 0.
Proof.
  destruct (function_search_covers example_memory true (fun _ => 100) (fun _ => 100) example_symbols [example_name] 7 example_query
    (Some example_scores) (str "back") (str "::vec") example_names example_places example_scored eq_refl ltac:(simpl; lia)) as (Hrun&_&Hfound&_).
  rewrite (Hrun 0%nat ltac:(simpl; lia)). unfold shard_batches. vm_compute. eexists. split; reflexivity.
Defined.

(** A search in one binary, of one shard that reports one match. *)
#[local] Instance example_result_sort : SliceSort (by_key score) := merge_slice_sort _.
Definition example_report (i k : nat) : list Batch := [mkBatch [mkResult 5 i 0] 1 1 19].
Lemma search_complete_with_best_witness : exists st,
  rtc (search_step (fun _ => 1%nat) example_report) (search_start 1) st /\ complete (st_results st) = true /\ best_of [mkResult 5 0 0] (st_results st).
Proof.
  set (st := mkState (set_complete (deliver (mkBatch [mkResult 5 0 0] 1 1 19) results_new)) false 0 []).
  assert (Hrun : rtc (search_step (fun _ => 1%nat) example_report) (search_start 1) st).
  { unfold search_start. cbn [seq map Nat.eqb].
    eapply rtc_l; [apply (step_job _ _ [] (FileTask 0) []), file_task|]. cbn [app].
    eapply rtc_l; [apply (step_job _ _ [] (SpawnTasks 0 0) []), spawn_task; lia|]. cbn [app].
    eapply rtc_l; [apply (step_job _ _ [] (SpawnTasks 0 1) [_]), (spawn_end (fun _ => 1%nat) example_report _ _ _ 0%nat)|]. cbn [app].
    eapply rtc_l; [apply (step_job _ _ [] (SearchTask (example_report 0 0)) []), search_callback|]. cbn [app].
    eapply rtc_l; [apply (step_job _ _ [] (SearchTask []) []), search_done|]. cbn.
    eapply rtc_l; [apply (step_job _ _ [] FinishTask []), finish|]. cbn [app]. apply rtc_refl. }
  exists st. split; [exact Hrun|].
  destruct (search_complete_with_best (fun _ => 1%nat) example_report (fun _ => le_n 1) 1 st eq_refl Hrun eq_refl) as [H1 H2].
  split; [exact (H2 eq_refl)|]. exact (proj1 (H1 (H2 eq_refl))).
Defined.
