(* ===== verification/Tabs.v ===== *)
(** The state of a row of tabs, [TabsState] of src/widgets.rs: which tab is
    selected, and what closing and reordering tabs does to it. *)
From Stdlib Require Import ZArith Lia.
From stdpp Require Import base list sets.
From S2P Require Import Prelude Pool.
Open Scope Z_scope.

(** ** Vectors: [v.remove(i)] and [v.insert(i, x)] with the index in range *)

Definition vec_remove {A} (l : list A) (i : Z) : list A := delete (Z.to_nat i) l.
Definition vec_insert {A} (l : list A) (i : Z) (x : A) : list A :=
  take (Z.to_nat i) l ++ x :: drop (Z.to_nat i) l.
(** [v.iter().position(|y| y == x)] *)
Fixpoint position {A} `{EqDecision A} (x : A) (l : list A) : option Z :=
  match l with
  | [] => None
  | y :: l => if decide (y = x) then Some 0 else (fun i => i + 1) <$> position x l
  end.

Section Vectors.
  Context {A : Type}.
  Implicit Types l k : list A.

Lemma vec_remove_app l x k : vec_remove (l ++ x :: k) (zlen l) = l ++ k.
Proof. unfold vec_remove, zlen. rewrite Nat2Z.id. by apply delete_middle. Qed.
Lemma vec_insert_app l x k : vec_insert (l ++ k) (zlen l) x = l ++ x :: k.
Proof. unfold vec_insert, zlen. by rewrite Nat2Z.id, take_app_length, drop_app_length. Qed.

(** Every index in range splits the vector. *)
Lemma vec_split l i : 0 <= i < zlen l -> exists l1 x l2, l = l1 ++ x :: l2 /\ zlen l1 = i.
Proof.
  intros Hi. destruct (lookup_lt_is_Some_2 l (Z.to_nat i)) as [x Hx]; [unfold zlen in Hi; lia|].
  exists (take (Z.to_nat i) l), x, (drop (S (Z.to_nat i)) l).
  split; [by rewrite take_drop_middle|]. unfold zlen in *. rewrite length_take. lia.
Qed.
Lemma vec_split_at l i : 0 <= i <= zlen l -> exists l1 l2, l = l1 ++ l2 /\ zlen l1 = i.
Proof.
  intros Hi. exists (take (Z.to_nat i) l), (drop (Z.to_nat i) l).
  split; [by rewrite take_drop|]. unfold zlen in *. rewrite length_take. lia.
Qed.

Lemma zlen_vec_remove l i : 0 <= i < zlen l -> zlen (vec_remove l i) = zlen l - 1.
Proof.
  intros (l1&x&l2&->&<-)%vec_split. rewrite vec_remove_app, !zlen_app, zlen_cons. lia.
Qed.
Lemma zlen_vec_insert l i x : 0 <= i <= zlen l -> zlen (vec_insert l i x) = zlen l + 1.
Proof.
  intros (l1&l2&->&<-)%vec_split_at. rewrite vec_insert_app, !zlen_app, zlen_cons. lia.
Qed.
Lemma vec_insert_perm l i x : vec_insert l i x ≡ₚ x :: l.
Proof. unfold vec_insert. rewrite <- Permutation_middle. by rewrite take_drop. Qed.
Lemma vec_remove_perm l i x : zget l i = Some x -> l ≡ₚ x :: vec_remove l i.
Proof. intros [_ Hx]%zget_Some. by apply delete_Permutation. Qed.

Lemma zget_vec_remove l i j :
  0 <= i < zlen l -> 0 <= j -> zget (vec_remove l i) j = zget l (if j <? i then j else j + 1).
Proof.
  intros (l1&x&l2&->&<-)%vec_split Hj. rewrite vec_remove_app, !zget_app.
  destruct (Z.ltb_spec j (zlen l1)) as [Hlt|Hge].
  - by rewrite (proj2 (Z.ltb_lt _ _)) by done.
  - rewrite (proj2 (Z.ltb_ge _ _)), zget_cons by lia.
    rewrite (proj2 (Z.eqb_neq _ _)), (proj2 (Z.ltb_ge _ 0)) by lia. f_equal. lia.
Qed.
Lemma zget_vec_insert l i x j :
  0 <= i <= zlen l -> 0 <= j ->
  zget (vec_insert l i x) j = if j <? i then zget l j else if j =? i then Some x else zget l (j - 1).
Proof.
  intros (l1&l2&->&<-)%vec_split_at Hj. rewrite vec_insert_app, !zget_app.
  destruct (Z.ltb_spec j (zlen l1)) as [Hlt|Hge]; [done|]. rewrite zget_cons.
  destruct (Z.eqb_spec j (zlen l1)) as [->|Hne]; [by rewrite Z.sub_diag|].
  rewrite (proj2 (Z.eqb_neq _ _)), (proj2 (Z.ltb_ge (j - zlen l1) 0)), (proj2 (Z.ltb_ge _ _)) by lia.
  f_equal. lia.
Qed.
End Vectors.

Lemma position_app {A} `{EqDecision A} (l k : list A) x :
  x ∉ l -> position x (l ++ x :: k) = Some (zlen l).
Proof.
  induction l as [|y l IH]; intros Hx; cbn [position app].
  - by rewrite decide_True by done.
  - rewrite decide_False by set_solver. rewrite IH by set_solver. simpl. rewrite zlen_cons. f_equal. lia.
Qed.
Lemma position_found {A} `{EqDecision A} (l : list A) x :
  x ∈ l -> exists l1 l2, l = l1 ++ x :: l2 /\ x ∉ l1 /\ position x l = Some (zlen l1).
Proof.
  intros (l1&l2&->&Hx)%list_elem_of_split_l. exists l1, l2.
  split; [done|]. split; [done|]. by apply position_app.
Qed.

(** ** [TabsState] *)

Record TabsState := mkTabsState { selected : Z; hscroll : Z; scroll_to_selected_tab : bool }.
Definition TabsState_default : TabsState := mkTabsState 0 0 false.

Inductive TabsAction :=
  | NoAction
  | Reorder (from_idx to_idx : Z)
  | DropWindow (window_id : Id) (to_idx : Z)
  | Close (idx : Z).

Definition select (st : TabsState) (tab_idx : Z) : TabsState := mkTabsState tab_idx (hscroll st) true.

Definition closed (st : TabsState) (tab_idx : Z) : TabsState :=
  mkTabsState (if tab_idx <? selected st then selected st - 1 else selected st) (hscroll st) true.

(** The action on the state and on the vector of tabs, and whether it did anything. *)
Definition apply_action {T} (st : TabsState) (action : TabsAction) (tabs : list T) :
    partial (bool * (TabsState * list T)) :=
  match action with
  | NoAction => Ret (false, (st, tabs))
  | Close idx =>
      if idx <? zlen tabs then Ret (true, (closed st idx, vec_remove tabs idx)) else Ret (false, (st, tabs))
  | Reorder from_idx to_idx =>
      let new_idx := if to_idx <=? from_idx then to_idx else to_idx - 1 in
      if negb (new_idx =? from_idx) && (from_idx <? zlen tabs) && (new_idx <? zlen tabs) then
        t ← lift_opt (zget tabs from_idx);
        let tabs := vec_insert (vec_remove tabs from_idx) new_idx t in
        let st :=
          if selected st =? from_idx then mkTabsState new_idx (hscroll st) true
          else
            let s := if from_idx <? selected st then selected st - 1 else selected st in
            let s := if new_idx <=? s then s + 1 else s in
            mkTabsState s (hscroll st) (scroll_to_selected_tab st) in
        Ret (true, (st, tabs))
      else Ret (false, (st, tabs))
  | DropWindow _ _ => Panic
  end.

(** ** What the actions keep *)

Section Properties.
  Context {T : Type}.
  Implicit Types tabs : list T.

Lemma close_runs st tabs idx :
  0 <= idx < zlen tabs ->
  apply_action st (Close idx) tabs = Ret (true, (closed st idx, vec_remove tabs idx)).
Proof. intros Hi. cbn [apply_action]. by rewrite (proj2 (Z.ltb_lt _ _)) by lia. Qed.

(** Whatever is selected, only the moved tab changes its place. *)
Lemma reorder_one st tabs l1 t l2 to :
  tabs = l1 ++ t :: l2 -> 0 <= to <= zlen tabs ->
  exists b st', apply_action st (Reorder (zlen l1) to) tabs =
    Ret (b, (st', vec_insert (l1 ++ l2) (if to <=? zlen l1 then to else to - 1) t)).
Proof.
  intros -> Hto. cbn [apply_action]. rewrite zget_app, Z.ltb_irrefl, Z.sub_diag. cbn [zget zlen].
  rewrite zget_cons. cbn [Z.eqb lift_opt mbind outcome_bind]. rewrite vec_remove_app.
  set (new := if to <=? zlen l1 then to else to - 1).
  rewrite zlen_app, zlen_cons in *. pose proof (zlen_nonneg l1). pose proof (zlen_nonneg l2).
  assert (Hnew : 0 <= new < zlen l1 + (zlen l2 + 1)) by (subst new; destruct (Z.leb_spec to (zlen l1)); lia).
  destruct (Z.eqb_spec new (zlen l1)) as [->|Hne]; cbn [negb andb].
  - rewrite vec_insert_app. by eexists _, _.
  - rewrite !(proj2 (Z.ltb_lt _ _)) by lia. by eexists _, _.
Qed.

Lemma reorder_moves st tabs from to st' tabs' b :
  0 <= from < zlen tabs -> 0 <= to <= zlen tabs -> 0 <= selected st < zlen tabs ->
  apply_action st (Reorder from to) tabs = Ret (b, (st', tabs')) ->
  tabs' ≡ₚ tabs /\ zget tabs' (selected st') = zget tabs (selected st) /\
  zget tabs' (if to <=? from then to else to - 1) = zget tabs from.
Proof.
  intros Hf Ht Hs. cbn [apply_action].
  set (new := if to <=? from then to else to - 1).
  assert (Hn : 0 <= new < zlen tabs) by (subst new; destruct (Z.leb_spec to from); lia).
  clearbody new. destruct (Z.eqb_spec new from) as [->|Hne]; simpl; [by intros [= <- <- <-]|].
  rewrite !(proj2 (Z.ltb_lt _ _)) by lia. simpl.
  destruct (proj2 (zget_range tabs from) Hf) as [t Hget]. rewrite Hget. simpl.
  assert (Hlen : 0 <= new <= zlen (vec_remove tabs from)) by (rewrite zlen_vec_remove; lia).
  assert (Hnew : zget (vec_insert (vec_remove tabs from) new t) new = Some t).
  { rewrite zget_vec_insert by lia. by rewrite Z.ltb_irrefl, Z.eqb_refl. }
  intros [= <- <- <-]. split; [|split; [|done]].
  - rewrite vec_insert_perm. symmetry. by apply vec_remove_perm.
  - destruct (Z.eqb_spec (selected st) from) as [->|Hse]; cbn [selected]; [by rewrite Hnew|].
    set (s := if from <? selected st then selected st - 1 else selected st).
    assert (Hs' : 0 <= s /\ zget (vec_remove tabs from) s = zget tabs (selected st)).
    { subst s. destruct (Z.ltb_spec from (selected st)); rewrite zget_vec_remove by lia;
        (split; [lia|]); f_equal.
      - rewrite (proj2 (Z.ltb_ge _ _)) by lia. lia.
      - by rewrite (proj2 (Z.ltb_lt _ _)) by lia. }
    clearbody s. destruct Hs' as [? <-].
    destruct (Z.leb_spec new s); rewrite zget_vec_insert by lia.
    + rewrite (proj2 (Z.ltb_ge _ _)), (proj2 (Z.eqb_neq _ _)) by lia. f_equal. lia.
    + by rewrite (proj2 (Z.ltb_lt _ _)) by lia.
Qed.

(** Tabs: moving a tab in front of another one permutes the tabs, puts the
    tab where it was dropped and keeps the same tab selected, wherever it went;
    closing a tab that is not selected keeps the selected tab selected too. *)
Theorem tab_actions_keep_selection st tabs from to :
  0 <= from < zlen tabs -> 0 <= to <= zlen tabs -> 0 <= selected st < zlen tabs ->
  (exists b st' tabs', apply_action st (Reorder from to) tabs = Ret (b, (st', tabs')) /\
     tabs' ≡ₚ tabs /\ zget tabs' (selected st') = zget tabs (selected st) /\
     zget tabs' (if to <=? from then to else to - 1) = zget tabs from) /\
  (exists st', apply_action st (Close from) tabs = Ret (true, (st', vec_remove tabs from)) /\
     (selected st <> from -> zget (vec_remove tabs from) (selected st') = zget tabs (selected st))).
Proof.
  intros Hf Ht Hs. split.
  - destruct (apply_action st (Reorder from to) tabs) as [[b [st' tabs']]|[]|] eqn:E.
    + exists b, st', tabs'. split; [done|]. by eapply reorder_moves.
    + exfalso. cbn [apply_action] in E. destruct (proj2 (zget_range tabs from) Hf) as [t Hget].
      rewrite Hget in E. simpl in E. by repeat case_match.
  - exists (closed st from). split; [by apply close_runs|]. intros Hne. unfold closed. cbn [selected].
    rewrite zget_vec_remove by (try done; case_match; zbool; lia).
    f_equal. repeat case_match; zbool; lia.
Qed.
End Properties.

Lemma tab_actions_keep_selection_witness :
  apply_action (mkTabsState 2 0 false) (Reorder 0 3) [10; 20; 30; 40] =
    Ret (true, (mkTabsState 1 0 false, [20; 30; 10; 40])) /\
  exists st', apply_action (mkTabsState 2 0 false) (Close 0) [10; 20; 30; 40] = Ret (true, (st', [20; 30; 40])) /\
    (2 <> 0 -> zget [20; 30; 40] (selected st') = Some 30).
Proof.
  split; [vm_compute; reflexivity|].
  exact (proj2 (tab_actions_keep_selection (mkTabsState 2 0 false) [10; 20; 30; 40] 0 3
    ltac:(vm_compute; split; congruence) ltac:(vm_compute; split; congruence) ltac:(vm_compute; split; congruence))).
Defined.
