(* ===== verification/Rect.v ===== *)
(** Rectangles of screen cells, [Rect] of src/common_ui.rs, and the arrays
    indexed by an axis. Coordinates are unbounded integers here: screens are
    far smaller than the range of [isize]. *)
From Stdlib Require Import ZArith Lia.
From stdpp Require Import base list.
From S2P Require Import Prelude.
Open Scope Z_scope.

(** [[T; 2]] indexed by an axis; [Axis::X] and [Axis::Y] are 0 and 1. *)
Definition AxisX : Z := 0.
Definition AxisY : Z := 1.
Definition at_axis {E A} (p : A * A) (axis : Z) : outcome E A :=
  if axis =? 0 then Ret p.1 else if axis =? 1 then Ret p.2 else Panic.
Definition set_axis {E A} (p : A * A) (axis : Z) (x : A) : outcome E (A * A) :=
  if axis =? 0 then Ret (x, p.2) else if axis =? 1 then Ret (p.1, x) else Panic.
Definition is_axis (axis : Z) : Prop := axis = 0 \/ axis = 1.

Record Rect := mkRect { pos : Z * Z; size : Z * Z }.
Definition Rect_default : Rect := mkRect (0, 0) (0, 0).
#[export] Instance Rect_eq_dec : EqDecision Rect.
Proof. solve_decision. Defined.

Definition width (r : Rect) : Z := (size r).1.
Definition height (r : Rect) : Z := (size r).2.
Definition right (r : Rect) : Z := (pos r).1 + (size r).1.
Definition bottom (r : Rect) : Z := (pos r).2 + (size r).2.
Definition rect_end {E} (r : Rect) (axis : Z) : outcome E Z :=
  p ← at_axis (pos r) axis; s ← at_axis (size r) axis; Ret (p + s).
(** [/] truncates; sizes are not negative. *)
Definition center (r : Rect) : Z * Z := ((pos r).1 + (size r).1 / 2, (pos r).2 + (size r).2 / 2).

(** One axis of the intersection: the position and the size. *)
Definition intersect_axis (p s p' s' : Z) : Z * Z :=
  let q := Z.max p p' in (q, Z.max (Z.min (p + s) (p' + s') - q) 0).
Definition intersection (r r' : Rect) : Rect :=
  let x := intersect_axis (pos r).1 (size r).1 (pos r').1 (size r').1 in
  let y := intersect_axis (pos r).2 (size r).2 (pos r').2 (size r').2 in
  mkRect (x.1, y.1) (x.2, y.2).

Definition rect_is_empty (r : Rect) : bool := ((size r).1 =? 0) || ((size r).2 =? 0).
Definition contains (r : Rect) (p : Z * Z) : bool :=
  ((pos r).1 <=? p.1) && (p.1 <? right r) && ((pos r).2 <=? p.2) && (p.2 <? bottom r).

(** One axis of [inflate]. *)
Definition inflate_axis (p s delta : Z) : Z * Z :=
  let new_size := s + delta * 2 in
  if new_size <? 0 then (p + s / 2, 0) else (p - delta, new_size).
Definition inflate (r : Rect) (delta : Z) : Rect :=
  let x := inflate_axis (pos r).1 (size r).1 delta in
  let y := inflate_axis (pos r).2 (size r).2 delta in
  mkRect (x.1, y.1) (x.2, y.2).

(** The cells of a rectangle. *)
Definition rect_ok (r : Rect) : Prop := 0 <= width r /\ 0 <= height r.

Lemma contains_spec r p :
  contains r p = true <-> (pos r).1 <= p.1 < right r /\ (pos r).2 <= p.2 < bottom r.
Proof. unfold contains. rewrite !andb_true_iff. rewrite !Z.leb_le, !Z.ltb_lt. lia. Qed.

Lemma contains_intersection r r' p :
  contains (intersection r r') p = contains r p && contains r' p.
Proof.
  apply eq_true_iff_eq. rewrite andb_true_iff, !contains_spec.
  unfold intersection, intersect_axis, right, bottom. cbn [pos size fst snd]. lia.
Qed.

Lemma contains_not_empty r p : contains r p = true -> rect_is_empty r = false.
Proof.
  rewrite contains_spec. unfold rect_is_empty, right, bottom. intros H.
  rewrite orb_false_iff, !Z.eqb_neq. lia.
Qed.

Lemma at_axis_ok {E A} (p : A * A) axis : is_axis axis -> exists x, @at_axis E A p axis = Ret x.
Proof. intros [->| ->]; by eexists. Qed.
