(* ===== verification/Layout.v ===== *)
(** Windows and regions of the user interface: [Layout] of src/layout.rs.
    Regions form a tree: splits along an axis, and leaves that hold windows as
    tabs. Widgets (handles of the rendered frame) are left out; the areas that
    a frame assigns are kept. *)
From Stdlib Require Import ZArith Lia String.
From stdpp Require Import base list gmap.
From S2P Require Import Prelude Pool Floats Errors Serial StateMonad Tabs Rect.
Open Scope Z_scope.

(** ** Window types (src/ui.rs) *)

Inductive WindowType :=
  | Binaries | Breakpoints | Threads | Stack | CodeWin | Disassembly | Locations | Watches
  | Terminal | Hints | Status.
#[export] Instance WindowType_eq_dec : EqDecision WindowType.
Proof. solve_decision. Defined.

Definition window_types : list WindowType :=
  [Binaries; Breakpoints; Threads; Stack; CodeWin; Disassembly; Locations; Watches; Terminal; Hints; Status].

Definition window_title (t : WindowType) : string :=
  match t with
  | Binaries => "binaries" | Breakpoints => "breakpoints" | Threads => "threads" | Stack => "stack"
  | CodeWin => "code" | Disassembly => "disassembly" | Locations => "locations" | Watches => "watches"
  | Hints => "controls" | Terminal => "console" | Status => "status"
  end.

Definition window_serialize (t : WindowType) : Z :=
  match t with
  | Binaries => 0 | Breakpoints => 1 | Threads => 2 | Stack => 3 | CodeWin => 4 | Disassembly => 5
  | Locations => 6 | Watches => 7 | Terminal => 8 | Hints => 9 | Status => 10
  end.

(** [mem::transmute]: the type with that number. *)
Definition window_deserialize (x : Z) : result WindowType :=
  if x <=? window_serialize Status then lift_opt (zget window_types x) else Fail (Code Environment).

Record RequiredWindowInfo := mkRequired {
  info_type : WindowType;
  info_hotkey_number : option Z;
  info_fixed_height : option Z
}.

Definition REQUIRED_WINDOWS : list RequiredWindowInfo :=
  [mkRequired Hints None None; mkRequired Status None (Some 8); mkRequired Watches (Some 1) None;
   mkRequired Locations None None; mkRequired Disassembly (Some 2) None; mkRequired CodeWin (Some 3) None;
   mkRequired Binaries None None; mkRequired Breakpoints (Some 4) None; mkRequired Stack (Some 5) None;
   mkRequired Terminal (Some 0) None; mkRequired Threads (Some 6) None].

(** What [Layout] uses of the trait [WindowContent]: making one, writing its
    state, and reading it back into a new one. *)
Class WindowContent := {
  content_t : Type;
  create_window : WindowType -> content_t;
  content_save : content_t -> result (list Z);
  content_load : content_t -> reader content_t
}.

(** ** Regions *)

Record RegionSplit := mkSplit { s_axis : Z; s_children : list Id }.
Record RegionLeaf := mkLeaf { tabs : list Id; tabs_state : TabsState }.
Definition RegionLeaf_default : RegionLeaf := mkLeaf [] TabsState_default.

Inductive RegionContent :=
  | Split (s : RegionSplit)
  | Leaf (l : RegionLeaf).

Definition is_leaf (c : RegionContent) : bool := match c with Leaf _ => true | _ => false end.
Definition is_split (c : RegionContent) : bool := match c with Split _ => true | _ => false end.
Definition as_split (c : RegionContent) : option RegionSplit := match c with Split x => Some x | Leaf _ => None end.
Definition as_leaf (c : RegionContent) : option RegionLeaf := match c with Leaf x => Some x | Split _ => None end.

Record Region := mkRegion {
  r_parent : option Id;
  r_content : RegionContent;
  relative_size : Z;
  r_area : Rect
}.
Definition Region_default : Region := mkRegion None (Leaf RegionLeaf_default) 1000000 Rect_default.

Definition set_parent (p : option Id) (r : Region) : Region := mkRegion p (r_content r) (relative_size r) (r_area r).
Definition set_content (c : RegionContent) (r : Region) : Region := mkRegion (r_parent r) c (relative_size r) (r_area r).
Definition set_relative_size (s : Z) (r : Region) : Region := mkRegion (r_parent r) (r_content r) s (r_area r).
Definition set_area (a : Rect) (r : Region) : Region := mkRegion (r_parent r) (r_content r) (relative_size r) a.

Inductive WindowRelocation :=
  | AddTab (tab_idx : Z)
  | AddToExistingSplit (wall_idx : Z)
  | SplitLeaf (axis side : Z).

Section Layout.
Context `{!WindowContent}.

Record Window := mkWindow {
  type_ : WindowType;
  w_region : option Id;
  required : bool;
  title : string;
  w_content : content_t;
  hotkey_number : option Z;
  fixed_size : option Z * option Z
}.

Definition set_region (r : option Id) (w : Window) : Window :=
  mkWindow (type_ w) r (required w) (title w) (w_content w) (hotkey_number w) (fixed_size w).
Definition set_w_content (c : content_t) (w : Window) : Window :=
  mkWindow (type_ w) (w_region w) (required w) (title w) c (hotkey_number w) (fixed_size w).
Definition set_w_hotkey (n : option Z) (w : Window) : Window :=
  mkWindow (type_ w) (w_region w) (required w) (title w) (w_content w) n (fixed_size w).
Definition set_w_fixed_size (s : option Z * option Z) (w : Window) : Window :=
  mkWindow (type_ w) (w_region w) (required w) (title w) (w_content w) (hotkey_number w) s.

Record Layout := mkLayout {
  windows : Pool Window;
  active_window : option Id;
  regions : Pool Region;
  root : Id;
  active_leaf : Id
}.
Definition set_windows (p : Pool Window) (st : Layout) : Layout :=
  mkLayout p (active_window st) (regions st) (root st) (active_leaf st).
Definition set_active_window (w : option Id) (st : Layout) : Layout :=
  mkLayout (windows st) w (regions st) (root st) (active_leaf st).
Definition set_regions (p : Pool Region) (st : Layout) : Layout :=
  mkLayout (windows st) (active_window st) p (root st) (active_leaf st).
Definition set_root (r : Id) (st : Layout) : Layout :=
  mkLayout (windows st) (active_window st) (regions st) r (active_leaf st).
Definition set_active_leaf (r : Id) (st : Layout) : Layout :=
  mkLayout (windows st) (active_window st) (regions st) (root st) r.

(** Methods on [&mut self]; most cannot fail, only panic. *)
Definition lay : Type -> Type := stm Layout Error.

(** [self.regions.get(id)], [.get_mut(id)] with an assignment, [.add(r).0], [.remove(id)]. *)
Definition region_get (id : Id) : lay Region := p ← sget regions; slift (widen (Pool.get p id)).
Definition region_mut (id : Id) (f : Region -> Region) : lay unit :=
  p ← sget regions; p ← slift (widen (Pool.get_mut p id f)); smodify (set_regions p).
Definition region_add (r : Region) : lay Id :=
  p ← sget regions; '(id, p) ← slift (widen (Pool.add p r)); _ ← smodify (set_regions p); mret id.
Definition region_remove (id : Id) : lay (option Region) :=
  p ← sget regions; let '(r, p) := Pool.remove p id in _ ← smodify (set_regions p); mret r.
Definition window_get (id : Id) : lay Window := p ← sget windows; slift (widen (Pool.get p id)).
Definition window_mut (id : Id) (f : Window -> Window) : lay unit :=
  p ← sget windows; p ← slift (widen (Pool.get_mut p id f)); smodify (set_windows p).
Definition window_add (w : Window) : lay Id :=
  p ← sget windows; '(id, p) ← slift (widen (Pool.add p w)); _ ← smodify (set_windows p); mret id.

(** [self.regions.get_mut(id).content.as_leaf_mut()] with an assignment, and the same for splits. *)
Definition leaf_get (id : Id) : lay RegionLeaf := r ← region_get id; sopt (as_leaf (r_content r)).
Definition leaf_set (id : Id) (l : RegionLeaf) : lay unit := region_mut id (set_content (Leaf l)).
Definition split_get (id : Id) : lay RegionSplit := r ← region_get id; sopt (as_split (r_content r)).
Definition split_set (id : Id) (s : RegionSplit) : lay unit := region_mut id (set_content (Split s)).

(** [a / b] on [usize]. *)
Definition udiv (a b : Z) : result Z := if b =? 0 then Panic else Ret (a / b).

Definition layout_new : partial Layout :=
  '(root, regions) ← Pool.add Pool.new Region_default;
  Ret (mkLayout Pool.new None regions root Id_default).
End Layout.
Arguments Window {_}.
Arguments Layout {_}.

Section Operations.
Context `{!WindowContent}.

(** ** Tree surgery *)

(** The merge of a split into its parent: [children] with rescaled sizes take its
    place, which is [idx]. *)
Definition splice (region_id parent_id : Id) (axis size : Z) (children : list Id) (idx : Z) : lay unit :=
  _ ← split_set region_id (mkSplit axis []);
  total_size ← sfold children 0 (fun total_size child_id =>
    child ← region_get child_id;
    _ ← region_mut child_id (set_parent (Some parent_id));
    slift (uadd total_size (relative_size child)));
  _ ← sfor children (fun child_id =>
    child ← region_get child_id;
    x ← slift (umul (relative_size child) size);
    q ← slift (udiv x total_size);
    region_mut child_id (set_relative_size (Z.max q 1)));
  parent_split ← split_get parent_id;
  let cs := s_children parent_split in
  _ ← split_set parent_id (mkSplit (s_axis parent_split)
        (take (Z.to_nat idx) cs ++ children ++ drop (Z.to_nat (idx + 1)) cs));
  _ ← region_remove region_id;
  mret tt.

(** One iteration of [simplify_splits]: the region to go on with, or [None] to stop. *)
Definition simplify_step (region_id : Id) : lay (option Id) :=
  region ← region_get region_id;
  match r_content region with
  | Leaf _ => mret None
  | Split split =>
      match r_parent region with
      | Some parent_id =>
          parent ← region_get parent_id;
          parent_split ← sopt (as_split (r_content parent));
          if negb (s_axis parent_split =? s_axis split) && (1 <? zlen (s_children split)) then mret None
          else
            idx ← sopt (position region_id (s_children parent_split));
            let children := s_children split in
            _ ← splice region_id parent_id (s_axis split) (relative_size region) children idx;
            mret (match children with
                  | [] => Some parent_id
                  | [child] => Some child
                  | _ => None
                  end)
      | None =>
          root ← sget root;
          _ ← sassert (bool_decide (region_id = root));
          match s_children split with
          | [] => spanic
          | [child] =>
              _ ← smodify (set_root child);
              _ ← region_mut child (set_parent None);
              removed ← region_remove region_id;
              _ ← sopt removed;
              mret None
          | _ => mret None
          end
      end
  end.

(** The loop; [fuel] bounds the iterations, each of which but the last removes a region. *)
Fixpoint simplify_loop (fuel : nat) (region_id : Id) : lay unit :=
  match fuel with
  | O => spanic
  | S fuel =>
      next ← simplify_step region_id;
      match next with None => mret tt | Some region_id => simplify_loop fuel region_id end
  end.
Definition simplify_splits (region_id : Id) : lay unit :=
  p ← sget regions; simplify_loop (S (length (slots p))) region_id.

(** [x >= y], [x <= y] on [f64]. *)
Definition f64_ge (x y : f64) : bool := match f64_compare x y with Some Gt | Some Eq => true | _ => false end.
Definition f64_le (x y : f64) : bool := match f64_compare x y with Some Lt | Some Eq => true | _ => false end.
Definition f64_zero : f64 := f64_of_int 0.
Definition f64_one : f64 := f64_of_int 1.
Definition f64_half : f64 := f64_div (f64_of_int 1) (f64_of_int 2).

(** The assertions of [split] on the wall before wall [i] and on wall [i]. *)
Definition check_wall (walls : list f64) (i : Z) : lay unit :=
  w ← sopt (zget walls i);
  w' ← sopt (zget walls (i - 1));
  _ ← sassert (f64_ge w w');
  _ ← sassert (f64_le w f64_one);
  sassert (f64_ge w' f64_zero).

(** The relative size of the [i]-th child between walls. *)
Definition split_child_size (walls : list f64) (i : Z) : lay Z :=
  start ← (if i =? 0 then mret f64_zero else sopt (zget walls (i - 1)));
  end_ ← (if i <? zlen walls then sopt (zget walls i) else mret f64_one);
  mret (Z.max (f64_to_int 0 U64_MAX (f64_mul (f64_sub end_ start) (f64_of_int 1000000))) 1).

(** [parent_split.children[i] = new_region_id] for the child [region_id], or a new root. *)
Definition replace_child (parent : option Id) (region_id new_region_id : Id) : lay unit :=
  match parent with
  | None => smodify (set_root new_region_id)
  | Some parent_id =>
      parent_split ← split_get parent_id;
      i ← sopt (position region_id (s_children parent_split));
      split_set parent_id (mkSplit (s_axis parent_split) (zset (s_children parent_split) i new_region_id))
  end.

(** The [i]-th child of a new split: the existing region or a new leaf. *)
Definition split_body (walls : list f64) (existing_idx : Z) (region_id new_region_id : Id) (children : list Id) (i : Z) : lay (list Id) :=
  relative_size ← split_child_size walls i;
  if i =? existing_idx then
    _ ← region_mut region_id (set_relative_size relative_size);
    mret (children ++ [region_id])
  else
    id ← region_add (mkRegion (Some new_region_id) (r_content Region_default) relative_size Rect_default);
    mret (children ++ [id]).

Definition split (region_id : Id) (axis : Z) (walls : list f64) (existing_idx : Z) : lay (list Id) :=
  _ ← sfor (seqZ 1 (zlen walls - 1)) (check_wall walls);
  region ← region_get region_id;
  _ ← sassert (match r_content region with Split split => negb (s_axis split =? axis) | Leaf _ => true end);
  let parent := r_parent region in
  _ ← region_mut region_id (set_parent None);
  new_region_id ← region_add (mkRegion parent (Split (mkSplit axis [])) (relative_size region) Rect_default);
  children ← sfold (seqZ 0 (zlen walls + 1)) [] (split_body walls existing_idx region_id new_region_id);
  new_split ← split_get new_region_id;
  _ ← split_set new_region_id (mkSplit (s_axis new_split) children);
  _ ← region_mut region_id (set_parent (Some new_region_id));
  _ ← replace_child parent region_id new_region_id;
  _ ← simplify_splits new_region_id;
  mret children.

(** The renormalization loop of [remove_leaf]: the running total so far. *)
Definition renormalize (total : Z) (so_far : Z) (id : Id) : lay Z :=
  child ← region_get id;
  new_so_far ← slift (uadd so_far (relative_size child));
  a ← slift (umul new_so_far 1000000);
  a ← slift (udiv a total);
  b ← slift (umul so_far 1000000);
  b ← slift (udiv b total);
  d ← slift (usub a b);
  _ ← region_mut id (set_relative_size (Z.max d 1));
  mret new_so_far.

Definition remove_leaf (region_id : Id) : lay unit :=
  region ← region_get region_id;
  leaf ← sopt (as_leaf (r_content region));
  _ ← sfor (tabs leaf) (fun window_id => window_mut window_id (set_region None));
  parent_id ← sopt (r_parent region);
  parent_split ← split_get parent_id;
  idx ← sopt (position region_id (s_children parent_split));
  let children := vec_remove (s_children parent_split) idx in
  _ ← split_set parent_id (mkSplit (s_axis parent_split) children);
  _ ← region_remove region_id;
  total ← sfold children 0 (fun total id => r ← region_get id; slift (uadd total (relative_size r)));
  _ ← sassert (0 <? total);
  _ ← sfold children 0 (renormalize total);
  simplify_splits parent_id.

(** ** Windows *)

Definition set_fixed_size (window_id : Id) (axis size : Z) : lay unit :=
  w ← window_get window_id;
  s ← slift (set_axis (fixed_size w) axis (Some size));
  window_mut window_id (set_w_fixed_size s).

Definition set_hotkey_number (window_id : Id) (number : Z) : lay unit :=
  window_mut window_id (set_w_hotkey (Some number)).

Definition attach_window (leaf_id win_id : Id) : lay unit :=
  w ← window_get win_id;
  _ ← sassert (bool_decide (w_region w = None));
  l ← leaf_get leaf_id;
  _ ← leaf_set leaf_id (mkLeaf (tabs l ++ [win_id]) (tabs_state l));
  window_mut win_id (set_region (Some leaf_id)).

(** The window that [new_window] makes: the fields that
    [REQUIRED_WINDOWS] gives for its type. *)
Definition make_window (parent : option Id) (t : WindowType) : Window :=
  match List.find (fun info => bool_decide (info_type info = t)) REQUIRED_WINDOWS with
  | Some info => mkWindow t parent true (window_title t) (create_window t) (info_hotkey_number info) (None, info_fixed_height info)
  | None => mkWindow t parent false (window_title t) (create_window t) None (None, None)
  end.

Definition new_window (parent : option Id) (t : WindowType) : lay Id :=
  win_id ← window_add (make_window parent t);
  _ ← match parent with
      | Some id => l ← leaf_get id; leaf_set id (mkLeaf (tabs l ++ [win_id]) (tabs_state l))
      | None => mret tt
      end;
  mret win_id.

Definition any_window_by_type (t : WindowType) : lay (option Id) :=
  p ← sget windows;
  ws ← slift (widen (Pool.iter p));
  mret (fst <$> List.find (fun w => bool_decide (type_ w.2 = t)) ws).

Definition leaf_at_point (p : Z * Z) : lay (option Id) :=
  pool ← sget regions;
  rs ← slift (widen (Pool.iter pool));
  mret (fst <$> List.find (fun r => is_leaf (r_content r.2) && contains (r_area r.2) p) rs).

Definition switch_to_adjacent_leaf (axis side : Z) : lay unit :=
  active ← sget active_leaf;
  region ← region_get active;
  let area := r_area region in
  start ← slift (at_axis (pos area) axis);
  end_ ← slift (rect_end area axis);
  p ← slift (set_axis (center area) axis (if side =? 0 then start - 2 else end_ + 1));
  id ← leaf_at_point p;
  match id with
  | Some id => smodify (set_active_leaf id)
  | None =>
      c ← slift (at_axis p (1 - axis));
      p ← slift (set_axis p (1 - axis) (c + 1));
      id ← leaf_at_point p;
      match id with Some id => smodify (set_active_leaf id) | None => mret tt end
  end.

(** ** Moving windows *)

(** Taking the window out of its leaf: [None] when the window only changed its
    place among the tabs of its leaf, else the regions to simplify. *)
Definition detach (window_id region_id : Id) (relocation : WindowRelocation) : lay (option (list Id)) :=
  w ← window_get window_id;
  match w_region w with
  | None => mret (Some [])
  | Some from_region_id =>
      from_leaf ← leaf_get from_region_id;
      from_idx ← sopt (position window_id (tabs from_leaf));
      match (if decide (from_region_id = region_id) then
               match relocation with AddTab to_idx => Some to_idx | _ => None end else None) with
      | Some to_idx =>
          let to_idx := Z.min to_idx (zlen (tabs from_leaf)) in
          '(_, (ts, tabs)) ← slift (widen (apply_action (tabs_state from_leaf) (Reorder from_idx to_idx) (tabs from_leaf)));
          _ ← leaf_set from_region_id (mkLeaf tabs ts);
          mret None
      | None =>
          '(_, (ts, tabs)) ← slift (widen (apply_action (tabs_state from_leaf) (Close from_idx) (tabs from_leaf)));
          _ ← leaf_set from_region_id (mkLeaf tabs ts);
          mret (Some [from_region_id])
      end
  end.

(** Putting it in its new place: the region to simplify, if any. *)
Definition attach (window_id region_id : Id) (relocation : WindowRelocation) : lay (list Id) :=
  region ← region_get region_id;
  match relocation with
  | AddTab tab_idx =>
      to_leaf ← sopt (as_leaf (r_content region));
      let tab_idx := Z.min tab_idx (zlen (tabs to_leaf)) in
      _ ← leaf_set region_id (mkLeaf (vec_insert (tabs to_leaf) tab_idx window_id) (select (tabs_state to_leaf) tab_idx));
      _ ← window_mut window_id (set_region (Some region_id));
      mret []
  | AddToExistingSplit wall_idx =>
      split ← sopt (as_split (r_content region));
      i ← slift (usub wall_idx 1);
      prev ← sopt (zget (s_children split) i);
      next ← sopt (zget (s_children split) wall_idx);
      prev_region ← region_get prev;
      next_region ← region_get next;
      total ← slift (uadd (relative_size prev_region) (relative_size next_region));
      let new_size := total / 3 in
      let prev_new_size := (total - new_size) / 2 in
      new_region_id ← region_add (mkRegion (Some region_id) (Leaf (mkLeaf [window_id] TabsState_default)) (Z.max new_size 1) Rect_default);
      _ ← region_mut prev (set_relative_size (Z.max prev_new_size 1));
      _ ← region_mut next (set_relative_size (Z.max (total - new_size - prev_new_size) 1));
      split ← split_get region_id;
      _ ← sassert (wall_idx <=? zlen (s_children split));
      _ ← split_set region_id (mkSplit (s_axis split) (vec_insert (s_children split) wall_idx new_region_id));
      _ ← window_mut window_id (set_region (Some new_region_id));
      mret [new_region_id]
  | SplitLeaf axis side =>
      existing ← slift (usub 1 side);
      children ← split region_id axis [f64_half] existing;
      _ ← sassert (zlen children =? 2);
      new_leaf_id ← sopt (zget children side);
      new_leaf ← leaf_get new_leaf_id;
      _ ← sassert (bool_decide (tabs new_leaf = []));
      _ ← leaf_set new_leaf_id (mkLeaf (tabs new_leaf ++ [window_id]) (tabs_state new_leaf));
      _ ← window_mut window_id (set_region (Some new_leaf_id));
      mret [new_leaf_id]
  end.

(** A region to simplify after a move: an empty leaf goes. *)
Definition simplify_after (id : Id) : lay unit :=
  p ← sget regions;
  match Pool.try_get p id with
  | None => mret tt
  | Some region =>
      match r_content region with
      | Leaf (mkLeaf [] _) => remove_leaf id
      | _ => simplify_splits id
      end
  end.

Definition relocate_window (window_id region_id : Id) (relocation : WindowRelocation) : lay unit :=
  to_simplify ← detach window_id region_id relocation;
  match to_simplify with
  | None => mret tt
  | Some to_simplify =>
      more ← attach window_id region_id relocation;
      sfor (to_simplify ++ more) simplify_after
  end.

(** Moves that would put the window back where it is. *)
Definition is_window_relocation_pointess (window_id region_id : Id) (relocation : WindowRelocation) : lay bool :=
  w ← window_get window_id;
  match w_region w with
  | None => mret false
  | Some from_region_id =>
      from_region ← region_get from_region_id;
      l ← sopt (as_leaf (r_content from_region));
      if 1 <? zlen (tabs l) then mret false
      else if decide (from_region_id = region_id) then mret true
      else
        match r_parent from_region with
        | None => mret false
        | Some parent_id =>
            parent_split ← split_get parent_id;
            idx ← sopt (position from_region_id (s_children parent_split));
            match relocation with
            | AddToExistingSplit wall_idx =>
                mret (bool_decide (region_id = parent_id) && ((wall_idx =? idx) || (wall_idx =? idx + 1)))
            | SplitLeaf axis side =>
                mret ((axis =? s_axis parent_split) &&
                      let neighbor_idx := idx + (if side =? 0 then 1 else -1) in
                      bool_decide (zget (s_children parent_split) (neighbor_idx mod 2 ^ 64) = Some region_id))
            | AddTab _ => mret false
            end
        end
  end.

(** ** Saving and loading *)

(** What [save_state] writes for the windows of a leaf. *)
Fixpoint save_tabs (ws : list Id) : lay (list Z) :=
  match ws with
  | [] => mret []
  | window_id :: ws =>
      window ← window_get window_id;
      active ← sget active_window;
      c ← slift (content_save (w_content window));
      rest ← save_tabs ws;
      mret (write_u8 (window_serialize (type_ window)) ++ write_bool (bool_decide (Some window_id = active)) ++ c ++ rest)
  end.

(** The loop over the stack of regions, its top first. *)
Fixpoint save_loop (fuel : nat) (stack : list Id) : lay (list Z) :=
  match stack with
  | [] => mret []
  | region_id :: stack =>
      match fuel with
      | O => spanic
      | S fuel =>
          region ← region_get region_id;
          let head := write_usize (relative_size region) ++ write_bool (is_split (r_content region)) in
          match r_content region with
          | Split split =>
              rest ← save_loop fuel (s_children split ++ stack);
              mret (head ++ write_bool (negb (s_axis split =? 0)) ++ write_usize (zlen (s_children split)) ++ rest)
          | Leaf leaf =>
              ws ← save_tabs (tabs leaf);
              rest ← save_loop fuel stack;
              mret (head ++ write_usize (zlen (tabs leaf)) ++ write_usize (selected (tabs_state leaf)) ++ ws ++ rest)
          end
      end
  end.
(** The bytes appended to [out]; every region is visited once. *)
Definition save_state : lay (list Z) :=
  p ← sget regions; root ← sget root; save_loop (S (length (slots p))) [root].

(** A method that also reads from [inp: &mut &[u8]]: the input left is part of the result. *)
Definition read {A} (r : reader A) (inp : list Z) : lay (A * list Z) := slift (r inp).

Fixpoint load_tabs (n : nat) (region_id : Id) (inp : list Z) : lay (list Id * list Z) :=
  match n with
  | O => mret ([], inp)
  | S n =>
      '(x, inp) ← read read_u8 inp;
      t ← slift (window_deserialize x);
      window_id ← new_window None t;
      '(active, inp) ← read read_bool inp;
      _ ← swhen active (smodify (set_active_window (Some window_id)));
      _ ← window_mut window_id (set_region (Some region_id));
      w ← window_get window_id;
      '(c, inp) ← read (content_load (w_content w)) inp;
      _ ← window_mut window_id (set_w_content c);
      '(rest, inp) ← load_tabs n region_id inp;
      mret (window_id :: rest, inp)
  end.

(** One saved region: its content and the regions to read next. *)
Definition load_region (region_id : Id) (inp : list Z) : lay (list Id * list Z) :=
  '(relative_size, inp) ← read read_usize inp;
  '(split, inp) ← read read_bool inp;
  '(content, children, inp) ←
    (if split : bool then
       '(axis, inp) ← read read_bool inp;
       '(num_children, inp) ← read read_usize inp;
       if 10000 <? num_children then sfail (Code Sanity)
       else if num_children =? 0 then sfail (Code Sanity)
       else
         children ← sfold (seqZ 0 num_children) [] (fun children _ =>
           id ← region_add (set_parent (Some region_id) Region_default); mret (children ++ [id]));
         mret (Split (mkSplit (if axis : bool then 1 else 0) children), children, inp)
     else
       '(num_tabs, inp) ← read read_usize inp;
       '(sel, inp) ← read read_usize inp;
       '(tabs, inp) ← load_tabs (Z.to_nat num_tabs) region_id inp;
       mret (Leaf (mkLeaf tabs (select TabsState_default sel)), [], inp));
  _ ← region_mut region_id (fun r => set_relative_size relative_size (set_content content r));
  mret (children, inp).

(** [fuel] is at least the number of regions in the input, each of which takes nine bytes or more. *)
Fixpoint load_loop (fuel : nat) (stack : list Id) (inp : list Z) : lay (list Z) :=
  match stack with
  | [] => mret inp
  | region_id :: stack =>
      match fuel with
      | O => spanic
      | S fuel =>
          '(children, inp) ← load_region region_id inp;
          load_loop fuel (children ++ stack) inp
      end
  end.
(** The input left. On errors the layout is left as it is. *)
Definition load_state (inp : list Z) : lay (list Z) :=
  root ← sget root; load_loop (S (length inp)) [root] inp.
End Operations.
