(* ===== verification/LayoutTree.v ===== *)
(** The regions of a layout as a tree: what the pool of regions holds for a
    tree, contexts that focus on a node, the order of the leaves, the
    arrangement of the leaves when splits are merged, and what the operations on
    single regions do. *)
From Stdlib Require Import ZArith Lia.
From stdpp Require Import base list gmap sets.
From S2P Require Import Prelude Pool PoolOwned Errors StateMonad Tabs Rect Layout.
Open Scope Z_scope.

(** ** Trees *)

Record info := mkInfo { i_size : Z; i_area : Rect }.

Inductive tree :=
  | TLeaf (id : Id) (i : info) (l : RegionLeaf)
  | TSplit (id : Id) (i : info) (axis : Z) (ts : list tree).

Section TreeInd.
Variable P : tree -> Prop.
Hypothesis Hleaf : forall id i l, P (TLeaf id i l).
Hypothesis Hsplit : forall id i axis ts, Forall P ts -> P (TSplit id i axis ts).

Fixpoint tree_forest_ind (t : tree) : P t :=
  match t with
  | TLeaf id i l => Hleaf id i l
  | TSplit id i axis ts =>
      Hsplit id i axis ts
        ((fix forest (ts : list tree) : Forall P ts :=
            match ts with
            | [] => List.Forall_nil P
            | t :: ts => @List.Forall_cons _ P t ts (tree_forest_ind t) (forest ts)
            end) ts)
  end.
End TreeInd.

Definition tid (t : tree) : Id := match t with TLeaf id _ _ | TSplit id _ _ _ => id end.
Definition tinfo (t : tree) : info := match t with TLeaf _ i _ | TSplit _ i _ _ => i end.
Definition kids (t : tree) : list tree := match t with TLeaf _ _ _ => [] | TSplit _ _ _ ts => ts end.
Definition top_axis (t : tree) : option Z := match t with TLeaf _ _ _ => None | TSplit _ _ axis _ => Some axis end.

(** The region of a node. *)
Definition head_region (p : option Id) (t : tree) : Region :=
  match t with
  | TLeaf _ i l => mkRegion p (Leaf l) (i_size i) (i_area i)
  | TSplit _ i axis ts => mkRegion p (Split (mkSplit axis (tid <$> ts))) (i_size i) (i_area i)
  end.
(** The regions of a tree whose root has the parent [p]. *)
Fixpoint entries (p : option Id) (t : tree) : list (Id * Region) :=
  (tid t, head_region p t) ::
  match t with TLeaf _ _ _ => [] | TSplit id _ _ ts => concat (entries (Some id) <$> ts) end.
Definition ents (p : option Id) (ts : list tree) : list (Id * Region) := concat (entries p <$> ts).
Definition below (t : tree) : list (Id * Region) := ents (Some (tid t)) (kids t).

(** The leaves from left to right (or top to bottom). *)
Fixpoint leaves (t : tree) : list (Id * RegionLeaf) :=
  match t with
  | TLeaf id _ l => [(id, l)]
  | TSplit _ _ _ ts => concat (leaves <$> ts)
  end.
Definition leaves_of (ts : list tree) : list (Id * RegionLeaf) := concat (leaves <$> ts).

Definition set_tree_size (s : Z) (t : tree) : tree :=
  match t with
  | TLeaf id i l => TLeaf id (mkInfo s (i_area i)) l
  | TSplit id i axis ts => TSplit id (mkInfo s (i_area i)) axis ts
  end.

(** Every split has two children or more, none of them split along the same axis. *)
Inductive normal : tree -> Prop :=
  | normal_leaf id i l : normal (TLeaf id i l)
  | normal_split id i axis ts :
      2 <= zlen ts -> Forall normal ts -> Forall (fun t => top_axis t <> Some axis) ts ->
      normal (TSplit id i axis ts).

(** The same below the root, whose own number of children is only not zero. *)
Definition nearly_normal (t : tree) : Prop :=
  match t with
  | TLeaf _ _ _ => True
  | TSplit _ _ axis ts => ts <> [] /\ Forall normal ts /\ Forall (fun t => top_axis t <> Some axis) ts
  end.

Lemma normal_nearly t : normal t -> nearly_normal t.
Proof. destruct 1 as [|???? Hl]; [done|]. split; [by intros ->|done]. Qed.

(** ** Contexts: the frames around a node, the innermost first *)

Record frame := mkFrame {
  f_id : Id; f_info : info; f_axis : Z; f_left : list tree; f_right : list tree
}.
Definition plug1 (f : frame) (ts : list tree) : tree :=
  TSplit (f_id f) (f_info f) (f_axis f) (f_left f ++ ts ++ f_right f).
Fixpoint plug (C : list frame) (t : tree) : tree :=
  match C with [] => t | f :: C => plug C (plug1 f [t]) end.
Definition cparent (C : list frame) : option Id := f_id <$> head C.

(** The regions outside the hole, which holds nodes with the identifiers [hole]. *)
Fixpoint around (C : list frame) (hole : list Id) : list (Id * Region) :=
  match C with
  | [] => []
  | f :: C =>
      (f_id f, mkRegion (cparent C) (Split (mkSplit (f_axis f) ((tid <$> f_left f) ++ hole ++ (tid <$> f_right f))))
                 (i_size (f_info f)) (i_area (f_info f)))
      :: ents (Some (f_id f)) (f_left f ++ f_right f) ++ around C [f_id f]
  end.
Fixpoint leaves_left (C : list frame) : list (Id * RegionLeaf) :=
  match C with [] => [] | f :: C => leaves_left C ++ leaves_of (f_left f) end.
Fixpoint leaves_right (C : list frame) : list (Id * RegionLeaf) :=
  match C with [] => [] | f :: C => leaves_of (f_right f) ++ leaves_right C end.

Definition frame_axis_ok (C : list frame) (axis : option Z) : Prop :=
  match C with [] => True | f :: _ => axis <> Some (f_axis f) end.
Fixpoint normal_ctx (C : list frame) : Prop :=
  match C with
  | [] => True
  | f :: C =>
      f_left f ++ f_right f <> [] /\ Forall normal (f_left f ++ f_right f) /\
      Forall (fun t => top_axis t <> Some (f_axis f)) (f_left f ++ f_right f) /\
      frame_axis_ok C (Some (f_axis f)) /\ normal_ctx C
  end.

Lemma entries_unfold p t : entries p t = (tid t, head_region p t) :: below t.
Proof. by destruct t. Qed.
Lemma ents_app p ts ts' : ents p (ts ++ ts') = ents p ts ++ ents p ts'.
Proof. unfold ents. by rewrite fmap_app, concat_app. Qed.
Lemma ents_cons p t ts : ents p (t :: ts) = entries p t ++ ents p ts.
Proof. done. Qed.
Lemma ents_nil p : ents p [] = [].
Proof. done. Qed.
Lemma leaves_of_app ts ts' : leaves_of (ts ++ ts') = leaves_of ts ++ leaves_of ts'.
Proof. unfold leaves_of. by rewrite fmap_app, concat_app. Qed.
Lemma leaves_of_cons t ts : leaves_of (t :: ts) = leaves t ++ leaves_of ts.
Proof. done. Qed.
Lemma leaves_split id i axis ts : leaves (TSplit id i axis ts) = leaves_of ts.
Proof. done. Qed.

(** A forest: the regions at its roots and those below. *)
Definition heads (p : option Id) (ts : list tree) : list (Id * Region) := (fun t => (tid t, head_region p t)) <$> ts.
Lemma ents_heads p ts : ents p ts ≡ₚ heads p ts ++ concat (below <$> ts).
Proof.
  induction ts as [|t ts IH]; [done|]. rewrite ents_cons, entries_unfold. cbn [heads fmap list_fmap concat].
  fold (heads p ts). rewrite IH. rewrite <- !app_comm_cons. apply Permutation_skip.
  rewrite !app_assoc. apply Permutation_app_tail, Permutation_app_comm.
Qed.
Lemma heads_ids p ts : (heads p ts).*1 = tid <$> ts.
Proof. unfold heads. rewrite <- list_fmap_compose. done. Qed.

Lemma around_hole f C ts :
  entries None (plug C (plug1 f ts)) ≡ₚ entries (cparent C) (plug1 f ts) ++ around C [f_id f] ->
  entries None (plug C (plug1 f ts)) ≡ₚ ents (Some (f_id f)) ts ++ around (f :: C) (tid <$> ts).
Proof.
  intros ->. rewrite entries_unfold. unfold below, plug1. cbn [tid kids head_region around].
  rewrite !ents_app, !fmap_app. rewrite <- app_comm_cons, <- Permutation_middle. apply Permutation_skip.
  rewrite !app_assoc. apply Permutation_app_tail. rewrite <- !app_assoc. apply Permutation_app_swap_app.
Qed.

Lemma entries_plug C t : entries None (plug C t) ≡ₚ entries (cparent C) t ++ around C [tid t].
Proof.
  revert t. induction C as [|f C IH]; intros t; [simpl; by rewrite app_nil_r|].
  cbn [plug]. rewrite (around_hole f C [t] (IH _)).
  rewrite ents_cons, ents_nil, app_nil_r. done.
Qed.
Lemma entries_plug1 f C ts :
  entries None (plug C (plug1 f ts)) ≡ₚ ents (Some (f_id f)) ts ++ around (f :: C) (tid <$> ts).
Proof. apply around_hole, entries_plug. Qed.

Lemma leaves_plug C t : leaves (plug C t) = leaves_left C ++ leaves t ++ leaves_right C.
Proof.
  revert t. induction C as [|f C IH]; intros t; [simpl; by rewrite app_nil_r|].
  cbn [plug]. rewrite IH. unfold plug1. rewrite leaves_split, !leaves_of_app, leaves_of_cons.
  cbn [leaves_left leaves_right]. change (leaves_of []) with (@nil (Id * RegionLeaf)).
  by rewrite app_nil_r, <- !app_assoc.
Qed.
Lemma leaves_plug1 f C ts : leaves (plug C (plug1 f ts)) = leaves_left (f :: C) ++ leaves_of ts ++ leaves_right (f :: C).
Proof.
  rewrite leaves_plug. unfold plug1. rewrite leaves_split, !leaves_of_app.
  cbn [leaves_left leaves_right]. by rewrite <- !app_assoc.
Qed.

#[export] Instance zlen_proper {A} : Proper ((≡ₚ) ==> (=)) (@zlen A).
Proof. intros l l' Hl. unfold zlen. by rewrite Hl. Qed.
Lemma zlen_pos {A} (l : list A) : l <> [] <-> 0 < zlen l.
Proof. destruct l; [done|]. rewrite zlen_cons. pose proof (zlen_nonneg l). split; [lia|done]. Qed.

Lemma plug_root C t t' : (C = [] -> tid t = tid t') -> tid (plug C t) = tid (plug C t').
Proof.
  revert t t'. induction C as [|f C IH]; intros t t' H; simpl; [by apply H|]. by apply IH.
Qed.

Lemma normal_plug C t : normal_ctx C -> normal t -> frame_axis_ok C (top_axis t) -> normal (plug C t).
Proof.
  revert t. induction C as [|f C IH]; intros t HC Ht Hax; simpl; [done|].
  destruct HC as (Hne&Hn&Ha&Hf&HC). apply IH; [done| |done].
  apply Forall_app in Hn as [Hnl Hnr]. apply Forall_app in Ha as [Hal Har].
  constructor.
  - apply zlen_pos in Hne. rewrite !zlen_app, zlen_cons, zlen_nil in *. lia.
  - by rewrite !Forall_app, Forall_singleton.
  - by rewrite !Forall_app, Forall_singleton.
Qed.

Lemma normal_unplug C t : normal (plug C t) -> normal_ctx C /\ normal t /\ frame_axis_ok C (top_axis t).
Proof.
  revert t. induction C as [|f C IH]; intros t H; simpl in *; [done|].
  apply IH in H as (HC&Ht&Hf). inversion_clear Ht as [|???? Hl Hn Ha].
  apply Forall_app in Hn as [? [? ?]%Forall_cons], Ha as [? [? ?]%Forall_cons].
  rewrite !zlen_app in Hl. rewrite !Forall_app. split; [|done]. split; [|done].
  apply zlen_pos. rewrite zlen_app. rewrite zlen_cons in Hl. lia.
Qed.

Lemma elem_of_concat {A} (x : A) (ls : list (list A)) : x ∈ concat ls <-> exists l, x ∈ l /\ l ∈ ls.
Proof.
  induction ls as [|l ls IH]; cbn [concat]; [set_solver|]. rewrite elem_of_app, IH. set_solver.
Qed.

Lemma plug_outer C f t : plug (C ++ [f]) t = plug1 f [plug C t].
Proof. revert t. induction C as [|g C IH]; intros t; simpl; [done|]. apply IH. Qed.

(** Every region of the tree can be focused on. *)
Lemma focus p T id r :
  (id, r) ∈ entries p T -> exists C t, T = plug C t /\ tid t = id.
Proof.
  revert p r. induction T as [id' i l|id' i axis ts IH] using tree_forest_ind; intros p r H.
  - apply list_elem_of_singleton in H as [= -> ->]. by exists [], (TLeaf id' i l).
  - rewrite entries_unfold in H. apply elem_of_cons in H as [[= -> ->]|H].
    { by exists [], (TSplit id' i axis ts). }
    apply elem_of_concat in H as (es&Hes&(t&->&Ht)%list_elem_of_fmap).
    cbn [kids] in Ht. apply list_elem_of_split in Ht as (l1&l2&->). apply Forall_elt in IH.
    destruct (IH _ _ Hes) as (C&t'&->&<-). exists (C ++ [mkFrame id' i axis l1 l2]), t'. split; [|done].
    by rewrite plug_outer.
Qed.

(** ** Arrangements: how the leaves lie, without sizes, areas and names of splits *)

Inductive arrangement :=
  | ALeaf (id : Id) (l : RegionLeaf)
  | ASplit (axis : Z) (vs : list arrangement).

Fixpoint bare (t : tree) : arrangement :=
  match t with
  | TLeaf id _ l => ALeaf id l
  | TSplit _ _ axis ts => ASplit axis (bare <$> ts)
  end.

(** The same with the splits merged: a split of no children is nothing, one of a
    single child is that child, and one along the axis of its parent gives the
    parent its children. The leaf [gone] does not count if it has no tabs. *)
Definition nothing : arrangement := ASplit 0 [].
Definition pieces (axis : Z) (v : arrangement) : list arrangement :=
  match v with
  | ASplit _ [] => []
  | ASplit a vs => if a =? axis then vs else [v]
  | ALeaf _ _ => [v]
  end.
Definition assembled (axis : Z) (vs : list arrangement) : arrangement :=
  match vs with [] => nothing | [v] => v | _ => ASplit axis vs end.
Fixpoint arranged (gone : option Id) (t : tree) : arrangement :=
  match t with
  | TLeaf id _ l => if decide (gone = Some id /\ tabs l = []) then nothing else ALeaf id l
  | TSplit _ _ axis ts => assembled axis (concat (pieces axis <$> (arranged gone <$> ts)))
  end.

Inductive canonical : arrangement -> Prop :=
  | canonical_leaf id l : canonical (ALeaf id l)
  | canonical_nothing : canonical nothing
  | canonical_split a vs :
      2 <= zlen vs -> Forall canonical vs -> Forall (fun v => pieces a v = [v]) vs -> canonical (ASplit a vs).

Lemma assembled_long axis vs : 2 <= zlen vs -> assembled axis vs = ASplit axis vs.
Proof. destruct vs as [|v [|v' vs]]; rewrite ?zlen_cons, ?zlen_nil; [lia..|done]. Qed.
Lemma pieces_long a axis vs : 2 <= zlen vs -> pieces axis (ASplit a vs) = if a =? axis then vs else [ASplit a vs].
Proof. destruct vs; [rewrite zlen_nil; lia|done]. Qed.

Lemma pieces_canonical axis v :
  canonical v -> Forall canonical (pieces axis v) /\ Forall (fun w => pieces axis w = [w]) (pieces axis v).
Proof.
  intros Hv. destruct Hv as [id l| |a vs Hl Hc Hp]; [by split; repeat constructor|by split|].
  rewrite (pieces_long _ _ _ Hl). destruct (Z.eqb_spec a axis) as [->|Hne]; [done|].
  split; apply Forall_singleton; [by constructor|]. by rewrite (pieces_long _ _ _ Hl), (proj2 (Z.eqb_neq a axis)).
Qed.
Lemma assembled_canonical axis vs :
  Forall canonical vs -> Forall (fun w => pieces axis w = [w]) vs ->
  canonical (assembled axis vs) /\ pieces axis (assembled axis vs) = vs.
Proof.
  intros Hc Hp. destruct vs as [|v [|v' vs]].
  - by split; [constructor|].
  - by rewrite Forall_singleton in Hc, Hp.
  - assert (Hl : 2 <= zlen (v :: v' :: vs)) by (rewrite !zlen_cons; pose proof (zlen_nonneg vs); lia).
    rewrite (assembled_long _ _ Hl), (pieces_long _ _ _ Hl), Z.eqb_refl. by split; [constructor|].
Qed.
Lemma assembled_pieces axis v : canonical v -> assembled axis (pieces axis v) = v.
Proof.
  intros Hv. destruct Hv as [id l| |a vs Hl _ _]; [done..|]. rewrite (pieces_long _ _ _ Hl).
  destruct (Z.eqb_spec a axis) as [->|]; [by apply assembled_long|done].
Qed.

Lemma forest_canonical axis vs :
  Forall canonical vs ->
  Forall canonical (concat (pieces axis <$> vs)) /\ Forall (fun w => pieces axis w = [w]) (concat (pieces axis <$> vs)).
Proof.
  induction 1 as [|v vs Hv _ [IH1 IH2]]; [by split|]. destruct (pieces_canonical axis v Hv).
  cbn [fmap list_fmap concat]. by rewrite !Forall_app.
Qed.
Lemma arranged_canonical gone t : canonical (arranged gone t).
Proof.
  induction t as [id i l|id i axis ts IH] using tree_forest_ind; cbn [arranged]; [case_decide; constructor|].
  apply assembled_canonical; apply forest_canonical, Forall_fmap; exact IH.
Qed.
Lemma arranged_forest gone ts : Forall canonical (arranged gone <$> ts).
Proof. apply Forall_fmap, Forall_forall. intros t _. apply arranged_canonical. Qed.

(** Merging a split into its parent changes nothing, nor does leaving out a split of one child. *)
Lemma pieces_merged gone axis i id a ts :
  a = axis \/ zlen ts <= 1 ->
  pieces axis (arranged gone (TSplit id i a ts)) = concat (pieces axis <$> (arranged gone <$> ts)).
Proof.
  intros [->|Hl]; cbn [arranged].
  - apply assembled_canonical; apply forest_canonical, arranged_forest.
  - destruct ts as [|t [|t' ts]]; [done| |rewrite !zlen_cons in Hl; pose proof (zlen_nonneg ts); lia].
    cbn [fmap list_fmap concat]. by rewrite !app_nil_r, assembled_pieces by apply arranged_canonical.
Qed.
Lemma arranged_single gone id i axis t : arranged gone (TSplit id i axis [t]) = arranged gone t.
Proof. cbn [arranged fmap list_fmap concat]. rewrite app_nil_r. apply assembled_pieces, arranged_canonical. Qed.

(** The arrangement of a split depends on the arrangements of its children. *)
Lemma arranged_forest_eq gone id i id' i' axis ts ts' :
  arranged gone <$> ts' = arranged gone <$> ts -> arranged gone (TSplit id' i' axis ts') = arranged gone (TSplit id i axis ts).
Proof. intros Hts. cbn [arranged]. by rewrite Hts. Qed.
Lemma arranged_plug gone C t t' : arranged gone t' = arranged gone t -> arranged gone (plug C t') = arranged gone (plug C t).
Proof.
  revert t t'. induction C as [|f C IH]; intros t t' Ht; [done|]. cbn [plug]. apply IH.
  apply arranged_forest_eq. rewrite !fmap_app. cbn [fmap list_fmap]. by rewrite Ht.
Qed.
Lemma arranged_splice gone f C id i axis ts ts' :
  arranged gone <$> ts' = arranged gone <$> ts -> f_axis f = axis \/ zlen ts <= 1 ->
  arranged gone (plug C (plug1 f ts')) = arranged gone (plug (f :: C) (TSplit id i axis ts)).
Proof.
  intros Hts Hax. cbn [plug]. apply arranged_plug. unfold plug1.
  cbn [arranged]. rewrite !fmap_app, !concat_app, Hts. cbn [fmap list_fmap concat]. rewrite app_nil_r.
  fold (arranged gone (TSplit id i axis ts)). rewrite pieces_merged; [done|]. destruct Hax as [<-|]; auto.
Qed.

(** In a tree that is normal there is nothing to merge. *)
Lemma arranged_normal gone t :
  normal t -> (forall id l, gone = Some id -> (id, l) ∈ leaves t -> tabs l <> []) -> arranged gone t = bare t.
Proof.
  induction t as [id i l|id i axis ts IH] using tree_forest_ind; intros Hn Hg; cbn [arranged bare].
  - rewrite decide_False; [done|]. intros [Hid Hl]. eapply Hg; [exact Hid|left|done].
  - inversion_clear Hn as [|???? Hl Hns Has]. rewrite Forall_forall in IH, Hns, Has.
    assert (Hts : forall t, t ∈ ts -> arranged gone t = bare t).
    { intros t Ht. apply IH; [done|by apply Hns|]. intros id' l' Hid Hin. apply (Hg id' l' Hid).
      rewrite leaves_split. apply elem_of_concat. exists (leaves t). split; [done|]. by apply list_elem_of_fmap_2. }
    assert (Hp : concat (pieces axis <$> (arranged gone <$> ts)) = bare <$> ts).
    { clear Hl IH Hg. induction ts as [|t ts IHts]; [done|]. cbn [fmap list_fmap concat].
      rewrite Hts by left. change (list_fmap _ _ ?f ts) with (f <$> ts). rewrite IHts; [|intros; by (apply Hns || apply Has || apply Hts); right ..].
      change (pieces axis (bare t) ++ (bare <$> ts) = [bare t] ++ (bare <$> ts)). f_equal.
      specialize (Has t (list_elem_of_here _ _)). destruct t as [|id' i' a ts']; [done|].
      specialize (Hns _ (list_elem_of_here _ _)). inversion_clear Hns as [|???? Hl _ _]. cbn [bare].
      rewrite pieces_long by (unfold zlen in *; by rewrite length_fmap).
      by rewrite (proj2 (Z.eqb_neq a axis)) by (simpl in Has; congruence). }
    rewrite Hp. apply assembled_long. unfold zlen in *. by rewrite length_fmap.
Qed.

(** *** Changes at one node *)

Fixpoint at_node (id : Id) (f : tree -> tree) (t : tree) : tree :=
  if decide (tid t = id) then f t
  else match t with
       | TLeaf _ _ _ => t
       | TSplit id' i axis ts => TSplit id' i axis (at_node id f <$> ts)
       end.

Lemma at_node_elsewhere p id f t : id ∉ (entries p t).*1 -> at_node id f t = t.
Proof.
  revert p. induction t as [id' i l|id' i axis ts IH] using tree_forest_ind; intros p Hid; rewrite entries_unfold in Hid;
    cbn [fmap list_fmap fst tid] in Hid; apply not_elem_of_cons in Hid as [Hne Hid]; cbn [at_node tid].
  - by rewrite decide_False by done.
  - rewrite decide_False by done. f_equal. unfold below in Hid. cbn [tid kids] in Hid.
    induction IH as [|t ts Ht _ IHts]; [done|]. rewrite ents_cons, fmap_app, not_elem_of_app in Hid.
    destruct Hid as [H1 H2]. cbn [fmap list_fmap]. rewrite (Ht _ H1). f_equal. by apply IHts.
Qed.
Lemma at_forest_elsewhere p id f ts : id ∉ (ents p ts).*1 -> at_node id f <$> ts = ts.
Proof.
  induction ts as [|t ts IH]; intros Hid; [done|]. rewrite ents_cons, fmap_app, not_elem_of_app in Hid.
  destruct Hid as [H1 H2]. cbn [fmap list_fmap]. rewrite (at_node_elsewhere _ _ _ _ H1). f_equal. by apply IH.
Qed.

Lemma at_node_inside C id f t u :
  id ∉ (around C [tid t]).*1 -> at_node id f t = u -> at_node id f (plug C t) = plug C u.
Proof.
  revert t u. induction C as [|g C IH]; intros t u Hid Hu; [done|]. cbn [plug]. cbn [around fmap list_fmap fst] in Hid.
  apply not_elem_of_cons in Hid as [Hne Hid]. rewrite fmap_app, ents_app, fmap_app, !not_elem_of_app in Hid.
  destruct Hid as [[Hl Hr] Hid]. apply IH; [done|]. unfold plug1. cbn [at_node tid]. rewrite decide_False by done. f_equal.
  rewrite !fmap_app. cbn [fmap list_fmap]. by rewrite (at_forest_elsewhere _ _ _ _ Hl), (at_forest_elsewhere _ _ _ _ Hr), Hu.
Qed.
Lemma at_node_plug C f t :
  NoDup (entries None (plug C t)).*1 -> at_node (tid t) f (plug C t) = plug C (f t).
Proof.
  intros Hnd. apply at_node_inside.
  - rewrite (entries_plug C t), entries_unfold in Hnd. cbn [app fmap list_fmap fst] in Hnd.
    apply NoDup_cons in Hnd as [Hn _]. intros Hin. apply Hn. rewrite fmap_app, elem_of_app. by right.
  - destruct t; cbn [at_node tid]; by rewrite decide_True by done.
Qed.

(** Other tabs in a leaf. *)
Definition on_leaf (f : RegionLeaf -> RegionLeaf) (t : tree) : tree :=
  match t with TLeaf id i l => TLeaf id i (f l) | TSplit _ _ _ _ => t end.

Fixpoint refilled (id : Id) (l : RegionLeaf) (v : arrangement) : arrangement :=
  match v with
  | ALeaf id' l' => ALeaf id' (if decide (id' = id) then l else l')
  | ASplit axis vs => ASplit axis (refilled id l <$> vs)
  end.

Lemma refilled_assembled id l axis vs : refilled id l (assembled axis vs) = assembled axis (refilled id l <$> vs).
Proof. by destruct vs as [|v [|v' vs]]. Qed.
Lemma refilled_pieces id l axis v : pieces axis (refilled id l v) = refilled id l <$> pieces axis v.
Proof. destruct v as [|a [|v vs]]; [done..|]. cbn [pieces refilled fmap list_fmap]. by destruct (a =? axis). Qed.
Lemma refilled_forest id l axis vs :
  concat (pieces axis <$> (refilled id l <$> vs)) = refilled id l <$> concat (pieces axis <$> vs).
Proof.
  induction vs as [|v vs IH]; [done|]. cbn [fmap list_fmap concat]. rewrite fmap_app, <- refilled_pieces.
  f_equal. exact IH.
Qed.

(** A leaf that is not [gone] keeps its place when its tabs change. *)
Lemma arranged_refilled gone id l t :
  (forall l', (id, l') ∉ leaves t) -> refilled id l (arranged gone t) = arranged gone t.
Proof.
  induction t as [id' i l'|id' i axis ts IH] using tree_forest_ind; intros Hid; cbn [arranged].
  - case_decide; [done|]. cbn [refilled]. rewrite decide_False; [done|]. intros ->. apply (Hid l'). left.
  - rewrite refilled_assembled, <- refilled_forest. do 3 f_equal. rewrite <- list_fmap_compose.
    apply list_fmap_ext. intros j t Ht%list_elem_of_lookup_2. rewrite Forall_forall in IH. apply IH; [done|].
    intros l' Hl. apply (Hid l'). rewrite leaves_split. apply elem_of_concat. exists (leaves t). split; [done|].
    by apply list_elem_of_fmap_2.
Qed.
Lemma refilled_plug gone id l C t t' :
  (forall x, (id, x) ∉ leaves_left C ++ leaves_right C) ->
  arranged gone t' = refilled id l (arranged gone t) ->
  arranged gone (plug C t') = refilled id l (arranged gone (plug C t)).
Proof.
  revert t t'. induction C as [|f C IH]; intros t t' Hx Ht; [done|]. cbn [plug leaves_left leaves_right] in *.
  assert (Hout : forall ts, ts = f_left f \/ ts = f_right f -> refilled id l <$> (arranged gone <$> ts) = arranged gone <$> ts).
  { intros ts Hts. rewrite <- list_fmap_compose. apply list_fmap_ext. intros j u Hu%list_elem_of_lookup_2.
    apply arranged_refilled. intros x Hin. apply (Hx x). rewrite !elem_of_app.
    assert ((id, x) ∈ leaves_of ts); [|destruct Hts; subst; tauto].
    apply elem_of_concat. exists (leaves u). split; [done|]. by apply list_elem_of_fmap_2. }
  apply IH; [intros x Hin; apply (Hx x); rewrite !elem_of_app in *; tauto|].
  unfold plug1. cbn [arranged]. rewrite refilled_assembled, <- refilled_forest. do 3 f_equal.
  rewrite !fmap_app. cbn [fmap list_fmap]. rewrite Ht.
  f_equal; [by rewrite Hout by auto|]. cbn [app]. f_equal. by rewrite Hout by auto.
Qed.
Lemma arranged_fill gone C id i l l' :
  gone <> Some id -> NoDup (leaves (plug C (TLeaf id i l))).*1 ->
  arranged gone (plug C (TLeaf id i l')) = refilled id l' (arranged gone (plug C (TLeaf id i l))).
Proof.
  intros Hg. rewrite leaves_plug. cbn [leaves app]. intros Hnd.
  rewrite fmap_app in Hnd. cbn [fmap list_fmap fst] in Hnd. rewrite <- Permutation_middle in Hnd.
  apply NoDup_cons in Hnd as [Hn _]. rewrite <- fmap_app in Hn. apply refilled_plug.
  - intros x Hx. apply Hn, list_elem_of_fmap. by exists (id, x).
  - cbn [arranged]. rewrite !decide_False by (intros [? _]; congruence). cbn [refilled]. by rewrite decide_True.
Qed.

(** ** Regions of a running layout *)

(** The pool holds the regions [l]; [k] is the next sequence number. *)
Definition owns (k : Z) (p : Pool Region) (l : list (Id * Region)) : Prop := owned p l /\ next_seqno p = k.

Lemma owns_perm k p l l' : l ≡ₚ l' -> owns k p l -> owns k p l'.
Proof. intros Hl [Ho ?]. split; [by rewrite <- Hl|done]. Qed.
Lemma owns_nodup k p l : owns k p l -> NoDup l.*1.
Proof. intros [[] _]. done. Qed.

(** Relative sizes that the arithmetic on them cannot overflow. *)
Definition size_max : Z := 2 ^ 31.
Definition region_max : Z := 2 ^ 12.
Definition sized (l : list (Id * Region)) : Prop := Forall (fun e => 1 <= relative_size e.2 <= size_max) l.

(** More rules of [returns]. *)
Lemma returns_lift {S E A} (o : outcome E A) a (Q : A -> S -> Prop) st : o = Ret a -> Q a st -> returns (slift o) Q st.
Proof. by intros ->. Qed.
Lemma returns_assert {S E} b (Q : unit -> S -> Prop) (st : S) : b = true -> Q tt st -> returns (sassert b : stm S E unit) Q st.
Proof. by intros ->. Qed.

Lemma sfor_sfold {S E A} (f : A -> stm S E unit) (xs : list A) st :
  sfor xs f st = sfold xs tt (fun _ => f) st.
Proof.
  revert st. induction xs as [|x xs IH]; intros st; [done|]. cbn [sfor sfold]. rewrite !stm_bind_run.
  destruct (f x st) as [[[]| |] st1]; [apply IH|done|done].
Qed.
Section Regions.
Context `{!WindowContent}.
Implicit Types (st : Layout) (l : list (Id * Region)).

Lemma region_get_ok k st l id r (Q : Region -> Layout -> Prop) :
  owns k (regions st) l -> (id, r) ∈ l -> Q r st -> returns (region_get id) Q st.
Proof.
  intros [Ho _] Hin HQ. unfold returns, region_get. srun. by rewrite (owned_get _ _ _ _ Ho Hin).
Qed.

(** One entry changed, the others as they were. *)
Lemma owns_changed k p q id x (f : Region -> Region) l id' :
  owns k p ((id, x) :: l) -> owns k q ((id, f x) :: l) ->
  Pool.try_get q id' = if decide (id' = id) then f <$> Pool.try_get p id else Pool.try_get p id'.
Proof.
  intros [[_ _ Hp] _] [[_ _ Hq] _]. rewrite <- !Pool.abs_lookup, Hp, Hq. cbn [list_to_map foldr uncurry fst snd].
  destruct (decide (id' = id)) as [->|Hne]; [by rewrite !lookup_insert_eq|by rewrite !lookup_insert_ne by done].
Qed.
Lemma region_mut_ok k st l id r f (Q : unit -> Layout -> Prop) :
  owns k (regions st) ((id, r) :: l) ->
  (forall p, owns k p ((id, f r) :: l) -> Q tt (set_regions p st)) ->
  returns (region_mut id f) Q st.
Proof.
  intros [Ho Hk] HQ. destruct (owned_mut _ _ _ _ f Ho) as (p&Hp&Ho'&Hk'&_).
  unfold returns, region_mut. srun. rewrite Hp. cbn [widen]. srun. apply HQ. split; [done|congruence].
Qed.

Lemma region_add_ok k st l r (Q : Id -> Layout -> Prop) :
  owns k (regions st) l -> k + 1 < 2 ^ 64 ->
  (forall id p, owns (k + 1) p ((id, r) :: l) -> Q id (set_regions p st)) ->
  returns (region_add r) Q st.
Proof.
  intros [Ho Hk] Hlt HQ. destruct (owned_add _ _ r Ho) as (id&p&Hp&Ho'&Hk'); [by rewrite Hk|].
  unfold returns, region_add. srun. rewrite Hp. cbn [widen]. srun. apply HQ. split; [done|congruence].
Qed.

Lemma region_remove_ok k st l id r (Q : option Region -> Layout -> Prop) :
  owns k (regions st) ((id, r) :: l) ->
  (forall p, owns k p l -> Q (Some r) (set_regions p st)) ->
  returns (region_remove id) Q st.
Proof.
  intros [Ho Hk] HQ. destruct (owned_remove _ _ _ _ Ho) as (p&Hp&Ho'&Hk'&_).
  unfold returns, region_remove. srun. rewrite Hp. srun. apply HQ. split; [done|congruence].
Qed.

Lemma split_get_ok k st l id r s (Q : RegionSplit -> Layout -> Prop) :
  owns k (regions st) l -> (id, r) ∈ l -> as_split (r_content r) = Some s -> Q s st -> returns (split_get id) Q st.
Proof.
  intros Ho Hin Hs HQ. apply returns_bind. eapply region_get_ok; [done..|]. by eapply returns_opt.
Qed.
Lemma leaf_get_ok k st l id r s (Q : RegionLeaf -> Layout -> Prop) :
  owns k (regions st) l -> (id, r) ∈ l -> as_leaf (r_content r) = Some s -> Q s st -> returns (leaf_get id) Q st.
Proof.
  intros Ho Hin Hs HQ. apply returns_bind. eapply region_get_ok; [done..|]. by eapply returns_opt.
Qed.

(** *** Loops over some of the regions, with a local variable *)

Fixpoint updates {B} (f : B -> Region -> Region) (g : B -> Region -> B) (b : B) (l : list (Id * Region)) : list (Id * Region) :=
  match l with
  | [] => []
  | (id, r) :: l => (id, f b r) :: updates f g (g b r) l
  end.

Definition regions_become k st l st' : Prop := exists p, st' = set_regions p st /\ owns k p l.

Lemma fold_regions {B} (body : B -> Id -> lay B) f g (ok : B -> list Region -> Prop) :
  (forall b r rs, ok b (r :: rs) -> ok (g b r) rs) ->
  (forall b r rs id l k st, ok b (r :: rs) -> owns k (regions st) ((id, r) :: l) ->
     returns (body b id) (fun b' st' => b' = g b r /\ regions_become k st ((id, f b r) :: l) st') st) ->
  forall l' b l k st, ok b l'.*2 -> owns k (regions st) (l' ++ l) ->
    returns (sfold l'.*1 b body)
      (fun b' st' => b' = foldl g b l'.*2 /\ regions_become k st (updates f g b l' ++ l) st') st.
Proof.
  intros Hok Hbody. induction l' as [|[id r] l' IH]; intros b l k st Hb Ho; cbn [sfold fmap list_fmap fst].
  - apply returns_ret. split; [done|]. exists (regions st). split; [by destruct st|done].
  - apply returns_bind. eapply returns_mono; [by apply (Hbody _ _ _ _ _ _ _ Hb Ho)|].
    intros ? st1 [-> (p&->&Ho1)].
    eapply returns_mono.
    + apply (IH _ ((id, f b r) :: l)); [by eapply Hok|].
      eapply owns_perm; [|exact Ho1]. by rewrite <- Permutation_middle.
    + intros ? st2 [-> (p'&->&Ho2)]. split; [done|]. exists p'. split; [done|].
      eapply owns_perm; [|exact Ho2]. cbn [updates]. rewrite <- app_comm_cons. by rewrite <- Permutation_middle.
Qed.
End Regions.
