(* ===== verification/LayoutSimplify.v ===== *)
(** [Layout::simplify_splits] of src/layout.rs: it terminates, keeps the
    leaves in their arrangement, and makes the tree of regions normal again after a
    change at one of its nodes. *)
From Stdlib Require Import ZArith Lia.
From stdpp Require Import base list gmap sets.
From S2P Require Import Prelude Pool PoolOwned Errors StateMonad Tabs Rect Layout LayoutTree.
Open Scope Z_scope.

Implicit Types (ts : list tree).

(** Total size of regions. *)
Definition sizes (rs : list Region) : Z := foldr Z.add 0 (relative_size <$> rs).
Lemma sizes_cons r rs : sizes (r :: rs) = relative_size r + sizes rs.
Proof. done. Qed.
Lemma sizes_bounds (l : list (Id * Region)) :
  sized l -> zlen l <= sizes l.*2 <= size_max * zlen l.
Proof.
  induction 1 as [|[id r] l Hr _ IH]; [done|].
  cbn [fmap list_fmap snd] in *. rewrite sizes_cons, zlen_cons. unfold size_max in *. lia.
Qed.
Lemma sizes_foldl b rs : foldl (fun tot r => tot + relative_size r) b rs = b + sizes rs.
Proof.
  revert b. induction rs as [|r rs IH]; intros b; cbn [foldl]; [unfold sizes; simpl; lia|].
  rewrite IH, sizes_cons. lia.
Qed.

Lemma updates_map {B} (f : Region -> Region) (g : B -> Region -> B) b l :
  updates (fun _ => f) g b l = prod_map id f <$> l.
Proof. revert b. induction l as [|[id r] l IH]; intros b; cbn; [done|]. by rewrite IH. Qed.

Lemma sized_app l l' : sized (l ++ l') <-> sized l /\ sized l'.
Proof. apply Forall_app. Qed.
Lemma sized_perm l l' : l ≡ₚ l' -> sized l -> sized l'.
Proof. intros Hl. unfold sized. by rewrite Hl. Qed.

(** [child.relative_size * relative_size / total_size], at least 1. *)
Definition rescaled (size total s : Z) : Z := Z.max (s * size / total) 1.
Definition rescale (size total : Z) (t : tree) : tree := set_tree_size (rescaled size total (i_size (tinfo t))) t.

Lemma rescaled_range size total s :
  1 <= size <= size_max -> 1 <= s <= total -> 1 <= rescaled size total s <= size_max.
Proof.
  intros Hsz Hs. unfold rescaled, size_max in *.
  assert (s * size / total <= size); [|lia]. apply Z.div_le_upper_bound; nia.
Qed.

Lemma tid_set_tree_size s t : tid (set_tree_size s t) = tid t.
Proof. by destruct t. Qed.
Lemma below_set_tree_size s t : below (set_tree_size s t) = below t.
Proof. by destruct t. Qed.
Lemma leaves_set_tree_size s t : leaves (set_tree_size s t) = leaves t.
Proof. by destruct t. Qed.
Lemma arranged_set_tree_size gone s t : arranged gone (set_tree_size s t) = arranged gone t.
Proof. by destruct t. Qed.
Lemma axis_set_tree_size s t : top_axis (set_tree_size s t) = top_axis t.
Proof. by destruct t. Qed.
Lemma normal_set_tree_size s t : normal t -> normal (set_tree_size s t).
Proof. destruct 1; by constructor. Qed.
Lemma head_set_tree_size p s t : head_region p (set_tree_size s t) = set_relative_size s (head_region p t).
Proof. by destruct t. Qed.
Lemma head_size p t : relative_size (head_region p t) = i_size (tinfo t).
Proof. by destruct t. Qed.
Lemma head_parent p p' t : set_parent p' (head_region p t) = head_region p' t.
Proof. by destruct t. Qed.

(** The forest with new sizes at its roots. *)
Lemma ents_resized p (g : tree -> Z) ts :
  ents p ((fun t => set_tree_size (g t) t) <$> ts) ≡ₚ
  ((fun t => (tid t, set_relative_size (g t) (head_region p t))) <$> ts) ++ concat (below <$> ts).
Proof.
  rewrite ents_heads. unfold heads. rewrite <- !list_fmap_compose.
  apply Permutation_app.
  - erewrite list_fmap_ext; [done|]. intros i t _. unfold compose.
    by rewrite tid_set_tree_size, head_set_tree_size.
  - erewrite (list_fmap_ext (below ∘ _) below); [done|]. intros i t _. unfold compose. apply below_set_tree_size.
Qed.
Lemma tids_resized (g : tree -> Z) ts : tid <$> ((fun t => set_tree_size (g t) t) <$> ts) = tid <$> ts.
Proof. rewrite <- list_fmap_compose. apply list_fmap_ext. intros. apply tid_set_tree_size. Qed.
Lemma leaves_resized (g : tree -> Z) ts : leaves_of ((fun t => set_tree_size (g t) t) <$> ts) = leaves_of ts.
Proof.
  unfold leaves_of. rewrite <- list_fmap_compose. f_equal. apply list_fmap_ext. intros. apply leaves_set_tree_size.
Qed.
Lemma arranged_resized gone (g : tree -> Z) ts :
  arranged gone <$> ((fun t => set_tree_size (g t) t) <$> ts) = arranged gone <$> ts.
Proof. rewrite <- list_fmap_compose. apply list_fmap_ext. intros. apply arranged_set_tree_size. Qed.
Lemma normal_resized (g : tree -> Z) ts : Forall normal ts -> Forall normal ((fun t => set_tree_size (g t) t) <$> ts).
Proof. intros H. apply Forall_fmap. eapply Forall_impl; [done|]. intros t. apply normal_set_tree_size. Qed.
Lemma axes_resized (g : tree -> Z) axis ts :
  Forall (fun t => top_axis t <> Some axis) ts ->
  Forall (fun t => top_axis t <> Some axis) ((fun t => set_tree_size (g t) t) <$> ts).
Proof. intros H. apply Forall_fmap. eapply Forall_impl; [done|]. intros t. unfold compose. by rewrite axis_set_tree_size. Qed.

(** Two loops of [simplify_splits] and [remove_leaf] in general form. *)
Section Loops.
Context `{!WindowContent}.
Implicit Types (st : Layout).

(** The state whose regions form [T]. *)
Definition with_tree st (p : Pool Region) (T : tree) : Layout :=
  mkLayout (windows st) (active_window st) p (tid T) (active_leaf st).
Definition in_tree (k : Z) st (T : tree) : Prop := owns k (regions st) (entries None T) /\ root st = tid T.
Definition fine (T : tree) : Prop :=
  sized (entries None T) /\ zlen (entries None T) < region_max /\ leaves T <> [].

Lemma in_tree_with k st T : in_tree k st T -> st = with_tree st (regions st) T.
Proof. destruct st. unfold with_tree. intros [_ Hr]. simpl in *. by rewrite Hr. Qed.

Lemma reparent_loop p p' ts l k st :
  sizes (heads p ts).*2 < 2 ^ 64 -> Forall (fun t => 0 <= i_size (tinfo t)) ts ->
  owns k (regions st) (heads p ts ++ l) ->
  returns (sfold (tid <$> ts) 0 (fun total child_id =>
     child ← region_get child_id;
     _ ← region_mut child_id (set_parent p');
     slift (uadd total (relative_size child))))
   (fun total st' => total = sizes (heads p ts).*2 /\ regions_become k st (heads p' ts ++ l) st') st.
Proof.
  intros Hs Hnn Ho. rewrite <- (heads_ids p).
  eapply returns_mono.
  - eapply (fold_regions _ (fun _ => set_parent p') (fun tot r => tot + relative_size r)
      (fun tot rs => 0 <= tot /\ Forall (fun r => 0 <= relative_size r) rs /\ tot + sizes rs < 2 ^ 64)); [| |split; [done|split]|exact Ho].
    + intros b r rs (Hb&[Hr Hrs]%Forall_cons&Hlt). rewrite sizes_cons in Hlt. split; [lia|]. split; [done|lia].
    + intros b r rs id l0 k0 st0 (Hb&[Hr Hrs]%Forall_cons&Hlt) Ho0.
      apply returns_bind. eapply region_get_ok; [exact Ho0|left|].
      apply returns_bind. eapply region_mut_ok; [exact Ho0|]. intros p1 Ho1.
      rewrite sizes_cons in Hlt. assert (0 <= sizes rs).
      { clear -Hrs. induction Hrs; [done|]. rewrite sizes_cons. lia. }
      eapply returns_lift; [unfold uadd; by rewrite (proj2 (Z.ltb_lt _ _)) by lia|].
      split; [done|]. by exists p1.
    + unfold heads. rewrite <- list_fmap_compose. apply Forall_fmap. eapply Forall_impl; [done|].
      intros t. unfold compose. simpl. by rewrite head_size.
    + lia.
  - intros tot st' [-> (p1&->&Ho1)]. rewrite sizes_foldl. split; [done|]. exists p1. split; [done|].
    rewrite updates_map in Ho1. unfold heads in *. rewrite <- list_fmap_compose in Ho1.
    erewrite (list_fmap_ext (prod_map _ _ ∘ _)) in Ho1; [exact Ho1|].
    intros i t _. unfold compose, prod_map. simpl. by rewrite head_parent.
Qed.

Lemma rescale_loop p size total ts l k st :
  1 <= size <= size_max -> Forall (fun t => 1 <= i_size (tinfo t) <= size_max) ts -> (ts <> [] -> 0 < total) ->
  owns k (regions st) (heads p ts ++ l) ->
  returns (sfor (tid <$> ts) (fun child_id =>
     child ← region_get child_id;
     x ← slift (umul (relative_size child) size);
     q ← slift (udiv x total);
     region_mut child_id (set_relative_size (Z.max q 1))))
   (fun _ st' => regions_become k st (((fun t => (tid t, set_relative_size (rescaled size total (i_size (tinfo t))) (head_region p t))) <$> ts) ++ l) st') st.
Proof.
  intros Hsz Hts Htot Ho. destruct (decide (ts = [])) as [->|Hne].
  { apply returns_ret. exists (regions st). split; [by destruct st|exact Ho]. }
  specialize (Htot Hne). unfold returns. rewrite sfor_sfold. rewrite <- (heads_ids p).
  eapply returns_mono.
  - eapply (fold_regions _ (fun _ r => set_relative_size (rescaled size total (relative_size r)) r) (fun _ _ => tt)
      (fun _ rs => Forall (fun r => 1 <= relative_size r <= size_max) rs)); [| | |exact Ho].
    + by intros b r rs [_ Hrs]%Forall_cons.
    + intros b r rs id l0 k0 st0 [Hr Hrs]%Forall_cons Ho0.
      apply returns_bind. eapply region_get_ok; [exact Ho0|left|].
      apply returns_bind. eapply returns_lift.
      { unfold umul. rewrite (proj2 (Z.ltb_lt _ _)); [done|]. unfold size_max in *. nia. }
      apply returns_bind. eapply returns_lift.
      { unfold udiv. by rewrite (proj2 (Z.eqb_neq _ _)) by lia. }
      eapply region_mut_ok; [exact Ho0|]. intros p1 Ho1. split; [done|]. by exists p1.
    + unfold heads. rewrite <- list_fmap_compose. apply Forall_fmap. eapply Forall_impl; [done|].
      intros t. unfold compose. simpl. by rewrite head_size.
  - intros _ st' [_ (p1&->&Ho1)]. exists p1. split; [done|].
    rewrite updates_map in Ho1. unfold heads in Ho1. rewrite <- list_fmap_compose in Ho1.
    erewrite (list_fmap_ext (prod_map _ _ ∘ _)) in Ho1; [exact Ho1|].
    intros i t _. unfold compose, prod_map. simpl. by rewrite head_size.
Qed.
End Loops.

Section Step.
Context `{!WindowContent}.
Implicit Types (st : Layout).

(** What an iteration leaves: a tree with the same leaves in the same
    arrangement, and either the end or a node to go on with and fewer regions. *)
Definition step_post (k : Z) st (T : tree) (was_nearly : Prop) (next : option Id) (st' : Layout) : Prop :=
  exists (p : Pool Region) T', st' = with_tree st p T' /\ owns k p (entries None T') /\
    leaves T' = leaves T /\ sized (entries None T') /\ zlen (entries None T') <= zlen (entries None T) /\
    (forall gone, arranged gone T' = arranged gone T) /\
    match next with
    | None => was_nearly -> normal T'
    | Some id => exists C t, T' = plug C t /\ id = tid t /\ zlen (entries None T') < zlen (entries None T) /\
                   (was_nearly -> normal_ctx C /\ nearly_normal t)
    end.

Lemma zlen_perm {A} (l l' : list A) : l ≡ₚ l' -> zlen l = zlen l'.
Proof. intros Hl. unfold zlen. by rewrite Hl. Qed.
Lemma zlen_fmap {A B} (f : A -> B) (l : list A) : zlen (f <$> l) = zlen l.
Proof. unfold zlen. by rewrite length_fmap. Qed.

Lemma zlen_heads p ts : zlen (heads p ts) = zlen ts.
Proof. apply zlen_fmap. Qed.

(** The spliced tree: the children [ts] of a node of size [size] take its place. *)
Definition spliced (size : Z) (ts : list tree) : list tree := rescale size (sizes (heads None ts).*2) <$> ts.

Lemma sizes_heads p p' ts : sizes (heads p ts).*2 = sizes (heads p' ts).*2.
Proof.
  unfold sizes, heads. f_equal. rewrite <- !list_fmap_compose. apply list_fmap_ext.
  intros i t _. unfold compose. simpl. by rewrite !head_size.
Qed.
Lemma sized_heads p ts : sized (heads p ts) <-> Forall (fun t => 1 <= i_size (tinfo t) <= size_max) ts.
Proof.
  unfold sized, heads. rewrite Forall_fmap. unfold compose. simpl.
  split; intros H0; (eapply Forall_impl; [exact H0|]); intros t; simpl; by rewrite head_size.
Qed.

Lemma sized_entries_head p t : sized (entries p t) -> 1 <= i_size (tinfo t) <= size_max.
Proof. rewrite entries_unfold. intros [Hh _]%Forall_cons. simpl in Hh. by rewrite head_size in Hh. Qed.

Lemma size_in_total ts t :
  Forall (fun t => 1 <= i_size (tinfo t) <= size_max) ts -> t ∈ ts -> i_size (tinfo t) <= sizes (heads None ts).*2.
Proof.
  intros Hts. induction Hts as [|u ts Hu Hts IH]; [by intros ?%elem_of_nil|].
  assert (Hpos : 0 <= sizes (heads None ts).*2).
  { pose proof (sizes_bounds (heads None ts) (proj2 (sized_heads None ts) Hts)).
    pose proof (zlen_nonneg (heads None ts)). lia. }
  cbn [heads fmap list_fmap snd]. fold (heads None ts). change (list_fmap _ _ snd (heads None ts)) with ((heads None ts).*2).
  rewrite sizes_cons, head_size. intros [->|Ht]%elem_of_cons; [lia|]. specialize (IH Ht). lia.
Qed.

(** Sizes of the spliced children. *)
Lemma sized_spliced size p ts :
  1 <= size <= size_max -> Forall (fun t => 1 <= i_size (tinfo t) <= size_max) ts ->
  sized (concat (below <$> ts)) -> sized (ents p (spliced size ts)).
Proof.
  intros Hsz Hts Hb. eapply sized_perm; [symmetry; apply ents_resized|]. apply sized_app. split; [|done].
  unfold sized. rewrite Forall_fmap. apply Forall_forall. intros t Ht. unfold compose. simpl.
  rewrite Forall_forall in Hts. apply rescaled_range; [done|]. split; [by apply Hts|].
  apply size_in_total; [by apply Forall_forall|done].
Qed.
Lemma tid_spliced size ts : tid <$> spliced size ts = tid <$> ts.
Proof. apply tids_resized. Qed.
Lemma leaves_spliced size ts : leaves_of (spliced size ts) = leaves_of ts.
Proof. apply leaves_resized. Qed.

Lemma zlen_ents_spliced size p p' ts : zlen (ents p (spliced size ts)) = zlen (ents p' ts).
Proof.
  unfold spliced, rescale. rewrite (zlen_perm _ _ (ents_resized p (fun t => rescaled _ _ (i_size (tinfo t))) ts)).
  rewrite (zlen_perm _ _ (ents_heads p' ts)), !zlen_app, zlen_fmap. unfold heads. by rewrite zlen_fmap.
Qed.
Lemma zlen_around C ids ids' : zlen (around C ids) = zlen (around C ids').
Proof. destruct C; [done|]. cbn [around]. rewrite !zlen_cons, !zlen_app. lia. Qed.

Lemma splice_children (ls rs ids : list Id) id :
  take (Z.to_nat (zlen ls)) (ls ++ [id] ++ rs) ++ ids ++ drop (Z.to_nat (zlen ls + 1)) (ls ++ [id] ++ rs) = ls ++ ids ++ rs.
Proof.
  assert (Hd : drop (Z.to_nat (zlen ls + 1)) (ls ++ [id] ++ rs) = rs).
  { rewrite app_assoc. apply drop_app_length'.
    rewrite length_app. unfold zlen. simpl. lia. }
  rewrite Hd. f_equal. unfold zlen. by rewrite Nat2Z.id, take_app_length.
Qed.

Lemma splice_ok k st f C id i axis ts :
  let t := TSplit id i axis ts in
  sized (entries None (plug (f :: C) t)) -> zlen (entries None (plug (f :: C) t)) < region_max ->
  owns k (regions st) (entries None (plug (f :: C) t)) ->
  returns (splice id (f_id f) axis (i_size i) (tid <$> ts) (zlen (f_left f)))
    (fun _ st' => regions_become k st (entries None (plug C (plug1 f (spliced (i_size i) ts)))) st') st.
Proof.
  intros t Hsz Hlen Ho. subst t. pose proof (entries_plug (f :: C) (TSplit id i axis ts)) as He.
  rewrite (entries_unfold (cparent _)) in He. unfold below in He.
  cbn [tid kids] in He. rewrite (ents_heads _ ts) in He. rewrite <- app_comm_cons, <- app_assoc in He.
  apply (owns_perm _ _ _ _ He) in Ho. apply (sized_perm _ _ He) in Hsz. rewrite (zlen_perm _ _ He) in Hlen.
  cbn [around cparent head fmap option_fmap option_map] in *.
  set (pr := mkRegion (cparent C) _ _ _) in *.
  set (rest := ents (Some (f_id f)) (f_left f ++ f_right f) ++ around C [f_id f]) in *.
  set (bel := concat (below <$> ts)) in *.
  apply Forall_cons in Hsz as [Hi Hsz]. apply sized_app in Hsz as [Hh Hsz].
  rewrite zlen_cons, zlen_app in Hlen. pose proof (zlen_nonneg (bel ++ (f_id f, pr) :: rest)).
  pose proof (sizes_bounds _ Hh) as Hb. pose proof (proj1 (sized_heads _ _) Hh) as Hts.
  unfold splice. apply returns_bind. eapply region_mut_ok; [exact Ho|]. intros p1 Ho1.
  apply returns_bind. eapply returns_mono.
  { eapply (reparent_loop (Some id) _ ts); [| |].
    - unfold size_max, region_max in *. lia.
    - eapply Forall_impl; [exact Hts|]. intros u Hu. simpl in Hu. lia.
    - eapply owns_perm; [|exact Ho1]. apply Permutation_middle. }
  intros tot st1 [-> (p2&->&Ho2)]. cbn [regions set_regions] in *.
  apply returns_bind. rewrite (sizes_heads _ None). eapply returns_mono.
  { eapply (rescale_loop (Some (f_id f))); [exact Hi|exact Hts| |exact Ho2].
    intros Hne%zlen_pos. rewrite (sizes_heads _ None), zlen_heads in Hb. lia. }
  intros _ st1 (p3&->&Ho3). cbn [regions set_regions] in *.
  match type of Ho3 with owns _ _ (?l ++ ?h :: _) => set (top := l) in *; set (hd := h) in * end.
  assert (Hp : top ++ hd :: bel ++ (f_id f, pr) :: rest ≡ₚ (f_id f, pr) :: hd :: top ++ bel ++ rest).
  { rewrite <- Permutation_middle, !(app_assoc top bel), <- (Permutation_middle (top ++ bel)). apply perm_swap. }
  apply (owns_perm _ _ _ _ Hp) in Ho3.
  apply returns_bind. eapply (split_get_ok k _ _ _ pr); [exact Ho3|left|reflexivity|].
  cbn [s_children s_axis]. rewrite <- (zlen_fmap tid (f_left f)), splice_children.
  apply returns_bind. eapply region_mut_ok; [exact Ho3|]. intros p4 Ho4.
  apply returns_bind. eapply region_remove_ok.
  { cbn [regions set_regions]. eapply owns_perm; [|exact Ho4]. apply perm_swap. }
  intros p5 Ho5. apply returns_ret. exists p5. split; [done|]. eapply owns_perm; [|exact Ho5].
  rewrite entries_plug1. unfold spliced, rescale. rewrite tids_resized, ents_resized.
  cbn [around]. fold rest. fold bel. rewrite <- (Permutation_middle (_ ++ bel)), <- app_assoc. done.
Qed.

(** The context of a node in the pool. *)
Lemma node_entry C t : (tid t, head_region (cparent C) t) ∈ entries None (plug C t).
Proof. rewrite entries_plug, entries_unfold. left. Qed.
Lemma parent_entry f C t :
  (f_id f, head_region (cparent C) (plug1 f [t])) ∈ entries None (plug (f :: C) t).
Proof. apply (node_entry C (plug1 f [t])). Qed.

Lemma node_position k p f C t :
  owns k p (entries None (plug (f :: C) t)) ->
  position (tid t) (tid <$> f_left f ++ [t] ++ f_right f) = Some (zlen (f_left f)).
Proof.
  intros Hnd%owns_nodup. rewrite entries_plug, entries_unfold in Hnd. rewrite fmap_app. cbn [fmap list_fmap app].
  rewrite position_app; [by rewrite zlen_fmap|].
  cbn [fmap list_fmap fst app] in Hnd. apply NoDup_cons in Hnd as [Hn _].
  intros Hin. apply Hn. rewrite fmap_app, elem_of_app. right. cbn [around fmap list_fmap fst].
  right. rewrite ents_app, !fmap_app, !elem_of_app. left. left.
  rewrite (ents_heads _ (f_left f)), fmap_app, elem_of_app, heads_ids. by left.
Qed.

(** After a merge. *)
Lemma spliced_post k st f C id i axis ts p :
  let t := TSplit id i axis ts in
  let T' := plug C (plug1 f (spliced (i_size i) ts)) in
  sized (entries None (plug (f :: C) t)) ->
  owns k p (entries None T') ->
  (1 < zlen ts -> f_axis f = axis) ->
  step_post k st (plug (f :: C) t) (normal_ctx (f :: C) /\ nearly_normal t)
    (match tid <$> ts with [] => Some (f_id f) | [child] => Some child | _ => None end)
    (with_tree st p T').
Proof.
  intros t T' Hsz Ho Hax. pose proof (entries_plug (f :: C) t) as He. pose proof (entries_plug1 f C (spliced (i_size i) ts)) as He'.
  assert (Hlen : zlen (entries None T') = zlen (entries None (plug (f :: C) t)) - 1).
  { subst T'. rewrite (zlen_perm _ _ He), (zlen_perm _ _ He'), !zlen_app, (zlen_around _ _ [tid t]).
    rewrite (entries_unfold _ t), zlen_cons. unfold below. cbn [t tid kids]. rewrite (zlen_ents_spliced _ _ (Some id)). lia. }
  assert (Hsz' : sized (entries None T')).
  { subst T'. eapply sized_perm; [symmetry; exact He'|]. apply (sized_perm _ _ He), sized_app in Hsz as [Ht Hr].
    apply sized_app. split.
    - pose proof (sized_entries_head _ _ Ht) as Hi. rewrite entries_unfold in Ht. apply Forall_cons in Ht as [_ Ht].
      unfold below in Ht. cbn [t tid kids] in Ht. eapply sized_perm in Ht; [|apply ents_heads].
      apply sized_app in Ht as [Hh Hb]. apply sized_spliced; [done|by eapply sized_heads|done].
    - unfold sized in *. cbn [around] in *. apply Forall_cons in Hr as [Hp Hr]. by apply Forall_cons. }
  exists p, T'. split; [done|]. split; [done|].
  split; [subst T' t; by rewrite (leaves_plug (f :: C)), leaves_plug1, leaves_split, leaves_spliced|]. split; [done|]. split; [lia|].
  split.
  { intros gone. apply arranged_splice; [apply arranged_resized|].
    destruct (Z.ltb_spec 1 (zlen ts)); [left; by apply Hax|right; lia]. }
  destruct ts as [|c [|c' ts]]; cbn [fmap list_fmap].
  - exists C, (plug1 f []). split; [done|]. split; [done|]. split; [lia|]. by intros [_ [? _]].
  - exists (f :: C), (rescale (i_size i) (sizes (heads None [c]).*2) c).
    split; [done|]. split; [symmetry; apply tid_set_tree_size|]. split; [lia|].
    intros [HC (_&[Hc _]%Forall_cons&_)]. split; [done|]. by apply normal_nearly, normal_set_tree_size.
  - intros [HC (_&Hn&Ha)]. destruct HC as (_&[Hnl Hnr]%Forall_app&[Hal Har]%Forall_app&Hf&HC).
    rewrite <- Hax in Ha by (rewrite !zlen_cons; pose proof (zlen_nonneg ts); lia).
    apply normal_plug; [done| |done]. constructor.
    + rewrite !zlen_app. unfold spliced. rewrite zlen_fmap, !zlen_cons.
      pose proof (zlen_nonneg (f_left f)). pose proof (zlen_nonneg (f_right f)). pose proof (zlen_nonneg ts). lia.
    + rewrite !Forall_app. split; [done|]. split; [by apply normal_resized|done].
    + rewrite !Forall_app. split; [done|]. split; [by apply axes_resized|done].
Qed.

(** Nothing to do. *)
Lemma stop_post k st C t :
  in_tree k st (plug C t) -> sized (entries None (plug C t)) ->
  (normal_ctx C /\ nearly_normal t -> normal (plug C t)) ->
  step_post k st (plug C t) (normal_ctx C /\ nearly_normal t) None st.
Proof.
  intros Hin Hsz Hn. exists (regions st), (plug C t). split; [by eapply in_tree_with|].
  split; [apply Hin|]. split; [done|]. split; [done|]. split; [lia|]. by split.
Qed.

(** The merge of a split into its parent. *)
Lemma merge_step_ok k st f C id i axis ts :
  let t := TSplit id i axis ts in
  in_tree k st (plug (f :: C) t) -> fine (plug (f :: C) t) ->
  returns (simplify_step id) (step_post k st (plug (f :: C) t) (normal_ctx (f :: C) /\ nearly_normal t)) st.
Proof.
  intros t Hin (Hsz&Hlen&_). pose proof Hin as [Ho Hroot].
  apply returns_bind. eapply region_get_ok; [exact Ho|apply (node_entry _ t)|].
  cbn [t head_region r_content r_parent cparent head fmap option_fmap option_map].
  apply returns_bind. eapply region_get_ok; [exact Ho|apply parent_entry|].
  apply returns_bind. eapply returns_opt; [reflexivity|]. cbn [s_axis s_children].
  rewrite zlen_fmap. case_match eqn:Hc.
  - apply returns_ret. apply stop_post; [done|done|]. intros [HC (Hne&Hn&Ha)].
    apply andb_true_iff in Hc as [Hax%negb_true_iff%Z.eqb_neq Hts%Z.ltb_lt].
    apply normal_plug; [done|constructor; [lia|done|done]|]. simpl. congruence.
  - apply returns_bind. eapply returns_opt; [exact (node_position _ _ _ _ _ Ho)|].
    apply returns_bind. eapply returns_mono; [by apply splice_ok|].
    intros _ st' (p&->&Hp). apply returns_ret.
    assert (Hst : set_regions p st = with_tree st p (plug C (plug1 f (spliced (i_size i) ts)))).
    { unfold set_regions, with_tree. f_equal. rewrite Hroot. cbn [plug]. by apply plug_root. }
    rewrite Hst. apply (spliced_post _ _ _ _ _ _ axis); [done|done|]. intros Hts.
    destruct (Z.eqb_spec (f_axis f) axis); [done|]. simpl in Hc. by rewrite (proj2 (Z.ltb_lt _ _)) in Hc.
Qed.

(** The root with a single child makes way for it. *)
Lemma root_step_ok k st id i axis ts :
  let t := TSplit id i axis ts in
  in_tree k st t -> fine t ->
  returns (simplify_step id) (step_post k st t (normal_ctx [] /\ nearly_normal t)) st.
Proof.
  intros t Hin (Hsz&Hlen&Hlv). pose proof Hin as [Ho Hroot].
  apply returns_bind. eapply region_get_ok; [exact Ho|apply (node_entry [] t)|].
  cbn [t head_region r_content r_parent cparent head fmap option_fmap option_map].
  apply returns_bind, returns_get.
  apply returns_bind. eapply returns_assert; [by apply bool_decide_eq_true|].
  cbn [s_children]. destruct ts as [|c [|c' ts]]; [done| |]; cbn [fmap list_fmap].
  - apply returns_bind, returns_modify. unfold t in Ho, Hsz. rewrite entries_unfold in Ho, Hsz.
    unfold below in Ho, Hsz. cbn [tid kids] in Ho, Hsz. rewrite ents_cons, ents_nil, app_nil_r, (entries_unfold _ c) in Ho, Hsz.
    apply Forall_cons in Hsz as [_ Hsz]. 
    apply returns_bind. eapply region_mut_ok; [eapply owns_perm; [apply perm_swap|exact Ho]|]. intros p1 Ho1.
    apply returns_bind. eapply region_remove_ok; [eapply owns_perm; [apply perm_swap|exact Ho1]|]. intros p2 Ho2.
    apply returns_bind. eapply returns_opt; [done|]. apply returns_ret.
    rewrite head_parent, <- entries_unfold in Ho2. exists p2, c. split; [done|]. split; [done|].
    split; [unfold t; by rewrite leaves_split, leaves_of_cons, app_nil_r|].
    assert (Hl : zlen (entries None t) = zlen (entries None c) + 1).
    { rewrite (entries_unfold _ t), (entries_unfold _ c), !zlen_cons. unfold below at 1. cbn [t tid kids].
      rewrite ents_cons, ents_nil, app_nil_r, entries_unfold, zlen_cons. lia. }
    split; [|split; [lia|split; [intros gone; symmetry; apply arranged_single|intros [_ (_&[Hn _]%Forall_cons&_)]; done]]].
    rewrite entries_unfold. apply Forall_cons in Hsz as [Hc Hsz]. apply Forall_cons. split; [|done].
    simpl in *. by rewrite head_size in *.
  - apply returns_ret. apply (stop_post k st [] t); [done|done|]. intros [_ (_&Hn&Ha)].
    constructor; [|done|done]. rewrite !zlen_cons. pose proof (zlen_nonneg ts). lia.
Qed.

Lemma simplify_step_ok k st C t :
  in_tree k st (plug C t) -> fine (plug C t) ->
  returns (simplify_step (tid t)) (step_post k st (plug C t) (normal_ctx C /\ nearly_normal t)) st.
Proof.
  destruct t as [id i l|id i axis ts].
  - intros Hin (Hsz&_). apply returns_bind. eapply region_get_ok; [exact (proj1 Hin)|apply (node_entry C (TLeaf id i l))|].
    apply returns_ret. apply stop_post; [done|done|]. intros [HC _].
    apply normal_plug; [done|constructor|by destruct C].
  - destruct C as [|f C]; [apply root_step_ok|apply merge_step_ok].
Qed.

(** The loop: the tree at the end. *)
Definition simplified (k : Z) st (T : tree) (was_nearly : Prop) st' : Prop :=
  exists (p : Pool Region) T', st' = with_tree st p T' /\ owns k p (entries None T') /\
    leaves T' = leaves T /\ sized (entries None T') /\ zlen (entries None T') <= zlen (entries None T) /\
    (was_nearly -> normal T') /\ (forall gone, arranged gone T' = arranged gone T).

Lemma simplify_loop_ok fuel k st C t :
  zlen (entries None (plug C t)) < Z.of_nat fuel ->
  in_tree k st (plug C t) -> fine (plug C t) ->
  returns (simplify_loop fuel (tid t)) (fun _ => simplified k st (plug C t) (normal_ctx C /\ nearly_normal t)) st.
Proof.
  revert st C t. induction fuel as [|fuel IH]; intros st C t Hf Hin Hfine.
  { pose proof (zlen_nonneg (entries None (plug C t))). lia. }
  cbn [simplify_loop]. apply returns_bind. eapply returns_mono; [by apply simplify_step_ok|].
  intros next st1 (p&T'&->&Ho&Hlv&Hsz&Hlen&Har&Hnext). destruct next as [id|].
  - destruct Hnext as (C'&t'&->&->&Hlt&Hn). eapply returns_mono; [apply (IH _ C' t')|].
    + lia.
    + done.
    + destruct Hfine as (_&?&?). split; [done|]. rewrite Hlv. split; [lia|done].
    + intros _ st2 (p'&T2&->&Ho2&Hlv2&Hsz2&Hlen2&Hn2&Har2). exists p', T2.
      split; [done|]. split; [done|]. split; [congruence|]. split; [done|]. split; [lia|].
      split; [auto|]. intros gone. by rewrite Har2.
  - apply returns_ret. exists p, T'. auto 10.
Qed.

Lemma simplify_splits_ok k st C t :
  in_tree k st (plug C t) -> fine (plug C t) ->
  returns (simplify_splits (tid t)) (fun _ => simplified k st (plug C t) (normal_ctx C /\ nearly_normal t)) st.
Proof.
  intros Hin Hfine. apply returns_bind, returns_get. apply simplify_loop_ok; [|done|done].
  destruct Hin as [[Ho _] _]. apply owned_length in Ho. unfold zlen. lia.
Qed.
End Step.
