(* ===== verification/LayoutSpec.v ===== *)
(** [Layout::split] and [Layout::remove_leaf] of src/layout.rs on the tree of
    regions: what they return, the leaves they leave and that the tree stays
    normal. *)
From Stdlib Require Import ZArith Lia.
From stdpp Require Import base list gmap sets.
From S2P Require Import Prelude Pool PoolOwned Floats Errors StateMonad Tabs Rect Layout LayoutTree LayoutSimplify.
Open Scope Z_scope.

Implicit Types (ts : list tree).

Lemma sfold_app {S E A B} (l1 l2 : list A) (b : B) (f : B -> A -> stm S E B) (s : S) :
  sfold (l1 ++ l2) b f s = (sfold l1 b f ≫= fun b => sfold l2 b f) s.
Proof.
  revert b s. induction l1 as [|x l1 IH]; intros b s; [done|]. cbn [sfold app].
  rewrite !stm_bind_run. destruct (f b x s) as [[b'| |] s']; [|done|done].
  rewrite IH. by rewrite stm_bind_run.
Qed.
Lemma returns_sfold_app {S E A B} (l1 l2 : list A) (b : B) (f : B -> A -> stm S E B) (Q : B -> S -> Prop) (s : S) :
  returns (sfold l1 b f) (fun b => returns (sfold l2 b f) Q) s -> returns (sfold (l1 ++ l2) b f) Q s.
Proof. intros H. unfold returns. rewrite sfold_app. by apply returns_bind in H. Qed.

(** ** The sizes between walls *)

Definition child_size (walls : list f64) (i : Z) : Z :=
  let start := if i =? 0 then f64_zero else default f64_zero (zget walls (i - 1)) in
  let end_ := if i <? zlen walls then default f64_zero (zget walls i) else f64_one in
  Z.max (f64_to_int 0 U64_MAX (f64_mul (f64_sub end_ start) (f64_of_int 1000000))) 1.

(** The assertions of [split]. *)
Definition wall_ok (walls : list f64) (i : Z) : bool :=
  match zget walls i, zget walls (i - 1) with
  | Some w, Some w' => f64_ge w w' && f64_le w f64_one && f64_ge w' f64_zero
  | _, _ => false
  end.
Definition walls_ok (walls : list f64) : bool :=
  forallb (wall_ok walls) (seqZ 1 (zlen walls - 1)) &&
  forallb (fun i => child_size walls i <=? size_max) (seqZ 0 (zlen walls + 1)).

Section Split.
Context `{!WindowContent}.
Implicit Types (st : Layout).

Lemma split_child_size_ok walls i (Q : Z -> Layout -> Prop) st :
  0 <= i <= zlen walls -> Q (child_size walls i) st -> returns (split_child_size walls i) Q st.
Proof.
  intros Hi HQ. unfold split_child_size, child_size in *. apply returns_bind.
  assert (Hs : forall (b : bool) x j (Q : f64 -> Layout -> Prop),
    (b = false -> 0 <= j < zlen walls) -> Q (if b then x else default f64_zero (zget walls j)) st ->
    returns (E:=Error) (if b then mret x else sopt (zget walls j)) Q st).
  { intros b x j Q0 Hj HQ0. destruct b; [by apply returns_ret|].
    destruct (proj2 (zget_range walls j) (Hj eq_refl)) as [w Hw]. rewrite Hw in *. by eapply returns_opt. }
  apply Hs; [intros Hb; zbool; lia|]. apply returns_bind.
  destruct (Z.ltb_spec i (zlen walls)).
  - destruct (proj2 (zget_range walls i)) as [w Hw]; [lia|]. rewrite Hw in *. by eapply returns_opt.
  - by apply returns_ret.
Qed.

Lemma check_walls_ok walls js (Q : unit -> Layout -> Prop) st :
  forallb (wall_ok walls) js = true -> Q tt st -> returns (sfor js (check_wall walls)) Q st.
Proof.
  intros Hw HQ. induction js as [|i js IH]; [by apply returns_ret|].
  cbn [forallb] in Hw. apply andb_true_iff in Hw as [Hi Hw]. apply returns_bind.
  unfold wall_ok in Hi. destruct (zget walls i) as [w|] eqn:E; [|done].
  destruct (zget walls (i - 1)) as [w'|] eqn:E'; [|done]. rewrite !andb_true_iff in Hi. destruct Hi as [[H1 H2] H3].
  apply returns_bind. eapply returns_opt; [exact E|]. apply returns_bind. eapply returns_opt; [exact E'|].
  do 2 (apply returns_bind; eapply returns_assert; [done|]). eapply returns_assert; [done|]. by apply IH.
Qed.

(** *** The children of the new split *)

Definition new_leaf (s : Z) (id : Id) : tree := TLeaf id (mkInfo s Rect_default) RegionLeaf_default.
Definition new_leaves (walls : list f64) (js : list Z) (ids : list Id) : list tree :=
  zip_with (fun j id => new_leaf (child_size walls j) id) js ids.

Lemma tid_new_leaves walls js ids : length ids = length js -> tid <$> new_leaves walls js ids = ids.
Proof.
  revert ids. induction js as [|j js IH]; intros [|id ids]; simpl; try done. intros [= Hl]. f_equal. by apply IH.
Qed.

Lemma add_leaves walls e region_id new_id js children l k st :
  Forall (fun j => j <> e /\ 0 <= j <= zlen walls) js -> k + zlen js < 2 ^ 64 ->
  owns k (regions st) l ->
  returns (sfold js children (split_body walls e region_id new_id))
    (fun cs st' => exists ids, length ids = length js /\ cs = children ++ ids /\
       exists p, st' = set_regions p st /\ owns (k + zlen js) p (ents (Some new_id) (new_leaves walls js ids) ++ l)) st.
Proof.
  intros Hjs. revert children l k st. induction Hjs as [|j js [Hj Hr] _ IH]; intros children l k st Hk Ho.
  - apply returns_ret. exists []. split; [done|]. split; [by rewrite app_nil_r|]. exists (regions st).
    rewrite zlen_nil, Z.add_0_r. split; [by destruct st|done].
  - rewrite zlen_cons in Hk. pose proof (zlen_nonneg js). cbn [sfold]. apply returns_bind, returns_bind.
    apply split_child_size_ok; [done|]. rewrite (proj2 (Z.eqb_neq _ _)) by done.
    apply returns_bind. eapply region_add_ok; [exact Ho|lia|]. intros id p1 Ho1. apply returns_ret.
    eapply returns_mono; [eapply (IH _ _ (k + 1)); [lia|exact Ho1]|].
    intros cs st' (ids&Hlen&->&p2&->&Ho2). exists (id :: ids). simpl. split; [by rewrite Hlen|].
    split; [by rewrite <- app_assoc|]. exists p2. split; [done|]. rewrite zlen_cons, Z.add_assoc.
    eapply owns_perm; [|exact Ho2]. rewrite <- Permutation_middle. done.
Qed.

(** The tree with a new split in place of the focus, before it is simplified. *)
Definition split_tree (walls : list f64) (e axis : Z) (new_id : Id) (ids1 ids2 : list Id) (t : tree) : tree :=
  TSplit new_id (mkInfo (i_size (tinfo t)) Rect_default) axis
    (new_leaves walls (seqZ 0 e) ids1 ++ [set_tree_size (child_size walls e) t] ++
     new_leaves walls (seqZ (e + 1) (zlen walls - e)) ids2).

Lemma seqZ_split n e : 0 <= e <= n -> seqZ 0 (n + 1) = seqZ 0 e ++ e :: seqZ (e + 1) (n - e).
Proof.
  intros He. replace (n + 1) with (e + (n + 1 - e)) by lia. rewrite seqZ_app by lia. f_equal.
  rewrite Z.add_0_l, seqZ_S by lia. do 2 f_equal. lia.
Qed.

Lemma split_children_ok walls e new_id t par l k st :
  0 <= e <= zlen walls -> k + zlen walls < 2 ^ 64 ->
  owns k (regions st) ((tid t, head_region par t) :: l) ->
  returns (sfold (seqZ 0 (zlen walls + 1)) [] (split_body walls e (tid t) new_id))
    (fun cs st' => exists ids1 ids2, zlen ids1 = e /\ zlen ids2 = zlen walls - e /\ cs = ids1 ++ [tid t] ++ ids2 /\
       exists p, st' = set_regions p st /\
         owns (k + zlen walls) p
           ((tid t, head_region par (set_tree_size (child_size walls e) t)) ::
            ents (Some new_id) (new_leaves walls (seqZ 0 e) ids1) ++
            ents (Some new_id) (new_leaves walls (seqZ (e + 1) (zlen walls - e)) ids2) ++ l)) st.
Proof.
  intros He Hk Ho. rewrite (seqZ_split _ _ He). apply returns_sfold_app.
  assert (Hl : forall a n, 0 <= n -> zlen (seqZ a n) = n) by (intros; unfold zlen; rewrite length_seqZ; lia).
  eapply returns_mono.
  { eapply (add_leaves _ _ _ _ _ _ _ k); [|rewrite Hl; lia|exact Ho]. apply Forall_forall. intros j Hj%elem_of_seqZ. lia. }
  intros cs st1 (ids1&Hlen1&->&p1&->&Ho1). cbn [sfold app]. apply returns_bind, returns_bind.
  apply split_child_size_ok; [done|]. rewrite Z.eqb_refl. apply returns_bind. rewrite Hl in Ho1 by lia.
  eapply region_mut_ok.
  { cbn [regions set_regions]. eapply owns_perm; [|exact Ho1]. symmetry. apply Permutation_middle. }
  intros p2 Ho2. apply returns_ret. eapply returns_mono.
  { eapply (add_leaves _ _ _ _ _ _ _ (k + e)); [|rewrite Hl; lia|exact Ho2]. apply Forall_forall. intros j Hj%elem_of_seqZ. lia. }
  intros cs st2 (ids2&Hlen2&->&p3&->&Ho3). exists ids1, ids2.
  split; [unfold zlen; rewrite Hlen1, length_seqZ; lia|]. split.
  { transitivity (zlen (seqZ (e + 1) (zlen walls - e))); [unfold zlen; by rewrite Hlen2|apply Hl; lia]. }
  split; [by rewrite <- app_assoc|]. exists p3. split; [done|]. rewrite Hl in Ho3 by lia.
  replace (k + e + (zlen walls - e)) with (k + zlen walls) in Ho3 by lia.
  eapply owns_perm; [|exact Ho3]. rewrite <- Permutation_middle, head_set_tree_size. apply Permutation_skip.
  apply Permutation_app_swap_app.
Qed.

(** *** Putting the new split in its place *)

Lemma zset_middle {A} (l1 l2 : list A) x y : zset (l1 ++ [x] ++ l2) (zlen l1) y = l1 ++ [y] ++ l2.
Proof.
  rewrite zset_insert by apply zlen_nonneg. unfold zlen. rewrite Nat2Z.id, <- (Nat.add_0_r (length l1)).
  by rewrite insert_app_r.
Qed.

Definition hole_position (C : list frame) (id : Id) : Prop :=
  match C with
  | [] => True
  | f :: _ => position id ((tid <$> f_left f) ++ [id] ++ (tid <$> f_right f)) = Some (zlen (f_left f))
  end.
Lemma hole_position_ok k p C t : owns k p (entries None (plug C t)) -> hole_position C (tid t).
Proof. destruct C as [|f C]; [done|]. intros Hx%node_position. by rewrite !fmap_app in Hx. Qed.

Lemma replace_child_ok k st C id new_id l :
  hole_position C id ->
  owns k (regions st) (l ++ around C [id]) ->
  returns (replace_child (cparent C) id new_id)
    (fun _ st' => exists p, st' = set_root (match C with [] => new_id | _ => root st end) (set_regions p st) /\
       owns k p (l ++ around C [new_id])) st.
Proof.
  destruct C as [|f C]; intros Hpos Ho; cbn [replace_child cparent head fmap option_fmap option_map].
  - apply returns_modify. exists (regions st). split; [by destruct st|done].
  - cbn [around hole_position] in *.
    match type of Ho with owns _ _ (_ ++ (_, ?r) :: _) => set (pr := r) in * end.
    apply (owns_perm _ _ _ _ (symmetry (Permutation_middle _ _ _))) in Ho.
    apply returns_bind. eapply (split_get_ok k _ _ _ pr); [exact Ho|left|reflexivity|]. cbn [s_children s_axis].
    apply returns_bind. eapply returns_opt; [exact Hpos|].
    rewrite <- (zlen_fmap tid (f_left f)), zset_middle.
    eapply region_mut_ok; [exact Ho|]. intros p Hp. exists p. split; [by destruct st|].
    eapply owns_perm; [|exact Hp]. by rewrite <- Permutation_middle.
Qed.

Lemma set_relative_size_parent s p r : set_parent p (set_relative_size s r) = set_relative_size s (set_parent p r).
Proof. done. Qed.

(** [split] up to the simplification of the new region. *)
Lemma split_builds k st C t axis walls e (cont : Id -> list Id -> lay (list Id)) (Q : list Id -> Layout -> Prop) :
  in_tree k st (plug C t) -> top_axis t <> Some axis -> walls_ok walls = true ->
  0 <= e <= zlen walls -> k + 1 + zlen walls < 2 ^ 64 ->
  (forall p new_id ids1 ids2, zlen ids1 = e -> zlen ids2 = zlen walls - e ->
     let T' := plug C (split_tree walls e axis new_id ids1 ids2 t) in
     owns (k + 1 + zlen walls) p (entries None T') ->
     returns (cont new_id (ids1 ++ [tid t] ++ ids2)) Q (with_tree st p T')) ->
  returns (
    _ ← sfor (seqZ 1 (zlen walls - 1)) (check_wall walls);
    region ← region_get (tid t);
    _ ← sassert (match r_content region with Split split => negb (s_axis split =? axis) | Leaf _ => true end);
    let parent := r_parent region in
    _ ← region_mut (tid t) (set_parent None);
    new_region_id ← region_add (mkRegion parent (Split (mkSplit axis [])) (relative_size region) Rect_default);
    children ← sfold (seqZ 0 (zlen walls + 1)) [] (split_body walls e (tid t) new_region_id);
    new_split ← split_get new_region_id;
    _ ← split_set new_region_id (mkSplit (s_axis new_split) children);
    _ ← region_mut (tid t) (set_parent (Some new_region_id));
    _ ← replace_child parent (tid t) new_region_id;
    cont new_region_id children) Q st.
Proof.
  intros [Ho Hroot] Hax [Hw _]%andb_true_iff He Hk Hcont. pose proof (hole_position_ok _ _ _ _ Ho) as Hpos.
  apply returns_bind, check_walls_ok; [done|].
  apply returns_bind. eapply region_get_ok; [exact Ho|apply node_entry|].
  apply returns_bind, returns_assert.
  { destruct t as [|id i ax ts]; [done|]. simpl in *. apply negb_true_iff, Z.eqb_neq. congruence. }
  assert (Hpar : r_parent (head_region (cparent C) t) = cparent C) by (by destruct t). rewrite Hpar, head_size.
  apply (owns_perm _ _ _ _ (entries_plug C t)) in Ho. rewrite entries_unfold in Ho.
  apply returns_bind. eapply region_mut_ok; [exact Ho|]. intros p1 Ho1. rewrite head_parent in Ho1.
  apply returns_bind. eapply region_add_ok; [exact Ho1|pose proof (zlen_nonneg walls); lia|]. intros new_id p2 Ho2.
  apply returns_bind. eapply returns_mono.
  { eapply (split_children_ok walls e new_id t None _ (k + 1)); [done|lia|].
    cbn [regions set_regions]. eapply owns_perm; [apply perm_swap|exact Ho2]. }
  intros cs st3 (ids1&ids2&Hl1&Hl2&->&p3&->&Ho3).
  match type of Ho3 with owns _ _ ((_, ?r) :: ?a ++ ?b ++ (_, ?nr) :: ?c) =>
    set (hd := r) in *; set (la := a) in *; set (lb := b) in *; set (rest := c) in *; set (newr := nr) in * end.
  assert (Hp : (tid t, hd) :: la ++ lb ++ (new_id, newr) :: rest ≡ₚ (new_id, newr) :: (tid t, hd) :: la ++ lb ++ rest).
  { rewrite (app_assoc la lb ((new_id, newr) :: rest)), <- (Permutation_middle (la ++ lb)), <- app_assoc. apply perm_swap. }
  apply (owns_perm _ _ _ _ Hp) in Ho3.
  apply returns_bind. eapply (split_get_ok _ _ _ _ newr); [exact Ho3|left|reflexivity|].
  apply returns_bind. eapply region_mut_ok; [exact Ho3|]. intros p4 Ho4. cbn [s_axis] in Ho4.
  apply returns_bind. eapply region_mut_ok.
  { cbn [regions set_regions]. eapply owns_perm; [apply perm_swap|exact Ho4]. }
  intros p5 Ho5. apply returns_bind. eapply returns_mono.
  { match type of Ho5 with owns _ _ (?x :: ?y :: _) =>
      apply (replace_child_ok (k + 1 + zlen walls) _ C (tid t) new_id (x :: y :: la ++ lb ++ below t) Hpos) end.
    cbn [regions set_regions]. eapply owns_perm; [|exact Ho5]. cbn [app]. by rewrite <- !app_assoc. }
  intros _ st6 (p6&->&Ho6).
  assert (Hst : forall st', regions st' = p6 -> windows st' = windows st -> active_window st' = active_window st ->
      active_leaf st' = active_leaf st -> root st' = tid (plug C (split_tree walls e axis new_id ids1 ids2 t)) ->
      st' = with_tree st p6 (plug C (split_tree walls e axis new_id ids1 ids2 t))).
  { intros [] ? ? ? ? ?. simpl in *. unfold with_tree. by subst. }
  erewrite Hst; [|done..|].
  - apply Hcont; [done|done|]. eapply owns_perm; [|exact Ho6]. rewrite entries_plug, entries_unfold.
    unfold below at 2, split_tree. cbn [tid kids head_region]. rewrite !ents_app, ents_cons, ents_nil, app_nil_r.
    fold la lb. rewrite !fmap_app, !tid_new_leaves by (apply (inj Z.of_nat); fold (zlen ids1); fold (zlen ids2); rewrite length_seqZ; lia).
    cbn [fmap list_fmap]. rewrite tid_set_tree_size, (entries_unfold _ (set_tree_size _ _)), tid_set_tree_size, below_set_tree_size.
    rewrite <- !app_comm_cons, <- !app_assoc. rewrite perm_swap. apply Permutation_skip.
    unfold hd. rewrite head_parent, <- app_comm_cons, <- Permutation_middle. apply Permutation_skip.
    apply Permutation_app_head. rewrite !app_assoc. apply Permutation_app_tail, Permutation_app_comm.
  - cbn [root set_root set_regions]. destruct C as [|f C]; [done|]. rewrite Hroot. by apply plug_root.
Qed.

Lemma new_leaf_entries p s id : entries p (new_leaf s id) = [(id, mkRegion p (Leaf RegionLeaf_default) s Rect_default)].
Proof. done. Qed.

Lemma new_leaves_facts walls js ids p axis :
  length ids = length js -> Forall (fun j => child_size walls j <= size_max) js ->
  sized (ents p (new_leaves walls js ids)) /\ zlen (ents p (new_leaves walls js ids)) = zlen js /\
  leaves_of (new_leaves walls js ids) = (fun id => (id, RegionLeaf_default)) <$> ids /\
  Forall normal (new_leaves walls js ids) /\ Forall (fun t => top_axis t <> Some axis) (new_leaves walls js ids).
Proof.
  intros Hlen Hjs. revert ids Hlen. induction Hjs as [|j js Hj _ IH]; intros [|id ids] Hlen; try done.
  { by repeat split; try constructor. }
  injection Hlen as Hlen. destruct (IH _ Hlen) as (H1&H2&H3&H4&H5). cbn [new_leaves zip_with].
  change (zip_with _ js ids) with (new_leaves walls js ids).
  rewrite ents_cons, new_leaf_entries, leaves_of_cons, H3. split.
  { apply Forall_cons. split; [|done]. simpl. unfold child_size in *. lia. }
  split; [rewrite zlen_app, H2, !zlen_cons, zlen_nil; lia|]. split; [done|].
  split; apply Forall_cons; (split; [|done]); [constructor|done].
Qed.

Lemma sized_around C ids ids' : sized (around C ids) -> sized (around C ids').
Proof. destruct C; [done|]. cbn [around]. unfold sized. by rewrite !Forall_cons. Qed.

(** The regions of the tree with the new split. *)
Lemma split_tree_facts walls e axis C t new_id ids1 ids2 :
  walls_ok walls = true -> 0 <= e <= zlen walls -> zlen ids1 = e -> zlen ids2 = zlen walls - e ->
  sized (entries None (plug C t)) -> leaves (plug C t) <> [] ->
  zlen (entries None (plug C t)) + zlen walls + 1 < region_max ->
  let T' := plug C (split_tree walls e axis new_id ids1 ids2 t) in
  fine T' /\ zlen (entries None T') = zlen (entries None (plug C t)) + zlen walls + 1 /\
  leaves T' = leaves_left C ++ ((fun id => (id, RegionLeaf_default)) <$> ids1) ++ leaves t ++
              ((fun id => (id, RegionLeaf_default)) <$> ids2) ++ leaves_right C /\
  (normal t -> top_axis t <> Some axis -> nearly_normal (split_tree walls e axis new_id ids1 ids2 t)).
Proof.
  intros [_ Hw]%andb_true_iff He Hl1 Hl2 Hsz Hlv Hlen T'. 
  assert (Hsizes : forall j, 0 <= j <= zlen walls -> child_size walls j <= size_max).
  { intros j Hj. rewrite forallb_forall in Hw. apply Z.leb_le, Hw, list_elem_of_In, elem_of_seqZ. lia. }
  assert (Hl : forall (ids : list Id) a n, zlen ids = n -> length ids = length (seqZ a n)).
  { intros ids a n Hn. rewrite length_seqZ. unfold zlen in Hn. lia. }
  destruct (new_leaves_facts walls (seqZ 0 e) ids1 (Some new_id) axis) as (A1&A2&A3&A4&A5).
  { by apply Hl. } { apply Forall_forall. intros j Hj%elem_of_seqZ. apply Hsizes. lia. }
  destruct (new_leaves_facts walls (seqZ (e + 1) (zlen walls - e)) ids2 (Some new_id) axis) as (B1&B2&B3&B4&B5).
  { by apply Hl. } { apply Forall_forall. intros j Hj%elem_of_seqZ. apply Hsizes. lia. }
  assert (Hz : forall a n, 0 <= n -> zlen (seqZ a n) = n) by (intros; unfold zlen; rewrite length_seqZ; lia).
  rewrite Hz in A2, B2 by lia.
  pose proof (entries_plug C t) as Ht. pose proof (entries_plug C (split_tree walls e axis new_id ids1 ids2 t)) as HT.
  rewrite (entries_unfold _ (split_tree _ _ _ _ _ _ _)) in HT. unfold below in HT.
  cbn [split_tree tid kids] in HT. rewrite !ents_app, ents_cons, ents_nil, app_nil_r in HT.
  rewrite (entries_unfold _ (set_tree_size _ _)), below_set_tree_size in HT.
  rewrite (entries_unfold _ t) in Ht. apply (sized_perm _ _ Ht), Forall_cons in Hsz as [Hs0 [Hs1 Hs2]%sized_app].
  simpl in Hs0. rewrite head_size in Hs0.
  assert (HlT : leaves T' = leaves_left C ++ ((fun id => (id, RegionLeaf_default)) <$> ids1) ++ leaves t ++
              ((fun id => (id, RegionLeaf_default)) <$> ids2) ++ leaves_right C).
  { unfold T', split_tree. rewrite leaves_plug, leaves_split, !leaves_of_app, leaves_of_cons, A3, B3, leaves_set_tree_size.
    change (leaves_of []) with (@nil (Id * RegionLeaf)). by rewrite app_nil_r, <- !app_assoc. }
  assert (HzT : zlen (entries None T') = zlen (entries None (plug C t)) + zlen walls + 1).
  { unfold T'. rewrite (zlen_perm _ _ HT), (zlen_perm _ _ Ht), !zlen_app, !zlen_cons, !zlen_app, zlen_cons, A2, B2.
    rewrite (zlen_around C [new_id] [tid t]). lia. }
  split; [split; [|split; [lia|]]|split; [done|split; [done|]]].
  - eapply sized_perm; [symmetry; exact HT|]. apply sized_app. split; [|by eapply sized_around].
    apply Forall_cons. split; [done|]. apply sized_app. split; [done|]. apply sized_app. split; [|done].
    apply Forall_cons. split; [|done]. simpl. rewrite head_set_tree_size. simpl. split; [|by apply Hsizes].
    unfold child_size. lia.
  - rewrite HlT. rewrite leaves_plug in Hlv. destruct (leaves_left C); [|done]. destruct (leaves t); [|by destruct (fmap _ ids1)].
    destruct (leaves_right C); [done|]. by destruct (fmap _ ids1), (fmap _ ids2).
  - intros Hn Hax. split; [by destruct (new_leaves walls (seqZ 0 e) ids1)|].
    rewrite !Forall_app, !Forall_singleton, axis_set_tree_size. repeat split; try done. by apply normal_set_tree_size.
Qed.

Lemma split_ok k st C t axis walls e :
  in_tree k st (plug C t) -> fine (plug C t) -> normal (plug C t) ->
  top_axis t <> Some axis -> walls_ok walls = true ->
  0 <= e <= zlen walls -> k + 1 + zlen walls < 2 ^ 64 ->
  zlen (entries None (plug C t)) + zlen walls + 1 < region_max ->
  returns (split (tid t) axis walls e)
    (fun cs st' => exists ids1 ids2 p T', zlen ids1 = e /\ zlen ids2 = zlen walls - e /\ cs = ids1 ++ [tid t] ++ ids2 /\
       st' = with_tree st p T' /\ owns (k + 1 + zlen walls) p (entries None T') /\
       leaves T' = leaves_left C ++ ((fun id => (id, RegionLeaf_default)) <$> ids1) ++ leaves t ++
                   ((fun id => (id, RegionLeaf_default)) <$> ids2) ++ leaves_right C /\
       sized (entries None T') /\ zlen (entries None T') <= zlen (entries None (plug C t)) + zlen walls + 1 /\ normal T' /\
       exists new_id, forall gone, arranged gone T' = arranged gone (plug C (split_tree walls e axis new_id ids1 ids2 t))) st.
Proof.
  intros Hin (Hsz&Hlen&Hlv) Hn Hax Hw He Hk Hroom. apply normal_unplug in Hn as (HC&Ht&_).
  unfold split. eapply (split_builds k st C t axis walls e (fun nid cs => _ ← simplify_splits nid; mret cs)); try done.
  intros p new_id ids1 ids2 Hl1 Hl2 T' Ho. subst T'.
  destruct (split_tree_facts walls e axis C t new_id ids1 ids2) as (Hfine&HzT&HlT&Hnear); try done.
  apply returns_bind. eapply returns_mono.
  { apply (simplify_splits_ok (k + 1 + zlen walls) _ C (split_tree walls e axis new_id ids1 ids2 t)); [by split|done]. }
  intros _ st' (p'&T2&->&Ho'&Hlv'&Hsz'&Hlen'&Hn'&Har'). apply returns_ret. exists ids1, ids2, p', T2.
  split; [done|]. split; [done|]. split; [done|]. split; [done|]. split; [done|].
  split; [by rewrite Hlv'|]. split; [done|]. split; [lia|].
  split; [|by exists new_id]. apply Hn'. split; [done|]. by apply Hnear.
Qed.
End Split.

(** ** Removing a leaf *)

(** The same trees with other sizes at their roots. *)
Definition resized (ts ts' : list tree) : Prop :=
  Forall2 (fun t t' => exists s, t' = set_tree_size s t /\ 1 <= s <= size_max) ts ts'.

Lemma resized_facts ts ts' p :
  resized ts ts' ->
  tid <$> ts' = tid <$> ts /\ leaves_of ts' = leaves_of ts /\ zlen ts' = zlen ts /\
  concat (below <$> ts') = concat (below <$> ts) /\ sized (heads p ts') /\
  (Forall normal ts -> Forall normal ts') /\
  (forall axis, Forall (fun t => top_axis t <> Some axis) ts -> Forall (fun t => top_axis t <> Some axis) ts').
Proof.
  induction 1 as [|t t' ts ts' (s&->&Hs) _ IH]; [by repeat split; try constructor|].
  destruct IH as (H1&H2&H3&H4&H5&H6&H7). cbn [fmap list_fmap concat]. rewrite tid_set_tree_size, H1, below_set_tree_size, H4.
  rewrite !leaves_of_cons, leaves_set_tree_size, H2, !zlen_cons, H3. repeat split; try done.
  - cbn [heads fmap list_fmap]. apply Forall_cons. split; [|done]. simpl. by rewrite head_set_tree_size.
  - intros [Ht Hts]%Forall_cons. apply Forall_cons. split; [by apply normal_set_tree_size|auto].
  - intros axis [Ht Hts]%Forall_cons. apply Forall_cons. split; [by rewrite axis_set_tree_size|auto].
Qed.

Lemma resized_arranged ts ts' gone : resized ts ts' -> arranged gone <$> ts' = arranged gone <$> ts.
Proof.
  induction 1 as [|t t' ts ts' (s&->&_) _ IH]; [done|]. cbn [fmap list_fmap]. rewrite arranged_set_tree_size. by f_equal.
Qed.
Lemma resized_app ts1 ts2 ts' :
  resized (ts1 ++ ts2) ts' -> exists ts1' ts2', ts' = ts1' ++ ts2' /\ resized ts1 ts1' /\ resized ts2 ts2'.
Proof. intros Hr. apply Forall2_app_inv_l in Hr as (ts1'&ts2'&?&?&->). eauto. Qed.

Section Remove.
Context `{!WindowContent}.
Implicit Types (st : Layout).

Lemma sum_loop p ts b l k st (Q : Z -> Layout -> Prop) :
  0 <= b -> sized (heads p ts) -> b + sizes (heads p ts).*2 < 2 ^ 64 ->
  owns k (regions st) (heads p ts ++ l) ->
  Q (b + sizes (heads p ts).*2) st ->
  returns (sfold (tid <$> ts) b (fun total id => r ← region_get id; slift (uadd total (relative_size r)))) Q st.
Proof.
  revert b l. induction ts as [|t ts IH]; intros b l Hb Hs Hlt Ho HQ; cbn [fmap list_fmap sfold].
  - apply returns_ret. change (sizes (heads p []).*2) with 0 in HQ. by rewrite Z.add_0_r in HQ.
  - cbn [heads fmap list_fmap snd] in *. fold (heads p ts) in *.
    change (list_fmap _ _ snd (heads p ts)) with ((heads p ts).*2) in *. rewrite sizes_cons, head_size in *.
    apply Forall_cons in Hs as [Ht Hs]. simpl in Ht. rewrite head_size in Ht.
    pose proof (sizes_bounds _ Hs) as Hpos. pose proof (zlen_nonneg (heads p ts)).
    apply returns_bind, returns_bind. eapply region_get_ok; [exact Ho|left|]. rewrite head_size.
    eapply returns_lift; [unfold uadd; by rewrite (proj2 (Z.ltb_lt _ _)) by lia|].
    eapply (IH _ ((tid t, head_region p t) :: l)); [lia|done|lia| |].
    + eapply owns_perm; [|exact Ho]. cbn [app]. apply Permutation_middle.
    + by rewrite <- Z.add_assoc.
Qed.

Lemma share_range b s total :
  0 <= b -> 1 <= s -> b + s <= total ->
  b * 1000000 / total <= (b + s) * 1000000 / total <= 1000000.
Proof.
  intros. split; [apply Z.div_le_mono; lia|]. apply Z.div_le_upper_bound; lia.
Qed.

Lemma renormalize_loop p total ts b l k st :
  0 <= b -> sized (heads p ts) -> b + sizes (heads p ts).*2 <= total -> total * 1000000 < 2 ^ 64 ->
  owns k (regions st) (heads p ts ++ l) ->
  returns (sfold (tid <$> ts) b (renormalize total))
    (fun _ st' => exists ts', resized ts ts' /\ regions_become k st (heads p ts' ++ l) st') st.
Proof.
  revert b l st. induction ts as [|t ts IH]; intros b l st Hb Hs Htot Hlt Ho; cbn [fmap list_fmap sfold].
  - apply returns_ret. exists []. split; [constructor|]. exists (regions st). split; [by destruct st|done].
  - cbn [heads fmap list_fmap snd] in *. fold (heads p ts) in *.
    change (list_fmap _ _ snd (heads p ts)) with ((heads p ts).*2) in *. rewrite sizes_cons, head_size in *.
    apply Forall_cons in Hs as [Ht Hs]. simpl in Ht. rewrite head_size in Ht.
    pose proof (sizes_bounds _ Hs) as Hpos. pose proof (zlen_nonneg (heads p ts)).
    destruct (share_range b (i_size (tinfo t)) total) as [Hd1 Hd2]; [lia..|].
    apply returns_bind, returns_bind. eapply region_get_ok; [exact Ho|left|]. rewrite head_size.
    apply returns_bind. eapply returns_lift; [unfold uadd; by rewrite (proj2 (Z.ltb_lt _ _)) by lia|].
    apply returns_bind. eapply returns_lift; [unfold umul; by rewrite (proj2 (Z.ltb_lt _ _)) by lia|].
    apply returns_bind. eapply returns_lift; [unfold udiv; by rewrite (proj2 (Z.eqb_neq _ _)) by lia|].
    apply returns_bind. eapply returns_lift; [unfold umul; by rewrite (proj2 (Z.ltb_lt _ _)) by lia|].
    apply returns_bind. eapply returns_lift; [unfold udiv; by rewrite (proj2 (Z.eqb_neq _ _)) by lia|].
    apply returns_bind. eapply returns_lift; [unfold usub; by rewrite (proj2 (Z.leb_le _ _)) by lia|].
    apply returns_bind. eapply region_mut_ok; [exact Ho|]. intros p1 Ho1. apply returns_ret.
    set (d := Z.max _ 1) in *. assert (Hd : 1 <= d <= size_max).
    { assert (0 <= b * 1000000 / total) by (apply Z.div_pos; lia). subst d. unfold size_max. lia. }
    clearbody d. eapply returns_mono.
    + apply (IH _ ((tid t, set_relative_size d (head_region p t)) :: l)); [lia|done|lia|done|].
      eapply owns_perm; [|exact Ho1]. cbn [app]. apply Permutation_middle.
    + intros _ st2 (ts'&Hts'&p2&->&Ho2). exists (set_tree_size d t :: ts'). split; [constructor; [by exists d|done]|].
      exists p2. split; [done|]. eapply owns_perm; [|exact Ho2]. cbn [heads fmap list_fmap app].
      rewrite tid_set_tree_size, head_set_tree_size. by rewrite <- Permutation_middle.
Qed.

(** An empty leaf with a parent goes; the parent is simplified. *)
Lemma remove_leaf_ok k st f C id i state :
  let t := TLeaf id i (mkLeaf [] state) in
  in_tree k st (plug (f :: C) t) -> fine (plug (f :: C) t) -> normal (plug (f :: C) t) ->
  leaves_left (f :: C) ++ leaves_right (f :: C) <> [] ->
  returns (remove_leaf id)
    (fun _ st' => exists p T', st' = with_tree st p T' /\ owns k p (entries None T') /\
       leaves T' = leaves_left (f :: C) ++ leaves_right (f :: C) /\
       sized (entries None T') /\ zlen (entries None T') <= zlen (entries None (plug (f :: C) t)) /\ normal T' /\
       forall gone, arranged gone T' = arranged gone (plug C (plug1 f []))) st.
Proof.
  intros t [Ho Hroot] (Hsz&Hlen&_) Hn Hlv. apply normal_unplug in Hn as (HC&_&_).
  pose proof (node_position _ _ _ _ _ Ho) as Hpos. cbn [tid t] in Hpos.
  apply returns_bind. eapply region_get_ok; [exact Ho|apply (node_entry (f :: C) t)|].
  apply returns_bind. eapply returns_opt; [reflexivity|]. cbn [tabs sfor].
  apply returns_bind, returns_ret. apply returns_bind. eapply returns_opt; [reflexivity|].
  apply returns_bind. eapply split_get_ok; [exact Ho|apply parent_entry|reflexivity|]. cbn [s_children s_axis].
  apply returns_bind. eapply returns_opt; [exact Hpos|].
  rewrite !fmap_app. cbn [fmap list_fmap app]. rewrite <- (zlen_fmap tid (f_left f)), vec_remove_app.
  change (list_fmap _ _ tid) with (fmap (M:=list) tid). rewrite <- fmap_app.
  pose proof (entries_plug (f :: C) t) as He. cbn [t entries tid app around cparent head fmap option_fmap option_map] in He.
  set (ts := f_left f ++ f_right f) in *. set (pr := mkRegion (cparent C) _ _ _) in *. set (rest := around C [f_id f]) in *.
  apply (sized_perm _ _ He) in Hsz. rewrite (zlen_perm _ _ He) in Hlen. apply (owns_perm _ _ _ _ He) in Ho.
  apply Forall_cons in Hsz as [_ [Hpr Hsz]%Forall_cons]. eapply sized_perm in Hsz; [|by rewrite ents_heads].
  rewrite <- app_assoc in Hsz. apply sized_app in Hsz as [Hh Hsz]. simpl in Hpr.
  rewrite !zlen_cons, (ents_heads _ ts), <- app_assoc, zlen_app, zlen_heads in Hlen.
  set (bel := concat (below <$> ts)) in *. pose proof (zlen_nonneg (bel ++ rest)).
  assert (Hts : ts <> []) by apply HC. pose proof (sizes_bounds _ Hh) as Hb. rewrite zlen_heads in Hb. apply zlen_pos in Hts as Hts'.
  apply returns_bind. eapply region_mut_ok; [eapply owns_perm; [apply perm_swap|exact Ho]|]. intros p1 Ho1.
  apply returns_bind. eapply region_remove_ok.
  { cbn [regions set_regions]. eapply owns_perm; [apply perm_swap|exact Ho1]. }
  intros p2 Ho2. match type of Ho2 with owns _ _ ((_, ?r) :: _) => set (pr' := r) in * end.
  eapply owns_perm in Ho2; [|rewrite ents_heads, <- app_assoc; apply Permutation_middle].
  unfold size_max, region_max in *.
  apply returns_bind. eapply (sum_loop (Some (f_id f)) ts); [lia|done|lia|exact Ho2|]. rewrite Z.add_0_l.
  apply returns_bind. eapply returns_assert; [apply Z.ltb_lt; lia|].
  apply returns_bind. eapply returns_mono.
  { eapply (renormalize_loop (Some (f_id f)) _ ts); [lia|done|lia|lia|exact Ho2]. }
  intros tot st3 (ts'&Hr&p3&->&Ho3). 
  destruct (resized_facts _ _ (Some (f_id f)) Hr) as (R1&R2&R3&R4&R5&R6&R7).
  destruct (resized_app _ _ _ Hr) as (l'&r'&->&Hl'&Hr').
  set (f' := mkFrame (f_id f) (f_info f) (f_axis f) l' r').
  assert (HE : entries None (plug C (plug1 f' [])) ≡ₚ heads (Some (f_id f)) (l' ++ r') ++ (f_id f, pr') :: bel ++ rest).
  { rewrite entries_plug, entries_unfold. cbn [plug1 tid head_region]. unfold below, plug1. cbn [tid kids app].
    rewrite ents_heads. cbn [f' f_left f_right f_id f_info f_axis]. rewrite R4, R1. fold bel. fold rest.
    rewrite <- app_assoc. subst pr'. unfold set_content, pr. cbn [r_parent relative_size r_area].
    unfold ts. rewrite fmap_app. apply Permutation_middle. }
  assert (Hst : set_regions p3 (set_regions p2 (set_regions p1 st)) = with_tree st p3 (plug C (plug1 f' []))).
  { unfold set_regions, with_tree. cbn [windows active_window active_leaf root]. f_equal. rewrite Hroot. cbn [plug].
    by apply plug_root. }
  rewrite Hst. assert (Hl : leaves (plug C (plug1 f' [])) = leaves_left (f :: C) ++ leaves_right (f :: C)).
  { rewrite leaves_plug1. cbn [leaves_left leaves_right f' f_left f_right app].
    destruct (resized_facts _ _ None Hl') as (_&->&_). by destruct (resized_facts _ _ None Hr') as (_&->&_). }
  destruct HC as (_&Hns&Haxs&Hfa&HC).
  eapply returns_mono; [apply (simplify_splits_ok k _ C (plug1 f' []))|].
  - split; [|done]. eapply owns_perm; [symmetry; exact HE|]. cbn [regions set_regions] in *. done.
  - split; [|split; [|by rewrite Hl]].
    + eapply sized_perm; [symmetry; exact HE|]. apply sized_app in Hsz as [? ?]. apply sized_app. split; [done|].
      apply Forall_cons. split; [done|]. apply sized_app. split; done.
    + rewrite HE, zlen_app, zlen_heads, R3, zlen_cons. unfold region_max. rewrite zlen_app in *. lia.
  - intros _ st' (p4&T'&->&Ho4&Hlv'&Hsz'&Hlen'&Hn'&Har'). exists p4, T'. split; [done|]. split; [done|].
    split; [by rewrite Hlv'|]. split; [done|]. split.
    + etransitivity; [exact Hlen'|]. rewrite HE, (zlen_perm _ _ He), !zlen_cons, (ents_heads _ ts), <- app_assoc.
      rewrite !zlen_app, !zlen_heads, R3, zlen_cons. rewrite zlen_app. fold bel. lia.
    + split; [|intros gone; rewrite Har'; apply arranged_plug, arranged_forest_eq; cbn [f_left f_right f' app];
        by rewrite !fmap_app, (resized_arranged _ _ _ Hl'), (resized_arranged _ _ _ Hr')].
      apply Hn'. split; [done|]. unfold plug1. cbn [nearly_normal f' f_left f_right f_axis app]. split.
      * apply zlen_pos. lia.
      * split; [by apply R6|by apply R7].
Qed.
End Remove.
