(* ===== verification/LayoutMove.v ===== *)
(** Windows in the leaves of the region tree, and [relocate_window] of
    src/layout.rs as an edit of the tree: a window that is dragged ends up where
    the move puts it, in exactly one leaf, every other window stays where it was,
    and the tree is well formed again. *)
From Stdlib Require Import ZArith Lia.
From stdpp Require Import base list gmap sets.
From S2P Require Import Prelude Pool PoolOwned Floats Errors StateMonad Tabs Rect Layout LayoutTree LayoutSimplify LayoutSpec.
Open Scope Z_scope.

Implicit Types (ts : list tree) (L : list (Id * RegionLeaf)).

(** ** Leaves of a tree *)

(** The windows of a list of leaves, each with its leaf, in order. *)
Definition placed_in (e : Id * RegionLeaf) : list (Id * Id) := (fun w => (w, e.1)) <$> tabs e.2.
Definition placed L : list (Id * Id) := concat (placed_in <$> L).

Lemma placed_app L L' : placed (L ++ L') = placed L ++ placed L'.
Proof. unfold placed. by rewrite fmap_app, concat_app. Qed.
Lemma placed_cons e L : placed (e :: L) = placed_in e ++ placed L.
Proof. done. Qed.
Lemma elem_of_placed w id L : (w, id) ∈ placed L <-> exists l, (id, l) ∈ L /\ w ∈ tabs l.
Proof.
  unfold placed. rewrite elem_of_concat. split.
  - intros (ps&Hp&([id' l]&->&Hl)%list_elem_of_fmap). apply list_elem_of_fmap in Hp as (w'&[= -> ->]&Hw). eauto.
  - intros (l&Hl&Hw). exists (placed_in (id, l)). split; [by apply list_elem_of_fmap; eauto|].
    apply list_elem_of_fmap. eauto.
Qed.

Lemma leaves_outer C f : leaves_left (C ++ [f]) = leaves_of (f_left f) ++ leaves_left C /\
  leaves_right (C ++ [f]) = leaves_right C ++ leaves_of (f_right f).
Proof.
  induction C as [|g C [IH1 IH2]]; simpl; [by rewrite !app_nil_r|]. by rewrite IH1, IH2, !app_assoc.
Qed.

Lemma leaves_of_split ts L1 e L2 :
  leaves_of ts = L1 ++ e :: L2 ->
  exists ts1 t ts2 M1 M2, ts = ts1 ++ t :: ts2 /\ leaves t = M1 ++ e :: M2 /\
    L1 = leaves_of ts1 ++ M1 /\ L2 = M2 ++ leaves_of ts2.
Proof.
  revert L1. induction ts as [|t ts IH]; intros L1 Hl; [by destruct L1|]. rewrite leaves_of_cons in Hl.
  apply app_eq_app in Hl as (M&[[Ht Hl]|[-> Hl]]).
  - destruct M as [|m M].
    + destruct (IH [] (symmetry Hl)) as (ts1&t'&ts2&M1&M2&->&Ht'&HL1&->).
      exists (t :: ts1), t', ts2, M1, M2. split; [done|]. split; [done|]. split; [|done].
      rewrite app_nil_r in Ht. rewrite leaves_of_cons, <- app_assoc, <- HL1, app_nil_r. done.
    + injection Hl as <- ->. exists [], t, ts, L1, M. auto.
  - destruct (IH M Hl) as (ts1&t'&ts2&M1&M2&->&Ht'&->&->).
    exists (t :: ts1), t', ts2, M1, M2. split; [done|]. split; [done|]. split; [|done].
    by rewrite leaves_of_cons, app_assoc.
Qed.

(** Every leaf can be focused on. *)
Lemma focus_leaf T L1 id l L2 :
  leaves T = L1 ++ (id, l) :: L2 ->
  exists C i, T = plug C (TLeaf id i l) /\ leaves_left C = L1 /\ leaves_right C = L2.
Proof.
  revert L1 L2. induction T as [id' i l'|id' i axis ts IH] using tree_forest_ind; intros L1 L2 Hl.
  - destruct L1 as [|? []]; [|done..]. injection Hl as -> -> <-. by exists [], i.
  - rewrite leaves_split in Hl. apply leaves_of_split in Hl as (ts1&t&ts2&M1&M2&->&Ht&->&->).
    apply Forall_elt in IH. destruct (IH _ _ Ht) as (C&i'&->&<-&<-).
    exists (C ++ [mkFrame id' i axis ts1 ts2]), i'. rewrite plug_outer.
    destruct (leaves_outer C (mkFrame id' i axis ts1 ts2)) as [-> ->]. done.
Qed.

Lemma normal_leaves T : normal T -> leaves T <> [].
Proof.
  induction T as [|id i axis ts IH] using tree_forest_ind; intros Hn; [done|].
  inversion_clear Hn as [|???? Hl Hns _]. destruct ts as [|t ts]; [rewrite zlen_nil in Hl; lia|].
  rewrite leaves_split, leaves_of_cons. apply Forall_cons in IH as [IH _], Hns as [Ht _].
  specialize (IH Ht). by destruct (leaves t).
Qed.

(** The identifiers of leaves are identifiers of regions. *)
Lemma leaves_sublist p T : (leaves T).*1 `sublist_of` (entries p T).*1.
Proof.
  revert p. induction T as [id i l|id i axis ts IH] using tree_forest_ind; intros p; [done|].
  rewrite leaves_split, entries_unfold. cbn [fmap list_fmap fst]. apply sublist_cons. unfold below. cbn [tid kids].
  induction IH as [|t ts Ht _ IHts]; [done|]. rewrite leaves_of_cons, ents_cons, !fmap_app. by apply sublist_app.
Qed.
Lemma leaves_nodup k p T : owns k p (entries None T) -> NoDup (leaves T).*1.
Proof. intros Ho%owns_nodup. eapply sublist_NoDup; [exact Ho|apply leaves_sublist]. Qed.

(** ** Leaves of a running layout *)

Section Leaves.
Context `{!WindowContent}.
Implicit Types (st : Layout).

(** The state whose windows are [wp] and whose regions form [T]. *)
Definition with_state st (wp : Pool Window) (p : Pool Region) (T : tree) : Layout :=
  mkLayout wp (active_window st) p (tid T) (active_leaf st).

Definition tidy (n : Z) (T : tree) : Prop :=
  sized (entries None T) /\ zlen (entries None T) <= n /\ normal T.

Lemma tidy_fine n T : tidy n T -> n < region_max -> fine T.
Proof. intros (?&?&Hn) ?. split; [done|]. split; [lia|by apply normal_leaves]. Qed.

Lemma read_leaf_ok k st T id l (Q : RegionLeaf -> Layout -> Prop) :
  in_tree k st T -> (id, l) ∈ leaves T -> Q l st -> returns (leaf_get id) Q st.
Proof.
  intros [Ho _] (L1&L2&Hl)%list_elem_of_split HQ.
  destruct (focus_leaf _ _ _ _ _ Hl) as (C&i&->&_). eapply leaf_get_ok; [exact Ho|apply (node_entry C (TLeaf id i l))|reflexivity|done].
Qed.

(** Writing a leaf: only its tabs change. *)
Lemma write_leaf_ok k n st T L1 id l l' L2 (Q : unit -> Layout -> Prop) :
  in_tree k st T -> tidy n T -> leaves T = L1 ++ (id, l) :: L2 ->
  (forall p T', owns k p (entries None T') -> tidy n T' -> leaves T' = L1 ++ (id, l') :: L2 ->
     (forall id' r, is_split (r_content r) -> (id', r) ∈ entries None T -> (id', r) ∈ entries None T') ->
     (forall f, f l = l' -> T' = at_node id (on_leaf f) T) ->
     Q tt (with_tree st p T')) ->
  returns (leaf_set id l') Q st.
Proof.
  intros [Ho Hr] (Hsz&Hlen&Hn) Hl HQ. destruct (focus_leaf _ _ _ _ _ Hl) as (C&i&->&<-&<-).
  pose proof (entries_plug C (TLeaf id i l)) as He. pose proof (entries_plug C (TLeaf id i l')) as He'.
  cbn [entries tid app] in He, He'. apply (owns_perm _ _ _ _ He) in Ho. eapply region_mut_ok; [exact Ho|].
  intros p Hp. assert (Hst : set_regions p st = with_tree st p (plug C (TLeaf id i l'))).
  { unfold set_regions, with_tree. rewrite Hr. f_equal. by apply plug_root. }
  rewrite Hst. apply HQ.
  - eapply owns_perm; [symmetry; exact He'|]. done.
  - apply (sized_perm _ _ He) in Hsz. rewrite He in Hlen. apply normal_unplug in Hn as (HC&_&Hf).
    split; [|split; [|apply normal_plug; [done|constructor|done]]].
    + eapply sized_perm; [symmetry; exact He'|]. unfold sized in *. by rewrite !Forall_cons in *.
    + rewrite He'. by rewrite !zlen_cons in *.
  - by rewrite leaves_plug.
  - intros id' r Hsp. rewrite He, He', !elem_of_cons. intros [[= -> ->]|Hin]; [done|by right].
  - intros f <-. symmetry. apply (at_node_plug C (on_leaf f) (TLeaf id i l)). rewrite He. by apply owns_nodup in Ho.
Qed.
End Leaves.

(** ** Windows and their leaves *)

Section Windows.
Context `{!WindowContent}.
Implicit Types (st : Layout) (wp : Pool Window).

(** Every window that names a region is a tab of that leaf, once, and the
    other way round; except, while it moves, the window [but]. *)
Record windows_ok (but : option Id) wp L : Prop := mkWindowsOk {
  wo_inv : Pool.inv wp;
  wo_once : NoDup (placed L).*1;
  wo_where w id : Some w <> but ->
    (w, id) ∈ placed L <-> exists win, Pool.try_get wp w = Some win /\ w_region win = Some id;
  wo_but w : Some w = but -> w ∉ (placed L).*1
}.

Lemma windows_ok_perm but wp L L' : placed L ≡ₚ placed L' -> windows_ok but wp L -> windows_ok but wp L'.
Proof.
  intros HL [H1 H2 H3 H4]. constructor; [done|by rewrite <- HL| |].
  - intros w id Hw. rewrite <- HL. by apply H3.
  - intros w Hw. rewrite <- HL. by apply H4.
Qed.

Lemma placed_once but wp L w id id' :
  windows_ok but wp L -> (w, id) ∈ placed L -> (w, id') ∈ placed L -> id = id'.
Proof.
  intros Hok H1 H2. pose proof (wo_once _ _ _ Hok) as Hnd.
  apply list_elem_of_split in H1 as (A&B&HA). rewrite HA in H2, Hnd. rewrite fmap_app in Hnd. cbn [fmap list_fmap fst] in Hnd.
  apply NoDup_app in Hnd as (_&Hd&[Hn _]%NoDup_cons).
  apply elem_of_app in H2 as [H2|[[= ->]|H2]%elem_of_cons]; [|done|].
  - exfalso. apply (Hd w); [apply list_elem_of_fmap; by exists (w, id')|left].
  - exfalso. apply Hn. apply list_elem_of_fmap. by exists (w, id').
Qed.

(** The leaf of a window, its place among the tabs, and the rest. *)
Lemma find_window wp L w win id :
  windows_ok None wp L -> Pool.try_get wp w = Some win -> w_region win = Some id ->
  exists L1 l L2 a b, L = L1 ++ (id, l) :: L2 /\ tabs l = a ++ w :: b /\
    w ∉ (placed L1).*1 /\ w ∉ a /\ w ∉ b /\ w ∉ (placed L2).*1.
Proof.
  intros Hok Hw Hid. assert (Hin : (w, id) ∈ placed L) by (apply (wo_where _ _ _ Hok); [done|eauto]).
  apply elem_of_placed in Hin as (l&(L1&L2&->)%list_elem_of_split&(a&b&Hab)%list_elem_of_split).
  pose proof (wo_once _ _ _ Hok) as Hnd. exists L1, l, L2, a, b. split; [done|]. split; [done|].
  rewrite placed_app, placed_cons, !fmap_app in Hnd. unfold placed_in in Hnd. cbn [fst snd] in Hnd.
  rewrite Hab, <- list_fmap_compose in Hnd. unfold compose in Hnd. cbn [fst] in Hnd. rewrite list_fmap_id in Hnd.
  apply NoDup_app in Hnd as (_&Hd1&(H2&Hd2&_)%NoDup_app). apply NoDup_app in H2 as (_&Hd3&[Hn _]%NoDup_cons).
  repeat split; try done.
  - intros Hx. apply (Hd1 w Hx). set_solver.
  - intros Hx. apply (Hd3 w Hx). left.
  - apply (Hd2 w). set_solver.
Qed.

(** The tabs of all leaves in order, without one of them. *)
Definition others (w : Id) L : list Id := filter (fun x => x <> w) (placed L).*1.

Lemma filter_notin (w : Id) (l : list Id) : w ∉ l -> filter (fun x => x <> w) l = l.
Proof.
  induction l as [|x l IH]; intros Hw; [done|]. rewrite filter_cons_True by set_solver. rewrite IH by set_solver. done.
Qed.
Lemma filter_swap (w : Id) (a b : list Id) :
  filter (fun x => x <> w) (a ++ w :: b) = filter (fun x => x <> w) (a ++ b).
Proof. rewrite !filter_app, filter_cons_False; [done|]. by intros ?. Qed.

Lemma placed_tabs id l a b w L1 L2 :
  tabs l = a ++ w :: b ->
  placed (L1 ++ (id, l) :: L2) =
  (placed L1 ++ ((fun x => (x, id)) <$> a)) ++ (w, id) :: ((fun x => (x, id)) <$> b) ++ placed L2.
Proof.
  intros Hl. rewrite placed_app, placed_cons. unfold placed_in. cbn [fst snd]. rewrite Hl, fmap_app.
  cbn [fmap list_fmap]. by rewrite <- !app_assoc.
Qed.
Lemma placed_tabs_without id l a b L1 L2 :
  tabs l = a ++ b ->
  placed (L1 ++ (id, l) :: L2) =
  (placed L1 ++ ((fun x => (x, id)) <$> a)) ++ ((fun x => (x, id)) <$> b) ++ placed L2.
Proof.
  intros Hl. rewrite placed_app, placed_cons. unfold placed_in. cbn [fst snd]. rewrite Hl, fmap_app.
  by rewrite <- !app_assoc.
Qed.

Lemma others_swap w id l l' a b L1 L2 :
  tabs l = a ++ w :: b -> tabs l' = a ++ b ->
  others w (L1 ++ (id, l) :: L2) = others w (L1 ++ (id, l') :: L2).
Proof.
  intros Hl Hl'. unfold others. rewrite (placed_tabs _ _ _ _ _ _ _ Hl), (placed_tabs_without _ _ _ _ _ _ Hl').
  rewrite fmap_app, (fmap_app _ (_ ++ _)). cbn [fmap list_fmap fst]. apply filter_swap.
Qed.

Lemma placed_take w id l l' a b L1 L2 :
  tabs l = a ++ w :: b -> tabs l' = a ++ b ->
  placed (L1 ++ (id, l) :: L2) ≡ₚ (w, id) :: placed (L1 ++ (id, l') :: L2).
Proof.
  intros Hl Hl'. rewrite (placed_tabs _ _ _ _ _ _ _ Hl), (placed_tabs_without _ _ _ _ _ _ Hl').
  by rewrite <- Permutation_middle.
Qed.

(** Taking a window out. *)
Lemma windows_ok_take w wp id l l' a b L1 L2 :
  tabs l = a ++ w :: b -> tabs l' = a ++ b ->
  windows_ok None wp (L1 ++ (id, l) :: L2) -> windows_ok (Some w) wp (L1 ++ (id, l') :: L2).
Proof.
  intros Hl Hl' [H1 H2 H3 _].
  pose proof (placed_take _ id _ _ _ _ L1 L2 Hl Hl') as Hp.
  rewrite Hp in H2. cbn [fmap list_fmap fst] in H2. apply NoDup_cons in H2 as [Hn H2].
  constructor; [done|done| |by intros ? [= ->]].
  intros w' id' Hw. rewrite <- H3 by done. rewrite Hp, elem_of_cons. split; [by right|]. intros [[= -> ->]|?]; done.
Qed.

(** Putting it somewhere. *)
Lemma windows_ok_put w win wp id L L' :
  windows_ok (Some w) wp L -> Pool.try_get wp w = Some win -> placed L' ≡ₚ (w, id) :: placed L ->
  exists wp', Pool.get_mut wp w (set_region (Some id)) = Ret wp' /\ windows_ok None wp' L'.
Proof.
  intros [H1 H2 H3 H4] Hw HL. pose proof (Pool.write_refines wp w (set_region (Some id)) H1) as Hwr.
  rewrite Pool.abs_lookup in Hwr. unfold Pool.get_mut.
  destruct (Pool.try_get_mut wp w (set_region (Some id))) as [wp'|]; [|congruence].
  destruct Hwr as (v&Hv&Hinv&Habs&_). assert (v = win) as -> by congruence.
  assert (Hg : forall w', Pool.try_get wp' w' = if decide (w' = w) then Some (set_region (Some id) win) else Pool.try_get wp w').
  { intros w'. rewrite <- Pool.abs_lookup, Habs. case_decide as Hd; [subst; by rewrite lookup_insert_eq|].
    by rewrite lookup_insert_ne, Pool.abs_lookup. }
  exists wp'. split; [done|]. constructor; [done| | |done].
  - rewrite HL. cbn [fmap list_fmap fst]. constructor; [by apply H4|done].
  - intros w' id' _. rewrite HL, elem_of_cons, Hg. case_decide as Hd.
    + subst w'. split.
      * intros [[= ->]|Hin]; [by eexists|]. exfalso. apply (H4 w); [done|]. apply list_elem_of_fmap. by exists (w, id').
      * intros (win'&[= <-]&[= <-]). by left.
    + rewrite <- H3 by congruence. split; [intros [[= ? ?]|?]; done|by right].
Qed.

Lemma others_notin w L : w ∉ (placed L).*1 -> others w L = (placed L).*1.
Proof. apply filter_notin. Qed.

Lemma window_get_ok st w win (Q : Window -> Layout -> Prop) :
  Pool.try_get (windows st) w = Some win -> Q win st -> returns (window_get w) Q st.
Proof. intros Hw HQ. unfold returns, window_get. srun. unfold Pool.get. rewrite Hw. done. Qed.
Lemma window_mut_ok st w f wp (Q : unit -> Layout -> Prop) :
  Pool.get_mut (windows st) w f = Ret wp -> Q tt (set_windows wp st) -> returns (window_mut w f) Q st.
Proof. intros Hw HQ. unfold returns, window_mut. srun. rewrite Hw. cbn [widen]. srun. done. Qed.
End Windows.

(** ** [relocate_window] *)

Section Relocate.
Context `{!WindowContent}.
Implicit Types (st : Layout) (wp : Pool Window).

(** A state whose regions form [T'] and whose windows are [wp], reached while
    the window [w] moves. *)
Definition moved (k n : Z) (but : option Id) (w : Id) st (T : tree) wp (T' : tree) st' : Prop :=
  exists p, st' = with_state st wp p T' /\ owns k p (entries None T') /\ tidy n T' /\
    windows_ok but wp (leaves T') /\ others w (leaves T') = others w (leaves T).

(** Leaves without tabs were there before, or are in the list [ids]. *)
Definition empties_from (ids : list Id) (T T' : tree) : Prop :=
  forall id l, (id, l) ∈ leaves T' -> tabs l = [] -> (id, l) ∈ leaves T \/ id ∈ ids.

Lemma in_middle {A} (x : A) (l1 l2 : list A) : x ∈ l1 ++ x :: l2.
Proof. rewrite elem_of_app, elem_of_cons. auto. Qed.

(** *** The moves as edits of the tree *)

(** The tabs of a leaf: without the window; with it, selected, before tab [i]
    or at the end; with the window moved there from its place among them. *)
Definition without (w : Id) (l : RegionLeaf) : RegionLeaf :=
  match position w (tabs l) with
  | Some from => mkLeaf (filter (fun x => x <> w) (tabs l)) (closed (tabs_state l) from)
  | None => l
  end.
Definition inserted (w : Id) (i : Z) (l : RegionLeaf) : RegionLeaf :=
  let i := Z.min i (zlen (tabs l)) in mkLeaf (vec_insert (tabs l) i w) (select (tabs_state l) i).
Definition reordered (w : Id) (i : Z) (l : RegionLeaf) : RegionLeaf :=
  match position w (tabs l) with
  | Some from =>
      let i := Z.min i (zlen (tabs l)) in
      mkLeaf (vec_insert (filter (fun x => x <> w) (tabs l)) (if i <=? from then i else i - 1) w)
        (match apply_action (tabs_state l) (Reorder from i) (tabs l) with Ret (_, (s, _)) => s | _ => tabs_state l end)
  | None => l
  end.

(** A leaf of one window; a split with another child before child [i]; a split
    along [axis] of [u] and a node, [u] first if [side] is 0. *)
Definition one_window (id w : Id) : tree := TLeaf id (mkInfo 0 Rect_default) (mkLeaf [w] TabsState_default).
Definition add_child (i : Z) (u t : tree) : tree :=
  match t with TSplit id inf axis ts => TSplit id inf axis (vec_insert ts i u) | TLeaf _ _ _ => t end.
Definition halved (axis side : Z) (u t : tree) : tree :=
  TSplit (tid t) (tinfo t) axis (if side =? 0 then [u; t] else [t; u]).

Definition taken (w : Id) (from : option Id) (T : tree) : tree :=
  match from with Some id => at_node id (on_leaf (without w)) T | None => T end.
Definition put (w region : Id) (r : WindowRelocation) (new : Id) (T : tree) : tree :=
  match r with
  | AddTab i => at_node region (on_leaf (inserted w i)) T
  | AddToExistingSplit i => at_node region (add_child i (one_window new w)) T
  | SplitLeaf axis side => at_node region (halved axis side (one_window new w)) T
  end.

(** The arrangement after the window [w] of the leaf [from] was moved. A leaf
    that it leaves empty does not count. *)
Definition rearranged (w : Id) (from : option Id) (region : Id) (r : WindowRelocation) (new : Id) (T : tree) : arrangement :=
  match r with
  | AddTab i =>
      if decide (from = Some region) then arranged None (at_node region (on_leaf (reordered w i)) T)
      else arranged from (put w region r new (taken w from T))
  | _ => arranged from (put w region r new (taken w from T))
  end.

Lemma without_one w l a b :
  tabs l = a ++ w :: b -> w ∉ a -> w ∉ b -> without w l = mkLeaf (a ++ b) (closed (tabs_state l) (zlen a)).
Proof.
  intros Hl Ha Hb. unfold without. rewrite Hl, position_app, filter_swap, filter_notin by (done || set_solver). done.
Qed.
Lemma reordered_one w i l a b c s1 to :
  tabs l = a ++ w :: b -> w ∉ a -> w ∉ b -> to = Z.min i (zlen (tabs l)) ->
  apply_action (tabs_state l) (Reorder (zlen a) to) (tabs l) = Ret (c, (s1, vec_insert (a ++ b) (if to <=? zlen a then to else to - 1) w)) ->
  reordered w i l = mkLeaf (vec_insert (a ++ b) (if to <=? zlen a then to else to - 1) w) s1.
Proof.
  intros Hl Ha Hb -> Hap. unfold reordered. rewrite Hl at 1. rewrite position_app by done. rewrite Hap, Hl.
  rewrite filter_swap, filter_notin by set_solver. done.
Qed.

(** Taking the window out of its leaf. *)
Definition detached (k n : Z) st (T : tree) (w region : Id) (r : WindowRelocation) (win : Window)
    (ids : option (list Id)) st' : Prop :=
  match ids with
  | None => exists T', w_region win = Some region /\ moved k n None w st T (windows st) T' st' /\ empties_from [] T T' /\
                exists i, r = AddTab i /\ T' = at_node region (on_leaf (reordered w i)) T
  | Some ids => exists T', moved k n (Some w) w st T (windows st) T' st' /\ empties_from ids T T' /\
      w ∉ (placed (leaves T')).*1 /\ NoDup ids /\ (forall id, id ∈ ids -> w_region win = Some id /\ exists l, (id, l) ∈ leaves T') /\
      ((forall i, r = AddTab i -> region ∉ ids) /\ 
       (leaves T').*1 = (leaves T).*1 /\
       (forall id' x, is_split (r_content x) -> (id', x) ∈ entries None T -> (id', x) ∈ entries None T')) /\
      T' = taken w (w_region win) T /\ (forall id, w_region win = Some id -> id ∈ ids) /\
      (forall i, r = AddTab i -> w_region win <> Some region)
  end.

Lemma empties_swap ids id l l' L1 L2 T T' :
  leaves T = L1 ++ (id, l) :: L2 -> leaves T' = L1 ++ (id, l') :: L2 ->
  (tabs l' = [] -> id ∈ ids) -> empties_from ids T T'.
Proof.
  intros HT HT' Hl' id0 l0 Hin He. rewrite HT' in Hin. rewrite HT.
  apply elem_of_app in Hin as [Hin|[[= -> ->]|Hin]%elem_of_cons]; [left; set_solver|right; auto|left; set_solver].
Qed.

Lemma detach_ok k n st T w win region r :
  in_tree k st T -> tidy n T -> windows_ok None (windows st) (leaves T) ->
  Pool.try_get (windows st) w = Some win -> (forall i, r = AddTab i -> 0 <= i) ->
  returns (detach w region r) (detached k n st T w region r win) st.
Proof.
  intros Hin Htidy Hok Hw Hr. apply returns_bind. eapply window_get_ok; [exact Hw|].
  destruct (w_region win) as [from|] eqn:Hfrom.
  - destruct (find_window _ _ _ _ _ Hok Hw Hfrom) as (L1&l&L2&a&b&HL&Hl&Hn1&Hna&Hnb&Hn2).
    apply returns_bind. eapply (read_leaf_ok _ _ _ _ l); [exact Hin|rewrite HL; apply in_middle|].
    apply returns_bind. eapply returns_opt; [rewrite Hl; by apply position_app|].
    assert (Hrange : 0 <= zlen a < zlen (tabs l)).
    { rewrite Hl, zlen_app, zlen_cons. pose proof (zlen_nonneg a). pose proof (zlen_nonneg b). lia. }
    match goal with |- returns (match ?x with _ => _ end) _ _ => destruct x as [to|] eqn:Hto end.
    + case_decide as Hd; [subst from|done]. destruct r as [i| |]; try done. injection Hto as ->.
      specialize (Hr to eq_refl).
      destruct (reorder_one (tabs_state l) (tabs l) a w b (Z.min to (zlen (tabs l))) Hl) as (c&st1&Hap); [lia|].
      apply returns_bind. eapply returns_lift; [by rewrite Hap|].
      apply returns_bind. eapply write_leaf_ok; [exact Hin|exact Htidy|exact HL|].
      intros p T' Ho Ht' HL' _ Hedit. specialize (Hedit _ (reordered_one _ _ _ _ _ _ _ _ Hl Hna Hnb eq_refl Hap)).
      unfold vec_insert in HL'.
      match type of HL' with context [take ?j _ ++ _] => set (k1 := take j (a ++ b)) in *; set (k2 := drop j (a ++ b)) in * end.
      assert (Hk : k1 ++ k2 = a ++ b) by apply take_drop. clearbody k1 k2. apply returns_ret. exists T'. split; [done|].
      set (mid := mkLeaf (a ++ b) st1). rewrite HL in Hok. split.
      * exists p. split; [done|]. split; [done|]. split; [done|]. rewrite HL'. split.
        -- eapply windows_ok_perm; [|exact Hok]. rewrite (placed_take w region l mid a b) by done.
           symmetry. by apply (placed_take w region _ mid k1 k2).
        -- rewrite HL, (others_swap w region l mid a b) by done. by apply (others_swap w region _ mid k1 k2).
      * split; [|by eexists]. eapply empties_swap; [exact HL|exact HL'|]. cbn [tabs]. by destruct k1.
    + apply returns_bind. eapply returns_lift; [by rewrite close_runs|].
      rewrite Hl, vec_remove_app.
      apply returns_bind. eapply write_leaf_ok; [exact Hin|exact Htidy|exact HL|].
      intros p T' Ho Ht' HL' Hsp Hedit. apply returns_ret. exists T'.
      specialize (Hedit _ (without_one _ _ _ _ Hl Hna Hnb)).
      set (l' := mkLeaf (a ++ b) _) in *. rewrite HL in Hok.
      assert (Hok' : windows_ok (Some w) (windows st) (L1 ++ (from, l') :: L2)) by (by eapply windows_ok_take).
      split; [|split; [|split; [|split; [|split; [|split; [split; [|split]|split; [|split]]]]]]].
      * exists p. split; [done|]. split; [done|]. split; [done|]. rewrite HL'. split; [done|].
        rewrite HL. symmetry. by apply (others_swap w from l l' a b).
      * eapply empties_swap; [exact HL|exact HL'|]. intros _. left.
      * rewrite HL'. by apply (wo_but _ _ _ Hok').
      * apply NoDup_singleton.
      * intros id ->%list_elem_of_singleton. split; [done|]. exists l'. rewrite HL'. apply in_middle.
      * intros i ->. rewrite list_elem_of_singleton. case_decide; congruence.
      * by rewrite HL, HL', !fmap_app.
      * done.
      * by rewrite Hfrom.
      * rewrite Hfrom. intros id [= ->]. left.
      * intros i ->. rewrite Hfrom. intros [= ->]. rewrite decide_True in Hto by done. done.
  - apply returns_ret. exists T.
    assert (Hnot : w ∉ (placed (leaves T)).*1).
    { intros ([w' id]&->&Hp)%list_elem_of_fmap. apply (wo_where _ _ _ Hok) in Hp as (win'&Hw'&Hid); [|done]. simpl in *. congruence. }
    split; [|split; [|split; [done|split; [apply NoDup_nil_2|split; [by intros ? ?%elem_of_nil|split; [split; [|split]|by rewrite Hfrom]]]]]].
    + exists (regions st). destruct Hin as [Ho Hroot]. split; [by apply in_tree_with with k|]. split; [done|]. split; [done|].
      split; [|done]. destruct Hok as [H1 H2 H3 _]. constructor; [done|done| |by intros ? [= ->]].
      intros w' id' _. by apply H3.
    + intros id l Hl _. by left.
    + intros i _. apply not_elem_of_nil.
    + done.
    + done.
Qed.

(** Where a window can be dropped. *)
Definition valid_target (T : tree) (region : Id) (r : WindowRelocation) : Prop :=
  match r with
  | AddTab i => 0 <= i /\ exists l, (region, l) ∈ leaves T
  | AddToExistingSplit i => exists x s, (region, x) ∈ entries None T /\ r_content x = Split s /\ 1 <= i < zlen (s_children s)
  | SplitLeaf axis side => (side = 0 \/ side = 1) /\ exists l, (region, l) ∈ leaves T
  end.

(** The window in its new leaf [id']. *)
Definition placed_at (w region : Id) (r : WindowRelocation) (T T' : tree) (id' : Id) : Prop :=
  exists l', (id', l') ∈ leaves T' /\
    match r with
    | AddTab _ => id' = region /\ zget (tabs l') (selected (tabs_state l')) = Some w
    | _ => id' ∉ (leaves T).*1 /\ tabs l' = [w]
    end.

Definition attached (k n : Z) st (T : tree) (w region : Id) (r : WindowRelocation) (more : list Id) st' : Prop :=
  exists k' wp T' id', k <= k' <= k + 2 /\ moved k' (n + 2) None w st T wp T' st' /\ empties_from [] T T' /\
    placed_at w region r T T' id' /\ more = (match r with AddTab _ => [] | _ => [id'] end) /\
    (forall id l, (id, l) ∈ leaves T -> id <> id' -> (id, l) ∈ leaves T') /\
    (forall gone, gone <> Some id' -> arranged gone T' = arranged gone (put w region r id' T)).

Lemma tidy_mono n n' T : tidy n T -> n <= n' -> tidy n' T.
Proof. intros (?&?&?) ?. split; [done|]. split; [lia|done]. Qed.

(** The last step of all three: the window is told its leaf. *)
Lemma place_ok k n k' st T w win region r wp p T' id' l L1 L2 l0 a b more :
  windows_ok (Some w) wp (leaves T) -> Pool.try_get wp w = Some win ->
  k <= k' <= k + 2 -> owns k' p (entries None T') -> tidy (n + 2) T' ->
  leaves T' = L1 ++ (id', l) :: L2 -> tabs l = a ++ w :: b -> tabs l0 = a ++ b ->
  placed (leaves T) = placed (L1 ++ (id', l0) :: L2) ->
  (forall id l, (id, l) ∈ leaves T -> id <> id' -> (id, l) ∈ leaves T') ->
  (forall id l, (id, l) ∈ L1 ++ L2 -> (id, l) ∈ leaves T) ->
  placed_at w region r T T' id' -> more = (match r with AddTab _ => [] | _ => [id'] end) ->
  (forall gone, gone <> Some id' -> arranged gone T' = arranged gone (put w region r id' T)) ->
  returns (_ ← window_mut w (set_region (Some id')); mret more) (attached k n st T w region r) (with_state st wp p T').
Proof.
  intros Hok Hw Hk Ho Ht HL Hl Hl0 Hp Hkeep Hrest Hat -> Har.
  destruct (windows_ok_put w win wp id' (leaves T) (leaves T') Hok Hw) as (wp'&Hmut&Hok').
  { rewrite HL, Hp. by apply (placed_take w id' l l0 a b). }
  apply returns_bind. eapply window_mut_ok; [exact Hmut|]. apply returns_ret.
  exists k', wp', T', id'. split; [done|]. split; [|split; [|split; [done|split; [done|by split]]]].
  - exists p. split; [done|]. split; [done|]. split; [done|]. split; [done|].
    rewrite HL, (others_swap w id' l l0 a b) by done. unfold others. by rewrite Hp.
  - intros id l1 Hin He. left. rewrite HL in Hin. apply elem_of_app in Hin as [Hin|[[= -> ->]|Hin]%elem_of_cons].
    + apply Hrest, elem_of_app. by left.
    + rewrite Hl in He. by destruct a.
    + apply Hrest, elem_of_app. by right.
Qed.

Lemma attach_tab_ok k n st T w win region i :
  in_tree k st T -> tidy n T -> windows_ok (Some w) (windows st) (leaves T) ->
  Pool.try_get (windows st) w = Some win -> valid_target T region (AddTab i) ->
  returns (attach w region (AddTab i)) (attached k n st T w region (AddTab i)) st.
Proof.
  intros Hin Ht Hok Hw [Hi (l&(L1&L2&HL)%list_elem_of_split)].
  destruct (focus_leaf _ _ _ _ _ HL) as (C&inf&HT&_). apply returns_bind.
  eapply (region_get_ok _ _ _ _ (head_region (cparent C) (TLeaf region inf l))); [exact (proj1 Hin)| |].
  { rewrite HT. apply (node_entry C (TLeaf region inf l)). }
  apply returns_bind. eapply returns_opt; [reflexivity|].
  set (idx := Z.min i (zlen (tabs l))). pose proof (zlen_nonneg (tabs l)).
  destruct (vec_split_at (tabs l) idx) as (a&b&Hab&Hza); [lia|].
  apply returns_bind. eapply write_leaf_ok; [exact Hin|exact Ht|exact HL|]. intros p T' Ho Ht' HL' _ Hedit.
  specialize (Hedit (inserted w i) eq_refl).
  rewrite Hab, <- Hza, vec_insert_app in HL'.
  eapply (place_ok k n k st T w win region (AddTab i) (windows st) p T' region _ L1 L2 l a b);
    [done|done|lia|exact Ho|eapply tidy_mono; [done|lia]|exact HL'|done|done|by rewrite HL| | | |done|by rewrite Hedit].
  - intros id l0 Hl0 Hne. rewrite HL in Hl0. rewrite HL'. rewrite elem_of_app, elem_of_cons in *. naive_solver.
  - intros id l0 Hl0. rewrite HL. rewrite elem_of_app, elem_of_cons in *. naive_solver.
  - eexists. split; [rewrite HL'; apply in_middle|]. split; [done|]. cbn [tabs tabs_state select selected].
    rewrite zget_app, Z.ltb_irrefl, Z.sub_diag. done.
Qed.

Lemma placed_nil id state L1 L2 : placed (L1 ++ (id, mkLeaf [] state) :: L2) = placed (L1 ++ L2).
Proof. by rewrite !placed_app, placed_cons. Qed.

(** The new leaf of a split of a leaf, filled. *)
Lemma fill_new_leaf_ok k n k' st T w win region r p T1 new L1 L2 :
  windows_ok (Some w) (windows st) (leaves T) -> Pool.try_get (windows st) w = Some win ->
  k <= k' <= k + 2 -> owns k' p (entries None T1) -> tidy (n + 2) T1 ->
  leaves T1 = L1 ++ (new, RegionLeaf_default) :: L2 -> leaves T = L1 ++ L2 ->
  (forall i, r <> AddTab i) ->
  (forall gone, gone <> Some new ->
     refilled new (mkLeaf [w] TabsState_default) (arranged gone T1) = arranged gone (put w region r new T)) ->
  returns (new_leaf ← leaf_get new;
           _ ← sassert (bool_decide (tabs new_leaf = []));
           _ ← leaf_set new (mkLeaf (tabs new_leaf ++ [w]) (tabs_state new_leaf));
           _ ← window_mut w (set_region (Some new));
           mret [new]) (attached k n st T w region r) (with_tree st p T1).
Proof.
  intros Hok Hw Hk Ho Ht HL HT Hr Har.
  assert (Hin : in_tree k' (with_tree st p T1) T1) by (by split).
  assert (Hnew : new ∉ (leaves T).*1).
  { pose proof (leaves_nodup _ _ _ Ho) as Hnd. rewrite HL, fmap_app in Hnd. cbn [fmap list_fmap fst] in Hnd.
    rewrite <- Permutation_middle in Hnd. apply NoDup_cons in Hnd as [Hnd _]. by rewrite HT, fmap_app. }
  apply returns_bind. eapply (read_leaf_ok _ _ _ _ RegionLeaf_default); [exact Hin|rewrite HL; apply in_middle|].
  apply returns_bind. eapply returns_assert; [done|]. cbn [tabs RegionLeaf_default app].
  apply returns_bind. eapply write_leaf_ok; [exact Hin|exact Ht|exact HL|]. intros p' T' Ho' Ht' HL' _ Hedit.
  eapply (place_ok k n k' st T w win region r (windows st) p' T' new _ L1 L2 (mkLeaf [] TabsState_default) [] []);
    [done|done|lia|exact Ho'|done|exact HL'|done|done| | | | | |].
  - by rewrite placed_nil, HT.
  - intros id l0 Hl0 Hne. rewrite HT in Hl0. rewrite HL'. rewrite elem_of_app, elem_of_cons in *. naive_solver.
  - intros id l0 Hl0. by rewrite HT.
  - eexists. split; [rewrite HL'; apply in_middle|]. destruct r as [i| |]; [by destruct (Hr i)|done..].
  - destruct r as [i| |]; [by destruct (Hr i)|done..].
  - intros gone Hg. rewrite <- Har by done. destruct (focus_leaf _ _ _ _ _ HL) as (C&inf&HT1&_).
    rewrite (Hedit (fun _ => mkLeaf [w] TabsState_default) eq_refl), HT1 in *.
    rewrite (at_node_plug C _ (TLeaf new inf RegionLeaf_default)) by (by eapply owns_nodup).
    apply arranged_fill; [done|by eapply leaves_nodup].
Qed.

Lemma half_ok : walls_ok [f64_half] = true.
Proof. vm_compute. reflexivity. Qed.

(** The two halves of a leaf, the new one filled. *)
Lemma halves_filled gone w C region inf l axis side nid ids1 ids2 new :
  NoDup (entries None (plug C (TLeaf region inf l))).*1 ->
  new ∉ (leaves (plug C (TLeaf region inf l))).*1 -> gone <> Some new ->
  side = 0 /\ ids1 = [new] /\ ids2 = [] \/ side = 1 /\ ids1 = [] /\ ids2 = [new] ->
  refilled new (mkLeaf [w] TabsState_default)
    (arranged gone (plug C (split_tree [f64_half] (1 - side) axis nid ids1 ids2 (TLeaf region inf l)))) =
  arranged gone (put w region (SplitLeaf axis side) new (plug C (TLeaf region inf l))).
Proof.
  intros Hnd Hnew Hg Hside. cbn [put].
  pose proof (at_node_plug C (halved axis side (one_window new w)) (TLeaf region inf l) Hnd) as Hat.
  cbn [tid] in Hat. rewrite Hat. clear Hat.
  rewrite leaves_plug in Hnew. symmetry. apply refilled_plug.
  { intros x Hx. apply Hnew, list_elem_of_fmap. exists (new, x). split; [done|]. rewrite !elem_of_app in *. tauto. }
  assert (Hne : region <> new).
  { intros ->. apply Hnew, list_elem_of_fmap. exists (new, l). split; [done|]. cbn [leaves app]. apply in_middle. }
  assert (Hl : refilled new (mkLeaf [w] TabsState_default) (arranged gone (TLeaf region inf l)) = arranged gone (TLeaf region inf l)).
  { apply arranged_refilled. intros x [= ? ?]%list_elem_of_singleton. done. }
  assert (Hn : refilled new (mkLeaf [w] TabsState_default) (arranged gone (TLeaf new (mkInfo 0 Rect_default) RegionLeaf_default)) =
               arranged gone (one_window new w)).
  { cbn [arranged one_window]. rewrite !decide_False by (intros [? _]; done). cbn [refilled]. by rewrite decide_True. }
  assert (Hsplit : forall id i ts, arranged gone (TSplit id i axis ts) = assembled axis (concat (pieces axis <$> (arranged gone <$> ts)))) by done.
  unfold split_tree, halved. rewrite !Hsplit, refilled_assembled, <- refilled_forest.
  destruct Hside as [(->&->&->)|(->&->&->)]; do 3 f_equal.
  - change (new_leaves [f64_half] _ [new]) with [new_leaf (child_size [f64_half] 0) new].
    change (new_leaves _ _ []) with (@nil tree). cbn [app Z.eqb fmap list_fmap].
    by rewrite arranged_set_tree_size, Hl, <- Hn.
  - change (new_leaves [f64_half] _ [new]) with [new_leaf (child_size [f64_half] 1) new].
    change (new_leaves _ _ []) with (@nil tree). cbn [app Z.eqb fmap list_fmap].
    by rewrite arranged_set_tree_size, Hl, <- Hn.
Qed.

Lemma attach_split_ok k n st T w win region axis side :
  in_tree k st T -> tidy n T -> n + 2 < region_max -> k + 2 < 2 ^ 64 ->
  windows_ok (Some w) (windows st) (leaves T) ->
  Pool.try_get (windows st) w = Some win -> valid_target T region (SplitLeaf axis side) ->
  returns (attach w region (SplitLeaf axis side)) (attached k n st T w region (SplitLeaf axis side)) st.
Proof.
  intros Hin Ht Hn Hk Hok Hw [Hside (l&(L1&L2&HL)%list_elem_of_split)].
  destruct (focus_leaf _ _ _ _ _ HL) as (C&inf&HT&HL1&HL2). rewrite HT in Hin.
  pose proof (tidy_fine _ _ Ht ltac:(lia)) as Hfine. pose proof Ht as (_&Hlen&Hnorm). rewrite HT in Hfine, Hlen, Hnorm.
  apply returns_bind.
  eapply (region_get_ok _ _ _ _ (head_region (cparent C) (TLeaf region inf l))); [exact (proj1 Hin)| |].
  { apply (node_entry C (TLeaf region inf l)). }
  apply returns_bind. eapply (returns_lift _ (1 - side)); [destruct Hside as [-> | ->]; reflexivity|].
  change (zlen [f64_half]) with 1 in *.
  apply returns_bind. eapply returns_mono.
  { apply (split_ok k st C (TLeaf region inf l) axis [f64_half] (1 - side));
      [done|done|done|done|apply half_ok| | |]; change (zlen [f64_half]) with 1; [destruct Hside; lia|lia|lia]. }
  intros cs st1 (ids1&ids2&p&T1&Hl1&Hl2&->&->&Ho&HLT&Hsz1&Hlen1&Hn1&nid&Har).
  change (zlen [f64_half]) with 1 in *. replace (k + 1 + 1) with (k + 2) in Ho by lia.
  assert (Ht1 : tidy (n + 2) T1) by (split; [done|]; split; [lia|done]).
  cbn [leaves app] in HLT. rewrite HL1, HL2 in HLT.
  assert (Hnil : forall ids : list Id, zlen ids = 0 -> ids = []) by (intros [|x ids]; rewrite ?zlen_cons; [done|]; pose proof (zlen_nonneg ids); lia).
  assert (Hone : forall ids : list Id, zlen ids = 1 -> exists x, ids = [x]).
  { intros [|x ids]; [done|]. rewrite zlen_cons. intros Hi. exists x. by rewrite (Hnil ids) by lia. }
  assert (Hfill : forall new gone, gone <> Some new -> new ∉ (leaves T).*1 ->
    side = 0 /\ ids1 = [new] /\ ids2 = [] \/ side = 1 /\ ids1 = [] /\ ids2 = [new] ->
    refilled new (mkLeaf [w] TabsState_default) (arranged gone T1) = arranged gone (put w region (SplitLeaf axis side) new T)).
  { intros new gone Hg Hnew Hcase. rewrite Har, HT in *. apply halves_filled; [|done..]. by destruct Hin as [?%owns_nodup _]. }
  clear Har. pose proof (leaves_nodup _ _ _ Ho) as Hnd. rewrite HLT in Hnd.
  destruct Hside as [-> | ->].
  - destruct (Hone ids1 Hl1) as [new ->]. rewrite (Hnil ids2 Hl2) in *.
    apply returns_bind, returns_assert; [done|]. apply returns_bind. eapply returns_opt; [reflexivity|].
    eapply (fill_new_leaf_ok k n (k + 2) st T w win region _ p T1 new L1 ((region, l) :: L2)); try done; try lia.
    intros gone Hg. apply Hfill; [done| |auto]. cbn [fmap list_fmap app] in Hnd. rewrite HL.
    rewrite fmap_app in Hnd |- *. cbn [fmap list_fmap fst app] in Hnd |- *. rewrite <- Permutation_middle in Hnd.
    by apply NoDup_cons in Hnd as [Hnd _].
  - rewrite (Hnil ids1 Hl1) in *. destruct (Hone ids2 Hl2) as [new ->].
    apply returns_bind, returns_assert; [done|]. apply returns_bind. eapply returns_opt; [reflexivity|].
    eapply (fill_new_leaf_ok k n (k + 2) st T w win region _ p T1 new (L1 ++ [(region, l)]) L2); try done; [lia|..].
    + rewrite HLT. cbn [fmap list_fmap app]. by rewrite <- app_assoc.
    + by rewrite HL, <- app_assoc.
    + intros gone Hg. apply Hfill; [done| |auto]. cbn [fmap list_fmap app] in Hnd. rewrite HL.
      rewrite (cons_middle (region, l)), app_assoc in Hnd |- *. rewrite fmap_app in Hnd |- *.
      cbn [fmap list_fmap fst app] in Hnd. rewrite <- Permutation_middle in Hnd. by apply NoDup_cons in Hnd as [Hnd _].
Qed.

(** A split in the pool is a node of the tree. *)
Lemma focus_split k st T id x s :
  in_tree k st T -> (id, x) ∈ entries None T -> r_content x = Split s ->
  exists C i ts, T = plug C (TSplit id i (s_axis s) ts) /\ s_children s = tid <$> ts /\
    x = head_region (cparent C) (TSplit id i (s_axis s) ts).
Proof.
  intros [[Ho _] _] Hin Hx. destruct (focus _ _ _ _ Hin) as (C&t&->&<-).
  assert (x = head_region (cparent C) t) as ->.
  { pose proof (owned_try_get _ _ _ _ Ho Hin) as H1. pose proof (owned_try_get _ _ _ _ Ho (node_entry C t)). congruence. }
  destruct t as [|id i axis ts]; [done|]. cbn in Hx. injection Hx as <-. by exists C, i, ts.
Qed.

Lemma neighbours ts j :
  1 <= j < zlen ts -> exists ts1 a b ts2, ts = ts1 ++ a :: b :: ts2 /\ zlen ts1 = j - 1.
Proof.
  intros Hj. destruct (vec_split ts (j - 1)) as (ts1&a&ts'&->&Hz); [lia|].
  rewrite zlen_app, zlen_cons in Hj. destruct ts' as [|b ts2]; [rewrite zlen_nil in Hj; lia|]. by exists ts1, a, b, ts2.
Qed.
Lemma zget_neighbours {A} (l1 l2 : list A) a b j :
  zlen l1 = j - 1 -> zget (l1 ++ a :: b :: l2) (j - 1) = Some a /\ zget (l1 ++ a :: b :: l2) j = Some b.
Proof.
  intros Hj. rewrite <- Hj, !zget_app, Z.ltb_irrefl, Z.sub_diag. split; [by rewrite zget_cons|].
  rewrite (proj2 (Z.ltb_ge _ _)) by lia.
  replace (j - zlen l1) with 1 by lia. by rewrite !zget_cons.
Qed.

(** The sizes on both sides of the wall a window is dropped on, and the new one's. *)
Lemma thirds a b :
  1 <= a <= size_max -> 1 <= b <= size_max ->
  let new := (a + b) / 3 in let prev := (a + b - new) / 2 in
  1 <= Z.max new 1 <= size_max /\ 1 <= Z.max prev 1 <= size_max /\ 1 <= Z.max (a + b - new - prev) 1 <= size_max.
Proof.
  intros Ha Hb new prev. subst new prev. unfold size_max in *. pose proof (Z.div_mod (a + b) 3 ltac:(lia)).
  pose proof (Z.mod_pos_bound (a + b) 3 ltac:(lia)). set (n := (a + b) / 3) in *. clearbody n.
  pose proof (Z.div_mod (a + b - n) 2 ltac:(lia)). pose proof (Z.mod_pos_bound (a + b - n) 2 ltac:(lia)). lia.
Qed.

(** The tree with a new leaf between [a] and [b]. *)
Definition widened (id : Id) (i : info) (axis : Z) (ts1 ts2 : list tree) (a b : tree) (new : Id) (w : Id) : tree :=
  let total := i_size (tinfo a) + i_size (tinfo b) in
  let new_size := total / 3 in
  let prev_new_size := (total - new_size) / 2 in
  TSplit id i axis
    (ts1 ++ [set_tree_size (Z.max prev_new_size 1) a;
             TLeaf new (mkInfo (Z.max new_size 1) Rect_default) (mkLeaf [w] TabsState_default);
             set_tree_size (Z.max (total - new_size - prev_new_size) 1) b] ++ ts2).

Lemma widened_facts n C id i axis ts1 ts2 a b new w :
  tidy n (plug C (TSplit id i axis (ts1 ++ a :: b :: ts2))) ->
  tidy (n + 1) (plug C (widened id i axis ts1 ts2 a b new w)) /\
  exists L1 L2, leaves (plug C (TSplit id i axis (ts1 ++ a :: b :: ts2))) = L1 ++ L2 /\
    leaves (plug C (widened id i axis ts1 ts2 a b new w)) = L1 ++ (new, mkLeaf [w] TabsState_default) :: L2.
Proof.
  intros (Hsz&Hlen&Hn). pose proof (entries_plug C (TSplit id i axis (ts1 ++ a :: b :: ts2))) as He.
  pose proof (entries_plug C (widened id i axis ts1 ts2 a b new w)) as He'.
  rewrite (entries_unfold _ (TSplit _ _ _ _)) in He. unfold widened in He'. rewrite (entries_unfold _ (TSplit _ _ _ _)) in He'.
  unfold below in He, He'. cbn [tid kids app] in He, He'. rewrite !ents_app, !ents_cons in He.
  rewrite !ents_app, !ents_cons in He'.
  rewrite (entries_unfold _ a), (entries_unfold _ b) in He.
  rewrite (entries_unfold _ (set_tree_size _ a)), (entries_unfold _ (set_tree_size _ b)), !below_set_tree_size, !tid_set_tree_size, !head_set_tree_size in He'.
  split; [split; [|split]|].
  - eapply sized_perm; [symmetry; exact He'|]. apply (sized_perm _ _ He) in Hsz. unfold sized in *.
    repeat first [rewrite Forall_app in Hsz | rewrite Forall_cons in Hsz].
    repeat first [rewrite Forall_app | rewrite Forall_cons].
    cbn [snd] in *. rewrite !head_size in Hsz.
    destruct Hsz as (Hh&(H1&(Ha&H2)&(Hb&H3)&H4)&H5). destruct (thirds _ _ Ha Hb) as (T1&T2&T3).
    cbn [head_region relative_size i_size tinfo] in Hh. cbn [entries tid head_region fst snd].
    rewrite Forall_singleton. cbn [snd relative_size i_size set_relative_size]. tauto.
  - rewrite He in Hlen. rewrite He'. repeat first [rewrite zlen_app in Hlen | rewrite zlen_cons in Hlen].
    repeat first [rewrite zlen_app | rewrite zlen_cons]. cbn [entries tid] in *. rewrite zlen_cons, zlen_nil. lia.
  - apply normal_unplug in Hn as (HC&Hn&Hf). inversion_clear Hn as [|???? Hz Hns Has].
    rewrite !Forall_app, !Forall_cons in Hns, Has. destruct Hns as (?&?&?&?), Has as (?&?&?&?).
    apply normal_plug; [done| |done]. unfold widened. constructor.
    + repeat first [rewrite zlen_app in Hz | rewrite zlen_cons in Hz].
      repeat first [rewrite zlen_app | rewrite zlen_cons]. rewrite zlen_nil. lia.
    + rewrite !Forall_app, !Forall_cons. split_and!; try done; try (by apply normal_set_tree_size); constructor.
    + rewrite !Forall_app, !Forall_cons, !axis_set_tree_size. by split_and!.
  - exists (leaves_left C ++ leaves_of ts1 ++ leaves a), (leaves b ++ leaves_of ts2 ++ leaves_right C).
    rewrite !leaves_plug. unfold widened. rewrite !leaves_split, !leaves_of_app, !leaves_of_cons, !leaves_set_tree_size.
    cbn [leaves]. rewrite <- !app_assoc. split; done.
Qed.

Lemma widened_arranged gone C id inf axis ts1 ts2 a b new w i :
  zlen ts1 = i - 1 -> NoDup (entries None (plug C (TSplit id inf axis (ts1 ++ a :: b :: ts2)))).*1 ->
  arranged gone (plug C (widened id inf axis ts1 ts2 a b new w)) =
  arranged gone (put w id (AddToExistingSplit i) new (plug C (TSplit id inf axis (ts1 ++ a :: b :: ts2)))).
Proof.
  intros Hi Hnd. cbn [put].
  pose proof (at_node_plug C (add_child i (one_window new w)) (TSplit id inf axis (ts1 ++ a :: b :: ts2)) Hnd) as Hat.
  cbn [tid] in Hat. rewrite Hat. apply arranged_plug. unfold widened. cbn [add_child]. apply arranged_forest_eq.
  assert (Hv : vec_insert (ts1 ++ a :: b :: ts2) i (one_window new w) = ts1 ++ a :: one_window new w :: b :: ts2).
  { rewrite (cons_middle a), app_assoc.
    replace i with (zlen (ts1 ++ [a])) by (rewrite zlen_app; change (zlen [_]) with 1; lia).
    by rewrite vec_insert_app, <- app_assoc. }
  rewrite Hv, !fmap_app. cbn [app fmap list_fmap]. by rewrite !arranged_set_tree_size.
Qed.

Lemma wall_perm {A} (l1 l2 l3 : list A) r x y l4 rest :
  (r :: l1 ++ (x :: l2) ++ (y :: l3) ++ l4) ++ rest ≡ₚ x :: y :: r :: (l1 ++ l2 ++ l3 ++ l4) ++ rest.
Proof.
  cbn [app]. transitivity (r :: x :: (l1 ++ l2 ++ y :: l3 ++ l4) ++ rest).
  { apply Permutation_skip. by rewrite <- (Permutation_middle l1). }
  etransitivity; [apply perm_swap|]. apply Permutation_skip. etransitivity; [|apply perm_swap]. apply Permutation_skip.
  by rewrite !(app_assoc l1 l2), <- Permutation_middle.
Qed.
Lemma wall_perm' {A} (l1 l2 l3 : list A) x n :
  l1 ++ x :: l2 ++ n :: l3 ≡ₚ n :: l1 ++ x :: l2 ++ l3.
Proof. rewrite !app_comm_cons, !app_assoc. symmetry. apply Permutation_middle. Qed.

(** What [attach] makes of the regions is that tree. *)
Lemma widened_entries C id inf axis ts1 ts2 a b new w i :
  zlen ts1 = i - 1 ->
  let total := i_size (tinfo a) + i_size (tinfo b) in
  entries None (plug C (widened id inf axis ts1 ts2 a b new w)) ≡ₚ
    (id, set_content (Split (mkSplit axis (vec_insert (tid <$> ts1 ++ a :: b :: ts2) i new)))
           (head_region (cparent C) (TSplit id inf axis (ts1 ++ a :: b :: ts2)))) ::
    (tid b, set_relative_size (Z.max (total - total / 3 - (total - total / 3) / 2) 1) (head_region (Some id) b)) ::
    (tid a, set_relative_size (Z.max ((total - total / 3) / 2) 1) (head_region (Some id) a)) ::
    (new, mkRegion (Some id) (Leaf (mkLeaf [w] TabsState_default)) (Z.max (total / 3) 1) Rect_default) ::
    (ents (Some id) ts1 ++ below a ++ below b ++ ents (Some id) ts2) ++ around C [id].
Proof.
  intros Hi total. rewrite entries_plug. unfold widened. rewrite entries_unfold. unfold below at 1. cbn [tid kids app].
  rewrite !ents_app, !ents_cons, (entries_unfold _ (set_tree_size _ a)), (entries_unfold _ (set_tree_size _ b)).
  rewrite !below_set_tree_size, !tid_set_tree_size, !head_set_tree_size.
  assert (Hv : vec_insert (tid <$> ts1 ++ a :: b :: ts2) i new = (tid <$> ts1) ++ tid a :: new :: tid b :: (tid <$> ts2)).
  { rewrite fmap_app. cbn [fmap list_fmap]. rewrite (cons_middle (tid a)), app_assoc.
    replace i with (zlen ((tid <$> ts1) ++ [tid a])) by (rewrite zlen_app, zlen_fmap; change (zlen [_]) with 1; lia).
    by rewrite vec_insert_app, <- app_assoc. }
  rewrite Hv. cbn [head_region set_content r_parent relative_size r_area entries tid]. rewrite fmap_app. cbn [fmap list_fmap].
  rewrite !tid_set_tree_size. fold total. apply Permutation_skip.
  etransitivity; [|apply perm_swap]. rewrite <- wall_perm. apply Permutation_app_tail.
  cbn [app i_size i_area]. apply wall_perm'.
Qed.

Lemma attach_wall_ok k n st T w win region i :
  in_tree k st T -> tidy n T -> n + 2 < region_max -> k + 2 < 2 ^ 64 ->
  windows_ok (Some w) (windows st) (leaves T) ->
  Pool.try_get (windows st) w = Some win -> valid_target T region (AddToExistingSplit i) ->
  returns (attach w region (AddToExistingSplit i)) (attached k n st T w region (AddToExistingSplit i)) st.
Proof.
  intros Hin Ht Hn Hk Hok Hw (x&s&Hx&Hs&Hi).
  destruct (focus_split _ _ _ _ _ _ Hin Hx Hs) as (C&inf&ts&HT&Hts&->). rewrite Hts, zlen_fmap in Hi.
  destruct (neighbours _ _ Hi) as (ts1&a&b&ts2&->&Hz1). set (axis := s_axis s) in *.
  pose proof Hin as [Ho Hroot]. rewrite HT in Ht, Ho, Hx.
  apply returns_bind. eapply region_get_ok; [exact Ho|exact Hx|].
  apply returns_bind. eapply returns_opt; [reflexivity|].
  apply returns_bind. eapply returns_lift; [unfold usub; by rewrite (proj2 (Z.leb_le _ _)) by lia|].
  cbn [s_children]. rewrite !fmap_app. cbn [fmap list_fmap].
  destruct (zget_neighbours (tid <$> ts1) (tid <$> ts2) (tid a) (tid b) i) as [Hga Hgb]; [by rewrite zlen_fmap|].
  apply returns_bind. eapply returns_opt; [exact Hga|]. apply returns_bind. eapply returns_opt; [exact Hgb|].
  set (hd := head_region (cparent C) (TSplit region inf axis (ts1 ++ a :: b :: ts2))) in *.
  set (rest := (ents (Some region) ts1 ++ below a ++ below b ++ ents (Some region) ts2) ++ around C [region]).
  assert (He : entries None (plug C (TSplit region inf axis (ts1 ++ a :: b :: ts2))) ≡ₚ
    (tid a, head_region (Some region) a) :: (tid b, head_region (Some region) b) :: (region, hd) :: rest).
  { rewrite entries_plug, entries_unfold. unfold below at 1. cbn [tid kids]. fold hd.
    rewrite !ents_app, !ents_cons, (entries_unfold _ a), (entries_unfold _ b). by rewrite (wall_perm _ _ _ (region, hd)). }
  destruct Ht as (Hsz&Hlen&Hnorm). 
  assert (Hab : 1 <= i_size (tinfo a) <= size_max /\ 1 <= i_size (tinfo b) <= size_max).
  { pose proof (sized_perm _ _ He Hsz) as Hs'. apply Forall_cons in Hs' as [Ha [Hb _]%Forall_cons].
    cbn [snd] in *. by rewrite !head_size in *. }
  apply (owns_perm _ _ _ _ He) in Ho.
  apply returns_bind. eapply region_get_ok; [exact Ho|left|]. apply returns_bind. eapply region_get_ok; [exact Ho|right; left|].
  rewrite !head_size. apply returns_bind. eapply returns_lift.
  { unfold uadd, size_max in *. by rewrite (proj2 (Z.ltb_lt _ _)) by lia. }
  apply returns_bind. eapply region_add_ok; [exact Ho|lia|]. intros new p1 Ho1.
  apply returns_bind. eapply region_mut_ok; [eapply owns_perm; [apply perm_swap|exact Ho1]|]. intros p2 Ho2.
  apply returns_bind. eapply region_mut_ok; [eapply owns_perm; [|exact Ho2]|].
  { symmetry. apply (Permutation_middle [_; _]). }
  intros p3 Ho3. cbn [app] in Ho3.
  apply returns_bind. eapply (split_get_ok _ _ _ _ hd); [exact Ho3|do 3 right; left|reflexivity|]. cbn [s_children s_axis].
  apply returns_bind. apply returns_assert.
  { apply Z.leb_le. rewrite zlen_fmap. rewrite zlen_app, !zlen_cons in *. pose proof (zlen_nonneg ts2). lia. }
  apply returns_bind. eapply region_mut_ok; [eapply owns_perm; [|exact Ho3]|].
  { symmetry. apply (Permutation_middle [_; _; _]). }
  intros p4 Ho4. cbn [app] in Ho4.
  destruct (widened_facts n C region inf axis ts1 ts2 a b new w) as (Ht'&L1&L2&HL&HL'); [by split|].
  rewrite <- HT in HL.
  assert (Ho' : owns (k + 1) p4 (entries None (plug C (widened region inf axis ts1 ts2 a b new w)))).
  { eapply owns_perm; [symmetry; by apply widened_entries|exact Ho4]. }
  assert (Hst : set_regions p4 (set_regions p3 (set_regions p2 (set_regions p1 st))) =
    with_state st (windows st) p4 (plug C (widened region inf axis ts1 ts2 a b new w))).
  { unfold set_regions, with_state. cbn [windows active_window active_leaf root]. f_equal. rewrite Hroot, HT. by apply plug_root. }
  rewrite Hst. pose proof (owns_nodup _ _ _ (proj1 Hin)) as Hnd. rewrite HT in Hnd.
  assert (Har := fun gone => widened_arranged gone C region inf axis ts1 ts2 a b new w i Hz1 Hnd). rewrite <- HT in Har.
  set (T' := plug C (widened region inf axis ts1 ts2 a b new w)) in *. clearbody T'. clear -Hok Hw Hk Hn Ht' HL HL' Ho' Har.
  assert (Hnew : new ∉ (leaves T).*1).
  { pose proof (leaves_nodup _ _ _ Ho') as Hnd. rewrite HL', fmap_app in Hnd. cbn [fmap list_fmap fst] in Hnd.
    rewrite <- Permutation_middle in Hnd. apply NoDup_cons in Hnd as [Hnd _]. by rewrite HL, fmap_app. }
  eapply (place_ok k n (k + 1) st T w win region _ (windows st) p4 T' new _ L1 L2 (mkLeaf [] TabsState_default) [] []);
    [done|done|lia|exact Ho'|eapply tidy_mono; [done|lia]|exact HL'|done|done| | | | |done|intros gone _; apply Har].
  - by rewrite placed_nil, HL.
  - intros id l0 Hl0 Hne. rewrite HL in Hl0. rewrite HL'. rewrite elem_of_app, elem_of_cons in *. naive_solver.
  - intros id l0 Hl0. by rewrite HL.
  - eexists. split; [rewrite HL'; apply in_middle|]. done.
Qed.

Lemma attach_ok k n st T w win region r :
  in_tree k st T -> tidy n T -> n + 2 < region_max -> k + 2 < 2 ^ 64 ->
  windows_ok (Some w) (windows st) (leaves T) ->
  Pool.try_get (windows st) w = Some win -> valid_target T region r ->
  returns (attach w region r) (attached k n st T w region r) st.
Proof.
  destruct r; intros; [by eapply attach_tab_ok|by eapply attach_wall_ok|by eapply attach_split_ok].
Qed.

(** *** Simplification after a move *)

Definition stays (ids : list Id) (e : Id * RegionLeaf) : Prop := ~ (e.1 ∈ ids /\ tabs e.2 = []).
#[local] Instance stays_dec ids e : Decision (stays ids e).
Proof. unfold stays. apply _. Defined.

Lemma filter_all {A} (P : A -> Prop) `{!forall x, Decision (P x)} (l : list A) : (forall x, x ∈ l -> P x) -> filter P l = l.
Proof.
  induction l as [|x l IH]; intros Hl; [done|]. rewrite filter_cons_True by (apply Hl; left).
  f_equal. apply IH. intros y Hy. apply Hl. by right.
Qed.

Lemma leaf_unique L id l l' : NoDup L.*1 -> (id, l) ∈ L -> (id, l') ∈ L -> l = l'.
Proof.
  intros Hnd (L1&L2&->)%list_elem_of_split H2. rewrite fmap_app in Hnd. cbn [fmap list_fmap fst] in Hnd.
  rewrite <- Permutation_middle in Hnd. apply NoDup_cons in Hnd as [Hn _]. rewrite <- fmap_app in Hn.
  apply elem_of_app in H2 as [H2|[[= ->]|H2]%elem_of_cons]; [|done|]; exfalso; apply Hn, list_elem_of_fmap;
    exists (id, l'); (split; [done|]); apply elem_of_app; auto.
Qed.

Lemma simplify_after_ok k n st T id l :
  in_tree k st T -> tidy n T -> n < region_max -> (id, l) ∈ leaves T ->
  (tabs l = [] -> exists e, e ∈ leaves T /\ e.1 <> id) ->
  returns (simplify_after id)
    (fun _ st' => exists p T', st' = with_tree st p T' /\ owns k p (entries None T') /\ tidy n T' /\
       leaves T' = filter (stays [id]) (leaves T) /\
       forall gone, (tabs l = [] -> gone = Some id) -> arranged gone T' = arranged gone T) st.
Proof.
  intros Hin Ht Hn Hl Hother. pose proof (leaves_nodup _ _ _ (proj1 Hin)) as Hnd.
  destruct (list_elem_of_split _ _ Hl) as (L1&L2&HL).
  destruct (focus_leaf _ _ _ _ _ HL) as (C&i&HT&HL1&HL2). pose proof (tidy_fine _ _ Ht Hn) as Hfine.
  destruct Ht as (Hsz&Hlen&Hnorm). subst T. 
  apply returns_bind, returns_get.
  rewrite (owned_try_get _ _ id _ (proj1 (proj1 Hin)) (node_entry C (TLeaf id i l))). cbn [head_region r_content].
  destruct l as [[|t ts] state].
  - destruct (Hother eq_refl) as (e&He&Hne). destruct C as [|f C].
    { apply list_elem_of_singleton in He as ->. done. }
    assert (HLne : L1 ++ L2 <> []).
    { intros [-> ->]%app_eq_nil. rewrite HL in He. apply list_elem_of_singleton in He as ->. done. }
    eapply returns_mono; [apply (remove_leaf_ok k); [done|done|done|by rewrite HL1, HL2]|].
    intros _ st' (p&T'&->&Ho&HlT&Hsz'&Hlen'&Hn'&Har). exists p, T'. split; [done|]. split; [done|].
    split; [split; [done|split; [lia|done]]|]. split.
    2: { intros gone ->; [|done]. rewrite Har. cbn [plug]. apply arranged_plug. unfold plug1. cbn [arranged].
      rewrite !fmap_app, !concat_app. cbn [fmap list_fmap concat arranged]. by rewrite decide_True. }
    rewrite HlT, HL1, HL2, HL, filter_app.
    rewrite HL, fmap_app in Hnd. cbn [fmap list_fmap fst] in Hnd. rewrite <- Permutation_middle in Hnd.
    apply NoDup_cons in Hnd as [Hnd _]. rewrite <- fmap_app in Hnd.
    assert (Hst : forall x, x ∈ L1 ++ L2 -> stays [id] x).
    { intros x Hx [Hid%list_elem_of_singleton _]. apply Hnd. apply list_elem_of_fmap. by exists x. }
    rewrite filter_cons_False by (intros Hx; apply Hx; by split; [left|]).
    rewrite !filter_all; [done|..]; intros x Hx; apply Hst; rewrite elem_of_app; auto.
  - eapply returns_mono; [apply (simplify_splits_ok k st C (TLeaf id i _) Hin Hfine)|].
    intros _ st' (p&T'&->&Ho&HlT&Hsz'&Hlen'&Hn'&Har). apply normal_unplug in Hnorm as (HC&_&_).
    exists p, T'. split; [done|]. split; [done|]. split; [split; [done|split; [lia|by apply Hn']]|].
    split; [|intros gone _; apply Har]. rewrite HlT, filter_all; [done|]. intros [id' l'] Hx [Hid%list_elem_of_singleton He]. simpl in *. subst id'.
    by rewrite <- (leaf_unique _ _ _ _ Hnd Hl Hx) in He.
Qed.

Lemma filter_stays_cons id ids L : filter (stays (id :: ids)) L = filter (stays ids) (filter (stays [id]) L).
Proof.
  rewrite list_filter_filter. apply list_filter_iff. intros e. unfold stays.
  rewrite elem_of_cons, list_elem_of_singleton. tauto.
Qed.

Lemma simplify_after_loop k n st T ids e :
  in_tree k st T -> tidy n T -> n < region_max -> NoDup ids ->
  (forall id, id ∈ ids -> exists l, (id, l) ∈ leaves T) -> e ∈ leaves T -> tabs e.2 <> [] ->
  returns (sfor ids simplify_after)
    (fun _ st' => exists p T', st' = with_tree st p T' /\ owns k p (entries None T') /\ tidy n T' /\
       leaves T' = filter (stays ids) (leaves T) /\
       forall gone, (forall id l, id ∈ ids -> (id, l) ∈ leaves T -> tabs l = [] -> gone = Some id) ->
         arranged gone T' = arranged gone T) st.
Proof.
  revert st T. induction ids as [|id ids IH]; intros st T Hin Ht Hn Hnd Hids He Hne.
  - apply returns_ret. exists (regions st), T. split; [by eapply in_tree_with|]. split; [apply Hin|]. split; [done|].
    split; [|done]. symmetry. apply filter_all. intros x _ [Hx _]. by apply elem_of_nil in Hx.
  - apply NoDup_cons in Hnd as [Hid Hnd]. destruct (Hids id) as [l Hl]; [left|].
    cbn [sfor]. apply returns_bind. eapply returns_mono.
    { eapply simplify_after_ok; [exact Hin|exact Ht|exact Hn|exact Hl|]. intros Hl0. exists e. split; [done|]. intros <-.
      destruct e as [id' l']. simpl in *. pose proof (leaves_nodup _ _ _ (proj1 Hin)) as Hndl.
      by rewrite (leaf_unique _ _ _ _ Hndl Hl He) in Hl0. }
    intros _ st1 (p&T1&->&Ho&Ht1&HL&Har). eapply returns_mono.
    { apply (IH (with_tree st p T1) T1); [by split|done|done|done| | |done].
      - intros id' Hid'. destruct (Hids id') as [l' Hl']; [by right|]. exists l'. rewrite HL. apply list_elem_of_filter.
        split; [|done]. intros [Hx%list_elem_of_singleton _]. simpl in Hx. by subst.
      - rewrite HL. apply list_elem_of_filter. split; [|done]. by intros [_ ?]. }
    intros _ st2 (p2&T2&->&Ho2&Ht2&HL2&Har2). exists p2, T2. split; [done|]. split; [done|]. split; [done|].
    split; [rewrite HL2, HL; symmetry; apply filter_stays_cons|]. intros gone Hg. rewrite Har2, Har; [done|..].
    + apply Hg; [left|done].
    + intros id' l' Hid' Hl'. rewrite HL in Hl'. apply list_elem_of_filter in Hl' as [_ Hl']. apply Hg; [by right|done].
Qed.

(** *** The whole move *)

(** A layout between two frames. *)
Record well_formed st (T : tree) : Prop := mkWellFormed {
  wf_tree : in_tree (next_seqno (regions st)) st T;
  wf_sized : sized (entries None T);
  wf_normal : normal T;
  wf_windows : windows_ok None (windows st) (leaves T)
}.

(** Where the window ends up. *)
Definition landed (w region : Id) (r : WindowRelocation) (win : Window) (T T' : tree) : Prop :=
  exists id' l', (id', l') ∈ leaves T' /\ w ∈ tabs l' /\
    match r with
    | AddTab _ => id' = region /\ (w_region win <> Some region -> zget (tabs l') (selected (tabs_state l')) = Some w)
    | _ => id' ∉ (leaves T).*1 /\ tabs l' = [w]
    end.

(** The leaf that a move makes, if it makes one, was not there before. *)
Definition is_new (r : WindowRelocation) (new : Id) (T : tree) : Prop :=
  match r with AddTab _ => True | _ => new ∉ (leaves T).*1 end.

Definition relocated st (T : tree) (w region : Id) (r : WindowRelocation) (win : Window) st' : Prop :=
  exists T', well_formed st' T' /\ others w (leaves T') = others w (leaves T) /\
    landed w region r win T T' /\ empties_from [] T T' /\
    exists new, is_new r new T /\ bare T' = rearranged w (w_region win) region r new T.

(** Leaves without tabs do not count for the windows. *)
Lemma placed_stays ids L : placed (filter (stays ids) L) = placed L.
Proof.
  induction L as [|[id l] L IH]; [done|]. destruct (decide (stays ids (id, l))) as [Hs|Hs].
  - rewrite filter_cons_True by done. by rewrite !placed_cons, IH.
  - rewrite filter_cons_False by done. rewrite placed_cons, IH. unfold stays in Hs. cbn [fst snd] in Hs.
    assert (Ht : tabs l = []) by (destruct (decide (tabs l = [])); [done|tauto]). unfold placed_in. cbn [snd]. by rewrite Ht.
Qed.

Lemma well_formed_moved k n but w st T wp T' st' :
  moved k n but w st T wp T' st' -> but = None -> well_formed st' T'.
Proof.
  intros (p&->&Ho&(Hsz&_&Hn)&Hok&_) ->. constructor; [|done|done|done].
  destruct Ho as [Ho Hk]. split; [by split|done].
Qed.

Lemma in_tree_moved k n but w st T wp T' st' : moved k n but w st T wp T' st' -> in_tree k st' T'.
Proof. by intros (p&->&Ho&_). Qed.

Lemma empties_trans ids T T1 T2 : empties_from ids T T1 -> empties_from [] T1 T2 -> empties_from ids T T2.
Proof.
  intros H1 H2 id l Hl He. destruct (H2 id l Hl He) as [Hl1|Hx%elem_of_nil]; [|done]. by apply H1.
Qed.

(** The end of a move: the leaves to simplify go if they are empty. *)
Lemma finish_move k' n st T T1 T2 wp w region r win ids st2 :
  moved k' (n + 2) None w st T1 wp T2 st2 -> n + 2 < region_max ->
  others w (leaves T1) = others w (leaves T) ->
  empties_from ids T T2 -> NoDup ids -> (forall id, id ∈ ids -> exists l, (id, l) ∈ leaves T2) ->
  landed w region r win T T2 ->
  (forall id l, id ∈ ids -> (id, l) ∈ leaves T2 -> tabs l = [] -> w_region win = Some id) ->
  (forall id, w_region win = Some id -> id ∈ ids) ->
  (exists new, is_new r new T /\ arranged (w_region win) T2 = rearranged w (w_region win) region r new T) ->
  returns (sfor ids simplify_after) (fun _ => relocated st T w region r win) st2.
Proof.
  intros Hm Hn Hoth Hem Hnd Hids (id'&l'&Hl'&Hw&Hr) Hfrom Hall (new&Hnew&Har). pose proof (in_tree_moved _ _ _ _ _ _ _ _ _ Hm) as Hin.
  destruct Hm as (p&->&Ho&Ht&Hok&Hoth2).
  eapply returns_mono.
  { eapply (simplify_after_loop k' (n + 2) _ T2 ids (id', l')); try done. simpl. intros He. rewrite He in Hw. by apply elem_of_nil in Hw. }
  intros _ st3 (p3&T3&->&Ho3&Ht3&HL3&Har3). exists T3.
  assert (Hpl : placed (leaves T3) = placed (leaves T2)) by (by rewrite HL3, placed_stays).
  split; [|split; [|split; [|split]]].
  - destruct Ho3 as [Ho3 Hk3]. constructor; [split; [by split|done]|apply Ht3|apply Ht3|].
    eapply windows_ok_perm; [|exact Hok]. by rewrite Hpl.
  - unfold others in *. rewrite Hpl. congruence.
  - exists id', l'. split; [|done]. rewrite HL3. apply list_elem_of_filter. split; [|done].
    intros [_ He]. simpl in He. rewrite He in Hw. by apply elem_of_nil in Hw.
  - intros id l Hl He. rewrite HL3 in Hl. apply list_elem_of_filter in Hl as [Hs Hl].
    destruct (Hem id l Hl He) as [?|Hid]; [by left|]. by destruct Hs.
  - exists new. split; [done|]. rewrite <- Har, <- (Har3 _ Hfrom). symmetry. apply arranged_normal; [apply Ht3|].
    intros id l Hid Hl He. rewrite HL3 in Hl. apply list_elem_of_filter in Hl as [Hs _]. apply Hs. split; [by apply Hall|done].
Qed.

Lemma elem_of_ids L id : id ∈ L.*1 <-> exists l, (id, l) ∈ L.
Proof.
  split; [intros ([id' l]&->&Hl)%list_elem_of_fmap; eauto|]. intros [l Hl]. apply list_elem_of_fmap. by exists (id, l).
Qed.

Lemma valid_target_detached T T1 region r :
  valid_target T region r ->
  (leaves T1).*1 = (leaves T).*1 ->
  (forall id' x, is_split (r_content x) -> (id', x) ∈ entries None T -> (id', x) ∈ entries None T1) ->
  valid_target T1 region r.
Proof.
  intros Hv Hids Hs.
  assert (Hl : forall l, (region, l) ∈ leaves T -> exists l', (region, l') ∈ leaves T1).
  { intros l Hl. apply elem_of_ids. rewrite Hids. apply elem_of_ids. eauto. }
  destruct r as [i|i|axis side]; simpl in *.
  - destruct Hv as [? [l ?%Hl]]. eauto.
  - destruct Hv as (x&s&Hx&Hc&Hi). exists x, s. split; [|done]. apply Hs; [by rewrite Hc|done].
  - destruct Hv as [? [l ?%Hl]]. eauto.
Qed.

Lemma relocate_runs st T w win region r :
  well_formed st T -> Pool.try_get (windows st) w = Some win -> valid_target T region r ->
  zlen (entries None T) + 2 < region_max -> next_seqno (regions st) + 2 < 2 ^ 64 ->
  returns (relocate_window w region r) (fun _ => relocated st T w region r win) st.
Proof.
  intros [Hin Hsz Hnorm Hok] Hw Hv Hroom Hk. set (n := zlen (entries None T)) in *.
  assert (Ht : tidy n T) by (split; [done|split; [lia|done]]).
  apply returns_bind. eapply returns_mono.
  { apply (detach_ok _ n st T w win region r Hin Ht Hok Hw). intros i ->. apply Hv. }
  intros ids st1 Hd. destruct ids as [ids|].
  - destruct Hd as (T1&Hm1&Hem1&Hnot&Hnd&Hids&(Htab&Hreg&Hsplit)&HT1&Hall&Hother).
    pose proof (in_tree_moved _ _ _ _ _ _ _ _ _ Hm1) as Hin1. destruct Hm1 as (p1&->&Ho1&Ht1&Hok1&Hoth1).
    apply returns_bind. eapply returns_mono.
    { eapply (attach_ok _ n); [exact Hin1|exact Ht1|lia|lia|exact Hok1|exact Hw|by eapply valid_target_detached]. }
    intros more st2 (k'&wp&T2&id'&Hk'&Hm2&Hem2&(l'&Hl'&Hat)&->&Hkeep&Har).
    eapply finish_move; [exact Hm2|lia|exact Hoth1|..].
    + intros id l Hl He. destruct (Hem2 id l Hl He) as [Hl1|Hx%elem_of_nil]; [|done].
      destruct (Hem1 id l Hl1 He) as [?|?]; [by left|right]. rewrite elem_of_app. by left.
    + destruct r; [by rewrite app_nil_r|apply NoDup_app..]; (split; [done|]; split; [|apply NoDup_singleton]);
        intros id Hid ->%list_elem_of_singleton; apply Hat, elem_of_ids; by destruct (Hids _ Hid).
    + intros id Hid. assert (Hcase : id ∈ ids \/ id = id').
      { apply elem_of_app in Hid as [?|Hid]; [by left|]. destruct r; set_solver. }
      destruct Hcase as [Hin'| ->]; [|by exists l']. destruct (Hids id Hin') as (_&l&Hl). exists l. apply Hkeep; [done|].
      intros ->. destruct r as [i| |]; [|apply Hat, elem_of_ids; eauto..]. destruct Hat as [-> _]. by apply (Htab i).
    + exists id', l'. split; [done|]. destruct r as [i| |].
      * destruct Hat as [-> Hs]. split; [|done]. apply zget_Some in Hs as [_ Hs]. by eapply list_elem_of_lookup_2.
      * destruct Hat as [Hat ->]. rewrite Hreg in Hat. split; [left|done].
      * destruct Hat as [Hat ->]. rewrite Hreg in Hat. split; [left|done].
    + intros id l Hid Hl He. apply elem_of_app in Hid as [Hid|Hid]; [by destruct (Hids _ Hid)|].
      destruct r; [by apply elem_of_nil in Hid|..]; apply list_elem_of_singleton in Hid as ->; destruct Hat as [_ Hat];
        pose proof (leaves_nodup _ _ _ (proj1 (in_tree_moved _ _ _ _ _ _ _ _ _ Hm2))) as Hndl;
        by rewrite (leaf_unique _ _ _ _ Hndl Hl Hl'), Hat in He.
    + intros id Hid. apply elem_of_app. left. by apply Hall.
    + exists id'. split; [destruct r; cbn [is_new]; [done|rewrite <- Hreg; by apply Hat..]|].
      rewrite Har, HT1.
      * destruct r as [i| |]; [|done..]. cbn [rearranged]. by rewrite decide_False by (by eapply Hother).
      * intros Hf. destruct r as [i| |]; [destruct Hat as [-> _]; by eapply Hother|..];
          apply Hat, elem_of_ids; by apply Hids, Hall.
  - destruct Hd as (T1&Hreg&Hm&Hem&Hr). apply returns_ret. exists T1.
    pose proof (well_formed_moved _ _ _ _ _ _ _ _ _ Hm eq_refl) as Hwf.
    destruct Hm as (p&->&Ho&Ht1&Hok1&Hoth). destruct Hr as (i&->&HT1). split; [done|]. split; [done|].
    split; [|split; [done|exists w; split; [done|]; cbn [rearranged]; rewrite decide_True, <- HT1 by done;
      symmetry; by apply arranged_normal; [apply Ht1|]]].
    assert (Hp : (w, region) ∈ placed (leaves T1)).
    { apply (wo_where _ _ _ Hok1); [done|]. eauto. }
    apply elem_of_placed in Hp as (l&Hl&Hlw). exists region, l. split; [done|]. split; [done|]. split; [done|].
    by intros [].
Qed.
End Relocate.
