(* ===== verification/LayoutInv.v ===== *)
(** The invariant of a layout between frames: every operation of [Layout] on
    windows and regions keeps it, so that every reachable layout has it. Then what a
    move does to the windows, what merging splits does to the leaves, and a
    layout with three windows on which the properties are run. *)
From Stdlib Require Import ZArith Lia.
From stdpp Require Import base list gmap sets relations.
From S2P Require Import Prelude Pool Floats Errors Serial StateMonad Tabs Rect PoolOwned Layout LayoutTree LayoutSimplify LayoutSpec LayoutMove.
Open Scope Z_scope.

Section Invariant.
Context `{!WindowContent}.
Implicit Types (st : Layout) (T : tree).

(** ** The other operations on windows *)

Lemma windows_ok_same (wp wp' : Pool Window) L :
  Pool.inv wp' -> (forall w, w_region <$> Pool.try_get wp' w = w_region <$> Pool.try_get wp w) ->
  windows_ok None wp L -> windows_ok None wp' L.
Proof.
  intros Hinv Hsame [H1 H2 H3 H4]. constructor; [done|done| |done].
  intros w id Hw. rewrite H3 by done. specialize (Hsame w).
  destruct (Pool.try_get wp' w) as [win'|], (Pool.try_get wp w) as [win|]; simpl in Hsame; try done.
  injection Hsame as Hs. split; intros (x&[= <-]&Hx); eexists; (split; [reflexivity|congruence]).
Qed.

(** A write that keeps the regions. *)
Lemma window_write_ok st T w win f (Q : unit -> Layout -> Prop) :
  well_formed st T -> Pool.try_get (windows st) w = Some win -> w_region (f win) = w_region win ->
  (forall st', well_formed st' T -> Q tt st') -> returns (window_mut w f) Q st.
Proof.
  intros [H1 H2 H3 Hok] Hw Hf HQ. pose proof (wo_inv _ _ _ Hok) as Hinv.
  pose proof (Pool.write_refines (windows st) w f Hinv) as Hwr. rewrite Pool.abs_lookup in Hwr.
  destruct (Pool.try_get_mut (windows st) w f) as [wp|] eqn:E; [|congruence].
  destruct Hwr as (v&Hv&Hinv'&Habs&_). assert (v = win) as -> by congruence.
  eapply window_mut_ok; [unfold Pool.get_mut; by rewrite E|]. apply HQ. constructor; [done|done|done|].
  eapply windows_ok_same; [done| |exact Hok]. intros w'. rewrite <- (Pool.abs_lookup wp), Habs.
  destruct (decide (w' = w)) as [->|Hne]; [rewrite lookup_insert_eq, Hw; simpl; by rewrite Hf|].
  by rewrite lookup_insert_ne, Pool.abs_lookup.
Qed.

(** Writing the tabs of one leaf of a well-formed layout. *)
Lemma write_tabs_ok st T id l l' (Q : unit -> Layout -> Prop) :
  well_formed st T -> (id, l) ∈ leaves T ->
  (forall p T' L1 L2, in_tree (next_seqno (regions st)) (with_tree st p T') T' -> sized (entries None T') -> normal T' ->
     zlen (entries None T') <= zlen (entries None T) ->
     leaves T = L1 ++ (id, l) :: L2 -> leaves T' = L1 ++ (id, l') :: L2 -> Q tt (with_tree st p T')) ->
  returns (leaf_set id l') Q st.
Proof.
  intros [Hin Hsz Hn Hok] Hl HQ. destruct (list_elem_of_split _ _ Hl) as (L1&L2&HL).
  eapply (write_leaf_ok _ (zlen (entries None T))); [exact Hin|split; [done|split; [lia|done]]|exact HL|].
  intros p T' Ho (Hsz'&Hlen'&Hn') HL' _ _. by eapply HQ.
Qed.

(** Adding a window to the pool. *)
Lemma windows_ok_add (wp wp' : Pool Window) win L w :
  windows_ok None wp L -> Pool.inv wp' -> Pool.abs wp' = <[w := win]> (Pool.abs wp) -> Pool.abs wp !! w = None ->
  match w_region win with
  | None => windows_ok None wp' L
  | Some id => forall L', placed L' ≡ₚ (w, id) :: placed L -> windows_ok None wp' L'
  end.
Proof.
  intros [H1 H2 H3 H4] Hinv Habs Hfr.
  assert (Hnot : forall id, (w, id) ∉ placed L).
  { intros id Hid. apply H3 in Hid as (x&Hx&_); [|done]. rewrite <- Pool.abs_lookup in Hx. congruence. }
  assert (Hg : forall w', Pool.try_get wp' w' = if decide (w' = w) then Some win else Pool.try_get wp w').
  { intros w'. rewrite <- Pool.abs_lookup, Habs. case_decide as Hd; [subst; by rewrite lookup_insert_eq|].
    by rewrite lookup_insert_ne, Pool.abs_lookup. }
  destruct (w_region win) as [id|] eqn:Hr.
  - intros L' HL'. constructor; [done| | |done].
    + rewrite HL'. cbn [fmap list_fmap fst]. constructor; [|done].
      intros ([w' id']&->&Hin)%list_elem_of_fmap. by apply (Hnot id').
    + intros w' id' _. rewrite HL', elem_of_cons, Hg. case_decide as Hd.
      * subst w'. split; [intros [[= ->]|Hin]; [by eexists|by apply Hnot in Hin]|]. intros (x&[= <-]&Hx). left. congruence.
      * rewrite <- H3 by done. split; [intros [[= ? ?]|?]; done|by right].
  - constructor; [done|done| |done]. intros w' id' _. rewrite Hg. case_decide as Hd.
    + subst w'. split; [intros Hin; by apply Hnot in Hin|]. intros (x&[= <-]&Hx). congruence.
    + by apply H3.
Qed.

Lemma placed_push id l (state : TabsState) w L1 L2 :
  placed (L1 ++ (id, mkLeaf (tabs l ++ [w]) state) :: L2) ≡ₚ (w, id) :: placed (L1 ++ (id, l) :: L2).
Proof.
  apply (placed_take w id _ l (tabs l) []); [done|by rewrite app_nil_r].
Qed.

Lemma make_window_region p t : w_region (make_window p t) = p.
Proof. unfold make_window. by destruct (List.find _ _). Qed.

Lemma new_window_ok st T parent t :
  well_formed st T -> next_seqno (windows st) + 1 < 2 ^ 64 ->
  match parent with Some id => exists l, (id, l) ∈ leaves T | None => True end ->
  returns (new_window parent t) (fun w st' => exists T', well_formed st' T' /\ zlen (entries None T') <= zlen (entries None T) /\
    Pool.try_get (windows st') w = Some (make_window parent t)) st.
Proof.
  intros Hwf Hk Hp. pose proof (wf_windows _ _ Hwf) as Hok. pose proof (wo_inv _ _ _ Hok) as Hinv.
  destruct (Pool.add_refines (windows st) (make_window parent t) Hinv Hk) as (w&wp&Hadd&_&_&Hfr&Hinv'&Habs&_).
  pose proof (windows_ok_add _ wp (make_window parent t) _ w Hok Hinv' Habs Hfr) as Hok'. rewrite make_window_region in Hok'.
  assert (Hw : Pool.try_get wp w = Some (make_window parent t)) by (by rewrite <- Pool.abs_lookup, Habs, lookup_insert_eq).
  apply returns_bind. unfold returns, window_add. srun. rewrite Hadd. cbn [widen]. srun.
  change (returns (_ ← match parent with Some id => l ← leaf_get id; leaf_set id (mkLeaf (tabs l ++ [w]) (tabs_state l)) | None => mret tt end; mret w)
    (fun w st' => exists T', well_formed st' T' /\ zlen (entries None T') <= zlen (entries None T) /\
      Pool.try_get (windows st') w = Some (make_window parent t)) (set_windows wp st)).
  destruct Hwf as [Hin Hsz Hn _]. destruct parent as [id|].
  - destruct Hp as (l&Hl). destruct (list_elem_of_split _ _ Hl) as (L1&L2&HL).
    apply returns_bind, returns_bind. eapply (read_leaf_ok _ _ _ _ l); [exact Hin|exact Hl|].
    eapply (write_leaf_ok _ (zlen (entries None T))); [exact Hin|split; [done|split; [lia|done]]|exact HL|].
    intros p T' Ho (Hsz'&Hlen'&Hn') HL' _ _. apply returns_ret. exists T'. split; [|done]. 
    destruct Ho as [Ho Hke]. constructor; [|done|done|].
    + split; [split; [exact Ho|done]|done].
    + cbn [with_tree windows set_windows]. apply Hok'. rewrite HL', HL. apply placed_push.
  - apply returns_bind, returns_ret, returns_ret. exists T. split; [|done]. by constructor.
Qed.

Lemma attach_window_ok st T leaf w win :
  well_formed st T -> (exists l, (leaf, l) ∈ leaves T) ->
  Pool.try_get (windows st) w = Some win -> w_region win = None ->
  returns (attach_window leaf w) (fun _ st' => exists T', well_formed st' T' /\ zlen (entries None T') <= zlen (entries None T)) st.
Proof.
  intros Hwf (l&Hl) Hw Hr. pose proof (wf_windows _ _ Hwf) as Hok.
  assert (Hbut : windows_ok (Some w) (windows st) (leaves T)).
  { destruct Hok as [H1 H2 H3 _]. constructor; [done|done| |].
    - intros w' id _. by apply H3.
    - intros ? [= ->] ([w' id]&->&Hp)%list_elem_of_fmap. apply H3 in Hp as (x&Hx&Hid); [|done]. simpl in *. congruence. }
  apply returns_bind. eapply window_get_ok; [exact Hw|].
  apply returns_bind, returns_assert; [by apply bool_decide_eq_true|].
  apply returns_bind. eapply (read_leaf_ok _ _ _ _ l); [exact (wf_tree _ _ Hwf)|exact Hl|].
  apply returns_bind. eapply write_tabs_ok; [exact Hwf|exact Hl|].
  intros p T' L1 L2 Hin' Hsz' Hn' Hlen' HL HL'.
  destruct (windows_ok_put w win (windows st) leaf (leaves T) (leaves T') Hbut Hw) as (wp&Hmut&Hok').
  { rewrite HL', HL. apply placed_push. }
  eapply window_mut_ok; [exact Hmut|]. exists T'. split; [|done]. constructor; [|done|done|done].
  destruct Hin' as [[Ho Hk] Hroot]. split; [by split|done].
Qed.

(** ** Splits *)

Lemma split_well_formed st T id x axis walls e :
  well_formed st T -> (id, x) ∈ entries None T ->
  match r_content x with Split s => s_axis s <> axis | Leaf _ => True end ->
  walls_ok walls = true -> 0 <= e <= zlen walls ->
  next_seqno (regions st) + 1 + zlen walls < 2 ^ 64 -> zlen (entries None T) + zlen walls + 1 < region_max ->
  returns (split id axis walls e)
    (fun cs st' => exists T' L1 L2 M ids1 ids2, well_formed st' T' /\
       zlen (entries None T') <= zlen (entries None T) + zlen walls + 1 /\
       zlen ids1 = e /\ zlen ids2 = zlen walls - e /\ cs = ids1 ++ [id] ++ ids2 /\
       leaves T = L1 ++ M ++ L2 /\
       leaves T' = L1 ++ ((fun i => (i, RegionLeaf_default)) <$> ids1) ++ M ++ ((fun i => (i, RegionLeaf_default)) <$> ids2) ++ L2) st.
Proof.
  intros [Hin Hsz Hn Hok] Hx Hax Hw He Hk Hroom. destruct (focus _ _ _ _ Hx) as (C&t&HT&<-).
  assert (Hx' : x = head_region (cparent C) t).
  { destruct Hin as [[Ho _] _]. pose proof (owned_try_get _ _ _ _ Ho Hx) as H1.
    rewrite HT in Ho. pose proof (owned_try_get _ _ _ _ Ho (node_entry C t)). congruence. }
  assert (Haxis : top_axis t <> Some axis).
  { subst x. destruct t as [|id i ax ts]; [done|]. simpl in *. congruence. }
  assert (Hfine : fine T) by (split; [done|split; [pose proof (zlen_nonneg walls); lia|by apply normal_leaves]]).
  pose proof Hok as Hok0. rewrite HT in Hin, Hfine, Hn, Hroom.
  eapply returns_mono; [apply (split_ok _ st C t axis walls e Hin Hfine Hn Haxis Hw He Hk Hroom)|].
  intros cs st' (ids1&ids2&p&T'&Hl1&Hl2&->&->&Ho&HL&Hsz'&Hlen'&Hn'&_).
  exists T', (leaves_left C), (leaves_right C), (leaves t), ids1, ids2.
  rewrite HT, leaves_plug. split; [|split; [done|split; [done|split; [done|split; [done|split; [done|done]]]]]].
  destruct Ho as [Ho Hke]. constructor; [split; [by split|done]|done|done|].
  cbn [with_tree windows]. eapply windows_ok_perm; [|exact Hok0]. rewrite HL, HT, leaves_plug.
  assert (Hz : forall ids : list Id, placed ((fun i => (i, RegionLeaf_default)) <$> ids) = []).
  { clear. induction ids as [|i ids IH]; [done|]. cbn [fmap list_fmap]. by rewrite placed_cons, IH. }
  by rewrite !placed_app, !Hz.
Qed.

(** ** Reachable layouts *)

Lemma new_layout_well_formed :
  exists st, layout_new = Ret st /\ well_formed st (TLeaf (root st) (mkInfo 1000000 Rect_default) RegionLeaf_default).
Proof.
  destruct (owned_add Pool.new [] Region_default owned_nil) as (id&p&Hadd&Ho&Hk); [done|].
  unfold layout_new. rewrite Hadd. eexists. split; [reflexivity|]. cbn [root]. constructor.
  - split; [|done]. split; [exact Ho|]. done.
  - apply Forall_singleton. done.
  - constructor.
  - constructor; [apply Pool.inv_new|constructor| |done]. intros w i _. split; [by intros ?%elem_of_nil|].
    intros (win&Hw&_). rewrite <- Pool.abs_lookup in Hw. done.
Qed.

Inductive layout_op :=
  | OpSplit (region : Id) (axis : Z) (walls : list f64) (existing_idx : Z)
  | OpNewWindow (parent : option Id) (t : WindowType)
  | OpAttach (leaf w : Id)
  | OpRelocate (w region : Id) (r : WindowRelocation)
  | OpHotkey (w : Id) (number : Z)
  | OpFixedSize (w : Id) (axis size : Z).

Definition run_op (op : layout_op) : lay unit :=
  match op with
  | OpSplit region axis walls e => _ ← split region axis walls e; mret tt
  | OpNewWindow parent t => _ ← new_window parent t; mret tt
  | OpAttach leaf w => attach_window leaf w
  | OpRelocate w region r => relocate_window w region r
  | OpHotkey w number => set_hotkey_number w number
  | OpFixedSize w axis size => set_fixed_size w axis size
  end.

(** The region is a leaf; a split. *)
Definition has_leaf st (id : Id) : Prop := exists x l, Pool.try_get (regions st) id = Some x /\ r_content x = Leaf l.
Definition has_room st (n : Z) : Prop :=
  zlen (Pool.live (regions st)) + n < region_max /\ next_seqno (regions st) + n < 2 ^ 64.

(** What the callers of an operation make sure of. *)
Definition allowed st (op : layout_op) : Prop :=
  match op with
  | OpSplit region axis walls e =>
      (exists x, Pool.try_get (regions st) region = Some x /\
         match r_content x with Split s => s_axis s <> axis | Leaf _ => True end) /\
      walls_ok walls = true /\ 0 <= e <= zlen walls /\ has_room st (zlen walls + 1)
  | OpNewWindow parent t =>
      match parent with Some id => has_leaf st id | None => True end /\ next_seqno (windows st) + 1 < 2 ^ 64
  | OpAttach leaf w => has_leaf st leaf /\ exists win, Pool.try_get (windows st) w = Some win /\ w_region win = None
  | OpRelocate w region r =>
      is_Some (Pool.try_get (windows st) w) /\ has_room st 2 /\
      match r with
      | AddTab i => 0 <= i /\ has_leaf st region
      | AddToExistingSplit i =>
          exists x s, Pool.try_get (regions st) region = Some x /\ r_content x = Split s /\ 1 <= i < zlen (s_children s)
      | SplitLeaf axis side => (side = 0 \/ side = 1) /\ has_leaf st region
      end
  | OpHotkey w _ => is_Some (Pool.try_get (windows st) w)
  | OpFixedSize w axis _ => is_Some (Pool.try_get (windows st) w) /\ is_axis axis
  end.

Inductive reachable_layout : Layout -> Prop :=
  | reach_new st : layout_new = Ret st -> reachable_layout st
  | reach_op st op r st' :
      reachable_layout st -> allowed st op -> run_op op st = (r, st') -> reachable_layout st'.

Lemma wf_entry st T id x : well_formed st T -> Pool.try_get (regions st) id = Some x -> (id, x) ∈ entries None T.
Proof. intros [[[Ho _] _] _ _ _] Hx. by eapply owned_elem. Qed.

Lemma entry_leaf p T id x l : (id, x) ∈ entries p T -> r_content x = Leaf l -> (id, l) ∈ leaves T.
Proof.
  revert p. induction T as [id' i l'|id' i axis ts IH] using tree_forest_ind; intros p Hx Hl.
  - apply list_elem_of_singleton in Hx as [= -> ->]. injection Hl as ->. left.
  - rewrite entries_unfold in Hx. apply elem_of_cons in Hx as [[= -> ->]|Hx]; [done|].
    apply elem_of_concat in Hx as (es&Hes&(t&->&Ht)%list_elem_of_fmap). cbn [kids] in Ht.
    rewrite leaves_split. apply elem_of_concat. exists (leaves t). rewrite Forall_forall in IH.
    split; [by eapply IH|]. apply list_elem_of_fmap. by exists t.
Qed.

Lemma wf_leaf st T id : well_formed st T -> has_leaf st id -> exists l, (id, l) ∈ leaves T.
Proof. intros Hwf (x&l&Hx&Hl). exists l. eapply entry_leaf; [by eapply wf_entry|done]. Qed.

Lemma wf_room st T n : well_formed st T -> has_room st n -> zlen (entries None T) + n < region_max /\ next_seqno (regions st) + n < 2 ^ 64.
Proof.
  intros [[[Ho _] _] _ _ _] [Hl Hn]. split; [|done].
  by rewrite <- (owned_unique _ _ _ Ho (owned_live _ (owned_inv _ _ Ho))) in Hl.
Qed.

Lemma run_op_ok st T op :
  well_formed st T -> allowed st op -> returns (run_op op) (fun _ st' => exists T', well_formed st' T') st.
Proof.
  intros Hwf Hop. destruct op as [region axis walls e|parent t|leaf w|w region r|w number|w axis size]; cbn [run_op allowed] in *.
  - destruct Hop as ((x&Hx&Hax)&Hw&He&[Hr1 Hr2]%(wf_room _ _ _ Hwf)). apply returns_bind.
    eapply returns_mono; [eapply split_well_formed; try done; [by eapply wf_entry|lia|lia]|].
    intros cs st' (T'&?&?&?&?&?&Hwf'&_). apply returns_ret. by exists T'.
  - destruct Hop as [Hp Hk]. apply returns_bind. eapply returns_mono; [eapply new_window_ok; [done|done|]|].
    + destruct parent; [|done]. by eapply wf_leaf.
    + intros w st' (T'&Hwf'&_). apply returns_ret. by exists T'.
  - destruct Hop as [Hl (win&Hw&Hr)]. eapply returns_mono; [eapply attach_window_ok; try done; by eapply wf_leaf|].
    intros _ st' (T'&Hwf'&_). by exists T'.
  - destruct Hop as [[win Hw] [[Hr1 Hr2]%(wf_room _ _ _ Hwf) Ht]].
    eapply returns_mono; [eapply (relocate_runs _ _ _ win); try done|].
    + destruct r; simpl.
      * destruct Ht as [? ?%(wf_leaf _ _ _ Hwf)]. done.
      * destruct Ht as (x&s&Hx&Hs&Hi). exists x, s. split; [by eapply wf_entry|done].
      * destruct Ht as [? ?%(wf_leaf _ _ _ Hwf)]. done.
    + intros _ st' (T'&Hwf'&_). by exists T'.
  - destruct Hop as [win Hw]. eapply window_write_ok; [done|done|done|]. eauto.
  - destruct Hop as [[win Hw] Hax]. apply returns_bind. eapply window_get_ok; [exact Hw|].
    apply returns_bind. destruct Hax as [-> | ->]; (eapply returns_lift; [reflexivity|]);
      (eapply window_write_ok; [done|done|done|]; eauto).
Qed.

Lemma reachable_wf st : reachable_layout st -> exists T, well_formed st T.
Proof.
  induction 1 as [st Hnew|st op r st' _ [T Hwf] Hop Hrun].
  - destruct new_layout_well_formed as (st'&Hnew'&Hwf). rewrite Hnew in Hnew'. injection Hnew' as <-. eauto.
  - pose proof (run_op_ok _ _ _ Hwf Hop) as Hr. unfold returns in Hr. rewrite Hrun in Hr. by destruct r.
Qed.

(** C5. The layout: whatever sequence of splits, new, attached, moved and
    changed windows led to it, the regions of a layout are exactly the nodes
    of a tree with consistent parents, in which no split has fewer than two
    children or a child split along its own axis; a window names a leaf if and
    only if it is a tab of that leaf, once; and every further operation whose
    arguments exist returns: none of its assertions, [unwrap]s, [as_leaf]s or
    divisions panics. *)
Theorem layout_invariant st :
  reachable_layout st ->
  (exists T, well_formed st T) /\
  forall op, allowed st op -> exists st', run_op op st = (Ret tt, st') /\ reachable_layout st'.
Proof.
  intros Hst. destruct (reachable_wf st Hst) as [T Hwf]. split; [by exists T|].
  intros op Hop. pose proof (run_op_ok _ _ _ Hwf Hop) as Hr. unfold returns in Hr.
  destruct (run_op op st) as [[[]| |] st'] eqn:E; [|done|done]. exists st'. split; [done|]. by eapply reach_op.
Qed.
End Invariant.

Section Props.
Context `{!WindowContent}.
Implicit Types (st : Layout) (T : tree).

(** C11. Moving a window: in a reachable layout every move whose target exists
    returns, never panics. The leaves then lie exactly as the move says
    ([rearranged], which edits the tree of regions from before): the window is
    out of its old leaf, and is the selected tab before the given tab of the
    target leaf; or alone in a new leaf that is child [wall_idx] of the target
    split; or alone in a new leaf that shares the target leaf's place with it,
    split along the given axis, on the given side; or, if it was a tab of the
    target leaf, at its new place among the tabs. Its old leaf is gone if that
    left it empty, a split of one child is replaced by the child, a split inside a
    split along the same axis by its children, and nothing else changes: the other
    windows are in the same order of leaves and tabs, no region is left empty
    that was not before, and each window names the leaf it is in. *)
Theorem relocate_moves_one_window st w region r win :
  reachable_layout st -> allowed st (OpRelocate w region r) -> Pool.try_get (windows st) w = Some win ->
  exists st' T T' new, relocate_window w region r st = (Ret tt, st') /\
    well_formed st T /\ well_formed st' T' /\
    bare T' = rearranged w (w_region win) region r new T /\ is_new r new T /\
    others w (leaves T') = others w (leaves T) /\ landed w region r win T T' /\ empties_from [] T T'.
Proof.
  intros Hst Hop Hw. destruct (reachable_wf st Hst) as [T Hwf].
  destruct Hop as [_ [[Hr1 Hr2]%(wf_room _ _ _ Hwf) Ht]].
  assert (Hr : returns (relocate_window w region r) (fun _ => relocated st T w region r win) st).
  { apply relocate_runs; try done. destruct r; simpl.
    - destruct Ht as [? ?%(wf_leaf _ _ _ Hwf)]. done.
    - destruct Ht as (x&s&Hx&Hs&Hi). exists x, s. split; [by eapply wf_entry|done].
    - destruct Ht as [? ?%(wf_leaf _ _ _ Hwf)]. done. }
  unfold returns in Hr. destruct (relocate_window w region r st) as [[[]| |] st']; [|done|done].
  destruct Hr as (T'&?&?&?&?&new&?&?). by exists st', T, T', new.
Qed.

(** C33. [simplify_splits] terminates: in any tree of regions, started at any
    of its nodes, the loop that merges splits of one child into their parents
    and splits along the parent's axis into the parent ends without a panic;
    the leaves are the same and in the same order, no region is made up, the
    windows are untouched, and when only this node was out of order, the tree
    is normal: every split has two children or more and none along its own
    axis. *)
Theorem simplify_splits_terminates st C t :
  in_tree (next_seqno (regions st)) st (plug C t) -> fine (plug C t) ->
  exists st' T', simplify_splits (tid t) st = (Ret tt, st') /\
    in_tree (next_seqno (regions st)) st' T' /\ leaves T' = leaves (plug C t) /\
    zlen (entries None T') <= zlen (entries None (plug C t)) /\ windows st' = windows st /\
    (normal_ctx C /\ nearly_normal t -> normal T').
Proof.
  intros Hin Hfine. pose proof (simplify_splits_ok _ st C t Hin Hfine) as Hr. unfold returns in Hr.
  destruct (simplify_splits (tid t) st) as [[[]| |] st']; [|done|done].
  destruct Hr as (p&T'&->&Ho&Hl&_&Hlen&Hn&_). eexists _, T'. split; [reflexivity|].
  split; [|done]. split; [exact Ho|done].
Qed.
End Props.

(** ** Examples: a layout of three windows *)

(** Windows without state of their own. *)
Definition no_content : WindowContent :=
  {| content_t := unit; create_window := fun _ => tt; content_save := fun _ => Ret [];
     content_load := fun _ (inp : list Z) => Ret (tt, inp) |}.

Section Examples.
#[local] Existing Instance no_content.

Definition after_op (op : layout_op) (st : Layout) : Layout := (run_op op st).2.
Definition start : Layout := match layout_new with Ret st => st | _ => mkLayout Pool.new None Pool.new Id_default Id_default end.
(** A leaf to the left of the root leaf; two windows there, one on the right. *)
Definition left_leaf : Id := mkId 2 3.
Definition right_leaf : Id := mkId 0 1.
Definition example_split : Layout := after_op (OpSplit right_leaf 0 [f64_half] 1) start.
Definition example_first : Layout := after_op (OpNewWindow (Some left_leaf) CodeWin) example_split.
Definition example_second : Layout := after_op (OpNewWindow (Some left_leaf) Stack) example_first.
Definition example_layout : Layout := after_op (OpNewWindow (Some right_leaf) Threads) example_second.

Lemma start_reachable : reachable_layout start.
Proof. by apply reach_new. Defined.
Lemma after_op_reachable st op : reachable_layout st -> allowed st op -> reachable_layout (after_op op st).
Proof. intros Hst Hop. eapply (reach_op st op (run_op op st).1); [done|done|]. apply surjective_pairing. Defined.

Lemma example_split_allowed : allowed start (OpSplit right_leaf 0 [f64_half] 1).
Proof.
  split; [eexists; split; vm_compute; reflexivity || exact I|].
  split; [vm_compute; reflexivity|]. split; [split; by vm_compute|]. split; by vm_compute.
Defined.
Lemma example_layout_reachable : reachable_layout example_layout.
Proof.
  repeat apply after_op_reachable; [apply start_reachable|apply example_split_allowed|..];
    (split; [eexists _, _; split; vm_compute; reflexivity|by vm_compute]).
Defined.

Example layout_invariant_witness :
  reachable_layout example_layout /\
  exists st', run_op (OpRelocate (mkId 0 1) right_leaf (SplitLeaf 1 0)) example_layout = (Ret tt, st') /\ reachable_layout st'.
Proof.
  split; [exact example_layout_reachable|].
  apply (layout_invariant example_layout example_layout_reachable).
  split; [vm_compute; by eexists|]. split; [split; by vm_compute|].
  split; [by left|]. eexists _, _. split; vm_compute; reflexivity.
Defined.

(** The only window of the right leaf goes below the left one: the right leaf
    goes, and the layout is a split of the left leaf and a new one. *)
Example relocate_moves_one_window_witness :
  exists st' T T' new, relocate_window (mkId 2 3) left_leaf (SplitLeaf 1 1) example_layout = (Ret tt, st') /\
    well_formed example_layout T /\ well_formed st' T' /\
    bare T' = rearranged (mkId 2 3) (Some right_leaf) left_leaf (SplitLeaf 1 1) new T /\
    (fun e => (e.1, r_content e.2)) <$> Pool.live (regions st') =
      [(left_leaf, Leaf (mkLeaf [mkId 0 1; mkId 1 2] TabsState_default));
       (mkId 3 4, Split (mkSplit 1 [left_leaf; mkId 4 5])); (mkId 4 5, Leaf (mkLeaf [mkId 2 3] TabsState_default))].
Proof.
  destruct (relocate_moves_one_window example_layout (mkId 2 3) left_leaf (SplitLeaf 1 1) (set_region (Some right_leaf) (make_window (Some right_leaf) Threads)) example_layout_reachable)
    as (st'&T&T'&new&Hr&HwfT&Hwf&Hb&_).
  - split; [vm_compute; by eexists|]. split; [split; by vm_compute|]. split; [by right|]. eexists _, _. split; vm_compute; reflexivity.
  - vm_compute. reflexivity.
  - exists st', T, T', new. split; [exact Hr|]. split; [exact HwfT|]. split; [exact Hwf|]. split; [exact Hb|].
    vm_compute in Hr. injection Hr as <-. vm_compute. reflexivity.
Defined.

(** A split along the axis of its parent. *)
Definition nested : tree :=
  TSplit (mkId 2 3) (mkInfo 600000 Rect_default) 0
    [TLeaf (mkId 1 2) (mkInfo 1 Rect_default) RegionLeaf_default; TLeaf (mkId 0 1) (mkInfo 3 Rect_default) RegionLeaf_default].
Definition nesting : list frame :=
  [mkFrame (mkId 4 5) (mkInfo 1000000 Rect_default) 0 [TLeaf (mkId 3 4) (mkInfo 400000 Rect_default) RegionLeaf_default] []].
Definition nested_pool : Pool Region :=
  foldr (fun r p => match Pool.add p r with Ret (_, p') => p' | _ => p end) Pool.new (entries None (plug nesting nested)).*2.
Definition nested_layout : Layout := mkLayout Pool.new None nested_pool (mkId 4 5) Id_default.

Lemma nested_pool_owned : owned nested_pool (entries None (plug nesting nested)).
Proof.
  unfold nested_pool.
  destruct (owned_add Pool.new [] (nth 4 (entries None (plug nesting nested)).*2 Region_default) owned_nil) as (i1&p1&E1&O1&_); [done|].
  destruct (owned_add p1 _ (nth 3 (entries None (plug nesting nested)).*2 Region_default) O1) as (i2&p2&E2&O2&_); [vm_compute in E1; by injection E1 as <- <-|].
  vm_compute in E1. injection E1 as <- <-.
  destruct (owned_add p2 _ (nth 2 (entries None (plug nesting nested)).*2 Region_default) O2) as (i3&p3&E3&O3&_); [vm_compute in E2; by injection E2 as <- <-|].
  vm_compute in E2. injection E2 as <- <-.
  destruct (owned_add p3 _ (nth 1 (entries None (plug nesting nested)).*2 Region_default) O3) as (i4&p4&E4&O4&_); [vm_compute in E3; by injection E3 as <- <-|].
  vm_compute in E3. injection E3 as <- <-.
  destruct (owned_add p4 _ (nth 0 (entries None (plug nesting nested)).*2 Region_default) O4) as (i5&p5&E5&O5&_); [vm_compute in E4; by injection E4 as <- <-|].
  vm_compute in E4. injection E4 as <- <-. vm_compute in E5. injection E5 as <- <-. exact O5.
Qed.

Example simplify_splits_terminates_witness :
  exists st' T', simplify_splits (mkId 2 3) nested_layout = (Ret tt, st') /\ normal T' /\
    (fun e => (e.1, relative_size e.2)) <$> Pool.live (regions st') =
      [(mkId 0 1, 450000); (mkId 1 2, 150000); (mkId 3 4, 400000); (mkId 4 5, 1000000)].
Proof.
  destruct (simplify_splits_terminates nested_layout nesting nested) as (st'&T'&Hr&_&_&_&_&Hn).
  - split; [split; [exact nested_pool_owned|reflexivity]|reflexivity].
  - split; [repeat constructor; by vm_compute|]. split; [by vm_compute|done].
  - exists st', T'. split; [exact Hr|]. split.
    + apply Hn. split; [|split; [done|split; repeat constructor; done]].
      simpl. split; [|split]; repeat constructor; done.
    + vm_compute in Hr. injection Hr as <-. vm_compute. reflexivity.
Defined.
End Examples.
