(* ===== verification/LayoutBuild.v ===== *)
(** Placing the regions of a split on the screen: [build_split] of
    src/layout.rs, with walls that are dragged; and the bitmap of wall pieces
    that [trace_wall] draws into. *)
From Stdlib Require Import ZArith Lia.
From stdpp Require Import base list gmap sets.
From S2P Require Import Prelude Pool Errors StateMonad Tabs Rect Layout.
Open Scope Z_scope.

(** A child of a split: whether its size is fixed, the size, the region. *)
Definition child : Type := bool * Z * Id.
Definition c_fixed (c : child) : bool := c.1.1.
Definition c_size (c : child) : Z := c.1.2.
Definition c_id (c : child) : Id := c.2.

(** ** Sums of sizes and positions of walls *)

(** The rest of [calculate_cumsum] from child [i] on, after the last sum [s]. *)
Fixpoint cumsum_from (i : Z) (s : Z * Z) (children : list child) : partial (list (Z * Z)) :=
  match children with
  | [] => Ret []
  | c :: children =>
      s ← (if c_fixed c then a ← uadd s.1 (c_size c); Ret (a, s.2) else b ← uadd s.2 (c_size c); Ret (s.1, b));
      s ← (if 0 <? i then a ← uadd s.1 1; Ret (a, s.2) else Ret s);
      rest ← cumsum_from (i + 1) s children;
      Ret (s :: rest)
  end.
Definition calculate_cumsum (children : list child) : partial (list (Z * Z)) :=
  rest ← cumsum_from 0 (0, 0) children; Ret ((0, 0) :: rest).

Definition pdiv (a b : Z) : partial Z := if b =? 0 then Panic else Ret (a / b).

(** The position of wall [i] and whether it can be dragged. *)
Definition calculate_wall_pos (size i : Z) (cumsum : list (Z * Z)) : partial (Z * bool) :=
  '(fixed_left, flexible_left) ← lift_opt (zget cumsum i);
  '(fixed, flexible) ← lift_opt (last cumsum);
  if (size <=? fixed) || (flexible_left =? 0) then Ret (fixed_left, false)
  else
    space ← usub size fixed;
    x ← umul space flexible_left;
    x ← uadd x (flexible / 2);
    q ← pdiv x flexible;
    p ← uadd fixed_left q;
    Ret (p, flexible_left <? flexible).

(** [while children[prev].0 { prev -= 1 }] *)
Fixpoint flexible_before (children : list child) (prev : nat) : partial nat :=
  c ← lift_opt (children !! prev);
  if c_fixed c then match prev with O => Panic | S prev => flexible_before children prev end else Ret prev.
(** [while children[next].0 { next += 1 }], over the children left. *)
Fixpoint flexible_after (children : list child) (next : nat) : partial nat :=
  match children with
  | [] => Panic
  | c :: children => if c_fixed c then flexible_after children (S next) else Ret next
  end.

Definition set_c_size (s : Z) (c : child) : child := (c_fixed c, s, c_id c).

(** A drag of wall [i], which is at [pos], by [p] cells. *)
Definition resize (size i pos p : Z) (children : list child) (cumsum : list (Z * Z)) : partial (list child) :=
  '(fixed_left, flexible_left) ← lift_opt (zget cumsum i);
  '(fixed, flexible) ← lift_opt (last cumsum);
  space ← usub size fixed;
  limit ← uadd space fixed_left;
  let p := Z.min (Z.max (pos + p) fixed_left) limit in
  d ← usub p fixed_left;
  x ← umul flexible d;
  target_left ← pdiv x space;
  prev ← flexible_before children (Z.to_nat (i - 1));
  next ← flexible_after (drop (Z.to_nat i) children) (Z.to_nat i);
  '(_, before) ← lift_opt (cumsum !! prev);
  '(_, after) ← lift_opt (cumsum !! S next);
  c_prev ← lift_opt (children !! prev);
  c_next ← lift_opt (children !! next);
  between ← usub after before;
  total ← uadd (c_size c_prev) (c_size c_next);
  _ ← rassert (between =? total);
  lo ← uadd before 1;
  hi ← usub after 1;
  let target_left := Z.min (Z.max target_left lo) hi in
  new_prev ← usub target_left before;
  new_next ← usub after target_left;
  Ret (<[next := set_c_size new_next c_next]> (<[prev := set_c_size new_prev c_prev]> children)).

(** The loop over the inner walls: [drags i] is what [check_drag_out] returns
    for wall [i], along the axis. The children, their sums, and whether any
    was resized. *)
Fixpoint drag_walls (size : Z) (drags : Z -> option Z) (ws : list Z) (children : list child) (cumsum : list (Z * Z))
    (resized : bool) : partial (list child * list (Z * Z) * bool) :=
  match ws with
  | [] => Ret (children, cumsum, resized)
  | i :: ws =>
      '(pos, movable) ← calculate_wall_pos size i cumsum;
      match (if movable : bool then drags i else None) with
      | None => drag_walls size drags ws children cumsum resized
      | Some p =>
          if p =? 0 then drag_walls size drags ws children cumsum resized
          else
            children ← resize size i pos p children cumsum;
            cumsum ← calculate_cumsum children;
            drag_walls size drags ws children cumsum true
      end
  end.

(** The final positions of the inner walls. *)
Fixpoint wall_positions (size : Z) (ws : list Z) (cumsum : list (Z * Z)) : partial (list Z) :=
  match ws with
  | [] => Ret []
  | i :: ws => '(pos, _) ← calculate_wall_pos size i cumsum; rest ← wall_positions size ws cumsum; Ret (pos :: rest)
  end.

(** The layout of one split without its regions: the children with their new
    sizes, all walls from the left edge to the right, and [resized]. *)
Definition place_children (size : Z) (drags : Z -> option Z) (children : list child) : partial (list child * list Z * bool) :=
  _ ← rassert (negb (zlen children =? 0));
  cumsum ← calculate_cumsum children;
  let inner := seqZ 1 (zlen children - 1) in
  '(children, cumsum, resized) ← drag_walls size drags inner children cumsum false;
  walls ← wall_positions size inner cumsum;
  Ret (children, -1 :: walls ++ [size], resized).

(** The area between two walls. *)
Definition child_area (axis : Z) (area : Rect) (wall next_wall : Z) : partial Rect :=
  p ← at_axis (pos area) axis;
  position ← set_axis (pos area) axis (p + (wall + 1));
  sizes ← set_axis (size area) axis (Z.max (next_wall - wall - 1) 0);
  Ret (mkRect position sizes).

Section Build.
Context `{!WindowContent}.

Definition split_child (axis : Z) (child_id : Id) : lay child :=
  child ← region_get child_id;
  match r_content child with
  | Leaf (mkLeaf [w] _) =>
      win ← window_get w;
      s ← slift (at_axis (fixed_size win) axis);
      match s with
      | Some s => mret (true, s, child_id)
      | None => mret (false, relative_size child, child_id)
      end
  | _ => mret (false, relative_size child, child_id)
  end.

Fixpoint split_children (axis : Z) (ids : list Id) : lay (list child) :=
  match ids with
  | [] => mret []
  | id :: ids => c ← split_child axis id; rest ← split_children axis ids; mret (c :: rest)
  end.

(** The last loop of [build_split]. *)
Fixpoint assign_areas (axis : Z) (area : Rect) (resized : bool) (children : list child) (walls : list Z) : lay unit :=
  match children with
  | [] => mret tt
  | c :: children =>
      wall ← sopt (zget walls 0);
      next_wall ← sopt (zget walls 1);
      _ ← swhen (resized && negb (c_fixed c)) (region_mut (c_id c) (set_relative_size (c_size c)));
      a ← slift (widen (child_area axis area wall next_wall));
      _ ← region_mut (c_id c) (set_area a);
      assign_areas axis area resized children (drop 1 walls)
  end.

Definition build_split (region_id : Id) (drags : Z -> option Z) : lay unit :=
  region ← region_get region_id;
  split ← sopt (as_split (r_content region));
  children ← split_children (s_axis split) (s_children split);
  sz ← slift (at_axis (size (r_area region)) (s_axis split));
  '(children, walls, resized) ← slift (widen (place_children sz drags children));
  assign_areas (s_axis split) (r_area region) resized children walls.
End Build.

(** ** Wall pieces

    Bits 0 to 3: lines to the left, right, up, down; bits 4 to 7: bold ones.
    Cells outside the area share one cell after the last. *)
Definition wall_masks_idx (x y : Z) (wall_area : Rect) : Z :=
  if contains wall_area (x, y)
  then (x - (pos wall_area).1) + (y - (pos wall_area).2) * width wall_area
  else width wall_area * height wall_area.

(** [wall_masks[idx] |= val] *)
Definition or_mask (masks : list Z) (idx val : Z) : partial (list Z) :=
  m ← lift_opt (zget masks idx); Ret (zset masks idx (Z.lor m val)).

Fixpoint trace_cells (axis : Z) (p : Z * Z) (mask : Z) (n : nat) (i : Z) (masks : list Z) (wall_area : Rect) : partial (list Z) :=
  match n with
  | O => Ret masks
  | S n =>
      c ← at_axis p (1 - axis);
      pp ← set_axis p (1 - axis) (c + i);
      masks ← or_mask masks (wall_masks_idx pp.1 pp.2 wall_area) mask;
      trace_cells axis p mask n (i + 1) masks wall_area
  end.

Definition trace_wall (axis : Z) (area : Rect) (wall_pos : Z) (bold : bool) (masks : list Z) (wall_area : Rect) : partial (list Z) :=
  len ← at_axis (size area) (1 - axis);
  c ← at_axis (pos area) axis;
  p ← set_axis (pos area) axis (c + wall_pos);
  let base := if bold then 4 else 0 in
  '(masks, mask) ←
    (if axis =? AxisY then
       masks ← or_mask masks (wall_masks_idx (p.1 - 1) p.2 wall_area) (Z.shiftl 2 base);
       masks ← or_mask masks (wall_masks_idx (p.1 + len) p.2 wall_area) (Z.shiftl 1 base);
       Ret (masks, Z.shiftl 3 base)
     else
       masks ← or_mask masks (wall_masks_idx p.1 (p.2 - 1) wall_area) (Z.shiftl 8 base);
       masks ← or_mask masks (wall_masks_idx p.1 (p.2 + len) wall_area) (Z.shiftl 4 base);
       Ret (masks, Z.shiftl 12 base));
  trace_cells axis p mask (Z.to_nat len) 0 masks wall_area.
