(* ===== verification/LayoutBuildSpec.v ===== *)
(** The geometry of a split: walls in order, children that tile the area, and
    walls that follow the mouse; and [trace_wall] within its bitmap. *)
From Stdlib Require Import ZArith Lia.
From stdpp Require Import base list gmap sets.
From S2P Require Import Prelude Pool PoolOwned Errors StateMonad Tabs Rect Layout LayoutTree LayoutSimplify LayoutBuild.
Open Scope Z_scope.

Definition zsum (l : list Z) : Z := foldr Z.add 0 l.
Lemma zsum_app l k : zsum (l ++ k) = zsum l + zsum k.
Proof. induction l as [|x l IH]; simpl; [done|]. unfold zsum in *. simpl. lia. Qed.
Lemma zsum_cons x l : zsum (x :: l) = x + zsum l.
Proof. done. Qed.

Definition fixed_part (c : child) : Z := if c_fixed c then c_size c else 0.
Definition flexible_part (c : child) : Z := if c_fixed c then 0 else c_size c.

(** The fixed sizes and the flexible sizes of the children before wall [i];
    the walls themselves are counted apart. *)
Definition fixed_before (children : list child) (i : Z) : Z := zsum (fixed_part <$> take (Z.to_nat i) children).
Definition flex_before (children : list child) (i : Z) : Z := zsum (flexible_part <$> take (Z.to_nat i) children).

(** The sums of sizes are within what the arithmetic allows: relative sizes
    of a split add up to less than 2^43, and a screen has fewer than 2^16
    cells. *)
Definition sum_max : Z := 2 ^ 43.
Record sane (size : Z) (children : list child) : Prop := mkSane {
  sane_some : 0 < zlen children < region_max;
  sane_sizes : Forall (fun c => 0 <= c_size c) children;
  sane_flexible : flex_before children (zlen children) <= sum_max;
  sane_fixed : fixed_before children (zlen children) <= sum_max;
  sane_screen : 0 <= size < 2 ^ 16
}.

Section Sums.
Implicit Types (children : list child).

Lemma zsum_nonneg (g : child -> Z) children :
  (forall c, 0 <= c_size c -> 0 <= g c) -> Forall (fun c => 0 <= c_size c) children -> 0 <= zsum (g <$> children).
Proof.
  intros Hg. induction 1 as [|c children Hc _ IH]; [done|]. cbn [fmap list_fmap]. rewrite zsum_cons.
  specialize (Hg c Hc). change (list_fmap _ _ g children) with (g <$> children). lia.
Qed.
Lemma zsum_take_mono (g : child -> Z) children i j :
  (forall c, 0 <= c_size c -> 0 <= g c) -> Forall (fun c => 0 <= c_size c) children -> 0 <= i <= j ->
  0 <= zsum (g <$> take (Z.to_nat i) children) <= zsum (g <$> take (Z.to_nat j) children).
Proof.
  intros Hg Hc Hij. split; [by apply zsum_nonneg, Forall_take|].
  rewrite <- (take_drop (Z.to_nat i) (take (Z.to_nat j) children)).
  rewrite take_take, Nat.min_l by lia. rewrite fmap_app, zsum_app.
  assert (0 <= zsum (g <$> drop (Z.to_nat i) (take (Z.to_nat j) children))); [|lia].
  by apply zsum_nonneg, Forall_drop, Forall_take.
Qed.
Lemma fixed_part_nonneg c : 0 <= c_size c -> 0 <= fixed_part c.
Proof. unfold fixed_part. destruct (c_fixed c); lia. Qed.
Lemma flexible_part_nonneg c : 0 <= c_size c -> 0 <= flexible_part c.
Proof. unfold flexible_part. destruct (c_fixed c); lia. Qed.

Lemma take_step {A} (g : A -> Z) (l : list A) i c :
  0 <= i -> zget l i = Some c -> zsum (g <$> take (Z.to_nat (i + 1)) l) = zsum (g <$> take (Z.to_nat i) l) + g c.
Proof.
  intros Hi [_ Hc]%zget_Some. replace (Z.to_nat (i + 1)) with (S (Z.to_nat i)) by lia.
  rewrite (take_S_r _ _ _ Hc), fmap_app, zsum_app. cbn. unfold zsum. simpl. lia.
Qed.
Lemma fixed_before_step children i c :
  0 <= i -> zget children i = Some c -> fixed_before children (i + 1) = fixed_before children i + fixed_part c.
Proof. apply take_step. Qed.
Lemma flex_before_step children i c :
  0 <= i -> zget children i = Some c -> flex_before children (i + 1) = flex_before children i + flexible_part c.
Proof. apply take_step. Qed.
Lemma before_bounds size children i :
  sane size children -> 0 <= i <= zlen children ->
  0 <= flex_before children i <= flex_before children (zlen children) /\
  0 <= fixed_before children i <= fixed_before children (zlen children) /\
  flex_before children (zlen children) <= sum_max /\ fixed_before children (zlen children) <= sum_max.
Proof.
  intros [Hn Hc H1 H2 _] Hi. split; [|split; [|done]].
  - apply zsum_take_mono; [apply flexible_part_nonneg|done|lia].
  - apply zsum_take_mono; [apply fixed_part_nonneg|done|lia].
Qed.

(** [calculate_cumsum]: the sums before each wall, with the walls before it. *)
Definition sums_at children (i : Z) : Z * Z := (fixed_before children i + Z.max 0 (i - 1), flex_before children i).

Lemma cumsum_from_ok size all pre children :
  all = pre ++ children -> sane size all ->
  cumsum_from (zlen pre) (sums_at all (zlen pre)) children = Ret (sums_at all <$> seqZ (zlen pre + 1) (zlen children)).
Proof.
  revert pre. induction children as [|c children IH]; intros pre Hall Hs; [done|].
  pose proof (zlen_nonneg pre). pose proof (zlen_nonneg children).
  assert (Hg : zget all (zlen pre) = Some c) by (by rewrite Hall, zget_app, Z.ltb_irrefl, Z.sub_diag).
  assert (Hlen' : zlen all = zlen pre + 1 + zlen children) by (rewrite Hall, zlen_app, zlen_cons; lia).
  pose proof (fixed_before_step all (zlen pre) c ltac:(lia) Hg) as Hf. pose proof (flex_before_step all (zlen pre) c ltac:(lia) Hg) as Hx.
  destruct (before_bounds _ _ (zlen pre) Hs ltac:(lia)) as (B1&B2&B3&B4).
  destruct (before_bounds _ _ (zlen pre + 1) Hs ltac:(lia)) as (B5&B6&_).
  pose proof (sane_some _ _ Hs) as Hn. unfold region_max, sum_max in *. cbn [cumsum_from].
  assert (Hs1 : (if c_fixed c then a ← uadd (sums_at all (zlen pre)).1 (c_size c); Ret (a, (sums_at all (zlen pre)).2)
    else b ← uadd (sums_at all (zlen pre)).2 (c_size c); Ret ((sums_at all (zlen pre)).1, b)) =
    (Ret (fixed_before all (zlen pre + 1) + Z.max 0 (zlen pre - 1), flex_before all (zlen pre + 1)) : partial _)).
  { unfold sums_at, fixed_part, flexible_part, uadd in *. cbn [fst snd]. destruct (c_fixed c);
      rewrite (proj2 (Z.ltb_lt _ _)) by lia; cbn [mbind outcome_bind]; do 2 f_equal; lia. }
  rewrite Hs1. cbn [mbind outcome_bind fst snd].
  assert (Hs2 : (if 0 <? zlen pre then a ← uadd (fixed_before all (zlen pre + 1) + Z.max 0 (zlen pre - 1)) 1; Ret (a, flex_before all (zlen pre + 1))
    else Ret (fixed_before all (zlen pre + 1) + Z.max 0 (zlen pre - 1), flex_before all (zlen pre + 1))) =
    (Ret (sums_at all (zlen pre + 1)) : partial _)).
  { unfold sums_at, uadd. destruct (Z.ltb_spec 0 (zlen pre)); [rewrite (proj2 (Z.ltb_lt _ _)) by lia|]; cbn [mbind outcome_bind]; do 2 f_equal; lia. }
  rewrite Hs2. cbn [mbind outcome_bind].
  specialize (IH (pre ++ [c])). rewrite zlen_app in IH. change (zlen [c]) with 1 in IH.
  rewrite IH; [|by rewrite <- app_assoc|done]. cbn [mbind outcome_bind]. f_equal.
  rewrite zlen_cons, (seqZ_S (zlen pre + 1) (1 + zlen children)) by lia. cbn [fmap list_fmap]. do 3 f_equal. lia.
Qed.

Definition sums children : list (Z * Z) := sums_at children <$> seqZ 0 (zlen children + 1).

Lemma calculate_cumsum_ok size children : sane size children -> calculate_cumsum children = Ret (sums children).
Proof.
  intros Hs. pose proof (sane_some _ _ Hs). unfold calculate_cumsum.
  pose proof (cumsum_from_ok size children [] children eq_refl Hs) as Hok.
  change (zlen []) with 0 in Hok. change (sums_at children 0) with (0, 0) in Hok. rewrite Hok. cbn [mbind outcome_bind]. f_equal.
  unfold sums. rewrite (seqZ_S 0) by lia. cbn [fmap list_fmap]. replace (zlen children + 1 - 1) with (zlen children) by lia.
  done.
Qed.

Lemma zget_sums children i : 0 <= i <= zlen children -> zget (sums children) i = Some (sums_at children i).
Proof.
  intros Hi. unfold sums. rewrite zget_lookup, list_lookup_fmap, lookup_seqZ_lt by lia.
  cbn. do 2 f_equal. lia.
Qed.
Lemma last_sums children : last (sums children) = Some (sums_at children (zlen children)).
Proof.
  pose proof (zlen_nonneg children). unfold sums. rewrite seqZ_app by lia. rewrite fmap_app. 
  rewrite Z.add_0_l. change (seqZ (zlen children) 1) with [0 + zlen children].
  rewrite Z.add_0_l. cbn [fmap list_fmap]. by rewrite last_snoc.
Qed.

(** ** Positions of walls *)

(** The fixed sizes and the inner walls; the flexible sizes; the cells left for the latter. *)
Definition all_fixed children : Z := fixed_before children (zlen children) + (zlen children - 1).
Definition all_flexible children : Z := flex_before children (zlen children).
Definition space (size : Z) children : Z := size - all_fixed children.

(** The cells of the flexible children before wall [i], rounded. *)
Definition flexible_cells (size : Z) children (i : Z) : Z :=
  (space size children * flex_before children i + all_flexible children / 2) / all_flexible children.

(** The position of wall [i], also of the walls at both edges. *)
Definition wall_pos (size : Z) children (i : Z) : Z :=
  if (size <=? all_fixed children) || (all_flexible children =? 0)
  then fixed_before children i + (i - 1)
  else fixed_before children i + (i - 1) + flexible_cells size children i.

Lemma flexible_cells_0 size children i : 0 < all_flexible children -> flex_before children i = 0 -> flexible_cells size children i = 0.
Proof.
  intros Hf Hi. unfold flexible_cells. rewrite Hi, Z.mul_0_r. apply Z.div_small.
  pose proof (Z.div_lt (all_flexible children) 2 Hf ltac:(lia)). pose proof (Z.div_pos (all_flexible children) 2 ltac:(lia) ltac:(lia)). lia.
Qed.

Lemma calculate_wall_pos_ok size children i :
  sane size children -> 1 <= i < zlen children ->
  calculate_wall_pos size i (sums children) =
    Ret (wall_pos size children i,
         negb (size <=? all_fixed children) && (0 <? flex_before children i) && (flex_before children i <? all_flexible children)).
Proof.
  intros Hs Hi. unfold calculate_wall_pos. rewrite zget_sums, last_sums by lia. cbn [lift_opt mbind outcome_bind sums_at fst snd].
  destruct (before_bounds _ _ i Hs ltac:(lia)) as ([Hf0 Hf1]&Hf3&Hf2&Hf4). unfold wall_pos.
  destruct (before_bounds _ _ (zlen children) Hs ltac:(lia)) as (_&Hf5&_). fold (all_flexible children) in *.
  pose proof (sane_some _ _ Hs) as Hn. pose proof (sane_screen _ _ Hs) as Hscr.
  replace (fixed_before children (zlen children) + Z.max 0 (zlen children - 1)) with (all_fixed children) by (unfold all_fixed; lia).
  replace (Z.max 0 (i - 1)) with (i - 1) by lia.
  destruct (Z.leb_spec size (all_fixed children)) as [Hle|Hgt]; simpl; [done|].
  destruct (Z.eqb_spec (flex_before children i) 0) as [H0|H0]; simpl.
  - rewrite H0. destruct (Z.eqb_spec (all_flexible children) 0); simpl; [done|].
    rewrite flexible_cells_0 by lia. by rewrite Z.add_0_r.
  - rewrite (proj2 (Z.eqb_neq (all_flexible children) 0)), (proj2 (Z.ltb_lt 0 _)) by lia. cbn [andb].
    assert (Hsp : 0 <= space size children <= size).
    { unfold space, all_fixed in *. lia. }
    assert (Hprod : 0 <= space size children * flex_before children i <= 2 ^ 16 * 2 ^ 43).
    { unfold sum_max in *. nia. }
    assert (Hhalf : 0 <= all_flexible children / 2 <= 2 ^ 43).
    { split; [apply Z.div_pos; lia|]. apply Z.div_le_upper_bound; unfold sum_max in *; lia. }
    unfold usub, umul, uadd, pdiv. fold (space size children) in *.
    rewrite (proj2 (Z.leb_le (all_fixed children) size)) by lia. cbn [mbind outcome_bind]. fold (space size children).
    rewrite (proj2 (Z.ltb_lt (space size children * _) _)) by lia. cbn [mbind outcome_bind].
    rewrite (proj2 (Z.ltb_lt (_ + all_flexible children / 2) _)) by lia. cbn [mbind outcome_bind].
    rewrite (proj2 (Z.eqb_neq (all_flexible children) 0)) by lia. cbn [mbind outcome_bind].
    fold (flexible_cells size children i).
    assert (Hcells : 0 <= flexible_cells size children i <= 2 ^ 60).
    { unfold flexible_cells. split; [apply Z.div_pos; lia|]. apply Z.div_le_upper_bound; [lia|]. nia. }
    rewrite (proj2 (Z.ltb_lt (_ + flexible_cells size children i) _)) by (unfold sum_max, region_max in *; lia).
    done.
Qed.

(** ** The cells of each child *)

Definition child_cells (size : Z) children (i : Z) : Z := wall_pos size children (i + 1) - wall_pos size children i - 1.

(** Everything fits, and something is flexible. *)
Definition fits (size : Z) children : Prop := all_fixed children < size /\ 0 < all_flexible children.

Lemma wall_pos_fits size children i :
  fits size children -> wall_pos size children i = fixed_before children i + (i - 1) + flexible_cells size children i.
Proof.
  intros [H1 H2]. unfold wall_pos. by rewrite (proj2 (Z.leb_gt _ _)), (proj2 (Z.eqb_neq _ _)) by lia.
Qed.

Lemma wall_pos_ends size children :
  fits size children -> wall_pos size children 0 = -1 /\ wall_pos size children (zlen children) = size.
Proof.
  intros Hf. rewrite !wall_pos_fits by done. destruct Hf as [H1 H2]. split.
  - rewrite flexible_cells_0; [done|done|done].
  - unfold flexible_cells. fold (all_flexible children).
    rewrite (Z.add_comm _ (_ / 2)), Z.div_add by lia. rewrite Z.div_small; [unfold space, all_fixed in *; lia|].
    split; [apply Z.div_pos; lia|apply Z.div_lt; lia].
Qed.

Lemma child_cells_fixed size children i c :
  0 <= i -> zget children i = Some c -> c_fixed c = true -> child_cells size children i = c_size c.
Proof.
  intros Hi Hc Hfix. unfold child_cells, wall_pos, flexible_cells.
  rewrite (fixed_before_step _ _ _ Hi Hc), (flex_before_step _ _ _ Hi Hc).
  unfold fixed_part, flexible_part. rewrite Hfix, Z.add_0_r. case_match; lia.
Qed.

(** A rounded share is within one cell of the exact one. *)
Lemma rounded_share n a s h f :
  0 < f -> 0 <= n * s -> let d := (n * (a + s) + h) / f - (n * a + h) / f in 0 <= d /\ - f < d * f - n * s < f.
Proof.
  intros Hf Hs. simpl. pose proof (Z.div_mod (n * (a + s) + h) f ltac:(lia)). pose proof (Z.mod_pos_bound (n * (a + s) + h) f Hf).
  pose proof (Z.div_mod (n * a + h) f ltac:(lia)). pose proof (Z.mod_pos_bound (n * a + h) f Hf).
  assert ((n * a + h) / f <= (n * (a + s) + h) / f) by (apply Z.div_le_mono; lia). nia.
Qed.

Lemma child_cells_flexible size children i c :
  fits size children -> 0 <= i -> zget children i = Some c -> 0 <= c_size c -> c_fixed c = false ->
  0 <= child_cells size children i /\
  - all_flexible children < child_cells size children i * all_flexible children - space size children * c_size c < all_flexible children.
Proof.
  intros Hf Hi Hc Hsz Hfix. unfold child_cells. rewrite !wall_pos_fits by done. destruct Hf as [H1 H2]. unfold flexible_cells.
  rewrite (fixed_before_step _ _ _ Hi Hc), (flex_before_step _ _ _ Hi Hc).
  unfold fixed_part, flexible_part. rewrite Hfix, Z.add_0_r.
  destruct (rounded_share (space size children) (flex_before children i) (c_size c) (all_flexible children / 2) (all_flexible children) H2) as [D1 D2].
  { unfold space. nia. }
  split; [lia|]. nia.
Qed.

(** ** Dragging a wall *)

Lemma zsum_insert (g : child -> Z) children (k : nat) c c' j :
  children !! k = Some c ->
  zsum (g <$> take j (<[k := c']> children)) = zsum (g <$> take j children) + (if decide (k < j)%nat then g c' - g c else 0).
Proof.
  revert k j. induction children as [|x children IH]; intros [|k] [|j] Hk; try done.
  - injection Hk as ->. change (<[0%nat := c']> (c :: children)) with (c' :: children).
    rewrite !firstn_cons, !fmap_cons, !zsum_cons, decide_True by lia. lia.
  - specialize (IH k j Hk). change (<[S k := c']> (x :: children)) with (x :: <[k := c']> children).
    rewrite !firstn_cons, !fmap_cons, !zsum_cons, IH.
    destruct (decide (S k < S j)%nat), (decide (k < j)%nat); lia.
Qed.

Lemma flexible_before_ok children k :
  (k < length children)%nat -> 0 < flex_before children (Z.of_nat k + 1) -> Forall (fun c => 0 <= c_size c) children ->
  exists prev c, flexible_before children k = Ret prev /\ (prev <= k)%nat /\ children !! prev = Some c /\ c_fixed c = false /\
    flex_before children (Z.of_nat k + 1) = flex_before children (Z.of_nat prev) + c_size c.
Proof.
  induction k as [|k IH]; intros Hk Hpos Hc; destruct (lookup_lt_is_Some_2 children _ Hk) as [c Hg];
    pose proof Hg as Hz; rewrite <- zget_of_nat in Hz; rewrite (flex_before_step _ _ _ (Nat2Z.is_nonneg _) Hz) in *;
    cbn [flexible_before]; rewrite Hg; cbn [lift_opt mbind outcome_bind]; unfold flexible_part in *; destruct (c_fixed c) eqn:Hf.
  - unfold flex_before in Hpos. simpl in Hpos. unfold zsum in Hpos. simpl in Hpos. lia.
  - exists 0%nat, c. auto.
  - rewrite Z.add_0_r in *. replace (Z.of_nat (S k)) with (Z.of_nat k + 1) in * by lia.
    destruct (IH ltac:(lia) Hpos Hc) as (prev&c'&H1&H2&H3&H4&H5). exists prev, c'. split; [done|]. split; [lia|done].
  - exists (S k), c. auto.
Qed.

Lemma flexible_after_ok children pre post :
  children = pre ++ post -> flex_before children (zlen pre) < all_flexible children ->
  exists next c, flexible_after post (length pre) = Ret next /\ (length pre <= next)%nat /\ children !! next = Some c /\ c_fixed c = false /\
    flex_before children (Z.of_nat next) = flex_before children (zlen pre) /\ (next < length children)%nat.
Proof.
  revert pre. induction post as [|c post IH]; intros pre Hall Hlt.
  - unfold all_flexible in Hlt. rewrite Hall, app_nil_r in Hlt. lia.
  - assert (Hz : zget children (zlen pre) = Some c) by (by rewrite Hall, zget_app, Z.ltb_irrefl, Z.sub_diag).
    pose proof (flex_before_step children (zlen pre) c (zlen_nonneg pre) Hz) as Hst. unfold flexible_part in Hst.
    cbn [flexible_after]. destruct (c_fixed c) eqn:Hf.
    + destruct (IH (pre ++ [c])) as (next&c'&H1&H2&H3&H4&H5&H6); [by rewrite <- app_assoc| |].
      { rewrite zlen_app. change (zlen [c]) with 1. lia. }
      rewrite length_app in *. simpl in H1. rewrite Nat.add_1_r in H1. exists next, c'. rewrite zlen_app in H5. change (zlen [c]) with 1 in H5.
      split; [done|]. split; [simpl in H2; lia|]. split; [done|]. split; [done|]. split; [lia|done].
    + exists (length pre), c. rewrite Hall. split; [done|]. split; [lia|].
      split; [by rewrite list_lookup_middle|]. split; [done|]. rewrite length_app. simpl. split; [done|lia].
Qed.

(** Flexible sizes are at least 1, as everywhere in the tree of regions. *)
Definition positive children : Prop := Forall (fun c => c_fixed c = false -> 1 <= c_size c) children.

(** What a drag may change: the flexible sizes, not their sum. *)
Record redistributed (size : Z) children children' : Prop := mkRedistributed {
  rd_shape : (fun c => (c_fixed c, c_id c)) <$> children' = (fun c => (c_fixed c, c_id c)) <$> children;
  rd_fixed : forall i, fixed_before children' i = fixed_before children i;
  rd_flexible : all_flexible children' = all_flexible children;
  rd_sane : sane size children';
  rd_positive : positive children'
}.

Lemma redistributed_refl size children : sane size children -> positive children -> redistributed size children children.
Proof. done. Qed.
Lemma redistributed_trans size c1 c2 c3 : redistributed size c1 c2 -> redistributed size c2 c3 -> redistributed size c1 c3.
Proof.
  intros [A1 A2 A3 _ _] [B1 B2 B3 B4 B5]. constructor; [congruence| |congruence|done|done]. intros i. by rewrite B2.
Qed.
Lemma redistributed_length size c1 c2 : redistributed size c1 c2 -> zlen c2 = zlen c1.
Proof. intros [H _ _ _ _]. apply (f_equal zlen) in H. by rewrite !zlen_fmap in H. Qed.

(** Replacing two flexible children by flexible ones of the same total size. *)
Definition exchanged children (prev next : nat) (cp cn : child) (a b : Z) : list child :=
  <[next := set_c_size b cn]> (<[prev := set_c_size a cp]> children).

Section Exchange.
Variables (children : list child) (prev next : nat) (cp cn : child) (a b : Z).
Hypothesis (Hlt : (prev < next)%nat).
Hypothesis (Hp : children !! prev = Some cp).
Hypothesis (Hn : children !! next = Some cn).
Hypothesis (Hpf : c_fixed cp = false).
Hypothesis (Hnf : c_fixed cn = false).
Hypothesis (Hsum : a + b = c_size cp + c_size cn).

Lemma exchanged_sum (g : child -> Z) i :
  zsum (g <$> take i (exchanged children prev next cp cn a b)) =
  zsum (g <$> take i children) + (if decide (prev < i)%nat then g (set_c_size a cp) - g cp else 0)
                               + (if decide (next < i)%nat then g (set_c_size b cn) - g cn else 0).
Proof using Hlt Hp Hn.
  unfold exchanged. rewrite (zsum_insert g _ next cn), (zsum_insert g _ prev cp) by (done || rewrite list_lookup_insert_ne by lia; done).
  done.
Qed.

Lemma exchanged_fixed i : fixed_before (exchanged children prev next cp cn a b) i = fixed_before children i.
Proof using Hlt Hp Hn Hpf Hnf.
  unfold fixed_before. rewrite exchanged_sum. unfold fixed_part. cbn [set_c_size c_fixed fst snd].
  change (c_fixed (set_c_size a cp)) with (c_fixed cp). change (c_fixed (set_c_size b cn)) with (c_fixed cn).
  rewrite Hpf, Hnf. repeat case_decide; lia.
Qed.

Lemma exchanged_flex i :
  flex_before (exchanged children prev next cp cn a b) i =
  flex_before children i + (if decide (prev < Z.to_nat i)%nat then a - c_size cp else 0)
                         + (if decide (next < Z.to_nat i)%nat then b - c_size cn else 0).
Proof using Hlt Hp Hn Hpf Hnf.
  unfold flex_before. rewrite exchanged_sum. unfold flexible_part.
  change (c_fixed (set_c_size a cp)) with (c_fixed cp). change (c_fixed (set_c_size b cn)) with (c_fixed cn).
  by rewrite Hpf, Hnf.
Qed.

Lemma exchanged_length : length (exchanged children prev next cp cn a b) = length children.
Proof. unfold exchanged. by rewrite !length_insert. Qed.

Lemma exchanged_redistributed size :
  sane size children -> positive children -> 1 <= a -> 1 <= b ->
  redistributed size children (exchanged children prev next cp cn a b).
Proof using Hlt Hp Hn Hpf Hnf Hsum.
  intros Hs Hpos Ha Hb. pose proof exchanged_length as Hl.
  assert (Hz : zlen (exchanged children prev next cp cn a b) = zlen children) by (unfold zlen; by rewrite Hl).
  apply lookup_lt_Some in Hp as Hpl. apply lookup_lt_Some in Hn as Hnl.
  assert (Hflex : flex_before (exchanged children prev next cp cn a b) (zlen children) = flex_before children (zlen children)).
  { rewrite exchanged_flex. unfold zlen. rewrite !decide_True by lia. lia. }
  destruct Hs as [S1 S2 S3 S4 S5]. constructor.
  - unfold exchanged. rewrite !list_fmap_insert. rewrite (list_insert_id _ next), (list_insert_id _ prev); [done|..].
    + by rewrite list_lookup_fmap, Hp.
    + rewrite list_lookup_insert_ne by lia. by rewrite list_lookup_fmap, Hn.
  - intros i. apply exchanged_fixed.
  - unfold all_flexible. by rewrite Hz.
  - constructor; rewrite ?Hz; [done| |by rewrite Hflex|by rewrite exchanged_fixed|done].
    unfold exchanged. do 2 (apply Forall_insert; [|unfold c_size, set_c_size; simpl; lia]). done.
  - unfold exchanged, positive. do 2 (apply Forall_insert; [|unfold c_size, set_c_size; simpl; lia]). done.
Qed.
End Exchange.

(** ** One drag *)

Lemma usub_ret {E} a b : b <= a -> usub (E:=E) a b = Ret (a - b).
Proof. intros H. unfold usub. by rewrite (proj2 (Z.leb_le _ _)). Qed.
Lemma uadd_ret {E} a b : a + b < 2 ^ 64 -> uadd (E:=E) a b = Ret (a + b).
Proof. intros H. unfold uadd. by rewrite (proj2 (Z.ltb_lt _ _)). Qed.
Lemma umul_ret {E} a b : a * b < 2 ^ 64 -> umul (E:=E) a b = Ret (a * b).
Proof. intros H. unfold umul. by rewrite (proj2 (Z.ltb_lt _ _)). Qed.

Section Resize.
Variables (size : Z) (children : list child) (i : Z).
Hypothesis (Hs : sane size children).
Hypothesis (Hpos : positive children).
Hypothesis (Hf : fits size children).
Hypothesis (Hi : 1 <= i < zlen children).
Hypothesis (Hdrag : 0 < flex_before children i < all_flexible children).

(** The flexible children nearest to the wall, and what stands before them. *)
Record nearest (prev next : nat) (cp cn : child) : Prop := mkNearest {
  nb_order : Z.of_nat prev < i <= Z.of_nat next;
  nb_prev : children !! prev = Some cp;
  nb_next : children !! next = Some cn;
  nb_prev_flexible : c_fixed cp = false;
  nb_next_flexible : c_fixed cn = false;
  nb_before : flex_before children i = flex_before children (Z.of_nat prev) + c_size cp;
  nb_after : flex_before children (Z.of_nat next) = flex_before children i;
  nb_search_prev : flexible_before children (Z.to_nat (i - 1)) = Ret prev;
  nb_search_next : flexible_after (drop (Z.to_nat i) children) (Z.to_nat i) = Ret next
}.

Lemma nearest_exist : exists prev next cp cn, nearest prev next cp cn.
Proof using Hs Hi Hdrag.
  destruct (flexible_before_ok children (Z.to_nat (i - 1))) as (prev&cp&P1&P2&P3&P4&P5).
  { unfold zlen in Hi. lia. }
  { rewrite Z2Nat.id by lia. replace (i - 1 + 1) with i by lia. lia. }
  { apply Hs. }
  rewrite Z2Nat.id in P5 by lia. replace (i - 1 + 1) with i in P5 by lia.
  assert (Hl : length (take (Z.to_nat i) children) = Z.to_nat i).
  { rewrite length_take. unfold zlen in Hi. lia. }
  assert (Hz : zlen (take (Z.to_nat i) children) = i) by (unfold zlen; lia).
  destruct (flexible_after_ok children (take (Z.to_nat i) children) (drop (Z.to_nat i) children)) as (next&cn&N1&N2&N3&N4&N5&_).
  { by rewrite take_drop. }
  { rewrite Hz. lia. }
  rewrite Hl in *. rewrite Hz in *. exists prev, next, cp, cn. constructor; try done. lia.
Qed.

(** The new sum before wall [i], which the drag of the wall from [pos] by [p] asks for. *)
Definition drag_target (pos p : Z) : Z :=
  let fl := fixed_before children i + (i - 1) in
  all_flexible children * (Z.min (Z.max (pos + p) fl) (space size children + fl) - fl) / space size children.
Definition clamped (t before after : Z) : Z := Z.min (Z.max t (before + 1)) (after - 1).

Lemma drag_resize_ok prev next cp cn pos p :
  nearest prev next cp cn ->
  let before := flex_before children (Z.of_nat prev) in let after := before + c_size cp + c_size cn in
  let t := clamped (drag_target pos p) before after in
  resize size i pos p children (sums children) = Ret (exchanged children prev next cp cn (t - before) (after - t)) /\
  before < t < after.
Proof using Hs Hpos Hf Hi Hdrag.
  intros Hn before after t. subst before after. destruct Hn as [N1 N2 N3 N4 N5 N6 N7 N8 N9].
  pose proof (sane_some _ _ Hs) as Hsome. pose proof (sane_screen _ _ Hs) as Hscr.
  pose proof (Forall_lookup_1 _ _ _ _ Hpos N2 N4) as Hp1. pose proof (Forall_lookup_1 _ _ _ _ Hpos N3 N5) as Hn1.
  apply lookup_lt_Some in N2 as Hlp. apply lookup_lt_Some in N3 as Hln.
  assert (Hln' : Z.of_nat next < zlen children) by (unfold zlen; lia).
  destruct (before_bounds _ _ i Hs ltac:(lia)) as (B1&B2&B3&B4).
  destruct (before_bounds _ _ (Z.of_nat prev) Hs ltac:(lia)) as (B5&_). 
  destruct (before_bounds _ _ (Z.of_nat next + 1) Hs ltac:(lia)) as (B6&_). 
  pose proof N3 as Hz. rewrite <- zget_of_nat in Hz. pose proof (flex_before_step _ _ _ (Nat2Z.is_nonneg next) Hz) as Hst.
  unfold flexible_part in Hst. rewrite N5 in Hst.
  assert (Ht : flex_before children (Z.of_nat prev) < t < flex_before children (Z.of_nat prev) + c_size cp + c_size cn).
  { subst t. unfold clamped. lia. }
  split; [|done].
  unfold resize. rewrite zget_sums, last_sums by lia. cbn [lift_opt mbind outcome_bind sums_at fst snd].
  destruct Hf as [Hf1 Hf2]. unfold all_flexible in Hf2, Hdrag.
  replace (fixed_before children (zlen children) + Z.max 0 (zlen children - 1)) with (all_fixed children) by (unfold all_fixed; lia).
  replace (Z.max 0 (i - 1)) with (i - 1) by lia.
  rewrite usub_ret by lia. cbn [mbind outcome_bind]. fold (space size children).
  assert (Hsp : 0 < space size children <= size) by (unfold space, all_fixed in *; lia).
  unfold sum_max, region_max in *. rewrite uadd_ret by lia. cbn [mbind outcome_bind].
  set (fl := fixed_before children i + (i - 1)) in *. rewrite usub_ret by lia. cbn [mbind outcome_bind].
  set (d := Z.min _ _ - fl). assert (Hd : 0 <= d <= space size children) by lia.
  rewrite umul_ret by nia. cbn [mbind outcome_bind].
  unfold pdiv. rewrite (proj2 (Z.eqb_neq _ _)) by lia. cbn [mbind outcome_bind].
  change (flex_before children (zlen children) * d / space size children) with (drag_target pos p).
  rewrite N8, N9. cbn [mbind outcome_bind].
  assert (Hc1 : sums children !! prev = Some (sums_at children (Z.of_nat prev))).
  { rewrite <- zget_of_nat. apply zget_sums. lia. }
  assert (Hc2 : sums children !! S next = Some (sums_at children (Z.of_nat next + 1))).
  { rewrite <- zget_of_nat, Nat2Z.inj_succ. apply zget_sums. lia. }
  rewrite Hc1, Hc2, N2, N3. cbn [lift_opt mbind outcome_bind sums_at fst snd].
  assert (Hafter : flex_before children (Z.of_nat next + 1) = flex_before children (Z.of_nat prev) + c_size cp + c_size cn) by lia.
  rewrite Hafter in *. rewrite !uadd_ret, !usub_ret by lia. cbn [mbind outcome_bind].
  rewrite (proj2 (Z.eqb_eq _ _)) by lia. cbn [rassert mbind outcome_bind].
  change (Z.min (Z.max (drag_target pos p) (flex_before children (Z.of_nat prev) + 1))
            (flex_before children (Z.of_nat prev) + c_size cp + c_size cn - 1)) with t.
  rewrite !usub_ret by lia. cbn [mbind outcome_bind]. done.
Qed.

Lemma resize_redistributes pos p :
  exists children', resize size i pos p children (sums children) = Ret children' /\ redistributed size children children'.
Proof using Hs Hpos Hf Hi Hdrag.
  destruct nearest_exist as (prev&next&cp&cn&Hn). destruct (drag_resize_ok _ _ _ _ pos p Hn) as [Hr Ht].
  eexists. split; [exact Hr|]. destruct Hn as [N1 N2 N3 N4 N5 N6 N7 N8 N9].
  apply exchanged_redistributed; try done; lia.
Qed.
End Resize.

(** ** All walls of a split *)

Lemma redistributed_fits size children children' : redistributed size children children' -> fits size children -> fits size children'.
Proof.
  intros Hr [H1 H2]. pose proof (redistributed_length _ _ _ Hr) as Hl. destruct Hr as [_ R2 R3 _ _].
  split; [|congruence]. unfold all_fixed in *. by rewrite R2, Hl.
Qed.
Lemma redistributed_space size children children' : redistributed size children children' -> space size children' = space size children.
Proof.
  intros Hr. pose proof (redistributed_length _ _ _ Hr) as Hl. destruct Hr as [_ R2 R3 _ _].
  unfold space, all_fixed. by rewrite R2, Hl.
Qed.

Lemma drag_walls_ok size drags ws children resized :
  sane size children -> positive children -> Forall (fun i => 1 <= i < zlen children) ws ->
  exists children' resized', drag_walls size drags ws children (sums children) resized = Ret (children', sums children', resized') /\
    redistributed size children children' /\ (resized' = false -> resized = false /\ children' = children).
Proof.
  intros Hs Hp Hws. revert children resized Hs Hp Hws.
  induction ws as [|i ws IH]; intros children resized Hs Hp Hws; [by exists children, resized|].
  apply Forall_cons in Hws as [Hi Hws]. cbn [drag_walls]. rewrite calculate_wall_pos_ok by done. cbn [mbind outcome_bind].
  destruct (negb (size <=? all_fixed children) && _ && _) eqn:Hm; [|by apply IH].
  destruct (drags i) as [p|]; [|by apply IH]. destruct (Z.eqb_spec p 0); [by apply IH|].
  rewrite !andb_true_iff, negb_true_iff, Z.leb_gt, !Z.ltb_lt in Hm. destruct Hm as [[Hm1 Hm2] Hm3].
  destruct (resize_redistributes size children i Hs Hp ltac:(split; lia) Hi ltac:(lia) (wall_pos size children i) p) as (c1&Hr&Hd).
  rewrite Hr. cbn [mbind outcome_bind]. pose proof Hd as [_ _ _ Hs' Hp'].
  rewrite (calculate_cumsum_ok size) by done. cbn [mbind outcome_bind].
  destruct (IH c1 true Hs' Hp') as (c2&b&Hr2&Hd2&Hb).
  { by rewrite (redistributed_length _ _ _ Hd). }
  exists c2, b. split; [done|]. split; [by eapply redistributed_trans|]. by intros [? _]%Hb.
Qed.

Lemma wall_positions_ok size ws children :
  sane size children -> Forall (fun i => 1 <= i < zlen children) ws ->
  wall_positions size ws (sums children) = Ret (wall_pos size children <$> ws).
Proof.
  intros Hs. induction 1 as [|i ws Hi _ IH]; [done|]. cbn [wall_positions].
  rewrite calculate_wall_pos_ok by done. cbn [mbind outcome_bind]. by rewrite IH.
Qed.

Lemma inner_walls children : Forall (fun i => 1 <= i < zlen children) (seqZ 1 (zlen children - 1)).
Proof. apply Forall_forall. intros i Hi%elem_of_seqZ. lia. Qed.

Lemma place_children_ok size drags children :
  sane size children -> positive children ->
  exists children' resized, redistributed size children children' /\ (resized = false -> children' = children) /\
    place_children size drags children = Ret (children', -1 :: (wall_pos size children' <$> seqZ 1 (zlen children - 1)) ++ [size], resized).
Proof.
  intros Hs Hp. pose proof (sane_some _ _ Hs). unfold place_children.
  rewrite (proj2 (Z.eqb_neq _ _)) by lia. cbn [negb rassert mbind outcome_bind].
  rewrite (calculate_cumsum_ok size) by done. cbn [mbind outcome_bind].
  destruct (drag_walls_ok size drags _ children false Hs Hp (inner_walls children)) as (c'&b&Hr&Hd&Hb).
  rewrite Hr. cbn [mbind outcome_bind]. exists c', b. split; [done|]. split; [by intros [_ ?]%Hb|].
  rewrite wall_positions_ok; [done|by destruct Hd|]. rewrite (redistributed_length _ _ _ Hd). apply inner_walls.
Qed.

Lemma zget_walls size children i :
  fits size children -> 0 < zlen children -> 0 <= i <= zlen children ->
  zget (-1 :: (wall_pos size children <$> seqZ 1 (zlen children - 1)) ++ [size]) i = Some (wall_pos size children i).
Proof.
  intros Hf Hn Hi. destruct (wall_pos_ends size children Hf) as [H0 H1].
  assert (Hl : zlen (wall_pos size children <$> seqZ 1 (zlen children - 1)) = zlen children - 1).
  { rewrite zlen_fmap. unfold zlen at 1. rewrite length_seqZ. lia. }
  rewrite zget_cons. destruct (Z.eqb_spec i 0) as [->|Hne]; [by rewrite H0|].
  rewrite (proj2 (Z.ltb_ge i 0)), zget_app, Hl by lia. destruct (Z.ltb_spec (i - 1) (zlen children - 1)).
  - rewrite zget_lookup, list_lookup_fmap, lookup_seqZ_lt by lia. cbn. do 2 f_equal. lia.
  - replace i with (zlen children) by lia. rewrite Z.sub_diag, H1. done.
Qed.
End Sums.

(** ** The share that puts a wall at a given cell *)

Section Shares.
Variables (n f d : Z).
Hypothesis (Hn : 0 < n).
Hypothesis (Hf : 2 * n <= f).

Lemma half_covers : n <= f / 2.
Proof using Hf. apply Z.div_le_lower_bound; lia. Qed.
Lemma inverse_share : (n * (f * d / n) + f / 2) / f = d.
Proof using Hn Hf.
  pose proof half_covers. pose proof (Z.div_lt f 2 ltac:(lia) ltac:(lia)).
  pose proof (Z.div_mod (f * d) n ltac:(lia)). pose proof (Z.mod_pos_bound (f * d) n Hn).
  symmetry. apply (Z.div_unique _ _ _ (n * (f * d / n) + f / 2 - f * d)); lia.
Qed.
Lemma share_lower b : (n * b + f / 2) / f < d -> b + 1 <= f * d / n.
Proof using Hn Hf.
  intros Hb. pose proof half_covers. apply Z.div_le_lower_bound; [done|].
  pose proof (Z.div_mod (n * b + f / 2) f ltac:(lia)). pose proof (Z.mod_pos_bound (n * b + f / 2) f ltac:(lia)). nia.
Qed.
Lemma share_upper a : d < (n * a + f / 2) / f -> f * d / n <= a - 1.
Proof using Hn Hf.
  intros Ha. pose proof (Z.div_lt f 2 ltac:(lia) ltac:(lia)).
  pose proof (Z.div_mod (n * a + f / 2) f ltac:(lia)). pose proof (Z.mod_pos_bound (n * a + f / 2) f ltac:(lia)).
  assert (f * d / n < a); [|lia]. apply Z.div_lt_upper_bound; [done|]. nia.
Qed.
End Shares.

(** The share of the wall at [cells], within its neighbours, is not clamped. *)
Lemma unclamped size children i prev next cp cn p :
  sane size children -> fits size children -> 2 * space size children <= all_flexible children ->
  0 <= i <= zlen children -> nearest children i prev next cp cn ->
  - child_cells size children (Z.of_nat prev) < p < child_cells size children (Z.of_nat next) ->
  let d := flexible_cells size children i + p in
  let before := flex_before children (Z.of_nat prev) in
  clamped (drag_target size children i (wall_pos size children i) p) before (before + c_size cp + c_size cn) =
    all_flexible children * d / space size children.
Proof.
  intros Hs Hf Hbig Hi Hn Hp. destruct Hn as [N1 N2 N3 N4 N5 N6 N7 _ _]. cbv zeta.
  pose proof N2 as Z2. rewrite <- zget_of_nat in Z2. pose proof N3 as Z3. rewrite <- zget_of_nat in Z3.
  assert (Hsp : 0 < space size children) by (destruct Hf; unfold space; lia).
  unfold child_cells in Hp. rewrite !wall_pos_fits in Hp by done.
  rewrite (fixed_before_step _ _ _ (Nat2Z.is_nonneg prev) Z2), (fixed_before_step _ _ _ (Nat2Z.is_nonneg next) Z3) in Hp.
  unfold flexible_cells in Hp. rewrite (flex_before_step _ _ _ (Nat2Z.is_nonneg prev) Z2), (flex_before_step _ _ _ (Nat2Z.is_nonneg next) Z3) in Hp.
  unfold fixed_part, flexible_part in Hp. rewrite N4, N5, N7 in Hp. rewrite <- N6 in Hp.
  set (d := flexible_cells size children i + p).
  assert (D1 : (space size children * flex_before children (Z.of_nat prev) + all_flexible children / 2) / all_flexible children < d).
  { subst d. unfold flexible_cells. lia. }
  assert (D2 : d < (space size children * (flex_before children i + c_size cn) + all_flexible children / 2) / all_flexible children).
  { subst d. unfold flexible_cells. lia. }
  assert (D3 : 0 <= d <= space size children).
  { destruct Hf as [_ Hf2]. destruct (before_bounds _ _ (Z.of_nat prev) Hs) as (B1&_); [unfold zlen in *; apply lookup_lt_Some in N2; lia|].
    destruct (before_bounds _ _ (Z.of_nat next + 1) Hs) as (B2&_); [unfold zlen in *; apply lookup_lt_Some in N3; lia|].
    rewrite (flex_before_step _ _ _ (Nat2Z.is_nonneg next) Z3) in B2. unfold flexible_part in B2. rewrite N5, N7 in B2.
    fold (all_flexible children) in *. pose proof (Z.div_lt (all_flexible children) 2 ltac:(lia) ltac:(lia)).
    pose proof (Z.div_pos (all_flexible children) 2 ltac:(lia) ltac:(lia)). split.
    - assert (0 <= (space size children * flex_before children (Z.of_nat prev) + all_flexible children / 2) / all_flexible children); [|lia].
      apply Z.div_pos; nia.
    - assert ((space size children * (flex_before children i + c_size cn) + all_flexible children / 2) / all_flexible children < space size children + 1); [|lia].
      apply Z.div_lt_upper_bound; nia. }
  assert (Ht : drag_target size children i (wall_pos size children i) p = all_flexible children * d / space size children).
  { unfold drag_target. rewrite wall_pos_fits by done. do 2 f_equal. lia. }
  pose proof (share_lower _ _ d Hsp Hbig _ D1). pose proof (share_upper _ _ d Hsp Hbig _ D2).
  unfold clamped. rewrite Ht. lia.
Qed.

(** ** The properties *)

(** C25. The children of a split tile its area along the axis, whatever the
    walls are dragged to: when everything fits and something is flexible,
    [build_split] finishes, the walls go from the left edge to the right edge,
    a child of fixed size gets exactly its cells, a flexible one gets its
    share of the remaining cells to within one cell and never a negative
    number; a drag changes neither the fixed sizes nor the sum of the
    flexible ones, and keeps each of them at least 1. *)
Theorem split_tiles_area size drags children :
  sane size children -> positive children -> fits size children ->
  exists children' walls resized,
    place_children size drags children = Ret (children', walls, resized) /\
    redistributed size children children' /\
    zlen walls = zlen children + 1 /\ zget walls 0 = Some (-1) /\ zget walls (zlen children) = Some size /\
    forall i c, zget children' i = Some c ->
      exists wall next_wall, zget walls i = Some wall /\ zget walls (i + 1) = Some next_wall /\
        let cells := next_wall - wall - 1 in
        0 <= cells /\
        (c_fixed c = true -> cells = c_size c) /\
        (c_fixed c = false ->
           - all_flexible children < cells * all_flexible children - space size children * c_size c < all_flexible children).
Proof.
  intros Hs Hp Hf. destruct (place_children_ok size drags children Hs Hp) as (c'&b&Hd&_&Hr).
  pose proof (sane_some _ _ Hs). pose proof (redistributed_length _ _ _ Hd) as Hl.
  pose proof (redistributed_fits _ _ _ Hd Hf) as Hf'.
  assert (Hw : forall i, 0 <= i <= zlen children -> zget (-1 :: (wall_pos size c' <$> seqZ 1 (zlen children - 1)) ++ [size]) i = Some (wall_pos size c' i)).
  { intros i Hi. rewrite <- Hl. apply zget_walls; [done|lia|lia]. }
  destruct (wall_pos_ends _ _ Hf') as [E0 E1]. rewrite Hl in E1.
  eexists _, _, _. split; [exact Hr|]. split; [done|]. split; [|split; [|split]].
  - rewrite zlen_cons, zlen_app, zlen_fmap. change (zlen [size]) with 1. unfold zlen at 1. rewrite length_seqZ. lia.
  - by rewrite Hw, E0 by lia.
  - by rewrite Hw, E1 by lia.
  - intros i c Hc. pose proof (proj1 (zget_range _ _) (mk_is_Some _ _ Hc)) as Hi. rewrite Hl in Hi.
    exists (wall_pos size c' i), (wall_pos size c' (i + 1)). rewrite !Hw by lia. split; [done|]. split; [done|].
    change (wall_pos size c' (i + 1) - wall_pos size c' i - 1) with (child_cells size c' i). cbv zeta.
    destruct Hd as [D1 D2 D3 D4 D5]. assert (Hsz : 0 <= c_size c).
    { destruct D4 as [_ D4 _ _ _]. apply zget_Some in Hc as [_ Hc]. by apply (Forall_lookup_1 _ _ _ _ D4 Hc). }
    destruct (c_fixed c) eqn:Hfix.
    + rewrite (child_cells_fixed size c' i c) by (done || lia). done.
    + destruct (child_cells_flexible size c' i c Hf' ltac:(lia) Hc Hsz Hfix) as [C1 C2].
      rewrite D3 in C2. assert (Hsp : space size c' = space size children).
      { unfold space, all_fixed. by rewrite D2, Hl. }
      rewrite Hsp in C2. done.
Qed.

(** A fixed child of 5 cells between two flexible ones, on 40 cells, with the
    first wall dragged by 3. *)
Definition example_children : list child := [(false, 500, mkId 0 1); (true, 5, mkId 1 1); (false, 300, mkId 2 1)].

Lemma example_children_ok : sane 40 example_children /\ positive example_children /\ fits 40 example_children.
Proof.
  split; [|split; [|split; by vm_compute]].
  - constructor; [by vm_compute| |by vm_compute..]. repeat constructor; by vm_compute.
  - unfold example_children, positive. repeat constructor; by vm_compute.
Defined.

Example split_tiles_area_witness :
  place_children 40 (fun i => if i =? 1 then Some 3 else None) example_children =
    Ret ([(false, 581, mkId 0 1); (true, 5, mkId 1 1); (false, 219, mkId 2 1)], [-1; 24; 30; 40], true) /\
  exists children' walls resized,
    place_children 40 (fun i => if i =? 1 then Some 3 else None) example_children = Ret (children', walls, resized) /\
    zget walls 3 = Some 40.
Proof.
  split; [vm_compute; reflexivity|]. destruct example_children_ok as (H1&H2&H3).
  destruct (split_tiles_area 40 (fun i => if i =? 1 then Some 3 else None) example_children H1 H2 H3)
    as (c'&w&b&Hr&_&_&_&He&_).
  exists c', w, b. split; [exact Hr|exact He].
Defined.

(** C35. A wall follows the mouse: dragging a wall that can be dragged by [p]
    cells finds the nearest flexible child on each side, never fails, and,
    as long as both neighbours can give the cells, moves the wall and the
    walls of the fixed children it pushes by exactly [p] cells, leaving every
    other wall where it was. Relative sizes are large next to the screen. *)
Theorem drag_moves_wall size children i p :
  sane size children -> positive children -> fits size children -> 2 * space size children <= all_flexible children ->
  1 <= i < zlen children -> 0 < flex_before children i < all_flexible children ->
  exists prev next cp cn after_drag,
    nearest children i prev next cp cn /\
    resize size i (wall_pos size children i) p children (sums children) = Ret after_drag /\
    redistributed size children after_drag /\
    (- child_cells size children (Z.of_nat prev) < p < child_cells size children (Z.of_nat next) ->
     forall j, 0 <= j <= zlen children ->
       wall_pos size after_drag j = wall_pos size children j + (if (Z.of_nat prev <? j) && (j <=? Z.of_nat next) then p else 0)).
Proof.
  intros Hs Hpos Hf Hbig Hi Hdrag. destruct (nearest_exist size children i Hs Hi Hdrag) as (prev&next&cp&cn&Hn).
  destruct (drag_resize_ok size children i Hs Hpos Hf Hi Hdrag _ _ _ _ (wall_pos size children i) p Hn) as [Hr Ht].
  cbv zeta in Hr, Ht. exists prev, next, cp, cn. eexists. split; [done|]. split; [exact Hr|].
  pose proof Hn as [N1 N2 N3 N4 N5 N6 N7 _ _].
  assert (Hd : redistributed size children (exchanged children prev next cp cn
    (clamped (drag_target size children i (wall_pos size children i) p) (flex_before children (Z.of_nat prev)) (flex_before children (Z.of_nat prev) + c_size cp + c_size cn) - flex_before children (Z.of_nat prev))
    (flex_before children (Z.of_nat prev) + c_size cp + c_size cn - clamped (drag_target size children i (wall_pos size children i) p) (flex_before children (Z.of_nat prev)) (flex_before children (Z.of_nat prev) + c_size cp + c_size cn)))).
  { apply exchanged_redistributed; try done; lia. }
  split; [exact Hd|]. intros Hp j Hj.
  rewrite (wall_pos_fits _ (exchanged _ _ _ _ _ _ _) j) by (by apply (redistributed_fits _ _ _ Hd)).
  rewrite (wall_pos_fits _ children j) by done.
  rewrite (rd_fixed _ _ _ Hd). unfold flexible_cells. rewrite (rd_flexible _ _ _ Hd), (redistributed_space _ _ _ Hd).
  rewrite exchanged_flex by (done || lia). rewrite (unclamped size children i prev next cp cn p) by (done || lia).
  destruct (Z.ltb_spec (Z.of_nat prev) j) as [Hlo|Hlo]; cbn [andb];
    [rewrite decide_True by lia|rewrite !decide_False by lia; rewrite !Z.add_0_r; done].
  destruct (Z.leb_spec j (Z.of_nat next)) as [Hhi|Hhi];
    [rewrite decide_False by lia|rewrite decide_True by lia; rewrite !Z.add_0_r; do 4 f_equal; lia].
  assert (Hfj : flex_before children j = flex_before children i).
  { apply lookup_lt_Some in N3 as Hln. assert (Z.of_nat next < zlen children) by (unfold zlen; lia).
    assert (Z.of_nat prev + 1 <= zlen children) by lia.
    pose proof N2 as Z2. rewrite <- zget_of_nat in Z2.
    pose proof (flex_before_step _ _ _ (Nat2Z.is_nonneg prev) Z2) as Hst. unfold flexible_part in Hst. rewrite N4 in Hst.
    pose proof (sane_sizes _ _ Hs) as Hsz.
    destruct (zsum_take_mono flexible_part children (Z.of_nat prev + 1) j flexible_part_nonneg Hsz ltac:(lia)) as [_ M1].
    destruct (zsum_take_mono flexible_part children j (Z.of_nat next) flexible_part_nonneg Hsz ltac:(lia)) as [_ M2].
    unfold flex_before in *. lia. }
  rewrite Hfj. set (d := flexible_cells size children i + p).
  replace (flex_before children i + (all_flexible children * d / space size children - flex_before children (Z.of_nat prev) - c_size cp) + 0)
    with (all_flexible children * d / space size children) by lia.
  rewrite inverse_share; [|destruct Hf; unfold space; lia|done]. unfold d, flexible_cells. lia.
Qed.

Example drag_moves_wall_witness :
  exists after_drag, resize 40 1 (wall_pos 40 example_children 1) 3 example_children (sums example_children) = Ret after_drag /\
    wall_pos 40 example_children 1 = 21 /\ wall_pos 40 after_drag 1 = 24 /\ wall_pos 40 after_drag 2 = 30.
Proof.
  destruct example_children_ok as (H1&H2&H3).
  destruct (drag_moves_wall 40 example_children 1 3 H1 H2 H3 ltac:(by vm_compute) ltac:(by vm_compute) ltac:(by vm_compute))
    as (prev&next&cp&cn&c'&Hn&Hr&_&Hw).
  pose proof (nb_search_prev _ _ _ _ _ _ Hn) as E1. pose proof (nb_search_next _ _ _ _ _ _ Hn) as E2.
  vm_compute in E1, E2. injection E1 as <-. injection E2 as <-.
  exists c'. split; [exact Hr|]. split; [vm_compute; reflexivity|].
  split; (rewrite Hw; [vm_compute; reflexivity|by vm_compute|by vm_compute]).
Defined.

(** ** The bitmap of wall pieces *)

(** The bitmap has a cell for each cell of the area, and one more. *)
Definition bitmap (masks : list Z) (wall_area : Rect) : Prop :=
  0 <= width wall_area /\ 0 <= height wall_area /\ zlen masks = width wall_area * height wall_area + 1.

Lemma or_mask_ok masks x y val wall_area :
  bitmap masks wall_area ->
  exists masks', or_mask masks (wall_masks_idx x y wall_area) val = Ret masks' /\ bitmap masks' wall_area.
Proof.
  intros (Hw&Hh&Hl). unfold or_mask.
  assert (Hi : 0 <= wall_masks_idx x y wall_area < zlen masks).
  { rewrite Hl. unfold wall_masks_idx, contains, right, bottom in *. cbn [fst snd].
    unfold width, height in *. destruct (_ && _) eqn:Hc; [|nia]. rewrite !andb_true_iff, !Z.leb_le, !Z.ltb_lt in Hc. nia. }
  destruct (zget masks _) as [m|] eqn:Hm; [|by apply zget_range in Hi as [? ?]; congruence].
  eexists. split; [done|]. split; [done|]. split; [done|]. by rewrite zlen_zset.
Qed.

Lemma trace_cells_ok axis p mask n i masks wall_area :
  is_axis axis -> bitmap masks wall_area ->
  exists masks', trace_cells axis p mask n i masks wall_area = Ret masks' /\ bitmap masks' wall_area.
Proof.
  intros Ha. revert i masks. induction n as [|n IH]; intros i masks Hb; [by exists masks|].
  assert (Hc : exists pp : Z * Z, trace_cells axis p mask (S n) i masks wall_area =
    (masks ← or_mask masks (wall_masks_idx pp.1 pp.2 wall_area) mask; trace_cells axis p mask n (i + 1) masks wall_area)).
  { destruct Ha as [-> | ->]; eexists (_, _); cbn [trace_cells]; reflexivity. }
  destruct Hc as [pp ->]. destruct (or_mask_ok masks pp.1 pp.2 mask wall_area Hb) as (m&Hm&Hb').
  rewrite Hm. cbn [mbind outcome_bind]. by apply IH.
Qed.

(** Drawing the lines of a wall never leaves the bitmap: whatever the
    area of the region, the position of the wall and the area of the window,
    also for a wall that is off the screen, [trace_wall] finishes and the
    bitmap keeps its size. *)
Theorem trace_wall_in_bitmap axis area wall_pos bold masks wall_area :
  is_axis axis -> bitmap masks wall_area ->
  exists masks', trace_wall axis area wall_pos bold masks wall_area = Ret masks' /\ bitmap masks' wall_area.
Proof.
  intros Ha Hb. unfold trace_wall.
  assert (H1 : is_axis (1 - axis)) by (destruct Ha; [right|left]; lia).
  destruct (at_axis_ok (E:=Empty_set) (size area) _ H1) as [len ->]. cbn [mbind outcome_bind].
  destruct (at_axis_ok (E:=Empty_set) (pos area) _ Ha) as [c ->]. cbn [mbind outcome_bind].
  assert (H2 : exists p, set_axis (E:=Empty_set) (pos area) axis (c + wall_pos) = Ret p).
  { destruct Ha as [-> | ->]; by eexists. }
  destruct H2 as [p ->]. cbn [mbind outcome_bind].
  destruct (axis =? AxisY).
  - destruct (or_mask_ok masks (p.1 - 1) p.2 (Z.shiftl 2 (if bold then 4 else 0)) wall_area Hb) as (m&->&Hm). cbn [mbind outcome_bind].
    destruct (or_mask_ok m (p.1 + len) p.2 (Z.shiftl 1 (if bold then 4 else 0)) wall_area Hm) as (m'&->&Hm'). cbn [mbind outcome_bind].
    by apply trace_cells_ok.
  - destruct (or_mask_ok masks p.1 (p.2 - 1) (Z.shiftl 8 (if bold then 4 else 0)) wall_area Hb) as (m&->&Hm). cbn [mbind outcome_bind].
    destruct (or_mask_ok m p.1 (p.2 + len) (Z.shiftl 4 (if bold then 4 else 0)) wall_area Hm) as (m'&->&Hm'). cbn [mbind outcome_bind].
    by apply trace_cells_ok.
Qed.

Example trace_wall_in_bitmap_witness :
  exists masks', trace_wall AxisX (mkRect (0, 0) (4, 3)) 2 false (replicate 9 0) (mkRect (1, 0) (4, 2)) = Ret masks' /\
    masks' = [0; 12; 0; 0; 0; 12; 0; 0; 12].
Proof.
  destruct (trace_wall_in_bitmap AxisX (mkRect (0, 0) (4, 3)) 2 false (replicate 9 0) (mkRect (1, 0) (4, 2))) as (m&Hm&_).
  - by left.
  - by vm_compute.
  - exists m. split; [exact Hm|]. vm_compute in Hm. injection Hm as <-. reflexivity.
Defined.
