(* ===== verification/LayoutPlace.v ===== *)
(** [build_split] on a tree of regions: trees that differ in sizes, areas and
    selected tabs only ([reshaped]), trees whose sizes can be drawn, the children
    of a split as [place_children] sees them, and the areas they get. *)
From Stdlib Require Import ZArith Lia.
From stdpp Require Import base list gmap sets.
From S2P Require Import Prelude Pool Errors StateMonad Tabs Rect PoolOwned Layout LayoutTree LayoutSimplify LayoutMove LayoutBuild LayoutBuildSpec.
Open Scope Z_scope.

Definition tree_size (t : tree) : Z := i_size (tinfo t).
Definition tree_area (t : tree) : Rect := i_area (tinfo t).
Definition set_info (i : info) (t : tree) : tree :=
  match t with TLeaf id _ l => TLeaf id i l | TSplit id _ axis ts => TSplit id i axis ts end.

(** Sizes may be exchanged between siblings. *)
Definition exchanged_sizes (ts ts' : list tree) : Prop :=
  zsum (tree_size <$> ts') = zsum (tree_size <$> ts) /\
  (Forall (fun t => 1 <= tree_size t) ts -> Forall (fun t => 1 <= tree_size t) ts').

(** The same tabs; the selected one is a [usize]. *)
Definition same_tabs (l l' : RegionLeaf) : Prop :=
  tabs l' = tabs l /\ (0 <= selected (tabs_state l) -> 0 <= selected (tabs_state l')).

Inductive reshaped : tree -> tree -> Prop :=
  | reshaped_leaf id i i' l l' : same_tabs l l' -> reshaped (TLeaf id i l) (TLeaf id i' l')
  | reshaped_split id i i' axis ts ts' :
      Forall2 reshaped ts ts' -> exchanged_sizes ts ts' ->
      reshaped (TSplit id i axis ts) (TSplit id i' axis ts').

Lemma reshaped_ind' (P : tree -> tree -> Prop) :
  (forall id i i' l l', same_tabs l l' -> P (TLeaf id i l) (TLeaf id i' l')) ->
  (forall id i i' axis ts ts', Forall2 (fun t t' => reshaped t t' /\ P t t') ts ts' -> exchanged_sizes ts ts' ->
     P (TSplit id i axis ts) (TSplit id i' axis ts')) ->
  forall t t', reshaped t t' -> P t t'.
Proof.
  intros Hl Hs. induction t as [|id i axis ts IH] using tree_forest_ind; inversion_clear 1 as [|????? ts' Hf Hx]; [by apply Hl|].
  apply Hs; [|done]. clear Hx. induction Hf as [|u u' ts ts' Ht _ IHf]; [constructor|].
  apply Forall_cons in IH as [IHt IH]. constructor; auto.
Qed.

Lemma reshaped_refl t : reshaped t t.
Proof.
  induction t as [|id i axis ts IH] using tree_forest_ind; [by constructor|]. constructor; [|done].
  induction IH; constructor; auto.
Qed.

Lemma reshaped_trans t1 t2 t3 : reshaped t1 t2 -> reshaped t2 t3 -> reshaped t1 t3.
Proof.
  intros H. revert t1 t2 H t3. induction 1 as [id i i' l l' Hl|id i i' axis ts ts' Hf Hx] using reshaped_ind';
    inversion_clear 1 as [????? Hl3|????? ts3 Hf3 Hx3]; constructor; [destruct Hl, Hl3; split; [congruence|auto]| |].
  - clear Hx Hx3. revert ts3 Hf3. induction Hf as [|t t' ts ts' [_ Ht] _ IH]; inversion_clear 1; constructor; auto.
  - destruct Hx, Hx3. split; [congruence|auto].
Qed.

#[export] Instance reshaped_preorder : PreOrder reshaped.
Proof. split; [exact reshaped_refl|exact reshaped_trans]. Qed.

Lemma reshaped_tid t t' : reshaped t t' -> tid t' = tid t.
Proof. by destruct 1. Qed.
Lemma reshaped_axis t t' : reshaped t t' -> top_axis t' = top_axis t.
Proof. by destruct 1. Qed.
Lemma reshaped_tids ts ts' : Forall2 reshaped ts ts' -> tid <$> ts' = tid <$> ts.
Proof. induction 1 as [|t t' ts ts' H _ IH]; [done|]. rewrite !fmap_cons. by rewrite (reshaped_tid _ _ H), IH. Qed.

Lemma reshaped_info t t' i : reshaped t t' -> reshaped t (set_info i t').
Proof. destruct 1; by constructor. Qed.

(** What does not depend on the information at the regions. *)
Lemma reshaped_ids p t t' : reshaped t t' -> (entries p t').*1 = (entries p t).*1.
Proof.
  intros H. revert p. induction H as [|id i i' axis ts ts' Hf _] using reshaped_ind'; intros p; [done|].
  rewrite !entries_unfold, !fmap_cons. cbn [fst tid]. f_equal. unfold below. cbn [tid kids].
  induction Hf as [|t t' ts ts' [_ Ht] _ IH]; [done|]. rewrite !ents_cons, !fmap_app. by rewrite Ht, IH.
Qed.
Lemma reshaped_length p t t' : reshaped t t' -> zlen (entries p t') = zlen (entries p t).
Proof. intros H. apply (reshaped_ids p) in H. apply (f_equal zlen) in H. by rewrite !zlen_fmap in H. Qed.
Lemma reshaped_leaf_ids t t' : reshaped t t' -> (leaves t').*1 = (leaves t).*1.
Proof.
  induction 1 as [|id i i' axis ts ts' Hf _] using reshaped_ind'; [done|]. rewrite !leaves_split.
  induction Hf as [|t t' ts ts' [_ Ht] _ IH]; [done|]. rewrite !leaves_of_cons, !fmap_app. by rewrite Ht, IH.
Qed.
Lemma reshaped_placed t t' : reshaped t t' -> placed (leaves t') = placed (leaves t).
Proof.
  induction 1 as [id i i' l l' [Hl _]|id i i' axis ts ts' Hf _] using reshaped_ind'.
  - unfold placed, placed_in. simpl. by rewrite Hl.
  - rewrite !leaves_split. induction Hf as [|t t' ts ts' [_ Ht] _ IH]; [done|].
    rewrite !leaves_of_cons, !placed_app. by rewrite Ht, IH.
Qed.

Lemma Forall2_transfer {A} (R : A -> A -> Prop) (P : A -> Prop) l l' :
  (forall x y, R x y -> P x -> P y) -> Forall2 R l l' -> Forall P l -> Forall P l'.
Proof. intros H. induction 1; [done|]. rewrite !Forall_cons. naive_solver. Qed.

Lemma reshaped_normal t t' : reshaped t t' -> normal t -> normal t'.
Proof.
  induction 1 as [|id i i' axis ts ts' Hf _] using reshaped_ind'; [constructor|].
  inversion_clear 1 as [|???? Hl Hn Ha]. constructor.
  - apply Forall2_length in Hf. unfold zlen in *. lia.
  - eapply Forall2_transfer; [|exact Hf|exact Hn]. naive_solver.
  - eapply Forall2_transfer; [|exact Hf|exact Ha]. intros x y [Hxy _]. by rewrite (reshaped_axis _ _ Hxy).
Qed.

Lemma reshaped_one ts1 t t' ts2 :
  reshaped t t' -> tree_size t' = tree_size t -> Forall2 reshaped (ts1 ++ t :: ts2) (ts1 ++ t' :: ts2) /\
  exchanged_sizes (ts1 ++ t :: ts2) (ts1 ++ t' :: ts2).
Proof.
  intros H Hs. split; [|split].
  - apply Forall2_app; [|constructor; [done|]].
    + induction ts1; constructor; [apply reshaped_refl|done].
    + induction ts2; constructor; [apply reshaped_refl|done].
  - by rewrite !fmap_app, !fmap_cons, Hs.
  - by rewrite !Forall_app, !Forall_cons, Hs.
Qed.

Lemma reshaped_plug C t t' : reshaped t t' -> tree_size t' = tree_size t -> reshaped (plug C t) (plug C t').
Proof.
  revert t t'. induction C as [|f C IH]; intros t t' H Hs; [done|]. cbn [plug]. apply IH; [|done].
  unfold plug1. cbn [app]. destruct (reshaped_one (f_left f) t t' (f_right f) H Hs). by constructor.
Qed.
Lemma plug_root_size C t t' : tree_size t' = tree_size t -> tree_size (plug C t') = tree_size (plug C t).
Proof. revert t t'. induction C as [|f C IH]; intros t t' H; [done|]. by apply IH. Qed.

(** ** Trees that a frame can draw *)

(** Axes are axes, and the sizes of siblings add up to what one region may have. *)
Inductive drawable : tree -> Prop :=
  | drawable_leaf id i l : drawable (TLeaf id i l)
  | drawable_split id i axis ts :
      is_axis axis -> Forall (fun t => 1 <= tree_size t) ts -> zsum (tree_size <$> ts) <= size_max ->
      Forall drawable ts -> drawable (TSplit id i axis ts).

Lemma reshaped_drawable t t' : reshaped t t' -> drawable t -> drawable t'.
Proof.
  induction 1 as [|id i i' axis ts ts' Hf [Hx1 Hx2]] using reshaped_ind'; [constructor|].
  inversion_clear 1 as [|???? Ha H1 Hsum Hd]. constructor; [done|auto|lia|].
  eapply Forall2_transfer; [|exact Hf|exact Hd]. naive_solver.
Qed.

Lemma elem_le_zsum (l : list Z) x : Forall (fun y => 1 <= y) l -> x ∈ l -> x <= zsum l.
Proof.
  induction 1 as [|y l Hy Hl IH]; [by intros ?%elem_of_nil|]. rewrite zsum_cons.
  assert (0 <= zsum l). { clear -Hl. induction Hl; [done|]. rewrite zsum_cons. lia. }
  intros [->|Hx]%elem_of_cons; [lia|]. apply IH in Hx. lia.
Qed.

(** Their sizes are within the bounds of the arithmetic. *)
Lemma drawable_below t p : drawable t -> sized (ents p (kids t)).
Proof.
  revert p. induction t as [|id i axis ts IH] using tree_forest_ind; intros p; [intros _; constructor|].
  inversion_clear 1 as [|???? _ H1 Hsum Hd]. cbn [kids]. unfold sized, ents. apply Forall_concat, Forall_fmap.
  apply Forall_forall. intros t Ht. unfold compose. rewrite entries_unfold. constructor.
  - cbn [snd]. replace (relative_size (head_region p t)) with (tree_size t) by (by destruct t).
    rewrite Forall_forall in H1. split; [by apply H1|]. transitivity (zsum (tree_size <$> ts)); [|done].
    apply elem_le_zsum; [by apply Forall_fmap, Forall_forall|by apply list_elem_of_fmap_2].
  - rewrite Forall_forall in IH, Hd. apply (IH t Ht). by apply Hd.
Qed.
Lemma drawable_sized p t : drawable t -> 1 <= tree_size t <= size_max -> sized (entries p t).
Proof.
  intros Hd Ht. rewrite entries_unfold. constructor; [|by apply drawable_below].
  cbn [snd]. by replace (relative_size (head_region p t)) with (tree_size t) by (by destruct t).
Qed.

(** The selected tabs are not negative: they are of type [usize]. *)
Definition usize_tabs (t : tree) : Prop := Forall (fun e => 0 <= selected (tabs_state e.2)) (leaves t).
Lemma reshaped_usize t t' : reshaped t t' -> usize_tabs t -> usize_tabs t'.
Proof.
  unfold usize_tabs. induction 1 as [id i i' l l' [_ Hl]|id i i' axis ts ts' Hf _] using reshaped_ind'.
  - cbn [leaves]. rewrite !Forall_singleton. exact Hl.
  - rewrite !leaves_split. induction Hf as [|t t' ts ts' [_ Ht] _ IH]; [done|]. rewrite !leaves_of_cons, !Forall_app. naive_solver.
Qed.

Lemma entry_reshaped p t t' id x s :
  reshaped t t' -> (id, x) ∈ entries p t -> r_content x = Split s ->
  exists x' s', (id, x') ∈ entries p t' /\ r_content x' = Split s' /\ zlen (s_children s') = zlen (s_children s).
Proof.
  intros Hr. revert p. induction Hr as [|id' i i' axis ts ts' Hf _] using reshaped_ind'; intros p Hx Hs.
  - apply list_elem_of_singleton in Hx as [= -> ->]. done.
  - rewrite entries_unfold in Hx. apply elem_of_cons in Hx as [[= -> ->]|Hx].
    + injection Hs as <-. eexists _, _. rewrite entries_unfold. split; [left|]. split; [reflexivity|].
      cbn [s_children]. rewrite !zlen_fmap. apply Forall2_length in Hf. unfold zlen. by rewrite Hf.
    + apply elem_of_concat in Hx as (es&Hes&(t&->&Ht)%list_elem_of_fmap). cbn [kids] in Ht.
      apply list_elem_of_lookup_1 in Ht as [n Ht]. destruct (Forall2_lookup_l _ _ _ _ _ Hf Ht) as (t'&Ht'&_&IH).
      destruct (IH _ Hes Hs) as (x'&s'&Hx'&?&?). exists x', s'. split; [|done]. rewrite entries_unfold. right.
      unfold below, ents. cbn [kids]. apply elem_of_concat. exists (entries (Some id') t'). split; [exact Hx'|].
      apply list_elem_of_fmap. exists t'. split; [done|]. by eapply list_elem_of_lookup_2.
Qed.

(** [p[axis]] for an axis. *)
Definition along {A} (p : A * A) (axis : Z) : A := if axis =? 0 then p.1 else p.2.
Definition with_along {A} (p : A * A) (axis : Z) (x : A) : A * A := if axis =? 0 then (x, p.2) else (p.1, x).
Lemma at_axis_along {E A} (p : A * A) axis : is_axis axis -> @at_axis E A p axis = Ret (along p axis).
Proof. by intros [-> | ->]. Qed.
Lemma set_axis_along {E A} (p : A * A) axis x : is_axis axis -> @set_axis E A p axis x = Ret (with_along p axis x).
Proof. by intros [-> | ->]. Qed.

(** The area between two walls. *)
Definition area_between (axis : Z) (area : Rect) (wall next_wall : Z) : Rect :=
  mkRect (with_along (pos area) axis (along (pos area) axis + (wall + 1)))
         (with_along (size area) axis (Z.max (next_wall - wall - 1) 0)).
Lemma child_area_between axis area w w' : is_axis axis -> child_area axis area w w' = Ret (area_between axis area w w').
Proof. intros Ha. unfold child_area. rewrite at_axis_along by done. cbn [mbind outcome_bind]. by rewrite !set_axis_along by done. Qed.

(** The walls of a split, also when not everything fits. *)
Definition wall_at (sz : Z) (cs : list child) (j : Z) : Z := if j =? zlen cs then sz else wall_pos sz cs j.

Lemma zget_walls_at sz cs j :
  sane sz cs -> 0 <= j <= zlen cs ->
  zget (-1 :: (wall_pos sz cs <$> seqZ 1 (zlen cs - 1)) ++ [sz]) j = Some (wall_at sz cs j).
Proof.
  intros Hs Hj. pose proof (sane_some _ _ Hs) as Hn. unfold wall_at.
  assert (Hl : zlen (wall_pos sz cs <$> seqZ 1 (zlen cs - 1)) = zlen cs - 1).
  { rewrite zlen_fmap. unfold zlen at 1. rewrite length_seqZ. lia. }
  rewrite zget_cons. destruct (Z.eqb_spec j 0) as [->|Hne].
  - rewrite (proj2 (Z.eqb_neq _ _)) by lia. f_equal. unfold wall_pos.
    destruct ((sz <=? all_fixed cs) || (all_flexible cs =? 0)) eqn:Hc; [done|].
    apply orb_false_iff in Hc as [_ Hc]. apply Z.eqb_neq in Hc.
    destruct (before_bounds _ _ (zlen cs) Hs ltac:(lia)) as (B&_). fold (all_flexible cs) in *.
    rewrite flexible_cells_0; [done|lia|done].
  - rewrite (proj2 (Z.ltb_ge j 0)), zget_app, Hl by lia. destruct (Z.ltb_spec (j - 1) (zlen cs - 1)).
    + rewrite (proj2 (Z.eqb_neq _ _)) by lia. rewrite zget_lookup, list_lookup_fmap, lookup_seqZ_lt by lia. cbn. do 2 f_equal. lia.
    + replace j with (zlen cs) by lia. by rewrite Z.sub_diag, Z.eqb_refl.
Qed.

(** Walls never go back. *)
Lemma wall_pos_step sz cs j :
  sane sz cs -> 0 <= j < zlen cs -> wall_pos sz cs j + 1 <= wall_pos sz cs (j + 1).
Proof.
  intros Hs Hj. destruct (proj2 (zget_range cs j) Hj) as [c Hc].
  assert (H0 : 0 <= c_size c).
  { pose proof (sane_sizes _ _ Hs) as Hsz. apply zget_Some in Hc as [_ Hc]. by apply (Forall_lookup_1 _ _ _ _ Hsz Hc). }
  assert (0 <= child_cells sz cs j); [|unfold child_cells in *; lia].
  destruct (c_fixed c) eqn:Hf; [by rewrite (child_cells_fixed _ _ _ c) by (done || lia)|].
  destruct (decide (fits sz cs)) as [Hfit|Hfit].
  - by eapply child_cells_flexible; [done|lia|done..].
  - unfold child_cells, wall_pos. rewrite (fixed_before_step cs j c ltac:(lia) Hc). unfold fixed_part. rewrite Hf.
    destruct (before_bounds _ _ (zlen cs) Hs ltac:(lia)) as (B&_). fold (all_flexible cs) in B.
    destruct ((sz <=? all_fixed cs) || (all_flexible cs =? 0)) eqn:Hc'; [lia|].
    apply orb_false_iff in Hc' as [H1%Z.leb_gt H2%Z.eqb_neq]. destruct Hfit. split; lia.
Qed.

Lemma wall_pos_mono sz cs i j :
  sane sz cs -> 0 <= i -> i <= j <= zlen cs -> wall_pos sz cs i + (j - i) <= wall_pos sz cs j.
Proof.
  intros Hs Hi Hj. replace j with (i + Z.of_nat (Z.to_nat (j - i))) by lia.
  assert (Hn : Z.of_nat (Z.to_nat (j - i)) <= zlen cs - i) by lia. revert Hn.
  generalize (Z.to_nat (j - i)) as n. clear Hj j. induction n as [|n IH]; intros Hn.
  - rewrite Nat2Z.inj_0, Z.add_0_r. lia.
  - pose proof (wall_pos_step sz cs (i + Z.of_nat n) Hs ltac:(lia)) as Hst. specialize (IH ltac:(lia)).
    replace (i + Z.of_nat (S n)) with (i + Z.of_nat n + 1) by lia. lia.
Qed.

Lemma wall_pos_0 sz cs : sane sz cs -> wall_pos sz cs 0 = -1.
Proof.
  intros Hs. pose proof (zget_walls_at sz cs 0 Hs) as H. pose proof (sane_some _ _ Hs).
  specialize (H ltac:(lia)). rewrite zget_cons in H. injection H as H. unfold wall_at in H.
  rewrite (proj2 (Z.eqb_neq _ _)) in H by lia. done.
Qed.

(** A flexible child is not larger than the split. *)
Lemma flexible_area_bound sz cs j c :
  sane sz cs -> 0 <= j < zlen cs -> zget cs j = Some c -> c_fixed c = false ->
  Z.max (wall_at sz cs (j + 1) - wall_at sz cs j - 1) 0 <= sz.
Proof.
  intros Hs Hj Hc Hf. pose proof (sane_screen _ _ Hs) as Hsz. pose proof (wall_pos_0 sz cs Hs) as H0.
  pose proof (wall_pos_mono sz cs 0 j Hs ltac:(lia) ltac:(lia)) as Hlo. unfold wall_at.
  rewrite (proj2 (Z.eqb_neq j _)) by lia. destruct (Z.eqb_spec (j + 1) (zlen cs)); [lia|].
  pose proof (wall_pos_mono sz cs (j + 1) (zlen cs) Hs ltac:(lia) ltac:(lia)) as Hhi.
  destruct (decide (fits sz cs)) as [Hfit|Hfit].
  - destruct (wall_pos_ends _ _ Hfit) as [_ He]. lia.
  - unfold wall_pos. rewrite (fixed_before_step cs j c ltac:(lia) Hc). unfold fixed_part. rewrite Hf.
    destruct (before_bounds _ _ (zlen cs) Hs ltac:(lia)) as (B&_). fold (all_flexible cs) in B.
    destruct ((sz <=? all_fixed cs) || (all_flexible cs =? 0)) eqn:Hc'; [lia|].
    apply orb_false_iff in Hc' as [H1%Z.leb_gt H2%Z.eqb_neq]. destruct Hfit. split; lia.
Qed.

(** ** The children of a split of the tree *)

Section Place.
Context `{!WindowContent}.
Implicit Types (wp : Pool Window) (st : Layout).

(** A leaf with one window has the fixed size of the window, if any. *)
Definition fixed_along wp (axis : Z) (t : tree) : option Z :=
  match t with
  | TLeaf _ _ (mkLeaf [w] _) => win ← Pool.try_get wp w; along (fixed_size win) axis
  | _ => None
  end.
Definition child_of wp (axis : Z) (t : tree) : child :=
  match fixed_along wp axis t with Some s => (true, s, tid t) | None => (false, tree_size t, tid t) end.

Definition fixed_sizes_ok wp : Prop :=
  forall w win axis s, Pool.try_get wp w = Some win -> along (fixed_size win) axis = Some s -> 0 <= s <= size_max.
(** Every tab of a leaf is a window. *)
Definition tabs_alive wp (t : tree) : Prop := forall id l w, (id, l) ∈ leaves t -> w ∈ tabs l -> is_Some (Pool.try_get wp w).

Lemma child_of_flexible wp axis t : c_fixed (child_of wp axis t) = false -> child_of wp axis t = (false, tree_size t, tid t).
Proof. unfold child_of. by destruct (fixed_along wp axis t). Qed.
Lemma child_of_id wp axis t : c_id (child_of wp axis t) = tid t.
Proof. unfold child_of. by destruct (fixed_along wp axis t). Qed.
Lemma fixed_along_bound wp axis t s : fixed_sizes_ok wp -> fixed_along wp axis t = Some s -> 0 <= s <= size_max.
Proof.
  intros Hw Hs. destruct t as [id i [[|w [|]] ts]|]; try done. simpl in Hs.
  destruct (Pool.try_get wp w) as [win|] eqn:E; [|done]. by eapply Hw.
Qed.

Lemma sum_flexible wp axis ts :
  Forall (fun t => 1 <= tree_size t) ts ->
  0 <= zsum (flexible_part <$> (child_of wp axis <$> ts)) <= zsum (tree_size <$> ts).
Proof.
  induction 1 as [|t ts Ht _ IH]; [done|]. rewrite !fmap_cons, !zsum_cons. unfold flexible_part at 1 3.
  destruct (c_fixed (child_of wp axis t)) eqn:Hf; [lia|]. rewrite (child_of_flexible _ _ _ Hf). unfold c_size. simpl in *. lia.
Qed.
Lemma sum_fixed wp axis ts :
  fixed_sizes_ok wp -> 0 <= zsum (fixed_part <$> (child_of wp axis <$> ts)) <= zlen ts * size_max.
Proof.
  intros Hw. induction ts as [|t ts IH]; [done|]. rewrite !fmap_cons, !zsum_cons, zlen_cons.
  assert (0 <= fixed_part (child_of wp axis t) <= size_max); [|lia].
  unfold fixed_part, child_of. destruct (fixed_along wp axis t) as [s|] eqn:E; [|by vm_compute].
  simpl. eapply fixed_along_bound; [done|exact E].
Qed.

Lemma take_all {A} (l : list A) : take (Z.to_nat (zlen l)) l = l.
Proof. apply take_ge. unfold zlen. lia. Qed.
Lemma all_flexible_sum cs : all_flexible cs = zsum (flexible_part <$> cs).
Proof. unfold all_flexible, flex_before. by rewrite take_all. Qed.

Lemma children_sane wp axis ts sz :
  fixed_sizes_ok wp -> ts <> [] -> zlen ts < region_max -> Forall (fun t => 1 <= tree_size t) ts ->
  zsum (tree_size <$> ts) <= size_max -> 0 <= sz < 2 ^ 16 ->
  sane sz (child_of wp axis <$> ts) /\ positive (child_of wp axis <$> ts).
Proof.
  intros Hw Hne Hlen H1 Hsum Hsz. pose proof (sum_flexible wp axis ts H1). pose proof (sum_fixed wp axis ts Hw).
  apply zlen_pos in Hne. split.
  - constructor; rewrite ?zlen_fmap; [done| | | |done].
    + apply Forall_fmap, Forall_forall. intros t Ht. unfold compose, child_of.
      destruct (fixed_along wp axis t) eqn:E; [apply (fixed_along_bound _ _ _ _ Hw E)|].
      rewrite Forall_forall in H1. unfold c_size. simpl. specialize (H1 t Ht). lia.
    + unfold flex_before. rewrite <- (zlen_fmap (child_of wp axis)), take_all. unfold sum_max, size_max in *. lia.
    + unfold fixed_before. rewrite <- (zlen_fmap (child_of wp axis)), take_all. unfold sum_max, size_max, region_max in *. lia.
  - apply Forall_fmap, Forall_forall. intros t Ht Hf. unfold compose in *. rewrite (child_of_flexible _ _ _ Hf).
    rewrite Forall_forall in H1. by apply H1.
Qed.

(** ** The areas and sizes that [build_split] assigns *)

Definition new_kid (resized : bool) (axis : Z) (area : Rect) (t : tree) (c : child) (w w' : Z) : tree :=
  set_info (mkInfo (if resized && negb (c_fixed c) then c_size c else tree_size t) (area_between axis area w w')) t.
Fixpoint new_kids (resized : bool) (axis : Z) (area : Rect) (ts : list tree) (cs : list child) (walls : list Z) : list tree :=
  match ts, cs, walls with
  | t :: ts, c :: cs, w :: (w' :: _) as walls' => new_kid resized axis area t c w w' :: new_kids resized axis area ts cs walls'
  | _, _, _ => []
  end.

Lemma head_set_info p i t : head_region p (set_info i t) = set_area (i_area i) (set_relative_size (i_size i) (head_region p t)).
Proof. by destruct t. Qed.
Lemma tid_set_info i t : tid (set_info i t) = tid t.
Proof. by destruct t. Qed.

Lemma assign_areas_ok resized axis area p ts cs walls A k st :
  is_axis axis -> Forall2 (fun t c => c_id c = tid t) ts cs -> length walls = S (length ts) ->
  owns k (regions st) (heads p ts ++ A) ->
  returns (assign_areas axis area resized cs walls)
    (fun _ st' => regions_become k st (heads p (new_kids resized axis area ts cs walls) ++ A) st') st.
Proof.
  intros Ha Hf. revert walls A st. induction Hf as [|t c ts cs Hid _ IH]; intros walls A st Hw Ho.
  - cbn [assign_areas]. apply returns_ret. exists (regions st). split; [by destruct st|exact Ho].
  - destruct walls as [|w [|w' walls]]; [done..|]. cbn [assign_areas]. 
    apply returns_bind. eapply returns_opt; [by rewrite zget_cons|]. apply returns_bind. eapply returns_opt; [by rewrite !zget_cons|].
    set (s := if resized && negb (c_fixed c) then c_size c else tree_size t).
    assert (Hsz : returns (swhen (resized && negb (c_fixed c)) (region_mut (c_id c) (set_relative_size (c_size c))))
      (fun _ st' => regions_become k st ((tid t, set_relative_size s (head_region p t)) :: heads p ts ++ A) st') st).
    { subst s. destruct (resized && negb (c_fixed c)); cbn [swhen].
      - rewrite Hid. eapply region_mut_ok; [exact Ho|]. intros q Hq. by exists q.
      - apply returns_ret. exists (regions st). split; [by destruct st|].
        replace (set_relative_size (tree_size t) (head_region p t)) with (head_region p t) by (by destruct t as [? []|? []]). exact Ho. }
    apply returns_bind. eapply returns_mono; [exact Hsz|]. intros _ st1 (q&->&Hq).
    apply returns_bind. eapply returns_lift; [rewrite child_area_between by done; reflexivity|].
    apply returns_bind. rewrite Hid. eapply region_mut_ok; [exact Hq|]. intros q' Hq'.
    eapply returns_mono; [apply (IH (w' :: walls) ((tid t, head_region p (new_kid resized axis area t c w w')) :: A))|].
    + simpl in *. lia.
    + cbn [regions set_regions]. eapply owns_perm; [|exact Hq']. unfold new_kid. rewrite head_set_info. apply Permutation_middle.
    + intros _ st2 (q2&->&Hq2). exists q2. split; [done|]. eapply owns_perm; [|exact Hq2].
      cbn [new_kids heads fmap list_fmap]. unfold new_kid at 2. rewrite tid_set_info. symmetry. apply Permutation_middle.
Qed.

(** The loop that looks at the children. *)
Lemma placed_children_ok axis p ts k st l :
  is_axis axis -> owns k (regions st) l -> (forall t, t ∈ ts -> (tid t, head_region p t) ∈ l) ->
  (forall t, t ∈ ts -> tabs_alive (windows st) t) ->
  returns (split_children axis (tid <$> ts)) (fun cs st' => cs = child_of (windows st) axis <$> ts /\ st' = st) st.
Proof.
  intros Ha Ho. induction ts as [|t ts IH]; intros Hin Halive; cbn [split_children fmap list_fmap]; [by apply returns_ret|].
  assert (Ht : returns (split_child axis (tid t)) (fun c st' => c = child_of (windows st) axis t /\ st' = st) st).
  { apply returns_bind. eapply region_get_ok; [exact Ho|apply Hin; left|]. unfold child_of.
    destruct t as [id i [ws s]|id i ax ts']; cbn [head_region r_content fixed_along]; [|by apply returns_ret].
    destruct ws as [|w [|]]; [by apply returns_ret| |by apply returns_ret].
    destruct (Halive (TLeaf id i (mkLeaf [w] s)) ltac:(left) id (mkLeaf [w] s) w) as [win Hw]; [left|left|].
    apply returns_bind. eapply window_get_ok; [exact Hw|]. apply returns_bind.
    eapply returns_lift; [rewrite at_axis_along by done; reflexivity|]. rewrite Hw. cbn [mbind option_bind].
    destruct (along (fixed_size win) axis); by apply returns_ret. }
  apply returns_bind. eapply returns_mono; [exact Ht|]. intros c st1 [-> ->].
  apply returns_bind. eapply returns_mono; [apply IH|].
  - intros t' Ht'. apply Hin. by right.
  - intros t' Ht'. apply Halive. by right.
  - intros cs st1 [-> ->]. by apply returns_ret.
Qed.

(** ** [build_split] *)

Lemma zget_new_kids resized axis area ts cs walls j t c w w' :
  0 <= j -> zget ts j = Some t -> zget cs j = Some c -> zget walls j = Some w -> zget walls (j + 1) = Some w' ->
  zget (new_kids resized axis area ts cs walls) j = Some (new_kid resized axis area t c w w').
Proof.
  revert cs walls j. induction ts as [|t0 ts IH]; intros cs walls j Hj Ht Hc Hw Hw'; [by rewrite zget_nil in Ht|].
  destruct cs as [|c0 cs]; [by rewrite zget_nil in Hc|]. destruct walls as [|w0 walls]; [by rewrite zget_nil in Hw|].
  rewrite zget_cons in Ht. rewrite zget_cons in Hc. rewrite zget_cons in Hw. rewrite zget_cons in Hw'. rewrite (proj2 (Z.eqb_neq _ _)), (proj2 (Z.ltb_ge _ _)) in Hw' by lia.
  replace (j + 1 - 1) with j in Hw' by lia. destruct (Z.eqb_spec j 0) as [->|Hne].
  - simplify_eq. destruct walls as [|w1 walls]; [by rewrite zget_nil in Hw'|]. rewrite zget_cons in Hw'. simpl in Hw'.
    simplify_eq. cbn [new_kids]. by rewrite zget_cons.
  - rewrite (proj2 (Z.ltb_ge _ _)) in Ht, Hc, Hw by lia. destruct walls as [|w1 walls]; [by rewrite zget_nil in Hw'|].
    cbn [new_kids]. rewrite zget_cons, (proj2 (Z.eqb_neq _ _)), (proj2 (Z.ltb_ge _ _)) by lia.
    apply IH; [lia|done|done|done|]. by replace (j - 1 + 1) with j by lia.
Qed.
Lemma length_new_kids resized axis area ts cs walls :
  length cs = length ts -> length walls = S (length ts) -> length (new_kids resized axis area ts cs walls) = length ts.
Proof.
  revert cs walls. induction ts as [|t ts IH]; intros [|c cs] [|w [|w' walls]] Hc Hw; try done; simpl in *; try lia.
  by rewrite IH by (simpl; lia).
Qed.

Lemma fixed_along_set_info wp axis i t : fixed_along wp axis (set_info i t) = fixed_along wp axis t.
Proof. by destruct t. Qed.
Lemma tree_size_set_info i t : tree_size (set_info i t) = i_size i.
Proof. by destruct t. Qed.
Lemma tree_area_set_info i t : tree_area (set_info i t) = i_area i.
Proof. by destruct t. Qed.

Lemma exchange_sum wp axis ts ts' :
  Forall2 (fun t t' => t' = set_info (tinfo t') t /\ (c_fixed (child_of wp axis t) = true -> tree_size t' = tree_size t)) ts ts' ->
  zsum (tree_size <$> ts') + zsum (flexible_part <$> (child_of wp axis <$> ts)) =
  zsum (tree_size <$> ts) + zsum (flexible_part <$> (child_of wp axis <$> ts')).
Proof.
  induction 1 as [|t t' ts ts' [Ht Hf] _ IH]; [done|]. rewrite !fmap_cons, !zsum_cons.
  assert (Hc : tree_size t' + flexible_part (child_of wp axis t) = tree_size t + flexible_part (child_of wp axis t')); [|lia].
  set (i := tinfo t') in Ht. clearbody i. subst t'. rewrite tree_size_set_info in *.
  unfold child_of, flexible_part in *. rewrite fixed_along_set_info, tree_size_set_info.
  destruct (fixed_along wp axis t); unfold c_fixed, c_size in *; simpl in *; [|lia]. specialize (Hf eq_refl). lia.
Qed.

(** The areas of the children of a split, from their sizes. *)
Definition laid_kids wp (axis : Z) (area : Rect) (ts : list tree) : Prop :=
  let cs := child_of wp axis <$> ts in let sz := along (size area) axis in
  forall j t, zget ts j = Some t -> tree_area t = area_between axis area (wall_at sz cs j) (wall_at sz cs (j + 1)).

Definition on_screen (area : Rect) : Prop := 0 <= width area < 2 ^ 16 /\ 0 <= height area < 2 ^ 16.
(** The area of a split is on a screen; leaves of fixed size may stick out. *)
Definition split_on_screen (t : tree) : Prop := is_Some (top_axis t) -> on_screen (tree_area t).

Record kids_placed wp axis area ts ts' : Prop := mkKidsPlaced {
  kp_same : Forall2 (fun t t' => t' = set_info (tinfo t') t) ts ts';
  kp_sizes : exchanged_sizes ts ts';
  kp_areas : laid_kids wp axis area ts';
  kp_screen : Forall split_on_screen ts'
}.

Lemma redistributed_child sz cs cs' j c c' :
  redistributed sz cs cs' -> zget cs j = Some c -> zget cs' j = Some c' ->
  c_fixed c' = c_fixed c /\ c_id c' = c_id c /\ (c_fixed c = true -> c_size c' = c_size c).
Proof.
  intros [Hsh Hfx _ _ _] Hc Hc'. pose proof (proj1 (zget_range _ _) (mk_is_Some _ _ Hc)) as Hj.
  assert (Heq : zget ((fun c => (c_fixed c, c_id c)) <$> cs') j = Some (c_fixed c, c_id c)).
  { rewrite Hsh. apply zget_Some in Hc as [? Hc]. rewrite zget_lookup, list_lookup_fmap, Hc by lia. done. }
  assert (Heq' : zget ((fun c => (c_fixed c, c_id c)) <$> cs') j = Some (c_fixed c', c_id c')).
  { apply zget_Some in Hc' as [? Hc']. rewrite zget_lookup, list_lookup_fmap, Hc' by lia. done. }
  rewrite Heq in Heq'. injection Heq' as H1 H2. split; [done|]. split; [done|]. intros Hf.
  pose proof (fixed_before_step cs j c ltac:(lia) Hc) as S1. pose proof (fixed_before_step cs' j c' ltac:(lia) Hc') as S2.
  rewrite !Hfx in S2. unfold fixed_part in *. rewrite <- H1, Hf in S2. rewrite Hf in S1. lia.
Qed.

(** The children with their new sizes are those of the new trees. *)
Lemma kids_children wp axis area sz ts cs' resized walls :
  sane sz (child_of wp axis <$> ts) -> redistributed sz (child_of wp axis <$> ts) cs' ->
  (resized = false -> cs' = child_of wp axis <$> ts) -> length walls = S (length ts) ->
  child_of wp axis <$> new_kids resized axis area ts cs' walls = cs' /\
  Forall2 (fun t t' => t' = set_info (tinfo t') t /\ (c_fixed (child_of wp axis t) = true -> tree_size t' = tree_size t))
    ts (new_kids resized axis area ts cs' walls).
Proof.
  intros Hs Hd Hr Hw. pose proof (redistributed_length _ _ _ Hd) as Hl. rewrite zlen_fmap in Hl.
  assert (Hlen : length cs' = length ts) by (unfold zlen in Hl; lia).
  pose proof (length_new_kids resized axis area ts cs' walls Hlen Hw) as Hk.
  assert (Hat : forall j t, zget ts j = Some t -> exists c w w',
    zget cs' j = Some c /\ zget (new_kids resized axis area ts cs' walls) j = Some (new_kid resized axis area t c w w') /\
    c_fixed c = c_fixed (child_of wp axis t) /\ child_of wp axis (new_kid resized axis area t c w w') = c).
  { intros j t Ht. pose proof (proj1 (zget_range _ _) (mk_is_Some _ _ Ht)) as Hj.
    destruct (proj2 (zget_range cs' j) ltac:(lia)) as [c Hc].
    destruct (proj2 (zget_range walls j) ltac:(unfold zlen in *; lia)) as [w Hw1].
    destruct (proj2 (zget_range walls (j + 1)) ltac:(unfold zlen in *; lia)) as [w' Hw2].
    exists c, w, w'. split; [done|]. split; [by apply zget_new_kids; try lia|].
    assert (Hc0 : zget (child_of wp axis <$> ts) j = Some (child_of wp axis t)).
    { apply zget_Some in Ht as [? Ht]. rewrite zget_lookup, list_lookup_fmap, Ht by lia. done. }
    destruct (redistributed_child _ _ _ _ _ _ Hd Hc0 Hc) as (H1&H2&H3). split; [done|].
    destruct c as [[fx s] cid]. unfold new_kid, child_of in *. rewrite fixed_along_set_info, tree_size_set_info, tid_set_info.
    destruct (fixed_along wp axis t) as [s0|]; unfold c_fixed, c_size, c_id in *; cbn [fst snd] in *; subst.
    - by rewrite (H3 eq_refl).
    - cbn [negb i_size]. rewrite andb_true_r. destruct resized; [done|]. specialize (Hr eq_refl).
      rewrite Hr in Hc. rewrite Hc0 in Hc. by injection Hc as <-. }
  split.
  - apply list_eq. intros n. rewrite list_lookup_fmap. destruct (ts !! n) as [t|] eqn:E.
    + destruct (Hat (Z.of_nat n) t) as (c&w&w'&H1&H2&_&H4); [by rewrite zget_of_nat|].
      rewrite zget_of_nat in H1. rewrite zget_of_nat in H2. rewrite H1, H2. simpl. by rewrite H4.
    + apply lookup_ge_None in E. rewrite (proj2 (lookup_ge_None _ n)), (proj2 (lookup_ge_None cs' n)) by lia. done.
  - apply Forall2_same_length_lookup. split; [done|]. intros n t t' Ht Ht'.
    destruct (Hat (Z.of_nat n) t) as (c&w&w'&H1&H2&H3&_); [by rewrite zget_of_nat|].
    rewrite zget_of_nat in H2. rewrite H2 in Ht'. injection Ht' as <-. unfold new_kid. split; [by destruct t|].
    rewrite tree_size_set_info. cbn [i_size]. intros Hf. rewrite H3, Hf. by rewrite andb_false_r.
Qed.

Lemma kids_placed_ok wp axis area ts cs' resized :
  is_axis axis -> on_screen area -> Forall (fun t => 1 <= tree_size t) ts ->
  let sz := along (size area) axis in
  sane sz (child_of wp axis <$> ts) -> redistributed sz (child_of wp axis <$> ts) cs' ->
  (resized = false -> cs' = child_of wp axis <$> ts) ->
  kids_placed wp axis area ts
    (new_kids resized axis area ts cs' (-1 :: (wall_pos sz cs' <$> seqZ 1 (zlen (child_of wp axis <$> ts) - 1)) ++ [sz])).
Proof.
  intros Ha Harea H1 sz Hs Hd Hr. pose proof (redistributed_length _ _ _ Hd) as Hl. pose proof (sane_some _ _ Hs) as Hn.
  pose proof (rd_sane _ _ _ Hd) as Hs'. pose proof (rd_positive _ _ _ Hd) as Hp'. rewrite zlen_fmap in *.
  set (walls := -1 :: (wall_pos sz cs' <$> seqZ 1 (zlen ts - 1)) ++ [sz]).
  assert (Hwl : length walls = S (length ts)).
  { subst walls. cbn [length]. rewrite length_app, length_fmap, length_seqZ. cbn [length]. unfold zlen in *. lia. }
  destruct (kids_children wp axis area sz ts cs' resized walls Hs Hd Hr Hwl) as [Hcs Hf2].
  set (ts' := new_kids resized axis area ts cs' walls) in *.
  assert (Hlen' : zlen ts' = zlen ts) by (apply Forall2_length in Hf2; unfold zlen; by rewrite Hf2).
  assert (Hareas : laid_kids wp axis area ts').
  { unfold laid_kids. fold sz. rewrite Hcs. intros j t' Ht'. pose proof (proj1 (zget_range _ _) (mk_is_Some _ _ Ht')) as Hj.
    destruct (proj2 (zget_range ts j) ltac:(lia)) as [t Ht]. destruct (proj2 (zget_range cs' j) ltac:(lia)) as [c Hc].
    assert (Hw : forall i, 0 <= i <= zlen ts -> zget walls i = Some (wall_at sz cs' i)).
    { intros i Hi. subst walls. rewrite <- Hl in *. by apply zget_walls_at. }
    pose proof (zget_new_kids resized axis area ts cs' walls j t c _ _ ltac:(lia) Ht Hc (Hw j ltac:(lia)) (Hw (j + 1) ltac:(lia))) as Hk.
    fold ts' in Hk. rewrite Hk in Ht'. injection Ht' as <-. unfold new_kid. by rewrite tree_area_set_info. }
  constructor.
  - eapply Forall2_impl; [exact Hf2|]. by intros ?? [? _].
  - split.
    + pose proof (exchange_sum _ _ _ _ Hf2) as Hx. rewrite Hcs in Hx.
      pose proof (rd_flexible _ _ _ Hd) as Hfl. rewrite !all_flexible_sum in Hfl. lia.
    + intros _. apply Forall_forall. intros t' (n&Ht')%list_elem_of_lookup_1.
      destruct (Forall2_lookup_r _ _ _ _ _ Hf2 Ht') as (t&Ht&Hsame&Hfix).
      destruct (c_fixed (child_of wp axis t)) eqn:E.
      * rewrite (Hfix eq_refl). by apply (Forall_lookup_1 _ _ _ _ H1 Ht).
      * assert (Hc' : cs' !! n = Some (child_of wp axis t')) by (by rewrite <- Hcs, list_lookup_fmap, Ht').
        pose proof (Forall_lookup_1 _ _ _ _ Hp' Hc') as Hpos. rewrite Hsame in Hpos. unfold child_of in *.
        rewrite fixed_along_set_info in Hpos. destruct (fixed_along wp axis t); [done|].
        rewrite Hsame. rewrite tree_size_set_info in *. by apply Hpos.
  - exact Hareas.
  - apply Forall_forall. intros t' (n&Ht')%list_elem_of_lookup_1 Hsplit. pose proof (lookup_lt_Some _ _ _ Ht') as Hn'.
    rewrite (Hareas (Z.of_nat n) t') by (by rewrite zget_of_nat). rewrite Hcs. fold sz.
    assert (Hc' : zget cs' (Z.of_nat n) = Some (child_of wp axis t')) by (by rewrite zget_of_nat, <- Hcs, list_lookup_fmap, Ht').
    assert (Hflex : c_fixed (child_of wp axis t') = false).
    { destruct t'; [by destruct Hsplit|]. done. }
    pose proof (flexible_area_bound sz cs' (Z.of_nat n) _ Hs' ltac:(unfold zlen in *; lia) Hc' Hflex) as Hb.
    destruct Harea as [Hx Hy]. unfold on_screen, area_between, width, height in *. subst sz.
    destruct Ha as [-> | ->]; unfold along, with_along in *; simpl in *; lia.
Qed.

Lemma build_split_ok p id i axis ts drags A k st :
  is_axis axis -> on_screen (i_area i) -> Forall (fun t => 1 <= tree_size t) ts -> zsum (tree_size <$> ts) <= size_max ->
  ts <> [] -> zlen ts < region_max -> fixed_sizes_ok (windows st) -> (forall t, t ∈ ts -> tabs_alive (windows st) t) ->
  owns k (regions st) ((id, head_region p (TSplit id i axis ts)) :: heads (Some id) ts ++ A) ->
  returns (build_split id drags)
    (fun _ st' => exists ts', kids_placed (windows st) axis (i_area i) ts ts' /\
       regions_become k st ((id, head_region p (TSplit id i axis ts')) :: heads (Some id) ts' ++ A) st') st.
Proof.
  intros Ha Harea H1 Hsum Hne Hlen Hfx Halive Ho.
  apply returns_bind. eapply region_get_ok; [exact Ho|left|]. cbn [head_region r_content as_split r_area].
  apply returns_bind. eapply returns_opt; [reflexivity|]. cbn [s_axis s_children].
  apply returns_bind. eapply returns_mono; [eapply (placed_children_ok axis (Some id) ts); [done|exact Ho| |done]|].
  { intros t Ht. right. apply elem_of_app. left. unfold heads. apply list_elem_of_fmap. by exists t. }
  intros cs st1 [-> ->]. apply returns_bind. eapply returns_lift; [by apply at_axis_along|].
  set (sz := along (size (i_area i)) axis).
  assert (Hsz : 0 <= sz < 2 ^ 16).
  { subst sz. destruct Harea. destruct Ha as [-> | ->]; done. }
  destruct (children_sane (windows st) axis ts sz Hfx Hne Hlen H1 Hsum Hsz) as [Hs Hp].
  destruct (place_children_ok sz drags _ Hs Hp) as (cs'&resized&Hd&Hr&Hrun).
  apply returns_bind. eapply returns_lift; [by rewrite Hrun|].
  pose proof (kids_placed_ok (windows st) axis (i_area i) ts cs' resized Ha Harea H1 Hs Hd Hr) as Hk. cbv zeta in Hk. fold sz in Hk.
  set (walls := -1 :: _) in *.
  assert (Hids : Forall2 (fun t c => c_id c = tid t) ts cs').
  { apply Forall2_same_length_lookup. pose proof (redistributed_length _ _ _ Hd) as Hl. rewrite zlen_fmap in Hl.
    split; [unfold zlen in Hl; lia|]. intros n t c Ht Hc.
    destruct (redistributed_child _ _ _ (Z.of_nat n) (child_of (windows st) axis t) c Hd) as (_&Hid&_).
    - by rewrite zget_of_nat, list_lookup_fmap, Ht.
    - by rewrite zget_of_nat.
    - by rewrite Hid, child_of_id. }
  eapply returns_mono.
  - eapply (assign_areas_ok resized axis (i_area i) (Some id) ts cs' walls ((id, head_region p (TSplit id i axis ts)) :: A)); [done|done| |].
    + subst walls. cbn [length]. rewrite length_app, length_fmap, length_seqZ, zlen_fmap. cbn [length].
      apply zlen_pos in Hne. unfold zlen in *. lia.
    + eapply owns_perm; [|exact Ho]. apply Permutation_middle.
  - intros _ st' (q&->&Hq). exists (new_kids resized axis (i_area i) ts cs' walls). split; [exact Hk|].
    assert (E : head_region p (TSplit id i axis (new_kids resized axis (i_area i) ts cs' walls)) = head_region p (TSplit id i axis ts)).
    { cbn [head_region]. do 3 f_equal. destruct Hk as [Hk _ _ _]. clear -Hk.
      induction Hk as [|t t' ts ts' Ht _ IH]; [done|]. rewrite !fmap_cons, IH, Ht. by rewrite tid_set_info. }
    exists q. split; [done|].
    change (owns k q ((id, head_region p (TSplit id i axis (new_kids resized axis (i_area i) ts cs' walls))) ::
      heads (Some id) (new_kids resized axis (i_area i) ts cs' walls) ++ A)). rewrite E. eapply owns_perm; [|exact Hq]. symmetry. apply Permutation_middle.
Qed.
End Place.
