(* ===== verification/LayoutFrame.v ===== *)
(** A frame of the user interface: [build] of src/layout.rs, from the keys that
    switch windows to the windows that are dropped, with the tabs of each leaf
    as src/widgets.rs runs them. What the toolkit answers in a frame (keys,
    clicks, drags and drops) is the argument [Frame]. Drawing is left out. *)
From Stdlib Require Import ZArith Lia.
From stdpp Require Import base list gmap sets.
From S2P Require Import Prelude Pool Floats Errors StateMonad Tabs Rect Layout LayoutBuild.
Open Scope Z_scope.

(** ** A row of tabs: [Tabs::add] and [Tabs::finish] *)

Record TabsInput := mkTabsInput {
  tab_clicked : Z -> bool;                 (* the tab is clicked *)
  tab_keys : list bool;                    (* next tab? or the previous one *)
  tab_drop : option (Id * Z * bool);       (* a window held at x, dropped? *)
  tab_mid : Z -> Z;                        (* the middle of a tab *)
  tab_hscroll : Z
}.

Definition click_tabs (n : Z) (clicked : Z -> bool) (ts : TabsState) : TabsState :=
  foldl (fun ts i => if clicked i then select ts i else ts) ts (seqZ 0 n).

Definition tab_key (n : Z) (ts : TabsState) (next : bool) : partial TabsState :=
  if n =? 0 then Ret ts
  else if next then s ← uadd (selected ts) 1; Ret (select ts (s mod n))
  else s ← uadd (selected ts) n; s ← usub s 1; Ret (select ts (s mod n)).
Fixpoint run_tab_keys (n : Z) (keys : list bool) (ts : TabsState) : partial TabsState :=
  match keys with
  | [] => Ret ts
  | k :: keys => ts ← tab_key n ts k; run_tab_keys n keys ts
  end.

(** The tab at [x] and the place in front of or behind it. *)
Fixpoint drop_place (mid : Z -> Z) (n x : Z) (is_ : list Z) : option (Z * Z) :=
  match is_ with
  | [] => None
  | i :: is_ => if x <=? mid i then Some (i, i) else if i + 1 =? n then Some (i, n) else drop_place mid n x is_
  end.
(** [TabsAction::DropWindow], unless the window is at that place already. *)
Definition drop_action (tabs : list Id) (inp : TabsInput) : partial (option (Id * Z)) :=
  match tab_drop inp with
  | None => Ret None
  | Some (window_id, x, drop) =>
      match drop_place (tab_mid inp) (zlen tabs) x (seqZ 0 (zlen tabs)) with
      | None => Ret None
      | Some (i, to_idx) =>
          t ← lift_opt (zget tabs i);
          if decide (t = window_id) then Ret None
          else
            t' ← lift_opt (zget tabs (Z.max 0 (to_idx - 1)));
            if decide (t' = window_id) then Ret None
            else Ret (if drop : bool then Some (window_id, to_idx) else None)
      end
  end.

Definition run_tabs (tabs : list Id) (inp : TabsInput) (ts : TabsState) : partial (TabsState * option (Id * Z)) :=
  let n := zlen tabs in
  let ts := click_tabs n (tab_clicked inp) ts in
  let ts := mkTabsState (Z.min (selected ts) (Z.max 0 (n - 1))) (hscroll ts) (scroll_to_selected_tab ts) in
  ts ← run_tab_keys n (tab_keys inp) ts;
  action ← drop_action tabs inp;
  _ ← (if scroll_to_selected_tab ts && negb (n =? 0) then _ ← lift_opt (zget tabs (selected ts)); Ret tt else Ret tt);
  Ret (mkTabsState (selected ts) (tab_hscroll inp) false, action).

(** ** The frame *)

Inductive Arrow := WindowLeft | WindowRight | WindowDown | WindowUp.

Record Frame := mkFrameInput {
  window_keys : list Z;                              (* the numbers of the keys pressed *)
  arrow_keys : list Arrow;
  screen : Z * Z;
  outer_walls : Z -> Z -> bool;                      (* [axis][side] *)
  leaf_clicked : Id -> bool;                         (* on its tabs or its content *)
  leaf_drop : Id -> option (Id * (Z * Z) * bool);    (* a window held over the content, dropped? *)
  wall_drag : Id -> Z -> option Z;
  wall_drop : Id -> Z -> option (Id * bool);
  tabs_input : Id -> TabsInput
}.

(** A window to move to a region, and whether it was dropped there. *)
Definition Relocation : Type := Id * Id * WindowRelocation * bool.

(** One side of the screen along one axis: the position and the size left. *)
Definition shrink_side (wall : bool) (side : Z) (ps : Z * Z) : Z * Z :=
  if wall && (0 <? ps.2) then (if side =? 0 then ps.1 + 1 else ps.1, ps.2 - 1) else ps.
Definition root_area (outer : Z -> Z -> bool) (screen : Z * Z) : Rect :=
  let along axis s := shrink_side (outer axis 1) 1 (shrink_side (outer axis 0) 0 (0, s)) in
  let x := along AxisX screen.1 in
  let y := along AxisY screen.2 in
  mkRect (x.1, y.1) (x.2, y.2).

Definition f64_lt (x y : f64) : bool := match f64_compare x y with Some Lt => true | _ => false end.
Definition f64_gt (x y : f64) : bool := f64_lt y x.
Definition f64_quarter : f64 := f64_div (f64_of_int 1) (f64_of_int 4).

(** Which part of a leaf a window is held over: its middle or one of four sides. *)
Definition drop_part (area : Rect) (p : Z * Z) : WindowRelocation :=
  let coord p s := f64_sub (f64_div (f64_of_int p) (f64_of_int (Z.max s 1))) f64_half in
  let x := coord p.1 (width area) in
  let y := coord p.2 (height area) in
  let m := if f64_lt (f64_abs x) (f64_abs y) then f64_abs y else f64_abs x in
  if f64_lt m f64_quarter then AddTab U64_MAX
  else if f64_gt y x then (if f64_gt y (f64_neg x) then SplitLeaf AxisY 1 else SplitLeaf AxisX 0)
  else (if f64_lt y (f64_neg x) then SplitLeaf AxisY 0 else SplitLeaf AxisX 1).

Section Frame.
Context `{!WindowContent}.

(** *** The active window and the active leaf *)

Definition window_key (switched : bool) (n : Z) : lay bool :=
  p ← sget windows;
  ws ← slift (widen (Pool.iter p));
  match List.find (fun w => bool_decide (is_Some (w_region w.2)) && bool_decide (hotkey_number w.2 = Some n)) ws with
  | Some (id, _) => _ ← smodify (set_active_window (Some id)); mret true
  | None => mret switched
  end.

(** The leaf of the active window, whose tab is selected. *)
Definition leaf_of_active_window (switched : bool) : lay bool :=
  active ← sget active_window;
  match active with
  | None => mret false
  | Some window_id =>
      win ← window_get window_id;
      match w_region win with
      | None => mret false
      | Some region_id =>
          leaf ← leaf_get region_id;
          i ← sopt (position window_id (tabs leaf));
          let ts := tabs_state leaf in
          _ ← leaf_set region_id (mkLeaf (tabs leaf) (mkTabsState i (hscroll ts) (scroll_to_selected_tab ts || switched)));
          _ ← smodify (set_active_leaf region_id);
          mret true
      end
  end.

Definition find_active_leaf (switched : bool) : lay unit :=
  found ← leaf_of_active_window switched;
  if found : bool then mret tt
  else
    p ← sget regions;
    rs ← slift (widen (Pool.iter p));
    found ← sfold rs false (fun found r =>
      if is_leaf (r_content r.2) then _ ← smodify (set_active_leaf r.1); mret true else mret found);
    sassert found.

Definition arrow_key (k : Arrow) : lay unit :=
  match k with
  | WindowLeft => switch_to_adjacent_leaf AxisX 0
  | WindowRight => switch_to_adjacent_leaf AxisX 1
  | WindowUp => switch_to_adjacent_leaf AxisY 0
  | WindowDown => switch_to_adjacent_leaf AxisY 1
  end.

(** *** The loop over the tree *)

(** The windows of a leaf: seen once, and in this leaf. *)
Definition visit_window (region_id : Id) (visited : gset Id) (window_id : Id) : lay (gset Id) :=
  _ ← sassert (bool_decide (window_id ∉ visited));
  w ← window_get window_id;
  _ ← sassert (bool_decide (w_region w = Some region_id));
  mret ({[window_id]} ∪ visited).

Definition check_parent (region_id child_id : Id) : lay unit :=
  child ← region_get child_id;
  sassert (bool_decide (r_parent child = Some region_id)).

(** The last wall of the split over which a window is held. *)
Definition drop_on_walls (frame : Frame) (region_id : Id) (num_children : Z) (should : option Relocation) : option Relocation :=
  foldl (fun should i => match wall_drop frame region_id i with
    | Some (window_id, drop) => Some (window_id, region_id, AddToExistingSplit i, drop)
    | None => should end) should (seqZ 1 (num_children - 1)).
Definition drop_on_leaf (frame : Frame) (region_id : Id) (area : Rect) (should : option Relocation) : option Relocation :=
  match leaf_drop frame region_id with
  | Some (window_id, p, drop) => Some (window_id, region_id, drop_part area p, drop)
  | None => should
  end.

(** The regions and windows visited, and the move asked for. *)
Definition Visited : Type := gset Id * gset Id * option Relocation.

Fixpoint build_loop (fuel : nat) (frame : Frame) (stack : list Id) (v : Visited) : lay Visited :=
  match stack with
  | [] => mret v
  | region_id :: stack =>
      match fuel with
      | O => spanic
      | S fuel =>
          let '(regions_seen, windows_seen, should) := v in
          _ ← sassert (bool_decide (region_id ∉ regions_seen));
          region ← region_get region_id;
          match r_content region with
          | Leaf leaf =>
              windows_seen ← sfold (tabs leaf) windows_seen (visit_window region_id);
              _ ← swhen (leaf_clicked frame region_id) (smodify (set_active_leaf region_id));
              build_loop fuel frame stack
                ({[region_id]} ∪ regions_seen, windows_seen, drop_on_leaf frame region_id (r_area region) should)
          | Split split =>
              _ ← build_split region_id (wall_drag frame region_id);
              split' ← split_get region_id;
              _ ← sfor (rev (s_children split')) (check_parent region_id);
              build_loop fuel frame (s_children split' ++ stack)
                ({[region_id]} ∪ regions_seen, windows_seen, drop_on_walls frame region_id (zlen (s_children split)) should)
          end
      end
  end.

(** From the cleared areas to the checks after the loop. *)
Definition build_regions (frame : Frame) : lay (option Relocation) :=
  p ← sget regions;
  _ ← sfor (Pool.iter_mut p).*1 (fun id => region_mut id (set_area Rect_default));
  root ← sget root;
  _ ← region_mut root (set_area (root_area (outer_walls frame) (screen frame)));
  p ← sget regions;
  '(regions_seen, windows_seen, should) ← build_loop (S (length (slots p))) frame [root] (∅, ∅, None);
  p ← sget regions;
  rs ← slift (widen (Pool.iter p));
  _ ← sfor rs (fun r => sassert (bool_decide (r.1 ∈ regions_seen)));
  p ← sget windows;
  ws ← slift (widen (Pool.iter p));
  _ ← sfor ws (fun w => sassert (bool_decide (w.1 ∈ windows_seen)));
  mret should.

(** *** Tabs, visible windows and the move *)

(** The windows that are shown, with their areas. *)
Definition Shown : Type := list (Id * Rect).

Definition show_window (area : Rect) (is_active : bool) (selected : Z) (shown : Shown) (iw : Z * Id) : lay Shown :=
  _ ← window_get iw.2;
  if iw.1 =? selected then
    _ ← swhen is_active (smodify (set_active_window (Some iw.2)));
    mret (shown ++ [(iw.2, area)])
  else mret shown.

Definition build_leaf (frame : Frame) (acc : option Relocation * Shown) (region_id : Id) : lay (option Relocation * Shown) :=
  region ← region_get region_id;
  match r_content region with
  | Split _ => mret acc
  | Leaf leaf =>
      active ← sget active_leaf;
      _ ← sfor (tabs leaf) (fun window_id => _ ← window_get window_id; mret tt);
      '(ts, action) ← slift (widen (run_tabs (tabs leaf) (tabs_input frame region_id) (tabs_state leaf)));
      _ ← leaf_set region_id (mkLeaf (tabs leaf) ts);
      shown ← sfold (imap (fun i w => (Z.of_nat i, w)) (tabs leaf)) acc.2
        (show_window (r_area region) (bool_decide (active = region_id)) (selected ts));
      mret (match action with
            | Some (window_id, to_idx) => Some (window_id, region_id, AddTab to_idx, true)
            | None => acc.1
            end, shown)
  end.

(** With no window in the active leaf, the first window shown becomes active. *)
Definition fallback_window (shown : Shown) : lay unit :=
  active ← sget active_window;
  match active with
  | Some _ => mret tt
  | None =>
      leaf_id ← sget active_leaf;
      leaf ← leaf_get leaf_id;
      _ ← sassert (bool_decide (tabs leaf = []));
      p ← sget windows;
      ws ← slift (widen (Pool.iter p));
      match List.find (fun w => bool_decide (w.1 ∈ shown.*1)) ws with
      | Some (id, _) => smodify (set_active_window (Some id))
      | None => mret tt
      end
  end.

(** The part of the screen that a move would give to the window. *)
Definition preview_window_relocation (region_id : Id) (relocation : WindowRelocation) : lay Rect :=
  region ← region_get region_id;
  match relocation with
  | AddTab _ => mret (r_area region)
  | AddToExistingSplit wall_idx =>
      split ← sopt (as_split (r_content region));
      i ← slift (usub wall_idx 1);
      a ← sopt (zget (s_children split) i);
      b ← sopt (zget (s_children split) wall_idx);
      ra ← region_get a;
      rb ← region_get b;
      let ax := s_axis split in
      pa ← slift (at_axis (pos (r_area ra)) ax);
      pb ← slift (at_axis (pos (r_area rb)) ax);
      p ← slift (set_axis (pos (r_area ra)) ax ((pa + pb * 2) / 3));
      sa ← slift (at_axis (size (r_area ra)) ax);
      sb ← slift (at_axis (size (r_area rb)) ax);
      s ← slift (set_axis (size (r_area ra)) ax ((sa + sb) / 3));
      mret (mkRect p s)
  | SplitLeaf axis side =>
      let r := r_area region in
      s ← slift (at_axis (size r) axis);
      p0 ← slift (at_axis (pos r) axis);
      p ← slift (set_axis (pos r) axis (if side =? 1 then p0 + (s + 1) / 2 else p0));
      s' ← slift (set_axis (size r) axis (s / 2));
      mret (mkRect p s')
  end.

Definition apply_relocation (should : option Relocation) : lay (option Rect) :=
  match should with
  | None => mret None
  | Some (window_id, region_id, relocation, drop) =>
      p ← sget windows;
      match Pool.try_get p window_id with
      | None => mret None
      | Some _ =>
          pointless ← is_window_relocation_pointess window_id region_id relocation;
          if pointless : bool then mret None
          else if drop : bool then _ ← relocate_window window_id region_id relocation; mret None
          else r ← preview_window_relocation region_id relocation; mret (Some r)
      end
  end.

(** The windows shown, and the preview of a move. *)
Definition build (frame : Frame) : lay (Shown * option Rect) :=
  switched ← sfold (window_keys frame) false window_key;
  _ ← find_active_leaf switched;
  _ ← sfor (arrow_keys frame) arrow_key;
  should ← build_regions frame;
  active ← sget active_leaf;
  _ ← region_get active;
  _ ← smodify (set_active_window None);
  p ← sget regions;
  '(should, shown) ← sfold (Pool.iter_mut p).*1 (should, []) (build_leaf frame);
  _ ← fallback_window shown;
  preview ← apply_relocation should;
  mret (shown, preview).
End Frame.
