(* ===== verification/LayoutLoop.v ===== *)
(** The loop of [build] over the tree of regions: every region and window is
    visited once, every assertion holds, and the areas follow from the sizes. *)
From Stdlib Require Import ZArith Lia.
From stdpp Require Import base list gmap sets.
From S2P Require Import Prelude Pool Errors StateMonad Tabs Rect PoolOwned Layout LayoutTree LayoutSimplify LayoutMove LayoutBuild LayoutBuildSpec LayoutPlace LayoutFrame.
Open Scope Z_scope.

Section Loop.
Context `{!WindowContent}.
Implicit Types (wp : Pool Window) (st : Layout).

(** Every area below follows from the area and the sizes above it. *)
Inductive laid wp : tree -> Prop :=
  | laid_leaf id i l : laid wp (TLeaf id i l)
  | laid_split id i axis ts : laid_kids wp axis (i_area i) ts -> Forall (laid wp) ts -> laid wp (TSplit id i axis ts).

(** A subtree of [T0], up to what a frame changes. *)
Definition inside (T0 t : tree) : Prop := exists C t0, T0 = plug C t0 /\ reshaped t0 t.

Record ready T0 (t : tree) : Prop := mkReady {
  rdy_drawable : drawable t;
  rdy_normal : normal t;
  rdy_screen : split_on_screen t;
  rdy_inside : inside T0 t
}.

(** The tabs of these leaves are windows, each once, that name their leaves. *)
Definition windows_at wp (L : list (Id * RegionLeaf)) : Prop :=
  NoDup (placed L).*1 /\
  forall w id, (w, id) ∈ placed L -> exists win, Pool.try_get wp w = Some win /\ w_region win = Some id.

(** A move that [relocate_window] can make. *)
Definition good_move T0 (should : option Relocation) : Prop :=
  match should with
  | None => True
  | Some (_, id, r, _) => valid_target T0 id r /\ match r with SplitLeaf axis _ => is_axis axis | _ => True end
  end.

(** A stack of trees, each with its parent. *)
Definition stack_t : Type := list (option Id * tree).
Definition sents (stk : stack_t) : list (Id * Region) := concat ((fun x => entries x.1 x.2) <$> stk).
Definition sleaves (stk : stack_t) : list (Id * RegionLeaf) := leaves_of stk.*2.
Definition kids_of (id : Id) (ts : list tree) : stack_t := (fun t => (Some id, t)) <$> ts.

Lemma sents_cons x stk : sents (x :: stk) = entries x.1 x.2 ++ sents stk.
Proof. done. Qed.
Lemma sents_app stk stk' : sents (stk ++ stk') = sents stk ++ sents stk'.
Proof. unfold sents. by rewrite fmap_app, concat_app. Qed.
Lemma sents_kids id ts : sents (kids_of id ts) = ents (Some id) ts.
Proof. unfold sents, kids_of, ents. by rewrite <- list_fmap_compose. Qed.
Lemma sleaves_cons x stk : sleaves (x :: stk) = leaves x.2 ++ sleaves stk.
Proof. done. Qed.
Lemma sleaves_app stk stk' : sleaves (stk ++ stk') = sleaves stk ++ sleaves stk'.
Proof. unfold sleaves. by rewrite fmap_app, leaves_of_app. Qed.
Lemma sleaves_kids id ts : sleaves (kids_of id ts) = leaves_of ts.
Proof. unfold sleaves, kids_of. rewrite <- list_fmap_compose. f_equal. by induction ts as [|t ts IH]; [|rewrite fmap_cons, IH]. Qed.
Lemma tids_kids id ts : tid <$> (kids_of id ts).*2 = tid <$> ts.
Proof. unfold kids_of. by rewrite <- !list_fmap_compose. Qed.

Lemma leaf_target T0 id i l :
  inside T0 (TLeaf id i l) -> exists l', (id, l') ∈ leaves T0.
Proof.
  intros (C&t0&->&Hr). inversion Hr; subst. rewrite leaves_plug. eexists. apply elem_of_app. right. by left.
Qed.
Lemma split_target T0 id i axis ts :
  inside T0 (TSplit id i axis ts) ->
  exists x s, (id, x) ∈ entries None T0 /\ r_content x = Split s /\ zlen (s_children s) = zlen ts.
Proof.
  intros (C&t0&->&Hr). inversion Hr as [|? i0 ? ? ts0 ? Hf]; subst. eexists _, _.
  split; [apply (node_entry C (TSplit id i0 axis ts0))|]. split; [reflexivity|].
  cbn [s_children]. rewrite zlen_fmap. apply Forall2_length in Hf. unfold zlen. by rewrite Hf.
Qed.
Lemma inside_kid T0 id i axis ts t : inside T0 (TSplit id i axis ts) -> t ∈ ts -> inside T0 t.
Proof.
  intros (C&t0&->&Hr) Ht. inversion Hr as [|? i0 ? ? ts0 ? Hf]; subst.
  apply list_elem_of_lookup_1 in Ht as [n Ht]. destruct (Forall2_lookup_r _ _ _ _ _ Hf Ht) as (t0&Ht0&Hrt).
  apply list_elem_of_split_length in Ht0 as (l1&l2&->&_). exists (mkFrame id i0 axis l1 l2 :: C), t0. done.
Qed.

Lemma drop_part_ok area p : match drop_part area p with
  | AddTab i => 0 <= i | SplitLeaf axis side => is_axis axis /\ (side = 0 \/ side = 1) | AddToExistingSplit _ => False end.
Proof.
  unfold drop_part, is_axis, AxisX, AxisY. cbv zeta.
  repeat (match goal with |- context [if ?b then _ else _] => destruct b end); try (unfold U64_MAX; lia); split; auto.
Qed.
Lemma good_leaf T0 frame id i l area should :
  inside T0 (TLeaf id i l) -> good_move T0 should -> good_move T0 (drop_on_leaf frame id area should).
Proof.
  intros (l'&Hl)%leaf_target Hs. unfold drop_on_leaf. destruct (leaf_drop frame id) as [[[w p] drop]|]; [|done].
  pose proof (drop_part_ok area p) as Hd. unfold good_move. destruct (drop_part area p); [|done|]; simpl.
  - eauto.
  - destruct Hd. eauto.
Qed.
Lemma good_walls T0 frame id i axis ts should :
  inside T0 (TSplit id i axis ts) -> good_move T0 should -> good_move T0 (drop_on_walls frame id (zlen ts) should).
Proof.
  intros (x&s&Hx&Hc&Hl)%split_target Hs. unfold drop_on_walls.
  assert (Hw : forall j, j ∈ seqZ 1 (zlen ts - 1) -> 1 <= j < zlen ts) by (intros j ?%elem_of_seqZ; lia).
  revert should Hs Hw. induction (seqZ 1 (zlen ts - 1)) as [|j js IH]; intros should Hs Hw; [done|].
  cbn [foldl]. apply IH; [|intros; apply Hw; by right].
  destruct (wall_drop frame id j) as [[w drop]|]; [|done]. split; [|done]. exists x, s. split; [done|]. split; [done|].
  specialize (Hw j ltac:(left)). lia.
Qed.

(** ** The steps *)

Lemma visit_windows_ok id ws seen st :
  NoDup ws -> (forall w, w ∈ ws -> w ∉ seen) ->
  (forall w, w ∈ ws -> exists win, Pool.try_get (windows st) w = Some win /\ w_region win = Some id) ->
  returns (sfold ws seen (visit_window id)) (fun seen' st' => seen' = list_to_set ws ∪ seen /\ st' = st) st.
Proof.
  revert seen. induction ws as [|w ws IH]; intros seen Hnd Hseen Hw; cbn [sfold].
  - apply returns_ret. split; [set_solver|done].
  - apply NoDup_cons in Hnd as [Hn Hnd]. destruct (Hw w ltac:(left)) as (win&Hwin&Hr).
    apply returns_bind, returns_bind, returns_assert; [apply bool_decide_eq_true, Hseen; left|].
    apply returns_bind. eapply window_get_ok; [exact Hwin|].
    apply returns_bind, returns_assert; [by apply bool_decide_eq_true|]. apply returns_ret.
    eapply returns_mono; [apply IH; [done| |]|].
    + intros w' Hw'. rewrite elem_of_union, elem_of_singleton. intros [->|Hs]; [done|]. by apply (Hseen w'); [right|].
    + intros w' Hw'. apply Hw. by right.
    + intros ? st' [-> ->]. split; [set_solver|done].
Qed.

Lemma check_parents_ok id ids k st l :
  owns k (regions st) l -> (forall c, c ∈ ids -> exists r, (c, r) ∈ l /\ r_parent r = Some id) ->
  returns (sfor ids (check_parent id)) (fun _ st' => st' = st) st.
Proof.
  intros Ho. induction ids as [|c ids IH]; intros Hc; cbn [sfor]; [by apply returns_ret|].
  destruct (Hc c ltac:(left)) as (r&Hr&Hp). apply returns_bind, returns_bind. eapply region_get_ok; [exact Ho|exact Hr|].
  apply returns_assert; [by apply bool_decide_eq_true|]. apply IH. intros c' Hc'. apply Hc. by right.
Qed.

(** ** The children that [build_split] leaves *)

Lemma same_reshaped ts ts' : Forall2 (fun t t' => t' = set_info (tinfo t') t) ts ts' -> Forall2 reshaped ts ts'.
Proof. intros Hk. eapply Forall2_impl; [exact Hk|]. intros t t' ->. apply reshaped_info, reshaped_refl. Qed.
Lemma same_below ts ts' : Forall2 (fun t t' => t' = set_info (tinfo t') t) ts ts' -> below <$> ts' = below <$> ts.
Proof. induction 1 as [|t t' ts ts' Ht _ IH]; [done|]. rewrite !fmap_cons, IH, Ht. by destruct t. Qed.
Lemma same_leaves ts ts' : Forall2 (fun t t' => t' = set_info (tinfo t') t) ts ts' -> leaves_of ts' = leaves_of ts.
Proof. induction 1 as [|t t' ts ts' Ht _ IH]; [done|]. rewrite !leaves_of_cons, IH, Ht. by destruct t. Qed.

Lemma kids_ready wp T0 id i axis ts ts' :
  ready T0 (TSplit id i axis ts) -> kids_placed wp axis (i_area i) ts ts' -> Forall (ready T0) ts'.
Proof.
  intros [Hd Hn Hs Hin] [Hk Hx Ha Hsc]. pose proof (same_reshaped _ _ Hk) as Hr.
  assert (Hr' : reshaped (TSplit id i axis ts) (TSplit id i axis ts')) by by constructor.
  pose proof (reshaped_drawable _ _ Hr' Hd) as Hd'. pose proof (reshaped_normal _ _ Hr' Hn) as Hn'.
  inversion_clear Hd' as [|???? _ _ _ Hds]. inversion_clear Hn' as [|???? _ Hns _].
  apply Forall_forall. intros t Ht. rewrite Forall_forall in Hds, Hns, Hsc. constructor; [auto|auto|auto|].
  apply list_elem_of_lookup_1 in Ht as [n Ht]. destruct (Forall2_lookup_r _ _ _ _ _ Hr Ht) as (t0&Ht0&Hrt).
  destruct (inside_kid T0 id i axis ts t0 Hin) as (C&t1&HT&Ht1); [by eapply list_elem_of_lookup_2|].
  exists C, t1. split; [done|]. by eapply reshaped_trans.
Qed.

Lemma fixed_along_reshaped wp axis t t' : reshaped t t' -> fixed_along wp axis t' = fixed_along wp axis t.
Proof.
  destruct 1 as [id i i' [ws s] [ws' s'] [Hl _]|]; [|done]. simpl in Hl. subst ws'. done.
Qed.
Lemma children_reshaped wp axis ts ts' :
  Forall2 (fun t t' => reshaped t t' /\ tinfo t' = tinfo t) ts ts' -> child_of wp axis <$> ts' = child_of wp axis <$> ts.
Proof.
  induction 1 as [|t t' ts ts' [Hr Hi] _ IH]; [done|]. rewrite !fmap_cons, IH. f_equal. unfold child_of, tree_size.
  by rewrite (fixed_along_reshaped _ _ _ _ Hr), Hi, (reshaped_tid _ _ Hr).
Qed.
Lemma laid_kids_reshaped wp axis area ts ts' :
  Forall2 (fun t t' => reshaped t t' /\ tinfo t' = tinfo t) ts ts' -> laid_kids wp axis area ts -> laid_kids wp axis area ts'.
Proof.
  intros Hf Ha. unfold laid_kids in *. rewrite (children_reshaped _ _ _ _ Hf). intros j t' Ht'.
  pose proof Ht' as Hz. apply zget_Some in Hz as [Hj Hz]. destruct (Forall2_lookup_r _ _ _ _ _ Hf Hz) as (t&Ht&_&Hi).
  unfold tree_area. rewrite Hi. apply Ha. by rewrite zget_lookup by lia.
Qed.
Lemma info_sizes ts ts' :
  Forall2 (fun t t' => reshaped t t' /\ tinfo t' = tinfo t) ts ts' -> tree_size <$> ts' = tree_size <$> ts.
Proof. induction 1 as [|t t' ts ts' [_ Hi] _ IH]; [done|]. rewrite !fmap_cons, IH. unfold tree_size. by rewrite Hi. Qed.

Lemma exchanged_then_same ts ts1 ts2 :
  exchanged_sizes ts ts1 -> tree_size <$> ts2 = tree_size <$> ts1 -> exchanged_sizes ts ts2.
Proof.
  intros [H1 H2] He. split; [by rewrite He|]. intros Hs%H2.
  apply (Forall_fmap tree_size (fun z => 1 <= z)). rewrite He. by apply Forall_fmap.
Qed.

(** What the loop makes of a tree of the stack. *)
Definition drawn wp (x x' : option Id * tree) : Prop :=
  x'.1 = x.1 /\ reshaped x.2 x'.2 /\ tinfo x'.2 = tinfo x.2 /\ laid wp x'.2.

Lemma drawn_split wp p id i axis ts ts1 ts2 :
  kids_placed wp axis (i_area i) ts ts1 -> Forall2 (drawn wp) (kids_of id ts1) (kids_of id ts2) ->
  drawn wp (p, TSplit id i axis ts) (p, TSplit id i axis ts2).
Proof.
  intros [Hk Hx Ha _] Hf. unfold kids_of in Hf. rewrite Forall2_fmap in Hf.
  assert (H2 : Forall2 (fun t t' => reshaped t t' /\ tinfo t' = tinfo t) ts1 ts2).
  { eapply Forall2_impl; [exact Hf|]. intros t t' (_&?&?&_). done. }
  split; [done|]. split; [|split; [done|]]; cbn [snd].
  - constructor; [|eapply exchanged_then_same; [exact Hx|by apply info_sizes]].
    pose proof (same_reshaped _ _ Hk) as Hr. clear -Hr H2. revert ts2 H2.
    induction Hr as [|t t1 ts ts1 Ht _ IH]; intros ts2 H2; inversion H2 as [|? t2 ? ? [Ht2 _]]; subst; constructor; [by eapply reshaped_trans|auto].
  - constructor; [by eapply laid_kids_reshaped|]. clear -Hf. induction Hf as [|t t' ts ts' (_&_&_&?) _ IH]; by constructor.
Qed.

Lemma kids_of_inv wp id ts stk :
  Forall2 (drawn wp) (kids_of id ts) stk -> exists ts', stk = kids_of id ts'.
Proof.
  revert stk. induction ts as [|t ts IH]; intros stk Hf; inversion Hf as [|? [q t'] ? ? [Hq _] Hf']; subst; [by exists []|].
  destruct (IH _ Hf') as [ts' ->]. simpl in Hq. subst q. by exists (t' :: ts').
Qed.

(** ** The loop *)

Definition with_active st (q : Pool Region) (a : Id) : Layout := mkLayout (windows st) (active_window st) q (root st) a.

Definition loop_post T0 k (stk : stack_t) (A : list (Id * Region)) RS WS st (v : Visited) st' : Prop :=
  exists q a stk', st' = with_active st q a /\ owns k q (sents stk' ++ A) /\ Forall2 (drawn (windows st)) stk stk' /\
    v.1.1 = list_to_set (sents stk).*1 ∪ RS /\ v.1.2 = list_to_set (placed (sleaves stk)).*1 ∪ WS /\
    good_move T0 v.2 /\ (a = active_leaf st \/ a ∈ (sleaves stk).*1).

Lemma windows_at_app wp L L' : windows_at wp (L ++ L') -> windows_at wp L /\ windows_at wp L'.
Proof.
  intros [Hn Hw]. rewrite placed_app in Hn, Hw. rewrite fmap_app in Hn. apply NoDup_app in Hn as (H1&_&H2).
  split; (split; [done|]); intros w id Hin; apply Hw, elem_of_app; auto.
Qed.
Lemma windows_at_alive wp t : windows_at wp (leaves t) -> tabs_alive wp t.
Proof.
  intros [_ Hw] id l w Hl Ht. destruct (Hw w id) as (win&Hwin&_); [|by eexists]. apply elem_of_placed. eauto.
Qed.
Lemma fst_pairs {A B} (b : B) (l : list A) : ((fun a => (a, b)) <$> l).*1 = l.
Proof. induction l as [|a l IH]; [done|]. by rewrite !fmap_cons, IH. Qed.
Lemma placed_leaf id i l : placed (leaves (TLeaf id i l)) = (fun w => (w, id)) <$> tabs l.
Proof. unfold placed, placed_in. simpl. by rewrite app_nil_r. Qed.

Lemma build_leaf_step T0 fuel frame k p id i l stk st A RS WS should :
  (forall st', windows st' = windows st -> regions st' = regions st -> active_window st' = active_window st -> root st' = root st ->
     (active_leaf st' = active_leaf st \/ active_leaf st' = id) ->
     returns (build_loop fuel frame (tid <$> stk.*2)
         ({[id]} ∪ RS, list_to_set (tabs l) ∪ WS, drop_on_leaf frame id (i_area i) should))
       (loop_post T0 k stk ((id, head_region p (TLeaf id i l)) :: A) ({[id]} ∪ RS) (list_to_set (tabs l) ∪ WS) st') st') ->
  owns k (regions st) (sents ((p, TLeaf id i l) :: stk) ++ A) ->
  windows_at (windows st) (sleaves ((p, TLeaf id i l) :: stk)) ->
  id ∉ RS -> (forall w, w ∈ tabs l -> w ∉ WS) ->
  returns (build_loop (S fuel) frame (tid <$> ((p, TLeaf id i l) :: stk).*2) (RS, WS, should))
    (loop_post T0 k ((p, TLeaf id i l) :: stk) A RS WS st) st.
Proof.
  intros IH Ho Hw Hid Htabs. cbn [fmap list_fmap snd tid build_loop].
  apply returns_bind, returns_assert; [by apply bool_decide_eq_true|].
  apply returns_bind. eapply region_get_ok; [exact Ho|left|]. cbn [head_region r_content].
  rewrite sleaves_cons in Hw. cbn [snd] in Hw. destruct (windows_at_app _ _ _ Hw) as [Hw1 _].
  destruct Hw1 as [Hnd Hwin]. rewrite placed_leaf in Hnd, Hwin.
  apply returns_bind. eapply returns_mono; [apply visit_windows_ok; [|exact Htabs|]|].
  { by rewrite fst_pairs in Hnd. }
  { intros w Hin. apply Hwin, list_elem_of_fmap. by exists w. }
  intros seen st1 [-> ->]. apply returns_bind.
  assert (Hc : returns (swhen (leaf_clicked frame id) (smodify (set_active_leaf id)) : lay unit)
    (fun _ st' => st' = with_active st (regions st) (if leaf_clicked frame id then id else active_leaf st)) st).
  { destruct (leaf_clicked frame id); cbn [swhen]; [by apply returns_modify|]. apply returns_ret. by destruct st. }
  eapply returns_mono; [exact Hc|]. intros _ st1 ->.
  eapply returns_mono; [apply IH; try done|].
  { cbn [with_active active_leaf]. destruct (leaf_clicked frame id); auto. }
  intros v st' (q&a&stk'&->&Ho'&Hf&Hv1&Hv2&Hv3&Ha).
  exists q, a, ((p, TLeaf id i l) :: stk'). split; [done|]. split; [|split; [|split; [|split; [|split]]]].
  - eapply owns_perm; [|exact Ho']. rewrite sents_cons. symmetry. apply Permutation_middle.
  - constructor; [|exact Hf]. split; [done|]. split; [apply reshaped_refl|]. split; [done|constructor].
  - rewrite Hv1, sents_cons. cbn [fst snd entries app fmap list_fmap tid]. set_solver.
  - rewrite Hv2, sleaves_cons, placed_app, fmap_app. cbn [snd]. rewrite placed_leaf, fst_pairs.
    rewrite list_to_set_app_L. set_solver.
  - done.
  - cbn [with_active active_leaf] in Ha. rewrite sleaves_cons. cbn [snd leaves app fmap list_fmap fst].
    destruct (leaf_clicked frame id); set_solver.
Qed.

Lemma stack_split_perm p id i axis ts stk A :
  sents ((p, TSplit id i axis ts) :: stk) ++ A ≡ₚ
  (id, head_region p (TSplit id i axis ts)) :: heads (Some id) ts ++ (concat (below <$> ts) ++ sents stk ++ A).
Proof.
  rewrite sents_cons. cbn [fst snd]. rewrite entries_unfold. unfold below at 1. cbn [tid kids].
  rewrite ents_heads. by rewrite <- !app_comm_cons, <- !app_assoc.
Qed.
Lemma stack_kids_perm p id i axis ts stk A :
  sents (kids_of id ts ++ stk) ++ (id, head_region p (TSplit id i axis ts)) :: A ≡ₚ sents ((p, TSplit id i axis ts) :: stk) ++ A.
Proof.
  rewrite sents_app, sents_kids, sents_cons. cbn [fst snd]. rewrite entries_unfold. unfold below. cbn [tid kids].
  rewrite <- !app_comm_cons, <- Permutation_middle. done.
Qed.

Lemma kids_windows wp T0 p id i axis ts ts1 stk :
  kids_placed wp axis (i_area i) ts ts1 -> windows_at wp (sleaves ((p, TSplit id i axis ts) :: stk)) ->
  sleaves (kids_of id ts1 ++ stk) = sleaves ((p, TSplit id i axis ts) :: stk) /\
  (ready T0 (TSplit id i axis ts) -> Forall (fun x => ready T0 x.2) stk -> Forall (fun x => ready T0 x.2) (kids_of id ts1 ++ stk)).
Proof.
  intros Hk Hw. split.
  - rewrite sleaves_app, sleaves_kids, sleaves_cons. cbn [snd]. by rewrite (same_leaves _ _ (kp_same _ _ _ _ _ Hk)).
  - intros Hr Hs. apply Forall_app. split; [|done]. apply Forall_fmap. by eapply kids_ready.
Qed.

Lemma build_split_step T0 fuel frame k p id i axis ts stk st A RS WS should :
  (forall ts1 st', kids_placed (windows st) axis (i_area i) ts ts1 ->
     windows st' = windows st -> root st' = root st -> active_window st' = active_window st -> active_leaf st' = active_leaf st ->
     owns k (regions st') (sents (kids_of id ts1 ++ stk) ++ (id, head_region p (TSplit id i axis ts1)) :: A) ->
     returns (build_loop fuel frame (tid <$> (kids_of id ts1 ++ stk).*2)
         ({[id]} ∪ RS, WS, drop_on_walls frame id (zlen ts) should))
       (loop_post T0 k (kids_of id ts1 ++ stk) ((id, head_region p (TSplit id i axis ts1)) :: A) ({[id]} ∪ RS) WS st') st') ->
  fixed_sizes_ok (windows st) -> zlen (sents ((p, TSplit id i axis ts) :: stk)) < region_max ->
  owns k (regions st) (sents ((p, TSplit id i axis ts) :: stk) ++ A) ->
  ready T0 (TSplit id i axis ts) ->
  windows_at (windows st) (sleaves ((p, TSplit id i axis ts) :: stk)) -> id ∉ RS ->
  returns (build_loop (S fuel) frame (tid <$> ((p, TSplit id i axis ts) :: stk).*2) (RS, WS, should))
    (loop_post T0 k ((p, TSplit id i axis ts) :: stk) A RS WS st) st.
Proof.
  intros IH Hfx Hlen Ho Hr Hw Hid. cbn [fmap list_fmap snd tid build_loop].
  apply returns_bind, returns_assert; [by apply bool_decide_eq_true|].
  apply returns_bind. eapply region_get_ok; [exact Ho|left|]. cbn [head_region r_content s_children].
  pose proof Hr as [Hd Hn Hsc _]. inversion Hd as [|???? Ha H1 Hsum _]; subst. inversion Hn as [|???? Htwo _ _]; subst.
  assert (Hne : ts <> []) by (intros ->; by rewrite zlen_nil in Htwo).
  assert (Hkids : zlen ts < region_max).
  { pose proof (stack_split_perm p id i axis ts stk []) as Hp. 
    rewrite app_nil_r in Hp. rewrite Hp in Hlen. rewrite zlen_cons, !zlen_app in Hlen.
    unfold heads in Hlen. rewrite zlen_fmap in Hlen. pose proof (zlen_nonneg (concat (below <$> ts))). pose proof (zlen_nonneg (sents stk)).
    rewrite zlen_nil in Hlen. lia. }
  assert (Halive : forall t, t ∈ ts -> tabs_alive (windows st) t).
  { intros t Ht. apply windows_at_alive. rewrite sleaves_cons in Hw. cbn [snd] in Hw. rewrite leaves_split in Hw.
    apply windows_at_app in Hw as [Hw _]. apply list_elem_of_split in Ht as (l1&l2&->).
    rewrite leaves_of_app, leaves_of_cons in Hw. by apply windows_at_app in Hw as [_ [Hw _]%windows_at_app]. }
  apply returns_bind. eapply returns_mono.
  { eapply (build_split_ok p id i axis ts (wall_drag frame id) (concat (below <$> ts) ++ sents stk ++ A));
      [done|by apply Hsc|done|done|done|done|exact Hfx|done|]. eapply owns_perm; [apply stack_split_perm|exact Ho]. }
  intros _ st1 (ts1&Hk&q&->&Hq). pose proof (kp_same _ _ _ _ _ Hk) as Hsame.
  assert (Ho1 : owns k q (sents (kids_of id ts1 ++ stk) ++ (id, head_region p (TSplit id i axis ts1)) :: A)).
  { eapply owns_perm; [|exact Hq]. rewrite stack_kids_perm, stack_split_perm. by rewrite (same_below _ _ Hsame). }
  apply returns_bind. eapply split_get_ok; [exact Hq|left|reflexivity|]. cbn [s_children].
  apply returns_bind. eapply returns_mono.
  { eapply check_parents_ok; [exact Hq|]. intros c Hc. apply list_elem_of_In, List.in_rev, list_elem_of_In in Hc.
    apply list_elem_of_fmap in Hc as (t&->&Ht). exists (head_region (Some id) t). split; [|by destruct t].
    right. apply elem_of_app. left. apply list_elem_of_fmap. by exists t. }
  intros _ st1 ->.
  assert (Hst : (tid <$> ts1) ++ (tid <$> stk.*2) = tid <$> (kids_of id ts1 ++ stk).*2) by (by rewrite !fmap_app, tids_kids).
  change (list_fmap _ _ tid ts1) with (tid <$> ts1). rewrite zlen_fmap.
  eapply returns_mono; [rewrite Hst; by apply (IH ts1 (set_regions q st))|].
  intros v st' (q'&a&stk'&->&Ho'&Hf&Hv1&Hv2&Hv3&Hact).
  apply Forall2_app_inv_l in Hf as (K&stk2&HfK&Hf2&->). destruct (kids_of_inv _ _ _ _ HfK) as [ts2 ->].
  destruct (kids_windows (windows st) T0 p id i axis ts ts1 stk Hk Hw) as [Hlv _]. rewrite Hlv in *.
  exists q', a, ((p, TSplit id i axis ts2) :: stk2). split; [done|]. split; [|split; [|split; [|split; [|split]]]].
  - eapply owns_perm; [|exact Ho'].
    assert (Hids : tid <$> ts2 = tid <$> ts1).
    { unfold kids_of in HfK. rewrite Forall2_fmap in HfK. apply reshaped_tids. eapply Forall2_impl; [exact HfK|]. by intros ?? (_&?&_). }
    replace (head_region p (TSplit id i axis ts1)) with (head_region p (TSplit id i axis ts2)) by (cbn [head_region]; by rewrite Hids).
    apply stack_kids_perm.
  - constructor; [by eapply drawn_split|exact Hf2].
  - rewrite Hv1. apply leibniz_equiv. intros x. rewrite !elem_of_union, !elem_of_list_to_set, elem_of_singleton.
    assert (Hids1 : (sents ((p, TSplit id i axis ts) :: stk)).*1 ≡ₚ id :: (sents (kids_of id ts1 ++ stk)).*1).
    { pose proof (stack_split_perm p id i axis ts stk []) as H2. pose proof (stack_kids_perm p id i axis ts1 stk []) as H3.
      rewrite (stack_split_perm p id i axis ts1) in H3. rewrite (same_below _ _ Hsame), !app_nil_r in *.
      rewrite H2. rewrite <- Permutation_middle in H3. apply (fmap_Permutation fst) in H3. rewrite !fmap_cons, !fmap_app in *.
      rewrite !heads_ids in *. cbn [fst] in *. rewrite app_nil_r in H3.
      rewrite (reshaped_tids _ _ (same_reshaped _ _ Hsame)) in H3. by rewrite H3. }
    rewrite Hids1, elem_of_cons. tauto.
  - by rewrite Hv2.
  - done.
  - cbn [set_regions active_leaf] in Hact. done.
Qed.

Lemma build_loop_ok T0 frame k fuel stk st A RS WS should :
  (length (sents stk) <= fuel)%nat -> zlen (sents stk) < region_max -> fixed_sizes_ok (windows st) ->
  owns k (regions st) (sents stk ++ A) -> Forall (fun x => ready T0 x.2) stk -> windows_at (windows st) (sleaves stk) ->
  (forall id, id ∈ (sents stk).*1 -> id ∉ RS) -> (forall w, w ∈ (placed (sleaves stk)).*1 -> w ∉ WS) -> good_move T0 should ->
  returns (build_loop fuel frame (tid <$> stk.*2) (RS, WS, should)) (loop_post T0 k stk A RS WS st) st.
Proof.
  revert stk st A RS WS should. induction fuel as [|fuel IH]; intros stk st A RS WS should Hfuel Hlen Hfx Ho Hr Hw HRS HWS Hgood.
  all: destruct stk as [|[p t] stk].
  1, 3: apply returns_ret; exists (regions st), (active_leaf st), []; (split; [by destruct st|]); cbn; split_and!; by try set_solver.
  { exfalso. rewrite sents_cons in Hfuel. destruct t; simpl in Hfuel; lia. }
  apply Forall_cons in Hr as [Hr Hrs]. cbn [snd] in Hr.
  pose proof (owns_nodup _ _ _ Ho) as Hnd. rewrite fmap_app in Hnd. apply NoDup_app in Hnd as (Hnd&_&_).
  destruct t as [id i l|id i axis ts].
  - rewrite sents_cons in Hnd, Hfuel, Hlen, HRS. cbn [fst snd entries app fmap list_fmap tid] in *. apply NoDup_cons in Hnd as [Hid Hnd].
    rewrite zlen_cons in Hlen. cbn [length] in Hfuel.
    rewrite sleaves_cons in HWS. cbn [snd] in HWS. rewrite placed_app, fmap_app, placed_leaf, fst_pairs in HWS.
    pose proof Hw as Hw'. rewrite sleaves_cons in Hw'. cbn [snd] in Hw'. pose proof Hw' as [Hndw _]. apply windows_at_app in Hw' as [_ Hw'].
    rewrite placed_app, fmap_app, placed_leaf, fst_pairs in Hndw. apply NoDup_app in Hndw as (_&Hdis&_).
    apply build_leaf_step; [|done|done|apply HRS; left|intros w Hin; apply HWS, elem_of_app; by left].
    intros st' Hwin Hreg _ _ _. apply IH; [lia|lia|by rewrite Hwin| |done|by rewrite Hwin| | |].
    + rewrite Hreg. eapply owns_perm; [|exact Ho]. rewrite sents_cons. cbn [fst snd entries app tid]. by rewrite <- Permutation_middle.
    + intros x Hx. rewrite elem_of_union, elem_of_singleton. intros [->|Hs]; [done|]. revert Hs. apply HRS. by right.
    + intros w Hin. rewrite elem_of_union, elem_of_list_to_set. intros [Ht|Hs]; [by apply (Hdis w)|].
      revert Hs. apply HWS, elem_of_app. by right.
    + apply (good_leaf T0 frame id i l); [|done]. destruct Hr as [_ _ _ Hin]. exact Hin.
  - assert (Hid : id ∈ (sents ((p, TSplit id i axis ts) :: stk)).*1) by (rewrite sents_cons; cbn [fst snd entries]; left).
    apply build_split_step; [|done|done|done|done|done|by apply HRS].
    intros ts1 st' Hk Hwin _ _ _ Ho'. destruct (kids_windows _ T0 p id i axis ts ts1 stk Hk Hw) as [Hlv Hrdy].
    pose proof (stack_kids_perm p id i axis ts1 stk []) as Hp. rewrite (stack_split_perm p id i axis ts1 stk []) in Hp.
    rewrite (same_below _ _ (kp_same _ _ _ _ _ Hk)) in Hp. pose proof (stack_split_perm p id i axis ts stk []) as Hp0.
    rewrite !app_nil_r in Hp0. rewrite !app_nil_r, <- Permutation_middle, app_nil_r in Hp.
    assert (Hids : (sents ((p, TSplit id i axis ts) :: stk)).*1 ≡ₚ id :: (sents (kids_of id ts1 ++ stk)).*1).
    { rewrite Hp0. apply (fmap_Permutation fst) in Hp. rewrite !fmap_cons, !fmap_app, !heads_ids in *. cbn [fst] in *.
      rewrite (reshaped_tids _ _ (same_reshaped _ _ (kp_same _ _ _ _ _ Hk))) in Hp. by rewrite Hp. }
    rewrite Hids in Hnd. apply NoDup_cons in Hnd as [Hn Hnd].
    assert (Hl : length (sents ((p, TSplit id i axis ts) :: stk)) = S (length (sents (kids_of id ts1 ++ stk)))).
    { rewrite <- (length_fmap fst), Hids. cbn [length]. by rewrite length_fmap. }
    apply IH; [lia| |by rewrite Hwin|done|by apply Hrdy|by rewrite Hwin, Hlv| |by rewrite Hlv|].
    + unfold zlen in *. lia.
    + intros x Hx. rewrite elem_of_union, elem_of_singleton. intros [->|Hs]; [done|]. revert Hs. apply HRS. rewrite Hids. by right.
    + apply (good_walls T0 frame id i axis ts should); [|done]. by destruct Hr.
Qed.
End Loop.
