(* ===== verification/LayoutFrameSpec.v ===== *)
(** The other steps of a frame: the active leaf, the cleared areas, the tabs
    of the leaves and the windows shown. *)
From Stdlib Require Import ZArith Lia.
From stdpp Require Import base list gmap sets.
From S2P Require Import Prelude Pool Errors StateMonad Tabs Rect PoolOwned Layout LayoutTree LayoutSimplify LayoutMove LayoutInv LayoutBuild LayoutBuildSpec LayoutPlace LayoutFrame LayoutLoop.
Open Scope Z_scope.

Section Steps.
Context `{!WindowContent}.
Implicit Types (wp : Pool Window) (st : Layout) (T : tree).

(** A state of the frame that began with the regions [T0] and the windows [wp]. *)
Record in_frame T0 wp (k : Z) st T : Prop := mkInFrame {
  inf_tree : in_tree k st T;
  inf_reshaped : reshaped T0 T;
  inf_size : tree_size T = tree_size T0;
  inf_windows : windows st = wp
}.

Lemma in_frame_perm T0 wp k st T id : in_frame T0 wp k st T -> id ∈ (entries None T0).*1 -> exists x, (id, x) ∈ entries None T.
Proof.
  intros [_ Hr _ _] Hid. rewrite <- (reshaped_ids None _ _ Hr) in Hid.
  apply list_elem_of_fmap in Hid as ([id' x]&->&Hx). eauto.
Qed.

Lemma with_regions_tree k q st T : owns k q (entries None T) -> root st = tid T -> in_tree k (set_regions q st) T.
Proof. by split. Qed.

Lemma frame_area_ok T0 wp k st T id a (Q : unit -> Layout -> Prop) :
  in_frame T0 wp k st T -> id ∈ (entries None T0).*1 ->
  (forall q T', in_frame T0 wp k (set_regions q st) T' -> (id = tid T -> tree_area T' = a) -> Q tt (set_regions q st)) ->
  returns (region_mut id (set_area a)) Q st.
Proof.
  intros Hin Hid HQ. destruct (in_frame_perm _ _ _ _ _ _ Hin Hid) as [x Hx]. destruct Hin as [[Ho Hroot] Hr Hs Hw].
  destruct (focus _ _ _ _ Hx) as (C&t&->&<-).
  assert (Hh : x = head_region (cparent C) t).
  { destruct Ho as [Ho _]. pose proof (owned_try_get _ _ _ _ Ho Hx) as H1.
    pose proof (owned_try_get _ _ _ _ Ho (node_entry C t)). congruence. }
  set (t' := set_info (mkInfo (tree_size t) a) t).
  assert (Ht : reshaped t t') by apply reshaped_info, reshaped_refl.
  assert (Hs' : tree_size t' = tree_size t) by (subst t'; by rewrite tree_size_set_info).
  assert (Htid : tid t' = tid t) by apply tid_set_info.
  eapply (region_mut_ok k st (below t ++ around C [tid t]) (tid t) (head_region (cparent C) t)).
  { eapply owns_perm; [|exact Ho]. by rewrite (entries_plug C t), entries_unfold. }
  intros q Hq. apply (HQ q (plug C t')).
  - constructor; [split| | |done].
    + eapply owns_perm; [|exact Hq]. rewrite (entries_plug C t'), entries_unfold, Htid.
      rewrite <- app_comm_cons. replace (head_region (cparent C) t') with (set_area a (head_region (cparent C) t)) by (subst t'; by destruct t as [? []|? []]).
      replace (below t') with (below t) by (subst t'; by destruct t). done.
    + cbn [root set_regions]. rewrite Hroot. by apply plug_root.
    + eapply reshaped_trans; [exact Hr|]. by apply reshaped_plug.
    + rewrite <- Hs. by apply plug_root_size.
  - intros He. destruct C as [|f C]; [subst t'; cbn [plug]; by rewrite tree_area_set_info|]. exfalso.
    destruct Ho as [[_ Hnd _] _]. rewrite (entries_plug (f :: C) t) in Hnd. rewrite entries_unfold in Hnd.
    cbn [fmap list_fmap fst app] in Hnd. apply NoDup_cons in Hnd as [Hn _]. apply Hn.
    rewrite fmap_app. apply elem_of_app. right.
    assert (Hroot' : tid (plug (f :: C) t) ∈ (around (f :: C) [tid t]).*1); [|by rewrite <- He in Hroot'].
    clear. generalize [tid t] as hole. revert t. generalize f as f0. induction C as [|g C IH]; intros f0 t hole.
    + cbn [plug around fmap list_fmap fst]. left.
    + cbn [around fmap list_fmap fst]. right. rewrite fmap_app. apply elem_of_app. right.
      change (plug (f0 :: g :: C) t) with (plug (g :: C) (plug1 f0 [t])). apply IH.
Qed.

(** ** Writing the tabs of a leaf *)

(** The leaves with their areas. *)
Fixpoint leaf_areas (t : tree) : list (Id * Rect) :=
  match t with
  | TLeaf id i _ => [(id, i_area i)]
  | TSplit _ _ _ ts => concat (leaf_areas <$> ts)
  end.
Lemma leaf_areas_ids t : (leaf_areas t).*1 = (leaves t).*1.
Proof.
  induction t as [|id i axis ts IH] using tree_forest_ind; [done|]. cbn [leaf_areas]. rewrite leaves_split. unfold leaves_of.
  induction IH as [|t ts Ht _ IH]; [done|]. rewrite !fmap_cons. cbn [concat]. by rewrite !fmap_app, Ht, IH.
Qed.

Lemma laid_plug wp C t t' :
  reshaped t t' -> tinfo t' = tinfo t -> laid wp t' -> laid wp (plug C t) -> laid wp (plug C t').
Proof.
  revert t t'. induction C as [|f C IH]; intros t t' Hr Hi Ht' HT; [done|]. cbn [plug] in *.
  assert (Hf : laid wp (plug1 f [t])).
  { clear -HT. revert HT. generalize (plug1 f [t]) as u. induction C as [|g C IHC]; intros u Hu; [done|].
    cbn [plug] in Hu. apply IHC in Hu. inversion_clear Hu as [|???? _ Hl]. apply Forall_app in Hl as [_ Hl].
    cbn [app] in Hl. by apply Forall_cons in Hl as [? _]. }
  assert (Hs : tree_size t' = tree_size t) by (unfold tree_size; by rewrite Hi).
  destruct (reshaped_one (f_left f) t t' (f_right f) Hr Hs) as [H2 Hx].
  apply (IH (plug1 f [t])); [by constructor|done| |done]. inversion_clear Hf as [|???? Ha Hl]. constructor.
  - eapply laid_kids_reshaped; [|exact Ha]. cbn [app]. apply Forall2_app; [|constructor; [done|]].
    + clear. induction (f_left f); constructor; [by split; [apply reshaped_refl|]|done].
    + clear. induction (f_right f); constructor; [by split; [apply reshaped_refl|]|done].
  - cbn [app] in *. apply Forall_app in Hl as [Hl1 Hl2]. apply Forall_cons in Hl2 as [_ Hl2]. apply Forall_app. split; [done|]. by constructor.
Qed.
Lemma leaf_areas_plug C t t' : leaf_areas t' = leaf_areas t -> leaf_areas (plug C t') = leaf_areas (plug C t).
Proof.
  revert t t'. induction C as [|f C IH]; intros t t' Ht; [done|]. cbn [plug]. apply IH. unfold plug1. cbn [leaf_areas app].
  by rewrite !fmap_app, !fmap_cons, Ht.
Qed.
Lemma plug_area C t t' : tinfo t' = tinfo t -> tree_area (plug C t') = tree_area (plug C t).
Proof.
  revert t t'. induction C as [|f C IH]; intros t t' Ht; cbn [plug]; [unfold tree_area; by rewrite Ht|]. by apply IH.
Qed.

(** What writing tabs leaves alone. *)
Definition same_areas wp T T' : Prop :=
  (laid wp T -> laid wp T') /\ leaf_areas T' = leaf_areas T /\ tree_area T' = tree_area T.
Lemma same_areas_trans wp T1 T2 T3 : same_areas wp T1 T2 -> same_areas wp T2 T3 -> same_areas wp T1 T3.
Proof. intros (?&?&?) (?&?&?). split; [auto|]. split; congruence. Qed.

Lemma frame_leaf_ok T0 wp k st T id l l' (Q : unit -> Layout -> Prop) :
  in_frame T0 wp k st T -> (id, l) ∈ leaves T -> same_tabs l l' ->
  (forall q T', in_frame T0 wp k (set_regions q st) T' -> same_areas wp T T' -> (id, l') ∈ leaves T' ->
     (forall id1 l1, id1 <> id -> (id1, l1) ∈ leaves T -> (id1, l1) ∈ leaves T') ->
     (forall id1, Pool.try_get q id1 = if decide (id1 = id) then set_content (Leaf l') <$> Pool.try_get (regions st) id else Pool.try_get (regions st) id1) ->
     Q tt (set_regions q st)) ->
  returns (leaf_set id l') Q st.
Proof.
  intros [[Ho Hroot] Hr Hs Hw] (L1&L2&Hl)%list_elem_of_split Htabs HQ.
  destruct (focus_leaf _ _ _ _ _ Hl) as (C&i&->&HL1&HL2).
  assert (Ht : reshaped (TLeaf id i l) (TLeaf id i l')) by by constructor.
  assert (Hp : owns k (regions st) ((id, head_region (cparent C) (TLeaf id i l)) :: around C [id])).
  { eapply owns_perm; [|exact Ho]. by rewrite (entries_plug C (TLeaf id i l)). }
  eapply (region_mut_ok k st (around C [id]) id (head_region (cparent C) (TLeaf id i l))); [exact Hp|].
  intros q Hq. apply (HQ q (plug C (TLeaf id i l'))); [..|intros id1; exact (owns_changed _ _ _ _ _ (set_content (Leaf l')) _ id1 Hp Hq)].
  - constructor; [split| | |done].
    + eapply owns_perm; [|exact Hq]. by rewrite (entries_plug C (TLeaf id i l')).
    + cbn [root set_regions]. rewrite Hroot. by apply plug_root.
    + eapply reshaped_trans; [exact Hr|]. by apply reshaped_plug.
    + rewrite <- Hs. by apply plug_root_size.
  - split; [|split; [by apply leaf_areas_plug|by apply plug_area]].
    intros HT. eapply laid_plug; [exact Ht|done|constructor|exact HT].
  - rewrite leaves_plug. apply elem_of_app. right. by left.
  - intros id1 l1 Hne. rewrite !leaves_plug, !elem_of_app. cbn [leaves]. rewrite !list_elem_of_singleton. intros [?|[[= -> ->]|?]]; [by left|done|by right; right].
Qed.

Lemma frame_read_ok T0 wp k st T id l (Q : RegionLeaf -> Layout -> Prop) :
  in_frame T0 wp k st T -> (id, l) ∈ leaves T -> Q l st -> returns (leaf_get id) Q st.
Proof. intros [Hin _ _ _]. by apply (read_leaf_ok k _ T). Qed.

Lemma frame_leaf_id T0 wp k st T id : in_frame T0 wp k st T -> id ∈ (leaves T0).*1 -> exists l, (id, l) ∈ leaves T.
Proof.
  intros [_ Hr _ _] Hid. rewrite <- (reshaped_leaf_ids _ _ Hr) in Hid.
  apply list_elem_of_fmap in Hid as ([id' l]&->&Hl). eauto.
Qed.
Lemma frame_leaf_id' T0 wp k st T id l : in_frame T0 wp k st T -> (id, l) ∈ leaves T -> id ∈ (leaves T0).*1.
Proof. intros [_ Hr _ _] Hid. rewrite <- (reshaped_leaf_ids _ _ Hr). apply list_elem_of_fmap. by exists (id, l). Qed.
Lemma frame_windows T0 wp k st T : in_frame T0 wp k st T -> windows_ok None wp (leaves T0) -> windows_ok None (windows st) (leaves T).
Proof. intros [_ Hr _ ->] Hok. eapply windows_ok_perm; [|exact Hok]. by rewrite (reshaped_placed _ _ Hr). Qed.
Lemma frame_nonempty T0 wp k st T : in_frame T0 wp k st T -> normal T0 -> leaves T <> [].
Proof. intros [_ Hr _ _] Hn. apply normal_leaves. by eapply reshaped_normal. Qed.
Lemma frame_other T0 wp k st T st' :
  in_frame T0 wp k st T -> regions st' = regions st -> root st' = root st -> windows st' = windows st -> in_frame T0 wp k st' T.
Proof. intros [[Ho Hr] ? ? ?] Hreg Hroot Hwin. constructor; [split; congruence|done|done|congruence]. Qed.

(** ** Loops that keep an invariant *)

Lemma sfor_inv {A} (I : Layout -> Prop) (f : A -> lay unit) (xs : list A) st :
  (forall x st, x ∈ xs -> I st -> returns (f x) (fun _ => I) st) -> I st -> returns (sfor xs f) (fun _ => I) st.
Proof.
  revert st. induction xs as [|x xs IH]; intros st Hf HI; cbn [sfor]; [by apply returns_ret|].
  apply returns_bind. eapply returns_mono; [apply Hf; [left|done]|]. intros ? st1 HI1. apply IH; [|done].
  intros x' st' Hx'. apply Hf. by right.
Qed.
Lemma sfold_inv {A B} (I : B -> Layout -> Prop) (f : B -> A -> lay B) (xs : list A) b st :
  (forall b x st, x ∈ xs -> I b st -> returns (f b x) I st) -> I b st -> returns (sfold xs b f) I st.
Proof.
  revert b st. induction xs as [|x xs IH]; intros b st Hf HI; cbn [sfold]; [by apply returns_ret|].
  apply returns_bind. eapply returns_mono; [apply Hf; [left|done]|]. intros b1 st1 HI1. apply IH; [|done].
  intros b' x' st' Hx'. apply Hf. by right.
Qed.

Lemma iter_ok {V} (p : Pool V) (f : list (Id * V) -> Prop) : f (Pool.live p) -> exists l, Pool.iter p = Ret l /\ f l.
Proof. intros Hf. exists (Pool.live p). by destruct (Pool.iteration_is_live_entries p) as [-> _]. Qed.
Lemma live_elem_get {V} (p : Pool V) id v : (id, v) ∈ Pool.live p <-> Pool.try_get p id = Some v.
Proof. apply (Pool.iteration_is_live_entries p). Qed.
Lemma iter_mut_live {V} (p : Pool V) : Pool.iter_mut p = Pool.live p.
Proof. by destruct (Pool.iteration_is_live_entries p) as (_&?&_). Qed.

(** ** The active leaf *)

Section Active.
Variables (T0 : tree) (wp : Pool Window) (k : Z).
Hypothesis (Hnorm : normal T0).
Hypothesis (Hok : windows_ok None wp (leaves T0)).

Definition active_alive st : Prop := forall w, active_window st = Some w -> is_Some (Pool.try_get wp w).
Definition active_ok st : Prop := active_leaf st ∈ (leaves T0).*1.

Lemma live_entry st T id x : in_frame T0 wp k st T -> (id, x) ∈ Pool.live (regions st) -> (id, x) ∈ entries None T.
Proof. intros [[[Ho _] _] _ _ _] Hx%live_elem_get. by eapply owned_elem. Qed.
Lemma live_leaf st T id x :
  in_frame T0 wp k st T -> (id, x) ∈ Pool.live (regions st) -> is_leaf (r_content x) = true -> id ∈ (leaves T0).*1.
Proof.
  intros Hin Hx Hl. destruct (r_content x) as [|l] eqn:E; [done|]. eapply frame_leaf_id'; [exact Hin|].
  eapply entry_leaf; [by eapply live_entry|exact E].
Qed.
Lemma leaf_live st T id l :
  in_frame T0 wp k st T -> (id, l) ∈ leaves T -> exists x, (id, x) ∈ Pool.live (regions st) /\ r_content x = Leaf l.
Proof.
  intros [[[Ho _] _] _ _ _] (L1&L2&Hl)%list_elem_of_split. destruct (focus_leaf _ _ _ _ _ Hl) as (C&i&->&_).
  exists (head_region (cparent C) (TLeaf id i l)). split; [|done]. apply live_elem_get. eapply owned_try_get; [exact Ho|].
  apply (node_entry C (TLeaf id i l)).
Qed.

Lemma window_key_ok T b n st :
  in_frame T0 wp k st T -> active_alive st ->
  returns (window_key b n) (fun _ st' => in_frame T0 wp k st' T /\ active_alive st' /\ active_leaf st' = active_leaf st) st.
Proof using.
  intros Hin Ha. apply returns_bind, returns_get, returns_bind.
  destruct (iter_ok (windows st) (fun l => l = Pool.live (windows st)) eq_refl) as (l&Hl&->).
  eapply returns_lift; [by rewrite Hl|]. destruct (List.find _ _) as [[id win]|] eqn:E; [|by apply returns_ret].
  apply returns_bind, returns_modify, returns_ret. apply List.find_some in E as [E _]. apply list_elem_of_In, live_elem_get in E.
  split; [by eapply frame_other|]. split; [|done]. intros w [= <-]. rewrite (inf_windows _ _ _ _ _ Hin) in E. by eexists.
Qed.

Lemma leaf_of_active_window_ok T b st :
  in_frame T0 wp k st T -> active_alive st ->
  returns (leaf_of_active_window b)
    (fun found st' => exists T', in_frame T0 wp k st' T' /\ active_alive st' /\ (found = true -> active_ok st')) st.
Proof using Hok.
  intros Hin Ha. apply returns_bind, returns_get. destruct (active_window st) as [w|] eqn:Hw.
  2: { apply returns_ret. by exists T. }
  destruct (Ha w Hw) as [win Hwin]. pose proof (inf_windows _ _ _ _ _ Hin) as Hwp. apply returns_bind.
  eapply window_get_ok; [by rewrite Hwp|]. destruct (w_region win) as [id|] eqn:Hid.
  2: { apply returns_ret. by exists T. }
  pose proof (frame_windows _ _ _ _ _ Hin Hok) as Hok'. rewrite Hwp in Hok'.
  assert (Hpl : (w, id) ∈ placed (leaves T)) by (apply (wo_where _ _ _ Hok'); [done|eauto]).
  apply elem_of_placed in Hpl as (l&Hl&Ht). apply returns_bind. eapply frame_read_ok; [exact Hin|exact Hl|].
  destruct (position_found _ _ Ht) as (l1&l2&_&_&Hpos). apply returns_bind. eapply returns_opt; [exact Hpos|].
  apply returns_bind. eapply frame_leaf_ok; [exact Hin|exact Hl|split; [done|intros _; apply zlen_nonneg]|]. intros q T' Hin' _ Hl' _ _.
  apply returns_bind, returns_modify, returns_ret. exists T'. split; [by eapply frame_other|]. split; [done|].
  intros _. unfold active_ok. cbn [active_leaf set_active_leaf]. by eapply frame_leaf_id'.
Qed.

Lemma find_leaf_ok T rs found st :
  in_frame T0 wp k st T -> active_alive st -> (found = true -> active_ok st) ->
  (forall r, r ∈ rs -> is_leaf (r_content r.2) = true -> r.1 ∈ (leaves T0).*1) ->
  returns (sfold rs found (fun found r => if is_leaf (r_content r.2) then _ ← smodify (set_active_leaf r.1); mret true else mret found) : lay bool)
    (fun found' st' => in_frame T0 wp k st' T /\ active_alive st' /\ (found' = true -> active_ok st') /\
       found' = found || existsb (fun r => is_leaf (r_content r.2)) rs) st.
Proof using.
  revert found st. induction rs as [|r rs IH]; intros found st Hin Ha Hf Hrs; cbn [sfold existsb].
  - apply returns_ret. by rewrite orb_false_r.
  - apply returns_bind. destruct (is_leaf (r_content r.2)) eqn:E; cbn [orb].
    + apply returns_bind, returns_modify, returns_ret. rewrite orb_true_r.
      eapply returns_mono; [apply IH; [by eapply frame_other|done|intros _; apply Hrs; [left|done]|intros; apply Hrs; [by right|done]]|].
      intros found' st' (?&?&?&->). done.
    + apply returns_ret. apply IH; [done..|]. intros r' Hr'. apply Hrs. by right.
Qed.

Lemma find_active_leaf_ok T b st :
  in_frame T0 wp k st T -> active_alive st ->
  returns (find_active_leaf b) (fun _ st' => exists T', in_frame T0 wp k st' T' /\ active_alive st' /\ active_ok st') st.
Proof using Hnorm Hok.
  intros Hin Ha. apply returns_bind. eapply returns_mono; [by eapply leaf_of_active_window_ok|].
  intros found st1 (T1&Hin1&Ha1&Hf). destruct found; [apply returns_ret; exists T1; auto|].
  apply returns_bind, returns_get, returns_bind.
  destruct (iter_ok (regions st1) (fun l => l = Pool.live (regions st1)) eq_refl) as (l&Hl&->).
  eapply returns_lift; [by rewrite Hl|]. apply returns_bind.
  eapply returns_mono; [eapply find_leaf_ok; [exact Hin1|exact Ha1|done|]|].
  { intros [id x] Hr Hleaf. by eapply live_leaf. }
  intros found st2 (Hin2&Ha2&Hf2&->). cbn [orb] in *.
  pose proof (frame_nonempty _ _ _ _ _ Hin1 Hnorm) as Hne. destruct (leaves T1) as [|[id l] L] eqn:HL; [done|].
  destruct (leaf_live st1 T1 id l Hin1) as (x&Hx&Hc); [rewrite HL; left|].
  assert (Hex : existsb (fun r => is_leaf (r_content r.2)) (Pool.live (regions st1)) = true).
  { apply existsb_exists. exists (id, x). split; [by apply list_elem_of_In|]. simpl. by rewrite Hc. }
  apply returns_assert; [done|]. exists T1. split; [done|]. split; [done|by apply Hf2].
Qed.

Lemma leaf_at_point_ok T p st :
  in_frame T0 wp k st T ->
  returns (leaf_at_point p) (fun found st' => st' = st /\ forall id, found = Some id -> id ∈ (leaves T0).*1) st.
Proof using.
  intros Hin. apply returns_bind, returns_get, returns_bind.
  destruct (iter_ok (regions st) (fun l => l = Pool.live (regions st)) eq_refl) as (l&Hl&->).
  eapply returns_lift; [by rewrite Hl|]. apply returns_ret. split; [done|]. intros id Hid.
  destruct (List.find _ _) as [[id' x]|] eqn:E; [|done]. injection Hid as <-.
  apply List.find_some in E as [E Hc%andb_true_iff]. eapply live_leaf; [exact Hin|by apply list_elem_of_In|apply Hc].
Qed.

Lemma switch_ok T axis side st :
  is_axis axis -> in_frame T0 wp k st T -> active_alive st -> active_ok st ->
  returns (switch_to_adjacent_leaf axis side) (fun _ st' => in_frame T0 wp k st' T /\ active_alive st' /\ active_ok st') st.
Proof using.
  intros Hax Hin Ha Hact. apply returns_bind, returns_get, returns_bind.
  destruct (frame_leaf_id _ _ _ _ _ _ Hin Hact) as (l&Hl). destruct (leaf_live _ _ _ _ Hin Hl) as (x&Hx&_).
  pose proof (live_entry _ _ _ _ Hin Hx) as He. destruct Hin as [[Ho Hroot] Hr Hs Hw] eqn:Heq. clear Heq.
  eapply region_get_ok; [exact Ho|exact He|].
  assert (H1 : is_axis (1 - axis)) by (destruct Hax; [right|left]; lia).
  apply returns_bind. eapply returns_lift; [by apply at_axis_along|].
  apply returns_bind. eapply returns_lift; [unfold rect_end; rewrite at_axis_along by done; cbn [mbind outcome_bind]; rewrite at_axis_along by done; reflexivity|].
  apply returns_bind. eapply returns_lift; [by apply set_axis_along|].
  apply returns_bind. eapply returns_mono; [by apply (leaf_at_point_ok T)|]. intros found st1 [-> Hf].
  destruct found as [id|].
  { apply returns_modify. split; [by eapply frame_other|]. split; [done|]. by apply Hf. }
  apply returns_bind. eapply returns_lift; [by apply at_axis_along|].
  apply returns_bind. eapply returns_lift; [by apply set_axis_along|].
  apply returns_bind. eapply returns_mono; [by apply (leaf_at_point_ok T)|]. intros found st1 [-> Hf'].
  destruct found as [id|]; [|by apply returns_ret].
  apply returns_modify. split; [by eapply frame_other|]. split; [done|]. by apply Hf'.
Qed.

(** ** Areas *)

Definition all_attached : Prop := forall w win, Pool.try_get wp w = Some win -> is_Some (w_region win).

Lemma arrow_ok T key st :
  in_frame T0 wp k st T -> active_alive st -> active_ok st ->
  returns (arrow_key key) (fun _ st' => in_frame T0 wp k st' T /\ active_alive st' /\ active_ok st') st.
Proof using. intros ???. destruct key; cbn [arrow_key]; apply switch_ok; done || by (left + right). Qed.

Lemma in_frame_ids st T id : in_frame T0 wp k st T -> id ∈ (Pool.live (regions st)).*1 -> id ∈ (entries None T0).*1.
Proof using.
  intros Hin ([id' x]&->&Hx)%list_elem_of_fmap. rewrite <- (reshaped_ids None _ _ (inf_reshaped _ _ _ _ _ Hin)).
  apply list_elem_of_fmap. exists (id', x). split; [done|]. by eapply live_entry.
Qed.

Definition kept (st st' : Layout) : Prop := active_leaf st' = active_leaf st /\ active_window st' = active_window st.

Lemma clear_areas_ok T ids st :
  in_frame T0 wp k st T -> (forall id, id ∈ ids -> id ∈ (entries None T0).*1) ->
  returns (sfor ids (fun id => region_mut id (set_area Rect_default)))
    (fun _ st' => exists T', in_frame T0 wp k st' T' /\ kept st st') st.
Proof using.
  intros Hin Hids. apply (sfor_inv (fun st' => exists T', in_frame T0 wp k st' T' /\ kept st st')).
  - intros id st1 Hid (T1&Hin1&Hk1). eapply frame_area_ok; [exact Hin1|by apply Hids|]. intros q T' Hin' _. by exists T'.
  - by exists T.
Qed.

Lemma check_all_ok {V} (p : Pool V) (seen : gset Id) st (Q : unit -> Layout -> Prop) :
  (forall id, id ∈ (Pool.live p).*1 -> id ∈ seen) -> Q tt st ->
  returns (sfor (Pool.live p) (fun r => sassert (bool_decide (r.1 ∈ seen))) : lay unit) Q st.
Proof using.
  intros Hs HQ. assert (Hr : returns (sfor (Pool.live p) (fun r => sassert (bool_decide (r.1 ∈ seen))) : lay unit) (fun _ st' => st' = st) st).
  { apply (sfor_inv (fun st' => st' = st)); [|done]. intros [id x] st1 Hx ->. apply returns_assert; [|done].
    apply bool_decide_eq_true, Hs, list_elem_of_fmap. by exists (id, x). }
  eapply returns_mono; [exact Hr|]. by intros [] ? ->.
Qed.

Lemma shrink_side_bound b side ps m : 0 <= ps.2 < m -> 0 <= (shrink_side b side ps).2 < m.
Proof using.
  intros Hp. unfold shrink_side. destruct (b && (0 <? ps.2)) eqn:E; [|done].
  apply andb_true_iff in E as [_ E%Z.ltb_lt]. cbn [snd]. lia.
Qed.
Lemma root_area_on_screen outer scr : 0 <= scr.1 < 2 ^ 16 -> 0 <= scr.2 < 2 ^ 16 -> on_screen (root_area outer scr).
Proof using.
  intros H1 H2. unfold root_area, on_screen, width, height. cbn [size fst snd]. split; by do 2 apply shrink_side_bound.
Qed.

Definition drawn_frame (frame : Frame) T : Prop := laid wp T /\ tree_area T = root_area (outer_walls frame) (screen frame).

Lemma build_regions_ok frame T st :
  drawable T0 -> fixed_sizes_ok wp -> all_attached -> zlen (entries None T0) < region_max ->
  0 <= (screen frame).1 < 2 ^ 16 -> 0 <= (screen frame).2 < 2 ^ 16 ->
  in_frame T0 wp k st T -> active_ok st ->
  returns (build_regions frame)
    (fun should st' => exists T', in_frame T0 wp k st' T' /\ drawn_frame frame T' /\ good_move T0 should /\ active_ok st') st.
Proof using Hnorm Hok.
  intros Hdraw Hfx Hatt Hlen Hs1 Hs2 Hin Hact. apply returns_bind, returns_get. rewrite iter_mut_live.
  apply returns_bind. eapply returns_mono; [eapply (clear_areas_ok T); [exact Hin|]|].
  { intros id. by eapply in_frame_ids. }
  intros _ st1 (T1&Hin1&[Hal1 _]). apply returns_bind, returns_get.
  assert (Hroot1 : root st1 = tid T1) by (by destruct Hin1 as [[_ ?] _ _ _]).
  apply returns_bind. eapply frame_area_ok; [exact Hin1| |].
  { rewrite <- (reshaped_ids None _ _ (inf_reshaped _ _ _ _ _ Hin1)), Hroot1, entries_unfold. left. }
  intros q T2 Hin2 Harea. specialize (Harea Hroot1). set (st2 := set_regions q st1) in *.
  assert (Hroot2 : root st1 = tid T2) by (by destruct Hin2 as [[_ ?] _ _ _]). rewrite Hroot2.
  apply returns_bind, returns_get. destruct Hin2 as [[Ho2 _] Hr2 Hsz2 Hw2].
  assert (Hents : sents [(None, T2)] = entries None T2) by (unfold sents; cbn; by rewrite app_nil_r).
  assert (Hlv : sleaves [(None, T2)] = leaves T2) by (unfold sleaves, leaves_of; cbn; by rewrite app_nil_r).
  pose proof (reshaped_placed _ _ Hr2) as Hplaced.
  apply returns_bind. eapply returns_mono.
  { apply (build_loop_ok T0 frame k (S (length (slots (regions st2)))) [(None, T2)] st2 [] ∅ ∅ None); rewrite ?Hents, ?Hlv.
    - destruct Ho2 as [Ho2 _]. apply owned_length in Ho2. lia.
    - by rewrite (reshaped_length None _ _ Hr2).
    - by rewrite Hw2.
    - by rewrite app_nil_r.
    - apply Forall_singleton. constructor; cbn [snd]; [by eapply reshaped_drawable|by eapply reshaped_normal| |by exists [], T0].
      intros _. rewrite Harea. by apply root_area_on_screen.
    - rewrite Hw2. unfold windows_at. rewrite Hplaced. split; [apply (wo_once _ _ _ Hok)|].
      intros w id Hin'. by apply (wo_where _ _ _ Hok).
    - set_solver.
    - set_solver.
    - done. }
  intros [[RS WS] should] st3 (q3&a&stk&->&Ho3&Hf&HRS&HWS&Hgood&Ha). cbn [fst snd] in HRS, HWS, Hgood.
  apply Forall2_cons_inv_l in Hf as ([p3 T3]&stk3&(Hp3&Hr3&Hi3&Hl3)&Hf&->). apply Forall2_nil_inv_l in Hf as ->.
  cbn [fst snd] in Hp3, Hr3, Hi3, Hl3. subst p3. rewrite Hents in HRS. rewrite Hlv in HWS, Ha.
  assert (Hents3 : sents [(None, T3)] = entries None T3) by (unfold sents; cbn; by rewrite app_nil_r).
  rewrite Hents3, app_nil_r in Ho3.
  assert (Hin3 : in_frame T0 wp k (with_active st2 q3 a) T3).
  { constructor; [split|by eapply reshaped_trans| |done].
    - exact Ho3.
    - cbn [with_active root]. subst st2. cbn [set_regions root]. rewrite Hroot2. symmetry. by apply reshaped_tid.
    - unfold tree_size in *. by rewrite Hi3. }
  assert (Hact3 : active_ok (with_active st2 q3 a)).
  { unfold active_ok in *. cbn [with_active active_leaf]. destruct Ha as [->|Ha].
    - subst st2. cbn [set_regions active_leaf]. by rewrite Hal1.
    - by rewrite <- (reshaped_leaf_ids _ _ Hr2). }
  apply returns_bind, returns_get, returns_bind.
  destruct (iter_ok (regions (with_active st2 q3 a)) (fun l => l = Pool.live q3) eq_refl) as (l&Hl&->).
  eapply returns_lift; [by rewrite Hl|]. apply returns_bind, check_all_ok.
  { intros id Hid. rewrite HRS, union_empty_r_L, elem_of_list_to_set, (reshaped_ids None _ _ Hr2). by eapply (in_frame_ids (with_active st2 q3 a)). }
  apply returns_bind, returns_get, returns_bind. cbn [with_active windows]. rewrite Hw2.
  destruct (iter_ok wp (fun l => l = Pool.live wp) eq_refl) as (l&Hl'&->).
  eapply returns_lift; [by rewrite Hl'|]. apply returns_bind, check_all_ok.
  { intros id ([id' win]&->&Hid%live_elem_get)%list_elem_of_fmap. cbn [fst]. rewrite HWS, union_empty_r_L, elem_of_list_to_set, Hplaced.
    destruct (Hatt _ _ Hid) as [leaf Hleaf]. apply list_elem_of_fmap. exists (id', leaf). split; [done|].
    apply (wo_where _ _ _ Hok); [done|]. eauto. }
  apply returns_ret. exists T3. split; [done|]. split; [|done]. split; [by rewrite Hw2 in Hl3|].
  unfold tree_area in *. by rewrite Hi3.
Qed.
End Active.
End Steps.
