(* ===== verification/LayoutShow.v ===== *)
(** The end of a frame: the row of tabs of a leaf, the windows shown, and the
    active window. *)
From Stdlib Require Import ZArith Lia.
From stdpp Require Import base list gmap sets.
From S2P Require Import Prelude Pool Errors StateMonad Tabs Rect PoolOwned Layout LayoutTree LayoutSimplify LayoutMove LayoutInv LayoutBuild LayoutBuildSpec LayoutPlace LayoutFrame LayoutLoop LayoutFrameSpec.
Open Scope Z_scope.

Lemma click_tabs_ok n clicked ts : 0 <= selected ts -> 0 <= selected (click_tabs n clicked ts).
Proof.
  intros Hs. unfold click_tabs. assert (Hin : forall i, i ∈ seqZ 0 n -> 0 <= i) by (intros i ?%elem_of_seqZ; lia).
  revert ts Hs Hin. induction (seqZ 0 n) as [|i is' IH]; intros ts Hs Hin; [done|]. cbn [foldl].
  apply IH; [|intros; apply Hin; by right]. destruct (clicked i); [|done]. apply Hin. left.
Qed.

(** Tab keys keep the selected tab among the [n] tabs. *)
Definition in_row (n : Z) (ts : TabsState) : Prop := 0 <= selected ts <= Z.max 0 (n - 1).
Lemma tab_keys_ok n keys ts :
  0 <= n < 2 ^ 32 -> in_row n ts -> exists ts', run_tab_keys n keys ts = Ret ts' /\ in_row n ts'.
Proof.
  intros Hn. revert ts. induction keys as [|key keys IH]; intros ts Hs; [by exists ts|]. cbn [run_tab_keys].
  assert (Hk : exists ts1, tab_key n ts key = Ret ts1 /\ in_row n ts1).
  { unfold tab_key, in_row in *. destruct (Z.eqb_spec n 0) as [->|Hne]; [by exists ts|]. destruct key.
    - rewrite uadd_ret by lia. cbn [mbind outcome_bind]. eexists. split; [reflexivity|].
      cbn [select selected]. pose proof (Z.mod_pos_bound (selected ts + 1) n ltac:(lia)). lia.
    - rewrite uadd_ret by lia. cbn [mbind outcome_bind]. rewrite usub_ret by lia. cbn [mbind outcome_bind].
      eexists. split; [reflexivity|]. cbn [select selected].
      pose proof (Z.mod_pos_bound (selected ts + n - 1) n ltac:(lia)). lia. }
  destruct Hk as (ts1&->&Hs1). cbn [mbind outcome_bind]. by apply IH.
Qed.

Lemma drop_place_ok mid n x is' i to :
  (forall j, j ∈ is' -> 0 <= j < n) -> drop_place mid n x is' = Some (i, to) -> 0 <= i < n /\ 0 <= to <= n.
Proof.
  induction is' as [|j is' IH]; intros Hin; cbn [drop_place]; [done|].
  pose proof (Hin j ltac:(left)). destruct (x <=? mid j); [intros [= <- <-]; lia|].
  destruct (j + 1 =? n); [intros [= <- <-]; lia|]. apply IH. intros j' Hj'. apply Hin. by right.
Qed.
Lemma drop_action_ok tabs inp :
  exists act, drop_action tabs inp = Ret act /\ forall w to, act = Some (w, to) -> 0 <= to.
Proof.
  unfold drop_action. destruct (tab_drop inp) as [[[w x] drop]|]; [|by exists None].
  destruct (drop_place _ _ _ _) as [[i to]|] eqn:E; [|by exists None].
  apply drop_place_ok in E as [Hi Hto]; [|intros j ?%elem_of_seqZ; lia].
  destruct (proj2 (zget_range tabs i) Hi) as [t ->]. cbn [lift_opt mbind outcome_bind].
  case_decide; [by exists None|]. destruct (proj2 (zget_range tabs (Z.max 0 (to - 1))) ltac:(lia)) as [t' ->].
  cbn [lift_opt mbind outcome_bind]. case_decide; [by exists None|]. destruct drop; eexists; (split; [done|]); [|done].
  intros ? ? [= <- <-]. lia.
Qed.

Lemma run_tabs_ok tabs inp ts :
  zlen tabs < 2 ^ 32 -> 0 <= selected ts ->
  exists ts' act, run_tabs tabs inp ts = Ret (ts', act) /\ in_row (zlen tabs) ts' /\ forall w to, act = Some (w, to) -> 0 <= to.
Proof.
  intros Hn Hs. unfold run_tabs. pose proof (zlen_nonneg tabs) as Hn0. cbv zeta.
  pose proof (click_tabs_ok (zlen tabs) (tab_clicked inp) ts Hs) as Hc.
  destruct (tab_keys_ok (zlen tabs) (tab_keys inp)
    (mkTabsState (Z.min (selected (click_tabs (zlen tabs) (tab_clicked inp) ts)) (Z.max 0 (zlen tabs - 1)))
       (hscroll (click_tabs (zlen tabs) (tab_clicked inp) ts)) (scroll_to_selected_tab (click_tabs (zlen tabs) (tab_clicked inp) ts))))
    as (ts1&->&Hr); [lia|unfold in_row; cbn [selected]; lia|].
  destruct (drop_action_ok tabs inp) as (act&Hact&Hto). cbn [mbind outcome_bind]. rewrite Hact. cbn [mbind outcome_bind].
  assert (Hscroll : (if scroll_to_selected_tab ts1 && negb (zlen tabs =? 0) then _ ← lift_opt (zget tabs (selected ts1)); Ret tt else Ret tt) = (Ret tt : partial unit)).
  { destruct (scroll_to_selected_tab ts1); [|done]. destruct (Z.eqb_spec (zlen tabs) 0); [done|]. cbn [andb negb].
    unfold in_row in Hr. by destruct (proj2 (zget_range tabs (selected ts1)) ltac:(lia)) as [t ->]. }
  rewrite Hscroll. cbn [mbind outcome_bind]. by eexists _, act.
Qed.

Section ShowTabs.
Context `{!WindowContent}.

(** The window shown of a leaf. *)
Definition shown_window (ws : list Id) (sel : Z) (area : Rect) : Shown := match zget ws sel with Some w => [(w, area)] | None => [] end.
Definition activate (act : bool) (o : option Id) (st : Layout) : Layout :=
  match o with Some w => if act then set_active_window (Some w) st else st | None => st end.

Lemma imap_from {A} (ws : list A) w (o : nat) :
  imap (fun i x => (Z.of_nat (i + o), x)) (w :: ws) = (Z.of_nat o, w) :: imap (fun i x => (Z.of_nat (i + S o), x)) ws.
Proof. rewrite imap_cons. f_equal. apply imap_ext. intros i x _. unfold compose. simpl. by rewrite Nat.add_succ_r. Qed.

Lemma show_windows_ok area act sel (ws : list Id) (o : nat) shown st :
  (forall w, w ∈ ws -> is_Some (Pool.try_get (windows st) w)) ->
  returns (sfold (imap (fun i w => (Z.of_nat (i + o), w)) ws) shown (show_window area act sel))
    (fun shown' st' => shown' = shown ++ shown_window ws (sel - Z.of_nat o) area /\ st' = activate act (zget ws (sel - Z.of_nat o)) st) st.
Proof.
  revert o shown st. induction ws as [|w ws IH]; intros o shown st Hw.
  - apply returns_ret. unfold shown_window. rewrite zget_nil. by rewrite app_nil_r.
  - rewrite imap_from. cbn [sfold]. destruct (Hw w ltac:(left)) as [win Hwin].
    apply returns_bind, returns_bind. eapply window_get_ok; [exact Hwin|]. cbn [fst snd].
    assert (Hrest : forall w', w' ∈ ws -> is_Some (Pool.try_get (windows st) w')) by (intros; apply Hw; by right).
    unfold shown_window. rewrite zget_cons. destruct (Z.eqb_spec (Z.of_nat o) sel) as [He|Hne]; [subst sel|].
    + rewrite Z.sub_diag. cbn [Z.eqb]. apply returns_bind.
      assert (Hs : returns (swhen act (smodify (set_active_window (Some w))) : lay unit) (fun _ st' => st' = activate act (Some w) st) st).
      { destruct act; [by apply returns_modify|by apply returns_ret]. }
      eapply returns_mono; [exact Hs|]. intros _ st1 ->. apply returns_ret.
      assert (Hws : windows (activate act (Some w) st) = windows st) by by destruct act.
      eapply returns_mono; [apply IH; by rewrite Hws|]. intros shown' st' [-> ->]. unfold shown_window.
      replace (zget ws (Z.of_nat o - Z.of_nat (S o))) with (@None Id); [by rewrite app_nil_r|].
      unfold zget. by rewrite (proj2 (Z.leb_gt _ _)) by lia.
    + apply returns_ret. eapply returns_mono; [by apply IH|]. intros shown' st' [-> ->]. unfold shown_window.
      rewrite (proj2 (Z.eqb_neq _ _)) by lia. replace (sel - Z.of_nat (S o)) with (sel - Z.of_nat o - 1) by lia.
      destruct (Z.ltb_spec (sel - Z.of_nat o) 0); [|done].
      unfold zget. by rewrite (proj2 (Z.leb_gt _ _)) by lia.
Qed.
End ShowTabs.

Section Show.
Context `{!WindowContent}.
Variables (T0 T1 : tree) (wp : Pool Window) (k : Z) (a : Id).
Hypothesis (Hnorm : normal T0).
Hypothesis (Hok : windows_ok None wp (leaves T0)).
Hypothesis (Ha : a ∈ (leaves T0).*1).
Hypothesis (Husize : usize_tabs T0).
Hypothesis (Hfew : zlen (placed (leaves T0)) < 2 ^ 32).
Implicit Types (st : Layout) (T : tree).

(** Everything shown is a tab of a leaf, in the area of the leaf. *)
Definition shown_ok (shown : Shown) : Prop :=
  Forall (fun s => exists id, (id, s.2) ∈ leaf_areas T1 /\ (s.1, id) ∈ placed (leaves T0)) shown.
(** What is shown of a region: the selected tab of a leaf. *)
Definition region_shown (p : Pool Region) (id : Id) : Shown :=
  match Pool.try_get p id with
  | Some x => match r_content x with Leaf l => shown_window (tabs l) (selected (tabs_state l)) (r_area x) | Split _ => [] end
  | None => []
  end.
(** In the leaves that were done, a tab is selected if there are tabs. *)
Definition rows_ok (p : Pool Region) (ids : list Id) : Prop :=
  forall id x l, id ∈ ids -> Pool.try_get p id = Some x -> r_content x = Leaf l -> in_row (zlen (tabs l)) (tabs_state l).
(** The active window, if any, is a tab of the active leaf. *)
Definition active_in_leaf st : Prop := forall w, active_window st = Some w -> (w, a) ∈ placed (leaves T0).
(** There is an active window, or the active leaf has no tabs. *)
Definition handled st : Prop := active_window st <> None \/ forall w, (w, a) ∉ placed (leaves T0).

(** After the regions [ids]. *)
Record showing (ids : list Id) (acc : option Relocation * Shown) st : Prop := mkShowing {
  sh_tree : exists T, in_frame T0 wp k st T /\ same_areas wp T1 T;
  sh_move : good_move T0 acc.1;
  sh_leaf : active_leaf st = a;
  sh_shown : shown_ok acc.2;
  sh_exact : acc.2 = concat (map (region_shown (regions st)) ids);
  sh_rows : rows_ok (regions st) ids;
  sh_active : active_in_leaf st
}.

Lemma tabs_few T st id l : in_frame T0 wp k st T -> (id, l) ∈ leaves T -> zlen (tabs l) < 2 ^ 32.
Proof using Hfew.
  intros [_ Hr _ _] (L1&L2&Hl)%list_elem_of_split. rewrite <- (reshaped_placed _ _ Hr), Hl in Hfew.
  rewrite placed_app, placed_cons, !zlen_app in Hfew. unfold placed_in in Hfew. rewrite zlen_fmap in Hfew. cbn [snd] in Hfew.
  pose proof (zlen_nonneg (placed L1)). pose proof (zlen_nonneg (placed L2)). lia.
Qed.

Lemma tab_window T st id l w :
  in_frame T0 wp k st T -> (id, l) ∈ leaves T -> w ∈ tabs l ->
  (w, id) ∈ placed (leaves T0) /\ is_Some (Pool.try_get (windows st) w).
Proof using Hok.
  intros Hin Hl Hw. assert (Hp : (w, id) ∈ placed (leaves T0)).
  { rewrite <- (reshaped_placed _ _ (inf_reshaped _ _ _ _ _ Hin)). apply elem_of_placed. eauto. }
  split; [done|]. rewrite (inf_windows _ _ _ _ _ Hin). apply (wo_where _ _ _ Hok) in Hp as (win&Hwin&_); [by eexists|done].
Qed.

(** The area of a leaf of the tree. *)
Lemma leaf_region_area p T id x l : (id, x) ∈ entries p T -> r_content x = Leaf l -> NoDup (entries p T).*1 -> (id, r_area x) ∈ leaf_areas T.
Proof using.
  revert p. induction T as [id' i l'|id' i axis ts IH] using tree_forest_ind; intros p Hx Hl Hnd.
  - apply list_elem_of_singleton in Hx as [= -> ->]. left.
  - rewrite entries_unfold in Hx. apply elem_of_cons in Hx as [[= -> ->]|Hx]; [done|].
    apply elem_of_concat in Hx as (es&Hes&(t&->&Ht)%list_elem_of_fmap). cbn [kids] in Ht.
    cbn [leaf_areas]. apply elem_of_concat. exists (leaf_areas t). rewrite Forall_forall in IH. split; [|by apply list_elem_of_fmap_2].
    eapply IH; [done|exact Hes|done|]. rewrite entries_unfold in Hnd. cbn [fmap list_fmap] in Hnd. apply NoDup_cons in Hnd as [_ Hnd].
    unfold below in Hnd. cbn [kids] in Hnd. apply list_elem_of_split in Ht as (l1&l2&->). rewrite ents_app, ents_cons, !fmap_app in Hnd.
    by apply NoDup_app in Hnd as (_&_&(?&_&_)%NoDup_app).
Qed.

Lemma region_shown_same p q ids : (forall id, id ∈ ids -> Pool.try_get q id = Pool.try_get p id) ->
  map (region_shown q) ids = map (region_shown p) ids.
Proof using. intros Hids. apply map_ext_in. intros id Hid%list_elem_of_In. unfold region_shown. by rewrite (Hids id Hid). Qed.

Lemma build_leaf_ok frame ids acc id st :
  showing ids acc st -> id ∈ (entries None T0).*1 -> id ∉ ids ->
  returns (build_leaf frame acc id) (fun acc' st' => showing (ids ++ [id]) acc' st' /\ (handled st -> handled st') /\ (id = a -> handled st')) st.
Proof using Ha Hfew Hok Husize.
  intros [(T&Hin&Hsame) Hmove Hleaf Hshown Hex Hrows Hact] Hid Hnew.
  destruct (in_frame_perm _ _ _ _ _ _ Hin Hid) as [x Hx]. pose proof (inf_tree _ _ _ _ _ Hin) as [Ho _].
  apply returns_bind. eapply region_get_ok; [exact Ho|exact Hx|]. pose proof (owned_try_get _ _ _ _ (proj1 Ho) Hx) as Hget.
  destruct (r_content x) as [s|l] eqn:Hc.
  { apply returns_ret. split; [constructor; eauto|].
    { rewrite map_app, concat_app, Hex. unfold region_shown at 3. cbn [map concat]. by rewrite Hget, Hc, !app_nil_r. }
    { intros id' y l' [?| ->%list_elem_of_singleton]%elem_of_app; [by apply Hrows|]. rewrite Hget. intros [= <-]. by rewrite Hc. }
    split; [done|]. intros ->. exfalso.
    destruct (frame_leaf_id _ _ _ _ _ _ Hin Ha) as (l&Hl). destruct (leaf_live _ _ _ _ _ _ _ Hin Hl) as (y&Hy&Hcy).
    apply live_elem_get in Hy. destruct Ho as [Ho _]. pose proof (owned_try_get _ _ _ _ Ho Hx). congruence. }
  assert (Hl : (id, l) ∈ leaves T) by by eapply entry_leaf.
  apply returns_bind, returns_get. rewrite Hleaf.
  assert (Hus' : 0 <= selected (tabs_state l)).
  { pose proof (reshaped_usize _ _ (inf_reshaped _ _ _ _ _ Hin) Husize) as Hus. unfold usize_tabs in Hus.
    rewrite Forall_forall in Hus. by apply (Hus (id, l)). }
  destruct (run_tabs_ok (tabs l) (tabs_input frame id) (tabs_state l)) as (ts&act&Hrun&Hrow&Hto); [by eapply tabs_few|done|].
  apply returns_bind. eapply returns_mono.
  { apply (sfor_inv (fun st' => st' = st)); [|done]. intros w st1 Hw ->. destruct (tab_window _ _ _ _ _ Hin Hl Hw) as [_ [win Hwin]].
    apply returns_bind. eapply window_get_ok; [exact Hwin|]. by apply returns_ret. }
  intros _ st1 ->. apply returns_bind. eapply returns_lift; [by rewrite Hrun|].
  apply returns_bind. eapply frame_leaf_ok; [exact Hin|exact Hl|split; [done|intros _; apply Hrow]|].
  intros q T' Hin' Hsame' _ _ Hq. apply returns_bind. eapply returns_mono.
  { rewrite (imap_ext _ (fun i w => (Z.of_nat (i + 0), w)) (tabs l)) by (intros; by rewrite Nat.add_0_r).
    apply show_windows_ok. intros w Hw. destruct (tab_window _ _ _ _ _ Hin Hl Hw) as [_ Hal].
    cbn [set_regions windows]. done. }
  intros shown st2 [-> ->]. rewrite Z.sub_0_r. apply returns_ret. set (st2 := activate _ _ _).
  assert (Hst2 : regions st2 = q /\ root st2 = root st /\ windows st2 = windows st /\ active_leaf st2 = active_leaf st).
  { subst st2. unfold activate. destruct (zget (tabs l) (selected ts)); [|done]. by destruct (bool_decide (a = id)). }
  destruct Hst2 as (E1&E2&E3&E4).
  assert (Hin2 : in_frame T0 wp k st2 T') by (eapply frame_other; [exact Hin'|done..]).
  assert (Hsel : forall w, zget (tabs l) (selected ts) = Some w -> (w, id) ∈ placed (leaves T0)).
  { intros w [_ Hw%list_elem_of_lookup_2]%zget_Some. by destruct (tab_window _ _ _ _ _ Hin Hl Hw). }
  split; [constructor|split].
  - exists T'. split; [done|]. by eapply same_areas_trans.
  - cbn [fst]. destruct act as [[w to]|]; [|done]. split; [|done]. split; [by eapply Hto|].
    pose proof (frame_leaf_id' _ _ _ _ _ _ _ Hin Hl) as Hid'. apply list_elem_of_fmap in Hid' as ([id' l0]&->&Hl0). by exists l0.
  - by rewrite E4.
  - cbn [snd]. apply Forall_app. split; [done|]. unfold shown_window. destruct (zget (tabs l) (selected ts)) as [w|] eqn:E; [|constructor].
    apply Forall_singleton. exists id. split; [|by apply Hsel]. cbn [snd]. destruct Hsame as (_&<-&_).
    eapply leaf_region_area; [exact Hx|exact Hc|]. by apply owns_nodup in Ho.
  - cbn [snd]. rewrite map_app, concat_app, E1, (region_shown_same (regions st) q ids), <- Hex.
    2: { intros id' Hid'. rewrite Hq. destruct (decide (id' = id)) as [->|]; done. }
    f_equal. cbn [map concat]. unfold region_shown. rewrite Hq, decide_True, Hget by done. cbn. by rewrite app_nil_r.
  - rewrite E1. intros id' y l' [Hid'| ->%list_elem_of_singleton]%elem_of_app; rewrite Hq.
    + destruct (decide (id' = id)) as [->|]; [done|by apply Hrows].
    + rewrite decide_True, Hget by done. cbn. intros [= <-] [= <-]. exact Hrow.
  - subst st2. unfold activate. destruct (zget (tabs l) (selected ts)) as [w|] eqn:E; [|exact Hact].
    destruct (bool_decide (a = id)) eqn:Hb; [|exact Hact]. apply bool_decide_eq_true in Hb. subst id. intros w' [= <-]. by apply Hsel.
  - intros Hh. subst st2. unfold activate. destruct (zget (tabs l) (selected ts)); [|exact Hh]. by destruct (bool_decide (a = id)); [left|].
  - intros ->. subst st2. unfold activate, in_row in *. destruct (zget (tabs l) (selected ts)) as [w|] eqn:E.
    + rewrite bool_decide_eq_true_2 by done. by left.
    + right. intros w Hw. assert (Hnil : tabs l = []).
      { destruct (tabs l) as [|w' ws] eqn:Ht; [done|]. exfalso. rewrite zlen_cons in Hrow. pose proof (zlen_nonneg ws).
        destruct (proj2 (zget_range (w' :: ws) (selected ts))) as [? ?]; [rewrite zlen_cons; lia|congruence]. }
      rewrite <- (reshaped_placed _ _ (inf_reshaped _ _ _ _ _ Hin)) in Hw. apply elem_of_placed in Hw as (l'&Hl'&Hw).
      assert (l' = l) as ->; [|rewrite Hnil in Hw; by apply elem_of_nil in Hw].
      eapply leaf_unique; [eapply leaves_nodup; exact Ho|exact Hl'|exact Hl].
Qed.

Lemma build_leaves_ok frame before ids acc st :
  showing before acc st -> (forall id, id ∈ ids -> id ∈ (entries None T0).*1) -> NoDup (before ++ ids) -> (handled st \/ a ∈ ids) ->
  returns (sfold ids acc (build_leaf frame)) (fun acc' st' => showing (before ++ ids) acc' st' /\ handled st') st.
Proof using Ha Hfew Hok Husize.
  revert before acc st. induction ids as [|id ids IH]; intros before acc st Hs Hids Hnd Hh; cbn [sfold].
  - apply returns_ret. rewrite app_nil_r. split; [done|]. by destruct Hh as [?|?%elem_of_nil].
  - apply returns_bind. eapply returns_mono; [apply build_leaf_ok; [exact Hs|apply Hids; left|]|].
    { apply NoDup_app in Hnd as (_&Hnd&_). intros Hb. by apply (Hnd id Hb); left. }
    intros acc1 st1 (Hs1&Hh1&Hh2). rewrite cons_middle, app_assoc in Hnd |- *. apply IH; [done|intros; apply Hids; by right|done|].
    destruct Hh as [Hh|[->|Hh]%elem_of_cons]; auto.
Qed.

Lemma fallback_window_ok ids acc st :
  showing ids acc st -> handled st ->
  returns (fallback_window acc.2) (fun _ st' => exists T, in_frame T0 wp k st' T /\ same_areas wp T1 T /\ regions st' = regions st /\
    active_leaf st' = a /\ (forall w, active_window st' = Some w -> is_Some (Pool.try_get wp w))) st.
Proof using Ha Hok.
  intros [(T&Hin&Hsame) _ Hleaf _ _ _ Hact] Hh. apply returns_bind, returns_get.
  destruct (active_window st) as [w|] eqn:Hw.
  - apply returns_ret. exists T. split; [done|]. split; [done|]. split; [done|]. split; [done|]. intros w' Hw'.
    apply Hact, (wo_where _ _ _ Hok) in Hw' as (win&Hwin&_); [by eexists|done].
  - destruct Hh as [Hh|Hh]; [congruence|]. apply returns_bind, returns_get. rewrite Hleaf.
    destruct (frame_leaf_id _ _ _ _ _ _ Hin Ha) as (l&Hl). apply returns_bind. eapply frame_read_ok; [exact Hin|exact Hl|].
    apply returns_bind, returns_assert.
    { apply bool_decide_eq_true. destruct (tabs l) as [|w ws] eqn:Ht; [done|]. exfalso. apply (Hh w).
      destruct (tab_window _ _ _ _ w Hin Hl) as [Hp _]; [rewrite Ht; left|exact Hp]. }
    apply returns_bind, returns_get, returns_bind.
    destruct (iter_ok (windows st) (fun l => l = Pool.live (windows st)) eq_refl) as (ws&Hws&->).
    eapply returns_lift; [by rewrite Hws|]. destruct (List.find _ _) as [[id win]|] eqn:E.
    + apply returns_modify. exists T. split; [by eapply frame_other|]. split; [done|]. split; [done|]. split; [done|].
      intros w [= <-]. apply List.find_some in E as [E _]. apply list_elem_of_In, live_elem_get in E.
      rewrite (inf_windows _ _ _ _ _ Hin) in E. by eexists.
    + apply returns_ret. exists T. split; [done|]. split; [done|]. split; [done|]. split; [done|]. by rewrite Hw.
Qed.
End Show.
