(* ===== verification/LayoutFrameProps.v ===== *)
(** The leaves of a laid out tree tile its area; a window is moved at the end of
    a frame; and the properties of a frame: it always finishes, and what is shown
    tiles the screen. *)
From Stdlib Require Import ZArith Lia.
From stdpp Require Import base list gmap sets.
From S2P Require Import Prelude Pool Floats Errors StateMonad Tabs Rect PoolOwned Layout LayoutTree LayoutSimplify LayoutMove LayoutInv LayoutBuild LayoutBuildSpec LayoutPlace LayoutFrame LayoutLoop LayoutFrameSpec LayoutShow.
Open Scope Z_scope.

(** At most one of the lists between walls has an element at [c]. *)
Lemma between_walls {A} (w : Z -> Z) (c o : Z) (ls : list (list A)) :
  (forall j l, zget ls j = Some l -> (length l <= 1)%nat /\ (l <> [] -> w (o + j) < c < w (o + j + 1))) ->
  (forall i j, o <= i <= j -> j <= o + zlen ls -> w i <= w j) ->
  (length (concat ls) <= 1)%nat /\ (concat ls <> [] -> w o < c).
Proof.
  revert o. induction ls as [|l ls IH]; intros o Hl Hw; [simpl; split; [lia|done]|].
  destruct (Hl 0 l) as [H1 H2]; [by rewrite zget_cons|]. rewrite Z.add_0_r in H2. pose proof (zlen_nonneg ls). rewrite zlen_cons in Hw.
  destruct (IH (o + 1)) as [IH1 IH2].
  { intros j l' Hj. pose proof (proj1 (zget_range _ _) (mk_is_Some _ _ Hj)) as Hr. destruct (Hl (j + 1) l') as [H3 H4].
    { rewrite zget_cons, (proj2 (Z.eqb_neq _ _)), (proj2 (Z.ltb_ge _ _)) by lia. by replace (j + 1 - 1) with j by lia. }
    replace (o + 1 + j) with (o + (j + 1)) by lia. done. }
  { intros i j Hi Hj. apply Hw; lia. }
  cbn [concat]. rewrite length_app. pose proof (Hw o (o + 1) ltac:(lia) ltac:(lia)) as Hm. destruct l as [|x l].
  - cbn [length app]. split; [lia|]. intros Hne%IH2. lia.
  - specialize (H2 ltac:(done)). split; [|intros _; lia]. destruct (concat ls) as [|y k]; [simpl in *; lia|].
    specialize (IH2 ltac:(done)). lia.
Qed.

Lemma contains_between axis area w w' p :
  is_axis axis -> -1 <= w -> w' <= along (size area) axis -> contains (area_between axis area w w') p = true ->
  contains area p = true /\ w < along p axis - along (pos area) axis < w'.
Proof.
  intros Ha Hw Hw'. rewrite !contains_spec. unfold area_between, right, bottom. destruct area as [[px py] [sx sy]], p as [x y].
  destruct Ha as [-> | ->]; unfold along, with_along in *; cbn in *; lia.
Qed.

Section Tiling.
Context `{!WindowContent}.
Implicit Types (wp : Pool Window) (t : tree).

(** Every split has room for its fixed children and something flexible, in
    numbers that the arithmetic can hold. *)
Inductive roomy wp : tree -> Prop :=
  | roomy_leaf id i l : roomy wp (TLeaf id i l)
  | roomy_split id i axis ts :
      is_axis axis ->
      sane (along (size (i_area i)) axis) (child_of wp axis <$> ts) ->
      fits (along (size (i_area i)) axis) (child_of wp axis <$> ts) ->
      Forall (roomy wp) ts -> roomy wp (TSplit id i axis ts).

(** The leaves whose areas have the cell [p]. *)
Definition leaves_at (p : Z * Z) t : list (Id * Rect) := List.filter (fun e => contains e.2 p) (leaf_areas t).

Lemma leaves_at_split p id i axis ts : leaves_at p (TSplit id i axis ts) = concat (leaves_at p <$> ts).
Proof.
  unfold leaves_at. cbn [leaf_areas]. induction ts as [|t ts IH]; [done|]. rewrite !fmap_cons. cbn [concat].
  by rewrite List.filter_app, IH.
Qed.

(** Each wall of a split is behind the one before it, from edge to edge. *)
Lemma laid_tiles wp t p :
  laid wp t -> roomy wp t -> (length (leaves_at p t) <= 1)%nat /\ (leaves_at p t <> [] -> contains (tree_area t) p = true).
Proof.
  induction t as [id i l|id i axis ts IH] using tree_forest_ind; intros Hl Hr.
  - unfold leaves_at. cbn [leaf_areas List.filter snd]. unfold tree_area. cbn [tinfo]. destruct (contains (i_area i) p); simpl; split; lia || done.
  - inversion_clear Hl as [|???? Ha Hls]. inversion_clear Hr as [|???? Hax Hs Hf Hrs].
    set (sz := along (size (i_area i)) axis) in *. set (cs := child_of wp axis <$> ts) in *.
    assert (Hn : zlen cs = zlen ts) by apply zlen_fmap. destruct (wall_pos_ends _ _ Hf) as [E0 E1]. rewrite Hn in E1.
    assert (Hmono : forall a b, 0 <= a <= b -> b <= 0 + zlen ts -> wall_pos sz cs a <= wall_pos sz cs b).
    { intros a b Hab Hb. pose proof (wall_pos_mono sz cs a b Hs ltac:(lia) ltac:(lia)). lia. }
    assert (Hkid : forall j t, zget ts j = Some t -> (length (leaves_at p t) <= 1)%nat /\
      (leaves_at p t <> [] -> contains (i_area i) p = true /\ wall_pos sz cs j < along p axis - along (pos (i_area i)) axis < wall_pos sz cs (j + 1))).
    { intros j t Ht. pose proof (proj1 (zget_range _ _) (mk_is_Some _ _ Ht)) as Hj.
      assert (Hin : t ∈ ts) by (apply zget_Some in Ht as [_ Ht]; by eapply list_elem_of_lookup_2).
      rewrite Forall_forall in IH, Hls, Hrs. destruct (IH t Hin (Hls t Hin) (Hrs t Hin)) as [H1 H2]. split; [done|].
      intros Hne. specialize (H2 Hne). rewrite (Ha j t Ht) in H2. fold cs sz in H2. apply contains_between in H2; [|done|..].
      - destruct H2 as [Hc Hw]. split; [done|]. unfold wall_at in Hw. rewrite Hn in Hw.
        rewrite (proj2 (Z.eqb_neq j _)) in Hw by lia. destruct (Z.eqb_spec (j + 1) (zlen ts)) as [He|]; [by rewrite He, E1|done].
      - unfold wall_at. rewrite (proj2 (Z.eqb_neq j _)) by lia. pose proof (Hmono 0 j ltac:(lia) ltac:(lia)). lia.
      - unfold wall_at. rewrite Hn. fold sz. destruct (Z.eqb_spec (j + 1) (zlen ts)); [done|]. pose proof (Hmono (j + 1) (zlen ts) ltac:(lia) ltac:(lia)). lia. }
    rewrite leaves_at_split. destruct (between_walls (wall_pos sz cs) (along p axis - along (pos (i_area i)) axis) 0 (leaves_at p <$> ts)) as [C1 _].
    { intros j l Hjl. pose proof (proj1 (zget_range _ _) (mk_is_Some _ _ Hjl)) as Hj. rewrite zlen_fmap in Hj.
      destruct (proj2 (zget_range ts j) Hj) as [t Ht]. destruct (Hkid j t Ht) as [K1 K2].
      assert (l = leaves_at p t) as ->.
      { apply zget_Some in Ht as [_ Ht]. rewrite zget_lookup, list_lookup_fmap, Ht in Hjl by lia. by injection Hjl as <-. }
      split; [done|]. by intros [_ ?]%K2. }
    { intros a b Hab Hb. rewrite zlen_fmap in Hb. by apply Hmono. }
    split; [done|]. intros Hne. unfold tree_area. cbn [tinfo].
    destruct (concat (leaves_at p <$> ts)) as [|e es] eqn:E; [done|].
    assert (He : e ∈ concat (leaves_at p <$> ts)) by (rewrite E; left).
    apply elem_of_concat in He as (l&Hel&(t&->&Ht)%list_elem_of_fmap). apply list_elem_of_lookup_1 in Ht as [n Ht].
    destruct (Hkid (Z.of_nat n) t) as [_ K2]; [by rewrite zget_of_nat|]. apply K2. intros Hnil. rewrite Hnil in Hel. by apply elem_of_nil in Hel.
Qed.

(** The cell [p] is on a wall inside a split. *)
Inductive on_wall wp (p : Z * Z) : tree -> Prop :=
  | on_wall_here id i axis ts j :
      contains (i_area i) p = true -> 0 < j < zlen ts ->
      along p axis - along (pos (i_area i)) axis = wall_pos (along (size (i_area i)) axis) (child_of wp axis <$> ts) j ->
      on_wall wp p (TSplit id i axis ts)
  | on_wall_below id i axis ts t : t ∈ ts -> on_wall wp p t -> on_wall wp p (TSplit id i axis ts).

Lemma wall_search (w : Z -> Z) c n : 0 <= n -> w 0 < c -> c <= w n -> exists j, 0 <= j < n /\ w j < c <= w (j + 1).
Proof using.
  intros Hn H0. revert n Hn. apply (natlike_ind (fun n => c <= w n -> _)); [lia|]. intros n Hn IH Hc.
  destruct (Z.le_gt_cases c (w n)) as [Hle|Hgt]; [destruct (IH Hle) as (j&?&?); exists j; lia|].
  exists n. unfold Z.succ in Hc. lia.
Qed.
Lemma between_contains axis area w w' p :
  is_axis axis -> contains area p = true -> w < along p axis - along (pos area) axis < w' -> contains (area_between axis area w w') p = true.
Proof using.
  intros Ha. rewrite !contains_spec. unfold area_between, right, bottom. destruct area as [[px py] [sx sy]], p as [x y].
  destruct Ha as [-> | ->]; unfold along, with_along in *; cbn in *; lia.
Qed.
(** Every cell of the area is in a leaf or on a wall. *)
Lemma laid_covers wp t p : laid wp t -> roomy wp t -> contains (tree_area t) p = true -> leaves_at p t <> [] \/ on_wall wp p t.
Proof.
  induction t as [id i l|id i axis ts IH] using tree_forest_ind; intros Hl Hr Hc; unfold tree_area in Hc; cbn [tinfo] in Hc.
  { left. unfold leaves_at. cbn [leaf_areas List.filter snd]. by rewrite Hc. }
  inversion_clear Hl as [|???? Ha Hls]. inversion_clear Hr as [|???? Hax Hs Hf Hrs].
  set (sz := along (size (i_area i)) axis) in *. set (cs := child_of wp axis <$> ts) in *. set (c := along p axis - along (pos (i_area i)) axis).
  assert (Hn : zlen cs = zlen ts) by apply zlen_fmap. destruct (wall_pos_ends _ _ Hf) as [E0 E1]. rewrite Hn in E1.
  assert (Hrange : 0 <= c < sz).
  { apply contains_spec in Hc. unfold c, sz, right, bottom in *. destruct (i_area i) as [[px py] [sx sy]], p as [x y].
    destruct Hax as [-> | ->]; unfold along; cbn in *; lia. }
  destruct (wall_search (wall_pos sz cs) c (zlen ts)) as (j&Hj&Hwj); [apply zlen_nonneg|lia|lia|].
  destruct (Z.eq_dec c (wall_pos sz cs (j + 1))) as [He|Hne].
  { right. apply (on_wall_here _ _ _ _ _ _ (j + 1)); [done| |exact He]. split; [lia|]. destruct (Z.eq_dec (j + 1) (zlen ts)) as [Hj1|]; [|lia].
    rewrite Hj1, E1 in He. lia. }
  destruct (proj2 (zget_range ts j) Hj) as [t Ht]. assert (Hin : t ∈ ts) by (apply zget_Some in Ht as [_ Ht']; by eapply list_elem_of_lookup_2).
  rewrite Forall_forall in IH, Hls, Hrs. destruct (IH t Hin (Hls t Hin) (Hrs t Hin)) as [Hleaf|Hw].
  - rewrite (Ha j t Ht). fold cs sz. apply between_contains; [done|done|]. fold c. unfold wall_at. rewrite Hn, (proj2 (Z.eqb_neq j _)) by lia.
    destruct (Z.eqb_spec (j + 1) (zlen ts)); lia.
  - left. rewrite leaves_at_split. intros Hnil. apply Hleaf. destruct (leaves_at p t) as [|e es] eqn:E; [done|].
    assert (He : e ∈ concat (leaves_at p <$> ts)); [|rewrite Hnil in He; by apply elem_of_nil in He].
    apply elem_of_concat. exists (leaves_at p t). split; [rewrite E; left|by apply list_elem_of_fmap_2].
  - right. by eapply on_wall_below.
Qed.

(** What the leaves of a tree show: the selected tab of each, in its area. *)
Fixpoint tree_shown t : Shown :=
  match t with
  | TLeaf _ i l => shown_window (tabs l) (selected (tabs_state l)) (i_area i)
  | TSplit _ _ _ ts => concat (tree_shown <$> ts)
  end.
Lemma regions_shown (p : Pool Region) par t : (forall id x, (id, x) ∈ entries par t -> Pool.try_get p id = Some x) ->
  concat (map (region_shown p) (entries par t).*1) = tree_shown t.
Proof.
  revert par. induction t as [id i l|id i axis ts IH] using tree_forest_ind; intros par Hp.
  - cbn. unfold region_shown. rewrite (Hp id (head_region par (TLeaf id i l))) by left. cbn. by rewrite app_nil_r.
  - rewrite entries_unfold in Hp |- *. rewrite fmap_cons. cbn [map concat fst tid]. unfold region_shown at 1. rewrite (Hp id (head_region par (TSplit id i axis ts))) by left.
    cbn [head_region r_content app tree_shown]. unfold below in *. cbn [kids tid fst] in *.
    assert (Hk : forall id' x, (id', x) ∈ ents (Some id) ts -> Pool.try_get p id' = Some x) by (intros; apply Hp; by right). clear Hp.
    induction IH as [|t ts Ht _ IHts]; [done|]. rewrite ents_cons, fmap_app, map_app, concat_app, fmap_cons in *. cbn [concat]. f_equal.
    + apply Ht. intros. apply Hk. apply elem_of_app. by left.
    + apply IHts. intros. apply Hk. apply elem_of_app. by right.
Qed.
End Tiling.

Section Move.
Context `{!WindowContent}.
Implicit Types (st : Layout) (T : tree).

Lemma tree_get_ok k st T C t (Q : Region -> Layout -> Prop) :
  in_tree k st T -> T = plug C t -> Q (head_region (cparent C) t) st -> returns (region_get (tid t)) Q st.
Proof. intros [Ho _] -> HQ. eapply region_get_ok; [exact Ho|apply node_entry|exact HQ]. Qed.

Lemma pointless_ok k st T w region r win :
  in_tree k st T -> windows_ok None (windows st) (leaves T) -> Pool.try_get (windows st) w = Some win ->
  returns (is_window_relocation_pointess w region r) (fun _ st' => st' = st) st.
Proof.
  intros Hin Hok Hw. apply returns_bind. eapply window_get_ok; [exact Hw|].
  destruct (w_region win) as [from|] eqn:Hfrom; [|by apply returns_ret].
  destruct (find_window _ _ _ _ _ Hok Hw Hfrom) as (L1&l&L2&la&lb&HL&_).
  destruct (focus_leaf _ _ _ _ _ HL) as (C&i&HT&_). apply returns_bind.
  apply (tree_get_ok k st T C (TLeaf from i l) _ Hin HT). cbn [head_region r_content r_parent].
  apply returns_bind. eapply returns_opt; [reflexivity|]. destruct (1 <? zlen (tabs l)); [by apply returns_ret|].
  destruct (decide (from = region)); [by apply returns_ret|]. destruct C as [|f C]; cbn [cparent head]; [by apply returns_ret|].
  cbn [fmap option_fmap option_map]. apply returns_bind, returns_bind.
  apply (tree_get_ok k st T C (plug1 f [TLeaf from i l]) _ Hin HT). eapply returns_opt; [reflexivity|].
  cbn [s_children]. assert (Hpos : from ∈ tid <$> f_left f ++ [TLeaf from i l] ++ f_right f).
  { rewrite !fmap_app. apply elem_of_app. right. left. }
  destruct (position_found _ _ Hpos) as (l1&l2&_&_&Hp). apply returns_bind. eapply returns_opt; [exact Hp|].
  destruct r; by apply returns_ret.
Qed.

Lemma drawable_unplug C t : drawable (plug C t) -> drawable t.
Proof.
  revert t. induction C as [|f C IH]; intros t Hd; [done|]. cbn [plug] in Hd. apply IH in Hd.
  inversion_clear Hd as [|???? _ _ _ Hk]. apply Forall_app in Hk as [_ Hk]. by apply Forall_cons in Hk as [? _].
Qed.

Lemma preview_ok k st T w region r drop :
  in_tree k st T -> drawable T -> good_move T (Some (w, region, r, drop)) ->
  returns (preview_window_relocation region r) (fun _ st' => st' = st) st.
Proof.
  intros Hin Hd [Hv Hax]. apply returns_bind. destruct r as [i|i|axis side].
  - destruct Hv as [_ [l (L1&L2&HL)%list_elem_of_split]]. destruct (focus_leaf _ _ _ _ _ HL) as (C&inf&HT&_).
    apply (tree_get_ok k st T C (TLeaf region inf l) _ Hin HT). by apply returns_ret.
  - destruct Hv as (x&s&Hx&Hs&Hi). destruct (focus_split _ _ _ _ _ _ Hin Hx Hs) as (C&inf&ts&HT&Hch&->).
    apply (tree_get_ok k st T C (TSplit region inf (s_axis s) ts) _ Hin HT). cbn [head_region r_content as_split].
    apply returns_bind. eapply returns_opt; [reflexivity|]. cbn [s_children s_axis].
    apply returns_bind. eapply returns_lift; [apply usub_ret; lia|].
    assert (Hkid : forall j, 0 <= j < zlen ts -> exists t, zget (tid <$> ts) j = Some (tid t) /\ exists C', T = plug C' t).
    { intros j Hj. destruct (proj2 (zget_range ts j) Hj) as [t Ht]. exists t. apply zget_Some in Ht as [_ Ht].
      split; [by rewrite zget_lookup, list_lookup_fmap, Ht by lia|].
      apply list_elem_of_split_length in Ht as (l1&l2&->&_). exists (mkFrame region inf (s_axis s) l1 l2 :: C). done. }
    rewrite Hch, zlen_fmap in Hi. destruct (Hkid (i - 1) ltac:(lia)) as (ta&Hza&Ca&Ea). destruct (Hkid i ltac:(lia)) as (tb&Hzb&Cb&Eb).
    apply returns_bind. eapply returns_opt; [exact Hza|]. apply returns_bind. eapply returns_opt; [exact Hzb|].
    apply returns_bind. apply (tree_get_ok k st T Ca ta _ Hin Ea). apply returns_bind. apply (tree_get_ok k st T Cb tb _ Hin Eb).
    assert (Hsax : is_axis (s_axis s)) by (rewrite HT in Hd; apply drawable_unplug in Hd; by inversion Hd).
    repeat (apply returns_bind; eapply returns_lift; [apply at_axis_along || apply set_axis_along; done|]).
    by apply returns_ret.
  - destruct Hv as [_ [l (L1&L2&HL)%list_elem_of_split]]. destruct (focus_leaf _ _ _ _ _ HL) as (C&inf&HT&_).
    apply (tree_get_ok k st T C (TLeaf region inf l) _ Hin HT). cbn [head_region r_area].
    repeat (apply returns_bind; eapply returns_lift; [apply at_axis_along || apply set_axis_along; done|]).
    by apply returns_ret.
Qed.

(** The state stays, or one window is moved. *)
Definition moved_from st st' : Prop := st' = st \/ exists w region r, relocate_window w region r st = (Ret tt, st').
Lemma apply_relocation_ok st T should :
  well_formed st T -> drawable T -> good_move T should ->
  zlen (entries None T) + 2 < region_max -> next_seqno (regions st) + 2 < 2 ^ 64 ->
  returns (apply_relocation should) (fun _ st' => (exists T', well_formed st' T') /\ moved_from st st') st.
Proof.
  intros Hwf Hd Hgood Hlen Hk. unfold apply_relocation. destruct should as [[[[w region] r] drop]|]; [|apply returns_ret; split; [by exists T|by left]].
  apply returns_bind, returns_get. destruct (Pool.try_get (windows st) w) as [win|] eqn:Hw; [|apply returns_ret; split; [by exists T|by left]].
  pose proof (wf_tree _ _ Hwf) as Hin. pose proof (wf_windows _ _ Hwf) as Hok.
  apply returns_bind. eapply returns_mono; [by eapply pointless_ok|]. intros b st1 ->. destruct b; [apply returns_ret; split; [by exists T|by left]|].
  destruct drop.
  - assert (Hr : returns (relocate_window w region r) (fun _ => relocated st T w region r win) st) by (eapply relocate_runs; try done; apply Hgood).
    apply returns_bind. unfold returns in Hr |- *. destruct (relocate_window w region r st) as [[[]| |] st'] eqn:E; [|done|done].
    destruct Hr as (T'&Hwf'&_). split; [by exists T'|]. right. by exists w, region, r.
  - apply returns_bind. eapply returns_mono; [by eapply preview_ok|]. intros a st1 ->. apply returns_ret. split; [by exists T|by left].
Qed.

Lemma valid_target_reshaped T0 T region r : reshaped T0 T -> valid_target T0 region r -> valid_target T region r.
Proof.
  intros Hr Hv.
  assert (Hleaf : (exists l, (region, l) ∈ leaves T0) -> exists l, (region, l) ∈ leaves T).
  { intros [l Hl]. assert (Hid : region ∈ (leaves T).*1).
    { rewrite (reshaped_leaf_ids _ _ Hr). apply list_elem_of_fmap. by exists (region, l). }
    apply list_elem_of_fmap in Hid as ([? l']&->&?). by exists l'. }
  destruct r as [i|i|axis side]; simpl in *; [destruct Hv; auto| |destruct Hv; auto].
  destruct Hv as (x&s&Hx&Hs&Hi). destruct (entry_reshaped None T0 T region x s Hr Hx Hs) as (x'&s'&?&?&?). exists x', s'. split; [done|]. split; [done|lia].
Qed.
End Move.

Section Frame.
Context `{!WindowContent}.
Implicit Types (st : Layout) (T : tree).

(** A layout that can be drawn: every window is in a leaf, sizes and counts
    are within the arithmetic, and the screen has fewer than 2^16 rows and columns. *)
Record frame_ready st T (frame : Frame) : Prop := mkFrameReady {
  fr_wf : well_formed st T;
  fr_drawable : drawable T;
  fr_usize : usize_tabs T;
  fr_fixed : fixed_sizes_ok (windows st);
  fr_attached : all_attached (windows st);
  fr_active : active_alive (windows st) st;
  fr_few : zlen (placed (leaves T)) < 2 ^ 32;
  fr_room : zlen (entries None T) + 2 < region_max /\ next_seqno (regions st) + 2 < 2 ^ 64;
  fr_screen : 0 <= (screen frame).1 < 2 ^ 16 /\ 0 <= (screen frame).2 < 2 ^ 16
}.

Lemma frame_well_formed T0 wp k st T :
  in_frame T0 wp k st T -> normal T0 -> drawable T0 -> 1 <= tree_size T0 <= size_max -> windows_ok None wp (leaves T0) ->
  well_formed st T.
Proof.
  intros [[Ho Hroot] Hr Hs Hw] Hn Hd Hsz Hok. constructor.
  - destruct Ho as [Ho Hk]. split; [by split|done].
  - apply drawable_sized; [by eapply reshaped_drawable|by rewrite Hs].
  - by eapply reshaped_normal.
  - eapply windows_ok_perm; [|by rewrite Hw]. by rewrite (reshaped_placed _ _ Hr).
Qed.

(** The layout [st1], with the tree [T1], as a frame shows it. *)
Record frame_shown st T frame (shown : Shown) st1 T1 : Prop := mkFrameShown {
  fs_wf : well_formed st1 T1;
  fs_reshaped : reshaped T T1;
  fs_drawn : drawn_frame (windows st) frame T1;
  fs_shown : shown ≡ₚ tree_shown T1;
  fs_rows : Forall (fun e => in_row (zlen (tabs e.2)) (tabs_state e.2)) (leaves T1);
  fs_windows : windows st1 = windows st
}.
Definition frame_result st T frame (r : Shown * option Rect) st' : Prop :=
  (exists T', well_formed st' T') /\ exists st1 T1, frame_shown st T frame r.1 st1 T1 /\ moved_from st1 st'.

Lemma frame_shown_ok T0 T1 wp k a st frame T acc st7 ids :
  well_formed st7 T -> in_frame T0 wp k st7 T -> same_areas wp T1 T -> drawn_frame wp frame T1 ->
  showing T0 T1 wp k a ids acc st -> regions st7 = regions st -> ids ≡ₚ (entries None T0).*1 ->
  forall st0, windows st0 = wp -> frame_shown st0 T0 frame acc.2 st7 T.
Proof.
  intros Hwf Hin (Hlaid&_&Harea) [Hd1 Hd2] Hsh Hreg Hids st0 Hwp0. pose proof (inf_tree _ _ _ _ _ Hin) as [Ho _].
  pose proof (reshaped_ids None _ _ (inf_reshaped _ _ _ _ _ Hin)) as Hent.
  constructor; [done|apply (inf_reshaped _ _ _ _ _ Hin)|rewrite Hwp0; split; [by apply Hlaid|congruence]| | |rewrite Hwp0; apply (inf_windows _ _ _ _ _ Hin)].
  - rewrite (sh_exact _ _ _ _ _ _ _ _ Hsh), <- Hreg, <- (regions_shown (regions st7) None T).
    + rewrite Hent, <- !flat_map_concat_map. by apply Permutation_flat_map.
    + intros id x Hx. by eapply owned_try_get; [apply Ho|].
  - apply Forall_forall. intros [id l] Hl. destruct (leaf_live _ _ _ _ _ _ _ Hin Hl) as (x&Hx&Hc). cbn [snd].
    apply (sh_rows _ _ _ _ _ _ _ _ Hsh id x l); [|rewrite <- Hreg; by apply live_elem_get|done].
    rewrite Hids, <- Hent. apply list_elem_of_fmap. exists (id, x). split; [done|]. by eapply live_entry.
Qed.

Lemma build_frame_ok st T frame : frame_ready st T frame -> returns (build frame) (frame_result st T frame) st.
Proof.
  intros [Hwf Hdraw Hus Hfx Hatt Hact Hfew [Hlen Hk] [Hs1 Hs2]]. pose proof Hwf as [Hin Hsized Hnorm Hok].
  set (k := next_seqno (regions st)) in *. set (wp := windows st) in *.
  assert (Hsz : 1 <= tree_size T <= size_max).
  { unfold sized in Hsized. rewrite entries_unfold in Hsized. apply Forall_cons in Hsized as [Hh _].
    cbn [snd] in Hh. by replace (relative_size (head_region None T)) with (tree_size T) in Hh by (by destruct T). }
  assert (Hf0 : in_frame T wp k st T) by (constructor; [done|apply reshaped_refl|done|done]).
  apply returns_bind. eapply returns_mono.
  { apply (sfold_inv (fun _ st' => in_frame T wp k st' T /\ active_alive wp st')); [|done].
    intros b n st1 _ [Hin1 Ha1]. eapply returns_mono; [by apply window_key_ok|]. by intros ?? (?&?&_). }
  intros switched st1 [Hin1 Ha1]. apply returns_bind. eapply returns_mono; [by eapply find_active_leaf_ok|].
  intros _ st2 (T2&Hin2&Ha2&Hact2). apply returns_bind. eapply returns_mono.
  { apply (sfor_inv (fun st' => in_frame T wp k st' T2 /\ active_alive wp st' /\ active_ok T st')); [|done].
    intros key st3 _ (?&?&?). by apply arrow_ok. }
  intros _ st3 (Hin3&_&Hact3). apply returns_bind. eapply returns_mono.
  { eapply (build_regions_ok T wp k Hnorm Hok frame T2); try done. unfold region_max in *. lia. }
  intros should st4 (T4&Hin4&Hdrawn&Hgood&Hact4). apply returns_bind, returns_get.
  destruct (frame_leaf_id _ _ _ _ _ _ Hin4 Hact4) as (l&Hl). destruct (leaf_live _ _ _ _ _ _ _ Hin4 Hl) as (x&Hx&_).
  apply returns_bind. destruct (inf_tree _ _ _ _ _ Hin4) as [Ho4 _].
  eapply region_get_ok; [exact Ho4|by eapply live_entry|].
  apply returns_bind, returns_modify, returns_bind, returns_get. rewrite iter_mut_live.
  cbn [set_active_window regions]. set (st5 := set_active_window None st4).
  apply returns_bind. eapply returns_mono.
  { apply (build_leaves_ok T T4 wp k (active_leaf st4) Hok Hact4 Hus Hfew frame [] _ _ st5).
    - constructor; [|done|done|constructor|done|by intros id ?? ?%elem_of_nil|by intros w [=]]. exists T4. split; [by eapply frame_other|]. split; [done|]. by split.
    - intros id. by eapply in_frame_ids.
    - apply Pool.live_from_nodup.
    - right. apply list_elem_of_fmap. by exists (active_leaf st4, x). }
  intros [should' shown] st6 [Hsh Hhand]. apply returns_bind. eapply returns_mono.
  { by eapply (fallback_window_ok T T4 wp k (active_leaf st4) Hok Hact4 _ (should', shown)). }
  intros _ st7 (T7&Hin7&Hsame7&Hreg7&_&_). pose proof (frame_well_formed _ _ _ _ _ Hin7 Hnorm Hdraw Hsz Hok) as Hwf7.
  apply returns_bind. eapply returns_mono.
  { apply (apply_relocation_ok st7 T7 should' Hwf7).
    - eapply reshaped_drawable; [apply (inf_reshaped _ _ _ _ _ Hin7)|done].
    - pose proof (sh_move _ _ _ _ _ _ _ _ Hsh) as Hg. cbn [fst] in Hg. unfold good_move in *.
      destruct should' as [[[[w region] r] drop]|]; [|done]. destruct Hg as [Hv Hax]. split; [|done].
      eapply valid_target_reshaped; [apply (inf_reshaped _ _ _ _ _ Hin7)|done].
    - by rewrite (reshaped_length None _ _ (inf_reshaped _ _ _ _ _ Hin7)).
    - destruct (inf_tree _ _ _ _ _ Hin7) as [[_ Hk7] _]. by rewrite Hk7. }
  intros preview st8 (Hwf8&Hmoved). apply returns_ret. split; [done|]. exists st7, T7. split; [|done].
  assert (Hids : (Pool.live (regions st4)).*1 ≡ₚ (entries None T).*1).
  { rewrite <- (reshaped_ids None _ _ (inf_reshaped _ _ _ _ _ Hin4)), (owned_unique _ _ _ (owned_live _ (owned_inv _ _ (proj1 Ho4))) (proj1 Ho4)). done. }
  by apply (frame_shown_ok T T4 wp k (active_leaf st4) st6 frame T7 (should', shown) st7 _ Hwf7 Hin7 Hsame7 Hdrawn Hsh Hreg7 Hids).
Qed.

(** C6. A frame never panics, drawing aside: whatever keys are pressed, walls
    dragged, tabs clicked and windows dropped, [build] finishes on a well-formed
    layout in which every window is in a leaf - its assertions that each region
    and each window is visited once and names its parent or leaf, that the
    active leaf has a tab shown, its array indices, divisions, [unwrap]s and
    subtractions all hold - and leaves a well-formed layout. *)
Theorem frame_never_panics st T frame :
  frame_ready st T frame -> exists shown preview st' T', build frame st = (Ret (shown, preview), st') /\ well_formed st' T'.
Proof.
  intros Hr. pose proof (build_frame_ok st T frame Hr) as Hb. unfold returns in Hb.
  destruct (build frame st) as [[[shown preview]| |] st']; [|done|done]. destruct Hb as [(T'&?) _]. by exists shown, preview, st', T'.
Qed.

(** C13. What is shown tiles the screen. A frame shows the regions that it leaves
    behind, before the one window that may be moved at its end: a state [st1]
    whose tree [T1] has the regions, and in each leaf the windows, of the tree
    before (the frame changes sizes along dragged walls, areas and selected
    tabs). The root's area is the screen without its outer walls; each region's
    area is what is between its two walls in its parent, in the parent's full
    extent along the other axis, where walls are at the sums of the fixed sizes
    and the rounded shares of flexible ones; and exactly the selected tab of
    each leaf is shown, in the leaf's area - one of each leaf that has tabs.
    When everything fits, each cell of the root's area is in exactly one leaf or
    else on a wall, and no leaf has other cells. *)
Theorem shown_windows_tile_screen st T frame :
  frame_ready st T frame ->
  exists shown preview st' st1 T1, build frame st = (Ret (shown, preview), st') /\ moved_from st1 st' /\
    well_formed st1 T1 /\ windows st1 = windows st /\ reshaped T T1 /\
    tree_area T1 = root_area (outer_walls frame) (screen frame) /\ laid (windows st) T1 /\
    shown ≡ₚ tree_shown T1 /\ Forall (fun e => tabs e.2 <> [] -> is_Some (zget (tabs e.2) (selected (tabs_state e.2)))) (leaves T1) /\
    (roomy (windows st) T1 -> forall p, (length (leaves_at p T1) <= 1)%nat /\
       (leaves_at p T1 <> [] -> contains (root_area (outer_walls frame) (screen frame)) p = true) /\
       (contains (root_area (outer_walls frame) (screen frame)) p = true -> leaves_at p T1 <> [] \/ on_wall (windows st) p T1)).
Proof.
  intros Hr. pose proof (build_frame_ok st T frame Hr) as Hb. unfold returns in Hb.
  destruct (build frame st) as [[[shown preview]| |] st']; [|done|done]. destruct Hb as (_&st1&T1&[Hwf Hre [Hl Ha] Hs Hrows Hw]&Hmoved).
  cbn [fst] in Hs. exists shown, preview, st', st1, T1. split_and!; try done.
  - eapply Forall_impl; [exact Hrows|]. intros [id l] Hrow Hne. cbn [snd] in *. apply zget_range. unfold in_row in Hrow.
    destruct (tabs l) as [|w ws]; [done|]. rewrite zlen_cons in *. pose proof (zlen_nonneg ws). lia.
  - intros Hroom p. rewrite <- Ha. destruct (laid_tiles _ T1 p Hl Hroom) as [H1 H2]. split; [done|]. split; [done|]. by apply laid_covers.
Qed.
End Frame.

(** ** A frame of the layout with three windows, on a screen of 80 by 25 cells *)

Section Example.
#[local] Existing Instance no_content.

Definition example_tree : tree :=
  TSplit (mkId 1 2) (mkInfo 1000000 Rect_default) 0
    [TLeaf left_leaf (mkInfo 500000 Rect_default) (mkLeaf [mkId 0 1; mkId 1 2] TabsState_default);
     TLeaf right_leaf (mkInfo 500000 Rect_default) (mkLeaf [mkId 2 3] TabsState_default)].
(** The right arrow key is pressed, the wall is dragged by three cells, and the
    window on the right is dropped near the left edge of the left leaf. *)
Definition example_frame : Frame :=
  mkFrameInput [] [WindowRight] (80, 25) (fun _ _ => true) (fun _ => false)
    (fun id => if decide (id = left_leaf) then Some (mkId 2 3, (1, 10), true) else None)
    (fun _ _ => Some 3) (fun _ _ => None)
    (fun _ => mkTabsInput (fun _ => false) [] None (fun i => i * 5) 0).

Lemma example_windows w win :
  Pool.try_get (windows example_layout) w = Some win ->
  (w = mkId 0 1 /\ win = make_window (Some left_leaf) CodeWin) \/ (w = mkId 1 2 /\ win = make_window (Some left_leaf) Stack) \/
  (w = mkId 2 3 /\ win = make_window (Some right_leaf) Threads).
Proof.
  intros Hw. apply live_elem_get in Hw.
  assert (Hl : Pool.live (windows example_layout) = [(mkId 0 1, make_window (Some left_leaf) CodeWin);
    (mkId 1 2, make_window (Some left_leaf) Stack); (mkId 2 3, make_window (Some right_leaf) Threads)]) by (vm_compute; reflexivity).
  rewrite Hl in Hw. rewrite !elem_of_cons in Hw. destruct Hw as [[= -> ->]|[[= -> ->]|[[= -> ->]|[]%elem_of_nil]]]; auto.
Qed.

Lemma example_placed :
  placed (leaves example_tree) = [(mkId 0 1, left_leaf); (mkId 1 2, left_leaf); (mkId 2 3, right_leaf)].
Proof. by vm_compute. Qed.

Lemma example_well_formed : well_formed example_layout example_tree.
Proof.
  destruct (reachable_wf _ example_layout_reachable) as [T [[[Ho _] _] _ _ Hok]].
  pose proof (owned_inv _ _ Ho) as Hinv. apply owned_live in Hinv.
  assert (Hl : Pool.live (regions example_layout) ≡ₚ entries None example_tree).
  { vm_compute. etransitivity; [apply perm_swap|]. apply perm_skip. apply perm_swap. }
  rewrite Hl in Hinv. constructor.
  - split; [split; [exact Hinv|done]|reflexivity].
  - unfold sized. repeat constructor; by vm_compute.
  - repeat constructor; done.
  - constructor; [apply (wo_inv _ _ _ Hok)|by apply (bool_decide_unpack _); vm_compute| |done].
    intros w id _. rewrite example_placed. split.
    + rewrite !elem_of_cons. intros [[= -> ->]|[[= -> ->]|[[= -> ->]|[]%elem_of_nil]]]; eexists; (split; [vm_compute; reflexivity|reflexivity]).
    + intros (win&Hw&Hr). apply example_windows in Hw as [[-> ->]|[[-> ->]|[-> ->]]]; injection Hr as <-; rewrite !elem_of_cons; auto.
Qed.

Lemma example_frame_ready : frame_ready example_layout example_tree example_frame.
Proof.
  constructor.
  - exact example_well_formed.
  - repeat constructor; done.
  - repeat constructor; done.
  - intros w win axis s Hw Hs. apply example_windows in Hw as [[-> ->]|[[-> ->]|[-> ->]]]; unfold along in Hs; by destruct (axis =? 0).
  - intros w win Hw. apply example_windows in Hw as [[-> ->]|[[-> ->]|[-> ->]]]; vm_compute; by eexists.
  - intros w Hw. vm_compute in Hw. done.
  - vm_compute. reflexivity.
  - split; vm_compute; reflexivity.
  - split; split; vm_compute; congruence.
Qed.

Definition first_of {A} (d : A) (r : lay A) (st : Layout) : A * Layout :=
  match r st with (Ret a, st') => (a, st') | (_, st') => (d, st') end.

Lemma frame_never_panics_witness :
  exists shown preview st' T', build example_frame example_layout = (Ret (shown, preview), st') /\ well_formed st' T'.
Proof. exact (frame_never_panics example_layout example_tree example_frame example_frame_ready). Defined.

(** Everything fits, however the wall is dragged. *)
Lemma example_roomy T1 : reshaped example_tree T1 -> tree_area T1 = mkRect (1, 1) (78, 23) -> roomy (windows example_layout) T1.
Proof.
  intros Hr Ha. pose proof (reshaped_drawable _ _ Hr (fr_drawable _ _ _ example_frame_ready)) as Hd.
  inversion Hr as [|? ? i' ? ? ts Hts]; subst. inversion_clear Hd as [|???? Hax H1 Hsum _]. unfold tree_area in Ha. cbn [tinfo] in Ha.
  assert (Hlen : length ts = 2%nat) by (by apply Forall2_length in Hts). assert (Hz : zlen ts = 2) by (unfold zlen; by rewrite Hlen).
  destruct (children_sane (windows example_layout) 0 ts 78) as [Hs _]; try done; [apply (fr_fixed _ _ _ example_frame_ready)|by destruct ts|by rewrite Hz|].
  apply Forall2_cons_inv_l in Hts as (t1&ts1&Ht1&Hts&->). apply Forall2_cons_inv_l in Hts as (t2&ts2&Ht2&Hts&->). apply Forall2_nil_inv_l in Hts as ->.
  inversion Ht1 as [? ? i1 ? l1 [Hl1 _]|]; subst. inversion Ht2 as [? ? i2 ? l2 [Hl2 _]|]; subst. cbn [tabs] in Hl1, Hl2.
  destruct l1 as [tabs1 ts1], l2 as [tabs2 ts2]. cbn [tabs] in Hl1, Hl2. subst tabs1 tabs2.
  constructor; [done|by rewrite Ha| |by repeat constructor]. rewrite Ha. change (along (size (mkRect (1, 1) (78, 23))) 0) with 78.
  assert (Hc : child_of (windows example_layout) 0 <$> [TLeaf left_leaf i1 (mkLeaf [mkId 0 1; mkId 1 2] ts1); TLeaf right_leaf i2 (mkLeaf [mkId 2 3] ts2)] =
    [(false, i_size i1, left_leaf); (false, i_size i2, right_leaf)]).
  { rewrite !fmap_cons. unfold child_of at 1. cbn [fixed_along]. unfold child_of. cbn [fixed_along fmap list_fmap].
    assert (Hw : Pool.try_get (windows example_layout) (mkId 2 3) = Some (make_window (Some right_leaf) Threads)) by (vm_compute; reflexivity).
    rewrite Hw. done. }
  rewrite Hc. apply Forall_cons in H1 as [H1 [H2 _]%Forall_cons]. unfold tree_size in *. cbn [tinfo] in *.
  split; [by vm_compute|]. change (0 < i_size i1 + (i_size i2 + 0)). lia.
Qed.

(** The wall is three cells to the right of the middle, and the selected tab of
    each leaf is shown. *)
Lemma shown_windows_tile_screen_witness :
  exists T1, tree_area T1 = mkRect (1, 1) (78, 23) /\ laid (windows example_layout) T1 /\
    [(mkId 2 3, mkRect (44, 1) (35, 23)); (mkId 0 1, mkRect (1, 1) (42, 23))] ≡ₚ tree_shown T1 /\
    forall p, contains (mkRect (1, 1) (78, 23)) p = true -> leaves_at p T1 <> [] \/ on_wall (windows example_layout) p T1.
Proof.
  destruct (shown_windows_tile_screen example_layout example_tree example_frame example_frame_ready)
    as (shown&preview&st'&st1&T1&Hb&_&_&_&Hr&Ha&Hl&Hs&_&Htiles).
  assert (Hshown : shown = (first_of ([], None) (build example_frame) example_layout).1.1) by (unfold first_of; by rewrite Hb).
  assert (Hroot : root_area (outer_walls example_frame) (screen example_frame) = mkRect (1, 1) (78, 23)) by by vm_compute.
  rewrite Hroot in Ha, Htiles. exists T1. split; [exact Ha|]. split; [exact Hl|].
  split; [rewrite <- Hs, Hshown; vm_compute; reflexivity|]. intros p. apply (Htiles (example_roomy T1 Hr Ha) p).
Defined.
End Example.
